(* ===== verification/_CoqProject ===== *)
-Q . S2P
Prelude.v
GoStrings.v
GoNum.v
GoTime.v
GoGlob.v
GoRegexp.v
GoNet.v
GoPath.v
PathGrants.v
LoopStore.v
LoopDecide.v
LoopEngine.v
WorkflowRegistry.v
LoopLauncher.v
Recovery.v
RecoveryBroker.v
HarnessProfile.v
Truncate.v
HarnessTurn.v
Tasks.v
Lifecycle.v
Workers.v
ApiAuth.v
ApiGuard.v
ApiHandlers.v
Background.v
ScheduleStore.v
Scheduler.v
Envelopes.v
GrantLease.v
PluginManager.v
ChatLoop.v
Generations.v
GenerationSafety.v
GenerationProgress.v
Streams.v
StreamDelivery.v
StreamTakeover.v
DefinitionFiles.v
DefinitionSafety.v
AgentPolicy.v
