(* ===== verification/Prelude.v ===== *)
(** * Nanite: a verification development

    Nanite (the Go program under [src/]) hosts language-model agents: chat
    sessions whose tools act on the user's files, workflows made of steps, loops
    that run a workflow again and again until a goal is met, schedules that start
    such work, a broker that restarts agent sessions which died, and an HTTP API in
    front of it all.  This development models the parts of it that carry decisions
    of their own, as executable definitions translated from the source, and proves
    the properties those parts are relied on for.

    ** The modelled parts and how they meet

    - Path grants ([internal/permission]).  A tool may touch a path when the
      session, or one of its recorded ancestors, was granted it.  Grants come
      from the program and from paths the user mentions in a message; the mention
      policy keeps credential directories and agent state closed.
    - Loop tables ([internal/store]: goals, goal_evidence, loop_runs,
      loop_run_iterations), the continuation policy ([internal/loop/decide.go]), the
      loop engine ([internal/loop/engine.go] with the tick and outer-resume files)
      that runs and resumes loops over the tables with the policy, and the launcher
      ([internal/loop/launcher.go], [presets.go], [step_launcher.go]) that turns a
      preset or a workflow name into a run.  A workflow run is one call of the host.
    - Workflow definitions ([internal/agentworkflow]): what a loop or a workflow step
      names, its validation and its registry.
    - Recovery broker ([internal/recovery/broker]): classifies the exit of an agent
      session, repairs what it can, boots a replacement, tells the user and leaves a
      breadcrumb; many exits at once, any of them canceled by the user.
    - Harness profiles ([internal/harnessprofile], [service/harness_profile.go]): the
      limits a chat run works under, resolved from layers of configuration; the loop
      state of a turn ([chat_loop_state.go]) is installed with them, and the output of
      its tools is cut to them ([internal/truncate]).
    - Tasks, workers and background jobs ([internal/task], [internal/coordination],
      [internal/worker], [internal/background], [internal/lifecycle]): delegated work,
      its bookkeeping, its bounded execution and its reports.
    - HTTP authentication ([internal/apiauth]): credentials, sessions and login links,
      the guard in front of every route, the registry of running requests and the
      credential API.
    - Schedules ([internal/store] and [service/schedules.go]) and the adapters that
      drive them ([internal/scheduler]): the tables of schedules, fires and workflow
      activations, the claim and lease of a fire, its dispatch and its receipt.
    - Envelopes and elicitation ([internal/chat], [service/envelopes.go],
      [internal/elicitation]): what the user is asked in a session and answers.
    - Plugin processes ([internal/plugin/subprocess]): the lease a running plugin
      holds on the host's capabilities, and the manager that binds a lease to each
      incarnation of the process, renews its grants and fences its calls.
    - The turns of a chat session ([service/chat.go] and the send of
      [service/chat_boot_drive.go]): a message sent while a turn runs queues behind
      it; a turn that is cancelled, or whose send fails, must reach a boundary before
      the next may drive the agent runtime.
    - The event streams of messages ([service/stream.go], read by [api/messages.go]):
      what a turn produces on its way to the browsers, which come back with a cursor
      and take each other's place.
    - The definitions of agents ([internal/agentpolicy] and its users): the strict JSON of
      their policies, their reflex rules, and the instructions, files and skills a
      definition brings to a launch.

    ** Files

    - [Prelude]: results, the state-and-error monad [act] of Go handlers, its
      frame lemmas ([stays]), labelled steps, lists, tactics and hints.
    - [GoStrings], [GoPath], [GoNum], [GoGlob], [GoRegexp], [GoNet], [GoTime]: the
      parts of Go's library the code calls, on byte strings: [strings], [unicode],
      [path/filepath], machine integers and floats with [strconv], [path.Match],
      [regexp], [net], and [time] with the RFC 3339 layouts, with their lemmas.
    - [PathGrants]: [path_grants.go], [path_mention_policy.go], [home_dir.go].
      The store is a map from session to bucket plus the parent map; the file
      system (symbolic links, [stat]) and the home directory are parameters.
    - [LoopStore]: the four store files.  A table is a list of rows; a statement
      may fail at any time as the environment says ([Oracle]: the clock, fresh
      identifiers and database failures, per tick); key constraints and the cascades of
      deletes are written out.  The JSON codecs of the columns are the class
      [JSON], what the code relies on of them the class [JSONLaws].
    - [LoopDecide]: [decide.go], the model call being a parameter, its answer
      parsed by the modelled parser.
    - [LoopEngine]: [engine.go], [types.go], [tick_schedule.go],
      [tick_resume.go], [outer_resume.go].  The workflow host, the contexts'
      deadlines, the notifier and the agent check are parameters that may answer
      anything at each tick.
    - [WorkflowRegistry]: [types.go], [validate.go], [registry.go],
      [definition_yaml.go], [required_inputs.go]; the YAML decoder and the files
      are parameters.
    - [LoopLauncher]: [presets.go], [launcher.go], [step_launcher.go] and the
      request types of [service/workflow_loop_adapter.go].
    - [Recovery]: [types.go], [classifier.go], [envelope.go], the pure
      helpers of [broker.go] and the provider layouts of [runtime/agent/bootdir.go].
    - [RecoveryBroker]: [broker.go], [orchestration.go], [remediator.go].  A call
      is a command tree whose operations are the reads and writes of the shared
      maps and the calls of the dependencies; the system interleaves the
      operations of any number of calls with cancellations and clears.
    - [HarnessProfile]: [knobs.go], [profile.go], [registry.go], [resolve.go];
      [HarnessTurn]: [service/harness_profile.go].  Values are [int] and [float64] at
      their width; the YAML decoder and the model catalogue are parameters.
    - [Truncate]: [truncate.go], [utf8.go]; the model catalogue and the outcomes
      of file operations are parameters.
    - [ChatLoop]: [chat_loop_state.go], [chat_scratchpad.go],
      [chat_scratchpad_persist.go], [detectStuckLoop] of [chat_generate.go] and
      the blocked branch of [preCheckTools] in [chat_tool_executor.go].  The
      scratchpad's file is a value beside the state; JSON values are a parameter.
    - [Tasks]: [task/*.go] over [coordination/*.go], [api/tasks.go] and the tracking of
      [service/delegation.go].  [Lifecycle]: [lifecycle.go].  [Workers]:
      [worker/*.go], every call a program counter over the shared semaphore and map.
      [Background]: [background/*.go], every critical section a step.
    - [ApiAuth]: [credential.go], [store.go], [agent_ttl.go], [bootstrap.go];
      [ApiGuard]: [principal.go], [routes.go], [middleware.go], [registry.go],
      [tether.go]; [ApiHandlers]: [handlers.go] and the host's calls of the store.
      The mux, the hash, the random source, JWT and the Tether verifier are parameters.
    - [ScheduleStore]: [agent_schedules.go], [schedule_runs.go], the schedules and
      fires of [workflow_activations.go], [service/schedules.go].  A table is a map
      from its key, a transaction one step; cron, [json.Valid] and SQLite's [julianday]
      are parameters.  [Scheduler]: [store_adapter.go], [runner_adapter.go],
      [telemetry.go]; the scheduling library is the caller, and the targets of a job
      are parameters whose calls are recorded.
    - [Envelopes]: the responses and their handlers, the rows, the service that records
      a response, the questions of tools and the confirmation of a directive, as one
      transition system; [apply] executes a step.
    - [GrantLease]: [grant_lease.go] over Go's contexts, [AfterFunc] callbacks and
      timers; the capability data of the plugin SDK is the class [Capability].
      [PluginManager]: [manager.go], [manager_grants.go], [environment.go] and the
      renewal call of [transport.go]: callbacks of the supervisor and calls of the
      host as program counters over the manager and the heap of leases; [papply]
      executes a step.  The supervisor decides when it calls back ([in_order]).
    - [Generations]: the registry, queue, cancellation and boundaries of
      [service/chat.go], the send and its clean-up of [chat_boot_drive.go], the history
      check of [client_context_slot.go], [cognitive_cancel.go].  Every goroutine is a
      program counter in the record of its turn; [apply] executes a step; the runner of a
      turn is the assumption [orderly].  [GenerationSafety]: the invariant and the send.
      [GenerationProgress]: one turn at a time, the lost session, the end of cancellation.
    - [Streams]: [stream.go]: the pump of a message, subscriptions, the index of a
      session, SSE connections and presence, every call of the manager a program counter;
      a channel is its buffer and whether it is closed; [apply] executes a step.
      [StreamDelivery]: what readers receive.  [StreamTakeover]: takeovers and panics, with
      the end of a response of [api/messages.go].
    - [AgentPolicy]: [agentpolicy/policy.go] and [reflex.go]; a JSON text is the tokens of
      the decoder.  [DefinitionFiles]: [render.go], [skilltree.go], [execution.go], the
      delivery of granted skills and [runtime/agent/definition_files.go]; a set of files is
      a map from path to bytes.  [DefinitionSafety]: its theorems.

    ** What the theorems show

    - Path grants: no sequence of messages opens a denylisted directory or agent
      state, by spelling or real path; a lookup accepts exactly the granted
      subtree of the lineage; messages do not cross sessions; what a message
      grants is accepted; protection follows the grant; symbolic-link resolution
      terminates.
    - Loop tables and policy: every sequence of calls keeps the tables well formed;
      the goal test is the coverage it claims to be; stamps are written once; budgets
      round-trip.  When the policy continues, exactly; exhaustion is final and needs no
      model; a model verdict is one of the eligible ones.
    - Engine: for every sequence of calls and every failure of the environment,
      one active run per goal and consecutive iteration numbers, while the workflows
      it waits for launch loops of their own from loop steps ([evolves]); idempotent
      launches; termination within the budget; the reported status is the stored
      one; what a completed iteration is classified as; and the one state from
      which a run cannot be resumed.
    - Definitions and launcher: registries hold valid definitions, loads and
      input scans are exact; a launch runs what was asked, the built-in preset
      ends within its default budget and never asks the model, and a loop step
      launched again finds its child.
    - Recovery: classes and remediations agree; back-off bounds; and, under every
      interleaving, the retry budget, truthful breadcrumbs, cancellation bound to
      its session, no leaked cancel entry, dispatch fitting the provider, and
      every call ending within a fixed number of operations.
    - Harness: resolved values are within the host's bounds, but for a fraction that
      was stated as not a number, and come from the last layer that states them; the output budget of a turn follows the free context.
    - Chat turn and tool output: the stop checks and caps say what happened in the
      turn; the scratchpad refines a map that turn boundaries and failed saves do not
      disturb while its file can be read; a tool that repeats its result is never blocked for it; visible output
      is within the limits, whole lines or cut between runes.
    - Tasks, workers, jobs: the task backend refines a map; a snapshot and a restore
      bring back the unfinished tasks, those deleted since included; worker slots are
      bounded and all freed; a shutdown drains; a finished job leaves one message or,
      when that cannot be sent, one line in the log; retention is fair, output is a prefix; and what
      overlapping calls and stale copies break.
    - API: a handler runs only for an allowed host and, outside the open routes, with
      the scope its route asks for; revocation and spending of a link are forever; the
      operator is not locked out without the recovery command; revoked requests are
      ended but for one stated window; secrets authenticate as what they were made for.
    - Schedules: fires are kept and an occurrence fires once; a lease is exclusive and
      a stale owner is refused; due schedules are found and can be fired; an accepted
      fire is never dispatched again, a dispatch makes one call at most; a fire survives
      its row; the policy of a failing schedule; and how an edit undoes a firing.
    - Envelopes: a handler runs once per envelope, a claimed envelope gets an outcome,
      a recorded response is final and the transcript tells it; a question is answered
      through its own envelope and always ends; a directive needs a submitted answer; a
      table accepts what it offered; and the late answer that is reported as given.
    - Plugins: a live permit has live authority; a lease ends once and for all; a
      dispatch stays with the incarnation it was admitted for; a renewal that was sent
      is committed or ends the lease; a stopped manager stays stopped; the renewals
      of a connection are numbered 1, 2, 3, ... up to the largest safe integer; every call of the manager returns.
    - Turns of a session: one turn runs at a time and one prompt is with the runtime at a
      time; a cancellation ends within sixteen steps; no channel is closed twice; and a
      turn that ends with its boundary open before a queued one ends its session, which
      [lost_history] and [lost_root] show to happen.
    - Streams: a subscription is sent what it is owed, in order and once; a reader that
      comes back misses nothing in silence; a takeover is told; and the one race in which
      the manager sends on a closed channel.
    - Definitions: policies are read from exactly one strict document; the answer of the
      reflex rules does not depend on their order; planted files are pinned files below
      their root, delivered skills were granted, packed skills unpack; and how a pinned
      file becomes a skill without a grant.

    The statements that are the properties of the development carry an identifier in
    their comment; others, without one, are proved beside them.

    ** Bounds and fuel

    - [realPath] climbs at most one level per byte of the path; its fuel is the
      length plus two, and [realPath_terminates] shows more changes nothing.
    - [drive], the iteration loop of the engine, has fuel because a loop without
      an iteration budget need not end.  Running out is the error
      [ErrUnfinished], no result; [bounded_run_terminates] and
      [bounded_resume_terminates] show that the iteration budget is enough, and
      the invariants hold for every fuel.
    - The chain of profiles a profile extends has the number of candidates plus two as
      fuel: a longer chain repeats a name and is refused.
    - [checkObject] has twice the tokens of its text as fuel, and [checkObject_total] shows
      that it never runs out; [validatePredicate] has the depth the code allows.
    - The parsers of patterns, addresses and times recurse on the text or have its
      length as fuel; [itoa] has twenty digits, more than a 64-bit number has.
    - A broker call has no loop: [every_call_ends] bounds it by 18 operations.  The
      calls of the worker manager end by a rank that every step lowers.
    - Integers are [Z]; where the code can overflow ([ApiHandlers], [Background],
      [HarnessProfile], [ScheduleStore]) the wrap-around is written out, elsewhere they
      are counters far below 64 bits.

    ** What is not modelled

    Logging everywhere; the model providers, the process and container runtime, the
    web user interface and the routing and encoding of HTTP: transport or operating
    system work.  The workflow host builds on a library that is not part of the
    repository and is seen through its results, as are the scheduling library, JWT,
    cron, the JSON and YAML codecs and SQLite's date functions.  Candidates for later
    work, in this order: the reflexes of agent profiles ([internal/agent/reflexes]),
    dispatch and trust ([internal/dispatch]), the selection of context
    ([internal/contextbroker]), the orphan sweep ([internal/recovery]) and the driver of
    the chat loop ([service/chat_generation_actions.go]), which runs a turn inside
    [Generations].  Of the streams the delivery of plugin envelopes, the throttle and
    state of presence and the run of a native turn are left out; of the definitions of
    agents their storage, authoring and the grants themselves. *)

From stdpp Require Export prelude strings gmap list.
From Stdlib Require Export Ascii ZArith Lia.

#[global] Set Default Goal Selector "!".

Declare Scope nanite_scope.
Delimit Scope nanite_scope with nanite.
#[global] Open Scope nanite_scope.

(** ** Results: Go's [(T, error)] returns *)

(** A fallible Go call returns a value or an error.  Every component has its
    own error type [E], one constructor per error the code builds. *)
Inductive result (E A : Type) : Type :=
| Ok (a : A)
| Err (e : E).
Arguments Ok {E A} a.
Arguments Err {E A} e.

#[global] Instance result_ret E : MRet (result E) := λ A a, Ok a.
#[global] Instance result_bind E : MBind (result E) :=
  λ A B f m, match m with Ok a => f a | Err e => Err e end.
#[global] Instance result_fmap E : FMap (result E) :=
  λ A B f m, match m with Ok a => Ok (f a) | Err e => Err e end.

Definition is_ok {E A} (r : result E A) : bool :=
  match r with Ok _ => true | Err _ => false end.

(** ** Code that threads a world and may fail *)

(** [act W E A]: a Go function that reads and writes the world [W] and returns
    [(A, error)].  The world survives an error: what was written before the
    failing call stays written. *)
Definition act (W E A : Type) : Type := W → result E A * W.

#[global] Instance act_ret W E : MRet (act W E) := λ A a w, (Ok a, w).
#[global] Instance act_bind W E : MBind (act W E) :=
  λ A B f m w,
    match m w with
    | (Ok a, w') => f a w'
    | (Err e, w') => (Err e, w')
    end.

Definition fail {W E A} (e : E) : act W E A := λ w, (Err e, w).
Definition get {W E} : act W E W := λ w, (Ok w, w).
Definition put {W E} (w : W) : act W E unit := λ _, (Ok tt, w).
Definition modify {W E} (f : W → W) : act W E unit := λ w, (Ok tt, f w).
Definition lift {W E A} (r : result E A) : act W E A := λ w, (r, w).

(** A call whose error the caller looks at, or drops. *)
Definition attempt {W E A} (m : act W E A) : act W E (result E A) :=
  λ w, let '(r, w') := m w in (Ok r, w').

(** [stays R m]: whatever [m] returns, it moves the world along [R].  For a
    preorder [R] this is compositional, so a frame or monotonicity fact about a
    long handler is a matter of its primitive steps. *)
Definition stays {W E A} (R : relation W) (m : act W E A) : Prop := ∀ w, R w (m w).2.

Section Stays.
Context {W E : Type} (R : relation W) `{!PreOrder R}.

Lemma stays_ret {A} (a : A) : stays R (mret a : act W E A).
Proof. intros w. cbn. reflexivity. Qed.
Lemma stays_fail {A} (e : E) : stays R (fail e : act W E A).
Proof. intros w. cbn. reflexivity. Qed.
Lemma stays_get : stays R (get : act W E W).
Proof. intros w. cbn. reflexivity. Qed.
Lemma stays_lift {A} (r : result E A) : stays R (lift r : act W E A).
Proof. intros w. cbn. reflexivity. Qed.
Lemma stays_bind {A B} (m : act W E A) (k : A → act W E B) :
  stays R m → (∀ a, stays R (k a)) → stays R (m ≫= k).
Proof.
  intros Hm Hk w. unfold mbind, act_bind. specialize (Hm w).
  destruct (m w) as [[a|e] w']; cbn in *; [|done].
  etransitivity; [exact Hm|apply Hk].
Qed.
Lemma stays_if {A} (b : bool) (m k : act W E A) :
  stays R m → stays R k → stays R (if b then m else k).
Proof. by destruct b. Qed.
(** What follows a validation only has to hold when it passed. *)
Lemma stays_bind_lift {A B} (r : result E A) (k : A → act W E B) :
  (∀ a, r = Ok a → stays R (k a)) → stays R (lift r ≫= k).
Proof.
  intros Hk w. unfold mbind, act_bind, lift. destruct r as [a|e]; cbn; [by apply Hk|reflexivity].
Qed.
Lemma stays_attempt {A} (m : act W E A) : stays R m → stays R (attempt m).
Proof. intros Hm w. specialize (Hm w). unfold attempt. by destruct (m w). Qed.
End Stays.

(** Calls between components: the callee's error type is injected. *)
Definition wrap {W E E' A} (f : E → E') (m : act W E A) : act W E' A :=
  λ w, match m w with (Ok a, w') => (Ok a, w') | (Err e, w') => (Err (f e), w') end.
Lemma stays_wrap {W E E' A} (R : relation W) (f : E → E') (m : act W E A) :
  stays R m → stays R (wrap f m).
Proof. intros Hm w. specialize (Hm w). unfold wrap. by destruct (m w) as [[a|e] w']. Qed.
Lemma wrap_Ok {W E E' A} (f : E → E') (m : act W E A) w a w' :
  wrap f m w = (Ok a, w') ↔ m w = (Ok a, w').
Proof. unfold wrap. destruct (m w) as [[x|e] w'']; naive_solver. Qed.

Lemma bind_Ok {W E A B} (m : act W E A) (k : A → act W E B) w b w' :
  (m ≫= k) w = (Ok b, w') → ∃ a w1, m w = (Ok a, w1) ∧ k a w1 = (Ok b, w').
Proof.
  unfold mbind, act_bind. destruct (m w) as [[a|e] w1]; [|done]. eauto.
Qed.
Lemma lift_Ok {W E A} (r : result E A) (w : W) a w' :
  lift r w = (Ok a, w') → r = Ok a ∧ w' = w.
Proof. unfold lift. intros [= -> ->]. done. Qed.
Lemma mret_Ok {W E A} (x : A) (w : W) (a : A) w' :
  (mret x : act W E A) w = (Ok a, w') → a = x ∧ w' = w.
Proof. by intros [= -> ->]. Qed.
Lemma attempt_Ok {W E A} (m : act W E A) w : attempt m w = (Ok (m w).1, (m w).2).
Proof. unfold attempt. by destruct (m w). Qed.

(** [triple P m Q I]: from [P], [m] returns [a] in [Q a], or fails in [I].
    [always P m I]: from [P], [m] ends in [I] either way. *)
Definition triple {W E A} (P : W → Prop) (m : act W E A) (Q : A → W → Prop) (I : W → Prop) : Prop :=
  ∀ w, P w → match m w with (Ok a, w') => Q a w' | (Err _, w') => I w' end.
Definition always {W E A} (P : W → Prop) (m : act W E A) (I : W → Prop) : Prop :=
  ∀ w, P w → I (m w).2.
Lemma always_bind {W E A B} P (Q : A → W → Prop) I (m : act W E A) (k : A → act W E B) :
  triple P m Q I → (∀ a, always (Q a) (k a) I) → always P (m ≫= k) I.
Proof.
  intros Hm Hk w Hw. specialize (Hm w Hw). unfold mbind, act_bind.
  destruct (m w) as [[a|e] w']; [by apply Hk|done].
Qed.
Lemma triple_bind {W E A B} P (Q : A → W → Prop) (T : B → W → Prop) I (m : act W E A) (k : A → act W E B) :
  triple P m Q I → (∀ a, triple (Q a) (k a) T I) → triple P (m ≫= k) T I.
Proof.
  intros Hm Hk w Hw. specialize (Hm w Hw). unfold mbind, act_bind.
  destruct (m w) as [[a|e] w']; [by apply Hk|done].
Qed.
Lemma always_conseq {W E A} (P I : W → Prop) (m : act W E A) : (∀ w, P w → I w) → always P m P → always P m I.
Proof. intros HPI Hm w Hw. apply HPI, Hm, Hw. Qed.
Lemma always_if {W E A} (P I : W → Prop) (b : bool) (m k : act W E A) :
  always P m I → always P k I → always P (if b then m else k) I.
Proof. by destruct b. Qed.
Lemma always_triple {W E A} (P I : W → Prop) (m : act W E A) :
  always P m I → triple P m (λ _, I) I.
Proof. intros Hm w Hw. specialize (Hm w Hw). by destruct (m w) as [[a|e] w']. Qed.
Lemma triple_always {W E A} (P I : W → Prop) (m : act W E A) :
  triple P m (λ _, I) I → always P m I.
Proof. intros Hm w Hw. specialize (Hm w Hw). by destruct (m w) as [[a|e] w']. Qed.

(** ** Tactics *)

(** Turn boolean guards in the context and the goal into propositions. *)
Ltac b2p :=
  repeat match goal with
  | H : negb _ = true |- _ => apply negb_true_iff in H
  | H : negb _ = false |- _ => apply negb_false_iff in H
  | H : _ && _ = true |- _ => apply andb_true_iff in H as [? ?]
  | H : _ || _ = false |- _ => apply orb_false_iff in H as [? ?]
  | H : bool_decide _ = true |- _ => apply bool_decide_eq_true in H
  | H : bool_decide _ = false |- _ => apply bool_decide_eq_false in H
  | H : Z.leb _ _ = true |- _ => apply Z.leb_le in H
  | H : Z.leb _ _ = false |- _ => apply Z.leb_gt in H
  | H : Z.ltb _ _ = true |- _ => apply Z.ltb_lt in H
  | H : Z.ltb _ _ = false |- _ => apply Z.ltb_ge in H
  | H : Z.eqb _ _ = true |- _ => apply Z.eqb_eq in H
  | H : Z.eqb _ _ = false |- _ => apply Z.eqb_neq in H
  end.

(** Case on the next [if] of the goal, or of a hypothesis. *)
Ltac case_if :=
  match goal with
  | |- context [if ?b then _ else _] =>
      lazymatch type of b with
      | bool => let E := fresh "Hif" in destruct b eqn:E
      | _ => let E := fresh "Hif" in destruct b as [E|E]
      end
  end.
Ltac case_if_in H :=
  match type of H with
  | context [if ?b then _ else _] =>
      lazymatch type of b with
      | bool => let E := fresh "Hif" in destruct b eqn:E
      | _ => let E := fresh "Hif" in destruct b as [E|E]
      end
  end.

(** Run every branch of a decision procedure to its end. *)
Ltac branches := repeat (case_if; simpl in *); b2p; try done.

(** Prove a decidable fact about closed terms by running its decision. *)
Ltac by_decide :=
  lazymatch goal with
  | |- ¬ ?P => refine (bool_decide_eq_false_1 P _); vm_compute; reflexivity
  | |- ?P => refine (bool_decide_eq_true_1 P _); vm_compute; reflexivity
  end.

(** ** Hint databases *)

(** [nanite]: the lemmas that close the routine side conditions of the
    components' proofs. *)
Create HintDb nanite.

(** [stays]: the compositional rules of [stays] and the frames of each
    primitive step. *)
Create HintDb stays.

#[export] Hint Resolve stays_ret stays_fail stays_get stays_lift stays_bind stays_if
  stays_wrap stays_attempt : stays.

(** ** Lists *)

(** [count P l]: how many elements of [l] satisfy [P] (a counting [for] loop). *)
Definition count {A} (P : A → bool) (l : list A) : nat :=
  length (List.filter P l).

Lemma count_nil {A} (P : A → bool) : count P [] = 0.
Proof. done. Qed.
Lemma count_app {A} (P : A → bool) (l k : list A) :
  count P (l ++ k) = count P l + count P k.
Proof. unfold count. by rewrite List.filter_app, length_app. Qed.
Lemma count_le_length {A} (P : A → bool) (l : list A) :
  count P l ≤ length l.
Proof. unfold count. apply List.filter_length_le. Qed.

(** The suffix of a list on which [P] holds, counted from the end. *)
Fixpoint streak {A} (P : A → bool) (rl : list A) : nat :=
  match rl with
  | [] => 0
  | x :: rl' => if P x then S (streak P rl') else 0
  end.

Lemma streak_le_length {A} (P : A → bool) (l : list A) : streak P l ≤ length l.
Proof. induction l as [|x l IH]; simpl; [lia|]. case_if; lia. Qed.

Lemma streak_Forall {A} (P : A → bool) (l : list A) :
  Forall (λ x, P x = true) (take (streak P l) l).
Proof.
  induction l as [|x l IH]; simpl; [constructor|].
  destruct (P x) eqn:E; simpl; by constructor.
Qed.

Lemma streak_maximal {A} (P : A → bool) (l : list A) x :
  l !! streak P l = Some x → P x = false.
Proof.
  induction l as [|y l IH]; simpl; [done|].
  destruct (P y) eqn:E; simpl; [done|]. by intros [= ->].
Qed.

(** First-occurrence de-duplication: Go's [seen] map around an [append]. *)
Fixpoint dedup_from {A} `{EqDecision A} (seen l : list A) : list A :=
  match l with
  | [] => []
  | x :: l' =>
      if bool_decide (x ∈ seen) then dedup_from seen l'
      else x :: dedup_from (x :: seen) l'
  end.
Definition dedup {A} `{EqDecision A} (l : list A) : list A := dedup_from [] l.

Lemma elem_of_dedup_from {A} `{EqDecision A} (seen l : list A) x :
  x ∈ dedup_from seen l ↔ x ∈ l ∧ x ∉ seen.
Proof.
  revert seen. induction l as [|y l IH]; intros seen; simpl; [set_solver|].
  case_bool_decide as Hy.
  - rewrite IH. set_solver.
  - rewrite elem_of_cons, IH.
    destruct (decide (x = y)) as [->|Hne]; set_solver.
Qed.
Lemma elem_of_dedup {A} `{EqDecision A} (l : list A) x : x ∈ dedup l ↔ x ∈ l.
Proof. unfold dedup. rewrite elem_of_dedup_from. set_solver. Qed.
Lemma NoDup_dedup_from {A} `{EqDecision A} (seen l : list A) :
  NoDup (dedup_from seen l).
Proof.
  revert seen. induction l as [|y l IH]; intros seen; simpl; [constructor|].
  case_bool_decide; [done|]. constructor; [|done].
  rewrite elem_of_dedup_from. set_solver.
Qed.
Lemma NoDup_dedup {A} `{EqDecision A} (l : list A) : NoDup (dedup l).
Proof. apply NoDup_dedup_from. Qed.
#[export] Hint Resolve NoDup_dedup count_le_length streak_le_length : nanite.

(** Two elements of a list with the same unique key are the same. *)
Lemma NoDup_map_eq {A B} (f : A → B) (l : list A) x y :
  NoDup (map f l) → x ∈ l → y ∈ l → f x = f y → x = y.
Proof.
  induction l as [|a l IH]; cbn; [set_solver|]. intros [Ha Hl]%NoDup_cons Hx Hy Heq.
  assert (∀ z, z ∈ l → f z ∈ map f l) as Hmap by (intros z Hz; apply list_elem_of_In, in_map, list_elem_of_In, Hz).
  apply elem_of_cons in Hx as [->|Hx], Hy as [->|Hy].
  - done.
  - destruct Ha. rewrite Heq. auto.
  - destruct Ha. rewrite <- Heq. auto.
  - auto.
Qed.

(** ** Reachability *)

(** Zero or more steps of a labelled transition system. *)
Inductive steps {S L : Type} (step : S → L → S → Prop) : S → list L → S → Prop :=
| steps_nil s : steps step s [] s
| steps_cons s l s' ls s'' :
    step s l s' → steps step s' ls s'' → steps step s (l :: ls) s''.
#[export] Hint Constructors steps : nanite.

(** A run goes on with one more step. *)
Lemma steps_snoc {S L} (step : S → L → S → Prop) s ls s' l s'' :
  steps step s ls s' → step s' l s'' → steps step s (ls ++ [l])%list s''.
Proof. intros Hrun Hstep. induction Hrun; cbn; eauto using steps_cons, steps_nil. Qed.

(** An invariant of every step is an invariant of every run. *)
Lemma steps_invariant {S L} (step : S → L → S → Prop) (P : S → Prop) s ls s' :
  (∀ a l b, step a l b → P a → P b) → steps step s ls s' → P s → P s'.
Proof. intros Hstep Hsteps. induction Hsteps; eauto. Qed.

(** The same, when the invariant also depends on the labels allowed so far. *)
Lemma steps_invariant_labels {S L} (step : S → L → S → Prop) (ok : L → Prop)
    (P : S → Prop) s ls s' :
  (∀ a l b, ok l → step a l b → P a → P b) →
  steps step s ls s' → Forall ok ls → P s → P s'.
Proof.
  intros Hstep Hsteps. induction Hsteps; [done|].
  intros [? ?]%Forall_cons ?. eauto.
Qed.
