(* ===== verification/GoStrings.v ===== *)
(** * Go strings and the [strings] package

    A Go string is a sequence of bytes; here it is a [string] of 8-bit
    [ascii] values.  The functions below are the parts of Go's [strings] and
    [unicode] packages the modelled code calls, with the lemmas its proofs
    need.  Bytes of a multi-byte rune are kept as they are: where Go decodes
    runes (white space, letter case) the definition matches the UTF-8 byte
    sequences of the runes involved. *)

From S2P Require Import Prelude.

Open Scope string_scope.
Open Scope nat_scope.

(** [byte n]: the character with code [n]. *)
Definition byte (n : nat) : ascii := ascii_of_nat n.

(** ** Append and length *)

Lemma str_app_assoc (a b c : string) : a +:+ (b +:+ c) = (a +:+ b) +:+ c.
Proof. induction a; simpl; [done|]. unfold String.append in *; simpl. by f_equal. Qed.
Lemma str_app_nil_r (a : string) : a +:+ "" = a.
Proof. induction a; [done|]. unfold String.append in *; simpl. by f_equal. Qed.
Lemma str_app_cons x (a b : string) : String x a +:+ b = String x (a +:+ b).
Proof. done. Qed.
Lemma str_app_nil_l (b : string) : "" +:+ b = b.
Proof. done. Qed.
Lemma str_length_app (a b : string) :
  String.length (a +:+ b) = String.length a + String.length b.
Proof. induction a; [done|]. rewrite str_app_cons. simpl. by rewrite IHa. Qed.
Lemma str_app_nil_inv (a b : string) : a +:+ b = "" → a = "" ∧ b = "".
Proof. destruct a; [done|]. by rewrite str_app_cons. Qed.
Lemma str_length_zero (a : string) : String.length a = 0 → a = "".
Proof. by destruct a. Qed.

(** ** [strings.HasPrefix], [strings.HasSuffix], [strings.Contains] *)

Fixpoint has_prefix (s pre : string) : bool :=
  match pre, s with
  | "", _ => true
  | String a pre', String b s' => bool_decide (a = b) && has_prefix s' pre'
  | String _ _, "" => false
  end.

Definition prefixed (s pre : string) : Prop := ∃ r, s = pre +:+ r.

Lemma has_prefix_spec s pre : has_prefix s pre = true ↔ prefixed s pre.
Proof.
  revert s. induction pre as [|a pre IH]; intros s; simpl.
  { split; [|by destruct s]. intros _. by exists s. }
  destruct s as [|b s]; simpl.
  { split; [done|]. by intros [r Hr]. }
  rewrite andb_true_iff, bool_decide_eq_true, IH. split.
  - intros [-> [r ->]]. by exists r.
  - intros [r Hr]. rewrite str_app_cons in Hr. injection Hr as -> ->.
    split; [done|]. by exists r.
Qed.
#[global] Instance prefixed_dec s pre : Decision (prefixed s pre).
Proof.
  refine (cast_if (decide (has_prefix s pre = true))); by rewrite <- has_prefix_spec.
Defined.
Lemma has_prefix_false s pre : has_prefix s pre = false ↔ ¬ prefixed s pre.
Proof. rewrite <- has_prefix_spec. by destruct (has_prefix s pre). Qed.

Lemma prefixed_refl s : prefixed s s.
Proof. exists "". by rewrite str_app_nil_r. Qed.
Lemma prefixed_empty s : prefixed s "".
Proof. by exists s. Qed.
Lemma prefixed_app s pre : prefixed (pre +:+ s) pre.
Proof. by exists s. Qed.
Lemma prefixed_trans s t u : prefixed s t → prefixed t u → prefixed s u.
Proof. intros [r ->] [r' ->]. exists (r' +:+ r). by rewrite str_app_assoc. Qed.
#[export] Hint Resolve prefixed_refl prefixed_empty prefixed_app : nanite.

(** Two prefixes of one string are comparable. *)
Lemma prefixed_total s a b :
  prefixed s a → prefixed s b → prefixed a b ∨ prefixed b a.
Proof.
  revert s b. induction a as [|x a IH]; intros s b; [right; apply prefixed_empty|].
  intros [r ->] [r' Hr]. destruct b as [|y b]; [left; apply prefixed_empty|].
  rewrite !str_app_cons in Hr. injection Hr as <- Hr.
  destruct (IH (a +:+ r) b) as [[q Hq]|[q Hq]].
  - by exists r.
  - by exists r'.
  - left. exists q. by rewrite str_app_cons, <- Hq.
  - right. exists q. by rewrite str_app_cons, <- Hq.
Qed.

(** A prefix of [s ++ c] is [s ++ c] itself or a prefix of [s]. *)
Lemma prefixed_snoc s c pre :
  prefixed (s +:+ String c "") pre → pre = s +:+ String c "" ∨ prefixed s pre.
Proof.
  revert pre. induction s as [|x s IH]; intros pre [r Hr].
  - destruct pre as [|y pre]; [right; apply prefixed_empty|].
    rewrite str_app_cons, str_app_nil_l in Hr. injection Hr as -> Hr.
    symmetry in Hr. apply str_app_nil_inv in Hr as [-> ->]. by left.
  - destruct pre as [|y pre]; [right; apply prefixed_empty|].
    rewrite !str_app_cons in Hr. injection Hr as -> Hr.
    destruct (IH pre) as [->|[q ->]].
    + by exists r.
    + by left.
    + right. exists q. done.
Qed.

(** The string reversed, for the functions that work from the right. *)
Definition str_rev (s : string) : string :=
  String.string_of_list_ascii (rev (String.list_ascii_of_string s)).
Definition has_suffix (s suf : string) : bool :=
  has_prefix (str_rev s) (str_rev suf).

Lemma list_of_string_app a b :
  String.list_ascii_of_string (a +:+ b) = (String.list_ascii_of_string a ++ String.list_ascii_of_string b)%list.
Proof. induction a; [done|]. rewrite str_app_cons. simpl. by f_equal. Qed.
Lemma string_of_list_app l k :
  String.string_of_list_ascii (l ++ k)%list = String.string_of_list_ascii l +:+ String.string_of_list_ascii k.
Proof. induction l as [|x l IH]; [done|]. simpl. by rewrite IH. Qed.
Lemma str_rev_app a b : str_rev (a +:+ b) = str_rev b +:+ str_rev a.
Proof. unfold str_rev. by rewrite list_of_string_app, rev_app_distr, string_of_list_app. Qed.
Lemma str_rev_involutive a : str_rev (str_rev a) = a.
Proof.
  unfold str_rev. rewrite String.list_ascii_of_string_of_list_ascii, rev_involutive.
  apply String.string_of_list_ascii_of_string.
Qed.
Lemma has_suffix_spec s suf : has_suffix s suf = true ↔ ∃ r, s = r +:+ suf.
Proof.
  unfold has_suffix. rewrite has_prefix_spec. split.
  - intros [r Hr]. exists (str_rev r).
    by rewrite <- (str_rev_involutive s), Hr, str_rev_app, str_rev_involutive.
  - intros [r ->]. exists (str_rev r). apply str_rev_app.
Qed.

Fixpoint contains (s sub : string) : bool :=
  has_prefix s sub ||
  match s with
  | "" => false
  | String _ s' => contains s' sub
  end.
Lemma contains_spec s sub : contains s sub = true ↔ ∃ a b, s = a +:+ sub +:+ b.
Proof.
  induction s as [|x s IH]; cbn [contains]; rewrite orb_true_iff, has_prefix_spec.
  - split.
    + intros [[r ->]|?]; [|done]. by exists "", r.
    + intros (a & b & Hab). left. symmetry in Hab.
      apply str_app_nil_inv in Hab as [-> Hab]. by exists b.
  - rewrite IH. split.
    + intros [[r ->]|(a & b & ->)]; [by exists "", r|]. by exists (String x a), b.
    + intros ([|y a] & b & Hab); [left; by exists b|].
      rewrite str_app_cons in Hab. injection Hab as -> ->. right. by exists a, b.
Qed.

(** ** [strings.Split] and [strings.Join] on a one-byte separator *)

Fixpoint split (c : ascii) (s : string) : list string :=
  match s with
  | "" => [""]
  | String a s' =>
      if bool_decide (a = c) then "" :: split c s'
      else match split c s' with
           | [] => [String a ""]
           | h :: t => String a h :: t
           end
  end.

Fixpoint join (sep : string) (l : list string) : string :=
  match l with
  | [] => ""
  | x :: [] => x
  | x :: l' => x +:+ sep +:+ join sep l'
  end.

(** A string that has no byte [c]. *)
Fixpoint no_byte (c : ascii) (s : string) : bool :=
  match s with
  | "" => true
  | String a s' => negb (bool_decide (a = c)) && no_byte c s'
  end.

Lemma split_not_nil c s : split c s ≠ [].
Proof. destruct s; simpl; [done|]. case_bool_decide; [done|]. by destruct (split c s). Qed.
Lemma split_no_byte c s : no_byte c s = true → split c s = [s].
Proof.
  induction s as [|a s IH]; simpl; [done|]. rewrite andb_true_iff, negb_true_iff.
  intros [Ha Hs]. rewrite Ha, IH by done. done.
Qed.
Lemma split_app c a s :
  no_byte c a = true → split c (a +:+ String c s) = a :: split c s.
Proof.
  induction a as [|x a IH].
  - intros _. rewrite str_app_nil_l. simpl. by rewrite bool_decide_eq_true_2.
  - intros [Hx Ha]%andb_true_iff. rewrite str_app_cons. simpl.
    apply negb_true_iff in Hx. rewrite Hx, IH by done. done.
Qed.
(** Splitting a join gives the parts back. *)
Lemma split_join c l :
  l ≠ [] → Forall (λ x, no_byte c x = true) l → split c (join (String c "") l) = l.
Proof.
  induction l as [|x l IH]; [done|]. intros _ [Hx Hl]%Forall_cons.
  destruct l as [|y l]; [by apply split_no_byte|].
  simpl join in *. rewrite (str_app_cons c ""), str_app_nil_l, split_app by done.
  by rewrite IH.
Qed.
Lemma split_parts c s : Forall (λ x, no_byte c x = true) (split c s).
Proof.
  induction s as [|a s IH]; simpl; [by constructor|].
  case_bool_decide as E; [by constructor|].
  destruct (split c s) as [|h t]; constructor; try done.
  - simpl. by rewrite bool_decide_eq_false_2.
  - apply Forall_cons in IH as [Hh _]. simpl. by rewrite bool_decide_eq_false_2.
  - by apply Forall_cons in IH as [_ ?].
Qed.

(** Splitting at a separator splits the two sides apart. *)
Lemma split_sep c a b : split c (a +:+ String c b) = (split c a ++ split c b)%list.
Proof.
  induction a as [|x a IH].
  - rewrite str_app_nil_l. cbn [split]. by rewrite bool_decide_eq_true_2.
  - rewrite str_app_cons. cbn [split]. rewrite IH. case_bool_decide; [done|].
    pose proof (split_not_nil c a). by destruct (split c a).
Qed.
Lemma join_snoc sep l x : l ≠ [] → join sep (l ++ [x])%list = join sep l +:+ sep +:+ x.
Proof.
  induction l as [|y l IH]; [done|]. intros _. destruct l as [|z l]; [done|].
  change (join sep ((y :: z :: l) ++ [x])%list) with (y +:+ sep +:+ join sep ((z :: l) ++ [x])%list).
  rewrite IH by done. cbn [join]. by rewrite !str_app_assoc.
Qed.

(** ** White space: [strings.Fields] and [strings.TrimSpace] *)

(** [space_len s]: the length in bytes of the white-space rune [s] starts
    with, 0 when it starts with none.  The runes are those of
    [unicode.IsSpace]; each multi-byte one starts with a UTF-8 lead byte, so a
    byte-wise scan meets it exactly where a rune-wise scan does. *)
Definition space_len (s : string) : nat :=
  match s with
  | "" => 0
  | String a s1 =>
      let n := nat_of_ascii a in
      if bool_decide (n ∈ [9; 10; 11; 12; 13; 32]%nat) then 1 else
      match s1 with
      | "" => 0
      | String b s2 =>
          let m := nat_of_ascii b in
          if bool_decide (n = 194) && bool_decide (m ∈ [133; 160]%nat) then 2 else
          match s2 with
          | "" => 0
          | String c _ =>
              let k := nat_of_ascii c in
              if (bool_decide (n = 225) && bool_decide (m = 154) && bool_decide (k = 128)) ||
                 (bool_decide (n = 226) && bool_decide (m = 128) &&
                    ((bool_decide (128 ≤ k)%nat && bool_decide (k ≤ 138)%nat) ||
                     bool_decide (k ∈ [168; 169; 175]%nat))) ||
                 (bool_decide (n = 226) && bool_decide (m = 129) && bool_decide (k = 159)) ||
                 (bool_decide (n = 227) && bool_decide (m = 128) && bool_decide (k = 128))
              then 3 else 0
          end
      end
  end.

Fixpoint str_drop (n : nat) (s : string) : string :=
  match n, s with
  | O, _ => s
  | _, "" => ""
  | S n', String _ s' => str_drop n' s'
  end.
Fixpoint str_take (n : nat) (s : string) : string :=
  match n, s with
  | O, _ => ""
  | _, "" => ""
  | S n', String a s' => String a (str_take n' s')
  end.

Lemma str_take_length n a : String.length (str_take n a) = Nat.min n (String.length a).
Proof. revert n. induction a as [|x a IH]; intros [|n]; cbn; try done. by rewrite IH. Qed.
Lemma str_drop_app a b : str_drop (String.length a) (a +:+ b) = b.
Proof. induction a; [by destruct b|]. rewrite str_app_cons. done. Qed.

(** [fields skip cur s]: [skip] bytes of the current rune are still to be
    passed over; [cur] is the field being built, reversed. *)
Fixpoint fields_from (skip : nat) (cur s : string) : list string :=
  let flush := if bool_decide (cur = "") then [] else [str_rev cur] in
  match s with
  | "" => flush
  | String a s' =>
      match skip with
      | S k => fields_from k cur s'
      | O =>
          match space_len s with
          | O => fields_from 0 (String a cur) s'
          | S k => (flush ++ fields_from k "" s')%list
          end
      end
  end.
Definition fields (s : string) : list string := fields_from 0 "" s.

(** [strings.TrimLeft] and [strings.TrimRight]: the cutsets of the modelled
    code are ASCII, so a byte-wise trim is Go's rune-wise trim. *)
Fixpoint in_cutset (cut : string) (a : ascii) : bool :=
  match cut with
  | "" => false
  | String b cut' => bool_decide (a = b) || in_cutset cut' a
  end.
Fixpoint trim_left (s cut : string) : string :=
  match s with
  | "" => ""
  | String a s' => if in_cutset cut a then trim_left s' cut else s
  end.
Definition trim_right (s cut : string) : string := str_rev (trim_left (str_rev s) cut).

(** [strings.TrimSpace]: leading white space, then trailing white space.  The
    fuel is the length of the string: every round drops at least a byte. *)
Fixpoint trim_space_left (fuel : nat) (s : string) : string :=
  match fuel with
  | O => s
  | S f => match space_len s with O => s | S k => trim_space_left f (str_drop (S k) s) end
  end.
(** The white-space rune [s] ends with, as the number of its bytes. *)
Definition space_len_end (s : string) : nat :=
  let n := String.length s in
  if bool_decide (1 ≤ n)%nat && bool_decide (space_len (str_drop (n - 1) s) = 1) then 1
  else if bool_decide (2 ≤ n)%nat && bool_decide (space_len (str_drop (n - 2) s) = 2) then 2
  else if bool_decide (3 ≤ n)%nat && bool_decide (space_len (str_drop (n - 3) s) = 3) then 3
  else 0.
Fixpoint trim_space_right (fuel : nat) (s : string) : string :=
  match fuel with
  | O => s
  | S f =>
      match space_len_end s with
      | O => s
      | S k => trim_space_right f (str_take (String.length s - S k) s)
      end
  end.
Definition trim_space (s : string) : string :=
  let l := trim_space_left (String.length s) s in
  trim_space_right (String.length l) l.

(** ** Letter case *)

(** [lower s]: [strings.ToLower] as far as its ASCII output goes.  Letters of
    ASCII are lowered; of the other runes only U+0130 and U+212A lower to an
    ASCII letter ([i] and [k]).  Every other rune is left as it is, where Go
    lowers it to some non-ASCII rune: a test for an ASCII substring cannot
    tell the difference. *)
Definition lower_ascii (a : ascii) : ascii :=
  let n := nat_of_ascii a in
  if bool_decide (65 ≤ n)%nat && bool_decide (n ≤ 90)%nat then byte (n + 32) else a.
Fixpoint lower (s : string) : string :=
  match s with
  | "" => ""
  | String a s1 =>
      match s1 with
      | String b s2 =>
          if bool_decide (nat_of_ascii a = 196) && bool_decide (nat_of_ascii b = 176)
          then String "i" (lower s2)
          else match s2 with
               | String c s3 =>
                   if bool_decide (nat_of_ascii a = 226) && bool_decide (nat_of_ascii b = 132)
                      && bool_decide (nat_of_ascii c = 170)
                   then String "k" (lower s3)
                   else String (lower_ascii a) (lower s1)
               | "" => String (lower_ascii a) (lower s1)
               end
      | "" => String (lower_ascii a) (lower s1)
      end
  end.

(** ** Sanity checks *)

Example fields_ex : fields (" see  ~/a.txt" +:+ String (byte 194) (String (byte 160) "x ")) = ["see"; "~/a.txt"; "x"].
Proof. reflexivity. Qed.
Example trim_space_ex : trim_space "  a b	" = "a b".
Proof. reflexivity. Qed.
Example trim_right_ex : trim_right "~/foo.)," ".,)" = "~/foo".
Proof. reflexivity. Qed.
Example split_ex : split "/" "/a//b" = [""; "a"; ""; "b"].
Proof. reflexivity. Qed.
Example lower_ex : lower "HTTP 403 UnAuthorized" = "http 403 unauthorized".
Proof. reflexivity. Qed.

(** ** [[]rune(s)] and back *)

(** The bytes of the rune at the head of a string: [None] where they are not
    UTF-8, and Go decodes one byte as U+FFFD. *)
Definition rune_size (s : string) : option nat :=
  let at_ (n : nat) (lo hi : nat) : bool :=
    match String.get n s with
    | Some b => Nat.leb lo (nat_of_ascii b) && Nat.leb (nat_of_ascii b) hi
    | None => false
    end in
  let cont n := at_ n 128 191 in
  if at_ 0 0 127 then Some 1
  else if at_ 0 194 223 && cont 1 then Some 2
  else if ((at_ 0 224 224 && at_ 1 160 191) || (at_ 0 225 236 && cont 1) || (at_ 0 237 237 && at_ 1 128 159)
           || (at_ 0 238 239 && cont 1)) && cont 2 then Some 3
  else if ((at_ 0 240 240 && at_ 1 144 191) || (at_ 0 241 243 && cont 1) || (at_ 0 244 244 && at_ 1 128 143))
          && cont 2 && cont 3 then Some 4
  else None.
Definition replacement : string := String (byte 239) (String (byte 191) (String (byte 189) "")).

(** The runes of a string, each in its encoding; [skip] bytes of the current one
    are still to pass. *)
Fixpoint runes_from (skip : nat) (s : string) : list string :=
  match s with
  | "" => []
  | String _ s' =>
      match skip with
      | S k => runes_from k s'
      | O => match rune_size s with
             | Some n => str_take n s :: runes_from (n - 1) s'
             | None => replacement :: runes_from 0 s'
             end
      end
  end.
Definition runes (s : string) : list string := runes_from 0 s.
(** [string(r)] for a slice of runes. *)
Definition of_runes (l : list string) : string := join "" l.

(** [strings.CutPrefix], [strings.Cut] at a byte, and [strings.Count] of a byte. *)
Definition cut_prefix (s pre : string) : option string :=
  if has_prefix s pre then Some (str_drop (String.length pre) s) else None.
Fixpoint cut (c : ascii) (s : string) : option (string * string) :=
  match s with
  | "" => None
  | String a s' =>
      if bool_decide (a = c) then Some ("", s')
      else match cut c s' with Some (b, r) => Some (String a b, r) | None => None end
  end.
Fixpoint count_byte (c : ascii) (s : string) : nat :=
  match s with
  | "" => 0
  | String a s' => (if bool_decide (a = c) then 1 else 0) + count_byte c s'
  end.

Lemma cut_prefix_Some s pre r : cut_prefix s pre = Some r ↔ s = pre +:+ r.
Proof.
  unfold cut_prefix. destruct (has_prefix s pre) eqn:Hp.
  - apply has_prefix_spec in Hp as [t ->]. rewrite str_drop_app. split; [by intros [= ->]|].
    intros Heq. f_equal. revert Heq. induction pre as [|a pre IH]; [done|].
    rewrite !str_app_cons. by intros [= ?%IH].
  - split; [done|]. intros ->. apply has_prefix_false in Hp. destruct Hp. apply prefixed_app.
Qed.
Lemma cut_app c a b : no_byte c a = true → cut c (a +:+ String c b) = Some (a, b).
Proof.
  induction a as [|x a IH].
  - intros _. rewrite str_app_nil_l. simpl. by rewrite bool_decide_eq_true_2.
  - intros [Hx Ha]%andb_true_iff. rewrite str_app_cons. simpl.
    apply negb_true_iff in Hx. rewrite Hx, IH by done. done.
Qed.
Lemma cut_Some c s a b : cut c s = Some (a, b) → s = a +:+ String c b ∧ no_byte c a = true.
Proof.
  revert a b. induction s as [|x s IH]; intros a b; cbn; [done|]. case_bool_decide as Hx.
  - intros [= <- <-]. by subst.
  - destruct (cut c s) as [[a' b']|]; [|done]. intros [= <- <-]. destruct (IH a' b') as [-> Hn]; [done|].
    split; [done|]. simpl. by rewrite bool_decide_eq_false_2.
Qed.

(** [strings.EqualFold] when one of the strings is ASCII: besides the letters, the
    Kelvin sign folds to [k] and the long s to [s]. *)
Fixpoint fold_ascii (s : string) : string :=
  match s with
  | "" => ""
  | String a s' =>
      match s' with
      | String b s2 =>
          match s2 with
          | String c s3 =>
              if bool_decide (a = byte 226 ∧ b = byte 132 ∧ c = byte 170) then String "k" (fold_ascii s3)
              else if bool_decide (a = byte 197 ∧ b = byte 191) then String "s" (fold_ascii s2)
              else String (lower_ascii a) (fold_ascii s')
          | "" => if bool_decide (a = byte 197 ∧ b = byte 191) then "s" else String (lower_ascii a) (fold_ascii s')
          end
      | "" => String (lower_ascii a) ""
      end
  end.
Definition equal_fold (a b : string) : bool := bool_decide (fold_ascii a = fold_ascii b).
Example equal_fold_ex : equal_fold "LocalHost:8080" "localhost:8080" = true ∧ equal_fold "never" "NEVE" = false.
Proof. done. Qed.
