(* ===== verification/GoNum.v ===== *)
(** * Machine numbers of Go

    The integers and floats the code computes with, at their width: [int] and
    [int64] with two's-complement wrap-around, [float64] as the binary64 numbers of
    the Standard Library's [SpecFloat] (signed zeros, infinities and the not-a-number
    value included), the built-in [min] and [max] on both, the conversions between
    them, and [strconv.ParseInt] in base 10. *)

From Stdlib Require Import SpecFloat.
From S2P Require Import Prelude GoStrings.

Open Scope string_scope.
Open Scope Z_scope.

(** ** 64-bit integers *)

Definition min_int64 : Z := - 2 ^ 63.
Definition max_int64 : Z := 2 ^ 63 - 1.
Definition int64 (z : Z) : Prop := min_int64 ≤ z ≤ max_int64.
(** The result of an arithmetic operation on [int64], reduced to its width. *)
Definition wrap64 (z : Z) : Z := (z + 2 ^ 63) mod 2 ^ 64 - 2 ^ 63.

Lemma wrap64_id z : int64 z → wrap64 z = z.
Proof.
  unfold int64, min_int64, max_int64, wrap64. intros Hz.
  rewrite Z.mod_small; lia.
Qed.
Lemma wrap64_int64 z : int64 (wrap64 z).
Proof.
  unfold int64, min_int64, max_int64, wrap64.
  pose proof (Z.mod_pos_bound (z + 2 ^ 63) (2 ^ 64) ltac:(lia)). lia.
Qed.
#[export] Hint Resolve wrap64_int64 : nanite.

(** [max(lo, min(v, hi))], the clamp of an integer. *)
Definition clampZ (lo hi v : Z) : Z := Z.max lo (Z.min v hi).
Lemma clampZ_bounds lo hi v : lo ≤ hi → lo ≤ clampZ lo hi v ≤ hi.
Proof. unfold clampZ. lia. Qed.
Lemma clampZ_id lo hi v : lo ≤ v ≤ hi → clampZ lo hi v = v.
Proof. unfold clampZ. lia. Qed.

(** ** [float64] *)

Definition float64 : Type := spec_float.
#[global] Instance float64_eq_dec : EqDecision float64.
Proof. intros x y. unfold Decision. decide equality; try apply Z.eq_dec; try apply Pos.eq_dec; apply Bool.bool_dec. Defined.

Definition is_nan (x : float64) : bool := match x with S754_nan => true | _ => false end.
(** A rational constant of the source, rounded to the nearest [float64]. *)
Definition f_of_Z (z : Z) : float64 := binary_normalize 53 1024 z 0 false.
Definition f_ratio (n d : Z) : float64 := SFdiv 53 1024 (f_of_Z n) (f_of_Z d).
Definition f_mul (x y : float64) : float64 := SFmul 53 1024 x y.
Definition f_neg (x : float64) : bool :=
  match x with
  | S754_zero s | S754_infinity s | S754_finite s _ _ => s
  | S754_nan => false
  end.

(** The built-in [min] and [max]: a NaN argument gives NaN, and the negative zero
    is below the positive one. *)
Definition f_min (x y : float64) : float64 :=
  if is_nan x then x else if is_nan y then y
  else if SFltb x y then x else if SFltb y x then y
  else if f_neg x then x else y.
Definition f_max (x y : float64) : float64 :=
  if is_nan x then x else if is_nan y then y
  else if SFltb x y then y else if SFltb y x then x
  else if f_neg x then y else x.

(** [int(x)]: truncation toward zero.  Outside the range of [int64], and for NaN,
    the language leaves the result to the implementation: [oob]. *)
Definition f_trunc (x : float64) : option Z :=
  match x with
  | S754_zero _ => Some 0
  | S754_finite s m e =>
      let a := if 0 <=? e then Z.shiftl (Zpos m) e else Z.shiftr (Zpos m) (- e) in
      Some (if s then - a else a)
  | _ => None
  end.
Definition int_of_float (oob : float64 → Z) (x : float64) : Z :=
  match f_trunc x with
  | Some z => if (min_int64 <=? z) && (z <=? max_int64) then z else oob x
  | None => oob x
  end.

Lemma SFltb_asym x y : SFltb x y = true → SFltb y x = false.
Proof.
  unfold SFltb. destruct x as [s| s| |s m e], y as [s'|s'| |s' m' e']; cbn;
    try done; try (destruct s, s'; done); try (destruct s; done); try (destruct s'; done).
  rewrite (Z.compare_antisym e e').
  change (Pos.compare_cont Eq m m') with (m ?= m')%positive.
  change (Pos.compare_cont Eq m' m) with (m' ?= m)%positive.
  rewrite (Pos.compare_antisym m m').
  destruct s, s', (e ?= e'), (m ?= m')%positive; done.
Qed.

Lemma SFleb_total x y : is_nan x = false → is_nan y = false → SFltb x y = false → SFleb y x = true.
Proof.
  unfold SFltb, SFleb. destruct x as [s| s| |s m e], y as [s'|s'| |s' m' e']; cbn;
    try done; try (destruct s, s'; done); try (destruct s; done); try (destruct s'; done).
  intros _ _. rewrite (Z.compare_antisym e e').
  change (Pos.compare_cont Eq m m') with (m ?= m')%positive.
  change (Pos.compare_cont Eq m' m) with (m' ?= m)%positive.
  rewrite (Pos.compare_antisym m m').
  destruct s, s', (e ?= e'), (m ?= m')%positive; done.
Qed.

(** The clamp of a float, [max(lo, min(v, hi))], as the code guards it: a number is
    moved into the interval, a NaN is left as it is. *)
Definition clampF (lo hi v : float64) : float64 :=
  if SFltb v lo || SFltb hi v then f_max lo (f_min v hi) else v.

Lemma clampF_bounds lo hi v :
  is_nan lo = false → is_nan hi = false → is_nan v = false → SFltb lo hi = true →
  SFleb lo lo = true → SFleb hi hi = true →
  SFleb lo (clampF lo hi v) = true ∧ SFleb (clampF lo hi v) hi = true.
Proof.
  intros Hlo Hhi Hv Hlt Hll Hhh. unfold clampF.
  assert (SFleb lo hi = true) as Hle by (revert Hlt; unfold SFltb, SFleb; by destruct (SFcompare lo hi) as [[]|]).
  assert (f_max lo hi = hi) as Hmax by (unfold f_max; by rewrite Hlo, Hhi, Hlt).
  destruct (SFltb v lo) eqn:Hvl; [|destruct (SFltb hi v) eqn:Hhv]; cbn.
  - unfold f_min. rewrite Hv, Hhi. destruct (SFltb v hi) eqn:Hvh; [|destruct (SFltb hi v) eqn:Hhv].
    + unfold f_max. rewrite Hlo, Hv, (SFltb_asym _ _ Hvl), Hvl. done.
    + by rewrite Hmax.
    + destruct (f_neg v); [|by rewrite Hmax].
      unfold f_max. rewrite Hlo, Hv, (SFltb_asym _ _ Hvl), Hvl. done.
  - unfold f_min. rewrite Hv, Hhi, (SFltb_asym _ _ Hhv), Hhv, Hmax. done.
  - split; by apply SFleb_total.
Qed.

(** ** [strconv.ParseInt(s, 10, 64)] and [strconv.Atoi] *)

Definition digit (a : ascii) : option Z :=
  let n := Z.of_nat (nat_of_ascii a) in
  if (48 <=? n) && (n <=? 57) then Some (n - 48) else None.
Fixpoint digits (s : string) (acc : Z) : option Z :=
  match s with
  | "" => Some acc
  | String a s' => match digit a with Some d => digits s' (10 * acc + d) | None => None end
  end.
Definition sign (s : string) : bool * string :=
  match s with
  | String a s' => if bool_decide (a = "-"%char) then (true, s')
                   else if bool_decide (a = "+"%char) then (false, s') else (false, s)
  | "" => (false, s)
  end.
Definition ParseInt (s : string) : option Z :=
  let '(neg, body) := sign s in
  if bool_decide (body = "") then None else
  match digits body 0 with
  | Some n =>
      let v := if neg then - n else n in
      if (min_int64 <=? v) && (v <=? max_int64) then Some v else None
  | None => None
  end.
Definition Atoi (s : string) : option Z := ParseInt s.

Lemma ParseInt_int64 s z : ParseInt s = Some z → int64 z.
Proof.
  unfold ParseInt. destruct (sign s) as [neg body]. intros H.
  case_bool_decide; [done|]. destruct (digits body 0) as [n|]; [|done].
  set (v := if neg then - n else n) in H. cbv zeta in H. fold v in H.
  destruct ((min_int64 <=? v) && (v <=? max_int64)) eqn:Hv; simplify_eq. b2p. done.
Qed.

Example parse_int_ex : ParseInt "-42" = Some (-42) ∧ ParseInt "9223372036854775808" = None ∧ ParseInt "1_0" = None.
Proof. done. Qed.
Example float_ex : int_of_float (λ _, 0) (f_mul (f_of_Z 800000) (f_ratio 3 100)) = 24000 ∧ f_ratio 1 4 = S754_finite false 4503599627370496 (-54).
Proof. by vm_compute. Qed.

(** [strings.ToUpper] on an ASCII string. *)
Definition upper_ascii (a : ascii) : ascii :=
  let n := nat_of_ascii a in
  if bool_decide (97 ≤ n)%nat && bool_decide (n ≤ 122)%nat then byte (n - 32) else a.
Fixpoint upper (s : string) : string :=
  match s with "" => "" | String a s' => String (upper_ascii a) (upper s') end.
