(* ===== verification/GoTime.v ===== *)
(** * Go times as text

    An instant is a number of nanoseconds since 1970 in UTC, with the zero [Time] at
    the start of the year 1.  The calendar of the [time] package, [Time.Format] and
    [time.Parse] for the layouts [RFC3339] and [RFC3339Nano], with their round trips
    and the order of the texts. *)

From Stdlib Require Import Ascii.
From stdpp Require Import pretty.
From S2P Require Import Prelude GoStrings GoNum.

Open Scope string_scope.
Open Scope Z_scope.

Definition Second : Z := 1000000000.
Definition day_seconds : Z := 86400.
(** Days from the start of the year 1 to 1970. *)
Definition epoch_day : Z := 719162.
Definition zero_time : Z := - epoch_day * day_seconds * Second.
Definition IsZero (t : Z) : bool := t =? zero_time.

(** ** The calendar *)

Definition isLeap (y : Z) : bool :=
  (y mod 4 =? 0) && (negb (y mod 100 =? 0) || (y mod 400 =? 0)).
(** The days before a month of a year without a leap day. *)
Definition daysBefore (m : Z) : Z :=
  nth (Z.to_nat (m - 1)) [0; 31; 59; 90; 120; 151; 181; 212; 243; 273; 304; 334] 365.
Definition daysIn (m y : Z) : Z :=
  if (m =? 2) && isLeap y then 29 else daysBefore (m + 1) - daysBefore m.
(** The day of the year, from 0. *)
Definition yday_of (y m d : Z) : Z :=
  daysBefore m + (if isLeap y && (2 <? m) then 1 else 0) + d - 1.
Definition year_start (y : Z) : Z :=
  let y := y - 1 in 365 * y + y / 4 - y / 100 + y / 400.
(** Days since the start of the year 1, and back. *)
Definition days_of (y m d : Z) : Z := year_start y + yday_of y m d.
Definition year_of (days : Z) : Z * Z :=
  let n400 := days / 146097 in let d := days mod 146097 in
  let n100 := d / 36524 in let n100 := n100 - n100 / 4 in let d := d - 36524 * n100 in
  let n4 := d / 1461 in let d := d - 1461 * n4 in
  let n1 := d / 365 in let n1 := n1 - n1 / 4 in let d := d - 365 * n1 in
  (400 * n400 + 100 * n100 + 4 * n4 + n1 + 1, d).
Definition month_of (leap : bool) (yday : Z) : Z * Z :=
  if leap && (yday =? 59) then (2, 29) else
  let day := if leap && (59 <? yday) then yday - 1 else yday in
  let m := day / 31 in
  let m := if daysBefore (m + 2) <=? day then m + 2 else m + 1 in
  (m, day - daysBefore m + 1).
Definition date_of (days : Z) : Z * Z * Z :=
  let '(y, yd) := year_of days in let '(m, d) := month_of (isLeap y) yd in (y, m, d).

(** ** Digits *)

Definition digit_of (z : Z) : ascii := ascii_of_nat (Z.to_nat (48 + z)).
Fixpoint pad (w : nat) (z : Z) : string :=
  match w with O => "" | S w' => String (digit_of (z / 10 ^ Z.of_nat w')) (pad w' (z mod 10 ^ Z.of_nat w')) end.
Fixpoint getnum (w : nat) (acc : Z) (s : string) : option (Z * string) :=
  match w, s with
  | O, _ => Some (acc, s)
  | S w', String a s' => match digit a with Some d => getnum w' (10 * acc + d) s' | None => None end
  | S _, "" => None
  end.
(** [appendInt(b, x, 4)]. *)
Definition year_text (y : Z) : string :=
  if y <? 0 then "-" +:+ (if - y <? 10000 then pad 4 (- y) else pretty (- y))
  else if y <? 10000 then pad 4 y else pretty y.

(** ** [Time.Format] *)

(** [clock s]: hour, minute and second of a second of the day. *)
Definition clock_text (s : Z) : string :=
  pad 2 (s / 3600) +:+ ":" +:+ pad 2 (s / 60 mod 60) +:+ ":" +:+ pad 2 (s mod 60).
Definition date_text (days : Z) : string :=
  let '(y, m, d) := date_of days in year_text y +:+ "-" +:+ pad 2 m +:+ "-" +:+ pad 2 d.
Definition seconds_text (t : Z) : string :=
  let s := t / Second in
  date_text (s / day_seconds + epoch_day) +:+ "T" +:+ clock_text (s mod day_seconds).
(** [t.UTC().Format(time.RFC3339)]: the fraction of the second is dropped. *)
Definition format_RFC3339 (t : Z) : string := seconds_text t +:+ "Z".
Fixpoint frac_digits (w : nat) (z : Z) : string :=
  match w with
  | O => ""
  | S w' => if z =? 0 then "" else String (digit_of (z / 10 ^ Z.of_nat w')) (frac_digits w' (z mod 10 ^ Z.of_nat w'))
  end.
Definition frac_text (ns : Z) : string := if ns =? 0 then "" else "." +:+ frac_digits 9 ns.
(** [t.UTC().Format(time.RFC3339Nano)]: nanoseconds without trailing zeros. *)
Definition format_Nano (t : Z) : string := seconds_text t +:+ frac_text (t mod Second) +:+ "Z".

(** ** [time.Parse] *)

Definition expect (c : ascii) (s : string) : option string :=
  match s with String a s' => if bool_decide (a = c) then Some s' else None | "" => None end.
(** The hour may have a single digit. *)
Definition gethour (s : string) : option (Z * string) :=
  match getnum 2 0 s with Some r => Some r | None => getnum 1 0 s end.
(** [parseNanoseconds]: digits after the ninth are dropped. *)
Fixpoint getfrac (w : nat) (acc : Z) (s : string) : Z * string :=
  match s with
  | "" => (acc * 10 ^ Z.of_nat w, "")
  | String a s' =>
      match digit a with
      | Some d => match w with O => getfrac O acc s' | S w' => getfrac w' (10 * acc + d) s' end
      | None => (acc * 10 ^ Z.of_nat w, s)
      end
  end.
Definition parse_frac (s : string) : Z * string :=
  match s with
  | String a (String b r) =>
      if bool_decide (a = "."%char ∨ a = ","%char) && bool_decide (is_Some (digit b)) then getfrac 9 0 (String b r) else (0, s)
  | _ => (0, s)
  end.
Definition between (lo hi z : Z) : option unit := if (lo <=? z) && (z <=? hi) then Some tt else None.
Definition parse_zone (s : string) : option (Z * string) :=
  match s with
  | "" => None
  | String a r =>
      if bool_decide (a = "Z"%char) then Some (0, r)
      else if bool_decide (a = "+"%char ∨ a = "-"%char) then
        '(h, r) ← getnum 2 0 r; r ← expect ":" r; '(m, r) ← getnum 2 0 r;
        _ ← between 0 24 h; _ ← between 0 60 m;
        let z := (h * 60 + m) * 60 in
        Some (if bool_decide (a = "-"%char) then - z else z, r)
      else None
  end.
(** [time.Parse] with [RFC3339] or [RFC3339Nano]; both accept a fraction. *)
Definition Parse (s : string) : option Z :=
  '(y, s) ← getnum 4 0 s; s ← expect "-" s;
  '(m, s) ← getnum 2 0 s; _ ← between 1 12 m; s ← expect "-" s;
  '(d, s) ← getnum 2 0 s; s ← expect "T" s;
  '(h, s) ← gethour s; _ ← between 0 23 h; s ← expect ":" s;
  '(mi, s) ← getnum 2 0 s; _ ← between 0 59 mi; s ← expect ":" s;
  '(sec, s) ← getnum 2 0 s; _ ← between 0 59 sec;
  let '(ns, s) := parse_frac s in
  '(zone, s) ← parse_zone s;
  if negb (bool_decide (s = "")) then None else
  _ ← between 1 (daysIn m y) d;
  Some (((days_of y m d - epoch_day) * day_seconds + h * 3600 + mi * 60 + sec - zone) * Second + ns).

Example format_ex : format_Nano 0 = "1970-01-01T00:00:00Z" ∧ format_Nano zero_time = "0001-01-01T00:00:00Z" ∧
  format_Nano 1709210096500000000 = "2024-02-29T12:34:56.5Z" ∧ format_RFC3339 1709210096500000000 = "2024-02-29T12:34:56Z".
Proof. by vm_compute. Qed.
Example parse_ex : Parse "2024-02-29T12:34:56.5Z" = Some 1709210096500000000 ∧ Parse "2023-02-29T12:34:56Z" = None ∧
  Parse "1970-01-01T02:00:00+02:00" = Some 0 ∧ Parse "1970-01-01T2:00:00,25Z" = Some 7200250000000 ∧ Parse "" = None.
Proof. by vm_compute. Qed.

(** ** The calendar is a bijection *)

Lemma year_of_spec days y yd : year_of days = (y, yd) →
  year_start y + yd = days ∧ 0 ≤ yd < (if isLeap y then 366 else 365).
Proof.
  unfold year_of, year_start, isLeap. intros H. injection H as <- <-.
  pose proof (Z.div_mod days 146097 ltac:(lia)) as Hd. pose proof (Z.mod_pos_bound days 146097 ltac:(lia)) as Hm.
  set (n := days / 146097) in *. set (d := days mod 146097) in *. clearbody n d.
  assert (∃ b, d / 36524 - d / 36524 / 4 = b ∧ 0 ≤ b ≤ 3 ∧ 0 ≤ d - 36524 * b ≤ 36524 ∧ (b < 3 → d - 36524 * b < 36524)) as (b&->&Hb&Hd1&Hb3).
  { eexists. split; [reflexivity|]. Z.to_euclidean_division_equations. lia. }
  set (d1 := d - 36524 * b) in *.
  assert (∃ c, d1 / 1461 = c ∧ 0 ≤ c ≤ 24 ∧ 0 ≤ d1 - 1461 * c ≤ 1460 ∧ (b < 3 → c = 24 → d1 - 1461 * c < 1460)) as (c&->&Hc&Hd2&Hc24).
  { eexists. split; [reflexivity|]. Z.to_euclidean_division_equations. lia. }
  set (d2 := d1 - 1461 * c) in *.
  assert (∃ e, d2 / 365 - d2 / 365 / 4 = e ∧ 0 ≤ e ≤ 3 ∧ 0 ≤ d2 - 365 * e ≤ 365 ∧ (e < 3 → d2 - 365 * e < 365)) as (e&->&He&Hd3&He3).
  { eexists. split; [reflexivity|]. Z.to_euclidean_division_equations. lia. }
  replace (400 * n + 100 * b + 4 * c + e + 1 - 1) with (400 * n + 100 * b + 4 * c + e) by lia.
  assert ((400 * n + 100 * b + 4 * c + e) / 4 = 100 * n + 25 * b + c) as -> by (Z.to_euclidean_division_equations; lia).
  assert ((400 * n + 100 * b + 4 * c + e) / 100 = 4 * n + b) as -> by (Z.to_euclidean_division_equations; lia).
  assert ((400 * n + 100 * b + 4 * c + e) / 400 = n) as -> by (Z.to_euclidean_division_equations; lia).
  split; [lia|]. split; [lia|].
  destruct (_ && _) eqn:Hl; [lia|]. destruct (decide (d2 - 365 * e = 365)) as [Heq|]; [|lia]. exfalso.
  assert (e = 3) by lia. subst e.
  apply andb_false_iff in Hl as [Hl|Hl].
  - apply Z.eqb_neq in Hl. apply Hl. Z.to_euclidean_division_equations. lia.
  - apply orb_false_iff in Hl as [Hl1 Hl2]. b2p. apply Z.eqb_eq in Hl1.
    assert (c = 24) by (Z.to_euclidean_division_equations; lia). subst c.
    assert (b ≠ 3) by (intros ->; apply Hl2; Z.to_euclidean_division_equations; lia). lia.
Qed.

(** The month table, by its 366 days. *)
Definition month_ok (leap : bool) (yd : Z) : bool :=
  let '(m, d) := month_of leap yd in
  (1 <=? m) && (m <=? 12) && (1 <=? d) && (daysBefore m + (if leap && (2 <? m) then 1 else 0) + d - 1 =? yd) &&
  (d <=? (if (m =? 2) && leap then 29 else daysBefore (m + 1) - daysBefore m)).
Lemma month_table : forallb (λ n, month_ok false (Z.of_nat n)) (seq 0 365) = true ∧
  forallb (λ n, month_ok true (Z.of_nat n)) (seq 0 366) = true.
Proof. split; vm_compute; reflexivity. Qed.
Lemma month_of_spec (leap : bool) yd m d : 0 ≤ yd < (if leap then 366 else 365) → month_of leap yd = (m, d) →
  1 ≤ m ≤ 12 ∧ 1 ≤ d ≤ (if (m =? 2) && leap then 29 else daysBefore (m + 1) - daysBefore m) ∧
  daysBefore m + (if leap && (2 <? m) then 1 else 0) + d - 1 = yd.
Proof.
  intros Hyd Hm. assert (month_ok leap yd = true) as Hok.
  { destruct month_table as [H1 H2]. destruct leap.
    - rewrite forallb_forall in H2. rewrite <- (Z2Nat.id yd) by lia. apply H2, in_seq. lia.
    - rewrite forallb_forall in H1. rewrite <- (Z2Nat.id yd) by lia. apply H1, in_seq. lia. }
  unfold month_ok in Hok. rewrite Hm in Hok. b2p. lia.
Qed.

Lemma date_of_spec days y m d : date_of days = (y, m, d) →
  days_of y m d = days ∧ 1 ≤ m ≤ 12 ∧ 1 ≤ d ≤ daysIn m y.
Proof.
  unfold date_of. destruct (year_of days) as [y' yd] eqn:Hy. destruct (month_of (isLeap y') yd) as [m' d'] eqn:Hm.
  intros H. injection H as -> -> ->. apply year_of_spec in Hy as [Hs Hyd].
  destruct (month_of_spec _ _ _ _ Hyd Hm) as (Hm12&Hd&Heq).
  unfold days_of, yday_of, daysIn. lia.
Qed.

(** ** Digits come back *)

Lemma digit_digit_of z : 0 ≤ z < 10 → digit (digit_of z) = Some z.
Proof.
  intros Hz. unfold digit, digit_of. rewrite nat_ascii_embedding by lia.
  rewrite Z2Nat.id by lia. destruct (_ && _) eqn:H; [f_equal; lia|].
  apply andb_false_iff in H as [H|H]; b2p; lia.
Qed.
Lemma pow10_S w : 10 ^ Z.of_nat (S w) = 10 * 10 ^ Z.of_nat w.
Proof. rewrite Nat2Z.inj_succ, Z.pow_succ_r by lia. done. Qed.
Lemma pad_step w z : 0 ≤ z < 10 ^ Z.of_nat (S w) →
  0 ≤ z / 10 ^ Z.of_nat w < 10 ∧ 0 ≤ z mod 10 ^ Z.of_nat w < 10 ^ Z.of_nat w ∧
  z = z / 10 ^ Z.of_nat w * 10 ^ Z.of_nat w + z mod 10 ^ Z.of_nat w.
Proof.
  intros Hz. rewrite pow10_S in Hz. assert (0 < 10 ^ Z.of_nat w) as Hp by (apply Z.pow_pos_nonneg; lia).
  pose proof (Z.mod_pos_bound z _ Hp). pose proof (Z.div_mod z (10 ^ Z.of_nat w) ltac:(lia)).
  repeat split; try lia; [apply Z.div_pos; lia|apply Z.div_lt_upper_bound; lia].
Qed.
Lemma getnum_pad w z acc s : 0 ≤ z < 10 ^ Z.of_nat w →
  getnum w acc (pad w z +:+ s) = Some (acc * 10 ^ Z.of_nat w + z, s).
Proof.
  revert z acc. induction w as [|w IH]; intros z acc Hz; [cbn in *; do 2 f_equal; lia|].
  pose proof (pad_step w z Hz) as (Hd&Hm&Heq). cbn [pad getnum]. rewrite str_app_cons, digit_digit_of by done.
  rewrite IH by done. rewrite pow10_S. do 2 f_equal. lia.
Qed.
Lemma getnum_pad0 w z s : 0 ≤ z < 10 ^ Z.of_nat w → getnum w 0 (pad w z +:+ s) = Some (z, s).
Proof. intros Hz. by rewrite getnum_pad. Qed.
Lemma pad_length w z : String.length (pad w z) = w.
Proof. revert z. induction w as [|w IH]; intros z; [done|]. cbn. by rewrite IH. Qed.

Lemma digit_Z : digit "Z" = None. Proof. done. Qed.
Lemma getfrac_digits w z acc s : 0 ≤ z < 10 ^ Z.of_nat w → (∀ a r, s = String a r → digit a = None) →
  getfrac w acc (frac_digits w z +:+ s) = (acc * 10 ^ Z.of_nat w + z, s).
Proof.
  revert z acc. induction w as [|w IH]; intros z acc Hz Hs.
  - cbn [frac_digits]. rewrite str_app_nil_l. assert (z = 0) as -> by (cbn in Hz; lia).
    destruct s as [|a r]; cbn; [f_equal; lia|]. rewrite (Hs a r eq_refl). f_equal. lia.
  - cbn [frac_digits]. destruct (Z.eqb_spec z 0) as [->|Hne].
    + rewrite str_app_nil_l, Z.add_0_r. destruct s as [|a r]; cbn [getfrac]; [done|]. by rewrite (Hs a r eq_refl).
    + pose proof (pad_step w z Hz) as (Hd&Hm&Heq). rewrite str_app_cons. cbn [getfrac].
      rewrite digit_digit_of, IH by done. rewrite pow10_S. f_equal. lia.
Qed.
Lemma parse_frac_text ns : 0 ≤ ns < Second → parse_frac (frac_text ns +:+ "Z") = (ns, "Z").
Proof.
  intros Hns. unfold frac_text. destruct (Z.eqb_spec ns 0) as [->|Hne]; [done|].
  rewrite <- str_app_assoc. assert (0 ≤ ns < 10 ^ Z.of_nat 9) as H9 by (unfold Second in Hns; cbn; lia).
  pose proof (getfrac_digits 9 ns 0 "Z" H9) as Hf. rewrite Z.mul_0_l, Z.add_0_l in Hf.
  assert (frac_digits 9 ns = String (digit_of (ns / 10 ^ 8)) (frac_digits 8 (ns mod 10 ^ 8))) as Hs.
  { cbn [frac_digits]. destruct (Z.eqb_spec ns 0); [done|reflexivity]. }
  rewrite Hs in Hf |- *. set (x := digit_of (ns / 10 ^ 8)) in *.
  assert (is_Some (digit x)) as Hx by (unfold x; rewrite digit_digit_of; [done|]; pose proof (pad_step 8 ns H9); tauto).
  clearbody x. rewrite str_app_cons in Hf |- *. change ("." +:+ ?r) with (String "."%char r). unfold parse_frac.
  rewrite bool_decide_eq_true_2 by (by left). rewrite str_app_nil_l, str_app_cons, bool_decide_eq_true_2 by done.
  apply Hf. intros a r Heq. by injection Heq as <- <-.
Qed.

(** ** Round trips *)

(** The instants of the years 0 to 9999. *)
Definition year_in_range (t : Z) : Prop := 0 ≤ (date_of (t / Second / day_seconds + epoch_day)).1.1 < 10000.

Lemma expect_hit c s : expect c (String c s) = Some s.
Proof. unfold expect. by rewrite bool_decide_eq_true_2. Qed.
Lemma between_hit lo hi z : lo ≤ z ≤ hi → between lo hi z = Some tt.
Proof. intros H. unfold between. destruct (_ && _) eqn:E; [done|]. apply andb_false_iff in E as [E|E]; b2p; lia. Qed.

Lemma daysIn_le m y : 1 ≤ m ≤ 12 → daysIn m y ≤ 31.
Proof.
  intros Hm. assert (m = 1 ∨ m = 2 ∨ m = 3 ∨ m = 4 ∨ m = 5 ∨ m = 6 ∨ m = 7 ∨ m = 8 ∨ m = 9 ∨ m = 10 ∨ m = 11 ∨ m = 12) as Hcase by lia.
  unfold daysIn. destruct (isLeap y); destruct_or! Hcase; subst m; vm_compute; discriminate.
Qed.

(** The date and the clock of a text are read back, whatever follows them. *)
Definition parse_rest (days s : Z) (r : string) : option Z :=
  let '(ns, r) := parse_frac r in
  '(zone, r) ← parse_zone r;
  if negb (bool_decide (r = "")) then None else Some (((days - epoch_day) * day_seconds + s - zone) * Second + ns).
Lemma Parse_seconds t r : year_in_range t →
  Parse (seconds_text t +:+ r) = parse_rest (t / Second / day_seconds + epoch_day) (t / Second mod day_seconds) r.
Proof.
  unfold year_in_range, seconds_text, date_text. cbv zeta. set (s := t / Second). set (days := s / day_seconds + epoch_day).
  destruct (date_of days) as [[y m] d] eqn:Hdate. cbn [fst snd]. intros Hy.
  destruct (date_of_spec _ _ _ _ Hdate) as (Hdays&Hm&Hd).
  pose proof (Z.mod_pos_bound s day_seconds ltac:(done)) as Hc. set (c := s mod day_seconds) in *. unfold day_seconds in Hc.
  pose proof (daysIn_le m y Hm).
  assert (year_text y = pad 4 y) as ->. { unfold year_text. destruct (Z.ltb_spec y 0); [lia|]. destruct (Z.ltb_spec y 10000); [done|lia]. }
  unfold clock_text, Parse. rewrite <- !str_app_assoc.
  rewrite getnum_pad0 by (cbn; lia). cbn [mbind option_bind]. rewrite str_app_cons, str_app_nil_l, expect_hit. cbn [mbind option_bind].
  rewrite getnum_pad0 by (cbn; lia). cbn [mbind option_bind]. rewrite (between_hit 1 12) by lia. cbn [mbind option_bind].
  rewrite str_app_cons, str_app_nil_l, expect_hit. cbn [mbind option_bind].
  rewrite getnum_pad0 by (cbn; lia). cbn [mbind option_bind]. rewrite str_app_cons, str_app_nil_l, expect_hit. cbn [mbind option_bind].
  unfold gethour. rewrite getnum_pad0 by (cbn; Z.to_euclidean_division_equations; lia). cbn [mbind option_bind].
  rewrite (between_hit 0 23) by (Z.to_euclidean_division_equations; lia). cbn [mbind option_bind].
  rewrite str_app_cons, str_app_nil_l, expect_hit. cbn [mbind option_bind].
  rewrite getnum_pad0 by (cbn; Z.to_euclidean_division_equations; lia). cbn [mbind option_bind].
  rewrite (between_hit 0 59) by (Z.to_euclidean_division_equations; lia). cbn [mbind option_bind].
  rewrite str_app_cons, str_app_nil_l, expect_hit. cbn [mbind option_bind].
  rewrite getnum_pad0 by (cbn; Z.to_euclidean_division_equations; lia). cbn [mbind option_bind].
  rewrite (between_hit 0 59) by (Z.to_euclidean_division_equations; lia). cbn [mbind option_bind].
  unfold parse_rest. destruct (parse_frac r) as [ns r']. destruct (parse_zone r') as [[zone r'']|]; cbn [mbind option_bind]; [|done].
  destruct (negb _); [done|]. rewrite (between_hit 1 _) by lia. cbn [mbind option_bind]. rewrite Hdays.
  assert (c = c / 3600 * 3600 + c / 60 mod 60 * 60 + c mod 60) as Hcc by (Z.to_euclidean_division_equations; lia).
  f_equal. lia.
Qed.
Lemma parse_rest_Z days s r ns : parse_frac r = (ns, "Z") →
  parse_rest days s r = Some (((days - epoch_day) * day_seconds + s) * Second + ns).
Proof. intros Hr. unfold parse_rest. rewrite Hr. change (parse_zone "Z") with (Some (0, "")). cbn [mbind option_bind negb bool_decide]. cbn. by rewrite Z.sub_0_r. Qed.
Lemma instant_split t : (t / Second / day_seconds + epoch_day - epoch_day) * day_seconds + t / Second mod day_seconds = t / Second.
Proof. pose proof (Z.div_mod (t / Second) day_seconds ltac:(done)). lia. Qed.
Theorem parse_format_Nano t : year_in_range t → Parse (format_Nano t) = Some t.
Proof.
  intros Hy. unfold format_Nano. rewrite Parse_seconds by done.
  rewrite (parse_rest_Z _ _ _ (t mod Second)) by (apply parse_frac_text, Z.mod_pos_bound; done).
  rewrite instant_split. f_equal. pose proof (Z.div_mod t Second ltac:(done)). lia.
Qed.
Theorem parse_format_RFC3339 t : year_in_range t → Parse (format_RFC3339 t) = Some (t / Second * Second).
Proof.
  intros Hy. unfold format_RFC3339. rewrite Parse_seconds, (parse_rest_Z _ _ _ 0), instant_split by done. f_equal. lia.
Qed.

(** ** The order of the texts *)

Lemma ascii_compare_digit a b : 0 ≤ a < 10 → 0 ≤ b < 10 → Ascii.compare (digit_of a) (digit_of b) = (a ?= b).
Proof.
  intros Ha Hb. unfold Ascii.compare, digit_of, N_of_ascii, ascii_of_nat.
  assert (∀ z, 0 ≤ z < 10 → N_of_ascii (ascii_of_nat (Z.to_nat (48 + z))) = Z.to_N (48 + z)) as Hn.
  { intros z Hz. unfold ascii_of_nat. rewrite N_ascii_embedding by lia. lia. }
  pose proof (Hn a Ha) as Hna. pose proof (Hn b Hb) as Hnb. unfold N_of_ascii, ascii_of_nat in Hna, Hnb.
  rewrite Hna, Hnb. destruct (N.compare_spec (Z.to_N (48 + a)) (Z.to_N (48 + b))), (Z.compare_spec a b); try done; lia.
Qed.
(** The order of pairs, first the one then the other. *)
Definition then_cmp (c d : comparison) : comparison := match c with Eq => d | _ => c end.
Lemma compare_pad w a b r s : 0 ≤ a < 10 ^ Z.of_nat w → 0 ≤ b < 10 ^ Z.of_nat w →
  String.compare (pad w a +:+ r) (pad w b +:+ s) = then_cmp (a ?= b) (String.compare r s).
Proof.
  revert a b. induction w as [|w IH]; intros a b Ha Hb.
  - assert (a = 0) as -> by (cbn in Ha; lia). assert (b = 0) as -> by (cbn in Hb; lia). done.
  - pose proof (pad_step w a Ha) as (Hda&Hma&Hea). pose proof (pad_step w b Hb) as (Hdb&Hmb&Heb).
    cbn [pad]. rewrite !str_app_cons. cbn [String.compare]. rewrite ascii_compare_digit, IH by done.
    set (p := 10 ^ Z.of_nat w) in *. clearbody p.
    destruct (Z.compare_spec (a / p) (b / p)) as [Heq|Hlt|Hgt].
    + destruct (Z.compare_spec (a mod p) (b mod p)), (Z.compare_spec a b); try done; nia.
    + destruct (Z.compare_spec a b); try done; nia.
    + destruct (Z.compare_spec a b); try done; nia.
Qed.
Lemma compare_same c r s : String.compare (String c r) (String c s) = String.compare r s.
Proof. cbn. unfold Ascii.compare. by rewrite N.compare_refl. Qed.

Lemma year_start_next y : year_start (y + 1) = year_start y + (if isLeap y then 366 else 365).
Proof.
  unfold year_start, isLeap. replace (y + 1 - 1) with y by lia.
  destruct (_ && _) eqn:Hl; [b2p; apply Z.eqb_eq in H|apply andb_false_iff in Hl as [Hl|Hl]; b2p].
  - apply orb_true_iff in H0 as [H0|H0]; b2p; Z.to_euclidean_division_equations; lia.
  - Z.to_euclidean_division_equations. lia.
  - b2p. Z.to_euclidean_division_equations. lia.
Qed.
Lemma year_start_mono y y' : y ≤ y' → year_start y ≤ year_start y'.
Proof. intros H. unfold year_start. Z.to_euclidean_division_equations. lia. Qed.
(** A month ends before the later ones start. *)
Definition month_start (leap : bool) (m : Z) : Z := daysBefore m + (if leap && (2 <? m) then 1 else 0).
Lemma month_order : forallb (λ leap, forallb (λ m, forallb (λ m', (m' <=? m)%nat ||
  (month_start leap (Z.of_nat m) + (if (Z.of_nat m =? 2) && leap then 29 else daysBefore (Z.of_nat m + 1) - daysBefore (Z.of_nat m))
     <=? month_start leap (Z.of_nat m'))) (seq 1 12)) (seq 1 12)) [true; false] = true.
Proof. vm_compute. reflexivity. Qed.
Lemma month_start_order y m m' : 1 ≤ m → m < m' → m' ≤ 12 → month_start (isLeap y) m + daysIn m y ≤ month_start (isLeap y) m'.
Proof.
  intros H1 H2 H3. pose proof month_order as Ho. rewrite forallb_forall in Ho.
  specialize (Ho (isLeap y) ltac:(destruct (isLeap y); cbn; auto)). rewrite forallb_forall in Ho.
  specialize (Ho (Z.to_nat m) ltac:(apply in_seq; lia)). rewrite forallb_forall in Ho.
  specialize (Ho (Z.to_nat m') ltac:(apply in_seq; lia)). apply orb_true_iff in Ho as [Ho|Ho]; [apply Nat.leb_le in Ho; lia|].
  rewrite !Z2Nat.id in Ho by lia. b2p. unfold daysIn. lia.
Qed.

(** Earlier days have earlier dates. *)
Definition lex3 (a b : Z * Z * Z) : comparison :=
  then_cmp (a.1.1 ?= b.1.1) (then_cmp (a.1.2 ?= b.1.2) (a.2 ?= b.2)).
Lemma days_of_lt y m d y' m' d' days days' : date_of days = (y, m, d) → date_of days' = (y', m', d') →
  lex3 (y, m, d) (y', m', d') = Lt → days < days'.
Proof.
  intros H H'. pose proof (date_of_spec _ _ _ _ H) as (He&Hm&Hd). pose proof (date_of_spec _ _ _ _ H') as (He'&Hm'&Hd').
  unfold date_of in H, H'. destruct (year_of days) as [x yd] eqn:Hx, (year_of days') as [x' yd'] eqn:Hx'.
  destruct (month_of (isLeap x) yd), (month_of (isLeap x') yd'). injection H as -> _ _. injection H' as -> _ _.
  apply year_of_spec in Hx as [Hx Hyd], Hx' as [Hx' Hyd'].
  unfold lex3. cbn. destruct (Z.compare_spec y y') as [->|Hlt|]; cbn; [|intros _|done].
  - unfold days_of, yday_of in He, He'. fold (month_start (isLeap y') m) in He. fold (month_start (isLeap y') m') in He'.
    destruct (Z.compare_spec m m') as [->|Hlt|]; cbn; [| |done].
    + destruct (Z.compare_spec d d'); [done|lia|done].
    + intros _. pose proof (month_start_order y' m m'). lia.
  - pose proof (year_start_next y). pose proof (year_start_mono (y + 1) y'). lia.
Qed.
Lemma lex3_flip a b : lex3 b a = CompOpp (lex3 a b).
Proof.
  unfold lex3. rewrite (Z.compare_antisym a.1.1), (Z.compare_antisym a.1.2), (Z.compare_antisym a.2).
  by destruct (a.1.1 ?= b.1.1), (a.1.2 ?= b.1.2), (a.2 ?= b.2).
Qed.
Lemma lex3_eq a b : lex3 a b = Eq → a = b.
Proof.
  destruct a as [[a1 a2] a3], b as [[b1 b2] b3]. unfold lex3. cbn.
  destruct (Z.compare_spec a1 b1), (Z.compare_spec a2 b2), (Z.compare_spec a3 b3); cbn; try done. by subst.
Qed.
Lemma date_order days days' : lex3 (date_of days) (date_of days') = (days ?= days').
Proof.
  destruct (date_of days) as [[y m] d] eqn:H, (date_of days') as [[y' m'] d'] eqn:H'.
  destruct (lex3 (y, m, d) (y', m', d')) eqn:Hc.
  - apply lex3_eq in Hc. symmetry. apply Z.compare_eq_iff.
    pose proof (date_of_spec _ _ _ _ H) as (<-&_). pose proof (date_of_spec _ _ _ _ H') as (<-&_). by injection Hc as -> -> ->.
  - symmetry. apply Z.compare_lt_iff. by eapply days_of_lt.
  - symmetry. apply Z.compare_gt_iff. eapply days_of_lt; [exact H'|exact H|]. by rewrite lex3_flip, Hc.
Qed.

Lemma clock_order c c' : 0 ≤ c < day_seconds → 0 ≤ c' < day_seconds →
  lex3 (c / 3600, c / 60 mod 60, c mod 60) (c' / 3600, c' / 60 mod 60, c' mod 60) = (c ?= c').
Proof.
  unfold day_seconds, lex3. cbn. intros Hc Hc'.
  assert (c = c / 3600 * 3600 + c / 60 mod 60 * 60 + c mod 60 ∧ 0 ≤ c / 60 mod 60 < 60 ∧ 0 ≤ c mod 60 < 60) as (He&H1&H2) by (Z.to_euclidean_division_equations; lia).
  assert (c' = c' / 3600 * 3600 + c' / 60 mod 60 * 60 + c' mod 60 ∧ 0 ≤ c' / 60 mod 60 < 60 ∧ 0 ≤ c' mod 60 < 60) as (He'&H1'&H2') by (Z.to_euclidean_division_equations; lia).
  set (h := c / 3600) in *. set (h' := c' / 3600) in *. set (m := c / 60 mod 60) in *. set (m' := c' / 60 mod 60) in *.
  set (s := c mod 60) in *. set (s' := c' mod 60) in *. clearbody h h' m m' s s'.
  destruct (Z.compare_spec h h'), (Z.compare_spec m m'), (Z.compare_spec s s'); cbn; symmetry;
    first [apply Z.compare_eq_iff; lia|apply Z.compare_lt_iff; lia|apply Z.compare_gt_iff; lia].
Qed.

(** The second of an instant decides how its text compares with another's, but for
    what follows the seconds. *)
Theorem compare_seconds_text t u r s : year_in_range t → year_in_range u →
  String.compare (seconds_text t +:+ r) (seconds_text u +:+ s) = then_cmp (t / Second ?= u / Second) (String.compare r s).
Proof.
  unfold year_in_range, seconds_text, date_text. cbv zeta. set (a := t / Second). set (b := u / Second).
  pose proof (date_order (a / day_seconds + epoch_day) (b / day_seconds + epoch_day)) as Ho.
  destruct (date_of (a / day_seconds + epoch_day)) as [[y m] d] eqn:Ha, (date_of (b / day_seconds + epoch_day)) as [[y' m'] d'] eqn:Hb.
  cbn [fst snd]. intros Hy Hy'.
  pose proof (date_of_spec _ _ _ _ Ha) as (_&Hm&Hd). pose proof (daysIn_le m y Hm).
  pose proof (date_of_spec _ _ _ _ Hb) as (_&Hm'&Hd'). pose proof (daysIn_le m' y' Hm').
  assert (∀ z, 0 ≤ z < 10000 → year_text z = pad 4 z) as Hpad.
  { intros z Hz. unfold year_text. destruct (Z.ltb_spec z 0); [lia|]. destruct (Z.ltb_spec z 10000); [done|lia]. }
  rewrite !Hpad by done. clear Hpad.
  pose proof (Z.mod_pos_bound a day_seconds ltac:(done)) as Hc. pose proof (Z.mod_pos_bound b day_seconds ltac:(done)) as Hc'.
  pose proof (clock_order _ _ Hc Hc') as Hk. pose proof (Z.div_mod a day_seconds ltac:(done)) as Hda. pose proof (Z.div_mod b day_seconds ltac:(done)) as Hdb.
  set (c := a mod day_seconds) in *. set (c' := b mod day_seconds) in *. set (q := a / day_seconds) in *. set (q' := b / day_seconds) in *.
  clearbody c c' q q'. unfold day_seconds in Hc, Hc'. unfold clock_text. rewrite <- !str_app_assoc.
  assert (0 ≤ c / 3600 < 100 ∧ 0 ≤ c / 60 mod 60 < 100 ∧ 0 ≤ c mod 60 < 100) as (?&?&?) by (Z.to_euclidean_division_equations; lia).
  assert (0 ≤ c' / 3600 < 100 ∧ 0 ≤ c' / 60 mod 60 < 100 ∧ 0 ≤ c' mod 60 < 100) as (?&?&?) by (Z.to_euclidean_division_equations; lia).
  rewrite !str_app_cons, !str_app_nil_l.
  do 5 (rewrite compare_pad by (cbn; lia); rewrite compare_same). rewrite compare_pad by (cbn; lia).
  assert (then_cmp (q + epoch_day ?= q' + epoch_day) (c ?= c') = (a ?= b)) as Hab.
  { unfold day_seconds in *. destruct (Z.compare_spec (q + epoch_day) (q' + epoch_day)), (Z.compare_spec c c'); cbn; symmetry;
      first [apply Z.compare_eq_iff; lia|apply Z.compare_lt_iff; lia|apply Z.compare_gt_iff; lia]. }
  rewrite <- Hab, <- Ho, <- Hk. unfold lex3. cbn [fst snd].
  generalize (y ?= y'), (m ?= m'), (d ?= d'), (c / 3600 ?= c' / 3600), (c / 60 mod 60 ?= c' / 60 mod 60), (c mod 60 ?= c' mod 60), (String.compare r s).
  intros [] [] [] [] [] [] k; reflexivity.
Qed.
Corollary compare_RFC3339 t u : year_in_range t → year_in_range u →
  String.compare (format_RFC3339 t) (format_RFC3339 u) = (t / Second ?= u / Second).
Proof. intros Ht Hu. unfold format_RFC3339. rewrite compare_seconds_text by done. by destruct (_ ?= _). Qed.
Corollary format_Nano_inj t u : year_in_range t → year_in_range u → format_Nano t = format_Nano u → t = u.
Proof. intros Ht Hu Heq. apply (f_equal Parse) in Heq. rewrite !parse_format_Nano in Heq by done. by injection Heq. Qed.
