(* ===== verification/GoGlob.v ===== *)
(** * [path.Match]

    The shell patterns of Go's [path] package on byte strings, function by function:
    chunks between stars, character classes with ranges and escapes, and the check
    that the rest of a pattern is well formed after the match has failed. *)

From S2P Require Import Prelude GoStrings.

Open Scope string_scope.
Open Scope Z_scope.

(** ** [utf8.DecodeRuneInString] *)

Definition code (s : string) (n : nat) : Z :=
  match String.get n s with Some a => Z.of_nat (nat_of_ascii a) | None => 0 end.
(** The rune at the head of [s] and its length: U+FFFD and 1 where the bytes are not
    UTF-8, U+FFFD and 0 on the empty string. *)
Definition rune_error : Z := 65533.
Definition DecodeRune (s : string) : Z * nat :=
  if bool_decide (s = "") then (rune_error, 0%nat) else
  match rune_size s with
  | Some 1%nat => (code s 0, 1%nat)
  | Some 2%nat => (Z.land (code s 0) 31 * 64 + Z.land (code s 1) 63, 2%nat)
  | Some 3%nat => (Z.land (code s 0) 15 * 4096 + Z.land (code s 1) 63 * 64 + Z.land (code s 2) 63, 3%nat)
  | Some _ => (Z.land (code s 0) 7 * 262144 + Z.land (code s 1) 63 * 4096
               + Z.land (code s 2) 63 * 64 + Z.land (code s 3) 63, 4%nat)
  | None => (rune_error, 1%nat)
  end.

Definition head (s : string) : option ascii := match s with "" => None | String a _ => Some a end.
Definition starts (a : ascii) (s : string) : bool := bool_decide (head s = Some a).

(** ** [scanChunk] *)

Fixpoint drop_stars (s : string) : bool * string :=
  match s with
  | String a s' => if bool_decide (a = "*"%char) then (true, (drop_stars s').2) else (false, s)
  | "" => (false, "")
  end.
(** The chunk up to the next star outside a class, and the rest. *)
Fixpoint scan (inrange : bool) (s : string) : string * string :=
  match s with
  | "" => ("", "")
  | String a s' =>
      if bool_decide (a = "\"%char) then
        match s' with
        | String b s'' => let '(c, r) := scan inrange s'' in (String a (String b c), r)
        | "" => (String a "", "")
        end
      else if bool_decide (a = "["%char) then let '(c, r) := scan true s' in (String a c, r)
      else if bool_decide (a = "]"%char) then let '(c, r) := scan false s' in (String a c, r)
      else if bool_decide (a = "*"%char) && negb inrange then ("", s)
      else let '(c, r) := scan inrange s' in (String a c, r)
  end.
Definition scanChunk (pattern : string) : bool * string * string :=
  let '(star, p) := drop_stars pattern in
  let '(c, r) := scan false p in (star, c, r).

(** ** [getEsc] and [matchChunk] *)

(** A character of a class, and what follows it; [None] is [ErrBadPattern]. *)
Definition getEsc (chunk : string) : option (Z * string) :=
  if bool_decide (chunk = "") || starts "-" chunk || starts "]" chunk then None else
  let chunk := if starts "\" chunk then str_drop 1 chunk else chunk in
  if bool_decide (chunk = "") then None else
  let '(r, n) := DecodeRune chunk in
  if bool_decide (r = rune_error) && bool_decide (n = 1%nat) then None else
  let rest := str_drop n chunk in
  if bool_decide (rest = "") then None else Some (r, rest).

(** The ranges of a class up to its [']'], given the rune to look for. *)
Fixpoint ranges (fuel : nat) (r : Z) (found : bool) (nrange : nat) (chunk : string) : option (bool * string) :=
  match fuel with
  | O => None
  | S f =>
      if starts "]" chunk && bool_decide (0 < nrange)%nat then Some (found, str_drop 1 chunk) else
      match getEsc chunk with
      | None => None
      | Some (lo, chunk) =>
          match (if starts "-" chunk then getEsc (str_drop 1 chunk) else Some (lo, chunk)) with
          | None => None
          | Some (hi, chunk) => ranges f r (found || ((lo <=? r) && (r <=? hi))) (S nrange) chunk
          end
      end
  end.

(** [matchChunk]: [None] is [ErrBadPattern], [Some None] no match, [Some (Some t)] a
    match that leaves [t].  After a failure the rest of the chunk is only checked. *)
Fixpoint matchChunk_from (fuel : nat) (failed : bool) (chunk s : string) : option (option string) :=
  match fuel with
  | O => None
  | S f =>
      match chunk with
      | "" => Some (if failed then None else Some s)
      | String c chunk' =>
          let failed := failed || bool_decide (s = "") in
          if bool_decide (c = "["%char) then
            let '(r, s) := if failed then (0, s)
                           else let '(r, n) := DecodeRune s in (r, str_drop n s) in
            let negated := starts "^" chunk' in
            let chunk' := if negated then str_drop 1 chunk' else chunk' in
            match ranges (S (String.length chunk')) r false 0 chunk' with
            | None => None
            | Some (found, chunk'') => matchChunk_from f (failed || bool_decide (found = negated)) chunk'' s
            end
          else if bool_decide (c = "?"%char) then
            if failed then matchChunk_from f true chunk' s
            else matchChunk_from f (starts "/" s) chunk' (str_drop (DecodeRune s).2 s)
          else
            let lit := if bool_decide (c = "\"%char) then chunk' else chunk in
            match lit with
            | "" => None
            | String l lit' =>
                if failed then matchChunk_from f true lit' s
                else matchChunk_from f (negb (starts l s)) lit' (str_drop 1 s)
            end
      end
  end.
Definition matchChunk (chunk s : string) : option (option string) :=
  matchChunk_from (S (String.length chunk)) false chunk s.

(** ** [Match] *)

(** The rest of a pattern, checked for its syntax. *)
Fixpoint wellformed (fuel : nat) (pattern : string) : option bool :=
  match fuel with
  | O => None
  | S f =>
      if bool_decide (pattern = "") then Some false else
      let '(_, chunk, rest) := scanChunk pattern in
      match matchChunk chunk "" with None => None | Some _ => wellformed f rest end
  end.

(** The places a starred chunk may match at: [Some None] none, [Some (Some t)] the
    first that leaves an acceptable [t]. *)
Fixpoint after_star (chunk : string) (last : bool) (name : string) : option (option string) :=
  match name with
  | "" => Some None
  | String a name' =>
      if bool_decide (a = "/"%char) then Some None else
      match matchChunk chunk name' with
      | None => None
      | Some (Some t) => if last && bool_decide (t ≠ "") then after_star chunk last name' else Some (Some t)
      | Some None => after_star chunk last name'
      end
  end.

Fixpoint match_from (fuel : nat) (pattern name : string) : option bool :=
  match fuel with
  | O => None
  | S f =>
      if bool_decide (pattern = "") then Some (bool_decide (name = "")) else
      let '(star, chunk, rest) := scanChunk pattern in
      if star && bool_decide (chunk = "") then Some (no_byte "/" name) else
      let first := matchChunk chunk name in
      let try_star :=
        match (if star then after_star chunk (bool_decide (rest = "")) name else Some None) with
        | None => None
        | Some (Some t) => match_from f rest t
        | Some None => wellformed (S (String.length rest)) rest
        end in
      match first with
      | Some (Some t) => if bool_decide (t = "") || bool_decide (rest ≠ "") then match_from f rest t else try_star
      | None => None
      | Some None => try_star
      end
  end.
(** [path.Match(pattern, name)]; [None] is [ErrBadPattern].  Every round of the loop
    consumes a byte of the pattern. *)
Definition Match (pattern name : string) : option bool :=
  match_from (S (String.length pattern)) pattern name.

(** ** Sanity checks *)

Example match_star : Match "claude-opus-*" "claude-opus-4.1" = Some true ∧ Match "claude-opus-*" "claude/opus" = Some false.
Proof. by vm_compute. Qed.
Example match_class : Match "gpt-[4-5][^o]" "gpt-5o" = Some false ∧ Match "gpt-[4-5]?" "gpt-5o" = Some true
  ∧ Match "a[^x-z]*c" "abbc" = Some true ∧ Match "[]a]" "a" = None ∧ Match "[-x]" "x" = None ∧ Match "\*" "*" = Some true.
Proof. by vm_compute. Qed.
Example match_syntax : Match "zzz[" "a" = None ∧ Match "a*[" "b" = None ∧ Match "*x*y" "axby" = Some true.
Proof. by vm_compute. Qed.

(** ** Literal patterns *)

Definition plain (a : ascii) : bool :=
  negb (bool_decide (a ∈ ["*"; "?"; "["; "]"; "\"]%char)).
Fixpoint literal (s : string) : bool :=
  match s with "" => true | String a s' => plain a && literal s' end.

Lemma plain_neq a : plain a = true → a ≠ "*"%char ∧ a ≠ "?"%char ∧ a ≠ "["%char ∧ a ≠ "]"%char ∧ a ≠ "\"%char.
Proof. unfold plain. intros H. b2p. set_solver. Qed.

Lemma scan_literal p : literal p = true → scan false p = (p, "").
Proof.
  induction p as [|a p IH]; cbn; [done|]. intros [Ha Hp]%andb_true_iff.
  apply plain_neq in Ha as (?&?&?&?&?). rewrite !bool_decide_false by done. by rewrite IH.
Qed.
Lemma matchChunk_literal f b p s : (String.length p < f)%nat → literal p = true →
  ∃ o, matchChunk_from f b p s = Some o
       ∧ (∀ t, o = Some t ↔ b = false ∧ s = p +:+ t).
Proof.
  revert f b s. induction p as [|a p IH]; intros [|f] b s; cbn [String.length]; try lia; intros Hf Hp; cbn.
  - eexists. split; [done|]. intros t. rewrite str_app_nil_l. destruct b; naive_solver.
  - cbn in Hp. apply andb_true_iff in Hp as [Ha Hp]. apply plain_neq in Ha as (?&?&?&?&?).
    rewrite !bool_decide_false by done. destruct (b || bool_decide (s = "")) eqn:Hb.
    + destruct (IH f true s) as (o&Ho&Hspec); [lia|done|]. exists o. split; [done|]. intros t.
      rewrite Hspec. split; [naive_solver|]. intros [-> ->]. cbn in Hb. b2p. done.
    + apply orb_false_iff in Hb as [-> Hs]. b2p.
      destruct s as [|a' s]; [done|]. cbn [str_drop]. unfold starts. cbn [head].
      destruct (IH f (negb (bool_decide (Some a' = Some a))) s) as (o&Ho&Hspec); [lia|done|].
      exists o. split; [done|]. intros t. rewrite Hspec, negb_false_iff, bool_decide_eq_true, str_app_cons.
      naive_solver.
Qed.

(** A pattern without metacharacters matches itself and nothing else. *)
Lemma Match_literal p name : literal p = true → Match p name = Some (bool_decide (name = p)).
Proof.
  intros Hp. unfold Match. cbn [match_from]. case_bool_decide as Hnil; [subst p; done|].
  unfold scanChunk. destruct p as [|a p]; [done|].
  assert (drop_stars (String a p) = (false, String a p)) as ->.
  { cbn in Hp |- *. apply andb_true_iff in Hp as [Ha _]. apply plain_neq in Ha as [? _].
    by rewrite bool_decide_false. }
  rewrite scan_literal by done. cbn [andb]. unfold matchChunk.
  destruct (matchChunk_literal (S (String.length (String a p))) false (String a p) name) as (o&->&Hspec); [lia|done|].
  destruct o as [t|].
  - destruct (proj1 (Hspec t) eq_refl) as [_ ->]. rewrite (bool_decide_false ("" ≠ "")), orb_false_r by (intros H; by apply H).
    case_bool_decide as Ht.
    + subst t. cbn [String.length match_from]. rewrite str_app_nil_r. by rewrite !bool_decide_true.
    + change (wellformed (S (String.length "")) "") with (Some false). rewrite bool_decide_false; [done|].
      intros Heq. apply Ht.
      assert (String.length t = 0)%nat as Hl; [|by apply str_length_zero].
      apply (f_equal String.length) in Heq. change (String a (p +:+ t)) with (String a p +:+ t) in Heq.
      rewrite str_length_app in Heq. cbn [String.length] in Heq. lia.
  - change (wellformed (S (String.length "")) "") with (Some false). rewrite bool_decide_false; [done|]. intros ->.
    pose proof (proj2 (Hspec "") (conj eq_refl (eq_sym (str_app_nil_r _)))). done.
Qed.
