(* ===== verification/GoRegexp.v ===== *)
(** * Go's [regexp], as far as the code uses it

    The syntax of the patterns in the source (literals, escapes, classes, [.],
    groups, alternation, the postfix operators and the anchors), a parser for it and
    [MatchString].  The text is matched byte by byte: the patterns' literals are
    ASCII and a class or [.] that takes any byte of a rune takes all of them. *)

From S2P Require Import Prelude GoStrings.

Open Scope string_scope.
Set Default Proof Using "Type".

(** ** Syntax *)

Inductive regex :=
| Eps
| Chr (a : ascii)
| Dot
| Class (neg : bool) (ranges : list (ascii * ascii))
| Cat (r s : regex)
| Alt (r s : regex)
| Star (r : regex)
| Bol
| Eol.

Definition in_range (a : ascii) (lh : ascii * ascii) : bool :=
  Nat.leb (nat_of_ascii lh.1) (nat_of_ascii a) && Nat.leb (nat_of_ascii a) (nat_of_ascii lh.2).

(** The bytes of a class, after [[] or [[^]: single bytes and ranges up to []]. *)
Fixpoint parse_class (s : string) : option (list (ascii * ascii) * string) :=
  match s with
  | "" => None
  | String a t =>
      let single := '(l, rest) ← parse_class t; Some ((a, a) :: l, rest) in
      if bool_decide (a = "]"%char) then Some ([], t)
      else match t with
           | String m (String b s') =>
               if bool_decide (m = "-"%char) && negb (bool_decide (b = "]"%char)) then
                 '(l, rest) ← parse_class s'; Some ((a, b) :: l, rest)
               else single
           | _ => single
           end
  end.

(** A postfix operator after an atom. *)
Definition parse_postfix (r : regex) (s : string) : regex * string :=
  match s with
  | String a s' =>
      if bool_decide (a = "*"%char) then (Star r, s')
      else if bool_decide (a = "+"%char) then (Cat r (Star r), s')
      else if bool_decide (a = "?"%char) then (Alt r Eps, s')
      else (r, s)
  | "" => (r, s)
  end.

(** Alternatives of sequences, up to the end or a closing parenthesis.  Every call
    uses a byte, so the length of the pattern is enough fuel. *)
Fixpoint parse_alt (fuel : nat) (acc : regex) (s : string) : option (regex * string) :=
  match fuel with
  | O => None
  | S k =>
      let atom (r : regex) (rest : string) :=
        let '(r, rest) := parse_postfix r rest in parse_alt k (Cat acc r) rest in
      match s with
      | "" => Some (acc, "")
      | String a s' =>
          if bool_decide (a = ")"%char) then Some (acc, s)
          else if bool_decide (a = "|"%char) then
            '(r, rest) ← parse_alt k Eps s'; Some (Alt acc r, rest)
          else if bool_decide (a = "("%char) then
            '(r, rest) ← parse_alt k Eps s';
            match rest with String _ rest' => atom r rest' | "" => None end
          else if bool_decide (a = "["%char) then
            match s' with
            | String b s'' =>
                '(l, rest) ← parse_class (if bool_decide (b = "^"%char) then s'' else s');
                atom (Class (bool_decide (b = "^"%char)) l) rest
            | "" => None
            end
          else if bool_decide (a = "\"%char) then
            match s' with String b s'' => atom (Chr b) s'' | "" => None end
          else if bool_decide (a = "."%char) then atom Dot s'
          else if bool_decide (a = "^"%char) then atom Bol s'
          else if bool_decide (a = "$"%char) then atom Eol s'
          else if bool_decide (a ∈ ["*"; "+"; "?"; "{"; "}"; "]"]%char) then None
          else atom (Chr a) s'
      end
  end.
(** [regexp.MustCompile]; [None] for what is outside the subset. *)
Definition Compile (s : string) : option regex :=
  match parse_alt (S (S (String.length s))) Eps s with
  | Some (r, "") => Some r
  | _ => None
  end.

(** ** Matching *)

(** A position: whether it is the start of the text, and the text from there on. *)
Definition pos : Type := bool * string.
Definition newline : ascii := byte 10.

Definition step1 (P : ascii → bool) (p : pos) : list pos :=
  match p.2 with
  | String a s => if P a then [(false, s)] else []
  | "" => []
  end.

Definition shorter (q p : pos) : bool := Nat.ltb (String.length q.2) (String.length p.2).
#[global] Arguments shorter : simpl never.

(** The positions after a match of [r] that begins at [p]. *)
Fixpoint ends (r : regex) (p : pos) : list pos :=
  match r with
  | Eps => [p]
  | Chr a => step1 (λ x, bool_decide (x = a)) p
  | Dot => step1 (λ x, negb (bool_decide (x = newline))) p
  | Class neg l => step1 (λ x, xorb neg (existsb (in_range x) l)) p
  | Cat r1 r2 => ends r1 p ≫= ends r2
  | Alt r1 r2 => (ends r1 p ++ ends r2 p)%list
  | Star r1 =>
      (fix star (fuel : nat) (p : pos) : list pos :=
         match fuel with
         | O => [p]
         | S k => p :: (ends r1 p ≫= λ q, if shorter q p then star k q else [])
         end) (String.length p.2) p
  | Bol => if p.1 then [p] else []
  | Eol => match p.2 with "" => [p] | _ => [] end
  end.

(** [MatchString]: a match begins somewhere. *)
Fixpoint match_from (r : regex) (bol : bool) (s : string) : bool :=
  negb (bool_decide (ends r (bol, s) = [])) ||
  match s with "" => false | String _ s' => match_from r false s' end.
Definition MatchString (r : regex) (s : string) : bool := match_from r true s.

(** ** Meaning *)

Inductive matches : regex → pos → pos → Prop :=
| m_eps p : matches Eps p p
| m_chr a b s : matches (Chr a) (b, String a s) (false, s)
| m_dot a b s : a ≠ newline → matches Dot (b, String a s) (false, s)
| m_class neg l a b s : xorb neg (existsb (in_range a) l) = true → matches (Class neg l) (b, String a s) (false, s)
| m_cat r1 r2 p q t : matches r1 p q → matches r2 q t → matches (Cat r1 r2) p t
| m_alt_l r1 r2 p q : matches r1 p q → matches (Alt r1 r2) p q
| m_alt_r r1 r2 p q : matches r2 p q → matches (Alt r1 r2) p q
| m_star_nil r p : matches (Star r) p p
| m_star_cons r p q t : matches r p q → matches (Star r) q t → matches (Star r) p t
| m_bol s : matches Bol (true, s) (true, s)
| m_eol b : matches Eol (b, "") (b, "").

(** A match moves forward: it ends where it began, or later. *)
Definition onward (p q : pos) : Prop := q = p ∨ (String.length q.2 < String.length p.2)%nat.
Lemma matches_onward r p q : matches r p q → onward p q.
Proof.
  unfold onward. induction 1; cbn; try (by left); try (right; lia); try done.
  - destruct IHmatches1 as [->|?], IHmatches2 as [->|?]; auto; right; lia.
  - destruct IHmatches1 as [->|?], IHmatches2 as [->|?]; auto; right; lia.
Qed.

Lemma step1_spec P p q : q ∈ step1 P p ↔ ∃ a b s, p = (b, String a s) ∧ P a = true ∧ q = (false, s).
Proof.
  destruct p as [b [|a s]]; unfold step1; cbn.
  - split; [by intros ?%elem_of_nil|by intros (?&?&?&?&_)].
  - destruct (P a) eqn:Ha; split.
    + intros ->%list_elem_of_singleton. by exists a, b, s.
    + intros (?&?&?&[= -> -> ->]&_&->). by apply list_elem_of_singleton.
    + by intros ?%elem_of_nil.
    + intros (?&?&?&[= -> -> ->]&Hp&_). congruence.
Qed.

(** [MatchString] decides whether some part of the text matches. *)
Lemma ends_spec r p q : q ∈ ends r p ↔ matches r p q.
Proof.
  revert p q. induction r as [|a| |neg l|r1 IH1 r2 IH2|r1 IH1 r2 IH2|r IH| |]; intros p q.
  - cbn. rewrite list_elem_of_singleton. split; [intros ->; constructor|by inversion 1].
  - cbn. rewrite step1_spec. split; [intros (?&?&?&->&?%bool_decide_eq_true&->); subst; constructor|].
    inversion 1; subst. eexists _, _, _. split_and!; [done|by apply bool_decide_eq_true|done].
  - cbn. rewrite step1_spec. split; [intros (?&?&?&->&Hn&->); constructor; by b2p|].
    inversion 1; subst. eexists _, _, _. split_and!; [done| |done]. apply negb_true_iff. by apply bool_decide_eq_false.
  - cbn. rewrite step1_spec. split; [intros (?&?&?&->&Hn&->); by constructor|].
    inversion 1; subst. by eexists _, _, _.
  - cbn. rewrite list_elem_of_bind. split.
    + intros (m&Hq&Hm). eapply m_cat; [by apply IH1|by apply IH2].
    + inversion 1; subst. eexists. split; [by apply IH2|by apply IH1].
  - cbn. rewrite elem_of_app, IH1, IH2. split; [intros [?|?]; by constructor|inversion 1; auto].
  - cbn. set (star := fix star (fuel : nat) (p : pos) : list pos := _).
    assert (∀ n p q, q ∈ star n p → matches (Star r) p q) as Hsound.
    { intros n. induction n as [|n IHn]; intros p0 q0; cbn.
      - rewrite list_elem_of_singleton. intros ->. constructor.
      - rewrite elem_of_cons, list_elem_of_bind. intros [->|(m&Hq&Hm)]; [constructor|].
        destruct (shorter _ _); [|by apply elem_of_nil in Hq]. eapply m_star_cons; [by apply IH|by apply IHn]. }
    split; [apply Hsound|]. intros Hm.
    assert (∀ n, String.length p.2 ≤ n → q ∈ star n p)%nat as Hall; [|by apply Hall].
    remember (Star r) as r0 eqn:Hr. clear Hsound. induction Hm; simplify_eq.
    + intros [|n]; cbn; [intros _; by apply list_elem_of_singleton|by left].
    + destruct (matches_onward _ _ _ Hm1) as [->|Hlt]; [by auto|]. intros [|n] Hn; [lia|]. cbn.
      right. apply list_elem_of_bind. exists q. split; [|by apply IH].
      replace (shorter q p) with true by (symmetry; by apply Nat.ltb_lt). apply IHHm2; [done|lia].
  - cbn. destruct p as [[] s]; cbn.
    + rewrite list_elem_of_singleton. split; [intros ->; constructor|by inversion 1].
    + split; [by intros ?%elem_of_nil|inversion 1].
  - cbn. destruct p as [b [|a s]]; cbn.
    + rewrite list_elem_of_singleton. split; [intros ->; constructor|by inversion 1].
    + split; [by intros ?%elem_of_nil|inversion 1].
Qed.

Lemma ends_ne r p : bool_decide (ends r p = []) = false ↔ ∃ q, matches r p q.
Proof.
  rewrite bool_decide_eq_false. split.
  - destruct (ends r p) as [|q l] eqn:He; [done|]. intros _. exists q. apply ends_spec. rewrite He. by left.
  - intros [q Hq%ends_spec] He. rewrite He in Hq. by apply elem_of_nil in Hq.
Qed.

(** A pattern that begins with [^] matches at the start of the text only. *)
Inductive anchored : regex → Prop :=
| anch_bol : anchored Bol
| anch_l r s : anchored r → anchored (Cat r s)
| anch_eps s : anchored s → anchored (Cat Eps s).
Lemma anchored_start r p q : anchored r → matches r p q → p.1 = true.
Proof.
  intros Ha. revert p q. induction Ha as [|r s Ha IH|s Ha IH]; intros p q; inversion 1; subst; [done| |].
  - by eapply IH.
  - match goal with H : matches Eps _ _ |- _ => inversion H; subst end. by eapply IH.
Qed.
Lemma MatchString_anchored r s : anchored r → MatchString r s = true ↔ ∃ q, matches r (true, s) q.
Proof.
  intros Ha. unfold MatchString.
  assert (∀ t, match_from r false t = false) as Hno.
  { intros t. induction t as [|a t IH]; cbn.
    - destruct (bool_decide (ends r (false, "") = [])) eqn:He; [done|].
      apply ends_ne in He as [q Hq]. by pose proof (anchored_start _ _ _ Ha Hq).
    - rewrite IH, orb_false_r. destruct (bool_decide (ends r (false, String a t) = [])) eqn:He; [done|].
      apply ends_ne in He as [q Hq]. by pose proof (anchored_start _ _ _ Ha Hq). }
  rewrite <- (ends_ne r (true, s)). destruct s as [|a t]; cbn [match_from]; rewrite ?Hno, ?orb_false_r; apply negb_true_iff.
Qed.

(** The bytes of a literal after what came before. *)
Fixpoint cat_lit (acc : regex) (s : string) : regex :=
  match s with "" => acc | String a s' => cat_lit (Cat acc (Chr a)) s' end.
Lemma matches_chr a p q : matches (Chr a) p q ↔ ∃ b s, p = (b, String a s) ∧ q = (false, s).
Proof. split; [inversion 1; subst; eauto|intros (?&?&->&->); constructor]. Qed.
Lemma cat_lit_matches acc l p q : l ≠ "" →
  matches (cat_lit acc l) p q ↔ ∃ b t, matches acc p (b, l +:+ t) ∧ q = (false, t).
Proof.
  revert acc p q. induction l as [|a l IH]; [done|]. intros acc p q _. cbn [cat_lit].
  destruct (decide (l = "")) as [->|Hl].
  - cbn. split.
    + inversion 1; subst. match goal with H : matches (Chr _) _ _ |- _ => apply matches_chr in H as (b&t&->&->) end.
      exists b, t. by rewrite str_app_cons, str_app_nil_l.
    + intros (b&t&Hm&->). rewrite str_app_cons, str_app_nil_l in Hm. eapply m_cat; [exact Hm|constructor].
  - rewrite IH by done. split.
    + intros (b&t&Hm&->). inversion Hm; subst.
      match goal with H : matches (Chr _) _ _ |- _ => apply matches_chr in H as (b'&t'&->&[= -> <-]) end.
      exists b', t. by rewrite str_app_cons.
    + intros (b&t&Hm&->). rewrite str_app_cons in Hm. exists false, t. split; [|done]. eapply m_cat; [exact Hm|constructor].
Qed.
Lemma cat_lit_anchored acc l : anchored acc → anchored (cat_lit acc l).
Proof. revert acc. induction l as [|a l IH]; intros acc Ha; [done|]. apply IH. by constructor. Qed.

(** ** Examples *)

Example compile_ex : Compile "^a\{[^}]+\}(b|cd)*$" =
  Some (Cat (Cat (Cat (Cat (Cat (Cat (Cat Eps Bol) (Chr "a"))
    (Chr "{")) (Cat (Class true [("}"%char, "}"%char)]) (Star (Class true [("}"%char, "}"%char)])))) (Chr "}"))
    (Star (Alt (Cat Eps (Chr "b")) (Cat (Cat Eps (Chr "c")) (Chr "d"))))) Eol).
Proof. reflexivity. Qed.
Example match_ex : (λ s, (λ r, MatchString r s) <$> Compile "^/x/\{[^}]+\}(/|$)") <$>
    ["/x/{id}"; "/x/{id}/y"; "/x/{id}y"; "/x/{}"; "a/x/{id}"] =
  [Some true; Some true; Some false; Some false; Some false].
Proof. reflexivity. Qed.
