(* ===== verification/GoNet.v ===== *)
(** * Go's [net]: host and port, and addresses

    [SplitHostPort], and [ParseIP] with [IsLoopback], as the host check of the API
    uses them.  An address is its sixteen bytes, an IPv4 one mapped into IPv6. *)

From S2P Require Import Prelude GoStrings.

Open Scope string_scope.

(** ** [SplitHostPort] *)

(** The parts before and after the last colon. *)
Definition cut_last (c : ascii) (s : string) : option (string * string) :=
  match cut c (str_rev s) with Some (p, h) => Some (str_rev h, str_rev p) | None => None end.
Definition has_byte (c : ascii) (s : string) : bool := negb (no_byte c s).

Definition SplitHostPort (hostport : string) : option (string * string) :=
  match cut_last ":" hostport with
  | None => None
  | Some (before, port) =>
      match hostport with
      | String "[" rest =>
          match cut "]" rest with
          | None => None
          | Some (host, tail) =>
              (* the first closing bracket has to stand right before the last colon *)
              if negb (bool_decide (tail = String ":" port)) then None
              else if has_byte "[" rest || has_byte "]" tail then None
              else Some (host, port)
          end
      | _ =>
          if has_byte ":" before then None
          else if has_byte "[" hostport || has_byte "]" hostport then None
          else Some (before, port)
      end
  end.

(** ** [ParseIP] *)

Definition dec_digit (a : ascii) : option nat :=
  let n := nat_of_ascii a in if Nat.leb 48 n && Nat.leb n 57 then Some (n - 48) else None.
Definition hex_digit (a : ascii) : option nat :=
  let n := nat_of_ascii a in
  if Nat.leb 48 n && Nat.leb n 57 then Some (n - 48)
  else if Nat.leb 97 n && Nat.leb n 102 then Some (n - 87)
  else if Nat.leb 65 n && Nat.leb n 70 then Some (n - 55)
  else None.

(** A decimal octet without a leading zero. *)
Fixpoint octet_from (s : string) (acc : nat) : option nat :=
  match s with
  | "" => Some acc
  | String a s' =>
      match dec_digit a with
      | Some d => let v := acc * 10 + d in if Nat.leb v 255 then octet_from s' v else None
      | None => None
      end
  end.
Definition octet (s : string) : option nat :=
  match s with
  | "" => None
  | String a s' => if bool_decide (a = "0"%char) && negb (bool_decide (s' = "")) then None else octet_from s 0
  end.
Definition parseIPv4 (s : string) : option (list nat) :=
  match split "." s with
  | [a; b; c; d] =>
      a ← octet a; b ← octet b; c ← octet c; d ← octet d; Some [a; b; c; d]
  | _ => None
  end.

(** The hexadecimal digits at the front, their number and value, and the rest. *)
Fixpoint hex_group (s : string) (digits acc : nat) : nat * nat * string :=
  match s with
  | String a s' =>
      match hex_digit a with
      | Some d => hex_group s' (S digits) (acc * 16 + d)
      | None => (digits, acc, s)
      end
  | "" => (digits, acc, s)
  end.
(** The loop over the groups: [ip] are the bytes so far, [gap] where the ellipsis
    stands among them.  Every turn uses a byte, so the length is enough fuel. *)
Fixpoint groups (fuel : nat) (s : string) (ip : list nat) (gap : option nat) : option (list nat * option nat) :=
  match fuel with
  | O => None
  | S k =>
      if negb (Nat.ltb (length ip) 16) then None else
      let '(digits, acc, rest) := hex_group s 0 0 in
      if Nat.eqb digits 0 || Nat.ltb 4 digits then None else
      match rest with
      | String "." _ =>
          if (bool_decide (gap = None) && negb (Nat.eqb (length ip) 12)) || Nat.ltb 12 (length ip) then None
          else v4 ← parseIPv4 s; Some ((ip ++ v4)%list, gap)
      | "" => Some ((ip ++ [acc / 256; acc mod 256])%list, gap)
      | String ":" (String c rest') =>
          let ip := (ip ++ [acc / 256; acc mod 256])%list in
          if bool_decide (c = ":"%char) then
            match gap with
            | Some _ => None
            | None => if bool_decide (rest' = "") then Some (ip, Some (length ip)) else groups k rest' ip (Some (length ip))
            end
          else groups k (String c rest') ip gap
      | _ => None
      end
  end.
Definition expand (ip : list nat) (gap : option nat) : option (list nat) :=
  if Nat.ltb (length ip) 16 then
    match gap with
    | None => None
    | Some g => Some (take g ip ++ replicate (16 - length ip) 0 ++ drop g ip)%list
    end
  else if bool_decide (gap = None) then Some ip else None.
Definition parseIPv6 (s : string) : option (list nat) :=
  '(ip, gap) ←
    match s with
    | String ":" (String ":" rest) =>
        if bool_decide (rest = "") then Some ([], Some 0) else groups (String.length s) rest [] (Some 0)
    | _ => groups (S (String.length s)) s [] None
    end;
  expand ip gap.
(** The first dot or colon tells the family; a zone is refused. *)
Fixpoint family (s : string) : option bool :=
  match s with
  | "" => None
  | String a s' =>
      if bool_decide (a = "."%char) then Some true
      else if bool_decide (a = ":"%char) then Some false
      else if bool_decide (a = "%"%char) then None
      else family s'
  end.
Definition ParseIP (s : string) : option (list nat) :=
  if has_byte "%" s then None else
  match family s with
  | Some true => v4 ← parseIPv4 s; Some (replicate 10 0 ++ [255; 255] ++ v4)%list
  | Some false => parseIPv6 s
  | None => None
  end.
Definition IsLoopback (ip : list nat) : bool :=
  if bool_decide (take 12 ip = (replicate 10 0 ++ [255; 255])%list) then bool_decide (ip !! 12 = Some 127)
  else bool_decide (ip = (replicate 15 0 ++ [1])%list).

Example hostport_ex :
  SplitHostPort <$> ["localhost:80"; "[::1]:80"; "::1"; "localhost"; "[::1]"; "a:b:80"; "[a]b:80"] =
  [Some ("localhost", "80"); Some ("::1", "80"); None; None; None; None; None].
Proof. reflexivity. Qed.
Example ip_ex : (λ s, IsLoopback <$> ParseIP s) <$>
    ["127.0.0.1"; "127.1"; "::1"; "0:0:0:0:0:0:0:1"; "::ffff:127.0.0.1"; "::"; "10.0.0.1"; "127.0.0.01"; "::1%lo"; "1::2::3"] =
  [Some true; None; Some true; Some true; Some true; Some false; Some false; None; None; None].
Proof. reflexivity. Qed.
