(* ===== verification/GoPath.v ===== *)
(** * Go's [path/filepath] on Unix

    The lexical path functions the modelled code calls: [filepath.Clean],
    [IsAbs], [Join], [Dir], [Base].  [Clean] is written over path components,
    as its documentation describes it: drop empty and [.] components, let
    [..] erase the component before it, drop [..] at a root. *)

From S2P Require Import Prelude GoStrings.

Open Scope string_scope.
Open Scope nat_scope.

Definition slash : ascii := "/".
Definition Separator : string := "/".

Lemma sep_app q : Separator +:+ q = String slash q.
Proof. done. Qed.

(** ** Clean *)

(** [filepath.IsAbs]. *)
Definition IsAbs (p : string) : bool := has_prefix p Separator.

(** One component of the input against the output so far, last one first. *)
Definition clean_step (rooted : bool) (stack : list string) (c : string) : list string :=
  if bool_decide (c = "" ∨ c = ".") then stack
  else if bool_decide (c = "..") then
    match stack with
    | [] => if rooted then [] else [".."]
    | top :: rest => if bool_decide (top = "..") then ".." :: stack else rest
    end
  else c :: stack.

Definition clean_stack (p : string) : list string :=
  fold_left (clean_step (IsAbs p)) (split slash p) [].

Definition render (rooted : bool) (cs : list string) : string :=
  if rooted then Separator +:+ join Separator cs
  else match cs with [] => "." | _ => join Separator cs end.

(** [filepath.Clean]. *)
Definition Clean (p : string) : string :=
  if bool_decide (p = "") then "." else render (IsAbs p) (rev (clean_stack p)).

(** [filepath.Join]: the elements from the first non-empty one on. *)
Fixpoint Join (elems : list string) : string :=
  match elems with
  | [] => ""
  | e :: rest => if bool_decide (e = "") then Join rest else Clean (join Separator (e :: rest))
  end.

(** Everything up to and including the last separator. *)
Fixpoint upto_last_slash (p : string) : string :=
  match p with
  | "" => ""
  | String a p' =>
      match upto_last_slash p' with
      | "" => if bool_decide (a = slash) then String a "" else ""
      | r => String a r
      end
  end.
(** [filepath.Dir]. *)
Definition Dir (p : string) : string := Clean (upto_last_slash p).

(** What follows the last separator. *)
Fixpoint after_last_slash (p : string) : string :=
  match p with
  | "" => ""
  | String a p' =>
      if no_byte slash p then p else after_last_slash p'
  end.
(** [filepath.Base]. *)
Definition Base (p : string) : string :=
  if bool_decide (p = "") then "."
  else let q := trim_right p Separator in
       if bool_decide (q = "") then Separator else after_last_slash q.

Example clean_ex1 : Clean "/a/./b//../c/" = "/a/c".
Proof. reflexivity. Qed.
Example clean_ex2 : Clean "../a/../../b" = "../../b".
Proof. reflexivity. Qed.
Example clean_ex3 : Clean "/../.." = "/".
Proof. reflexivity. Qed.
Example dir_ex : Dir "/a/b" = "/a" ∧ Dir "/a" = "/" ∧ Dir "/" = "/" ∧ Dir "a" = ".".
Proof. done. Qed.
Example base_ex : Base "/a/b.go" = "b.go" ∧ Base "/" = "/" ∧ Base "x" = "x".
Proof. done. Qed.
Example join_ex : Join ["/home/u"; ".ssh"] = "/home/u/.ssh" ∧ Join [""; ""] = "".
Proof. done. Qed.

(** ** The components of a clean path *)

(** A component [Clean] keeps: non-empty, no separator, not [.]. *)
Definition comp_ok (c : string) : Prop :=
  c ≠ "" ∧ c ≠ "." ∧ no_byte slash c = true.

(** A stack [Clean] produces: [..] only under other [..], and never when
    rooted. *)
Fixpoint stack_ok (rooted : bool) (st : list string) : Prop :=
  match st with
  | [] => True
  | c :: st' =>
      comp_ok c ∧ stack_ok rooted st' ∧
      (c = ".." → rooted = false ∧ match st' with [] => True | d :: _ => d = ".." end)
  end.

Lemma clean_step_ok rooted st c :
  no_byte slash c = true → stack_ok rooted st → stack_ok rooted (clean_step rooted st c).
Proof.
  intros Hc Hst. unfold clean_step. case_bool_decide as H1; [done|].
  assert (c ≠ "" ∧ c ≠ ".") as [Hne Hdot] by naive_solver. case_bool_decide as H2.
  - destruct st as [|top rest].
    + destruct rooted; simpl; [done|]. repeat split; try done; by subst.
    + case_bool_decide as H3.
      * subst. destruct Hst as (Htop & Hrest & Hdd). simpl.
        destruct (Hdd eq_refl) as [-> ?]. repeat split; try done.
      * by destruct Hst as (_ & ? & _).
  - simpl. repeat split; done.
Qed.

Lemma clean_fold_ok rooted cs st :
  Forall (λ c, no_byte slash c = true) cs → stack_ok rooted st →
  stack_ok rooted (fold_left (clean_step rooted) cs st).
Proof.
  revert st. induction cs as [|c cs IH]; intros st; [done|].
  intros [Hc Hcs]%Forall_cons Hst. simpl. apply IH; [done|]. by apply clean_step_ok.
Qed.
Lemma clean_stack_ok p : stack_ok (IsAbs p) (clean_stack p).
Proof. apply clean_fold_ok; [apply split_parts|done]. Qed.

(** Folding the components of an already clean path rebuilds its stack. *)
Lemma clean_fold_id rooted st :
  stack_ok rooted st → fold_left (clean_step rooted) (rev st) [] = st.
Proof.
  induction st as [|c st IH]; [done|]. intros (Hc & Hst & Hdd). simpl.
  rewrite fold_left_app, IH by done. simpl. unfold clean_step.
  destruct Hc as (Hne & Hdot & _).
  rewrite bool_decide_eq_false_2 by naive_solver.
  case_bool_decide as E; [|done]. subst.
  destruct (Hdd eq_refl) as [-> Hd]. destruct st as [|d st]; [done|].
  by rewrite bool_decide_eq_true_2.
Qed.

Lemma stack_ok_comps rooted st : stack_ok rooted st → Forall comp_ok st.
Proof. induction st as [|c st IH]; [constructor|]. intros (? & ? & _). constructor; auto. Qed.

Lemma comp_ok_not_abs c : comp_ok c → IsAbs c = false.
Proof.
  intros (_ & _ & Hs). unfold IsAbs, Separator. destruct c as [|a c]; [done|].
  simpl in *. apply andb_true_iff in Hs as [Ha _].
  apply negb_true_iff, bool_decide_eq_false in Ha.
  by rewrite bool_decide_eq_false_2.
Qed.
Lemma IsAbs_app a b : a ≠ "" → IsAbs (a +:+ b) = IsAbs a.
Proof. unfold IsAbs. destruct a as [|x a]; [done|]. intros _. rewrite str_app_cons. simpl. by destruct a, b. Qed.
Lemma IsAbs_join cs :
  Forall comp_ok cs → IsAbs (join Separator cs) = false.
Proof.
  destruct cs as [|c cs]; [done|]. intros [Hc _]%Forall_cons.
  destruct cs; simpl; [by apply comp_ok_not_abs|].
  rewrite IsAbs_app by (by destruct Hc). by apply comp_ok_not_abs.
Qed.
Lemma join_not_nil cs : cs ≠ [] → Forall comp_ok cs → join Separator cs ≠ "".
Proof.
  destruct cs as [|c cs]; [done|]. intros _ [(Hc & _ & _) _]%Forall_cons.
  destruct cs; simpl; [done|]. by intros [? _]%str_app_nil_inv.
Qed.

(** The stack of a rendered clean path is the one it was rendered from. *)
Lemma clean_stack_render rooted st :
  stack_ok rooted st → (rooted = false → st ≠ []) →
  IsAbs (render rooted (rev st)) = rooted ∧
  clean_stack (render rooted (rev st)) = st.
Proof.
  intros Hst Hne. pose proof (stack_ok_comps _ _ Hst) as Hcomps.
  assert (Forall comp_ok (rev st)) as Hrev by (by apply Forall_rev).
  assert (Forall (λ c, no_byte slash c = true) (rev st)) as Hparts.
  { eapply Forall_impl; [exact Hrev|]. by intros c (_ & _ & ?). }
  assert (st ≠ [] → rev st ≠ []) as Hrne.
  { intros Hs E. apply Hs. by rewrite <- (rev_involutive st), E. }
  unfold clean_stack. destruct rooted.
  - cbn [render]. assert (∀ q, IsAbs (Separator +:+ q) = true) as Habs by (intros q; by rewrite IsAbs_app).
    rewrite Habs. split; [done|]. rewrite sep_app.
    cbn [split]. rewrite bool_decide_eq_true_2 by done. cbn [fold_left].
    unfold clean_step at 2. rewrite bool_decide_eq_true_2 by naive_solver.
    destruct st as [|c st]; [done|].
    change "/" with (String slash "").
    rewrite split_join; [by apply clean_fold_id|by apply Hrne|done].
  - specialize (Hne eq_refl). specialize (Hrne Hne).
    assert (render false (rev st) = join Separator (rev st)) as -> by (unfold render; by destruct (rev st)).
    rewrite IsAbs_join by done. split; [done|].
    change Separator with (String slash "").
    rewrite split_join by done. by apply clean_fold_id.
Qed.

Lemma Clean_cases p :
  (p = "" ∧ Clean p = ".") ∨
  (p ≠ "" ∧ IsAbs p = false ∧ clean_stack p = [] ∧ Clean p = ".") ∨
  (p ≠ "" ∧ (IsAbs p = false → clean_stack p ≠ []) ∧
   Clean p = render (IsAbs p) (rev (clean_stack p))).
Proof.
  unfold Clean. case_bool_decide as E; [by left|right].
  destruct (IsAbs p) eqn:Ha; [by right|].
  destruct (clean_stack p) eqn:Hs; [by left|by right].
Qed.

(** [Clean] is idempotent: a cleaned path is clean. *)
Lemma Clean_idempotent p : Clean (Clean p) = Clean p.
Proof.
  destruct (Clean_cases p) as [(_ & ->)|[(_ & _ & _ & ->)|(Hp & Hne & ->)]]; try done.
  pose proof (clean_stack_ok p) as Hok.
  destruct (clean_stack_render _ _ Hok Hne) as [Habs Hst].
  unfold Clean. rewrite Habs, Hst.
  rewrite bool_decide_eq_false_2; [done|].
  destruct (IsAbs p) eqn:Ha; simpl; [done|].
  specialize (Hne eq_refl).
  assert (Forall comp_ok (rev (clean_stack p))) as Hc
    by (by eapply Forall_rev, stack_ok_comps).
  destruct (rev (clean_stack p)) eqn:E; [done|]. by apply join_not_nil.
Qed.

(** [Clean] keeps a path absolute, and makes no relative path absolute. *)
Lemma IsAbs_Clean p : IsAbs (Clean p) = IsAbs p.
Proof.
  destruct (Clean_cases p) as [(-> & ->)|[(_ & -> & _ & ->)|(Hp & Hne & ->)]]; try done.
  by destruct (clean_stack_render _ _ (clean_stack_ok p) Hne).
Qed.

(** ** Lengths: [Dir] climbs to a fixed point *)

Fixpoint total (cs : list string) : nat :=
  match cs with [] => 0 | c :: cs' => S (String.length c) + total cs' end.

Lemma total_app a b : total (a ++ b)%list = total a + total b.
Proof. induction a; simpl; lia. Qed.
Lemma total_rev cs : total (rev cs) = total cs.
Proof. induction cs; simpl; [done|]. rewrite total_app. simpl. lia. Qed.
Lemma total_split p : total (split slash p) = S (String.length p).
Proof.
  induction p as [|a p IH]; simpl; [done|]. case_bool_decide; simpl; [by rewrite IH|].
  pose proof (split_not_nil slash p). destruct (split slash p); simpl in *; [done|lia].
Qed.
Lemma length_join cs : cs ≠ [] → S (String.length (join Separator cs)) = total cs.
Proof.
  induction cs as [|c cs IH]; [done|]. intros _. destruct cs as [|d cs]; [simpl; lia|].
  specialize (IH ltac:(done)).
  change (join Separator (c :: d :: cs)) with (c +:+ Separator +:+ join Separator (d :: cs)).
  rewrite !str_length_app. cbn [total]. cbn [total] in IH. simpl (String.length Separator). lia.
Qed.
Lemma total_clean_step rooted st c :
  total (clean_step rooted st c) ≤ total st + (if bool_decide (c = "" ∨ c = ".") then 0 else S (String.length c)).
Proof.
  unfold clean_step. case_bool_decide; [lia|]. case_bool_decide; subst; [|simpl; lia].
  destruct st as [|top rest]; [destruct rooted; simpl; lia|].
  case_bool_decide; simpl; lia.
Qed.
Lemma total_clean_fold rooted cs st :
  total (fold_left (clean_step rooted) cs st) ≤ total st + total cs.
Proof.
  revert st. induction cs as [|c cs IH]; intros st; simpl; [lia|].
  specialize (IH (clean_step rooted st c)).
  pose proof (total_clean_step rooted st c) as H. case_bool_decide; simpl in *; lia.
Qed.
Lemma total_clean_stack p :
  total (clean_stack p) + (if IsAbs p then 1 else 0) ≤ S (String.length p).
Proof.
  unfold clean_stack. destruct (IsAbs p) eqn:Ha.
  - destruct p as [|a p]; [done|]. unfold IsAbs in Ha. simpl in Ha.
    apply andb_true_iff in Ha as [Ha%bool_decide_eq_true _].
    change "/"%char with slash in Ha. subst a.
    cbn [split]. rewrite bool_decide_eq_true_2 by done. cbn [fold_left].
    pose proof (total_clean_fold true (split slash p) (clean_step true [] "")) as H.
    rewrite total_split in H. simpl in H |- *. lia.
  - pose proof (total_clean_fold false (split slash p) []) as H.
    rewrite total_split in H. simpl in H. lia.
Qed.

Lemma Clean_length p : String.length (Clean p) ≤ Nat.max 1 (String.length p).
Proof.
  destruct (Clean_cases p) as [(_ & ->)|[(_ & _ & _ & ->)|(Hp & Hne & ->)]]; try (simpl; lia).
  pose proof (total_clean_stack p) as Ht. unfold render. destruct (IsAbs p).
  - rewrite str_length_app. destruct (clean_stack p) as [|c st] eqn:E; [simpl; lia|].
    assert (rev (c :: st) ≠ []) as Hr by (intros ?%(f_equal length); rewrite length_rev in *; done).
    pose proof (length_join _ Hr) as Hj. rewrite total_rev in Hj. simpl (String.length Separator). lia.
  - specialize (Hne eq_refl).
    assert (rev (clean_stack p) ≠ []) as Hr.
    { intros E. apply Hne. by rewrite <- (rev_involutive (clean_stack p)), E. }
    pose proof (length_join _ Hr) as Hj. rewrite total_rev in Hj.
    destruct (rev (clean_stack p)); [done|]. lia.
Qed.

Lemma upto_last_slash_cases p :
  upto_last_slash p = "" ∨ has_suffix (upto_last_slash p) Separator = true.
Proof.
  induction p as [|a p IH]; simpl; [by left|].
  destruct (upto_last_slash p) as [|b r] eqn:E.
  - case_bool_decide; subst; [by right|by left].
  - right. destruct IH as [?|IH]; [done|]. apply has_suffix_spec in IH as [q Hq].
    apply has_suffix_spec. exists (String a q). by rewrite Hq.
Qed.
Lemma upto_last_slash_length p : String.length (upto_last_slash p) ≤ String.length p.
Proof.
  induction p as [|a p IH]; simpl; [lia|].
  destruct (upto_last_slash p); [case_bool_decide; simpl; lia|]. simpl in *. lia.
Qed.
Lemma upto_last_slash_full p :
  String.length (upto_last_slash p) = String.length p → upto_last_slash p = p.
Proof.
  induction p as [|a p IH]; [done|]. simpl. pose proof (upto_last_slash_length p).
  destruct (upto_last_slash p) as [|b r] eqn:E.
  - case_bool_decide; simpl; [|lia]. intros [= Hl]. symmetry in Hl. by apply str_length_zero in Hl as ->.
  - simpl. intros [= Hl]. by rewrite IH.
Qed.

(** A clean path longer than one byte does not end in a separator. *)
Lemma join_no_trailing cs :
  cs ≠ [] → Forall comp_ok cs → has_suffix (join Separator cs) Separator = false.
Proof.
  intros Hne Hcs. apply not_true_iff_false. intros [r Hr]%has_suffix_spec.
  assert (Forall (λ c, no_byte slash c = true) cs) as Hn.
  { eapply Forall_impl; [exact Hcs|]. by intros c (_ & _ & ?). }
  pose proof (split_join slash cs Hne Hn) as Hs. change (String slash "") with Separator in Hs.
  rewrite Hr in Hs.
  assert (∀ q, last (split slash (q +:+ Separator)) = Some "") as Hl.
  { induction q as [|a q IHq]; [done|]. rewrite str_app_cons. cbn [split].
    pose proof (split_not_nil slash (q +:+ Separator)).
    destruct (split slash (q +:+ Separator)) as [|h t] eqn:E; [done|].
    case_bool_decide; [by rewrite last_cons_cons|].
    destruct t as [|h2 t]; [|by rewrite !last_cons_cons in *].
    exfalso. clear -E. revert h E. induction q as [|b q IH]; intros h; [done|].
    rewrite str_app_cons. cbn [split].
    pose proof (split_not_nil slash (q +:+ Separator)).
    destruct (split slash (q +:+ Separator)) as [|h' t'] eqn:E'; [done|].
    case_bool_decide; [done|]. intros [= <- ->]. by apply (IH h'). }
  specialize (Hl r). rewrite Hs in Hl. apply last_Some_elem_of in Hl.
  rewrite Forall_forall in Hcs. by destruct (Hcs _ Hl).
Qed.
Lemma Clean_no_trailing p :
  2 ≤ String.length (Clean p) → has_suffix (Clean p) Separator = false.
Proof.
  destruct (Clean_cases p) as [(_ & ->)|[(_ & _ & _ & ->)|(Hp & Hne & ->)]]; try (simpl; lia).
  pose proof (stack_ok_comps _ _ (clean_stack_ok p)) as Hc. intros Hlen.
  assert (Forall comp_ok (rev (clean_stack p))) as Hrev by (by apply Forall_rev).
  destruct (rev (clean_stack p)) as [|c cs] eqn:E.
  { destruct (IsAbs p); simpl in Hlen; lia. }
  assert (has_suffix (join Separator (c :: cs)) Separator = false) as Hj by (by apply join_no_trailing).
  destruct (IsAbs p); [|done]. unfold render.
  apply not_true_iff_false. intros [r Hr]%has_suffix_spec.
  apply not_true_iff_false in Hj. apply Hj, has_suffix_spec.
  destruct r as [|a r].
  - rewrite str_app_nil_l in Hr. apply (f_equal String.length) in Hr.
    rewrite str_length_app in Hr. simpl (String.length Separator) in Hr.
    assert (join Separator (c :: cs) = "") as Hz by (apply str_length_zero; lia).
    exfalso. by eapply join_not_nil; [|exact Hrev|exact Hz].
  - rewrite str_app_cons in Hr. injection Hr as _ Hr. by exists r.
Qed.

(** The parent of a clean path of two bytes or more is shorter. *)
Lemma Dir_shorter p :
  2 ≤ String.length (Clean p) → String.length (Dir (Clean p)) < String.length (Clean p).
Proof.
  intros Hlen. unfold Dir. pose proof (Clean_length (upto_last_slash (Clean p))) as Hc.
  pose proof (upto_last_slash_length (Clean p)) as Hu.
  destruct (decide (String.length (upto_last_slash (Clean p)) = String.length (Clean p))) as [E|E]; [|lia].
  apply upto_last_slash_full in E as E'.
  destruct (upto_last_slash_cases (Clean p)) as [H0|H0].
  - rewrite H0 in E. simpl in E. lia.
  - rewrite E' in H0. by rewrite Clean_no_trailing in H0.
Qed.

(** A clean absolute path: the root, or a separator and its components. *)
Lemma Clean_abs_shape p :
  IsAbs p = true → Clean p = Separator +:+ join Separator (rev (clean_stack p)).
Proof.
  intros Ha. unfold Clean. rewrite Ha. rewrite bool_decide_eq_false_2; [done|]. by intros ->.
Qed.

(** Joining one plain component to a clean absolute directory. *)
Lemma Clean_child dir c :
  IsAbs dir = true → Clean dir = dir → comp_ok c → c ≠ ".." →
  Join [dir; c] = (if bool_decide (dir = Separator) then dir else dir +:+ Separator) +:+ c.
Proof.
  intros Ha Hc Hok Hdd. assert (dir ≠ "") as Hne by (by intros ->).
  destruct Hok as (Hc1 & Hc2 & Hc3). cbn [Join]. rewrite bool_decide_eq_false_2 by done.
  cbn [join]. rewrite sep_app.
  assert (IsAbs (dir +:+ String slash c) = true) as Ha' by (by rewrite IsAbs_app).
  rewrite (Clean_abs_shape _ Ha').
  assert (clean_stack (dir +:+ String slash c) = c :: clean_stack dir) as ->.
  { unfold clean_stack. rewrite Ha', Ha, split_sep, (split_no_byte _ c) by done.
    rewrite fold_left_app. cbn [fold_left]. unfold clean_step at 1.
    rewrite !bool_decide_eq_false_2 by naive_solver. done. }
  rewrite Clean_abs_shape in Hc by done. cbn [rev].
  destruct (clean_stack dir) as [|x st] eqn:Hst.
  { rewrite <- Hc. cbn. done. }
  rewrite bool_decide_eq_false_2.
  - assert (rev (x :: st) ≠ []) as Hr by (intros E%(f_equal length); rewrite length_rev in E; done).
    rewrite join_snoc, str_app_assoc, Hc by done. by rewrite str_app_assoc.
  - intros E. rewrite E in Hst. done.
Qed.

(** A cleaned path is never empty. *)
Lemma Clean_not_empty p : Clean p ≠ "".
Proof.
  destruct (Clean_cases p) as [(_ & ->)|[(_ & _ & _ & ->)|(Hp & Hne & ->)]]; [done..|].
  pose proof (clean_stack_ok p) as Hok. destruct (IsAbs p) eqn:Ha; cbn [render]; [done|].
  specialize (Hne eq_refl).
  assert (Forall comp_ok (rev (clean_stack p))) as Hc by (by eapply Forall_rev, stack_ok_comps).
  destruct (rev (clean_stack p)) as [|c cs] eqn:E.
  - apply (f_equal (@rev string)) in E. by rewrite rev_involutive in E.
  - by apply join_not_nil.
Qed.
