(* ===== verification/PathGrants.v ===== *)
(** * Session path grants (internal/permission)

    The session-scoped store of paths a user's message has opened to the
    developer tools, and the policy that bounds which mentions may open one:
    [path_grants.go], [path_mention_policy.go] and [home_dir.go].

    The store is one record behind one [sync.RWMutex].  Every method takes the
    lock once around its state access, so each is one atomic step here ([op],
    [exec_op]); [RegisterMentions] alone reads the policy under a lock of its
    own before the write, which is the same step while the policy is not
    replaced in between (it is installed once, at start-up).  The operating
    system is a parameter, the record [OS]: the home directory probes, the
    working directory, the environment, symbolic-link resolution and [stat]; it
    does not change between a grant and a lookup here.  A store value is never
    nil; on a nil receiver every method returns its zero value.  The iteration
    order of a Go map is the order of [elements]; no theorem depends on it.

    Theorems: what messages can never open, what a lookup accepts, who a message
    affects, how protection follows the lineage, that symbolic-link resolution
    ends and which default directory a session gets. *)

From stdpp Require Import sorting.
From S2P Require Import Prelude GoStrings GoPath.

Open Scope string_scope.
Open Scope nat_scope.

(** ** The operating system *)

Record OS := mkOS {
  os_UserHomeDir : option string;       (** [os.UserHomeDir]; [None] is an error *)
  os_CurrentHome : option string;       (** [user.Current().HomeDir] *)
  os_Getwd : option string;
  os_Getenv : string → string;
  os_EvalSymlinks : string → option string;  (** [filepath.EvalSymlinks] *)
  os_IsDir : string → bool;             (** [os.Stat] succeeds and is a directory *)
}.

(** [HomeDir]: [$HOME] first, the passwd record second. *)
Definition HomeDir (os : OS) : option string :=
  let passwd :=
    match os_CurrentHome os with
    | None => None
    | Some h => if bool_decide (h = "") then None else Some h
    end in
  match os_UserHomeDir os with
  | Some h => if bool_decide (h = "") then passwd else Some h
  | None => passwd
  end.

(** [filepath.Abs]. *)
Definition Abs (os : OS) (p : string) : option string :=
  if IsAbs p then Some (Clean p)
  else wd ← os_Getwd os; Some (Join [wd; p]).

(** ** Path mentions in a message *)

(** [isPathToken]. *)
Definition isPathToken (tok : string) : bool :=
  if bool_decide (String.length tok < 2) then false
  else if has_prefix tok "http://" || has_prefix tok "https://"
          || has_prefix tok "ftp://" || has_prefix tok "file://" then false
  else if has_prefix tok "~/" then true
  else if has_prefix tok "./" then true
  else if has_prefix tok "/" then negb (has_prefix tok "//")
  else false.

(** One [open]/[close] pair of [trimMarkdownAndPunct]; both are one byte. *)
Definition peel_pair (tok : string) (pair : string * string) : string :=
  let '(o, c) := pair in
  if has_prefix tok o && has_suffix tok c
     && bool_decide (String.length o + String.length c ≤ String.length tok)
  then str_take (String.length tok - String.length o - String.length c)
         (str_drop (String.length o) tok)
  else tok.

Definition dquote : string := String (byte 34) "".

Definition markdown_pairs : list (string * string) :=
  [("`", "`"); ("*", "*"); ("_", "_"); (dquote, dquote); ("'", "'");
   ("(", ")"); ("[", "]"); ("{", "}"); ("<", ">")].

(** [trimMarkdownAndPunct]. *)
Definition trimMarkdownAndPunct (tok : string) : string :=
  let tok := trim_space tok in
  let tok := fold_left peel_pair markdown_pairs tok in
  let tok := trim_right tok (".,;:!?" +:+ dquote +:+ ")]}>") in
  trim_left tok ("([{<" +:+ dquote +:+ "'").

(** [ExtractPathMentions]. *)
Definition ExtractPathMentions (message : string) : list string :=
  dedup (List.filter (λ tok, negb (bool_decide (tok = "")) && isPathToken tok)
           (map trimMarkdownAndPunct (fields message))).

(** [absolutize]: expand a leading [~], then [filepath.Abs] and [Clean]. *)
Definition absolutize (os : OS) (p : string) : option string :=
  if bool_decide (p = "") then None
  else
    p' ← (if bool_decide (p = "~") || has_prefix p "~/" then
            home ← HomeDir os;
            Some (if bool_decide (p = "~") then home else Join [home; str_drop 2 p])
          else Some p);
    abs ← Abs os p';
    Some (Clean abs).

(** [ensureTrailingSep]. *)
Definition ensureTrailingSep (p : string) : string :=
  if bool_decide (p = "") then p
  else if has_suffix p Separator then p
  else p +:+ Separator.

(** [within]: [p] is [dir] or inside it. *)
Definition within (p dir : string) : bool :=
  bool_decide (p = dir) || has_prefix p (ensureTrailingSep dir).

(** ** The mention policy *)

Record MentionPolicy := mkMentionPolicy {
  Confine : bool;
  Home : string;
  Bases : list string;
  Denied : list string;
}.

Inductive Refusal := RefusedSensitive | RefusedCoversSensitive | RefusedOutsideAllowed.
#[global] Instance Refusal_eq_dec : EqDecision Refusal.
Proof. solve_decision. Defined.

Definition sensitiveHomeDirs : list string :=
  [".ssh"; ".gnupg"; ".codex"; ".aws"; ".kube"; ".docker"; ".netrc";
   ".bashrc"; ".bash_profile"; ".bash_login"; ".profile";
   ".zshrc"; ".zprofile"; ".zshenv"; Join [".local"; "bin"]].

Definition sensitiveHomePrefixes : list string := [".claude"].

Definition sensitiveApps : list string :=
  ["nanite"; "torque"; "tether"; "tesseract"; "hadron"; "tangent"; "fragments-engine"].

(** [xdgRoots]. *)
Definition xdgRoots (os : OS) (home env : string) (fallback : list string) : list string :=
  let root := Join (home :: fallback) in
  let v := os_Getenv os env in
  root :: (if IsAbs v && negb (bool_decide (Clean v = root)) then [Clean v] else []).

(** [sensitiveDirs]. *)
Definition sensitiveDirs (os : OS) (home : string) (extra : list string) : list string :=
  ((if bool_decide (home = "") then []
    else
      let configRoots := xdgRoots os home "XDG_CONFIG_HOME" [".config"] in
      let dataRoots := xdgRoots os home "XDG_DATA_HOME" [".local"; "share"] in
      let stateRoots := xdgRoots os home "XDG_STATE_HOME" [".local"; "state"] in
      map (λ rel, Join [home; rel]) sensitiveHomeDirs
      ++ flat_map (λ root, [Join [root; "systemd"]; Join [root; "autostart"]]) configRoots
      ++ flat_map (λ root, map (λ app, Join [root; app]) sensitiveApps)
           (configRoots ++ dataRoots ++ stateRoots))
   ++ map Clean (List.filter (λ d, negb (bool_decide (d = ""))) extra))%list.

(** The climbing loop of [realPath].  [None] stands for a loop that is still
    running when the fuel is spent; [realPath_loop_ends] shows it never is. *)
Fixpoint realPath_loop (fuel : nat) (os : OS) (p rest cur : string) : option string :=
  match fuel with
  | O => None
  | S f =>
      match os_EvalSymlinks os cur with
      | Some resolved =>
          Some (if bool_decide (rest = "") then resolved else Join [resolved; rest])
      | None =>
          let parent := Dir cur in
          if bool_decide (parent = cur) then Some p
          else realPath_loop f os p (Join [Base cur; rest]) parent
      end
  end.
(** [realPath]. *)
Definition realPath (os : OS) (p : string) : string :=
  let q := Clean p in
  default q (realPath_loop (S (S (String.length q))) os q "" q).

(** [forms]: the spelling, and the real path when it differs. *)
Definition forms (os : OS) (p : string) : list string :=
  let clean := Clean p in
  let resolved := realPath os clean in
  if bool_decide (resolved = clean) then [clean] else [clean; resolved].

(** The denylist scan of [mentionRefusal]: the first denied form and candidate
    form that meet decide. *)
Fixpoint scan_denied (pairs : list (string * string)) : option Refusal :=
  match pairs with
  | [] => None
  | (dform, c) :: pairs' =>
      if within c dform then Some RefusedSensitive
      else if within dform c then Some RefusedCoversSensitive
      else scan_denied pairs'
  end.

(** [strings.TrimPrefix]. *)
Definition trim_prefix (s pre : string) : string :=
  if has_prefix s pre then str_drop (String.length pre) s else s.

(** The first segment of [c] under [hform] names an application's state
    directory matched by prefix. *)
Definition sensitive_segment (hform c : string) : bool :=
  within c hform &&
  let rel := trim_prefix c (ensureTrailingSep hform) in
  let first := match split slash rel with x :: _ => x | [] => "" end in
  existsb (has_prefix first) sensitiveHomePrefixes.

(** The home directory [mentionRefusal] works with. *)
Definition effective_home (os : OS) (pol : option MentionPolicy) : string :=
  let home := match pol with Some m => Home m | None => "" end in
  if bool_decide (home = "") then default "" (HomeDir os) else home.
Definition policy_denied (pol : option MentionPolicy) : list string :=
  match pol with Some m => Denied m | None => [] end.

(** [mentionRefusal]. *)
Definition mentionRefusal (os : OS) (pol : option MentionPolicy) (abs : string) : option Refusal :=
  let home := effective_home os pol in
  let cands := forms os abs in
  let denied := sensitiveDirs os home (policy_denied pol) in
  let pairs := flat_map (λ d, flat_map (λ df, map (λ c, (df, c)) cands) (forms os d)) denied in
  match scan_denied pairs with
  | Some r => Some r
  | None =>
      if negb (bool_decide (home = "")) &&
         existsb (λ h, existsb (sensitive_segment h) cands) (forms os home)
      then Some RefusedSensitive
      else
        match pol with
        | Some m =>
            if Confine m then
              let bases := (Bases m ++ (if bool_decide (home = "") then [] else [home]))%list in
              let resolved := List.last cands "" in
              if existsb (λ base, negb (bool_decide (base = "")) &&
                            existsb (within resolved) (forms os base)) bases
              then None else Some RefusedOutsideAllowed
            else None
        | None => None
        end
  end.

(** ** The store *)

Definition lineageMaxHops : nat := 4.

Inductive LookupKind :=
  LookupKindNone | LookupKindLiteral | LookupKindAncestor | LookupKindAncestorSession.
#[global] Instance LookupKind_eq_dec : EqDecision LookupKind.
Proof. solve_decision. Defined.

(** [RuleSet] is the permission library's rule set, which the store only keeps
    and hands back. *)
Record PathGrants (RuleSet : Type) := mkPathGrants {
  grants : gmap string (gset string);
  lineage : gmap string string;
  derivedRules : gmap string RuleSet;
  roots : gmap string string;
  protected : gmap string (list string);
  shellRefusal : gmap string string;
  mention : option MentionPolicy;
}.
Arguments mkPathGrants {RuleSet}.
Arguments grants {RuleSet}.
Arguments lineage {RuleSet}.
Arguments derivedRules {RuleSet}.
Arguments roots {RuleSet}.
Arguments protected {RuleSet}.
Arguments shellRefusal {RuleSet}.
Arguments mention {RuleSet}.

Section Store.
Context {RuleSet : Type}.
Implicit Types g : PathGrants RuleSet.

(** [NewPathGrants]. *)
Definition NewPathGrants : PathGrants RuleSet := mkPathGrants ∅ ∅ ∅ ∅ ∅ ∅ None.

Definition with_grants g x : PathGrants RuleSet :=
  mkPathGrants x (lineage g) (derivedRules g) (roots g) (protected g) (shellRefusal g) (mention g).
Definition with_lineage g x : PathGrants RuleSet :=
  mkPathGrants (grants g) x (derivedRules g) (roots g) (protected g) (shellRefusal g) (mention g).
Definition with_derivedRules g x : PathGrants RuleSet :=
  mkPathGrants (grants g) (lineage g) x (roots g) (protected g) (shellRefusal g) (mention g).
Definition with_roots g x : PathGrants RuleSet :=
  mkPathGrants (grants g) (lineage g) (derivedRules g) x (protected g) (shellRefusal g) (mention g).
Definition with_protected g x : PathGrants RuleSet :=
  mkPathGrants (grants g) (lineage g) (derivedRules g) (roots g) x (shellRefusal g) (mention g).
Definition with_shellRefusal g x : PathGrants RuleSet :=
  mkPathGrants (grants g) (lineage g) (derivedRules g) (roots g) (protected g) x (mention g).
Definition with_mention g x : PathGrants RuleSet :=
  mkPathGrants (grants g) (lineage g) (derivedRules g) (roots g) (protected g) (shellRefusal g) x.

(** Go's read of a missing bucket: the nil map. *)
Definition bucket g (sid : string) : gset string := default ∅ (grants g !! sid).

(** [RegisterProtected]. *)
Definition RegisterProtected g (sid : string) (dirs : list string) (refusal : string) :
    PathGrants RuleSet :=
  if bool_decide (sid = "") then g
  else
    let g := with_protected g (<[sid := dirs]> (protected g)) in
    if bool_decide (refusal = "")
    then with_shellRefusal g (delete sid (shellRefusal g))
    else with_shellRefusal g (<[sid := refusal]> (shellRefusal g)).

(** The ancestors of [cursor], nearest first: at most [n] hops, stopping at a
    missing or empty parent and at one already visited. *)
Fixpoint lineage_walk (n : nat) (lin : gmap string string) (visited : list string)
    (cursor : string) : list string :=
  match n with
  | O => []
  | S n' =>
      match lin !! cursor with
      | None => []
      | Some parent =>
          if bool_decide (parent = "") || bool_decide (parent ∈ visited) then []
          else parent :: lineage_walk n' lin (parent :: visited) parent
      end
  end.
Definition ancestors g (sid : string) : list string :=
  lineage_walk lineageMaxHops (lineage g) [sid] sid.

(** [lineageChain]. *)
Definition lineageChain g (sid : string) : list string := sid :: ancestors g sid.

(** [Protected]. *)
Definition Protected g (sid : string) : list string :=
  if bool_decide (sid = "") then []
  else flat_map (λ id, default [] (protected g !! id)) (lineageChain g sid).

(** [ShellRefusal]: the nearest non-empty reason, "" when there is none. *)
Fixpoint first_refusal (m : gmap string string) (ids : list string) : string :=
  match ids with
  | [] => ""
  | id :: ids' =>
      let r := default "" (m !! id) in
      if bool_decide (r = "") then first_refusal m ids' else r
  end.
Definition ShellRefusal g (sid : string) : string :=
  if bool_decide (sid = "") then "" else first_refusal (shellRefusal g) (lineageChain g sid).

(** [RegisterRoots]. *)
Definition RegisterRoots g (sid : string) (rs : list string) : PathGrants RuleSet :=
  if bool_decide (sid = "") then g
  else
    let clean := map Clean (List.filter (λ r, negb (bool_decide (r = "")) && IsAbs r) rs) in
    match clean with
    | [] => g
    | root :: _ =>
        let g := with_grants g (<[sid := list_to_set clean ∪ bucket g sid]> (grants g)) in
        with_roots g (<[sid := root]> (roots g))
    end.

(** The loop body of [RegisterMentions] for one path: accumulated [seen],
    granted ([cleaned]) and refused paths. *)
Definition mention_path (os : OS) (pol : option MentionPolicy)
    (acc : list string * list string * list string) (p : string) :
    list string * list string * list string :=
  let '(seen, cleaned, refused) := acc in
  if bool_decide (p = "") || bool_decide (p = ".") then acc
  else if bool_decide (p ∈ seen) then acc
  else match mentionRefusal os pol p with
       | Some _ => (p :: seen, cleaned, (refused ++ [p])%list)
       | None => (p :: seen, (cleaned ++ [p])%list, refused)
       end.
(** The paths a mention stands for: itself and its parent directory. *)
Definition mention_paths (os : OS) (m : string) : list string :=
  match absolutize os m with
  | None => []
  | Some abs => [abs; Dir abs]
  end.

(** [RegisterMentions]: the new store, the granted and the refused paths. *)
Definition RegisterMentions (os : OS) g (sid message : string) :
    PathGrants RuleSet * list string * list string :=
  if bool_decide (sid = "") || bool_decide (message = "") then (g, [], [])
  else
    let mentions := ExtractPathMentions message in
    let '(_, cleaned, refused) :=
      fold_left (mention_path os (mention g)) (flat_map (mention_paths os) mentions) ([], [], []) in
    match cleaned with
    | [] => (g, [], refused)
    | _ => (with_grants g (<[sid := list_to_set cleaned ∪ bucket g sid]> (grants g)),
            cleaned, refused)
    end.

(** [RegisterFromUserMessage]. *)
Definition RegisterFromUserMessage (os : OS) g (sid message : string) :
    PathGrants RuleSet * list string :=
  let '(g', granted, _) := RegisterMentions os g sid message in (g', granted).

(** The bucket loop of [lookupInBucket], over the bucket in some order. *)
Fixpoint bucket_loop (l : list string) (abs : string) : bool * LookupKind :=
  match l with
  | [] => (false, LookupKindNone)
  | granted :: l' =>
      if bool_decide (granted = "") then bucket_loop l' abs
      else if bool_decide (abs = granted) then (true, LookupKindLiteral)
      else if has_prefix abs (ensureTrailingSep granted) then (true, LookupKindAncestor)
      else bucket_loop l' abs
  end.
(** [lookupInBucket]. *)
Definition lookupInBucket (b : gset string) (abs : string) : bool * LookupKind :=
  if bool_decide (b = ∅) then (false, LookupKindNone)
  else if bool_decide (abs ∈ b) then (true, LookupKindLiteral)
  else bucket_loop (elements b) abs.

(** The lineage walk of [LookupPath], with its early returns. *)
Fixpoint lookup_walk (hops : nat) g (abs : string) (visited : list string) (cursor : string) :
    bool * LookupKind * string :=
  match hops with
  | O => (false, LookupKindNone, "")
  | S h =>
      match lineage g !! cursor with
      | None => (false, LookupKindNone, "")
      | Some parent =>
          if bool_decide (parent = "") then (false, LookupKindNone, "")
          else if bool_decide (parent ∈ visited) then (false, LookupKindNone, "")
          else if (lookupInBucket (bucket g parent) abs).1
               then (true, LookupKindAncestorSession, parent)
               else lookup_walk h g abs (parent :: visited) parent
      end
  end.

(** [LookupPath]. *)
Definition LookupPath (os : OS) g (sid candidate : string) : bool * LookupKind * string :=
  if bool_decide (sid = "") || bool_decide (candidate = "") then (false, LookupKindNone, "")
  else
    match absolutize os candidate with
    | None => (false, LookupKindNone, "")
    | Some abs =>
        let '(m, k) := lookupInBucket (bucket g sid) abs in
        if m then (true, k, "") else lookup_walk lineageMaxHops g abs [sid] sid
    end.

(** [IsPathAllowed]. *)
Definition IsPathAllowed (os : OS) g (sid candidate : string) : bool :=
  (LookupPath os g sid candidate).1.1.

(** [RegisterLineage], [ClearLineage]. *)
Definition RegisterLineage g (child parent : string) : PathGrants RuleSet :=
  if bool_decide (child = "") || bool_decide (parent = "") then g
  else with_lineage g (<[child := parent]> (lineage g)).
Definition ClearLineage g (sid : string) : PathGrants RuleSet :=
  if bool_decide (sid = "") then g
  else with_derivedRules (with_lineage g (delete sid (lineage g))) (delete sid (derivedRules g)).

(** [RegisterDerivedRules], [LookupDerivedRules]. *)
Definition RegisterDerivedRules g (sid : string) (rules : option RuleSet) : PathGrants RuleSet :=
  match rules with
  | Some r => if bool_decide (sid = "") then g
              else with_derivedRules g (<[sid := r]> (derivedRules g))
  | None => g
  end.
Definition LookupDerivedRules g (sid : string) : option RuleSet :=
  if bool_decide (sid = "") then None else derivedRules g !! sid.

(** [BucketSize]. *)
Definition BucketSize g (sid : string) : nat :=
  if bool_decide (sid = "") then 0 else size (bucket g sid).

(** [ListGrants] and [ListLineageGrants], in some map order. *)
Definition ListGrants g (sid : string) : list string :=
  if bool_decide (sid = "") then [] else elements (bucket g sid).
Definition ListLineageGrants g (sid : string) : list string :=
  if bool_decide (sid = "") then []
  else flat_map (λ id, elements (bucket g id)) (ancestors g sid).

(** [BestSessionDir].  [sortSlice] is [sort.Slice] by descending length, which
    is not stable and starts from a random map order. *)
Definition BestSessionDir (os : OS) (sortSlice : list string → list string) g (sid : string) : string :=
  if bool_decide (sid = "") then ""
  else
    let root := default "" (roots g !! sid) in
    if negb (bool_decide (root = "")) && os_IsDir os root then root
    else
      let candidates := (elements (bucket g sid) ++ ListLineageGrants g sid)%list in
      default "" (List.find (os_IsDir os) (dedup (sortSlice candidates))).

(** [Clear]. *)
Definition Clear g (sid : string) : PathGrants RuleSet :=
  if bool_decide (sid = "") then g
  else mkPathGrants (delete sid (grants g)) (lineage g) (delete sid (derivedRules g))
         (delete sid (roots g)) (delete sid (protected g)) (delete sid (shellRefusal g)) (mention g).

(** [SetMentionPolicy]. *)
Definition SetMentionPolicy g (p : MentionPolicy) : PathGrants RuleSet :=
  with_mention g (Some p).

(** ** The store as a transition system *)

(** Every call that changes the store. *)
Inductive op :=
| OpMessage (sid message : string)
| OpRoots (sid : string) (rs : list string)
| OpProtected (sid : string) (dirs : list string) (refusal : string)
| OpLineage (child parent : string)
| OpClearLineage (sid : string)
| OpDerivedRules (sid : string) (rules : option RuleSet)
| OpClear (sid : string)
| OpPolicy (p : MentionPolicy).

Definition exec_op (os : OS) g (o : op) : PathGrants RuleSet :=
  match o with
  | OpMessage sid message => (RegisterMentions os g sid message).1.1
  | OpRoots sid rs => RegisterRoots g sid rs
  | OpProtected sid dirs refusal => RegisterProtected g sid dirs refusal
  | OpLineage child parent => RegisterLineage g child parent
  | OpClearLineage sid => ClearLineage g sid
  | OpDerivedRules sid rules => RegisterDerivedRules g sid rules
  | OpClear sid => Clear g sid
  | OpPolicy p => SetMentionPolicy g p
  end.
Definition run_ops (os : OS) g (ops : list op) : PathGrants RuleSet :=
  fold_left (exec_op os) ops g.

(** ** Lemmas: containment *)

Lemma within_spec p dir :
  within p dir = true ↔ p = dir ∨ prefixed p (ensureTrailingSep dir).
Proof. unfold within. by rewrite orb_true_iff, bool_decide_eq_true, has_prefix_spec. Qed.
Lemma within_refl p : within p p = true.
Proof. apply within_spec. by left. Qed.

Lemma ensureTrailingSep_cases p :
  ensureTrailingSep p = p ∨ ensureTrailingSep p = p +:+ Separator.
Proof. unfold ensureTrailingSep. case_bool_decide; [by left|]. case_if; auto. Qed.
Lemma ensureTrailingSep_prefixed p : prefixed (ensureTrailingSep p) p.
Proof. destruct (ensureTrailingSep_cases p) as [->| ->]; auto with nanite. Qed.

(** Below, one of two directories' separated forms is a prefix of the other's. *)
Lemma within_of_prefix p d :
  prefixed (ensureTrailingSep d) (ensureTrailingSep p) → within p d = true ∨ within d p = true.
Proof.
  intros H. destruct (ensureTrailingSep_cases d) as [Ed|Ed]; rewrite Ed in H.
  { right. apply within_spec. by right. }
  apply prefixed_snoc in H as [H|H]; [|right; apply within_spec; by right].
  destruct (ensureTrailingSep_cases p) as [Ep|Ep]; rewrite Ep in H.
  - left. apply within_spec. right. rewrite Ed, H. apply prefixed_refl.
  - left. apply within_spec. left.
    apply (f_equal str_rev) in H. rewrite !str_rev_app in H.
    change (str_rev Separator) with Separator in H.
    change (String "/" "") with Separator in H.
    rewrite !sep_app in H. injection H as H.
    by rewrite <- (str_rev_involutive p), H, str_rev_involutive.
Qed.

(** Two directories that share a path are nested. *)
Lemma within_nested x p d :
  within x p = true → within x d = true → within p d = true ∨ within d p = true.
Proof.
  rewrite (within_spec x p), (within_spec x d). intros [->|Hp] [Hd|Hd].
  - subst. left. apply within_refl.
  - left. apply within_spec. by right.
  - subst. right. apply within_spec. by right.
  - destruct (prefixed_total _ _ _ Hp Hd) as [H|H].
    + destruct (within_of_prefix d p H); auto.
    + by apply within_of_prefix.
Qed.

(** ** Lemmas: what the policy refuses *)

Lemma scan_denied_None pairs :
  scan_denied pairs = None →
  ∀ df c, (df, c) ∈ pairs → within c df = false ∧ within df c = false.
Proof.
  induction pairs as [|[df' c'] pairs IH]; simpl; intros H df c Hin; [by apply elem_of_nil in Hin|].
  case_if_in H; [done|]. case_if_in H; [done|].
  apply elem_of_cons in Hin as [[= -> ->]|Hin]; eauto.
Qed.

Lemma forms_Clean os p : Clean p ∈ forms os p.
Proof. unfold forms. case_bool_decide; set_solver. Qed.

Lemma mentionRefusal_None os pol p :
  mentionRefusal os pol p = None →
  ∀ d df c, d ∈ sensitiveDirs os (effective_home os pol) (policy_denied pol) →
    df ∈ forms os d → c ∈ forms os p → within c df = false ∧ within df c = false.
Proof.
  unfold mentionRefusal. intros H d df c Hd Hdf Hc.
  destruct (scan_denied _) eqn:Hscan; [done|].
  apply (scan_denied_None _ Hscan). clear -Hd Hdf Hc.
  apply list_elem_of_In. apply in_flat_map. exists d. split; [by apply list_elem_of_In|].
  apply in_flat_map. exists df. split; [by apply list_elem_of_In|].
  apply in_map_iff. exists c. split; [done|by apply list_elem_of_In].
Qed.

(** ** Lemmas: what a message registers *)

Lemma absolutize_Clean os m abs : absolutize os m = Some abs → Clean abs = abs.
Proof.
  unfold absolutize. case_bool_decide; [done|].
  intros (p' & _ & (a & _ & [= <-])%bind_Some)%bind_Some. apply Clean_idempotent.
Qed.

Lemma mention_paths_Clean os m p : p ∈ mention_paths os m → Clean p = p.
Proof.
  unfold mention_paths. destruct (absolutize os m) as [abs|] eqn:E; [|set_solver].
  rewrite elem_of_cons, list_elem_of_singleton. intros [->| ->].
  - by eapply absolutize_Clean.
  - apply Clean_idempotent.
Qed.

(** The message loop partitions the paths it looked at. *)
Lemma mention_fold os pol ps seen cleaned refused :
  let '(_, cl, rf) := fold_left (mention_path os pol) ps (seen, cleaned, refused) in
  ∀ p, (p ∈ cl → p ∈ cleaned ∨ (p ∈ ps ∧ mentionRefusal os pol p = None)) ∧
       (p ∈ rf → p ∈ refused ∨ (p ∈ ps ∧ is_Some (mentionRefusal os pol p))).
Proof.
  revert seen cleaned refused.
  induction ps as [|q ps IH]; intros seen cleaned refused; cbn [fold_left]; [naive_solver|].
  assert (∃ seen' cl' rf', mention_path os pol (seen, cleaned, refused) q = (seen', cl', rf') ∧
    (∀ p, p ∈ cl' → p ∈ cleaned ∨ (p = q ∧ mentionRefusal os pol p = None)) ∧
    (∀ p, p ∈ rf' → p ∈ refused ∨ (p = q ∧ is_Some (mentionRefusal os pol p))))
    as (seen' & cl' & rf' & -> & Hcl & Hrf).
  { unfold mention_path. destruct (_ || _); [naive_solver|]. case_bool_decide; [naive_solver|].
    destruct (mentionRefusal os pol q) eqn:E; eexists _, _, _; (split; [done|]);
      split; intros p; rewrite ?elem_of_app, ?list_elem_of_singleton; naive_solver. }
  specialize (IH seen' cl' rf'). destruct (fold_left _ ps _) as [[? cl] rf].
  intros p. destruct (IH p) as [H1 H2]. rewrite !elem_of_cons. split; naive_solver.
Qed.

Lemma RegisterMentions_granted os g sid message p :
  p ∈ (RegisterMentions os g sid message).1.2 →
  mentionRefusal os (mention g) p = None ∧ Clean p = p ∧
  ∃ m, m ∈ ExtractPathMentions message ∧ p ∈ mention_paths os m.
Proof.
  unfold RegisterMentions. case_if; [set_solver|].
  pose proof (mention_fold os (mention g)
    (flat_map (mention_paths os) (ExtractPathMentions message)) [] [] []) as Hf.
  destruct (fold_left _ _ _) as [[? cl] rf]. intros Hp.
  assert (p ∈ cl) as Hp' by (destruct cl; simpl in *; set_solver). clear Hp.
  destruct (proj1 (Hf p) Hp') as [?|[Hin Hnone]]; [set_solver|].
  apply list_elem_of_In, in_flat_map in Hin as (m & Hm & Hp). apply list_elem_of_In in Hm, Hp.
  split; [done|]. split; [by eapply mention_paths_Clean|]. eauto.
Qed.

Lemma RegisterMentions_bucket os g sid message s p :
  p ∈ bucket (RegisterMentions os g sid message).1.1 s →
  p ∈ bucket g s ∨ (s = sid ∧ p ∈ (RegisterMentions os g sid message).1.2).
Proof.
  unfold RegisterMentions. case_if; [by left|].
  destruct (fold_left _ _ _) as [[? cl] rf]. destruct cl as [|c cl]; [by left|].
  cbn. unfold bucket at 1. cbn. rewrite lookup_insert.
  destruct (decide (sid = s)) as [<-|E]; [|intros ?; by left].
  cbn. rewrite elem_of_union. set_solver.
Qed.

(** ** Lemmas: lookup *)

(** [covers p x]: the grant [p] opens the path [x]. *)
Definition covers (p x : string) : Prop := within x p = true ∧ (p = "" → x = "").

Definition opens (abs p : string) : Prop := p ≠ "" ∧ prefixed abs (ensureTrailingSep p).
#[local] Instance opens_dec abs p : Decision (opens abs p).
Proof. unfold opens. apply _. Defined.

Lemma bucket_loop_spec l abs :
  abs ∉ l →
  bucket_loop l abs =
    if bool_decide (Exists (opens abs) l)
    then (true, LookupKindAncestor) else (false, LookupKindNone).
Proof.
  induction l as [|q l IH]; intros Hnin; cbn [bucket_loop].
  { rewrite bool_decide_eq_false_2; [done|]. intros He; inversion He. }
  apply not_elem_of_cons in Hnin as [Hne Hnin]. specialize (IH Hnin).
  assert (bool_decide (Exists (opens abs) (q :: l)) =
          bool_decide (opens abs q) || bool_decide (Exists (opens abs) l)) as ->.
  { rewrite (bool_decide_ext _ _ (Exists_cons _ _ _)). apply bool_decide_or. }
  destruct (decide (q = "")) as [Hq|Hq].
  { rewrite (bool_decide_eq_true_2 (q = "")) by done.
    rewrite IH, (bool_decide_eq_false_2 (opens abs q)); [done|]. by intros [? _]. }
  rewrite (bool_decide_eq_false_2 (q = "")), (bool_decide_eq_false_2 (abs = q)) by done.
  destruct (has_prefix abs (ensureTrailingSep q)) eqn:Hif.
  - apply has_prefix_spec in Hif. by rewrite (bool_decide_eq_true_2 (opens abs q)).
  - apply has_prefix_false in Hif. rewrite IH, (bool_decide_eq_false_2 (opens abs q)); [done|].
    by intros [_ ?].
Qed.

Lemma lookupInBucket_spec b abs :
  (lookupInBucket b abs).1 = true ↔ ∃ p, p ∈ b ∧ covers p abs.
Proof.
  unfold lookupInBucket, covers. case_bool_decide as Hb; [set_solver|].
  case_bool_decide as Ha.
  { split; [|done]. intros _. exists abs. rewrite within_refl. naive_solver. }
  rewrite bucket_loop_spec by (by rewrite elem_of_elements).
  case_bool_decide as He; rewrite Exists_exists in He; cbn.
  - split; [|done]. intros _. destruct He as (p & Hp & Hne & Hpre). exists p.
    rewrite within_spec. apply elem_of_elements in Hp. naive_solver.
  - split; [done|]. intros (p & Hp & Hw & Hemp). destruct He. exists p.
    apply within_spec in Hw as [->|Hw]; [done|].
    rewrite elem_of_elements. split; [done|]. split; [|done].
    intros ->. by rewrite (Hemp eq_refl) in Ha.
Qed.

(** The verdict does not depend on the order Go's map iteration takes. *)
Lemma bucket_loop_order l (b : gset string) abs :
  l ≡ₚ elements b → abs ∉ b → bucket_loop l abs = bucket_loop (elements b) abs.
Proof.
  intros Hl Ha. rewrite !bucket_loop_spec by (by rewrite ?Hl, elem_of_elements).
  by rewrite (bool_decide_ext _ (Exists (opens abs) (elements b))) by (by rewrite Hl).
Qed.

Lemma lookup_walk_spec n g abs vis cur :
  lookup_walk n g abs vis cur =
    match List.find (λ s, (lookupInBucket (bucket g s) abs).1) (lineage_walk n (lineage g) vis cur) with
    | Some s => (true, LookupKindAncestorSession, s)
    | None => (false, LookupKindNone, "")
    end.
Proof.
  revert vis cur. induction n as [|n IH]; intros vis cur; cbn; [done|].
  destruct (lineage g !! cur) as [parent|]; [|done].
  case_bool_decide; [done|]. case_bool_decide; [done|]. cbn.
  destruct (lookupInBucket (bucket g parent) abs).1; [done|]. apply IH.
Qed.

(** The session whose bucket answered a lookup. *)
Definition answering (sid via : string) : string := if bool_decide (via = "") then sid else via.

Lemma lineage_walk_not_empty n lin vis cur s :
  s ∈ lineage_walk n lin vis cur → s ≠ "".
Proof.
  revert vis cur. induction n as [|n IH]; intros vis cur; cbn; [set_solver|].
  destruct (lin !! cur) as [parent|]; [|set_solver].
  case_if; [set_solver|]. b2p. rewrite elem_of_cons. intros [->|?]; eauto.
Qed.

(** What a positive lookup found: the answering session is the session itself
    or one of its ancestors, and it holds a grant over the path. *)
Lemma LookupPath_sound os g sid cand k via :
  LookupPath os g sid cand = (true, k, via) →
  sid ≠ "" ∧ cand ≠ "" ∧
  ∃ abs p, absolutize os cand = Some abs ∧ answering sid via ∈ lineageChain g sid ∧
    p ∈ bucket g (answering sid via) ∧ covers p abs.
Proof.
  unfold LookupPath. case_if; [done|]. b2p.
  destruct (absolutize os cand) as [abs|]; [|done]. intros Hl.
  split; [done|]. split; [done|]. exists abs.
  destruct (lookupInBucket (bucket g sid) abs) as [m k'] eqn:Hown. destruct m.
  - injection Hl as <- <-. unfold answering. rewrite bool_decide_eq_true_2 by done.
    destruct (proj1 (lookupInBucket_spec (bucket g sid) abs)) as (p & Hp & Hc); [by rewrite Hown|].
    exists p. unfold lineageChain. set_solver.
  - rewrite lookup_walk_spec in Hl. destruct (List.find _ _) as [s|] eqn:Hf; [|done].
    injection Hl as <- <-. apply find_some in Hf as [Hin Hm].
    apply list_elem_of_In in Hin. pose proof (lineage_walk_not_empty _ _ _ _ _ Hin) as Hs.
    unfold answering. rewrite bool_decide_eq_false_2 by done.
    apply lookupInBucket_spec in Hm as (p & Hp & Hc). exists p.
    unfold lineageChain, ancestors. set_solver.
Qed.

Lemma LookupPath_complete os g sid cand abs s p :
  sid ≠ "" → cand ≠ "" → absolutize os cand = Some abs →
  s ∈ lineageChain g sid → p ∈ bucket g s → covers p abs →
  IsPathAllowed os g sid cand = true.
Proof.
  intros Hsid Hcand Habs Hs Hp Hc. unfold IsPathAllowed, LookupPath.
  rewrite !bool_decide_eq_false_2 by done. cbn [orb]. rewrite Habs.
  assert ((lookupInBucket (bucket g s) abs).1 = true) as Hb by (apply lookupInBucket_spec; eauto).
  destruct (lookupInBucket (bucket g sid) abs) as [m k] eqn:Hown. destruct m; [done|].
  rewrite lookup_walk_spec. fold (ancestors g sid).
  destruct (List.find _ (ancestors g sid)) as [s'|] eqn:Hf; [done|].
  apply elem_of_cons in Hs as [->|Hs]; [by rewrite Hown in Hb|].
  apply list_elem_of_In in Hs. by rewrite (find_none _ _ Hf _ Hs) in Hb.
Qed.

(** ** Lemmas: the invariant of mention-driven stores *)

(** [safe_grant p]: nothing [p] opens is inside a sensitive directory. *)
Definition safe_grant (os : OS) (pol : option MentionPolicy) (p : string) : Prop :=
  ∀ d df x, d ∈ sensitiveDirs os (effective_home os pol) (policy_denied pol) →
    df ∈ forms os d → within x p = true → within x df = false.

Lemma unrefused_safe os pol p :
  mentionRefusal os pol p = None → Clean p = p → safe_grant os pol p.
Proof.
  intros Hr Hc d df x Hd Hdf Hxp. apply not_true_iff_false. intros Hxd.
  assert (p ∈ forms os p) as Hp by (rewrite <- Hc at 1; apply forms_Clean).
  destruct (mentionRefusal_None _ _ _ Hr d df p Hd Hdf Hp) as [H1 H2].
  destruct (within_nested x p df Hxp Hxd); congruence.
Qed.

(** The calls a user's messages and a session's life cycle make: all but the
    host's own [RegisterRoots] and [SetMentionPolicy]. *)
Definition user_op (o : op) : Prop :=
  match o with OpRoots _ _ | OpPolicy _ => False | _ => True end.

(** ** Lemmas: the application-state prefix rule *)

Lemma within_trans a b c : within a b = true → within b c = true → within a c = true.
Proof.
  rewrite !within_spec. intros [->|Hab] [->|Hbc]; auto.
  right. eapply prefixed_trans; [|exact Hbc].
  eapply prefixed_trans; [exact Hab|apply ensureTrailingSep_prefixed].
Qed.

Lemma ensureTrailingSep_Clean p :
  IsAbs p = true → Clean p = p → p ≠ Separator → ensureTrailingSep p = p +:+ Separator.
Proof.
  intros Ha Hc Hne. unfold ensureTrailingSep. rewrite bool_decide_eq_false_2 by (by intros ->).
  assert (2 ≤ String.length p) as Hl.
  { destruct p as [|a [|b p]]; [done| |simpl; lia]. unfold IsAbs in Ha. simpl in Ha.
    apply andb_true_iff in Ha as [<-%bool_decide_eq_true _]. done. }
  rewrite <- Hc, Clean_no_trailing; [done|]. by rewrite Hc.
Qed.

(** [~/.ssh] is inside [~] and on the denylist: an ancestor of home is refused. *)
Lemma home_child_sensitive os pol home :
  effective_home os pol = home → IsAbs home = true → Clean home = home →
  ∃ d, d ∈ sensitiveDirs os home (policy_denied pol) ∧ Clean d = d ∧ within d home = true.
Proof.
  intros Hh Ha Hc. exists (Join [home; ".ssh"]).
  assert (home ≠ "") as Hne by (by intros ->).
  split; [|split].
  - unfold sensitiveDirs. rewrite bool_decide_eq_false_2 by done. apply elem_of_app. left.
    apply elem_of_app. left. cbn. by left.
  - cbn [Join]. rewrite bool_decide_eq_false_2 by done. apply Clean_idempotent.
  - rewrite Clean_child by done. apply within_spec. right. case_bool_decide as E.
    + rewrite E. eexists. reflexivity.
    + rewrite ensureTrailingSep_Clean by done. eexists. reflexivity.
Qed.

Lemma trim_prefix_app a b : trim_prefix (a +:+ b) a = b.
Proof.
  unfold trim_prefix. rewrite (proj2 (has_prefix_spec _ _)) by apply prefixed_app.
  apply str_drop_app.
Qed.

(** A path below [p] has the first segment [p] has. *)
Lemma sensitive_segment_below home p x :
  IsAbs p = true → Clean p = p → p ≠ Separator → prefixed p (ensureTrailingSep home) →
  prefixed x (ensureTrailingSep p) →
  sensitive_segment home x = sensitive_segment home p.
Proof.
  intros Ha Hc Hr Hp [y Hx]. rewrite ensureTrailingSep_Clean in Hx by done.
  destruct Hp as [r Hp]. unfold sensitive_segment.
  assert (within x home = true) as ->.
  { apply within_spec. right. exists (r +:+ Separator +:+ y). by rewrite Hx, Hp, !str_app_assoc. }
  assert (within p home = true) as -> by (apply within_spec; right; by exists r).
  cbn [andb]. rewrite Hx. rewrite <- str_app_assoc, sep_app.
  assert (trim_prefix p (ensureTrailingSep home) = r) as -> by (rewrite Hp; apply trim_prefix_app).
  assert (trim_prefix (p +:+ String slash y) (ensureTrailingSep home) = r +:+ String slash y) as ->.
  { rewrite Hp, <- str_app_assoc. apply trim_prefix_app. }
  rewrite split_sep. pose proof (split_not_nil slash r). by destruct (split slash r).
Qed.

Lemma mentionRefusal_segment os pol p :
  mentionRefusal os pol p = None → effective_home os pol ≠ "" →
  ∀ h c, h ∈ forms os (effective_home os pol) → c ∈ forms os p → sensitive_segment h c = false.
Proof.
  unfold mentionRefusal. intros H Hh h c Hin Hc. destruct (scan_denied _); [done|].
  rewrite bool_decide_eq_false_2 in H by done. cbn [negb andb] in H.
  case_if_in H; [done|]. clear H. apply not_true_iff_false. intros Hs.
  apply not_true_iff_false in Hif. apply Hif, existsb_exists.
  exists h. split; [by apply list_elem_of_In|]. apply existsb_exists.
  exists c. split; [by apply list_elem_of_In|done].
Qed.

(** ** Lemmas: absolute paths *)

Lemma IsAbs_upto_last_slash p : IsAbs p = true → IsAbs (upto_last_slash p) = true.
Proof.
  unfold IsAbs. destruct p as [|a p]; [done|]. simpl.
  intros [<-%bool_decide_eq_true _]%andb_true_iff.
  destruct (upto_last_slash p); [by rewrite bool_decide_eq_true_2|]. done.
Qed.
Lemma IsAbs_Dir p : IsAbs p = true → IsAbs (Dir p) = true.
Proof. intros H. unfold Dir. rewrite IsAbs_Clean. by apply IsAbs_upto_last_slash. Qed.

(** [os.Getwd] returns an absolute path. *)
Definition getwd_abs (os : OS) : Prop := ∀ wd, os_Getwd os = Some wd → IsAbs wd = true.

Lemma absolutize_abs os m abs : getwd_abs os → absolutize os m = Some abs → IsAbs abs = true.
Proof.
  intros Hwd. unfold absolutize. case_bool_decide; [done|].
  intros (p' & _ & (a & Ha & [= <-])%bind_Some)%bind_Some. rewrite IsAbs_Clean.
  unfold Abs in Ha. destruct (IsAbs p') eqn:E.
  - injection Ha as <-. by rewrite IsAbs_Clean.
  - apply bind_Some in Ha as (wd & Hw & [= <-]). specialize (Hwd _ Hw).
    assert (wd ≠ "") as Hne by (by intros ->).
    cbn [Join]. rewrite bool_decide_eq_false_2 by done.
    rewrite IsAbs_Clean. cbn [join]. by rewrite IsAbs_app.
Qed.

(** Absolutizing a clean absolute path gives it back. *)
Lemma absolutize_id os p : IsAbs p = true → Clean p = p → absolutize os p = Some p.
Proof.
  intros Ha Hc. unfold absolutize. rewrite bool_decide_eq_false_2 by (by intros ->).
  assert (has_prefix p "~/" = false) as ->.
  { destruct p as [|a p]; [done|]. unfold IsAbs in Ha. simpl in *.
    apply andb_true_iff in Ha as [<-%bool_decide_eq_true _]. done. }
  rewrite bool_decide_eq_false_2 by (by intros ->). cbn. unfold Abs. rewrite Ha. cbn.
  by rewrite !Hc.
Qed.

Lemma mention_paths_abs os m p : getwd_abs os → p ∈ mention_paths os m → IsAbs p = true.
Proof.
  intros Hwd. unfold mention_paths. destruct (absolutize os m) as [abs|] eqn:E; [|set_solver].
  apply absolutize_abs in E; [|done].
  rewrite elem_of_cons, list_elem_of_singleton. intros [->| ->]; [done|]. by apply IsAbs_Dir.
Qed.

(** ** Lemmas: [realPath] ends *)

Lemma realPath_loop_ends os p fuel rest cur :
  Clean cur = cur → String.length cur < fuel → realPath_loop fuel os p rest cur ≠ None.
Proof.
  revert rest cur. induction fuel as [|f IH]; intros rest cur Hc Hl; [lia|]. cbn.
  destruct (os_EvalSymlinks os cur); [done|]. case_bool_decide as Hd; [done|].
  destruct (decide (2 ≤ String.length cur)) as [H2|H2].
  - apply IH; [apply Clean_idempotent|].
    pose proof (Dir_shorter cur) as Hs. rewrite !Hc in Hs. specialize (Hs H2). lia.
  - destruct cur as [|a [|b cur]]; [done| |simpl in H2; lia].
    unfold Dir in *. simpl upto_last_slash in *. case_bool_decide; subst; [done|].
    destruct f as [|f]; [simpl in Hl; lia|]. change (Clean "") with ".".
    cbn [realPath_loop]. destruct (os_EvalSymlinks os "."); [done|].
    by rewrite bool_decide_eq_true_2.
Qed.

(** ** Lemmas: frames *)

Lemma lineage_RegisterMentions os g sid message :
  lineage (RegisterMentions os g sid message).1.1 = lineage g.
Proof.
  unfold RegisterMentions. case_if; [done|]. by destruct (fold_left _ _ _) as [[? []] ?].
Qed.
Lemma bucket_RegisterMentions_ne os g sid message s :
  s ≠ sid → bucket (RegisterMentions os g sid message).1.1 s = bucket g s.
Proof.
  intros Hne. unfold RegisterMentions. case_if; [done|].
  destruct (fold_left _ _ _) as [[? []] ?]; [done|]. unfold bucket. cbn.
  by rewrite lookup_insert_ne.
Qed.
Lemma bucket_RegisterMentions_granted os g sid message p :
  p ∈ (RegisterMentions os g sid message).1.2 →
  sid ≠ "" ∧ p ∈ bucket (RegisterMentions os g sid message).1.1 sid.
Proof.
  unfold RegisterMentions. case_if; [set_solver|]. b2p.
  destruct (fold_left _ _ _) as [[? cl] ?]. destruct cl as [|c cl]; [set_solver|].
  intros Hp. split; [done|]. unfold bucket. cbn. rewrite lookup_insert_eq. cbn. set_solver.
Qed.

(** ** Lemmas: the invariant of mention-driven stores *)

(** What the message loop guarantees of every grant of the store: the policy
    does not refuse it, it is clean and, given an absolute working directory,
    absolute. *)
Definition store_vetted (os : OS) (pol : option MentionPolicy) g : Prop :=
  mention g = pol ∧
  ∀ s p, p ∈ bucket g s →
    mentionRefusal os pol p = None ∧ Clean p = p ∧ (getwd_abs os → IsAbs p = true).

Lemma exec_op_vetted os pol g o :
  user_op o → store_vetted os pol g → store_vetted os pol (exec_op os g o).
Proof.
  intros Ho [Hm Hs]. destruct o as [sid msg| | sid dirs r|child parent|sid|sid [r|]|sid|]; try done; cbn.
  - split.
    { unfold RegisterMentions. case_if; [done|]. destruct (fold_left _ _ _) as [[? []] ?]; done. }
    intros s p [Hp|[-> Hp]]%RegisterMentions_bucket; [eauto|].
    apply RegisterMentions_granted in Hp as (Hn & Hc & m & _ & Hp). rewrite Hm in Hn.
    split; [done|]. split; [done|]. intros Hwd. by eapply mention_paths_abs.
  - unfold RegisterProtected. case_if; [done|]. by case_if.
  - unfold RegisterLineage. by case_if.
  - unfold ClearLineage. by case_if.
  - by case_if.
  - unfold Clear. case_if; [done|]. split; [done|]. intros s p. unfold bucket. cbn.
    rewrite lookup_delete. destruct (decide (sid = s)); cbn; [set_solver|]. apply Hs.
Qed.
Lemma run_ops_vetted os pol g ops :
  Forall user_op ops → store_vetted os pol g → store_vetted os pol (run_ops os g ops).
Proof.
  unfold run_ops. revert g. induction ops as [|o ops IH]; intros g; cbn; [done|].
  intros [Ho Hops]%Forall_cons Hs. apply IH; [done|]. by apply exec_op_vetted.
Qed.

(** A grant that covers application state would have been refused. *)
Lemma claude_uncovered os pol home p x :
  effective_home os pol = home → Clean home = home → IsAbs home = true →
  mentionRefusal os pol p = None → Clean p = p → IsAbs p = true →
  within x p = true → sensitive_segment home x = true → False.
Proof.
  intros Hh Hc Ha Hr Hpc Hpa Hxp Hseg.
  assert (home ≠ "") as Hne by (by intros ->).
  assert (p ∈ forms os p) as Hpf by (rewrite <- Hpc at 1; apply forms_Clean).
  assert (home ∈ forms os home) as Hhf by (rewrite <- Hc at 1; apply forms_Clean).
  assert (within home p = true → False) as Hup.
  { intros Hw. destruct (home_child_sensitive os pol home Hh Ha Hc) as (d & Hd & Hdc & Hdh).
    assert (d ∈ forms os d) as Hdf by (rewrite <- Hdc at 1; apply forms_Clean).
    rewrite <- Hh in Hd. pose proof (unrefused_safe os pol p Hr Hpc d d d Hd Hdf) as Hs.
    rewrite within_refl in Hs. by discriminate Hs; eapply within_trans. }
  assert (sensitive_segment home p = false) as Hsp.
  { eapply mentionRefusal_segment; [done| |by rewrite Hh|done]. by rewrite Hh. }
  pose proof Hseg as Hxh. unfold sensitive_segment in Hxh. apply andb_true_iff in Hxh as [Hxh _].
  destruct (within_nested x p home Hxp Hxh) as [Hph|?]; [|auto].
  apply within_spec in Hph as [->|Hph]; [by apply Hup, within_refl|].
  apply within_spec in Hxp as [->|Hxp]; [congruence|].
  destruct (decide (p = Separator)) as [->|Hps].
  - apply Hup, within_spec. right. unfold IsAbs in Ha. by apply has_prefix_spec.
  - rewrite (sensitive_segment_below home p x) in Hseg by done. congruence.
Qed.

(** ** Lemmas: reading the store *)

Lemma first_refusal_ne m ids id r :
  id ∈ ids → m !! id = Some r → r ≠ "" → first_refusal m ids ≠ "".
Proof.
  intros Hin Hr Hne. induction ids as [|i ids IH]; [set_solver|]. cbn.
  case_bool_decide as E; [|done].
  apply IH. apply elem_of_cons in Hin as [->|?]; [|done]. by rewrite Hr in E.
Qed.

Lemma candidates_spec g sid q :
  sid ≠ "" →
  q ∈ bucket g sid ∨ q ∈ ListLineageGrants g sid ↔ ∃ s, s ∈ lineageChain g sid ∧ q ∈ bucket g s.
Proof.
  intros Hs. unfold ListLineageGrants, lineageChain. rewrite bool_decide_eq_false_2 by done.
  split.
  - intros [?|Hq]; [exists sid; split; [apply elem_of_cons; by left|done]|].
    apply list_elem_of_In, in_flat_map in Hq as (s & Hin & Hq).
    apply list_elem_of_In in Hin. apply list_elem_of_In, elem_of_elements in Hq.
    exists s. split; [apply elem_of_cons; by right|done].
  - intros (s & [->|Hin]%elem_of_cons & Hq); [by left|]. right.
    apply list_elem_of_In, in_flat_map. exists s.
    split; [by apply list_elem_of_In|by apply list_elem_of_In, elem_of_elements].
Qed.

(** In a list sorted by descending length, what [find] returns is longest. *)
Lemma find_longest (f : string → bool) l x q :
  StronglySorted (λ a b, String.length b ≤ String.length a) l →
  List.find f l = Some x → q ∈ l → f q = true → String.length q ≤ String.length x.
Proof.
  induction 1 as [|a l Hs IH Ha]; cbn; [done|]. intros Hf Hq Hfq.
  apply elem_of_cons in Hq as [->|Hq].
  - rewrite Hfq in Hf. by injection Hf as <-.
  - destruct (f a); [|auto]. injection Hf as <-. rewrite Forall_forall in Ha. by apply Ha.
Qed.

Lemma dedup_from_sorted seen l :
  StronglySorted (λ a b, String.length b ≤ String.length a) l →
  StronglySorted (λ a b, String.length b ≤ String.length a) (dedup_from seen l).
Proof.
  intros Hs. revert seen. induction Hs as [|a l Hs IH Ha]; intros seen; cbn; [constructor|].
  case_bool_decide; [done|]. constructor; [done|].
  rewrite Forall_forall in *. intros x Hx. apply elem_of_dedup_from in Hx as [Hx _]. auto.
Qed.
Lemma dedup_sorted l :
  StronglySorted (λ a b, String.length b ≤ String.length a) l →
  StronglySorted (λ a b, String.length b ≤ String.length a) (dedup l).
Proof. apply dedup_from_sorted. Qed.
Lemma ancestors_lineage g g' sid : lineage g = lineage g' → ancestors g sid = ancestors g' sid.
Proof. unfold ancestors. by intros ->. Qed.

Lemma allowed_iff os g sid cand :
  IsPathAllowed os g sid cand = true ↔
  sid ≠ "" ∧ cand ≠ "" ∧
  ∃ abs s p, absolutize os cand = Some abs ∧ s ∈ lineageChain g sid ∧
    p ∈ bucket g s ∧ covers p abs.
Proof.
  split.
  - unfold IsPathAllowed. destruct (LookupPath os g sid cand) as [[[] k] via] eqn:Hl; [|done].
    intros _. apply LookupPath_sound in Hl as (? & ? & abs & p & ? & ? & ? & ?). eauto 10.
  - intros (? & ? & abs & s & p & ? & ? & ? & ?). by eapply LookupPath_complete.
Qed.

(** The store a host starts with: empty, under a mention policy. *)
Definition fresh_store (pol : MentionPolicy) : PathGrants RuleSet :=
  SetMentionPolicy NewPathGrants pol.

Lemma fresh_store_vetted os pol : store_vetted os (Some pol) (fresh_store pol).
Proof.
  split; [done|]. intros s p. unfold bucket, fresh_store. cbn. rewrite lookup_empty. set_solver.
Qed.
End Store.

Arguments NewPathGrants {RuleSet}.
Arguments fresh_store {RuleSet}.

(** ** Properties *)

(** C1. No sequence of user messages and session life-cycle calls opens a
    sensitive path: in every store reached from an empty one, under any mention
    policy, a lookup whose absolute path is inside a directory of the denylist
    (by its spelling or its real path) is refused for every session, whatever
    the lineage. *)
Theorem mentions_never_open_sensitive {RuleSet : Type} (os : OS) (pol : MentionPolicy)
    (ops : list (@op RuleSet)) (sid cand abs d df : string)
    (Hops : Forall user_op ops)
    (Habs : absolutize os cand = Some abs)
    (Hd : d ∈ sensitiveDirs os (effective_home os (Some pol)) (Denied pol))
    (Hdf : df ∈ forms os d)
    (Hin : within abs df = true) :
  IsPathAllowed os (run_ops os (fresh_store pol) ops) sid cand = false.
Proof.
  pose proof (run_ops_vetted os (Some pol) _ ops Hops (fresh_store_vetted os pol)) as [_ Hv].
  apply not_true_iff_false. unfold IsPathAllowed.
  destruct (LookupPath _ _ sid cand) as [[[] k] via] eqn:Hl; [|done]. intros _.
  apply LookupPath_sound in Hl as (_ & _ & abs' & p & Ha & _ & Hp & Hc).
  rewrite Habs in Ha. injection Ha as <-. destruct Hc as [Hw _].
  destruct (Hv _ _ Hp) as (Hn & Hclean & _).
  pose proof (unrefused_safe _ _ _ Hn Hclean d df abs Hd Hdf Hw). congruence.
Qed.

(** The same for the state directories matched by prefix: no sequence of
    messages opens a path under [~] whose first segment starts with
    [.claude]. *)
Theorem mentions_never_open_claude_state {RuleSet : Type} (os : OS) (pol : MentionPolicy)
    (ops : list (@op RuleSet)) (sid cand abs home : string)
    (Hwd : getwd_abs os)
    (Hops : Forall user_op ops)
    (Hhome : effective_home os (Some pol) = home)
    (Hclean : Clean home = home) (Hhabs : IsAbs home = true)
    (Habs : absolutize os cand = Some abs)
    (Hseg : sensitive_segment home abs = true) :
  IsPathAllowed os (run_ops os (fresh_store pol) ops) sid cand = false.
Proof.
  pose proof (run_ops_vetted os (Some pol) _ ops Hops (fresh_store_vetted os pol)) as [_ Hv].
  apply not_true_iff_false. unfold IsPathAllowed.
  destruct (LookupPath _ _ sid cand) as [[[] k] via] eqn:Hl; [|done]. intros _.
  apply LookupPath_sound in Hl as (_ & _ & abs' & p & Ha & _ & Hp & [Hw _]).
  rewrite Habs in Ha. injection Ha as <-.
  destruct (Hv _ _ Hp) as (? & ? & ?).
  eapply (claude_uncovered os (Some pol) home p abs); auto.
Qed.

(** A lookup accepts a path exactly when the session or one of its recorded
    ancestors (at most four hops up, stopping at a repeated session) holds a
    grant that is the path or a directory above it. *)
Theorem lookup_iff_granted {RuleSet : Type} (os : OS) (g : PathGrants RuleSet) (sid cand : string) :
  IsPathAllowed os g sid cand = true ↔
  sid ≠ "" ∧ cand ≠ "" ∧
  ∃ abs s p, absolutize os cand = Some abs ∧ s ∈ lineageChain g sid ∧
    p ∈ bucket g s ∧ covers p abs.
Proof. apply allowed_iff. Qed.

(** What a message grants is usable: every path [RegisterMentions] reports
    as granted is accepted afterwards for that session. *)
Theorem granted_paths_are_allowed {RuleSet : Type} (os : OS) (g : PathGrants RuleSet)
    (sid message p : string) (Hwd : getwd_abs os)
    (Hp : p ∈ (RegisterMentions os g sid message).1.2) :
  IsPathAllowed os (RegisterMentions os g sid message).1.1 sid p = true.
Proof.
  pose proof (RegisterMentions_granted _ _ _ _ _ Hp) as (_ & Hc & m & _ & Hm).
  apply mention_paths_abs in Hm; [|done].
  destruct (bucket_RegisterMentions_granted _ _ _ _ _ Hp) as [Hsid Hb].
  apply (LookupPath_complete os _ sid p p sid p); try done.
  - by intros ->.
  - by apply absolutize_id.
  - unfold lineageChain. set_solver.
  - split; [apply within_refl|done].
Qed.

(** A message changes only its own session and that session's descendants:
    a session whose lineage does not reach the speaker keeps every verdict. *)
Theorem mentions_are_session_scoped {RuleSet : Type} (os : OS) (g : PathGrants RuleSet)
    (sid message s cand : string) (Hs : sid ∉ lineageChain g s) :
  IsPathAllowed os (RegisterMentions os g sid message).1.1 s cand = IsPathAllowed os g s cand.
Proof.
  assert (lineageChain (RegisterMentions os g sid message).1.1 s = lineageChain g s) as Hch.
  { unfold lineageChain. f_equal. apply ancestors_lineage, lineage_RegisterMentions. }
  apply Bool.eq_true_iff_eq. rewrite !allowed_iff, Hch.
  split; intros (? & ? & abs & t & p & ? & Ht & Hp & ?); (split_and!; [done|done|]);
    exists abs, t, p; (split_and!; try done); rewrite bucket_RegisterMentions_ne in *;
    try done; by intros ->.
Qed.

(** Protection follows the grants: when a lookup is answered by a session
    (the asking one or an ancestor), every directory that session is protected
    from is in the asker's [Protected] list, and a shell refusal recorded for
    it leaves the asker without a shell. *)
Theorem protection_follows_grants {RuleSet : Type} (os : OS) (g : PathGrants RuleSet)
    (sid cand : string) (k : LookupKind) (via : string)
    (Hl : LookupPath os g sid cand = (true, k, via)) :
  (∀ dirs d, protected g !! answering sid via = Some dirs → d ∈ dirs → d ∈ Protected g sid) ∧
  (∀ r, shellRefusal g !! answering sid via = Some r → r ≠ "" → ShellRefusal g sid ≠ "").
Proof.
  apply LookupPath_sound in Hl as (Hsid & _ & _ & _ & _ & Hin & _).
  unfold Protected, ShellRefusal. rewrite !bool_decide_eq_false_2 by done. split.
  - intros dirs d Hp Hd. apply list_elem_of_In, in_flat_map. eexists.
    split; [by apply list_elem_of_In|]. rewrite Hp. by apply list_elem_of_In.
  - intros r Hr Hne. by eapply first_refusal_ne.
Qed.

(** The symbolic-link resolution of a path ends: the climb to the parent
    reaches the root or the working directory within the length of the path,
    whatever the file system answers. *)
Theorem realPath_terminates (os : OS) (p : string) :
  ∃ r, realPath_loop (S (S (String.length (Clean p)))) os (Clean p) "" (Clean p) = Some r ∧
       realPath os p = r.
Proof.
  pose proof (realPath_loop_ends os (Clean p) (S (S (String.length (Clean p)))) "" (Clean p)) as H.
  unfold realPath. destruct (realPath_loop _ _ _ _ _) as [r|]; [by exists r|].
  exfalso. apply H; [apply Clean_idempotent|lia|done].
Qed.

(** The default directory of a session is its work root when that exists;
    failing that it is a granted directory that exists on disk, the longest one
    among the grants of the session and its ancestors.  [sortSlice] is any
    permutation into descending length. *)
Theorem best_session_dir_most_specific {RuleSet : Type} (os : OS)
    (sortSlice : list string → list string) (g : PathGrants RuleSet) (sid r : string)
    (Hsort : ∀ l, sortSlice l ≡ₚ l ∧
       StronglySorted (λ a b, String.length b ≤ String.length a) (sortSlice l))
    (Hr : BestSessionDir os sortSlice g sid = r) (Hne : r ≠ "") :
  os_IsDir os r = true ∧
  (roots g !! sid = Some r ∨
   (∃ s, s ∈ lineageChain g sid ∧ r ∈ bucket g s) ∧
   ∀ s q, s ∈ lineageChain g sid → q ∈ bucket g s → os_IsDir os q = true →
     String.length q ≤ String.length r).
Proof.
  unfold BestSessionDir in Hr. case_bool_decide as Hs; [by subst|].
  case_if_in Hr.
  { apply andb_true_iff in Hif as [_ Hd]. subst r. split; [done|]. left.
    destruct (roots g !! sid); [done|]. done. }
  clear Hif. destruct (Hsort (elements (bucket g sid) ++ ListLineageGrants g sid)%list) as [Hperm Hsorted].
  destruct (List.find _ _) as [x|] eqn:Hf; cbn in Hr; [|by subst]. subst x.
  pose proof (find_some _ _ Hf) as [Hin Hd]. split; [done|]. right.
  assert (∀ q, q ∈ dedup (sortSlice (elements (bucket g sid) ++ ListLineageGrants g sid)%list) ↔
               ∃ s, s ∈ lineageChain g sid ∧ q ∈ bucket g s) as Hcand.
  { intros q. rewrite elem_of_dedup, Hperm, elem_of_app, elem_of_elements.
    by apply candidates_spec. }
  split; [by apply Hcand, list_elem_of_In|].
  intros s q Hsc Hq Hqd. eapply find_longest; [by apply dedup_sorted|exact Hf| |done].
  apply Hcand. eauto.
Qed.

(** ** Witnesses *)

(** A machine with home [/home/u], working directory [/work], no symbolic links,
    on which every path is a directory. *)
Definition demo_os : OS :=
  mkOS (Some "/home/u") (Some "/home/u") (Some "/work") (λ _, "") (λ p, Some p) (λ _, true).
Definition demo_policy : MentionPolicy := mkMentionPolicy true "" ["/work"] [].
Definition demo_ops : list (@op unit) :=
  [OpMessage "s" "please read /work/src/main.go, then ~/.ssh/id_rsa"; OpLineage "w" "s"].

Lemma demo_getwd_abs : getwd_abs demo_os.
Proof. by intros wd [= <-]. Qed.

Lemma mentions_never_open_sensitive_witness :
  IsPathAllowed demo_os (run_ops demo_os (fresh_store demo_policy) demo_ops) "w" "~/.ssh/id_rsa" = false.
Proof.
  refine (mentions_never_open_sensitive demo_os demo_policy demo_ops "w" "~/.ssh/id_rsa"
            "/home/u/.ssh/id_rsa" "/home/u/.ssh" "/home/u/.ssh" _ _ _ _ _).
  - repeat constructor.
  - vm_compute; reflexivity.
  - by_decide.
  - by_decide.
  - vm_compute; reflexivity.
Defined.

Lemma mentions_never_open_claude_state_witness :
  IsPathAllowed demo_os (run_ops demo_os (fresh_store demo_policy) demo_ops) "s" "~/.claude-work/x" = false.
Proof.
  refine (mentions_never_open_claude_state demo_os demo_policy demo_ops "s" "~/.claude-work/x"
            "/home/u/.claude-work/x" "/home/u" demo_getwd_abs _ _ _ _ _ _).
  - repeat constructor.
  - vm_compute; reflexivity.
  - vm_compute; reflexivity.
  - vm_compute; reflexivity.
  - vm_compute; reflexivity.
  - vm_compute; reflexivity.
Defined.

Lemma granted_paths_are_allowed_witness :
  IsPathAllowed demo_os
    (RegisterMentions demo_os (fresh_store (RuleSet := unit) demo_policy) "s" "read /work/src/main.go").1.1
    "s" "/work/src" = true.
Proof.
  refine (granted_paths_are_allowed demo_os (fresh_store demo_policy) "s" "read /work/src/main.go"
            "/work/src" demo_getwd_abs _).
  by_decide.
Defined.

Lemma mentions_are_session_scoped_witness :
  IsPathAllowed demo_os
    (RegisterMentions demo_os (run_ops demo_os (fresh_store demo_policy) demo_ops) "s" "see /work/doc").1.1
    "other" "/work/doc" =
  IsPathAllowed demo_os (run_ops demo_os (fresh_store demo_policy) demo_ops) "other" "/work/doc".
Proof.
  refine (mentions_are_session_scoped demo_os _ "s" "see /work/doc" "other" "/work/doc" _).
  by_decide.
Defined.

Definition protected_store : PathGrants unit :=
  run_ops demo_os (fresh_store demo_policy)
    (demo_ops ++ [OpProtected "s" ["/work/control"] "control plane"])%list.

Lemma protection_follows_grants_witness :
  "/work/control" ∈ Protected protected_store "w" ∧ ShellRefusal protected_store "w" ≠ "".
Proof.
  destruct (protection_follows_grants demo_os protected_store "w" "/work/src/main.go"
              LookupKindAncestorSession "s") as [Hd Hr].
  { vm_compute; reflexivity. }
  split.
  - apply (Hd ["/work/control"]); [vm_compute; reflexivity|by left].
  - apply (Hr "control plane"); [vm_compute; reflexivity|done].
Defined.

(** Descending length, as a merge sort. *)
Definition longer (a b : string) : Prop := String.length b ≤ String.length a.
#[global] Instance longer_dec : RelDecision longer.
Proof. intros a b. unfold longer. apply _. Defined.
#[global] Instance longer_trans : Transitive longer.
Proof. intros a b c. unfold longer. lia. Qed.
#[global] Instance longer_total : Total longer.
Proof. intros a b. unfold longer. lia. Qed.

Lemma longer_sort_ok l :
  merge_sort longer l ≡ₚ l ∧
  StronglySorted (λ a b, String.length b ≤ String.length a) (merge_sort longer l).
Proof.
  split; [apply merge_sort_Permutation|]. apply (StronglySorted_merge_sort longer).
Qed.

Lemma best_session_dir_most_specific_witness :
  os_IsDir demo_os "/work/src/main.go" = true.
Proof.
  refine (proj1 (best_session_dir_most_specific demo_os (merge_sort longer) protected_store "w"
            "/work/src/main.go" longer_sort_ok _ _)); [vm_compute; reflexivity|done].
Defined.

(** The comment of [ExtractPathMentions] lists the apostrophe among the trailing
    punctuation it strips; the cut set of [trimMarkdownAndPunct] does not have
    it, so it stays in the mention. *)
Example trailing_apostrophe_stays :
  ExtractPathMentions "see ~/foo' and ~/bar." = ["~/foo'"; "~/bar"].
Proof. vm_compute. reflexivity. Qed.
