(* ===== verification/LoopStore.v ===== *)
(** * The loop tables (internal/store)

    The four tables of the loop subsystem and the calls that read and write
    them: [goals.go], [goal_evidence.go], [loop_runs.go],
    [loop_run_iterations.go], and the loop-scoping update of
    [workflow_runs.go].

    A table is the list of its rows in insertion order, a row the Go struct that
    is scanned from it.  Nullable text columns are written with [nullIfEmpty]
    and read with [COALESCE(c,'')], so the empty string stands for NULL.
    Primary keys, the foreign keys and the unique index on (loop_run_id,
    iteration_number) make a statement fail here as they do in SQLite; the
    CHECK constraints repeat the Go validation that runs before every write and
    are not modelled a second time.

    Every statement may also fail for reasons outside the program: the oracle
    [o_fault] decides that per step, so each theorem holds for every pattern of
    database failures.  The clock and the identifier generator are oracles of
    the same kind.  [encoding/json] is the interface [JSON]. *)

From Stdlib Require Import QArith.QArith.
From stdpp Require Import sorting.
From S2P Require Import Prelude GoStrings.

Open Scope string_scope.
Open Scope nat_scope.

(** ** encoding/json, as the store uses it *)

(** [marshal] is [json.Marshal] then [string(b)], [unmarshal] is
    [json.Unmarshal] into a fresh value; [None] is an error. *)
Class JSON (A : Type) := {
  marshal : A → option string;
  unmarshal : string → option A;
}.
(** What the code relies on: values it can encode come back, and an encoding is
    neither empty nor the bytes the decoders take as unset. *)
Class JSONLaws (A : Type) `{JSON A} (unset : string) := {
  unmarshal_marshal (a : A) s : marshal a = Some s → unmarshal s = Some a;
  marshal_set (a : A) s : marshal a = Some s → s ≠ "" ∧ s ≠ unset;
}.

(** ** Rows *)

Record Goal := mkGoal {
  goal_ID : string;
  ParentGoalID : string;
  Intent : string;
  DesiredStateJSON : string;
  ConstraintsJSON : string;
  AcceptanceCriteriaJSON : string;
  InvariantsJSON : string;
  Priority : string;
  Scope_ : string;
  goal_Status : string;
  Owner : string;
  Source : string;
  CreatedAt : string;
  ActivatedAt : string;
  goal_CompletedAt : string;
}.

Record GoalEvidence := mkGoalEvidence {
  ev_ID : string;
  ev_GoalID : string;
  ev_LoopRunID : string;
  ev_IterationNumber : option Z;
  EvidenceType : string;
  RefTable : string;
  RefID : string;
  ev_Result : string;
  Summary : string;
  RecordedAt : string;
}.

Record Budget := mkBudget {
  MaxIterations : Z;
  MaxFailures : Z;
  MaxRuntimeSeconds : Z;
  MaxNoProgressIterations : Z;
  OnExhausted : string;
}.
Definition zeroBudget : Budget := mkBudget 0 0 0 0 "".

Record LoopRun := mkLoopRun {
  lr_ID : string;
  lr_GoalID : string;
  DefinitionName : string;
  lr_Status : string;
  CurrentIteration : Z;
  BudgetJSON : string;
  ContinuationPolicyJSON : string;
  NoProgressStreak : Z;
  lr_StartedAt : string;
  lr_UpdatedAt : string;
  lr_CompletedAt : string;
}.

(** [Confidence] is the exact quotient where Go has its [float64] rounding. *)
Record Evaluation := mkEvaluation {
  RemainingDelta : string;
  Confidence : Q;
  Regressions : list string;
}.
Definition zeroEvaluation : Evaluation := mkEvaluation "" 0 [].

Record LoopRunIteration := mkLoopRunIteration {
  it_ID : string;
  it_LoopRunID : string;
  IterationNumber : Z;
  WorkflowRunID : string;
  it_Decision : string;
  ProgressState : string;
  EvaluationJSON : string;
  it_StartedAt : string;
  it_CompletedAt : string;
}.

(** The columns of [workflow_runs] the loop code touches. *)
Record WorkflowRun := mkWorkflowRun {
  wr_ID : string;
  wr_LoopRunID : string;
  wr_LoopIteration : option Z;
}.

(** The columns of [actor_schedules] the loop code writes. *)
Record AgentSchedule := mkAgentSchedule {
  sched_ID : string;
  sched_AgentID : string;
  sched_Name : string;
  ScheduleKind : string;
  sched_Body : string;
  NextRun : string;
  JobType : string;
  JobPayload : string;
}.

Record DB := mkDB {
  goals : list Goal;
  goal_evidence : list GoalEvidence;
  loop_runs : list LoopRun;
  loop_run_iterations : list LoopRunIteration;
  workflow_runs : list WorkflowRun;
  actor_schedules : list AgentSchedule;
}.

Definition set_goals (db : DB) t :=
  mkDB t (goal_evidence db) (loop_runs db) (loop_run_iterations db) (workflow_runs db) (actor_schedules db).
Definition set_goal_evidence (db : DB) t :=
  mkDB (goals db) t (loop_runs db) (loop_run_iterations db) (workflow_runs db) (actor_schedules db).
Definition set_loop_runs (db : DB) t :=
  mkDB (goals db) (goal_evidence db) t (loop_run_iterations db) (workflow_runs db) (actor_schedules db).
Definition set_iterations (db : DB) t :=
  mkDB (goals db) (goal_evidence db) (loop_runs db) t (workflow_runs db) (actor_schedules db).
Definition set_workflow_runs (db : DB) t :=
  mkDB (goals db) (goal_evidence db) (loop_runs db) (loop_run_iterations db) t (actor_schedules db).
Definition set_schedules (db : DB) t :=
  mkDB (goals db) (goal_evidence db) (loop_runs db) (loop_run_iterations db) (workflow_runs db) t.

(** ** Tables *)

(** A row type with its primary key. *)
Class Keyed (A : Type) := pk : A → string.
#[global] Instance Goal_keyed : Keyed Goal := goal_ID.
#[global] Instance GoalEvidence_keyed : Keyed GoalEvidence := ev_ID.
#[global] Instance LoopRun_keyed : Keyed LoopRun := lr_ID.
#[global] Instance LoopRunIteration_keyed : Keyed LoopRunIteration := it_ID.
#[global] Instance WorkflowRun_keyed : Keyed WorkflowRun := wr_ID.
#[global] Instance AgentSchedule_keyed : Keyed AgentSchedule := sched_ID.

Section Tables.
Context {A : Type} `{Keyed A}.

(** [SELECT ... WHERE id = ?] *)
Definition find_row (t : list A) (id : string) : option A :=
  List.find (λ r, bool_decide (pk r = id)) t.
Definition has_row (t : list A) (id : string) : bool :=
  existsb (λ r, bool_decide (pk r = id)) t.
(** [UPDATE ... SET ... WHERE id = ?] *)
Definition update_row (t : list A) (id : string) (f : A → A) : list A :=
  map (λ r, if bool_decide (pk r = id) then f r else r) t.
(** [DELETE ... WHERE id = ?] *)
Definition delete_row (t : list A) (id : string) : list A :=
  List.filter (λ r, negb (bool_decide (pk r = id))) t.

(** [ORDER BY]: rows in ascending order of [le], earlier rows first on a tie. *)
Fixpoint order_insert (le : A → A → bool) (x : A) (l : list A) : list A :=
  match l with
  | [] => [x]
  | y :: l' => if le x y then x :: l else y :: order_insert le x l'
  end.
Definition order_by (le : A → A → bool) (l : list A) : list A :=
  foldr (order_insert le) [] l.
End Tables.

(** ** The world *)

(** What the program does not decide: which statements fail, the clock (as
    [time.Now().UTC().Format(time.RFC3339)] and as an instant in nanoseconds)
    and fresh identifiers, each as a function of the step number. *)
Record Oracle := mkOracle {
  o_fault : nat → bool;
  o_now : nat → string;
  o_now_ns : nat → Z;
  o_uuid : nat → string;
}.

Record World := mkWorld { w_db : DB; w_tick : nat }.

Inductive StoreErr :=
| ErrRequired (field : string)
| ErrInvalid (what : string)
| ErrJSON
| ErrDB
| ErrGoalNotFound
| ErrGoalEvidenceNotFound
| ErrLoopRunNotFound
| ErrLoopRunIterationNotFound
| ErrWorkflowRunNotFound.

(** ** Enumerations *)

Definition LoopRunStatusRunning := "running".
Definition LoopRunStatusCompleted := "completed".
Definition LoopRunStatusFailed := "failed".
Definition LoopRunStatusCanceled := "canceled".
Definition LoopRunStatusWaitingOnGate := "waiting_on_gate".
Definition LoopRunStatusWaitingOnEscalation := "waiting_on_escalation".
Definition LoopRunActiveStatuses : list string :=
  [LoopRunStatusRunning; LoopRunStatusWaitingOnGate; LoopRunStatusWaitingOnEscalation].
Definition validLoopRunStatuses : list string :=
  [LoopRunStatusRunning; LoopRunStatusCompleted; LoopRunStatusFailed; LoopRunStatusCanceled;
   LoopRunStatusWaitingOnGate; LoopRunStatusWaitingOnEscalation].

Definition LoopRunOnExhaustedEscalate := "escalate".
Definition LoopRunOnExhaustedFail := "fail".

Definition GoalStatusDraft := "draft".
Definition GoalStatusActive := "active".
Definition goalTerminalStatuses : list string := ["satisfied"; "failed"; "canceled"; "superseded"].
Definition validGoalStatuses : list string :=
  ["draft"; "defined"; "active"; "blocked"; "satisfied"; "failed"; "canceled"; "superseded"].

Definition validGoalEvidenceTypes : list string :=
  ["test_suite"; "verify_result"; "gate_approval"; "human_acceptance"; "artifact"].

Definition validLoopRunIterationDecisions : list string :=
  ["continue"; "retry"; "replan"; "rearchitect"; "wait"; "escalate"; "complete"; "fail"].

Definition LoopRunIterationProgressProgress := "progress".
Definition LoopRunIterationProgressNoProgress := "no_progress".
Definition LoopRunIterationProgressRegression := "regression".
Definition LoopRunIterationProgressBlocked := "blocked".
Definition LoopRunIterationProgressGoalMet := "goal_met".
Definition validLoopRunIterationProgressStates : list string :=
  [LoopRunIterationProgressProgress; LoopRunIterationProgressNoProgress;
   LoopRunIterationProgressRegression; LoopRunIterationProgressBlocked;
   LoopRunIterationProgressGoalMet].

(** The validators: a membership test in the enumeration. *)
Definition validate_in (what s : string) (l : list string) : result StoreErr unit :=
  if bool_decide (s ∈ l) then Ok tt else Err (ErrInvalid what).
Definition validateLoopRunStatus (s : string) := validate_in "loop run status" s validLoopRunStatuses.
Definition validateGoalStatus (s : string) := validate_in "goal status" s validGoalStatuses.
Definition validateLoopRunIterationDecision (s : string) :=
  validate_in "decision" s validLoopRunIterationDecisions.
Definition validateLoopRunIterationProgressState (s : string) :=
  validate_in "progress_state" s validLoopRunIterationProgressStates.

(** [validateBudget]. *)
Definition validateBudget (b : Budget) : result StoreErr unit :=
  if negb (bool_decide (OnExhausted b = LoopRunOnExhaustedEscalate))
     && negb (bool_decide (OnExhausted b = LoopRunOnExhaustedFail))
  then Err (ErrInvalid "on_exhausted")
  else if (MaxIterations b <? 0)%Z || (MaxFailures b <? 0)%Z
          || (MaxRuntimeSeconds b <? 0)%Z || (MaxNoProgressIterations b <? 0)%Z
  then Err (ErrInvalid "budget")
  else Ok tt.

(** [validateGoalEvidence]. *)
Definition validateGoalEvidence (e : GoalEvidence) : result StoreErr unit :=
  if bool_decide (ev_GoalID e = "") then Err (ErrRequired "goal_id")
  else if negb (bool_decide (EvidenceType e ∈ validGoalEvidenceTypes)) then Err (ErrInvalid "evidence_type")
  else if bool_decide (RefTable e = "") then Err (ErrRequired "ref_table")
  else if bool_decide (RefID e = "") then Err (ErrRequired "ref_id")
  else Ok tt.

(** [if s == "" { s = d }] *)
Definition or_default (s d : string) : string := if bool_decide (s = "") then d else s.

(** ** JSON columns *)

Section Codecs.
Context `{JSON (list string)} `{JSON Budget} `{JSON Evaluation}.

(** [decodeGoalStringList], [encodeGoalStringList] (a nil slice and an empty one
    are the same list here, as they are after the encoder's nil check). *)
Definition decodeGoalStringList (raw : string) : result StoreErr (list string) :=
  if bool_decide (raw = "") then Ok []
  else match unmarshal raw with Some l => Ok l | None => Err ErrJSON end.
Definition encodeGoalStringList (items : list string) : result StoreErr string :=
  match marshal items with Some s => Ok s | None => Err ErrJSON end.

(** The accessor pairs of [Goal]. *)
Definition DesiredState (g : Goal) := decodeGoalStringList (DesiredStateJSON g).
Definition Constraints (g : Goal) := decodeGoalStringList (ConstraintsJSON g).
Definition AcceptanceCriteria (g : Goal) := decodeGoalStringList (AcceptanceCriteriaJSON g).
Definition Invariants (g : Goal) := decodeGoalStringList (InvariantsJSON g).

Definition SetDesiredState (g : Goal) (items : list string) : result StoreErr Goal :=
  encoded ← encodeGoalStringList items;
  Ok (mkGoal (goal_ID g) (ParentGoalID g) (Intent g) encoded (ConstraintsJSON g)
        (AcceptanceCriteriaJSON g) (InvariantsJSON g) (Priority g) (Scope_ g) (goal_Status g)
        (Owner g) (Source g) (CreatedAt g) (ActivatedAt g) (goal_CompletedAt g)).
Definition SetConstraints (g : Goal) (items : list string) : result StoreErr Goal :=
  encoded ← encodeGoalStringList items;
  Ok (mkGoal (goal_ID g) (ParentGoalID g) (Intent g) (DesiredStateJSON g) encoded
        (AcceptanceCriteriaJSON g) (InvariantsJSON g) (Priority g) (Scope_ g) (goal_Status g)
        (Owner g) (Source g) (CreatedAt g) (ActivatedAt g) (goal_CompletedAt g)).
Definition SetAcceptanceCriteria (g : Goal) (items : list string) : result StoreErr Goal :=
  encoded ← encodeGoalStringList items;
  Ok (mkGoal (goal_ID g) (ParentGoalID g) (Intent g) (DesiredStateJSON g) (ConstraintsJSON g)
        encoded (InvariantsJSON g) (Priority g) (Scope_ g) (goal_Status g)
        (Owner g) (Source g) (CreatedAt g) (ActivatedAt g) (goal_CompletedAt g)).
Definition SetInvariants (g : Goal) (items : list string) : result StoreErr Goal :=
  encoded ← encodeGoalStringList items;
  Ok (mkGoal (goal_ID g) (ParentGoalID g) (Intent g) (DesiredStateJSON g) (ConstraintsJSON g)
        (AcceptanceCriteriaJSON g) encoded (Priority g) (Scope_ g) (goal_Status g)
        (Owner g) (Source g) (CreatedAt g) (ActivatedAt g) (goal_CompletedAt g)).

(** [decodeLoopRunBudget], [encodeLoopRunBudget], [LoopRun.Budget] and
    [LoopRun.SetBudget]. *)
Definition decodeLoopRunBudget (raw : string) : result StoreErr Budget :=
  if bool_decide (raw = "") || bool_decide (raw = "{}") then Ok zeroBudget
  else match unmarshal raw with Some b => Ok b | None => Err ErrJSON end.
Definition encodeLoopRunBudget (b : Budget) : result StoreErr string :=
  match marshal b with Some s => Ok s | None => Err ErrJSON end.
Definition LoopRun_Budget (lr : LoopRun) : result StoreErr Budget :=
  decodeLoopRunBudget (BudgetJSON lr).
Definition SetBudget (lr : LoopRun) (b : Budget) : result StoreErr LoopRun :=
  let b := mkBudget (MaxIterations b) (MaxFailures b) (MaxRuntimeSeconds b)
             (MaxNoProgressIterations b) (or_default (OnExhausted b) LoopRunOnExhaustedEscalate) in
  _ ← validateBudget b;
  encoded ← encodeLoopRunBudget b;
  Ok (mkLoopRun (lr_ID lr) (lr_GoalID lr) (DefinitionName lr) (lr_Status lr) (CurrentIteration lr)
        encoded (ContinuationPolicyJSON lr) (NoProgressStreak lr) (lr_StartedAt lr)
        (lr_UpdatedAt lr) (lr_CompletedAt lr)).

(** [decodeLoopRunIterationEvaluation], [encodeLoopRunIterationEvaluation] and
    [LoopRunIteration.SetEvaluation]. *)
Definition decodeLoopRunIterationEvaluation (raw : string) : result StoreErr Evaluation :=
  if bool_decide (raw = "") || bool_decide (raw = "{}") then Ok zeroEvaluation
  else match unmarshal raw with Some e => Ok e | None => Err ErrJSON end.
Definition encodeLoopRunIterationEvaluation (e : Evaluation) : result StoreErr string :=
  match marshal e with Some s => Ok s | None => Err ErrJSON end.
Definition SetEvaluation (li : LoopRunIteration) (e : Evaluation) : result StoreErr LoopRunIteration :=
  encoded ← encodeLoopRunIterationEvaluation e;
  Ok (mkLoopRunIteration (it_ID li) (it_LoopRunID li) (IterationNumber li) (WorkflowRunID li)
        (it_Decision li) (ProgressState li) encoded (it_StartedAt li) (it_CompletedAt li)).
End Codecs.

(** ** Statements *)

Section Store.
Context `{JSON (list string)} `{JSON Budget} `{JSON Evaluation}.
Context (O : Oracle).

Abbreviation store := (act World StoreErr).

Definition next (w : World) : World := mkWorld (w_db w) (S (w_tick w)).

Definition now : store string := λ w, (Ok (o_now O (w_tick w)), next w).
Definition new_uuid : store string := λ w, (Ok (o_uuid O (w_tick w)), next w).

(** One SQL statement: it fails from outside, or runs [f]; a failed statement
    leaves the database as it was. *)
Definition exec {A} (f : DB → result StoreErr (A * DB)) : store A := λ w,
  if o_fault O (w_tick w) then (Err ErrDB, next w)
  else match f (w_db w) with
       | Ok (a, db) => (Ok a, mkWorld db (S (w_tick w)))
       | Err e => (Err e, next w)
       end.
(** A query. *)
Definition query {A} (f : DB → result StoreErr A) : store A :=
  exec (λ db, match f db with Ok a => Ok (a, db) | Err e => Err e end).

(** *** goals *)

Definition goal_defaults (g : Goal) (status : string) : Goal :=
  mkGoal (goal_ID g) (ParentGoalID g) (Intent g)
    (or_default (DesiredStateJSON g) "[]") (or_default (ConstraintsJSON g) "[]")
    (or_default (AcceptanceCriteriaJSON g) "[]") (or_default (InvariantsJSON g) "[]")
    (Priority g) (Scope_ g) status (Owner g) (Source g) (CreatedAt g) (ActivatedAt g)
    (goal_CompletedAt g).
Definition goal_with_id_created (g : Goal) (id created : string) : Goal :=
  mkGoal id (ParentGoalID g) (Intent g) (DesiredStateJSON g) (ConstraintsJSON g)
    (AcceptanceCriteriaJSON g) (InvariantsJSON g) (Priority g) (Scope_ g) (goal_Status g)
    (Owner g) (Source g) created (ActivatedAt g) (goal_CompletedAt g).

(** [parent_goal_id REFERENCES goals(id)], with the row itself present. *)
Definition goal_parent_ok (db : DB) (id parent : string) : bool :=
  bool_decide (parent = "") || bool_decide (parent = id) || has_row (goals db) parent.

(** [CreateGoal]: the row as inserted. *)
Definition CreateGoal (g : Goal) : store Goal :=
  if bool_decide (Intent g = "") then fail (ErrRequired "intent")
  else
    id ← (if bool_decide (goal_ID g = "") then new_uuid else mret (goal_ID g));
    let g := goal_defaults g (or_default (goal_Status g) GoalStatusDraft) in
    _ ← lift (validateGoalStatus (goal_Status g));
    t ← now;
    let row := goal_with_id_created g id t in
    exec (λ db,
      if has_row (goals db) id || negb (goal_parent_ok db id (ParentGoalID row)) then Err ErrDB
      else Ok (row, set_goals db (goals db ++ [row])%list)).

(** [GetGoal]. *)
Definition GetGoal (id : string) : store Goal :=
  query (λ db, match find_row (goals db) id with Some g => Ok g | None => Err ErrGoalNotFound end).

(** [ListGoals]. *)
Record GoalFilter := mkGoalFilter { gf_Status : string; gf_ParentGoalID : string }.
Definition ListGoals (f : GoalFilter) : store (list Goal) :=
  query (λ db,
    Ok (order_by (λ a b, String.leb (CreatedAt a) (CreatedAt b))
      (List.filter (λ g,
        (bool_decide (gf_Status f = "") || bool_decide (goal_Status g = gf_Status f)) &&
        (bool_decide (gf_ParentGoalID f = "") || bool_decide (ParentGoalID g = gf_ParentGoalID f)))
        (goals db)))).

(** [UpdateGoal]: every definition column, never the status columns. *)
Definition goal_redefine (g old : Goal) : Goal :=
  mkGoal (goal_ID old) (ParentGoalID g) (Intent g) (DesiredStateJSON g) (ConstraintsJSON g)
    (AcceptanceCriteriaJSON g) (InvariantsJSON g) (Priority g) (Scope_ g) (goal_Status old)
    (Owner g) (Source g) (CreatedAt old) (ActivatedAt old) (goal_CompletedAt old).
Definition UpdateGoal (g : Goal) : store unit :=
  if bool_decide (goal_ID g = "") then fail (ErrRequired "id")
  else if bool_decide (Intent g = "") then fail (ErrRequired "intent")
  else
    let g := goal_defaults g (goal_Status g) in
    exec (λ db,
      if negb (has_row (goals db) (goal_ID g)) then Err ErrGoalNotFound
      else if negb (goal_parent_ok db (goal_ID g) (ParentGoalID g)) then Err ErrDB
      else Ok (tt, set_goals db (update_row (goals db) (goal_ID g) (goal_redefine g)))).

(** [UpdateGoalStatus]: [activated_at] and [completed_at] are set once
    ([COALESCE]). *)
Definition goal_set_status (status t : string) (g : Goal) : Goal :=
  mkGoal (goal_ID g) (ParentGoalID g) (Intent g) (DesiredStateJSON g) (ConstraintsJSON g)
    (AcceptanceCriteriaJSON g) (InvariantsJSON g) (Priority g) (Scope_ g) status
    (Owner g) (Source g) (CreatedAt g)
    (if bool_decide (status = GoalStatusActive) then or_default (ActivatedAt g) t else ActivatedAt g)
    (if bool_decide (status = GoalStatusActive) then goal_CompletedAt g
     else if bool_decide (status ∈ goalTerminalStatuses) then or_default (goal_CompletedAt g) t
     else goal_CompletedAt g).
Definition UpdateGoalStatus (id status : string) : store unit :=
  _ ← lift (validateGoalStatus status);
  t ← now;
  exec (λ db,
    if has_row (goals db) id
    then Ok (tt, set_goals db (update_row (goals db) id (goal_set_status status t)))
    else Err ErrGoalNotFound).

(** [DeleteGoal]: a row another row points at stays. *)
Definition goal_referenced (db : DB) (id : string) : bool :=
  existsb (λ g, bool_decide (ParentGoalID g = id) && negb (bool_decide (goal_ID g = id))) (goals db)
  || existsb (λ e, bool_decide (ev_GoalID e = id)) (goal_evidence db)
  || existsb (λ l, bool_decide (lr_GoalID l = id)) (loop_runs db).
Definition DeleteGoal (id : string) : store unit :=
  exec (λ db,
    if negb (has_row (goals db) id) then Err ErrGoalNotFound
    else if goal_referenced db id then Err ErrDB
    else Ok (tt, set_goals db (delete_row (goals db) id))).

(** *** goal_evidence *)

(** [RecordGoalEvidence]: the row as inserted. *)
Definition ev_stamp (e : GoalEvidence) (id t : string) : GoalEvidence :=
  mkGoalEvidence id (ev_GoalID e) (ev_LoopRunID e) (ev_IterationNumber e) (EvidenceType e)
    (RefTable e) (RefID e) (ev_Result e) (Summary e) t.
Definition RecordGoalEvidence (e : GoalEvidence) : store GoalEvidence :=
  _ ← lift (validateGoalEvidence e);
  id ← (if bool_decide (ev_ID e = "") then new_uuid else mret (ev_ID e));
  t ← (if bool_decide (RecordedAt e = "") then now else mret (RecordedAt e));
  let row := ev_stamp e id t in
  exec (λ db,
    if has_row (goal_evidence db) id || negb (has_row (goals db) (ev_GoalID row)) then Err ErrDB
    else Ok (row, set_goal_evidence db (goal_evidence db ++ [row])%list)).

(** [GetGoalEvidence], [ListGoalEvidence], [DeleteGoalEvidence]. *)
Definition GetGoalEvidence (id : string) : store GoalEvidence :=
  query (λ db, match find_row (goal_evidence db) id with
               | Some e => Ok e | None => Err ErrGoalEvidenceNotFound end).
Record GoalEvidenceFilter := mkGoalEvidenceFilter { ef_LoopRunID : string; ef_EvidenceType : string }.
Definition evidence_rows (db : DB) (goalID : string) (f : GoalEvidenceFilter) : list GoalEvidence :=
  order_by (λ a b, String.leb (RecordedAt a) (RecordedAt b))
    (List.filter (λ e,
      bool_decide (ev_GoalID e = goalID) &&
      (bool_decide (ef_LoopRunID f = "") || bool_decide (ev_LoopRunID e = ef_LoopRunID f)) &&
      (bool_decide (ef_EvidenceType f = "") || bool_decide (EvidenceType e = ef_EvidenceType f)))
      (goal_evidence db)).
Definition ListGoalEvidence (goalID : string) (f : GoalEvidenceFilter) : store (list GoalEvidence) :=
  query (λ db, Ok (evidence_rows db goalID f)).
Definition DeleteGoalEvidence (id : string) : store unit :=
  exec (λ db,
    if has_row (goal_evidence db) id
    then Ok (tt, set_goal_evidence db (delete_row (goal_evidence db) id))
    else Err ErrGoalEvidenceNotFound).

(** [missingFromCoverage]. *)
Definition missingFromCoverage (items : list string) (covered : gset string) : list string :=
  List.filter (λ item, negb (bool_decide (item ∈ covered))) items.

Record GoalEvidenceEvaluation := mkGoalEvidenceEvaluation {
  GoalMet : bool;
  AcceptanceCriteriaSatisfied : bool;
  ConstraintsSatisfied : bool;
  InvariantsPreserved : bool;
  RequiredEvidencePresent : bool;
  MissingAcceptanceCriteria : list string;
  MissingConstraints : list string;
  MissingInvariants : list string;
}.

(** The summaries [EvaluateGoalEvidence] collects in [covered]. *)
Definition covered_by (evidence : list GoalEvidence) : gset string :=
  list_to_set (List.filter (λ s, negb (bool_decide (s = ""))) (map Summary evidence)).

(** The evaluation of one goal's evidence, once everything has been read. *)
Definition evaluate_lists (evidence : list GoalEvidence) (criteria constraints invariants : list string) :
    GoalEvidenceEvaluation :=
  let covered := covered_by evidence in
  let ma := missingFromCoverage criteria covered in
  let mc := missingFromCoverage constraints covered in
  let mi := missingFromCoverage invariants covered in
  let a := bool_decide (length ma = 0) in
  let c := bool_decide (length mc = 0) in
  let i := bool_decide (length mi = 0) in
  let r := bool_decide (0 < length evidence) in
  mkGoalEvidenceEvaluation (a && c && i && r) a c i r ma mc mi.

(** [EvaluateGoalEvidence]. *)
Definition EvaluateGoalEvidence (goalID : string) : store (GoalEvidenceEvaluation * list GoalEvidence) :=
  goal ← GetGoal goalID;
  evidence ← ListGoalEvidence goalID (mkGoalEvidenceFilter "" "");
  acceptanceCriteria ← lift (AcceptanceCriteria goal);
  constraints ← lift (Constraints goal);
  invariants ← lift (Invariants goal);
  mret (evaluate_lists evidence acceptanceCriteria constraints invariants, evidence).

(** [EvidenceSatisfiesGoal]. *)
Definition EvidenceSatisfiesGoal (goalID : string) : store (bool * list GoalEvidence) :=
  r ← EvaluateGoalEvidence goalID;
  mret (GoalMet r.1, r.2).

(** *** loop_runs *)

(** [CreateLoopRun]: the row as inserted. *)
Definition loop_run_row (lr : LoopRun) (id t : string) : LoopRun :=
  mkLoopRun id (lr_GoalID lr) (DefinitionName lr) (or_default (lr_Status lr) LoopRunStatusRunning)
    (CurrentIteration lr) (or_default (BudgetJSON lr) "{}")
    (or_default (ContinuationPolicyJSON lr) "{}") (NoProgressStreak lr) t t (lr_CompletedAt lr).
Definition CreateLoopRun (lr : LoopRun) : store LoopRun :=
  if bool_decide (lr_GoalID lr = "") then fail (ErrRequired "goal_id")
  else if bool_decide (DefinitionName lr = "") then fail (ErrRequired "definition_name")
  else
    id ← (if bool_decide (lr_ID lr = "") then new_uuid else mret (lr_ID lr));
    _ ← lift (validateLoopRunStatus (or_default (lr_Status lr) LoopRunStatusRunning));
    t ← now;
    let row := loop_run_row lr id t in
    exec (λ db,
      if has_row (loop_runs db) id || negb (has_row (goals db) (lr_GoalID row)) then Err ErrDB
      else Ok (row, set_loop_runs db (loop_runs db ++ [row])%list)).

(** [GetLoopRun]. *)
Definition GetLoopRun (id : string) : store LoopRun :=
  query (λ db, match find_row (loop_runs db) id with Some r => Ok r | None => Err ErrLoopRunNotFound end).

(** [ListLoopRuns]. *)
Record LoopRunFilter := mkLoopRunFilter { rf_GoalID : string; rf_Statuses : list string }.
Definition loop_run_matches (f : LoopRunFilter) (r : LoopRun) : bool :=
  (bool_decide (rf_GoalID f = "") || bool_decide (lr_GoalID r = rf_GoalID f)) &&
  (bool_decide (rf_Statuses f = []) || bool_decide (lr_Status r ∈ rf_Statuses f)).
Definition ListLoopRuns (f : LoopRunFilter) : store (list LoopRun) :=
  query (λ db, Ok (order_by (λ a b, String.leb (lr_StartedAt a) (lr_StartedAt b))
                     (List.filter (loop_run_matches f) (loop_runs db)))).

(** The narrow updaters: one [UPDATE loop_runs SET ... WHERE id = ?]. *)
Definition update_loop_run (id : string) (f : LoopRun → LoopRun) : store unit :=
  exec (λ db,
    if has_row (loop_runs db) id then Ok (tt, set_loop_runs db (update_row (loop_runs db) id f))
    else Err ErrLoopRunNotFound).

(** [UpdateLoopRunStatus]; [completedAt] as the formatted time, if any. *)
Definition lr_set_status (status t : string) (completedAt : option string) (r : LoopRun) : LoopRun :=
  mkLoopRun (lr_ID r) (lr_GoalID r) (DefinitionName r) status (CurrentIteration r) (BudgetJSON r)
    (ContinuationPolicyJSON r) (NoProgressStreak r) (lr_StartedAt r) t
    (default (lr_CompletedAt r) completedAt).
Definition UpdateLoopRunStatus (id status : string) (completedAt : option string) : store unit :=
  _ ← lift (validateLoopRunStatus status);
  t ← now;
  update_loop_run id (lr_set_status status t completedAt).

(** [BumpLoopRunIteration]. *)
Definition lr_bump (t : string) (r : LoopRun) : LoopRun :=
  mkLoopRun (lr_ID r) (lr_GoalID r) (DefinitionName r) (lr_Status r) (CurrentIteration r + 1)
    (BudgetJSON r) (ContinuationPolicyJSON r) (NoProgressStreak r) (lr_StartedAt r) t (lr_CompletedAt r).
Definition BumpLoopRunIteration (id : string) : store unit :=
  t ← now; update_loop_run id (lr_bump t).

(** [UpdateLoopRunNoProgressStreak]. *)
Definition lr_set_streak (streak : Z) (t : string) (r : LoopRun) : LoopRun :=
  mkLoopRun (lr_ID r) (lr_GoalID r) (DefinitionName r) (lr_Status r) (CurrentIteration r)
    (BudgetJSON r) (ContinuationPolicyJSON r) streak (lr_StartedAt r) t (lr_CompletedAt r).
Definition UpdateLoopRunNoProgressStreak (id : string) (streak : Z) : store unit :=
  if (streak <? 0)%Z then fail (ErrInvalid "streak")
  else t ← now; update_loop_run id (lr_set_streak streak t).

(** [UpdateLoopRunDefinitionName]. *)
Definition lr_set_definition (name t : string) (r : LoopRun) : LoopRun :=
  mkLoopRun (lr_ID r) (lr_GoalID r) name (lr_Status r) (CurrentIteration r) (BudgetJSON r)
    (ContinuationPolicyJSON r) (NoProgressStreak r) (lr_StartedAt r) t (lr_CompletedAt r).
Definition UpdateLoopRunDefinitionName (id definitionName : string) : store unit :=
  if bool_decide (definitionName = "") then fail (ErrRequired "definition_name")
  else t ← now; update_loop_run id (lr_set_definition definitionName t).

(** [DeleteLoopRun]: a run its iterations or workflow runs point at stays. *)
Definition loop_run_referenced (db : DB) (id : string) : bool :=
  existsb (λ i, bool_decide (it_LoopRunID i = id)) (loop_run_iterations db)
  || existsb (λ w, bool_decide (wr_LoopRunID w = id)) (workflow_runs db).
Definition DeleteLoopRun (id : string) : store unit :=
  exec (λ db,
    if negb (has_row (loop_runs db) id) then Err ErrLoopRunNotFound
    else if loop_run_referenced db id then Err ErrDB
    else Ok (tt, set_loop_runs db (delete_row (loop_runs db) id))).

(** *** loop_run_iterations *)

(** [CreateLoopRunIteration]: the row as inserted. *)
Definition iteration_row (li : LoopRunIteration) (id t : string) : LoopRunIteration :=
  mkLoopRunIteration id (it_LoopRunID li) (IterationNumber li) (WorkflowRunID li) (it_Decision li)
    (ProgressState li) (or_default (EvaluationJSON li) "{}") t (it_CompletedAt li).
Definition iteration_fits (db : DB) (row : LoopRunIteration) : bool :=
  negb (has_row (loop_run_iterations db) (it_ID row)) &&
  has_row (loop_runs db) (it_LoopRunID row) &&
  (bool_decide (WorkflowRunID row = "") || has_row (workflow_runs db) (WorkflowRunID row)) &&
  negb (existsb (λ i, bool_decide (it_LoopRunID i = it_LoopRunID row) &&
                      bool_decide (IterationNumber i = IterationNumber row))
          (loop_run_iterations db)).
Definition CreateLoopRunIteration (li : LoopRunIteration) : store LoopRunIteration :=
  if bool_decide (it_LoopRunID li = "") then fail (ErrRequired "loop_run_id")
  else
    _ ← (if bool_decide (it_Decision li = "") then mret tt
         else lift (validateLoopRunIterationDecision (it_Decision li)));
    _ ← (if bool_decide (ProgressState li = "") then mret tt
         else lift (validateLoopRunIterationProgressState (ProgressState li)));
    id ← (if bool_decide (it_ID li = "") then new_uuid else mret (it_ID li));
    t ← now;
    let row := iteration_row li id t in
    exec (λ db,
      if iteration_fits db row
      then Ok (row, set_iterations db (loop_run_iterations db ++ [row])%list)
      else Err ErrDB).

(** [GetLoopRunIteration], [ListLoopRunIterations]. *)
Definition GetLoopRunIteration (loopRunID : string) (n : Z) : store LoopRunIteration :=
  query (λ db,
    match List.find (λ i, bool_decide (it_LoopRunID i = loopRunID) && bool_decide (IterationNumber i = n))
            (loop_run_iterations db) with
    | Some i => Ok i | None => Err ErrLoopRunIterationNotFound end).
Definition iterations_of (db : DB) (loopRunID : string) : list LoopRunIteration :=
  order_by (λ a b, (IterationNumber a <=? IterationNumber b)%Z)
    (List.filter (λ i, bool_decide (it_LoopRunID i = loopRunID)) (loop_run_iterations db)).
Definition ListLoopRunIterations (loopRunID : string) : store (list LoopRunIteration) :=
  query (λ db, Ok (iterations_of db loopRunID)).

(** [CompleteLoopRunIteration]. *)
Definition it_complete (wr decision progress ejson t : string) (i : LoopRunIteration) : LoopRunIteration :=
  mkLoopRunIteration (it_ID i) (it_LoopRunID i) (IterationNumber i) wr decision progress ejson
    (it_StartedAt i) t.
Definition CompleteLoopRunIteration (id workflowRunID decision progressState : string)
    (evaluation : Evaluation) : store unit :=
  if bool_decide (workflowRunID = "") then fail (ErrRequired "workflow_run_id")
  else
    _ ← lift (validateLoopRunIterationDecision decision);
    _ ← lift (validateLoopRunIterationProgressState progressState);
    ejson ← lift (encodeLoopRunIterationEvaluation evaluation);
    t ← now;
    exec (λ db,
      if negb (has_row (loop_run_iterations db) id) then Err ErrLoopRunIterationNotFound
      else if negb (has_row (workflow_runs db) workflowRunID) then Err ErrDB
      else Ok (tt, set_iterations db
                     (update_row (loop_run_iterations db) id
                        (it_complete workflowRunID decision progressState ejson t)))).

(** *** workflow_runs: [UpdateWorkflowRunLoopScope] *)

Definition wr_scope (loopRunID : string) (n : Z) (w : WorkflowRun) : WorkflowRun :=
  mkWorkflowRun (wr_ID w) loopRunID (Some n).
Definition UpdateWorkflowRunLoopScope (id loopRunID : string) (n : Z) : store unit :=
  if bool_decide (id = "") then fail (ErrRequired "id")
  else if bool_decide (loopRunID = "") then fail (ErrRequired "loop_run_id")
  else
    _ ← now;
    exec (λ db,
      if negb (has_row (workflow_runs db) id) then Err ErrWorkflowRunNotFound
      else if negb (has_row (loop_runs db) loopRunID) then Err ErrDB
      else Ok (tt, set_workflow_runs db (update_row (workflow_runs db) id (wr_scope loopRunID n)))).
End Store.

(** ** Lemmas: tables *)

Section TableLemmas.
Context {A : Type} `{Keyed A}.
Implicit Types t : list A.

Lemma has_row_elem t id : has_row t id = true ↔ id ∈ map pk t.
Proof.
  unfold has_row. rewrite existsb_exists, list_elem_of_In, in_map_iff. split.
  - intros (r & Hr & Hid%bool_decide_eq_true). eauto.
  - intros (r & Hid & Hr). exists r. split; [done|]. by apply bool_decide_eq_true.
Qed.
Lemma has_row_false t id : has_row t id = false ↔ id ∉ map pk t.
Proof. rewrite <- has_row_elem. by destruct (has_row t id). Qed.
Lemma find_row_Some t id r : find_row t id = Some r → r ∈ t ∧ pk r = id.
Proof.
  unfold find_row. intros [Hin Hid%bool_decide_eq_true]%find_some.
  split; [by apply list_elem_of_In|done].
Qed.
Lemma find_row_has t id : is_Some (find_row t id) ↔ has_row t id = true.
Proof.
  rewrite has_row_elem. unfold find_row. split.
  - intros [r [Hin Hid%bool_decide_eq_true]%find_some].
    rewrite <- Hid. apply list_elem_of_In, in_map, Hin.
  - intros Hid. destruct (List.find _ t) eqn:Hf; [by eexists|]. exfalso.
    apply list_elem_of_In, in_map_iff in Hid as (r & Hr & Hin).
    eapply find_none in Hf; [|exact Hin]. by apply bool_decide_eq_false in Hf.
Qed.
Lemma elem_of_update_row t id f r :
  r ∈ update_row t id f → r ∈ t ∧ pk r ≠ id ∨ ∃ r0, r0 ∈ t ∧ pk r0 = id ∧ r = f r0.
Proof.
  unfold update_row. intros (r0 & Hr & Hin)%list_elem_of_In%in_map_iff.
  apply list_elem_of_In in Hin. destruct (decide (pk r0 = id)) as [He|He].
  - rewrite bool_decide_eq_true_2 in Hr by done. right. eauto.
  - rewrite bool_decide_eq_false_2 in Hr by done. left. by subst.
Qed.
Lemma update_row_keys t id f :
  (∀ r, pk (f r) = pk r) → map pk (update_row t id f) = map pk t.
Proof.
  intros Hf. unfold update_row. rewrite map_map. apply map_ext. intros r. by case_bool_decide.
Qed.
Lemma update_row_map {B} (g : A → B) t id f :
  (∀ r, g (f r) = g r) → map g (update_row t id f) = map g t.
Proof.
  intros Hf. unfold update_row. rewrite map_map. apply map_ext. intros r. by case_bool_decide.
Qed.
Lemma Forall_update_row (P : A → Prop) t id f :
  Forall P t → (∀ r, P r → P (f r)) → Forall P (update_row t id f).
Proof.
  rewrite !Forall_forall. intros Ht Hf r [[Hin _]|(r0 & Hin & _ & ->)]%elem_of_update_row; auto.
Qed.
Lemma find_update_same t id f r :
  (∀ x, pk (f x) = pk x) → find_row t id = Some r → find_row (update_row t id f) id = Some (f r).
Proof.
  intros Hf. unfold find_row, update_row. induction t as [|x t IH]; cbn; [done|].
  destruct (decide (pk x = id)) as [He|He].
  - rewrite (bool_decide_eq_true_2 (pk x = id)) by done. rewrite Hf, bool_decide_eq_true_2 by done.
    by intros [= ->].
  - rewrite (bool_decide_eq_false_2 (pk x = id)) by done. rewrite bool_decide_eq_false_2 by done. auto.
Qed.
Lemma find_update_other t id id' f :
  (∀ x, pk (f x) = pk x) → id' ≠ id → find_row (update_row t id f) id' = find_row t id'.
Proof.
  intros Hf Hne. unfold find_row, update_row. induction t as [|x t IH]; cbn; [done|].
  destruct (decide (pk x = id)) as [He|He].
  - rewrite (bool_decide_eq_true_2 (pk x = id)) by done. rewrite Hf.
    rewrite !(bool_decide_eq_false_2 (pk x = id')) by congruence. done.
  - rewrite (bool_decide_eq_false_2 (pk x = id)) by done. by rewrite IH.
Qed.
Lemma find_app_new t r id :
  find_row (t ++ [r])%list id =
  match find_row t id with Some x => Some x | None => if bool_decide (pk r = id) then Some r else None end.
Proof.
  unfold find_row. induction t as [|x t IH]; cbn; [done|]. by destruct (bool_decide (pk x = id)).
Qed.
Lemma delete_row_sublist t id : ∀ r, r ∈ delete_row t id → r ∈ t.
Proof. intros r Hr. apply list_elem_of_In. apply list_elem_of_In, filter_In in Hr. tauto. Qed.
Lemma NoDup_delete_row {B} (g : A → B) t id :
  NoDup (map g t) → NoDup (map g (delete_row t id)).
Proof.
  induction t as [|x t IH]; cbn; [done|]. intros [Hx Ht]%NoDup_cons.
  unfold delete_row in *. cbn. destruct (bool_decide (pk x = id)); cbn; [by apply IH|].
  apply NoDup_cons. split; [|by apply IH]. contradict Hx.
  apply list_elem_of_In, in_map_iff in Hx as (y & Hy & Hin). rewrite <- Hy.
  apply list_elem_of_In, in_map. apply filter_In in Hin. tauto.
Qed.
Lemma NoDup_snoc {B} (l : list B) (x : B) : NoDup l → x ∉ l → NoDup (l ++ [x])%list.
Proof.
  intros Hl Hx. apply NoDup_app. split_and!; [done| |apply NoDup_singleton].
  intros y Hy Hyx. apply list_elem_of_singleton in Hyx. by subst.
Qed.

(** [ORDER BY] only reorders, and puts the rows in order. *)
Lemma order_insert_perm le (x : A) l : order_insert le x l ≡ₚ x :: l.
Proof.
  induction l as [|y l IH]; cbn; [done|]. case_if; [done|]. rewrite IH. apply Permutation_swap.
Qed.
Lemma order_by_perm le (l : list A) : order_by le l ≡ₚ l.
Proof. induction l as [|x l IH]; cbn; [done|]. by rewrite order_insert_perm, IH. Qed.
Lemma elem_of_order_by le (l : list A) (x : A) : x ∈ order_by le l ↔ x ∈ l.
Proof. by rewrite order_by_perm. Qed.
Lemma order_by_length le (l : list A) : length (order_by le l) = length l.
Proof. by rewrite order_by_perm. Qed.
End TableLemmas.

(** A list already in order is left alone. *)
Lemma order_by_sorted {A} (le : A → A → bool) (l : list A) :
  StronglySorted (λ a b, le a b = true) l → order_by le l = l.
Proof.
  induction 1 as [|x l Hs IH Hx]; [done|].
  change (order_insert le x (order_by le l) = x :: l). rewrite IH.
  destruct l as [|y l]; cbn; [done|]. inversion Hx as [|?? Hy]; subst. by rewrite Hy.
Qed.

(** ** Lemmas: statements move the database along a relation *)

(** A relation on databases, read on worlds. *)
Definition dbR (R : relation DB) : relation World := λ w w', R (w_db w) (w_db w').
#[global] Instance dbR_preorder R : PreOrder R → PreOrder (dbR R).
Proof.
  intros [Hr Ht]. split; [intros w; apply Hr|].
  intros a b c Hab Hbc. unfold dbR in *. eapply Ht; eassumption.
Qed.

Section Frames.
Context (O : Oracle) (R : relation DB) `{!PreOrder R}.

Lemma stays_now : stays (dbR R) (now O).
Proof. intros w. unfold dbR. cbn. reflexivity. Qed.
Lemma stays_new_uuid : stays (dbR R) (new_uuid O).
Proof. intros w. unfold dbR. cbn. reflexivity. Qed.
Lemma stays_exec {A} (f : DB → result StoreErr (A * DB)) :
  (∀ db a db', f db = Ok (a, db') → R db db') → stays (dbR R) (exec O f).
Proof.
  intros Hf w. unfold exec, dbR. destruct (o_fault O (w_tick w)); cbn; [reflexivity|].
  destruct (f (w_db w)) as [[a db]|e] eqn:E; cbn; [by eapply Hf|reflexivity].
Qed.
Lemma stays_query {A} (f : DB → result StoreErr A) : stays (dbR R) (query O f).
Proof.
  apply stays_exec. intros db a db'. destruct (f db); [|done]. intros [= _ <-]. reflexivity.
Qed.
End Frames.
#[export] Hint Resolve stays_now stays_new_uuid stays_query : stays.

(** Unfold a store call into its statements; what is left is one obligation per
    statement that writes.  [stays_with] tries the caller's rule first. *)
Ltac stays_with tac :=
  repeat first
    [ tac
    | apply stays_if
    | apply stays_bind; [exact _| |intros ?]
    | apply stays_fail; exact _ | apply stays_ret; exact _ | apply stays_lift; exact _
    | apply stays_now; exact _ | apply stays_new_uuid; exact _ | apply stays_query; exact _
    | apply stays_wrap
    | apply stays_exec; [exact _|] ].
Ltac stays_statements := stays_with fail.

(** What a successful query or statement says. *)
Lemma exec_Ok O {A} (f : DB → result StoreErr (A * DB)) w a w' :
  exec O f w = (Ok a, w') → ∃ db', f (w_db w) = Ok (a, db') ∧ w_db w' = db'.
Proof.
  unfold exec. destruct (o_fault O (w_tick w)); [done|].
  destruct (f (w_db w)) as [[x db]|e]; [|done]. intros [= -> <-]. by exists db.
Qed.
Lemma query_Ok O {A} (f : DB → result StoreErr A) w a w' :
  query O f w = (Ok a, w') → f (w_db w) = Ok a ∧ w_db w' = w_db w.
Proof.
  unfold query. intros (db' & Hf & Hdb)%exec_Ok. destruct (f (w_db w)); [|done].
  by injection Hf as -> ->.
Qed.

(** ** The invariant of the loop tables *)

Record db_wf (db : DB) : Prop := {
  wf_goal_keys : NoDup (map goal_ID (goals db));
  wf_run_keys : NoDup (map lr_ID (loop_runs db));
  wf_iter_keys : NoDup (map it_ID (loop_run_iterations db));
  wf_iter_seq : NoDup (map (λ i, (it_LoopRunID i, IterationNumber i)) (loop_run_iterations db));
  wf_goal_status : Forall (λ g, goal_Status g ∈ validGoalStatuses) (goals db);
  wf_run_status : Forall (λ r, lr_Status r ∈ validLoopRunStatuses) (loop_runs db);
  wf_run_goal : Forall (λ r, lr_GoalID r ∈ map goal_ID (goals db)) (loop_runs db);
  wf_evidence_goal : Forall (λ e, ev_GoalID e ∈ map goal_ID (goals db)) (goal_evidence db);
  wf_evidence_ref :
    Forall (λ e, EvidenceType e ∈ validGoalEvidenceTypes ∧ RefTable e ≠ "" ∧ RefID e ≠ "")
      (goal_evidence db);
  wf_iter_run : Forall (λ i, it_LoopRunID i ∈ map lr_ID (loop_runs db)) (loop_run_iterations db);
  wf_iter_decision :
    Forall (λ i, (it_Decision i = "" ∨ it_Decision i ∈ validLoopRunIterationDecisions) ∧
                 (ProgressState i = "" ∨ ProgressState i ∈ validLoopRunIterationProgressStates))
      (loop_run_iterations db);
}.

Definition wf_kept : relation DB := λ db db', db_wf db → db_wf db'.
#[global] Instance wf_kept_preorder : PreOrder wf_kept.
Proof. split; unfold wf_kept; [by intros ?|]. intros a b c. auto. Qed.

Lemma validate_in_Ok what s l : validate_in what s l = Ok tt → s ∈ l.
Proof. unfold validate_in. case_bool_decide; done. Qed.
Lemma Forall_snoc {A} (P : A → Prop) l x : Forall P l → P x → Forall P (l ++ [x])%list.
Proof. intros ? ?. apply Forall_app. split; [done|]. by constructor. Qed.
Lemma Forall_delete_row {A} `{Keyed A} (P : A → Prop) (t : list A) id :
  Forall P t → Forall P (delete_row t id).
Proof. rewrite !Forall_forall. intros Ht r Hr. apply Ht. by eapply delete_row_sublist. Qed.
Lemma map_snoc {A B} (f : A → B) l x : map f (l ++ [x])%list = (map f l ++ [f x])%list.
Proof. apply map_app. Qed.

(** A table that only grows keeps what points into it. *)
Lemma Forall_key_snoc {A} (P : A → string) (l : list A) keys k :
  Forall (λ r, P r ∈ keys) l → Forall (λ r, P r ∈ (keys ++ [k])%list) l.
Proof. intros Hl. eapply Forall_impl; [exact Hl|]. intros r ?. set_solver. Qed.

(** Each updater of [loop_runs] keeps the key, the goal and, but for the status
    updater, the status. *)
Lemma wf_update_loop_run db id f :
  (∀ r, lr_ID (f r) = lr_ID r) → (∀ r, lr_GoalID (f r) = lr_GoalID r) →
  (∀ r, lr_Status r ∈ validLoopRunStatuses → lr_Status (f r) ∈ validLoopRunStatuses) →
  db_wf db → db_wf (set_loop_runs db (update_row (loop_runs db) id f)).
Proof.
  intros Hid Hgoal Hst []. split; cbn; try done.
  - by rewrite (update_row_map lr_ID).
  - by apply Forall_update_row.
  - apply Forall_update_row; [done|]. intros r. by rewrite Hgoal.
  - by rewrite (update_row_map lr_ID).
Qed.
Lemma wf_update_iteration db id f :
  (∀ r, it_ID (f r) = it_ID r) → (∀ r, it_LoopRunID (f r) = it_LoopRunID r) →
  (∀ r, IterationNumber (f r) = IterationNumber r) →
  (∀ r, it_Decision (f r) ∈ validLoopRunIterationDecisions ∧
        ProgressState (f r) ∈ validLoopRunIterationProgressStates) →
  db_wf db → db_wf (set_iterations db (update_row (loop_run_iterations db) id f)).
Proof.
  intros Hid Hrun Hn Hd []. split; cbn; try done.
  - by rewrite (update_row_map it_ID).
  - rewrite (update_row_map (λ i, (it_LoopRunID i, IterationNumber i))); [done|].
    intros r. by rewrite Hrun, Hn.
  - apply Forall_update_row; [done|]. intros r. by rewrite Hrun.
  - apply Forall_update_row; [done|]. intros r _. destruct (Hd r). by split; right.
Qed.
Lemma wf_update_goal db id f :
  (∀ g, goal_ID (f g) = goal_ID g) →
  (∀ g, goal_Status g ∈ validGoalStatuses → goal_Status (f g) ∈ validGoalStatuses) →
  db_wf db → db_wf (set_goals db (update_row (goals db) id f)).
Proof.
  intros Hid Hst []. split; cbn; try rewrite (update_row_map goal_ID) by done; try done.
  by apply Forall_update_row.
Qed.

Section Invariant.
Context `{JSON (list string)} `{JSON Budget} `{JSON Evaluation}.
Context (O : Oracle).

Lemma CreateGoal_wf g : stays (dbR wf_kept) (CreateGoal O g).
Proof.
  unfold CreateGoal. apply stays_if; [stays_statements|].
  apply stays_bind; [exact _|stays_statements|intros id].
  apply stays_bind_lift; [exact _|]. intros [] Hst%validate_in_Ok.
  apply stays_bind; [exact _|stays_statements|intros t]. apply stays_exec; [exact _|].
  intros db ? db'. case_if; [done|]. apply orb_false_iff in Hif as [Hid%has_row_false _].
  intros [= _ <-] []. split; cbn; rewrite ?map_snoc; try done.
  - by apply NoDup_snoc.
  - by apply Forall_snoc.
  - by apply (Forall_key_snoc lr_GoalID).
  - by apply (Forall_key_snoc ev_GoalID).
Qed.

Lemma UpdateGoal_wf g : stays (dbR wf_kept) (UpdateGoal O g).
Proof.
  unfold UpdateGoal. stays_statements. intros db ? db'. case_if; [done|]. case_if; [done|].
  intros [= _ <-]. unfold wf_kept. by apply wf_update_goal.
Qed.

Lemma UpdateGoalStatus_wf id st : stays (dbR wf_kept) (UpdateGoalStatus O id st).
Proof.
  unfold UpdateGoalStatus. apply stays_bind_lift; [exact _|]. intros [] Hst%validate_in_Ok.
  stays_statements. intros db ? db'. case_if; [|done]. intros [= _ <-]. unfold wf_kept.
  by apply wf_update_goal.
Qed.

(** Nothing points at a row that is not referenced. *)
Lemma goal_unreferenced db id :
  goal_referenced db id = false →
  (∀ e, e ∈ goal_evidence db → ev_GoalID e ≠ id) ∧ (∀ r, r ∈ loop_runs db → lr_GoalID r ≠ id).
Proof.
  unfold goal_referenced. rewrite !orb_false_iff. intros [[_ He] Hr]. split.
  - intros e Hin Hid. apply list_elem_of_In in Hin. apply not_true_iff_false in He. apply He.
    apply existsb_exists. exists e. split; [done|]. by apply bool_decide_eq_true.
  - intros r Hin Hid. apply list_elem_of_In in Hin. apply not_true_iff_false in Hr. apply Hr.
    apply existsb_exists. exists r. split; [done|]. by apply bool_decide_eq_true.
Qed.
Lemma elem_of_keys_delete {A} `{Keyed A} (t : list A) id k :
  k ∈ map pk t → k ≠ id → k ∈ map pk (delete_row t id).
Proof.
  intros (r & Hr & Hin)%list_elem_of_In%in_map_iff Hne. rewrite <- Hr.
  apply list_elem_of_In, in_map, filter_In. split; [done|].
  rewrite bool_decide_eq_false_2; [done|]. by rewrite Hr.
Qed.
Lemma DeleteGoal_wf id : stays (dbR wf_kept) (DeleteGoal O id).
Proof.
  unfold DeleteGoal. stays_statements. intros db ? db'. case_if; [done|].
  destruct (goal_referenced db id) eqn:Href; [done|]. apply goal_unreferenced in Href as [He Hr].
  intros [= _ <-] []. split; cbn; try done.
  - by apply NoDup_delete_row.
  - by apply Forall_delete_row.
  - rewrite Forall_forall in *. intros r Hin. apply (elem_of_keys_delete (goals db)); auto.
  - rewrite Forall_forall in *. intros e Hin. apply (elem_of_keys_delete (goals db)); auto.
Qed.

Lemma validateGoalEvidence_Ok e :
  validateGoalEvidence e = Ok tt →
  EvidenceType e ∈ validGoalEvidenceTypes ∧ RefTable e ≠ "" ∧ RefID e ≠ "".
Proof.
  unfold validateGoalEvidence. intros Hv. repeat case_if_in Hv; try done.
  apply negb_false_iff in Hif0. b2p. done.
Qed.
Lemma RecordGoalEvidence_wf e : stays (dbR wf_kept) (RecordGoalEvidence O e).
Proof.
  unfold RecordGoalEvidence. apply stays_bind_lift; [exact _|]. intros [] Hv.
  stays_statements. intros db ? db'. case_if; [done|].
  apply orb_false_iff in Hif as [_ Hg%negb_false_iff%has_row_elem].
  intros [= _ <-] []. split; cbn; try done.
  - by apply Forall_snoc.
  - apply Forall_snoc; [done|]. by apply validateGoalEvidence_Ok.
Qed.
Lemma DeleteGoalEvidence_wf id : stays (dbR wf_kept) (DeleteGoalEvidence O id).
Proof.
  unfold DeleteGoalEvidence. stays_statements. intros db ? db'. case_if; [|done].
  intros [= _ <-] []. split; cbn; try done; by apply Forall_delete_row.
Qed.

Lemma CreateLoopRun_wf lr : stays (dbR wf_kept) (CreateLoopRun O lr).
Proof.
  unfold CreateLoopRun. apply stays_if; [stays_statements|].
  apply stays_if; [stays_statements|].
  apply stays_bind; [exact _|stays_statements|intros id].
  apply stays_bind_lift; [exact _|]. intros [] Hst%validate_in_Ok. stays_statements.
  intros db ? db'. case_if; [done|].
  apply orb_false_iff in Hif as [Hid%has_row_false Hg%negb_false_iff%has_row_elem].
  intros [= _ <-] []. split; cbn; rewrite ?map_snoc; try done.
  - by apply NoDup_snoc.
  - by apply Forall_snoc.
  - by apply Forall_snoc.
  - by apply (Forall_key_snoc it_LoopRunID).
Qed.

Lemma UpdateLoopRunStatus_wf id st c : stays (dbR wf_kept) (UpdateLoopRunStatus O id st c).
Proof.
  unfold UpdateLoopRunStatus, update_loop_run. apply stays_bind_lift; [exact _|].
  intros [] Hst%validate_in_Ok. stays_statements. intros db ? db'. case_if; [|done].
  intros [= _ <-]. unfold wf_kept. by apply wf_update_loop_run.
Qed.
Lemma BumpLoopRunIteration_wf id : stays (dbR wf_kept) (BumpLoopRunIteration O id).
Proof.
  unfold BumpLoopRunIteration, update_loop_run. stays_statements. intros db ? db'. case_if; [|done].
  intros [= _ <-]. unfold wf_kept. by apply wf_update_loop_run.
Qed.
Lemma UpdateLoopRunNoProgressStreak_wf id n :
  stays (dbR wf_kept) (UpdateLoopRunNoProgressStreak O id n).
Proof.
  unfold UpdateLoopRunNoProgressStreak, update_loop_run. stays_statements.
  intros db ? db'. case_if; [|done].
  intros [= _ <-]. unfold wf_kept. by apply wf_update_loop_run.
Qed.
Lemma UpdateLoopRunDefinitionName_wf id n : stays (dbR wf_kept) (UpdateLoopRunDefinitionName O id n).
Proof.
  unfold UpdateLoopRunDefinitionName, update_loop_run. stays_statements.
  intros db ? db'. case_if; [|done].
  intros [= _ <-]. unfold wf_kept. by apply wf_update_loop_run.
Qed.
Lemma DeleteLoopRun_wf id : stays (dbR wf_kept) (DeleteLoopRun O id).
Proof.
  unfold DeleteLoopRun. stays_statements. intros db ? db'. case_if; [done|].
  destruct (loop_run_referenced db id) eqn:Href; [done|].
  apply orb_false_iff in Href as [Href _].
  intros [= _ <-] []. split; cbn; try done.
  - by apply NoDup_delete_row.
  - by apply Forall_delete_row.
  - by apply Forall_delete_row.
  - rewrite Forall_forall in *. intros i Hin. apply (elem_of_keys_delete (loop_runs db)); [auto|].
    intros Hid. apply not_true_iff_false in Href. apply Href, existsb_exists. exists i.
    split; [by apply list_elem_of_In|]. by apply bool_decide_eq_true.
Qed.

Lemma iteration_fits_spec db row :
  iteration_fits db row = true →
  (it_ID row ∉ map it_ID (loop_run_iterations db)) ∧
  (it_LoopRunID row ∈ map lr_ID (loop_runs db)) ∧
  ((it_LoopRunID row, IterationNumber row) ∉
    map (λ i, (it_LoopRunID i, IterationNumber i)) (loop_run_iterations db)).
Proof.
  unfold iteration_fits. rewrite !andb_true_iff.
  intros [[[Hid%negb_true_iff%has_row_false Hrun%has_row_elem] _] Hseq%negb_true_iff].
  split_and!; [done|done|]. intros (i & Hi & Hin)%list_elem_of_In%in_map_iff.
  apply not_true_iff_false in Hseq. apply Hseq, existsb_exists. exists i. split; [done|].
  injection Hi as -> ->. by rewrite !bool_decide_eq_true_2.
Qed.
(** A column that is validated only when it is set. *)
Lemma stays_optional {W E B} (R : relation W) `{!PreOrder R} (s : string) (r : result E unit)
    (k : unit → act W E B) :
  (s = "" ∨ r = Ok tt → stays R (k tt)) →
  stays R ((if bool_decide (s = "") then mret tt else lift r) ≫= k).
Proof.
  intros Hk. case_bool_decide as Hs.
  - apply stays_bind; [exact _|apply stays_ret; exact _|]. intros []. auto.
  - apply stays_bind_lift; [exact _|]. intros [] ?. auto.
Qed.
Lemma CreateLoopRunIteration_wf li : stays (dbR wf_kept) (CreateLoopRunIteration O li).
Proof.
  unfold CreateLoopRunIteration. apply stays_if; [stays_statements|].
  apply stays_optional; [exact _|]. intros Hd. apply stays_optional; [exact _|]. intros Hp.
  stays_statements. intros db ? db'. destruct (iteration_fits db _) eqn:Hf; [|done].
  apply iteration_fits_spec in Hf as (Hid & Hrun & Hseq). cbn in Hid, Hrun, Hseq.
  intros [= _ <-] []. split; cbn; rewrite ?map_snoc; try done.
  - by apply NoDup_snoc.
  - by apply NoDup_snoc.
  - by apply Forall_snoc.
  - apply Forall_snoc; [done|]. cbn.
    split; [destruct Hd as [?|Hd%validate_in_Ok]|destruct Hp as [?|Hp%validate_in_Ok]]; tauto.
Qed.
Lemma CompleteLoopRunIteration_wf id wr d p e :
  stays (dbR wf_kept) (CompleteLoopRunIteration O id wr d p e).
Proof.
  unfold CompleteLoopRunIteration. apply stays_if; [stays_statements|].
  apply stays_bind_lift; [exact _|]. intros [] Hd%validate_in_Ok.
  apply stays_bind_lift; [exact _|]. intros [] Hp%validate_in_Ok. stays_statements.
  intros db ? db'. case_if; [done|]. case_if; [done|].
  intros [= _ <-]. unfold wf_kept. by apply wf_update_iteration.
Qed.
Lemma UpdateWorkflowRunLoopScope_wf id lr n : stays (dbR wf_kept) (UpdateWorkflowRunLoopScope O id lr n).
Proof.
  unfold UpdateWorkflowRunLoopScope. stays_statements. intros db ? db'. case_if; [done|].
  case_if; [done|]. intros [= _ <-] []. by split.
Qed.
End Invariant.

(** ** The store as a transition system *)

(** Every call that writes a loop table, and the workflow host's own insert of a
    workflow run. *)
Inductive store_op :=
| SCreateGoal (g : Goal)
| SUpdateGoal (g : Goal)
| SUpdateGoalStatus (id status : string)
| SDeleteGoal (id : string)
| SRecordGoalEvidence (e : GoalEvidence)
| SDeleteGoalEvidence (id : string)
| SCreateLoopRun (lr : LoopRun)
| SUpdateLoopRunStatus (id status : string) (completedAt : option string)
| SBumpLoopRunIteration (id : string)
| SUpdateLoopRunNoProgressStreak (id : string) (streak : Z)
| SUpdateLoopRunDefinitionName (id name : string)
| SDeleteLoopRun (id : string)
| SCreateLoopRunIteration (li : LoopRunIteration)
| SCompleteLoopRunIteration (id wr decision progress : string) (e : Evaluation)
| SUpdateWorkflowRunLoopScope (id lr : string) (n : Z)
| SWorkflowRunCreated (row : WorkflowRun).

Section Runs.
Context `{JSON (list string)} `{JSON Budget} `{JSON Evaluation}.
Context (O : Oracle).

(** The world after a call, whether it succeeded or not. *)
Definition store_step (w : World) (o : store_op) : World :=
  match o with
  | SCreateGoal g => (CreateGoal O g w).2
  | SUpdateGoal g => (UpdateGoal O g w).2
  | SUpdateGoalStatus id st => (UpdateGoalStatus O id st w).2
  | SDeleteGoal id => (DeleteGoal O id w).2
  | SRecordGoalEvidence e => (RecordGoalEvidence O e w).2
  | SDeleteGoalEvidence id => (DeleteGoalEvidence O id w).2
  | SCreateLoopRun lr => (CreateLoopRun O lr w).2
  | SUpdateLoopRunStatus id st c => (UpdateLoopRunStatus O id st c w).2
  | SBumpLoopRunIteration id => (BumpLoopRunIteration O id w).2
  | SUpdateLoopRunNoProgressStreak id n => (UpdateLoopRunNoProgressStreak O id n w).2
  | SUpdateLoopRunDefinitionName id n => (UpdateLoopRunDefinitionName O id n w).2
  | SDeleteLoopRun id => (DeleteLoopRun O id w).2
  | SCreateLoopRunIteration li => (CreateLoopRunIteration O li w).2
  | SCompleteLoopRunIteration id wr d p e => (CompleteLoopRunIteration O id wr d p e w).2
  | SUpdateWorkflowRunLoopScope id lr n => (UpdateWorkflowRunLoopScope O id lr n w).2
  | SWorkflowRunCreated row =>
      mkWorld (set_workflow_runs (w_db w) (workflow_runs (w_db w) ++ [row])%list) (w_tick w)
  end.
Definition run_store (w : World) (ops : list store_op) : World := fold_left store_step ops w.

Lemma run_store_stays (R : relation DB) `{!PreOrder R} (ok : store_op → Prop) w ops :
  (∀ w o, ok o → R (w_db w) (w_db (store_step w o))) → Forall ok ops →
  R (w_db w) (w_db (run_store w ops)).
Proof.
  intros Hstep. revert w. induction ops as [|o ops IH]; intros w; cbn; [reflexivity|].
  intros [Ho Hops]%Forall_cons. etransitivity; [by apply Hstep|by apply IH].
Qed.

Lemma store_step_wf w o : wf_kept (w_db w) (w_db (store_step w o)).
Proof.
  destruct o; cbn.
  - apply CreateGoal_wf.
  - apply UpdateGoal_wf.
  - apply UpdateGoalStatus_wf.
  - apply DeleteGoal_wf.
  - apply RecordGoalEvidence_wf.
  - apply DeleteGoalEvidence_wf.
  - apply CreateLoopRun_wf.
  - apply UpdateLoopRunStatus_wf.
  - apply BumpLoopRunIteration_wf.
  - apply UpdateLoopRunNoProgressStreak_wf.
  - apply UpdateLoopRunDefinitionName_wf.
  - apply DeleteLoopRun_wf.
  - apply CreateLoopRunIteration_wf.
  - apply CompleteLoopRunIteration_wf.
  - apply UpdateWorkflowRunLoopScope_wf.
  - intros []. by split.
Qed.

(** ** Lemmas: goals keep their stamps *)

(** The row survives; its creation time and any stamp already set survive too. *)
Definition stamps_kept (db db' : DB) : Prop :=
  ∀ id g, find_row (goals db) id = Some g →
  ∃ g', find_row (goals db') id = Some g' ∧ CreatedAt g' = CreatedAt g ∧
    (ActivatedAt g ≠ "" → ActivatedAt g' = ActivatedAt g) ∧
    (goal_CompletedAt g ≠ "" → goal_CompletedAt g' = goal_CompletedAt g).
#[global] Instance stamps_kept_preorder : PreOrder stamps_kept.
Proof.
  split.
  - intros db id g Hg. exists g. done.
  - intros a b c Hab Hbc id g Hg. destruct (Hab _ _ Hg) as (g1 & Hg1 & ? & Ha & Hc).
    destruct (Hbc _ _ Hg1) as (g2 & Hg2 & ? & Ha' & Hc'). exists g2. split; [done|].
    split; [congruence|]. split.
    + intros Hne. rewrite <- (Ha Hne). apply Ha'. by rewrite Ha.
    + intros Hne. rewrite <- (Hc Hne). apply Hc'. by rewrite Hc.
Qed.

Lemma stamps_kept_goals db db' : goals db' = goals db → stamps_kept db db'.
Proof. intros Heq id g Hg. rewrite Heq. by exists g. Qed.
Lemma stamps_kept_update db id f :
  (∀ g, goal_ID (f g) = goal_ID g ∧ CreatedAt (f g) = CreatedAt g ∧
        (ActivatedAt g ≠ "" → ActivatedAt (f g) = ActivatedAt g) ∧
        (goal_CompletedAt g ≠ "" → goal_CompletedAt (f g) = goal_CompletedAt g)) →
  stamps_kept db (set_goals db (update_row (goals db) id f)).
Proof.
  intros Hf id' g Hg. cbn [goals set_goals]. destruct (decide (id' = id)) as [->|Hne].
  - exists (f g). split; [|apply Hf]. apply find_update_same; [|done]. intros x. apply (Hf x).
  - exists g. rewrite find_update_other; [done| |done]. intros x. apply (Hf x).
Qed.

Lemma stays_at {E A} (R : relation DB) (m : act World E A) w :
  stays (dbR R) m → R (w_db w) (w_db (m w).2).
Proof. intros Hm. apply (Hm w). Qed.

(** A statement that does not write [goals]. *)
Ltac leaves_goals :=
  stays_statements; intros ?db ? ?db'; repeat case_if; try done;
  intros [= _ <-]; by apply stamps_kept_goals.

Lemma store_step_stamps w o :
  (∀ id, o ≠ SDeleteGoal id) → stamps_kept (w_db w) (w_db (store_step w o)).
Proof.
  intros Hdel. destruct o; cbn; [..|by apply stamps_kept_goals].
  - apply stays_at. unfold CreateGoal.
    stays_statements. intros db ? db'. case_if; [done|]. intros [= _ <-] id g' Hg'.
    exists g'. cbn [goals set_goals]. by rewrite find_app_new, Hg'.
  - apply stays_at. unfold UpdateGoal.
    stays_statements. intros db ? db'. repeat case_if; try done. intros [= _ <-].
    by apply stamps_kept_update.
  - apply stays_at. unfold UpdateGoalStatus.
    stays_statements. intros db ? db'. repeat case_if; try done. intros [= _ <-].
    apply stamps_kept_update. intros g. cbn. split_and!; try done; intros Hne;
      repeat case_bool_decide; unfold or_default; by rewrite ?bool_decide_eq_false_2 by done.
  - by destruct (Hdel id).
  - apply stays_at. unfold RecordGoalEvidence. leaves_goals.
  - apply stays_at. unfold DeleteGoalEvidence. leaves_goals.
  - apply stays_at. unfold CreateLoopRun. leaves_goals.
  - apply stays_at. unfold UpdateLoopRunStatus, update_loop_run. leaves_goals.
  - apply stays_at. unfold BumpLoopRunIteration, update_loop_run. leaves_goals.
  - apply stays_at. unfold UpdateLoopRunNoProgressStreak, update_loop_run. leaves_goals.
  - apply stays_at. unfold UpdateLoopRunDefinitionName, update_loop_run. leaves_goals.
  - apply stays_at. unfold DeleteLoopRun. leaves_goals.
  - apply stays_at. unfold CreateLoopRunIteration. leaves_goals.
  - apply stays_at. unfold CompleteLoopRunIteration. leaves_goals.
  - apply stays_at. unfold UpdateWorkflowRunLoopScope. leaves_goals.
Qed.
End Runs.

(** ** Lemmas: goal evidence *)

Section Evidence.
Context `{JSON (list string)} `{JSON Budget} `{JSON Evaluation}.
Context (O : Oracle).

Lemma missing_none items covered :
  length (missingFromCoverage items covered) = 0 ↔ ∀ item, item ∈ items → item ∈ covered.
Proof.
  unfold missingFromCoverage. rewrite length_zero_iff_nil. split.
  - intros Hnil item Hin. apply dec_stable. intros Hn.
    assert (item ∈ List.filter (λ item, negb (bool_decide (item ∈ covered))) items) as Hf.
    { apply list_elem_of_In, filter_In. split; [by apply list_elem_of_In|].
      by rewrite bool_decide_eq_false_2. }
    rewrite Hnil in Hf. set_solver.
  - intros Hall. induction items as [|x items IH]; cbn; [done|].
    rewrite bool_decide_eq_true_2 by (apply Hall; set_solver). apply IH. intros y Hy.
    apply Hall. set_solver.
Qed.

Lemma elem_of_covered_by evidence item :
  item ∈ covered_by evidence ↔ item ≠ "" ∧ ∃ e, e ∈ evidence ∧ Summary e = item.
Proof.
  unfold covered_by. rewrite elem_of_list_to_set, list_elem_of_In, filter_In, in_map_iff.
  rewrite negb_true_iff, bool_decide_eq_false. setoid_rewrite list_elem_of_In. naive_solver.
Qed.

Lemma elem_of_evidence_rows db goalID e :
  e ∈ evidence_rows db goalID (mkGoalEvidenceFilter "" "") ↔
  e ∈ goal_evidence db ∧ ev_GoalID e = goalID.
Proof.
  unfold evidence_rows. rewrite elem_of_order_by, !list_elem_of_In, filter_In. cbn.
  rewrite !andb_true_r. by rewrite bool_decide_eq_true.
Qed.

(** A goal's evidence, as the specification reads it: something is recorded, and
    every named item is the summary of a recorded row. *)
Definition evidence_covers (db : DB) (goalID : string) (items : list string) : Prop :=
  (∃ e, e ∈ goal_evidence db ∧ ev_GoalID e = goalID) ∧
  ∀ item, item ∈ items →
    item ≠ "" ∧ ∃ e, e ∈ goal_evidence db ∧ ev_GoalID e = goalID ∧ Summary e = item.

Lemma evaluate_lists_met db goalID criteria constraints invariants :
  GoalMet (evaluate_lists (evidence_rows db goalID (mkGoalEvidenceFilter "" ""))
             criteria constraints invariants) = true ↔
  evidence_covers db goalID (criteria ++ constraints ++ invariants)%list.
Proof.
  unfold evaluate_lists, evidence_covers. cbn. rewrite !andb_true_iff, !bool_decide_eq_true, !missing_none.
  setoid_rewrite elem_of_covered_by. setoid_rewrite elem_of_evidence_rows.
  setoid_rewrite elem_of_app. setoid_rewrite elem_of_app.
  assert (0 < length (evidence_rows db goalID (mkGoalEvidenceFilter "" "")) ↔
          ∃ e, e ∈ goal_evidence db ∧ ev_GoalID e = goalID) as ->; [|naive_solver].
  setoid_rewrite <- elem_of_evidence_rows.
  destruct (evidence_rows db goalID _) as [|e l]; cbn; split; intros Hx; try lia; try set_solver.
Qed.

Lemma EvaluateGoalEvidence_Ok goalID w ev rows w' :
  EvaluateGoalEvidence O goalID w = (Ok (ev, rows), w') →
  w_db w' = w_db w ∧
  ∃ g criteria constraints invariants,
    find_row (goals (w_db w)) goalID = Some g ∧ AcceptanceCriteria g = Ok criteria ∧
    Constraints g = Ok constraints ∧ Invariants g = Ok invariants ∧
    rows = evidence_rows (w_db w) goalID (mkGoalEvidenceFilter "" "") ∧
    ev = evaluate_lists rows criteria constraints invariants.
Proof.
  unfold EvaluateGoalEvidence.
  intros (g & w1 & [Hg Hw1]%query_Ok & Hk)%bind_Ok.
  apply bind_Ok in Hk as (rs & w2 & [[= Hrs] Hw2]%query_Ok & Hk).
  apply bind_Ok in Hk as (c1 & w3 & [Hc1 ->]%lift_Ok & Hk).
  apply bind_Ok in Hk as (c2 & w4 & [Hc2 ->]%lift_Ok & Hk).
  apply bind_Ok in Hk as (c3 & w5 & [Hc3 ->]%lift_Ok & Hk).
  apply mret_Ok in Hk as [[= -> ->] ->]. rewrite Hw1 in Hrs. split; [congruence|].
  exists g, c1, c2, c3. destruct (find_row (goals (w_db w)) goalID); [|done].
  injection Hg as ->. split_and!; try done. all: by subst.
Qed.

Lemma EvidenceSatisfiesGoal_Ok goalID w b rows w' :
  EvidenceSatisfiesGoal O goalID w = (Ok (b, rows), w') →
  w_db w' = w_db w ∧
  ∃ g criteria constraints invariants,
    find_row (goals (w_db w)) goalID = Some g ∧ AcceptanceCriteria g = Ok criteria ∧
    Constraints g = Ok constraints ∧ Invariants g = Ok invariants ∧
    (b = true ↔ evidence_covers (w_db w) goalID (criteria ++ constraints ++ invariants)%list).
Proof.
  unfold EvidenceSatisfiesGoal. intros ([ev rs] & w1 & He & [[= -> ->] ->]%mret_Ok)%bind_Ok.
  apply EvaluateGoalEvidence_Ok in He as (Hdb & g & c1 & c2 & c3 & Hg & Hc1 & Hc2 & Hc3 & -> & ->).
  split; [done|]. exists g, c1, c2, c3. split_and!; try done. apply evaluate_lists_met.
Qed.

(** Recording evidence adds a row or nothing, and leaves the goals alone. *)
Lemma RecordGoalEvidence_grows e w :
  let db := w_db w in let db' := w_db (RecordGoalEvidence O e w).2 in
  goals db' = goals db ∧ ∀ x, x ∈ goal_evidence db → x ∈ goal_evidence db'.
Proof.
  cbn. apply (stays_at (λ db db', goals db' = goals db ∧ ∀ x, x ∈ goal_evidence db → x ∈ goal_evidence db')).
  assert (PreOrder (λ db db' : DB, goals db' = goals db ∧
            ∀ x, x ∈ goal_evidence db → x ∈ goal_evidence db')) as Hpre.
  { split; [by intros ?|]. intros a b c [? ?] [? ?]. split; [congruence|auto]. }
  unfold RecordGoalEvidence. stays_statements. intros db ? db'. case_if; [done|].
  intros [= _ <-]. cbn. split; [done|]. set_solver.
Qed.

Lemma evidence_covers_mono db db' goalID items :
  (∀ x, x ∈ goal_evidence db → x ∈ goal_evidence db') →
  evidence_covers db goalID items → evidence_covers db' goalID items.
Proof. unfold evidence_covers. naive_solver. Qed.

(** ** Lemmas: the budget column *)

Lemma validateBudget_Ok b :
  validateBudget b = Ok tt →
  (OnExhausted b = "escalate" ∨ OnExhausted b = "fail") ∧
  (0 ≤ MaxIterations b ∧ 0 ≤ MaxFailures b ∧ 0 ≤ MaxRuntimeSeconds b ∧
   0 ≤ MaxNoProgressIterations b)%Z.
Proof.
  unfold validateBudget. case_if; [done|]. case_if; [done|]. intros _.
  rewrite !orb_false_iff in Hif0. apply andb_false_iff in Hif.
  rewrite !negb_false_iff, !bool_decide_eq_true in Hif.
  destruct Hif0 as [[[?%Z.ltb_ge ?%Z.ltb_ge] ?%Z.ltb_ge] ?%Z.ltb_ge]. split_and!; done.
Qed.
End Evidence.

(** ** A concrete encoding, for the witnesses *)

(** Positive numbers as words over three letters. *)
Fixpoint pos_word (p : positive) : string :=
  match p with
  | xH => String "h" EmptyString
  | xO q => String "o" (pos_word q)
  | xI q => String "i" (pos_word q)
  end.
Fixpoint word_pos (s : string) : option positive :=
  match s with
  | String "h" EmptyString => Some xH
  | String "o" s' => xO <$> word_pos s'
  | String "i" s' => xI <$> word_pos s'
  | _ => None
  end.
Lemma word_pos_word p : word_pos (pos_word p) = Some p.
Proof. induction p as [p IH|p IH|]; cbn; by rewrite ?IH. Qed.

(** Any countable type has an encoding with the laws the code relies on. *)
Definition word_json (A : Type) `{Countable A} : JSON A := {|
  marshal a := Some (pos_word (encode a));
  unmarshal s := word_pos s ≫= decode;
|}.
Lemma word_json_laws A `{Countable A} unset :
  (∀ p, pos_word p ≠ unset) → @JSONLaws A (word_json A) unset.
Proof.
  intros Hunset. split.
  - intros a s [= <-]. cbn. rewrite word_pos_word. cbn. by rewrite decode_encode.
  - intros a s [= <-]. split; [by destruct (encode a)|apply Hunset].
Qed.
Lemma pos_word_not_braces p : pos_word p ≠ "{}".
Proof. by destruct p. Qed.

#[global] Instance Q_eq_dec : EqDecision Q.
Proof. solve_decision. Defined.
#[global] Instance Q_countable : Countable Q.
Proof.
  refine (inj_countable' (λ q, (Qnum q, Qden q)) (λ p, Qmake p.1 p.2) _). by intros [].
Defined.
#[global] Instance Budget_eq_dec : EqDecision Budget.
Proof. solve_decision. Defined.
#[global] Instance Budget_countable : Countable Budget.
Proof.
  refine (inj_countable'
    (λ b, (MaxIterations b, MaxFailures b, MaxRuntimeSeconds b, MaxNoProgressIterations b, OnExhausted b))
    (λ p, let '(a, b, c, d, e) := p in mkBudget a b c d e) _). by intros [].
Defined.
#[global] Instance Evaluation_eq_dec : EqDecision Evaluation.
Proof. solve_decision. Defined.
#[global] Instance Evaluation_countable : Countable Evaluation.
Proof.
  refine (inj_countable' (λ e, (RemainingDelta e, Confidence e, Regressions e))
    (λ p, let '(a, b, c) := p in mkEvaluation a b c) _). by intros [].
Defined.

(** ** The budget column, read back *)

Lemma SetBudget_reads `{JSON Budget} (Hlaws : JSONLaws Budget "{}") (lr lr' : LoopRun) (b : Budget)
    (Hset : SetBudget lr b = Ok lr') :
  LoopRun_Budget lr' =
    Ok (mkBudget (MaxIterations b) (MaxFailures b) (MaxRuntimeSeconds b) (MaxNoProgressIterations b)
          (or_default (OnExhausted b) LoopRunOnExhaustedEscalate)) ∧
  (0 ≤ MaxIterations b ∧ 0 ≤ MaxFailures b ∧ 0 ≤ MaxRuntimeSeconds b ∧
   0 ≤ MaxNoProgressIterations b)%Z ∧
  lr_ID lr' = lr_ID lr ∧ lr_GoalID lr' = lr_GoalID lr ∧ lr_Status lr' = lr_Status lr.
Proof.
  unfold SetBudget in Hset. cbv zeta in Hset. unfold mbind, result_bind in Hset.
  set (b' := mkBudget _ _ _ _ _) in *.
  destruct (validateBudget b') as [[]|] eqn:Hv; [|done]. apply validateBudget_Ok in Hv as [_ Hv].
  unfold encodeLoopRunBudget in Hset. destruct (marshal b') as [s|] eqn:Hm; [|done].
  injection Hset as <-. cbn in Hv. destruct Hv as (? & ? & ? & ?). split; [|by split_and!].
  unfold LoopRun_Budget, decodeLoopRunBudget. cbn. destruct (marshal_set _ _ Hm) as [Hs1 Hs2].
  rewrite !bool_decide_eq_false_2 by done. cbn. by rewrite (unmarshal_marshal _ _ Hm).
Qed.

(** ** Properties *)

(** Every sequence of store calls, in any order, with any arguments and any
    pattern of database failures, keeps the loop tables well formed: unique
    keys, one row per iteration number of a run, statuses, decisions and
    progress states within their vocabularies, structured evidence, and no row
    that points at a missing goal or run. *)
Theorem loop_tables_stay_wellformed `{JSON (list string)} `{JSON Budget} `{JSON Evaluation}
    (O : Oracle) (w : World) (ops : list store_op) (Hwf : db_wf (w_db w)) :
  db_wf (w_db (run_store O w ops)).
Proof.
  revert Hwf. apply (run_store_stays O wf_kept (λ _, True)); [|by apply Forall_true].
  intros w' o _. apply store_step_wf.
Qed.

(** A goal's creation time never changes and its activation and completion
    stamps are written once: as long as the goal is not deleted, no sequence of
    store calls changes a stamp that is set. *)
Theorem goal_stamps_written_once `{JSON (list string)} `{JSON Budget} `{JSON Evaluation}
    (O : Oracle) (w : World) (ops : list store_op) (id : string) (g : Goal)
    (Hops : Forall (λ o, ∀ i, o ≠ SDeleteGoal i) ops)
    (Hg : find_row (goals (w_db w)) id = Some g) :
  ∃ g', find_row (goals (w_db (run_store O w ops))) id = Some g' ∧ CreatedAt g' = CreatedAt g ∧
    (ActivatedAt g ≠ "" → ActivatedAt g' = ActivatedAt g) ∧
    (goal_CompletedAt g ≠ "" → goal_CompletedAt g' = goal_CompletedAt g).
Proof.
  revert id g Hg. apply (run_store_stays O stamps_kept _ w ops) in Hops; [exact Hops|].
  intros w' o Ho. by apply store_step_stamps.
Qed.

(** [EvidenceSatisfiesGoal] answers the four-clause formula: the goal is met
    exactly when some evidence is recorded for it and every acceptance
    criterion, constraint and invariant is a non-empty name that some recorded
    row of the goal carries as its summary. *)
Theorem goal_met_iff_evidence_covers `{JSON (list string)} `{JSON Budget} `{JSON Evaluation}
    (O : Oracle) (goalID : string) (w w' : World) (b : bool) (rows : list GoalEvidence)
    (Hr : EvidenceSatisfiesGoal O goalID w = (Ok (b, rows), w')) :
  w_db w' = w_db w ∧
  ∃ g criteria constraints invariants,
    find_row (goals (w_db w)) goalID = Some g ∧ AcceptanceCriteria g = Ok criteria ∧
    Constraints g = Ok constraints ∧ Invariants g = Ok invariants ∧
    (b = true ↔ evidence_covers (w_db w) goalID (criteria ++ constraints ++ invariants)%list).
Proof. by eapply EvidenceSatisfiesGoal_Ok. Qed.

(** Evidence is monotone: once a goal is met, recording further evidence
    (for any goal, successful or not) never makes it unmet. *)
Theorem goal_met_survives_evidence `{JSON (list string)} `{JSON Budget} `{JSON Evaluation}
    (O : Oracle) (goalID : string) (e : GoalEvidence) (w1 w2 w4 : World) (b : bool)
    (rows rows' : list GoalEvidence)
    (Hmet : EvidenceSatisfiesGoal O goalID w1 = (Ok (true, rows), w2))
    (Hnext : EvidenceSatisfiesGoal O goalID (RecordGoalEvidence O e w2).2 = (Ok (b, rows'), w4)) :
  b = true.
Proof.
  apply EvidenceSatisfiesGoal_Ok in Hmet as (Hdb & g & a & c & i & Hg & Ha & Hc & Hi & Hb).
  apply EvidenceSatisfiesGoal_Ok in Hnext as (_ & g' & a' & c' & i' & Hg' & Ha' & Hc' & Hi' & Hb').
  destruct (RecordGoalEvidence_grows O e w2) as [Hgoals Hmono]. cbn in Hgoals, Hmono.
  rewrite Hgoals, Hdb, Hg in Hg'. injection Hg' as <-.
  rewrite Ha in Ha'. rewrite Hc in Hc'. rewrite Hi in Hi'.
  injection Ha' as <-. injection Hc' as <-. injection Hi' as <-.
  apply Hb'. eapply evidence_covers_mono; [exact Hmono|]. rewrite Hdb. by apply Hb.
Qed.

(** A budget that [SetBudget] accepts is read back by [Budget] as it was
    given, with [on_exhausted] defaulted to [escalate], and is never negative;
    nothing else of the run changes. *)
Theorem budget_round_trip `{JSON Budget} (Hlaws : JSONLaws Budget "{}") (lr lr' : LoopRun) (b : Budget)
    (Hset : SetBudget lr b = Ok lr') :
  LoopRun_Budget lr' =
    Ok (mkBudget (MaxIterations b) (MaxFailures b) (MaxRuntimeSeconds b) (MaxNoProgressIterations b)
          (or_default (OnExhausted b) LoopRunOnExhaustedEscalate)) ∧
  (0 ≤ MaxIterations b ∧ 0 ≤ MaxFailures b ∧ 0 ≤ MaxRuntimeSeconds b ∧
   0 ≤ MaxNoProgressIterations b)%Z ∧
  lr_ID lr' = lr_ID lr ∧ lr_GoalID lr' = lr_GoalID lr ∧ lr_Status lr' = lr_Status lr.
Proof. by eapply SetBudget_reads. Qed.

(** ** Witnesses *)

Definition demo_oracle : Oracle :=
  mkOracle (λ _, false) (λ _, "2026-01-01T00:00:00Z") (λ _, 0%Z) (λ n, "id" +:+ pos_word (Pos.of_nat (S n))).
Definition empty_db : DB := mkDB [] [] [] [] [] [].
Definition empty_world : World := mkWorld empty_db 0.
Lemma empty_db_wf : db_wf empty_db.
Proof. split; cbn; constructor. Qed.

#[global] Instance word_json_strings : JSON (list string) := {|
  marshal l := Some (pos_word (encode l));
  unmarshal s := if bool_decide (s = "[]") then Some [] else word_pos s ≫= decode;
|}.
#[global] Instance word_json_budget : JSON Budget := word_json Budget.
#[global] Instance word_json_evaluation : JSON Evaluation := word_json Evaluation.

(** A goal with the acceptance criterion "tests pass", and its evidence. *)
Definition demo_goal : Goal :=
  mkGoal "g1" "" "ship it" "" "" (pos_word (encode ["tests pass"])) "" "" "" "" "" "" "" "" "".
Definition demo_evidence : GoalEvidence :=
  mkGoalEvidence "e1" "g1" "" None "test_suite" "workflow_run_steps" "s1" "pass" "tests pass" "".
Definition demo_loop_run : LoopRun :=
  mkLoopRun "l1" "g1" "ralph" "" 0 "" "" 0 "" "" "".
Definition demo_store_ops : list store_op :=
  [SCreateGoal demo_goal; SUpdateGoalStatus "g1" "active"; SRecordGoalEvidence demo_evidence;
   SCreateLoopRun demo_loop_run].
Definition evidence_world : World :=
  run_store demo_oracle empty_world [SCreateGoal demo_goal; SRecordGoalEvidence demo_evidence].

Lemma loop_tables_stay_wellformed_witness :
  db_wf (w_db (run_store demo_oracle empty_world demo_store_ops)).
Proof. exact (loop_tables_stay_wellformed demo_oracle empty_world demo_store_ops empty_db_wf). Defined.

Lemma goal_stamps_written_once_witness :
  ∃ g', find_row (goals (w_db (run_store demo_oracle
          (run_store demo_oracle empty_world demo_store_ops) [SUpdateGoalStatus "g1" "satisfied"]))) "g1"
        = Some g' ∧ ActivatedAt g' = "2026-01-01T00:00:00Z".
Proof.
  destruct (goal_stamps_written_once demo_oracle (run_store demo_oracle empty_world demo_store_ops)
              [SUpdateGoalStatus "g1" "satisfied"] "g1"
              (default demo_goal (find_row (goals (w_db (run_store demo_oracle empty_world demo_store_ops))) "g1")))
    as (g' & Hg' & _ & Ha & _).
  - constructor; [done|constructor].
  - vm_compute. reflexivity.
  - exists g'. split; [exact Hg'|]. apply Ha. vm_compute. discriminate.
Defined.

Lemma goal_met_iff_evidence_covers_witness :
  evidence_covers (w_db evidence_world) "g1" ["tests pass"].
Proof.
  destruct (goal_met_iff_evidence_covers demo_oracle "g1" evidence_world
              (EvidenceSatisfiesGoal demo_oracle "g1" evidence_world).2 true
              (evidence_rows (w_db evidence_world) "g1" (mkGoalEvidenceFilter "" "")))
    as (_ & g & a & c & i & Hg & Ha & Hc & Hi & Hb).
  - vm_compute. reflexivity.
  - vm_compute in Hg. injection Hg as <-. vm_compute in Ha, Hc, Hi.
    injection Ha as <-. injection Hc as <-. injection Hi as <-. by apply Hb.
Defined.

Definition met_answer (w : World) : bool :=
  match (EvidenceSatisfiesGoal demo_oracle "g1" w).1 with Ok (b, _) => b | Err _ => false end.
Definition late_evidence : GoalEvidence :=
  mkGoalEvidence "e2" "g1" "" None "artifact" "files" "f1" "fail" "notes" "".

Lemma goal_met_survives_evidence_witness :
  met_answer (RecordGoalEvidence demo_oracle late_evidence
    (EvidenceSatisfiesGoal demo_oracle "g1" evidence_world).2).2 = true.
Proof.
  eapply (goal_met_survives_evidence demo_oracle "g1" late_evidence evidence_world).
  - vm_compute. reflexivity.
  - vm_compute. reflexivity.
Defined.

Lemma budget_round_trip_witness :
  LoopRun_Budget (mkLoopRun "l1" "g1" "ralph" "" 0
    (pos_word (encode (mkBudget 3 0 0 2 "escalate"))) "" 0 "" "" "") = Ok (mkBudget 3 0 0 2 "escalate").
Proof.
  refine (proj1 (budget_round_trip (word_json_laws Budget "{}" pos_word_not_braces) demo_loop_run _
            (mkBudget 3 0 0 2 "") _)).
  vm_compute. reflexivity.
Defined.
