(* ===== verification/LoopDecide.v ===== *)
(** * The continuation policy (internal/loop/decide.go)

    [Decide] computes what a loop does after an iteration: goal met, budget
    exhausted, a sustained no-progress streak (one call of the reasoning model),
    otherwise continue.

    The model call, the RFC 3339 parser and the formatting verbs of the prompt
    are parameters: [Model] answers each request as it likes, so the theorems
    hold for every answer, well formed or not.  Instants are integers in
    nanoseconds, [time.Time.Sub] saturates at the range of [time.Duration] as it
    does in Go, and elapsed time is compared with the budget exactly where Go
    compares [float64] seconds.  Reasons are kept as data, one constructor per
    message the code formats.

    Theorems: the decision table (each verdict characterised), the no-progress
    streak, what the reasoning model can and cannot cause, and the meaning of an
    unset budget. *)

From S2P Require Import Prelude GoStrings LoopStore.

Open Scope string_scope.
Open Scope nat_scope.

(** ** Data *)

Inductive DecisionKind :=
| DecisionContinue | DecisionRetry | DecisionReplan | DecisionRearchitect
| DecisionWait | DecisionEscalate | DecisionComplete | DecisionFail.
#[global] Instance DecisionKind_eq_dec : EqDecision DecisionKind.
Proof. solve_decision. Defined.

(** [string(kind)]: the column value. *)
Definition kind_string (k : DecisionKind) : string :=
  match k with
  | DecisionContinue => "continue" | DecisionRetry => "retry" | DecisionReplan => "replan"
  | DecisionRearchitect => "rearchitect" | DecisionWait => "wait"
  | DecisionEscalate => "escalate" | DecisionComplete => "complete" | DecisionFail => "fail"
  end.

(** [reasoningEligibleKinds[DecisionKind(s)]]. *)
Definition reasoningEligibleKinds (s : string) : option DecisionKind :=
  List.find (λ k, bool_decide (kind_string k = s))
    [DecisionRetry; DecisionReplan; DecisionRearchitect; DecisionWait; DecisionEscalate; DecisionFail].

Record GoalRevision := mkGoalRevision {
  rev_DesiredState : list string;
  rev_AcceptanceCriteria : list string;
}.

(** Why a budget is exhausted: the observed count and the threshold. *)
Inductive BudgetReason :=
| IterationsReached (n max : Z)
| FailuresReached (n max : Z)
| RuntimeReached (elapsed_ns max : Z).
Inductive Reason :=
| ReasonGoalMet
| ReasonBudget (r : BudgetReason)
| ReasonContinue
| ReasonModel (text : string).

Record Decision := mkDecision {
  Kind : DecisionKind;
  dec_Reason : Reason;
  Revision : option GoalRevision;
}.

Record ContinuationPolicy := mkContinuationPolicy {
  Provider : string;
  Model_ : string;
  AgentID : string;
  SessionID : string;
  Tools : list string;
}.

(** The request of the one model call; the system prompt, a constant, is left
    out. *)
Record LLMStepRequest := mkLLMStepRequest {
  req_WorkflowRunID : string;
  req_SessionID : string;
  req_AgentID : string;
  req_Provider : string;
  req_Model : string;
  req_UserContent : string;
  req_Tools : list string;
}.

Record reasoningResponse := mkReasoningResponse {
  resp_Decision : string;
  resp_Reason : string;
  RevisedDesiredState : list string;
  RevisedAcceptanceCriteria : list string;
}.

Inductive DecideErr :=
| ErrNoStepExecutor
| ErrNoProviderModel
| ErrModelCall
| ErrNoJSONObject
| ErrNotJSON
| ErrIneligible (decision : string).

(** ** Strings *)

(** [strings.Index] and [strings.LastIndex] of a one-byte needle. *)
Fixpoint index_byte (c : ascii) (s : string) : option nat :=
  match s with
  | "" => None
  | String a s' => if bool_decide (a = c) then Some 0 else S <$> index_byte c s'
  end.
Fixpoint last_index_byte (c : ascii) (s : string) : option nat :=
  match s with
  | "" => None
  | String a s' =>
      match last_index_byte c s' with
      | Some i => Some (S i)
      | None => if bool_decide (a = c) then Some 0 else None
      end
  end.

(** [valueOrNone]. *)
Definition valueOrNone (s : string) : string := if bool_decide (s = "") then "(none)" else s.

(** ** The host *)

(** What the decision takes from outside the repository: [time.Parse] of an RFC
    3339 time as an instant, the verbs [%d], [%q], [%.2f] and [%v] of the
    prompt, and [exec.ExecuteLLMStep] at a step of the world ([None] is an
    error). *)
Record Host := mkHost {
  parse_time : string → option Z;
  fmt_d : Z → string;
  fmt_q : string → string;
  fmt_2f : QArith_base.Q → string;
  fmt_v : list string → string;
  model : nat → LLMStepRequest → option string;
}.

(** ** The deterministic checks *)

Section Decide.
Context `{JSON (list string)} `{JSON reasoningResponse}.
Context (O : Oracle) (HS : Host).

Implicit Types history : list LoopRunIteration.

(** [countProgressState]. *)
Definition countProgressState history (state : string) : Z :=
  Z.of_nat (count (λ it, bool_decide (ProgressState it = state)) history).

(** [noProgressStreak]: the loop walks the history backwards. *)
Definition is_no_progress (it : LoopRunIteration) : bool :=
  bool_decide (ProgressState it = LoopRunIterationProgressNoProgress).
Definition noProgressStreak history : Z := Z.of_nat (streak is_no_progress (rev history)).

(** [time.Time.Sub]: saturated at the range of [time.Duration]. *)
Definition time_sub (e s : Z) : Z := Z.max (- 2 ^ 63) (Z.min (2 ^ 63 - 1) (e - s)).
Definition second_ns : Z := 1000000000.

Definition now_ns {E} : act World E Z := λ w, (Ok (o_now_ns O (w_tick w)), next w).

(** [historyRuntimeSeconds], in nanoseconds; [None] is [ok = false]. *)
Definition historyRuntime {E} history : act World E (option Z) :=
  match history with
  | [] => mret None
  | first :: _ =>
      match parse_time HS (it_StartedAt first) with
      | None => mret None
      | Some start =>
          t ← now_ns;
          let lastAt := match last history with Some l => it_CompletedAt l | None => "" end in
          let e := if bool_decide (lastAt = "") then t else default t (parse_time HS lastAt) in
          mret (Some (time_sub e start))
      end
  end.

(** [budgetExhausted]: the first threshold reached, if any. *)
Definition budgetExhausted {E} history (budget : Budget) : act World E (option BudgetReason) :=
  let n := Z.of_nat (length history) in
  if (0 <? MaxIterations budget)%Z && (MaxIterations budget <=? n)%Z
  then mret (Some (IterationsReached n (MaxIterations budget)))
  else
    let failures := countProgressState history LoopRunIterationProgressRegression in
    if (0 <? MaxFailures budget)%Z && (MaxFailures budget <=? failures)%Z
    then mret (Some (FailuresReached failures (MaxFailures budget)))
    else if (0 <? MaxRuntimeSeconds budget)%Z then
      r ← historyRuntime history;
      mret (match r with
            | Some elapsed =>
                if (MaxRuntimeSeconds budget * second_ns <=? elapsed)%Z
                then Some (RuntimeReached elapsed (MaxRuntimeSeconds budget)) else None
            | None => None
            end)
    else mret None.

(** ** The reasoning fallback *)

Definition newline : string := String (byte 10) "".

(** [composeReasoningPrompt]. *)
Definition prompt_list (label : string) (r : result StoreErr (list string)) : string :=
  match r with
  | Ok [] | Err _ => ""
  | Ok l => label +:+ join "; " l +:+ newline
  end.
Definition composeReasoningPrompt (goal : Goal) (evaluation : Evaluation) history (budget : Budget)
    (streak : Z) : string :=
  "Goal intent: " +:+ Intent goal +:+ newline +:+
  prompt_list "Desired state: " (DesiredState goal) +:+
  prompt_list "Acceptance criteria: " (AcceptanceCriteria goal) +:+
  prompt_list "Constraints: " (Constraints goal) +:+
  newline +:+ "No-progress streak: " +:+ fmt_d HS streak +:+
  " (budget.max_no_progress_iterations=" +:+ fmt_d HS (MaxNoProgressIterations budget) +:+ ")" +:+ newline +:+
  "Most recent evaluation: remaining_delta=" +:+ fmt_q HS (RemainingDelta evaluation) +:+
  " confidence=" +:+ fmt_2f HS (Confidence evaluation) +:+
  " regressions=" +:+ fmt_v HS (Regressions evaluation) +:+ newline +:+
  (match history with
   | [] => ""
   | _ => newline +:+ "Iteration history (oldest first):" +:+ newline +:+
       String.concat ""
         (map (λ it, "- iteration " +:+ fmt_d HS (IterationNumber it) +:+ ": decision=" +:+
                valueOrNone (it_Decision it) +:+ " progress=" +:+ valueOrNone (ProgressState it) +:+
                newline) history)
   end).

(** [parseReasoningVerdict]. *)
Definition parseReasoningVerdict (text : string) : result DecideErr Decision :=
  let trimmed := trim_space text in
  match index_byte "{" trimmed, last_index_byte "}" trimmed with
  | Some start, Some e =>
      if bool_decide (e < start) then Err ErrNoJSONObject
      else
        match unmarshal (str_take (S e - start) (str_drop start trimmed)) with
        | None => Err ErrNotJSON
        | Some raw =>
            match reasoningEligibleKinds (lower (trim_space (resp_Decision raw))) with
            | None => Err (ErrIneligible (resp_Decision raw))
            | Some kind =>
                Ok (mkDecision kind (ReasonModel (resp_Reason raw))
                      (if bool_decide (kind = DecisionRearchitect)
                       then Some (mkGoalRevision (RevisedDesiredState raw) (RevisedAcceptanceCriteria raw))
                       else None))
            end
        end
  | _, _ => Err ErrNoJSONObject
  end.

Definition call_model (req : LLMStepRequest) : act World DecideErr string := λ w,
  match model HS (w_tick w) req with
  | Some text => (Ok text, next w)
  | None => (Err ErrModelCall, next w)
  end.

(** [decideByReasoning]; [exec] says whether a step executor was given. *)
Definition decideByReasoning (exec : bool) (goal : Goal) (evaluation : Evaluation) history
    (budget : Budget) (policy : ContinuationPolicy) (streak : Z) : act World DecideErr Decision :=
  if negb exec then fail ErrNoStepExecutor
  else if bool_decide (Provider policy = "") || bool_decide (Model_ policy = "")
  then fail ErrNoProviderModel
  else
    let lastWorkflowRunID := match last history with Some l => WorkflowRunID l | None => "" end in
    text ← call_model (mkLLMStepRequest lastWorkflowRunID (SessionID policy) (AgentID policy)
             (Provider policy) (Model_ policy)
             (composeReasoningPrompt goal evaluation history budget streak) (Tools policy));
    lift (parseReasoningVerdict text).

(** [Decide]. *)
Definition Decide (exec : bool) (goal : Goal) (goalMet : bool) (evaluation : Evaluation) history
    (budget : Budget) (policy : ContinuationPolicy) : act World DecideErr Decision :=
  if goalMet then mret (mkDecision DecisionComplete ReasonGoalMet None)
  else
    ex ← budgetExhausted history budget;
    match ex with
    | Some reason =>
        let onExhausted := or_default (OnExhausted budget) LoopRunOnExhaustedEscalate in
        if bool_decide (onExhausted = LoopRunOnExhaustedFail)
        then mret (mkDecision DecisionFail (ReasonBudget reason) None)
        else mret (mkDecision DecisionEscalate (ReasonBudget reason) None)
    | None =>
        let streak := noProgressStreak history in
        if (0 <? MaxNoProgressIterations budget)%Z && (MaxNoProgressIterations budget <=? streak)%Z
        then decideByReasoning exec goal evaluation history budget policy streak
        else mret (mkDecision DecisionContinue ReasonContinue None)
    end.
End Decide.

(** ** Lemmas: the streak *)

(** The streak reaches [k] exactly when the last [k] iterations exist and all
    made no progress. *)
Lemma streak_ge {A} (P : A → bool) (l : list A) k :
  k ≤ streak P l ↔ k ≤ length l ∧ Forall (λ x, P x = true) (take k l).
Proof.
  revert k. induction l as [|x l IH]; intros [|k]; cbn.
  - split; [|lia]. intros _. split; [lia|constructor].
  - split; [lia|]. intros [? _]. lia.
  - split; [|lia]. intros _. split; [lia|constructor].
  - destruct (P x) eqn:E.
    + rewrite <- Nat.succ_le_mono, IH. split.
      * intros [? ?]. split; [lia|]. by constructor.
      * intros [? [_ ?]%Forall_cons]. split; [lia|done].
    + split; [lia|]. intros [_ [? _]%Forall_cons]. congruence.
Qed.

Definition stalled (history : list LoopRunIteration) (k : Z) : Prop :=
  (k ≤ Z.of_nat (length history))%Z ∧
  ∀ it, it ∈ drop (length history - Z.to_nat k) history →
    ProgressState it = LoopRunIterationProgressNoProgress.

Lemma noProgressStreak_stalled history k :
  (0 ≤ k)%Z → (k ≤ noProgressStreak history)%Z ↔ stalled history k.
Proof.
  intros Hk. unfold noProgressStreak, stalled.
  assert ((k ≤ Z.of_nat (streak is_no_progress (rev history)))%Z ↔
          Z.to_nat k ≤ streak is_no_progress (rev history)) as -> by lia.
  rewrite streak_ge, length_rev.
  assert ((k ≤ Z.of_nat (length history))%Z ↔ Z.to_nat k ≤ length history) as -> by lia.
  split; intros [Hle Hall]; (split; [done|]); revert Hall; rewrite firstn_rev, Forall_forall;
    setoid_rewrite list_elem_of_In; setoid_rewrite <- in_rev;
    unfold is_no_progress; setoid_rewrite bool_decide_eq_true; done.
Qed.

(** ** Lemmas: the decision *)

Section DecideLemmas.
Context `{JSON (list string)} `{JSON reasoningResponse}.
Context (O : Oracle) (HS : Host).

Local Abbreviation decide_ := (Decide O HS).

(** The elapsed time the check at world [w] sees. *)
Definition elapsed_at (history : list LoopRunIteration) (w : World) : option Z :=
  match (historyRuntime (E := DecideErr) O HS history w).1 with
  | Ok r => r | Err _ => None end.

(** No threshold of the budget is reached. *)
Definition within_budget (history : list LoopRunIteration) (b : Budget) (w : World) : Prop :=
  (MaxIterations b ≤ 0 ∨ Z.of_nat (length history) < MaxIterations b)%Z ∧
  (MaxFailures b ≤ 0 ∨
   Z.of_nat (length (List.filter (λ it, bool_decide (ProgressState it = "regression")) history))
     < MaxFailures b)%Z ∧
  (MaxRuntimeSeconds b ≤ 0 ∨
   ∀ e, elapsed_at history w = Some e → e < MaxRuntimeSeconds b * second_ns)%Z.

Lemma historyRuntime_total history w :
  ∃ r w', historyRuntime (E := DecideErr) O HS history w = (Ok r, w') ∧
          elapsed_at history w = r ∧ w_db w' = w_db w.
Proof.
  unfold elapsed_at, historyRuntime. destruct history as [|first h]; [by eexists _, _|].
  destruct (parse_time HS (it_StartedAt first)) as [start|]; by eexists _, _.
Qed.

(** [budgetExhausted] always answers, reads nothing but the clock, and answers
    [None] exactly within the budget. *)
Lemma budgetExhausted_spec history b w :
  ∃ r w', budgetExhausted (E := DecideErr) O HS history b w = (Ok r, w') ∧
    w_db w' = w_db w ∧ (r = None ↔ within_budget history b w).
Proof.
  unfold budgetExhausted, within_budget, countProgressState, count.
  destruct (0 <? MaxIterations b)%Z eqn:E1; destruct (MaxIterations b <=? _)%Z eqn:E2; cbn [andb].
  1: { eexists _, w. split; [done|]. split; [done|]. split; [done|]. intros ([?|?] & _); lia. }
  all: destruct (0 <? MaxFailures b)%Z eqn:E3; destruct (MaxFailures b <=? _)%Z eqn:E4; cbn [andb].
  1,5,9: eexists _, w; (split; [done|]); (split; [done|]); split; [done|];
    intros (_ & [?|?] & _); unfold LoopRunIterationProgressRegression in *; lia.
  all: destruct (0 <? MaxRuntimeSeconds b)%Z eqn:E5.
  all: try (eexists _, w; (split; [done|]); (split; [done|]); split; [intros _|done];
            split_and!; [lia| |left; lia]; unfold LoopRunIterationProgressRegression in *; lia).
  all: destruct (historyRuntime_total history w) as (r & w' & Hr & He & Hdb).
  all: unfold mbind, act_bind; rewrite Hr; eexists _, w'; (split; [done|]); (split; [done|]).
  all: rewrite He; destruct r as [e|].
  all: try (destruct (MaxRuntimeSeconds b * second_ns <=? e)%Z eqn:E6).
  all: split; try done.
  all: try (intros (_ & _ & [?|Hlt]); [lia|]; specialize (Hlt _ eq_refl); lia).
  all: intros _; split_and!; [lia|unfold LoopRunIterationProgressRegression in *; lia|right].
  all: intros ? [=]; subst; lia.
Qed.

(** What [Decide] does, case by case. *)
Lemma Decide_cases exec goal met ev history b pol w :
  (met = true ∧ decide_ exec goal met ev history b pol w =
     (Ok (mkDecision DecisionComplete ReasonGoalMet None), w)) ∨
  (met = false ∧ ¬ within_budget history b w ∧ ∃ k r w',
     (k = DecisionFail ∧ OnExhausted b = "fail" ∨ k = DecisionEscalate ∧ OnExhausted b ≠ "fail") ∧
     decide_ exec goal met ev history b pol w = (Ok (mkDecision k (ReasonBudget r) None), w') ∧
     w_db w' = w_db w) ∨
  (met = false ∧ within_budget history b w ∧
   (0 < MaxNoProgressIterations b)%Z ∧ stalled history (MaxNoProgressIterations b) ∧ ∃ w',
     decide_ exec goal met ev history b pol w =
       decideByReasoning HS exec goal ev history b pol
         (noProgressStreak history) w' ∧ w_db w' = w_db w) ∨
  (met = false ∧ within_budget history b w ∧
   ((MaxNoProgressIterations b ≤ 0)%Z ∨ ¬ stalled history (MaxNoProgressIterations b)) ∧ ∃ w',
     decide_ exec goal met ev history b pol w =
       (Ok (mkDecision DecisionContinue ReasonContinue None), w') ∧ w_db w' = w_db w).
Proof.
  destruct met; [by left|right]. unfold Decide.
  destruct (budgetExhausted_spec history b w) as (r & w' & Hr & Hdb & Hnone).
  unfold mbind, act_bind. rewrite Hr. destruct r as [r|].
  - left. split; [done|]. split; [by intros ?%Hnone|].
    unfold or_default, LoopRunOnExhaustedFail, LoopRunOnExhaustedEscalate.
    destruct (decide (OnExhausted b = "fail")) as [He|He].
    + eexists DecisionFail, r, w'. split; [by left|]. by rewrite He.
    + eexists DecisionEscalate, r, w'. split; [by right|].
      rewrite (bool_decide_eq_false_2 (_ = "fail")); [done|]. by case_bool_decide.
  - right. assert (within_budget history b w) as Hw by (by apply Hnone).
    destruct (0 <? MaxNoProgressIterations b)%Z eqn:E1; cbn [andb].
    + apply Z.ltb_lt in E1.
      destruct (MaxNoProgressIterations b <=? noProgressStreak history)%Z eqn:E2.
      * apply Z.leb_le, noProgressStreak_stalled in E2; [|lia]. left. eauto 10.
      * right. split; [done|]. split; [done|]. split; [right|eauto].
        rewrite <- noProgressStreak_stalled by lia. lia.
    + apply Z.ltb_ge in E1. right. eauto 10.
Qed.

Lemma eligible_kind s k :
  reasoningEligibleKinds s = Some k →
  kind_string k = s ∧ k ≠ DecisionContinue ∧ k ≠ DecisionComplete.
Proof.
  unfold reasoningEligibleKinds. intros [Hin Hs%bool_decide_eq_true]%find_some.
  split; [done|]. cbn in Hin. naive_solver.
Qed.

Lemma parseReasoningVerdict_Ok text d :
  parseReasoningVerdict text = Ok d →
  Kind d ≠ DecisionContinue ∧ Kind d ≠ DecisionComplete ∧
  (Revision d ≠ None ↔ Kind d = DecisionRearchitect) ∧
  ∃ i j raw, index_byte "{" (trim_space text) = Some i ∧ last_index_byte "}" (trim_space text) = Some j ∧
    i ≤ j ∧ unmarshal (str_take (S j - i) (str_drop i (trim_space text))) = Some raw ∧
    kind_string (Kind d) = lower (trim_space (resp_Decision raw)).
Proof.
  unfold parseReasoningVerdict.
  destruct (index_byte "{" (trim_space text)) as [i|]; [|done].
  destruct (last_index_byte "}" (trim_space text)) as [j|]; [|done].
  case_bool_decide as Hlt; [done|].
  destruct (unmarshal (str_take (S j - i) (str_drop i (trim_space text)))) as [raw|] eqn:Hu; [|done].
  destruct (reasoningEligibleKinds _) as [k|] eqn:Hk; [|done].
  apply eligible_kind in Hk as (Hs & Hc & Hf). intros [= <-]. cbn.
  split_and!; try done.
  - case_bool_decide; naive_solver.
  - exists i, j, raw. split_and!; try done. lia.
Qed.

Lemma decideByReasoning_Ok exec goal ev history b pol n w d w' :
  decideByReasoning HS exec goal ev history b pol n w = (Ok d, w') →
  ∃ text, parseReasoningVerdict text = Ok d.
Proof.
  unfold decideByReasoning. case_if; [done|]. case_if; [done|].
  intros (text & w1 & _ & [Hp _]%lift_Ok)%bind_Ok. by exists text.
Qed.
Lemma decideByReasoning_db exec goal ev history b pol n w :
  w_db (decideByReasoning HS exec goal ev history b pol n w).2 = w_db w.
Proof.
  unfold decideByReasoning. case_if; [done|]. case_if; [done|].
  unfold mbind, act_bind, call_model. by destruct (model HS _ _).
Qed.
(** [Decide] never touches the database. *)
Lemma Decide_db exec goal met ev history b pol w :
  w_db (decide_ exec goal met ev history b pol w).2 = w_db w.
Proof.
  destruct (Decide_cases exec goal met ev history b pol w)
    as [[_ ->]|[(_ & _ & k & r & w' & _ & -> & ?)|[(_ & _ & _ & _ & w' & -> & <-)|(_ & _ & _ & w' & -> & ?)]]];
    try done. apply decideByReasoning_db.
Qed.
End DecideLemmas.

(** ** Properties *)

(** C12. A loop goes on by default only when it may: [Decide] answers continue
    exactly when the goal is not met, no budget threshold is reached (iteration
    count, regressions, elapsed time) and the last [MaxNoProgressIterations]
    iterations were not all without progress, whatever the reasoning model
    would have answered. *)
Theorem continue_iff_allowed `{JSON (list string)} `{JSON reasoningResponse} (O : Oracle) (HS : Host)
    (exec : bool) (goal : Goal) (met : bool) (ev : Evaluation) (history : list LoopRunIteration)
    (b : Budget) (pol : ContinuationPolicy) (w : World) :
  (∃ d w', Decide O HS exec goal met ev history b pol w = (Ok d, w') ∧ Kind d = DecisionContinue) ↔
  met = false ∧ within_budget O HS history b w ∧
  ((MaxNoProgressIterations b ≤ 0)%Z ∨ ¬ stalled history (MaxNoProgressIterations b)).
Proof.
  destruct (Decide_cases O HS exec goal met ev history b pol w)
    as [[-> ->]|[(-> & Hb & k & r & w1 & Hk & -> & _)|[(-> & Hb & Hpos & Hst & w1 & -> & _)
       |(-> & Hb & Hst & w1 & -> & _)]]].
  - split; [|by intros [? _]]. intros (d & w' & [= <- _] & Hd). done.
  - split; [|tauto]. intros (d & w' & [= <- _] & Hd). cbn in Hd. destruct Hk as [[-> _]|[-> _]]; done.
  - split; [|intros (_ & _ & [?|?]); [lia|done]].
    intros (d & w' & [text Hp]%decideByReasoning_Ok & Hd).
    by apply parseReasoningVerdict_Ok in Hp as (? & _).
  - split; [done|]. intros _. eauto.
Qed.

(** [Decide] reports completion exactly when the evidence met the goal: no
    budget state and no model answer can complete a loop. *)
Theorem complete_iff_goal_met `{JSON (list string)} `{JSON reasoningResponse} (O : Oracle) (HS : Host)
    (exec : bool) (goal : Goal) (met : bool) (ev : Evaluation) (history : list LoopRunIteration)
    (b : Budget) (pol : ContinuationPolicy) (w : World) :
  (∃ d w', Decide O HS exec goal met ev history b pol w = (Ok d, w') ∧ Kind d = DecisionComplete) ↔
  met = true.
Proof.
  destruct (Decide_cases O HS exec goal met ev history b pol w)
    as [[-> ->]|[(-> & Hb & k & r & w1 & Hk & -> & _)|[(-> & Hb & Hpos & Hst & w1 & -> & _)
       |(-> & Hb & Hst & w1 & -> & _)]]]; (split; [|intros ?; try done]).
  - done.
  - eauto.
  - intros (d & w' & [= <- _] & Hd). cbn in Hd. destruct Hk as [[-> _]|[-> _]]; done.
  - intros (d & w' & [text Hp]%decideByReasoning_Ok & Hd).
    by apply parseReasoningVerdict_Ok in Hp as (_ & ? & _).
  - by intros (d & w' & [= <- _] & Hd).
Qed.

(** An exhausted iteration or failure budget is final: for every longer
    history, as long as the goal is not met, the verdict is the configured
    escalation or failure, without a model call and without touching the
    database. *)
Theorem exhaustion_is_final `{JSON (list string)} `{JSON reasoningResponse} (O : Oracle) (HS : Host)
    (exec : bool) (goal : Goal) (ev : Evaluation) (history more : list LoopRunIteration)
    (b : Budget) (pol : ContinuationPolicy) (w : World)
    (Hex : (0 < MaxIterations b ≤ Z.of_nat (length history))%Z ∨
           (0 < MaxFailures b ≤ countProgressState history LoopRunIterationProgressRegression)%Z) :
  ∃ r w', Decide O HS exec goal false ev (history ++ more)%list b pol w =
    (Ok (mkDecision (if bool_decide (OnExhausted b = "fail") then DecisionFail else DecisionEscalate)
           (ReasonBudget r) None), w') ∧ w_db w' = w_db w.
Proof.
  assert (¬ within_budget O HS (history ++ more)%list b w) as Hnot.
  { unfold within_budget. rewrite length_app, List.filter_app, length_app.
    unfold countProgressState, count, LoopRunIterationProgressRegression in Hex.
    intros (Hi & Hf & _). lia. }
  destruct (Decide_cases O HS exec goal false ev (history ++ more)%list b pol w)
    as [[? _]|[(_ & _ & k & r & w' & Hk & -> & Hdb)|[(_ & Hb & _)|(_ & Hb & _)]]]; try done.
  exists r, w'. split; [|done]. destruct Hk as [[-> Ho]|[-> Ho]].
  - by rewrite bool_decide_eq_true_2.
  - by rewrite bool_decide_eq_false_2.
Qed.

(** With no limit set the policy is the two-way choice: complete when the
    goal is met, continue otherwise, in every state and without a model call. *)
Lemma unset_budget_never_stops `{JSON (list string)} `{JSON reasoningResponse} (O : Oracle) (HS : Host)
    (exec : bool) (goal : Goal) (met : bool) (ev : Evaluation) (history : list LoopRunIteration)
    (pol : ContinuationPolicy) (w : World) (onExhausted : string) :
  Decide O HS exec goal met ev history (mkBudget 0 0 0 0 onExhausted) pol w =
    (Ok (if met then mkDecision DecisionComplete ReasonGoalMet None
         else mkDecision DecisionContinue ReasonContinue None), w).
Proof. by destruct met. Qed.

(** A verdict of the reasoning model is one the model may give: the answer
    held a JSON object between its first [{] and last [}], its decision names
    the verdict up to case and surrounding space, the verdict is neither
    continue nor complete, and a goal revision comes with rearchitect and with
    nothing else.  Every other answer is an error. *)
Theorem reasoning_verdict_is_eligible `{JSON reasoningResponse} (text : string) (d : Decision)
    (Hp : parseReasoningVerdict text = Ok d) :
  Kind d ≠ DecisionContinue ∧ Kind d ≠ DecisionComplete ∧
  (Revision d ≠ None ↔ Kind d = DecisionRearchitect) ∧
  ∃ i j raw, index_byte "{" (trim_space text) = Some i ∧ last_index_byte "}" (trim_space text) = Some j ∧
    i ≤ j ∧ unmarshal (str_take (S j - i) (str_drop i (trim_space text))) = Some raw ∧
    kind_string (Kind d) = lower (trim_space (resp_Decision raw)).
Proof. by apply parseReasoningVerdict_Ok. Qed.

(** ** Witnesses *)

(** A decoder that reads the whole object as the decision name. *)
Definition demo_response_json : JSON reasoningResponse := {|
  marshal r := Some ("{" +:+ resp_Decision r +:+ "}");
  unmarshal s := Some (mkReasoningResponse (str_take (String.length s - 2) (str_drop 1 s)) "why" ["a"] []);
|}.
Definition demo_host : Host :=
  mkHost (λ _, Some 0%Z) (λ _, "n") (λ s, s) (λ _, "1.00") (λ l, join " " l) (λ _ _, Some "{ RETRY }").

Lemma exhaustion_is_final_witness :
  ∃ r w', Decide (H0 := demo_response_json) demo_oracle demo_host true demo_goal false zeroEvaluation
    [mkLoopRunIteration "i1" "l1" 1 "w1" "continue" "progress" "" "" "";
     mkLoopRunIteration "i2" "l1" 2 "w2" "" "progress" "" "" ""]
    (mkBudget 1 0 0 0 "fail") (mkContinuationPolicy "" "" "" "" []) empty_world =
    (Ok (mkDecision DecisionFail (ReasonBudget r) None), w') ∧ w_db w' = w_db empty_world.
Proof.
  refine (exhaustion_is_final (H0 := demo_response_json) demo_oracle demo_host true demo_goal zeroEvaluation
    [mkLoopRunIteration "i1" "l1" 1 "w1" "continue" "progress" "" "" ""]
    [mkLoopRunIteration "i2" "l1" 2 "w2" "" "progress" "" "" ""]
    (mkBudget 1 0 0 0 "fail") (mkContinuationPolicy "" "" "" "" []) empty_world _).
  left. cbn. lia.
Defined.

Lemma reasoning_verdict_is_eligible_witness :
  Kind (mkDecision DecisionRetry (ReasonModel "why") None) ≠ DecisionContinue.
Proof.
  refine (proj1 (reasoning_verdict_is_eligible (H := demo_response_json)
    "I suggest { RETRY } here" (mkDecision DecisionRetry (ReasonModel "why") None) _)).
  vm_compute. reflexivity.
Defined.
