(* ===== verification/LoopEngine.v ===== *)
(** * The loop engine (internal/loop)

    [engine.go], [types.go], [tick_schedule.go], [tick_resume.go],
    [outer_resume.go] and the operator calls of [launcher.go]: a run is
    launched, iterated (launch a workflow run, evaluate it, decide, persist,
    act) until it pauses or ends, resumed, canceled, or resolved by an operator.

    Every call threads the world of LoopStore (the database and a step counter).
    The workflow host, the model, the contexts, the outer notifier and the
    agent checks are parameters ([Workflows] and [Host]): they may answer
    anything at any step, and the workflow calls may write the database, so the
    theorems name what they need of them as hypotheses: [evolves] lets a workflow
    write other tables and launch loops from its loop steps, to any depth, which
    is what a workflow does to the loop tables in this program.  The iteration loop
    carries fuel; [ErrUnfinished] is the answer of a loop that is still running
    when it is spent, and [drive_finishes] says how much is enough.

    Calls are sequential here: two calls of [Run] that interleave between the
    active-run check and the insert are not modelled. *)

From S2P Require Import Prelude GoStrings LoopStore LoopDecide.

Open Scope string_scope.
Open Scope nat_scope.

(** ** Data *)

Inductive RunStatus :=
| RunStatusRunning | RunStatusCompleted | RunStatusFailed | RunStatusCanceled
| RunStatusWaiting | RunStatusWaitingOnFlex | RunStatusWaitingOnLoop.
Definition run_status_string (s : RunStatus) : string :=
  match s with
  | RunStatusRunning => "running" | RunStatusCompleted => "completed" | RunStatusFailed => "failed"
  | RunStatusCanceled => "canceled" | RunStatusWaiting => "waiting_on_gate"
  | RunStatusWaitingOnFlex => "waiting_on_flex" | RunStatusWaitingOnLoop => "waiting_on_loop"
  end.

(** The parts of [StepResult] and [VerifyResult] the engine reads. *)
Record StepResult := mkStepResult {
  IsError : bool;
  VerifyResult : option (bool * string);   (** [Passed], [Reason] *)
}.

Record WorkflowLaunchResult := mkWorkflowLaunchResult {
  RunID : string;
  res_Status : RunStatus;
  StepResults : gmap string StepResult;
  res_Error : string;
}.

Record LoopGoalSpec := mkLoopGoalSpec {
  spec_ParentGoalID : string;
  spec_Intent : string;
  spec_DesiredState : list string;
  spec_Constraints : list string;
  spec_AcceptanceCriteria : list string;
  spec_Invariants : list string;
  spec_Priority : string;
  spec_Scope : string;
  spec_Owner : string;
  spec_Source : string;
}.

(** [Params] is [map[string]any], which the engine only forwards. *)
Record LoopInput (Params : Type) := mkLoopInput {
  IdempotencyKey : string;
  in_GoalID : string;
  in_Goal : option LoopGoalSpec;
  in_Budget : Budget;
  in_ContinuationPolicy : ContinuationPolicy;
  in_WorkflowParams : Params;
  in_AgentProfileID : string;
  in_ProjectID : string;
  in_ParentSessionID : string;
  in_TimeoutSeconds : Z;
}.
Arguments mkLoopInput {Params}. Arguments IdempotencyKey {Params}. Arguments in_GoalID {Params}.
Arguments in_Goal {Params}. Arguments in_Budget {Params}. Arguments in_ContinuationPolicy {Params}.
Arguments in_WorkflowParams {Params}. Arguments in_AgentProfileID {Params}.
Arguments in_ProjectID {Params}. Arguments in_ParentSessionID {Params}.
Arguments in_TimeoutSeconds {Params}.

(** [LastDecision] is [None] for Go's zero value. *)
Record LoopResult := mkLoopResult {
  LoopRunID : string;
  result_Status : string;
  result_CurrentIteration : Z;
  LastDecision : option Decision;
}.

Record loopRunPersistentConfig (Params : Type) := mkConfig {
  cfg_ContinuationPolicy : ContinuationPolicy;
  cfg_AgentProfileID : string;
  cfg_ProjectID : string;
  cfg_ParentSessionID : string;
  cfg_TimeoutSeconds : Z;
  cfg_WorkflowParams : Params;
}.
Arguments mkConfig {Params}. Arguments cfg_ContinuationPolicy {Params}.
Arguments cfg_AgentProfileID {Params}. Arguments cfg_ProjectID {Params}.
Arguments cfg_ParentSessionID {Params}. Arguments cfg_TimeoutSeconds {Params}.
Arguments cfg_WorkflowParams {Params}.

Record WorkflowLaunchRequest (Params : Type) := mkWorkflowLaunchRequest {
  WorkflowName : string;
  wl_Params : Params;
  wl_ProjectID : string;
  wl_AgentProfileID : string;
  wl_ParentSessionID : string;
  wl_TimeoutSeconds : Z;
}.
Arguments mkWorkflowLaunchRequest {Params}.

Inductive LoopErr :=
| EStore (e : StoreErr)
| EDecide (e : DecideErr)
| ERequired (what : string)
| EAgentRefused
| EIdempotencyMismatch
| EGoalUnion
| ErrLoopRunAlreadyActive (id status : string)
| EConfigJSON
| ECallerContext
| ELaunch
| ENoRunID
| EResumeWorkflow
| ENoRevision
| ENoIterations
| ENotInFlight
| ENotResumable (status : string)
| ErrLoopRunNotWaitingOnEscalation (status : string)
| ErrImmutableAgentProfile
| ErrUnfinished.

(** The workflow host and the process around the engine, at each step of the
    world.  [launch] and [resume_run] are [WorkflowLauncher.Launch] and
    [WorkflowLauncher.Resume], [notify] the effect of
    [OuterResumeNotifier.NotifyLoopRunTerminal] (its failure is only logged);
    [uuid_sha1] is [uuid.NewSHA1] in the engine's name space. *)
Record Workflows (Params : Type) := mkWorkflows {
  launch : nat → WorkflowLaunchRequest Params → DB → option (option WorkflowLaunchResult) * DB;
  resume_run : nat → string → DB → option WorkflowLaunchResult * DB;
  notify : nat → string → DB → DB;
  outer_configured : bool;
  has_executor : bool;
  creation_allowed : nat → string → bool;   (** [CheckInstanceCreation] *)
  agent_readable : nat → string → bool;     (** [GetAgentForActor] *)
  caller_done : nat → bool;                 (** [ctx.Err() != nil] *)
  deadline_passed : nat → bool;             (** the [MaxRuntimeSeconds] timeout *)
  uuid_sha1 : string → string;
  tick_time : nat → string;                 (** now + 5 min, RFC 3339 *)
}.
Arguments launch {Params}. Arguments resume_run {Params}. Arguments notify {Params}.
Arguments outer_configured {Params}. Arguments has_executor {Params}.
Arguments creation_allowed {Params}. Arguments agent_readable {Params}.
Arguments caller_done {Params}. Arguments deadline_passed {Params}.
Arguments uuid_sha1 {Params}. Arguments tick_time {Params}.
Arguments mkWorkflows {Params}.

(** ** Pure parts *)

(** [isPausedRunStatus]. *)
Definition isPausedRunStatus (s : RunStatus) : bool :=
  match s with
  | RunStatusRunning | RunStatusWaiting | RunStatusWaitingOnFlex | RunStatusWaitingOnLoop => true
  | _ => false
  end.

(** One step of the roll-up of [classifyIterationProgress]: counts and
    regression lines. *)
Definition tally_step (acc : nat * nat * list string) (kv : string * StepResult) :
    nat * nat * list string :=
  let '(passed, failed, regressions) := acc in
  let '(stepID, sr) := kv in
  if IsError sr then (passed, S failed, (regressions ++ [stepID +:+ ": step errored"])%list)
  else match VerifyResult sr with
       | None => acc
       | Some (true, _) => (S passed, failed, regressions)
       | Some (false, reason) => (passed, S failed, (regressions ++ [stepID +:+ ": " +:+ reason])%list)
       end.
Definition tally (steps : list (string * StepResult)) : nat * nat * list string :=
  fold_left tally_step steps (0, 0, []).

(** [classifyIterationProgress]; [None] is a nil result. *)
Definition classifyIterationProgress (HS : Host) (res : option WorkflowLaunchResult) :
    Evaluation * string :=
  match res with
  | None => (mkEvaluation "no workflow launch result" (QArith_base.Qmake 0 1) [], LoopRunIterationProgressBlocked)
  | Some res =>
      match res_Status res with
      | RunStatusRunning | RunStatusWaiting | RunStatusWaitingOnFlex | RunStatusWaitingOnLoop =>
          (mkEvaluation ("iteration workflow run is itself waiting (" +:+
             run_status_string (res_Status res) +:+ ")") (QArith_base.Qmake 0 1) [], LoopRunIterationProgressBlocked)
      | RunStatusCanceled =>
          (mkEvaluation "iteration workflow run was canceled" (QArith_base.Qmake 0 1) [], LoopRunIterationProgressBlocked)
      | _ =>
          let '(passed, failed, regressions) := tally (map_to_list (StepResults res)) in
          let regressions := order_by String.leb regressions in
          let total := passed + failed in
          let confidence := (if bool_decide (0 < total)
                             then QArith_base.Qmake (Z.of_nat passed) (Pos.of_nat total)
                             else QArith_base.Qmake 1 1) in
          let eval delta := mkEvaluation delta confidence regressions in
          match res_Status res with
          | RunStatusFailed =>
              (eval ("iteration workflow run failed: " +:+ res_Error res), LoopRunIterationProgressRegression)
          | _ =>
              if bool_decide (0 < failed) && bool_decide (passed = 0) then
                (eval (fmt_d HS (Z.of_nat failed) +:+ " of " +:+ fmt_d HS (Z.of_nat total) +:+
                       " verified steps failed, none passed"), LoopRunIterationProgressRegression)
              else if bool_decide (0 < failed) then
                (eval (fmt_d HS (Z.of_nat failed) +:+ " of " +:+ fmt_d HS (Z.of_nat total) +:+
                       " verified steps failed"), LoopRunIterationProgressNoProgress)
              else (eval "iteration completed with no unresolved verify failures",
                    LoopRunIterationProgressProgress)
          end
      end
  end.

(** [isZeroContinuationPolicy]. *)
Definition isZeroContinuationPolicy (p : ContinuationPolicy) : bool :=
  bool_decide (Provider p = "") && bool_decide (Model_ p = "") && bool_decide (AgentID p = "")
  && bool_decide (SessionID p = "") && bool_decide (Tools p = []).

(** [loopRunTickScheduleID]. *)
Definition loopRunTickScheduleID (loopRunID : string) : string := "loop_run_tick:" +:+ loopRunID.

(** The in-memory updates of [*store.LoopRun]. *)
Definition lr_incr (lr : LoopRun) : LoopRun := lr_bump (lr_UpdatedAt lr) lr.
Definition lr_streak (lr : LoopRun) (n : Z) : LoopRun := lr_set_streak n (lr_UpdatedAt lr) lr.

(** What acting on a decision leads to: the call returns, or the loop goes on
    with the updated run, goal and history. *)
Inductive outcome :=
| Stops (r : LoopResult)
| GoesOn (lr : LoopRun) (goal : Goal) (history : list LoopRunIteration).

(** ** The engine *)

Section Engine.
Context {Params : Type} (nilParams : Params).
Context `{JSON (list string)} `{JSON Budget} `{JSON Evaluation} `{JSON reasoningResponse}
        `{JSON (loopRunPersistentConfig Params)}.
Context (O : Oracle) (HS : Host) (WF : Workflows Params).

Abbreviation engine := (act World LoopErr).
Abbreviation st m := (wrap EStore m).

(** A read of the environment at the current step. *)
Definition ask {A} (f : nat → A) : engine A := λ w, (Ok (f (w_tick w)), next w).
(** A call that may write the database. *)
Definition call {A} (f : nat → DB → option A * DB) (e : LoopErr) : engine A := λ w,
  let '(r, db') := f (w_tick w) (w_db w) in
  (match r with Some a => Ok a | None => Err e end, mkWorld db' (S (w_tick w))).

(** [notifyOuterOnTerminal]. *)
Definition terminal_status (s : string) : bool :=
  bool_decide (s ∈ [LoopRunStatusCompleted; LoopRunStatusFailed; LoopRunStatusCanceled]).
Definition notifyOuterOnTerminal (loopRunID status : string) : engine unit :=
  if negb (outer_configured WF) then mret tt
  else if terminal_status status
  then call (λ t db, (Some tt, notify WF t loopRunID db)) EAgentRefused
  else mret tt.

(** [encodeLoopRunPersistentConfig], [decodeLoopRunPersistentConfig]. *)
Definition zeroConfig : loopRunPersistentConfig Params :=
  mkConfig (mkContinuationPolicy "" "" "" "" []) "" "" "" 0 nilParams.
Definition encodeLoopRunPersistentConfig (cfg : loopRunPersistentConfig Params) : result LoopErr string :=
  match marshal cfg with Some s => Ok s | None => Err EConfigJSON end.
Definition decodeLoopRunPersistentConfig (raw : string) : result LoopErr (loopRunPersistentConfig Params) :=
  if bool_decide (raw = "") || bool_decide (raw = "{}") then Ok zeroConfig
  else match unmarshal raw with Some cfg => Ok cfg | None => Err EConfigJSON end.

(** [deterministicLoopIdentity]. *)
Definition deterministicLoopIdentity (key : string) : string :=
  uuid_sha1 WF ("nanite-workflow-loop:" +:+ key).

(** [jsonMarshalLoopRunTickPayload], for an identifier without characters JSON
    escapes. *)
Definition quoted (s : string) : string := String (byte 34) s +:+ String (byte 34) "".
Definition jsonMarshalLoopRunTickPayload (loopRunID : string) : string :=
  "{" +:+ quoted "loop_run_id" +:+ ":" +:+ quoted loopRunID +:+ "}".

(** [scheduleLoopRunTick].  The row's fixed shape passes [ValidateAgentSchedule];
    [INSERT OR REPLACE] keeps one row per id. *)
Definition scheduleLoopRunTick (loopRunID agentProfileID : string) : engine unit :=
  if bool_decide (agentProfileID = "") then fail (ERequired "agent_profile_id")
  else
    t ← ask (tick_time WF);
    let row := mkAgentSchedule (loopRunTickScheduleID loopRunID) agentProfileID "loop_run_tick"
                 "one_shot" ("loop_run_tick poll for loop_run " +:+ loopRunID) t "loop_run_tick"
                 (jsonMarshalLoopRunTickPayload loopRunID) in
    st (exec O (λ db, Ok (tt, set_schedules db
          (delete_row (actor_schedules db) (sched_ID row) ++ [row])%list))).

(** [applyRearchitect]: the revised goal, once stored. *)
Definition applyRearchitect (goal : Goal) (revision : option GoalRevision) : engine Goal :=
  match revision with
  | None => fail ENoRevision
  | Some r =>
      goal ← (match rev_DesiredState r with
              | [] => mret goal
              | items => st (lift (SetDesiredState goal items)) end);
      goal ← (match rev_AcceptanceCriteria r with
              | [] => mret goal
              | items => st (lift (SetAcceptanceCriteria goal items)) end);
      _ ← st (UpdateGoal O goal);
      mret (goal_defaults goal (goal_Status goal))
  end.

(** [escalateOnBoundedContextExceeded]. *)
Definition escalateOnBoundedContextExceeded (lr : LoopRun) (budget : Budget) : engine LoopResult :=
  let failed := bool_decide (OnExhausted budget = LoopRunOnExhaustedFail) in
  let status := if failed then LoopRunStatusFailed else LoopRunStatusWaitingOnEscalation in
  completedAt ← (if failed then t ← st (now O); mret (Some t) else mret None);
  _ ← st (UpdateLoopRunStatus O (lr_ID lr) status completedAt);
  _ ← notifyOuterOnTerminal (lr_ID lr) status;
  mret (mkLoopResult (lr_ID lr) status (CurrentIteration lr) None).

(** [launchIteration]. *)
Definition launchIteration (lr : LoopRun) (defName : string) (cfg : loopRunPersistentConfig Params)
    (iterationNumber : Z) : engine (LoopRun * LoopRunIteration * WorkflowLaunchResult) :=
  _ ← st (BumpLoopRunIteration O (lr_ID lr));
  let lr := lr_incr lr in
  launchResult ← call (λ t db, launch WF t
    (mkWorkflowLaunchRequest defName (cfg_WorkflowParams cfg) (cfg_ProjectID cfg)
       (cfg_AgentProfileID cfg) (cfg_ParentSessionID cfg) (cfg_TimeoutSeconds cfg)) db) ELaunch;
  match launchResult with
  | None => fail ENoRunID
  | Some res =>
      if bool_decide (RunID res = "") then fail ENoRunID
      else
        _ ← st (UpdateWorkflowRunLoopScope O (RunID res) (lr_ID lr) iterationNumber);
        row ← st (CreateLoopRunIteration O
          (mkLoopRunIteration "" (lr_ID lr) iterationNumber (RunID res) "" "" "" "" ""));
        mret (lr, row, res)
  end.

(** [thisIteration] after its progress, completion time and evaluation are
    filled in, and after its decision is. *)
Definition it_evaluated (i : LoopRunIteration) (progress t : string) : LoopRunIteration :=
  mkLoopRunIteration (it_ID i) (it_LoopRunID i) (IterationNumber i) (WorkflowRunID i) (it_Decision i)
    progress (EvaluationJSON i) (it_StartedAt i) t.
Definition it_decided (i : LoopRunIteration) (decision : string) : LoopRunIteration :=
  mkLoopRunIteration (it_ID i) (it_LoopRunID i) (IterationNumber i) (WorkflowRunID i) decision
    (ProgressState i) (EvaluationJSON i) (it_StartedAt i) (it_CompletedAt i).

(** The [switch decision.Kind] at the end of [evaluateDecideAndAct]. *)
Definition actOn (lr : LoopRun) (goal : Goal) (history : list LoopRunIteration) (decision : Decision) :
    engine outcome :=
  let stop status := Stops (mkLoopResult (lr_ID lr) status (CurrentIteration lr) (Some decision)) in
  let finish status :=
    t ← st (now O);
    _ ← st (UpdateLoopRunStatus O (lr_ID lr) status (Some t));
    _ ← notifyOuterOnTerminal (lr_ID lr) status;
    mret (stop status) in
  match Kind decision with
  | DecisionContinue | DecisionRetry | DecisionReplan => mret (GoesOn lr goal history)
  | DecisionRearchitect =>
      goal ← applyRearchitect goal (Revision decision);
      mret (GoesOn lr goal history)
  | DecisionWait | DecisionEscalate =>
      _ ← st (UpdateLoopRunStatus O (lr_ID lr) LoopRunStatusWaitingOnEscalation None);
      _ ← (if bool_decide (Kind decision = DecisionWait) then
             cfg ← lift (decodeLoopRunPersistentConfig (ContinuationPolicyJSON lr));
             scheduleLoopRunTick (lr_ID lr) (cfg_AgentProfileID cfg)
           else mret tt);
      mret (stop LoopRunStatusWaitingOnEscalation)
  | DecisionComplete => finish LoopRunStatusCompleted
  | DecisionFail => finish LoopRunStatusFailed
  end.

(** [evaluateDecideAndAct]. *)
Definition evaluateDecideAndAct (lr : LoopRun) (goal : Goal) (iterRow : LoopRunIteration)
    (launchResult : WorkflowLaunchResult) (policy : ContinuationPolicy) (budget : Budget)
    (priorHistory : list LoopRunIteration) : engine outcome :=
  let '(evaluation, progressState) := classifyIterationProgress HS (Some launchResult) in
  met ← st (EvidenceSatisfiesGoal O (goal_ID goal));
  let progressState := if (met.1 : bool) then LoopRunIterationProgressGoalMet else progressState in
  t ← st (now O);
  thisIteration ← st (lift (SetEvaluation (it_evaluated iterRow progressState t) evaluation));
  decision ← wrap EDecide (Decide O HS (has_executor WF) goal met.1 evaluation
                             (priorHistory ++ [thisIteration])%list budget policy);
  _ ← st (CompleteLoopRunIteration O (it_ID iterRow) (RunID launchResult)
            (kind_string (Kind decision)) progressState evaluation);
  let fullHistory := (priorHistory ++ [it_decided thisIteration (kind_string (Kind decision))])%list in
  let streak := noProgressStreak fullHistory in
  _ ← st (UpdateLoopRunNoProgressStreak O (lr_ID lr) streak);
  actOn (lr_streak lr streak) goal fullHistory decision.

(** The [for] loop of [driveIterations].  [ctx.Err()] and [runCtx.Err()] are two
    reads; without a runtime budget the second context is the first one. *)
Fixpoint drive (fuel : nat) (budget : Budget) (lr : LoopRun) (goal : Goal) (defName : string)
    (cfg : loopRunPersistentConfig Params) (history : list LoopRunIteration) : engine LoopResult :=
  match fuel with
  | 0 => fail ErrUnfinished
  | S fuel' =>
      ctxDone ← ask (caller_done WF);
      if (ctxDone : bool) then fail ECallerContext
      else
        runDone ← ask (λ t, caller_done WF t ||
                            ((0 <? MaxRuntimeSeconds budget)%Z && deadline_passed WF t));
        if (runDone : bool) then escalateOnBoundedContextExceeded lr budget
        else
          launched ← launchIteration lr defName cfg (Z.of_nat (length history) + 1);
          let '(lr, iterRow, launchResult) := launched in
          if isPausedRunStatus (res_Status launchResult) then
            _ ← st (UpdateLoopRunStatus O (lr_ID lr) LoopRunStatusWaitingOnGate None);
            mret (mkLoopResult (lr_ID lr) LoopRunStatusWaitingOnGate (CurrentIteration lr) None)
          else
            o ← evaluateDecideAndAct lr goal iterRow launchResult (cfg_ContinuationPolicy cfg)
                  budget history;
            match o with
            | Stops r => mret r
            | GoesOn lr goal history => drive fuel' budget lr goal defName cfg history
            end
  end.

(** [driveIterations]. *)
Definition driveIterations (fuel : nat) (lr : LoopRun) (goal : Goal) (defName : string)
    (cfg : loopRunPersistentConfig Params) (history : list LoopRunIteration) : engine LoopResult :=
  budget ← st (lift (LoopRun_Budget lr));
  drive fuel budget lr goal defName cfg history.

(** A lookup whose "not found" is an answer rather than an error. *)
Definition optional {A} (m : act World StoreErr A) (notFound : StoreErr → bool) : engine (option A) := λ w,
  match m w with
  | (Ok a, w') => (Ok (Some a), w')
  | (Err e, w') => (if notFound e then Ok None else Err (EStore e), w')
  end.

(** [resolveGoal]. *)
Definition inline_goal (spec : LoopGoalSpec) (id : string) : Goal :=
  mkGoal id (spec_ParentGoalID spec) (spec_Intent spec) "" "" "" "" (spec_Priority spec)
    (spec_Scope spec) "" (spec_Owner spec) (spec_Source spec) "" "" "".
Definition create_inline_goal (spec : LoopGoalSpec) (id : string) : engine Goal :=
  g ← st (lift (SetDesiredState (inline_goal spec id) (spec_DesiredState spec)));
  g ← st (lift (SetConstraints g (spec_Constraints spec)));
  g ← st (lift (SetAcceptanceCriteria g (spec_AcceptanceCriteria spec)));
  g ← st (lift (SetInvariants g (spec_Invariants spec)));
  st (CreateGoal O g).
Definition resolveGoal (input : LoopInput Params) : engine Goal :=
  match in_Goal input with
  | Some spec =>
      if negb (bool_decide (in_GoalID input = "")) then fail EGoalUnion
      else if bool_decide (IdempotencyKey input = "") then create_inline_goal spec ""
      else
        let id := deterministicLoopIdentity (IdempotencyKey input +:+ ":goal") in
        existing ← optional (GetGoal O id)
                     (λ e, match e with ErrGoalNotFound => true | _ => false end);
        match existing with
        | Some g => mret g
        | None => create_inline_goal spec id
        end
  | None =>
      if bool_decide (in_GoalID input = "") then fail EGoalUnion
      else st (GetGoal O (in_GoalID input))
  end.

(** [Run], from the active-run check on. *)
Definition launchLoopRun (fuel : nat) (workflowName : string) (input : LoopInput Params)
    (loopRunID : string) : engine LoopResult :=
  goal ← resolveGoal input;
  active ← st (ListLoopRuns O (mkLoopRunFilter (goal_ID goal) LoopRunActiveStatuses));
  match active with
  | r :: _ => fail (ErrLoopRunAlreadyActive (lr_ID r) (lr_Status r))
  | [] =>
      let cfg := mkConfig (in_ContinuationPolicy input) (in_AgentProfileID input) (in_ProjectID input)
                   (in_ParentSessionID input) (in_TimeoutSeconds input) (in_WorkflowParams input) in
      cfgJSON ← lift (encodeLoopRunPersistentConfig cfg);
      lr ← st (lift (SetBudget
             (mkLoopRun loopRunID (goal_ID goal) workflowName "" 0 "" cfgJSON 0 "" "" "")
             (in_Budget input)));
      lr ← st (CreateLoopRun O lr);
      driveIterations fuel lr goal workflowName cfg []
  end.

(** [LoopEngine.Run]. *)
Definition Run (fuel : nat) (workflowName : string) (input : LoopInput Params) : engine LoopResult :=
  if bool_decide (workflowName = "") then fail (ERequired "workflow name")
  else if bool_decide (in_AgentProfileID input = "") then fail (ERequired "agent_profile_id")
  else
    allowed ← ask (λ t, creation_allowed WF t (in_AgentProfileID input));
    if negb (allowed : bool) then fail EAgentRefused
    else if bool_decide (IdempotencyKey input = "") then launchLoopRun fuel workflowName input ""
    else
      let loopRunID := deterministicLoopIdentity (IdempotencyKey input) in
      existing ← optional (GetLoopRun O loopRunID)
                   (λ e, match e with ErrLoopRunNotFound => true | _ => false end);
      match existing with
      | Some r =>
          if negb (bool_decide (DefinitionName r = workflowName)) ||
             (negb (bool_decide (in_GoalID input = "")) && negb (bool_decide (lr_GoalID r = in_GoalID input)))
          then fail EIdempotencyMismatch
          else mret (mkLoopResult (lr_ID r) (lr_Status r) (CurrentIteration r) None)
      | None => launchLoopRun fuel workflowName input loopRunID
      end.

(** [resumeBlockedIteration]. *)
Definition resumeBlockedIteration (fuel : nat) (lr : LoopRun) (goal : Goal)
    (cfg : loopRunPersistentConfig Params) (history : list LoopRunIteration) : engine LoopResult :=
  match last history with
  | None => fail ENoIterations
  | Some l =>
      if negb (bool_decide (it_Decision l = "")) || bool_decide (WorkflowRunID l = "")
      then fail ENotInFlight
      else
        launchResult ← call (λ t db, resume_run WF t (WorkflowRunID l) db) EResumeWorkflow;
        if isPausedRunStatus (res_Status launchResult)
        then mret (mkLoopResult (lr_ID lr) (lr_Status lr) (CurrentIteration lr) None)
        else
          budget ← st (lift (LoopRun_Budget lr));
          o ← evaluateDecideAndAct lr goal l launchResult (cfg_ContinuationPolicy cfg) budget
                (removelast history);
          match o with
          | Stops r => mret r
          | GoesOn lr goal history => driveIterations fuel lr goal (DefinitionName lr) cfg history
          end
  end.

(** [LoopEngine.Resume]. *)
Definition Resume (fuel : nat) (loopRunID : string) : engine LoopResult :=
  if bool_decide (loopRunID = "") then fail (ERequired "loop_run_id")
  else
    lr ← st (GetLoopRun O loopRunID);
    goal ← st (GetGoal O (lr_GoalID lr));
    cfg ← lift (decodeLoopRunPersistentConfig (ContinuationPolicyJSON lr));
    readable ← ask (λ t, agent_readable WF t (cfg_AgentProfileID cfg));
    if negb (readable : bool) then fail EAgentRefused
    else
      allowed ← (if bool_decide (lr_Status lr = LoopRunStatusWaitingOnEscalation)
                 then ask (λ t, creation_allowed WF t (cfg_AgentProfileID cfg)) else mret true);
      if negb (allowed : bool) then fail EAgentRefused
      else
        history ← st (ListLoopRunIterations O (lr_ID lr));
        if bool_decide (lr_Status lr = LoopRunStatusWaitingOnGate)
        then resumeBlockedIteration fuel lr goal cfg history
        else if bool_decide (lr_Status lr = LoopRunStatusWaitingOnEscalation)
        then driveIterations fuel lr goal (DefinitionName lr) cfg history
        else fail (ENotResumable (lr_Status lr)).

(** [TickResumeBridge.Resume]; the evaluator it calls,
    [EvaluateLoopRunResumeReflexes], refuses before it reads anything. *)
Definition EvaluateLoopRunResumeReflexes : result LoopErr (bool * bool) := Err ErrImmutableAgentProfile.
Definition TickResume (reflexConfigured : bool) (loopRunID : string) : engine LoopResult :=
  if negb reflexConfigured then fail (ERequired "reflex engine")
  else if bool_decide (loopRunID = "") then fail (ERequired "loop_run_id")
  else
    _ ← lift EvaluateLoopRunResumeReflexes;
    fail ErrImmutableAgentProfile.

(** [LoopLauncher.Cancel]. *)
Definition Cancel (loopRunID : string) : engine unit :=
  if bool_decide (loopRunID = "") then fail (ERequired "loop_run_id")
  else
    t ← st (now O);
    _ ← st (UpdateLoopRunStatus O loopRunID LoopRunStatusCanceled (Some t));
    notifyOuterOnTerminal loopRunID LoopRunStatusCanceled.

Record ReplanOverride := mkReplanOverride {
  rp_DefinitionName : string;
  rp_DesiredState : list string;
  rp_AcceptanceCriteria : list string;
}.
Record EscalationOverride := mkEscalationOverride {
  ForceComplete : bool;
  ForceCancel : bool;
  Replan : option ReplanOverride;
}.

(** [applyReplan]. *)
Definition applyReplan (lr : LoopRun) (replan : ReplanOverride) : engine unit :=
  _ ← (if bool_decide (rp_DefinitionName replan = "") then mret tt
       else st (UpdateLoopRunDefinitionName O (lr_ID lr) (rp_DefinitionName replan)));
  match rp_DesiredState replan, rp_AcceptanceCriteria replan with
  | [], [] => mret tt
  | ds, ac =>
      goal ← st (GetGoal O (lr_GoalID lr));
      _ ← applyRearchitect goal (Some (mkGoalRevision ds ac));
      mret tt
  end.

(** [LoopLauncher.ResolveEscalation]. *)
Definition ResolveEscalation (fuel : nat) (loopRunID : string) (override : option EscalationOverride) :
    engine LoopResult :=
  if bool_decide (loopRunID = "") then fail (ERequired "loop_run_id")
  else
    lr ← st (GetLoopRun O loopRunID);
    if negb (bool_decide (lr_Status lr = LoopRunStatusWaitingOnEscalation))
    then fail (ErrLoopRunNotWaitingOnEscalation (lr_Status lr))
    else
      match override with
      | Some (mkEscalationOverride true _ _) =>
          t ← st (now O);
          _ ← st (UpdateLoopRunStatus O loopRunID LoopRunStatusCompleted (Some t));
          _ ← notifyOuterOnTerminal loopRunID LoopRunStatusCompleted;
          mret (mkLoopResult loopRunID LoopRunStatusCompleted (CurrentIteration lr) None)
      | Some (mkEscalationOverride false true _) =>
          _ ← Cancel loopRunID;
          mret (mkLoopResult loopRunID LoopRunStatusCanceled (CurrentIteration lr) None)
      | Some (mkEscalationOverride false false (Some replan)) =>
          _ ← applyReplan lr replan;
          Resume fuel loopRunID
      | _ => Resume fuel loopRunID
      end.

(** ** Lemmas: the shape of a successful call *)

Lemma ask_Ok {A} (f : nat → A) w a w' : ask f w = (Ok a, w') → a = f (w_tick w) ∧ w_db w' = w_db w.
Proof. by intros [= -> <-]. Qed.

(** What goes on after [actOn]: the verdict is not one that stops, and the run,
    its key and its budget are the same. *)
Lemma actOn_GoesOn lr goal history d w lr' goal' history' w' :
  actOn lr goal history d w = (Ok (GoesOn lr' goal' history'), w') →
  lr' = lr ∧ history' = history ∧ Kind d ≠ DecisionComplete ∧ Kind d ≠ DecisionEscalate ∧
  Kind d ≠ DecisionFail ∧ Kind d ≠ DecisionWait.
Proof.
  unfold actOn. destruct (Kind d) eqn:Hk.
  1-3: by intros [= <- <- <- <-].
  1: intros (g & w1 & _ & [= <- <- <- <-])%bind_Ok; done.
  all: intros Hb; repeat (apply bind_Ok in Hb as (? & ? & _ & Hb)); by apply mret_Ok in Hb as [? _].
Qed.

(** The loop goes on only with one more iteration and only within the budget. *)
Lemma evaluate_GoesOn lr goal row res pol b prior w lr' goal' history' w' :
  evaluateDecideAndAct lr goal row res pol b prior w = (Ok (GoesOn lr' goal' history'), w') →
  lr_ID lr' = lr_ID lr ∧ BudgetJSON lr' = BudgetJSON lr ∧ length history' = S (length prior) ∧
  ((MaxIterations b ≤ 0)%Z ∨ (Z.of_nat (S (length prior)) < MaxIterations b)%Z).
Proof.
  unfold evaluateDecideAndAct. destruct (classifyIterationProgress HS (Some res)) as [ev ps].
  intros ([met ?] & w1 & _ & Hb)%bind_Ok. cbn [fst] in Hb.
  apply bind_Ok in Hb as (t & w2 & _ & Hb). apply bind_Ok in Hb as (this & w3 & _ & Hb).
  apply bind_Ok in Hb as (d & w4 & Hd%wrap_Ok & Hb). apply bind_Ok in Hb as ([] & w5 & _ & Hb).
  apply bind_Ok in Hb as ([] & w6 & _ & Hb).
  apply actOn_GoesOn in Hb as (-> & -> & Hc & He & Hf & _).
  split; [done|]. split; [done|]. rewrite length_app. cbn [length]. split; [lia|].
  destruct (Decide_cases O HS (has_executor WF) goal met ev (prior ++ [this])%list b pol w3)
    as [[_ Heq]|[(_ & _ & k & r & w7 & Hk & Heq & _)|[(_ & [Hw _] & _)|(_ & [Hw _] & _)]]].
  - rewrite Heq in Hd. by injection Hd as <- _.
  - rewrite Heq in Hd. injection Hd as <- _. cbn in *. destruct Hk as [[-> _]|[-> _]]; done.
  - rewrite length_app in Hw. cbn in Hw. lia.
  - rewrite length_app in Hw. cbn in Hw. lia.
Qed.

(** An error of the store, of the policy or of a parameter is not the error of a
    loop out of fuel. *)
Lemma wrap_EStore_fuel {A} (m : act World StoreErr A) w : (wrap EStore m w).1 ≠ Err ErrUnfinished.
Proof. unfold wrap. by destruct (m w) as [[?|?] ?]. Qed.
Definition finishes {A} (m : engine A) : Prop := ∀ w, (m w).1 ≠ Err ErrUnfinished.
Lemma finishes_bind {A B} (m : engine A) (k : A → engine B) :
  finishes m → (∀ a, finishes (k a)) → finishes (m ≫= k).
Proof.
  intros Hm Hk w. unfold mbind, act_bind. specialize (Hm w).
  destruct (m w) as [[a|e] w']; cbn in *; [apply Hk|intros [= ->]; by destruct Hm].
Qed.
Lemma finishes_st {A} (m : act World StoreErr A) : finishes (st m).
Proof. intros w. apply wrap_EStore_fuel. Qed.
Lemma finishes_decide {A} (m : act World DecideErr A) : finishes (wrap EDecide m).
Proof. intros w. unfold wrap. by destruct (m w) as [[?|?] ?]. Qed.
Lemma finishes_ret {A} (a : A) : finishes (mret a).
Proof. by intros w. Qed.
Lemma finishes_fail {A} e : e ≠ ErrUnfinished → finishes (fail e : engine A).
Proof. intros ? w. cbn. congruence. Qed.
Lemma finishes_ask {A} (f : nat → A) : finishes (ask f).
Proof. by intros w. Qed.
Lemma finishes_call {A} (f : nat → DB → option A * DB) e : e ≠ ErrUnfinished → finishes (call f e).
Proof. intros He w. unfold call. destruct (f _ _) as [[a|] db]; cbn; congruence. Qed.
Lemma finishes_lift {A} (r : result LoopErr A) : r ≠ Err ErrUnfinished → finishes (lift r).
Proof. intros ? w. done. Qed.
Lemma finishes_decode raw : finishes (lift (decodeLoopRunPersistentConfig raw)).
Proof.
  apply finishes_lift. unfold decodeLoopRunPersistentConfig. case_if; [done|]. by destruct (unmarshal raw).
Qed.
Lemma finishes_encode cfg : finishes (lift (encodeLoopRunPersistentConfig cfg)).
Proof. apply finishes_lift. unfold encodeLoopRunPersistentConfig. by destruct (marshal cfg). Qed.
Lemma finishes_optional {A} (m : act World StoreErr A) nf : finishes (optional m nf).
Proof. intros w. unfold optional. destruct (m w) as [[?|?] ?]; [done|]. cbn. by case_if. Qed.

(** Run a handler's text; what is left are the calls that may loop. *)
Ltac finishes_with tac :=
  repeat first
    [ tac
    | apply finishes_bind; [|intros ?] | apply finishes_st | apply finishes_decide
    | apply finishes_ret | apply finishes_fail; done | apply finishes_ask
    | apply finishes_call; done | apply finishes_decode | apply finishes_encode
    | apply finishes_optional
    | progress case_if
    | match goal with |- finishes (match ?x with _ => _ end) => destruct x end
    | match goal with |- finishes (let '(_, _) := ?x in _) => destruct x end ].
Ltac finishes_tac := finishes_with fail.

Lemma actOn_finishes lr goal history d : finishes (actOn lr goal history d).
Proof.
  unfold actOn, applyRearchitect, scheduleLoopRunTick, notifyOuterOnTerminal.
  destruct (Kind d); finishes_tac.
Qed.
Lemma evaluate_finishes lr goal row res pol b prior :
  finishes (evaluateDecideAndAct lr goal row res pol b prior).
Proof.
  unfold evaluateDecideAndAct. destruct (classifyIterationProgress HS (Some res)) as [ev ps].
  finishes_tac. apply actOn_finishes.
Qed.
Lemma launchIteration_finishes lr defName cfg n : finishes (launchIteration lr defName cfg n).
Proof. unfold launchIteration. finishes_tac. Qed.
Lemma escalate_finishes lr b : finishes (escalateOnBoundedContextExceeded lr b).
Proof. unfold escalateOnBoundedContextExceeded, notifyOuterOnTerminal. finishes_tac. Qed.

(** The bound: with [MaxIterations] set, one turn more than the iterations that
    are left. *)
Lemma drive_finishes fuel b lr goal defName cfg history :
  (0 < MaxIterations b)%Z →
  S (Z.to_nat (MaxIterations b) - S (length history)) ≤ fuel →
  finishes (drive fuel b lr goal defName cfg history).
Proof.
  intros Hpos. revert lr goal history. induction fuel as [|fuel IH]; intros lr goal history Hf; [lia|].
  cbn [drive]. apply finishes_bind; [apply finishes_ask|intros ctxDone]. case_if; [finishes_tac|].
  apply finishes_bind; [apply finishes_ask|intros runDone]. case_if; [apply escalate_finishes|].
  apply finishes_bind; [apply launchIteration_finishes|intros [[lr1 row] res]].
  case_if; [finishes_tac|]. intros w. unfold mbind, act_bind.
  pose proof (evaluate_finishes lr1 goal row res (cfg_ContinuationPolicy cfg) b history w) as Hfin.
  destruct (evaluateDecideAndAct _ _ _ _ _ _ _ w) as [[[r|lr2 goal2 h2]|e] w'] eqn:He; cbn in *; try done.
  2: { intros [= ->]. by destruct Hfin. }
  apply evaluate_GoesOn in He as (_ & _ & Hlen & Hmax). apply IH. lia.
Qed.

(** ** Lemmas: what the engine's calls do to the database *)

(** The workflow host and the notifier move the database along [R]. *)
Definition host_stays (R : relation DB) : Prop :=
  (∀ t req db, R db (launch WF t req db).2) ∧
  (∀ t id db, R db (resume_run WF t id db).2) ∧
  (∀ t id db, R db (notify WF t id db)).

(** Every statement the engine issues for the run [id] moves the database along
    [R]. *)
Record stmts_stay (R : relation DB) (id : string) : Prop := {
  os_status s c : stays (dbR R) (UpdateLoopRunStatus O id s c);
  os_bump : stays (dbR R) (BumpLoopRunIteration O id);
  os_streak n : stays (dbR R) (UpdateLoopRunNoProgressStreak O id n);
  os_name s : stays (dbR R) (UpdateLoopRunDefinitionName O id s);
  os_scope a n : stays (dbR R) (UpdateWorkflowRunLoopScope O a id n);
  os_complete i wr d p e : stays (dbR R) (CompleteLoopRunIteration O i wr d p e);
  os_goal g : stays (dbR R) (UpdateGoal O g);
  os_schedule f : stays (dbR R) (exec O (λ db, Ok (tt, set_schedules db (f db))));
}.
(** And so does the host. *)
Record ops_stay (R : relation DB) (id : string) : Prop := {
  os_host : host_stays R;
  os_stmts :> stmts_stay R id;
}.
Lemma stmts_both (R1 R2 R : relation DB) id :
  (∀ db db', R1 db db' → R2 db db' → R db db') → stmts_stay R1 id → stmts_stay R2 id → stmts_stay R id.
Proof.
  intros HR [] []. unfold stays, dbR in *.
  split; intros; unfold stays, dbR; intros w; apply HR; auto.
Qed.
Lemma host_weaken (R1 R2 : relation DB) :
  (∀ db db', R1 db db' → R2 db db') → host_stays R1 → host_stays R2.
Proof. intros HR (? & ? & ?). split_and!; auto. Qed.

Section Stays.
Context (R : relation DB) `{!PreOrder R} (id : string) (OS : ops_stay R id).

Lemma stays_ask {A} (f : nat → A) : stays (dbR R) (ask f).
Proof. intros w. unfold dbR. cbn. reflexivity. Qed.
Lemma stays_call {A} (f : nat → DB → option A * DB) e :
  (∀ t db, R db (f t db).2) → stays (dbR R) (call f e).
Proof.
  intros Hf w. unfold call, dbR. specialize (Hf (w_tick w) (w_db w)).
  by destruct (f _ _) as [[a|] db].
Qed.
Lemma stays_notify i s : stays (dbR R) (notifyOuterOnTerminal i s).
Proof.
  unfold notifyOuterOnTerminal. stays_statements. apply stays_call. intros t db. cbn.
  destruct OS as [[_ [_ Hn]]]. apply Hn.
Qed.
Lemma stays_evidence g : stays (dbR R) (EvidenceSatisfiesGoal O g).
Proof.
  unfold EvidenceSatisfiesGoal, EvaluateGoalEvidence, GetGoal, ListGoalEvidence. stays_statements.
Qed.
Lemma stays_Decide ex goal met ev h b pol : stays (dbR R) (Decide O HS ex goal met ev h b pol).
Proof. intros w. unfold dbR. rewrite Decide_db. reflexivity. Qed.
Lemma stays_rearchitect goal rev :
  (∀ g, stays (dbR R) (UpdateGoal O g)) → stays (dbR R) (applyRearchitect goal rev).
Proof.
  intros Hgoal. unfold applyRearchitect. destruct rev as [[ds ac]|]; [|stays_statements].
  cbn. destruct ds, ac;
    repeat first [ apply stays_wrap, Hgoal | apply stays_wrap, stays_lift; exact _
                 | apply stays_bind; [exact _| |intros ?] | apply stays_ret; exact _ ].
Qed.
Lemma stays_tick i agent :
  (∀ f, stays (dbR R) (exec O (λ db, Ok (tt, set_schedules db (f db))))) →
  stays (dbR R) (scheduleLoopRunTick i agent).
Proof.
  intros Hs. unfold scheduleLoopRunTick. apply stays_if; [stays_statements|].
  apply stays_bind; [exact _|apply stays_ask|intros t]. apply stays_wrap. apply (Hs (λ db, _)).
Qed.

(** Run a handler's text along [R]. *)
Ltac engine_stays :=
  repeat first
    [ apply stays_ask | apply stays_notify | apply stays_evidence | apply stays_Decide
    | apply stays_rearchitect, (os_goal _ _ OS) | apply stays_tick, (os_schedule _ _ OS)
    | apply (os_status _ _ OS) | apply (os_bump _ _ OS) | apply (os_streak _ _ OS)
    | apply (os_name _ _ OS)
    | apply (os_scope _ _ OS) | apply (os_complete _ _ OS) | apply (os_goal _ _ OS)
    | apply stays_if
    | apply stays_bind; [exact _| |intros ?]
    | apply stays_fail; exact _ | apply stays_ret; exact _ | apply stays_lift; exact _
    | apply stays_now; exact _ | apply stays_query; exact _ | apply stays_wrap ].

Lemma stays_actOn lr goal h d : lr_ID lr = id → stays (dbR R) (actOn lr goal h d).
Proof. intros Hid. unfold actOn. rewrite Hid. destruct (Kind d); engine_stays. Qed.
Lemma stays_evaluate lr goal row res pol b prior :
  lr_ID lr = id → stays (dbR R) (evaluateDecideAndAct lr goal row res pol b prior).
Proof.
  intros Hid. unfold evaluateDecideAndAct. rewrite Hid.
  destruct (classifyIterationProgress HS (Some res)) as [ev ps]. engine_stays. by apply stays_actOn.
Qed.
Lemma stays_escalate lr b : lr_ID lr = id → stays (dbR R) (escalateOnBoundedContextExceeded lr b).
Proof. intros Hid. unfold escalateOnBoundedContextExceeded. rewrite Hid. engine_stays. Qed.
Lemma stays_applyReplan lr rp : lr_ID lr = id → stays (dbR R) (applyReplan lr rp).
Proof.
  intros Hid. unfold applyReplan, GetGoal. rewrite Hid.
  destruct (rp_DesiredState rp), (rp_AcceptanceCriteria rp); engine_stays.
Qed.
Lemma stays_Cancel : stays (dbR R) (Cancel id).
Proof. unfold Cancel. engine_stays. Qed.

(** With the insert of an iteration row as well, the whole loop. *)
Context (Hiter : ∀ li, it_LoopRunID li = id → stays (dbR R) (CreateLoopRunIteration O li)).

Lemma stays_launchIteration lr defName cfg n :
  lr_ID lr = id → stays (dbR R) (launchIteration lr defName cfg n).
Proof.
  intros Hid. unfold launchIteration. change (lr_ID (lr_incr lr)) with (lr_ID lr). rewrite Hid.
  apply stays_bind; [exact _|engine_stays|intros []].
  apply stays_bind; [exact _| |intros [res|]; [|engine_stays]].
  { apply stays_call. intros t db. destruct OS as [[Hl _]]. apply Hl. }
  apply stays_if; [engine_stays|]. apply stays_bind; [exact _|engine_stays|intros []].
  apply stays_bind; [exact _|apply stays_wrap; by apply Hiter|intros ?; engine_stays].
Qed.
Lemma launchIteration_id lr defName cfg n w lr' row res w' :
  launchIteration lr defName cfg n w = (Ok (lr', row, res), w') → lr' = lr_incr lr.
Proof.
  unfold launchIteration. intros ([] & w1 & _ & Hb)%bind_Ok.
  apply bind_Ok in Hb as ([r|] & w2 & _ & Hb); [|done]. case_if_in Hb; [done|].
  apply bind_Ok in Hb as ([] & w3 & _ & Hb). apply bind_Ok in Hb as (r' & w4 & _ & Hb).
  apply mret_Ok in Hb as [[= -> -> ->] _]. done.
Qed.

(** A bind whose continuation only has to move along [R] on answers the first
    call can give. *)
Lemma stays_bind_Ok {W E A B} (S : relation W) `{!PreOrder S} (m : act W E A) (k : A → act W E B) :
  stays S m → (∀ w a w', m w = (Ok a, w') → stays S (k a)) → stays S (m ≫= k).
Proof.
  intros Hm Hk w. unfold mbind, act_bind. specialize (Hm w). specialize (Hk w).
  destruct (m w) as [[a|e] w']; cbn in *; [|done]. etransitivity; [exact Hm|by eapply Hk].
Qed.

Lemma stays_drive fuel b lr goal defName cfg h :
  lr_ID lr = id → stays (dbR R) (drive fuel b lr goal defName cfg h).
Proof.
  revert lr goal h. induction fuel as [|fuel IH]; intros lr goal h Hid; cbn [drive]; [engine_stays|].
  apply stays_bind; [exact _|apply stays_ask|intros ctxDone]. apply stays_if; [engine_stays|].
  apply stays_bind; [exact _|apply stays_ask|intros runDone].
  apply stays_if; [by apply stays_escalate|].
  apply stays_bind_Ok; [exact _|by apply stays_launchIteration|].
  intros w [[lr1 row] res] w' ->%launchIteration_id.
  apply stays_if; [change (lr_ID (lr_incr lr)) with (lr_ID lr); rewrite Hid; engine_stays|].
  apply stays_bind_Ok; [exact _|by apply stays_evaluate|].
  intros w1 [r|lr2 goal2 h2] w2 He; [engine_stays|]. apply IH.
  apply evaluate_GoesOn in He as [-> _]. done.
Qed.
Lemma stays_driveIterations fuel lr goal defName cfg h :
  lr_ID lr = id → stays (dbR R) (driveIterations fuel lr goal defName cfg h).
Proof. intros Hid. unfold driveIterations. engine_stays. by apply stays_drive. Qed.

Lemma stays_resumeBlocked fuel lr goal cfg h :
  lr_ID lr = id → stays (dbR R) (resumeBlockedIteration fuel lr goal cfg h).
Proof.
  intros Hid. unfold resumeBlockedIteration. destruct (last h) as [l|]; [|engine_stays].
  apply stays_if; [engine_stays|]. apply stays_bind; [exact _| |intros res].
  { apply stays_call. intros t db. destruct OS as [[_ [Hr _]]]. apply Hr. }
  apply stays_if; [engine_stays|]. apply stays_bind; [exact _|engine_stays|intros b].
  apply stays_bind_Ok; [exact _|by apply stays_evaluate|].
  intros w [r|lr2 goal2 h2] w' He; [engine_stays|].
  apply stays_driveIterations. apply evaluate_GoesOn in He as [-> _]. done.
Qed.
Lemma GetLoopRun_Ok i w r w' :
  st (GetLoopRun O i) w = (Ok r, w') →
  find_row (loop_runs (w_db w)) i = Some r ∧ lr_ID r = i ∧ w_db w' = w_db w.
Proof.
  intros [Hf Hdb]%wrap_Ok%query_Ok. destruct (find_row (loop_runs (w_db w)) i) as [x|] eqn:E; [|done].
  injection Hf as ->. apply find_row_Some in E as [_ Hid]. done.
Qed.
Lemma stays_Resume fuel : stays (dbR R) (Resume fuel id).
Proof.
  unfold Resume. apply stays_if; [engine_stays|].
  apply stays_bind_Ok; [exact _|unfold GetLoopRun; engine_stays|].
  intros w lr w' (_ & Hid & _)%GetLoopRun_Ok. unfold GetGoal, ListLoopRunIterations. engine_stays.
  - by apply stays_resumeBlocked.
  - by apply stays_drive.
Qed.
Lemma stays_ResolveEscalation fuel ov : stays (dbR R) (ResolveEscalation fuel id ov).
Proof.
  unfold ResolveEscalation. apply stays_if; [engine_stays|].
  apply stays_bind_Ok; [exact _|unfold GetLoopRun; engine_stays|].
  intros w lr w' (_ & Hid & _)%GetLoopRun_Ok. apply stays_if; [engine_stays|].
  destruct ov as [[[] [] [rp|]]|]; try apply stays_Resume.
  1-4: engine_stays.
  1-2: apply stays_bind; [exact _|apply stays_Cancel|intros []; engine_stays].
  apply stays_bind; [exact _|by apply stays_applyReplan|intros []; apply stays_Resume].
Qed.
End Stays.

(** ** Lemmas: one active run per goal *)

Definition active (r : LoopRun) : Prop := lr_Status r ∈ LoopRunActiveStatuses.
Definition one_active (db : DB) : Prop :=
  ∀ r1 r2, r1 ∈ loop_runs db → r2 ∈ loop_runs db → active r1 → active r2 →
    lr_GoalID r1 = lr_GoalID r2 → lr_ID r1 = lr_ID r2.

(** The table of runs changes at most in the row [id], whose key and goal stay. *)
Definition row_frame (id : string) (r r' : LoopRun) : Prop :=
  lr_ID r' = lr_ID r ∧ lr_GoalID r' = lr_GoalID r ∧ (lr_ID r ≠ id → r' = r).
Definition run_frame (id : string) (db db' : DB) : Prop :=
  Forall2 (row_frame id) (loop_runs db) (loop_runs db').
#[local] Instance run_frame_preorder id : PreOrder (run_frame id).
Proof.
  split.
  - intros db. apply Forall_Forall2_diag, Forall_true. by intros r.
  - intros a b c. unfold run_frame. generalize (loop_runs a) (loop_runs b) (loop_runs c). clear.
    intros la lb lc Hab. revert lc. induction Hab as [|r r' la lb Hr _ IH]; intros lc Hbc.
    + inversion Hbc. constructor.
    + apply Forall2_cons_inv_l in Hbc as (r'' & lc' & Hr' & Hbc & ->). constructor; [|by apply IH].
      destruct Hr as (H1 & H2 & H3), Hr' as (H4 & H5 & H6). split_and!; [congruence..|].
      intros Hne. rewrite H6, H3; congruence.
Qed.
Lemma run_frame_same id db db' : loop_runs db' = loop_runs db → run_frame id db db'.
Proof. unfold run_frame. intros ->. apply Forall_Forall2_diag, Forall_true. by intros r. Qed.
Lemma run_frame_update id db f :
  (∀ r, lr_ID (f r) = lr_ID r) → (∀ r, lr_GoalID (f r) = lr_GoalID r) →
  run_frame id db (set_loop_runs db (update_row (loop_runs db) id f)).
Proof.
  intros Hid Hg. unfold run_frame. cbn. unfold update_row.
  induction (loop_runs db) as [|r l IH]; cbn; constructor; [|done].
  destruct (decide (lr_ID r = id)) as [He|He].
  - change (pk r) with (lr_ID r). rewrite bool_decide_eq_true_2 by done. by split_and!.
  - change (pk r) with (lr_ID r). rewrite bool_decide_eq_false_2 by done. done.
Qed.

(** A statement that writes the row [id] of [loop_runs], or another table. *)
Ltac in_frame :=
  stays_statements; intros ?db ? ?db'; repeat case_if; try done; intros [= _ <-];
  first [by apply run_frame_same | by apply run_frame_update].

Lemma run_frame_stmts id : stmts_stay (run_frame id) id.
Proof.
  split.
  - intros s c. unfold UpdateLoopRunStatus, update_loop_run. in_frame.
  - unfold BumpLoopRunIteration, update_loop_run. in_frame.
  - intros n. unfold UpdateLoopRunNoProgressStreak, update_loop_run. in_frame.
  - intros s. unfold UpdateLoopRunDefinitionName, update_loop_run. in_frame.
  - intros a n. unfold UpdateWorkflowRunLoopScope. in_frame.
  - intros. unfold CompleteLoopRunIteration. in_frame.
  - intros g. unfold UpdateGoal. in_frame.
  - intros f. in_frame.
Qed.
Lemma run_frame_ops id :
  host_stays (λ db db', loop_runs db' = loop_runs db) → ops_stay (run_frame id) id.
Proof.
  intros Hh. split; [|apply run_frame_stmts]. revert Hh. apply host_weaken.
  intros db db'. apply run_frame_same.
Qed.
Lemma run_frame_iteration id li : stays (dbR (run_frame id)) (CreateLoopRunIteration O li).
Proof. unfold CreateLoopRunIteration. in_frame. Qed.

Lemma run_frame_elem id db db' r' :
  run_frame id db db' → r' ∈ loop_runs db' → ∃ r, r ∈ loop_runs db ∧ row_frame id r r'.
Proof.
  unfold run_frame. intros Hf Hin. apply list_elem_of_lookup in Hin as [i Hi].
  destruct (Forall2_lookup_r _ _ _ _ _ Hf Hi) as (r & Hr & Hrr). exists r. split; [|done].
  by eapply list_elem_of_lookup_2.
Qed.

(** If the run was active, whatever happens to it leaves its goal with one. *)
Lemma one_active_frame id db db' r :
  run_frame id db db' → r ∈ loop_runs db → lr_ID r = id → active r →
  NoDup (map lr_ID (loop_runs db)) → one_active db → one_active db'.
Proof.
  intros Hf Hr Hid Hact Hnd Hone r1 r2 Hr1 Hr2 Ha1 Ha2 Hg.
  destruct (run_frame_elem _ _ _ _ Hf Hr1) as (q1 & Hq1 & E1 & G1 & F1).
  destruct (run_frame_elem _ _ _ _ Hf Hr2) as (q2 & Hq2 & E2 & G2 & F2).
  assert (∀ q, q ∈ loop_runs db → lr_ID q = id → lr_GoalID q = lr_GoalID r) as Huniq.
  { intros q Hq Hqid. f_equal. eapply (NoDup_map_eq lr_ID); eauto. congruence. }
  destruct (decide (lr_ID q1 = id)) as [D1|D1], (decide (lr_ID q2 = id)) as [D2|D2].
  - congruence.
  - rewrite (F2 D2) in *. assert (lr_ID r = lr_ID q2) as Heq; [|congruence].
    apply Hone; try done. rewrite <- (Huniq q1), <- G1 by done. done.
  - rewrite (F1 D1) in *. assert (lr_ID q1 = lr_ID r) as Heq; [|congruence].
    apply Hone; try done. rewrite <- (Huniq q2), <- G2 by done. done.
  - rewrite (F1 D1), (F2 D2) in *. by apply Hone.
Qed.

(** ** The engine as a transition system *)

Inductive engine_op :=
| OpRun (fuel : nat) (workflowName : string) (input : LoopInput Params)
| OpResume (fuel : nat) (loopRunID : string)
| OpTickResume (reflexConfigured : bool) (loopRunID : string)
| OpCancel (loopRunID : string)
| OpResolve (fuel : nat) (loopRunID : string) (override : option EscalationOverride).

(** The world after a call, whether it succeeded or not. *)
Definition engine_step (w : World) (o : engine_op) : World :=
  match o with
  | OpRun fuel name input => (Run fuel name input w).2
  | OpResume fuel id => (Resume fuel id w).2
  | OpTickResume c id => (TickResume c id w).2
  | OpCancel id => (Cancel id w).2
  | OpResolve fuel id ov => (ResolveEscalation fuel id ov w).2
  end.
Definition run_engine (w : World) (ops : list engine_op) : World := fold_left engine_step ops w.

Lemma wf_stmts id : stmts_stay wf_kept id.
Proof.
  split; intros.
  - apply UpdateLoopRunStatus_wf.
  - apply BumpLoopRunIteration_wf.
  - apply UpdateLoopRunNoProgressStreak_wf.
  - apply UpdateLoopRunDefinitionName_wf.
  - apply UpdateWorkflowRunLoopScope_wf.
  - apply CompleteLoopRunIteration_wf.
  - apply UpdateGoal_wf.
  - stays_statements. intros db ? db' [= _ <-] []. by split.
Qed.
Lemma wf_ops id : host_stays wf_kept → ops_stay wf_kept id.
Proof. intros Hh. split; [done|apply wf_stmts]. Qed.

(** What happens before a run exists: goals may be created, runs are not
    touched. *)
Lemma resolveGoal_stays (R : relation DB) `{!PreOrder R} input :
  (∀ g, stays (dbR R) (CreateGoal O g)) → stays (dbR R) (resolveGoal input).
Proof.
  intros Hc. unfold resolveGoal, create_inline_goal, GetGoal.
  assert (∀ (id : string) nf, stays (dbR R) (optional (query O (λ db,
    match find_row (goals db) id with Some g => Ok g | None => Err ErrGoalNotFound end)) nf)) as Hopt.
  { intros id nf w. unfold optional. pose proof (stays_query O R (λ db,
      match find_row (goals db) id with Some g => Ok g | None => Err ErrGoalNotFound end) w) as Hq.
    by destruct (query O _ w) as [[?|?] ?]. }
  destruct (in_Goal input) as [spec|]; repeat case_if;
    stays_with ltac:(first [apply Hc|apply Hopt]).
  destruct a as [g|]; stays_with ltac:(apply Hc).
Qed.

(** [Run] in two parts: either no run is created, or one is, for a goal without
    an active run, and then it is driven. *)
Definition no_active (db : DB) (goalID : string) : Prop :=
  ∀ r, r ∈ loop_runs db → lr_GoalID r = goalID → ¬ active r.
Lemma ListLoopRuns_empty goalID w w' :
  ListLoopRuns O (mkLoopRunFilter goalID LoopRunActiveStatuses) w = (Ok [], w') →
  no_active (w_db w) goalID ∧ w_db w' = w_db w.
Proof.
  intros [Hl Hdb]%query_Ok. split; [|done]. injection Hl as Hl. apply (f_equal length) in Hl.
  rewrite order_by_length in Hl. apply length_zero_iff_nil in Hl. intros r Hr Hg Ha.
  assert (r ∈ List.filter (loop_run_matches (mkLoopRunFilter goalID LoopRunActiveStatuses))
            (loop_runs (w_db w))) as Hin.
  { apply list_elem_of_In, filter_In. split; [by apply list_elem_of_In|].
    unfold loop_run_matches. cbn [rf_GoalID rf_Statuses].
    rewrite (bool_decide_eq_true_2 (lr_GoalID r = goalID)), orb_true_r by done.
    rewrite (bool_decide_eq_true_2 (lr_Status r ∈ _)), orb_true_r by done. done. }
  rewrite Hl in Hin. set_solver.
Qed.
Lemma CreateLoopRun_Ok lr w row w' :
  CreateLoopRun O lr w = (Ok row, w') →
  loop_runs (w_db w') = (loop_runs (w_db w) ++ [row])%list ∧ lr_GoalID row = lr_GoalID lr ∧
  lr_Status row = or_default (lr_Status lr) LoopRunStatusRunning ∧
  DefinitionName row = DefinitionName lr ∧ (lr_ID lr ≠ "" → lr_ID row = lr_ID lr) ∧
  (lr_ID row ∉ map lr_ID (loop_runs (w_db w))).
Proof.
  unfold CreateLoopRun. case_if; [done|]. case_if; [done|].
  intros (id & w1 & Hid & Hb)%bind_Ok. apply bind_Ok in Hb as ([] & w2 & [_ ->]%lift_Ok & Hb).
  apply bind_Ok in Hb as (t & w3 & Ht & Hb). injection Ht as <- <-.
  apply exec_Ok in Hb as (db' & Hf & Hdb). cbn in Hf, Hdb.
  assert (w_db w1 = w_db w ∧ (lr_ID lr ≠ "" → id = lr_ID lr)) as [Hw1 Hidd].
  { case_if_in Hid; [by injection Hid as <- <-; apply bool_decide_eq_true in Hif1|].
    by injection Hid as <- <-. }
  rewrite Hw1 in Hf. case_if_in Hf; [done|]. injection Hf as <- <-.
  apply orb_false_iff in Hif1 as [Hnew%has_row_false _]. rewrite Hdb. cbn. done.
Qed.

Lemma one_active_create db row :
  one_active db → no_active db (lr_GoalID row) →
  one_active (set_loop_runs db (loop_runs db ++ [row])%list).
Proof.
  intros Hone Hno r1 r2. cbn. rewrite !elem_of_app, !list_elem_of_singleton.
  intros [H1'| ->] [H2'| ->] Ha1 Ha2 Hg; [by apply Hone| | |done].
  - by destruct (Hno r1).
  - by destruct (Hno r2).
Qed.
Lemma one_active_runs db db' : loop_runs db' = loop_runs db → one_active db → one_active db'.
Proof. unfold one_active. by intros ->. Qed.

(** The invariant: well-formed tables and one active run per goal. *)
Definition engine_inv (db : DB) : Prop := db_wf db ∧ one_active db.


(** A call along a relation that a predicate is closed under. *)
Lemma always_stays {A} (R : relation DB) (P : DB → Prop) (m : engine A) :
  stays (dbR R) m → (∀ db db', R db db' → P db → P db') → always (λ w, P (w_db w)) m (λ w, P (w_db w)).
Proof. intros Hm HP w Hw. eapply HP; [apply Hm|done]. Qed.
Lemma always_same {A} (P : World → Prop) (m : engine A) :
  (∀ w, (m w).2 = w) → always P m P.
Proof. intros Hm w Hw. by rewrite Hm. Qed.
(** A query leaves the database as it is. *)
Lemma query_db {A} (f : DB → result StoreErr A) w : w_db (query O f w).2 = w_db w.
Proof.
  unfold query, exec. destruct (o_fault O (w_tick w)); [done|]. by destruct (f (w_db w)).
Qed.

Lemma wrap_query_db {A} (f : DB → result StoreErr A) w : w_db (wrap EStore (query O f) w).2 = w_db w.
Proof. unfold wrap. pose proof (query_db f w). by destruct (query O f w) as [[?|?] ?]. Qed.
(** A failed insert leaves the database as it was. *)
Lemma CreateLoopRun_Err lr w e w' : CreateLoopRun O lr w = (Err e, w') → w_db w' = w_db w.
Proof.
  unfold CreateLoopRun. case_if; [by intros [= _ <-]|]. case_if; [by intros [= _ <-]|].
  unfold mbind, act_bind, lift, new_uuid, now, exec. case_if; cbn.
  all: destruct (validateLoopRunStatus _) as [[]|]; cbn; [|by intros [= _ <-]].
  all: destruct (o_fault O _); [by intros [= _ <-]|]; case_if; [by intros [= _ <-]|done].
Qed.
Lemma SetBudget_keeps lr b lr' :
  SetBudget lr b = Ok lr' →
  lr_ID lr' = lr_ID lr ∧ lr_GoalID lr' = lr_GoalID lr ∧ lr_Status lr' = lr_Status lr ∧
  DefinitionName lr' = DefinitionName lr.
Proof.
  unfold SetBudget. cbv zeta. unfold mbind, result_bind.
  destruct (validateBudget _); [|done]. destruct (encodeLoopRunBudget _); [|done]. by intros [= <-].
Qed.

(** The rule for [launchLoopRun]: a property of the database that goal
    resolution keeps is kept if driving the new run keeps it. *)
Lemma launchLoopRun_rule (P : DB → Prop) fuel name input id :
  always (λ w, P (w_db w)) (resolveGoal input) (λ w, P (w_db w)) →
  (∀ lr row goal cfg w w', P (w_db w) → no_active (w_db w) (lr_GoalID row) →
     CreateLoopRun O lr w = (Ok row, w') → lr_Status lr = "" →
     P (w_db (driveIterations fuel row goal name cfg [] w').2)) →
  always (λ w, P (w_db w)) (launchLoopRun fuel name input id) (λ w, P (w_db w)).
Proof.
  intros Hgoal Hdrive. unfold launchLoopRun.
  eapply always_bind; [apply always_triple, Hgoal|intros goal].
  apply (always_bind _ (λ l w, P (w_db w) ∧ (l = [] → no_active (w_db w) (goal_ID goal)))).
  { intros w Hw. pose proof (wrap_query_db (λ db, Ok (order_by (λ a b, String.leb (lr_StartedAt a) (lr_StartedAt b))
      (List.filter (loop_run_matches (mkLoopRunFilter (goal_ID goal) LoopRunActiveStatuses)) (loop_runs db)))) w) as Hq.
    destruct (wrap EStore (ListLoopRuns O _) w) as [[l|e] w'] eqn:Hl; unfold ListLoopRuns in Hl;
      rewrite Hl in Hq; cbn in Hq; rewrite Hq; [|done].
    split; [done|]. intros ->. by apply wrap_Ok, ListLoopRuns_empty in Hl as [? _]. }
  intros [|r l]; [|by intros w [Hw _]].
  apply (always_bind _ (λ _ w, P (w_db w) ∧ no_active (w_db w) (goal_ID goal))).
  { intros w [Hw Hno]. unfold lift. destruct (encodeLoopRunPersistentConfig _); [|done]. auto. }
  intros cfgJSON.
  apply (always_bind _ (λ lr w, P (w_db w) ∧ no_active (w_db w) (goal_ID goal) ∧
                                lr_GoalID lr = goal_ID goal ∧ lr_Status lr = "")).
  { intros w [Hw Hno]. unfold wrap, lift.
    destruct (SetBudget _ _) as [lr|e] eqn:Hb; [|done]. apply SetBudget_keeps in Hb as (_ & -> & -> & _). done. }
  intros lr w (Hw & Hno & Hg & Hst). unfold mbind, act_bind, wrap.
  destruct (CreateLoopRun O lr w) as [[row|e] w'] eqn:Hc; cbn [snd].
  - eapply Hdrive; [exact Hw| |exact Hc|done]. by apply CreateLoopRun_Ok in Hc as (_ & -> & _); rewrite Hg.
  - by rewrite (CreateLoopRun_Err _ _ _ _ Hc).
Qed.
Lemma optional_db {A} (f : DB → result StoreErr A) nf w : w_db (optional (query O f) nf w).2 = w_db w.
Proof. unfold optional. pose proof (query_db f w). by destruct (query O f w) as [[?|?] ?]. Qed.
Lemma always_db {A} (P : DB → Prop) (m : engine A) :
  (∀ w, w_db (m w).2 = w_db w) → always (λ w, P (w_db w)) m (λ w, P (w_db w)).
Proof. intros Hm w Hw. by rewrite Hm. Qed.
Lemma Run_rule (P : DB → Prop) fuel name input :
  (∀ id, always (λ w, P (w_db w)) (launchLoopRun fuel name input id) (λ w, P (w_db w))) →
  always (λ w, P (w_db w)) (Run fuel name input) (λ w, P (w_db w)).
Proof.
  intros Hlaunch.
  unfold Run. apply always_if; [by apply always_same|]. apply always_if; [by apply always_same|].
  eapply always_bind; [by apply always_triple, (always_db P)|intros allowed].
  apply always_if; [by apply always_same|]. apply always_if; [apply Hlaunch|].
  eapply always_bind; [apply always_triple, (always_db P), optional_db|].
  intros [r|]; [|apply Hlaunch]. apply always_if; by apply always_same.
Qed.

(** ** Lemmas: iteration numbers *)

(** The iteration numbers of a run, in the order they were recorded. *)
Definition numbers (id : string) (db : DB) : list Z :=
  map IterationNumber (List.filter (λ i, bool_decide (it_LoopRunID i = id)) (loop_run_iterations db)).
Definition first_numbers (n : nat) : list Z := map Z.of_nat (seq 1 n).
Definition contiguous (id : string) (db : DB) : Prop := ∃ n, numbers id db = first_numbers n.
(** Every run's numbers are 1, 2, 3, ... *)
Definition numbering_inv (db : DB) : Prop := db_wf db ∧ ∀ id, contiguous id db.

Definition same_numbers (id : string) (db db' : DB) : Prop := numbers id db' = numbers id db.
#[local] Instance same_numbers_preorder id : PreOrder (same_numbers id).
Proof. unfold same_numbers. split; [by intros ?|]. intros a b c. congruence. Qed.

Lemma same_numbers_iterations id db db' :
  loop_run_iterations db' = loop_run_iterations db → same_numbers id db db'.
Proof. unfold same_numbers, numbers. by intros ->. Qed.
Lemma numbers_update id db i f :
  (∀ r, it_LoopRunID (f r) = it_LoopRunID r) → (∀ r, IterationNumber (f r) = IterationNumber r) →
  same_numbers id db (set_iterations db (update_row (loop_run_iterations db) i f)).
Proof.
  intros Hr Hn. unfold same_numbers, numbers. cbn. unfold update_row.
  induction (loop_run_iterations db) as [|x l IH]; cbn; [done|].
  destruct (bool_decide (pk x = i)); cbn; rewrite ?Hr; case_if; cbn; by rewrite ?Hn, IH.
Qed.
Lemma numbers_app id db row :
  numbers id (set_iterations db (loop_run_iterations db ++ [row])%list) =
  (numbers id db ++ if bool_decide (it_LoopRunID row = id) then [IterationNumber row] else [])%list.
Proof.
  unfold numbers. cbn. rewrite List.filter_app, map_app. cbn. by case_bool_decide.
Qed.
Lemma first_numbers_S n : first_numbers (S n) = (first_numbers n ++ [Z.of_nat n + 1]%Z)%list.
Proof.
  unfold first_numbers. rewrite seq_S, map_app. cbn [map]. do 2 f_equal. lia.
Qed.
Lemma first_numbers_length n : length (first_numbers n) = n.
Proof. unfold first_numbers. by rewrite length_map, length_seq. Qed.

(** A statement that leaves the iteration numbers alone. *)
Ltac in_numbers :=
  stays_statements; intros ?db ? ?db'; repeat case_if; try done; intros [= _ <-];
  first [by apply same_numbers_iterations | by apply numbers_update].

Lemma same_numbers_stmts id id' : stmts_stay (same_numbers id) id'.
Proof.
  split.
  - intros s c. unfold UpdateLoopRunStatus, update_loop_run. in_numbers.
  - unfold BumpLoopRunIteration, update_loop_run. in_numbers.
  - intros n. unfold UpdateLoopRunNoProgressStreak, update_loop_run. in_numbers.
  - intros s. unfold UpdateLoopRunDefinitionName, update_loop_run. in_numbers.
  - intros a n. unfold UpdateWorkflowRunLoopScope. in_numbers.
  - intros. unfold CompleteLoopRunIteration. in_numbers.
  - intros g. unfold UpdateGoal. in_numbers.
  - intros f. in_numbers.
Qed.
Lemma same_numbers_iteration id li :
  it_LoopRunID li ≠ id → stays (dbR (same_numbers id)) (CreateLoopRunIteration O li).
Proof.
  intros Hne. unfold CreateLoopRunIteration. stays_statements. intros db ? db'. case_if; [|done].
  intros [= _ <-]. unfold same_numbers. rewrite numbers_app. cbn.
  by rewrite bool_decide_eq_false_2, app_nil_r.
Qed.
(** The insert of a row of [id] adds its number or nothing. *)
Lemma CreateLoopRunIteration_numbers li w :
  match CreateLoopRunIteration O li w with
  | (Ok _, w') => numbers (it_LoopRunID li) (w_db w') =
                  (numbers (it_LoopRunID li) (w_db w) ++ [IterationNumber li])%list
  | (Err _, w') => w_db w' = w_db w
  end.
Proof.
  unfold CreateLoopRunIteration. case_if; [done|].
  unfold mbind, act_bind, lift, new_uuid, now, exec, mret, act_ret.
  repeat (case_if; cbn -[numbers set_iterations]); repeat match goal with
    | |- context [validateLoopRunIterationDecision ?x] =>
        destruct (validateLoopRunIterationDecision x); cbn -[numbers set_iterations]
    | |- context [validateLoopRunIterationProgressState ?x] =>
        destruct (validateLoopRunIterationProgressState x); cbn -[numbers set_iterations]
    | |- context [o_fault O ?n] => destruct (o_fault O n); cbn -[numbers set_iterations]
    end; try done.
  all: repeat (case_if; cbn -[numbers set_iterations]); try done.
  all: rewrite numbers_app; cbn -[numbers]; by rewrite bool_decide_eq_true_2.
Qed.

Lemma same_numbers_create lr w x : same_numbers x (w_db w) (w_db (CreateLoopRun O lr w).2).
Proof.
  revert w. change (stays (dbR (same_numbers x)) (CreateLoopRun O lr)). unfold CreateLoopRun.
  stays_statements. intros db ? db'. case_if; [done|]. intros [= _ <-]. by apply same_numbers_iterations.
Qed.
(** A run that was just created has no iterations. *)
Lemma CreateLoopRun_fresh lr w row w' :
  CreateLoopRun O lr w = (Ok row, w') → db_wf (w_db w) → numbers (lr_ID row) (w_db w') = [].
Proof.
  intros Hc Hdb. pose proof (stays_at (same_numbers (lr_ID row)) (CreateLoopRun O lr) w) as Hs.
  rewrite Hc in Hs. unfold same_numbers in Hs. cbn [snd] in Hs. rewrite Hs.
  - apply CreateLoopRun_Ok in Hc as (_ & _ & _ & _ & _ & Hnew). unfold numbers.
    assert (List.filter (λ i, bool_decide (it_LoopRunID i = lr_ID row)) (loop_run_iterations (w_db w)) = [])
      as ->; [|done].
    destruct (List.filter _ _) as [|i l] eqn:Hf; [done|]. exfalso.
    assert (In i (i :: l)) as Hin by (by left). rewrite <- Hf in Hin.
    apply filter_In in Hin as [Hin Hid%bool_decide_eq_true]. apply Hnew. rewrite <- Hid.
    pose proof (wf_iter_run _ Hdb) as Hall. rewrite Forall_forall in Hall.
    apply Hall. by apply list_elem_of_In.
  - unfold CreateLoopRun. stays_statements. intros db ? db'. case_if; [done|]. intros [= _ <-].
    by apply same_numbers_iterations.
Qed.


(** ** Lemmas: what a call leaves alone *)

Definition run_ids (db : DB) : list string := map lr_ID (loop_runs db).
Lemma run_frame_ids id db db' : run_frame id db db' → run_ids db' = run_ids db.
Proof.
  unfold run_frame, run_ids. induction 1 as [|r r' l l' (Hid & _) _ IH]; cbn; [done|]. by rewrite Hid, IH.
Qed.
Lemma run_ids_elem r db : r ∈ loop_runs db → lr_ID r ∈ run_ids db.
Proof. intros Hr. apply list_elem_of_fmap. by exists r. Qed.

(** A call for the run [id] may add runs; the rows and the iteration numbers of
    the recorded runs other than [id] stay. *)
Record leaves (id : string) (db db' : DB) : Prop := {
  lv_ids x : x ∈ run_ids db → x ∈ run_ids db';
  lv_rows r : r ∈ loop_runs db → lr_ID r ≠ id → r ∈ loop_runs db';
  lv_numbers x : x ∈ run_ids db → x ≠ id → numbers x db' = numbers x db;
}.
#[local] Instance leaves_preorder id : PreOrder (leaves id).
Proof.
  split; [by intros db; split|]. intros a b c [I1 R1 N1] [I2 R2 N2]. split; [auto..|].
  intros x Hx Hne. rewrite N2 by auto. auto.
Qed.
Lemma leaves_frame id db db' :
  run_frame id db db' → (∀ x, x ≠ id → same_numbers x db db') → leaves id db db'.
Proof.
  intros Hf Hn. split.
  - intros x. by rewrite (run_frame_ids _ _ _ Hf).
  - intros r Hr Hne. apply list_elem_of_lookup in Hr as [i Hi].
    destruct (Forall2_lookup_l _ _ _ _ _ Hf Hi) as (r' & Hr' & _ & _ & Hrr). rewrite <- (Hrr Hne).
    by eapply list_elem_of_lookup_2.
  - intros x _ Hne. by apply Hn.
Qed.
Lemma leaves_stmts id : stmts_stay (leaves id) id.
Proof.
  apply (stmts_both (run_frame id) (λ db db', ∀ x, same_numbers x db db')).
  - intros db db' Hf Hn. by apply leaves_frame.
  - apply run_frame_stmts.
  - split; intros; intros w x; apply (same_numbers_stmts x id).
Qed.
Lemma leaves_iteration id li : it_LoopRunID li = id → stays (dbR (leaves id)) (CreateLoopRunIteration O li).
Proof.
  intros Hid w. apply leaves_frame; [apply run_frame_iteration|].
  intros x Hx. apply same_numbers_iteration. congruence.
Qed.

(** Nothing recorded changes; runs and iterations may be added. *)
Record spares (db db' : DB) : Prop := {
  sp_rows r : r ∈ loop_runs db → r ∈ loop_runs db';
  sp_numbers x : x ∈ run_ids db → numbers x db' = numbers x db;
}.
Lemma spares_ids db db' x : spares db db' → x ∈ run_ids db → x ∈ run_ids db'.
Proof.
  intros [Hr _] (r & -> & Hin)%list_elem_of_fmap. apply list_elem_of_fmap. exists r. auto.
Qed.
#[local] Instance spares_preorder : PreOrder spares.
Proof.
  split; [by intros db; split|]. intros a b c Hab Hbc.
  split; [intros r Hr; by apply Hbc, Hab|].
  intros x Hx. rewrite (sp_numbers _ _ Hbc) by (by eapply spares_ids). by apply Hab.
Qed.
Lemma spares_leaves id db db' : spares db db' → leaves id db db'.
Proof. intros Hs. split; [intros x; by apply spares_ids|intros r ? _|intros x ? _]; by apply Hs. Qed.

(** What the engine needs of a call of the host: it spares what is recorded
    and keeps the invariants. *)
Record gentle (db db' : DB) : Prop := {
  gt_spares : spares db db';
  gt_wf : wf_kept db db';
  gt_one : engine_inv db → engine_inv db';
  gt_numbering : numbering_inv db → numbering_inv db';
}.
#[local] Instance gentle_preorder : PreOrder gentle.
Proof.
  split; [by intros db; split|]. intros a b c [] []. split; [by etransitivity|by etransitivity|auto|auto].
Qed.

(** ** Lemmas: one active run per goal, through the engine's calls *)

Section Gentle.
Context (Hgentle : host_stays gentle).

Abbreviation inv := (λ w, engine_inv (w_db w)).
Abbreviation ninv := (λ w, numbering_inv (w_db w)).

Lemma gentle_wf : host_stays wf_kept.
Proof. revert Hgentle. apply host_weaken. by intros db db' []. Qed.
Lemma gentle_leaves id : ops_stay (leaves id) id.
Proof.
  split; [|apply leaves_stmts]. revert Hgentle. apply host_weaken.
  intros db db' Hh. by apply spares_leaves, Hh.
Qed.

Lemma same_runs_preorder : PreOrder (λ db db' : DB, loop_runs db' = loop_runs db).
Proof. split; [by intros ?|]. intros a b c. congruence. Qed.

(** Goals may be created along the way; the runs stay. *)
Lemma resolveGoal_inv input : always inv (resolveGoal input) inv.
Proof.
  assert (stays (dbR (λ db db', loop_runs db' = loop_runs db)) (resolveGoal input)) as Hr.
  { pose proof same_runs_preorder. apply resolveGoal_stays; [exact _|]. intros g.
    unfold CreateGoal. stays_statements. intros db ? db'. case_if; [done|]. by intros [= _ <-]. }
  assert (stays (dbR wf_kept) (resolveGoal input)) as Hw.
  { apply resolveGoal_stays; [exact _|]. intros g. apply CreateGoal_wf. }
  intros w [Hdb Hone]. split; [by apply Hw|]. eapply one_active_runs; [apply Hr|done].
Qed.


(** The run [id] is active, and the invariant holds. *)
Definition live (id : string) (db : DB) : Prop :=
  engine_inv db ∧ ∃ r, r ∈ loop_runs db ∧ lr_ID r = id ∧ active r.
Definition live_kept (id : string) : relation DB := λ db db', live id db → live id db'.
#[local] Instance live_kept_preorder id : PreOrder (live_kept id).
Proof. unfold live_kept. split; [by intros ?|]. intros a b c. auto. Qed.
Definition inv_kept : relation DB := λ db db', engine_inv db → engine_inv db'.
#[local] Instance inv_kept_preorder : PreOrder inv_kept.
Proof. unfold inv_kept. split; [by intros ?|]. intros a b c. auto. Qed.
Abbreviation running id := (λ w, live id (w_db w)).

Lemma gentle_live id db db' : gentle db db' → live_kept id db db'.
Proof. intros Hh (Hinv & r & Hr & Hid & Ha). split; [by apply Hh|]. exists r. by split; [apply Hh|]. Qed.

(** A statement that keeps every run's key, goal and status. *)
Definition claim (r : LoopRun) : string * string * string := (lr_ID r, lr_GoalID r, lr_Status r).
Definition same_activity : relation DB := λ db db', map claim (loop_runs db') = map claim (loop_runs db).
#[local] Instance same_activity_preorder : PreOrder same_activity.
Proof. unfold same_activity. split; [by intros ?|]. intros a b c. congruence. Qed.
Lemma same_activity_runs db db' : loop_runs db' = loop_runs db → same_activity db db'.
Proof. unfold same_activity. by intros ->. Qed.
Lemma same_activity_update id db f :
  (∀ r, claim (f r) = claim r) → same_activity db (set_loop_runs db (update_row (loop_runs db) id f)).
Proof.
  intros Hf. unfold same_activity. cbn. unfold update_row. rewrite map_map. apply map_ext.
  intros r. by case_match.
Qed.
Lemma claim_elem r db db' :
  map claim (loop_runs db') = map claim (loop_runs db) → r ∈ loop_runs db →
  ∃ r', r' ∈ loop_runs db' ∧ claim r' = claim r.
Proof.
  intros Hc Hr. apply (list_elem_of_fmap_2 claim) in Hr. change (claim <$> loop_runs db) with (map claim (loop_runs db)) in Hr.
  rewrite <- Hc in Hr. apply list_elem_of_fmap in Hr as (r' & -> & ?). by exists r'.
Qed.
Lemma same_activity_live id db db' : wf_kept db db' → same_activity db db' → live_kept id db db'.
Proof.
  intros Hwf Hs ([Hdb Hone] & r & Hr & Hid & Ha). unfold live, engine_inv, active. split_and!.
  - auto.
  - intros r1 r2 Hr1 Hr2. symmetry in Hs.
    apply (claim_elem _ _ _ Hs) in Hr1 as (q1 & Hq1 & [= <- <- E1]).
    apply (claim_elem _ _ _ Hs) in Hr2 as (q2 & Hq2 & [= <- <- E2]).
    unfold active. rewrite <- E1, <- E2. by apply Hone.
  - apply (claim_elem _ _ _ Hs) in Hr as (r' & Hr' & [= E1 _ E3]). exists r'. unfold active in Ha.
    split_and!; congruence.
Qed.
Lemma live_statement {E A} id (m : act World E A) :
  stays (dbR wf_kept) m → stays (dbR same_activity) m → stays (dbR (live_kept id)) m.
Proof. intros Hw Ha w. apply same_activity_live; [apply Hw|apply Ha]. Qed.

Ltac in_activity :=
  stays_statements; intros ?db ? ?db'; repeat case_if; try done; intros [= _ <-];
  first [by apply same_activity_runs | by apply same_activity_update].
Lemma live_bump id i : stays (dbR (live_kept id)) (BumpLoopRunIteration O i).
Proof.
  apply live_statement; [apply BumpLoopRunIteration_wf|]. unfold BumpLoopRunIteration, update_loop_run.
  in_activity.
Qed.
Lemma live_streak id i n : stays (dbR (live_kept id)) (UpdateLoopRunNoProgressStreak O i n).
Proof.
  apply live_statement; [apply UpdateLoopRunNoProgressStreak_wf|].
  unfold UpdateLoopRunNoProgressStreak, update_loop_run. in_activity.
Qed.
Lemma live_name id i n : stays (dbR (live_kept id)) (UpdateLoopRunDefinitionName O i n).
Proof.
  apply live_statement; [apply UpdateLoopRunDefinitionName_wf|].
  unfold UpdateLoopRunDefinitionName, update_loop_run. in_activity.
Qed.
Lemma live_scope id a b n : stays (dbR (live_kept id)) (UpdateWorkflowRunLoopScope O a b n).
Proof.
  apply live_statement; [apply UpdateWorkflowRunLoopScope_wf|]. unfold UpdateWorkflowRunLoopScope. in_activity.
Qed.
Lemma live_iteration id li : stays (dbR (live_kept id)) (CreateLoopRunIteration O li).
Proof.
  apply live_statement; [apply CreateLoopRunIteration_wf|]. unfold CreateLoopRunIteration. in_activity.
Qed.
Lemma live_complete id i wr d p e : stays (dbR (live_kept id)) (CompleteLoopRunIteration O i wr d p e).
Proof.
  apply live_statement; [apply CompleteLoopRunIteration_wf|]. unfold CompleteLoopRunIteration. in_activity.
Qed.
Lemma live_goal id g : stays (dbR (live_kept id)) (UpdateGoal O g).
Proof. apply live_statement; [apply UpdateGoal_wf|]. unfold UpdateGoal. in_activity. Qed.
Lemma live_schedule id f : stays (dbR (live_kept id)) (exec O (λ db, Ok (tt, set_schedules db (f db)))).
Proof. apply live_statement; [apply (os_schedule _ _ (wf_stmts id))|in_activity]. Qed.
(** Every status may be stored for a run that is active; an active one keeps
    it so. *)
Lemma status_inv id s c : always (running id) (UpdateLoopRunStatus O id s c) inv.
Proof.
  intros w ([Hdb Hone] & r & Hr & Hid & Ha). split; [by apply UpdateLoopRunStatus_wf|].
  eapply one_active_frame; [apply (os_status _ _ (run_frame_stmts id))|done|done|done|apply Hdb|done].
Qed.
Lemma live_status id s c :
  s ∈ LoopRunActiveStatuses → stays (dbR (live_kept id)) (UpdateLoopRunStatus O id s c).
Proof.
  intros Hs w Hlive. split; [by apply (status_inv id s c w)|].
  destruct Hlive as (_ & r & Hr & Hid & Ha).
  unfold UpdateLoopRunStatus, update_loop_run, mbind, act_bind, lift, now, exec.
  destruct (validateLoopRunStatus s); cbn; [|by exists r].
  destruct (o_fault O _); cbn; [by exists r|]. case_if; cbn; [|by exists r].
  exists (lr_set_status s (o_now O (w_tick w)) c r). cbn. split; [|done].
  unfold update_row. apply list_elem_of_In, in_map_iff. exists r.
  change (pk r) with (lr_ID r). rewrite bool_decide_eq_true_2 by done.
  split; [done|by apply list_elem_of_In].
Qed.

Lemma live_stays {A} id (m : engine A) :
  stays (dbR (live_kept id)) m → triple (running id) m (λ _, running id) inv.
Proof. intros Hm w Hw. specialize (Hm w Hw). destruct (m w) as [[a|e] w']; [done|apply Hm]. Qed.
Lemma live_ends {A} id (m : engine A) : stays (dbR (live_kept id)) m → always (running id) m inv.
Proof. intros Hm w Hw. by apply Hm. Qed.
Lemma inv_stays {A} (m : engine A) : stays (dbR inv_kept) m → triple inv m (λ _, inv) inv.
Proof. intros Hm w Hw. specialize (Hm w Hw). by destruct (m w) as [[a|e] w']. Qed.
Lemma notify_inv i s : stays (dbR inv_kept) (notifyOuterOnTerminal i s).
Proof.
  unfold notifyOuterOnTerminal. destruct Hgentle as (_ & _ & Hn).
  apply stays_if; [stays_statements|]. apply stays_if; [|stays_statements].
  apply stays_call; intros t db. unfold inv_kept. cbn. apply (gt_one _ _ (Hn t i db)).
Qed.

(** Run a handler's text that keeps the run [id] active. *)
Ltac live_run :=
  repeat first
    [ apply live_kept_preorder | apply stays_ask | apply stays_evidence | apply stays_Decide
    | apply stays_rearchitect, live_goal | apply stays_tick, live_schedule
    | apply live_status; by_decide | apply live_bump | apply live_streak | apply live_name
    | apply live_scope | apply live_iteration | apply live_complete | apply live_goal
    | apply stays_call; intros ? ?; by apply gentle_live, Hgentle
    | apply stays_if
    | apply stays_bind; [exact _| |intros ?]
    | apply stays_fail; exact _ | apply stays_ret; exact _ | apply stays_lift; exact _
    | apply stays_now; exact _ | apply stays_query; exact _ | apply stays_wrap ].

(** Ending the run, and telling the outer workflow. *)
Lemma ending_inv {A} id s c (k : engine A) (Q : A → World → Prop) :
  triple inv k Q inv →
  triple (running id) (_ ← st (UpdateLoopRunStatus O id s c); _ ← notifyOuterOnTerminal id s; k)
    Q inv.
Proof.
  intros Hk. apply (triple_bind _ (λ _, inv)); [|intros []].
  - intros w Hw. pose proof (status_inv id s c w Hw) as Hs. unfold wrap.
    by destruct (UpdateLoopRunStatus O id s c w) as [[[]|e] w'].
  - eapply triple_bind; [apply inv_stays, notify_inv|intros []]. exact Hk.
Qed.

Definition goes_on (id : string) (o : outcome) : World → Prop :=
  match o with Stops _ => inv | GoesOn _ _ _ => running id end.
Lemma actOn_live lr goal h d :
  triple (running (lr_ID lr)) (actOn lr goal h d) (goes_on (lr_ID lr)) inv.
Proof.
  unfold actOn. destruct (Kind d).
  1-3: by intros w Hw.
  - eapply triple_bind; [apply live_stays; live_run|intros g]. by intros w Hw.
  - eapply triple_bind; [apply live_stays; live_run|intros []].
    eapply triple_bind; [apply live_stays; rewrite ?bool_decide_eq_true_2 by done; live_run|intros []].
    by intros w [Hw _].
  - eapply triple_bind; [apply live_stays; live_run|intros []].
    eapply triple_bind; [apply live_stays; live_run|intros []]. by intros w [Hw _].
  - eapply triple_bind; [apply live_stays; live_run|intros t].
    apply ending_inv. by intros w Hw.
  - eapply triple_bind; [apply live_stays; live_run|intros t].
    apply ending_inv. by intros w Hw.
Qed.
Lemma evaluate_live lr goal row res pol b prior :
  triple (running (lr_ID lr)) (evaluateDecideAndAct lr goal row res pol b prior) (goes_on (lr_ID lr)) inv.
Proof.
  unfold evaluateDecideAndAct. destruct (classifyIterationProgress HS (Some res)) as [ev ps].
  repeat (eapply triple_bind; [apply live_stays; live_run|intros ?]).
  apply (actOn_live (lr_streak lr _)).
Qed.
Lemma escalate_inv lr b : always (running (lr_ID lr)) (escalateOnBoundedContextExceeded lr b) inv.
Proof.
  unfold escalateOnBoundedContextExceeded.
  eapply always_bind; [apply live_stays; live_run|intros c].
  apply triple_always, ending_inv. by intros w Hw.
Qed.
Lemma launchIteration_live lr defName cfg n :
  triple (running (lr_ID lr)) (launchIteration lr defName cfg n) (λ _, running (lr_ID lr)) inv.
Proof.
  apply live_stays. unfold launchIteration. apply stays_bind; [exact _|live_run|intros []].
  apply stays_bind; [exact _|live_run|intros [res|]; live_run].
Qed.
Lemma drive_inv fuel b lr goal defName cfg h :
  always (running (lr_ID lr)) (drive fuel b lr goal defName cfg h) inv.
Proof.
  revert lr goal h. induction fuel as [|fuel IH]; intros lr goal h; cbn [drive]; [apply live_ends; live_run|].
  eapply always_bind; [apply live_stays; live_run|intros ctxDone].
  apply always_if; [apply live_ends; live_run|].
  eapply always_bind; [apply live_stays; live_run|intros runDone].
  apply always_if; [apply escalate_inv|].
  intros w Hw. unfold mbind at 1, act_bind at 1.
  pose proof (launchIteration_live lr defName cfg (Z.of_nat (length h) + 1) w Hw) as Hl.
  destruct (launchIteration lr defName cfg _ w) as [[[[lr1 row] res]|e] w1] eqn:Hli; [|done].
  apply launchIteration_id in Hli as ->. case_if.
  { revert w1 Hl. apply (live_ends (lr_ID lr)). change (lr_ID (lr_incr lr)) with (lr_ID lr). live_run. }
  unfold mbind, act_bind.
  pose proof (evaluate_live (lr_incr lr) goal row res (cfg_ContinuationPolicy cfg) b h w1 Hl) as He.
  destruct (evaluateDecideAndAct _ _ _ _ _ _ _ w1) as [[[r|lr2 goal2 h2]|e] w2] eqn:Hev; [done| |done].
  apply evaluate_GoesOn in Hev as (Hid & _). cbn [goes_on] in He. rewrite <- Hid in He. by apply IH.
Qed.
Lemma driveIterations_inv fuel lr goal defName cfg h :
  always (running (lr_ID lr)) (driveIterations fuel lr goal defName cfg h) inv.
Proof.
  unfold driveIterations. eapply always_bind; [apply live_stays; live_run|intros b; apply drive_inv].
Qed.
Lemma resumeBlocked_inv fuel lr goal cfg h :
  always (running (lr_ID lr)) (resumeBlockedIteration fuel lr goal cfg h) inv.
Proof.
  unfold resumeBlockedIteration. destruct (last h) as [l|]; [|apply live_ends; live_run].
  apply always_if; [apply live_ends; live_run|].
  eapply always_bind; [apply live_stays; live_run|intros res].
  apply always_if; [apply live_ends; live_run|].
  eapply always_bind; [apply live_stays; live_run|intros b].
  intros w Hw. unfold mbind, act_bind.
  pose proof (evaluate_live lr goal l res (cfg_ContinuationPolicy cfg) b (removelast h) w Hw) as He.
  destruct (evaluateDecideAndAct _ _ _ _ _ _ _ w) as [[[r|lr2 goal2 h2]|e] w2] eqn:Hev; [done| |done].
  apply evaluate_GoesOn in Hev as (Hid & _). cbn [goes_on] in He. rewrite <- Hid in He.
  by apply driveIterations_inv.
Qed.
Lemma launchLoopRun_inv fuel name input id : always inv (launchLoopRun fuel name input id) inv.
Proof.
  apply (launchLoopRun_rule engine_inv); [apply resolveGoal_inv|].
  intros lr row goal cfg w w' Hw Hno Hc Hst. apply driveIterations_inv.
  pose proof (CreateLoopRun_wf O lr w (proj1 Hw)) as Hw'. rewrite Hc in Hw'. cbn in Hw'.
  apply CreateLoopRun_Ok in Hc as (Hruns' & Hgr & Hstr & _). split.
  - split; [done|].
    apply (one_active_runs (set_loop_runs (w_db w) (loop_runs (w_db w) ++ [row])%list)); [exact Hruns'|].
    apply one_active_create; [apply Hw|done].
  - exists row. rewrite Hruns'. split; [set_solver|]. split; [done|]. unfold active.
    rewrite Hstr, Hst. by_decide.
Qed.

Lemma Run_inv fuel name input : always inv (Run fuel name input) inv.
Proof. apply (Run_rule engine_inv). intros id. apply launchLoopRun_inv. Qed.

(** A run that is not stored, or stored and not active. *)
Definition idle (id : string) (db : DB) : Prop :=
  ∀ r, find_row (loop_runs db) id = Some r → ¬ active r.
Lemma idle_or_running id w : engine_inv (w_db w) → idle id (w_db w) ∨ running id w.
Proof.
  intros Hinv. destruct (find_row (loop_runs (w_db w)) id) as [r|] eqn:Hf; [|left; intros r; congruence].
  destruct (decide (lr_Status r ∈ LoopRunActiveStatuses)) as [Ha|Ha].
  - right. split; [done|]. apply find_row_Some in Hf as [? ?]. eauto.
  - left. intros r' Hr'. rewrite Hf in Hr'. by injection Hr' as <-.
Qed.

(** Reading the run first: what follows only runs on the stored row. *)
Lemma bind_GetLoopRun_db {A} id (k : LoopRun → engine A) w :
  (∀ r w', find_row (loop_runs (w_db w)) id = Some r → w_db w' = w_db w → w_db (k r w').2 = w_db w) →
  w_db ((st (GetLoopRun O id) ≫= k) w).2 = w_db w.
Proof.
  intros Hk. unfold mbind, act_bind.
  destruct (st (GetLoopRun O id) w) as [[r|e] w'] eqn:Hg; cbn [snd].
  - apply GetLoopRun_Ok in Hg as (Hf & _ & Hdb). by apply Hk.
  - unfold wrap in Hg. pose proof (query_db (λ db, match find_row (loop_runs db) id with
      | Some r => Ok r | None => Err ErrLoopRunNotFound end) w) as Hq.
    unfold GetLoopRun in Hg. destruct (query O _ w) as [[?|?] ?]; [done|]. by injection Hg as <- <-.
Qed.
Lemma Resume_idle fuel id w : idle id (w_db w) → w_db (Resume fuel id w).2 = w_db w.
Proof.
  intros Hidle. unfold Resume. case_if; [done|]. apply bind_GetLoopRun_db.
  intros r w1 Hf Hdb. apply Hidle in Hf. set (db := w_db w) in *. clearbody db.
  assert (∀ s, lr_Status r = s → s ∉ LoopRunActiveStatuses) as Hs by (by intros s <-).
  revert w1 Hdb.
  match goal with |- ∀ w, _ → w_db (?m w).2 = _ =>
    change (always (λ w, w_db w = db) m (λ w, w_db w = db)) end.
  rewrite !(bool_decide_eq_false_2 (lr_Status r = _)).
  2,3: intros Heq; apply Hs in Heq; apply Heq; by_decide.
  assert (∀ A (f : DB → result StoreErr A), always (λ w, w_db w = db) (st (query O f)) (λ w, w_db w = db)) as Hq.
  { intros A f w' Hw'. unfold wrap. pose proof (query_db f w'). destruct (query O f w') as [[?|?] ?]; cbn in *; congruence. }
  repeat first [ eapply always_bind; [apply always_triple, Hq|intros ?]
               | eapply always_bind; [by apply always_triple, always_same|intros ?]
               | eapply always_bind; [apply always_triple; by intros ? ?|intros ?]
               | apply always_if | by apply always_same ].
Qed.
Lemma ResolveEscalation_idle fuel id ov w :
  idle id (w_db w) → w_db (ResolveEscalation fuel id ov w).2 = w_db w.
Proof.
  intros Hidle. unfold ResolveEscalation. case_if; [done|]. apply bind_GetLoopRun_db.
  intros r w1 Hf Hdb. rewrite bool_decide_eq_false_2; [done|].
  intros Heq. apply (Hidle _ Hf). unfold active. rewrite Heq. by_decide.
Qed.


(** The run is read first, and it is the one that was asked for. *)
Lemma live_GetLoopRun id :
  triple (running id) (st (GetLoopRun O id)) (λ r w, live id (w_db w) ∧ lr_ID r = id) inv.
Proof.
  intros w Hw. pose proof (live_stays id (st (GetLoopRun O id)) ltac:(unfold GetLoopRun; live_run) w Hw) as Hs.
  destruct (st (GetLoopRun O id) w) as [[r|e] w'] eqn:Hg'; [|done]. by apply GetLoopRun_Ok in Hg' as (_ & ? & _).
Qed.
Lemma always_pure (P I : World → Prop) (Q : Prop) {A} (m : engine A) :
  (Q → always P m I) → always (λ w, P w ∧ Q) m I.
Proof. intros Hm w [Hw Hq]. by apply Hm. Qed.
Lemma Resume_inv fuel id : always inv (Resume fuel id) inv.
Proof.
  intros w Hw. destruct (idle_or_running id w Hw) as [Hi|Hr]; [by rewrite Resume_idle|].
  revert w Hw Hr. intros w _. revert w. fold (always (running id) (Resume fuel id) inv).
  unfold Resume. apply always_if; [apply live_ends; live_run|].
  eapply always_bind; [apply live_GetLoopRun|intros lr]. apply always_pure. intros <-.
  eapply always_bind; [apply live_stays; unfold GetGoal; live_run|intros goal].
  eapply always_bind; [apply live_stays; live_run|intros cfg].
  eapply always_bind; [apply live_stays; live_run|intros readable].
  apply always_if; [apply live_ends; live_run|].
  eapply always_bind; [apply live_stays; live_run|intros allowed].
  apply always_if; [apply live_ends; live_run|].
  eapply always_bind; [apply live_stays; unfold ListLoopRunIterations; live_run|intros h].
  apply always_if; [apply resumeBlocked_inv|].
  apply always_if; [apply driveIterations_inv|apply live_ends; live_run].
Qed.

(** Canceling makes no run active. *)
Definition no_new_active (db db' : DB) : Prop :=
  ∀ r, r ∈ loop_runs db' → active r → r ∈ loop_runs db.
#[local] Instance no_new_active_preorder : PreOrder no_new_active.
Proof. split; [by intros db r|]. intros a b c Hab Hbc r Hr Ha. auto. Qed.
Lemma one_active_no_new db db' : no_new_active db db' → one_active db → one_active db'.
Proof. intros Hn Hone r1 r2 ? ? ? ?. apply Hone; auto. Qed.
Lemma canceled_inv id c : always inv (UpdateLoopRunStatus O id LoopRunStatusCanceled c) inv.
Proof.
  intros w [Hdb Hone]. split; [by apply UpdateLoopRunStatus_wf|].
  eapply one_active_no_new; [|exact Hone].
  apply (stays_at no_new_active (UpdateLoopRunStatus O id LoopRunStatusCanceled c)).
  unfold UpdateLoopRunStatus, update_loop_run. stays_statements.
  intros db ? db'. case_if; [|done]. intros [= _ <-] r. cbn.
  intros [[? _]|(r0 & _ & _ & ->)]%elem_of_update_row Ha; [done|]. exfalso. revert Ha. cbn. by_decide.
Qed.
Lemma Cancel_inv id : always inv (Cancel id) inv.
Proof.
  unfold Cancel. apply always_if; [by intros w Hw|].
  apply (always_bind _ (λ _, inv)); [by intros w Hw|intros t].
  apply (always_bind _ (λ _, inv)); [|intros []; intros w Hw; by apply notify_inv].
  intros w Hw. pose proof (canceled_inv id (Some t) w Hw) as Hc. unfold wrap.
  by destruct (UpdateLoopRunStatus O id _ _ w) as [[?|?] ?].
Qed.
Lemma applyReplan_live id lr rp : stays (dbR (live_kept id)) (applyReplan lr rp).
Proof.
  unfold applyReplan, GetGoal.
  destruct (rp_DesiredState rp), (rp_AcceptanceCriteria rp); live_run.
Qed.
Lemma ResolveEscalation_inv fuel id ov : always inv (ResolveEscalation fuel id ov) inv.
Proof.
  intros w Hw. destruct (idle_or_running id w Hw) as [Hi|Hr]; [by rewrite ResolveEscalation_idle|].
  revert w Hw Hr. intros w _. revert w. fold (always (running id) (ResolveEscalation fuel id ov) inv).
  assert (∀ m : engine LoopResult, always inv m inv → always (running id) m inv) as Hinv.
  { intros m Hm w [Hw _]. by apply Hm. }
  unfold ResolveEscalation. apply always_if; [apply live_ends; live_run|].
  eapply always_bind; [apply live_GetLoopRun|intros lr]. apply always_pure. intros <-.
  apply always_if; [apply live_ends; live_run|].
  destruct ov as [[[] [] [rp|]]|].
  1-4: eapply always_bind; [apply live_stays; live_run|intros t]; apply triple_always, ending_inv; by intros w Hw.
  1-2: apply Hinv; (eapply always_bind; [apply always_triple, Cancel_inv|intros []; by intros w Hw]).
  2-3: by apply Hinv, Resume_inv.
  eapply always_bind; [apply live_stays, applyReplan_live|intros []].
  by apply Hinv, Resume_inv.
Qed.

Lemma engine_step_inv o w : engine_inv (w_db w) → engine_inv (w_db (engine_step w o)).
Proof.
  destruct o; cbn.
  - apply Run_inv.
  - apply Resume_inv.
  - unfold TickResume. intros Hw. by repeat case_if.
  - apply Cancel_inv.
  - apply ResolveEscalation_inv.
Qed.
Lemma run_engine_inv ops w : engine_inv (w_db w) → engine_inv (w_db (run_engine w ops)).
Proof.
  revert w. induction ops as [|o ops IH]; intros w Hw; cbn; [done|]. by apply IH, engine_step_inv.
Qed.

(** ** Lemmas: the iterations of a run, through the engine's calls *)

Definition numbered_db (id : string) (n : nat) (db : DB) : Prop :=
  numbering_inv db ∧ id ∈ run_ids db ∧ numbers id db = first_numbers n.
Abbreviation numbered id n := (λ w, numbered_db id n (w_db w)).
Definition numbering_kept (id : string) : relation DB := λ db db', ∀ n, numbered_db id n db → numbered_db id n db'.
#[local] Instance numbering_kept_preorder id : PreOrder (numbering_kept id).
Proof. unfold numbering_kept. split; [by intros ?|]. intros a b c. auto. Qed.

Lemma same_numbers_inv db db' :
  wf_kept db db' → (∀ x, same_numbers x db db') → numbering_inv db → numbering_inv db'.
Proof.
  intros Hw Hn [Hdb Hall]. split; [auto|]. intros x. destruct (Hall x) as [n Hx]. exists n.
  rewrite <- Hx. apply Hn.
Qed.
Lemma numbering_stmts id i : stmts_stay (numbering_kept id) i.
Proof.
  apply (stmts_both (λ db db', wf_kept db db' ∧ run_ids db' = run_ids db)
                    (λ db db', ∀ x, same_numbers x db db')).
  - intros db db' [Hw Hids] Hn n (Hi & Hin & Hx). split_and!.
    + by eapply same_numbers_inv.
    + by rewrite Hids.
    + rewrite <- Hx. apply Hn.
  - apply (stmts_both wf_kept (run_frame i)); [|apply wf_stmts|apply run_frame_stmts].
    intros db db' Hw Hf. split; [done|by eapply run_frame_ids].
  - split; intros; intros w x; apply (same_numbers_stmts x i).
Qed.
Lemma numbering_ops id i : ops_stay (numbering_kept id) i.
Proof.
  split; [|apply numbering_stmts]. revert Hgentle. apply host_weaken.
  intros db db' Hh n (Hi & Hin & Hx). split_and!.
  - by apply Hh.
  - by eapply spares_ids; [apply Hh|].
  - rewrite <- Hx. by apply (sp_numbers _ _ (gt_spares _ _ Hh)).
Qed.

Lemma numbered_stays {A} id n (m : engine A) :
  stays (dbR (numbering_kept id)) m → triple (numbered id n) m (λ _, numbered id n) ninv.
Proof.
  intros Hm w Hw. specialize (Hm w n Hw). destruct (m w) as [[a|e] w']; cbn in *; [done|apply Hm].
Qed.
Lemma numbered_always {A} id n (m : engine A) :
  stays (dbR (numbering_kept id)) m → always (numbered id n) m ninv.
Proof. intros Hm w Hw. apply (Hm w n Hw). Qed.
Lemma numbered_ret {A} id n (m : engine A) : (∀ w, (m w).2 = w) → always (numbered id n) m ninv.
Proof. intros Hm w Hw. rewrite Hm. apply Hw. Qed.

(** The row of the next iteration is inserted, or nothing is. *)
Lemma insert_numbered li n :
  IterationNumber li = (Z.of_nat n + 1)%Z →
  triple (numbered (it_LoopRunID li) n) (st (CreateLoopRunIteration O li))
    (λ _, numbered (it_LoopRunID li) (S n)) ninv.
Proof.
  intros Hli w ([Hdb Hall] & Hin & Hn). unfold wrap.
  pose proof (CreateLoopRunIteration_numbers li w) as Hc.
  pose proof (CreateLoopRunIteration_wf O li w Hdb) as Hwf.
  pose proof (run_frame_ids _ _ _ (run_frame_iteration "" li w)) as Hids.
  pose proof (λ x Hx, same_numbers_iteration x li Hx w) as Ho.
  destruct (CreateLoopRunIteration O li w) as [[row|e] w']; cbn [snd] in *; [|by rewrite Hc].
  assert (numbers (it_LoopRunID li) (w_db w') = first_numbers (S n)) as Hs.
  { by rewrite Hc, Hn, Hli, first_numbers_S. }
  split_and!; [split; [done|]|by rewrite Hids|done].
  intros x. destruct (decide (it_LoopRunID li = x)) as [<-|Hne]; [by exists (S n)|].
  destruct (Hall x) as [k Hk]. exists k. rewrite <- Hk. by apply Ho.
Qed.
(** An iteration is launched under the next number. *)
Lemma launchIteration_numbered lr defName cfg n :
  triple (numbered (lr_ID lr) n) (launchIteration lr defName cfg (Z.of_nat n + 1))
    (λ _, numbered (lr_ID lr) (S n)) ninv.
Proof.
  pose proof (numbering_ops (lr_ID lr) (lr_ID lr)) as OS.
  unfold launchIteration. change (lr_ID (lr_incr lr)) with (lr_ID lr).
  eapply triple_bind; [apply numbered_stays, stays_wrap, (os_bump _ _ OS)|intros []].
  eapply triple_bind; [apply numbered_stays, stays_call; intros t db; destruct OS as [[Hl _]]; apply Hl|].
  intros [res|]; [|by intros w [Hw _]].
  destruct (bool_decide (RunID res = "")); [by intros w [Hw _]|].
  eapply triple_bind; [apply numbered_stays, stays_wrap, (os_scope _ _ OS)|intros []].
  eapply triple_bind; [by apply (insert_numbered (mkLoopRunIteration _ _ _ _ _ _ _ _ _))|intros row].
  by intros w Hw.
Qed.

Lemma drive_numbered fuel b lr goal defName cfg h :
  always (numbered (lr_ID lr) (length h)) (drive fuel b lr goal defName cfg h) ninv.
Proof.
  revert lr goal h. induction fuel as [|fuel IH]; intros lr goal h; cbn [drive]; [by apply numbered_ret|].
  pose proof (numbering_ops (lr_ID lr) (lr_ID lr)) as OS.
  eapply always_bind; [apply numbered_stays, stays_ask; exact _|intros ctxDone].
  apply always_if; [by apply numbered_ret|].
  eapply always_bind; [apply numbered_stays, stays_ask; exact _|intros runDone].
  apply always_if; [apply numbered_always, (stays_escalate _ _ OS); done|].
  intros w Hw. unfold mbind at 1, act_bind at 1.
  pose proof (launchIteration_numbered lr defName cfg (length h) w Hw) as Hl.
  destruct (launchIteration lr defName cfg _ w) as [[[[lr1 row] res]|e] w1] eqn:Hli; [|done].
  apply launchIteration_id in Hli as ->. case_if.
  { eapply (numbered_always _ (S (length h))); [|exact Hl].
    stays_with ltac:(apply (os_status _ _ OS)). }
  unfold mbind, act_bind.
  pose proof (numbered_stays _ (S (length h)) _ (stays_evaluate _ _ OS (lr_incr lr) goal row res
    (cfg_ContinuationPolicy cfg) b h eq_refl) w1 Hl) as He.
  destruct (evaluateDecideAndAct _ _ _ _ _ _ _ w1) as [[[r|lr2 goal2 h2]|e] w2] eqn:Hev; [apply He| |done].
  apply evaluate_GoesOn in Hev as (Hid & _ & Hlen & _). change (lr_ID (lr_incr lr)) with (lr_ID lr) in Hid.
  apply IH. by rewrite Hid, Hlen.
Qed.
Lemma driveIterations_numbered fuel lr goal defName cfg h :
  always (numbered (lr_ID lr) (length h)) (driveIterations fuel lr goal defName cfg h) ninv.
Proof.
  unfold driveIterations.
  eapply always_bind; [apply numbered_stays; stays_statements|intros b; apply drive_numbered].
Qed.

(** A resumed iteration keeps its number; the loop goes on with the next. *)
Lemma resumeBlocked_numbered fuel lr goal cfg h :
  always (numbered (lr_ID lr) (length h)) (resumeBlockedIteration fuel lr goal cfg h) ninv.
Proof.
  pose proof (numbering_ops (lr_ID lr) (lr_ID lr)) as OS.
  unfold resumeBlockedIteration. destruct (last h) as [l|] eqn:Hlast; [|by apply numbered_ret].
  apply always_if; [by apply numbered_ret|].
  eapply always_bind; [apply numbered_stays|intros res].
  { apply stays_call. intros t db. destruct OS as [[_ [Hr _]]]. apply Hr. }
  apply always_if; [by apply numbered_ret|].
  eapply always_bind; [apply numbered_stays; stays_statements|intros b].
  intros w Hw. unfold mbind, act_bind.
  pose proof (numbered_stays _ (length h) _ (stays_evaluate _ _ OS lr goal l res
    (cfg_ContinuationPolicy cfg) b (removelast h) eq_refl) w Hw) as He.
  destruct (evaluateDecideAndAct _ _ _ _ _ _ _ w) as [[[r|lr2 goal2 h2]|e] w2] eqn:Hev; [apply He| |done].
  apply evaluate_GoesOn in Hev as (Hid & _ & Hlen & _).
  apply driveIterations_numbered. rewrite Hid, Hlen.
  destruct h as [|x h]; [done|]. destruct (exists_last (l := x :: h)) as (h' & y & Hh); [done|].
  rewrite Hh, removelast_last in *. rewrite length_app in He. cbn in He. by rewrite Nat.add_1_r in He.
Qed.

Lemma ninv_numbered id w :
  ninv w → id ∈ run_ids (w_db w) → numbered id (length (iterations_of (w_db w) id)) w.
Proof.
  intros Hi Hin. split; [done|]. split; [done|]. destruct Hi as [_ Hc]. destruct (Hc id) as [n Hn].
  unfold iterations_of. rewrite order_by_length.
  assert (length (numbers id (w_db w)) = n) as Hlen by (by rewrite Hn, first_numbers_length).
  unfold numbers in Hlen. rewrite length_map in Hlen. by rewrite Hlen.
Qed.
Lemma ninv_db {A} (m : engine A) : (∀ w, w_db (m w).2 = w_db w) → always ninv m ninv.
Proof. intros Hm w Hw. by rewrite Hm. Qed.
Lemma ninv_same {A} (m : engine A) :
  stays (dbR wf_kept) m → (∀ id, stays (dbR (same_numbers id)) m) → always ninv m ninv.
Proof. intros Hw Hn w. apply same_numbers_inv; [apply Hw|intros x; apply Hn]. Qed.
Lemma ninv_notify i s : always ninv (notifyOuterOnTerminal i s) ninv.
Proof.
  unfold notifyOuterOnTerminal. destruct Hgentle as (_ & _ & Hn). apply always_if; [by intros w Hw|].
  apply always_if; [|by intros w Hw]. intros w Hw. cbn. by apply Hn.
Qed.
Lemma ninv_status i s c : always ninv (st (UpdateLoopRunStatus O i s c)) ninv.
Proof.
  apply ninv_same; [apply stays_wrap, UpdateLoopRunStatus_wf|].
  intros id. apply stays_wrap, (os_status _ _ (same_numbers_stmts id i)).
Qed.

Lemma ninv_GetLoopRun id :
  triple ninv (st (GetLoopRun O id))
    (λ r w, (ninv w ∧ id ∈ run_ids (w_db w)) ∧ lr_ID r = id) ninv.
Proof.
  intros w Hw. unfold GetLoopRun. pose proof (wrap_query_db (λ db, match find_row (loop_runs db) id with
      | Some r => Ok r | None => Err ErrLoopRunNotFound end) w) as Hq.
  destruct (st (query O _) w) as [[r|e] w'] eqn:Hr; cbn in Hq; rewrite Hq; [|done].
  apply GetLoopRun_Ok in Hr as (Hf & Hid & _). split; [split; [done|]|done].
  apply find_row_Some in Hf as [Hin <-]. by apply run_ids_elem.
Qed.
Lemma Resume_ninv fuel id : always ninv (Resume fuel id) ninv.
Proof.
  unfold Resume. apply always_if; [by intros w Hw|].
  eapply always_bind; [apply ninv_GetLoopRun|intros lr]. apply always_pure. intros <-.
  set (I := λ w, ninv w ∧ lr_ID lr ∈ run_ids (w_db w)).
  assert (∀ A (m : engine A), (∀ w, w_db (m w).2 = w_db w) → triple I m (λ _, I) ninv) as Hread.
  { intros A m Hm w [Hw Hin]. specialize (Hm w). unfold I.
    destruct (m w) as [[?|?] ?]; cbn in *; by rewrite Hm. }
  assert (∀ m : engine LoopResult, (∀ w, (m w).2 = w) → always I m ninv) as Hend.
  { intros m Hm w [Hw _]. by rewrite Hm. }
  eapply always_bind; [apply Hread; intros w; apply wrap_query_db|intros goal].
  eapply always_bind; [by apply Hread|intros cfg].
  eapply always_bind; [by apply Hread|intros readable]. apply always_if; [by apply Hend|].
  eapply always_bind; [apply Hread; intros w; by case_if|intros allowed]. apply always_if; [by apply Hend|].
  apply (always_bind _ (λ h w, numbered (lr_ID lr) (length h) w)).
  { intros w [Hw Hin].
    pose proof (wrap_query_db (λ db, Ok (iterations_of db (lr_ID lr))) w) as Hq.
    destruct (st (ListLoopRunIterations O (lr_ID lr)) w) as [[h|e] w'] eqn:Hl;
      unfold ListLoopRunIterations in Hl; rewrite Hl in Hq; cbn in Hq; rewrite Hq; [|done].
    apply wrap_Ok, query_Ok in Hl as [[= <-] _]. by apply ninv_numbered. }
  intros h. apply always_if; [apply resumeBlocked_numbered|].
  apply always_if; [apply driveIterations_numbered|by apply numbered_ret].
Qed.
Lemma Cancel_ninv id : always ninv (Cancel id) ninv.
Proof.
  unfold Cancel. apply always_if; [by intros w Hw|].
  apply (always_bind _ (λ _, ninv)); [by intros w Hw|intros t].
  eapply always_bind; [apply always_triple, ninv_status|intros []; apply ninv_notify].
Qed.
Lemma Run_ninv fuel name input : always ninv (Run fuel name input) ninv.
Proof.
  apply (Run_rule numbering_inv). intros id. apply (launchLoopRun_rule numbering_inv).
  - apply ninv_same.
    + apply resolveGoal_stays; [exact _|]. intros g. apply CreateGoal_wf.
    + intros id'. apply resolveGoal_stays; [exact _|]. intros g. unfold CreateGoal.
      stays_statements. intros db ? db'. case_if; [done|]. intros [= _ <-].
      by apply same_numbers_iterations.
  - intros lr row goal cfg w w' Hw _ Hc _.
    apply (driveIterations_numbered fuel row goal name cfg []). split_and!.
    + assert (always ninv (st (CreateLoopRun O lr)) ninv) as Hk.
      { apply ninv_same; [apply stays_wrap, CreateLoopRun_wf|]. intros id'. apply stays_wrap.
        unfold CreateLoopRun. stays_statements. intros db ? db'.
        case_if; [done|]. intros [= _ <-]. by apply same_numbers_iterations. }
      specialize (Hk w Hw). unfold wrap in Hk. by rewrite Hc in Hk.
    + apply CreateLoopRun_Ok in Hc as (Hl & _). apply run_ids_elem. rewrite Hl. set_solver.
    + by rewrite (CreateLoopRun_fresh _ _ _ _ Hc (proj1 Hw)).
Qed.
Lemma applyReplan_ninv lr rp : always ninv (applyReplan lr rp) ninv.
Proof.
  apply ninv_same; [by apply (stays_applyReplan _ _ (wf_ops (lr_ID lr) gentle_wf))|].
  intros id. unfold applyReplan, GetGoal. pose proof (same_numbers_stmts id (lr_ID lr)) as OS.
  destruct (rp_DesiredState rp), (rp_AcceptanceCriteria rp);
    stays_with ltac:(first [apply (os_name _ _ OS) | apply stays_rearchitect; [exact _|apply (os_goal _ _ OS)]]).
Qed.
Lemma ResolveEscalation_ninv fuel id ov : always ninv (ResolveEscalation fuel id ov) ninv.
Proof.
  unfold ResolveEscalation. apply always_if; [by intros w Hw|].
  apply (always_bind _ (λ lr, ninv)).
  { intros w Hw. pose proof (ninv_GetLoopRun id w Hw) as Hr.
    destruct (st (GetLoopRun O id) w) as [[r|e] w']; [by destruct Hr as [[? _] _]|done]. }
  intros lr. apply always_if; [by intros w Hw|].
  destruct ov as [[[] [] [rp|]]|]; try apply Resume_ninv.
  1-4: apply (always_bind _ (λ _, ninv)); [by intros w Hw|intros t];
       (eapply always_bind; [apply always_triple, ninv_status|intros []]);
       (eapply always_bind; [apply always_triple, ninv_notify|intros []]); by intros w Hw.
  1-2: (eapply always_bind; [apply always_triple, Cancel_ninv|intros []; by intros w Hw]).
  eapply always_bind; [apply always_triple, applyReplan_ninv|intros []; apply Resume_ninv].
Qed.
Lemma run_engine_ninv ops w : ninv w → ninv (run_engine w ops).
Proof.
  revert w. induction ops as [|o ops IH]; intros w Hw; cbn; [done|]. apply IH. destruct o; cbn.
  - by apply Run_ninv.
  - by apply Resume_ninv.
  - unfold TickResume. by repeat case_if.
  - by apply Cancel_ninv.
  - by apply ResolveEscalation_ninv.
Qed.

(** ** Lemmas: launching a run is gentle *)

Lemma Run_spares db0 fuel name input :
  always (λ w, spares db0 (w_db w)) (Run fuel name input) (λ w, spares db0 (w_db w)).
Proof.
  apply (Run_rule (spares db0)). intros id. apply (launchLoopRun_rule (spares db0)).
  - apply (always_stays spares).
    + apply resolveGoal_stays; [exact _|]. intros g. unfold CreateGoal.
      stays_statements. intros db ? db'. case_if; [done|]. intros [= _ <-]. by split.
    + intros db db' Hs H0s. by etransitivity.
  - intros lr row goal cfg w w' Hw _ Hc _. etransitivity; [exact Hw|].
    pose proof (stays_driveIterations _ _ (gentle_leaves (lr_ID row)) (leaves_iteration _)
      fuel row goal name cfg [] eq_refl w') as [_ Hr Hn].
    pose proof (same_numbers_create lr w) as Hsame. rewrite Hc in Hsame. cbn [snd] in Hsame.
    apply CreateLoopRun_Ok in Hc as (Hl & _ & _ & _ & _ & Hnew).
    assert (∀ r, r ∈ loop_runs (w_db w) → lr_ID r ≠ lr_ID row) as Hne.
    { intros r Hr' Heq. apply Hnew. rewrite <- Heq. by apply run_ids_elem. }
    split.
    + intros r Hr'. apply Hr; [rewrite Hl; set_solver|by apply Hne].
    + intros x Hx. rewrite Hn; [apply Hsame| |].
      * unfold run_ids in *. rewrite Hl, map_app. set_solver.
      * intros ->. by apply Hnew.
Qed.
Lemma Run_wf fuel name input :
  always (λ w, db_wf (w_db w)) (Run fuel name input) (λ w, db_wf (w_db w)).
Proof.
  apply (Run_rule db_wf). intros id. apply (launchLoopRun_rule db_wf).
  - apply (always_stays wf_kept); [|by intros db db' Hs].
    apply resolveGoal_stays; [exact _|]. intros g. apply CreateGoal_wf.
  - intros lr row goal cfg w w' Hw _ Hc _.
    pose proof (CreateLoopRun_wf O lr w Hw) as Hw'. rewrite Hc in Hw'. revert Hw'.
    apply (stays_driveIterations _ _ (wf_ops (lr_ID row) gentle_wf)); [|done].
    intros li _. apply CreateLoopRunIteration_wf.
Qed.
Lemma Run_gentle fuel name input w : gentle (w_db w) (w_db (Run fuel name input w).2).
Proof.
  split; [by apply Run_spares|intros Hdb; by apply Run_wf|intros Hi; by apply Run_inv|].
  intros Hi. by apply Run_ninv.
Qed.

End Gentle.

(** ** Lemmas: what a call reports is what is stored *)

Definition reports (res : LoopResult) (db : DB) : Prop :=
  ∃ row, find_row (loop_runs db) (LoopRunID res) = Some row ∧ lr_Status row = result_Status res.
(** The status a verdict leads to. *)
Definition status_of_kind (k : DecisionKind) : option string :=
  match k with
  | DecisionComplete => Some LoopRunStatusCompleted
  | DecisionFail => Some LoopRunStatusFailed
  | DecisionWait | DecisionEscalate => Some LoopRunStatusWaitingOnEscalation
  | _ => None
  end.
Definition verdict_matches (res : LoopResult) : Prop :=
  ∀ d, LastDecision res = Some d → status_of_kind (Kind d) = Some (result_Status res).

Lemma UpdateLoopRunStatus_Ok id s c w w' :
  UpdateLoopRunStatus O id s c w = (Ok tt, w') →
  ∃ row, find_row (loop_runs (w_db w')) id = Some row ∧ lr_Status row = s.
Proof.
  unfold UpdateLoopRunStatus, update_loop_run. intros ([] & w1 & [_ ->]%lift_Ok & Hb)%bind_Ok.
  apply bind_Ok in Hb as (t & w2 & _ & Hb). apply exec_Ok in Hb as (db' & Hf & Hdb).
  case_if_in Hf; [|done]. injection Hf as <-. rewrite Hdb. cbn [loop_runs set_loop_runs].
  apply find_row_has in Hif as [r Hr]. exists (lr_set_status s t c r). split; [|done].
  by apply find_update_same.
Qed.

Section Reports.
Context (Hruns : host_stays (λ db db', loop_runs db' = loop_runs db)).

Lemma notify_runs i s w u w' :
  notifyOuterOnTerminal i s w = (Ok u, w') → loop_runs (w_db w') = loop_runs (w_db w).
Proof.
  destruct Hruns as (_ & _ & Hn). unfold notifyOuterOnTerminal, call.
  case_if; [by intros [= _ <-]|]. case_if; [|by intros [= _ <-]]. intros [= _ <-]. cbn. apply Hn.
Qed.
Lemma tick_runs i agent w u w' :
  scheduleLoopRunTick i agent w = (Ok u, w') → loop_runs (w_db w') = loop_runs (w_db w).
Proof.
  unfold scheduleLoopRunTick. case_if; [done|]. intros (t & w1 & [_ Hdb]%ask_Ok & Hb)%bind_Ok.
  apply wrap_Ok, exec_Ok in Hb as (db' & [= _ <-] & Hw'). rewrite Hw', <- Hdb. done.
Qed.
Lemma escalate_reports lr b w res w' :
  escalateOnBoundedContextExceeded lr b w = (Ok res, w') →
  reports res (w_db w') ∧ verdict_matches res ∧ LoopRunID res = lr_ID lr.
Proof.
  unfold escalateOnBoundedContextExceeded. intros (c & w1 & _ & Hb)%bind_Ok.
  apply bind_Ok in Hb as ([] & w2 & (row & Hrow & Hst)%wrap_Ok%UpdateLoopRunStatus_Ok & Hb).
  apply bind_Ok in Hb as (u & w3 & Hn%notify_runs & Hb). apply mret_Ok in Hb as [-> ->].
  split; [|done]. exists row. cbn. by rewrite Hn.
Qed.
Lemma actOn_reports lr goal h d w res w' :
  actOn lr goal h d w = (Ok (Stops res), w') →
  reports res (w_db w') ∧ verdict_matches res ∧ LoopRunID res = lr_ID lr.
Proof.
  unfold actOn. destruct (Kind d) eqn:Hk; intros Hb.
  1-3: by apply mret_Ok in Hb as [? _].
  1: by apply bind_Ok in Hb as (g & w1 & _ & [? _]%mret_Ok).
  1,2: apply bind_Ok in Hb as ([] & w2 & (row & Hrow & Hst)%wrap_Ok%UpdateLoopRunStatus_Ok & Hb);
       apply bind_Ok in Hb as (u & w3 & Ht & Hb); apply mret_Ok in Hb as [[= ->] ->];
       (split; [exists row; cbn; split; [|done]|split; [by intros ? [= <-]; rewrite Hk|done]]).
  - apply bind_Ok in Ht as (cfg & w4 & [_ ->]%lift_Ok & Ht%tick_runs). by rewrite Ht.
  - apply mret_Ok in Ht as [_ ->]. done.
  - apply bind_Ok in Hb as (t & w1 & _ & Hb).
    apply bind_Ok in Hb as ([] & w2 & (row & Hrow & Hst)%wrap_Ok%UpdateLoopRunStatus_Ok & Hb).
    apply bind_Ok in Hb as (u & w3 & Hn%notify_runs & Hb). apply mret_Ok in Hb as [[= ->] ->].
    split; [exists row; cbn; by rewrite Hn|]. split; [intros ? [= <-]; by rewrite Hk|done].
  - apply bind_Ok in Hb as (t & w1 & _ & Hb).
    apply bind_Ok in Hb as ([] & w2 & (row & Hrow & Hst)%wrap_Ok%UpdateLoopRunStatus_Ok & Hb).
    apply bind_Ok in Hb as (u & w3 & Hn%notify_runs & Hb). apply mret_Ok in Hb as [[= ->] ->].
    split; [exists row; cbn; by rewrite Hn|]. split; [intros ? [= <-]; by rewrite Hk|done].
Qed.
Lemma evaluate_reports lr goal row res pol b prior w r w' :
  evaluateDecideAndAct lr goal row res pol b prior w = (Ok (Stops r), w') →
  reports r (w_db w') ∧ verdict_matches r ∧ LoopRunID r = lr_ID lr.
Proof.
  unfold evaluateDecideAndAct. destruct (classifyIterationProgress HS (Some res)) as [ev ps].
  intros Hb. do 6 (apply bind_Ok in Hb as (? & ? & _ & Hb)). by apply actOn_reports in Hb.
Qed.
Lemma drive_reports fuel b lr goal defName cfg h w res w' :
  drive fuel b lr goal defName cfg h w = (Ok res, w') →
  reports res (w_db w') ∧ verdict_matches res ∧ LoopRunID res = lr_ID lr.
Proof.
  revert lr goal h w. induction fuel as [|fuel IH]; intros lr goal h w; cbn [drive]; [done|].
  intros (c1 & w1 & _ & Hb)%bind_Ok. case_if_in Hb; [done|].
  apply bind_Ok in Hb as (c2 & w2 & _ & Hb). case_if_in Hb; [by apply escalate_reports in Hb|].
  apply bind_Ok in Hb as ([[lr1 row] lres] & w3 & ->%launchIteration_id & Hb). case_if_in Hb.
  - apply bind_Ok in Hb as ([] & w4 & (r & Hr & Hst)%wrap_Ok%UpdateLoopRunStatus_Ok & Hb).
    apply mret_Ok in Hb as [-> ->]. split; [by exists r|done].
  - apply bind_Ok in Hb as ([r|lr2 goal2 h2] & w4 & He & Hb).
    + apply mret_Ok in Hb as [-> ->]. by apply evaluate_reports in He.
    + apply evaluate_GoesOn in He as [Hid _]. apply IH in Hb. by rewrite Hid in Hb.
Qed.
Lemma driveIterations_reports fuel lr goal defName cfg h w res w' :
  driveIterations fuel lr goal defName cfg h w = (Ok res, w') →
  reports res (w_db w') ∧ verdict_matches res ∧ LoopRunID res = lr_ID lr.
Proof. unfold driveIterations. intros (b & w1 & _ & Hb)%bind_Ok. by apply drive_reports in Hb. Qed.

Lemma launchLoopRun_reports fuel name input id w res w' :
  launchLoopRun fuel name input id w = (Ok res, w') →
  reports res (w_db w') ∧ verdict_matches res ∧ (id ≠ "" → LoopRunID res = id).
Proof.
  unfold launchLoopRun. intros (goal & w1 & _ & Hb)%bind_Ok.
  apply bind_Ok in Hb as ([|r l] & w2 & _ & Hb); [|done].
  apply bind_Ok in Hb as (cj & w3 & _ & Hb).
  apply bind_Ok in Hb as (lr & w4 & [(Hid & _)%SetBudget_keeps _]%wrap_Ok%lift_Ok & Hb).
  apply bind_Ok in Hb as (row & w5 & (_ & _ & _ & _ & Hrow & _)%wrap_Ok%CreateLoopRun_Ok & Hb).
  apply driveIterations_reports in Hb as (? & ? & Hres). split_and!; [done|done|].
  cbn in Hid. intros Hne. rewrite Hres, Hrow; [done|by rewrite Hid].
Qed.
Lemma optional_Some {A} (f : DB → result StoreErr A) nf w a w' :
  optional (query O f) nf w = (Ok (Some a), w') → f (w_db w) = Ok a ∧ w_db w' = w_db w.
Proof.
  unfold optional. destruct (query O f w) as [[x|e] w1] eqn:Hq.
  - intros [= -> ->]. by apply query_Ok in Hq.
  - by destruct (nf e).
Qed.
Lemma Run_reports fuel name input w res w' :
  Run fuel name input w = (Ok res, w') →
  reports res (w_db w') ∧ verdict_matches res ∧
  (IdempotencyKey input ≠ "" → deterministicLoopIdentity (IdempotencyKey input) ≠ "" →
   LoopRunID res = deterministicLoopIdentity (IdempotencyKey input)).
Proof.
  unfold Run. case_if; [done|]. case_if; [done|]. intros (c & w1 & [_ Hdb]%ask_Ok & Hb)%bind_Ok.
  case_if_in Hb; [done|]. destruct (decide (IdempotencyKey input = "")) as [Hk|Hk].
  { rewrite bool_decide_eq_true_2 in Hb by done. by apply launchLoopRun_reports in Hb as (? & ? & _). }
  rewrite bool_decide_eq_false_2 in Hb by done. apply bind_Ok in Hb as ([r|] & w2 & Ho & Hb).
  - case_if_in Hb; [done|]. apply mret_Ok in Hb as [-> ->].
    apply optional_Some in Ho as [Hf Hw2]. cbn.
    destruct (find_row _ _) as [x|] eqn:Hx; [|done]. injection Hf as ->.
    pose proof (find_row_Some _ _ _ Hx) as [_ Hid]. change (lr_ID r = deterministicLoopIdentity (IdempotencyKey input)) in Hid.
    split; [|done]. exists r. cbn. rewrite Hw2, Hid. done.
  - apply launchLoopRun_reports in Hb as (? & ? & Hid). auto.
Qed.
Lemma call_Ok {A} (f : nat → DB → option A * DB) e w a w' :
  call f e w = (Ok a, w') → w_db w' = (f (w_tick w) (w_db w)).2.
Proof. unfold call. destruct (f _ _) as [[x|] db]; [|done]. by intros [= _ <-]. Qed.
Lemma Resume_reports fuel id w res w' :
  Resume fuel id w = (Ok res, w') → reports res (w_db w') ∧ verdict_matches res ∧ LoopRunID res = id.
Proof.
  unfold Resume. case_if; [done|]. intros (lr & w1 & (Hf & Hid & Hdb)%GetLoopRun_Ok & Hb)%bind_Ok.
  apply bind_Ok in Hb as (goal & w2 & [_ Hw2]%wrap_Ok%query_Ok & Hb).
  apply bind_Ok in Hb as (cfg & w3 & [_ ->]%lift_Ok & Hb).
  apply bind_Ok in Hb as (c1 & w4 & [_ Hw4]%ask_Ok & Hb). case_if_in Hb; [done|].
  apply bind_Ok in Hb as (c2 & w5 & Hc2 & Hb). case_if_in Hb; [done|].
  assert (w_db w5 = w_db w4) as Hw5.
  { case_if_in Hc2; [by apply ask_Ok in Hc2 as [_ ?]|by apply mret_Ok in Hc2 as [_ ->]]. }
  apply bind_Ok in Hb as (h & w6 & [_ Hw6]%wrap_Ok%query_Ok & Hb).
  case_if_in Hb; [|case_if_in Hb; [by apply driveIterations_reports in Hb as (? & ? & ->)|done]].
  unfold resumeBlockedIteration in Hb. destruct (last h) as [l|]; [|done]. case_if_in Hb; [done|].
  apply bind_Ok in Hb as (lres & w7 & Hw7%call_Ok & Hb). case_if_in Hb.
  - apply mret_Ok in Hb as [-> ->]. split; [|done]. exists lr. cbn. split; [|done].
    destruct Hruns as (_ & Hr & _). rewrite Hw7, Hr. rewrite Hw6, Hw5, Hw4, Hw2, Hdb. by rewrite Hid.
  - apply bind_Ok in Hb as (b & w8 & _ & Hb). apply bind_Ok in Hb as ([r|lr2 goal2 h2] & w9 & He & Hb).
    + apply mret_Ok in Hb as [-> ->]. by apply evaluate_reports in He as (? & ? & ->).
    + apply evaluate_GoesOn in He as [Hid2 _].
      apply driveIterations_reports in Hb as (? & ? & ->). by rewrite Hid2.
Qed.
End Reports.

(** ** Lemmas: a bounded run ends *)

Lemma CreateLoopRun_budget lr w row w' :
  CreateLoopRun O lr w = (Ok row, w') → BudgetJSON row = or_default (BudgetJSON lr) "{}".
Proof.
  unfold CreateLoopRun. case_if; [done|]. case_if; [done|].
  intros (id & w1 & _ & Hb)%bind_Ok. apply bind_Ok in Hb as ([] & w2 & _ & Hb).
  apply bind_Ok in Hb as (t & w3 & _ & Hb). apply exec_Ok in Hb as (db' & Hf & _).
  case_if_in Hf; [done|]. by injection Hf as <- _.
Qed.
Lemma decode_created (lr row : LoopRun) b :
  BudgetJSON row = or_default (BudgetJSON lr) "{}" → LoopRun_Budget lr = Ok b → LoopRun_Budget row = Ok b.
Proof.
  unfold LoopRun_Budget. intros ->. unfold or_default.
  destruct (decide (BudgetJSON lr = "")) as [->|He]; [done|].
  by rewrite (bool_decide_eq_false_2 (BudgetJSON lr = "") He).
Qed.
Lemma launchLoopRun_finishes fuel name input id :
  JSONLaws Budget "{}" →
  (0 < MaxIterations (in_Budget input))%Z → Z.to_nat (MaxIterations (in_Budget input)) ≤ fuel →
  finishes (launchLoopRun fuel name input id).
Proof.
  intros Hlaws Hpos Hfuel w. unfold launchLoopRun.
  assert (finishes (resolveGoal input)) as Hres.
  { unfold resolveGoal, create_inline_goal. finishes_tac. }
  unfold mbind at 1, act_bind at 1. specialize (Hres w).
  destruct (resolveGoal input w) as [[goal|e] w1]; cbn in *; [|intros [= ->]; by destruct Hres].
  revert w1. clear Hres w. match goal with |- ∀ w, (?m w).1 ≠ _ => change (finishes m) end.
  apply finishes_bind; [apply finishes_st|intros [|r l]; [|finishes_tac]].
  apply finishes_bind; [apply finishes_encode|intros cj]. intros w. unfold mbind, act_bind, wrap, lift.
  destruct (SetBudget _ _) as [lr|e] eqn:Hb; [|done].
  apply (SetBudget_reads Hlaws) in Hb as (Hread & _).
  destruct (CreateLoopRun O lr w) as [[row|e] w2] eqn:Hc; [|done].
  apply CreateLoopRun_budget in Hc. apply (decode_created _ _ _ Hc) in Hread.
  unfold driveIterations, mbind, act_bind, wrap, lift. rewrite Hread.
  apply drive_finishes; cbn; [done|]. lia.
Qed.
Lemma Run_finishes fuel name input :
  JSONLaws Budget "{}" →
  (0 < MaxIterations (in_Budget input))%Z → Z.to_nat (MaxIterations (in_Budget input)) ≤ fuel →
  finishes (Run fuel name input).
Proof.
  intros Hlaws Hpos Hfuel. unfold Run. finishes_with ltac:(by apply launchLoopRun_finishes).
Qed.

Lemma driveIterations_finishes fuel lr goal defName cfg h :
  (∀ b, LoopRun_Budget lr = Ok b → (0 < MaxIterations b)%Z ∧ Z.to_nat (MaxIterations b) ≤ fuel) →
  finishes (driveIterations fuel lr goal defName cfg h).
Proof.
  intros Hb w. unfold driveIterations, mbind, act_bind, wrap, lift.
  destruct (LoopRun_Budget lr) as [b|e]; [|done]. destruct (Hb b eq_refl).
  apply drive_finishes; [done|]. lia.
Qed.
Lemma Resume_finishes fuel id w :
  (∀ r b, find_row (loop_runs (w_db w)) id = Some r → LoopRun_Budget r = Ok b →
     (0 < MaxIterations b)%Z ∧ Z.to_nat (MaxIterations b) ≤ fuel) →
  (Resume fuel id w).1 ≠ Err ErrUnfinished.
Proof.
  intros Hb. unfold Resume. case_if; [done|]. unfold mbind at 1, act_bind at 1.
  pose proof (wrap_EStore_fuel (GetLoopRun O id) w) as He.
  destruct (st (GetLoopRun O id) w) as [[lr|e] w1] eqn:Hg; [|intros [= ->]; by destruct He].
  apply GetLoopRun_Ok in Hg as (Hf & _ & _). specialize (Hb lr). clear He.
  assert (∀ b, LoopRun_Budget lr = Ok b → (0 < MaxIterations b)%Z ∧ Z.to_nat (MaxIterations b) ≤ fuel)
    as Hb' by eauto. clear Hb Hf.
  revert w1. match goal with |- ∀ w, (?m w).1 ≠ _ => change (finishes m) end.
  finishes_with ltac:(first [by apply driveIterations_finishes | fail]).
  unfold resumeBlockedIteration. destruct (last _) as [l|]; [|finishes_tac]. case_if; [finishes_tac|].
  apply finishes_bind; [by apply finishes_call|intros res]. case_if; [finishes_tac|].
  apply finishes_bind; [finishes_tac|intros b]. intros w2. unfold mbind, act_bind.
  pose proof (evaluate_finishes lr a l res (cfg_ContinuationPolicy a0) b (removelast a3) w2) as Hfin.
  destruct (evaluateDecideAndAct _ _ _ _ _ _ _ w2) as [[[r|lr2 goal2 h2]|e] w3] eqn:He.
  - done.
  - apply evaluate_GoesOn in He as (_ & Hj & _). apply driveIterations_finishes.
    unfold LoopRun_Budget in *. by rewrite Hj.
  - cbn in Hfin. intros [= ->]. by destruct Hfin.
Qed.

(** ** Lemmas: a gated run whose last iteration is decided *)

Lemma Resume_decided fuel id w r l :
  find_row (loop_runs (w_db w)) id = Some r → lr_Status r = LoopRunStatusWaitingOnGate →
  last (iterations_of (w_db w) id) = Some l → it_Decision l ≠ "" →
  ∃ e w', Resume fuel id w = (Err e, w') ∧ w_db w' = w_db w.
Proof.
  intros Hf Hs Hl Hd.
  destruct (Resume fuel id w) as [[res|e] w'] eqn:Hres.
  - exfalso. unfold Resume in Hres. case_if_in Hres; [done|].
    apply bind_Ok in Hres as (lr & w1 & (Hf' & Hid & Hdb)%GetLoopRun_Ok & Hb).
    rewrite Hf in Hf'. injection Hf' as <-.
    apply bind_Ok in Hb as (goal & w2 & [_ Hw2]%wrap_Ok%query_Ok & Hb).
    apply bind_Ok in Hb as (cfg & w3 & [_ ->]%lift_Ok & Hb).
    apply bind_Ok in Hb as (c1 & w4 & [_ Hw4]%ask_Ok & Hb). case_if_in Hb; [done|].
    rewrite (bool_decide_eq_false_2 (lr_Status r = LoopRunStatusWaitingOnEscalation)) in Hb by (by rewrite Hs).
    apply bind_Ok in Hb as (c2 & w5 & [-> ->]%mret_Ok & Hb). cbn [negb] in Hb.
    apply bind_Ok in Hb as (h & w6 & [[= <-] _]%wrap_Ok%query_Ok & Hb).
    rewrite (bool_decide_eq_true_2 (lr_Status r = LoopRunStatusWaitingOnGate)) in Hb by done.
    unfold resumeBlockedIteration in Hb.
    rewrite Hw4, Hw2, Hdb, Hid, Hl in Hb. by rewrite (bool_decide_eq_false_2 (it_Decision l = "")) in Hb.
  - exists e, w'. split; [done|].
    assert (w_db (Resume fuel id w).2 = w_db w) as Hdb; [|by rewrite Hres in Hdb].
    clear Hres e w'. unfold Resume. case_if; [done|]. apply bind_GetLoopRun_db.
    intros lr w1 Hf' Hdb. rewrite Hf in Hf'. injection Hf' as <-.
    pose proof (find_row_Some _ _ _ Hf) as [_ Hid]. change (lr_ID r = id) in Hid.
    set (db := w_db w) in *. clearbody db.
    rewrite (bool_decide_eq_false_2 (lr_Status r = LoopRunStatusWaitingOnEscalation)) by (by rewrite Hs).
    rewrite (bool_decide_eq_true_2 (lr_Status r = LoopRunStatusWaitingOnGate)) by done.
    revert w1 Hdb. match goal with |- ∀ w, _ → w_db (?m w).2 = _ =>
      change (always (λ w, w_db w = db) m (λ w, w_db w = db)) end.
    assert (∀ A (f : DB → result StoreErr A), always (λ w, w_db w = db) (st (query O f)) (λ w, w_db w = db)) as Hq.
    { intros A f w' Hw'. by rewrite wrap_query_db. }
    eapply always_bind; [apply always_triple, Hq|intros goal].
    eapply always_bind; [by apply always_triple, always_same|intros cfg].
    eapply always_bind; [apply always_triple; by intros ? ?|intros c1]. apply always_if; [by apply always_same|].
    eapply always_bind; [by apply always_triple, always_same|intros c2]. apply always_if; [by apply always_same|].
    apply (always_bind _ (λ h w, w_db w = db ∧ h = iterations_of db id)).
    { intros w' Hw'. pose proof (wrap_query_db (λ db, Ok (iterations_of db (lr_ID r))) w') as Hd'.
      destruct (st (ListLoopRunIterations O (lr_ID r)) w') as [[h|e] w''] eqn:Hl';
        unfold ListLoopRunIterations in Hl'; rewrite Hl' in Hd'; cbn in Hd'; [|congruence].
      apply wrap_Ok, query_Ok in Hl' as [[= <-] _]. rewrite Hid. split; congruence. }
    intros h w' [Hw' ->]. unfold resumeBlockedIteration. rewrite Hl.
    by rewrite (bool_decide_eq_false_2 (it_Decision l = "")).
Qed.

(** ** Lemmas: launching twice under one key *)

Lemma Run_again fuel name input w row :
  IdempotencyKey input ≠ "" → name ≠ "" →
  find_row (loop_runs (w_db w)) (deterministicLoopIdentity (IdempotencyKey input)) = Some row →
  match Run fuel name input w with
  | (Ok res, w') => LoopRunID res = deterministicLoopIdentity (IdempotencyKey input) ∧
                    result_Status res = lr_Status row ∧ w_db w' = w_db w
  | (Err _, w') => w_db w' = w_db w
  end.
Proof.
  intros Hk Hname Hf. unfold Run. rewrite (bool_decide_eq_false_2 (name = "")) by done.
  case_if; [done|]. unfold mbind at 1, act_bind at 1, ask. case_if; [done|].
  rewrite (bool_decide_eq_false_2 (IdempotencyKey input = "")) by done.
  unfold mbind, act_bind, optional, GetLoopRun, query, exec. cbn [w_db w_tick next].
  rewrite Hf. destruct (o_fault O _); [done|].
  pose proof (find_row_Some _ _ _ Hf) as [_ Hid]. change (lr_ID row = deterministicLoopIdentity (IdempotencyKey input)) in Hid.
  case_if; [done|]. cbn. by rewrite Hid.
Qed.
End Engine.

(** ** Lemmas: the roll-up of an iteration *)

Definition step_failing (sr : StepResult) : bool :=
  IsError sr || match VerifyResult sr with Some (false, _) => true | _ => false end.
Definition step_passing (sr : StepResult) : bool :=
  negb (IsError sr) && match VerifyResult sr with Some (true, _) => true | _ => false end.

Lemma tally_from l p f r :
  ∃ r', fold_left tally_step l (p, f, r) =
    (p + count (λ kv, step_passing kv.2) l, f + count (λ kv, step_failing kv.2) l, r') ∧
    length r' = length r + count (λ kv, step_failing kv.2) l.
Proof.
  revert p f r. induction l as [|[k sr] l IH]; intros p f r; cbn [fold_left].
  { exists r. unfold count. cbn. split; [do 2 f_equal; lia|lia]. }
  unfold count, step_passing, step_failing in *. cbn [List.filter tally_step fst snd].
  destruct sr as [[] [[[] reason]|]]; cbn -[Nat.add].
  all: match goal with |- context [fold_left _ _ (?a, ?b, ?c)] =>
         destruct (IH a b c) as (r' & -> & Hlen) end.
  all: exists r'; rewrite ?length_app in Hlen; cbn [length] in Hlen; split; [do 2 f_equal; lia|lia].
Qed.
Lemma count_pos {A} (P : A → bool) (l : list A) : 0 < count P l ↔ ∃ x, x ∈ l ∧ P x = true.
Proof.
  unfold count. split.
  - destruct (List.filter P l) as [|x k] eqn:E; cbn; [lia|]. intros _. exists x.
    assert (In x (x :: k)) as Hin by (by left). rewrite <- E in Hin. apply filter_In in Hin as [? ?].
    split; [by apply list_elem_of_In|done].
  - intros (x & Hin & Hx). destruct (List.filter P l) as [|y k] eqn:E; cbn; [|lia].
    assert (In x (List.filter P l)) as Hf by (apply filter_In; split; [by apply list_elem_of_In|done]).
    by rewrite E in Hf.
Qed.

(** ** What a workflow does to the loop tables *)

(** The host writes its own tables and leaves the runs and the iterations. *)
Definition quiet : relation DB := λ db db',
  loop_runs db' = loop_runs db ∧ loop_run_iterations db' = loop_run_iterations db ∧ wf_kept db db'.

(** While the engine waits for a workflow, the workflow writes other tables and,
    in its loop steps, launches loops of its own with [LoopEngine.Run]
    (step_launcher.go [LaunchLoop]); the workflows of those loops do the same,
    to any depth.  A loop step never resumes, cancels or resolves a run. *)
Inductive evolves {Params : Type} (nilParams : Params)
    `{JSON (list string)} `{JSON Budget} `{JSON Evaluation} `{JSON reasoningResponse}
    `{JSON (loopRunPersistentConfig Params)} : DB → DB → Prop :=
| ev_quiet db db' : quiet db db' → evolves nilParams db db'
| ev_then db1 db2 db3 : evolves nilParams db1 db2 → evolves nilParams db2 db3 → evolves nilParams db1 db3
| ev_loop_step (O : Oracle) (HS : Host) (WF : Workflows Params) (fuel : nat) (name : string)
    (input : LoopInput Params) (w : World) :
    (∀ t req db, evolves nilParams db (launch WF t req db).2) →
    (∀ t id db, evolves nilParams db (resume_run WF t id db).2) →
    (∀ t id db, evolves nilParams db (notify WF t id db)) →
    evolves nilParams (w_db w) (w_db (Run nilParams O HS WF fuel name input w).2).

Section Evolves.
#[local] Existing Instance gentle_preorder.
Context {Params : Type} (nilParams : Params).
Context `{JSON (list string)} `{JSON Budget} `{JSON Evaluation} `{JSON reasoningResponse}
        `{JSON (loopRunPersistentConfig Params)}.

Lemma quiet_gentle db db' : quiet db db' → gentle db db'.
Proof.
  intros (Hr & Hi & Hw). split; [|done|..].
  - split; [by rewrite Hr|]. intros x _. unfold numbers. by rewrite Hi.
  - intros [Hdb Hone]. split; [auto|]. by eapply one_active_runs.
  - intros [Hdb Hc]. split; [auto|]. intros x. destruct (Hc x) as [n Hn]. exists n.
    rewrite <- Hn. unfold numbers. by rewrite Hi.
Qed.
Lemma evolves_gentle db db' : evolves nilParams db db' → gentle db db'.
Proof.
  induction 1 as [db db' Hq|db1 db2 db3 _ IH1 _ IH2|O HS WF fuel name input w _ IHl _ IHr _ IHn].
  - by apply quiet_gentle.
  - by etransitivity.
  - by apply Run_gentle.
Qed.
Lemma evolves_host (WF : Workflows Params) : host_stays WF (evolves nilParams) → host_stays WF gentle.
Proof. apply host_weaken. intros db db'. apply evolves_gentle. Qed.
End Evolves.

(** ** Properties *)

(** C2. One active run per goal: every sequence of launches, resumes, ticks,
    cancellations and escalation resolutions, successful or failed at any
    statement, keeps the tables well formed and leaves no goal with two runs
    that are running or waiting.  It holds while the workflows the engine waits
    for do what [evolves] says: they write other tables, keeping them well
    formed, and their loop steps launch further loops, nested to any depth; the
    calls of the operator come one after the other, between them. *)
Theorem one_active_run_per_goal {Params : Type} (nilParams : Params)
    `{JSON (list string)} `{JSON Budget} `{JSON Evaluation} `{JSON reasoningResponse}
    `{JSON (loopRunPersistentConfig Params)} (O : Oracle) (HS : Host) (WF : Workflows Params)
    (w : World) (ops : list (@engine_op Params))
    (Hhost : host_stays WF (evolves nilParams))
    (Hinv : engine_inv (w_db w)) :
  engine_inv (w_db (run_engine nilParams O HS WF w ops)).
Proof. by apply run_engine_inv; [apply (evolves_host nilParams)|]. Qed.

(** C3. The iterations of every run are numbered 1, 2, 3, ... without gaps or
    repeats, in the order they were recorded, after every sequence of engine
    calls, including those that stopped at an error half way, and the runs that
    loop steps of the workflows launched meanwhile included ([evolves], as for
    the property above). *)
Theorem iterations_numbered_consecutively {Params : Type} (nilParams : Params)
    `{JSON (list string)} `{JSON Budget} `{JSON Evaluation} `{JSON reasoningResponse}
    `{JSON (loopRunPersistentConfig Params)} (O : Oracle) (HS : Host) (WF : Workflows Params)
    (w : World) (ops : list (@engine_op Params)) (id : string)
    (Hhost : host_stays WF (evolves nilParams))
    (Hinv : numbering_inv (w_db w)) :
  ∃ n, numbers id (w_db (run_engine nilParams O HS WF w ops)) = map Z.of_nat (seq 1 n).
Proof.
  by apply (run_engine_ninv nilParams O HS WF (evolves_host nilParams WF Hhost) ops w Hinv).
Qed.

(** C38. A run with an iteration budget ends: [Run] returns within
    [MaxIterations] turns of its loop, whatever the workflows, the model, the
    database and the clock do. *)
Theorem bounded_run_terminates {Params : Type} (nilParams : Params)
    `{JSON (list string)} `{JSON Budget} `{JSON Evaluation} `{JSON reasoningResponse}
    `{JSON (loopRunPersistentConfig Params)} (O : Oracle) (HS : Host) (WF : Workflows Params)
    (fuel : nat) (name : string) (input : LoopInput Params) (w : World)
    (Hlaws : JSONLaws Budget "{}")
    (Hpos : (0 < MaxIterations (in_Budget input))%Z)
    (Hfuel : Z.to_nat (MaxIterations (in_Budget input)) ≤ fuel) :
  (Run nilParams O HS WF fuel name input w).1 ≠ Err ErrUnfinished.
Proof. by apply Run_finishes. Qed.

(** The same for [Resume]: if the stored run's budget sets [MaxIterations],
    resuming it ends within that many turns, from every state of the run. *)
Theorem bounded_resume_terminates {Params : Type} (nilParams : Params)
    `{JSON (list string)} `{JSON Budget} `{JSON Evaluation} `{JSON reasoningResponse}
    `{JSON (loopRunPersistentConfig Params)} (O : Oracle) (HS : Host) (WF : Workflows Params)
    (fuel : nat) (id : string) (w : World)
    (Hb : ∀ r b, find_row (loop_runs (w_db w)) id = Some r → LoopRun_Budget r = Ok b →
       (0 < MaxIterations b)%Z ∧ Z.to_nat (MaxIterations b) ≤ fuel) :
  (Resume nilParams O HS WF fuel id w).1 ≠ Err ErrUnfinished.
Proof. by apply Resume_finishes. Qed.

(** What [Run] and [Resume] report is what is stored: the returned status is
    the status of the run's row, and a returned decision is the one that leads
    to that status (complete to completed, fail to failed, wait and escalate to
    waiting on escalation), when the workflows leave the table of runs alone. *)
Theorem reported_status_is_stored {Params : Type} (nilParams : Params)
    `{JSON (list string)} `{JSON Budget} `{JSON Evaluation} `{JSON reasoningResponse}
    `{JSON (loopRunPersistentConfig Params)} (O : Oracle) (HS : Host) (WF : Workflows Params)
    (fuel : nat) (w w' : World) (res : LoopResult) (name id : string) (input : LoopInput Params)
    (Hruns : host_stays WF (λ db db', loop_runs db' = loop_runs db))
    (Hcall : Run nilParams O HS WF fuel name input w = (Ok res, w') ∨
             Resume nilParams O HS WF fuel id w = (Ok res, w')) :
  (∃ row, find_row (loop_runs (w_db w')) (LoopRunID res) = Some row ∧ lr_Status row = result_Status res) ∧
  (∀ d, LastDecision res = Some d → status_of_kind (Kind d) = Some (result_Status res)).
Proof.
  destruct Hcall as [Hr|Hr].
  - by destruct (Run_reports nilParams O HS WF Hruns _ _ _ _ _ _ Hr) as (? & ? & _).
  - by destruct (Resume_reports nilParams O HS WF Hruns _ _ _ _ _ Hr) as (? & ? & _).
Qed.

(** A launch under an idempotency key happens once: after a successful [Run],
    repeating it, in any later world with the same tables, changes nothing and
    can only answer with the run of the first call and its current status.  The
    first call's workflows leave the table of runs alone. *)
Theorem run_is_idempotent {Params : Type} (nilParams : Params)
    `{JSON (list string)} `{JSON Budget} `{JSON Evaluation} `{JSON reasoningResponse}
    `{JSON (loopRunPersistentConfig Params)} (O : Oracle) (HS : Host) (WF : Workflows Params)
    (fuel : nat) (w w1 w2 w3 : World) (r1 : LoopResult) (r2 : result LoopErr LoopResult)
    (name : string) (input : LoopInput Params)
    (Hruns : host_stays WF (λ db db', loop_runs db' = loop_runs db))
    (Hkey : IdempotencyKey input ≠ "")
    (Hid : deterministicLoopIdentity WF (IdempotencyKey input) ≠ "")
    (Hfirst : Run nilParams O HS WF fuel name input w = (Ok r1, w1))
    (Hlater : w_db w2 = w_db w1)
    (Hsecond : Run nilParams O HS WF fuel name input w2 = (r2, w3)) :
  w_db w3 = w_db w2 ∧
  ∀ r, r2 = Ok r → LoopRunID r = LoopRunID r1 ∧ result_Status r = result_Status r1.
Proof.
  pose proof (Run_reports nilParams O HS WF Hruns _ _ _ _ _ _ Hfirst) as ((row & Hrow & Hst) & _ & Hk).
  specialize (Hk Hkey Hid). rewrite Hk, <- Hlater in Hrow.
  assert (name ≠ "") as Hname by (intros ->; done).
  pose proof (Run_again nilParams O HS WF fuel name input w2 row Hkey Hname Hrow) as Hagain.
  rewrite Hsecond in Hagain. destruct r2 as [r|e]; [|done]. destruct Hagain as (H1' & H2' & H3').
  split; [done|]. intros r' [= <-]. split; congruence.
Qed.

(** A run that waits on a gate and whose last iteration already has its
    decision can never be resumed: [Resume] fails in every environment and
    changes nothing, so the run stays active until it is canceled. *)
Theorem decided_gate_run_is_stuck {Params : Type} (nilParams : Params)
    `{JSON (list string)} `{JSON Budget} `{JSON Evaluation} `{JSON reasoningResponse}
    `{JSON (loopRunPersistentConfig Params)} (O : Oracle) (HS : Host) (WF : Workflows Params)
    (fuel : nat) (id : string) (w : World) (r : LoopRun) (l : LoopRunIteration)
    (Hrun : find_row (loop_runs (w_db w)) id = Some r)
    (Hgate : lr_Status r = LoopRunStatusWaitingOnGate)
    (Hlast : last (iterations_of (w_db w) id) = Some l)
    (Hdecided : it_Decision l ≠ "") :
  ∃ e w', Resume nilParams O HS WF fuel id w = (Err e, w') ∧ w_db w' = w_db w.
Proof. by eapply Resume_decided. Qed.

(** The roll-up of a completed workflow run: progress when no step errored
    or failed its verification, no progress when some failed and some passed,
    regression when some failed and none passed; each failure is one line of
    the evaluation. *)
Theorem completed_iteration_progress (HS : Host) (res : WorkflowLaunchResult)
    (Hst : res_Status res = RunStatusCompleted) :
  let '(ev, state) := classifyIterationProgress HS (Some res) in
  let failing := ∃ k sr, StepResults res !! k = Some sr ∧ step_failing sr = true in
  let passing := ∃ k sr, StepResults res !! k = Some sr ∧ step_passing sr = true in
  (state = "progress" ↔ ¬ failing) ∧
  (state = "no_progress" ↔ failing ∧ passing) ∧
  (state = "regression" ↔ failing ∧ ¬ passing) ∧
  length (Regressions ev) = count (λ kv, step_failing kv.2) (map_to_list (StepResults res)).
Proof.
  assert (∀ P, (0 < count (λ kv : string * StepResult, P kv.2) (map_to_list (StepResults res))) ↔
    ∃ k sr, StepResults res !! k = Some sr ∧ P sr = true) as Hex.
  { intros P. rewrite count_pos. split.
    - intros ([k sr] & Hin%elem_of_map_to_list & Hp). eauto.
    - intros (k & sr & Hk & Hp). exists (k, sr). by rewrite elem_of_map_to_list. }
  unfold classifyIterationProgress. rewrite Hst. unfold tally.
  destruct (tally_from (map_to_list (StepResults res)) 0 0 []) as (r' & -> & Hlen). cbn [Nat.add length] in *.
  pose proof (Hex step_failing) as HF. pose proof (Hex step_passing) as HP. clear Hex.
  set (p := count (λ kv : string * StepResult, step_passing kv.2) _) in *.
  set (f := count (λ kv : string * StepResult, step_failing kv.2) _) in *.
  unfold LoopRunIterationProgressRegression, LoopRunIterationProgressNoProgress,
    LoopRunIterationProgressProgress.
  destruct (decide (0 < f)) as [Hf|Hf]; [destruct (decide (p = 0)) as [Hp|Hp]|].
  - rewrite !bool_decide_eq_true_2 by done. cbn -[step_failing step_passing].
    rewrite order_by_length, <- HF, <- HP. split_and!; [split; [done|lia]|split; [done|lia]| |done].
    split; [intros _; lia|done].
  - rewrite (bool_decide_eq_true_2 (0 < f)), (bool_decide_eq_false_2 (p = 0)) by done.
    cbn -[step_failing step_passing]. rewrite order_by_length, <- HF, <- HP.
    split_and!; [split; [done|lia]|split; [intros _; lia|done]|split; [done|lia]|done].
  - rewrite (bool_decide_eq_false_2 (0 < f)) by done. cbn -[step_failing step_passing].
    rewrite order_by_length, <- HF, <- HP.
    split_and!; [split; [intros _; lia|done]|split; [done|lia]|split; [done|lia]|done].
Qed.

(** The scheduled tick never resumes a run: the evaluator refuses first. *)
Lemma tick_never_resumes (c : bool) (id : string) (w : World) :
  ∃ e, TickResume c id w = (Err e, w).
Proof. unfold TickResume. repeat case_if; eauto. Qed.

(** ** Witnesses *)

#[local] Existing Instance demo_response_json.
#[global] Instance demo_config_json : JSON (loopRunPersistentConfig unit) := {|
  marshal c := Some ("cfg:" +:+ cfg_AgentProfileID c);
  unmarshal s := Some (mkConfig (mkContinuationPolicy "" "" "" "" []) (str_drop 4 s) "" "" 0 tt);
|}.

(** A host whose first workflow run stops at a gate, whose resumed runs complete,
    and whose later launches fail. *)
Definition gate_host : Workflows unit := mkWorkflows
  (λ _ _ db, match workflow_runs db with
             | [] => (Some (Some (mkWorkflowLaunchResult "w1" RunStatusWaiting ∅ "")),
                      set_workflow_runs db [mkWorkflowRun "w1" "" None])
             | _ => (None, db)
             end)
  (λ _ id db, (Some (mkWorkflowLaunchResult id RunStatusCompleted ∅ ""), db))
  (λ _ _ db, db) true true (λ _ _, true) (λ _ _, true) (λ _, false) (λ _, false)
  (λ s, "u:" +:+ s) (λ _, "2026-01-01T00:05:00Z").
Definition demo_input : LoopInput unit :=
  mkLoopInput "k" "g1" None (mkBudget 3 0 0 0 "") (mkContinuationPolicy "" "" "" "" []) tt "agent" "" "" 0.
Definition demo_id : string := "u:nanite-workflow-loop:k".
Definition goal_world : World := run_store demo_oracle empty_world [SCreateGoal demo_goal].
Definition gated_world : World :=
  run_engine tt demo_oracle demo_host gate_host goal_world [OpRun 3 "ralph" demo_input].
(** After the gate opens the iteration is decided, and the next launch fails. *)
Definition wedged_world : World :=
  run_engine tt demo_oracle demo_host gate_host gated_world [OpResume 3 demo_id].

Lemma gate_host_runs : host_stays gate_host (λ db db', loop_runs db' = loop_runs db).
Proof. split_and!; intros; cbn; try reflexivity. by destruct (workflow_runs db). Qed.
Lemma gate_host_evolves : host_stays gate_host (evolves tt).
Proof.
  split_and!; intros; apply ev_quiet; cbn; try (by split_and!).
  destruct (workflow_runs db); cbn; [|by split_and!]. split_and!; [done..|]. intros []. by split.
Qed.
(** A host whose workflows start with a loop step for a second goal, which runs
    on [gate_host], before they complete. *)
Definition child_input : LoopInput unit :=
  mkLoopInput "child" "g2" None (mkBudget 2 0 0 0 "") (mkContinuationPolicy "" "" "" "" []) tt "agent" "" "" 0.
Definition loop_step (db : DB) : DB :=
  w_db (Run tt demo_oracle demo_host gate_host 3 "child loop" child_input (mkWorld db 50)).2.
Definition loop_step_host : Workflows unit := mkWorkflows
  (λ _ _ db, (Some (Some (mkWorkflowLaunchResult "w9" RunStatusWaitingOnLoop ∅ "")),
              set_workflow_runs (loop_step db) [mkWorkflowRun "w9" "" None]))
  (λ _ id db, (Some (mkWorkflowLaunchResult id RunStatusCompleted ∅ ""), db))
  (λ _ _ db, db) true true (λ _ _, true) (λ _ _, true) (λ _, false) (λ _, false)
  (λ s, "u:" +:+ s) (λ _, "2026-01-01T00:05:00Z").
Lemma loop_step_host_evolves : host_stays loop_step_host (evolves tt).
Proof.
  split_and!; intros; cbn; [|by apply ev_quiet|by apply ev_quiet].
  destruct gate_host_evolves as (Hl & Hr & Hn). apply (ev_then _ _ (loop_step db)).
  2: { apply ev_quiet. split_and!; [done..|]. intros []. by split. }
  by apply (ev_loop_step tt demo_oracle demo_host gate_host 3 "child loop" child_input (mkWorld db 50)).
Qed.
Definition second_goal : Goal := mkGoal "g2" "" "and test it" "" "" "" "" "" "" "" "" "" "" "" "".
Definition two_goals_world : World :=
  run_store demo_oracle empty_world [SCreateGoal demo_goal; SCreateGoal second_goal].
Definition nested_world : World :=
  run_engine tt demo_oracle demo_host loop_step_host two_goals_world [OpRun 3 "ralph" demo_input].
(** The outer run waits on the loop its iteration launched; both have one
    iteration. *)
Example nested_runs :
  map (λ r, (lr_GoalID r, lr_Status r)) (loop_runs (w_db nested_world)) =
    [("g1", "waiting_on_gate"); ("g2", "waiting_on_gate")] ∧
  map IterationNumber (loop_run_iterations (w_db nested_world)) = [1; 1]%Z.
Proof. split; vm_compute; reflexivity. Qed.
Lemma two_goals_wf : db_wf (w_db two_goals_world).
Proof.
  apply (CreateGoal_wf demo_oracle second_goal (run_store demo_oracle empty_world [SCreateGoal demo_goal])).
  apply (CreateGoal_wf demo_oracle demo_goal empty_world). apply empty_db_wf.
Qed.

Lemma one_active_run_per_goal_witness :
  engine_inv (w_db (run_engine tt demo_oracle demo_host loop_step_host two_goals_world
    [OpRun 3 "ralph" demo_input; OpResume 3 demo_id; OpRun 3 "other" demo_input])).
Proof.
  refine (one_active_run_per_goal tt demo_oracle demo_host loop_step_host two_goals_world _
           loop_step_host_evolves _).
  split; [apply two_goals_wf|]. intros r1 r2 Hr. vm_compute in Hr. set_solver.
Defined.

Lemma iterations_numbered_consecutively_witness :
  ∃ n, numbers demo_id (w_db (run_engine tt demo_oracle demo_host loop_step_host two_goals_world
    [OpRun 3 "ralph" demo_input; OpResume 3 demo_id])) = map Z.of_nat (seq 1 n).
Proof.
  refine (iterations_numbered_consecutively tt demo_oracle demo_host loop_step_host two_goals_world _ demo_id
           loop_step_host_evolves _).
  split; [apply two_goals_wf|]. intros id. by exists 0.
Defined.

Lemma bounded_run_terminates_witness :
  (Run tt demo_oracle demo_host gate_host 3 "ralph" demo_input goal_world).1 ≠ Err ErrUnfinished.
Proof.
  refine (bounded_run_terminates tt demo_oracle demo_host gate_host 3 "ralph" demo_input goal_world
            (word_json_laws Budget "{}" pos_word_not_braces) _ _); cbn; lia.
Defined.

Lemma bounded_resume_terminates_witness :
  (Resume tt demo_oracle demo_host gate_host 3 demo_id gated_world).1 ≠ Err ErrUnfinished.
Proof.
  refine (bounded_resume_terminates tt demo_oracle demo_host gate_host 3 demo_id gated_world _).
  intros r b Hr Hb. vm_compute in Hr. injection Hr as <-. vm_compute in Hb. injection Hb as <-.
  split; cbn; lia.
Defined.

Lemma reported_status_is_stored_witness :
  ∃ row, find_row (loop_runs (w_db gated_world)) demo_id = Some row ∧ lr_Status row = "waiting_on_gate".
Proof.
  refine (proj1 (reported_status_is_stored tt demo_oracle demo_host gate_host 3 goal_world gated_world
            (mkLoopResult demo_id "waiting_on_gate" 1 None) "ralph" demo_id demo_input gate_host_runs _)).
  left. vm_compute. reflexivity.
Defined.

Lemma run_is_idempotent_witness :
  w_db (run_engine tt demo_oracle demo_host gate_host gated_world [OpRun 3 "ralph" demo_input]) =
  w_db gated_world.
Proof.
  refine (proj1 (run_is_idempotent tt demo_oracle demo_host gate_host 3 goal_world gated_world gated_world
    (run_engine tt demo_oracle demo_host gate_host gated_world [OpRun 3 "ralph" demo_input])
    (mkLoopResult demo_id "waiting_on_gate" 1 None)
    (Run tt demo_oracle demo_host gate_host 3 "ralph" demo_input gated_world).1
    "ralph" demo_input gate_host_runs _ _ _ _ _)).
  - done.
  - done.
  - vm_compute. reflexivity.
  - reflexivity.
  - vm_compute. reflexivity.
Defined.

Lemma decided_gate_run_is_stuck_witness :
  ∃ e w', Resume tt demo_oracle demo_host gate_host 3 demo_id wedged_world = (Err e, w') ∧
          w_db w' = w_db wedged_world.
Proof.
  eapply (decided_gate_run_is_stuck tt demo_oracle demo_host gate_host 3 demo_id wedged_world).
  - vm_compute. reflexivity.
  - vm_compute. reflexivity.
  - vm_compute. reflexivity.
  - vm_compute. discriminate.
Defined.

Lemma completed_iteration_progress_witness :
  (classifyIterationProgress demo_host (Some (mkWorkflowLaunchResult "w1" RunStatusCompleted
     {["build" := mkStepResult false (Some (true, "")); "test" := mkStepResult false (Some (false, "red"))]}
     ""))).2 = "no_progress".
Proof.
  pose proof (completed_iteration_progress demo_host (mkWorkflowLaunchResult "w1" RunStatusCompleted
     {["build" := mkStepResult false (Some (true, "")); "test" := mkStepResult false (Some (false, "red"))]}
     "") eq_refl) as Hp.
  destruct (classifyIterationProgress demo_host _) as [ev state]. cbn in Hp |- *.
  destruct Hp as (_ & Hn & _). apply Hn. split.
  - exists "test", (mkStepResult false (Some (false, "red"))). split; reflexivity.
  - exists "build", (mkStepResult false (Some (true, ""))). split; reflexivity.
Defined.
