(* ===== verification/WorkflowRegistry.v ===== *)
(** * Workflow definitions (internal/agentworkflow)

    [types.go] (the authoring types), [validate.go], [registry.go],
    [definition_yaml.go] and [required_inputs.go]: the catalogue of named
    workflow definitions that a launch resolves its name against.

    The registry is one map behind one [sync.RWMutex]; each method holds the lock
    around its whole access, so each is one step.  Directory listing, file
    reading and the YAML decoder are parameters.  A step's [Config] is the tree
    [Any] of the values YAML produces; a Go map is the list of its entries.

    Theorems: the catalogue holds only valid definitions, each under its own
    name; a name keeps its definition until it is unregistered; what a directory
    load yields; which inputs a definition is reported to need. *)

From stdpp Require Import sorting.
From S2P Require Import Prelude GoStrings GoPath.

Open Scope string_scope.
Open Scope nat_scope.

(** ** Data *)

(** The dynamic type of a value in a [map[string]any]; [AOther] is any scalar
    that is not a string. *)
Inductive Any :=
| AString (s : string)
| AMap (entries : list (string * Any))
| AList (items : list Any)
| AOther.

Record VerifySpec := mkVerifySpec {
  Mode : string;
  EngineCheck : string;
  EngineParams : list (string * Any);
  ReviewerPrompt : string;
  ReviewerAgentID : string;
  ReviewerProvider : string;
  ReviewerModel : string;
  ReviewerTools : list string;
  ReviewerSessionID : string;
}.

Record StepDefinition := mkStepDefinition {
  step_ID : string;
  step_Kind : string;
  DependsOn : list string;
  Config : list (string * Any);
  Verify : option VerifySpec;
}.

Record WorkflowDefinition := mkWorkflowDefinition {
  Name : string;
  Engine : string;
  Steps : list StepDefinition;
}.

(** ** Validation *)

Inductive RegErr :=
| ENoName
| EUnsupportedEngine (engine : string)
| ENoSteps
| EEmptyStepID
| EUnknownKind (step kind : string)
| EVerifyEngineCheck (step : string)
| EVerifyReviewer (step : string)
| EVerifyMode (step mode : string)
| EDuplicateName (name : string)
| EReadDir
| EReadFile (path : string)
| EParseYAML (path : string).

(** [IsSupportedEngine] and [IsExternalEngine]. *)
Definition externalEngines : list string := ["langgraph"; "crewai"; "google_adk"; "autogen"; "langchain"].
Definition IsExternalEngine (engine : string) : bool := bool_decide (engine ∈ externalEngines).
Definition IsSupportedEngine (engine : string) : bool :=
  bool_decide (engine ∈ ("" :: "builtin" :: "hadron" :: externalEngines)).

Definition stepKinds : list string := ["llm"; "tool"; "gate"; "flex"; "loop"].

(** [validateVerifySpec]. *)
Definition validateVerifySpec (stepID : string) (spec : VerifySpec) : result RegErr unit :=
  if bool_decide (Mode spec = "engine") then
    if bool_decide (EngineCheck spec = "") then Err (EVerifyEngineCheck stepID) else Ok tt
  else if bool_decide (Mode spec = "agent") then
    if bool_decide (ReviewerProvider spec = "") then Err (EVerifyReviewer stepID) else Ok tt
  else Err (EVerifyMode stepID (Mode spec)).

(** The body of [Validate]'s loop, and the loop. *)
Definition validateStep (s : StepDefinition) : result RegErr unit :=
  if bool_decide (step_ID s = "") then Err EEmptyStepID
  else if negb (bool_decide (step_Kind s ∈ stepKinds)) then Err (EUnknownKind (step_ID s) (step_Kind s))
  else match Verify s with Some v => validateVerifySpec (step_ID s) v | None => Ok tt end.
Fixpoint validateSteps (l : list StepDefinition) : result RegErr unit :=
  match l with
  | [] => Ok tt
  | s :: l' => _ ← validateStep s; validateSteps l'
  end.

(** [Validate]. *)
Definition Validate (wf : WorkflowDefinition) : result RegErr unit :=
  if bool_decide (Name wf = "") then Err ENoName
  else if negb (IsSupportedEngine (Engine wf)) then Err (EUnsupportedEngine (Engine wf))
  else if bool_decide (Steps wf = []) then Err ENoSteps
  else validateSteps (Steps wf).

(** ** Parsing *)

Record yamlStep := mkYamlStep {
  ys_ID : string;
  ys_Kind : string;
  ys_DependsOn : list string;
  ys_Config : list (string * Any);
  ys_Verify : option VerifySpec;
}.
Record yamlWorkflowDefinition := mkYamlWorkflowDefinition {
  yw_Name : string;
  yw_Engine : string;
  yw_Steps : list yamlStep;
}.

(** The files: [os.ReadDir] (a missing directory is [Ok None]),
    [os.ReadFile] and [yaml.Unmarshal]. *)
Record Files := mkFiles {
  ReadDir : string → result RegErr (option (list string));
  ReadFile : string → option string;
  yamlUnmarshal : string → option yamlWorkflowDefinition;
}.

(** [ParseDefinitionYAML]: [yamlVerify] and [VerifySpec] have the same fields. *)
Definition stepOfYaml (ys : yamlStep) : StepDefinition :=
  mkStepDefinition (ys_ID ys) (ys_Kind ys) (ys_DependsOn ys) (ys_Config ys) (ys_Verify ys).
Definition ParseDefinitionYAML (F : Files) (path data : string) : result RegErr WorkflowDefinition :=
  match yamlUnmarshal F data with
  | None => Err (EParseYAML path)
  | Some raw =>
      let wf := mkWorkflowDefinition (yw_Name raw) (yw_Engine raw) (map stepOfYaml (yw_Steps raw)) in
      _ ← Validate wf; Ok wf
  end.

(** [LoadDefinitionYAMLFile]. *)
Definition LoadDefinitionYAMLFile (F : Files) (path : string) : result RegErr WorkflowDefinition :=
  match ReadFile F path with
  | None => Err (EReadFile path)
  | Some data => ParseDefinitionYAML F path data
  end.

(** ** The registry *)

Abbreviation Registry := (gmap string WorkflowDefinition).

(** [NewRegistry(nil)], [Get], [Names], [Register] and [Unregister]. *)
Definition NewRegistry : Registry := ∅.
Definition Get (r : Registry) (name : string) : option WorkflowDefinition := r !! name.

Definition str_le (a b : string) : Prop := String.leb a b = true.
#[global] Instance str_le_dec : RelDecision str_le.
Proof. intros a b. unfold str_le. apply _. Defined.
Definition sortStrings (l : list string) : list string := merge_sort str_le l.
Definition Names (r : Registry) : list string := sortStrings (map fst (map_to_list r)).

Definition Register (r : Registry) (wf : WorkflowDefinition) : result RegErr unit * Registry :=
  if bool_decide (Name wf = "") then (Err ENoName, r)
  else match Validate wf with
       | Err e => (Err e, r)
       | Ok _ =>
           if bool_decide (is_Some (r !! Name wf)) then (Err (EDuplicateName (Name wf)), r)
           else (Ok tt, <[Name wf := wf]> r)
       end.
Definition Unregister (r : Registry) (name : string) : Registry :=
  if bool_decide (name = "") then r else delete name r.

Definition TeamRunDefinitionNamePrefix : string := "team-run:".
Definition IsTeamRunDefinitionName (name : string) : bool := has_prefix name TeamRunDefinitionNamePrefix.

(** [filepath.Ext]: from the last dot of the last element. *)
Fixpoint Ext (p : string) : string :=
  match p with
  | "" => ""
  | String a p' =>
      if negb (bool_decide (Ext p' = "")) then Ext p'
      else if bool_decide (a = "."%char) && no_byte slash p' then p else ""
  end.
Definition is_yaml (name : string) : bool :=
  bool_decide (Ext name = ".yaml") || bool_decide (Ext name = ".yml").

(** [LoadRegistryDir]: the loop over the sorted names, then the function. *)
Fixpoint loadFiles (F : Files) (dir : string) (names : list string) (reg : Registry) :
    result RegErr Registry :=
  match names with
  | [] => Ok reg
  | name :: names' =>
      if negb (is_yaml name) then loadFiles F dir names' reg
      else
        wf ← LoadDefinitionYAMLFile F (Join [dir; name]);
        if bool_decide (Name wf = "") then Err ENoName
        else if bool_decide (is_Some (reg !! Name wf)) then Err (EDuplicateName (Name wf))
        else loadFiles F dir names' (<[Name wf := wf]> reg)
  end.
Definition LoadRegistryDir (F : Files) (dir : string) : result RegErr Registry :=
  if bool_decide (dir = "") then Ok NewRegistry
  else
    entries ← ReadDir F dir;
    match entries with
    | None => Ok NewRegistry
    | Some names => loadFiles F dir (sortStrings names) NewRegistry
    end.

(** ** Required inputs *)

(** The longest prefix without a closing brace, and what follows it. *)
Fixpoint span_brace (s : string) : string * string :=
  match s with
  | "" => ("", "")
  | String a s' =>
      if bool_decide (a = "}"%char) then ("", s)
      else let '(r, rest) := span_brace s' in (String a r, rest)
  end.

(** RE2's [\s]. *)
Definition re_space : string :=
  String (byte 9) (String (byte 10) (String (byte 12) (String (byte 13) (String (byte 32) "")))).
Definition re_trim (r : string) : string := trim_right (trim_left r re_space) re_space.

(** The captured groups of [\{\{\s*([^}]+?)\s*\}\}] in a string, as
    [FindAllStringSubmatch] lists them: at each opening pair the text up to the
    next closing brace is a match when it is not empty and two braces follow;
    the group is that text without the blanks around it (the last blank, when
    there is nothing else).  [skip] counts the bytes of the last match still to
    be passed over. *)
Definition capture (r : string) : string :=
  let t := re_trim r in
  if bool_decide (t = "") then str_drop (String.length r - 1) r else t.
Fixpoint template_refs (skip : nat) (s : string) : list string :=
  match s with
  | "" => []
  | String a s' =>
      match skip with
      | S k => template_refs k s'
      | O =>
          if has_prefix s "{{" then
            let '(r, rest) := span_brace (str_drop 2 s) in
            if negb (bool_decide (r = "")) && has_prefix rest "}}"
            then capture r :: template_refs (String.length r + 3) s'
            else template_refs 0 s'
          else template_refs 0 s'
      end
  end.

(** The input keys a string refers to. *)
Definition input_key (ref : string) : option string :=
  if has_prefix ref "input." then
    let key := str_drop 6 ref in
    if bool_decide (key = "") then None else Some key
  else None.
Definition input_keys (s : string) : list string := omap input_key (template_refs 0 s).

(** [scanConfigForInputRefs]: the keys in the order they are met, a map's
    entries by key. *)
Definition entry_le (a b : string * list string) : Prop := str_le a.1 b.1.
#[global] Instance entry_le_dec : RelDecision entry_le.
Proof. intros a b. unfold entry_le. apply _. Defined.
Fixpoint scanConfigForInputRefs (v : Any) : list string :=
  match v with
  | AString s => input_keys s
  | AMap entries =>
      concat (map snd (merge_sort entry_le (map (λ kv, (kv.1, scanConfigForInputRefs kv.2)) entries)))
  | AList items => concat (map scanConfigForInputRefs items)
  | AOther => []
  end.

(** [RequiredInputs]: the first occurrence of each key. *)
Definition RequiredInputs (def : WorkflowDefinition) : list string :=
  dedup (concat (map (λ s, scanConfigForInputRefs (AMap (Config s))) (Steps def))).

(** ** Lemmas *)

Lemma validateSteps_Ok l : validateSteps l = Ok tt ↔ Forall (λ s, validateStep s = Ok tt) l.
Proof.
  induction l as [|s l IH]; cbn; [by split|]. rewrite Forall_cons, <- IH.
  destruct (validateStep s) as [[]|e]; cbn; naive_solver.
Qed.
Lemma ParseDefinitionYAML_Ok F path data wf :
  ParseDefinitionYAML F path data = Ok wf → Validate wf = Ok tt.
Proof.
  unfold ParseDefinitionYAML. destruct (yamlUnmarshal F data) as [raw|]; [|done].
  destruct (Validate _) as [[]|e] eqn:Hv; [|done]. by intros [= <-].
Qed.
Lemma LoadDefinitionYAMLFile_Ok F path wf :
  LoadDefinitionYAMLFile F path = Ok wf → Validate wf = Ok tt.
Proof.
  unfold LoadDefinitionYAMLFile. destruct (ReadFile F path); [|done]. apply ParseDefinitionYAML_Ok.
Qed.

(** The registry holds valid definitions under their own names. *)
Definition registry_wf (r : Registry) : Prop :=
  map_Forall (λ name wf, Name wf = name ∧ Validate wf = Ok tt) r.

Lemma registry_wf_insert r wf :
  registry_wf r → Validate wf = Ok tt → registry_wf (<[Name wf := wf]> r).
Proof. intros Hr Hv. by apply map_Forall_insert_2. Qed.
Lemma registry_wf_delete r name : registry_wf r → registry_wf (delete name r).
Proof. intros Hr k wf [_ Hk]%lookup_delete_Some. by apply Hr. Qed.

(** [Register] either refuses and leaves the map alone, or adds a valid
    definition under a new name. *)
Lemma Register_cases r wf :
  (∃ e, Register r wf = (Err e, r)) ∨
  (Register r wf = (Ok tt, <[Name wf := wf]> r) ∧ r !! Name wf = None ∧ Validate wf = Ok tt).
Proof.
  unfold Register. case_bool_decide; [by eauto|].
  destruct (Validate wf) as [[]|e] eqn:Hv; [|by eauto].
  case_bool_decide as Hs; [by eauto|]. right. split_and!; [done| |done].
  by apply eq_None_not_Some.
Qed.

Inductive registry_op := ORegister (wf : WorkflowDefinition) | OUnregister (name : string).
Definition registry_step (r : Registry) (o : registry_op) : Registry :=
  match o with ORegister wf => (Register r wf).2 | OUnregister name => Unregister r name end.
Definition run_registry (r : Registry) (ops : list registry_op) : Registry := fold_left registry_step ops r.

Lemma registry_step_wf r o : registry_wf r → registry_wf (registry_step r o).
Proof.
  intros Hr. destruct o as [wf|name]; cbn.
  - destruct (Register_cases r wf) as [[e ->]|(-> & _ & Hv)]; [done|]. by apply registry_wf_insert.
  - unfold Unregister. case_bool_decide; [done|]. by apply registry_wf_delete.
Qed.
Lemma run_registry_wf ops r : registry_wf r → registry_wf (run_registry r ops).
Proof.
  revert r. induction ops as [|o ops IH]; intros r Hr; [done|]. apply IH, registry_step_wf, Hr.
Qed.
Lemma registry_step_keeps r o name wf :
  o ≠ OUnregister name → r !! name = Some wf → registry_step r o !! name = Some wf.
Proof.
  intros Ho Hr. destruct o as [wf'|n]; cbn.
  - destruct (Register_cases r wf') as [[e ->]|(-> & Hn & _)]; [done|]. cbn.
    rewrite lookup_insert_ne; [done|congruence].
  - unfold Unregister. case_bool_decide; [done|]. rewrite lookup_delete_ne; [done|congruence].
Qed.

(** The files a load reads define the registry. *)
Definition defines (F : Files) (dir : string) (names : list string) (wf : WorkflowDefinition) : Prop :=
  ∃ name, name ∈ names ∧ is_yaml name = true ∧ LoadDefinitionYAMLFile F (Join [dir; name]) = Ok wf.

Lemma loadFiles_Ok F dir names reg r :
  registry_wf reg → loadFiles F dir names reg = Ok r →
  registry_wf r ∧ (∀ n wf, r !! n = Some wf ↔ reg !! n = Some wf ∨ (Name wf = n ∧ defines F dir names wf)).
Proof.
  revert reg. induction names as [|name names IH]; intros reg Hwf; cbn -[bool_decide Join].
  { intros [= <-]. split; [done|]. intros n wf. split; [by left|]. intros [?|(_ & x & Hx & _)]; [done|]. set_solver. }
  destruct (is_yaml name) eqn:Hy; cbn -[bool_decide Join].
  - destruct (LoadDefinitionYAMLFile F _) as [wf|e] eqn:Hl; cbn -[bool_decide Join]; [|done].
    destruct (bool_decide (Name wf = "")); [done|].
    destruct (bool_decide (is_Some (reg !! Name wf))) eqn:Hs; [done|]. apply bool_decide_eq_false in Hs. apply eq_None_not_Some in Hs.
    pose proof (LoadDefinitionYAMLFile_Ok _ _ _ Hl) as Hv.
    intros [Hr Hin]%IH; [|by apply registry_wf_insert]. split; [done|]. intros n wf'. rewrite Hin.
    rewrite lookup_insert_Some. unfold defines. split.
    + intros [[[<- <-]|[_ ?]]|(Hn & x & ? & ?)]; [|by left|]; right.
      * split; [done|]. exists name. by split; [apply list_elem_of_here|].
      * split; [done|]. exists x. by split; [apply list_elem_of_further|].
    + intros [Hn|(<- & x & [->|Hx]%elem_of_cons & Hxy & Hxl)].
      * destruct (decide (Name wf = n)) as [<-|]; [congruence|]. left. by right.
      * left. left. split; congruence.
      * right. split; [done|]. by exists x.
  - intros [Hr Hin]%IH; [|done]. split; [done|]. intros n wf'. rewrite Hin. unfold defines.
    split; (intros [?|(Hn & x & Hx & Hxy & Hxl)]; [by left|right; split; [done|]; exists x]);
      (split; [|done]).
    + by apply list_elem_of_further.
    + apply elem_of_cons in Hx as [->|?]; [congruence|done].
Qed.

(** A string that occurs as a value somewhere in a configuration. *)
Inductive leaf (s : string) : Any → Prop :=
| leaf_string : leaf s (AString s)
| leaf_map k x entries : (k, x) ∈ entries → leaf s x → leaf s (AMap entries)
| leaf_list x items : x ∈ items → leaf s x → leaf s (AList items).

Fixpoint size_any (v : Any) : nat :=
  S match v with
    | AMap entries => sum_list (map (λ kv, size_any kv.2) entries)
    | AList items => sum_list (map size_any items)
    | _ => 0
    end.
Lemma sum_list_elem {A} (f : A → nat) (l : list A) x : x ∈ l → f x ≤ sum_list (map f l).
Proof. induction 1; cbn; lia. Qed.

Lemma elem_of_concat_map {A B} (f : A → list B) (l : list A) y :
  y ∈ concat (map f l) ↔ ∃ x, x ∈ l ∧ y ∈ f x.
Proof.
  induction l as [|a l IH]; cbn; [set_solver|]. rewrite elem_of_app, IH. set_solver.
Qed.

Lemma scan_elem v key :
  key ∈ scanConfigForInputRefs v ↔ ∃ s, leaf s v ∧ key ∈ input_keys s.
Proof.
  assert (∀ n v, size_any v ≤ n →
    key ∈ scanConfigForInputRefs v ↔ ∃ s, leaf s v ∧ key ∈ input_keys s) as H; [|by apply (H (size_any v))].
  clear v. induction n as [|n IH]; intros v Hn; [destruct v; cbn in Hn; lia|].
  destruct v as [s|entries|items|]; cbn in Hn |- *.
  - split; [intros ?; exists s; by split; [constructor|]|]. intros (s' & Hl & Hk). inversion Hl; by subst.
  - rewrite elem_of_concat_map. split.
    + intros ([k ks] & Hin & Hk). cbn in Hk. rewrite merge_sort_Permutation in Hin.
      apply list_elem_of_In, in_map_iff in Hin as ([k' x] & [= <- <-] & Hx%list_elem_of_In).
      pose proof (sum_list_elem (λ kv, size_any kv.2) _ _ Hx) as Hs. cbn in Hs.
      apply IH in Hk as (s & Hl & Hs'); [|lia]. exists s. split; [|done]. by eapply leaf_map.
    + intros (s & Hl & Hk). inversion Hl as [|k x ? Hx Hlx|]; subst. exists (k, scanConfigForInputRefs x).
      rewrite merge_sort_Permutation. split.
      * apply list_elem_of_In, in_map_iff. exists (k, x). by split; [|apply list_elem_of_In].
      * pose proof (sum_list_elem (λ kv, size_any kv.2) _ _ Hx) as Hs. cbn in Hs. apply IH; [lia|]. eauto.
  - rewrite elem_of_concat_map. split.
    + intros (x & Hx & Hk). pose proof (sum_list_elem size_any _ _ Hx) as Hs.
      apply IH in Hk as (s & Hl & Hs'); [|lia]. exists s. split; [|done]. by eapply leaf_list.
    + intros (s & Hl & Hk). inversion Hl as [| |x ? Hx Hlx]; subst. exists x. split; [done|].
      pose proof (sum_list_elem size_any _ _ Hx) as Hs. apply IH; [lia|]. eauto.
  - split; [set_solver|]. intros (s & Hl & _). inversion Hl.
Qed.

(** What a match looks like in the string. *)
Lemma span_brace_spec s : s = (span_brace s).1 +:+ (span_brace s).2 ∧ no_byte "}" (span_brace s).1 = true.
Proof.
  induction s as [|a s [IH1 IH2]]; cbn; [done|]. case_bool_decide as Ha; [done|].
  destruct (span_brace s) as [r rest]; cbn in *. rewrite str_app_cons, <- IH1. split; [done|].
  by rewrite bool_decide_eq_false_2.
Qed.
Lemma template_refs_sound skip s g :
  g ∈ template_refs skip s →
  ∃ a r b, s = a +:+ "{{" +:+ r +:+ "}}" +:+ b ∧ no_byte "}" r = true ∧ r ≠ "" ∧ g = capture r.
Proof.
  revert skip. induction s as [|x s IH]; intros skip; cbn -[has_prefix str_drop bool_decide]; [set_solver|].
  assert (∀ k, g ∈ template_refs k s → ∃ a r b, String x s = a +:+ "{{" +:+ r +:+ "}}" +:+ b ∧
    no_byte "}" r = true ∧ r ≠ "" ∧ g = capture r) as Hnext.
  { intros k (a & r & b & -> & ?)%IH. by exists (String x a), r, b. }
  destruct skip as [|k]; [|by apply Hnext].
  destruct (has_prefix (String x s) "{{") eqn:Hp; [|by apply Hnext].
  apply has_prefix_spec in Hp as [t Ht].
  replace (str_drop 2 (String x s)) with t by (by rewrite Ht).
  pose proof (span_brace_spec t) as [Hs Hn]. destruct (span_brace t) as [r rest]. cbn in Hs, Hn.
  destruct (bool_decide (r = "")) eqn:Hr; cbn -[has_prefix]; [by apply Hnext|].
  destruct (has_prefix rest "}}") eqn:Hc; [|by apply Hnext].
  apply has_prefix_spec in Hc as [b ->]. intros [->|Hin]%elem_of_cons; [|by eapply Hnext].
  apply bool_decide_eq_false in Hr. exists "", r, b. by rewrite Ht, Hs.
Qed.

(** ** Properties *)

(** The catalogue is valid at all times: what a directory load yields, and
    what any sequence of registrations and removals leaves, holds only
    definitions that pass [Validate], each under its own name. *)
Theorem registry_holds_valid_definitions (F : Files) (dir : string) (r : Registry)
    (ops : list registry_op) (name : string) (wf : WorkflowDefinition)
    (Hload : LoadRegistryDir F dir = Ok r)
    (Hget : Get (run_registry r ops) name = Some wf) :
  Name wf = name ∧ Validate wf = Ok tt.
Proof.
  assert (registry_wf r) as Hr.
  { unfold LoadRegistryDir in Hload. case_bool_decide; [by injection Hload as <-|].
    destruct (ReadDir F dir) as [[names|]|e]; cbn in Hload; [| by injection Hload as <-|done].
    by apply loadFiles_Ok in Hload as [? _]. }
  by apply (run_registry_wf ops r Hr) in Hget.
Qed.

(** A directory load is exact: the catalogue has a definition under a name
    exactly when one of the directory's [.yaml] or [.yml] files parses to a
    definition with that name. *)
Theorem load_registry_exact (F : Files) (dir : string) (names : list string) (r : Registry)
    (Hdir : dir ≠ "") (Hread : ReadDir F dir = Ok (Some names))
    (Hload : LoadRegistryDir F dir = Ok r) (name : string) (wf : WorkflowDefinition) :
  Get r name = Some wf ↔
  Name wf = name ∧ ∃ file, file ∈ names ∧ is_yaml file = true ∧
    LoadDefinitionYAMLFile F (Join [dir; file]) = Ok wf.
Proof.
  unfold LoadRegistryDir in Hload. rewrite bool_decide_eq_false_2, Hread in Hload by done.
  apply loadFiles_Ok in Hload as [_ Hin]; [|done]. unfold Get. rewrite Hin. unfold defines, sortStrings.
  setoid_rewrite merge_sort_Permutation. unfold NewRegistry. rewrite lookup_empty. naive_solver.
Qed.

(** A published name is stable: no sequence of registrations and removals
    that does not unregister the name itself changes the definition it
    resolves to. *)
Theorem registered_definition_is_stable (r : Registry) (ops : list registry_op) (name : string)
    (wf : WorkflowDefinition) (Hops : Forall (λ o, o ≠ OUnregister name) ops)
    (Hget : Get r name = Some wf) :
  Get (run_registry r ops) name = Some wf.
Proof.
  revert r Hget. induction Hops as [|o ops Ho _ IH]; intros r Hr; [done|].
  apply IH. by apply registry_step_keeps.
Qed.

(** The inputs a workflow is reported to need are exactly the keys its step
    configurations refer to, each once; every one of them stands in some string
    of a configuration as a [{{...}}] reference without a brace inside. *)
Theorem required_inputs_exact (def : WorkflowDefinition) :
  NoDup (RequiredInputs def) ∧
  ∀ key, key ∈ RequiredInputs def ↔
    ∃ step s, step ∈ Steps def ∧ leaf s (AMap (Config step)) ∧ key ∈ input_keys s ∧
      ∃ a ref b, s = a +:+ "{{" +:+ ref +:+ "}}" +:+ b ∧ no_byte "}" ref = true ∧
        input_key (capture ref) = Some key.
Proof.
  split; [apply NoDup_dedup|]. intros key. unfold RequiredInputs.
  rewrite elem_of_dedup, elem_of_concat_map. split.
  - intros (step & Hs & (s & Hl & Hk)%scan_elem). exists step, s. split_and!; try done.
    apply list_elem_of_omap in Hk as (g & Hg & Hkey).
    apply template_refs_sound in Hg as (a & r & b & -> & Hn & _ & ->). by exists a, r, b.
  - intros (step & s & Hs & Hl & Hk & _). exists step. split; [done|]. apply scan_elem. eauto.
Qed.

(** ** Witnesses *)

Definition demo_def : WorkflowDefinition :=
  mkWorkflowDefinition "review" "" [mkStepDefinition "work" "llm" []
    [("prompt", AString "do {{ input.task-id }} for {{input.who}} then {{steps.a.b}}")] None].
Definition demo_files : Files :=
  mkFiles (λ _, Ok (Some ["b.txt"; "a.yaml"])) (λ p, if bool_decide (p = "d/a.yaml") then Some "x" else None)
    (λ _, Some (mkYamlWorkflowDefinition "review" ""
       [mkYamlStep "work" "llm" [] [("prompt", AString "hi")] None])).
Definition demo_loaded : WorkflowDefinition :=
  mkWorkflowDefinition "review" "" [mkStepDefinition "work" "llm" [] [("prompt", AString "hi")] None].
Definition demo_registry : Registry := {[ "review" := demo_loaded ]}.
Definition other_def : WorkflowDefinition :=
  mkWorkflowDefinition "other" "langgraph" [mkStepDefinition "s" "gate" [] [] None].

Example required_inputs_demo : RequiredInputs demo_def = ["task-id"; "who"].
Proof. vm_compute. reflexivity. Qed.

Lemma registry_holds_valid_definitions_witness :
  Name demo_loaded = "review" ∧ Validate demo_loaded = Ok tt.
Proof.
  apply (registry_holds_valid_definitions demo_files "d" demo_registry [ORegister other_def] "review").
  - vm_compute. reflexivity.
  - vm_compute. reflexivity.
Defined.
Lemma load_registry_exact_witness :
  Get demo_registry "review" = Some demo_loaded ↔
  Name demo_loaded = "review" ∧ ∃ file, file ∈ ["b.txt"; "a.yaml"] ∧ is_yaml file = true ∧
    LoadDefinitionYAMLFile demo_files (Join ["d"; file]) = Ok demo_loaded.
Proof.
  apply (load_registry_exact demo_files "d" ["b.txt"; "a.yaml"] demo_registry).
  - done.
  - reflexivity.
  - vm_compute. reflexivity.
Defined.
Lemma registered_definition_is_stable_witness :
  Get (run_registry demo_registry [ORegister other_def; ORegister demo_def; OUnregister "other"]) "review"
    = Some demo_loaded.
Proof.
  apply (registered_definition_is_stable demo_registry).
  - repeat constructor; done.
  - vm_compute. reflexivity.
Defined.
