(* ===== verification/LoopLauncher.v ===== *)
(** * Launching loops (internal/loop)

    [presets.go] (the preset catalogue), the launch half of [launcher.go]
    ([Launch], [resolvePresetDefaults]) and [step_launcher.go] ([LaunchLoop],
    the entry of a workflow's loop step); the operator calls of [launcher.go]
    are in LoopEngine.  A launch threads the world of the store and the workflow
    registry of WorkflowRegistry.

    Theorems: what each request launches, that a preset launch ends, and that
    the built-in preset never consults the reasoning model. *)

From S2P Require Import Prelude GoStrings LoopStore LoopDecide LoopEngine WorkflowRegistry.

Open Scope string_scope.
Open Scope nat_scope.

(** ** Presets *)

Definition PresetRalph := "ralph".
Definition PresetTestFix := "test-fix".
Definition PresetReviewFix := "review-fix".
Definition PresetPlanExecute := "plan-execute".
Definition PresetQueueDrain := "queue-drain".
Definition PresetDurable := "durable".
Definition PresetSelfImprove := "self-improve".

Record LoopPreset := mkLoopPreset {
  preset_Name : string;
  preset_Budget : Budget;
  preset_ContinuationPolicy : ContinuationPolicy;
  DefinitionTemplate : WorkflowDefinition;
}.

Definition zeroPolicy : ContinuationPolicy := mkContinuationPolicy "" "" "" "" [].

(** [LoopPreset.implemented]. *)
Definition implemented (p : LoopPreset) : bool :=
  bool_decide (0 < length (Steps (DefinitionTemplate p))).

Definition RalphParamTask := "task".
Definition RalphParamProvider := "provider".
Definition RalphParamModel := "model".
Definition RalphParamAgentID := "agent_id".
Definition ralphDefaultMaxIterations : Z := 20.

(** [ralphDefinitionTemplate] and [ralphPreset]. *)
Definition input_ref (param : string) : Any := AString ("{{input." +:+ param +:+ "}}").
Definition ralphDefinitionTemplate : WorkflowDefinition :=
  mkWorkflowDefinition PresetRalph "" [mkStepDefinition "work" "llm" []
    [("provider", input_ref RalphParamProvider); ("model", input_ref RalphParamModel);
     ("agent_id", input_ref RalphParamAgentID); ("prompt", input_ref RalphParamTask)] None].
Definition ralphPreset : LoopPreset :=
  mkLoopPreset PresetRalph (mkBudget ralphDefaultMaxIterations 0 0 0 LoopRunOnExhaustedEscalate)
    zeroPolicy ralphDefinitionTemplate.

(** [stubPreset]. *)
Definition stubPresetDefaultMaxIterations : Z := 20.
Definition stubPresetDefaultMaxNoProgress : Z := 3.
Definition stubPreset (name : string) : LoopPreset :=
  mkLoopPreset name
    (mkBudget stubPresetDefaultMaxIterations 0 0 stubPresetDefaultMaxNoProgress LoopRunOnExhaustedEscalate)
    zeroPolicy (mkWorkflowDefinition name "" []).

(** [presets], [GetPreset] and [PresetNames]. *)
Definition stubNames : list string :=
  [PresetTestFix; PresetReviewFix; PresetPlanExecute; PresetQueueDrain; PresetDurable; PresetSelfImprove].
Definition presets : gmap string LoopPreset :=
  list_to_map ((PresetRalph, ralphPreset) :: map (λ n, (n, stubPreset n)) stubNames).
Definition GetPreset (name : string) : option LoopPreset := presets !! name.
Definition PresetNames : list string := sortStrings (map fst (map_to_list presets)).

(** ** Launch *)

Record LoopLaunchRequest (Params : Type) := mkLoopLaunchRequest {
  lq_GoalID : option string;
  InlineGoal : option LoopGoalSpec;
  lq_DefinitionName : string;
  BudgetOverrides : option Budget;
  lq_ContinuationPolicy : ContinuationPolicy;
  lq_WorkflowParams : Params;
  lq_AgentProfileID : string;
  lq_ProjectID : string;
  lq_ParentSessionID : string;
  lq_TimeoutSeconds : Z;
}.
Arguments mkLoopLaunchRequest {Params}. Arguments lq_GoalID {Params}. Arguments InlineGoal {Params}.
Arguments lq_DefinitionName {Params}. Arguments BudgetOverrides {Params}.
Arguments lq_ContinuationPolicy {Params}. Arguments lq_WorkflowParams {Params}.
Arguments lq_AgentProfileID {Params}. Arguments lq_ProjectID {Params}.
Arguments lq_ParentSessionID {Params}. Arguments lq_TimeoutSeconds {Params}.

Inductive LaunchErr :=
| EDefinitionNameRequired
| ErrPresetNotImplemented (name : string)
| ERegisterPreset (e : RegErr)
| ERun (e : LoopErr).

(** The request of a workflow's loop step ([service.LoopStepLaunchRequest]). *)
Record LoopStepLaunchRequest (Params : Type) := mkLoopStepLaunchRequest {
  sq_IdempotencyKey : string;
  sq_WorkflowName : string;
  sq_GoalID : string;
  sq_Goal : LoopGoalSpec;             (** the [Goal...] fields *)
  sq_Budget : Budget;
  sq_ContinuationPolicy : ContinuationPolicy;
  sq_WorkflowParams : Params;
  sq_AgentProfileID : string;
  sq_ProjectID : string;
  sq_ParentSessionID : string;
  sq_TimeoutSeconds : Z;
}.
Arguments mkLoopStepLaunchRequest {Params}.
Arguments sq_IdempotencyKey {Params}. Arguments sq_WorkflowName {Params}. Arguments sq_GoalID {Params}.
Arguments sq_Goal {Params}. Arguments sq_Budget {Params}. Arguments sq_ContinuationPolicy {Params}.
Arguments sq_WorkflowParams {Params}. Arguments sq_AgentProfileID {Params}.
Arguments sq_ProjectID {Params}. Arguments sq_ParentSessionID {Params}. Arguments sq_TimeoutSeconds {Params}.

Definition stringFromPtr (p : option string) : string := default "" p.

(** [resolvePresetDefaults]. *)
Definition resolvePresetDefaults {Params} (req : LoopLaunchRequest Params) (reg : Registry) :
    result LaunchErr (string * Budget * ContinuationPolicy) * Registry :=
  let budget := default zeroBudget (BudgetOverrides req) in
  let policy := lq_ContinuationPolicy req in
  match GetPreset (lq_DefinitionName req) with
  | None => (Ok (lq_DefinitionName req, budget, policy), reg)
  | Some preset =>
      if negb (implemented preset) then (Err (ErrPresetNotImplemented (lq_DefinitionName req)), reg)
      else
        let '(registered, reg) :=
          match Get reg (preset_Name preset) with
          | Some _ => (Ok tt, reg)
          | None => Register reg (DefinitionTemplate preset)
          end in
        match registered with
        | Err e => (Err (ERegisterPreset e), reg)
        | Ok _ =>
            let budget := match BudgetOverrides req with None => preset_Budget preset | Some _ => budget end in
            let policy := if isZeroContinuationPolicy policy then preset_ContinuationPolicy preset else policy in
            (Ok (preset_Name preset, budget, policy), reg)
        end
  end.

Section Launcher.
Context {Params : Type} (nilParams : Params).
Context `{JSON (list string)} `{JSON Budget} `{JSON Evaluation} `{JSON reasoningResponse}
        `{JSON (loopRunPersistentConfig Params)}.
Context (O : Oracle).

Abbreviation launcher := (act (World * Registry) LaunchErr).

(** Call the engine from the launcher. *)
Definition on_engine {A} (m : act World LoopErr A) : launcher A := λ s,
  let '(r, w) := m s.1 in
  (match r with Ok a => Ok a | Err e => Err (ERun e) end, (w, s.2)).

Definition launch_input (req : LoopLaunchRequest Params) (budget : Budget) (policy : ContinuationPolicy) :
    LoopInput Params :=
  mkLoopInput "" (stringFromPtr (lq_GoalID req)) (InlineGoal req) budget policy (lq_WorkflowParams req)
    (lq_AgentProfileID req) (lq_ProjectID req) (lq_ParentSessionID req) (lq_TimeoutSeconds req).

(** [LoopLauncher.Launch]. *)
Definition Launch (HS : Host) (WF : Workflows Params) (fuel : nat) (req : LoopLaunchRequest Params) :
    launcher LoopResult :=
  if bool_decide (lq_DefinitionName req = "") then fail EDefinitionNameRequired
  else
    resolved ← (λ s, let '(r, reg) := resolvePresetDefaults req s.2 in (r, (s.1, reg)));
    let '(defName, budget, policy) := resolved in
    on_engine (Run nilParams O HS WF fuel defName (launch_input req budget policy)).

(** [LoopEngine.LaunchLoop]. *)
Definition step_input (req : LoopStepLaunchRequest Params) : LoopInput Params :=
  mkLoopInput (sq_IdempotencyKey req) (sq_GoalID req)
    (if bool_decide (sq_GoalID req = "") then Some (sq_Goal req) else None)
    (sq_Budget req) (sq_ContinuationPolicy req) (sq_WorkflowParams req) (sq_AgentProfileID req)
    (sq_ProjectID req) (sq_ParentSessionID req) (sq_TimeoutSeconds req).
Definition LaunchLoop (HS : Host) (WF : Workflows Params) (fuel : nat) (req : LoopStepLaunchRequest Params) :
    act World LoopErr (string * string * Z) :=
  r ← Run nilParams O HS WF fuel (sq_WorkflowName req) (step_input req);
  mret (LoopRunID r, result_Status r, result_CurrentIteration r).

(** ** Lemmas: the catalogue *)

Lemma stub_lookup names name :
  (list_to_map (map (λ n, (n, stubPreset n)) names) : gmap string LoopPreset) !! name =
  if bool_decide (name ∈ names) then Some (stubPreset name) else None.
Proof.
  induction names as [|n names IH]; cbn -[bool_decide]; [by rewrite lookup_empty|].
  destruct (decide (n = name)) as [->|Hne].
  - rewrite lookup_insert_eq, bool_decide_eq_true_2; [done|apply list_elem_of_here].
  - rewrite lookup_insert_ne, IH by done. rewrite (bool_decide_ext _ (name ∈ n :: names)); [done|].
    rewrite elem_of_cons. naive_solver.
Qed.
Lemma GetPreset_cases name :
  (GetPreset name = None ∧ name ≠ PresetRalph ∧ name ∉ stubNames) ∨
  (name = PresetRalph ∧ GetPreset name = Some ralphPreset) ∨
  (name ∈ stubNames ∧ name ≠ PresetRalph ∧ GetPreset name = Some (stubPreset name)).
Proof.
  unfold GetPreset, presets. cbn [list_to_map foldr map fst snd].
  destruct (decide (PresetRalph = name)) as [<-|Hr].
  - right. left. split; [done|]. apply lookup_insert_eq.
  - rewrite lookup_insert_ne by done. change (foldr _ _ ?l) with (list_to_map l : gmap string LoopPreset).
    rewrite stub_lookup. case_bool_decide; [right; right|left]; split_and!; done.
Qed.

(** The template of the built-in preset can always be registered. *)
Lemma ralph_registers reg :
  Get reg PresetRalph = None →
  Register reg ralphDefinitionTemplate = (Ok tt, <[PresetRalph := ralphDefinitionTemplate]> reg).
Proof.
  intros Hg. destruct (Register_cases reg ralphDefinitionTemplate) as [[e He]|(He & _)]; [|done].
  exfalso. revert He. unfold Register. change (Name ralphDefinitionTemplate) with PresetRalph.
  rewrite bool_decide_eq_false_2 by done.
  change (Validate ralphDefinitionTemplate) with (Ok tt : result RegErr unit). cbv beta iota.
  rewrite bool_decide_eq_false_2; [done|]. unfold Get in Hg. rewrite Hg. by intros [? ?].
Qed.

(** The registry after a launch of the built-in preset. *)
Definition with_ralph (reg : Registry) : Registry :=
  match Get reg PresetRalph with Some _ => reg | None => <[PresetRalph := ralphDefinitionTemplate]> reg end.

Lemma resolve_cases (req : LoopLaunchRequest Params) reg :
  let given := default zeroBudget (BudgetOverrides req) in
  resolvePresetDefaults req reg =
  if bool_decide (lq_DefinitionName req = PresetRalph) then
    (Ok (PresetRalph, default (preset_Budget ralphPreset) (BudgetOverrides req),
         if isZeroContinuationPolicy (lq_ContinuationPolicy req) then zeroPolicy
         else lq_ContinuationPolicy req), with_ralph reg)
  else if bool_decide (lq_DefinitionName req ∈ stubNames) then
    (Err (ErrPresetNotImplemented (lq_DefinitionName req)), reg)
  else (Ok (lq_DefinitionName req, given, lq_ContinuationPolicy req), reg).
Proof.
  cbv zeta. unfold resolvePresetDefaults.
  destruct (GetPreset_cases (lq_DefinitionName req)) as [(-> & Hr & Hs)|[[-> ->]|(Hs & Hr & ->)]].
  - by rewrite !bool_decide_eq_false_2.
  - rewrite bool_decide_eq_true_2 by done. change (implemented ralphPreset) with true. cbn [negb].
    change (preset_Name ralphPreset) with PresetRalph.
    change (DefinitionTemplate ralphPreset) with ralphDefinitionTemplate. unfold with_ralph.
    destruct (Get reg PresetRalph) as [wf|] eqn:Hg; [|rewrite ralph_registers by done];
      by destruct (BudgetOverrides req).
  - rewrite bool_decide_eq_false_2, bool_decide_eq_true_2 by done.
    by change (implemented (stubPreset _)) with false.
Qed.

(** ** Lemmas: the reasoning model is out of reach without a streak limit *)

Definition with_model (HS : Host) (m : nat → LLMStepRequest → option string) : Host :=
  mkHost (parse_time HS) (fmt_d HS) (fmt_q HS) (fmt_2f HS) (fmt_v HS) m.

Lemma act_bind_ext {W E A B} (m m' : act W E A) (k k' : A → act W E B) w :
  (∀ w, m w = m' w) → (∀ a w, k a w = k' a w) → (m ≫= k) w = (m' ≫= k') w.
Proof.
  intros Hm Hk. unfold mbind, act_bind. rewrite Hm. by destruct (m' w) as [[a|e] w'].
Qed.

Lemma Decide_without_model HS m exec goal met ev history b pol w :
  (MaxNoProgressIterations b ≤ 0)%Z →
  Decide O (with_model HS m) exec goal met ev history b pol w = Decide O HS exec goal met ev history b pol w.
Proof.
  intros Hb. unfold Decide. destruct met; [done|]. apply act_bind_ext; [done|].
  intros [r|] w'; [done|]. by rewrite (proj2 (Z.ltb_ge 0 (MaxNoProgressIterations b)) Hb).
Qed.
Lemma evaluate_without_model HS m WF lr goal row res pol b prior w :
  (MaxNoProgressIterations b ≤ 0)%Z →
  evaluateDecideAndAct nilParams O (with_model HS m) WF lr goal row res pol b prior w =
  evaluateDecideAndAct nilParams O HS WF lr goal row res pol b prior w.
Proof.
  intros Hb. unfold evaluateDecideAndAct.
  change (classifyIterationProgress (with_model HS m)) with (classifyIterationProgress HS).
  destruct (classifyIterationProgress HS (Some res)) as [ev ps].
  apply act_bind_ext; [done|intros met w1]. apply act_bind_ext; [done|intros t w2].
  apply act_bind_ext; [done|intros it w3]. apply act_bind_ext; [|done].
  intros w4. unfold wrap. by rewrite Decide_without_model.
Qed.
Lemma drive_without_model HS m WF fuel b lr goal defName cfg history w :
  (MaxNoProgressIterations b ≤ 0)%Z →
  drive nilParams O (with_model HS m) WF fuel b lr goal defName cfg history w =
  drive nilParams O HS WF fuel b lr goal defName cfg history w.
Proof.
  intros Hb. revert lr goal history w. induction fuel as [|fuel IH]; intros lr goal history w; [done|].
  cbn [drive]. apply act_bind_ext; [done|intros c w1]. case_if; [done|].
  apply act_bind_ext; [done|intros d w2]. case_if; [done|].
  apply act_bind_ext; [done|intros [[lr1 row] res] w3]. case_if; [done|].
  apply act_bind_ext; [intros w4; by apply evaluate_without_model|].
  intros [r|lr2 goal2 h2] w4; [done|]. apply IH.
Qed.
Lemma launchLoopRun_without_model HS m WF fuel name input id w :
  JSONLaws Budget "{}" → (MaxNoProgressIterations (in_Budget input) ≤ 0)%Z →
  launchLoopRun nilParams O (with_model HS m) WF fuel name input id w =
  launchLoopRun nilParams O HS WF fuel name input id w.
Proof.
  intros Hlaws Hb. unfold launchLoopRun.
  apply act_bind_ext; [done|intros goal w1]. apply act_bind_ext; [done|intros [|r l] w2]; [|done].
  apply act_bind_ext; [done|intros cj w3]. unfold mbind, act_bind, wrap, lift.
  destruct (SetBudget _ _) as [lr|e] eqn:Hs; [|done]. apply (SetBudget_reads Hlaws) in Hs as (Hread & _).
  destruct (CreateLoopRun O lr w3) as [[row|e] w4] eqn:Hc; [|done].
  apply CreateLoopRun_budget in Hc. apply (decode_created _ _ _ Hc) in Hread.
  unfold driveIterations, mbind, act_bind, wrap, lift. rewrite Hread. by apply drive_without_model.
Qed.
Lemma Run_without_model HS m WF fuel name input w :
  JSONLaws Budget "{}" → (MaxNoProgressIterations (in_Budget input) ≤ 0)%Z →
  Run nilParams O (with_model HS m) WF fuel name input w = Run nilParams O HS WF fuel name input w.
Proof.
  intros Hlaws Hb. unfold Run. case_if; [done|]. case_if; [done|].
  apply act_bind_ext; [done|intros allowed w1]. case_if; [done|].
  case_if; [by apply launchLoopRun_without_model|].
  apply act_bind_ext; [done|intros [r|] w2]; [done|]. by apply launchLoopRun_without_model.
Qed.

(** ** Lemmas: a run, once recorded, is never forgotten by the engine *)

Section Persistence.
Context (HS : Host) (WF : Workflows Params).
Context (Hruns : host_stays WF (λ db db', loop_runs db' = loop_runs db)).

#[local] Existing Instance run_frame_preorder.
#[local] Instance same_runs_preorder : PreOrder (λ db db', loop_runs db' = loop_runs db).
Proof. split; [done|]. intros a b c. congruence. Qed.

Definition recorded (id : string) (db : DB) : Prop := id ∈ run_ids db.

Lemma recorded_frame id i db db' : run_frame i db db' → recorded id db → recorded id db'.
Proof. intros Hf%run_frame_ids. unfold recorded. by rewrite Hf. Qed.

Lemma launchLoopRun_recorded id fuel name input i :
  always (λ w, recorded id (w_db w)) (launchLoopRun nilParams O HS WF fuel name input i)
    (λ w, recorded id (w_db w)).
Proof.
  apply launchLoopRun_rule.
  - apply (always_stays (λ db db', loop_runs db' = loop_runs db)); [|unfold recorded, run_ids; by intros ? ? ->].
    apply resolveGoal_stays; [exact _|].
    intros g. unfold CreateGoal. stays_statements. intros db ? db'. case_if; [done|]. by intros [= _ <-].
  - intros lr row goal cfg w w' Hw _ Hc _. apply CreateLoopRun_Ok in Hc as (Hl & _).
    eapply recorded_frame.
    + eapply (stays_driveIterations nilParams O HS WF (run_frame (lr_ID row)) (lr_ID row)
                (run_frame_ops O WF (lr_ID row) Hruns)); [|done].
      intros li _. apply run_frame_iteration.
    + unfold recorded, run_ids in *. rewrite Hl, map_app. set_solver.
Qed.
Lemma engine_step_recorded id w o :
  recorded id (w_db w) → recorded id (w_db (engine_step nilParams O HS WF w o)).
Proof.
  intros Hw. destruct o as [fuel name input|fuel i|c i|i|fuel i ov]; cbn [engine_step].
  - revert w Hw. apply Run_rule. intros i. apply launchLoopRun_recorded.
  - eapply recorded_frame; [|exact Hw].
    eapply (stays_Resume nilParams O HS WF (run_frame i) i (run_frame_ops O WF i Hruns)).
    intros li _. apply run_frame_iteration.
  - destruct (tick_never_resumes c i w) as [e ->]. done.
  - eapply recorded_frame; [|exact Hw].
    apply (stays_Cancel O WF (run_frame i) i (run_frame_ops O WF i Hruns)).
  - eapply recorded_frame; [|exact Hw].
    eapply (stays_ResolveEscalation nilParams O HS WF (run_frame i) i (run_frame_ops O WF i Hruns)).
    intros li _. apply run_frame_iteration.
Qed.
Lemma run_engine_recorded id ops w :
  recorded id (w_db w) → recorded id (w_db (run_engine nilParams O HS WF w ops)).
Proof.
  revert w. induction ops as [|o ops IH]; intros w Hw; [done|]. apply IH. by apply engine_step_recorded.
Qed.
Lemma recorded_find id db : recorded id db → ∃ r, find_row (loop_runs db) id = Some r.
Proof.
  unfold recorded. intros Hin. unfold find_row.
  apply list_elem_of_In, in_map_iff in Hin as (r & Hid & Hr).
  destruct (List.find _ _) as [x|] eqn:Hf; [by exists x|]. exfalso.
  pose proof (find_none _ _ Hf r Hr) as Hn. cbn in Hn. apply bool_decide_eq_false in Hn. by apply Hn.
Qed.
End Persistence.
End Launcher.

(** ** Properties *)

(** What a launch request starts, on every branch: no name is refused; the
    built-in preset is registered if it is not yet, and runs with the caller's
    budget and policy where given and the preset's otherwise; a preset without
    an implementation is refused and changes nothing; any other name runs as it
    is with the caller's budget, unbounded when there is none. *)
Theorem launch_starts_what_was_asked {Params : Type} (nilParams : Params)
    `{JSON (list string)} `{JSON Budget} `{JSON Evaluation} `{JSON reasoningResponse}
    `{JSON (loopRunPersistentConfig Params)} (O : Oracle) (HS : Host) (WF : Workflows Params)
    (fuel : nat) (req : LoopLaunchRequest Params) (w : World) (reg : Registry) :
  Launch nilParams O HS WF fuel req (w, reg) =
  let run name budget policy reg' :=
    on_engine (Run nilParams O HS WF fuel name (launch_input req budget policy)) (w, reg') in
  if bool_decide (lq_DefinitionName req = "") then (Err EDefinitionNameRequired, (w, reg))
  else if bool_decide (lq_DefinitionName req = PresetRalph) then
    run PresetRalph (default (mkBudget 20 0 0 0 "escalate") (BudgetOverrides req))
      (if isZeroContinuationPolicy (lq_ContinuationPolicy req) then zeroPolicy
       else lq_ContinuationPolicy req)
      (match Get reg PresetRalph with
       | Some _ => reg | None => <[PresetRalph := ralphDefinitionTemplate]> reg end)
  else if bool_decide (lq_DefinitionName req ∈ stubNames) then
    (Err (ErrPresetNotImplemented (lq_DefinitionName req)), (w, reg))
  else run (lq_DefinitionName req) (default zeroBudget (BudgetOverrides req)) (lq_ContinuationPolicy req) reg.
Proof.
  cbv zeta. unfold Launch. case_bool_decide; [done|]. unfold mbind, act_bind. cbn [fst snd].
  rewrite resolve_cases. case_bool_decide; [done|]. by case_bool_decide.
Qed.

(** A launch of the built-in preset ends: without a budget of the caller's,
    [Launch] returns within 20 turns of the loop, whatever the workflows, the
    database and the clock do. *)
Theorem preset_launch_terminates {Params : Type} (nilParams : Params)
    `{JSON (list string)} `{JSON Budget} `{JSON Evaluation} `{JSON reasoningResponse}
    `{JSON (loopRunPersistentConfig Params)} (O : Oracle) (HS : Host) (WF : Workflows Params)
    (fuel : nat) (req : LoopLaunchRequest Params) (s : World * Registry)
    (Hlaws : JSONLaws Budget "{}")
    (Hname : lq_DefinitionName req = PresetRalph) (Hbudget : BudgetOverrides req = None)
    (Hfuel : 20 ≤ fuel) :
  (Launch nilParams O HS WF fuel req s).1 ≠ Err (ERun ErrUnfinished).
Proof.
  unfold Launch. rewrite bool_decide_eq_false_2 by (by rewrite Hname).
  unfold mbind, act_bind. rewrite resolve_cases, bool_decide_eq_true_2, Hbudget by done.
  unfold on_engine. cbn [fst snd].
  pose proof (Run_finishes nilParams O HS WF fuel PresetRalph (launch_input req (preset_Budget ralphPreset)
    (if isZeroContinuationPolicy (lq_ContinuationPolicy req) then zeroPolicy
     else lq_ContinuationPolicy req)) Hlaws ltac:(done) Hfuel s.1) as Hf.
  cbn [default from_option] in *.
  destruct (Run _ _ _ _ _ _ _ _) as [[r|e] w]; cbn in *; [done|]. intros [= ->]. by destruct Hf.
Qed.

(** The built-in preset is deterministic: without a budget of the caller's, or
    with one that sets no streak limit, its launch is the same whatever the
    reasoning model would answer. *)
Theorem preset_never_asks_model {Params : Type} (nilParams : Params)
    `{JSON (list string)} `{JSON Budget} `{JSON Evaluation} `{JSON reasoningResponse}
    `{JSON (loopRunPersistentConfig Params)} (O : Oracle) (HS : Host) (WF : Workflows Params)
    (m : nat → LLMStepRequest → option string) (fuel : nat) (req : LoopLaunchRequest Params)
    (s : World * Registry) (Hlaws : JSONLaws Budget "{}")
    (Hname : lq_DefinitionName req = PresetRalph)
    (Hbudget : ∀ b, BudgetOverrides req = Some b → (MaxNoProgressIterations b ≤ 0)%Z) :
  Launch nilParams O (with_model HS m) WF fuel req s = Launch nilParams O HS WF fuel req s.
Proof.
  unfold Launch. rewrite bool_decide_eq_false_2 by (by rewrite Hname).
  unfold mbind, act_bind. rewrite resolve_cases, bool_decide_eq_true_2 by done.
  unfold on_engine. cbn [fst snd]. rewrite Run_without_model; [done|done|]. cbn.
  destruct (BudgetOverrides req) as [b|]; [by apply Hbudget|done].
Qed.

(** A workflow's loop step launches one child: after a successful
    [LaunchLoop], and any further engine calls (resumes, cancellations,
    replans, other launches), launching the step again under its key starts
    nothing: the tables do not change, and a successful answer names the run of
    the first launch.  It is stated for workflows that leave the table of runs
    alone. *)
Theorem loop_step_recovers_its_child {Params : Type} (nilParams : Params)
    `{JSON (list string)} `{JSON Budget} `{JSON Evaluation} `{JSON reasoningResponse}
    `{JSON (loopRunPersistentConfig Params)} (O : Oracle) (HS : Host) (WF : Workflows Params)
    (fuel fuel' : nat) (req : LoopStepLaunchRequest Params) (w w1 : World)
    (child status : string) (n : Z) (ops : list (@engine_op Params))
    (Hruns : host_stays WF (λ db db', loop_runs db' = loop_runs db))
    (Hkey : sq_IdempotencyKey req ≠ "")
    (Hid : deterministicLoopIdentity WF (sq_IdempotencyKey req) ≠ "")
    (Hfirst : LaunchLoop nilParams O HS WF fuel req w = (Ok (child, status, n), w1)) :
  let w2 := run_engine nilParams O HS WF w1 ops in
  w_db (LaunchLoop nilParams O HS WF fuel' req w2).2 = w_db w2 ∧
  ∀ c s k, (LaunchLoop nilParams O HS WF fuel' req w2).1 = Ok (c, s, k) → c = child.
Proof.
  cbv zeta. apply bind_Ok in Hfirst as (r & w1' & Hrun & Hret). injection Hret as <- <- <- <-.
  pose proof (Run_reports nilParams O HS WF Hruns _ _ _ _ _ _ Hrun) as ((row & Hrow & _) & _ & Hk).
  specialize (Hk Hkey Hid). rewrite Hk in Hrow |- *.
  assert (sq_WorkflowName req ≠ "") as Hname by (intros Hn; unfold Run in Hrun; by rewrite Hn in Hrun).
  assert (recorded (deterministicLoopIdentity WF (IdempotencyKey (step_input req))) (w_db w1')) as Hrec.
  { apply find_row_Some in Hrow as [Hin Hpk]. unfold recorded. apply list_elem_of_In, in_map_iff.
    exists row. split; [exact Hpk|by apply list_elem_of_In]. }
  apply (run_engine_recorded nilParams O HS WF Hruns _ ops) in Hrec.
  apply recorded_find in Hrec as [row' Hrow'].
  pose proof (Run_again nilParams O HS WF fuel' _ (step_input req) _ row' Hkey Hname Hrow') as Hagain.
  unfold LaunchLoop, mbind, act_bind.
  destruct (Run nilParams O HS WF fuel' _ _ _) as [[r2|e] w3]; cbn [fst snd]; [|done].
  destruct Hagain as (H1' & _ & H3'). split; [done|]. by intros c s k [= <- _ _].
Qed.

(** ** Witnesses *)

#[local] Existing Instance demo_response_json.

Definition ralph_request : LoopLaunchRequest unit :=
  mkLoopLaunchRequest (Some "g1") None "ralph" None zeroPolicy tt "agent" "" "" 0.
Definition step_request : LoopStepLaunchRequest unit :=
  mkLoopStepLaunchRequest "k" "ralph" "g1" (mkLoopGoalSpec "" "" [] [] [] [] "" "" "" "")
    (mkBudget 3 0 0 0 "") zeroPolicy tt "agent" "" "" 0.

(** The catalogue's template asks for the four documented parameters. *)
Example ralph_inputs : RequiredInputs ralphDefinitionTemplate = ["agent_id"; "model"; "task"; "provider"].
Proof. vm_compute. reflexivity. Qed.
Example preset_names : PresetNames =
  ["durable"; "plan-execute"; "queue-drain"; "ralph"; "review-fix"; "self-improve"; "test-fix"].
Proof. vm_compute. reflexivity. Qed.

Lemma preset_launch_terminates_witness :
  (Launch tt demo_oracle demo_host gate_host 20 ralph_request (goal_world, NewRegistry)).1
    ≠ Err (ERun ErrUnfinished).
Proof.
  apply (preset_launch_terminates tt demo_oracle demo_host gate_host 20 ralph_request (goal_world, NewRegistry)
           (word_json_laws Budget "{}" pos_word_not_braces)).
  - reflexivity.
  - reflexivity.
  - lia.
Defined.
Lemma preset_never_asks_model_witness :
  Launch tt demo_oracle (with_model demo_host (λ _ _, None)) gate_host 20 ralph_request (goal_world, NewRegistry)
  = Launch tt demo_oracle demo_host gate_host 20 ralph_request (goal_world, NewRegistry).
Proof.
  apply (preset_never_asks_model tt demo_oracle demo_host gate_host (λ _ _, None) 20 ralph_request
           (goal_world, NewRegistry) (word_json_laws Budget "{}" pos_word_not_braces)).
  - reflexivity.
  - intros b Hb. discriminate Hb.
Defined.
Lemma loop_step_recovers_its_child_witness :
  w_db (LaunchLoop tt demo_oracle demo_host gate_host 3 step_request
          (run_engine tt demo_oracle demo_host gate_host gated_world [OpCancel demo_id])).2 =
  w_db (run_engine tt demo_oracle demo_host gate_host gated_world [OpCancel demo_id]).
Proof.
  refine (proj1 (loop_step_recovers_its_child tt demo_oracle demo_host gate_host 3 3 step_request goal_world
    gated_world demo_id "waiting_on_gate" 1 [OpCancel demo_id] gate_host_runs _ _ _)).
  - done.
  - done.
  - vm_compute. reflexivity.
Defined.
