(* ===== verification/Recovery.v ===== *)
(** * The recovery broker: what it decides (internal/recovery/broker)

    The pure parts of the broker: the types of [types.go] and [deps.go],
    [Classify] of [classifier.go], the message rendering of [envelope.go], and
    the helpers of [broker.go] ([httpRetryBackoff], [parseMode], [itoa]).  The
    orchestration that uses them is in RecoveryBroker.

    The exit information comes from a library: its cause strings are the
    parameter [Causes].  Durations and instants are integers in nanoseconds;
    [SessionAge.Seconds() < 5] is exact at that width, since a duration below
    five seconds is at most 4.999999999 as a [float64].

    Theorems: which failures are retried, that a remediation comes with exactly
    one class, the back-off bounds, and that [itoa] prints its number. *)

From S2P Require Import Prelude GoStrings.

Open Scope string_scope.
Open Scope Z_scope.

(** ** Data *)

(** [agentsessions.ExitError]: the fields the broker reads. *)
Record ExitError := mkExitError { Cause : string; Code : Z; Signal : Z }.

(** The cause constants of the session library. *)
Record Causes := mkCauses {
  CauseIdleTimeout : string;
  CauseWatchdogKill : string;
  CauseOOMKill : string;
  CauseRestartExhausted : string;
  CauseResourceLimit : string;
}.
Definition CauseHTTPRequestRejected : string := "http_request_rejected".

Record SandboxState := mkSandboxState {
  sb_Path : string;
  Missing : bool;
  PresentFiles : list string;
}.
Record MCPState := mkMCPState {
  Down : bool;
  LastOK : Z;
  mcp_Reason : string;
}.
Definition zeroSandbox : SandboxState := mkSandboxState "" false [].
Definition zeroMCP : MCPState := mkMCPState false 0 "".

Record FailureEvent := mkFailureEvent {
  ev_SessionID : string;
  ev_AgentProfile : string;
  ev_Provider : string;
  ev_Mode : string;
  Attempt : Z;
  Exit : option ExitError;
  LastTurnPos : Z;
  StderrTail : string;
  SandboxDirState : SandboxState;
  MCPTransport : MCPState;
  ev_PathGrants : list string;
  LineageOf : string;
  ev_Workdir : string;
  OccurredAt : Z;
  SessionAge : Z;
}.

Inductive Class := ClassUnknown | ClassTransient | ClassConfigPermissions | ClassPermanent.
#[global] Instance Class_eq_dec : EqDecision Class.
Proof. solve_decision. Defined.
Definition class_String (c : Class) : string :=
  match c with
  | ClassTransient => "transient" | ClassConfigPermissions => "config_permissions"
  | ClassPermanent => "permanent" | ClassUnknown => "unknown"
  end.

Inductive Remediation :=
| RemediationNone | RemediationRepopulateSandbox | RemediationRefreshMCPTransport
| RemediationRefreshCredentials | RemediationRegenerateCLAUDEMD.
#[global] Instance Remediation_eq_dec : EqDecision Remediation.
Proof. solve_decision. Defined.
Definition remediation_String (r : Remediation) : string :=
  match r with
  | RemediationRepopulateSandbox => "repopulate_sandbox"
  | RemediationRefreshMCPTransport => "refresh_mcp_transport"
  | RemediationRefreshCredentials => "refresh_credentials"
  | RemediationRegenerateCLAUDEMD => "regenerate_claudemd"
  | RemediationNone => "none"
  end.
Definition Description (r : Remediation) : string :=
  match r with
  | RemediationRepopulateSandbox => "rebuilt the agent's sandbox directory"
  | RemediationRefreshMCPTransport => "restarted the agent's MCP transport"
  | RemediationRefreshCredentials => "refreshed agent credentials"
  | RemediationRegenerateCLAUDEMD => "refreshed the agent's instructions"
  | RemediationNone => "a configuration issue"
  end.

Record Classification := mkClassification {
  cl_Class : Class;
  cl_Reason : string;
  cl_Remediation : Remediation;
}.

Inductive Action := ActionUnknown | ActionRetryTransient | ActionRetryConfigFixed | ActionPermanentFailure.
#[global] Instance Action_eq_dec : EqDecision Action.
Proof. solve_decision. Defined.
Definition action_String (a : Action) : string :=
  match a with
  | ActionRetryTransient => "retry_transient" | ActionRetryConfigFixed => "retry_config_fixed"
  | ActionPermanentFailure => "permanent_failure" | ActionUnknown => "unknown"
  end.

Inductive Outcome :=
| OutcomeUnknown | OutcomeRemediated | OutcomeTransientRetrySucceeded | OutcomePermanent | OutcomeCanceled.
#[global] Instance Outcome_eq_dec : EqDecision Outcome.
Proof. solve_decision. Defined.
Definition outcome_String (o : Outcome) : string :=
  match o with
  | OutcomeRemediated => "remediated" | OutcomeTransientRetrySucceeded => "transient_retry_succeeded"
  | OutcomePermanent => "permanent" | OutcomeCanceled => "canceled" | OutcomeUnknown => "unknown"
  end.

Record Breadcrumb := mkBreadcrumb {
  Timestamp : Z;
  bc_SessionID : string;
  bc_Class : Class;
  bc_Cause : string;
  bc_Remediation : Remediation;
  bc_Action : Action;
  bc_Outcome : Outcome;
  AttemptCount : Z;
  DurationFromFailure : Z;
  bc_Reason : string;
}.

Definition MaxBrokerRetries : Z := 3.

Record Envelope := mkEnvelope {
  env_Kind : string;
  Title : string;
  Content : string;
  CancelToken : string;
  Severity : string;
}.

(** ** The classifier *)

(** [isAuthFailure]. *)
Definition isAuthFailure (stderrTail : string) : bool :=
  if bool_decide (stderrTail = "") then false
  else
    let l := lower stderrTail in
    contains l "401" || contains l "403" || contains l "unauthorized".

Definition youngSessionThreshold : Z := 5 * 1000000000.

(** [Classify]. *)
Definition Classify (K : Causes) (ev : option FailureEvent) : Classification :=
  match ev with
  | None => mkClassification ClassPermanent "nil failure event or exit info" RemediationNone
  | Some ev =>
  match Exit ev with
  | None => mkClassification ClassPermanent "nil failure event or exit info" RemediationNone
  | Some xe =>
      if bool_decide (Cause xe = CauseHTTPRequestRejected) then
        mkClassification ClassPermanent
          "provider rejected the request; change its settings or model before retrying" RemediationNone
      else if bool_decide (Cause xe = CauseIdleTimeout K) then
        mkClassification ClassTransient
          "idle_timeout: session went idle past supervisor threshold" RemediationNone
      else if bool_decide (Cause xe = CauseWatchdogKill K) then
        mkClassification ClassConfigPermissions
          "watchdog_kill: agent stuck — refresh CLAUDE.md to nudge" RemediationRegenerateCLAUDEMD
      else if bool_decide (Cause xe = CauseOOMKill K) then
        mkClassification ClassTransient
          "oom_kill: out-of-memory — single retry (workload may differ)" RemediationNone
      else if bool_decide (Cause xe = CauseRestartExhausted K) then
        mkClassification ClassPermanent
          "restart_exhausted: lib-level retries exhausted; broker escalates" RemediationNone
      else if bool_decide (Cause xe = CauseResourceLimit K) then
        mkClassification ClassPermanent
          "resource_limit: process exceeded configured cap; same workload will hit it again" RemediationNone
      else if Code xe =? 127 then
        mkClassification ClassPermanent "exit code 127: agent binary not found on PATH" RemediationNone
      else if negb (Code xe =? 0) && Missing (SandboxDirState ev) then
        mkClassification ClassConfigPermissions
          "sandbox dir missing — repopulate before retrying" RemediationRepopulateSandbox
      else if negb (Code xe =? 0) && Down (MCPTransport ev) then
        mkClassification ClassConfigPermissions
          "MCP transport down — restart before retrying" RemediationRefreshMCPTransport
      else if isAuthFailure (StderrTail ev) then
        mkClassification ClassConfigPermissions
          "stderr indicates auth failure (401/403/unauthorized)" RemediationRefreshCredentials
      else if Signal xe =? 11 then
        mkClassification ClassTransient "SIGSEGV (signal 11): exotic crash, single retry" RemediationNone
      else if Signal xe =? 9 then
        if SessionAge ev <? youngSessionThreshold then
          mkClassification ClassPermanent
            "SIGKILL within 5s of start: likely config error, retry won't help" RemediationNone
        else
          mkClassification ClassTransient
            "SIGKILL after steady-state: external kill, single retry" RemediationNone
      else if negb (Code xe =? 0) then
        if 2 <=? Attempt ev then
          mkClassification ClassPermanent "unclassified non-zero exit on retry: escalating" RemediationNone
        else
          mkClassification ClassTransient
            "unclassified non-zero exit, first occurrence: single retry" RemediationNone
      else
        mkClassification ClassPermanent
          "exit code 0 with no supervisor cause — not a recovery candidate" RemediationNone
  end
  end.

(** ** Messages *)

Definition envelopeKindInfoCard := "info-card".
Definition envelopeKindErrorReport := "error-report".
Definition envelopeKindChatLoopTerminated := "chat-loop-terminated".
Definition severityInfo := "info".
Definition severityError := "error".

Definition cause_of (ev : FailureEvent) : string :=
  match Exit ev with Some xe => Cause xe | None => "" end.

(** [transientRetryMessage], [configFixedMessage]. *)
Definition transientRetryMessage (K : Causes) (ev : FailureEvent) : string :=
  if bool_decide (cause_of ev = CauseIdleTimeout K) then
    "The agent went idle and was reset. Reconnecting now…"
  else if bool_decide (cause_of ev = CauseOOMKill K) then
    "The agent ran out of memory and was restarted. Reconnecting…"
  else "Agent ran into a temporary error. Retrying now…".
Definition configFixedMessage (c : Classification) : string :=
  "Resolved " +:+ Description (cl_Remediation c) +:+ "; reconnecting agent…".

(** [capitalize]: the conversion through runes is the identity on UTF-8. *)
Definition capitalize (s : string) : string :=
  match s with
  | "" => ""
  | String a s' =>
      let n := nat_of_ascii a in
      if bool_decide (97 ≤ n)%nat && bool_decide (n ≤ 122)%nat then String (byte (n - 32)) s' else s
  end.

(** [permanentDetail], [permanentSuggestedAction], [permanentEnvelope]. *)
Definition permanentDetail (c : Classification) : string :=
  if bool_decide (cl_Reason c = "") then "The agent could not be recovered."
  else
    let r := trim_space (cl_Reason c) in
    capitalize (if has_suffix r "." then r else r +:+ ".").
Definition permanentSuggestedAction (c : Classification) : string :=
  match cl_Remediation c with
  | RemediationRefreshCredentials => "Check your API credentials and try again."
  | RemediationRepopulateSandbox | RemediationRegenerateCLAUDEMD => "Try restarting the chat session."
  | _ => "Try a different agent or restart the session."
  end.
Definition permanentEnvelope (K : Causes) (ev : FailureEvent) (c : Classification) : Envelope :=
  if bool_decide (cause_of ev = CauseRestartExhausted K) then
    mkEnvelope envelopeKindChatLoopTerminated "Agent stopped"
      ("The agent kept failing after multiple restart attempts. " +:+ permanentSuggestedAction c) ""
      severityError
  else
    mkEnvelope envelopeKindErrorReport "Agent unavailable"
      (permanentDetail c +:+ " " +:+ permanentSuggestedAction c) "" severityError.

(** ** Helpers *)

(** [httpRetryBackoff]: [d *= 2] in a counted loop. *)
Fixpoint double (n : nat) (d : Z) : Z := match n with O => d | S n' => double n' (d * 2) end.
Definition second : Z := 1000000000.
Definition httpRetryBackoff (attempt ceiling : Z) : Z :=
  let attempt := if attempt <? 1 then 1 else attempt in
  let doublings := if 10 <? attempt - 1 then 10 else attempt - 1 in
  let d := double (Z.to_nat doublings) second in
  if (0 <? ceiling) && (ceiling <? d) then ceiling else d.

Inductive SessionMode := ModeLongLived | ModeOneShot | ModeResume | ModeSubagent | ModeBackground.
(** [Mode.String] and [parseMode]. *)
Definition mode_String (m : SessionMode) : string :=
  match m with
  | ModeLongLived => "long_lived" | ModeOneShot => "one_shot" | ModeResume => "resume"
  | ModeSubagent => "subagent" | ModeBackground => "background"
  end.
Definition parseMode (s : string) : SessionMode :=
  if bool_decide (s = "long_lived") || bool_decide (s = "") then ModeLongLived
  else if bool_decide (s = "one_shot") then ModeOneShot
  else if bool_decide (s = "resume") then ModeResume
  else if bool_decide (s = "subagent") then ModeSubagent
  else if bool_decide (s = "background") then ModeBackground
  else ModeLongLived.

(** [itoa]: [-n] wraps at the least 64-bit integer; the loop writes digits from
    the end of a 20-byte buffer. *)
Definition neg64 (n : Z) : Z := if n =? - 2 ^ 63 then n else - n.
Definition digit (d : Z) : ascii := byte (48 + Z.to_nat d).
Fixpoint itoa_loop (fuel : nat) (n : Z) (buf : string) : string :=
  match fuel with
  | O => buf
  | S f => if 0 <? n then itoa_loop f (n / 10) (String (digit (n mod 10)) buf) else buf
  end.
Definition itoa (n : Z) : string :=
  if n =? 0 then "0"
  else
    let neg := n <? 0 in
    let n := if neg then neg64 n else n in
    let buf := itoa_loop 20 n "" in
    if neg then "-" +:+ buf else buf.

(** [agent.HasBootdirLayout]: the provider registry is a parameter. *)
Definition normalizeProviderName (lookup : string → option string) (name : string) : string :=
  let stripped :=
    if bool_decide (name = "pty") then "claude"
    else if bool_decide (4 < String.length name)%nat && has_prefix name "pty-" then str_drop 4 name
    else if bool_decide (4 < String.length name)%nat && has_prefix name "sub-" then str_drop 4 name
    else name in
  match lookup stripped with Some id => id | None => stripped end.
Definition HasBootdirLayout (lookup : string → option string) (provider : string) : bool :=
  bool_decide (normalizeProviderName lookup provider ∈
    ["claude"; "claude-code"; "claudecode"; "codex"; "opencode"; "antigravity"]).

(** ** Lemmas *)

Lemma parseMode_String m : parseMode (mode_String m) = m.
Proof. by destruct m. Qed.

Lemma double_pow n d : double n d = d * 2 ^ Z.of_nat n.
Proof.
  revert d. induction n as [|n IH]; intros d; cbn [double]; [by rewrite Z.mul_1_r|].
  rewrite IH, Nat2Z.inj_succ, Z.pow_succ_r by lia. lia.
Qed.

(** The step before the ceiling. *)
Definition backoff_step (attempt : Z) : Z := second * 2 ^ (Z.min (Z.max attempt 1 - 1) 10).
Lemma httpRetryBackoff_step attempt ceiling :
  httpRetryBackoff attempt ceiling =
  if (0 <? ceiling) && (ceiling <? backoff_step attempt) then ceiling else backoff_step attempt.
Proof.
  unfold httpRetryBackoff, backoff_step. rewrite double_pow, Z2Nat.id.
  - destruct (Z.ltb_spec attempt 1) as [Ha|Ha].
    + replace (Z.min (Z.max attempt 1 - 1) 10) with 0 by lia. done.
    + destruct (Z.ltb_spec 10 (attempt - 1)) as [Hb|Hb].
      * by replace (Z.min (Z.max attempt 1 - 1) 10) with 10 by lia.
      * by replace (Z.min (Z.max attempt 1 - 1) 10) with (attempt - 1) by lia.
  - destruct (Z.ltb_spec attempt 1); case_if; lia.
Qed.
Lemma backoff_step_bounds attempt : second ≤ backoff_step attempt ≤ second * 1024.
Proof.
  unfold backoff_step. set (k := Z.min _ _). assert (0 ≤ k ≤ 10) as Hk by lia.
  pose proof (Z.pow_le_mono_r 2 0 k ltac:(lia) ltac:(lia)) as Hlo.
  pose proof (Z.pow_le_mono_r 2 k 10 ltac:(lia) ltac:(lia)) as Hhi.
  change (2 ^ 0) with 1 in Hlo. change (2 ^ 10) with 1024 in Hhi. unfold second. lia.
Qed.
Lemma backoff_step_mono a b : a ≤ b → backoff_step a ≤ backoff_step b.
Proof.
  intros Hab. unfold backoff_step. apply Z.mul_le_mono_nonneg_l; [unfold second; lia|].
  apply Z.pow_le_mono_r; lia.
Qed.

(** The number a string of decimal digits denotes. *)
Fixpoint decimal (acc : Z) (s : string) : Z :=
  match s with
  | "" => acc
  | String a s' => decimal (acc * 10 + (Z.of_nat (nat_of_ascii a) - 48)) s'
  end.
Definition parse_int (s : string) : Z :=
  match s with
  | String "-" s' => - decimal 0 s'
  | _ => decimal 0 s
  end.

Lemma decimal_digit acc d s : 0 ≤ d < 10 → decimal acc (String (digit d) s) = decimal (acc * 10 + d) s.
Proof.
  intros Hd. cbn [decimal]. unfold digit, byte. rewrite nat_ascii_embedding; [|lia]. f_equal. lia.
Qed.
Lemma itoa_loop_decimal fuel n buf :
  0 ≤ n < 10 ^ Z.of_nat fuel → decimal 0 (itoa_loop fuel n buf) = decimal n buf.
Proof.
  revert n buf. induction fuel as [|f IH]; intros n buf Hn.
  { change (10 ^ Z.of_nat 0) with 1 in Hn. by replace n with 0 by lia. }
  cbn [itoa_loop]. destruct (Z.ltb_spec 0 n) as [Hp|Hp]; [|by replace n with 0 by lia].
  pose proof (Z.mod_pos_bound n 10 ltac:(lia)). rewrite IH.
  - rewrite decimal_digit by done. by rewrite Z.mul_comm, <- Z.div_mod by lia.
  - rewrite Nat2Z.inj_succ, Z.pow_succ_r in Hn by lia. split; [apply Z.div_pos; lia|].
    apply Z.div_lt_upper_bound; lia.
Qed.
Lemma itoa_loop_length fuel n k buf :
  0 ≤ n < 10 ^ Z.of_nat k → (String.length (itoa_loop fuel n buf) ≤ String.length buf + k)%nat.
Proof.
  revert n k buf. induction fuel as [|f IH]; intros n k buf Hn; cbn [itoa_loop]; [lia|].
  destruct (Z.ltb_spec 0 n) as [Hp|Hp]; [|lia]. destruct k as [|k]; [change (10 ^ Z.of_nat 0) with 1 in Hn; lia|].
  eapply Nat.le_trans; [apply (IH _ k)|cbn; lia].
  rewrite Nat2Z.inj_succ, Z.pow_succ_r in Hn by lia. split; [apply Z.div_pos; lia|].
  apply Z.div_lt_upper_bound; lia.
Qed.
(** The first byte a positive number is printed with is a digit. *)
Lemma itoa_loop_head fuel n buf :
  0 < n → fuel ≠ 0%nat → ∃ d s, 0 ≤ d < 10 ∧ itoa_loop fuel n buf = String (digit d) s.
Proof.
  revert n buf. induction fuel as [|f IH]; intros n buf Hn Hf; [done|]. cbn [itoa_loop].
  rewrite (proj2 (Z.ltb_lt 0 n)) by done. pose proof (Z.mod_pos_bound n 10 ltac:(lia)) as Hm.
  destruct f as [|f]; [by eexists _, _|]. destruct (decide (0 < n / 10)) as [Hd|Hd].
  - by apply IH.
  - exists (n mod 10), buf. split; [done|]. cbn [itoa_loop]. by rewrite (proj2 (Z.ltb_ge 0 (n / 10))) by lia.
Qed.
Lemma parse_int_digit d s : 0 ≤ d < 10 → parse_int (String (digit d) s) = decimal 0 (String (digit d) s).
Proof.
  intros Hd. assert (∃ k, (k < 10)%nat ∧ digit d = byte (48 + k)) as (k & Hk & ->).
  { exists (Z.to_nat d). split; [lia|done]. }
  do 10 (destruct k as [|k]; [done|]). lia.
Qed.

(** ** Properties *)

(** The classifier is sound.  Every failure gets one of the three classes;
    a remediation is named exactly with the repairable class, and only when its
    trigger is present; a plain retry is decided only for an idle time-out, an
    out-of-memory kill, a segmentation fault, a late kill, or the first
    unclassified failure; a rejected request, an exhausted supervisor or a
    resource limit is never retried. *)
Theorem classification_is_sound (K : Causes) (ev : FailureEvent) (xe : ExitError) (c : Classification)
    (Hexit : Exit ev = Some xe) (Hc : Classify K (Some ev) = c) :
  cl_Class c ≠ ClassUnknown ∧
  (cl_Class c = ClassConfigPermissions ↔ cl_Remediation c ≠ RemediationNone) ∧
  (cl_Remediation c = RemediationRepopulateSandbox → Code xe ≠ 0 ∧ Missing (SandboxDirState ev) = true) ∧
  (cl_Remediation c = RemediationRefreshMCPTransport → Code xe ≠ 0 ∧ Down (MCPTransport ev) = true) ∧
  (cl_Remediation c = RemediationRefreshCredentials → isAuthFailure (StderrTail ev) = true) ∧
  (cl_Remediation c = RemediationRegenerateCLAUDEMD → Cause xe = CauseWatchdogKill K) ∧
  (cl_Class c = ClassTransient →
     Cause xe = CauseIdleTimeout K ∨ Cause xe = CauseOOMKill K ∨ Signal xe = 11 ∨
     (Signal xe = 9 ∧ 5 * second ≤ SessionAge ev) ∨ (Code xe ≠ 0 ∧ Attempt ev < 2)) ∧
  (Cause xe = CauseHTTPRequestRejected → cl_Class c = ClassPermanent).
Proof.
  subst c. unfold Classify. rewrite Hexit. unfold youngSessionThreshold, second.
  repeat case_if; b2p; cbn -[Z.mul]; split_and!; try done; intros; try tauto; try lia.
Qed.

(** The back-off before an HTTP retry: never shorter than a second (or the
    ceiling, when that is smaller), never longer than the ceiling or 1024
    seconds, so far inside the range of a 64-bit duration, and never shorter on
    a later attempt. *)
Theorem http_backoff_bounds (attempt attempt' ceiling : Z) (Hle : attempt ≤ attempt') :
  let d := httpRetryBackoff attempt ceiling in
  (0 < ceiling → Z.min second ceiling ≤ d ≤ ceiling) ∧
  (ceiling ≤ 0 → second ≤ d) ∧
  0 < d ≤ 1024 * second ∧ d < 2 ^ 63 ∧
  d ≤ httpRetryBackoff attempt' ceiling.
Proof.
  cbv zeta. rewrite !httpRetryBackoff_step.
  pose proof (backoff_step_bounds attempt). pose proof (backoff_step_bounds attempt').
  pose proof (backoff_step_mono _ _ Hle). unfold second in *.
  destruct (Z.ltb_spec 0 ceiling), (Z.ltb_spec ceiling (backoff_step attempt)),
    (Z.ltb_spec ceiling (backoff_step attempt')); cbn -[Z.pow Z.mul] in *; split_and!; intros; try lia.
Qed.

(** [itoa] prints its number: for every 64-bit integer but the least one, the
    decimal string it returns denotes the number and fits the 20-byte buffer. *)
Theorem itoa_prints_number (n : Z) (Hn : - 2 ^ 63 < n < 2 ^ 63) :
  parse_int (itoa n) = n ∧ (String.length (itoa n) ≤ 20)%nat.
Proof.
  unfold itoa. destruct (Z.eqb_spec n 0) as [->|Hz]; [by split; [|cbn; lia]|].
  assert (∀ m, 0 < m < 2 ^ 63 → decimal 0 (itoa_loop 20 m "") = m ∧ (String.length (itoa_loop 20 m "") ≤ 19)%nat ∧
    parse_int (itoa_loop 20 m "") = m) as Hpos.
  { intros m Hm. assert (decimal 0 (itoa_loop 20 m "") = m) as Hd.
    { rewrite itoa_loop_decimal; [done|]. change (10 ^ Z.of_nat 20) with 100000000000000000000. lia. }
    split_and!; [done| |].
    - apply (itoa_loop_length 20 m 19 ""). change (10 ^ Z.of_nat 19) with 10000000000000000000. lia.
    - destruct (itoa_loop_head 20 m "" ltac:(lia) ltac:(done)) as (d & s & Hdd & He).
      rewrite He in *. by rewrite parse_int_digit. }
  destruct (Z.ltb_spec n 0) as [Hneg|Hge].
  - unfold neg64. rewrite (proj2 (Z.eqb_neq n (- 2 ^ 63))) by lia.
    destruct (Hpos (- n) ltac:(lia)) as (Hd & Hl & _). rewrite str_app_cons. cbn [parse_int String.length].
    change ("" +:+ ?s) with s. rewrite Hd. split; lia.
  - destruct (Hpos n ltac:(lia)) as (_ & Hl & Hp). split; [done|lia].
Qed.

(** ** Witnesses *)

Definition demo_causes : Causes :=
  mkCauses "idle_timeout" "watchdog_kill" "oom_kill" "restart_exhausted" "resource_limit".
Definition demo_exit (cause : string) (code signal : Z) : ExitError := mkExitError cause code signal.
Definition demo_event (xe : ExitError) (attempt : Z) (stderr : string) : FailureEvent :=
  mkFailureEvent "s1" "coder" "claude" "long_lived" attempt (Some xe) 0 stderr zeroSandbox zeroMCP [] "" "/w" 0
    (10 * second).

(** An idle time-out, an out-of-memory kill, a crash and a late kill stay
    transient on every attempt: only the hard cap ends their retries. *)
Example transient_on_every_attempt (n : Z) :
  cl_Class (Classify demo_causes (Some (demo_event (demo_exit "idle_timeout" 1 0) n ""))) = ClassTransient ∧
  cl_Class (Classify demo_causes (Some (demo_event (demo_exit "" 1 11) n ""))) = ClassTransient.
Proof. split; reflexivity. Qed.

Lemma classification_is_sound_witness :
  cl_Class (Classify demo_causes (Some (demo_event (demo_exit "" 1 0) 1 "HTTP 401"))) ≠ ClassUnknown.
Proof.
  apply (proj1 (classification_is_sound demo_causes (demo_event (demo_exit "" 1 0) 1 "HTTP 401")
                  (demo_exit "" 1 0) _ eq_refl eq_refl)).
Defined.
Lemma http_backoff_bounds_witness : httpRetryBackoff 3 (10 * second) ≤ httpRetryBackoff 5 (10 * second).
Proof.
  destruct (http_backoff_bounds 3 5 (10 * second) ltac:(lia)) as (_ & _ & _ & _ & Hd). exact Hd.
Defined.
Lemma itoa_prints_number_witness : parse_int (itoa (-1205)) = -1205.
Proof. apply (itoa_prints_number (-1205)). lia. Defined.
