(* ===== verification/RecoveryBroker.v ===== *)
(** * The recovery broker: what it does (internal/recovery/broker)

    [orchestration.go], [remediator.go] and the stateful half of [broker.go]:
    the calls of the broker as programs over its atomic operations, and the
    system of any number of such calls running concurrently with the callers
    that cancel retries, clear sessions and install hooks.

    A program ([cmd]) is a tree of operations.  Each operation is one step: a
    section of the code under [Broker.mu], or one call of a dependency, which may
    answer anything.  So the steps of different goroutines interleave exactly at
    the places where the code holds no lock.  Every step is recorded in the
    system's log, and the theorems are about the log of an arbitrary run.

    A call is checked against a protocol ([trans]): what it may do next, given
    what it has done.  [OnSessionExit] is shown once to follow it, whatever its
    calls answer ([exit_follows]), and the theorems about runs are theorems about
    the protocol.

    Theorems: the retry budget under every interleaving, who can cancel a retry,
    that no retry entry outlives its call, that breadcrumbs tell the truth, that
    a provider without a boot directory is never booted, and that every call
    ends. *)

From S2P Require Import Prelude GoStrings Recovery.

Open Scope string_scope.
Open Scope Z_scope.

(** ** Data *)

(** [agent.Options], as [DispatchRetry] fills it in. *)
Record Options := mkOptions {
  opt_Mode : SessionMode;
  opt_SessionID : string;
  opt_AgentProfile : string;
  opt_ParentSessionID : string;
  opt_Workdir : string;
  opt_Provider : string;
}.

(** The dynamic types the broker expects in the [meta] bag of an exit. *)
Inductive MetaVal :=
| MString (s : string)
| MSandbox (s : SandboxState)
| MMCP (s : MCPState)
| MStrings (l : list string)
| MDuration (d : Z)
| MInt (n : Z)
| MOther.

(** What is fixed when the broker is built: [Dependencies] (which of them are
    wired), the limits, the library's causes and the provider registry. *)
Record Config := mkConfig {
  maxRetries : Z;
  remediationTimeout : Z;
  has_AgentBoot : bool;
  has_BootDir : bool;
  has_MCP : bool;
  has_Credentials : bool;
  has_Store : bool;
  has_Envelope : bool;
  causes : Causes;
  lookup_provider : string → option string;
}.

(** [NewBroker]'s defaults with [WithMaxRetries] and [WithRemediationTimeout]. *)
Definition WithMaxRetries (n : Z) : Z := if n <? 0 then 0 else n.
Definition WithRemediationTimeout (old d : Z) : Z := if 0 <? d then d else old.

(** ** Operations *)

(** One step each.  An error is the text of its message. *)
Inductive op :=
| OBump (sid : string)                    (** [stateForLocked], [attemptCount++], under the lock *)
| OClear (sid : string)                   (** [clearState] *)
| OToken                                  (** [newCancelToken] *)
| ORegister (sid tok : string)            (** [registerActiveRetry] *)
| OUnregister (tok : string)              (** [unregisterActiveRetry] *)
| OCancelCtx                              (** the deferred [cancel()] *)
| OCtxErr                                 (** [ctx.Err() != nil] *)
| ONow                                    (** [time.Now] *)
| OEmit (sid : string) (env : Envelope)   (** [EnvelopeSink.Emit] *)
| ORemedy (r : Remediation) (arg : string) (** a method of [BootDirOps], [MCPControl], [CredentialOps] *)
| OHTTPRetryDep                           (** [httpRetryDep() != nil] *)
| OBackoff (wait : Z)                     (** the [select] on the timer and the context *)
| OHTTPRetry (ev : FailureEvent)          (** [HTTPRetry.Retry] *)
| OMark (sid reason : string)             (** [BrokerStore.MarkRuntimeRelaunching] *)
| OBoot (opts : Options)                  (** [AgentBoot.Boot] *)
| OHook                                   (** [replacementHook != nil], under the lock *)
| OAdopt (sid : string) (sess : nat)      (** the hook *)
| OCrumb (b : Breadcrumb).                (** [BrokerStore.WriteBreadcrumb] *)

Definition resp (o : op) : Type :=
  match o with
  | OBump _ | ONow => Z
  | OToken => string
  | OCtxErr | OEmit _ _ | OHTTPRetryDep | OHook => bool
  | ORemedy _ _ | OBackoff _ | OHTTPRetry _ | OMark _ _ => option string
  | OBoot _ => result string (option nat)
  | _ => unit
  end.

Inductive cmd (A : Type) : Type :=
| Ret (a : A)
| Vis (o : op) (k : resp o → cmd A).
Arguments Ret {A} a.
Arguments Vis {A} o k.

Fixpoint cmd_then {A B} (m : cmd A) (f : A → cmd B) : cmd B :=
  match m with
  | Ret a => f a
  | Vis o k => Vis o (λ r, cmd_then (k r) f)
  end.
#[global] Instance cmd_ret : MRet cmd := @Ret.
#[global] Instance cmd_bind : MBind cmd := λ A B f m, cmd_then m f.
Definition call (o : op) : cmd (resp o) := Vis o Ret.

(** ** The broker's calls *)

(** [metaString] and [buildFailureEvent]. *)
Definition metaString (meta : gmap string MetaVal) (key : string) : option string :=
  match meta !! key with Some (MString s) => Some s | _ => None end.
Definition buildFailureEvent (sid : string) (exit : ExitError) (meta : gmap string MetaVal) (attempt : Z) :
    cmd FailureEvent :=
  t ← call ONow;
  let str key := default "" (metaString meta key) in
  Ret (mkFailureEvent sid (str "agent_profile") (str "provider") (str "mode") attempt (Some exit)
    (match meta !! "last_turn_pos" with Some (MInt n) => n | _ => 0 end)
    (str "stderr_tail")
    (match meta !! "sandbox_state" with Some (MSandbox s) => s | _ => zeroSandbox end)
    (match meta !! "mcp_state" with Some (MMCP s) => s | _ => zeroMCP end)
    (match meta !! "path_grants" with Some (MStrings l) => l | _ => [] end)
    (str "lineage_of") (str "workdir") t
    (match meta !! "session_age" with Some (MDuration d) => d | _ => 0 end)).

Section Broker.
Context (C : Config).

(** [writeBreadcrumb] and [recordOutcome]: a failed write is only logged. *)
Definition writeBreadcrumb (b : Breadcrumb) : cmd unit :=
  if has_Store C then call (OCrumb b) else Ret tt.
Definition recordOutcome (ev : FailureEvent) (c : Classification) (action : Action) (outcome : Outcome)
    (started : Z) : cmd unit :=
  t ← call ONow;
  t' ← call ONow;
  writeBreadcrumb (mkBreadcrumb t (ev_SessionID ev) (cl_Class c) (cause_of ev) (cl_Remediation c) action
    outcome (Attempt ev) (t' - started) (cl_Reason c)).

(** [emitEnvelope]: without a sink the message is dropped. *)
Definition emitEnvelope (sid : string) (env : Envelope) : cmd bool :=
  if has_Envelope C then call (OEmit sid env) else Ret true.

(** [RenderUserMessage]. *)
Definition RenderUserMessage (ev : FailureEvent) (c : Classification) (action : Action) : cmd Envelope :=
  match action with
  | ActionRetryTransient =>
      tok ← call OToken;
      Ret (mkEnvelope envelopeKindInfoCard "Reconnecting agent" (transientRetryMessage (causes C) ev) tok
             severityInfo)
  | ActionRetryConfigFixed =>
      tok ← call OToken;
      Ret (mkEnvelope envelopeKindInfoCard "Fixed an agent issue" (configFixedMessage c) tok severityInfo)
  | ActionPermanentFailure => Ret (permanentEnvelope (causes C) ev c)
  | ActionUnknown =>
      Ret (mkEnvelope envelopeKindErrorReport "Recovery error"
             "Internal recovery state error — broker reached an unknown action." "" severityError)
  end.

(** [escalatePermanent]. *)
Definition escalatePermanent (ev : FailureEvent) (c : Classification) (started : Z) : cmd unit :=
  _ ← (if bool_decide (cause_of ev = CauseHTTPRequestRejected) then Ret true
       else
         env ← RenderUserMessage ev c ActionPermanentFailure;
         emitEnvelope (ev_SessionID ev) env);
  _ ← recordOutcome ev c ActionPermanentFailure OutcomePermanent started;
  call (OClear (ev_SessionID ev)).

(** [Remediate]. *)
Definition Remediate (ev : FailureEvent) (c : Classification) : cmd (option string) :=
  let wired (b : bool) (name : string) (arg : string) : cmd (option string) :=
    if b then call (ORemedy (cl_Remediation c) arg)
    else Ret (Some ("broker.Remediate: " +:+ name +:+ " not wired")) in
  match cl_Remediation c with
  | RemediationNone => Ret None
  | RemediationRepopulateSandbox => wired (has_BootDir C) "BootDir" (ev_SessionID ev)
  | RemediationRefreshMCPTransport => wired (has_MCP C) "MCP" (ev_SessionID ev)
  | RemediationRefreshCredentials => wired (has_Credentials C) "Credentials" (ev_AgentProfile ev)
  | RemediationRegenerateCLAUDEMD => wired (has_BootDir C) "BootDir" (ev_SessionID ev)
  end.

(** [dispatchHTTPRetry] and [DispatchRetry]. *)
Definition dispatchHTTPRetry (ev : FailureEvent) : cmd (option string) :=
  wired ← call OHTTPRetryDep;
  if negb wired then Ret (Some "recovery: HTTPRetry not wired in Dependencies")
  else
    let wait := httpRetryBackoff (Attempt ev) (remediationTimeout C) in
    waited ← (if 0 <? wait then call (OBackoff wait) else Ret None);
    match waited with
    | Some err => Ret (Some err)
    | None => call (OHTTPRetry ev)
    end.
Definition DispatchRetry (ev : FailureEvent) : cmd (result string (option nat)) :=
  if negb (HasBootdirLayout (lookup_provider C) (ev_Provider ev)) then
    e ← dispatchHTTPRetry ev;
    Ret (match e with Some err => Err err | None => Ok None end)
  else if negb (has_AgentBoot C) then Ret (Err "recovery: AgentBoot not wired in Dependencies")
  else
    marked ← (if has_Store C
              then call (OMark (ev_SessionID ev) ("broker retry attempt " +:+ itoa (Attempt ev)))
              else Ret None);
    match marked with
    | Some err => Ret (Err err)
    | None =>
        call (OBoot (mkOptions (parseMode (ev_Mode ev)) (ev_SessionID ev) (ev_AgentProfile ev) (LineageOf ev)
                       (ev_Workdir ev) (ev_Provider ev)))
    end.

(** [notifyReplacement]: a panic of the hook is recovered. *)
Definition notifyReplacement (sid : string) (sess : option nat) : cmd unit :=
  match sess with
  | None => Ret tt
  | Some n =>
      hook ← call OHook;
      if (hook : bool) then call (OAdopt sid n) else Ret tt
  end.

(** [registerActiveRetry] and [unregisterActiveRetry] skip an empty token; the
    deferred [cancel] runs before the deferred [unregisterActiveRetry]. *)
Definition with_active_retry (sid tok : string) (body : cmd unit) : cmd unit :=
  _ ← (if bool_decide (tok = "") then Ret tt else call (ORegister sid tok));
  _ ← body;
  _ ← call OCancelCtx;
  if bool_decide (tok = "") then Ret tt else call (OUnregister tok).

(** [runConfigFixedRetry] and [runTransientRetry]. *)
Definition permanent (reason : string) (r : Remediation) : Classification :=
  mkClassification ClassPermanent reason r.
Definition runConfigFixedRetry (ev : FailureEvent) (c : Classification) (started : Z) : cmd unit :=
  env ← RenderUserMessage ev c ActionRetryConfigFixed;
  with_active_retry (ev_SessionID ev) (CancelToken env) (
    _ ← emitEnvelope (ev_SessionID ev) env;
    remedied ← Remediate ev c;
    match remedied with
    | Some err =>
        escalatePermanent ev (permanent ("remediation " +:+ remediation_String (cl_Remediation c) +:+
          " failed: " +:+ err) (cl_Remediation c)) started
    | None =>
        canceled ← call OCtxErr;
        if (canceled : bool) then recordOutcome ev c ActionRetryConfigFixed OutcomeCanceled started
        else
          sent ← DispatchRetry ev;
          match sent with
          | Err err =>
              escalatePermanent ev (permanent ("retry dispatch failed after remediation: " +:+ err)
                (cl_Remediation c)) started
          | Ok sess =>
              _ ← notifyReplacement (ev_SessionID ev) sess;
              recordOutcome ev c ActionRetryConfigFixed OutcomeRemediated started
          end
    end).
Definition runTransientRetry (ev : FailureEvent) (c : Classification) (started : Z) : cmd unit :=
  env ← RenderUserMessage ev c ActionRetryTransient;
  with_active_retry (ev_SessionID ev) (CancelToken env) (
    _ ← emitEnvelope (ev_SessionID ev) env;
    canceled ← call OCtxErr;
    if (canceled : bool) then recordOutcome ev c ActionRetryTransient OutcomeCanceled started
    else
      sent ← DispatchRetry ev;
      match sent with
      | Err err =>
          escalatePermanent ev (permanent ("retry dispatch failed: " +:+ err) RemediationNone) started
      | Ok sess =>
          _ ← notifyReplacement (ev_SessionID ev) sess;
          recordOutcome ev c ActionRetryTransient OutcomeTransientRetrySucceeded started
      end).

(** [OnSessionExit]. *)
Definition OnSessionExit (sid : string) (exit : option ExitError) (meta : gmap string MetaVal) : cmd unit :=
  match exit with
  | None => Ret tt
  | Some exit =>
      attempt ← call (OBump sid);
      ev ← buildFailureEvent sid exit meta attempt;
      started ← call ONow;
      if maxRetries C <? attempt then
        escalatePermanent ev (permanent ("broker hard cap (" +:+ itoa (maxRetries C) +:+
          " attempts) exhausted") RemediationNone) started
      else
        let classification := Classify (causes C) (Some ev) in
        match cl_Class classification with
        | ClassPermanent => escalatePermanent ev classification started
        | ClassConfigPermissions => runConfigFixedRetry ev classification started
        | ClassTransient => runTransientRetry ev classification started
        | ClassUnknown =>
            escalatePermanent ev (permanent "classifier returned unknown class" RemediationNone) started
        end
  end.

(** [OnRestart]: observe, do not dispatch. *)
Definition OnRestart (sid : string) (attempt : Z) (prevExit : option ExitError) : cmd unit :=
  t ← call ONow;
  writeBreadcrumb (mkBreadcrumb t sid ClassTransient (match prevExit with Some x => Cause x | None => "" end)
    RemediationNone ActionRetryTransient OutcomeUnknown attempt 0 "lib-level restart attempt").

(** ** The system *)

Inductive request :=
| CExit (sid : string) (exit : option ExitError) (meta : gmap string MetaVal)
| CRestart (sid : string) (attempt : Z) (prevExit : option ExitError).
Definition program (q : request) : cmd unit :=
  match q with
  | CExit sid exit meta => OnSessionExit sid exit meta
  | CRestart sid attempt prevExit => OnRestart sid attempt prevExit
  end.
Definition session_of (q : request) : string :=
  match q with CExit sid _ _ => sid | CRestart sid _ _ => sid end.

(** What happened, oldest first. *)
Inductive entry :=
| ECall (tid : nat) (q : request)
| EOp (tid : nat) (o : op) (r : resp o)
| ECancel (sid tok : string) (victim : option nat)   (** [Broker.Cancel]: whom it canceled *)
| ECancelRetry (tok : string) (victim : option nat)  (** [Broker.CancelRetry] *)
| EClearSession (sid : string).

(** The fields of [Broker] that change, the contexts that are canceled, the
    calls in flight (finished ones stay, as [Ret]) and the history. *)
Record Sys := mkSys {
  stateBySession : gmap string Z;
  activeRetries : gmap string (string * nat);
  replacementHook : bool;
  httpRetry : bool;
  canceled : gset nat;
  threads : gmap nat (cmd unit);
  log : list entry;
}.

Definition init (hook http : bool) : Sys := mkSys ∅ ∅ hook http ∅ ∅ [].

Definition attempts (s : Sys) (sid : string) : Z := default 0 (stateBySession s !! sid).

(** The answers an operation of call [tid] can get. *)
Definition answers (s : Sys) (tid : nat) (o : op) : resp o → Prop :=
  match o with
  | OBump sid => λ r, r = attempts s sid + 1
  | OCtxErr => λ r, r = bool_decide (tid ∈ canceled s)
  | OBackoff _ => λ r, r ≠ None → tid ∈ canceled s
  | OHTTPRetryDep => λ r, r = httpRetry s
  | OHook => λ r, r = replacementHook s
  | _ => λ _, True
  end.

(** What it does to the broker. *)
Definition effect (s : Sys) (tid : nat) (o : op) (r : resp o) (k : cmd unit) : Sys :=
  let st := match o with
            | OBump sid => <[sid := attempts s sid + 1]> (stateBySession s)
            | OClear sid => delete sid (stateBySession s)
            | _ => stateBySession s
            end in
  let ar := match o with
            | ORegister sid tok => <[tok := (sid, tid)]> (activeRetries s)
            | OUnregister tok => delete tok (activeRetries s)
            | _ => activeRetries s
            end in
  let ca := match o with OCancelCtx => {[tid]} ∪ canceled s | _ => canceled s end in
  mkSys st ar (replacementHook s) (httpRetry s) ca (<[tid := k]> (threads s)) (log s ++ [EOp tid o r])%list.

(** [Broker.Cancel]: only the session the token was issued for. *)
Definition Cancel (s : Sys) (sid tok : string) : bool * Sys :=
  let silent := mkSys (stateBySession s) (activeRetries s) (replacementHook s) (httpRetry s) (canceled s)
                  (threads s) (log s ++ [ECancel sid tok None])%list in
  if bool_decide (sid = "") || bool_decide (tok = "") then (false, silent)
  else match activeRetries s !! tok with
       | None => (false, silent)
       | Some (owner, tid) =>
           if negb (bool_decide (owner = sid)) then (false, silent)
           else (true, mkSys (stateBySession s) (delete tok (activeRetries s)) (replacementHook s)
                   (httpRetry s) ({[tid]} ∪ canceled s) (threads s)
                   (log s ++ [ECancel sid tok (Some tid)])%list)
       end.
(** [Broker.CancelRetry]. *)
Definition CancelRetry (s : Sys) (tok : string) : Sys :=
  match (if bool_decide (tok = "") then None else activeRetries s !! tok) with
  | None => mkSys (stateBySession s) (activeRetries s) (replacementHook s) (httpRetry s) (canceled s)
              (threads s) (log s ++ [ECancelRetry tok None])%list
  | Some (_, tid) =>
      mkSys (stateBySession s) (delete tok (activeRetries s)) (replacementHook s) (httpRetry s)
        ({[tid]} ∪ canceled s) (threads s) (log s ++ [ECancelRetry tok (Some tid)])%list
  end.
(** [Broker.ClearSession]. *)
Definition ClearSession (s : Sys) (sid : string) : Sys :=
  mkSys (delete sid (stateBySession s)) (activeRetries s) (replacementHook s) (httpRetry s) (canceled s)
    (threads s) (log s ++ [EClearSession sid])%list.
(** [SetReplacementSessionHook] and [SetHTTPRetry]. *)
Definition SetReplacementSessionHook (s : Sys) (b : bool) : Sys :=
  mkSys (stateBySession s) (activeRetries s) b (httpRetry s) (canceled s) (threads s) (log s).
Definition SetHTTPRetry (s : Sys) (b : bool) : Sys :=
  mkSys (stateBySession s) (activeRetries s) (replacementHook s) b (canceled s) (threads s) (log s).
(** A goroutine enters the broker. *)
Definition enter (s : Sys) (tid : nat) (q : request) : Sys :=
  mkSys (stateBySession s) (activeRetries s) (replacementHook s) (httpRetry s) (canceled s)
    (<[tid := program q]> (threads s)) (log s ++ [ECall tid q])%list.

Inductive step : Sys → Sys → Prop :=
| step_enter s tid q : threads s !! tid = None → step s (enter s tid q)
| step_op s tid o r k :
    threads s !! tid = Some (Vis o k) → answers s tid o r → step s (effect s tid o r (k r))
| step_cancel s sid tok : step s (Cancel s sid tok).2
| step_cancel_retry s tok : step s (CancelRetry s tok)
| step_clear s sid : step s (ClearSession s sid)
| step_hook s b : step s (SetReplacementSessionHook s b)
| step_http s b : step s (SetHTTPRetry s b).

Definition reachable (s : Sys) : Prop := ∃ hook http, rtc step (init hook http) s.
Definition finished (s : Sys) (tid : nat) : Prop := threads s !! tid = Some (Ret tt).

(** ** The protocol of a call *)

(** What a call has done so far. *)
Record ghost := mkGhost {
  g_attempt : option Z;       (** its number, once counted *)
  g_token : option string;    (** its registered cancel token *)
  g_remedied : bool;          (** a remediation succeeded *)
  g_saw_cancel : bool;        (** it saw its context canceled *)
  g_marked : bool;            (** the runtime row was marked *)
  g_tried : bool;             (** a replacement was dispatched *)
  g_sent : bool;              (** ... successfully *)
  g_crumb : option Outcome;   (** the outcome it recorded *)
}.
Definition fresh_ghost : ghost := mkGhost None None false false false false false None.

Definition allow {A} (P : Prop) `{Decision P} (x : A) : option A := if bool_decide P then Some x else None.
Lemma allow_Some {A} (P : Prop) `{Decision P} (x y : A) : allow P x = Some y ↔ P ∧ y = x.
Proof. unfold allow. case_bool_decide; naive_solver. Qed.

Definition is_exit (q : request) : bool := match q with CExit _ (Some _) _ => true | _ => false end.

(** A breadcrumb's outcome agrees with what was done. *)
Definition outcome_ok (γ : ghost) (o : Outcome) : bool :=
  match o with
  | OutcomeRemediated => g_sent γ && g_remedied γ
  | OutcomeTransientRetrySucceeded => g_sent γ
  | OutcomePermanent => negb (g_sent γ)
  | OutcomeCanceled => g_saw_cancel γ && negb (g_tried γ)
  | OutcomeUnknown => false
  end.
Definition may_dispatch (γ : ghost) : Prop :=
  g_tried γ = false ∧ g_crumb γ = None ∧ match g_attempt γ with Some a => 1 ≤ a ≤ maxRetries C | None => False end.
#[local] Instance may_dispatch_dec γ : Decision (may_dispatch γ).
Proof. unfold may_dispatch. destruct (g_attempt γ); apply _. Defined.
Definition layout (provider : string) : bool := HasBootdirLayout (lookup_provider C) provider.

Definition set_attempt γ a := mkGhost (Some a) (g_token γ) (g_remedied γ) (g_saw_cancel γ) (g_marked γ) (g_tried γ) (g_sent γ) (g_crumb γ).
Definition set_token γ t := mkGhost (g_attempt γ) t (g_remedied γ) (g_saw_cancel γ) (g_marked γ) (g_tried γ) (g_sent γ) (g_crumb γ).
Definition set_remedied γ b := mkGhost (g_attempt γ) (g_token γ) b (g_saw_cancel γ) (g_marked γ) (g_tried γ) (g_sent γ) (g_crumb γ).
Definition set_saw γ b := mkGhost (g_attempt γ) (g_token γ) (g_remedied γ) b (g_marked γ) (g_tried γ) (g_sent γ) (g_crumb γ).
Definition set_marked γ b := mkGhost (g_attempt γ) (g_token γ) (g_remedied γ) (g_saw_cancel γ) b (g_tried γ) (g_sent γ) (g_crumb γ).
Definition set_sent γ b := mkGhost (g_attempt γ) (g_token γ) (g_remedied γ) (g_saw_cancel γ) (g_marked γ) true b (g_crumb γ).
Definition set_crumb γ o := mkGhost (g_attempt γ) (g_token γ) (g_remedied γ) (g_saw_cancel γ) (g_marked γ) (g_tried γ) (g_sent γ) (Some o).

(** The next operation a call may make, and what it then has done. *)
Definition trans (q : request) (γ : ghost) (o : op) : resp o → option ghost :=
  let sid := session_of q in
  match o with
  | OBump s => λ a, allow (is_exit q = true ∧ s = sid ∧ g_attempt γ = None) (set_attempt γ a)
  | OClear s => λ _, allow (s = sid ∧ g_attempt γ ≠ None ∧ (has_Store C = true → g_crumb γ = Some OutcomePermanent)) γ
  | ORegister s t => λ _, allow (s = sid ∧ g_attempt γ ≠ None ∧ g_token γ = None) (set_token γ (Some t))
  | OUnregister t => λ _, allow (g_token γ = Some t) (set_token γ None)
  | OCtxErr => λ b, Some (set_saw γ (b || g_saw_cancel γ))
  | ORemedy r _ => λ e, allow (r ≠ RemediationNone ∧ g_tried γ = false)
                          (set_remedied γ (bool_decide (e = None)))
  | OMark s _ => λ e, allow (s = sid) (set_marked γ (bool_decide (e = None)))
  | OBoot opts => λ r, allow (may_dispatch γ ∧ opt_SessionID opts = sid ∧ layout (opt_Provider opts) = true ∧
                              (has_Store C = true → g_marked γ = true)) (set_sent γ (is_ok r))
  | OHTTPRetry ev => λ e, allow (may_dispatch γ ∧ ev_SessionID ev = sid ∧ layout (ev_Provider ev) = false)
                            (set_sent γ (bool_decide (e = None)))
  | OAdopt s _ => λ _, allow (s = sid ∧ g_sent γ = true) γ
  | OCrumb b => λ _, allow (bc_SessionID b = sid ∧ g_crumb γ = None ∧
                            (is_exit q = true → g_attempt γ = Some (AttemptCount b) ∧
                                                outcome_ok γ (bc_Outcome b) = true) ∧
                            (is_exit q = false → bc_Outcome b = OutcomeUnknown))
                       (set_crumb γ (bc_Outcome b))
  | OToken | OCancelCtx | ONow | OEmit _ _ | OHTTPRetryDep | OBackoff _ | OHook => λ _, Some γ
  end.

(** A call that is over has withdrawn its token and recorded its outcome. *)
Definition final (q : request) (γ : ghost) : Prop :=
  g_token γ = None ∧
  (has_Store C = true → (is_exit q = true ∨ ∃ s a x, q = CRestart s a x) → g_crumb γ ≠ None).

Definition plausible (o : op) : resp o → Prop :=
  match o with OBump _ => λ a, 1 ≤ a | _ => λ _, True end.

(** [wp q γ m Q]: whatever its operations answer, [m] follows the protocol from
    [γ] and ends in [Q]. *)
Fixpoint wp {A} (q : request) (γ : ghost) (m : cmd A) (Q : A → ghost → Prop) : Prop :=
  match m with
  | Ret a => Q a γ
  | Vis o k => ∀ r, plausible o r → ∃ γ', trans q γ o r = Some γ' ∧ wp q γ' (k r) Q
  end.

Lemma wp_bind {A B} q γ (m : cmd A) (f : A → cmd B) Q :
  wp q γ m (λ a γ', wp q γ' (f a) Q) → wp q γ (m ≫= f) Q.
Proof.
  revert γ. induction m as [a|o k IH]; intros γ; cbn; [done|]. intros Hm r Hr.
  destruct (Hm r Hr) as (γ' & Ht & Hk). exists γ'. split; [done|]. by apply IH.
Qed.
Lemma wp_mono {A} q γ (m : cmd A) (Q Q' : A → ghost → Prop) :
  (∀ a γ', Q a γ' → Q' a γ') → wp q γ m Q → wp q γ m Q'.
Proof.
  intros HQ. revert γ. induction m as [a|o k IH]; intros γ; cbn; [apply HQ|]. intros Hm r Hr.
  destruct (Hm r Hr) as (γ' & Ht & Hk). exists γ'. split; [done|]. by apply IH.
Qed.
(** An operation the protocol leaves free. *)
Lemma wp_free {B} q γ o (k : resp o → cmd B) Q :
  (∀ r, trans q γ o r = Some γ) → (∀ r, wp q γ (k r) Q) → wp q γ (Vis o k) Q.
Proof. intros Ht Hk r _. exists γ. by split. Qed.

Lemma wp_call q γ o (Q : resp o → ghost → Prop) :
  (∀ r, plausible o r → ∃ γ', trans q γ o r = Some γ' ∧ Q r γ') → wp q γ (call o) Q.
Proof. done. Qed.

(** ** Lemmas: [OnSessionExit] follows the protocol *)

(** The call [q] is handling the failure [ev]. *)
Record handling (q : request) (ev : FailureEvent) (γ : ghost) : Prop := {
  h_exit : is_exit q = true;
  h_session : ev_SessionID ev = session_of q;
  h_attempt : g_attempt γ = Some (Attempt ev);
  h_counted : 1 ≤ Attempt ev;
}.

(** One more operation, whose guard is discharged by [tac]. *)
Ltac wp_op tac := intros ?r _; eexists; split; [apply allow_Some; split; [tac|reflexivity]|].
Ltac wp_unit tac := intros [] _; eexists; split; [apply allow_Some; split; [tac|reflexivity]|].
Ltac wp_skip := apply wp_free; [done|intros ?r].

Lemma wp_recordOutcome q γ ev c action outcome started Q :
  handling q ev γ → g_crumb γ = None → outcome_ok γ outcome = true →
  Q tt (if has_Store C then set_crumb γ outcome else γ) →
  wp q γ (recordOutcome ev c action outcome started) Q.
Proof.
  intros [He Hs Ha Hc] Hcr Ho HQ. unfold recordOutcome, call. wp_skip. wp_skip. unfold writeBreadcrumb, call.
  destruct (has_Store C); [|exact HQ]. wp_unit ltac:(cbn; rewrite He; naive_solver). exact HQ.
Qed.
Lemma wp_escalate q γ ev c started Q :
  handling q ev γ → g_crumb γ = None → g_sent γ = false →
  (∀ γ', g_token γ' = g_token γ → (has_Store C = true → g_crumb γ' ≠ None) → Q tt γ') →
  wp q γ (escalatePermanent ev c started) Q.
Proof.
  intros Hh Hcr Hsent HQ. unfold escalatePermanent. apply wp_bind.
  assert (∀ (P : bool → ghost → Prop), (∀ b, P b γ) → wp q γ (if bool_decide (cause_of ev = CauseHTTPRequestRejected)
    then Ret true else env ← RenderUserMessage ev c ActionPermanentFailure; emitEnvelope (ev_SessionID ev) env) P) as Hmsg.
  { intros P HP. case_if; [apply HP|]. cbn. unfold emitEnvelope, call. case_if; [wp_skip|]; apply HP. }
  apply Hmsg. intros _. apply wp_bind, wp_recordOutcome; [done|done|cbn; by rewrite Hsent|].
  destruct Hh as [_ Hs Ha _]. destruct (has_Store C) eqn:Hst; wp_unit ltac:(cbn; rewrite ?Hst; naive_solver);
    apply HQ; cbn; done.
Qed.

Lemma wp_Remediate q γ ev c Q :
  g_tried γ = false → cl_Remediation c ≠ RemediationNone →
  (∀ e b, (e = None → b = true) → Q e (set_remedied γ b)) →
  wp q γ (Remediate ev c) Q.
Proof.
  intros Ht Hr HQ. unfold Remediate, call.
  assert (set_remedied γ (g_remedied γ) = γ) as Hsame by (by destruct γ).
  destruct (cl_Remediation c); [done|..]; case_if;
    try (rewrite <- Hsame; by apply HQ);
    wp_op ltac:(by rewrite Ht); apply HQ; intros ->; by rewrite bool_decide_eq_true_2.
Qed.
Lemma wp_DispatchRetry q γ ev Q :
  handling q ev γ → Attempt ev ≤ maxRetries C → g_tried γ = false → g_sent γ = false → g_crumb γ = None →
  (∀ r γ', handling q ev γ' → g_token γ' = g_token γ → g_remedied γ' = g_remedied γ →
     g_crumb γ' = g_crumb γ → g_sent γ' = is_ok r → Q r γ') →
  wp q γ (DispatchRetry ev) Q.
Proof.
  intros Hh Hmax Ht Hs Hcr HQ. pose proof Hh as [He Hsid Ha Hc]. unfold DispatchRetry.
  assert (may_dispatch γ) as Hm by (split_and!; [done|done|by rewrite Ha]).
  destruct (HasBootdirLayout _ _) eqn:Hl; cbn [negb].
  - destruct (has_AgentBoot C); cbn [negb]; [|by apply HQ]. apply wp_bind.
    assert (∀ (P : option string → ghost → Prop), (∀ err, P (Some err) (set_marked γ false)) → P None (set_marked γ true) →
      (has_Store C = false → P None γ) →
      wp q γ (if has_Store C then call (OMark (ev_SessionID ev) ("broker retry attempt " +:+ itoa (Attempt ev)))
              else Ret None) P) as Hmark.
    { intros P H1 H2 H3. destruct (has_Store C); [|by apply H3]. unfold call.
      wp_op ltac:(exact Hsid). cbn. destruct r as [err|]; [apply H1|apply H2]. }
    apply Hmark.
    + intros err. by apply HQ.
    + wp_op ltac:(done). destruct r as [sess|err]; by apply HQ.
    + intros Hst. wp_op ltac:(split_and!; [done|done|done|by rewrite Hst]).
      destruct r as [sess|err]; by apply HQ.
  - apply wp_bind. unfold dispatchHTTPRetry, call. apply wp_free; [done|intros wired].
    destruct wired; cbn [negb]; [|by apply HQ]. apply wp_bind.
    assert (∀ (P : option string → ghost → Prop), (∀ e, P e γ) →
      wp q γ (if 0 <? httpRetryBackoff (Attempt ev) (remediationTimeout C)
              then Vis (OBackoff (httpRetryBackoff (Attempt ev) (remediationTimeout C))) Ret else Ret None) P) as Hb.
    { intros P HP. case_if; [wp_skip|]; apply HP. }
    apply Hb. intros [err|]; [by apply HQ|]. wp_op ltac:(done). cbn.
    destruct r as [err|]; by apply HQ.
Qed.
Lemma wp_notifyReplacement q γ sid sess Q :
  sid = session_of q → g_sent γ = true → Q tt γ → wp q γ (notifyReplacement sid sess) Q.
Proof.
  intros Hsid Hs HQ. unfold notifyReplacement, call. destruct sess as [n|]; [|done].
  apply wp_free; [done|intros hook]. destruct hook; [|done]. wp_unit ltac:(done). exact HQ.
Qed.
Lemma wp_emit q γ sid env Q : (∀ b, Q b γ) → wp q γ (emitEnvelope sid env) Q.
Proof. intros HQ. unfold emitEnvelope, call. case_if; [wp_skip|]; apply HQ. Qed.

Lemma set_token_same γ t : g_token γ = t → set_token γ t = γ.
Proof. destruct γ. by intros <-. Qed.

(** The frame of a retry: its token is withdrawn at the end. *)
Lemma wp_active_retry q γ ev tok body Q :
  handling q ev γ → g_token γ = None →
  (∀ t, wp q (set_token γ t) body (λ _ γ', g_token γ' = t ∧ Q tt (set_token γ' None))) →
  wp q γ (with_active_retry (ev_SessionID ev) tok body) Q.
Proof.
  intros [He Hsid Ha _] Ht Hbody. unfold with_active_retry. apply wp_bind.
  case_if.
  - cbn. apply wp_bind. rewrite <- (set_token_same γ None) by done. eapply wp_mono; [|apply (Hbody None)].
    intros _ γ' [Hγ HQ]. unfold call. wp_skip.
    by rewrite <- (set_token_same γ' None).
  - unfold call. wp_unit ltac:(split_and!; [done|by rewrite Ha|done]). apply wp_bind.
    eapply wp_mono; [|apply (Hbody (Some tok))].
    intros _ γ' [Hγ HQ]. wp_skip. wp_unit ltac:(exact Hγ). exact HQ.
Qed.

(** A call that is handling [ev] and has done nothing about it yet. *)
Record untouched (q : request) (ev : FailureEvent) (γ : ghost) : Prop := {
  u_handling : handling q ev γ;
  u_token : g_token γ = None;
  u_tried : g_tried γ = false;
  u_sent : g_sent γ = false;
  u_crumb : g_crumb γ = None;
}.
Definition closed (γ : ghost) : Prop := g_token γ = None ∧ (has_Store C = true → g_crumb γ ≠ None).

Lemma handling_token q ev γ t : handling q ev γ → handling q ev (set_token γ t).
Proof. by intros []. Qed.

(** What is left after a dispatch: report it. *)
Lemma wp_after_dispatch q γ ev (sent : result string (option nat)) c c' action outcome started t Q :
  handling q ev γ → g_token γ = t → g_crumb γ = None → g_sent γ = is_ok sent →
  (is_ok sent = true → outcome_ok γ outcome = true) →
  (∀ γ', g_token γ' = t → (has_Store C = true → g_crumb γ' ≠ None) → Q tt γ') →
  wp q γ (match sent with
          | Err err => escalatePermanent ev (c' err) started
          | Ok sess => _ ← notifyReplacement (ev_SessionID ev) sess; recordOutcome ev c action outcome started
          end) Q.
Proof.
  intros Hh <- Hcr Hsent Ho HQ. destruct sent as [sess|err]; [|by apply wp_escalate].
  apply wp_bind, wp_notifyReplacement; [apply (h_session _ _ _ Hh)|done|].
  apply wp_recordOutcome; [done|done|by apply Ho|].
  destruct (has_Store C); by apply HQ.
Qed.

Lemma wp_runConfigFixedRetry q γ ev c started :
  untouched q ev γ → Attempt ev ≤ maxRetries C → cl_Remediation c ≠ RemediationNone →
  wp q γ (runConfigFixedRetry ev c started) (λ _, closed).
Proof.
  intros [Hh Htok Htr Hs Hcr] Hmax Hr. unfold runConfigFixedRetry, RenderUserMessage, call.
  apply wp_bind, wp_bind, wp_free; [done|intros tok].
  apply (wp_active_retry q γ ev); [done|done|]. intros t. apply wp_bind, wp_emit. intros _.
  apply wp_bind, wp_Remediate; [done|done|]. intros e b Hb.
  assert (handling q ev (set_remedied (set_token γ t) b)) as Hh' by (by destruct Hh).
  destruct e as [err|]; [by apply wp_escalate|].
  apply wp_bind. unfold call. intros canceled _. eexists. split; [reflexivity|].
  assert (∀ x, handling q ev (set_saw (set_remedied (set_token γ t) b) x)) as Hh'' by (by destruct Hh).
  destruct canceled.
  - apply wp_recordOutcome; [done|done|cbn; by rewrite Htr|].
    unfold closed. destruct (has_Store C); by split_and!.
  - apply wp_bind, wp_DispatchRetry; [done..|]. cbn. intros r γ' Hγ Ht Hrm Hc Hsent.
    apply (wp_after_dispatch _ _ _ _ _ (λ err, permanent ("retry dispatch failed after remediation: " +:+ err)
                (cl_Remediation c)) _ _ _ t); try done.
    + by rewrite Hc.
    + intros Hok. cbn. by rewrite Hsent, Hok, Hrm, Hb.
Qed.
Lemma wp_runTransientRetry q γ ev c started :
  untouched q ev γ → Attempt ev ≤ maxRetries C →
  wp q γ (runTransientRetry ev c started) (λ _, closed).
Proof.
  intros [Hh Htok Htr Hs Hcr] Hmax. unfold runTransientRetry, RenderUserMessage, call.
  apply wp_bind, wp_bind, wp_free; [done|intros tok].
  apply (wp_active_retry q γ ev); [done|done|]. intros t. apply wp_bind, wp_emit. intros _.
  apply wp_bind. unfold call. intros canceled _. eexists. split; [reflexivity|].
  assert (∀ x, handling q ev (set_saw (set_token γ t) x)) as Hh' by (by destruct Hh).
  destruct canceled.
  - apply wp_recordOutcome; [done|done|cbn; by rewrite Htr|].
    unfold closed. destruct (has_Store C); by split_and!.
  - apply wp_bind, wp_DispatchRetry; [done..|]. cbn. intros r γ' Hγ Ht Hrm Hc Hsent.
    apply (wp_after_dispatch _ _ _ _ _ (λ err, permanent ("retry dispatch failed: " +:+ err)
                RemediationNone) _ _ _ t); try done.
    + by rewrite Hc.
    + intros Hok. cbn. by rewrite Hsent, Hok.
Qed.

Lemma Classify_remedy K ev :
  cl_Class (Classify K (Some ev)) = ClassConfigPermissions →
  cl_Remediation (Classify K (Some ev)) ≠ RemediationNone.
Proof. unfold Classify. destruct (Exit ev); [|done]. repeat (case_if; [done|]). by repeat case_if. Qed.

(** Every call of the broker follows the protocol to its end. *)
Lemma exit_follows q : wp q fresh_ghost (program q) (λ _, final q).
Proof.
  destruct q as [sid [xe|] meta|sid n x]; cbn [program].
  - unfold OnSessionExit. apply wp_bind, wp_call. intros a Ha.
    exists (set_attempt fresh_ghost a). split; [by apply allow_Some|]. apply wp_bind.
    unfold buildFailureEvent. apply wp_bind, wp_call. intros t _. eexists. split; [reflexivity|].
    change (wp ?q ?γ (Ret ?x) ?Q) with (Q x γ). cbv beta. set (ev := mkFailureEvent _ _ _ _ _ _ _ _ _ _ _ _ _ _ _).
    apply wp_bind, wp_call. intros started _. eexists. split; [reflexivity|]. set (q := CExit sid (Some xe) meta).
    assert (untouched q ev (set_attempt fresh_ghost a)) as Hu by (split; [by split|done..]).
    assert (∀ γ, closed γ → final q γ) as Hfin by (intros γ [? ?]; split; auto).
    assert (∀ c, wp q (set_attempt fresh_ghost a) (escalatePermanent ev c started) (λ _, final q)) as Hperm.
    { intros c. apply wp_escalate; try apply Hu. intros γ' Ht Hc. apply Hfin. by split; [rewrite Ht|]. }
    case_if; [apply Hperm|]. b2p. cbv zeta. destruct (cl_Class _) eqn:Hclass; try apply Hperm.
    + apply (wp_mono _ _ _ (λ _, closed)); [intros ? ?; apply Hfin|]. by apply wp_runTransientRetry.
    + apply (wp_mono _ _ _ (λ _, closed)); [intros ? ?; apply Hfin|].
      apply wp_runConfigFixedRetry; [done|done|by apply Classify_remedy].
  - split; [done|]. cbn. intros _ [?|(? & ? & ? & ?)]; done.
  - unfold OnRestart, call. apply wp_bind, wp_free; [done|intros t]. unfold writeBreadcrumb, call.
    destruct (has_Store C) eqn:Hst.
    + wp_unit ltac:(cbn; by split_and!). by split.
    + split; [done|]. by rewrite Hst.
Qed.

(** ** Lemmas: how long a call is *)

Fixpoint within {A} (n : nat) (m : cmd A) : Prop :=
  match m, n with
  | Ret _, _ => True
  | Vis _ _, O => False
  | Vis o k, S n' => ∀ r, within n' (k r)
  end.
Lemma within_mono {A} a b (m : cmd A) : (a ≤ b)%nat → within a m → within b m.
Proof.
  revert a b. induction m as [x|o k IH]; intros [|a] [|b] Hab; cbn; try done; [lia|].
  intros Hm r. apply (IH r a); [lia|done].
Qed.
Lemma within_bind {A B} a b (m : cmd A) (f : A → cmd B) :
  within a m → (∀ x, within b (f x)) → within (a + b) (m ≫= f).
Proof.
  intros Hm Hf. revert a Hm. induction m as [x|o k IH]; intros a.
  - intros _. change (Ret x ≫= f) with (f x). apply (within_mono b); [lia|apply Hf].
  - destruct a as [|a]; cbn; [done|]. intros Hm r. by apply IH.
Qed.
Lemma within_call o : within 1 (call o).
Proof. done. Qed.
Lemma within_ret {A} n (x : A) : within n (Ret x).
Proof. by destruct n. Qed.

(** Split a bound over a program text, one operation after the other. *)
Ltac within_tac :=
  repeat first
    [ apply within_ret
    | apply within_call
    | apply (within_bind 1); [|intros ?]
    | case_if
    | match goal with |- within _ (match ?x with _ => _ end) => destruct x end
    | done ].

Lemma within_recordOutcome ev c a o t : within 3 (recordOutcome ev c a o t).
Proof. unfold recordOutcome, writeBreadcrumb. within_tac. Qed.
Lemma within_emitEnvelope sid env : within 1 (emitEnvelope sid env).
Proof. unfold emitEnvelope. within_tac. Qed.
Lemma within_escalatePermanent ev c t : within 5 (escalatePermanent ev c t).
Proof.
  unfold escalatePermanent. apply (within_bind 1).
  - case_if; [done|]. apply (within_bind 0); [done|]. intros env. apply within_emitEnvelope.
  - intros _. apply (within_bind 3); [apply within_recordOutcome|done].
Qed.
Lemma within_Remediate ev c : within 1 (Remediate ev c).
Proof. unfold Remediate. within_tac. Qed.
Lemma within_DispatchRetry ev : within 3 (DispatchRetry ev).
Proof.
  unfold DispatchRetry, dispatchHTTPRetry. case_if.
  - apply (within_bind 3 0); [|done]. apply (within_bind 1 2); [done|]. intros wired. case_if; [done|].
    apply (within_bind 1 1); [case_if; done|]. by intros [|].
  - case_if; [done|]. apply (within_bind 1 2); [case_if; done|]. by intros [|].
Qed.
Lemma within_after_dispatch ev (sent : result string (option nat)) c c' a o t :
  within 5 (match sent with
            | Err err => escalatePermanent ev (c' err) t
            | Ok sess => _ ← notifyReplacement (ev_SessionID ev) sess; recordOutcome ev c a o t
            end).
Proof.
  destruct sent as [sess|err]; [|apply within_escalatePermanent].
  apply (within_bind 2 3); [|intros _; apply within_recordOutcome].
  unfold notifyReplacement. destruct sess; [|done]. apply (within_bind 1 1); [done|]. intros b. by case_if.
Qed.
Lemma within_active_retry sid tok n body : within n body → within (n + 3) (with_active_retry sid tok body).
Proof.
  intros Hb. unfold with_active_retry. replace (n + 3)%nat with (1 + (n + 2))%nat by lia.
  apply within_bind; [by case_if|]. intros _. apply within_bind; [done|]. intros _.
  apply (within_bind 1 1); [done|]. intros _. by case_if.
Qed.
Lemma within_runConfigFixedRetry ev c t : within 15 (runConfigFixedRetry ev c t).
Proof.
  unfold runConfigFixedRetry. apply (within_bind 1 14); [done|]. intros env. apply (within_active_retry _ _ 11).
  apply (within_bind 1 10); [apply within_emitEnvelope|intros _].
  apply (within_bind 1 9); [apply within_Remediate|]. intros [err|].
  - apply (within_mono 5); [lia|apply within_escalatePermanent].
  - apply (within_bind 1 8); [done|]. intros b. case_if; [apply (within_mono 3); [lia|apply within_recordOutcome]|].
    apply (within_bind 3 5); [apply within_DispatchRetry|]. intros sent.
    apply (within_after_dispatch _ _ _ (λ err, permanent ("retry dispatch failed after remediation: " +:+ err)
                (cl_Remediation c))).
Qed.
Lemma within_runTransientRetry ev c t : within 15 (runTransientRetry ev c t).
Proof.
  unfold runTransientRetry. apply (within_bind 1 14); [done|]. intros env. apply (within_active_retry _ _ 11).
  apply (within_bind 1 10); [apply within_emitEnvelope|intros _].
  apply (within_bind 1 9); [done|]. intros b. case_if; [apply (within_mono 3); [lia|apply within_recordOutcome]|].
  apply (within_mono (3 + 5)); [lia|]. apply within_bind; [apply within_DispatchRetry|]. intros sent.
  apply (within_after_dispatch _ _ _ (λ err, permanent ("retry dispatch failed: " +:+ err) RemediationNone)).
Qed.

(** The longest path of a call: count, read the clock twice, then a repair that
    is followed by a failed HTTP dispatch. *)
Definition longest_call : nat := 18.
Lemma program_within q : within longest_call (program q).
Proof.
  destruct q as [sid [xe|] meta|sid n x]; cbn [program].
  - unfold OnSessionExit. apply (within_bind 1 17); [done|]. intros a.
    apply (within_bind 1 16); [done|]. intros ev. apply (within_bind 1 15); [done|]. intros started.
    assert (∀ c, within 15 (escalatePermanent ev c started)) as Hesc.
    { intros c. apply (within_mono 5); [lia|apply within_escalatePermanent]. }
    case_if; [apply Hesc|]. cbv zeta.
    destruct (cl_Class _); [apply Hesc|apply within_runTransientRetry|apply within_runConfigFixedRetry|apply Hesc].
  - done.
  - apply (within_mono 2); [unfold longest_call; lia|]. unfold OnRestart, writeBreadcrumb. within_tac.
Qed.

(** ** Lemmas: the log *)

(** The operations of one call, in order, and the request it made. *)
Definition event : Type := {o : op & resp o}.
Definition event_of (tid : nat) (e : entry) : option event :=
  match e with EOp t o r => if bool_decide (t = tid) then Some (existT o r) else None | _ => None end.
Definition events (tid : nat) (l : list entry) : list event := omap (event_of tid) l.
Fixpoint call_of (tid : nat) (l : list entry) : option request :=
  match l with
  | [] => None
  | ECall t q :: l' => if bool_decide (t = tid) then Some q else call_of tid l'
  | _ :: l' => call_of tid l'
  end.

(** A session's counter is dropped; how often that happened; the exits counted
    since. *)
Definition resets_session (sid : string) (e : entry) : bool :=
  match e with
  | EClearSession s => bool_decide (s = sid)
  | EOp _ (OClear s) _ => bool_decide (s = sid)
  | _ => false
  end.
Definition resets (sid : string) (l : list entry) : nat := count (resets_session sid) l.
Definition bump_of (e : entry) : option (nat * string * Z) :=
  match e with
  | EOp t o r => match o return resp o → option (nat * string * Z) with
                 | OBump s => λ a, Some (t, s, a) | _ => λ _, None end r
  | _ => None
  end.
Definition counts (sid : string) (e : entry) : bool :=
  match bump_of e with Some (_, s, _) => bool_decide (s = sid) | None => false end.
Definition bumps_step (sid : string) (n : Z) (e : entry) : Z :=
  if resets_session sid e then 0 else if counts sid e then n + 1 else n.
Definition bumps (sid : string) (l : list entry) : Z := fold_left (bumps_step sid) l 0.

Lemma events_snoc tid l e :
  events tid (l ++ [e]) = (events tid l ++ match event_of tid e with Some x => [x] | None => [] end)%list.
Proof. unfold events. rewrite omap_app. cbn. by destruct (event_of tid e). Qed.
Lemma events_op tid l o r : events tid (l ++ [EOp tid o r]) = (events tid l ++ [existT o r])%list.
Proof. rewrite events_snoc. cbn. by rewrite bool_decide_eq_true_2. Qed.
Lemma events_other tid l t o r : t ≠ tid → events tid (l ++ [EOp t o r]) = events tid l.
Proof. intros Hne. rewrite events_snoc. cbn. by rewrite bool_decide_eq_false_2, app_nil_r. Qed.
Lemma events_elem tid l o r : EOp tid o r ∈ l → existT o r ∈ events tid l.
Proof.
  intros Hin. apply list_elem_of_omap. exists (EOp tid o r). split; [done|]. cbn. by rewrite bool_decide_eq_true_2.
Qed.
Lemma events_elem_inv tid l o r : existT o r ∈ events tid l → EOp tid o r ∈ l.
Proof.
  intros (e & Hin & He)%list_elem_of_omap. destruct e; cbn in He; try done. case_bool_decide; [|done].
  subst. assert (∀ x y : event, Some x = Some y → x = y) as Hinj by congruence. apply Hinj in He.
  apply (f_equal (λ x : event, EOp tid (projT1 x) (projT2 x))) in He. cbn in He. by rewrite <- He.
Qed.
Lemma call_of_snoc tid l e :
  call_of tid (l ++ [e]) = match call_of tid l with Some q => Some q | None => call_of tid [e] end.
Proof. induction l as [|x l IH]; [done|]. destruct x; cbn; try done. by case_bool_decide. Qed.
Lemma call_of_elem tid l q : call_of tid l = Some q → ECall tid q ∈ l.
Proof.
  induction l as [|x l IH]; [done|]. destruct x; cbn; try (intros ?%IH; by apply list_elem_of_further).
  case_bool_decide; [intros [= ->]; subst; apply list_elem_of_here|intros ?%IH; by apply list_elem_of_further].
Qed.

Lemma bumps_snoc sid l e : bumps sid (l ++ [e]) = bumps_step sid (bumps sid l) e.
Proof. unfold bumps. by rewrite fold_left_app. Qed.
Lemma bumps_nonneg sid l : 0 ≤ bumps sid l.
Proof.
  induction l as [|e l IH] using rev_ind; [done|]. rewrite bumps_snoc. unfold bumps_step. repeat case_if; lia.
Qed.
Lemma resets_app sid l l' : resets sid (l ++ l') = (resets sid l + resets sid l')%nat.
Proof. unfold resets. by rewrite count_app. Qed.
(** Without a reset in between the count only grows. *)
Lemma bumps_grow sid l l' : resets sid l' = 0%nat → bumps sid l ≤ bumps sid (l ++ l').
Proof.
  induction l' as [|e l' IH] using rev_ind; [by rewrite app_nil_r|]. rewrite resets_app. intros Hr.
  rewrite app_assoc, bumps_snoc. unfold bumps_step.
  assert (resets_session sid e = false) as ->.
  { destruct (resets_session sid e) eqn:E; [|done]. unfold resets, count in Hr.
    cbn -[resets_session] in Hr. rewrite E in Hr. cbn in Hr. lia. }
  specialize (IH ltac:(lia)). case_if; lia.
Qed.
Lemma snoc_split {A} (l : list A) e l1 x l2 :
  (l ++ [e])%list = (l1 ++ x :: l2)%list →
  (l1 = l ∧ x = e ∧ l2 = []) ∨ ∃ l2', l2 = (l2' ++ [e])%list ∧ l = (l1 ++ x :: l2')%list.
Proof.
  destruct l2 as [|y l2 _] using rev_ind.
  - intros [-> ->]%app_inj_tail. by left.
  - intros Heq. right. exists l2. change (x :: (l2 ++ [y]))%list with ((x :: l2) ++ [y])%list in Heq.
    rewrite app_assoc in Heq. apply app_inj_tail in Heq as [-> ->]. done.
Qed.

(** ** Lemmas: runs of the protocol *)

Fixpoint run_ghost (q : request) (γ : ghost) (es : list event) : option ghost :=
  match es with
  | [] => Some γ
  | existT o r :: es' => γ' ← trans q γ o r; run_ghost q γ' es'
  end.
Lemma run_ghost_app q γ es es' :
  run_ghost q γ (es ++ es') = (γ' ← run_ghost q γ es; run_ghost q γ' es').
Proof.
  revert γ. induction es as [|[o r] es IH]; intros γ; [done|]. cbn. destruct (trans q γ o r); cbn; [|done].
  apply IH.
Qed.
Lemma run_ghost_snoc q γ es o r γ' :
  run_ghost q γ (es ++ [existT o r]) = Some γ' ↔
  ∃ γ1, run_ghost q γ es = Some γ1 ∧ trans q γ1 o r = Some γ'.
Proof.
  rewrite run_ghost_app. destruct (run_ghost q γ es) as [γ1|]; cbn.
  - split.
    + intros Ht. exists γ1. split; [done|]. by destruct (trans q γ1 o r).
    + intros (γ2 & [= <-] & ->). done.
  - split; [done|]. by intros (? & ? & _).
Qed.
Lemma run_ghost_elem q γ es o r γ' :
  run_ghost q γ es = Some γ' → existT o r ∈ es →
  ∃ es1 es2 γ1 γ2, es = (es1 ++ existT o r :: es2)%list ∧ run_ghost q γ es1 = Some γ1 ∧
    trans q γ1 o r = Some γ2 ∧ run_ghost q γ2 es2 = Some γ'.
Proof.
  intros Hrun (es1 & es2 & ->)%list_elem_of_split. rewrite run_ghost_app in Hrun.
  destruct (run_ghost q γ es1) as [γ1|] eqn:H1; cbn in Hrun; [|done].
  destruct (trans q γ1 o r) as [γ2|] eqn:H2; cbn in Hrun; [|done]. eauto 10.
Qed.

(** ** Lemmas: the invariant of the system *)

(** Call [tid] made the request [q] and has done [γ] so far. *)
Definition tracked (l : list entry) (tid : nat) (q : request) (γ : ghost) : Prop :=
  call_of tid l = Some q ∧ run_ghost q fresh_ghost (events tid l) = Some γ.

Definition cancel_reason (l : list entry) (tid : nat) : Prop :=
  EOp tid OCancelCtx tt ∈ l ∨ (∃ tok, ECancelRetry tok (Some tid) ∈ l) ∨
  ∃ q tok, call_of tid l = Some q ∧ ECancel (session_of q) tok (Some tid) ∈ l.

Record inv (s : Sys) : Prop := {
  inv_count : ∀ sid, attempts s sid = bumps sid (log s);
  inv_bump : ∀ l1 e l2 t sid a,
    log s = (l1 ++ e :: l2)%list → bump_of e = Some (t, sid, a) → a = bumps sid l1 + 1;
  inv_idle : ∀ tid, threads s !! tid = None → call_of tid (log s) = None ∧ events tid (log s) = [];
  inv_thread : ∀ tid m, threads s !! tid = Some m →
    ∃ q γ, tracked (log s) tid q γ ∧ wp q γ m (λ _, final q) ∧
      ∃ n, within n m ∧ (length (events tid (log s)) + n ≤ longest_call)%nat;
  inv_retry : ∀ tok sid tid, activeRetries s !! tok = Some (sid, tid) →
    ∃ q γ, tracked (log s) tid q γ ∧ session_of q = sid ∧ g_token γ = Some tok;
  inv_canceled : ∀ tid, tid ∈ canceled s → cancel_reason (log s) tid;
}.

(** An entry that is no operation and no call. *)
Definition neutral (e : entry) : Prop :=
  match e with ECall _ _ | EOp _ _ _ => False | _ => True end.
Lemma neutral_events tid l e : neutral e → events tid (l ++ [e]) = events tid l.
Proof. intros He. rewrite events_snoc. destruct e; cbn in *; try done; by rewrite app_nil_r. Qed.
Lemma neutral_call tid l e : neutral e → call_of tid (l ++ [e]) = call_of tid l.
Proof. intros He. rewrite call_of_snoc. destruct e; cbn in *; try done; by destruct (call_of tid l). Qed.
Lemma neutral_tracked l e tid q γ : neutral e → tracked l tid q γ → tracked (l ++ [e]) tid q γ.
Proof. intros He. unfold tracked. by rewrite neutral_events, neutral_call. Qed.
Lemma cancel_reason_snoc l e tid : cancel_reason l tid → cancel_reason (l ++ [e]) tid.
Proof.
  unfold cancel_reason. rewrite call_of_snoc. intros [?|[(tok & ?)|(q & tok & -> & ?)]].
  - left. rewrite elem_of_app. by left.
  - right; left. exists tok. rewrite elem_of_app. by left.
  - right; right. exists q, tok. rewrite elem_of_app. auto.
Qed.
Lemma bump_snoc l e :
  (∀ l1 e' l2 t sid a, l = (l1 ++ e' :: l2)%list → bump_of e' = Some (t, sid, a) → a = bumps sid l1 + 1) →
  (∀ t sid a, bump_of e = Some (t, sid, a) → a = bumps sid l + 1) →
  ∀ l1 e' l2 t sid a, (l ++ [e])%list = (l1 ++ e' :: l2)%list → bump_of e' = Some (t, sid, a) →
    a = bumps sid l1 + 1.
Proof.
  intros Hl He l1 e' l2 t sid a Heq Hb. apply snoc_split in Heq as [(-> & -> & ->)|(l2' & -> & ->)]; eauto.
Qed.

Ltac sys := cbn [log threads activeRetries canceled stateBySession replacementHook httpRetry enter effect].

(** A step that only adds a neutral entry, and may drop counters and retries. *)
Lemma inv_neutral s e st ar hook http ca :
  inv s → neutral e →
  (∀ sid, default 0 (st !! sid) = bumps_step sid (attempts s sid) e) →
  (∀ tok x, ar !! tok = Some x → activeRetries s !! tok = Some x) →
  (∀ tid, tid ∈ ca → tid ∈ canceled s ∨ cancel_reason (log s ++ [e]) tid) →
  inv (mkSys st ar hook http ca (threads s) (log s ++ [e])).
Proof.
  intros [Hc Hb Hi Ht Hr Hx] He Hst Har Hca. split; sys.
  - intros sid. unfold attempts at 1. sys. by rewrite Hst, Hc, bumps_snoc.
  - apply bump_snoc; [done|]. intros t sid a. by destruct e.
  - intros tid Hn. rewrite neutral_events, neutral_call by done. by apply Hi.
  - intros tid m Hm. destruct (Ht _ _ Hm) as (q & γ & Hq & Hw & n & Hn & Hle). exists q, γ.
    split; [by apply neutral_tracked|]. split; [done|]. exists n. by rewrite neutral_events.
  - intros tok sid tid Hin%Har. destruct (Hr _ _ _ Hin) as (q & γ & Hq & Hs & Htok). exists q, γ.
    split; [by apply neutral_tracked|done].
  - intros tid [Hin|Hin]%Hca; [|done]. apply cancel_reason_snoc. by apply Hx.
Qed.

Lemma inv_Cancel s sid tok : inv s → inv (Cancel s sid tok).2.
Proof.
  intros Hs. assert (inv (mkSys (stateBySession s) (activeRetries s) (replacementHook s) (httpRetry s) (canceled s)
    (threads s) (log s ++ [ECancel sid tok None]))) as Hsilent by (apply inv_neutral; try done; auto).
  unfold Cancel. case_if; [done|]. destruct (activeRetries s !! tok) as [[owner tid]|] eqn:Ha; [|done].
  destruct (decide (owner = sid)) as [->|Ho].
  2: { rewrite (bool_decide_eq_false_2 (owner = sid)) by done. exact Hsilent. }
  rewrite bool_decide_eq_true_2 by done. cbn. apply inv_neutral; try done; auto.
  - by intros t x [_ ?]%lookup_delete_Some.
  - intros t [->%elem_of_singleton|?]%elem_of_union; [|by left]. right. right. right.
    destruct (inv_retry _ Hs _ _ _ Ha) as (q & γ & [Hq _] & <- & _). exists q, tok.
    rewrite neutral_call by done. split; [done|]. rewrite elem_of_app. right. by apply list_elem_of_singleton.
Qed.
Lemma inv_CancelRetry s tok : inv s → inv (CancelRetry s tok).
Proof.
  intros Hs. unfold CancelRetry. destruct (if bool_decide (tok = "") then _ else _) as [[owner tid]|].
  - apply inv_neutral; try done; auto.
    + by intros t x [_ ?]%lookup_delete_Some.
    + intros t [->%elem_of_singleton|?]%elem_of_union; [|by left]. right. right. left. exists tok.
      rewrite elem_of_app. right. by apply list_elem_of_singleton.
  - apply inv_neutral; try done; auto.
Qed.
Lemma inv_ClearSession s sid : inv s → inv (ClearSession s sid).
Proof.
  intros Hs. apply inv_neutral; try done; auto. intros sid'. unfold bumps_step, attempts. cbn.
  case_bool_decide as Hd.
  - subst. by rewrite lookup_delete_eq.
  - by rewrite lookup_delete_ne.
Qed.
Lemma inv_enter s tid q : inv s → threads s !! tid = None → inv (enter s tid q).
Proof.
  intros [Hc Hb Hi Ht Hr Hx] Hn. destruct (Hi _ Hn) as [Hcall Hev]. 
  assert (∀ t, events t (log s ++ [ECall tid q]) = events t (log s)) as Hevs.
  { intros t. rewrite events_snoc. cbn. by rewrite app_nil_r. }
  assert (∀ t q' γ, tracked (log s) t q' γ → tracked (log s ++ [ECall tid q]) t q' γ) as Htr.
  { intros t q' γ [H1 H2]. unfold tracked. by rewrite Hevs, call_of_snoc, H1. }
  split; sys.
  - intros sid. rewrite bumps_snoc. apply Hc.
  - apply bump_snoc; [done|]. by intros.
  - intros t [Hne Hn']%lookup_insert_None. destruct (Hi _ Hne) as [H1 H2].
    rewrite Hevs, call_of_snoc, H1. cbn. by rewrite bool_decide_eq_false_2.
  - intros t m [[<- <-]|[Hne Hm]]%lookup_insert_Some.
    + exists q, fresh_ghost. unfold tracked. rewrite Hevs, call_of_snoc, Hcall, Hev. cbn.
      rewrite bool_decide_eq_true_2 by done. split; [done|]. split; [apply exit_follows|].
      exists longest_call. split; [apply program_within|done].
    + destruct (Ht _ _ Hm) as (q' & γ & Hq & Hw & n & Hle). exists q', γ. split; [by apply Htr|].
      split; [done|]. exists n. by rewrite Hevs.
  - intros tok sid t Hin. destruct (Hr _ _ _ Hin) as (q' & γ & Hq & ? & ?). exists q', γ. by split; [apply Htr|].
  - intros t Hin. by apply cancel_reason_snoc, Hx.
Qed.

(** The count after an operation. *)
Lemma effect_attempts s tid o r k sid :
  attempts (effect s tid o r k) sid = bumps_step sid (attempts s sid) (EOp tid o r).
Proof.
  unfold attempts, bumps_step, counts. destruct o; try done; cbn -[bool_decide Z.add].
  - case_bool_decide; [subst; by rewrite lookup_insert_eq|by rewrite lookup_insert_ne].
  - case_bool_decide; [subst; by rewrite lookup_delete_eq|by rewrite lookup_delete_ne].
Qed.
(** A retry entry after an operation of [tid]: it was there, or [tid] made it; and
    [tid] has not just withdrawn it. *)
Lemma effect_retries s tid o r k q γ γ' tok sid t :
  trans q γ o r = Some γ' →
  activeRetries (effect s tid o r k) !! tok = Some (sid, t) →
  (activeRetries s !! tok = Some (sid, t) ∧ (t = tid → g_token γ = Some tok → g_token γ' = Some tok)) ∨
  (t = tid ∧ sid = session_of q ∧ g_token γ' = Some tok).
Proof.
  intros Ht Ha. destruct o; cbn in Ht, Ha; try (apply allow_Some in Ht as [Hg ->]);
    try (injection Ht as <-); try (left; split; [done|done]).
  - apply lookup_insert_Some in Ha as [[<- [= <- <-]]|[Hne Ha]].
    + right. destruct Hg as (-> & _ & _). done.
    + left. split; [done|]. intros -> Hg'. destruct Hg as (_ & _ & Hg). congruence.
  - apply lookup_delete_Some in Ha as [Hne Ha]. left. split; [done|]. intros -> Hg'. congruence.
Qed.

Lemma inv_op s tid o r k :
  inv s → threads s !! tid = Some (Vis o k) → answers s tid o r → inv (effect s tid o r (k r)).
Proof.
  intros [Hc Hb Hi Ht Hr Hx] Hm Ha. destruct (Ht _ _ Hm) as (q & γ & [Hcall Hrun] & Hw & n & Hn & Hle).
  assert (plausible o r) as Hp.
  { destruct o; cbn in Ha |- *; try done. rewrite Ha, Hc. pose proof (bumps_nonneg sid (log s)). lia. }
  destruct (Hw r Hp) as (γ' & Htrans & Hw').
  assert (∀ t, call_of t (log s ++ [EOp tid o r]) = call_of t (log s)) as Hcalls.
  { intros t. rewrite call_of_snoc. cbn. by destruct (call_of t (log s)). }
  assert (tracked (log s ++ [EOp tid o r]) tid q γ') as Htid.
  { unfold tracked. rewrite Hcalls, events_op. split; [done|]. apply run_ghost_snoc. by exists γ. }
  assert (∀ t q' γ1, t ≠ tid → tracked (log s) t q' γ1 → tracked (log s ++ [EOp tid o r]) t q' γ1) as Hother.
  { intros t q' γ1 Hne [H1 H2]. unfold tracked. by rewrite Hcalls, events_other. }
  split; sys.
  - intros sid. by rewrite effect_attempts, Hc, bumps_snoc.
  - apply bump_snoc; [done|]. intros t sid a. destruct o; cbn in *; try done.
    intros [= _ <- <-]. by rewrite Ha, Hc.
  - intros t [Hne Hn']%lookup_insert_None. rewrite Hcalls, events_other by done. by apply Hi.
  - intros t m [[<- <-]|[Hne Hm']]%lookup_insert_Some.
    + exists q, γ'. split; [done|]. split; [done|]. destruct n as [|n]; [done|]. exists n.
      split; [apply Hn|]. rewrite events_op, length_app. cbn. lia.
    + destruct (Ht _ _ Hm') as (q' & γ1 & Hq & Hw1 & n' & Hn'). exists q', γ1. split; [by apply Hother|].
      split; [done|]. exists n'. by rewrite events_other.
  - intros tok sid t Hin.
    destruct (effect_retries s tid o r (k r) q γ γ' tok sid t Htrans Hin) as [[Hin' Hsame]|(-> & -> & Htok)].
    + destruct (Hr _ _ _ Hin') as (q' & γ1 & Hq & Hs & Htok). destruct (decide (t = tid)) as [->|Hne].
      * destruct Hq as [Hq1 Hq2]. rewrite Hcall in Hq1. injection Hq1 as <-. rewrite Hrun in Hq2. injection Hq2 as <-.
        exists q, γ'. auto.
      * exists q', γ1. by split; [apply Hother|].
    + by exists q, γ'.
  - intros t Hin. assert (t ∈ canceled s ∨ (t = tid ∧ existT o r = existT OCancelCtx tt :> event)) as [Hold|[-> He]].
    { destruct o; try (by left). apply elem_of_union in Hin as [->%elem_of_singleton|?]; [right|by left].
      by destruct r. }
    + by apply cancel_reason_snoc, Hx.
    + left. rewrite elem_of_app. right. apply list_elem_of_singleton.
      by apply (f_equal (λ x : event, EOp tid (projT1 x) (projT2 x))) in He.
Qed.

Lemma inv_step s s' : inv s → step s s' → inv s'.
Proof.
  intros Hs Hstep. destruct Hstep.
  - by apply inv_enter.
  - by apply inv_op.
  - by apply inv_Cancel.
  - by apply inv_CancelRetry.
  - by apply inv_ClearSession.
  - destruct Hs. by split.
  - destruct Hs. by split.
Qed.
Lemma inv_init hook http : inv (init hook http).
Proof.
  split; cbn; try done.
  - intros l1 e l2 t sid a Heq. by destruct l1.
Qed.
Lemma reachable_inv s : reachable s → inv s.
Proof.
  intros (hook & http & Hrun). remember (init hook http) as s0 eqn:H0.
  assert (inv s0) as Hinv by (subst; apply inv_init). clear H0.
  induction Hrun as [|s1 s2 s3 Hstep _ IH]; [done|]. apply IH. by eapply inv_step.
Qed.

(** ** Lemmas: what a call's state says about its operations *)

Definition ev_bump (e : event) : option (string * Z) :=
  match e with existT o r => match o return resp o → option (string * Z) with
                             | OBump s => λ a, Some (s, a) | _ => λ _, None end r end.
Definition ev_dispatch (e : event) : option bool :=
  match e with existT o r => match o return resp o → option bool with
                             | OBoot _ => λ r, Some (is_ok r)
                             | OHTTPRetry _ => λ r, Some (bool_decide (r = None))
                             | _ => λ _, None end r end.
Definition ev_crumb (e : event) : option Breadcrumb :=
  match e with existT (OCrumb b) _ => Some b | _ => None end.
Definition ev_remedied (e : event) : bool :=
  match e with existT o r => match o return resp o → bool with
                             | ORemedy _ _ => λ r, bool_decide (r = None) | _ => λ _, false end r end.
Definition ev_saw_cancel (e : event) : bool :=
  match e with existT o r => match o return resp o → bool with
                             | OCtxErr => λ r, r | _ => λ _, false end r end.
Definition ev_marked (e : event) : bool :=
  match e with existT o r => match o return resp o → bool with
                             | OMark _ _ => λ r, bool_decide (r = None) | _ => λ _, false end r end.

Lemma history_ind (P : list event → ghost → Prop) q :
  P [] fresh_ghost →
  (∀ es γ o r γ', P es γ → trans q γ o r = Some γ' → P (es ++ [existT o r])%list γ') →
  ∀ es γ, run_ghost q fresh_ghost es = Some γ → P es γ.
Proof.
  intros H0 Hs es. induction es as [|[o r] es IH] using rev_ind; intros γ.
  - by intros [= <-].
  - intros (γ1 & Hrun & Ht)%run_ghost_snoc. eapply Hs; [by apply IH|exact Ht].
Qed.

(** The cases of one more operation. *)
Tactic Notation "trans_cases" ident(o) ident(H) :=
  destruct o; cbn in H;
  try (apply allow_Some in H as [Hg ->]); try (injection H as <-).

Lemma history_attempt q es γ :
  run_ghost q fresh_ghost es = Some γ →
  ∀ e s a, e ∈ es → ev_bump e = Some (s, a) → g_attempt γ = Some a ∧ s = session_of q.
Proof.
  revert es γ. apply (history_ind (λ es γ, ∀ e s a, e ∈ es → ev_bump e = Some (s, a) →
    g_attempt γ = Some a ∧ s = session_of q)); [set_solver|]. intros es γ o r γ' IH Ht e s a.
  rewrite elem_of_app, list_elem_of_singleton. intros [Hin| ->] He.
  - destruct (IH _ _ _ Hin He) as [IH1 IH2]. split; [|done]. trans_cases o Ht; try done. cbn.
    destruct Hg as (_ & _ & Hg). congruence.
  - trans_cases o Ht; try done. cbn in *. injection He as <- <-. by destruct Hg as (_ & -> & _).
Qed.
Lemma history_counted q es γ a :
  run_ghost q fresh_ghost es = Some γ → g_attempt γ = Some a → ∃ e, e ∈ es ∧ ev_bump e = Some (session_of q, a).
Proof.
  revert es γ. apply (history_ind (λ es γ, g_attempt γ = Some a → ∃ e, e ∈ es ∧ ev_bump e = Some (session_of q, a)));
    [done|]. intros es γ o r γ' IH Ht Ha.
  assert (g_attempt γ = Some a ∨ ev_bump (existT o r) = Some (session_of q, a)) as [Hold|Hnew].
  { trans_cases o Ht; try (by left). right. cbn in *. destruct Hg as (_ & -> & _). by injection Ha as ->. }
  - destruct (IH Hold) as (e & ? & ?). exists e. split; [|done]. apply elem_of_app. by left.
  - eexists. split; [apply elem_of_app; right; by apply list_elem_of_singleton|done].
Qed.
Lemma history_tried q es γ :
  run_ghost q fresh_ghost es = Some γ →
  count (λ e, bool_decide (is_Some (ev_dispatch e))) es = if g_tried γ then 1%nat else 0%nat.
Proof.
  revert es γ. apply (history_ind (λ es γ, count (λ e, bool_decide (is_Some (ev_dispatch e))) es =
    if g_tried γ then 1%nat else 0%nat)); [done|]. intros es γ o r γ' IH Ht. rewrite count_app, IH.
  trans_cases o Ht; cbn; try lia; destruct Hg as ((-> & _) & _); done.
Qed.
Lemma history_sent q es γ :
  run_ghost q fresh_ghost es = Some γ → g_sent γ = true → ∃ e, e ∈ es ∧ ev_dispatch e = Some true.
Proof.
  revert es γ. apply (history_ind (λ es γ, g_sent γ = true → ∃ e, e ∈ es ∧ ev_dispatch e = Some true)); [done|].
  intros es γ o r γ' IH Ht.
  assert (g_sent γ = true → ∃ e, e ∈ (es ++ [existT o r])%list ∧ ev_dispatch e = Some true) as Hold.
  { intros (e & Hin & He)%IH. exists e. split; [|done]. apply elem_of_app. by left. }
  trans_cases o Ht; cbn; try exact Hold; intros Hok; eexists; (split; [apply elem_of_app; right; by apply list_elem_of_singleton|]);
    cbn; by rewrite Hok.
Qed.
Lemma history_crumbs q es γ :
  run_ghost q fresh_ghost es = Some γ →
  count (λ e, bool_decide (is_Some (ev_crumb e))) es = (match g_crumb γ with Some _ => 1%nat | None => 0%nat end).
Proof.
  revert es γ. apply (history_ind (λ es γ, count (λ e, bool_decide (is_Some (ev_crumb e))) es =
    match g_crumb γ with Some _ => 1%nat | None => 0%nat end)); [done|]. intros es γ o r γ' IH Ht. rewrite count_app, IH.
  trans_cases o Ht; cbn; try lia. by destruct Hg as (_ & -> & _).
Qed.
(** A flag that some event set. *)
Lemma history_flag (get : ghost → bool) (view : event → bool) q es γ :
  get fresh_ghost = false →
  (∀ γ o r γ', trans q γ o r = Some γ' → get γ' = true → get γ = true ∨ view (existT o r) = true) →
  run_ghost q fresh_ghost es = Some γ → get γ = true → ∃ e, e ∈ es ∧ view e = true.
Proof.
  intros H0 Hs. revert es γ. apply (history_ind (λ es γ, get γ = true → ∃ e, e ∈ es ∧ view e = true)).
  - congruence.
  - intros es γ o r γ' IH Ht [Hold|Hnew]%(Hs _ _ _ _ Ht).
    + destruct (IH Hold) as (e & ? & ?). exists e. split; [|done]. apply elem_of_app. by left.
    + eexists. split; [apply elem_of_app; right; by apply list_elem_of_singleton|done].
Qed.
Lemma history_remedied q es γ :
  run_ghost q fresh_ghost es = Some γ → g_remedied γ = true → ∃ e, e ∈ es ∧ ev_remedied e = true.
Proof.
  apply (history_flag g_remedied ev_remedied); [done|]. intros γ1 o r γ' Ht Hy. trans_cases o Ht; cbn in *; auto.
Qed.
Lemma history_saw_cancel q es γ :
  run_ghost q fresh_ghost es = Some γ → g_saw_cancel γ = true → ∃ e, e ∈ es ∧ ev_saw_cancel e = true.
Proof.
  apply (history_flag g_saw_cancel ev_saw_cancel); [done|]. intros γ1 o r γ' Ht Hy. trans_cases o Ht; cbn in *; auto.
  apply orb_true_iff in Hy as [?|?]; auto.
Qed.
Lemma history_marked q es γ :
  run_ghost q fresh_ghost es = Some γ → g_marked γ = true → ∃ e, e ∈ es ∧ ev_marked e = true.
Proof.
  apply (history_flag g_marked ev_marked); [done|]. intros γ1 o r γ' Ht Hy. trans_cases o Ht; cbn in *; auto.
Qed.
(** Once counted, a call keeps its number. *)
Lemma run_ghost_attempt q γ es γ' a :
  run_ghost q γ es = Some γ' → g_attempt γ = Some a → g_attempt γ' = Some a.
Proof.
  revert γ. induction es as [|[o r] es IH]; intros γ; [by intros [= <-]|]. cbn.
  destruct (trans q γ o r) as [γ1|] eqn:Ht; cbn; [|done]. intros Hrun Ha. apply (IH γ1 Hrun).
  trans_cases o Ht; try done. destruct Hg as (_ & _ & Hg). congruence.
Qed.

(** An operation in the log, seen from the protocol. *)
Lemma logged_op s tid o r :
  inv s → EOp tid o r ∈ log s →
  ∃ q γ es1 es2 γ1 γ2, tracked (log s) tid q γ ∧ events tid (log s) = (es1 ++ existT o r :: es2)%list ∧
    run_ghost q fresh_ghost es1 = Some γ1 ∧ trans q γ1 o r = Some γ2 ∧ run_ghost q γ2 es2 = Some γ.
Proof.
  intros [_ _ Hi Ht _ _] Hin%events_elem. destruct (threads s !! tid) as [m|] eqn:Hm.
  - destruct (Ht _ _ Hm) as (q & γ & [Hq Hrun] & _).
    destruct (run_ghost_elem _ _ _ _ _ _ Hrun Hin) as (es1 & es2 & γ1 & γ2 & ? & ? & ? & ?).
    exists q, γ, es1, es2, γ1, γ2. by split_and!.
  - destruct (Hi _ Hm) as [_ Hev]. rewrite Hev in Hin. set_solver.
Qed.

(** ** Lemmas: the retry budget *)

(** The exit that call [tid] reported was counted for [sid] after [e] resets of
    the session's counter; a replacement was dispatched; and it was accepted. *)
Definition counted_in (s : Sys) (tid : nat) (sid : string) (e : nat) : Prop :=
  ∃ l1 a l2, log s = (l1 ++ EOp tid (OBump sid) a :: l2)%list ∧ resets sid l1 = e.
Definition dispatched (s : Sys) (tid : nat) : Prop :=
  (∃ opts r, EOp tid (OBoot opts) r ∈ log s) ∨ (∃ ev r, EOp tid (OHTTPRetry ev) r ∈ log s).
Definition dispatch_ok (s : Sys) (tid : nat) : Prop :=
  (∃ opts sess, EOp tid (OBoot opts) (Ok sess) ∈ log s) ∨ (∃ ev, EOp tid (OHTTPRetry ev) None ∈ log s).

Lemma dispatched_attempt s tid l1 sid a l2 :
  inv s → dispatched s tid → log s = (l1 ++ EOp tid (OBump sid) a :: l2)%list → 1 ≤ a ≤ maxRetries C.
Proof.
  intros Hs Hd Hlog.
  assert (∃ q γ γ1 es1 es2, tracked (log s) tid q γ ∧ run_ghost q γ1 es2 = Some γ ∧ may_dispatch γ1 ∧
    events tid (log s) = es1) as (q & γ & γ1 & es1 & es2 & [_ Htr] & Hrun & Hmay & _).
  { destruct Hd as [(opts & r & Hin)|(ev & r & Hin)];
      destruct (logged_op _ _ _ _ Hs Hin) as (q & γ & es1 & es2 & γ1 & γ2 & Hq & _ & _ & Ht & Hrun);
      pose proof Ht as [(Hmay & _) _]%allow_Some;
      (exists q, γ, γ1, (events tid (log s)), (existT _ r :: es2)%list; split_and!; [done| |done|done]);
      cbn [run_ghost]; by rewrite Ht. }
  destruct Hmay as (_ & _ & Hrange). destruct (g_attempt γ1) as [a1|] eqn:Ha1; [|done].
  apply (run_ghost_attempt _ _ _ _ _ Hrun) in Ha1.
  assert (EOp tid (OBump sid) a ∈ log s) as Hin by (rewrite Hlog; set_solver).
  apply events_elem in Hin. destruct (history_attempt _ _ _ Htr _ _ _ Hin eq_refl) as [Ha _]. congruence.
Qed.

Lemma cons_split {A} (l1 l2 k1 k2 : list A) x y :
  (l1 ++ x :: l2)%list = (k1 ++ y :: k2)%list →
  (l1 = k1 ∧ x = y) ∨ (∃ m, k1 = l1 ++ x :: m)%list ∨ (∃ m, l1 = k1 ++ y :: m)%list.
Proof.
  revert k1. induction l1 as [|z l1 IH]; intros [|w k1]; cbn; intros [= -> Heq].
  - by left.
  - right. left. by exists k1.
  - right. right. by exists l1.
  - destruct (IH _ Heq) as [[-> ->]|[[m ->]|[m ->]]]; eauto.
Qed.
(** Two exits counted between the same resets have different numbers. *)
Lemma attempts_differ s l1 t1 a1 l2 k1 t2 a2 k2 sid :
  inv s → log s = (l1 ++ EOp t1 (OBump sid) a1 :: l2)%list → log s = (k1 ++ EOp t2 (OBump sid) a2 :: k2)%list →
  t1 ≠ t2 → resets sid l1 = resets sid k1 → a1 ≠ a2.
Proof.
  assert (∀ l1 t1 a1 l2 m t2 a2 k2, inv s → log s = (l1 ++ EOp t1 (OBump sid) a1 :: l2)%list →
    log s = ((l1 ++ EOp t1 (OBump sid) a1 :: m) ++ EOp t2 (OBump sid) a2 :: k2)%list →
    resets sid l1 = resets sid (l1 ++ EOp t1 (OBump sid) a1 :: m)%list → a1 < a2) as Hlt.
  { clear. intros l1 t1 a1 l2 m t2 a2 k2 Hs H1 H2 Hr.
    rewrite (inv_bump _ Hs _ _ _ _ _ _ H1 eq_refl), (inv_bump _ Hs _ _ _ _ _ _ H2 eq_refl).
    rewrite resets_app in Hr. change (EOp t1 (OBump sid) a1 :: m)%list with ([EOp t1 (OBump sid) a1] ++ m)%list in *.
    rewrite resets_app in Hr. rewrite app_assoc.
    pose proof (bumps_grow sid (l1 ++ [EOp t1 (OBump sid) a1])%list m ltac:(lia)) as Hg.
    rewrite bumps_snoc in Hg. unfold bumps_step in Hg. cbn -[bumps Z.add] in Hg.
    unfold counts in Hg. cbn -[bumps Z.add bool_decide] in Hg. rewrite bool_decide_eq_true_2 in Hg by done. lia. }
  intros Hs H1 H2 Hne Hr. pose proof H1 as Heq. rewrite H2 in Heq.
  destruct (cons_split _ _ _ _ _ _ Heq) as [[_ Hx]|[[m ->]|[m ->]]].
  - injection Hx as ->. done.
  - enough (a2 < a1) by lia. by eapply Hlt.
  - enough (a1 < a2) by lia. by eapply Hlt.
Qed.

Lemma pigeonhole (P : nat → Z → Prop) (n : Z) (tids : list nat) :
  NoDup tids → (∀ t, t ∈ tids → ∃ a, P t a ∧ 1 ≤ a ≤ n) →
  (∀ t t' a, t ∈ tids → t' ∈ tids → P t a → P t' a → t = t') → (length tids ≤ Z.to_nat n)%nat.
Proof.
  intros Hnd Hex Hinj.
  assert (∃ l, Forall2 (λ t a, P t a ∧ 1 ≤ a ≤ n) tids l ∧ NoDup l) as (l & Hl & Hndl).
  { revert Hex Hinj. induction Hnd as [|t ts Hnt Hnd IH]; intros Hex Hinj; [exists []; by split; constructor|].
    destruct IH as (l & Hl & Hndl); [set_solver|intros; eapply Hinj; set_solver|].
    destruct (Hex t) as (a & Ha & Hr); [set_solver|]. exists (a :: l). split; [by constructor|].
    constructor; [|done]. intros Hin. apply list_elem_of_lookup in Hin as [i Hi].
    destruct (Forall2_lookup_r _ _ _ _ _ Hl Hi) as (t' & Ht' & HP & _). apply list_elem_of_lookup_2 in Ht'.
    apply Hnt. rewrite (Hinj t t' a); set_solver. }
  rewrite (Forall2_length _ _ _ Hl).
  transitivity (length (map Z.of_nat (seq 1 (Z.to_nat n)))); [|by rewrite length_map, length_seq].
  apply NoDup_incl_length; [by apply NoDup_ListNoDup|]. intros a Ha%list_elem_of_In.
  apply list_elem_of_lookup in Ha as [i Hi]. destruct (Forall2_lookup_r _ _ _ _ _ Hl Hi) as (t & _ & _ & Hr).
  apply in_map_iff. exists (Z.to_nat a). split; [lia|]. apply in_seq. lia.
Qed.

(** ** Lemmas: running a call, for concrete runs *)

(** An operation always has an answer; [env] decides where the world does. *)
Definition answer (env : ∀ o, resp o) (s : Sys) (tid : nat) (o : op) : resp o :=
  match o with
  | OBump sid => attempts s sid + 1
  | OCtxErr => bool_decide (tid ∈ canceled s)
  | OBackoff w => if bool_decide (tid ∈ canceled s) then env (OBackoff w) else None
  | OHTTPRetryDep => httpRetry s
  | OHook => replacementHook s
  | o => env o
  end.
Lemma answer_ok env s tid o : answers s tid o (answer env s tid o).
Proof. destruct o; cbn; try done. by case_bool_decide. Qed.

(** Let call [tid] make up to [n] operations. *)
Fixpoint run_call (n : nat) (env : ∀ o, resp o) (s : Sys) (tid : nat) : Sys :=
  match n with
  | O => s
  | S n' =>
      match threads s !! tid with
      | Some (Vis o k) => run_call n' env (effect s tid o (answer env s tid o) (k (answer env s tid o))) tid
      | _ => s
      end
  end.
Lemma run_call_steps n env s tid : rtc step s (run_call n env s tid).
Proof.
  revert s. induction n as [|n IH]; intros s; cbn; [done|].
  destruct (threads s !! tid) as [[a|o k]|] eqn:Hm; [done| |done].
  eapply rtc_l; [|apply IH]. by apply step_op, answer_ok.
Qed.
Lemma reachable_init hook http : reachable (init hook http).
Proof. by exists hook, http. Qed.
Lemma reachable_step s s' : reachable s → step s s' → reachable s'.
Proof. intros (h & b & Hrun) Hs. exists h, b. by eapply rtc_r. Qed.
Lemma reachable_run s n env tid : reachable s → reachable (run_call n env s tid).
Proof. intros (h & b & Hrun). exists h, b. etransitivity; [done|apply run_call_steps]. Qed.

(** After a breadcrumb the outcome is settled. *)
Lemma run_ghost_crumb q γ es γ' :
  run_ghost q γ es = Some γ' → g_crumb γ ≠ None →
  g_crumb γ' = g_crumb γ ∧ g_sent γ' = g_sent γ ∧ g_tried γ' = g_tried γ.
Proof.
  revert γ. induction es as [|[o r] es IH]; intros γ; [by intros [= <-]|]. cbn.
  destruct (trans q γ o r) as [γ1|] eqn:Ht; cbn; [|done]. intros Hrun Hc.
  assert (g_crumb γ1 = g_crumb γ ∧ g_sent γ1 = g_sent γ ∧ g_tried γ1 = g_tried γ) as (E1 & E2 & E3).
  { trans_cases o Ht; try done; exfalso; apply Hc; unfold may_dispatch in *; tauto. }
  rewrite <- E1 in Hc. destruct (IH _ Hrun Hc) as (? & ? & ?). split_and!; congruence.
Qed.
Lemma count_0 {A} (P : A → bool) l x : count P l = 0%nat → x ∈ l → P x = false.
Proof.
  unfold count. intros H0 Hin. destruct (P x) eqn:E; [|done]. exfalso.
  assert (In x (List.filter P l)) as Hf by (apply filter_In; split; [by apply list_elem_of_In|done]).
  destruct (List.filter P l); [done|discriminate].
Qed.
Lemma count_1 {A} (P : A → bool) l x y : count P l = 1%nat → x ∈ l → y ∈ l → P x = true → P y = true → x = y.
Proof.
  unfold count. intros H1 Hx Hy Px Py.
  assert (In x (List.filter P l)) as Fx by (apply filter_In; split; [by apply list_elem_of_In|done]).
  assert (In y (List.filter P l)) as Fy by (apply filter_In; split; [by apply list_elem_of_In|done]).
  destruct (List.filter P l) as [|z [|? ?]]; cbn in *; try lia. destruct Fx as [->|[]], Fy as [->|[]]. done.
Qed.

Lemma dispatched_event s tid e b :
  e ∈ events tid (log s) → ev_dispatch e = Some b → dispatched s tid ∧ (b = true → dispatch_ok s tid).
Proof.
  destruct e as [o r]. intros Hin%events_elem_inv He. destruct o; try done; cbn in He; injection He as <-.
  - split; [right; eauto|]. intros Hb%bool_decide_eq_true. right. exists ev. by subst.
  - split; [left; eauto|]. intros Hb. left. destruct r as [sess|]; [|done]. by exists opts, sess.
Qed.
Lemma tried_dispatched s tid q γ :
  tracked (log s) tid q γ → g_tried γ = false → ¬ dispatched s tid.
Proof.
  intros [_ Hrun] Ht Hd. pose proof (history_tried _ _ _ Hrun) as Hc. rewrite Ht in Hc.
  destruct Hd as [(opts & r & Hin)|(ev & r & Hin)]; apply events_elem in Hin;
    by apply (count_0 _ _ _ Hc) in Hin.
Qed.
Lemma history_sent_back q es γ :
  run_ghost q fresh_ghost es = Some γ →
  ∀ e, e ∈ es → ev_dispatch e = Some true → g_sent γ = true ∧ g_tried γ = true.
Proof.
  revert es γ. apply (history_ind (λ es γ, ∀ e, e ∈ es → ev_dispatch e = Some true →
    g_sent γ = true ∧ g_tried γ = true)); [set_solver|]. intros es γ o r γ' IH Ht e.
  rewrite elem_of_app, list_elem_of_singleton. intros [Hin| ->] He.
  - destruct (IH _ Hin He) as [Hs Htr]. trans_cases o Ht; try done; unfold may_dispatch in *; exfalso;
      destruct Hg as ((Hg & _) & _); congruence.
  - trans_cases o Ht; try done; cbn in *; injection He as ->; done.
Qed.
Lemma sent_dispatched s tid q γ :
  tracked (log s) tid q γ → g_sent γ = false → ¬ dispatch_ok s tid.
Proof.
  intros [_ Hrun] Hs Hd.
  assert (∃ e, e ∈ events tid (log s) ∧ ev_dispatch e = Some true) as (e & Hin & He).
  { destruct Hd as [(opts & sess & Hin)|(ev & Hin)]; apply events_elem in Hin; by eexists. }
  destruct (history_sent_back _ _ _ Hrun _ Hin He). congruence.
Qed.
End Broker.

(** ** Properties *)

(** C4. The retry budget holds under every interleaving: however many exits of a
    session are observed concurrently, and whatever is canceled, cleared or
    rewired meanwhile, at most [maxRetries] of the exits counted between two
    resets of the session's counter lead to a replacement, and no exit leads to
    more than one. *)
Theorem retry_budget_holds (C : Config) (s : Sys) (sid : string) (e : nat) (tids : list nat)
    (Hs : reachable C s) (Hnd : NoDup tids)
    (Htids : ∀ t, t ∈ tids → dispatched s t ∧ counted_in s t sid e) :
  (length tids ≤ Z.to_nat (maxRetries C))%nat ∧
  ∀ t, (count (λ e, bool_decide (is_Some (ev_dispatch e))) (events t (log s)) ≤ 1)%nat.
Proof.
  apply reachable_inv in Hs. split.
  - apply (pigeonhole (λ t a, ∃ l1 l2, log s = (l1 ++ EOp t (OBump sid) a :: l2)%list ∧ resets sid l1 = e)); [done| |].
    + intros t [Hd (l1 & a & l2 & Hl & He)]%Htids. exists a. split; [eauto|]. by eapply dispatched_attempt.
    + intros t t' a _ _ (l1 & l2 & Hl & He) (k1 & k2 & Hk & He'). destruct (decide (t = t')) as [|Hne]; [done|].
      exfalso. by eapply (attempts_differ C s l1 t a l2 k1 t' a k2 sid Hs Hl Hk Hne); [congruence|].
  - intros t. destruct (threads s !! t) as [m|] eqn:Hm.
    + destruct (inv_thread _ _ Hs _ _ Hm) as (q & γ & [_ Hrun] & _). rewrite (history_tried _ _ _ _ Hrun).
      case_if; lia.
    + destruct (inv_idle _ _ Hs _ Hm) as [_ ->]. cbn. lia.
Qed.

(** A retry is canceled only from its own session: in every run, a retry whose
    context is canceled either reached its own end, or was named by a trusted
    [CancelRetry], or was canceled by [Cancel] for the session whose exit it
    handles; and a [Cancel] that reports success cancels one retry of that
    session and touches no counter. *)
Theorem cancel_is_bound_to_session (C : Config) (s : Sys) (Hs : reachable C s) :
  (∀ tid, tid ∈ canceled s →
     EOp tid OCancelCtx tt ∈ log s ∨ (∃ tok, ECancelRetry tok (Some tid) ∈ log s) ∨
     ∃ q tok, call_of tid (log s) = Some q ∧ ECancel (session_of q) tok (Some tid) ∈ log s) ∧
  (∀ sid tok s', Cancel s sid tok = (true, s') →
     ∃ tid q, call_of tid (log s) = Some q ∧ session_of q = sid ∧
       canceled s' = {[tid]} ∪ canceled s ∧ activeRetries s' = delete tok (activeRetries s) ∧
       stateBySession s' = stateBySession s ∧ threads s' = threads s).
Proof.
  apply reachable_inv in Hs. split; [apply (inv_canceled _ _ Hs)|]. intros sid tok s'. unfold Cancel.
  case_if; [done|]. destruct (activeRetries s !! tok) as [[owner tid]|] eqn:Ha; [|done].
  destruct (bool_decide (owner = sid)) eqn:Ho; [|done]. apply bool_decide_eq_true in Ho. cbn. intros [= <-]. subst owner.
  destruct (inv_retry _ _ Hs _ _ _ Ha) as (q & γ & [Hq _] & Hsid & _). by exists tid, q.
Qed.

(** No retry entry outlives its call: whenever every call has returned, the
    table of cancelable retries is empty, tokens that collide included. *)
Theorem no_retry_entry_leaks (C : Config) (s : Sys) (Hs : reachable C s)
    (Hdone : ∀ tid m, threads s !! tid = Some m → m = Ret tt) :
  activeRetries s = ∅.
Proof.
  apply reachable_inv in Hs. apply map_empty. intros tok.
  destruct (activeRetries s !! tok) as [[sid tid]|] eqn:Ha; [|done]. exfalso.
  destruct (inv_retry _ _ Hs _ _ _ Ha) as (q & γ & [Hq Hrun] & _ & Htok).
  destruct (threads s !! tid) as [m|] eqn:Hm; [|destruct (inv_idle _ _ Hs _ Hm); congruence].
  destruct (inv_thread _ _ Hs _ _ Hm) as (q' & γ' & [Hq' Hrun'] & Hw & _).
  rewrite (Hdone _ _ Hm) in Hw. destruct Hw as [Hnone _].
  rewrite Hq in Hq'. injection Hq' as <-. rewrite Hrun in Hrun'. injection Hrun' as <-. congruence.
Qed.

(** C37. Breadcrumbs tell the truth: the record an exit leaves names its session
    and its number, it is the only one, and its outcome is what happened: a
    remediated exit had a successful repair and a successful dispatch, a retried
    one a successful dispatch, a canceled one saw its context canceled and was
    never dispatched, and a permanent one has no successful dispatch. *)
Theorem breadcrumbs_tell_the_truth (C : Config) (s : Sys) (tid : nat) (sid : string) (xe : ExitError)
    (meta : gmap string MetaVal) (b : Breadcrumb)
    (Hs : reachable C s) (Hq : call_of tid (log s) = Some (CExit sid (Some xe) meta))
    (Hb : EOp tid (OCrumb b) tt ∈ log s) :
  bc_SessionID b = sid ∧ EOp tid (OBump sid) (AttemptCount b) ∈ log s ∧
  (∀ b', EOp tid (OCrumb b') tt ∈ log s → b' = b) ∧
  match bc_Outcome b with
  | OutcomeRemediated => dispatch_ok s tid ∧ ∃ r arg, EOp tid (ORemedy r arg) None ∈ log s
  | OutcomeTransientRetrySucceeded => dispatch_ok s tid
  | OutcomePermanent => ¬ dispatch_ok s tid
  | OutcomeCanceled => EOp tid OCtxErr true ∈ log s ∧ ¬ dispatched s tid
  | OutcomeUnknown => False
  end.
Proof.
  apply reachable_inv in Hs.
  destruct (logged_op _ _ _ _ _ Hs Hb) as (q & γ & es1 & es2 & γ1 & γ2 & [Hq' Hrun] & Hev & Hrun1 & Ht & Hrun2).
  rewrite Hq in Hq'. injection Hq' as <-.
  assert (∀ e, e ∈ es1 → e ∈ events tid (log s)) as Hsub by (intros e He; rewrite Hev; apply elem_of_app; by left).
  apply allow_Some in Ht as [(Hsid & Hnone & Hexit & _) ->]. destruct (Hexit eq_refl) as [Hatt Hok].
  destruct (run_ghost_crumb _ _ _ _ _ Hrun2) as (Hcr & Hsent & Htried); [done|]. cbn in Hcr, Hsent, Htried.
  split; [done|]. split; [|split].
  - destruct (history_counted _ _ _ _ _ Hrun1 Hatt) as ([o r] & Hin%Hsub%events_elem_inv & He).
    destruct o; try done. cbn in He. by injection He as -> ->.
  - intros b' Hb'. apply events_elem in Hb, Hb'. pose proof (history_crumbs _ _ _ _ Hrun) as Hc. rewrite Hcr in Hc.
    pose proof (count_1 _ _ _ _ Hc Hb Hb' eq_refl eq_refl) as He. by apply (f_equal ev_crumb) in He as [= <-].
  - assert (g_sent γ1 = true → dispatch_ok s tid) as Hyes.
    { intros (e & Hin & He)%(history_sent _ _ _ _ Hrun1). by eapply dispatched_event; [apply Hsub|..]. }
    destruct (bc_Outcome b); cbn in Hok.
    + done.
    + apply andb_true_iff in Hok as [H1 H2]. split; [by apply Hyes|].
      destruct (history_remedied _ _ _ _ Hrun1 H2) as ([o r] & Hin%Hsub%events_elem_inv & He).
      destruct o; try done. apply bool_decide_eq_true in He. subst. eauto.
    + by apply Hyes.
    + apply negb_true_iff in Hok. eapply (sent_dispatched C); [by split|congruence].
    + apply andb_true_iff in Hok as [H1 H2%negb_true_iff]. split.
      * destruct (history_saw_cancel _ _ _ _ Hrun1 H1) as ([o r] & Hin%Hsub%events_elem_inv & He).
        destruct o; try done. cbn in He. by subst.
      * eapply (tried_dispatched C); [by split|congruence].
Qed.

(** A provider without a boot directory is never booted, and one with a boot
    directory is never retried over HTTP, in any run; a boot is for the session
    whose exit is handled, after the runtime row was marked when there is a
    store. *)
Theorem dispatch_matches_provider (C : Config) (s : Sys) (tid : nat) (Hs : reachable C s) :
  (∀ opts r, EOp tid (OBoot opts) r ∈ log s →
     HasBootdirLayout (lookup_provider C) (opt_Provider opts) = true ∧
     (∃ q, call_of tid (log s) = Some q ∧ opt_SessionID opts = session_of q) ∧
     (has_Store C = true → ∃ sid reason, EOp tid (OMark sid reason) None ∈ log s)) ∧
  (∀ ev r, EOp tid (OHTTPRetry ev) r ∈ log s →
     HasBootdirLayout (lookup_provider C) (ev_Provider ev) = false).
Proof.
  apply reachable_inv in Hs. split.
  - intros opts r Hin.
    destruct (logged_op _ _ _ _ _ Hs Hin) as (q & γ & es1 & es2 & γ1 & γ2 & [Hq _] & Hev & Hrun1 & Ht & _).
    apply allow_Some in Ht as [(_ & Hsid & Hl & Hm) _]. split; [done|]. split; [eauto|]. intros Hst.
    destruct (history_marked _ _ _ _ Hrun1 (Hm Hst)) as ([o r'] & Hin' & He).
    assert (EOp tid o r' ∈ log s) as Hlog by (apply events_elem_inv; rewrite Hev; apply elem_of_app; by left).
    destruct o; try done. apply bool_decide_eq_true in He. subst. eauto.
  - intros ev r Hin.
    destruct (logged_op _ _ _ _ _ Hs Hin) as (q & γ & es1 & es2 & γ1 & γ2 & _ & _ & _ & Ht & _).
    by apply allow_Some in Ht as [(_ & _ & Hl) _].
Qed.

(** Every call ends and leaves its record: a call makes at most 18 operations;
    as long as it has not returned it can make the next one, whatever the other
    calls do; and a reported exit that is done has written its breadcrumb when
    there is a store. *)
Theorem every_call_ends (C : Config) (s : Sys) (tid : nat) (m : cmd unit)
    (Hs : reachable C s) (Hm : threads s !! tid = Some m) :
  (length (events tid (log s)) ≤ longest_call)%nat ∧
  (m ≠ Ret tt → ∃ s', step C s s' ∧ length (events tid (log s')) = S (length (events tid (log s)))) ∧
  (∀ sid xe meta, m = Ret tt → has_Store C = true → call_of tid (log s) = Some (CExit sid (Some xe) meta) →
     ∃ b, EOp tid (OCrumb b) tt ∈ log s).
Proof.
  apply reachable_inv in Hs. destruct (inv_thread _ _ Hs _ _ Hm) as (q & γ & [Hq Hrun] & Hw & n & Hn & Hle).
  split; [lia|]. split.
  - intros Hne. destruct m as [[]|o k]; [done|].
    assert (∃ r, answers s tid o r) as [r Hr].
    { exists (answer (λ o, match o with
        | OBump _ | ONow => 0 | OToken => "" | OCtxErr | OEmit _ _ | OHTTPRetryDep | OHook => true
        | ORemedy _ _ | OBackoff _ | OHTTPRetry _ | OMark _ _ => None | OBoot _ => Ok None | _ => tt end) s tid o).
      apply answer_ok. }
    exists (effect s tid o r (k r)). split; [by apply step_op|]. cbn [log effect].
    rewrite events_op, length_app. cbn. lia.
  - intros sid xe meta -> Hst Hc. rewrite Hq in Hc. injection Hc as ->. destruct Hw as [_ Hfin].
    specialize (Hfin Hst ltac:(by left)). pose proof (history_crumbs _ _ _ _ Hrun) as Hcount.
    destruct (g_crumb γ) as [outcome|]; [|done]. unfold count in Hcount.
    destruct (List.filter _ _) as [|e l] eqn:Hf; [done|].
    assert (In e (e :: l)) as Hin by (by left). rewrite <- Hf in Hin. apply filter_In in Hin as [Hin He].
    destruct e as [o r]. apply list_elem_of_In, events_elem_inv in Hin. apply bool_decide_eq_true in He as [b Hb].
    destruct o; try done. destruct r. eauto.
Qed.

(** A retry whose cancellation is recorded as such is not escalated: its call
    never drops the session's counter. *)
Lemma canceled_is_not_escalated (C : Config) (s : Sys) (tid : nat) (b : Breadcrumb) (sid : string) :
  reachable C s → has_Store C = true → EOp tid (OCrumb b) tt ∈ log s → bc_Outcome b = OutcomeCanceled →
  EOp tid (OClear sid) tt ∉ log s.
Proof.
  intros Hs%reachable_inv Hst Hb Ho Hc.
  destruct (logged_op _ _ _ _ _ Hs Hc) as (q & γ & es1 & es2 & γ1 & γ2 & [Hq Hrun] & Hev & Hrun1 & Ht & Hrun2).
  apply allow_Some in Ht as [(_ & _ & Hg) ->]. specialize (Hg Hst).
  destruct (run_ghost_crumb _ _ _ _ _ Hrun2) as (Hcr & _); [by rewrite Hg|]. rewrite Hg in Hcr.
  destruct (logged_op _ _ _ _ _ Hs Hb) as (q' & γ' & k1 & k2 & δ1 & δ2 & [Hq' Hrun'] & _ & _ & Ht' & Hrun2').
  rewrite Hq in Hq'. injection Hq' as <-. rewrite Hrun in Hrun'. injection Hrun' as <-.
  apply allow_Some in Ht' as [_ ->]. apply run_ghost_crumb in Hrun2' as (Hcr' & _); [|done]. cbn in Hcr'. congruence.
Qed.

(** ** Witnesses *)

Definition demo_broker : Config :=
  mkConfig MaxBrokerRetries (10 * second) true true true true true true demo_causes (λ _, None).
(** A world in which every call succeeds; the token is [t]. *)
Definition kind_world (t : string) (o : op) : resp o :=
  match o with
  | OBump _ | ONow => 0
  | OToken => t
  | OCtxErr | OEmit _ _ | OHTTPRetryDep | OHook => true
  | ORemedy _ _ | OHTTPRetry _ | OMark _ _ => None
  | OBackoff _ => Some "context canceled"
  | OBoot _ => Ok (Some 7%nat)
  | OClear _ | ORegister _ _ | OUnregister _ | OCancelCtx | OAdopt _ _ | OCrumb _ => tt
  end.
Definition demo_meta (provider : string) : gmap string MetaVal := {[ "provider" := MString provider ]}.
Definition crash : ExitError := mkExitError "" 1 11.
Definition report (s : Sys) (tid : nat) (provider : string) : Sys :=
  enter demo_broker s tid (CExit "s1" (Some crash) (demo_meta provider)).

Lemma report_reachable s tid provider :
  reachable demo_broker s → threads s !! tid = None → reachable demo_broker (report s tid provider).
Proof. intros Hs Hn. eapply reachable_step; [exact Hs|]. by apply step_enter. Qed.

(** Two crashes of one session, handled side by side: the second call starts when
    the first has registered its retry. *)
Definition demo_run : Sys :=
  let s := report (init true true) 0 "claude" in
  let s := run_call 6 (kind_world "t0") s 0 in
  let s := report s 1 "claude" in
  run_call 20 (kind_world "t0") (run_call 20 (kind_world "t1") s 1) 0.
Lemma demo_run_reachable : reachable demo_broker demo_run.
Proof.
  repeat apply reachable_run. apply report_reachable; [|vm_compute; reflexivity].
  apply reachable_run, report_reachable; [apply reachable_init|reflexivity].
Qed.

(** A crash of an HTTP session, canceled by its user during the back-off. *)
Definition canceled_run : Sys :=
  let s := report (init true true) 0 "openai" in
  let s := run_call 8 (kind_world "t0") s 0 in
  let s := (Cancel s "s1" "t0").2 in
  run_call 20 (kind_world "t0") s 0.
Lemma canceled_run_reachable : reachable demo_broker canceled_run.
Proof.
  apply reachable_run. eapply reachable_step; [|apply step_cancel].
  apply reachable_run, report_reachable; [apply reachable_init|reflexivity].
Qed.
Definition outcomes (s : Sys) (tid : nat) : list Outcome :=
  omap (λ e, bc_Outcome <$> ev_crumb e) (events tid (log s)).

(** Its breadcrumb says permanent, not canceled. *)
Example canceled_backoff_is_permanent :
  outcomes canceled_run 0 = [OutcomePermanent] ∧ outcomes demo_run 0 = [OutcomeTransientRetrySucceeded].
Proof. vm_compute. split; reflexivity. Qed.

Definition demo_options : Options := mkOptions ModeLongLived "s1" "" "" "" "claude".
Lemma demo_boots (t : nat) : t = 0%nat ∨ t = 1%nat → EOp t (OBoot demo_options) (Ok (Some 7%nat)) ∈ log demo_run.
Proof.
  intros [->| ->]; apply list_elem_of_lookup; [exists 26%nat|exists 16%nat]; vm_compute; reflexivity.
Qed.

Lemma retry_budget_holds_witness : (length [0; 1]%nat ≤ Z.to_nat 3)%nat.
Proof.
  refine (proj1 (retry_budget_holds demo_broker demo_run "s1" 0 [0; 1]%nat demo_run_reachable _ _)).
  - by_decide.
  - intros t Ht. assert (t = 0%nat ∨ t = 1%nat) as Ht' by set_solver. split.
    + left. exists demo_options, (Ok (Some 7%nat)). by apply demo_boots.
    + destruct Ht' as [->| ->].
      * exists (take 1 (log demo_run)), 1, (drop 2 (log demo_run)). split; vm_compute; reflexivity.
      * exists (take 8 (log demo_run)), 2, (drop 9 (log demo_run)). split; vm_compute; reflexivity.
Defined.
Lemma cancel_is_bound_to_session_witness :
  0%nat ∈ canceled canceled_run ∧
  (EOp 0 OCancelCtx tt ∈ log canceled_run ∨ (∃ tok, ECancelRetry tok (Some 0%nat) ∈ log canceled_run) ∨
   ∃ q tok, call_of 0 (log canceled_run) = Some q ∧ ECancel (session_of q) tok (Some 0%nat) ∈ log canceled_run).
Proof.
  assert (0%nat ∈ canceled canceled_run) as Hin by by_decide. split; [exact Hin|].
  exact (proj1 (cancel_is_bound_to_session demo_broker canceled_run canceled_run_reachable) 0%nat Hin).
Defined.
Lemma demo_run_done : ∀ tid m, threads demo_run !! tid = Some m → m = Ret tt.
Proof.
  apply (map_Forall_to_list (λ (_ : nat) m, m = Ret tt)). vm_compute. by repeat constructor.
Qed.
Lemma no_retry_entry_leaks_witness : activeRetries demo_run = ∅.
Proof. exact (no_retry_entry_leaks demo_broker demo_run demo_run_reachable demo_run_done). Defined.

Definition demo_crumb : Breadcrumb :=
  mkBreadcrumb 0 "s1" ClassTransient "" RemediationNone ActionRetryTransient OutcomeTransientRetrySucceeded 1 0
    "SIGSEGV (signal 11): exotic crash, single retry".
Lemma breadcrumbs_tell_the_truth_witness : dispatch_ok demo_run 0.
Proof.
  destruct (breadcrumbs_tell_the_truth demo_broker demo_run 0 "s1" crash (demo_meta "claude") demo_crumb
    demo_run_reachable) as (_ & _ & _ & Hok).
  - vm_compute. reflexivity.
  - apply list_elem_of_lookup. exists 31%nat. vm_compute. reflexivity.
  - exact Hok.
Defined.
Lemma dispatch_matches_provider_witness : HasBootdirLayout (λ _, None) "claude" = true.
Proof.
  exact (proj1 (proj1 (dispatch_matches_provider demo_broker demo_run 0 demo_run_reachable) demo_options
    (Ok (Some 7%nat)) (demo_boots 0 (or_introl eq_refl)))).
Defined.
Lemma every_call_ends_witness : (length (events 0 (log demo_run)) ≤ longest_call)%nat.
Proof.
  refine (proj1 (every_call_ends demo_broker demo_run 0 (Ret tt) demo_run_reachable _)).
  vm_compute. reflexivity.
Defined.
