(* ===== verification/HarnessProfile.v ===== *)
(** * Harness profiles

    [internal/harnessprofile]: the limits a chat run works under.  Each layer of
    configuration (app settings, the profile and the profiles it extends, their
    per-model blocks, the agent, the launch, the environment) states some knobs; the
    most specific statement wins and the host's bounds are applied last.  The
    directory of profile files is a map from file name to node; the YAML decoder, the
    digest and [strconv.ParseFloat] are parameters.  The type of a cost budget belongs
    to another repository and is a parameter too. *)

From stdpp Require Import sorting.
From Stdlib Require Import SpecFloat.
From S2P Require Import Prelude GoStrings GoNum GoGlob.

Open Scope string_scope.
Open Scope Z_scope.
Set Default Proof Using "Type".

(** ** Knobs, layers, profiles *)

Inductive GuardMode :=
| GuardOff
| GuardWarn
| GuardAsk
| GuardDeny
| GuardOther (s : string).
#[global] Instance GuardMode_eq_dec : EqDecision GuardMode.
Proof. solve_decision. Defined.
Definition GuardMode_of (s : string) : GuardMode :=
  if bool_decide (s = "off") then GuardOff
  else if bool_decide (s = "warn") then GuardWarn
  else if bool_decide (s = "ask") then GuardAsk
  else if bool_decide (s = "deny") then GuardDeny
  else GuardOther s.
Definition Valid (m : GuardMode) : bool :=
  match m with GuardOther _ => false | _ => true end.

Definition second : Z := 1000000000.
Definition millisecond : Z := 1000000.

Record Knobs := mkKnobs {
  SubagentIdleTimeoutMs : option Z;
  HardCeiling : option Z;
  ConsecutiveFailCap : option Z;
  RunawayFailCap : option Z;
  PerToolCap : option Z;
  MaxConcurrentTools : option Z;
  CompactPreviewBytes : option Z;
  PreviewPct : option float64;
  PreviewMinBytes : option Z;
  PreviewMaxBytes : option Z;
  ToolOutputPct : option float64;
  ToolOutputMinBytes : option Z;
  ToolOutputMaxBytes : option Z;
  ToolOutputRemainingShare : option float64;
  ToolOutputRemainingFloor : option Z;
}.
Definition no_knobs : Knobs :=
  mkKnobs None None None None None None None None None None None None None None None.

(** The resolved values of a run. *)
Record Values := mkValues {
  v_IdleTimeout : Z;
  v_SubagentIdleTimeout : Z;
  v_HardCeiling : Z;
  v_ConsecutiveFailCap : Z;
  v_RunawayFailCap : Z;
  v_PerToolCap : Z;
  v_MaxConcurrentTools : Z;
  v_CompactPreviewBytes : Z;
  v_PreviewPct : float64;
  v_PreviewMinBytes : Z;
  v_PreviewMaxBytes : Z;
  v_ToolOutputBytes : option Z;
  v_ToolOutputPct : float64;
  v_ToolOutputMinBytes : Z;
  v_ToolOutputMaxBytes : Z;
  v_ToolOutputRemainingShare : float64;
  v_ToolOutputRemainingFloor : Z;
  v_WriteClaimGuard : GuardMode;
}.

(** What a clamp records of the value asked for: the value whose printed form is
    the field [Requested]. *)
Inductive Request :=
| RDur (d : Z)
| RInt (z : Z)
| RFloat (f : float64).
#[global] Instance Request_eq_dec : EqDecision Request.
Proof. solve_decision. Defined.
Record Source := mkSource {
  src_layer : string;
  src_clamped : bool;
  src_requested : option Request;
}.
Definition from (layer : string) : Source := mkSource layer false None.

Definition maxToolOutputBytes : Z := 64 * 2 ^ 20.
Definition minDuration : Z := second.
Definition maxDuration : Z := 24 * 3600 * second.

(** The computed defaults. *)
Definition computed_values : Values := {|
  v_IdleTimeout := 900 * second;
  v_SubagentIdleTimeout := 300 * second;
  v_HardCeiling := 200;
  v_ConsecutiveFailCap := 3;
  v_RunawayFailCap := 10;
  v_PerToolCap := 0;
  v_MaxConcurrentTools := 8;
  v_CompactPreviewBytes := 512;
  v_PreviewPct := f_ratio 4 1000;
  v_PreviewMinBytes := 4000;
  v_PreviewMaxBytes := 32000;
  v_ToolOutputBytes := None;
  v_ToolOutputPct := f_ratio 3 100;
  v_ToolOutputMinBytes := 24 * 1024;
  v_ToolOutputMaxBytes := 512 * 1024;
  v_ToolOutputRemainingShare := f_ratio 1 4;
  v_ToolOutputRemainingFloor := 4 * 1024;
  v_WriteClaimGuard := GuardDeny;
|}.
(** The keys of the values, each with a source from the start. *)
Definition value_keys : list string :=
  ["idle_timeout_ms"; "subagent_idle_timeout_ms"; "hard_ceiling"; "consecutive_fail_cap";
   "runaway_fail_cap"; "per_tool_cap"; "max_concurrent_tools"; "compact_preview_bytes"; "preview_pct";
   "preview_min_bytes"; "preview_max_bytes"; "tool_output_bytes"; "tool_output_pct";
   "tool_output_min_bytes"; "tool_output_max_bytes"; "tool_output_remaining_share";
   "tool_output_remaining_floor_bytes"; "write_claim_guard"].

(** ** The ceiling of a turn *)

Section Ceiling.
(** [int(x)] outside the range of [int], left to the implementation. *)
Variable oob : float64 → Z.

Definition RemainingCap (v : Values) (remainingTokens : Z) : Z :=
  if remainingTokens <? 0 then -1
  else Z.max (v_ToolOutputRemainingFloor v)
         (int_of_float oob (f_mul (f_of_Z (wrap64 (remainingTokens * 4))) (v_ToolOutputRemainingShare v))).

Definition TurnCeiling (v : Values) (windowTokens remainingTokens : Z) : Z :=
  let limited base :=
    let limit := RemainingCap v remainingTokens in
    if 0 <=? limit then Z.min base limit else base in
  match v_ToolOutputBytes v with
  | Some b => if b =? 0 then 0 else limited (Z.min b maxToolOutputBytes)
  | None =>
      if windowTokens <=? 0 then limited (v_ToolOutputMinBytes v)
      else
        let base := int_of_float oob (f_mul (f_of_Z (wrap64 (windowTokens * 4))) (v_ToolOutputPct v)) in
        limited (Z.max (v_ToolOutputMinBytes v) (Z.min base (v_ToolOutputMaxBytes v)))
  end.
End Ceiling.
Definition EffectiveIdleTimeout (v : Values) (subagent : bool) : Z :=
  if subagent then v_SubagentIdleTimeout v else v_IdleTimeout v.

Lemma lookup_const {A} (a : A) (ks : list string) key :
  (list_to_map ((λ k, (k, a)) <$> ks) : gmap string A) !! key = if bool_decide (key ∈ ks) then Some a else None.
Proof.
  induction ks as [|k ks IH]; [done|]. cbn [fmap list_fmap list_to_map foldr]. cbn.
  destruct (decide (key = k)) as [->|Hne].
  - rewrite lookup_insert_eq, bool_decide_true by set_solver. done.
  - rewrite lookup_insert_ne, IH by done. by rewrite (bool_decide_ext (key ∈ k :: ks) (key ∈ ks)) by set_solver.
Qed.
Lemma str_app_inj_l (a b c : string) : a +:+ c = b +:+ c → a = b.
Proof.
  intros H. apply (f_equal str_rev) in H. rewrite !str_rev_app in H.
  assert (∀ x y z : string, x +:+ y = x +:+ z → y = z) as Hl.
  { intros x. induction x as [|ch x IH]; [done|]. intros y z. rewrite !str_app_cons. intros [= He]. by apply IH. }
  apply Hl in H. rewrite <- (str_rev_involutive a), <- (str_rev_involutive b). by rewrite H.
Qed.
Lemma str_take_app a b : str_take (String.length a) (a +:+ b) = a.
Proof. induction a as [|x a IH]; [by destruct b|]. rewrite str_app_cons. cbn. by rewrite IH. Qed.

Section Cost.
Context {Cost : Type} (cost_negative : Cost → bool).

Record Limits := mkLimits {
  MaxDurationMs : option Z;
  IdleTimeoutMs : option Z;
  CostBudget : option Cost;
  TokenBudget : option Z;
  MaxTurns : option Z;
  MaxRetries : option Z;
  ToolOutputBytes : option Z;
}.
Definition no_limits : Limits := mkLimits None None None None None None None.

Record Layer := mkLayer {
  l_limits : Limits;
  l_harness : Knobs;
  l_guard : option GuardMode;
}.
Definition empty_layer : Layer := mkLayer no_limits no_knobs None.

Record Profile := mkProfile {
  Name : string;
  Extends : string;
  p_layer : Layer;
  Models : gmap string Layer;
}.

(** ** Validation *)

Definition negative (o : option Z) : bool := match o with Some z => z <? 0 | None => false end.
(** [x <= 0 || x > 1], which a NaN does not satisfy. *)
Definition not_fraction (o : option float64) : bool :=
  match o with
  | Some x => SFleb x (f_of_Z 0) || SFltb (f_of_Z 1) x
  | None => false
  end.
(** The fields of the joined error, none when the layer is valid. *)
Definition validateLayer (l : Layer) : list string :=
  let lim := l_limits l in
  let h := l_harness l in
  let bad (name : string) (b : bool) : list string := if b then [name] else [] in
  (bad "limits.max_duration_ms" (negative (MaxDurationMs lim)) ++
   bad "limits.idle_timeout_ms" (negative (IdleTimeoutMs lim)) ++
   bad "limits.cost_budget" (match CostBudget lim with Some c => cost_negative c | None => false end) ++
   bad "limits.token_budget" (negative (TokenBudget lim)) ++
   bad "limits.max_turns" (negative (MaxTurns lim)) ++
   bad "limits.max_retries" (negative (MaxRetries lim)) ++
   bad "limits.tool_output_bytes" (negative (ToolOutputBytes lim)) ++
   bad "harness.subagent_idle_timeout_ms" (negative (SubagentIdleTimeoutMs h)) ++
   bad "harness.hard_ceiling" (negative (HardCeiling h)) ++
   bad "harness.max_concurrent_tools" (negative (MaxConcurrentTools h)) ++
   bad "harness.consecutive_fail_cap" (negative (ConsecutiveFailCap h)) ++
   bad "harness.runaway_fail_cap" (negative (RunawayFailCap h)) ++
   bad "harness.per_tool_cap" (negative (PerToolCap h)) ++
   bad "harness.compact_preview_bytes" (negative (CompactPreviewBytes h)) ++
   bad "harness.preview_min_bytes" (negative (PreviewMinBytes h)) ++
   bad "harness.preview_max_bytes" (negative (PreviewMaxBytes h)) ++
   bad "hooks.write_claim_guard" (match l_guard l with Some g => negb (Valid g) | None => false end) ++
   bad "harness.preview_pct" (not_fraction (PreviewPct h)) ++
   bad "harness.tool_output_min_bytes" (negative (ToolOutputMinBytes h)) ++
   bad "harness.tool_output_max_bytes" (negative (ToolOutputMaxBytes h)) ++
   bad "harness.tool_output_remaining_floor_bytes" (negative (ToolOutputRemainingFloor h)) ++
   bad "harness.tool_output_pct" (not_fraction (ToolOutputPct h)) ++
   bad "harness.tool_output_remaining_share" (not_fraction (ToolOutputRemainingShare h)))%list.
Definition layer_ok (l : Layer) : bool := bool_decide (validateLayer l = []).

(** [nameRE], [^[a-z0-9][a-z0-9._-]*$]. *)
Definition name_start (a : ascii) : bool :=
  let n := nat_of_ascii a in
  (bool_decide (97 ≤ n)%nat && bool_decide (n ≤ 122)%nat) || (bool_decide (48 ≤ n)%nat && bool_decide (n ≤ 57)%nat).
Definition name_char (a : ascii) : bool :=
  name_start a || bool_decide (a ∈ ["."; "_"; "-"]%char).
Fixpoint all_chars (P : ascii → bool) (s : string) : bool :=
  match s with "" => true | String a s' => P a && all_chars P s' end.
Definition nameRE (s : string) : bool :=
  match s with "" => false | String a s' => name_start a && all_chars name_char s' end.

Inductive PError :=
| EName (name : string)
| EExtends (name extends : string)
| EExtendsItself (name : string)
| ELayer (name : string) (fields : list string)
| EPattern (name pattern : string)
| EModelLayer (name pattern : string) (fields : list string)
| EYAML
| EUnknown (name : string) (available : list string)
| ECycle (name through : string)
| EStat (name : string)
| ERead (name : string)
| EFile (file : string) (e : PError)
| EFileName (file name : string)
| EBuiltin (file : string) (e : PError)
| EClash (file name : string)
| EDefault (e : PError)
| EInput (layer : string) (fields : list string)
| EEnvParse (var raw : string)
| EEnvLayer (var raw : string) (fields : list string)
| EFuel.

(** The first problem of the per-model blocks, in the iteration order of the map. *)
Fixpoint validate_models (name : string) (ms : list (string * Layer)) : option PError :=
  match ms with
  | [] => None
  | (pattern, l) :: ms' =>
      match Match pattern "" with
      | None => Some (EPattern name pattern)
      | Some _ =>
          let bad := validateLayer l in
          if bool_decide (bad = []) then validate_models name ms' else Some (EModelLayer name pattern bad)
      end
  end.
Definition validate (p : Profile) : option PError :=
  if negb (nameRE (Name p)) then Some (EName (Name p))
  else if bool_decide (Extends p ≠ "") && negb (nameRE (Extends p)) then Some (EExtends (Name p) (Extends p))
  else if bool_decide (Extends p = Name p) then Some (EExtendsItself (Name p))
  else
    let bad := validateLayer (p_layer p) in
    if bool_decide (bad ≠ []) then Some (ELayer (Name p) bad)
    else validate_models (Name p) (map_to_list (Models p)).

(** ** Per-model blocks *)

Fixpoint count_char (c : ascii) (s : string) : Z :=
  match s with "" => 0 | String a s' => (if bool_decide (a = c) then 1 else 0) + count_char c s' end.
Definition literalLen (pattern : string) : Z :=
  Z.of_nat (String.length pattern) - count_char "*" pattern - count_char "?" pattern.
(** The order [sort.Slice] sorts by, [less] or equal. *)
Definition pattern_le (a b : string) : Prop :=
  literalLen a < literalLen b ∨ (literalLen a = literalLen b ∧ String.le a b).
#[global] Instance pattern_le_dec : RelDecision pattern_le.
Proof. intros a b. unfold pattern_le. apply _. Defined.
(** [modelPatterns], the patterns being met in the order [keys]. *)
Definition sort_patterns (keys : list string) (model : string) : list string :=
  if bool_decide (model = "") then []
  else merge_sort pattern_le (List.filter (λ k, bool_decide (Match k model = Some true)) keys).
Definition modelPatterns (p : Profile) (model : string) : list string :=
  sort_patterns (map_to_list (Models p)).*1 model.

(** ** The registry *)

Record fileEntry := mkFileEntry {
  fe_modTime : Z;
  fe_size : Z;
  fe_profile : Profile;
}.
(** An entry of the profiles directory: what [os.Stat] says of it, and its content
    when it can be read. *)
Inductive Node :=
| Dir (modTime size : Z)
| NoStat
| Regular (modTime size : Z) (data : option string).
(** The registry; [r_dir] is [None] when it has no directory. *)
Record Registry := mkRegistry {
  defaultName : string;
  builtin : gmap string Profile;
  r_dir : option (gmap string Node);
}.
Definition Cache : Type := gmap string fileEntry.

Definition exts : list string := [".yaml"; ".yml"].
Definition trim_suffix (s suf : string) : string :=
  if has_suffix s suf then str_take (String.length s - String.length suf) s else s.
Definition profileFileName (file : string) : option string :=
  if has_suffix file ".yaml" then Some (trim_suffix file ".yaml")
  else if has_suffix file ".yml" then Some (trim_suffix file ".yml")
  else None.
(** The profile names of the directory's entries that are not directories. *)
Definition dir_names (dir : gmap string Node) : list string :=
  omap (λ x, match x.2 with Dir _ _ => None | _ => profileFileName x.1 end) (map_to_list dir).
Definition Names (r : Registry) : list string :=
  merge_sort String.le
    (elements (dom (builtin r) ∪ match r_dir r with Some d => list_to_set (dir_names d) | None => ∅ end : gset string)).

Section Registry.
(** The YAML decoder with known fields only. *)
Variable decode : string → option Profile.

Definition ParseProfile (data : string) : result PError Profile :=
  match decode data with
  | None => Err EYAML
  | Some p => match validate p with Some e => Err e | None => Ok p end
  end.

Definition unknown {A} (r : Registry) (name : string) : act Cache PError A := fail (EUnknown name (Names r)).
(** [loadFile]: the cached profile while the file's time and size are the same, else
    the file read, parsed, checked and cached. *)
Definition read_profile (name file : string) (modTime size : Z) (data : option string) : act Cache PError Profile :=
  match data with
  | None => fail (ERead name)
  | Some d =>
      p ← wrap (EFile file) (lift (ParseProfile d));
      if bool_decide (Name p ≠ name) then fail (EFileName file (Name p))
      else _ ← modify (<[file := mkFileEntry modTime size p]>); mret p
  end.
Definition loadFile (name file : string) (modTime size : Z) (data : option string) : act Cache PError Profile :=
  files ← get;
  match files !! file with
  | Some e => if (fe_modTime e =? modTime) && (fe_size e =? size) then mret (fe_profile e)
              else read_profile name file modTime size data
  | None => read_profile name file modTime size data
  end.
(** The candidate files of a name, in order; a directory is found by [os.Stat] and
    cannot be read. *)
Fixpoint load_ext (r : Registry) (dir : gmap string Node) (name : string) (es : list string)
    : act Cache PError Profile :=
  match es with
  | [] => unknown r name
  | ext :: es' =>
      match dir !! (name +:+ ext) with
      | None => load_ext r dir name es'
      | Some NoStat => fail (EStat name)
      | Some (Dir t s) => loadFile name (name +:+ ext) t s None
      | Some (Regular t s d) => loadFile name (name +:+ ext) t s d
      end
  end.
Definition load (r : Registry) (name : string) : act Cache PError Profile :=
  match builtin r !! name with
  | Some p => mret p
  | None =>
      match r_dir r with
      | Some dir => if nameRE name then load_ext r dir name exts else unknown r name
      | None => unknown r name
      end
  end.

(** The loop of [chain]: [rev] is what was collected, last first. *)
Fixpoint chain_from (fuel : nat) (r : Registry) (name cur : string) (seen : gset string) (rev : list Profile)
    : act Cache PError (list Profile) :=
  match fuel with
  | O => fail EFuel
  | S f =>
      if bool_decide (cur = "") then mret rev
      else if bool_decide (cur ∈ seen) then fail (ECycle name cur)
      else
        p ← load r cur;
        chain_from f r name (Extends p) ({[cur]} ∪ seen) (p :: rev)
  end.
(** The names that can load: the built-ins and the names of the files. *)
Definition candidates (r : Registry) : list string :=
  (elements (dom (builtin r)) ++
   match r_dir r with Some d => omap profileFileName (map_to_list d).*1 | None => [] end)%list.
Definition chain (r : Registry) (name : string) : act Cache PError (list Profile) :=
  chain_from (2 + length (candidates r)) r name name ∅ [].
Definition Exists (r : Registry) (name : string) : act Cache PError unit := _ ← chain r name; mret tt.

(** [NewRegistry]; [embedded] are the built-in files, by name. *)
Fixpoint load_builtins (embedded : list (string * string)) (b : gmap string Profile) : result PError (gmap string Profile) :=
  match embedded with
  | [] => Ok b
  | (file, data) :: rest =>
      match ParseProfile data with
      | Err e => Err (EBuiltin file e)
      | Ok p =>
          if bool_decide (Name p +:+ ".yaml" ≠ file) then Err (EBuiltin file (EFileName file (Name p)))
          else load_builtins rest (<[Name p := p]> b)
      end
  end.
Definition clashes (b : gmap string Profile) (dir : gmap string Node) : list (string * string) :=
  omap (λ x, match x.2 with
             | Dir _ _ => None
             | _ => n ← profileFileName x.1; if bool_decide (is_Some (b !! n)) then Some (x.1, n) else None
             end) (map_to_list dir).
Definition NewRegistry (embedded : list (string * string)) (dir : option (gmap string Node)) (dflt : string)
    : act Cache PError Registry :=
  b ← lift (load_builtins embedded ∅);
  let r := mkRegistry (if bool_decide (dflt = "") then "default" else dflt) b dir in
  match (match dir with Some d => clashes b d | None => [] end) with
  | (file, n) :: _ => fail (EClash file n)
  | [] => _ ← wrap EDefault (chain r (defaultName r)); mret r
  end.

(** ** Applying a layer *)

Record work := mkWork {
  w_v : Values;
  w_limits : Limits;
  w_sources : gmap string Source;
}.
Definition setComputed : work :=
  mkWork computed_values no_limits (list_to_map ((λ k, (k, from "computed")) <$> value_keys)).

(** [time.Duration(ms) * time.Millisecond] on [int64]. *)
Definition duration_ms (ms : Z) : Z := wrap64 (ms * millisecond).

Definition stated {A} (o : option A) : bool := match o with Some _ => true | None => false end.
(** The keys a layer states, in the order [apply] visits them. *)
Definition statements (l : Layer) : list (string * bool) :=
  let lim := l_limits l in
  let h := l_harness l in
  [("idle_timeout_ms", stated (IdleTimeoutMs lim));
   ("subagent_idle_timeout_ms", stated (SubagentIdleTimeoutMs h));
   ("hard_ceiling", stated (HardCeiling h));
   ("max_concurrent_tools", stated (MaxConcurrentTools h));
   ("consecutive_fail_cap", stated (ConsecutiveFailCap h));
   ("runaway_fail_cap", stated (RunawayFailCap h));
   ("per_tool_cap", stated (PerToolCap h));
   ("compact_preview_bytes", stated (CompactPreviewBytes h));
   ("preview_pct", stated (PreviewPct h));
   ("preview_min_bytes", stated (PreviewMinBytes h));
   ("preview_max_bytes", stated (PreviewMaxBytes h));
   ("tool_output_pct", stated (ToolOutputPct h));
   ("tool_output_min_bytes", stated (ToolOutputMinBytes h));
   ("tool_output_max_bytes", stated (ToolOutputMaxBytes h));
   ("tool_output_remaining_share", stated (ToolOutputRemainingShare h));
   ("tool_output_remaining_floor_bytes", stated (ToolOutputRemainingFloor h));
   ("write_claim_guard", stated (l_guard l));
   ("max_duration_ms", stated (MaxDurationMs lim));
   ("cost_budget", stated (CostBudget lim));
   ("token_budget", stated (TokenBudget lim));
   ("max_turns", stated (MaxTurns lim));
   ("max_retries", stated (MaxRetries lim));
   ("tool_output_bytes", stated (ToolOutputBytes lim))].
Definition note (layer : string) (s : gmap string Source) (st : string * bool) : gmap string Source :=
  if st.2 then <[st.1 := from layer]> s else s.

(** [or_keep o old]: the assignment under [if o != nil]. *)
Definition or_keep {A} (o : option A) (old : A) : A := match o with Some a => a | None => old end.
Definition or_keep_o {A} (o old : option A) : option A := match o with Some a => Some a | None => old end.

Definition apply_values (l : Layer) (v : Values) : Values :=
  let lim := l_limits l in
  let h := l_harness l in
  {| v_IdleTimeout := or_keep (duration_ms <$> IdleTimeoutMs lim) (v_IdleTimeout v);
     v_SubagentIdleTimeout := or_keep (duration_ms <$> SubagentIdleTimeoutMs h) (v_SubagentIdleTimeout v);
     v_HardCeiling := or_keep (HardCeiling h) (v_HardCeiling v);
     v_MaxConcurrentTools := or_keep (MaxConcurrentTools h) (v_MaxConcurrentTools v);
     v_ConsecutiveFailCap := or_keep (ConsecutiveFailCap h) (v_ConsecutiveFailCap v);
     v_RunawayFailCap := or_keep (RunawayFailCap h) (v_RunawayFailCap v);
     v_PerToolCap := or_keep (PerToolCap h) (v_PerToolCap v);
     v_CompactPreviewBytes := or_keep (CompactPreviewBytes h) (v_CompactPreviewBytes v);
     v_PreviewPct := or_keep (PreviewPct h) (v_PreviewPct v);
     v_PreviewMinBytes := or_keep (PreviewMinBytes h) (v_PreviewMinBytes v);
     v_PreviewMaxBytes := or_keep (PreviewMaxBytes h) (v_PreviewMaxBytes v);
     v_ToolOutputPct := or_keep (ToolOutputPct h) (v_ToolOutputPct v);
     v_ToolOutputMinBytes := or_keep (ToolOutputMinBytes h) (v_ToolOutputMinBytes v);
     v_ToolOutputMaxBytes := or_keep (ToolOutputMaxBytes h) (v_ToolOutputMaxBytes v);
     v_ToolOutputRemainingShare := or_keep (ToolOutputRemainingShare h) (v_ToolOutputRemainingShare v);
     v_ToolOutputRemainingFloor := or_keep (ToolOutputRemainingFloor h) (v_ToolOutputRemainingFloor v);
     v_WriteClaimGuard := or_keep (l_guard l) (v_WriteClaimGuard v);
     v_ToolOutputBytes := or_keep_o (ToolOutputBytes lim) (v_ToolOutputBytes v) |}.
(** The limits carried along; the idle timeout is not one of them. *)
Definition apply_limits (lim old : Limits) : Limits :=
  {| MaxDurationMs := or_keep_o (MaxDurationMs lim) (MaxDurationMs old);
     IdleTimeoutMs := IdleTimeoutMs old;
     CostBudget := or_keep_o (CostBudget lim) (CostBudget old);
     TokenBudget := or_keep_o (TokenBudget lim) (TokenBudget old);
     MaxTurns := or_keep_o (MaxTurns lim) (MaxTurns old);
     MaxRetries := or_keep_o (MaxRetries lim) (MaxRetries old);
     ToolOutputBytes := or_keep_o (ToolOutputBytes lim) (ToolOutputBytes old) |}.
Definition apply (w : work) (nl : string * Layer) : work :=
  {| w_v := apply_values nl.2 (w_v w);
     w_limits := apply_limits (l_limits nl.2) (w_limits w);
     w_sources := fold_left (note nl.1) (statements nl.2) (w_sources w) |}.

(** ** Host bounds *)

Definition clampInt (lo hi v : Z) : Z * option Request :=
  if (lo <=? v) && (v <=? hi) then (v, None) else (clampZ lo hi v, Some (RInt v)).
Definition clampDur (v : Z) : Z * option Request :=
  if (minDuration <=? v) && (v <=? maxDuration) then (v, None) else (clampZ minDuration maxDuration v, Some (RDur v)).
Definition clampFloat (lo hi v : float64) : float64 * option Request :=
  (clampF lo hi v, if SFltb v lo || SFltb hi v then Some (RFloat v) else None).
(** A value that may not sit below another one. *)
Definition couple (floor v : Z) : Z * option Request :=
  if v <? floor then (floor, Some (RInt v)) else (v, None).
Definition clampBytes (b : option Z) : option Z * option Request :=
  match b with
  | Some z => if negb (z =? 0) && ((z <? 1024) || (maxToolOutputBytes <? z))
              then (Some (clampZ 1024 maxToolOutputBytes z), Some (RInt z)) else (b, None)
  | None => (b, None)
  end.

Definition markClamped (key : string) (req : option Request) (s : gmap string Source) : gmap string Source :=
  match req with
  | Some r => <[key := mkSource (match s !! key with Some src => src_layer src | None => "" end) true (Some r)]> s
  | None => s
  end.
Definition marks (ms : list (string * option Request)) (s : gmap string Source) : gmap string Source :=
  fold_left (λ s m, markClamped m.1 m.2 s) ms s.

Definition clamp (w : work) : work :=
  let v := w_v w in
  let '(idle, m1) := clampDur (v_IdleTimeout v) in
  let '(sub, m2) := clampDur (v_SubagentIdleTimeout v) in
  let '(hard, m3) := clampInt 1 10000 (v_HardCeiling v) in
  let '(conc, m4) := clampInt 1 64 (v_MaxConcurrentTools v) in
  let '(soft, m5) := clampInt 1 1000 (v_ConsecutiveFailCap v) in
  let '(run, m6) := clampInt 1 1000 (v_RunawayFailCap v) in
  let '(tool, m7) := clampInt 0 100000 (v_PerToolCap v) in
  let '(compact, m8) := clampInt 64 (2 ^ 20) (v_CompactPreviewBytes v) in
  let '(pmin, m9) := clampInt 256 (2 ^ 20) (v_PreviewMinBytes v) in
  let '(pmax, m10) := clampInt 256 (4 * 2 ^ 20) (v_PreviewMaxBytes v) in
  let '(pct, m11) := clampFloat (f_ratio 5 10000) (f_ratio 5 100) (v_PreviewPct v) in
  let '(run, m12) := couple soft run in
  let '(bytes, m13) := clampBytes (v_ToolOutputBytes v) in
  let '(tmin, m14) := clampInt 1024 maxToolOutputBytes (v_ToolOutputMinBytes v) in
  let '(tmax, m15) := clampInt 1024 maxToolOutputBytes (v_ToolOutputMaxBytes v) in
  let '(floor, m16) := clampInt 256 (2 ^ 20) (v_ToolOutputRemainingFloor v) in
  let '(tpct, m17) := clampFloat (f_ratio 5 10000) (f_ratio 5 10) (v_ToolOutputPct v) in
  let '(share, m18) := clampFloat (f_ratio 1 100) (f_of_Z 1) (v_ToolOutputRemainingShare v) in
  let '(tmax, m19) := couple tmin tmax in
  let '(pmax, m20) := couple pmin pmax in
  let lim := w_limits w in
  {| w_v := {| v_IdleTimeout := idle; v_SubagentIdleTimeout := sub; v_HardCeiling := hard;
               v_ConsecutiveFailCap := soft; v_RunawayFailCap := run; v_PerToolCap := tool;
               v_MaxConcurrentTools := conc; v_CompactPreviewBytes := compact; v_PreviewPct := pct;
               v_PreviewMinBytes := pmin; v_PreviewMaxBytes := pmax; v_ToolOutputBytes := bytes;
               v_ToolOutputPct := tpct; v_ToolOutputMinBytes := tmin; v_ToolOutputMaxBytes := tmax;
               v_ToolOutputRemainingShare := share; v_ToolOutputRemainingFloor := floor;
               v_WriteClaimGuard := v_WriteClaimGuard v |};
     w_limits := {| MaxDurationMs := MaxDurationMs lim; IdleTimeoutMs := IdleTimeoutMs lim;
                    CostBudget := CostBudget lim; TokenBudget := TokenBudget lim; MaxTurns := MaxTurns lim;
                    MaxRetries := MaxRetries lim;
                    ToolOutputBytes := match m13 with Some _ => bytes | None => ToolOutputBytes lim end |};
     w_sources := marks [("idle_timeout_ms", m1); ("subagent_idle_timeout_ms", m2); ("hard_ceiling", m3);
       ("max_concurrent_tools", m4); ("consecutive_fail_cap", m5); ("runaway_fail_cap", m6);
       ("per_tool_cap", m7); ("compact_preview_bytes", m8); ("preview_min_bytes", m9);
       ("preview_max_bytes", m10); ("preview_pct", m11); ("runaway_fail_cap", m12);
       ("tool_output_bytes", m13); ("tool_output_min_bytes", m14); ("tool_output_max_bytes", m15);
       ("tool_output_remaining_floor_bytes", m16); ("tool_output_pct", m17);
       ("tool_output_remaining_share", m18); ("tool_output_max_bytes", m19); ("preview_max_bytes", m20)]
       (w_sources w) |}.

Definition unenforced (l : Limits) : list string :=
  let name (s : string) (b : bool) : list string := if b then [s] else [] in
  (name "max_duration_ms" (stated (MaxDurationMs l)) ++ name "cost_budget" (stated (CostBudget l)) ++
   name "token_budget" (stated (TokenBudget l)) ++ name "max_turns" (stated (MaxTurns l)) ++
   name "max_retries" (stated (MaxRetries l)))%list.

(** ** Environment overrides *)

Section Env.
(** [strconv.ParseFloat(s, 64)]. *)
Variable ParseFloat : string → option float64.
Variable getenv : string → option string.

Definition parse_guard (s : string) : option Layer :=
  let m := GuardMode_of (lower s) in
  if Valid m then Some (mkLayer no_limits no_knobs (Some m)) else None.

(** The overrides, in the order they are read. *)
Definition env_steps : list (string * (string → option Layer)) :=
  let i64 (f : Z → Layer) (s : string) := f <$> ParseInt s in
  let num (f : Z → Layer) (s : string) := f <$> Atoi s in
  let flt (f : float64 → Layer) (s : string) := f <$> ParseFloat s in
  let k := no_knobs in
  [("idle_timeout_ms", i64 (λ z, mkLayer (mkLimits None (Some z) None None None None None) k None));
   ("subagent_idle_timeout_ms", i64 (λ z, mkLayer no_limits
      (mkKnobs (Some z) None None None None None None None None None None None None None None) None));
   ("hard_ceiling", num (λ z, mkLayer no_limits
      (mkKnobs None (Some z) None None None None None None None None None None None None None) None));
   ("max_concurrent_tools", num (λ z, mkLayer no_limits
      (mkKnobs None None None None None (Some z) None None None None None None None None None) None));
   ("consecutive_fail_cap", num (λ z, mkLayer no_limits
      (mkKnobs None None (Some z) None None None None None None None None None None None None) None));
   ("runaway_fail_cap", num (λ z, mkLayer no_limits
      (mkKnobs None None None (Some z) None None None None None None None None None None None) None));
   ("per_tool_cap", num (λ z, mkLayer no_limits
      (mkKnobs None None None None (Some z) None None None None None None None None None None) None));
   ("compact_preview_bytes", num (λ z, mkLayer no_limits
      (mkKnobs None None None None None None (Some z) None None None None None None None None) None));
   ("preview_min_bytes", num (λ z, mkLayer no_limits
      (mkKnobs None None None None None None None None (Some z) None None None None None None) None));
   ("preview_max_bytes", num (λ z, mkLayer no_limits
      (mkKnobs None None None None None None None None None (Some z) None None None None None) None));
   ("write_claim_guard", parse_guard);
   ("preview_pct", flt (λ x, mkLayer no_limits
      (mkKnobs None None None None None None None (Some x) None None None None None None None) None));
   ("tool_output_bytes", i64 (λ z, mkLayer (mkLimits None None None None None None (Some z)) k None));
   ("tool_output_min_bytes", num (λ z, mkLayer no_limits
      (mkKnobs None None None None None None None None None None None (Some z) None None None) None));
   ("tool_output_max_bytes", num (λ z, mkLayer no_limits
      (mkKnobs None None None None None None None None None None None None (Some z) None None) None));
   ("tool_output_remaining_floor_bytes", num (λ z, mkLayer no_limits
      (mkKnobs None None None None None None None None None None None None None None (Some z)) None));
   ("tool_output_pct", flt (λ x, mkLayer no_limits
      (mkKnobs None None None None None None None None None None (Some x) None None None None) None));
   ("tool_output_remaining_share", flt (λ x, mkLayer no_limits
      (mkKnobs None None None None None None None None None None None None None (Some x) None) None))].

Definition envPrefix : string := "NANITE_HARNESS_".
Definition LegacyToolCeilingEnv : string := "NANITE_TOOL_TURN_CEILING_BYTES".

(** [add]: the layer of one variable, none when it is unset or blank. *)
Definition env_add (key : string) (set : string → option Layer) : result PError (list (string * Layer)) :=
  let name := envPrefix +:+ upper key in
  match getenv name with
  | None => Ok []
  | Some raw =>
      if bool_decide (trim_space raw = "") then Ok [] else
      match set (trim_space raw) with
      | None => Err (EEnvParse name raw)
      | Some l =>
          let bad := validateLayer l in
          if bool_decide (bad = []) then Ok [(name, l)] else Err (EEnvLayer name raw bad)
      end
  end.
Fixpoint env_from (steps : list (string * (string → option Layer))) : result PError (list (string * Layer)) :=
  match steps with
  | [] => Ok []
  | (key, set) :: rest => l ← env_add key set; ls ← env_from rest; Ok (l ++ ls)%list
  end.
(** The original variable of the tool-output ceiling: first, and ignored when it does
    not parse. *)
Definition legacy_layer : list (string * Layer) :=
  match getenv LegacyToolCeilingEnv with
  | Some raw =>
      match ParseInt (trim_space raw) with
      | Some v => if 0 <=? v
                  then [(LegacyToolCeilingEnv, mkLayer (mkLimits None None None None None None (Some v)) no_knobs None)]
                  else []
      | None => []
      end
  | None => []
  end.
Definition envLayers : result PError (list (string * Layer)) :=
  ls ← env_from env_steps; Ok (legacy_layer ++ ls)%list.

(** ** [Resolve] *)

Record Inputs := mkInputs {
  in_Profile : string;
  in_Model : string;
  in_AppSettings : Layer;
  in_Agent : Layer;
  in_Launch : Layer;
}.
Record Resolved := mkResolved {
  res_Profile : string;
  res_Digest : string;
  res_Model : string;
  res_Values : Values;
  res_Sources : gmap string Source;
  res_Limits : Limits;
  res_Unenforced : list string;
}.
(** The digest of a chain. *)
Variable digestChain : list Profile → string.

Fixpoint check_inputs (ls : list (string * Layer)) : option PError :=
  match ls with
  | [] => None
  | (name, l) :: rest =>
      let bad := validateLayer l in
      if bool_decide (bad = []) then check_inputs rest else Some (EInput name bad)
  end.
Definition model_layer (p : Profile) (pattern : string) : Layer :=
  match Models p !! pattern with Some l => l | None => empty_layer end.

(** The layers applied one after the other, before the host bounds. *)
Definition apply_all (inp : Inputs) (ps : list Profile) (envs : list (string * Layer)) : work :=
  let w := setComputed in
  let w := apply w ("app-settings", in_AppSettings inp) in
  let w := fold_left (λ w p, apply w ("profile:" +:+ Name p, p_layer p)) ps w in
  let w := fold_left (λ w p,
             fold_left (λ w pat, apply w ("profile:" +:+ Name p +:+ "/model:" +:+ pat, model_layer p pat))
               (modelPatterns p (in_Model inp)) w) ps w in
  let w := apply w ("agent", in_Agent inp) in
  let w := apply w ("launch", in_Launch inp) in
  fold_left (λ w el, apply w ("env:" +:+ el.1, el.2)) envs w.

Definition Resolve (r : Registry) (inp : Inputs) : act Cache PError Resolved :=
  let name := if bool_decide (in_Profile inp = "") then defaultName r else in_Profile inp in
  ps ← chain r name;
  match check_inputs [("app settings", in_AppSettings inp); ("agent constraints", in_Agent inp);
                      ("launch overrides", in_Launch inp)] with
  | Some e => fail e
  | None =>
      envs ← lift envLayers;
      let w := clamp (apply_all inp ps envs) in
      mret (mkResolved name (digestChain ps) (in_Model inp) (w_v w) (w_sources w) (w_limits w)
              (unenforced (w_limits w)))
  end.

(** ** The reference: the last layer that states a knob *)

(** The layers of a run in the documented order, lowest first. *)
Definition layers (inp : Inputs) (ps : list Profile) (envs : list (string * Layer)) : list (string * Layer) :=
  ([("app-settings", in_AppSettings inp)] ++
   ((λ p, ("profile:" +:+ Name p, p_layer p)) <$> ps) ++
   mjoin ((λ p, (λ pat, ("profile:" +:+ Name p +:+ "/model:" +:+ pat, model_layer p pat))
                  <$> modelPatterns p (in_Model inp)) <$> ps) ++
   [("agent", in_Agent inp); ("launch", in_Launch inp)] ++
   ((λ el, ("env:" +:+ el.1, el.2)) <$> envs))%list.
Definition last_stated {A} (f : Layer → option A) (ls : list (string * Layer)) : option A :=
  last (omap (λ nl, f nl.2) ls).
(** The values the layers state, over defaults [d]. *)
Definition stated_values (d : Values) (ls : list (string * Layer)) : Values :=
  let knob {A} (f : Knobs → option A) (old : A) := or_keep (last_stated (λ l, f (l_harness l)) ls) old in
  {| v_IdleTimeout := or_keep (duration_ms <$> last_stated (λ l, IdleTimeoutMs (l_limits l)) ls) (v_IdleTimeout d);
     v_SubagentIdleTimeout :=
       or_keep (duration_ms <$> last_stated (λ l, SubagentIdleTimeoutMs (l_harness l)) ls) (v_SubagentIdleTimeout d);
     v_HardCeiling := knob HardCeiling (v_HardCeiling d);
     v_ConsecutiveFailCap := knob ConsecutiveFailCap (v_ConsecutiveFailCap d);
     v_RunawayFailCap := knob RunawayFailCap (v_RunawayFailCap d);
     v_PerToolCap := knob PerToolCap (v_PerToolCap d);
     v_MaxConcurrentTools := knob MaxConcurrentTools (v_MaxConcurrentTools d);
     v_CompactPreviewBytes := knob CompactPreviewBytes (v_CompactPreviewBytes d);
     v_PreviewPct := knob PreviewPct (v_PreviewPct d);
     v_PreviewMinBytes := knob PreviewMinBytes (v_PreviewMinBytes d);
     v_PreviewMaxBytes := knob PreviewMaxBytes (v_PreviewMaxBytes d);
     v_ToolOutputBytes := or_keep_o (last_stated (λ l, ToolOutputBytes (l_limits l)) ls) (v_ToolOutputBytes d);
     v_ToolOutputPct := knob ToolOutputPct (v_ToolOutputPct d);
     v_ToolOutputMinBytes := knob ToolOutputMinBytes (v_ToolOutputMinBytes d);
     v_ToolOutputMaxBytes := knob ToolOutputMaxBytes (v_ToolOutputMaxBytes d);
     v_ToolOutputRemainingShare := knob ToolOutputRemainingShare (v_ToolOutputRemainingShare d);
     v_ToolOutputRemainingFloor := knob ToolOutputRemainingFloor (v_ToolOutputRemainingFloor d);
     v_WriteClaimGuard := or_keep (last_stated l_guard ls) (v_WriteClaimGuard d) |}.
Definition states (key : string) (l : Layer) : bool :=
  existsb (λ st, bool_decide (st.1 = key) && st.2) (statements l).
(** The name of the last layer that states [key]. *)
Definition last_stater (key : string) (ls : list (string * Layer)) : option string :=
  last (omap (λ nl, if states key nl.2 then Some nl.1 else None) ls).

(** Host bounds as a function of the values alone. *)
Definition clamp_values (v : Values) : Values := w_v (clamp (mkWork v no_limits ∅)).

(** ** Layers compose by overriding *)

Lemma or_keep_assoc {A} (a b : option A) (d : A) : or_keep a (or_keep b d) = or_keep (or_keep_o a b) d.
Proof. by destruct a. Qed.
Lemma or_keep_o_assoc {A} (a b d : option A) : or_keep_o a (or_keep_o b d) = or_keep_o (or_keep_o a b) d.
Proof. by destruct a. Qed.
Lemma fmap_or_keep_o {A B} (f : A → B) (a b : option A) : f <$> or_keep_o a b = or_keep_o (f <$> a) (f <$> b).
Proof. by destruct a. Qed.
Lemma last_stated_snoc {A} (f : Layer → option A) ls x :
  last_stated f (ls ++ [x]) = or_keep_o (f x.2) (last_stated f ls).
Proof.
  unfold last_stated. rewrite omap_app. cbn. destruct (f x.2) as [a|]; cbn.
  - by rewrite last_snoc.
  - by rewrite app_nil_r.
Qed.

Lemma fold_apply_values ls w : w_v (fold_left apply ls w) = stated_values (w_v w) ls.
Proof.
  induction ls as [|x ls IH] using rev_ind; [by destruct w as [[] ? ?]|].
  rewrite fold_left_app. cbn [fold_left]. unfold apply at 1. cbn [w_v]. rewrite IH.
  unfold stated_values, apply_values. cbn. rewrite !last_stated_snoc, !fmap_or_keep_o, !or_keep_assoc, !or_keep_o_assoc.
  done.
Qed.

Lemma fold_note name sts s key :
  fold_left (note name) sts s !! key =
    if existsb (λ st, bool_decide (st.1 = key) && st.2) sts then Some (from name) else s !! key.
Proof.
  induction sts as [|[k b] sts IH] using rev_ind; cbn; [done|].
  rewrite fold_left_app, existsb_app. cbn. unfold note at 1. cbn.
  destruct b; cbn; rewrite ?andb_false_r, ?orb_false_r; [|done].
  case_bool_decide as Hk; cbn.
  - subst. rewrite lookup_insert_eq. by rewrite orb_true_r.
  - rewrite lookup_insert_ne by done. by rewrite orb_false_r.
Qed.
Lemma fold_apply_sources ls w key :
  w_sources (fold_left apply ls w) !! key =
    match last_stater key ls with Some n => Some (from n) | None => w_sources w !! key end.
Proof.
  induction ls as [|x ls IH] using rev_ind; [done|].
  rewrite fold_left_app. cbn [fold_left]. unfold apply at 1. cbn [w_sources]. rewrite fold_note.
  fold (states key x.2). unfold last_stater. rewrite omap_app. cbn [omap list_omap].
  destruct (states key x.2).
  - by rewrite last_snoc.
  - rewrite app_nil_r. exact IH.
Qed.

(** The work of [Resolve] before the host bounds is one fold over the layers. *)
Lemma apply_all_layers inp ps envs : apply_all inp ps envs = fold_left apply (layers inp ps envs) setComputed.
Proof.
  unfold apply_all. generalize setComputed as w. intros w.
  unfold layers. rewrite !fold_left_app. cbn [fold_left].
  assert (∀ {A} (g : A → string * Layer) (l : list A) w, fold_left (λ w a, apply w (g a)) l w = fold_left apply (g <$> l) w) as Hmap.
  { intros A g l. induction l as [|a l IH]; intros v; cbn; [done|]. apply IH. }
  rewrite Hmap. f_equal. f_equal. f_equal. rewrite Hmap.
  generalize (fold_left apply ((λ p, ("profile:" +:+ Name p, p_layer p)) <$> ps) (apply w ("app-settings", in_AppSettings inp))).
  induction ps as [|p ps IH]; intros v; cbn; [done|]. rewrite fold_left_app, <- Hmap. apply IH.
Qed.

Lemma Resolve_Ok r inp c res c' :
  Resolve r inp c = (Ok res, c') →
  ∃ ps envs, chain r (if bool_decide (in_Profile inp = "") then defaultName r else in_Profile inp) c = (Ok ps, c')
    ∧ envLayers = Ok envs
    ∧ check_inputs [("app settings", in_AppSettings inp); ("agent constraints", in_Agent inp);
                      ("launch overrides", in_Launch inp)] = None
    ∧ let w := clamp (fold_left apply (layers inp ps envs) setComputed) in
      res = mkResolved (if bool_decide (in_Profile inp = "") then defaultName r else in_Profile inp) (digestChain ps)
              (in_Model inp) (w_v w) (w_sources w) (w_limits w) (unenforced (w_limits w)).
Proof.
  unfold Resolve. set (name := if bool_decide _ then _ else _). unfold mbind, act_bind at 1.
  destruct (chain r name c) as [[ps|e] c1] eqn:Hc; [|done].
  destruct (check_inputs _) eqn:Hi; [done|]. unfold act_bind, lift.
  destruct envLayers as [envs|e] eqn:He; [|done].
  rewrite apply_all_layers. remember (clamp (fold_left apply (layers inp ps envs) setComputed)) as w eqn:Hw.
  intros [= <- <-]. exists ps, envs. by rewrite <- Hw.
Qed.

(** ** Host bounds only touch what they change *)

Lemma clamp_value w : w_v (clamp w) = clamp_values (w_v w).
Proof.
  destruct w as [v lim s]. unfold clamp_values, clamp. cbn [w_v].
  repeat match goal with |- context [let '(_, _) := ?x in _] => destruct x end. done.
Qed.
Lemma clamp_marked w :
  ∃ ms, w_sources (clamp w) = marks ms (w_sources w) ∧ Forall (λ m, m.1 ∈ value_keys) ms.
Proof.
  unfold clamp.
  repeat match goal with |- context [let '(_, _) := ?x in _] => destruct x end.
  cbn [w_sources]. eexists. split; [done|]. repeat constructor; cbn [fst]; by_decide.
Qed.
Lemma marks_layer ms s key :
  Forall (λ m, is_Some (s !! m.1)) ms → src_layer <$> marks ms s !! key = src_layer <$> s !! key.
Proof.
  revert s. induction ms as [|[k req] ms IH]; intros s Hms; [done|].
  apply Forall_cons in Hms as [[src Hk] Hms]. cbn [fst] in Hk. cbn [marks fold_left fst snd].
  change (fold_left _ ms ?s') with (marks ms s'). unfold markClamped. destruct req as [q|]; [|by apply IH].
  rewrite Hk. rewrite IH.
  - destruct (decide (key = k)) as [->|]; [by rewrite lookup_insert_eq, Hk|by rewrite lookup_insert_ne].
  - apply (Forall_impl _ _ _ Hms). intros m Hm.
    destruct (decide (m.1 = k)) as [->|]; [by rewrite lookup_insert_eq|by rewrite lookup_insert_ne].
Qed.
Definition source_layer (key : string) (ls : list (string * Layer)) : option string :=
  match last_stater key ls with
  | Some n => Some n
  | None => if bool_decide (key ∈ value_keys) then Some "computed" else None
  end.
Lemma applied_sources ls key :
  w_sources (fold_left apply ls setComputed) !! key = from <$> source_layer key ls.
Proof.
  rewrite fold_apply_sources. unfold source_layer. destruct (last_stater key ls); [done|].
  unfold setComputed. cbn [w_sources]. rewrite lookup_const. by case_bool_decide.
Qed.
Lemma clamped_layer ls key :
  src_layer <$> w_sources (clamp (fold_left apply ls setComputed)) !! key = source_layer key ls.
Proof.
  destruct (clamp_marked (fold_left apply ls setComputed)) as (ms&->&Hms). rewrite marks_layer.
  - rewrite applied_sources. by destruct (source_layer key ls).
  - apply (Forall_impl _ _ _ Hms). intros m Hm. rewrite applied_sources. unfold source_layer.
    destruct (last_stater m.1 ls); [by eexists|]. rewrite bool_decide_true by done. by eexists.
Qed.

(** ** What validation guarantees *)

(** The profiles of the registry and of its cache are valid and found under their
    own name. *)
Definition profile_ok (name : string) (p : Profile) : Prop := Name p = name ∧ validate p = None.
Definition registry_ok (r : Registry) : Prop := map_Forall profile_ok (builtin r).
Definition cache_ok (c : Cache) : Prop :=
  ∀ file e, c !! file = Some e → ∃ name ext, ext ∈ exts ∧ file = name +:+ ext ∧ profile_ok name (fe_profile e).

Lemma validate_models_valid name ms :
  validate_models name ms = None → Forall (λ pl, layer_ok pl.2 = true) ms.
Proof.
  induction ms as [|[pat l] ms IH]; cbn [validate_models]; [constructor|].
  destruct (Match pat ""); [|done]. case_bool_decide as Hl; [|done]. intros Hms. constructor; [|by apply IH].
  unfold layer_ok. by apply bool_decide_eq_true_2.
Qed.
Lemma profile_layers_ok name p : profile_ok name p →
  layer_ok (p_layer p) = true ∧ ∀ pat, layer_ok (model_layer p pat) = true.
Proof.
  intros [_ Hv]. unfold validate in Hv. repeat case_if_in Hv; try done. b2p.
  unfold layer_ok at 1. rewrite bool_decide_eq_true. split; [by destruct (decide (validateLayer (p_layer p) = []))|].
  intros pat. unfold model_layer. destruct (Models p !! pat) as [l|] eqn:Hl; [|done].
  apply validate_models_valid in Hv. rewrite Forall_forall in Hv.
  apply (Hv (pat, l)). by apply elem_of_map_to_list.
Qed.
Lemma layer_guard_valid l g : layer_ok l = true → l_guard l = Some g → Valid g = true.
Proof.
  unfold layer_ok. intros Hl%bool_decide_eq_true Hg. destruct (Valid g) eqn:Hv; [done|].
  assert ("hooks.write_claim_guard" ∈ validateLayer l) as Hin; [|by rewrite Hl in Hin; apply elem_of_nil in Hin].
  unfold validateLayer. rewrite Hg, Hv. set_solver.
Qed.

(** ** Loading *)


Lemma ext_name_inj n1 n2 e1 e2 :
  e1 ∈ exts → e2 ∈ exts → n1 +:+ e1 = n2 +:+ e2 → n1 = n2.
Proof.
  unfold exts. intros H1 H2 H. assert (e1 = e2) as ->; [|by apply str_app_inj_l in H].
  apply (f_equal str_rev) in H. rewrite !str_rev_app in H.
  apply elem_of_cons in H1 as [->|H1%list_elem_of_singleton], H2 as [->|H2%list_elem_of_singleton];
    subst; [done| | |done]; cbv [str_rev String.list_ascii_of_string rev app String.string_of_list_ascii] in H;
    rewrite !str_app_cons in H; discriminate.
Qed.

(** What a successful load returned: a built-in, a cached file or a freshly parsed
    one. *)
Inductive loaded (r : Registry) (name : string) (c : Cache) : Profile → Cache → Prop :=
| loaded_builtin p : builtin r !! name = Some p → loaded r name c p c
| loaded_cached dir ext e :
    r_dir r = Some dir → ext ∈ exts → is_Some (dir !! (name +:+ ext)) →
    c !! (name +:+ ext) = Some e → loaded r name c (fe_profile e) c
| loaded_parsed dir ext t s p :
    r_dir r = Some dir → ext ∈ exts → is_Some (dir !! (name +:+ ext)) →
    profile_ok name p → loaded r name c p (<[name +:+ ext := mkFileEntry t s p]> c).

Lemma read_profile_Ok name file t s d c p c' :
  read_profile name file t s d c = (Ok p, c') → profile_ok name p ∧ c' = <[file := mkFileEntry t s p]> c.
Proof.
  intros H. destruct d as [d|]; [|done]. unfold read_profile, mbind, act_bind, wrap, lift, ParseProfile in H.
  destruct (decode d) as [q|]; [|done]. destruct (validate q) eqn:Hv; [done|].
  destruct (bool_decide (Name q ≠ name)) eqn:Hn; [done|].
  unfold modify, mret, act_ret in H. simplify_eq. split; [|done].
  apply bool_decide_eq_false in Hn. split; [by apply dec_stable|done].
Qed.
Lemma loadFile_Ok name file t s d c p c' :
  loadFile name file t s d c = (Ok p, c') →
  (∃ e, c !! file = Some e ∧ p = fe_profile e ∧ c' = c) ∨
  (profile_ok name p ∧ c' = <[file := mkFileEntry t s p]> c).
Proof.
  unfold loadFile, mbind, act_bind, get. intros H.
  destruct (c !! file) as [e|] eqn:He; [|by right; apply read_profile_Ok in H].
  destruct ((fe_modTime e =? t) && (fe_size e =? s)); [|by right; apply read_profile_Ok in H].
  left. exists e. unfold mret, act_ret in H. by simplify_eq.
Qed.
Lemma load_Ok r name c p c' : load r name c = (Ok p, c') → loaded r name c p c'.
Proof.
  unfold load. destruct (builtin r !! name) as [q|] eqn:Hb.
  { intros [= -> ->]. by constructor. }
  destruct (r_dir r) as [dir|] eqn:Hd; [|done]. destruct (nameRE name); [|done].
  assert (∀ es, (∀ e, e ∈ es → e ∈ exts) → load_ext r dir name es c = (Ok p, c') → loaded r name c p c') as Hes.
  { induction es as [|ext es IH]; intros Hin; cbn; [done|].
    assert (ext ∈ exts) as Hext by (apply Hin; left).
    destruct (dir !! (name +:+ ext)) as [n|] eqn:Hn; [|apply IH; intros; apply Hin; by right].
    assert (is_Some (dir !! (name +:+ ext))) as Hs by by eexists.
    destruct n as [t s| |t s d]; [| done |]; intros [(e&He&->&->)|[Hp ->]]%loadFile_Ok; by econstructor. }
  by apply Hes.
Qed.
Lemma loaded_ok r name c p c' :
  registry_ok r → cache_ok c → loaded r name c p c' → profile_ok name p ∧ cache_ok c'.
Proof.
  intros Hr Hc [q Hq|dir ext e Hd Hext _ He|dir ext t s q Hd Hext _ Hq]; split; try done.
  - by apply (Hr _ _ Hq).
  - destruct (Hc _ _ He) as (n'&ext'&Hext'&Hf&Hp). by rewrite (ext_name_inj _ _ _ _ Hext Hext' Hf).
  - intros file e' [[<- <-]|[_ He]]%lookup_insert_Some; [by exists name, ext|by apply Hc].
Qed.
Lemma trim_suffix_app a b : trim_suffix (a +:+ b) b = a.
Proof.
  unfold trim_suffix. rewrite (proj2 (has_suffix_spec _ _)) by by exists a.
  rewrite str_length_app, Nat.add_sub. apply str_take_app.
Qed.
Lemma profileFileName_app name ext : ext ∈ exts → profileFileName (name +:+ ext) = Some name.
Proof.
  intros Hext. unfold profileFileName.
  apply elem_of_cons in Hext as [->|Hext%list_elem_of_singleton]; [|subst ext].
  - rewrite (proj2 (has_suffix_spec _ _)) by by exists name. by rewrite trim_suffix_app.
  - destruct (has_suffix (name +:+ ".yml") ".yaml") eqn:Hs.
    + apply has_suffix_spec in Hs as [n Hn]. apply (f_equal str_rev) in Hn. rewrite !str_rev_app in Hn.
      cbv [str_rev String.list_ascii_of_string rev app String.string_of_list_ascii] in Hn.
      rewrite !str_app_cons in Hn. discriminate.
    + rewrite (proj2 (has_suffix_spec _ _)) by by exists name. by rewrite trim_suffix_app.
Qed.
Lemma loaded_candidate r name c p c' : loaded r name c p c' → name ∈ candidates r.
Proof.
  assert (∀ dir ext n, ext ∈ exts → dir !! (name +:+ ext) = Some n →
    name ∈ omap profileFileName (map_to_list (dir : gmap string Node)).*1) as Hdir.
  { intros dir ext n Hext Hn. apply list_elem_of_omap. exists (name +:+ ext).
    split; [|by apply profileFileName_app].
    apply list_elem_of_fmap. exists (name +:+ ext, n). split; [done|by apply elem_of_map_to_list]. }
  unfold candidates. intros [q Hq|dir ext e Hd Hext [n Hn] _|dir ext t s q Hd Hext [n Hn] _]; apply elem_of_app.
  - left. apply elem_of_elements, elem_of_dom. by eexists.
  - right. rewrite Hd. by eapply Hdir.
  - right. rewrite Hd. by eapply Hdir.
Qed.

(** ** Chains *)

(** [rev] is what the loop collected: each profile extends the next, and the head's
    [Extends] is the name to load next. *)
Fixpoint linked (ps : list Profile) : Prop :=
  match ps with
  | [] => True
  | [p] => True
  | p :: (q :: _) as ps' => Extends q = Name p ∧ linked ps'
  end.

Lemma chain_from_inv fuel r name cur seen (rev : list Profile) c (ps : list Profile) c' :
  registry_ok r → cache_ok c → NoDup (Name <$> rev) → (∀ n, n ∈ Name <$> rev → n ∈ seen) →
  Forall (λ p, profile_ok (Name p) p) rev → linked rev →
  match rev with [] => cur = name | p :: _ => Extends p = cur ∧ last (Name <$> rev) = Some name end →
  chain_from fuel r name cur seen rev c = (Ok ps, c') →
  cache_ok c' ∧ NoDup (Name <$> ps) ∧ Forall (λ p, profile_ok (Name p) p) ps ∧ linked ps ∧
  (name ≠ "" → last (Name <$> ps) = Some name ∧ ∃ p, hd_error ps = Some p ∧ Extends p = "").
Proof.
  revert cur seen rev c. induction fuel as [|fuel IH]; intros cur seen rev c Hr Hc Hnd Hseen Hok Hlink Hcur; cbn; [done|].
  case_bool_decide as Hcn.
  { intros [= <- <-]. do 4 (split; [done|]). intros Hname. destruct rev as [|p rev]; [congruence|].
    destruct Hcur as [He Hl]. split; [done|]. exists p. split; [done|congruence]. }
  case_bool_decide as Hcs; [done|]. unfold mbind, act_bind.
  destruct (load r cur c) as [[p|e] c1] eqn:Hl; [|done]. apply load_Ok in Hl.
  destruct (loaded_ok _ _ _ _ _ Hr Hc Hl) as [[Hn Hv] Hc1].
  intros Hgo. apply (IH _ _ _ _ Hr Hc1) in Hgo; [done|..].
  - cbn. rewrite Hn. constructor; [|done]. intros Hin. by apply Hcs, Hseen.
  - intros n. cbn. rewrite Hn. clear -Hseen. set_solver.
  - constructor; [by split|done].
  - destruct rev as [|q rev]; [done|]. cbn. split; [|done]. rewrite Hn. by destruct Hcur.
  - split; [done|]. destruct rev as [|q rev]; cbn; [by rewrite Hn, Hcur|]. by destruct Hcur.
Qed.

Lemma load_no_fuel r name c : (load r name c).1 ≠ Err EFuel.
Proof.
  assert (∀ file t s d, (loadFile name file t s d c).1 ≠ Err EFuel) as Hf.
  { intros file t s d. unfold loadFile, mbind, act_bind, get.
    assert ((read_profile name file t s d c).1 ≠ Err EFuel) as Hp.
    { destruct d as [d|]; [|done]. unfold read_profile, mbind, act_bind, wrap, lift.
      destruct (ParseProfile d); [|done]. by case_bool_decide. }
    destruct (c !! file); [|done]. by case_match. }
  unfold load. destruct (builtin r !! name); [done|]. destruct (r_dir r) as [dir|]; [|done].
  destruct (nameRE name); [|done]. unfold exts, load_ext.
  repeat match goal with |- context [dir !! ?f] => destruct (dir !! f) as [[]|] end; try done; apply Hf.
Qed.

(** The loop needs one round per name that can load, and two more. *)
Lemma chain_from_fuel r name fuel cur seen (visited : list string) rev c :
  (∀ n, n ∈ visited ↔ n ∈ seen) → NoDup visited → (∀ n, n ∈ visited → n ∈ candidates r) →
  (2 + length (candidates r) ≤ fuel + length visited)%nat →
  (chain_from fuel r name cur seen rev c).1 ≠ Err EFuel.
Proof.
  revert cur seen visited rev c. induction fuel as [|fuel IH]; intros cur seen visited rev c Hv Hnd Hsub Hlen.
  { pose proof (NoDup_incl_length (l := visited) (l' := candidates r)) as Hle.
    rewrite <- NoDup_ListNoDup in Hle.
    assert (length visited ≤ length (candidates r))%nat; [|lia].
    apply Hle; [done|]. intros n Hn%list_elem_of_In. by apply list_elem_of_In, Hsub. }
  cbn. case_bool_decide; [done|]. case_bool_decide as Hcs; [done|]. unfold mbind, act_bind.
  destruct (load r cur c) as [[p|e] c1] eqn:Hl.
  - apply load_Ok, loaded_candidate in Hl. apply (IH _ _ (cur :: visited)).
    + clear -Hv. set_solver.
    + constructor; [by rewrite Hv|done].
    + clear -Hsub Hl. set_solver.
    + cbn. lia.
  - cbn. intros [= ->]. by apply (load_no_fuel r cur c); rewrite Hl.
Qed.

(** ** Bounds *)

Definition fraction_in (lo hi x : float64) : Prop :=
  is_nan x = true ∨ (SFleb lo x = true ∧ SFleb x hi = true).
(** Every value is within the host's bounds, and the coupled ones are in order. *)
Record values_ok (v : Values) : Prop := {
  ok_idle : minDuration ≤ v_IdleTimeout v ≤ maxDuration;
  ok_subidle : minDuration ≤ v_SubagentIdleTimeout v ≤ maxDuration;
  ok_hard : 1 ≤ v_HardCeiling v ≤ 10000;
  ok_conc : 1 ≤ v_MaxConcurrentTools v ≤ 64;
  ok_soft : 1 ≤ v_ConsecutiveFailCap v ≤ 1000;
  ok_runaway : v_ConsecutiveFailCap v ≤ v_RunawayFailCap v ≤ 1000;
  ok_tool : 0 ≤ v_PerToolCap v ≤ 100000;
  ok_compact : 64 ≤ v_CompactPreviewBytes v ≤ 2 ^ 20;
  ok_pmin : 256 ≤ v_PreviewMinBytes v ≤ 2 ^ 20;
  ok_pmax : v_PreviewMinBytes v ≤ v_PreviewMaxBytes v ≤ 4 * 2 ^ 20;
  ok_pct : fraction_in (f_ratio 5 10000) (f_ratio 5 100) (v_PreviewPct v);
  ok_bytes : ∀ b, v_ToolOutputBytes v = Some b → b = 0 ∨ 1024 ≤ b ≤ maxToolOutputBytes;
  ok_tmin : 1024 ≤ v_ToolOutputMinBytes v ≤ maxToolOutputBytes;
  ok_tmax : v_ToolOutputMinBytes v ≤ v_ToolOutputMaxBytes v ≤ maxToolOutputBytes;
  ok_tpct : fraction_in (f_ratio 5 10000) (f_ratio 5 10) (v_ToolOutputPct v);
  ok_share : fraction_in (f_ratio 1 100) (f_of_Z 1) (v_ToolOutputRemainingShare v);
  ok_floor : 256 ≤ v_ToolOutputRemainingFloor v ≤ 2 ^ 20;
}.

Lemma clampInt_bounds lo hi v : lo ≤ hi → lo ≤ (clampInt lo hi v).1 ≤ hi.
Proof.
  intros H. unfold clampInt. destruct ((lo <=? v) && (v <=? hi)) eqn:E; cbn; [b2p; lia|by apply clampZ_bounds].
Qed.
Lemma clampDur_bounds v : minDuration ≤ (clampDur v).1 ≤ maxDuration.
Proof.
  unfold clampDur. destruct ((minDuration <=? v) && (v <=? maxDuration)) eqn:E; cbn [fst]; [b2p; lia|].
  by apply clampZ_bounds.
Qed.
Lemma couple_max lo v : (couple lo v).1 = Z.max lo v.
Proof. unfold couple. destruct (v <? lo) eqn:E; cbn; b2p; lia. Qed.
Lemma clampFloat_bounds lo hi v :
  SFltb lo hi = true → SFleb lo lo = true → SFleb hi hi = true → fraction_in lo hi (clampFloat lo hi v).1.
Proof.
  intros Hlt Hl Hh. unfold clampFloat, fraction_in. cbn [fst].
  destruct (is_nan v) eqn:Hn.
  - left. destruct v; try done. unfold clampF. by destruct lo, hi.
  - right. apply clampF_bounds; try done; [by destruct lo|by destruct hi].
Qed.
(** A clamp neither removes nor brings in a NaN. *)
Lemma clampFloat_nan lo hi v :
  SFltb lo hi = true → SFleb lo lo = true → SFleb hi hi = true → is_nan (clampFloat lo hi v).1 = is_nan v.
Proof.
  intros Hlt Hl Hh. destruct (clampFloat_bounds lo hi v Hlt Hl Hh) as [Hn|[Hle _]].
  - rewrite Hn. unfold clampFloat, clampF in Hn. cbn [fst] in Hn. destruct (is_nan v) eqn:Hv; [done|].
    destruct (clampF_bounds lo hi v) as [Hb _]; [by destruct lo|by destruct hi|done..|].
    unfold clampF in Hb. revert Hn Hb. generalize (if SFltb v lo || SFltb hi v then f_max lo (f_min v hi) else v).
    intros x. by destruct x, lo.
  - destruct (is_nan v) eqn:Hv; [|by destruct (clampFloat lo hi v).1, lo].
    unfold clampFloat, clampF in *. cbn [fst] in *. destruct v; try done. by destruct lo, hi.
Qed.
Lemma clampBytes_bounds o b : (clampBytes o).1 = Some b → b = 0 ∨ 1024 ≤ b ≤ maxToolOutputBytes.
Proof.
  unfold clampBytes. destruct o as [z|]; [|done].
  destruct (negb (z =? 0) && ((z <? 1024) || (maxToolOutputBytes <? z))) eqn:E; cbn; intros [= <-].
  - right. by apply clampZ_bounds.
  - destruct (z =? 0) eqn:Hz; cbn in E; b2p; lia.
Qed.

Lemma clamp_values_ok v : values_ok (clamp_values v).
Proof.
  unfold clamp_values, clamp. cbn [w_v].
  rewrite (surjective_pairing (clampDur (v_IdleTimeout v))), (surjective_pairing (clampDur (v_SubagentIdleTimeout v))).
  pose proof (clampDur_bounds (v_IdleTimeout v)). pose proof (clampDur_bounds (v_SubagentIdleTimeout v)).
  repeat match goal with
  | |- context [let '(_, _) := clampInt ?lo ?hi ?x in _] =>
      pose proof (clampInt_bounds lo hi x ltac:(unfold maxToolOutputBytes; lia)); destruct (clampInt lo hi x); cbn [fst] in *
  | |- context [let '(_, _) := clampFloat ?lo ?hi ?x in _] =>
      pose proof (clampFloat_bounds lo hi x eq_refl eq_refl eq_refl); destruct (clampFloat lo hi x); cbn [fst] in *
  | |- context [let '(_, _) := clampBytes ?x in _] =>
      pose proof (clampBytes_bounds x); destruct (clampBytes x); cbn [fst] in *
  | |- context [let '(_, _) := couple ?lo ?x in _] =>
      pose proof (couple_max lo x); destruct (couple lo x); cbn [fst] in *
  end.
  split; cbn; try done; try lia.
Qed.

(** ** Layers of a run are valid *)

Lemma env_add_ok key set ls : env_add key set = Ok ls → Forall (λ nl, layer_ok nl.2 = true) ls.
Proof.
  unfold env_add. destruct (getenv _) as [raw|]; [|intros [= <-]; constructor].
  destruct (bool_decide (trim_space raw = "")); [intros [= <-]; constructor|].
  destruct (set (trim_space raw)) as [l|]; [|done].
  destruct (bool_decide (validateLayer l = [])) eqn:Hl; [|done]. intros [= <-]. by repeat constructor.
Qed.
Lemma env_from_ok steps ls : env_from steps = Ok ls → Forall (λ nl, layer_ok nl.2 = true) ls.
Proof.
  revert ls. induction steps as [|[key set] steps IH]; intros ls; cbn; [intros [= <-]; constructor|].
  destruct (env_add key set) as [l|] eqn:Ha; [|done]. cbn.
  destruct (env_from steps) as [ls'|] eqn:Hf; [|done]. cbn. intros [= <-].
  apply Forall_app. split; [by eapply env_add_ok|by apply IH].
Qed.
Lemma envLayers_ok ls : envLayers = Ok ls → Forall (λ nl, layer_ok nl.2 = true) ls.
Proof.
  unfold envLayers. destruct (env_from env_steps) as [ls'|] eqn:Hf; [|done]. cbn. intros [= <-].
  apply Forall_app. split; [|by apply env_from_ok in Hf].
  unfold legacy_layer. destruct (getenv LegacyToolCeilingEnv) as [raw|]; [|constructor].
  destruct (ParseInt (trim_space raw)) as [v|]; [|constructor].
  destruct (0 <=? v) eqn:Hv; [|constructor]. repeat constructor. cbn [snd].
  unfold layer_ok. apply bool_decide_eq_true. unfold validateLayer. cbn.
  rewrite (proj2 (Z.ltb_ge v 0)); [done|]. by b2p.
Qed.
Lemma check_inputs_ok ls : check_inputs ls = None → Forall (λ nl, layer_ok nl.2 = true) ls.
Proof.
  induction ls as [|[name l] ls IH]; cbn [check_inputs]; [constructor|].
  destruct (bool_decide (validateLayer l = [])) eqn:Hl; [|done]. intros H. constructor; [done|by apply IH].
Qed.
Lemma layers_ok inp ps envs :
  check_inputs [("app settings", in_AppSettings inp); ("agent constraints", in_Agent inp);
                ("launch overrides", in_Launch inp)] = None →
  envLayers = Ok envs → Forall (λ p, profile_ok (Name p) p) ps →
  Forall (λ nl, layer_ok nl.2 = true) (layers inp ps envs).
Proof.
  intros Hin He%envLayers_ok Hps. apply check_inputs_ok in Hin.
  apply Forall_cons in Hin as [Happ Hin]. apply Forall_cons in Hin as [Hag Hin].
  apply Forall_cons in Hin as [Hla _]. cbn [snd] in *.
  unfold layers. rewrite !Forall_app, !Forall_fmap. split; [by repeat constructor|]. split.
  { apply (Forall_impl _ _ _ Hps). intros p Hp. by apply (profile_layers_ok (Name p)). }
  split; [|split; [by repeat constructor|exact He]].
  induction Hps as [|p ps Hp Hps IH]; [constructor|]. cbn. apply Forall_app. split; [|done].
  apply Forall_fmap, Forall_forall. intros pat _. by apply (profile_layers_ok (Name p)).
Qed.
Lemma stated_guard_valid ls d : Forall (λ nl, layer_ok nl.2 = true) ls → Valid (v_WriteClaimGuard d) = true →
  Valid (v_WriteClaimGuard (stated_values d ls)) = true.
Proof.
  intros Hls Hd. cbn. destruct (last_stated l_guard ls) as [g|] eqn:Hg; cbn; [|done].
  unfold last_stated in Hg. apply last_Some_elem_of in Hg. apply list_elem_of_omap in Hg as (nl&Hnl&Hg).
  rewrite Forall_forall in Hls. by apply (layer_guard_valid nl.2); [apply Hls|].
Qed.
Lemma clamp_guard v : v_WriteClaimGuard (clamp_values v) = v_WriteClaimGuard v.
Proof.
  unfold clamp_values, clamp. cbn [w_v].
  repeat match goal with |- context [let '(_, _) := ?x in _] => destruct x end. done.
Qed.

Lemma chain_inv r name c ps c' :
  registry_ok r → cache_ok c → chain r name c = (Ok ps, c') →
  cache_ok c' ∧ NoDup (Name <$> ps) ∧ Forall (λ p, profile_ok (Name p) p) ps ∧ linked ps ∧
  (name ≠ "" → last (Name <$> ps) = Some name ∧ ∃ p, hd_error ps = Some p ∧ Extends p = "").
Proof. intros Hr Hc H. eapply chain_from_inv in H; eauto; try constructor. intros n ?%elem_of_nil. done. Qed.

(** ** Recording clamps *)

(** The value under a key, as a clamp would record it. *)
Definition value_of (key : string) (v : Values) : option Request :=
  if bool_decide (key = "idle_timeout_ms") then Some (RDur (v_IdleTimeout v))
  else if bool_decide (key = "subagent_idle_timeout_ms") then Some (RDur (v_SubagentIdleTimeout v))
  else if bool_decide (key = "hard_ceiling") then Some (RInt (v_HardCeiling v))
  else if bool_decide (key = "consecutive_fail_cap") then Some (RInt (v_ConsecutiveFailCap v))
  else if bool_decide (key = "runaway_fail_cap") then Some (RInt (v_RunawayFailCap v))
  else if bool_decide (key = "per_tool_cap") then Some (RInt (v_PerToolCap v))
  else if bool_decide (key = "max_concurrent_tools") then Some (RInt (v_MaxConcurrentTools v))
  else if bool_decide (key = "compact_preview_bytes") then Some (RInt (v_CompactPreviewBytes v))
  else if bool_decide (key = "preview_pct") then Some (RFloat (v_PreviewPct v))
  else if bool_decide (key = "preview_min_bytes") then Some (RInt (v_PreviewMinBytes v))
  else if bool_decide (key = "preview_max_bytes") then Some (RInt (v_PreviewMaxBytes v))
  else if bool_decide (key = "tool_output_bytes") then RInt <$> v_ToolOutputBytes v
  else if bool_decide (key = "tool_output_pct") then Some (RFloat (v_ToolOutputPct v))
  else if bool_decide (key = "tool_output_min_bytes") then Some (RInt (v_ToolOutputMinBytes v))
  else if bool_decide (key = "tool_output_max_bytes") then Some (RInt (v_ToolOutputMaxBytes v))
  else if bool_decide (key = "tool_output_remaining_share") then Some (RFloat (v_ToolOutputRemainingShare v))
  else if bool_decide (key = "tool_output_remaining_floor_bytes") then Some (RInt (v_ToolOutputRemainingFloor v))
  else None.
(** The keys that are clamped twice: to the host's bounds and to a coupled value. *)
Definition coupled : list string := ["runaway_fail_cap"; "tool_output_max_bytes"; "preview_max_bytes"].

(** The request the marks leave at a key: that of the last one. *)
Definition last_mark (key : string) (ms : list (string * option Request)) : option Request :=
  last (omap (λ m, if bool_decide (m.1 = key) then m.2 else None) ms).
Lemma marks_lookup ms s key :
  marks ms s !! key =
    match last_mark key ms with
    | Some q => Some (mkSource (match s !! key with Some src => src_layer src | None => "" end) true (Some q))
    | None => s !! key
    end.
Proof.
  unfold marks, last_mark. induction ms as [|[k req] ms IH] using rev_ind; [done|].
  rewrite fold_left_app, omap_app. cbn [fold_left fst snd omap list_omap].
  set (s' := fold_left _ ms s) in *. unfold markClamped.
  case_bool_decide as Hk.
  - destruct req as [q|]; [|by rewrite app_nil_r]. subst k.
    rewrite lookup_insert_eq, last_snoc, IH. by destruct (last _).
  - rewrite app_nil_r. destruct req as [q|]; [|done]. by rewrite lookup_insert_ne.
Qed.

(** A guarded clamp: no mark when the value stays, and else the value asked for. *)
Definition exact {A} (req : A → Request) (v : A) (out : A * option Request) : Prop :=
  (out.2 = None ∧ out.1 = v) ∨ (out.2 = Some (req v) ∧ out.1 ≠ v).
Lemma clampInt_exact lo hi v : lo ≤ hi → exact RInt v (clampInt lo hi v).
Proof.
  intros H. unfold exact, clampInt. destruct ((lo <=? v) && (v <=? hi)) eqn:E; cbn; [by left|]. right.
  split; [done|]. unfold clampZ. apply andb_false_iff in E as [E|E]; b2p; lia.
Qed.
Lemma clampDur_exact v : exact RDur v (clampDur v).
Proof.
  unfold exact, clampDur. destruct ((minDuration <=? v) && (v <=? maxDuration)) eqn:E; cbn [fst snd]; [by left|]. right.
  split; [done|]. unfold clampZ. apply andb_false_iff in E as [E|E]; b2p; unfold minDuration, maxDuration, second in *; lia.
Qed.
Lemma couple_exact lo v : exact RInt v (couple lo v).
Proof. unfold exact, couple. destruct (v <? lo) eqn:E; cbn; [right|by left]. b2p. split; [done|lia]. Qed.
Lemma clampFloat_exact lo hi v : SFltb lo hi = true → exact RFloat v (clampFloat lo hi v).
Proof.
  intros Hlt. unfold exact, clampFloat. cbn [fst snd].
  destruct (SFltb v lo || SFltb hi v) eqn:E; [right; split; [done|]|left; unfold clampF; by rewrite E].
  assert (is_nan lo = false) as Hlo by by destruct lo. assert (is_nan hi = false) as Hhi by by destruct lo, hi.
  assert (is_nan v = false) as Hv by (destruct v; try done; by destruct lo, hi).
  assert (f_max lo hi = hi) as Hmax by (unfold f_max; by rewrite Hlo, Hhi, Hlt).
  assert (∀ x y, SFltb x y = true → x ≠ y) as Hne.
  { intros x y Hxy ->. by rewrite (SFltb_asym _ _ Hxy) in Hxy. }
  unfold clampF. rewrite E. unfold f_min. rewrite Hv, Hhi.
  destruct (SFltb v hi) eqn:Hvh.
  - rewrite (SFltb_asym _ _ Hvh), orb_false_r in E. unfold f_max.
    rewrite Hlo, Hv, (SFltb_asym _ _ E), E. intros ->. by apply (Hne _ _ E).
  - destruct (SFltb hi v) eqn:Hhv.
    + rewrite Hmax. by apply Hne.
    + rewrite orb_false_r in E. destruct (f_neg v).
      * unfold f_max. rewrite Hlo, Hv, (SFltb_asym _ _ E), E. intros ->. by apply (Hne _ _ E).
      * rewrite Hmax. intros ->. by rewrite E in Hvh || (rewrite (SFltb_asym _ _ E) in Hlt).
Qed.
Lemma clampBytes_exact o :
  ((clampBytes o).2 = None ∧ (clampBytes o).1 = o) ∨
  ((clampBytes o).2 = RInt <$> o ∧ (clampBytes o).1 ≠ o ∧ is_Some o).
Proof.
  unfold clampBytes. destruct o as [z|]; [|by left].
  destruct (negb (z =? 0) && ((z <? 1024) || (maxToolOutputBytes <? z))) eqn:E; cbn; [|by left]. right.
  split; [done|]. split; [|done]. intros [= Hz]. unfold clampZ, maxToolOutputBytes in *. b2p.
  apply orb_true_iff in H0 as [?|?]; b2p; lia.
Qed.

Lemma clampInt_fst lo hi v : lo ≤ hi → (clampInt lo hi v).1 = clampZ lo hi v.
Proof. intros. unfold clampInt. destruct ((lo <=? v) && (v <=? hi)) eqn:E; [|done]. b2p. unfold clampZ. cbn. lia. Qed.

Lemma one_mark {A} (req : A → Request) v v' m :
  Inj (=) (=) req → exact req v (v', m) →
  let l := match m with Some q => [q] | None => [] end in
  stated (last l) = bool_decide (Some (req v') ≠ Some (req v)) ∧
  ∀ q, last l = Some q → Some (req v) = Some q.
Proof.
  intros Hinj [[Hm Hv]|[Hm Hv]]; cbn in Hm, Hv; subst; cbn.
  - split; [|done]. symmetry. apply bool_decide_eq_false. naive_solver.
  - split; [|naive_solver]. symmetry. apply bool_decide_eq_true. naive_solver.
Qed.
Lemma two_marks lo hi floor v v1 v2 m1 m2 :
  v1 = clampZ lo hi v → lo ≤ hi → floor ≤ hi → v2 = Z.max floor v1 →
  exact RInt v (v1, m1) → exact RInt v1 (v2, m2) →
  stated (last (match m1 with
                | Some y => y :: match m2 with Some y0 => [y0] | None => [] end
                | None => match m2 with Some y => [y] | None => [] end
                end)) = bool_decide (Some (RInt v2) ≠ Some (RInt v)).
Proof.
  unfold clampZ. intros H1 Hle Hfl H2 [[Hm1 Hv1]|[Hm1 Hv1]] [[Hm2 Hv2]|[Hm2 Hv2]]; cbn in Hm1, Hv1, Hm2, Hv2;
    subst m1 m2; cbn; symmetry; (apply bool_decide_eq_true || apply bool_decide_eq_false).
  1: intros Hn; apply Hn; do 2 f_equal; lia.
  all: intros [=]; lia.
Qed.
#[export] Instance RInt_inj : Inj (=) (=) RInt.
Proof. by intros ?? [=]. Qed.
#[export] Instance RDur_inj : Inj (=) (=) RDur.
Proof. by intros ?? [=]. Qed.
#[export] Instance RFloat_inj : Inj (=) (=) RFloat.
Proof. by intros ?? [=]. Qed.

(** The clamps leave a mark exactly where the value changed. *)
Lemma clamp_marks_exact w :
  ∃ ms, w_sources (clamp w) = marks ms (w_sources w) ∧
    ∀ key, key ∈ value_keys →
      (stated (last_mark key ms) = bool_decide (value_of key (clamp_values (w_v w)) ≠ value_of key (w_v w))) ∧
      (∀ q, last_mark key ms = Some q → key ∉ coupled → value_of key (w_v w) = Some q).
Proof.
  rewrite <- clamp_value. unfold clamp.
  repeat match goal with
  | |- context [let '(_, _) := clampDur ?x in _] =>
      pose proof (clampDur_exact x); destruct (clampDur x)
  | |- context [let '(_, _) := clampInt ?lo ?hi ?x in _] =>
      pose proof (clampInt_bounds lo hi x ltac:(unfold maxToolOutputBytes; lia));
      pose proof (clampInt_fst lo hi x ltac:(unfold maxToolOutputBytes; lia));
      pose proof (clampInt_exact lo hi x ltac:(unfold maxToolOutputBytes; lia)); destruct (clampInt lo hi x)
  | |- context [let '(_, _) := clampFloat ?lo ?hi ?x in _] =>
      pose proof (clampFloat_exact lo hi x eq_refl); destruct (clampFloat lo hi x)
  | |- context [let '(_, _) := clampBytes ?x in _] =>
      pose proof (clampBytes_exact x); destruct (clampBytes x)
  | |- context [let '(_, _) := couple ?lo ?x in _] =>
      pose proof (couple_max lo x); pose proof (couple_exact lo x); destruct (couple lo x)
  end.
  cbn [w_sources w_v fst snd] in *. eexists. split; [done|]. intros key Hkey. unfold value_keys in Hkey.
  repeat (apply elem_of_cons in Hkey as [->|Hkey]); [..|by apply elem_of_nil in Hkey].
  all: unfold last_mark; simpl.
  all: try match goal with
    | H : exact ?req ?v (?v', ?m) |- context [last (match ?m with Some y => [y] | None => [] end)] =>
        destruct (one_mark req v v' m _ H) as [Hs Hr]; split; [exact Hs|intros q Hq _; exact (Hr q Hq)]
    end.
  - split; [eapply two_marks; eauto; lia|intros q _ Hnot; destruct Hnot; by_decide].
  - split; [eapply two_marks; eauto; unfold maxToolOutputBytes in *; lia|intros q _ Hnot; destruct Hnot; by_decide].
  - match goal with H : _ ∨ (_ ∧ _ ∧ is_Some _) |- _ => destruct H as [[-> ->]|(->&Hne&[b Hb])] end.
    + cbn. split; [|done]. symmetry. apply bool_decide_eq_false. unfold value_of. cbn. naive_solver.
    + unfold value_of. cbn. rewrite Hb in *. cbn. split; [|naive_solver].
      symmetry. apply bool_decide_eq_true. by destruct o15; naive_solver.
  - split; [eapply two_marks; eauto; unfold maxToolOutputBytes in *; lia|intros q _ Hnot; destruct Hnot; by_decide].
  - done.
Qed.

(** ** Sorting patterns *)

#[export] Instance pattern_le_trans : Transitive pattern_le.
Proof. intros a b c [H1|[H1 L1]] [H2|[H2 L2]]; unfold pattern_le; try (left; lia). right. split; [lia|]. by transitivity b. Qed.
#[export] Instance pattern_le_antisym : AntiSymm (=) pattern_le.
Proof. intros a b [H1|[H1 L1]] [H2|[H2 L2]]; try lia. by apply (anti_symm String.le). Qed.
#[export] Instance pattern_le_total : Total pattern_le.
Proof.
  intros a b. unfold pattern_le. destruct (Z.lt_trichotomy (literalLen a) (literalLen b)) as [|[Heq|]]; [by left; left| |by right; left].
  destruct (total String.le a b); [left|right]; right; auto.
Qed.
Lemma filter_Permutation {A} (P : A → bool) l k : l ≡ₚ k → List.filter P l ≡ₚ List.filter P k.
Proof.
  induction 1 as [|x l k _ IH|x y l|l k m _ IH1 _ IH2]; cbn; [done| | |by transitivity (List.filter P k)].
  - destruct (P x); [by constructor|done].
  - destruct (P x), (P y); try done. constructor.
Qed.

(** ** The registry starts sound *)

Lemma ParseProfile_ok d p : ParseProfile d = Ok p → profile_ok (Name p) p.
Proof.
  unfold ParseProfile. destruct (decode d) as [q|]; [|done].
  destruct (validate q) eqn:Hv; [done|]. by intros [= <-].
Qed.
Lemma load_builtins_ok embedded b b' :
  map_Forall profile_ok b → load_builtins embedded b = Ok b' → map_Forall profile_ok b'.
Proof.
  revert b. induction embedded as [|[file data] rest IH]; intros b Hb; cbn; [by intros [= <-]|].
  destruct (ParseProfile data) as [p|] eqn:Hp; [|done]. case_bool_decide; [done|].
  apply IH. apply map_Forall_insert_2; [by apply ParseProfile_ok in Hp|done].
Qed.
Lemma NewRegistry_ok embedded dir dflt c r c' :
  cache_ok c → NewRegistry embedded dir dflt c = (Ok r, c') → registry_ok r ∧ cache_ok c'.
Proof.
  intros Hc. unfold NewRegistry, mbind, act_bind, lift.
  destruct (load_builtins embedded ∅) as [b|] eqn:Hb; [|done].
  apply load_builtins_ok in Hb; [|apply map_Forall_empty].
  destruct (match dir with Some d => clashes b d | None => [] end) as [|[file n] ?]; [|done].
  unfold wrap. destruct (chain _ _ c) as [[ps|e] c1] eqn:Hch; [|done].
  unfold mret, act_ret. intros [= <- <-]. split; [exact Hb|]. by apply chain_inv in Hch as [? _].
Qed.

(** ** Properties *)

(** The fractions of two sets of values are numbers alike. *)
Record same_nans (v v' : Values) : Prop := {
  nan_pct : is_nan (v_PreviewPct v) = is_nan (v_PreviewPct v');
  nan_tpct : is_nan (v_ToolOutputPct v) = is_nan (v_ToolOutputPct v');
  nan_share : is_nan (v_ToolOutputRemainingShare v) = is_nan (v_ToolOutputRemainingShare v');
}.
Lemma clamp_values_nans v : same_nans (clamp_values v) v.
Proof.
  unfold clamp_values, clamp. cbn [w_v].
  repeat match goal with
  | |- context [let '(_, _) := clampFloat ?lo ?hi ?x in _] =>
      pose proof (clampFloat_nan lo hi x eq_refl eq_refl eq_refl); destruct (clampFloat lo hi x); cbn [fst] in *
  | |- context [let '(_, _) := ?x in _] => destruct x
  end.
  by split.
Qed.

(** C36. The most specific layer wins.  A resolution that succeeds takes every value
    from the last layer that states its knob, in the order app settings, the profile
    and what it extends (base first), the matching per-model blocks, the agent, the
    launch, the environment; a knob no layer states has its computed default; the
    host's bounds are applied last.  The source recorded for every key names that
    layer. *)
Theorem last_statement_wins r inp c res c' :
  Resolve r inp c = (Ok res, c') →
  ∃ ps envs,
    chain r (if bool_decide (in_Profile inp = "") then defaultName r else in_Profile inp) c = (Ok ps, c') ∧
    envLayers = Ok envs ∧
    let ls := layers inp ps envs in
    res_Values res = clamp_values (stated_values computed_values ls) ∧
    ∀ key, src_layer <$> res_Sources res !! key = source_layer key ls.
Proof.
  intros (ps&envs&Hc&He&_&->)%Resolve_Ok. exists ps, envs. split; [done|]. split; [done|].
  cbn [res_Values res_Sources]. split; [by rewrite clamp_value, fold_apply_values|].
  apply clamped_layer.
Qed.

(** C35. Whatever the profile files, the launch, the agent and the environment ask
    for, the resolved values are within the host's bounds: windows between a second
    and a day, caps and sizes in their ranges, the runaway cap not below the warning
    cap, each preview and output ceiling not below its floor, the guard one of its four
    modes, and each of the three fractions in its interval or not a number.  A resolved
    fraction is not a number exactly when the value the layers asked for is not one,
    which YAML's [.nan] and the environment can state, since neither validation nor the
    clamps remove it; and the cache stays sound. *)
Theorem resolved_values_in_bounds r inp c res c' :
  registry_ok r → cache_ok c → Resolve r inp c = (Ok res, c') →
  values_ok (res_Values res) ∧ Valid (v_WriteClaimGuard (res_Values res)) = true ∧ cache_ok c' ∧
  ∃ ps envs,
    chain r (if bool_decide (in_Profile inp = "") then defaultName r else in_Profile inp) c = (Ok ps, c') ∧
    envLayers = Ok envs ∧ same_nans (res_Values res) (stated_values computed_values (layers inp ps envs)).
Proof.
  intros Hr Hc (ps&envs&Hch&He&Hin&->)%Resolve_Ok. pose proof Hch as (Hc'&_&Hps&_)%chain_inv; [|done|done].
  cbn [res_Values]. rewrite clamp_value. split; [apply clamp_values_ok|]. split_and!; [|done|].
  - rewrite clamp_guard, fold_apply_values. apply stated_guard_valid; [|done]. by apply layers_ok.
  - exists ps, envs. split_and!; [done|done|]. rewrite fold_apply_values. apply clamp_values_nans.
Qed.

(** A clamp is recorded on the value it changed and on no other: the source of
    every key says it was clamped exactly when the resolved value differs from the
    one the layers asked for, and then holds that value as the request, except at the
    three keys with a coupled bound. *)
Theorem clamps_are_recorded r inp c res c' :
  Resolve r inp c = (Ok res, c') →
  ∃ ps envs,
    chain r (if bool_decide (in_Profile inp = "") then defaultName r else in_Profile inp) c = (Ok ps, c') ∧
    envLayers = Ok envs ∧
    let asked := stated_values computed_values (layers inp ps envs) in
    ∀ key, key ∈ value_keys → ∃ s, res_Sources res !! key = Some s ∧
      src_clamped s = bool_decide (value_of key (res_Values res) ≠ value_of key asked) ∧
      (src_clamped s = true → key ∉ coupled → src_requested s = value_of key asked).
Proof.
  intros (ps&envs&Hc&He&_&->)%Resolve_Ok. exists ps, envs. split; [done|]. split; [done|].
  cbn [res_Values res_Sources]. intros key Hkey. rewrite clamp_value.
  destruct (clamp_marks_exact (fold_left apply (layers inp ps envs) setComputed)) as (ms&->&Hms).
  rewrite fold_apply_values in Hms |- *. destruct (Hms key Hkey) as [Hst Hreq].
  rewrite marks_lookup, applied_sources. change (w_v setComputed) with computed_values in *.
  rewrite <- Hst. destruct (last_mark key ms) as [q|]; cbn [stated] in *.
  - eexists. split; [done|]. cbn. split; [done|]. intros _ Hco. symmetry. by apply Hreq.
  - unfold source_layer. destruct (last_stater key (layers inp ps envs)); [by eexists|].
    rewrite bool_decide_true by done. by eexists.
Qed.

(** Following [extends] ends, whatever the files say: the loop never runs out of
    its rounds, so a cycle is reported as one.  A chain that is returned starts at a
    profile that extends nothing, ends at the profile asked for, has each profile
    extend the one before it, names none twice, and holds valid profiles only. *)
Theorem extends_chain_ends r name c :
  registry_ok r → cache_ok c → name ≠ "" →
  match chain r name c with
  | (Ok ps, c') =>
      linked ps ∧ (∃ p, hd_error ps = Some p ∧ Extends p = "") ∧ last (Name <$> ps) = Some name ∧
      NoDup (Name <$> ps) ∧ Forall (λ p, validate p = None) ps ∧ cache_ok c'
  | (Err e, _) => e ≠ EFuel
  end.
Proof.
  intros Hr Hc Hname. destruct (chain r name c) as [[ps|e] c'] eqn:Hch.
  - apply chain_inv in Hch as (Hc'&Hnd&Hok&Hl&Hends); [|done|done]. destruct (Hends Hname) as [Hlast Hhd].
    split_and!; try done. by apply (Forall_impl _ _ _ Hok); intros p [_ Hv].
  - intros ->. apply (chain_from_fuel r name (2 + length (candidates r)) name ∅ [] [] c).
    + clear. set_solver.
    + constructor.
    + clear. intros n ?%elem_of_nil. done.
    + cbn. lia.
    + unfold chain in Hch. by rewrite Hch.
Qed.

(** The per-model blocks of a profile apply in an order of their own: the
    patterns found are exactly those that match the model, none for no model, and
    they are sorted by the number of literal characters, the least specific first,
    whatever order the map of blocks is walked in. *)
Theorem model_patterns_exact p model keys :
  keys ≡ₚ (map_to_list (Models p)).*1 →
  sort_patterns keys model = modelPatterns p model ∧
  Sorted pattern_le (modelPatterns p model) ∧
  ∀ pat, pat ∈ modelPatterns p model ↔ model ≠ "" ∧ is_Some (Models p !! pat) ∧ Match pat model = Some true.
Proof.
  intros Hkeys. unfold modelPatterns, sort_patterns. case_bool_decide as Hm.
  { split; [done|]. split; [constructor|]. intros pat. rewrite elem_of_nil. split; [done|]. by intros [? _]. }
  split; [|split].
  - apply (Sorted_unique pattern_le); [apply Sorted_merge_sort, _..|].
    rewrite !merge_sort_Permutation. by apply filter_Permutation.
  - apply Sorted_merge_sort, _.
  - intros pat. rewrite merge_sort_Permutation, list_elem_of_In, filter_In, <- list_elem_of_In, bool_decide_eq_true.
    rewrite list_elem_of_fmap. split.
    + intros [([k l]&->&Hin%elem_of_map_to_list) Hmt]. cbn in *. split; [done|]. split; [by eexists|done].
    + intros (_&[l Hl]&Hmt). split; [|done]. exists (pat, l). split; [done|]. by apply elem_of_map_to_list.
Qed.
End Env.
End Registry.
End Cost.

Section CeilingBounds.
Variable oob : float64 → Z.

Lemma remaining_cap_floor v rem : values_ok v → 0 ≤ rem → 256 ≤ RemainingCap oob v rem.
Proof.
  intros Hv Hrem. unfold RemainingCap. rewrite (proj2 (Z.ltb_ge rem 0)) by done.
  pose proof (ok_floor v Hv). lia.
Qed.

(** The tool-output ceiling of a turn is off exactly when it was stated as zero,
    and otherwise is between 256 bytes and 64 MiB, whatever the model's window and
    however the product with a fraction rounds, overflows or fails to be a number; a
    known remaining context caps it, down to a floor that leaves room for a result. *)
Theorem turn_ceiling_bounded v window rem :
  values_ok v →
  (TurnCeiling oob v window rem = 0 ↔ v_ToolOutputBytes v = Some 0) ∧
  (TurnCeiling oob v window rem ≠ 0 → 256 ≤ TurnCeiling oob v window rem ≤ maxToolOutputBytes) ∧
  (0 ≤ rem → TurnCeiling oob v window rem ≤ RemainingCap oob v rem) ∧
  (0 ≤ rem → v_ToolOutputRemainingFloor v ≤ RemainingCap oob v rem).
Proof.
  intros Hv. pose proof (ok_bytes v Hv) as Hb. pose proof (ok_tmin v Hv). pose proof (ok_tmax v Hv).
  assert (0 ≤ rem → 256 ≤ RemainingCap oob v rem) as Hcap by by apply remaining_cap_floor.
  assert (rem < 0 → RemainingCap oob v rem = -1) as Hneg.
  { intros. unfold RemainingCap. by rewrite (proj2 (Z.ltb_lt rem 0)). }
  assert (0 ≤ rem → v_ToolOutputRemainingFloor v ≤ RemainingCap oob v rem) as Hfl.
  { intros. unfold RemainingCap. rewrite (proj2 (Z.ltb_ge rem 0)) by done. lia. }
  unfold TurnCeiling. set (cap := RemainingCap oob v rem) in *.
  assert (∀ base, 1024 ≤ base ≤ maxToolOutputBytes →
    256 ≤ (if 0 <=? cap then Z.min base cap else base) ≤ maxToolOutputBytes
    ∧ (0 ≤ rem → (if 0 <=? cap then Z.min base cap else base) ≤ cap)) as Hlim.
  { intros base Hbase. destruct (Z.ltb_spec rem 0) as [Hr|Hr].
    - rewrite (Hneg Hr). cbn. lia.
    - specialize (Hcap Hr). rewrite (proj2 (Z.leb_le 0 cap)) by lia. lia. }
  assert (∀ base, 1024 ≤ base ≤ maxToolOutputBytes → v_ToolOutputBytes v ≠ Some 0 →
    let t := if 0 <=? cap then Z.min base cap else base in
    (t = 0 ↔ v_ToolOutputBytes v = Some 0) ∧ (t ≠ 0 → 256 ≤ t ≤ maxToolOutputBytes) ∧ (0 ≤ rem → t ≤ cap)
    ∧ (0 ≤ rem → v_ToolOutputRemainingFloor v ≤ cap)) as Hdone.
  { intros base Hbase Hne t. destruct (Hlim base Hbase) as [Ht1 Ht2]. fold t in Ht1, Ht2.
    split_and!; try done. split; [lia|done]. }
  destruct (v_ToolOutputBytes v) as [b|] eqn:Ho.
  - destruct (b =? 0) eqn:Hb0.
    + apply Z.eqb_eq in Hb0 as ->. split_and!; try done. intros Hr. specialize (Hcap Hr). lia.
    + apply Z.eqb_neq in Hb0. destruct (Hb b eq_refl); [done|]. apply Hdone; [lia|congruence].
  - destruct (window <=? 0).
    + apply Hdone; [lia|done].
    + apply Hdone; [lia|done].
Qed.
End CeilingBounds.

(** ** Worked examples *)

Module Example_run.
Definition no_cost (_ : unit) : bool := false.
Definition knobs_of (hard run : option Z) : Knobs :=
  mkKnobs None hard None run None None None None None None None None None None None.
Definition layer_of (idle hard run : option Z) : @Layer unit :=
  mkLayer (mkLimits None idle None None None None None) (knobs_of hard run) None.
Definition default_profile : @Profile unit := mkProfile "default" "" empty_layer ∅.
Definition conservative : @Profile unit :=
  mkProfile "conservative" "default" (layer_of (Some 300000) (Some 100) (Some 5))
    (<["claude-*" := layer_of None (Some 120) None]> (<["claude-opus-*" := layer_of None (Some 150) None]> ∅)).
Definition loop_a : @Profile unit := mkProfile "a" "b" empty_layer ∅.
Definition loop_b : @Profile unit := mkProfile "b" "a" empty_layer ∅.
Definition decode (s : string) : option (@Profile unit) :=
  if bool_decide (s = "A") then Some loop_a else if bool_decide (s = "B") then Some loop_b
  else if bool_decide (s = "C") then Some conservative else if bool_decide (s = "D") then Some default_profile
  else None.
Definition files : gmap string Node :=
  <["a.yaml" := Regular 1 1 (Some "A")]> (<["b.yml" := Regular 1 1 (Some "B")]> (<["bad.yaml" := Regular 1 1 (Some "?")]> ∅)).
Definition registry : @Registry unit := mkRegistry "default" (<["default" := default_profile]> (<["conservative" := conservative]> ∅)) (Some files).
Definition getenv (s : string) : option string :=
  if bool_decide (s = "NANITE_HARNESS_HARD_CEILING") then Some " 20000 " else None.
Definition inputs (profile model : string) (launch : @Layer unit) : @Inputs unit :=
  mkInputs profile model empty_layer empty_layer launch.
Definition resolve (env : string → option string) (inp : Inputs) :=
  Resolve no_cost decode (λ _, None) env (λ _, "digest") registry inp ∅.

Lemma registry_sound : registry_ok no_cost registry.
Proof.
  apply map_Forall_insert_2; [split; by vm_compute|].
  apply map_Forall_insert_2; [split; by vm_compute|]. apply map_Forall_empty.
Qed.
Lemma cache_sound : cache_ok no_cost (∅ : gmap string (@fileEntry unit)).
Proof. intros file e He. change (None = Some e) in He. done. Qed.

(** The launch asks for a ceiling of 120 and the environment for 20000: the
    environment wins and is clamped. *)
Example env_wins :
  match (resolve getenv (inputs "conservative" "claude-opus-4" (layer_of None (Some 120) None))).1 with
  | Ok res => (v_HardCeiling (res_Values res), res_Sources res !! "hard_ceiling", v_RunawayFailCap (res_Values res))
              = (10000, Some (mkSource "env:NANITE_HARNESS_HARD_CEILING" true (Some (RInt 20000))), 5)
  | Err _ => False
  end.
Proof. by vm_compute. Qed.
(** The more specific per-model block wins over the profile. *)
Example model_block_wins :
  match (resolve (λ _, None) (inputs "conservative" "claude-opus-4" empty_layer)).1 with
  | Ok res => (v_HardCeiling (res_Values res), src_layer <$> res_Sources res !! "hard_ceiling")
              = (150, Some "profile:conservative/model:claude-opus-*")
  | Err _ => False
  end.
Proof. by vm_compute. Qed.
(** A cycle through two files is reported. *)
Example cycle_reported : (resolve (λ _, None) (inputs "a" "" empty_layer)).1 = Err (ECycle "a" "a").
Proof. by vm_compute. Qed.
(** An idle timeout of about 292 years is not clamped to a day: in nanoseconds it
    wraps around to a negative number, and the run gets one second. *)
Example huge_idle_timeout_wraps :
  match (resolve (λ _, None) (inputs "default" "" (layer_of (Some 9223372036855) None None))).1 with
  | Ok res => v_IdleTimeout (res_Values res) = second
              ∧ res_Sources res !! "idle_timeout_ms" = Some (mkSource "launch" true (Some (RDur (-9223372036854551616))))
  | Err _ => False
  end.
Proof. by vm_compute. Qed.
(** A runaway cap of 0 below the warning cap of 3 is clamped twice, and the recorded
    request is the host minimum, not what was asked. *)
Example coupled_request :
  match (resolve (λ _, None) (inputs "default" "" (layer_of None None (Some 0)))).1 with
  | Ok res => (v_RunawayFailCap (res_Values res), res_Sources res !! "runaway_fail_cap")
              = (3, Some (mkSource "launch" true (Some (RInt 1))))
  | Err _ => False
  end.
Proof. by vm_compute. Qed.
(** A fraction that is not a number passes validation and the clamps. *)
Example nan_passes :
  let l := mkLayer (Cost := unit) no_limits (mkKnobs None None None None None None None (Some S754_nan) None None None None None None None) None in
  layer_ok no_cost l = true ∧
  match (resolve (λ _, None) (inputs "default" "" l)).1 with
  | Ok res => is_nan (v_PreviewPct (res_Values res)) = true
  | Err _ => False
  end.
Proof. by vm_compute. Qed.
(** [Names] lists a file that cannot be parsed. *)
Example names_lists_invalid : "bad" ∈ Names registry ∧ (load no_cost decode registry "bad" ∅).1 = Err (EFile "bad.yaml" EYAML).
Proof. split; [by_decide|by vm_compute]. Qed.

Definition run_inputs : Inputs := inputs "conservative" "claude-opus-4" (layer_of None (Some 120) None).
Definition run := resolve getenv run_inputs.
Lemma run_ok : is_ok run.1 = true.
Proof. by vm_compute. Qed.
Lemma last_statement_wins_witness :
  match run with
  | (Ok res, c') => ∃ ps envs, chain no_cost decode registry "conservative" ∅ = (Ok ps, c') ∧
      envLayers no_cost (λ _, None) getenv = Ok envs ∧
      let ls := layers run_inputs ps envs in
      res_Values res = clamp_values (Cost := unit) (stated_values computed_values ls) ∧
      ∀ key, src_layer <$> res_Sources res !! key = source_layer key ls
  | (Err _, _) => False
  end.
Proof.
  destruct run as [[res|e] c'] eqn:H; [exact (last_statement_wins no_cost decode (λ _, None) getenv (λ _, "digest") registry run_inputs ∅ res c' H)|].
  pose proof run_ok as Hok. rewrite H in Hok. discriminate.
Defined.
Lemma resolved_values_in_bounds_witness :
  match run with
  | (Ok res, c') => values_ok (res_Values res) ∧ Valid (v_WriteClaimGuard (res_Values res)) = true ∧ cache_ok no_cost c' ∧
      ∃ ps envs, chain no_cost decode registry "conservative" ∅ = (Ok ps, c') ∧
        envLayers no_cost (λ _, None) getenv = Ok envs ∧
        same_nans (res_Values res) (stated_values computed_values (layers run_inputs ps envs))
  | (Err _, _) => False
  end.
Proof.
  destruct run as [[res|e] c'] eqn:H.
  - exact (resolved_values_in_bounds no_cost decode (λ _, None) getenv (λ _, "digest") registry run_inputs ∅ res c' registry_sound cache_sound H).
  - pose proof run_ok as Hok. rewrite H in Hok. discriminate.
Defined.
Lemma clamps_are_recorded_witness :
  match run with
  | (Ok res, c') => ∃ ps envs, chain no_cost decode registry "conservative" ∅ = (Ok ps, c') ∧
      envLayers no_cost (λ _, None) getenv = Ok envs ∧
      let asked := stated_values computed_values (layers run_inputs ps envs) in
      ∀ key, key ∈ value_keys → ∃ s, res_Sources res !! key = Some s ∧
        src_clamped s = bool_decide (value_of key (res_Values res) ≠ value_of key asked) ∧
        (src_clamped s = true → key ∉ coupled → src_requested s = value_of key asked)
  | (Err _, _) => False
  end.
Proof.
  destruct run as [[res|e] c'] eqn:H; [exact (clamps_are_recorded no_cost decode (λ _, None) getenv (λ _, "digest") registry run_inputs ∅ res c' H)|].
  pose proof run_ok as Hok. rewrite H in Hok. discriminate.
Defined.
Lemma extends_chain_ends_witness :
  match chain no_cost decode registry "conservative" ∅ with
  | (Ok ps, c') =>
      linked ps ∧ (∃ p, hd_error ps = Some p ∧ Extends p = "") ∧ last (Name <$> ps) = Some "conservative" ∧
      NoDup (Name <$> ps) ∧ Forall (λ p, validate no_cost p = None) ps ∧ cache_ok no_cost c'
  | (Err e, _) => e ≠ EFuel
  end.
Proof. exact (extends_chain_ends no_cost decode registry "conservative" ∅ registry_sound cache_sound ltac:(discriminate)). Defined.
Lemma model_patterns_exact_witness :
  sort_patterns ["claude-opus-*"; "claude-*"] "claude-opus-4" = modelPatterns conservative "claude-opus-4" ∧
  Sorted pattern_le (modelPatterns conservative "claude-opus-4") ∧
  ∀ pat, pat ∈ modelPatterns conservative "claude-opus-4"
    ↔ "claude-opus-4" ≠ "" ∧ is_Some (Models conservative !! pat) ∧ Match pat "claude-opus-4" = Some true.
Proof.
  apply (model_patterns_exact conservative "claude-opus-4" ["claude-opus-*"; "claude-*"]).
  by_decide.
Defined.
Lemma turn_ceiling_bounded_witness :
  let v := clamp_values (Cost := unit) computed_values in
  (TurnCeiling (λ _, 0) v 200000 1000 = 0 ↔ v_ToolOutputBytes v = Some 0) ∧
  (TurnCeiling (λ _, 0) v 200000 1000 ≠ 0 → 256 ≤ TurnCeiling (λ _, 0) v 200000 1000 ≤ maxToolOutputBytes) ∧
  (0 ≤ 1000 → TurnCeiling (λ _, 0) v 200000 1000 ≤ RemainingCap (λ _, 0) v 1000) ∧
  (0 ≤ 1000 → v_ToolOutputRemainingFloor v ≤ RemainingCap (λ _, 0) v 1000).
Proof. exact (turn_ceiling_bounded (λ _, 0) _ 200000 1000 (clamp_values_ok computed_values)). Defined.
End Example_run.
