(* ===== verification/Truncate.v ===== *)
(** * Truncated tool output (internal/truncate)

    [truncate.go] and [utf8.go]: what of a tool's output the model sees.  An
    output over the byte or line limit is saved to a file and cut to whole lines;
    where the file cannot be written it is cut at a rune boundary.

    Parameters: the model catalogue ([ContextWindowFor] of pkg/models) and the
    product [int(float64(bytes) * pct)], given as the function [share] of the
    window in bytes; [os.WriteFile], [os.ReadDir] and [os.Remove] by their
    outcomes.  Lengths are [Z], as Go's [int].

    Theorems: what the model sees is within the limits, made of whole lines of
    the output or cut between runes, and says how much is missing; and an output
    whose first line is over the limit shows none of it. *)

From stdpp Require Import pretty.
From S2P Require Import Prelude GoStrings.

Open Scope string_scope.
Open Scope Z_scope.

Definition len (s : string) : Z := Z.of_nat (String.length s).
Definition nl : ascii := byte 10.

(** ** Cutting at a rune boundary (utf8.go) *)

(** [utf8.RuneStart]: not a continuation byte. *)
Definition RuneStart (b : ascii) : bool :=
  negb (Z.land (Z.of_nat (nat_of_ascii b)) 192 =? 128).

(** The loop [for n > 0 && !utf8.RuneStart(s[n]) { n-- }]. *)
Fixpoint cut_loop (s : string) (n : nat) : nat :=
  match n with
  | O => O
  | S n' => match String.get n s with
            | Some b => if RuneStart b then n else cut_loop s n'
            | None => n
            end
  end.
(** [UTF8Cut]. *)
Definition UTF8Cut (s : string) (n : Z) : nat :=
  if len s <=? n then String.length s
  else if n <=? 0 then O
  else cut_loop s (Z.to_nat n).
(** [UTF8Head]. *)
Definition UTF8Head (s : string) (n : Z) : string := str_take (UTF8Cut s n) s.

(** ** The limit for a model *)

Definition MaxChars : Z := 4000.
Definition MaxLines : Z := 200.
Definition MaxCharsCeiling : Z := 32000.

Section Budget.
Context (ContextWindowFor : string → Z).

(** [computeDynamicMaxCharsWith]: the limit and the window it came from. *)
Definition computeDynamicMaxCharsWith (modelID : string) (share : Z → Z) (floor ceiling : Z) : Z * Z :=
  if bool_decide (modelID = "") then (floor, 0)
  else
    let windowTokens := ContextWindowFor modelID in
    if windowTokens <=? 0 then (floor, 0)
    else
      let windowBytes := windowTokens * 4 in
      let proposed := share windowBytes in
      if proposed <? floor then (floor, windowTokens)
      else if ceiling <? proposed then (ceiling, windowTokens)
      else (proposed, windowTokens).
(** [computeDynamicMaxChars], with [share] for [dynMaxCharsPct]. *)
Definition computeDynamicMaxChars (share : Z → Z) (modelID : string) : Z * Z :=
  computeDynamicMaxCharsWith modelID share MaxChars MaxCharsCeiling.
(** [BudgetForModel] and [BudgetForModelWith]. *)
Definition BudgetForModel (share : Z → Z) (modelID : string) : Z := (computeDynamicMaxChars share modelID).1.
Definition BudgetForModelWith (modelID : string) (share : Z → Z) (floor ceiling : Z) : Z :=
  (computeDynamicMaxCharsWith modelID share floor ceiling).1.
End Budget.

(** ** Cutting an output *)

Record Result := mkResult {
  Content : string;
  Truncated : bool;
  OutputPath : string;
  OriginalLen : Z;
}.

(** The preview loop: whole lines while they fit.  State: the preview and the
    two counters. *)
Fixpoint preview_loop (maxChars : Z) (lines : list string) (preview : string) (charCount lineCount : Z)
    : string * Z :=
  match lines with
  | [] => (preview, lineCount)
  | line :: rest =>
      if (maxChars <? charCount + len line + 1) || (MaxLines <=? lineCount) then (preview, lineCount)
      else
        let nonempty := 0 <? len preview in
        let preview' := (if nonempty then preview +:+ String nl "" else preview) +:+ line in
        let charCount' := (if nonempty then charCount + 1 else charCount) + len line in
        preview_loop maxChars rest preview' charCount' (lineCount + 1)
  end.

Definition delegate_hint : string :=
  "Consider delegating to a research agent to process the full output. The data above shows the shape and structure — a focused sub-agent can analyze the complete result.".
Definition narrow_hint : string :=
  "Use more specific queries or filters to narrow the results. The data above shows the shape and structure — refine your query based on what you see.".
(** The [fmt.Sprintf] of the hint. *)
Definition truncation_hint (remainingLines remainingBytes : Z) (canDelegate : bool) : string :=
  String nl (String nl "") +:+ "... " +:+ pretty remainingLines +:+ " more lines (" +:+ pretty remainingBytes
  +:+ " bytes) truncated ..." +:+ String nl (String nl "") +:+
  (if canDelegate then delegate_hint else narrow_hint).
Definition fallback_hint (canDelegate : bool) : string :=
  String nl (String nl "") +:+ "[truncated — " +:+
  (if canDelegate then "Consider delegating to a research agent to process the full output."
   else "Use more specific queries to narrow the results.") +:+ "]".

(** [outputWithCap]: [outPath] is the generated path, [written] whether
    [os.WriteFile] succeeds there. *)
Definition outputWithCap (outPath : string) (written : bool) (text : string) (maxChars : Z)
    (canDelegate : bool) : Result :=
  let lines := split nl text in
  let originalLen := len text in
  if (len text <=? maxChars) && (Z.of_nat (length lines) <=? MaxLines)
  then mkResult text false "" originalLen
  else if negb written
  then mkResult (UTF8Head text maxChars +:+ fallback_hint canDelegate) true "" originalLen
  else
    let '(preview, lineCount) := preview_loop maxChars lines "" 0 0 in
    let remainingLines := Z.of_nat (length lines) - lineCount in
    let remainingBytes := originalLen - len preview in
    mkResult (preview +:+ truncation_hint remainingLines remainingBytes canDelegate) true outPath originalLen.

(** [Output] and [OutputForModel]. *)
Definition Output (outPath : string) (written : bool) (text : string) (canDelegate : bool) : Result :=
  outputWithCap outPath written text MaxChars canDelegate.
Definition OutputForModel (ContextWindowFor : string → Z) (share : Z → Z) (outPath : string) (written : bool)
    (text modelID : string) (canDelegate : bool) : Result :=
  outputWithCap outPath written text (computeDynamicMaxChars ContextWindowFor share modelID).1 canDelegate.

(** ** Removing saved outputs *)

Definition RetentionDuration : Z := 7 * 24 * 3600 * 1000000000.

Record DirEntry := mkDirEntry { Name : string; IsDir : bool; ModTime : option Z }.

(** [Cleanup]: the entries left in the directory.  [ModTime] is [None] where
    [entry.Info] fails, [removable] says whether [os.Remove] succeeds. *)
Definition Cleanup (now : Z) (removable : string → bool) (entries : option (list DirEntry))
    : option (list DirEntry) :=
  let cutoff := now - RetentionDuration in
  match entries with
  | None => None
  | Some es =>
      Some (List.filter (λ e, negb (negb (IsDir e) &&
        match ModTime e with
        | Some t => (t <? cutoff) && removable (Name e)
        | None => false
        end)) es)
  end.

(** ** Lemmas *)

(** Position [n] of [s] is between two runes: its end, or before a byte that
    starts one. *)
Definition rune_boundary (s : string) (n : nat) : Prop :=
  n = O ∨ match String.get n s with Some b => RuneStart b = true | None => True end.

Lemma cut_loop_le s n : (cut_loop s n ≤ n)%nat.
Proof. induction n as [|n IH]; cbn [cut_loop]; [lia|]. destruct (String.get (S n) s) as [b|]; [destruct (RuneStart b); lia|lia]. Qed.
Lemma cut_loop_boundary s n : rune_boundary s (cut_loop s n).
Proof.
  induction n as [|n IH]; cbn [cut_loop]; [by left|].
  destruct (String.get (S n) s) as [b|] eqn:E; [|by right; rewrite E].
  destruct (RuneStart b) eqn:Hb; [|done]. right. by rewrite E.
Qed.
Lemma cut_loop_maximal s n m : (m ≤ n)%nat → rune_boundary s m → (m ≤ cut_loop s n)%nat.
Proof.
  intros Hm [->|Hb]; [lia|]. induction n as [|n IH]; cbn [cut_loop]; [done|].
  destruct (decide (m = S n)) as [->|].
  - destruct (String.get (S n) s); [by rewrite Hb|done].
  - specialize (IH ltac:(lia)). destruct (String.get (S n) s) as [b|]; [destruct (RuneStart b); lia|lia].
Qed.

Lemma str_take_drop n s : str_take n s +:+ str_drop n s = s.
Proof.
  revert s. induction n as [|n IH]; intros [|a s]; cbn [str_take str_drop]; try done.
  rewrite str_app_cons. by rewrite IH.
Qed.

Lemma UTF8Cut_bounds s n : 0 ≤ n → (UTF8Cut s n ≤ String.length s)%nat ∧ Z.of_nat (UTF8Cut s n) ≤ n.
Proof.
  intros Hn. unfold UTF8Cut, len in *. pose proof (cut_loop_le s (Z.to_nat n)).
  case_if; [lia|]. case_if; lia.
Qed.
Lemma UTF8Cut_boundary s n : rune_boundary s (UTF8Cut s n).
Proof.
  unfold UTF8Cut. case_if; [|case_if; [by left|apply cut_loop_boundary]].
  right. destruct (String.get _ _) eqn:E; [|done]. exfalso. revert E.
  clear. induction s; [done|]. by simpl.
Qed.
Lemma UTF8Cut_maximal s n m :
  (m ≤ String.length s)%nat → Z.of_nat m ≤ n → rune_boundary s m → (m ≤ UTF8Cut s n)%nat.
Proof.
  intros Hm Hn Hb. unfold UTF8Cut. case_if; [done|]. case_if; [lia|].
  apply cut_loop_maximal; [lia|done].
Qed.

(** ** The preview *)

(** The preview writes no line break while it is still empty. *)
Fixpoint skip_blank (l : list string) : list string :=
  match l with "" :: l' => skip_blank l' | _ => l end.
Definition text_of (l : list string) : string := join (String nl "") (skip_blank l).

Lemma len_app a b : len (a +:+ b) = len a + len b.
Proof. unfold len. rewrite str_length_app. lia. Qed.
Lemma len_nonneg s : 0 ≤ len s.
Proof. unfold len. lia. Qed.
Lemma skip_blank_snoc l x :
  skip_blank (l ++ [x])%list = match skip_blank l with [] => skip_blank [x] | k => (k ++ [x])%list end.
Proof. induction l as [|[|a y] l IH]; [done| |done]. cbn [app skip_blank]. by rewrite IH. Qed.
Lemma skip_blank_head l : match skip_blank l with "" :: _ => False | _ => True end.
Proof. by induction l as [|[|a y] l IH]. Qed.
Lemma text_of_empty l : text_of l = "" → skip_blank l = [].
Proof.
  unfold text_of. pose proof (skip_blank_head l). destruct (skip_blank l) as [|[|a y] k]; [done..|].
  destruct k as [|z k]; [done|]. cbn [join]. by rewrite str_app_cons.
Qed.
Lemma text_of_snoc l x :
  text_of (l ++ [x])%list = (if 0 <? len (text_of l) then text_of l +:+ String nl "" else text_of l) +:+ x.
Proof.
  unfold text_of at 1. rewrite skip_blank_snoc. destruct (Z.ltb_spec 0 (len (text_of l))) as [Hp|Hp].
  - unfold text_of in *. destruct (skip_blank l) as [|y k] eqn:E; [done|].
    rewrite join_snoc by done. by rewrite str_app_assoc.
  - assert (text_of l = "") as He by (apply str_length_zero; unfold len in Hp; lia).
    rewrite He, (text_of_empty l) by done. destruct x; done.
Qed.

(** What the loop computes: how many lines it takes, and that it stops only at
    one of its limits. *)
Lemma preview_loop_spec maxChars rest acc :
  let '(p, n) := preview_loop maxChars rest (text_of acc) (len (text_of acc)) (Z.of_nat (length acc)) in
  ∃ k, p = text_of (acc ++ take k rest)%list ∧ n = Z.of_nat (length acc + k) ∧ (k ≤ length rest)%nat ∧
    (len (text_of acc) ≤ maxChars → len p ≤ maxChars) ∧
    (Z.of_nat (length acc) ≤ MaxLines → n ≤ MaxLines) ∧
    (∀ line, rest !! k = Some line → n = MaxLines ∨ maxChars < len p + len line + 1 ∨ MaxLines < n).
Proof.
  revert acc. induction rest as [|line rest IH]; intros acc; cbn [preview_loop].
  - exists 0%nat. cbn [take]. rewrite (right_id_L [] (++)%list), Nat.add_0_r. repeat split; done.
  - destruct ((maxChars <? _) || _) eqn:Hstop.
    + exists 0%nat. cbn [take]. rewrite (right_id_L [] (++)%list), Nat.add_0_r.
      repeat split; [done..|cbn; lia|done|done|].
      intros l [= <-]. apply orb_true_iff in Hstop as [?%Z.ltb_lt|?%Z.leb_le]; lia.
    + apply orb_false_iff in Hstop as [Hc%Z.ltb_ge Hl%Z.leb_gt].
      specialize (IH (acc ++ [line])%list). rewrite text_of_snoc in IH.
      rewrite !len_app in IH. rewrite length_app in IH. cbn [length] in IH.
      replace (len (if 0 <? len (text_of acc) then text_of acc +:+ String nl "" else text_of acc))
        with (if 0 <? len (text_of acc) then len (text_of acc) + 1 else len (text_of acc)) in IH
        by (case_if; [by rewrite len_app|done]).
      replace (Z.of_nat (length acc + 1)) with (Z.of_nat (length acc) + 1) in IH by lia.
      destruct (preview_loop _ _ _ _ _) as [p n]. destruct IH as (k & -> & -> & Hk & Hlen & Hn & Hmax).
      exists (S k). cbn [take lookup]. replace (length acc + S k)%nat with (length acc + 1 + k)%nat by lia.
      rewrite <- (assoc_L (++)%list) in *. cbn [app] in *.
      split; [done|]. split; [done|]. split; [cbn; lia|].
      split; [intros _; apply Hlen; case_if; lia|]. split; [intros _; apply Hn; lia|]. done.
Qed.

Lemma preview_loop_start maxChars lines :
  0 ≤ maxChars →
  let '(p, n) := preview_loop maxChars lines "" 0 0 in
  ∃ k, p = text_of (take k lines) ∧ n = Z.of_nat k ∧ (k ≤ length lines)%nat ∧ len p ≤ maxChars ∧ n ≤ MaxLines ∧
    (∀ line, lines !! k = Some line → n = MaxLines ∨ maxChars < len p + len line + 1).
Proof.
  intros Hm. pose proof (preview_loop_spec maxChars lines []) as H. change (text_of []) with "" in H.
  change (len "") with 0 in H. cbn [length] in H. change (Z.of_nat 0) with 0 in H.
  destruct (preview_loop _ _ _ _ _) as [p n]. destruct H as (k & -> & -> & Hk & Hlen & Hn & Hmax).
  exists k. cbn [app Nat.add] in *. specialize (Hn ltac:(unfold MaxLines; lia)).
  repeat split; [done|auto|done|]. intros l Hl. destruct (Hmax l Hl) as [?|[?|?]]; auto. lia.
Qed.

Lemma UTF8Head_spec text n :
  0 ≤ n →
  ∃ rest, text = UTF8Head text n +:+ rest ∧ len (UTF8Head text n) ≤ n ∧
    rune_boundary text (String.length (UTF8Head text n)) ∧
    ∀ m, (m ≤ String.length text)%nat → Z.of_nat m ≤ n → rune_boundary text m →
      (m ≤ String.length (UTF8Head text n))%nat.
Proof.
  intros Hn. destruct (UTF8Cut_bounds text n Hn) as [Hl Hc]. unfold UTF8Head, len.
  exists (str_drop (UTF8Cut text n) text). rewrite str_take_drop, str_take_length, Nat.min_l by done.
  split; [done|]. split; [done|]. split; [apply UTF8Cut_boundary|].
  intros m. apply UTF8Cut_maximal.
Qed.

(** What is missing after the [k] lines of the preview. *)
Definition shows_lines (text outPath : string) (maxChars : Z) (canDelegate : bool) (r : Result) (k : nat) : Prop :=
  let lines := split nl text in
  let p := text_of (take k lines) in
  (k ≤ length lines)%nat ∧ Z.of_nat k ≤ MaxLines ∧ len p ≤ maxChars ∧ OutputPath r = outPath ∧
  Content r = p +:+ truncation_hint (Z.of_nat (length lines) - Z.of_nat k) (len text - len p) canDelegate ∧
  ∀ line, lines !! k = Some line → Z.of_nat k = MaxLines ∨ maxChars < len p + len line + 1.
(** The output cut at the last rune boundary within the limit. *)
Definition shows_head (text : string) (maxChars : Z) (canDelegate : bool) (r : Result) (p : string) : Prop :=
  (∃ rest, text = p +:+ rest) ∧ len p ≤ maxChars ∧ rune_boundary text (String.length p) ∧
  (∀ m, (m ≤ String.length text)%nat → Z.of_nat m ≤ maxChars → rune_boundary text m → (m ≤ String.length p)%nat) ∧
  OutputPath r = "" ∧ Content r = p +:+ fallback_hint canDelegate.

(** For every output and every limit: an output within the byte and line limits is shown as it
    is; any other one is shown as its first [k] lines, as many as fit, followed
    by the number of lines and bytes left out and saved under the reported path;
    and where it cannot be saved, as its longest head within the limit that ends
    between two runes. *)
Theorem visible_output_bounded (outPath : string) (written : bool) (text : string) (maxChars : Z)
    (canDelegate : bool) (Hmax : 0 ≤ maxChars) :
  let r := outputWithCap outPath written text maxChars canDelegate in
  OriginalLen r = len text ∧
  (Truncated r = false ↔ len text ≤ maxChars ∧ Z.of_nat (length (split nl text)) ≤ MaxLines) ∧
  (Truncated r = false → Content r = text ∧ OutputPath r = "") ∧
  (Truncated r = true →
     if written then ∃ k, shows_lines text outPath maxChars canDelegate r k
     else ∃ p, shows_head text maxChars canDelegate r p).
Proof.
  cbv zeta. unfold outputWithCap. case_if.
  - apply andb_true_iff in Hif as [?%Z.leb_le ?%Z.leb_le]. cbn. split_and!; done.
  - assert (¬ (len text ≤ maxChars ∧ Z.of_nat (length (split nl text)) ≤ MaxLines)) as Hover
      by (apply andb_false_iff in Hif as [?%Z.leb_gt|?%Z.leb_gt]; lia).
    destruct written; cbn [negb].
    + pose proof (preview_loop_start maxChars (split nl text) Hmax) as H.
      destruct (preview_loop _ _ _ _ _) as [p n]. destruct H as (k & -> & -> & Hk & Hl & Hn & Hstop).
      cbn. split_and!; [done|done|done|]. intros _. exists k. unfold shows_lines. cbn. split_and!; done.
    + cbn. split_and!; [done|done|done|]. intros _. exists (UTF8Head text maxChars).
      destruct (UTF8Head_spec text maxChars Hmax) as (rest & Ht & Hl & Hb & Hm).
      unfold shows_head. cbn. split_and!; eauto.
Qed.

Definition two_lines : string := "first" +:+ String nl "second".
Lemma visible_output_bounded_witness :
  0 ≤ 8 ∧ Truncated (outputWithCap "out.txt" true two_lines 8 false) = true ∧
  ∃ k, shows_lines two_lines "out.txt" 8 false (outputWithCap "out.txt" true two_lines 8 false) k.
Proof.
  split; [lia|]. split; [vm_compute; reflexivity|].
  apply (visible_output_bounded "out.txt" true two_lines 8 false); [lia|vm_compute; reflexivity].
Defined.

(** The limit for a model lies between the two bounds, whatever the catalogue
    says and however the product rounds. *)
Lemma model_budget_bounds (ContextWindowFor : string → Z) (share : Z → Z) (modelID : string) :
  MaxChars ≤ BudgetForModel ContextWindowFor share modelID ≤ MaxCharsCeiling.
Proof.
  unfold BudgetForModel, computeDynamicMaxChars, computeDynamicMaxCharsWith, MaxChars, MaxCharsCeiling.
  repeat case_if; cbn; lia.
Qed.

(** A saved output whose first line alone is over the limit shows none of its
    bytes, although the hint speaks of the data above. *)
Lemma long_first_line_shows_nothing (outPath first rest : string) (maxChars : Z) (canDelegate : bool) :
  no_byte nl first = true → maxChars ≤ len first →
  let text := first +:+ String nl rest in
  Content (outputWithCap outPath true text maxChars canDelegate) =
    truncation_hint (1 + Z.of_nat (length (split nl rest))) (len text) canDelegate.
Proof.
  intros Hnl Hlen. cbv zeta. unfold outputWithCap. rewrite split_app by done.
  rewrite (proj2 (Z.leb_gt _ _)) by (rewrite len_app; unfold len in *; cbn [String.length]; lia).
  cbn [andb negb preview_loop]. rewrite (proj2 (Z.ltb_lt _ _)) by lia.
  cbn [orb Content length]. rewrite str_app_nil_l. f_equal; unfold len; cbn [String.length]; lia.
Qed.

(** [Cleanup] removes no directory and nothing younger than a week. *)
Lemma cleanup_keeps_recent (now : Z) (removable : string → bool) (es es' : list DirEntry) (e : DirEntry) :
  Cleanup now removable (Some es) = Some es' → In e es →
  IsDir e = true ∨ (∀ t, ModTime e = Some t → now - RetentionDuration ≤ t) → In e es'.
Proof.
  cbn. intros [= <-] Hin Hkeep. apply filter_In. split; [done|]. apply negb_true_iff, andb_false_iff.
  destruct Hkeep as [->|Hk]; [by left|]. right. destruct (ModTime e); [|done].
  apply andb_false_iff. left. apply Z.ltb_ge, Hk. done.
Qed.
