(* ===== verification/HarnessTurn.v ===== *)
(** * A turn under its harness profile

    [service/harness_profile.go]: the layers a session's turn resolves with, the
    resolved values installed on the loop state of the turn, and the ceiling of its
    tool output, which follows the context still free.  The session's metadata and the
    user settings are read as the decoded values of their JSON; the model catalogue is
    a parameter, as in [Truncate]. *)

From Stdlib Require Import SpecFloat.
From S2P Require Import Prelude GoStrings GoNum HarnessProfile Truncate.

Open Scope string_scope.
Open Scope Z_scope.
Set Default Proof Using "Type".

(** ** The layers of a turn *)

Section Layers.
Context {Cost : Type}.

(** The limits of an agent's stored constraints. *)
Record AgentConstraints := mkConstraints {
  ac_HardCeiling : Z;
  ac_ConsecutiveFailCap : Z;
  ac_RunawayFailCap : Z;
  ac_IdleTimeoutSeconds : Z;
}.
(** A zero field states nothing; the idle timeout states both windows. *)
Definition agentLayer (c : AgentConstraints) : @Layer Cost :=
  let pos (z : Z) := if 0 <? z then Some z else None in
  let ms := if 0 <? ac_IdleTimeoutSeconds c then Some (wrap64 (ac_IdleTimeoutSeconds c * 1000)) else None in
  mkLayer (mkLimits None ms None None None None None)
    (mkKnobs ms (pos (ac_HardCeiling c)) (pos (ac_ConsecutiveFailCap c)) (pos (ac_RunawayFailCap c))
       None None None None None None None None None None None) None.

(** [extSettingBytes]: a JSON number or an integer of the settings; [oob] as in
    [int_of_float]. *)
Inductive ExtValue :=
| ExtFloat (x : float64)
| ExtInt (z : Z)
| ExtOther.
Definition extSettingBytes (oob : float64 → Z) (v : option ExtValue) : option Z :=
  match v with
  | Some (ExtFloat x) => if SFleb (f_of_Z 0) x then Some (int_of_float oob x) else None
  | Some (ExtInt z) => if 0 <=? z then Some z else None
  | _ => None
  end.

(** The settings the resolution reads: the per-turn tool cap and the ceiling. *)
Record UserSettings := mkSettings {
  us_ToolPerTurnCap : Z;
  us_ceiling_bytes : option ExtValue;
}.
Definition settingsLayer (oob : float64 → Z) (us : option UserSettings) : @Layer Cost :=
  match us with
  | None => empty_layer
  | Some us =>
      mkLayer (mkLimits None None None None None None (extSettingBytes oob (us_ceiling_bytes us)))
        (mkKnobs None None None None (if 0 <? us_ToolPerTurnCap us then Some (us_ToolPerTurnCap us) else None)
           None None None None None None None None None None) None
  end.

(** [SessionHarnessSelection] on the two keys of the metadata: each is absent, does
    not decode, or holds its value.  Metadata that is blank or no JSON object selects
    nothing. *)
Inductive keyed (A : Type) := Absent | Malformed | Holds (a : A).
Arguments Absent {A}.
Arguments Malformed {A}.
Arguments Holds {A} a.
Record Metadata := mkMetadata {
  md_profile : keyed string;
  md_overrides : keyed (@Layer Cost);
}.
Inductive HError :=
| HKey (key : string)
| HHost (e : string)
| HProfile (e : PError).
Definition SessionHarnessSelection (md : option Metadata) : result HError (string * @Layer Cost) :=
  match md with
  | None => Ok ("", empty_layer)
  | Some m =>
      match md_profile m with
      | Malformed => Err (HKey "harness_profile")
      | p =>
          match md_overrides m with
          | Malformed => Err (HKey "harness_overrides")
          | o => Ok (trim_space (match p with Holds s => s | _ => "" end),
                     match o with Holds l => l | _ => empty_layer end)
          end
      end
  end.

(** The host settings of a registered agent: validated elsewhere, with the profile
    and the layer they replace the agent's with. *)
Record NativeHost := mkHost {
  host_invalid : option string;
  host_profile : string;
  host_layer : @Layer Cost;
}.
(** The inputs [resolveHarnessWithHost] resolves. *)
Definition harness_inputs (oob : float64 → Z) (settings : option UserSettings) (md : option Metadata)
    (c : AgentConstraints) (model : string) (host : option NativeHost) : result HError (@Inputs Cost) :=
  '(profile, launch) ← SessionHarnessSelection md;
  match host with
  | None => Ok (mkInputs profile model (settingsLayer oob settings) (agentLayer c) launch)
  | Some h =>
      match host_invalid h with
      | Some e => Err (HHost e)
      | None => Ok (mkInputs (if bool_decide (host_profile h ≠ "") then host_profile h else profile) model
                     (settingsLayer oob settings) (host_layer h) launch)
      end
  end.
Section Resolution.
Variables (cost_negative : Cost → bool) (decode : string → option (@Profile Cost)).
Variables (ParseFloat : string → option float64) (getenv : string → option string).
Variable digestChain : list (@Profile Cost) → string.

Definition ResolveHarness (oob : float64 → Z) (reg builtins : @Registry Cost) (use_builtins : bool)
    (settings : option UserSettings) (md : option Metadata) (c : AgentConstraints) (model : string)
    (host : option NativeHost) : act (@Cache Cost) HError (@Resolved Cost) :=
  inp ← lift (harness_inputs oob settings md c model host);
  wrap HProfile (Resolve cost_negative decode ParseFloat getenv digestChain
                   (if use_builtins then builtins else reg) inp).
(** [ValidateHarnessSelection]. *)
Definition ValidateHarnessSelection (reg : @Registry Cost) (md : option Metadata) : act (@Cache Cost) HError unit :=
  '(profile, overrides) ← lift (SessionHarnessSelection md);
  _ ← wrap HProfile (Resolve cost_negative decode ParseFloat getenv digestChain reg
                       (mkInputs profile "" empty_layer empty_layer overrides));
  mret tt.
End Resolution.
End Layers.

(** ** The guard of a definition *)

Definition rank (m : GuardMode) : Z :=
  match m with GuardWarn => 1 | GuardAsk => 2 | GuardDeny => 3 | _ => 0 end.
(** [NativePolicy.Defaults] on the guard a definition requests. *)
Definition requested_guard (s : string) : GuardMode := GuardMode_of (if bool_decide (s = "") then "deny" else s).
Definition with_guard (g : GuardMode) (v : Values) : Values :=
  {| v_IdleTimeout := v_IdleTimeout v; v_SubagentIdleTimeout := v_SubagentIdleTimeout v;
     v_HardCeiling := v_HardCeiling v; v_ConsecutiveFailCap := v_ConsecutiveFailCap v;
     v_RunawayFailCap := v_RunawayFailCap v; v_PerToolCap := v_PerToolCap v;
     v_MaxConcurrentTools := v_MaxConcurrentTools v; v_CompactPreviewBytes := v_CompactPreviewBytes v;
     v_PreviewPct := v_PreviewPct v; v_PreviewMinBytes := v_PreviewMinBytes v;
     v_PreviewMaxBytes := v_PreviewMaxBytes v; v_ToolOutputBytes := v_ToolOutputBytes v;
     v_ToolOutputPct := v_ToolOutputPct v; v_ToolOutputMinBytes := v_ToolOutputMinBytes v;
     v_ToolOutputMaxBytes := v_ToolOutputMaxBytes v; v_ToolOutputRemainingShare := v_ToolOutputRemainingShare v;
     v_ToolOutputRemainingFloor := v_ToolOutputRemainingFloor v; v_WriteClaimGuard := g |}.
(** [applyDefinitionGuard]; [policy] is the request of the definition, if any. *)
Definition applyDefinitionGuard (policy : option string) (v : Values) : Values :=
  match policy with
  | None => v
  | Some s => if rank (v_WriteClaimGuard v) <? rank (requested_guard s) then with_guard (requested_guard s) v else v
  end.

(** ** The loop state of a turn *)

Record turn := mkTurn {
  t_harness : option Values;
  t_window : Z;
  t_remaining : Z;
  t_ceiling : Z;
  t_cumulative : Z;
  t_hardCeiling : Z;
  t_consecutiveFailCap : Z;
  t_runawayFailCap : Z;
  t_idleTimeout : Z;
  t_defaultPerToolCap : Z;
}.

Section Turn.
Variable oob : float64 → Z.
(** [BudgetForModelWith]'s window of a model. *)
Variable ContextWindowFor : string → Z.

Definition set_remaining (r : Z) (t : turn) : turn :=
  mkTurn (t_harness t) (t_window t) r (t_ceiling t) (t_cumulative t) (t_hardCeiling t) (t_consecutiveFailCap t)
    (t_runawayFailCap t) (t_idleTimeout t) (t_defaultPerToolCap t).
Definition refreshTurnCeiling (t : turn) : turn :=
  match t_harness t with
  | None => t
  | Some v =>
      mkTurn (t_harness t) (t_window t) (t_remaining t) (TurnCeiling oob v (t_window t) (t_remaining t))
        (t_cumulative t) (t_hardCeiling t) (t_consecutiveFailCap t) (t_runawayFailCap t) (t_idleTimeout t)
        (t_defaultPerToolCap t)
  end.
Definition applyHarness (r : option Values) (subagent : bool) (t : turn) : turn :=
  match r with
  | None => t
  | Some v =>
      refreshTurnCeiling
        (mkTurn (Some v) (t_window t) (-1) (t_ceiling t) (t_cumulative t) (v_HardCeiling v) (v_ConsecutiveFailCap v)
           (v_RunawayFailCap v) (EffectiveIdleTimeout v subagent) (v_PerToolCap v))
  end.
Definition setRemainingContext (ceilingTokens usedTokens : Z) (t : turn) : turn :=
  refreshTurnCeiling
    (set_remaining (if 0 <? ceilingTokens then Z.max 0 (wrap64 (ceilingTokens - usedTokens)) else -1) t).
(** [b] is the breakdown's ceiling and total. *)
Definition setRemainingFromBreakdown (b : option (Z * Z)) (t : turn) : turn :=
  match b with None => setRemainingContext 0 0 t | Some (c, u) => setRemainingContext c u t end.
Definition consumeRemainingContext (delivered : Z) (t : turn) : turn :=
  if (t_remaining t <? 0) || (delivered <=? 0) then t
  else refreshTurnCeiling
         (set_remaining (Z.max 0 (wrap64 (t_remaining t - Z.quot (wrap64 (delivered + 3)) 4))) t).

(** [n] limited by the remaining context. *)
Definition under_cap (v : Values) (t : turn) (n : Z) : Z :=
  let limit := RemainingCap oob v (t_remaining t) in
  if (0 <=? limit) && (limit <? n) then limit else n.
Definition previewBudget (default_share : Z → Z) (model : string) (t : turn) : Z :=
  match t_harness t with
  | None => BudgetForModel ContextWindowFor default_share model
  | Some v =>
      under_cap v t
        (BudgetForModelWith ContextWindowFor model
           (λ bytes, int_of_float oob (f_mul (f_of_Z bytes) (v_PreviewPct v))) (v_PreviewMinBytes v) (v_PreviewMaxBytes v))
  end.
(** [CompactPreviewBudgetBytes] of the service. *)
Definition compactPreviewBudget (t : turn) : Z :=
  match t_harness t with
  | None => 512
  | Some v => under_cap v t (v_CompactPreviewBytes v)
  end.
(** The budget of one result: the compact preview once the turn's output passed its
    ceiling. *)
Definition result_budget (default_share : Z → Z) (model : string) (t : turn) : Z :=
  if (0 <? t_ceiling t) && (t_ceiling t <? t_cumulative t) then compactPreviewBudget t
  else previewBudget default_share model t.
(** A result of [n] bytes was delivered. *)
Definition delivered (n : Z) (t : turn) : turn :=
  consumeRemainingContext n
    (mkTurn (t_harness t) (t_window t) (t_remaining t) (t_ceiling t) (t_cumulative t + n) (t_hardCeiling t)
       (t_consecutiveFailCap t) (t_runawayFailCap t) (t_idleTimeout t) (t_defaultPerToolCap t)).

(** What happens to the state of a turn after its profile is installed. *)
Inductive turn_op :=
| Measure (b : option (Z * Z))
| Deliver (n : Z).
Definition turn_step (t : turn) (op : turn_op) : turn :=
  match op with
  | Measure b => setRemainingFromBreakdown b t
  | Deliver n => delivered n t
  end.

(** The ceiling is that of the window and of the context as last measured. *)
Definition turn_ok (v : Values) (t : turn) : Prop :=
  t_harness t = Some v ∧ t_ceiling t = TurnCeiling oob v (t_window t) (t_remaining t) ∧ -1 ≤ t_remaining t.

Lemma refresh_ok v t : t_harness t = Some v → -1 ≤ t_remaining t → turn_ok v (refreshTurnCeiling t).
Proof. intros Hv Hr. unfold turn_ok, refreshTurnCeiling. by rewrite Hv. Qed.
Lemma turn_step_ok v t op : turn_ok v t → turn_ok v (turn_step t op).
Proof.
  intros (Hv&Hc&Hr). destruct op as [b|n]; cbn.
  - unfold setRemainingFromBreakdown, setRemainingContext.
    destruct b as [[c u]|]; apply refresh_ok; cbn; try done; try case_if; lia.
  - unfold delivered, consumeRemainingContext. cbn [t_remaining].
    destruct ((t_remaining t <? 0) || (n <=? 0)); [done|]. apply refresh_ok; cbn; [done|lia].
Qed.
Lemma turn_run_ok v t ops : turn_ok v t → turn_ok v (fold_left turn_step ops t).
Proof. revert t. induction ops as [|op ops IH]; intros t Ht; cbn; [done|]. by apply IH, turn_step_ok. Qed.

Lemma under_cap_bounds v t n : values_ok v → 64 ≤ n →
  64 ≤ under_cap v t n ≤ n ∧ (0 ≤ t_remaining t → under_cap v t n ≤ RemainingCap oob v (t_remaining t)).
Proof.
  intros Hv Hn. unfold under_cap. set (cap := RemainingCap oob v (t_remaining t)).
  assert (0 ≤ t_remaining t → 256 ≤ cap) as Hcap by by apply remaining_cap_floor.
  assert (t_remaining t < 0 → cap = -1) as Hneg.
  { intros. unfold cap, RemainingCap. by rewrite (proj2 (Z.ltb_lt (t_remaining t) 0)). }
  destruct (Z.ltb_spec (t_remaining t) 0) as [Hr|Hr].
  - rewrite (Hneg Hr). cbn. lia.
  - specialize (Hcap Hr). rewrite (proj2 (Z.leb_le 0 cap)) by lia. cbn.
    destruct (Z.ltb_spec cap n); lia.
Qed.

Lemma window_budget_bounds model share floor ceiling :
  floor ≤ ceiling → floor ≤ BudgetForModelWith ContextWindowFor model share floor ceiling ≤ ceiling.
Proof.
  intros H. unfold BudgetForModelWith, computeDynamicMaxCharsWith.
  repeat case_if; cbn [fst]; b2p; lia.
Qed.

(** The size of a tool result follows the context.  From the moment a resolved
    profile is installed, through any sequence of context measurements and delivered
    results, the turn's ceiling is the one of the model's window and of the context
    last known to be free; the budget of the next result is at least 64 bytes, at
    most the profile's largest preview, and never more than a share of the free
    context (down to the floor) when that is known; past the ceiling it is at most
    the compact preview. *)
Theorem turn_budget_follows_context v subagent t0 ops default_share model :
  values_ok v →
  let t := fold_left turn_step ops (applyHarness (Some v) subagent t0) in
  t_ceiling t = TurnCeiling oob v (t_window t) (t_remaining t) ∧
  64 ≤ result_budget default_share model t ∧
  result_budget default_share model t ≤ Z.max (v_PreviewMaxBytes v) (v_CompactPreviewBytes v) ∧
  (0 ≤ t_remaining t → result_budget default_share model t ≤ RemainingCap oob v (t_remaining t)) ∧
  (0 < t_ceiling t < t_cumulative t → result_budget default_share model t ≤ v_CompactPreviewBytes v).
Proof.
  intros Hv t. assert (turn_ok v t) as (Hh&Hc&Hr).
  { apply turn_run_ok. unfold applyHarness. apply refresh_ok; cbn; [done|lia]. }
  pose proof (ok_pmin v Hv). pose proof (ok_pmax v Hv). pose proof (ok_compact v Hv).
  unfold result_budget, compactPreviewBudget, previewBudget. rewrite Hh.
  pose proof (window_budget_bounds model (λ bytes, int_of_float oob (f_mul (f_of_Z bytes) (v_PreviewPct v)))
    (v_PreviewMinBytes v) (v_PreviewMaxBytes v) ltac:(lia)) as Hb.
  destruct (under_cap_bounds v t (v_CompactPreviewBytes v)) as [Hk1 Hk2]; [done|lia|].
  set (n := BudgetForModelWith _ _ _ _ _) in *.
  destruct (under_cap_bounds v t n) as [Hk3 Hk4]; [done|lia|].
  destruct ((0 <? t_ceiling t) && (t_ceiling t <? t_cumulative t)) eqn:E.
  - split_and!; try done; lia.
  - split_and!; try done; try lia; apply andb_false_iff in E as [E|E]; b2p; lia.
Qed.

(** What is delivered is taken out of the free context, in tokens of four bytes. *)
Lemma delivered_context_is_consumed v t ns :
  t_harness t = Some v → 0 ≤ t_remaining t ≤ max_int64 →
  Forall (λ n, 0 ≤ n ≤ max_int64 - 3) ns →
  t_remaining (fold_left (λ t n, delivered n t) ns t)
  = Z.max 0 (t_remaining t - foldr (λ n s, (n + 3) `div` 4 + s) 0 ns).
Proof.
  intros Hh Hr Hns. revert t Hh Hr. induction Hns as [|n ns Hn Hns IH]; intros t Hh Hr; cbn [fold_left foldr]; [lia|].
  assert (t_harness (delivered n t) = Some v ∧ t_remaining (delivered n t) = Z.max 0 (t_remaining t - (n + 3) `div` 4))
    as [Hh' Hr'].
  { unfold delivered, consumeRemainingContext. cbn [t_remaining]. rewrite (proj2 (Z.ltb_ge (t_remaining t) 0)) by lia.
    cbn [orb]. destruct (Z.leb_spec n 0).
    - cbn. replace n with 0 by lia. split; [done|]. change ((0 + 3) `div` 4) with 0. lia.
    - unfold refreshTurnCeiling, set_remaining. cbn [t_harness]. rewrite Hh. cbn [t_harness t_remaining].
      rewrite (wrap64_id (n + 3)) by (unfold int64, min_int64, max_int64 in *; lia).
      rewrite Z.quot_div_nonneg by lia. rewrite wrap64_id; [done|].
      pose proof (Z.div_pos (n + 3) 4). pose proof (Z.div_le_upper_bound (n + 3) 4 (n + 3)).
      unfold int64, min_int64, max_int64 in *. lia. }
  assert (0 ≤ foldr (λ n s, (n + 3) `div` 4 + s) 0 ns).
  { clear -Hns. induction Hns as [|m ms Hm Hms IHm]; cbn; [lia|]. pose proof (Z.div_pos (m + 3) 4). lia. }
  rewrite IH, Hr'; [|done|]; pose proof (Z.div_pos (n + 3) 4 ltac:(lia) ltac:(lia)); lia.
Qed.
End Turn.

(** The guard a definition requests can tighten the host's guard and never loosen
    it: the guard that is enforced ranks as the stricter of the two (an unknown
    request asks for nothing), it is one of the four modes when the host's is, and no
    other value changes. *)
Theorem definition_guard_never_weakens policy v :
  let v' := applyDefinitionGuard policy v in
  rank (v_WriteClaimGuard v')
    = Z.max (rank (v_WriteClaimGuard v)) (match policy with Some s => rank (requested_guard s) | None => 0 end) ∧
  (Valid (v_WriteClaimGuard v) = true → Valid (v_WriteClaimGuard v') = true) ∧
  with_guard (v_WriteClaimGuard v) v' = v.
Proof.
  assert (∀ m, 0 ≤ rank m) as Hpos by by intros [].
  unfold applyDefinitionGuard. destruct policy as [s|]; cbn zeta.
  - destruct (rank (v_WriteClaimGuard v) <? rank (requested_guard s)) eqn:E; b2p.
    + cbn. split; [lia|]. split; [|by destruct v]. intros _. pose proof (Hpos (v_WriteClaimGuard v)).
      by destruct (requested_guard s); cbn in *; try lia.
    + split; [lia|]. split; [done|]. by destruct v.
  - pose proof (Hpos (v_WriteClaimGuard v)). split; [lia|]. split; [done|]. by destruct v.
Qed.

(** ** Worked examples *)

Definition example_values : Values := clamp_values (Cost := unit) computed_values.
Definition example_turn : turn := mkTurn None 200000 (-1) 24576 0 0 0 0 0 0.
Example budget_run :
  let t := fold_left (turn_step (λ _, 0)) [Measure (Some (160000, 150000)); Deliver 20000; Deliver 9000]
             (applyHarness (λ _, 0) (Some example_values) false example_turn) in
  (t_remaining t, t_ceiling t, t_cumulative t, result_budget (λ _, 0) (λ _, 200000) (λ z, z) "claude" t)
  = (2750, 4096, 29000, 512).
Proof. by vm_compute. Qed.
Example guard_examples :
  v_WriteClaimGuard (applyDefinitionGuard (Some "off") example_values) = GuardDeny ∧
  v_WriteClaimGuard (applyDefinitionGuard (Some "") (with_guard GuardWarn example_values)) = GuardDeny ∧
  v_WriteClaimGuard (applyDefinitionGuard (Some "strict") (with_guard GuardWarn example_values)) = GuardWarn.
Proof. by vm_compute. Qed.

Lemma turn_budget_follows_context_witness :
  let t := fold_left (turn_step (λ _, 0)) [Measure (Some (160000, 150000)); Deliver 20000]
             (applyHarness (λ _, 0) (Some example_values) false example_turn) in
  t_ceiling t = TurnCeiling (λ _, 0) example_values (t_window t) (t_remaining t) ∧
  64 ≤ result_budget (λ _, 0) (λ _, 200000) (λ z, z) "claude" t ∧
  result_budget (λ _, 0) (λ _, 200000) (λ z, z) "claude" t
    ≤ Z.max (v_PreviewMaxBytes example_values) (v_CompactPreviewBytes example_values) ∧
  (0 ≤ t_remaining t →
     result_budget (λ _, 0) (λ _, 200000) (λ z, z) "claude" t ≤ RemainingCap (λ _, 0) example_values (t_remaining t)) ∧
  (0 < t_ceiling t < t_cumulative t →
     result_budget (λ _, 0) (λ _, 200000) (λ z, z) "claude" t ≤ v_CompactPreviewBytes example_values).
Proof.
  exact (turn_budget_follows_context (λ _, 0) (λ _, 200000) example_values false example_turn _ (λ z, z) "claude"
           (clamp_values_ok computed_values)).
Defined.
