(* ===== verification/Tasks.v ===== *)
(** * Tasks of multi-agent work

    [internal/task] over [internal/coordination]: the tasks that track delegated work,
    kept as JSON under [task:<id>] in a key-value store and copied to an SQLite table
    from time to time; the local backend's operations, the snapshot and its restore,
    the service that picks a backend, the HTTP handlers that change a task
    ([api/tasks.go]), and how a delegation tracks its task ([service/delegation.go]).

    A store operation may fail at any tick, as the environment says.  The byte codec
    of [encoding/json] is the class [TaskCodec]; an instant is in nanoseconds. *)

From stdpp Require Import sorting.
From S2P Require Import Prelude GoStrings.

Open Scope string_scope.
Open Scope Z_scope.
Set Default Proof Using "Type*".

(** ** Tasks and their states *)

Definition StatusPending : string := "pending".
Definition StatusInProgress : string := "in_progress".
Definition StatusCompleted : string := "completed".
Definition StatusFailed : string := "failed".
Definition StatusCanceled : string := "canceled".

Record Task := mkTask {
  t_ID : string;
  t_ParentID : string;
  t_SessionID : string;
  t_WorkerSessionID : string;
  t_Title : string;
  t_Description : string;
  t_Status : string;
  t_AssigneeAgentID : string;
  t_Result : string;
  t_Error : string;
  t_TokensUsed : Z;
  t_Metadata : option (gmap string string);
  t_CreatedAt : Z;
  t_UpdatedAt : Z;
  t_CompletedAt : option Z;
}.

Definition terminal (s : string) : bool :=
  bool_decide (s = StatusCompleted) || bool_decide (s = StatusFailed) || bool_decide (s = StatusCanceled).
Definition IsTerminal (t : Task) : bool := terminal (t_Status t).

Inductive TErr :=
| ENotFound
| EStore
| EUnmarshal (id : string)
| EUnknownStatus (s : string)
| EInvalidTransition (from to : string)
| EGet (id : string) (e : TErr)
| ESnapshot (id : string) (e : TErr)
| ERestore (id : string) (e : TErr)
| EDB
| ENoBackend
| EBadRequest (why : string)
| EPanic.

Definition validTransitions (s : string) : option (list string) :=
  if bool_decide (s = StatusPending) then Some [StatusInProgress; StatusCanceled]
  else if bool_decide (s = StatusInProgress) then Some [StatusCompleted; StatusFailed; StatusCanceled]
  else if bool_decide (s = StatusCompleted) then Some []
  else if bool_decide (s = StatusFailed) then Some [StatusPending]
  else if bool_decide (s = StatusCanceled) then Some []
  else None.
Definition ValidateTransition (from to : string) : result TErr unit :=
  match validTransitions from with
  | None => Err (EUnknownStatus from)
  | Some allowed => if bool_decide (to ∈ allowed) then Ok tt else Err (EInvalidTransition from to)
  end.

(** Assignments to the fields the operations set. *)
Definition with_id (id : string) (t : Task) : Task :=
  mkTask id (t_ParentID t) (t_SessionID t) (t_WorkerSessionID t) (t_Title t) (t_Description t) (t_Status t)
    (t_AssigneeAgentID t) (t_Result t) (t_Error t) (t_TokensUsed t) (t_Metadata t) (t_CreatedAt t) (t_UpdatedAt t)
    (t_CompletedAt t).
Definition with_status (s : string) (t : Task) : Task :=
  mkTask (t_ID t) (t_ParentID t) (t_SessionID t) (t_WorkerSessionID t) (t_Title t) (t_Description t) s
    (t_AssigneeAgentID t) (t_Result t) (t_Error t) (t_TokensUsed t) (t_Metadata t) (t_CreatedAt t) (t_UpdatedAt t)
    (t_CompletedAt t).
Definition with_assignee (agent session : string) (t : Task) : Task :=
  mkTask (t_ID t) (t_ParentID t) (t_SessionID t) session (t_Title t) (t_Description t) (t_Status t)
    agent (t_Result t) (t_Error t) (t_TokensUsed t) (t_Metadata t) (t_CreatedAt t) (t_UpdatedAt t) (t_CompletedAt t).
Definition with_times (c u : Z) (d : option Z) (t : Task) : Task :=
  mkTask (t_ID t) (t_ParentID t) (t_SessionID t) (t_WorkerSessionID t) (t_Title t) (t_Description t) (t_Status t)
    (t_AssigneeAgentID t) (t_Result t) (t_Error t) (t_TokensUsed t) (t_Metadata t) c u d.
Definition with_outcome (result err : string) (tokens : Z) (t : Task) : Task :=
  mkTask (t_ID t) (t_ParentID t) (t_SessionID t) (t_WorkerSessionID t) (t_Title t) (t_Description t) (t_Status t)
    (t_AssigneeAgentID t) result err tokens (t_Metadata t) (t_CreatedAt t) (t_UpdatedAt t) (t_CompletedAt t).
Definition with_metadata (m : option (gmap string string)) (t : Task) : Task :=
  mkTask (t_ID t) (t_ParentID t) (t_SessionID t) (t_WorkerSessionID t) (t_Title t) (t_Description t) (t_Status t)
    (t_AssigneeAgentID t) (t_Result t) (t_Error t) (t_TokensUsed t) m (t_CreatedAt t) (t_UpdatedAt t) (t_CompletedAt t).
Definition with_text (title descr result : string) (t : Task) : Task :=
  mkTask (t_ID t) (t_ParentID t) (t_SessionID t) (t_WorkerSessionID t) title descr (t_Status t)
    (t_AssigneeAgentID t) result (t_Error t) (t_TokensUsed t) (t_Metadata t) (t_CreatedAt t) (t_UpdatedAt t)
    (t_CompletedAt t).

(** ** JSON *)

(** [omitempty]: an empty map is left out, and read back as no map. *)
Definition json_metadata (m : option (gmap string string)) : option (gmap string string) :=
  match m with Some m => if bool_decide (m = ∅) then None else Some m | None => None end.
Definition json_norm (t : Task) : Task := with_metadata (json_metadata (t_Metadata t)) t.

(** Valid UTF-8, the strings [encoding/json] keeps as they are. *)
Definition utf8 (s : string) : Prop := of_runes (runes s) = s.
Record text_ok (t : Task) : Prop := {
  text_id : utf8 (t_ID t);
  text_parent : utf8 (t_ParentID t);
  text_session : utf8 (t_SessionID t);
  text_worker : utf8 (t_WorkerSessionID t);
  text_title : utf8 (t_Title t);
  text_description : utf8 (t_Description t);
  text_status : utf8 (t_Status t);
  text_assignee : utf8 (t_AssigneeAgentID t);
  text_result : utf8 (t_Result t);
  text_error : utf8 (t_Error t);
  text_metadata : ∀ m k v, t_Metadata t = Some m → m !! k = Some v → utf8 k ∧ utf8 v;
}.

Class TaskCodec := {
  Bytes : Type;
  Marshal : Task → Bytes;
  Unmarshal : Bytes → option Task;
}.
Class TaskCodecLaws `{TaskCodec} := {
  Unmarshal_Marshal t : text_ok t → Unmarshal (Marshal t) = Some (json_norm t);
}.

(** ** The world *)

(** A row of the table [tasks]; its instants are whole seconds, as [time.RFC3339]
    prints them. *)
Record Row := mkRow {
  r_task : Task;
  r_created : Z;
  r_updated : Z;
  r_completed : option Z;
}.

Section Local.
Context {Codec : TaskCodec}.

Record TW := mkTW {
  kv : gmap string Bytes;
  rows : gmap string Row;
  tick : nat;
}.
(** The environment: the clock, fresh identifiers, which store operations fail, and
    whether the coordination store is Badger or the no-op fallback. *)
Record Env := mkEnv {
  now_at : nat → Z;
  uuid_at : nat → string;
  kv_fails : nat → bool;
  db_fails : nat → bool;
  badger : bool;
  has_db : bool;
}.
Variable env : Env.
Abbreviation op A := (act TW TErr A).

Definition tick_up (w : TW) : TW := mkTW (kv w) (rows w) (S (tick w)).
Definition Now : op Z := λ w, (Ok (now_at env (tick w)), tick_up w).
Definition NewString : op string := λ w, (Ok (uuid_at env (tick w)), tick_up w).

(** ** The coordination store *)

Definition PrefixTask : string := "task:".

Definition kv_Put (key : string) (b : Bytes) : op unit := λ w,
  if negb (badger env) then (Ok tt, tick_up w)
  else if kv_fails env (tick w) then (Err EStore, tick_up w)
  else (Ok tt, mkTW (<[key := b]> (kv w)) (rows w) (S (tick w))).
Definition kv_Get (key : string) : op Bytes := λ w,
  if negb (badger env) then (Err ENotFound, tick_up w)
  else if kv_fails env (tick w) then (Err EStore, tick_up w)
  else match kv w !! key with Some b => (Ok b, tick_up w) | None => (Err ENotFound, tick_up w) end.
Definition kv_Delete (key : string) : op unit := λ w,
  if negb (badger env) then (Ok tt, tick_up w)
  else if kv_fails env (tick w) then (Err EStore, tick_up w)
  else (Ok tt, mkTW (delete key (kv w)) (rows w) (S (tick w))).
(** The entries under a prefix, in key order. *)
Definition key_le (a b : string * Bytes) : Prop := String.le a.1 b.1.
#[global] Instance key_le_dec : RelDecision key_le.
Proof. intros a b. unfold key_le. apply _. Defined.
Definition entries (prefix : string) (m : gmap string Bytes) : list (string * Bytes) :=
  merge_sort key_le (List.filter (λ e, has_prefix e.1 prefix) (map_to_list m)).
Definition kv_List (prefix : string) : op (list (string * Bytes)) := λ w,
  if negb (badger env) then (Ok [], tick_up w)
  else if kv_fails env (tick w) then (Err EStore, tick_up w)
  else (Ok (entries prefix (kv w)), tick_up w).
Definition Available : bool := badger env.

(** ** The local backend *)

Record TaskFilter := mkFilter {
  f_SessionID : string;
  f_ParentID : string;
  f_Status : string;
}.
Definition no_filter : TaskFilter := mkFilter "" "" "".
Definition matchesFilter (t : Task) (f : TaskFilter) : bool :=
  (bool_decide (f_SessionID f = "") || bool_decide (t_SessionID t = f_SessionID f)) &&
  (bool_decide (f_ParentID f = "") || bool_decide (t_ParentID t = f_ParentID f)) &&
  (bool_decide (f_Status f = "") || bool_decide (t_Status t = f_Status f)).

Definition put_task (t : Task) : op unit := kv_Put (PrefixTask +:+ t_ID t) (Marshal t).

(** [Create] fills the caller's task in and returns it. *)
Definition created (id : string) (now : Z) (t : Task) : Task :=
  let t := if bool_decide (t_ID t = "") then with_id id t else t in
  let t := with_times now now (t_CompletedAt t) t in
  let t := if bool_decide (t_Status t = "") then with_status StatusPending t else t in
  match t_Metadata t with None => with_metadata (Some ∅) t | Some _ => t end.
Definition Create (t : Task) : op Task :=
  id ← (if bool_decide (t_ID t = "") then NewString else mret "");
  now ← Now;
  let t := created id now t in
  _ ← put_task t; mret t.
Definition Get (id : string) : op Task :=
  data ← wrap (EGet id) (kv_Get (PrefixTask +:+ id));
  match Unmarshal data with Some t => mret t | None => fail (EUnmarshal id) end.
(** [Update] stamps the caller's task. *)
Definition Update (t : Task) : op Task :=
  now ← Now;
  let t := with_times (t_CreatedAt t) now (t_CompletedAt t) t in
  _ ← put_task t; mret t.
Definition Delete (id : string) : op unit := kv_Delete (PrefixTask +:+ id).
Definition List_ (f : TaskFilter) : op (list Task) :=
  es ← kv_List PrefixTask;
  mret (List.filter (λ t, matchesFilter t f) (omap (λ e, Unmarshal e.2) es)).

(** [Transition] reads the task, then writes it back: two operations of the store. *)
Definition transition_write (t : Task) (to : string) : op unit :=
  _ ← lift (ValidateTransition (t_Status t) to);
  u ← Now;
  let t := with_times (t_CreatedAt t) u (t_CompletedAt t) (with_status to t) in
  if terminal to then
    d ← Now;
    put_task (with_times (t_CreatedAt t) (t_UpdatedAt t) (Some d) t)
  else put_task t.
Definition Transition (id to : string) : op unit := t ← Get id; transition_write t to.
Definition Assign (id agentID workerSessionID : string) : op unit :=
  t ← Get id;
  let t := with_assignee agentID workerSessionID t in
  now ← Now;
  put_task (with_times (t_CreatedAt t) now (t_CompletedAt t) t).
Definition Cancel (id : string) : op unit := Transition id StatusCanceled.

(** ** The snapshot *)

Definition sec (t : Z) : Z := t / 1000000000.
Definition from_sec (s : Z) : Z := s * 1000000000.
Definition row_of (t : Task) : Row := mkRow t (sec (t_CreatedAt t)) (sec (t_UpdatedAt t)) (sec <$> t_CompletedAt t).
(** The row of an upsert: everything but the creation instant is replaced. *)
Definition upserted (old : option Row) (t : Task) : Row :=
  match old with
  | None => row_of t
  | Some r => mkRow t (r_created r) (sec (t_UpdatedAt t)) (sec <$> t_CompletedAt t)
  end.
Definition UpsertTask (t : Task) : op unit := λ w,
  if db_fails env (tick w) then (Err EDB, tick_up w)
  else (Ok tt, mkTW (kv w) (<[t_ID t := upserted (rows w !! t_ID t) t]> (rows w)) (S (tick w))).
(** [scanTask]: a missing map is read as an empty one. *)
Definition scanTask (r : Row) : Task :=
  with_metadata (Some (match t_Metadata (r_task r) with Some m => m | None => ∅ end))
    (with_times (from_sec (r_created r)) (from_sec (r_updated r)) (from_sec <$> r_completed r) (r_task r)).
(** [ORDER BY created_at DESC]. *)
Definition row_le (a b : Row) : Prop := r_created b ≤ r_created a.
#[global] Instance row_le_dec : RelDecision row_le.
Proof. intros a b. unfold row_le. apply _. Defined.
Definition ListTasks (f : TaskFilter) : op (list Task) := λ w,
  if db_fails env (tick w) then (Err EDB, tick_up w)
  else (Ok (List.filter (λ t, matchesFilter t f)
              (scanTask <$> merge_sort row_le (map_to_list (rows w)).*2)), tick_up w).

Fixpoint snapshot_all (es : list (string * Bytes)) : op unit :=
  match es with
  | [] => mret tt
  | e :: es' =>
      match Unmarshal e.2 with
      | None => snapshot_all es'
      | Some t => _ ← wrap (ESnapshot (t_ID t)) (UpsertTask t); snapshot_all es'
      end
  end.
Definition Snapshot : op unit :=
  if negb (has_db env) then mret tt else es ← kv_List PrefixTask; snapshot_all es.
Fixpoint restore_all (ts : list Task) : op unit :=
  match ts with
  | [] => mret tt
  | t :: ts' =>
      if IsTerminal t then restore_all ts'
      else _ ← wrap (ERestore (t_ID t)) (put_task t); restore_all ts'
  end.
Definition Restore : op unit :=
  if negb (has_db env) || negb Available then mret tt else ts ← ListTasks no_filter; restore_all ts.

(** ** The HTTP handlers *)

Definition handleCreateTask (t : Task) : op Task :=
  if bool_decide (t_Title t = "") then fail (EBadRequest "title is required")
  else if bool_decide (t_SessionID t = "") then fail (EBadRequest "session_id is required")
  else Create t.
(** The fields of the request that are set replace those of the task; writing into
    the map of a task that has none panics. *)
Definition handleUpdateTask (id : string) (u : Task) : op Task :=
  e ← Get id;
  let keep (new old : string) := if bool_decide (new ≠ "") then new else old in
  let e := with_text (keep (t_Title u) (t_Title e)) (keep (t_Description u) (t_Description e))
             (keep (t_Result u) (t_Result e)) e in
  match t_Metadata u with
  | None => Update e
  | Some m =>
      if bool_decide (m = ∅) then Update e
      else match t_Metadata e with
           | None => fail EPanic
           | Some old => Update (with_metadata (Some (m ∪ old)) e)
           end
  end.
(** The task as it can be read, if it can. *)
Definition get_option (id : string) : op (option Task) := λ w,
  match Get id w with (Ok t, w') => (Ok (Some t), w') | (Err _, w') => (Ok None, w') end.
Definition handleTransitionTask (id status : string) : op (option Task) :=
  if bool_decide (status = "") then fail (EBadRequest "status is required")
  else _ ← Transition id status; get_option id.

(** ** A delegation's task *)

(** [DelegateTask]'s tracking up to the work: the task is created and started; the
    caller keeps the task as it was created. *)
Definition track_start (t : Task) : op Task :=
  tracked ← Create t;
  _ ← attempt (Transition (t_ID tracked) StatusInProgress);
  mret tracked.
(** The end of the work: the outcome is written into the caller's task, which is
    stored, and the task is moved to its final state. *)
Definition track_end (tracked : Task) (success : bool) (content err : string) (tokens : Z) : op (result TErr unit) :=
  let t := if success then with_outcome content (t_Error tracked) tokens tracked
           else with_outcome (t_Result tracked) err (t_TokensUsed tracked) tracked in
  _ ← attempt (Update t);
  attempt (Transition (t_ID t) (if success then StatusCompleted else StatusFailed)).
Definition track (t : Task) (success : bool) (content err : string) (tokens : Z) : op (result TErr unit) :=
  tracked ← track_start t;
  track_end tracked success content err tokens.

(** ** What is stored *)

Definition stored (w : TW) (id : string) : option Task := kv w !! (PrefixTask +:+ id) ≫= Unmarshal.

(** Under every task key is a task of that identifier, as the codec leaves it. *)
Definition wf (w : TW) : Prop :=
  ∀ id b, kv w !! (PrefixTask +:+ id) = Some b →
    ∃ t, Unmarshal b = Some t ∧ t_ID t = id ∧ text_ok t ∧ json_norm t = t.

Lemma task_key_inj a b : PrefixTask +:+ a = PrefixTask +:+ b → a = b.
Proof. intros H. exact (f_equal (str_drop 5) H). Qed.
Lemma json_norm_idem t : json_norm (json_norm t) = json_norm t.
Proof.
  destruct t as [i p s ws ti d st a r e to m c u co]. unfold json_norm, with_metadata. cbn. f_equal.
  unfold json_metadata. destruct m as [m|]; [|done]. by repeat case_bool_decide.
Qed.
Lemma text_json_norm t : text_ok t → text_ok (json_norm t).
Proof.
  intros []. split; try done. cbn. intros m k v Hm Hk. unfold json_metadata in Hm.
  destruct (t_Metadata t) as [m'|] eqn:E; [|done]. case_bool_decide; [done|]. simplify_eq. eauto.
Qed.
Lemma json_norm_id t : t_ID (json_norm t) = t_ID t.
Proof. done. Qed.
Lemma json_norm_status t : t_Status (json_norm t) = t_Status t.
Proof. done. Qed.

Section Laws.
Context {Laws : TaskCodecLaws}.

Lemma stored_insert w id t tk rs :
  text_ok t → t_ID t = id → wf w →
  let w' := mkTW (<[PrefixTask +:+ id := Marshal t]> (kv w)) rs tk in
  wf w' ∧ ∀ id', stored w' id' = if decide (id' = id) then Some (json_norm t) else stored w id'.
Proof.
  intros Ht Hid Hw w'. split.
  - intros id' b. cbn. destruct (decide (id' = id)) as [->|Hne].
    + rewrite lookup_insert_eq. intros [= <-]. exists (json_norm t).
      split; [by apply Unmarshal_Marshal|]. split; [done|]. split; [by apply text_json_norm|apply json_norm_idem].
    + rewrite lookup_insert_ne by (intros Heq; by apply task_key_inj in Heq). apply Hw.
  - intros id'. unfold stored. cbn. case_decide as Hd.
    + subst id'. rewrite lookup_insert_eq. cbn. by apply Unmarshal_Marshal.
    + by rewrite lookup_insert_ne by (intros Heq; by apply task_key_inj in Heq).
Qed.

(** ** The store as a map of tasks *)

(** The tasks a caller sees: what [stored] finds, by identifier. *)
Definition view := string → option Task.
Definition set_view (id : string) (o : option Task) (m : view) : view := λ id', if decide (id' = id) then o else m id'.

(** The calls of the backend and their answers. *)
Inductive call :=
| CCreate (t : Task)
| CGet (id : string)
| CUpdate (t : Task)
| CDelete (id : string)
| CList (f : TaskFilter)
| CTransition (id to : string)
| CAssign (id agent session : string).
Inductive answer :=
| ATask (t : Task)
| ADone
| ATasks (l : list Task).
Definition run_call (c : call) : op answer :=
  match c with
  | CCreate t => t ← Create t; mret (ATask t)
  | CGet id => t ← Get id; mret (ATask t)
  | CUpdate t => t ← Update t; mret (ATask t)
  | CDelete id => _ ← Delete id; mret ADone
  | CList f => l ← List_ f; mret (ATasks l)
  | CTransition id to => _ ← Transition id to; mret ADone
  | CAssign id a s => _ ← Assign id a s; mret ADone
  end.
Definition call_ok (c : call) : Prop :=
  match c with
  | CCreate t | CUpdate t => text_ok t
  | CTransition _ _ => True
  | CAssign _ a s => utf8 a ∧ utf8 s
  | _ => True
  end.

(** What a call may do to the map: fail with the store and change nothing, or answer
    and change the map as follows. *)
Inductive spec (m : view) : call → result TErr answer → view → Prop :=
| spec_store_error c e : (e = EStore ∨ ∃ id, e = EGet id EStore) → spec m c (Err e) m
| spec_create t id now :
    let t' := created id now t in
    spec m (CCreate t) (Ok (ATask t')) (set_view (t_ID t') (Some (json_norm t')) m)
| spec_get id t : m id = Some t → spec m (CGet id) (Ok (ATask t)) m
| spec_missing c id :
    m id = None → (c = CGet id ∨ (∃ to, c = CTransition id to) ∨ (∃ a s, c = CAssign id a s)) →
    spec m c (Err (EGet id ENotFound)) m
| spec_update t now :
    let t' := with_times (t_CreatedAt t) now (t_CompletedAt t) t in
    spec m (CUpdate t) (Ok (ATask t')) (set_view (t_ID t) (Some (json_norm t')) m)
| spec_delete id : spec m (CDelete id) (Ok ADone) (set_view id None m)
| spec_transition id to t u d :
    m id = Some t → ValidateTransition (t_Status t) to = Ok tt →
    spec m (CTransition id to) (Ok ADone)
      (set_view id (Some (with_times (t_CreatedAt t) u (if terminal to then Some d else t_CompletedAt t) (with_status to t))) m)
| spec_refused id to t e :
    m id = Some t → ValidateTransition (t_Status t) to = Err e → spec m (CTransition id to) (Err e) m
| spec_assign id a s t now :
    m id = Some t →
    spec m (CAssign id a s) (Ok ADone)
      (set_view id (Some (with_times (t_CreatedAt t) now (t_CompletedAt t) (with_assignee a s t))) m)
| spec_list f l :
    (∀ t, t ∈ l ↔ matchesFilter t f = true ∧ m (t_ID t) = Some t) → NoDup (t_ID <$> l) →
    spec m (CList f) (Ok (ATasks l)) m.

(** ** Reading and writing *)

Lemma Get_cases w id : badger env = true → wf w →
  let '(r, w') := Get id w in
  kv w' = kv w ∧ rows w' = rows w ∧
  (r = Err (EGet id EStore) ∨ (r = Err (EGet id ENotFound) ∧ stored w id = None)
   ∨ ∃ t, r = Ok t ∧ stored w id = Some t ∧ t_ID t = id ∧ text_ok t ∧ json_norm t = t).
Proof.
  intros Hb Hw. unfold Get, mbind, act_bind, wrap, kv_Get. rewrite Hb. cbn [negb].
  destruct (kv_fails env (tick w)); cbn; [by auto|].
  destruct (kv w !! (PrefixTask +:+ id)) as [b|] eqn:Hk.
  - destruct (Hw id b Hk) as (t&Ht&Hid&Htx&Hn). rewrite Ht. cbn. split_and!; try done. right; right.
    exists t. split_and!; try done. unfold stored. by rewrite Hk.
  - cbn. split_and!; try done. right; left. split; [done|]. unfold stored. by rewrite Hk.
Qed.
Lemma put_cases w t : badger env = true → wf w → text_ok t →
  let '(r, w') := put_task t w in
  wf w' ∧ rows w' = rows w ∧
  ((r = Err EStore ∧ kv w' = kv w) ∨
   (r = Ok tt ∧ ∀ id, stored w' id = set_view (t_ID t) (Some (json_norm t)) (stored w) id)).
Proof.
  intros Hb Hw Ht. unfold put_task, kv_Put. rewrite Hb. cbn [negb].
  destruct (kv_fails env (tick w)); [by auto|].
  destruct (stored_insert w (t_ID t) t (S (tick w)) (rows w) Ht eq_refl Hw) as [Hw' Hst].
  split; [exact Hw'|]. split; [done|]. right. split; [done|exact Hst].
Qed.

Lemma utf8_constants s : s ∈ [StatusPending; StatusInProgress; StatusCompleted; StatusFailed; StatusCanceled; ""] → utf8 s.
Proof.
  intros Hs. repeat (apply elem_of_cons in Hs as [->|Hs]; [by vm_compute|]). by apply elem_of_nil in Hs.
Qed.
Lemma valid_target_utf8 from to : ValidateTransition from to = Ok tt → utf8 to.
Proof.
  unfold ValidateTransition, validTransitions. intros H. apply utf8_constants.
  repeat case_bool_decide; try done; match goal with Hin : to ∈ _ |- _ => revert Hin end;
    rewrite ?elem_of_cons, ?elem_of_nil; naive_solver.
Qed.
Lemma text_created id now t : utf8 id → text_ok t → text_ok (created id now t).
Proof.
  intros Hid []. unfold created. destruct t as [i p s ws ti d st a r e to m c u co]. cbn in *.
  case_bool_decide; case_bool_decide; destruct m as [m|]; split; cbn; try done;
    try (by apply utf8_constants; set_solver);
    intros m' k v [= <-]; by rewrite lookup_empty.
Qed.
Lemma text_times c u d t : text_ok t → text_ok (with_times c u d t).
Proof. by intros []. Qed.
Lemma text_status_set s t : utf8 s → text_ok t → text_ok (with_status s t).
Proof. by intros ? []. Qed.
Lemma text_assignee_set a s t : utf8 a → utf8 s → text_ok t → text_ok (with_assignee a s t).
Proof. by intros ?? []. Qed.

(** A value read back is normal, and stays so under assignments to other fields. *)
Lemma norm_with_times c u d t : json_norm t = t → json_norm (with_times c u d t) = with_times c u d t.
Proof. destruct t. unfold json_norm, with_metadata, with_times. cbn. by intros [= ->]. Qed.
Lemma norm_with_status s t : json_norm t = t → json_norm (with_status s t) = with_status s t.
Proof. destruct t. unfold json_norm, with_metadata, with_status. cbn. by intros [= ->]. Qed.
Lemma norm_with_assignee a s t : json_norm t = t → json_norm (with_assignee a s t) = with_assignee a s t.
Proof. destruct t. unfold json_norm, with_metadata, with_assignee. cbn. by intros [= ->]. Qed.

Lemma Transition_cases w id to : badger env = true → wf w →
  let '(r, w') := Transition id to w in
  wf w' ∧ rows w' = rows w ∧
  ((∃ e, r = Err e ∧ kv w' = kv w ∧
     ((e = EStore ∨ e = EGet id EStore) ∨ (e = EGet id ENotFound ∧ stored w id = None) ∨
      (∃ t, stored w id = Some t ∧ ValidateTransition (t_Status t) to = Err e))) ∨
   (∃ t u d, r = Ok tt ∧ stored w id = Some t ∧ ValidateTransition (t_Status t) to = Ok tt ∧
      ∀ id', stored w' id' = set_view id (Some (with_times (t_CreatedAt t) u (if terminal to then Some d else t_CompletedAt t)
                                               (with_status to t))) (stored w) id')).
Proof.
  intros Hb Hw. pose proof (Get_cases w id Hb Hw) as HG. unfold Transition, mbind, act_bind at 1.
  destruct (Get id w) as [r w1]. destruct HG as (Hk&Hr&HG).
  assert (wf w1) as Hw1 by (intros i b; rewrite Hk; apply Hw).
  assert (∀ i, stored w1 i = stored w i) as Hst by (intros i; unfold stored; by rewrite Hk).
  destruct HG as [->|[[-> Hn]|(t&->&Hs&Hid&Htx&Hnorm)]].
  - split_and!; try done. left. eexists. split; [done|]. split; [done|]. auto.
  - split_and!; try done. left. eexists. split; [done|]. split; [done|]. auto.
  - unfold transition_write, act_bind at 1, lift.
    destruct (ValidateTransition (t_Status t) to) as [[]|e] eqn:Hv.
    2: { split_and!; try done. left. exists e. split; [done|]. split; [done|]. right; right. by exists t. }
    pose proof (valid_target_utf8 _ _ Hv) as Hto.
    unfold mbind, act_bind, Now. cbv beta iota zeta.
    destruct (terminal to); cbv beta iota zeta;
      match goal with |- context [put_task ?x ?y] =>
        assert (text_ok x) as Htx1 by (repeat apply text_times; by apply text_status_set);
        assert (json_norm x = x) as Hn1 by (repeat apply norm_with_times; by apply norm_with_status);
        pose proof (put_cases y x Hb Hw1 Htx1) as HP; destruct (put_task x y) as [r w2];
        destruct HP as (Hw2&Hr2&[[-> Hk2]|[-> Hst2]])
      end.
    1, 3: split_and!; [done|by rewrite Hr2|]; left; eexists; split; [done|]; split; [by rewrite Hk2|]; auto.
    all: split_and!; [done|by rewrite Hr2|]; right; eexists t, _, _; split_and!; try done.
    all: intros i; rewrite Hst2, Hn1; unfold set_view; cbn [t_ID with_times with_status]; rewrite Hid.
    all: case_decide; [reflexivity|apply Hst].
    Unshelve. exact 0.
Qed.

Lemma entries_spec w es : entries PrefixTask (kv w) = es →
  (∀ k b, (k, b) ∈ es ↔ kv w !! k = Some b ∧ has_prefix k PrefixTask = true) ∧ NoDup es.*1.
Proof.
  intros <-. unfold entries. split.
  - intros k b. rewrite merge_sort_Permutation, list_elem_of_In, filter_In, <- list_elem_of_In. cbn.
    by rewrite elem_of_map_to_list.
  - rewrite merge_sort_Permutation. assert (∀ l : list (string * Bytes), NoDup l.*1 →
      NoDup (List.filter (λ e, has_prefix e.1 PrefixTask) l).*1) as Hf; [|apply Hf, NoDup_fst_map_to_list].
    induction l as [|[k b] l IH]; cbn; [done|]. intros [Hn Hl]%NoDup_cons.
    destruct (has_prefix k PrefixTask); cbn; [|by apply IH]. constructor; [|by apply IH].
    intros Hin. apply Hn. apply list_elem_of_fmap in Hin as ([k' b']&->&Hin).
    rewrite list_elem_of_In, filter_In, <- list_elem_of_In in Hin. destruct Hin as [Hin _].
    apply list_elem_of_fmap. by exists (k', b').
Qed.
(** The tasks of a listing: each stored task once. *)
Definition listed (es : list (string * Bytes)) : list Task := omap (λ e, Unmarshal e.2) es.
Lemma listed_spec w : wf w →
  (∀ t, t ∈ listed (entries PrefixTask (kv w)) ↔ stored w (t_ID t) = Some t) ∧
  NoDup (t_ID <$> listed (entries PrefixTask (kv w))).
Proof.
  intros Hw. destruct (entries_spec w _ eq_refl) as [Hin Hnd]. revert Hin Hnd.
  generalize (entries PrefixTask (kv w)) as es. intros es Hin Hnd.
  assert (∀ k b, (k, b) ∈ es → ∃ t, Unmarshal b = Some t ∧ k = PrefixTask +:+ t_ID t ∧ kv w !! k = Some b) as Hes.
  { intros k b [Hk [id ->]%has_prefix_spec]%Hin. destruct (Hw id b Hk) as (t&Ht&Hid&_). exists t. by rewrite Hid. }
  split.
  - intros t. unfold listed. rewrite list_elem_of_omap. split.
    + intros ([k b]&Hkb&Ht). destruct (Hes k b Hkb) as (t'&Ht'&->&Hk). cbn in Ht. rewrite Ht in Ht'. simplify_eq.
      unfold stored. by rewrite Hk.
    + unfold stored. destruct (kv w !! (PrefixTask +:+ t_ID t)) as [b|] eqn:Hk; [|done]. cbn. intros Ht.
      exists (PrefixTask +:+ t_ID t, b). split; [|done]. apply Hin. split; [done|]. apply has_prefix_spec. by exists (t_ID t).
  - clear Hin. induction es as [|[k b] es IH]; [constructor|]. cbn in Hnd. apply NoDup_cons in Hnd as [Hk Hnd].
    destruct (Hes k b (list_elem_of_here _ _)) as (t&Ht&Hkt&_). cbn. rewrite Ht. cbn.
    assert (∀ k b, (k, b) ∈ es → ∃ t, Unmarshal b = Some t ∧ k = PrefixTask +:+ t_ID t ∧ kv w !! k = Some b) as Hes'.
    { intros k' b' Hin'. apply Hes. by right. }
    constructor; [|by apply IH]. intros Hid. apply Hk. apply list_elem_of_fmap in Hid as (t'&Hid&Ht').
    apply list_elem_of_omap in Ht' as ([k' b']&Hkb'&Hu). destruct (Hes' k' b' Hkb') as (t''&Hu'&Hk'&_).
    cbn in Hu. rewrite Hu in Hu'. simplify_eq. apply list_elem_of_fmap. exists (PrefixTask +:+ t_ID t'', b'). by rewrite Hid.
Qed.

Lemma view_eq w w' : kv w' = kv w → wf w → wf w' ∧ ∀ id, stored w' id = stored w id.
Proof. intros Hk Hw. split; [intros i b; rewrite Hk; apply Hw|]. intros id. unfold stored. by rewrite Hk. Qed.

Lemma create_refines t w : badger env = true → (∀ n, utf8 (uuid_at env n)) → wf w → text_ok t →
  let '(r, w') := Create t w in
  wf w' ∧ ((r = Err EStore ∧ ∀ id, stored w' id = stored w id) ∨
           ∃ id now, let t' := created id now t in
             r = Ok t' ∧ ∀ i, stored w' i = set_view (t_ID t') (Some (json_norm t')) (stored w) i).
Proof.
  intros Hb Huu Hw Ht. unfold Create, mbind, act_bind.
  assert (∃ id w1, (if bool_decide (t_ID t = "") then NewString else mret "") w = (Ok id, w1) ∧ kv w1 = kv w ∧ utf8 id)
    as (id&w1&->&Hk&Hid).
  { case_bool_decide; [|by exists "", w]. eexists _, _. split; [done|]. split; [done|apply Huu]. }
  unfold Now. cbv beta iota zeta. destruct (view_eq w w1 Hk Hw) as [Hw1 Hst].
  set (now := now_at env (tick w1)).
  pose proof (put_cases (tick_up w1) (created id now t) Hb Hw1 (text_created _ _ _ Hid Ht)) as HP.
  destruct (put_task (created id now t) (tick_up w1)) as [r w2]. destruct HP as (Hw2&_&[[-> Hk2]|[-> Hst2]]).
  - split; [done|]. left. split; [done|]. intros i. unfold stored. by rewrite Hk2; cbn; rewrite Hk.
  - split; [done|]. right. exists id, now. split; [done|]. intros i. rewrite Hst2. unfold set_view.
    case_decide; [done|]. apply Hst.
Qed.
Lemma update_refines t w : badger env = true → wf w → text_ok t →
  let '(r, w') := Update t w in
  wf w' ∧ ((r = Err EStore ∧ ∀ id, stored w' id = stored w id) ∨
           ∃ now, let t' := with_times (t_CreatedAt t) now (t_CompletedAt t) t in
             r = Ok t' ∧ ∀ i, stored w' i = set_view (t_ID t) (Some (json_norm t')) (stored w) i).
Proof.
  intros Hb Hw Ht. unfold Update, mbind, act_bind, Now. cbv beta iota zeta. set (now := now_at env (tick w)).
  set (t' := with_times (t_CreatedAt t) now (t_CompletedAt t) t).
  pose proof (put_cases (tick_up w) t' Hb Hw (text_times _ _ _ _ Ht)) as HP.
  destruct (put_task t' (tick_up w)) as [r w2]. destruct HP as (Hw2&_&[[-> Hk2]|[-> Hst2]]).
  - split; [done|]. left. split; [done|]. intros i. unfold stored. by rewrite Hk2.
  - split; [done|]. right. exists now. split; [done|]. intros i. by rewrite Hst2.
Qed.
Lemma assign_refines id a s w : badger env = true → utf8 a → utf8 s → wf w →
  let '(r, w') := Assign id a s w in
  wf w' ∧ ((r = Err EStore ∨ r = Err (EGet id EStore)) ∧ (∀ id, stored w' id = stored w id) ∨
           (r = Err (EGet id ENotFound) ∧ stored w id = None ∧ ∀ id, stored w' id = stored w id) ∨
           ∃ t now, r = Ok tt ∧ stored w id = Some t ∧ ∀ i, stored w' i =
             set_view id (Some (with_times (t_CreatedAt t) now (t_CompletedAt t) (with_assignee a s t))) (stored w) i).
Proof.
  intros Hb Ha Hs Hw. pose proof (Get_cases w id Hb Hw) as HG. unfold Assign, mbind, act_bind.
  destruct (Get id w) as [r w1]. destruct HG as (Hk&_&HG). destruct (view_eq w w1 Hk Hw) as [Hw1 Hst].
  destruct HG as [->|[[-> Hn]|(t&->&Hts&Hid&Htx&Hnorm)]]; [auto 6..|].
  unfold Now. cbv beta iota zeta. set (now := now_at env (tick w1)).
  set (t' := with_times _ now _ (with_assignee a s t)).
  assert (text_ok t') as Ht' by by apply text_times, text_assignee_set.
  assert (json_norm t' = t') as Hn' by by apply norm_with_times, norm_with_assignee.
  pose proof (put_cases (tick_up w1) t' Hb Hw1 Ht') as HP.
  destruct (put_task t' (tick_up w1)) as [r w2]. destruct HP as (Hw2&_&[[-> Hk2]|[-> Hst2]]).
  - split; [done|]. left. split; [auto|]. intros i. unfold stored. by rewrite Hk2; cbn; rewrite Hk.
  - split; [done|]. right; right. exists t, now. split_and!; try done. intros i. rewrite Hst2, Hn'.
    change (t_ID t') with (t_ID t). rewrite Hid. unfold set_view. case_decide; [done|apply Hst].
Qed.
Lemma delete_refines id w : badger env = true → wf w →
  let '(r, w') := Delete id w in
  wf w' ∧ ((r = Err EStore ∧ ∀ id, stored w' id = stored w id) ∨
           (r = Ok tt ∧ ∀ i, stored w' i = set_view id None (stored w) i)).
Proof.
  intros Hb Hw. unfold Delete, kv_Delete. rewrite Hb. cbn [negb].
  destruct (kv_fails env (tick w)); [auto|]. split.
  - intros i b. cbn. intros [_ Hi]%lookup_delete_Some. by apply Hw.
  - right. split; [done|]. intros i. unfold stored, set_view. cbn. case_decide as Hi.
    + subst. by rewrite lookup_delete_eq.
    + by rewrite lookup_delete_ne by (intros Heq; by apply task_key_inj in Heq).
Qed.
Lemma list_refines f w : badger env = true → wf w →
  let '(r, w') := List_ f w in
  kv w' = kv w ∧ (r = Err EStore ∨ ∃ l, r = Ok l ∧ NoDup (t_ID <$> l) ∧
    ∀ t, t ∈ l ↔ matchesFilter t f = true ∧ stored w (t_ID t) = Some t).
Proof.
  intros Hb Hw. unfold List_, mbind, act_bind, kv_List. rewrite Hb. cbn [negb].
  destruct (kv_fails env (tick w)); [auto|]. split; [done|]. right. eexists. split; [done|].
  destruct (listed_spec w Hw) as [Hin Hnd]. fold (listed (entries PrefixTask (kv w))).
  revert Hin Hnd. generalize (listed (entries PrefixTask (kv w))) as l. intros l Hin Hnd. split.
  - clear Hin. induction l as [|t l IH]; cbn in *; [done|]. apply NoDup_cons in Hnd as [Hn Hnd].
    destruct (matchesFilter t f); [|by apply IH]. cbn. constructor; [|by apply IH].
    intros Hi. apply Hn. apply list_elem_of_fmap in Hi as (t'&->&Hi).
    rewrite list_elem_of_In, filter_In, <- list_elem_of_In in Hi. apply list_elem_of_fmap. exists t'. by destruct Hi.
  - intros t. rewrite list_elem_of_In, filter_In, <- list_elem_of_In, Hin. naive_solver.
Qed.

Lemma run_call_refines c w :
  badger env = true → (∀ n, utf8 (uuid_at env n)) → call_ok c → wf w →
  let '(r, w') := run_call c w in
  wf w' ∧ ∃ m', (∀ id, stored w' id = m' id) ∧ spec (stored w) c r m'.
Proof.
  intros Hb Huu Hc Hw. destruct c as [t|id|t|id|f|id to|id a s]; cbn [run_call call_ok] in *; unfold mbind, act_bind.
  - pose proof (create_refines t w Hb Huu Hw Hc) as HP. destruct (Create t w) as [r w'].
    destruct HP as (Hw'&[[-> Hst]|(i&now&->&Hst)]); (split; [done|]); eexists; (split; [exact Hst|]); econstructor; auto.
  - pose proof (Get_cases w id Hb Hw) as HG. destruct (Get id w) as [r w'].
    destruct HG as (Hk&_&HG). destruct (view_eq w w' Hk Hw) as [Hw' Hst].
    destruct HG as [->|[[-> Hn]|(t&->&Ht&_)]]; (split; [done|]); eexists; (split; [exact Hst|]);
      [eapply spec_store_error; eauto|eapply spec_missing; eauto|by apply spec_get].
  - pose proof (update_refines t w Hb Hw Hc) as HP. destruct (Update t w) as [r w'].
    destruct HP as (Hw'&[[-> Hst]|(now&->&Hst)]); (split; [done|]); eexists; (split; [exact Hst|]); econstructor; auto.
  - pose proof (delete_refines id w Hb Hw) as HP. destruct (Delete id w) as [r w'].
    destruct HP as (Hw'&[[-> Hst]|[-> Hst]]); (split; [done|]); eexists; (split; [exact Hst|]); econstructor; auto.
  - pose proof (list_refines f w Hb Hw) as HP. destruct (List_ f w) as [r w'].
    destruct HP as (Hk&[->|(l&->&Hnd&Hl)]); destruct (view_eq w w' Hk Hw) as [Hw' Hst];
      (split; [done|]); eexists; (split; [exact Hst|]); econstructor; auto.
  - pose proof (Transition_cases w id to Hb Hw) as HP. destruct (Transition id to w) as [r w'].
    destruct HP as (Hw'&_&[(e&->&Hk&He)|(t&u&d&->&Ht&Hv&Hst)]).
    + destruct (view_eq w w' Hk Hw) as [_ Hst]. split; [done|]. eexists. split; [exact Hst|].
      destruct He as [[->| ->]|[[-> Hn]|(t&Ht&He)]];
        [eapply spec_store_error; eauto..|eapply spec_missing; eauto|by eapply spec_refused].
    + split; [done|]. eexists. split; [exact Hst|]. by constructor.
  - destruct Hc as [Ha Hs]. pose proof (assign_refines id a s w Hb Ha Hs Hw) as HP. destruct (Assign id a s w) as [r w'].
    destruct HP as (Hw'&[[[->| ->] Hst]|[(->&Hn&Hst)|(t&now&->&Ht&Hst)]]); (split; [done|]); eexists; (split; [exact Hst|]);
      [eapply spec_store_error; eauto..|eapply spec_missing; eauto 6|by constructor].
Qed.

Lemma run_call_wf c w :
  badger env = true → (∀ n, utf8 (uuid_at env n)) → call_ok c → wf w → wf (run_call c w).2.
Proof. intros Hb Hu Hc Hw. pose proof (run_call_refines c w Hb Hu Hc Hw) as HP. destruct (run_call c w). by destruct HP. Qed.
(** The calls that do not overwrite a task wholesale. *)
Definition by_transition (c : call) : Prop :=
  match c with CUpdate _ | CCreate _ | CDelete _ => False | _ => True end.
Lemma spec_status_step m c r m' id t : spec m c r m' → by_transition c → m id = Some t →
  ∃ t', m' id = Some t' ∧ (t_Status t' = t_Status t ∨ ValidateTransition (t_Status t) (t_Status t') = Ok tt).
Proof.
  intros Hs Hc Hm. destruct Hs; try done; try (by exists t; auto).
  - unfold set_view. case_decide; [|by exists t; auto]. subst. eexists. split; [done|]. right. by simplify_eq.
  - unfold set_view. case_decide; [|by exists t; auto]. subst. eexists. split; [done|]. left. by simplify_eq.
Qed.

(** ** Properties of the backend *)

(** C34. The local backend is a map from identifier to task.  Over any store whose
    operations may fail, every call either fails with the store and changes nothing,
    or gives the answer the map gives and leaves the map changed exactly as the call
    says: creation fills in identifier, status and times, a transition is refused or
    made according to the table of transitions and stamps a final state, an
    assignment and an update stamp the task, a listing holds each task that passes
    the filter once; and the store stays well formed. *)
Theorem local_backend_refines_map c w :
  badger env = true → (∀ n, utf8 (uuid_at env n)) → call_ok c → wf w →
  let '(r, w') := run_call c w in
  wf w' ∧ ∃ m', (∀ id, stored w' id = m' id) ∧ spec (stored w) c r m'.
Proof. apply run_call_refines. Qed.

(** Among reads, listings, assignments and transitions, however many and whatever
    fails, a task that was completed or canceled stays so. *)
Theorem final_states_are_final cs w id t :
  badger env = true → (∀ n, utf8 (uuid_at env n)) → wf w →
  Forall (λ c, call_ok c ∧ by_transition c) cs →
  stored w id = Some t → t_Status t = StatusCompleted ∨ t_Status t = StatusCanceled →
  ∃ t', stored (fold_left (λ w c, (run_call c w).2) cs w) id = Some t' ∧ t_Status t' = t_Status t.
Proof.
  intros Hb Huu Hw Hcs. revert w t Hw. induction Hcs as [|c cs [Hok Hby] Hcs IH]; intros w t Hw Ht Hf; [by exists t|].
  cbn [fold_left]. pose proof (run_call_refines c w Hb Huu Hok Hw) as HP. destruct (run_call c w) as [r w1].
  destruct HP as (Hw1&m'&Hst&Hsp). cbn [snd].
  destruct (spec_status_step _ _ _ _ id t Hsp Hby Ht) as (t1&Ht1&Hs).
  assert (t_Status t1 = t_Status t) as Hs1.
  { destruct Hs as [|Hv]; [done|]. exfalso. revert Hv.
    destruct Hf as [-> | ->]; by vm_compute. }
  rewrite <- Hst in Ht1. destruct (IH w1 t1 Hw1 Ht1) as (t2&Ht2&Hs2); [by rewrite Hs1|]. exists t2. by rewrite Hs2.
Qed.

(** ** Snapshot and restore *)

(** No store operation fails, and there is a table to copy to. *)
Definition stores_work : Prop := badger env = true ∧ has_db env = true ∧ (∀ n, kv_fails env n = false) ∧ (∀ n, db_fails env n = false).
(** A task as the table keeps it: instants cut to whole seconds. *)
Definition whole_seconds (t : Task) : Task :=
  with_times (from_sec (sec (t_CreatedAt t))) (from_sec (sec (t_UpdatedAt t))) (from_sec <$> (sec <$> t_CompletedAt t)) t.

Lemma snapshot_all_rows es w : stores_work → NoDup (t_ID <$> listed es) →
  let '(r, w') := snapshot_all es w in
  r = Ok tt ∧ kv w' = kv w ∧
  (∀ t, t ∈ listed es → rows w' !! t_ID t = Some (upserted (rows w !! t_ID t) t)) ∧
  (∀ id, id ∉ (t_ID <$> listed es) → rows w' !! id = rows w !! id).
Proof.
  intros (Hb&Hd&Hk&Hf). revert w. induction es as [|[k b] es IH]; intros w Hnd; cbn.
  { split_and!; try done. intros t Ht. by apply elem_of_nil in Ht. }
  unfold listed in *. cbn in Hnd |- *. destruct (Unmarshal b) as [t|]; [|by apply IH].
  cbn in Hnd. apply NoDup_cons in Hnd as [Hn Hnd]. unfold mbind, act_bind, wrap, UpsertTask. rewrite Hf.
  set (w1 := mkTW _ _ _). specialize (IH w1 Hnd). destruct (snapshot_all es w1) as [r w'].
  destruct IH as (->&Hkv&Hin&Hout). split_and!; [done|done| |].
  - intros t' [->|Ht']%elem_of_cons.
    + rewrite Hout by done. subst w1. cbn. by rewrite lookup_insert_eq.
    + rewrite Hin by done. subst w1. cbn. rewrite lookup_insert_ne; [done|].
      intros Heq. apply Hn. rewrite Heq. by apply list_elem_of_fmap_2.
  - intros id. cbn. rewrite not_elem_of_cons. intros [Hne Hid]. rewrite Hout by done. subst w1. cbn.
    by rewrite lookup_insert_ne.
Qed.
Lemma snapshot_rows w : stores_work → wf w →
  let '(r, w') := Snapshot w in
  r = Ok tt ∧ kv w' = kv w ∧
  ∀ id, rows w' !! id = match stored w id with Some t => Some (upserted (rows w !! id) t) | None => rows w !! id end.
Proof.
  intros Hs Hw. pose proof Hs as (Hb&Hd&Hk&_). unfold Snapshot. rewrite Hd. cbn [negb].
  unfold mbind, act_bind, kv_List. rewrite Hb, Hk. cbn [negb].
  destruct (listed_spec w Hw) as [Hin Hnd].
  pose proof (snapshot_all_rows (entries PrefixTask (kv w)) (tick_up w) Hs Hnd) as HS.
  destruct (snapshot_all _ (tick_up w)) as [r w']. destruct HS as (->&Hkv&Hi&Ho). split_and!; [done|done|].
  intros id. destruct (stored w id) as [t|] eqn:Ht.
  - assert (t_ID t = id) as Hid.
    { unfold stored in Ht. destruct (kv w !! (PrefixTask +:+ id)) as [b|] eqn:E; [|done].
      destruct (Hw id b E) as (t'&Ht'&Hid&_). cbn in Ht. rewrite Ht in Ht'. by simplify_eq. }
    subst id. apply (Hi t). by apply Hin.
  - apply Ho. intros (t&->&Hl)%list_elem_of_fmap. apply Hin in Hl. by rewrite Hl in Ht.
Qed.

Lemma restore_all_stored ts w : stores_work → wf w → Forall text_ok ts → NoDup (t_ID <$> ts) →
  let '(r, w') := restore_all ts w in
  r = Ok tt ∧ wf w' ∧ rows w' = rows w ∧
  (∀ t, t ∈ ts → stored w' (t_ID t) = if IsTerminal t then stored w (t_ID t) else Some (json_norm t)) ∧
  (∀ id, id ∉ (t_ID <$> ts) → stored w' id = stored w id).
Proof.
  intros Hs Hw Hts. pose proof Hs as (Hb&Hd&Hk&_). revert w Hw. induction Hts as [|t ts Ht Hts IH]; intros w Hw Hnd; cbn.
  { split_and!; try done. intros t Ht. by apply elem_of_nil in Ht. }
  cbn in Hnd. apply NoDup_cons in Hnd as [Hn Hnd]. destruct (IsTerminal t) eqn:Hter.
  - specialize (IH w Hw Hnd). destruct (restore_all ts w) as [r w']. destruct IH as (->&Hw'&Hr&Hin&Hout).
    split_and!; try done.
    + intros t' [->|Ht']%elem_of_cons; [|by apply Hin]. rewrite Hter. by apply Hout.
    + intros id. rewrite not_elem_of_cons. intros [_ Hid]. by apply Hout.
  - unfold mbind, act_bind, wrap. pose proof (put_cases w t Hb Hw Ht) as HP.
    assert ((put_task t w).1 = Ok tt) as Hok by (unfold put_task, kv_Put; by rewrite Hb, Hk).
    destruct (put_task t w) as [r w1]. cbn in Hok. subst r.
    destruct HP as (Hw1&Hr1&[[? _]|[_ Hst]]); [done|].
    specialize (IH w1 Hw1 Hnd). destruct (restore_all ts w1) as [r w']. destruct IH as (->&Hw'&Hr&Hin&Hout).
    split_and!; try done; [by rewrite Hr| |].
    + intros t' [->|Ht']%elem_of_cons.
      * rewrite Hter, Hout by done. rewrite Hst. unfold set_view. by rewrite decide_True.
      * rewrite Hin by done. destruct (IsTerminal t'); [|done]. rewrite Hst. unfold set_view. rewrite decide_False; [done|].
        intros Heq. apply Hn. rewrite <- Heq. by apply list_elem_of_fmap_2.
    + intros id. rewrite not_elem_of_cons. intros [Hne Hid]. rewrite Hout by done. rewrite Hst. unfold set_view.
      by rewrite decide_False.
Qed.

(** The rows hold tasks under their identifiers. *)
Definition rows_ok (w : TW) : Prop := ∀ id r, rows w !! id = Some r → t_ID (r_task r) = id ∧ text_ok (r_task r).

Lemma text_scan r : text_ok (r_task r) → text_ok (scanTask r).
Proof.
  intros []. split; try done. cbn. intros m k v [= <-] Hk. destruct (t_Metadata (r_task r)) as [m|]; [|by rewrite lookup_empty in Hk].
  by eapply text_metadata0.
Qed.
Lemma restore_stored w : stores_work → wf w → rows_ok w →
  let '(r, w') := Restore w in
  r = Ok tt ∧ wf w' ∧
  ∀ id, stored w' id =
    match rows w !! id with
    | Some r => if IsTerminal (r_task r) then stored w id else Some (json_norm (scanTask r))
    | None => stored w id
    end.
Proof.
  intros Hs Hw Hr. pose proof Hs as (Hb&Hd&_&Hf). unfold Restore, Available. rewrite Hb, Hd. cbn [negb orb].
  unfold mbind, act_bind, ListTasks. rewrite Hf.
  set (ts := List.filter _ _).
  assert (∀ t, t ∈ ts ↔ ∃ id r, rows w !! id = Some r ∧ t = scanTask r) as Hts.
  { intros t. unfold ts. rewrite list_elem_of_In, filter_In, <- list_elem_of_In, list_elem_of_fmap. split.
    - intros [(r&->&Hin) _]. rewrite merge_sort_Permutation, list_elem_of_fmap in Hin. destruct Hin as ([id r']&->&Hin).
      apply elem_of_map_to_list in Hin. by exists id, r'.
    - intros (id&r&Hir&->). split; [|done]. exists r. split; [done|]. rewrite merge_sort_Permutation, list_elem_of_fmap.
      exists (id, r). split; [done|]. by apply elem_of_map_to_list. }
  assert (NoDup (t_ID <$> ts)) as Hnd.
  { unfold ts. assert (∀ l : list Task, List.filter (λ t, matchesFilter t no_filter) l = l) as ->.
    { intros l. induction l as [|t l IH]; cbn; [done|]. by rewrite IH. }
    rewrite <- list_fmap_compose, merge_sort_Permutation, <- list_fmap_compose.
    rewrite (list_fmap_ext _ fst).
    - apply NoDup_fst_map_to_list.
    - intros i [id r] Hi. cbn. apply list_elem_of_lookup_2, elem_of_map_to_list in Hi. by apply Hr. }
  assert (Forall text_ok ts) as Htx.
  { apply Forall_forall. intros t (id&r&Hir&->)%Hts. by apply text_scan, (Hr id). }
  pose proof (restore_all_stored ts (tick_up w) Hs Hw Htx Hnd) as HR.
  destruct (restore_all ts (tick_up w)) as [r w']. destruct HR as (->&Hw'&_&Hin&Hout). split_and!; [done|done|].
  intros id. destruct (rows w !! id) as [r|] eqn:Hir.
  - destruct (Hr id r Hir) as [Hid _]. assert (t_ID (scanTask r) = id) as Hid' by done.
    rewrite <- Hid' at 1. rewrite Hin by (apply Hts; eauto). by rewrite Hid'.
  - apply Hout. intros (t&->&(id'&r&Hir'&->)%Hts)%list_elem_of_fmap. destruct (Hr id' r Hir') as [Hid' _].
    change (t_ID (scanTask r)) with (t_ID (r_task r)) in Hir. by rewrite Hid', Hir' in Hir.
Qed.

Lemma stored_normal w id t : wf w → stored w id = Some t → t_ID t = id ∧ text_ok t ∧ json_norm t = t.
Proof.
  unfold stored. intros Hw. destruct (kv w !! (PrefixTask +:+ id)) as [b|] eqn:E; [|done]. cbn. intros Ht.
  destruct (Hw id b E) as (t'&Ht'&Hid&Htx&Hn). rewrite Ht in Ht'. by simplify_eq.
Qed.
(** A row as a restore writes it to the store. *)
Lemma scan_row r :
  json_norm (scanTask r) =
    with_times (from_sec (r_created r)) (from_sec (r_updated r)) (from_sec <$> r_completed r) (json_norm (r_task r)).
Proof.
  destruct r as [[i p s ws ti d st a r e to m cr u co] c' u' d']. unfold json_norm, scanTask, with_metadata, with_times. cbn.
  f_equal. destruct m as [m|]; cbn; by repeat case_bool_decide.
Qed.
Lemma scan_row_of t c : json_norm t = t →
  json_norm (scanTask (mkRow t c (sec (t_UpdatedAt t)) (sec <$> t_CompletedAt t)))
  = with_times (from_sec c) (from_sec (sec (t_UpdatedAt t))) (from_sec <$> (sec <$> t_CompletedAt t)) t.
Proof. intros Hn. rewrite scan_row. cbn [r_task r_created r_updated r_completed]. by rewrite Hn. Qed.

(** Every row is the copy of a stored task, made at its creation instant. *)
Definition rows_fit (w : TW) : Prop :=
  ∀ id r, rows w !! id = Some r → ∃ t, stored w id = Some t ∧ r_created r = sec (t_CreatedAt t).
Lemma snapshot_fit w : stores_work → wf w → rows_fit w →
  let '(r1, w1) := Snapshot w in
  r1 = Ok tt ∧ kv w1 = kv w ∧ rows_ok w1 ∧
  ∀ id, rows w1 !! id = (t ← stored w id; Some (mkRow t (sec (t_CreatedAt t)) (sec (t_UpdatedAt t)) (sec <$> t_CompletedAt t))).
Proof.
  intros Hs Hw Hfit. pose proof (snapshot_rows w Hs Hw) as HS. destruct (Snapshot w) as [r1 w1].
  destruct HS as (->&Hkv&Hrows). split; [done|]. split; [done|].
  assert (∀ id, rows w1 !! id = (t ← stored w id; Some (mkRow t (sec (t_CreatedAt t)) (sec (t_UpdatedAt t)) (sec <$> t_CompletedAt t))))
    as Hrows'.
  { intros id. rewrite Hrows. destruct (stored w id) as [t|] eqn:Ht; cbn.
    - destruct (rows w !! id) as [r|] eqn:Hr; [|done]. destruct (Hfit id r Hr) as (t'&Ht'&Hc). cbn. simplify_eq.
      by rewrite Hc.
    - destruct (rows w !! id) as [r|] eqn:Hr; [|done]. destruct (Hfit id r Hr) as (t'&Ht'&_). by rewrite Ht' in Ht. }
  split; [|done]. intros id r. rewrite Hrows'. destruct (stored w id) as [t|] eqn:Ht; [|done]. cbn. intros [= <-]. cbn.
  by destruct (stored_normal w id t Hw Ht) as (?&?&_).
Qed.

(** What a snapshot and a restore leave of a task, given the row it had before: the
    row keeps its own creation instant. *)
Definition brought_back (old : option Row) (t : Task) : option Task :=
  if IsTerminal t then None
  else Some (with_times (from_sec (match old with Some r => r_created r | None => sec (t_CreatedAt t) end))
               (from_sec (sec (t_UpdatedAt t))) (from_sec <$> (sec <$> t_CompletedAt t)) t).
(** The same of a row whose task was deleted: no snapshot removes it. *)
Definition revived (r : Row) : option Task :=
  if IsTerminal (r_task r) then None
  else Some (with_times (from_sec (r_created r)) (from_sec (r_updated r)) (from_sec <$> r_completed r) (json_norm (r_task r))).
Lemma snapshot_rows_ok w : stores_work → wf w → rows_ok w → rows_ok (Snapshot w).2.
Proof.
  intros Hs Hw Hok. pose proof (snapshot_rows w Hs Hw) as HS. destruct (Snapshot w) as [r1 w1].
  destruct HS as (_&_&Hrows). cbn [snd]. intros id r. rewrite Hrows.
  destruct (stored w id) as [t|] eqn:Ht; [|apply Hok]. intros [= <-].
  destruct (stored_normal w id t Hw Ht) as (?&?&_). unfold upserted. by destruct (rows w !! id).
Qed.

(** C39. A snapshot followed by a restore into an empty store, no operation of either
    failing, gives back the tasks that were not in a final state, with their times cut
    to whole seconds, and the unfinished tasks of the rows that no stored task
    replaced, since a snapshot never deletes a row: a task deleted after an earlier
    snapshot comes back, and a task whose identifier has an older row takes the
    creation time of that row.  What was completed, failed or canceled when it was
    copied does not come back.  If every row is of a stored task and of its creation,
    exactly the unfinished tasks come back.  The rows are under the identifiers of
    their tasks, as a snapshot writes them, and are again after this one. *)
Theorem snapshot_restore_round_trip w :
  stores_work → wf w → rows_ok w →
  let '(r1, w1) := Snapshot w in
  let '(r2, w2) := Restore (mkTW ∅ (rows w1) (tick w1)) in
  r1 = Ok tt ∧ r2 = Ok tt ∧ rows_ok w1 ∧ wf w2 ∧
  (∀ id t, stored w id = Some t → stored w2 id = brought_back (rows w !! id) t) ∧
  (∀ id, stored w id = None → stored w2 id = (r ← rows w !! id; revived r)) ∧
  (rows_fit w → ∀ id, stored w2 id = (t ← stored w id; if IsTerminal t then None else Some (whole_seconds t))).
Proof.
  intros Hs Hw Hok. pose proof (snapshot_rows w Hs Hw) as HS. pose proof (snapshot_rows_ok w Hs Hw Hok) as Hok1.
  destruct (Snapshot w) as [r1 w1]. destruct HS as (->&Hkv&Hrows).
  assert (wf (mkTW ∅ (rows w1) (tick w1))) as Hw0 by (intros id b; cbn; by rewrite lookup_empty).
  pose proof (restore_stored (mkTW ∅ (rows w1) (tick w1)) Hs Hw0 Hok1) as HR.
  destruct (Restore _) as [r2 w2]. destruct HR as (->&Hw2&Hst). cbn [rows] in Hst.
  assert (∀ id, stored (mkTW ∅ (rows w1) (tick w1)) id = None) as Hnone by (intros id; unfold stored; cbn; by rewrite lookup_empty).
  assert (∀ id t, stored w id = Some t → stored w2 id = brought_back (rows w !! id) t) as Hsome.
  { intros id t Ht. rewrite Hst, Hrows, Ht, Hnone. unfold brought_back, upserted.
    destruct (stored_normal w id t Hw Ht) as (_&_&Hn).
    destruct (rows w !! id); cbn [r_task row_of]; (destruct (IsTerminal t); [done|]); rewrite scan_row;
      cbn [r_task r_created r_updated r_completed row_of]; by rewrite Hn. }
  assert (∀ id, stored w id = None → stored w2 id = (r ← rows w !! id; revived r)) as Hgone.
  { intros id Ht. rewrite Hst, Hrows, Ht, Hnone. destruct (rows w !! id) as [r|]; [|done].
    cbn [mbind option_bind]. unfold revived. rewrite scan_row.
    by destruct (IsTerminal (r_task r)). }
  split_and!; try done. intros Hfit id. destruct (stored w id) as [t|] eqn:Ht; cbn.
  - rewrite (Hsome id t Ht). unfold brought_back, whole_seconds. case_match; [done|].
    destruct (rows w !! id) as [r|] eqn:Hr; [|done]. destruct (Hfit id r Hr) as (t'&Ht'&->). by simplify_eq.
  - rewrite (Hgone id Ht). destruct (rows w !! id) as [r|] eqn:Hr; [|done].
    destruct (Hfit id r Hr) as (t'&Ht'&_). by rewrite Ht' in Ht.
Qed.

(** ** Changes that are lost *)

Lemma Get_works w id t : stores_work → stored w id = Some t → Get id w = (Ok t, tick_up w).
Proof.
  intros (Hb&_&Hk&_) Ht. unfold Get, mbind, act_bind, wrap, kv_Get. rewrite Hb, Hk. cbn [negb].
  unfold stored in Ht. destruct (kv w !! (PrefixTask +:+ id)) as [b|]; [|done]. cbn in Ht. by rewrite Ht.
Qed.
Lemma put_works w t : stores_work → wf w → text_ok t →
  let '(r, w') := put_task t w in
  r = Ok tt ∧ wf w' ∧ rows w' = rows w ∧ ∀ id, stored w' id = set_view (t_ID t) (Some (json_norm t)) (stored w) id.
Proof.
  intros (Hb&_&Hk&_) Hw Ht. pose proof (put_cases w t Hb Hw Ht) as HP.
  assert ((put_task t w).1 = Ok tt) as Hok by (unfold put_task, kv_Put; by rewrite Hb, Hk).
  destruct (put_task t w) as [r w']. cbn in Hok. subst r. by destruct HP as (?&?&[[? _]|[_ ?]]).
Qed.
Lemma transition_write_works w t to : stores_work → wf w → text_ok t → json_norm t = t →
  ValidateTransition (t_Status t) to = Ok tt →
  let '(r, w') := transition_write t to w in
  r = Ok tt ∧ wf w' ∧ rows w' = rows w ∧
  ∃ u d, ∀ i, stored w' i = set_view (t_ID t)
    (Some (with_times (t_CreatedAt t) u d (with_status to t))) (stored w) i.
Proof.
  intros Hs Hw Ht Hn Hv. pose proof (valid_target_utf8 _ _ Hv) as Hto.
  unfold transition_write, mbind, act_bind, lift. rewrite Hv. unfold Now. cbv beta iota zeta.
  destruct (terminal to); cbv beta iota zeta;
    match goal with |- context [put_task ?x ?y] =>
      assert (text_ok x) as Hx by (repeat apply text_times; by apply text_status_set);
      assert (json_norm x = x) as Hnx by (repeat apply norm_with_times; by apply norm_with_status);
      pose proof (put_works y x Hs Hw Hx) as HP; destruct (put_task x y) as [r w2];
      destruct HP as (->&Hw2&Hr2&Hst); rewrite Hnx in Hst
    end; (split_and!; [done|done|done|]); eexists _, _; intros i; rewrite Hst; reflexivity.
Qed.
Lemma Transition_works w id t to : stores_work → wf w → stored w id = Some t →
  ValidateTransition (t_Status t) to = Ok tt →
  let '(r, w') := Transition id to w in
  r = Ok tt ∧ wf w' ∧ rows w' = rows w ∧
  ∃ u d, ∀ i, stored w' i = set_view id (Some (with_times (t_CreatedAt t) u d (with_status to t))) (stored w) i.
Proof.
  intros Hs Hw Ht Hv. destruct (stored_normal w id t Hw Ht) as (Hid&Htx&Hn).
  unfold Transition, mbind, act_bind. rewrite (Get_works w id t Hs Ht).
  pose proof (transition_write_works (tick_up w) t to Hs Hw Htx Hn Hv) as HT.
  destruct (transition_write t to (tick_up w)) as [r w']. by rewrite Hid in HT.
Qed.

(** A restore is not aware of what happened after the snapshot it reads.  A task
    copied while in progress and completed afterwards is in progress again after the
    restore of a restart, without its result: the store it overwrites is durable and
    held the later state. *)
Theorem restore_undoes_completion w id t :
  stores_work → wf w → rows_fit w → stored w id = Some t → t_Status t = StatusInProgress →
  let '(r1, w1) := Snapshot w in
  let '(r2, w2) := Transition id StatusCompleted w1 in
  let '(r3, w3) := Restore w2 in
  r1 = Ok tt ∧ r2 = Ok tt ∧ r3 = Ok tt ∧
  t_Status <$> stored w2 id = Some StatusCompleted ∧ stored w3 id = Some (whole_seconds t).
Proof.
  intros Hs Hw Hfit Ht Hp. pose proof (snapshot_fit w Hs Hw Hfit) as HS. destruct (Snapshot w) as [r1 w1].
  destruct HS as (->&Hkv&Hok&Hrows). destruct (view_eq w w1 Hkv Hw) as [Hw1 Hst1].
  assert (stored w1 id = Some t) as Ht1 by by rewrite Hst1.
  pose proof (Transition_works w1 id t StatusCompleted Hs Hw1 Ht1 ltac:(by rewrite Hp)) as HT.
  destruct (Transition id StatusCompleted w1) as [r2 w2]. destruct HT as (->&Hw2&Hr2&u&d&Hst2).
  assert (rows_ok w2) as Hok2 by (unfold rows_ok; by rewrite Hr2).
  pose proof (restore_stored w2 Hs Hw2 Hok2) as HR. destruct (Restore w2) as [r3 w3]. destruct HR as (->&_&Hst3).
  split_and!; try done.
  - rewrite Hst2. unfold set_view. by rewrite decide_True.
  - rewrite Hst3, Hr2, Hrows, Ht. cbn.
    assert (IsTerminal t = false) as -> by (unfold IsTerminal; by rewrite Hp).
    rewrite scan_row_of; [done|]. by destruct (stored_normal w id t Hw Ht) as (_&_&?).
Qed.

(** Two transitions of a task that read it before either writes both succeed, and
    the second write wins: a completion that was reported done is replaced by a
    cancellation, a move the table of transitions refuses. *)
Theorem racing_transitions_both_succeed w id t :
  stores_work → wf w → stored w id = Some t → t_Status t = StatusInProgress →
  let '(g1, w1) := Get id w in
  let '(g2, w2) := Get id w1 in
  let '(r1, w3) := transition_write t StatusCompleted w2 in
  let '(r2, w4) := transition_write t StatusCanceled w3 in
  g1 = Ok t ∧ g2 = Ok t ∧ r1 = Ok tt ∧ r2 = Ok tt ∧
  t_Status <$> stored w3 id = Some StatusCompleted ∧ t_Status <$> stored w4 id = Some StatusCanceled ∧
  ValidateTransition StatusCompleted StatusCanceled = Err (EInvalidTransition StatusCompleted StatusCanceled).
Proof.
  intros Hs Hw Ht Hp. destruct (stored_normal w id t Hw Ht) as (Hid&Htx&Hn).
  rewrite (Get_works w id t Hs Ht), (Get_works (tick_up w) id t Hs Ht).
  pose proof (transition_write_works (tick_up (tick_up w)) t StatusCompleted Hs Hw Htx Hn ltac:(by rewrite Hp)) as H1.
  destruct (transition_write t StatusCompleted _) as [r1 w3]. destruct H1 as (->&Hw3&_&u1&d1&Hst3).
  pose proof (transition_write_works w3 t StatusCanceled Hs Hw3 Htx Hn ltac:(by rewrite Hp)) as H2.
  destruct (transition_write t StatusCanceled w3) as [r2 w4]. destruct H2 as (->&_&_&u2&d2&Hst4).
  rewrite Hid in Hst3, Hst4. split_and!; try done.
  - rewrite Hst3. unfold set_view. by rewrite decide_True.
  - rewrite Hst4. unfold set_view. by rewrite decide_True.
Qed.

Lemma Create_works t w : stores_work → (∀ n, utf8 (uuid_at env n)) → wf w → text_ok t → t_ID t = "" →
  let '(r, w') := Create t w in
  ∃ now, let t' := created (uuid_at env (tick w)) now t in
    r = Ok t' ∧ wf w' ∧ ∀ i, stored w' i = set_view (t_ID t') (Some (json_norm t')) (stored w) i.
Proof.
  intros Hs Huu Hw Ht Hid. unfold Create, mbind, act_bind. rewrite bool_decide_true by done.
  unfold NewString, Now. cbv beta iota zeta. set (now := now_at env _). set (id := uuid_at env (tick w)).
  pose proof (put_works (tick_up (tick_up w)) (created id now t) Hs Hw (text_created id now t (Huu _) Ht)) as HP.
  destruct (put_task (created id now t) _) as [r w']. destruct HP as (->&Hw'&_&Hst). exists now. done.
Qed.
Lemma Update_works t w : stores_work → wf w → text_ok t →
  let '(r, w') := Update t w in
  wf w' ∧ ∃ now, let t' := with_times (t_CreatedAt t) now (t_CompletedAt t) t in
    r = Ok t' ∧ ∀ i, stored w' i = set_view (t_ID t) (Some (json_norm t')) (stored w) i.
Proof.
  intros Hs Hw Ht. unfold Update, mbind, act_bind, Now. cbv beta iota zeta. set (now := now_at env _).
  set (t' := with_times (t_CreatedAt t) now (t_CompletedAt t) t).
  pose proof (put_works (tick_up w) t' Hs Hw (text_times _ _ _ _ Ht)) as HP.
  destruct (put_task t' (tick_up w)) as [r w']. destruct HP as (->&Hw'&_&Hst). split; [done|]. by exists now.
Qed.
Lemma text_outcome r e n t : utf8 r → utf8 e → text_ok t → text_ok (with_outcome r e n t).
Proof. by intros ?? []. Qed.

(** The task of a delegation never finishes.  The delegation starts it and, when
    the work is over, stores the copy it kept from the creation, which puts the task
    back to pending; the move to its final state is then refused, and the error
    ignored.  Whatever the outcome, the task is left pending, its result stored. *)
Theorem delegated_task_left_pending t w (success : bool) content err tokens :
  stores_work → (∀ n, utf8 (uuid_at env n)) → wf w → text_ok t → utf8 content → utf8 err →
  t_ID t = "" → t_Status t = "" →
  let final := if success then StatusCompleted else StatusFailed in
  let '(r, w') := track t success content err tokens w in
  r = Ok (Err (EInvalidTransition StatusPending final)) ∧
  ∃ t', stored w' (uuid_at env (tick w)) = Some t' ∧ t_Status t' = StatusPending ∧
    (if success then t_Result t' = content else t_Error t' = err).
Proof.
  intros Hs Huu Hw Ht Hc He Hid Hst final. unfold track, track_start, mbind, act_bind.
  pose proof (Create_works t w Hs Huu Hw Ht Hid) as HC. destruct (Create t w) as [r w1].
  destruct HC as (now&->&Hw1&_). set (id := uuid_at env (tick w)). set (t1 := created id now t).
  assert (t_ID t1 = id ∧ t_Status t1 = StatusPending) as [Hid1 Hst1].
  { unfold t1. destruct t as [i p s ws ti d st a r e to m c u co]. cbn in Hid, Hst. subst i st.
    destruct m; split; reflexivity. }
  assert (text_ok t1) as Htx1 by (apply text_created; [apply Huu|done]).
  rewrite attempt_Ok. unfold track_end, mret, act_ret, mbind, act_bind.
  set (w2 := (Transition (t_ID t1) StatusInProgress w1).2).
  assert (wf w2) as Hw2.
  { pose proof (Transition_cases w1 (t_ID t1) StatusInProgress ltac:(by destruct Hs) Hw1) as HT. unfold w2.
    destruct (Transition _ _ w1) as [r w']. by destruct HT. }
  set (t2 := if success then _ else _).
  assert (text_ok t2 ∧ t_ID t2 = id ∧ t_Status t2 = StatusPending ∧ (if success then t_Result t2 = content else t_Error t2 = err))
    as (Htx2&Hid2&Hst2&Hout).
  { pose proof (text_error t1 Htx1). pose proof (text_result t1 Htx1).
    unfold t2. destruct success; (split; [by apply text_outcome|done]). }
  pose proof (Update_works t2 w2 Hs Hw2 Htx2) as HU. rewrite attempt_Ok.
  destruct (Update t2 w2) as [r w3]. destruct HU as (Hw3&now3&_&Hst3). cbn [snd].
  set (t3 := json_norm (with_times (t_CreatedAt t2) now3 (t_CompletedAt t2) t2)) in *.
  assert (stored w3 id = Some t3) as Ht3 by (rewrite Hst3; unfold set_view; by rewrite decide_True).
  unfold Transition, mbind, act_bind. rewrite attempt_Ok. rewrite Hid2. cbn [fst snd].
  rewrite (Get_works w3 id t3 Hs Ht3). unfold transition_write, mbind, act_bind, lift.
  assert (ValidateTransition (t_Status t3) (if success then StatusCompleted else StatusFailed)
          = Err (EInvalidTransition StatusPending final)) as Hv.
  { change (t_Status t3) with (t_Status t2). rewrite Hst2. unfold final. by destruct success. }
  rewrite Hv.
  cbn [fst snd]. split; [done|]. exists t3. split; [exact Ht3|]. split; [done|]. by destruct success.
Qed.

(** Writing metadata to a task that was stored without any panics. *)
Lemma metadata_update_panics w id t u m :
  stores_work → stored w id = Some t → t_Metadata t = None → t_Metadata u = Some m → m ≠ ∅ →
  (handleUpdateTask id u w).1 = Err EPanic.
Proof.
  intros Hs Ht Hm Hu Hne. unfold handleUpdateTask, mbind, act_bind. rewrite (Get_works w id t Hs Ht), Hu.
  rewrite bool_decide_false by done. cbn [t_Metadata with_text]. by rewrite Hm.
Qed.
(** A task retried after a failure keeps the completion time of the failure. *)
Lemma retry_keeps_completion w id t :
  stores_work → wf w → stored w id = Some t → t_Status t = StatusFailed →
  let '(r, w') := Transition id StatusPending w in
  r = Ok tt ∧ ∃ t', stored w' id = Some t' ∧ t_Status t' = StatusPending ∧ t_CompletedAt t' = t_CompletedAt t.
Proof.
  intros Hs Hw Ht Hf. pose proof (Transition_cases w id StatusPending ltac:(by destruct Hs) Hw) as HT.
  pose proof (Transition_works w id t StatusPending Hs Hw Ht ltac:(by rewrite Hf)) as HW.
  destruct (Transition id StatusPending w) as [r w']. destruct HW as (->&_).
  destruct HT as (_&_&[(e&?&_)|(t'&u&d&_&Ht'&_&Hst)]); [done|]. simplify_eq. split; [done|]. eexists.
  split; [by rewrite Hst; unfold set_view; rewrite decide_True|]. done.
Qed.
End Laws.
End Local.

(** ** The service over backends *)

Section Service.
Context {W : Type}.

(** A backend answers the calls of [TaskBackend]; a plugin may register any. *)
Definition Backend : Type := call → act W TErr answer.
Record service := mkService {
  sv_backends : gmap string Backend;
  sv_local : option Backend;
}.
Definition BackendLocal : string := "local".
Definition NewService (local : option Backend) : service :=
  mkService (match local with Some b => {[BackendLocal := b]} | None => ∅ end) local.
(** [None]: the value does not implement the interface. *)
Definition RegisterBackend (name : string) (b : option Backend) (s : service) : service :=
  match b with None => s | Some b => mkService (<[name := b]> (sv_backends s)) (sv_local s) end.
Definition UnregisterBackend (name : string) (s : service) : bool * service :=
  if bool_decide (name = BackendLocal) then (false, s)
  else match sv_backends s !! name with
       | None => (false, s)
       | Some _ => (true, mkService (delete name (sv_backends s)) (sv_local s))
       end.
Definition active (settings : string) (s : service) : option Backend :=
  let name := if bool_decide (settings = "") then BackendLocal else settings in
  match sv_backends s !! name with Some b => Some b | None => sv_local s end.
(** A call of the service on a nil backend panics. *)
Definition serve (settings : string) (s : service) (c : call) : act W TErr answer :=
  match active settings s with Some b => b c | None => fail EPanic end.
Definition ListBySession (settings : string) (s : service) (sessionID : string) : act W TErr answer :=
  serve settings s (CList (mkFilter sessionID "" "")).
Definition ListByParent (settings : string) (s : service) (parentID : string) : act W TErr answer :=
  serve settings s (CList (mkFilter "" parentID "")).
Definition ListAll (settings : string) (s : service) : act W TErr answer := serve settings s (CList no_filter).
Definition CancelTask (settings : string) (s : service) (id : string) : act W TErr answer :=
  serve settings s (CTransition id StatusCanceled).
Definition ActiveBackendName (settings : string) (s : service) : string :=
  if bool_decide (settings = "") then BackendLocal
  else match sv_backends s !! settings with
       | Some _ => settings
       | None => settings +:+ " (unavailable, using local)"
       end.

Inductive registration :=
| SRegister (name : string) (b : option Backend)
| SUnregister (name : string).
Definition register_step (s : service) (r : registration) : service :=
  match r with
  | SRegister name b => RegisterBackend name b s
  | SUnregister name => (UnregisterBackend name s).2
  end.

Lemma register_keeps_local s r b : sv_local s = Some b → is_Some (sv_backends s !! BackendLocal) →
  sv_local (register_step s r) = Some b ∧ is_Some (sv_backends (register_step s r) !! BackendLocal).
Proof.
  intros Hl Hb. destruct r as [name [b'|]|name]; cbn; [|done|].
  - split; [done|]. rewrite lookup_insert_is_Some. by destruct (decide (name = BackendLocal)); auto.
  - unfold UnregisterBackend. case_bool_decide as Hn; [done|]. destruct (sv_backends s !! name); [|done]. cbn.
    split; [done|]. by rewrite lookup_delete_ne.
Qed.

(** Whatever plugins register and unregister, in any order, the service can serve
    every call: a backend named local is always there, a configured backend that is
    not registered is replaced by the built-in one, and so is one that was
    unregistered. *)
Theorem service_always_has_backend local rs settings name :
  let s := fold_left register_step rs (NewService (Some local)) in
  is_Some (sv_backends s !! BackendLocal) ∧ is_Some (active settings s) ∧
  (settings ≠ "" → sv_backends s !! settings = None → active settings s = Some local) ∧
  (name ≠ BackendLocal → name ≠ "" → active name (UnregisterBackend name s).2 = Some local).
Proof.
  intros s. assert (sv_local s = Some local ∧ is_Some (sv_backends s !! BackendLocal)) as [Hl Hb].
  { unfold s. assert (sv_local (NewService (Some local)) = Some local ∧ is_Some (sv_backends (NewService (Some local)) !! BackendLocal))
      as [H1 H2] by (split; [done|]; by eexists).
    revert H1 H2. generalize (NewService (Some local)) as s0. induction rs as [|r rs IH]; intros s0 H1 H2; cbn; [done|].
    destruct (register_keeps_local s0 r local H1 H2). by apply IH. }
  split; [done|]. unfold active. rewrite Hl. split; [|split].
  - destruct (sv_backends s !! (if bool_decide (settings = "") then BackendLocal else settings)); by eexists.
  - intros Hne Hn. rewrite bool_decide_false by done. by rewrite Hn.
  - intros Hnl Hne. rewrite (bool_decide_false (name = "")) by done. unfold UnregisterBackend.
    rewrite bool_decide_false by done. destruct (sv_backends s !! name) eqn:E; cbn; [by rewrite lookup_delete_eq|by rewrite E].
Qed.
(** The registration does not protect the name: a plugin can take it over, and then
    cannot be unregistered. *)
Lemma local_name_can_be_taken s b :
  active "local" (RegisterBackend "local" (Some b) s) = Some b ∧
  UnregisterBackend "local" (RegisterBackend "local" (Some b) s) = (false, RegisterBackend "local" (Some b) s).
Proof. split; [|done]. unfold active. cbn. by rewrite lookup_insert_eq. Qed.
End Service.

(** ** Worked examples *)

Module Example_tasks.
(** A codec that keeps a task as the JSON encoding would. *)
#[local] Instance codec : TaskCodec := {| Bytes := Task; Marshal t := t; Unmarshal b := Some (json_norm b) |}.
#[local] Instance laws : TaskCodecLaws.
Proof. by split. Qed.
Definition env : Env :=
  mkEnv (λ n, 1500000000 * Z.of_nat (S n)) (λ n, if bool_decide (n = 0)%nat then "t0" else "t1")
    (λ _, false) (λ _, false) true true.
Definition work : Task := mkTask "" "" "s1" "" "Title" "" "" "" "" "" 0 None 0 0 None.
Definition start : TW := mkTW ∅ ∅ 0.
(** A task that was created and started. *)
Definition working : TW := (track_start env work start).2.

Lemma uuid_utf8 n : utf8 (uuid_at env n).
Proof. cbn. by case_bool_decide. Qed.
Lemma works : stores_work env.
Proof. by repeat split. Qed.
Lemma text_work : text_ok work.
Proof. by split. Qed.
Lemma start_wf : wf start.
Proof. intros id b. cbn. by rewrite lookup_empty. Qed.
Lemma working_wf : wf working.
Proof.
  pose proof (Create_works env work start works uuid_utf8 start_wf text_work eq_refl) as HC.
  unfold working, track_start, mbind, act_bind. destruct (Create env work start) as [r w1]. destruct HC as (now&->&Hw&_).
  rewrite attempt_Ok. cbn [snd mret act_ret].
  pose proof (Transition_cases env w1 (t_ID (created (uuid_at env (tick start)) now work)) StatusInProgress eq_refl Hw) as HT.
  destruct (Transition env _ StatusInProgress w1) as [r w']. by destruct HT.
Qed.
Definition working_task : Task :=
  mkTask "t0" "" "s1" "" "Title" "" StatusInProgress "" "" "" 0 None 3000000000 7500000000 None.
Lemma working_stored : stored working "t0" = Some working_task.
Proof. by vm_compute. Qed.
Lemma working_rows : rows_fit working.
Proof. intros id r Hr. assert (rows working = ∅) as Hn by by vm_compute. by rewrite Hn, lookup_empty in Hr. Qed.

Example transition_table :
  ValidateTransition StatusFailed StatusPending = Ok tt ∧
  ValidateTransition "stuck" StatusPending = Err (EUnknownStatus "stuck") ∧
  (run_call env (CTransition "t0" StatusPending) working).1 = Err (EInvalidTransition StatusInProgress StatusPending) ∧
  (run_call env (CGet "t9") working).1 = Err (EGet "t9" ENotFound).
Proof. by vm_compute. Qed.

Lemma local_backend_refines_map_witness :
  let '(r, w') := run_call env (CTransition "t0" StatusCompleted) working in
  wf w' ∧ ∃ m', (∀ id, stored w' id = m' id) ∧ spec (stored working) (CTransition "t0" StatusCompleted) r m'.
Proof. exact (local_backend_refines_map env (CTransition "t0" StatusCompleted) working eq_refl uuid_utf8 I working_wf). Defined.
Lemma final_states_are_final_witness :
  let w := (run_call env (CTransition "t0" StatusCompleted) working).2 in
  ∃ t', stored (fold_left (λ w c, (run_call env c w).2)
          [CTransition "t0" StatusPending; CAssign "t0" "a" "b"; CTransition "t0" StatusCanceled] w) "t0" = Some t'
        ∧ t_Status t' = StatusCompleted.
Proof.
  destruct (stored (run_call env (CTransition "t0" StatusCompleted) working).2 "t0") as [t|] eqn:Ht; [|by vm_compute in Ht].
  assert (t_Status t = StatusCompleted) as Hs by (vm_compute in Ht; by simplify_eq).
  destruct (final_states_are_final env
    [CTransition "t0" StatusPending; CAssign "t0" "a" "b"; CTransition "t0" StatusCanceled]
    (run_call env (CTransition "t0" StatusCompleted) working).2 "t0" t) as (t'&Ht'&Hs').
  - done.
  - apply uuid_utf8.
  - exact (run_call_wf env (CTransition "t0" StatusCompleted) working eq_refl uuid_utf8 I working_wf).
  - by repeat constructor; vm_compute.
  - exact Ht.
  - by left.
  - exists t'. split; [exact Ht'|]. by rewrite Hs'.
Defined.
(** The task is created and started, copied, deleted, copied again: its row stays. *)
Definition deleted : TW := (Delete env "t0" (Snapshot env working).2).2.
Lemma deleted_wf : wf deleted.
Proof.
  pose proof (snapshot_rows env working works working_wf) as HS. unfold deleted. destruct (Snapshot env working) as [r1 w1].
  destruct HS as (_&Hkv&_). destruct (view_eq working w1 Hkv working_wf) as [Hw _]. cbn [snd].
  pose proof (delete_refines env "t0" w1 eq_refl Hw) as HD. destruct (Delete env "t0" w1). by destruct HD.
Qed.
Lemma deleted_rows_ok : rows_ok deleted.
Proof.
  assert (rows deleted = rows (Snapshot env working).2) as Hr by by vm_compute. unfold rows_ok. rewrite Hr.
  apply (snapshot_rows_ok env working works working_wf). intros id r.
  assert (rows working = ∅) as -> by by vm_compute. by rewrite lookup_empty.
Qed.
Lemma snapshot_restore_round_trip_witness :
  let '(r1, w1) := Snapshot env deleted in
  let '(r2, w2) := Restore env (mkTW ∅ (rows w1) (tick w1)) in
  r1 = Ok tt ∧ r2 = Ok tt ∧ rows_ok w1 ∧ wf w2 ∧
  (∀ id t, stored deleted id = Some t → stored w2 id = brought_back (rows deleted !! id) t) ∧
  (∀ id, stored deleted id = None → stored w2 id = (r ← rows deleted !! id; revived r)) ∧
  (rows_fit deleted → ∀ id, stored w2 id = (t ← stored deleted id; if IsTerminal t then None else Some (whole_seconds t))).
Proof. exact (snapshot_restore_round_trip env deleted works deleted_wf deleted_rows_ok). Defined.
Example deleted_task_comes_back :
  stored working "t0" = Some working_task ∧ stored deleted "t0" = None ∧
  let w1 := (Snapshot env deleted).2 in
  stored (Restore env (mkTW ∅ (rows w1) (tick w1))).2 "t0" = Some (whole_seconds working_task).
Proof. by vm_compute. Qed.
Lemma restore_undoes_completion_witness :
  let '(r1, w1) := Snapshot env working in
  let '(r2, w2) := Transition env "t0" StatusCompleted w1 in
  let '(r3, w3) := Restore env w2 in
  r1 = Ok tt ∧ r2 = Ok tt ∧ r3 = Ok tt ∧
  t_Status <$> stored w2 "t0" = Some StatusCompleted ∧ stored w3 "t0" = Some (whole_seconds working_task).
Proof. exact (restore_undoes_completion env working "t0" working_task works working_wf working_rows working_stored eq_refl). Defined.
Lemma racing_transitions_both_succeed_witness :
  let '(g1, w1) := Get env "t0" working in
  let '(g2, w2) := Get env "t0" w1 in
  let '(r1, w3) := transition_write env working_task StatusCompleted w2 in
  let '(r2, w4) := transition_write env working_task StatusCanceled w3 in
  g1 = Ok working_task ∧ g2 = Ok working_task ∧ r1 = Ok tt ∧ r2 = Ok tt ∧
  t_Status <$> stored w3 "t0" = Some StatusCompleted ∧ t_Status <$> stored w4 "t0" = Some StatusCanceled ∧
  ValidateTransition StatusCompleted StatusCanceled = Err (EInvalidTransition StatusCompleted StatusCanceled).
Proof. exact (racing_transitions_both_succeed env working "t0" working_task works working_wf working_stored eq_refl). Defined.
Lemma delegated_task_left_pending_witness :
  let '(r, w') := track env work true "done" "" 12 start in
  r = Ok (Err (EInvalidTransition StatusPending StatusCompleted)) ∧
  ∃ t', stored w' (uuid_at env (tick start)) = Some t' ∧ t_Status t' = StatusPending ∧ t_Result t' = "done".
Proof.
  exact (delegated_task_left_pending env work start true "done" "" 12 works uuid_utf8 start_wf text_work
           eq_refl eq_refl eq_refl eq_refl).
Defined.
Lemma service_always_has_backend_witness :
  let b : Backend := run_call env in
  let s := fold_left register_step [SRegister "linear" (Some b); SUnregister "local"; SUnregister "linear"] (NewService (Some b)) in
  is_Some (sv_backends s !! BackendLocal) ∧ is_Some (active "linear" s) ∧
  ("linear" ≠ "" → sv_backends s !! "linear" = None → active "linear" s = Some b) ∧
  ("linear" ≠ BackendLocal → "linear" ≠ "" → active "linear" (UnregisterBackend "linear" s).2 = Some b).
Proof. exact (service_always_has_backend _ _ "linear" "linear"). Defined.
End Example_tasks.
