(* ===== verification/Lifecycle.v ===== *)
(** * Tracked goroutines

    [internal/lifecycle]: a manager admits goroutines until it is shut down; a
    shutdown closes it, cancels what runs and waits for all of it. *)

From S2P Require Import Prelude.

Set Default Proof Using "Type*".

(** ** Tracked goroutines *)

(** [active]: the goroutines admitted and not finished; [waiting]: the calls of
    [Shutdown] that have closed the manager and wait. *)
Record manager := mkManager {
  closed : bool;
  active : nat;
  waiting : nat;
}.
Definition NewManager : manager := mkManager false 0 0.

(** What happens to a manager: [Go] is one action under the admission mutex, and so is
    the closing of [Shutdown]; a goroutine finishes; a [Shutdown] returns nil when its
    wait is over, or gives up. *)
Inductive event :=
| Go (admitted : bool)
| Finish
| Close
| Drained
| TimedOut.
Inductive step : manager → event → manager → Prop :=
| step_go_closed m : closed m = true → step m (Go false) m
| step_go m : closed m = false → step m (Go true) (mkManager false (S (active m)) (waiting m))
| step_finish m n : active m = S n → step m Finish (mkManager (closed m) n (waiting m))
| step_close m : step m Close (mkManager true (active m) (S (waiting m)))
| step_drained m n : waiting m = S n → active m = 0%nat → step m Drained (mkManager (closed m) (active m) n)
| step_timeout m n : waiting m = S n → active m ≠ 0%nat → step m TimedOut (mkManager (closed m) (active m) n).

Lemma closed_stays m evs m' : steps step m evs m' → closed m = true →
  closed m' = true ∧ (active m' ≤ active m)%nat ∧ Go true ∉ evs.
Proof.
  induction 1 as [m|m e m1 evs m2 Hs Hr IH]; intros Hc; [split_and!; [done|done|apply not_elem_of_nil]|].
  assert (closed m1 = true ∧ (active m1 ≤ active m)%nat ∧ Go true ≠ e) as (Hc1&Ha1&He).
  { destruct Hs; cbn; try (split_and!; [done|lia|done]). congruence. }
  destruct (IH Hc1) as (?&?&?). split_and!; [done|lia|]. by apply not_elem_of_cons.
Qed.
Lemma waiting_closed m evs m' : steps step m evs m' → (waiting m ≠ 0%nat → closed m = true) →
  waiting m' ≠ 0%nat → closed m' = true.
Proof.
  induction 1 as [m|m e m1 evs m2 Hs Hr IH]; intros Hc; [done|]. apply IH.
  destruct Hs as [|m Hcl| | | |]; cbn in *; try done; intros Hw0; try (apply Hc; lia).
  specialize (Hc Hw0). congruence.
Qed.

(** A shutdown that reports success has waited for everything.  Whatever
    goroutines are started and finish and however many shutdowns run at once, when one
    returns without error no tracked goroutine is running, and none starts or runs
    after it. *)
Theorem shutdown_drains evs m m' rest m'' :
  steps step NewManager evs m →
  step m Drained m' →
  steps step m' rest m'' →
  active m' = 0%nat ∧ active m'' = 0%nat ∧ Go true ∉ rest.
Proof.
  intros Hrun Hd Hrest. inversion Hd as [| | | |m0 n Hw Ha Hm|]; subst.
  assert (closed m = true) as Hc.
  { eapply waiting_closed; [exact Hrun|done|]. rewrite Hw. done. }
  destruct (closed_stays _ _ _ Hrest Hc) as (_&Hle&Hgo). cbn in *. split_and!; [done|lia|done].
Qed.

(** ** A worked example *)

Lemma shutdown_drains_witness :
  active (mkManager true 0 0) = 0%nat ∧ active (mkManager true 0 0) = 0%nat
  ∧ Go true ∉ [Go false].
Proof.
  apply (shutdown_drains [Go true; Close; Finish] (mkManager true 0 1)).
  - eapply steps_cons; [by apply step_go|]. eapply steps_cons; [apply step_close|].
    eapply steps_cons; [by eapply step_finish|apply steps_nil].
  - by apply (step_drained (mkManager true 0 1) 0).
  - eapply steps_cons; [by apply step_go_closed|apply steps_nil].
Defined.
