(* ===== verification/Workers.v ===== *)
(** * Workers

    [internal/worker]: workers that run delegated work, at most so many at once, while
    callers cancel them, reap the stale ones and shut the manager down.

    The manager's calls run at the same time.  A call is a program counter; a step of
    the system is one action of one call on what they share: the semaphore, the map of
    workers, a worker's fields (behind its mutex), the retention goroutines.
    The work itself ([DelegateTask], [Execute], the worktrees) is its outcome. *)

From S2P Require Import Prelude GoStrings.

Open Scope string_scope.
Open Scope Z_scope.
Set Default Proof Using "Type*".

(** ** Workers *)

Inductive Status :=
| StatusSpawning
| StatusRunning
| StatusCompleted
| StatusFailed
| StatusCanceled.
#[global] Instance Status_eq_dec : EqDecision Status.
Proof. solve_decision. Defined.

Record Worker := mkWorker {
  w_ParentSessionID : string;
  w_SessionID : string;
  w_TaskID : string;
  w_AgentID : string;
  w_Status : Status;
  w_WorktreePath : string;
  w_ctx_canceled : bool;
}.
Definition SetStatus (s : Status) (w : Worker) : Worker :=
  mkWorker (w_ParentSessionID w) (w_SessionID w) (w_TaskID w) (w_AgentID w) s (w_WorktreePath w) (w_ctx_canceled w).
Definition SetSessionID (i : string) (w : Worker) : Worker :=
  mkWorker (w_ParentSessionID w) i (w_TaskID w) (w_AgentID w) (w_Status w) (w_WorktreePath w) (w_ctx_canceled w).
Definition SetWorktreePath (p : string) (w : Worker) : Worker :=
  mkWorker (w_ParentSessionID w) (w_SessionID w) (w_TaskID w) (w_AgentID w) (w_Status w) p (w_ctx_canceled w).
Definition cancel_ctx (w : Worker) : Worker :=
  mkWorker (w_ParentSessionID w) (w_SessionID w) (w_TaskID w) (w_AgentID w) (w_Status w) (w_WorktreePath w) true.

Record SpawnRequest := mkSpawn {
  sp_ParentSessionID : string;
  sp_AgentID : string;
  sp_Isolation : string;
  sp_TaskID : string;
}.
(** What [DelegateTask] returns: an error, or a result that succeeded or not. *)
Inductive Delegation :=
| DelegErr
| DelegResult (session : string) (success : bool).
Definition outcome_status (d : Delegation) : Status :=
  match d with
  | DelegResult _ true => StatusCompleted
  | _ => StatusFailed
  end.

(** Where a call of the manager stands. *)
Inductive pc :=
(* SpawnFull *)
| PWaiting (req : SpawnRequest)
| PAcquired (req : SpawnRequest)
| PSpawning (id : string) (req : SpawnRequest)
| PReady (id : string)
| PRunning (id : string)
| PReturned (id : string) (d : Delegation)
| PDecided (id : string) (s : Status)
| PSettled (id : string)
| PReleased (id : string)
| PAborting (id : string)
(* SpawnLight *)
| LWaiting
| LExecuting
(* ReapStale: the workers still to look at, and the stale ones found *)
| RScan (todo found : list string)
(* Cancel; [reap] is the rest of the stale workers when the call is ReapStale's *)
| CLoad (id : string) (reap : option (list string))
| CSet (id : string) (reap : option (list string))
| CTask (id : string) (reap : option (list string))
(* Shutdown: the workers it has still to visit *)
| HVisit (ids : list string)
(* returned; the flag is that of an error *)
| PDone (failed : bool).

(** What the calls share.  [heap] holds the workers, [live] is the map
    [Manager.workers], [timers] the retention goroutines that have not fired,
    [beats] the heartbeats of the coordination store ([None] for one that does not
    decode); [hasWorktrees] says whether the manager has worktrees. *)
Record system := mkSystem {
  max : nat;
  sem : nat;
  heap : gmap string Worker;
  live : gset string;
  timers : list string;
  shut : bool;
  hasWorktrees : bool;
  tasks_canceled : list string;
  beats : gmap string (option Z);
  procs : list pc;
}.
Definition with_procs (p : list pc) (s : system) : system :=
  mkSystem (max s) (sem s) (heap s) (live s) (timers s) (shut s) (hasWorktrees s) (tasks_canceled s) (beats s) p.
Definition with_sem (n : nat) (s : system) : system :=
  mkSystem (max s) n (heap s) (live s) (timers s) (shut s) (hasWorktrees s) (tasks_canceled s) (beats s) (procs s).
Definition with_heap (h : gmap string Worker) (s : system) : system :=
  mkSystem (max s) (sem s) h (live s) (timers s) (shut s) (hasWorktrees s) (tasks_canceled s) (beats s) (procs s).
Definition with_live (l : gset string) (s : system) : system :=
  mkSystem (max s) (sem s) (heap s) l (timers s) (shut s) (hasWorktrees s) (tasks_canceled s) (beats s) (procs s).
Definition with_timers (t : list string) (s : system) : system :=
  mkSystem (max s) (sem s) (heap s) (live s) t (shut s) (hasWorktrees s) (tasks_canceled s) (beats s) (procs s).
Definition with_shut (s : system) : system :=
  mkSystem (max s) (sem s) (heap s) (live s) (timers s) true (hasWorktrees s) (tasks_canceled s) (beats s) (procs s).
Definition with_canceled (id : string) (s : system) : system :=
  mkSystem (max s) (sem s) (heap s) (live s) (timers s) (shut s) (hasWorktrees s) (id :: tasks_canceled s) (beats s) (procs s).
Definition with_beats (b : gmap string (option Z)) (s : system) : system :=
  mkSystem (max s) (sem s) (heap s) (live s) (timers s) (shut s) (hasWorktrees s) (tasks_canceled s) b (procs s).
(** A field of a worker is changed under its mutex. *)
Definition alter_worker (id : string) (f : Worker → Worker) (s : system) : system :=
  with_heap (alter f id (heap s)) s.
Definition status_of (s : system) (id : string) : option Status := w_Status <$> heap s !! id.

Definition NewManager (MaxConcurrentWorkers : Z) (worktrees : bool) : system :=
  mkSystem (Z.to_nat (if MaxConcurrentWorkers <=? 0 then 5 else MaxConcurrentWorkers)) 0 ∅ ∅ [] false worktrees [] ∅ [].

(** Whether [ReapStale] takes a worker for stale: it runs, and its heartbeat is
    missing or older than the threshold. *)
Definition stale (s : system) (threshold now : Z) (id : string) : bool :=
  bool_decide (id ∈ live s) && bool_decide (status_of s id = Some StatusRunning) &&
  match beats s !! id with
  | None => true
  | Some None => false
  | Some (Some t) => threshold <? now - t
  end.
(** After a cancellation: the call's return, or the next stale worker. *)
Definition after_cancel (failed : bool) (reap : option (list string)) : pc :=
  match reap with
  | None => PDone failed
  | Some [] => PDone false
  | Some (id :: ids) => CLoad id (Some ids)
  end.

(** One action of a call at its program counter: what it leaves and where it goes.
    [SpawnFull]: the slot, the worker, its isolation, the delegation, the outcome, the
    release and the retention. *)
Inductive SpawnFull (s : system) : pc → system → pc → Prop :=
| act_acquire req : (sem s < max s)%nat → SpawnFull s (PWaiting req) (with_sem (S (sem s)) s) (PAcquired req)
| act_give_up req : SpawnFull s (PWaiting req) s (PDone true)
| act_store req id :
    heap s !! id = None →
    SpawnFull s (PAcquired req)
      (with_live ({[id]} ∪ live s)
        (with_heap (<[id := mkWorker (sp_ParentSessionID req) "" (sp_TaskID req) (sp_AgentID req) StatusSpawning "" false]> (heap s)) s))
      (PSpawning id req)
| act_no_isolation id req : sp_Isolation req ≠ "worktree" → SpawnFull s (PSpawning id req) s (PReady id)
| act_isolated id req path :
    sp_Isolation req = "worktree" → hasWorktrees s = true →
    SpawnFull s (PSpawning id req) (alter_worker id (SetWorktreePath path) s) (PReady id)
| act_isolation_fails id req :
    sp_Isolation req = "worktree" →
    SpawnFull s (PSpawning id req) (with_sem (pred (sem s)) s) (PAborting id)
| act_abort id :
    SpawnFull s (PAborting id) (with_live (live s ∖ {[id]}) (alter_worker id cancel_ctx s)) (PDone true)
| act_run id : SpawnFull s (PReady id) (alter_worker id (SetStatus StatusRunning) s) (PRunning id)
| act_delegate_err id : SpawnFull s (PRunning id) s (PReturned id DelegErr)
| act_delegate id session ok :
    SpawnFull s (PRunning id) (alter_worker id (SetSessionID session) s) (PReturned id (DelegResult session ok))
| act_see_canceled id d : status_of s id = Some StatusCanceled → SpawnFull s (PReturned id d) s (PSettled id)
| act_see_active id d : status_of s id ≠ Some StatusCanceled → SpawnFull s (PReturned id d) s (PDecided id (outcome_status d))
| act_settle id st : SpawnFull s (PDecided id st) (alter_worker id (SetStatus st) s) (PSettled id)
| act_release id : SpawnFull s (PSettled id) (alter_worker id cancel_ctx (with_sem (pred (sem s)) s)) (PReleased id)
| act_retain id : shut s = false → SpawnFull s (PReleased id) (with_timers (id :: timers s) s) (PDone false)
| act_no_retention id : shut s = true → SpawnFull s (PReleased id) s (PDone false).
(** [SpawnLight]: a slot for one tool call. *)
Inductive SpawnLight (s : system) : pc → system → pc → Prop :=
| act_light_acquire : (sem s < max s)%nat → SpawnLight s LWaiting (with_sem (S (sem s)) s) LExecuting
| act_light_give_up : SpawnLight s LWaiting s (PDone true)
| act_light_done : SpawnLight s LExecuting (with_sem (pred (sem s)) s) (PDone false).
(** [Cancel], also as the calls [ReapStale] makes. *)
Inductive Cancel_action (s : system) : pc → system → pc → Prop :=
| act_cancel_missing id reap : id ∉ live s → Cancel_action s (CLoad id reap) s (after_cancel true reap)
| act_cancel_load id reap : id ∈ live s → Cancel_action s (CLoad id reap) (alter_worker id cancel_ctx s) (CSet id reap)
| act_cancel_set id reap : Cancel_action s (CSet id reap) (alter_worker id (SetStatus StatusCanceled) s) (CTask id reap)
| act_cancel_task id reap w :
    heap s !! id = Some w →
    Cancel_action s (CTask id reap) (if bool_decide (w_TaskID w = "") then s else with_canceled (w_TaskID w) s)
      (after_cancel false reap).
(** [ReapStale]: the look at every worker, then the cancellations. *)
Inductive ReapStale (s : system) : pc → system → pc → Prop :=
| act_scan id todo found threshold now :
    ReapStale s (RScan (id :: todo) found) s
      (RScan todo (if stale s threshold now id then found ++ [id] else found)%list)
| act_scanned found : ReapStale s (RScan [] found) s (after_cancel false (Some found))
| act_reap_unavailable todo : ReapStale s (RScan todo []) s (PDone false).
(** [Shutdown]: every worker canceled, then the lifecycle closed. *)
Inductive Shutdown_action (s : system) : pc → system → pc → Prop :=
| act_shutdown_visit id ids :
    Shutdown_action s (HVisit (id :: ids))
      (if bool_decide (id ∈ live s) then alter_worker id (λ w, SetStatus StatusCanceled (cancel_ctx w)) s else s) (HVisit ids)
| act_shutdown_close : Shutdown_action s (HVisit []) (with_shut s) (PDone false).
Inductive action (s : system) (c : pc) (s' : system) (c' : pc) : Prop :=
| in_spawn (H : SpawnFull s c s' c')
| in_light (H : SpawnLight s c s' c')
| in_cancel (H : Cancel_action s c s' c')
| in_reap (H : ReapStale s c s' c')
| in_shutdown (H : Shutdown_action s c s' c').
Ltac actions Ha := destruct Ha as [Ha|Ha|Ha|Ha|Ha]; destruct Ha.

(** The calls that may begin. *)
Definition initial (c : pc) : Prop :=
  match c with
  | PWaiting _ | LWaiting | CLoad _ None | RScan _ [] | HVisit _ => True
  | _ => False
  end.
Inductive label :=
| Begin
| Act (i : nat)
| Fire (id : string)
| Beat (id : string).
(** A call begins, a call takes its next action, a retention timer fires (its 30
    seconds are over, or the lifecycle was canceled), a heartbeat is written or
    expires. *)
Inductive step : system → label → system → Prop :=
| step_begin s c : initial c → step s Begin (with_procs (procs s ++ [c])%list s)
| step_act s i c s' c' :
    procs s !! i = Some c → action s c s' c' → step s (Act i) (with_procs (<[i := c']> (procs s')) s')
| step_fire s id l k :
    timers s = (l ++ id :: k)%list → step s (Fire id) (with_timers (l ++ k)%list (with_live (live s ∖ {[id]}) s))
| step_beat s id o : step s (Beat id) (with_beats (partial_alter (λ _, o) id (beats s)) s).

(** ** Who holds what *)

(** The call holds a slot of the semaphore. *)
Definition holds (c : pc) : bool :=
  match c with
  | PAcquired _ | PSpawning _ _ | PReady _ | PRunning _ | PReturned _ _ | PDecided _ _ | PSettled _ | LExecuting => true
  | _ => false
  end.
Definition aborting (c : pc) : bool := match c with PAborting _ => true | _ => false end.
(** The worker whose life the call drives. *)
Definition owner (c : pc) : option string :=
  match c with
  | PSpawning id _ | PReady id | PRunning id | PReturned id _ | PDecided id _ | PSettled id | PReleased id | PAborting id => Some id
  | _ => None
  end.
(** The worker the call keeps spawning or running. *)
Definition working (c : pc) : option string :=
  match c with
  | PSpawning id _ | PReady id | PRunning id | PReturned id _ | PDecided id _ | PAborting id => Some id
  | _ => None
  end.
Definition is_active (st : Status) : bool :=
  match st with StatusSpawning | StatusRunning => true | _ => false end.
Definition active_worker (s : system) (id : string) : bool :=
  match status_of s id with Some st => is_active st | None => false end.
(** [ActiveCount]. *)
Definition ActiveCount (s : system) : nat := length (List.filter (active_worker s) (elements (live s))).

Definition has (f : pc → option string) (id : string) (l : list pc) : Prop := ∃ c, c ∈ l ∧ f c = Some id.

Record inv (s : system) : Prop := {
  inv_sem : sem s = count holds (procs s);
  inv_max : (sem s ≤ max s)%nat;
  inv_heap : ∀ id, id ∈ live s ∨ has owner id (procs s) → is_Some (heap s !! id);
  inv_active : ∀ id, id ∈ live s → active_worker s id = true → has working id (procs s);
  inv_live : ∀ id, id ∈ live s → has owner id (procs s) ∨ id ∈ timers s ∨ shut s = true;
  inv_decided : ∀ id st, PDecided id st ∈ procs s → is_active st = false;
  inv_cancels : ∀ id r, CSet id r ∈ procs s ∨ CTask id r ∈ procs s → is_Some (heap s !! id);
}.

Lemma count_cons (P : pc → bool) x l : count P (x :: l) = ((if P x then 1 else 0) + count P l)%nat.
Proof. unfold count. cbn. by destruct (P x). Qed.
Lemma count_insert (P : pc → bool) l i c c' :
  l !! i = Some c → (count P (<[i:=c']> l) + (if P c then 1 else 0) = count P l + (if P c' then 1 else 0))%nat.
Proof.
  revert i. induction l as [|x l IH]; intros [|i]; cbn [lookup list_lookup]; try done.
  - intros [= ->]. change (<[0%nat:=c']> (c :: l)) with (c' :: l). rewrite !count_cons. lia.
  - intros Hi. specialize (IH i Hi). change (<[S i:=c']> (x :: l)) with (x :: <[i:=c']> l). rewrite !count_cons. lia.
Qed.
Lemma elem_insert (l : list pc) i c' x : x ∈ <[i:=c']> l → x = c' ∨ x ∈ l.
Proof.
  intros [j Hj]%list_elem_of_lookup. destruct (decide (i = j)) as [->|Hne].
  - apply list_lookup_insert_Some in Hj as [(_&->&_)|(?&_)]; [by left|done].
  - rewrite list_lookup_insert_ne in Hj by done. right. by eapply list_elem_of_lookup_2.
Qed.
Lemma elem_insert_other (l : list pc) i c c' x : l !! i = Some c → x ∈ l → x ≠ c → x ∈ <[i:=c']> l.
Proof.
  intros Hi [j Hj]%list_elem_of_lookup Hne. apply list_elem_of_lookup. exists j.
  rewrite list_lookup_insert_ne; [done|]. intros ->. by rewrite Hi in Hj; simplify_eq.
Qed.
Lemma elem_insert_new (l : list pc) i c c' : l !! i = Some c → c' ∈ <[i:=c']> l.
Proof. intros Hi. apply list_elem_of_lookup. exists i. apply list_lookup_insert_eq. by eapply lookup_lt_Some. Qed.
Lemma has_insert f id (l : list pc) i c c' : l !! i = Some c → has f id l → (f c ≠ Some id ∨ f c' = Some id) → has f id (<[i:=c']> l).
Proof.
  intros Hi (x&Hx&Hf) [Hne|Hc'].
  - exists x. split; [|done]. eapply elem_insert_other; [done|done|]. intros ->. done.
  - exists c'. split; [by eapply elem_insert_new|done].
Qed.
Lemma has_insert_inv f id (l : list pc) i c' : has f id (<[i:=c']> l) → f c' = Some id ∨ has f id l.
Proof. intros (x&Hx&Hf). apply elem_insert in Hx as [->|Hx]; [by left|right; by exists x]. Qed.
Lemma has_app f id (l k : list pc) : has f id (l ++ k)%list ↔ has f id l ∨ has f id k.
Proof. unfold has. split; [intros (x&Hx&Hf); rewrite elem_of_app in Hx; naive_solver|]. setoid_rewrite elem_of_app. naive_solver. Qed.

Lemma status_alter s id f id' : status_of (alter_worker id f s) id' =
  if decide (id' = id) then (w_Status ∘ f) <$> heap s !! id else status_of s id'.
Proof.
  unfold status_of, alter_worker. cbn. case_decide as Hd.
  - subst. rewrite lookup_alter_eq. by destruct (heap s !! id).
  - by rewrite lookup_alter_ne.
Qed.
Lemma heap_alter_is_Some s id f id' : is_Some (heap (alter_worker id f s) !! id') ↔ is_Some (heap s !! id').
Proof. unfold alter_worker. cbn. apply lookup_alter_is_Some. Qed.

(** A change of a worker that leaves its status alone. *)
Lemma active_alter_same s id f id' : (∀ w, w_Status (f w) = w_Status w) →
  active_worker (alter_worker id f s) id' = active_worker s id'.
Proof.
  intros Hf. unfold active_worker. rewrite status_alter. case_decide as Hd; [|done]. subst. unfold status_of.
  destruct (heap s !! id); cbn; [by rewrite Hf|done].
Qed.
Lemma active_alter_final s id f id' : (∀ w, is_active (w_Status (f w)) = false) →
  active_worker (alter_worker id f s) id' = true → id' ≠ id ∧ active_worker s id' = true.
Proof.
  intros Hf. unfold active_worker. rewrite status_alter. case_decide as Hd; [|done]. subst.
  destruct (heap s !! id); cbn; [by rewrite Hf|done].
Qed.

Lemma inv_begin s c : inv s → initial c → inv (with_procs (procs s ++ [c])%list s).
Proof.
  intros [] Hc. split; cbn [procs sem max heap live timers shut with_procs] in *; try done.
  - rewrite count_app, (count_cons holds c []), count_nil. destruct c; try done; cbn; lia.
  - intros id [Hl|Ho]; apply inv_heap0; [by left|]. apply has_app in Ho as [Ho|(x&Hx%list_elem_of_singleton&Hf)]; [by right|].
    subst x. by destruct c.
  - intros id Hl Ha. apply has_app. left. by apply inv_active0.
  - intros id Hl. rewrite has_app. destruct (inv_live0 id Hl) as [?|?]; auto.
  - intros id st. rewrite elem_of_app, list_elem_of_singleton. intros [?|<-]; [by eapply inv_decided0|done].
  - intros id r. rewrite !elem_of_app, !list_elem_of_singleton. intros [[?|<-]|[?|<-]]; try done; apply (inv_cancels0 id r); auto.
Qed.

Lemma holds_after failed reap : holds (after_cancel failed reap) = false.
Proof. by destruct reap as [[|]|]. Qed.
Lemma owner_after failed reap : owner (after_cancel failed reap) = None.
Proof. by destruct reap as [[|]|]. Qed.
Lemma working_after failed reap : working (after_cancel failed reap) = None.
Proof. by destruct reap as [[|]|]. Qed.

(** What an action does to the rest of the system. *)
Lemma act_frame s c s' c' : action s c s' c' → (holds c = true → 1 ≤ sem s)%nat →
  procs s' = procs s ∧ max s' = max s ∧
  (sem s' + (if holds c then 1 else 0) = sem s + (if holds c' then 1 else 0))%nat ∧
  (sem s ≤ max s → sem s' ≤ max s')%nat.
Proof.
  intros Ha Hh. actions Ha; rewrite ?holds_after; try case_bool_decide; cbn in *;
    try specialize (Hh eq_refl); split_and!; try done; try lia.
Qed.
(** Workers are never removed from the heap, and the map grows by the worker a call
    creates only. *)
Lemma act_heap s c s' c' id : action s c s' c' → is_Some (heap s !! id) → is_Some (heap s' !! id).
Proof.
  intros Ha Hid. actions Ha; try case_bool_decide; cbn; try done; try (by apply heap_alter_is_Some);
    try (by apply lookup_alter_is_Some).
  apply lookup_insert_is_Some. by destruct (decide (id0 = id)); auto.
Qed.
Lemma act_owner s c s' c' id : action s c s' c' → owner c' = Some id → owner c = Some id ∨ is_Some (heap s' !! id).
Proof.
  intros Ha. actions Ha; rewrite ?owner_after; cbn; try done; try (intros [= ->]; by left).
  intros [= ->]. right. by rewrite lookup_insert_eq.
Qed.
Lemma act_live s c s' c' id : action s c s' c' → id ∈ live s' → id ∈ live s ∨ (owner c' = Some id ∧ working c' = Some id).
Proof.
  intros Ha. actions Ha; try case_bool_decide; cbn; try (by left); try set_solver.
Qed.
Lemma act_released s c s' c' id : action s c s' c' → owner c = Some id → owner c' ≠ Some id →
  id ∉ live s' ∨ id ∈ timers s' ∨ shut s' = true.
Proof.
  intros Ha. actions Ha; cbn; try done; try (intros [= ->] ?; try done); set_solver.
Qed.
Lemma act_shared s c s' c' : action s c s' c' →
  (∀ id, id ∈ timers s → id ∈ timers s') ∧ (shut s = true → shut s' = true).
Proof. intros Ha. actions Ha; try case_bool_decide; cbn; split; try done; set_solver. Qed.
Lemma active_alter_other s id f id' : id' ≠ id → active_worker (alter_worker id f s) id' = active_worker s id'.
Proof. intros Hne. unfold active_worker. rewrite status_alter. by rewrite decide_False. Qed.
Lemma canceled_inactive s id : status_of s id = Some StatusCanceled → active_worker s id = false.
Proof. unfold active_worker. by intros ->. Qed.

(** A worker that counts as active is the business of a call: the action leaves it to
    the call it belongs to. *)
Lemma act_active s c s' c' id :
  action s c s' c' → (∀ id st, c = PDecided id st → is_active st = false) →
  id ∈ live s' → active_worker s' id = true →
  working c' = Some id ∨ (id ∈ live s ∧ active_worker s id = true ∧ working c ≠ Some id).
Proof.
  intros Ha Hd. actions Ha; try case_bool_decide; rewrite ?working_after; cbn [live with_live with_heap with_sem with_timers with_shut with_canceled alter_worker working];
    intros Hl Hact; try (destruct (decide (id0 = id)) as [->|Hne]; [by left|]); right;
    repeat (rewrite active_alter_same in Hact by done); repeat (rewrite active_alter_other in Hact by congruence);
    try (apply active_alter_final in Hact as [Hne Hact]; [|intros; cbn; first [done|by eapply Hd]]);
    try (split_and!; [first [done|set_solver]|exact Hact|congruence]).
  - (* the worker that was just stored *)
    split_and!; [set_solver| |done]. revert Hact. unfold active_worker, status_of. cbn. by rewrite lookup_insert_ne.
  - (* the call that aborts takes its worker out of the map *)
    split_and!; [set_solver| |set_solver]. revert Hact.
    change (active_worker (with_live _ ?s0) id) with (active_worker s0 id). by rewrite active_alter_same.
  - (* a worker seen canceled is not active *)
    split_and!; [done|done|]. intros [= ->]. by rewrite (canceled_inactive s id) in Hact.
Qed.

Lemma inv_act s i c s' c' :
  inv s → procs s !! i = Some c → action s c s' c' → inv (with_procs (<[i := c']> (procs s')) s').
Proof.
  intros Hinv Hi Ha.
  assert (holds c = true → 1 ≤ sem s)%nat as Hh.
  { intros Hc. rewrite (inv_sem s Hinv). pose proof (count_insert holds (procs s) i c (PDone false) Hi) as He.
    rewrite Hc in He. cbn in He. lia. }
  destruct (act_frame _ _ _ _ Ha Hh) as (Hp&Hm&Hs&Hmax).
  assert (c ∈ procs s) as Hcin by by eapply list_elem_of_lookup_2.
  destruct (act_shared _ _ _ _ Ha) as [Htim Hshut].
  split; cbn [procs sem max heap live timers shut with_procs]; rewrite ?Hp.
  - pose proof (count_insert holds (procs s) i c c' Hi) as He. rewrite <- (inv_sem s Hinv) in He. lia.
  - apply Hmax, Hinv.
  - intros id [Hl|Ho].
    + destruct (act_live _ _ _ _ id Ha Hl) as [Hl'|[Ho _]].
      * eapply act_heap; [done|]. by apply (inv_heap s Hinv); left.
      * destruct (act_owner _ _ _ _ id Ha Ho) as [Ho'|?]; [|done]. eapply act_heap; [done|].
        apply (inv_heap s Hinv). right. by exists c.
    + apply has_insert_inv in Ho as [Ho|Ho].
      * destruct (act_owner _ _ _ _ id Ha Ho) as [Ho'|?]; [|done]. eapply act_heap; [done|].
        apply (inv_heap s Hinv). right. by exists c.
      * eapply act_heap; [done|]. apply (inv_heap s Hinv). by right.
  - intros id Hl Hact. destruct (act_active _ _ _ _ id Ha) as [Hw|(Hl'&Ha'&Hne)]; [|done|done| |].
    + intros id0 st ->. by apply (inv_decided s Hinv id0).
    + exists c'. split; [by eapply elem_insert_new|done].
    + eapply has_insert; [done|by apply (inv_active s Hinv)|by left].
  - intros id Hl. destruct (act_live _ _ _ _ id Ha Hl) as [Hl'|[Ho _]].
    + destruct (inv_live s Hinv id Hl') as [Ho|[Ht|Hsh]]; [|by auto|by auto].
      destruct (decide (owner c = Some id)) as [Hc|Hc], (decide (owner c' = Some id)) as [Hc'|Hc'].
      * left. eapply has_insert; [done|done|by right].
      * destruct (act_released _ _ _ _ id Ha Hc Hc') as [?|[?|?]]; [done|by auto|by auto].
      * left. eapply has_insert; [done|done|by right].
      * left. eapply has_insert; [done|done|by left].
    + left. exists c'. split; [by eapply elem_insert_new|done].
  - intros id st [Heq|Hin]%elem_insert; [|by apply (inv_decided s Hinv id)]. subst c'.
    destruct Ha as [Ha|Ha|Ha|Ha|Ha]; inversion Ha; subst; try (by destruct reap as [[|]|]); try (by destruct found).
    by destruct d as [|? []].
  - intros id r Hin.
    assert (is_Some (heap s !! id) ∨ id ∈ live s → is_Some (heap s' !! id)) as Hheap.
    { intros [H|H]; eapply act_heap; try done. by apply (inv_heap s Hinv); left. }
    assert ((c' = CSet id r ∨ c' = CTask id r) ∨ (CSet id r ∈ procs s ∨ CTask id r ∈ procs s)) as [Hc'|Hold].
    { destruct Hin as [[->|?]%elem_insert|[->|?]%elem_insert]; auto. }
    + destruct Hc' as [->| ->]; destruct Ha as [Ha|Ha|Ha|Ha|Ha]; inversion Ha; subst;
        try (by destruct reap as [[|]|]); try (by destruct found);
        apply Hheap; [by right|left; apply (inv_cancels s Hinv id r); by left].
    + apply Hheap. left. by apply (inv_cancels s Hinv id r).
Qed.

Lemma call_inv_step s l s' : step s l s' → inv s → inv s'.
Proof.
  intros Hs Hinv. destruct Hs as [s c Hc|s i c s' c' Hi Ha|s id l k Ht|s id o].
  - by apply inv_begin.
  - by eapply inv_act.
  - destruct Hinv. split; cbn [procs sem max heap live timers shut with_timers with_live] in *; try done.
    + intros i [Hl|Ho]; apply inv_heap0; [left; set_solver|by right].
    + intros i Hl Ha. apply inv_active0; [set_solver|exact Ha].
    + intros i Hl. destruct (inv_live0 i ltac:(set_solver)) as [?|[Hin|?]]; auto. right; left.
      rewrite Ht in Hin. set_solver.
  - by destruct Hinv.
Qed.
Lemma inv_run n worktrees ls s : steps step (NewManager n worktrees) ls s → inv s.
Proof.
  intros Hr. eapply (steps_invariant step inv); [intros; by eapply call_inv_step|exact Hr|].
  split; cbn; try done; try lia.
  - intros id [Hl|(c&Hc&_)]; [set_solver|by apply elem_of_nil in Hc].
  - intros id st Hin. by apply elem_of_nil in Hin.
  - intros id r [Hin|Hin]; by apply elem_of_nil in Hin.
Qed.
Lemma max_step s l s' : step s l s' → inv s → max s' = max s.
Proof.
  intros Hs Hinv. destruct Hs as [s c Hc|s i c s' c' Hi Ha|s id l k Ht|s id o]; try done. cbn.
  by actions Ha; try case_bool_decide.
Qed.
Lemma max_run n worktrees ls s : steps step (NewManager n worktrees) ls s → max s = max (NewManager n worktrees).
Proof.
  intros Hr. assert (inv s ∧ max s = max (NewManager n worktrees)) as [_ ?]; [|done].
  eapply (steps_invariant step (λ s, inv s ∧ max s = max (NewManager n worktrees))); [|exact Hr|].
  - intros a l b Hab [Ha Hm]. split; [by eapply call_inv_step|]. by rewrite (max_step _ _ _ Hab Ha).
  - split; [|done]. by apply (inv_run n worktrees []), steps_nil.
Qed.

(** Distinct workers that calls work on are at most as many as the calls that do. *)
Lemma working_calls (l : list pc) (ids : list string) :
  NoDup ids → (∀ id, id ∈ ids → has working id l) → (length ids ≤ count holds l + count aborting l)%nat.
Proof.
  intros Hnd Hids.
  assert (length ids ≤ length (omap working l))%nat as Hle.
  { apply NoDup_incl_length; [by apply NoDup_ListNoDup|]. intros id Hid%list_elem_of_In.
    destruct (Hids id Hid) as (c&Hc&Hf). apply list_elem_of_In, list_elem_of_omap. eauto. }
  assert (length (omap working l) ≤ count holds l + count aborting l)%nat; [|lia].
  clear. induction l as [|c l IH]; [done|]. rewrite !count_cons. cbn. destruct c; cbn; lia.
Qed.

(** The limit on concurrent workers holds.  In every state the calls of any number
    of callers can reach, in any interleaving with cancellations, reaping and a
    shutdown: the slots in use are exactly the calls that are running a worker or a
    light execution, at most the configured maximum (5 when it is not positive), and
    none when every call has returned; the workers counted as active are at most the
    slots in use and the calls that are undoing a failed isolation; and every worker
    listed is driven by a call, waiting for its retention to end, or left over from
    after a shutdown. *)
Theorem worker_slots_bounded n worktrees ls s :
  steps step (NewManager n worktrees) ls s →
  sem s = count holds (procs s) ∧
  (sem s ≤ Z.to_nat (if (n <=? 0)%Z then 5%Z else n))%nat ∧
  (Forall (λ c, ∃ b, c = PDone b) (procs s) → sem s = 0%nat) ∧
  (ActiveCount s ≤ sem s + count aborting (procs s))%nat ∧
  (∀ id, id ∈ live s → has owner id (procs s) ∨ id ∈ timers s ∨ shut s = true).
Proof.
  intros Hr. pose proof (inv_run _ _ _ _ Hr) as Hinv. pose proof (max_run _ _ _ _ Hr) as Hmax.
  split_and!.
  - apply Hinv.
  - pose proof (inv_max s Hinv) as Hle. by rewrite Hmax in Hle.
  - intros Hdone. rewrite (inv_sem s Hinv). induction Hdone as [|c l [b ->] _ IH]; [done|]. by rewrite count_cons, IH.
  - rewrite (inv_sem s Hinv). unfold ActiveCount. apply working_calls.
    + assert (∀ l : list string, NoDup l → NoDup (List.filter (active_worker s) l)) as Hf; [|apply Hf, NoDup_elements].
      intros l Hl. induction Hl as [|x l Hx Hl IH]; cbn; [constructor|]. destruct (active_worker s x); [|done].
      constructor; [|done]. rewrite list_elem_of_In, filter_In, <- list_elem_of_In. by intros [? _].
    + intros id. rewrite list_elem_of_In, filter_In, <- list_elem_of_In, elem_of_elements. intros [Hl Ha].
      by apply (inv_active s Hinv).
  - apply Hinv.
Qed.

(** ** Every call ends *)

(** How many actions a call may still take. *)
Definition rank (c : pc) : nat :=
  match c with
  | PWaiting _ => 9 | PAcquired _ => 8 | PSpawning _ _ => 7 | PReady _ => 6 | PRunning _ => 5 | PReturned _ _ => 4
  | PDecided _ _ => 3 | PSettled _ => 2 | PReleased _ => 1 | PAborting _ => 1
  | LWaiting => 2 | LExecuting => 1
  | RScan todo found => 1 + 4 * length todo + 3 * length found
  | CLoad _ reap => 3 + 3 * match reap with Some l => length l | None => 0 end
  | CSet _ reap => 2 + 3 * match reap with Some l => length l | None => 0 end
  | CTask _ reap => 1 + 3 * match reap with Some l => length l | None => 0 end
  | HVisit ids => 1 + length ids
  | PDone _ => 0
  end%nat.
Lemma act_rank s c s' c' : action s c s' c' → (rank c' < rank c)%nat.
Proof.
  intros Ha. actions Ha; cbn; try lia; try (destruct reap as [[|? ?]|]; cbn; lia).
  - destruct (stale s threshold now id); rewrite ?length_app; cbn; lia.
  - destruct found; cbn; lia.
Qed.
(** The actions call [i] took in a run. *)
Definition actions_of (i : nat) (ls : list label) : nat :=
  length (List.filter (λ l, match l with Act j => bool_decide (j = i) | _ => false end) ls).

Lemma run_rank s ls s' i c : steps step s ls s' → procs s !! i = Some c →
  ∃ c', procs s' !! i = Some c' ∧ (actions_of i ls + rank c' ≤ rank c)%nat.
Proof.
  intros Hr. revert c. induction Hr as [s|s l s1 ls s2 Hs Hr IH]; intros c Hi; [by exists c|].
  assert (∃ c1, procs s1 !! i = Some c1 ∧ (actions_of i [l] + rank c1 ≤ rank c)%nat) as (c1&Hi1&Hle1).
  { destruct Hs as [s c0 Hc0|s j cj s1 cj' Hj Ha|s id l k Ht|s id o]; cbn; try by exists c.
    - exists c. split; [by apply lookup_app_l_Some|done].
    - unfold actions_of. cbn. assert (procs s1 = procs s) as -> by by actions Ha; try case_bool_decide.
      destruct (decide (j = i)) as [->|Hne].
      + rewrite Hj in Hi. simplify_eq. exists cj'. split; [apply list_lookup_insert_eq; by eapply lookup_lt_Some|].
        rewrite bool_decide_true by done. pose proof (act_rank _ _ _ _ Ha). cbn. lia.
      + exists c. split; [by rewrite list_lookup_insert_ne|]. by rewrite bool_decide_false. }
  destruct (IH c1 Hi1) as (c2&Hi2&Hle2). exists c2. split; [done|].
  change (l :: ls) with ([l] ++ ls)%list. unfold actions_of in *. rewrite List.filter_app, length_app. lia.
Qed.

(** Every call of the manager ends.  Whatever the others do, a spawn takes at most
    nine actions, a light execution two, a cancellation three, a reaping a number
    fixed by the workers it looks at, a shutdown one more than the workers it visits;
    and until it has returned it always has an action to take, if only giving up the
    wait for a slot when its context is done. *)
Theorem worker_calls_end n worktrees ls s i c ls' s' :
  steps step (NewManager n worktrees) ls s → procs s !! i = Some c →
  steps step s ls' s' →
  (actions_of i ls' ≤ rank c)%nat ∧
  ∃ c', procs s' !! i = Some c' ∧ ((∃ b, c' = PDone b) ∨ ∃ s'', step s' (Act i) s'').
Proof.
  intros Hr Hi Hr'. destruct (run_rank _ _ _ _ _ Hr' Hi) as (c'&Hi'&Hle). split; [lia|]. exists c'. split; [done|].
  assert (inv s') as Hinv.
  { eapply (steps_invariant step inv); [intros; by eapply call_inv_step|exact Hr'|by eapply inv_run]. }
  assert ((∃ b, c' = PDone b) ∨ ∃ s1 c1, action s' c' s1 c1) as [Hd|(s1&c1&Ha)];
    [|by left|right; eexists; by econstructor].
  assert (c' ∈ procs s') as Hin by by eapply list_elem_of_lookup_2.
  destruct c' as [req|req|id req|id|id|id d|id st|id|id|id| | |todo found|id reap|id reap|id reap|ids|b]; [..|by left; exists b]; right.
  - eexists _, _. by apply in_spawn, (act_give_up s' req).
  - eexists _, _. apply in_spawn, (act_store s' req (fresh (dom (heap s')))). apply not_elem_of_dom, is_fresh.
  - destruct (decide (sp_Isolation req = "worktree")); eexists _, _; [by apply in_spawn, act_isolation_fails|by apply in_spawn, act_no_isolation].
  - eexists _, _. apply in_spawn, act_run.
  - eexists _, _. apply in_spawn, act_delegate_err.
  - destruct (decide (status_of s' id = Some StatusCanceled)); eexists _, _; [by apply in_spawn, act_see_canceled|by apply in_spawn, act_see_active].
  - eexists _, _. apply in_spawn, act_settle.
  - eexists _, _. apply in_spawn, act_release.
  - destruct (shut s') eqn:Hsh; eexists _, _; [by apply in_spawn, act_no_retention|by apply in_spawn, act_retain].
  - eexists _, _. apply in_spawn, act_abort.
  - eexists _, _. apply in_light, act_light_give_up.
  - eexists _, _. apply in_light, act_light_done.
  - destruct todo as [|id todo]; eexists _, _; [apply in_reap, act_scanned|apply in_reap, (act_scan s' id todo found 0 0)].
  - destruct (decide (id ∈ live s')); eexists _, _; [by apply in_cancel, act_cancel_load|by apply in_cancel, act_cancel_missing].
  - eexists _, _. apply in_cancel, act_cancel_set.
  - destruct (inv_cancels s' Hinv id reap) as [w Hw]; [by right|]. eexists _, _. by apply in_cancel, (act_cancel_task s' id reap w).
  - destruct ids as [|id ids]; eexists _, _; [apply in_shutdown, act_shutdown_close|apply in_shutdown, act_shutdown_visit].
Qed.

(** ** Cancellations that do not last *)

(** A cancellation can be undone by the call that runs the worker.  When the
    worker's status is looked at before the cancellation and written after it, a
    worker that was canceled ends completed; and a cancellation that falls between the
    creation of a worker and its start is overwritten by the start.  Either way the
    cancellation itself reports success. *)
Theorem cancellation_can_be_overwritten s i j id w session :
  i ≠ j → heap s !! id = Some w → w_TaskID w = "" → procs s !! j = Some (CSet id None) →
  (procs s !! i = Some (PReturned id (DelegResult session true)) → w_Status w = StatusRunning →
   ∃ s', steps step s [Act i; Act j; Act i; Act j] s' ∧
     status_of s' id = Some StatusCompleted ∧ procs s' !! j = Some (PDone false)) ∧
  (procs s !! i = Some (PReady id) →
   ∃ s', steps step s [Act j; Act i; Act j] s' ∧
     status_of s' id = Some StatusRunning ∧ procs s' !! j = Some (PDone false)).
Proof.
  intros Hij Hw Htask Hj.
  assert (∀ k c s0, procs s0 !! k = Some c → ∀ c', <[k:=c']> (procs s0) !! k = Some c') as Hself.
  { intros k c s0 Hk c'. apply list_lookup_insert_eq. by eapply lookup_lt_Some. }
  split.
  - intros Hi Hst. eexists. split; [|split].
    + eapply steps_cons; [eapply (step_act s i); [exact Hi|]|].
      { apply in_spawn, act_see_active. unfold status_of. rewrite Hw. cbn. by rewrite Hst. }
      eapply steps_cons; [eapply (step_act _ j); [|apply in_cancel, act_cancel_set]|].
      { cbn. rewrite list_lookup_insert_ne by done. exact Hj. }
      eapply steps_cons; [eapply (step_act _ i); [|apply in_spawn, act_settle]|].
      { cbn. rewrite list_lookup_insert_ne by done. by eapply Hself. }
      eapply steps_cons; [eapply (step_act _ j); [|eapply in_cancel, act_cancel_task]|apply steps_nil].
      * cbn. rewrite list_lookup_insert_ne by done. apply list_lookup_insert_eq. rewrite length_insert. by eapply lookup_lt_Some.
      * cbn. rewrite !lookup_alter_eq, Hw. done.
    + cbn. rewrite Htask. rewrite bool_decide_true by done. unfold status_of. cbn.
      rewrite !lookup_alter_eq, Hw. done.
    + cbn. rewrite Htask. rewrite bool_decide_true by done. cbn. apply list_lookup_insert_eq.
      rewrite !length_insert. by eapply lookup_lt_Some.
  - intros Hi. eexists. split; [|split].
    + eapply steps_cons; [eapply (step_act s j); [exact Hj|apply in_cancel, act_cancel_set]|].
      eapply steps_cons; [eapply (step_act _ i); [|apply in_spawn, act_run]|].
      { cbn. rewrite list_lookup_insert_ne by done. exact Hi. }
      eapply steps_cons; [eapply (step_act _ j); [|eapply in_cancel, act_cancel_task]|apply steps_nil].
      * cbn. rewrite list_lookup_insert_ne by done. by eapply Hself.
      * cbn. rewrite !lookup_alter_eq, Hw. done.
    + cbn. rewrite Htask. rewrite bool_decide_true by done. unfold status_of. cbn.
      rewrite !lookup_alter_eq, Hw. done.
    + cbn. rewrite Htask. rewrite bool_decide_true by done. cbn. apply list_lookup_insert_eq.
      rewrite !length_insert. by eapply lookup_lt_Some.
Qed.

(** ** Worked examples *)

Module Example_workers.
Definition req : SpawnRequest := mkSpawn "parent" "agent" "" "".
Definition begin : system := NewManager 1 false.
Definition one : Worker := mkWorker "parent" "" "" "agent" StatusSpawning "" false.
(** A worker being started, and a cancellation about to write its status. *)
Definition ready : system :=
  mkSystem 1 1 {["w" := cancel_ctx one]} {["w"]} [] false false [] ∅ [PReady "w"; CSet "w" None].
Lemma reach_spawned :
  ∃ s, steps step begin [Begin; Act 0; Act 0; Begin] s ∧ procs s = [PSpawning "w" req; CLoad "w" None] ∧ sem s = 1%nat.
Proof.
  eexists. split; [|split].
  - eapply steps_cons; [apply (step_begin begin (PWaiting req)); done|].
    eapply steps_cons; [eapply (step_act _ 0 (PWaiting req)); [done|apply in_spawn, act_acquire; cbn; lia]|].
    eapply steps_cons; [eapply (step_act _ 0 (PAcquired req)); [done|by apply in_spawn, (act_store _ req "w")]|].
    eapply steps_cons; [by apply (step_begin _ (CLoad "w" None))|apply steps_nil].
  - done.
  - done.
Qed.

Lemma worker_slots_bounded_witness :
  ∃ s, steps step begin [Begin; Act 0; Act 0; Begin] s ∧
    sem s = count holds (procs s) ∧ (sem s ≤ Z.to_nat (if (1 <=? 0)%Z then 5%Z else 1))%nat ∧
    (Forall (λ c, ∃ b, c = PDone b) (procs s) → sem s = 0%nat) ∧
    (ActiveCount s ≤ sem s + count aborting (procs s))%nat ∧
    (∀ id, id ∈ live s → has owner id (procs s) ∨ id ∈ timers s ∨ shut s = true).
Proof.
  destruct reach_spawned as (s&Hr&_). exists s. split; [exact Hr|]. exact (worker_slots_bounded 1 false _ s Hr).
Defined.
Lemma worker_calls_end_witness :
  ∃ s, steps step begin [Begin; Act 0; Act 0; Begin] s ∧
    (actions_of 0 [] ≤ rank (PSpawning "w" req))%nat ∧
    ∃ c', procs s !! 0%nat = Some c' ∧ ((∃ b, c' = PDone b) ∨ ∃ s'', step s (Act 0) s'').
Proof.
  destruct reach_spawned as (s&Hr&Hp&_). exists s. split; [exact Hr|].
  apply (worker_calls_end 1 false _ s 0 (PSpawning "w" req) [] s Hr); [by rewrite Hp|apply steps_nil].
Defined.
Lemma cancellation_can_be_overwritten_witness :
  ∃ s', steps step ready [Act 1; Act 0; Act 1] s' ∧
    status_of s' "w" = Some StatusRunning ∧ procs s' !! 1%nat = Some (PDone false).
Proof.
  apply (cancellation_can_be_overwritten ready 0 1 "w" (cancel_ctx one) "s"); done.
Defined.
End Example_workers.
