(* ===== verification/ApiAuth.v ===== *)
(** * The credential store of the HTTP API

    [internal/apiauth]: credentials, UI sessions, one-time login links and the audit
    trail ([credential.go], [store.go], [agent_ttl.go]), and the bootstrap of the
    operator's credential ([bootstrap.go]).

    A table is a map from its key; a statement may fail at any time; the clock, the
    fresh identifiers, the random bytes and the hash are the environment's.  A stored
    time is read back as it was written; the zero time is [None]. *)

From stdpp Require Import sorting.
From S2P Require Import Prelude GoStrings GoNum.

Open Scope string_scope.
Open Scope Z_scope.
Set Default Proof Using "Type*".

(** ** Kinds and scopes *)

Definition KindOperator : string := "operator".
Definition KindClient : string := "client".
Definition KindAgent : string := "agent".

Definition ScopeRead : string := "read".
Definition ScopeOperate : string := "operate".
Definition ScopeTools : string := "tools".
Definition ScopeMaintain : string := "maintain".
Definition ScopeAdmin : string := "admin".
Definition ScopeAgentsManage : string := "agents:manage".
Definition allScopes : list string := [ScopeRead; ScopeOperate; ScopeTools; ScopeMaintain; ScopeAdmin; ScopeAgentsManage].

Inductive AErr :=
| EUnknownScope (name : string)
| ENeedsScope
| EClientAdmin
| EUnbound
| EUnknownKind (kind : string)
| ENoLabel
| ERandom
| EStore
| ENoRows
| EMalformed
| EUnauthenticated
| ENotOperatorShape
| ENotFound
| EAgentSession
| ENotOperator
| ENoTokenPath
| EFile
| EFileExists
| ENoCredential.

Definition ParseScope (name : string) : result AErr string :=
  if bool_decide (name ∈ allScopes) then Ok name else Err (EUnknownScope name).
Fixpoint parse_scopes (names seen : list string) : result AErr (list string) :=
  match names with
  | [] => Ok []
  | n :: rest =>
      s ← ParseScope (trim_space n);
      if bool_decide (s ∈ seen) then parse_scopes rest seen
      else out ← parse_scopes rest (s :: seen); Ok (s :: out)
  end.
Definition ParseScopes (names : list string) : result AErr (list string) := parse_scopes names [].

Record Credential := mkCredential {
  c_ID : string;
  c_Kind : string;
  c_Label : string;
  c_Scopes : list string;
  c_BoundSessionID : string;
  c_CreatedAt : Z;
  c_ExpiresAt : option Z;
  c_LastUsedAt : option Z;
  c_RevokedAt : option Z;
  c_CreatedBy : string;
}.
Definition with_expiry (t : option Z) (c : Credential) : Credential :=
  mkCredential (c_ID c) (c_Kind c) (c_Label c) (c_Scopes c) (c_BoundSessionID c) (c_CreatedAt c) t
    (c_LastUsedAt c) (c_RevokedAt c) (c_CreatedBy c).
Definition with_used (t : option Z) (c : Credential) : Credential :=
  mkCredential (c_ID c) (c_Kind c) (c_Label c) (c_Scopes c) (c_BoundSessionID c) (c_CreatedAt c) (c_ExpiresAt c)
    t (c_RevokedAt c) (c_CreatedBy c).
Definition with_revoked (t : option Z) (c : Credential) : Credential :=
  mkCredential (c_ID c) (c_Kind c) (c_Label c) (c_Scopes c) (c_BoundSessionID c) (c_CreatedAt c) (c_ExpiresAt c)
    (c_LastUsedAt c) t (c_CreatedBy c).

(** [admin] includes [agents:manage]; every other scope stands alone. *)
Fixpoint scopesInclude (have : list string) (s : string) : bool :=
  match have with
  | [] => false
  | h :: rest =>
      bool_decide (h = s) || (bool_decide (h = ScopeAdmin) && bool_decide (s = ScopeAgentsManage)) || scopesInclude rest s
  end.
Definition Has (c : Credential) (s : string) : bool :=
  if bool_decide (c_Kind c = KindOperator) then true else scopesInclude (c_Scopes c) s.
Definition Active (c : Credential) (now : Z) : bool :=
  match c_RevokedAt c with
  | Some _ => false
  | None => match c_ExpiresAt c with None => true | Some e => now <? e end
  end.

(** ** Secrets *)

Definition secretPrefix : string := "nan_".
(** The length of 32 bytes in unpadded base64. *)
Definition body_length : nat := 43.
(** A secret of a kind around 43 characters of base64url. *)
Definition secret_of (kind body : string) : string := secretPrefix +:+ kind +:+ "_" +:+ body.
Definition kindOfSecret (secret : string) : result AErr string :=
  match cut_prefix secret secretPrefix with
  | None => Err EMalformed
  | Some rest =>
      match cut "_" rest with
      | None => Err EMalformed
      | Some (k, body) =>
          if negb (bool_decide (String.length body = body_length)) then Err EMalformed
          else if bool_decide (k ∈ [KindOperator; KindClient; KindAgent]) then Ok k else Err EMalformed
      end
  end.

(** ** The database *)

Record Row := mkRow { r_hash : string; r_cred : Credential }.
Record UIRow := mkUIRow {
  u_hash : string;
  u_CredentialID : string;
  u_CSRF : string;
  u_CreatedAt : Z;
  u_ExpiresAt : Z;
  u_RevokedAt : option Z;
}.
Record LinkRow := mkLinkRow {
  l_hash : string;
  l_CredentialID : string;
  l_ExpiresAt : Z;
  l_ConsumedAt : option Z;
}.
Record AuditRow := mkAuditRow {
  a_at : Z;
  a_credential : string;
  a_kind : string;
  a_method : string;
  a_route : string;
  a_outcome : string;
  a_remote : string;
}.
Record DB := mkDB {
  credentials : gmap string Row;
  ui_sessions : gmap string UIRow;
  login_links : gmap string LinkRow;
  auth_audit : list AuditRow;
}.
Definition set_credentials (m : gmap string Row) (d : DB) : DB := mkDB m (ui_sessions d) (login_links d) (auth_audit d).
Definition set_ui_sessions (m : gmap string UIRow) (d : DB) : DB := mkDB (credentials d) m (login_links d) (auth_audit d).
Definition set_login_links (m : gmap string LinkRow) (d : DB) : DB := mkDB (credentials d) (ui_sessions d) m (auth_audit d).
Definition set_audit (l : list AuditRow) (d : DB) : DB := mkDB (credentials d) (ui_sessions d) (login_links d) l.

(** The first row that satisfies [P]: a [SELECT] on a unique column. *)
Definition find_row {A} (P : A → bool) (m : gmap string A) : option (string * A) :=
  snd <$> list_find (λ kv, P kv.2 = true) (map_to_list m).

Record Env := mkEnv {
  now_at : nat → Z;
  uuid_at : nat → string;
  (* 32 random bytes in base64url, unless the generator fails *)
  rand_at : nat → option string;
  stmt_fails : nat → bool;
  file_fails : nat → bool;
  sha : string → string;
}.
(** [files] holds the token files, [notified] the credentials whose revocation the
    listeners were told of. *)
Record AW := mkAW {
  db : DB;
  files : gmap string string;
  notified : list string;
  tick : nat;
}.

Section Store.
Context (E : Env).
Abbreviation op A := (act AW AErr A).

Definition up (w : AW) : AW := mkAW (db w) (files w) (notified w) (S (tick w)).
Definition now : op Z := λ w, (Ok (now_at E (tick w)), up w).
Definition NewString : op string := λ w, (Ok (uuid_at E (tick w)), up w).
(** A statement: it fails, violates a constraint ([None]), or takes effect. *)
Definition exec {A} (f : DB → option (A * DB)) : op A := λ w,
  if stmt_fails E (tick w) then (Err EStore, up w)
  else match f (db w) with
       | None => (Err EStore, up w)
       | Some (a, d) => (Ok a, mkAW d (files w) (notified w) (S (tick w)))
       end.
Definition query {A} (f : DB → A) : op A := exec (λ d, Some (f d, d)).
Definition notifyRevoked (id : string) : op unit := λ w, (Ok tt, mkAW (db w) (files w) (notified w ++ [id])%list (tick w)).

Definition hashSecret (s : string) : string := sha E s.
Definition random : op string := λ w,
  (match rand_at E (tick w) with Some b => Ok b | None => Err ERandom end, up w).
Definition newSecret (kind : string) : op (string * string) :=
  body ← random; let secret := secret_of kind body in mret (secret, hashSecret secret).
Definition opaqueToken : op (string * string) := body ← random; mret (body, hashSecret body).

(** [INSERT INTO credentials]: the key and the hash are unique, the kind is checked. *)
Definition insert_credential (r : Row) (d : DB) : option (unit * DB) :=
  let id := c_ID (r_cred r) in
  if bool_decide (is_Some (credentials d !! id)) then None
  else if bool_decide (is_Some (find_row (λ x, bool_decide (r_hash x = r_hash r)) (credentials d))) then None
  else if negb (bool_decide (c_Kind (r_cred r) ∈ [KindOperator; KindClient; KindAgent])) then None
  else Some (tt, set_credentials (<[id := r]> (credentials d)) d).

Record CreateParams := mkParams {
  p_Kind : string;
  p_Label : string;
  p_Scopes : list string;
  p_BoundSessionID : string;
  p_TTL : Z;
  p_CreatedBy : string;
}.
(** The scopes a new credential gets. *)
Definition granted (p : CreateParams) : result AErr (list string) :=
  if bool_decide (p_Kind p = KindOperator) then Ok allScopes
  else if bool_decide (p_Kind p = KindClient) then
    if bool_decide (p_Scopes p = []) then Err ENeedsScope
    else if bool_decide (ScopeAdmin ∈ p_Scopes p) then Err EClientAdmin
    else Ok (p_Scopes p)
  else if bool_decide (p_Kind p = KindAgent) then
    if bool_decide (p_BoundSessionID p = "") then Err EUnbound else Ok [ScopeTools]
  else Err (EUnknownKind (p_Kind p)).
Definition Create (p : CreateParams) : op (Credential * string) :=
  scopes ← lift (granted p);
  if bool_decide (p_Label p = "") then fail ENoLabel else
  '(secret, hash) ← newSecret (p_Kind p);
  t ← now;
  id ← NewString;
  let c := mkCredential id (p_Kind p) (p_Label p) scopes (p_BoundSessionID p) t
             (if 0 <? p_TTL p then Some (t + p_TTL p) else None) None None (p_CreatedBy p) in
  _ ← exec (insert_credential (mkRow hash c));
  mret (c, secret).

Definition byHash (hash : string) : op Credential :=
  o ← query (λ d, find_row (λ r, bool_decide (r_hash r = hash)) (credentials d));
  match o with Some (_, r) => mret (r_cred r) | None => fail ENoRows end.
Definition Get (id : string) : op Credential :=
  o ← query (λ d, credentials d !! id);
  match o with Some r => mret (r_cred r) | None => fail ENoRows end.

Definition ImportSecret (secret label : string) : op Credential :=
  if negb (match kindOfSecret secret with Ok k => bool_decide (k = KindOperator) | Err _ => false end)
  then fail ENotOperatorShape else
  let hash := hashSecret secret in
  found ← attempt (byHash hash);
  match found with
  | Ok c => mret c
  | Err _ =>
      t ← now;
      id ← NewString;
      let c := mkCredential id KindOperator label allScopes "" t None None None "env" in
      _ ← exec (insert_credential (mkRow hash c));
      mret c
  end.

(** [UPDATE credentials ... WHERE id = ?] and a further condition. *)
Definition update_credential (id : string) (cond : Credential → bool) (f : Credential → Credential) (d : DB) : option (bool * DB) :=
  match credentials d !! id with
  | Some r => if cond (r_cred r) then Some (true, set_credentials (<[id := mkRow (r_hash r) (f (r_cred r))]> (credentials d)) d)
              else Some (false, d)
  | None => Some (false, d)
  end.
Definition unrevoked (c : Credential) : bool := bool_decide (c_RevokedAt c = None).

Definition Authenticate (secret : string) : op Credential :=
  if negb (is_ok (kindOfSecret secret)) then fail EUnauthenticated else
  found ← attempt (byHash (hashSecret secret));
  match found with
  | Err _ => fail EUnauthenticated
  | Ok c =>
      t ← now;
      if negb (Active c t) then fail EUnauthenticated
      else if match c_LastUsedAt c with None => true | Some u => 30 * 1000000000 <? t - u end then
        _ ← attempt (exec (update_credential (c_ID c) (λ _, true) (with_used (Some t))));
        mret (with_used (Some t) c)
      else mret c
  end.

Definition newer (a b : Credential) : Prop := c_CreatedAt b ≤ c_CreatedAt a.
#[global] Instance newer_dec : RelDecision newer.
Proof. intros a b. unfold newer. apply _. Defined.
Definition List_ (includeRevoked : bool) : op (list Credential) :=
  query (λ d, merge_sort newer
    (List.filter (λ c, includeRevoked || unrevoked c) (r_cred ∘ snd <$> map_to_list (credentials d)))).
Definition HasActiveOperator : op bool :=
  query (λ d, bool_decide (is_Some (find_row (λ r, bool_decide (c_Kind (r_cred r) = KindOperator) && unrevoked (r_cred r)) (credentials d)))).

Definition revoke_sessions (id : string) (t : Z) (m : gmap string UIRow) : gmap string UIRow :=
  (λ u, if bool_decide (u_CredentialID u = id) && bool_decide (u_RevokedAt u = None)
        then mkUIRow (u_hash u) (u_CredentialID u) (u_CSRF u) (u_CreatedAt u) (u_ExpiresAt u) (Some t) else u) <$> m.
Definition Revoke (id : string) : op bool :=
  t ← now;
  n ← exec (update_credential id unrevoked (with_revoked (Some t)));
  if negb n then mret false else
  _ ← exec (λ d, Some (tt, set_ui_sessions (revoke_sessions id t (ui_sessions d)) d));
  _ ← notifyRevoked id;
  mret true.
Fixpoint revoke_all (ids : list string) : op unit :=
  match ids with [] => mret tt | id :: rest => _ ← Revoke id; revoke_all rest end.
Definition RevokeSessionCredentials (sessionID : string) : op unit :=
  agents ← query (λ d, (List.filter (λ kv,
    let c := r_cred kv.2 in
    bool_decide (c_Kind c = KindAgent) && bool_decide (c_BoundSessionID c = sessionID) && unrevoked c)
    (map_to_list (credentials d))).*1);
  revoke_all agents.

(** [next] is later than an expiry, where the zero time is before every other. *)
Definition after (next : Z) (e : option Z) : bool := match e with None => true | Some e => e <? next end.
Definition Slide (c : Credential) (ttl maxLife : Z) : op (option Z) :=
  t ← now;
  let next := Z.min (t + ttl) (c_CreatedAt c + maxLife) in
  if negb (after next (c_ExpiresAt c)) then mret (c_ExpiresAt c) else
  _ ← exec (update_credential (c_ID c) unrevoked (with_expiry (Some next)));
  mret (Some next).
Definition Rotate (id createdBy : string) : op (Credential * string) :=
  found ← attempt (Get id);
  match found with
  | Err _ => fail ENotFound
  | Ok old =>
      let ttl := match c_ExpiresAt old with
                 | Some e => clampZ min_int64 max_int64 (e - c_CreatedAt old)
                 | None => 0
                 end in
      fresh ← Create (mkParams (c_Kind old) (c_Label old) (c_Scopes old) (c_BoundSessionID old) ttl createdBy);
      _ ← Revoke id;
      mret fresh
  end.
Definition Audit (credentialID kind method route outcome remote : string) : op unit :=
  t ← now;
  _ ← attempt (exec (λ d, Some (tt, set_audit (auth_audit d ++ [mkAuditRow t credentialID kind method route outcome remote])%list d)));
  mret tt.

(** ** UI sessions and login links *)

Definition uiSessionTTL : Z := 12 * 3600 * 1000000000.
Definition loginLinkTTL : Z := 60 * 1000000000.

Definition insert_session (id : string) (u : UIRow) (d : DB) : option (unit * DB) :=
  if bool_decide (is_Some (ui_sessions d !! id))
     || bool_decide (is_Some (find_row (λ x, bool_decide (u_hash x = u_hash u)) (ui_sessions d))) then None
  else Some (tt, set_ui_sessions (<[id := u]> (ui_sessions d)) d).
(** The session's identifier and row, and the cookie. *)
Definition CreateUISession (c : Credential) : op (string * UIRow * string) :=
  if bool_decide (c_Kind c = KindAgent) then fail EAgentSession else
  '(cookie, hash) ← opaqueToken;
  '(csrf, _) ← opaqueToken;
  t ← now;
  id ← NewString;
  let u := mkUIRow hash (c_ID c) csrf t (t + uiSessionTTL) None in
  _ ← exec (insert_session id u);
  mret (id, u, cookie).
Definition slide_session (t : Z) (u : UIRow) : UIRow :=
  mkUIRow (u_hash u) (u_CredentialID u) (u_CSRF u) (u_CreatedAt u) t (u_RevokedAt u).
Definition AuthenticateUISession (cookie : string) : op (string * UIRow * Credential) :=
  if bool_decide (cookie = "") then fail EUnauthenticated else
  found ← attempt (query (λ d, find_row (λ u, bool_decide (u_hash u = hashSecret cookie)) (ui_sessions d)));
  match found with
  | Ok (Some (id, u)) =>
      t ← now;
      if negb (bool_decide (u_RevokedAt u = None)) || negb (t <? u_ExpiresAt u) then fail EUnauthenticated else
      cred ← attempt (Get (u_CredentialID u));
      match cred with
      | Err _ => fail EUnauthenticated
      | Ok c =>
          if negb (Active c t) then fail EUnauthenticated
          else if 60 * 1000000000 <? (t + uiSessionTTL) - u_ExpiresAt u then
            _ ← attempt (exec (λ d, Some (tt, set_ui_sessions (alter (slide_session (t + uiSessionTTL)) id (ui_sessions d)) d)));
            mret (id, slide_session (t + uiSessionTTL) u, c)
          else mret (id, u, c)
      end
  | _ => fail EUnauthenticated
  end.
Definition DeleteUISession (id : string) : op unit :=
  t ← now;
  exec (λ d, Some (tt, set_ui_sessions (alter (λ u, if bool_decide (u_RevokedAt u = None)
    then mkUIRow (u_hash u) (u_CredentialID u) (u_CSRF u) (u_CreatedAt u) (u_ExpiresAt u) (Some t) else u) id (ui_sessions d)) d)).

Definition insert_link (id : string) (l : LinkRow) (d : DB) : option (unit * DB) :=
  if bool_decide (is_Some (login_links d !! id))
     || bool_decide (is_Some (find_row (λ x, bool_decide (l_hash x = l_hash l)) (login_links d))) then None
  else Some (tt, set_login_links (<[id := l]> (login_links d)) d).
Definition CreateLoginLink (c : Credential) : op (string * Z) :=
  if negb (bool_decide (c_Kind c = KindOperator)) then fail ENotOperator else
  '(code, hash) ← opaqueToken;
  t ← now;
  id ← NewString;
  _ ← exec (insert_link id (mkLinkRow hash (c_ID c) (t + loginLinkTTL) None));
  mret (code, t + loginLinkTTL).
(** One statement spends the code and returns its credential. *)
Definition spend (hash : string) (t : Z) (d : DB) : option (option string * DB) :=
  match find_row (λ l, bool_decide (l_hash l = hash) && bool_decide (l_ConsumedAt l = None) && (t <? l_ExpiresAt l)) (login_links d) with
  | Some (id, l) =>
      Some (Some (l_CredentialID l),
            set_login_links (<[id := mkLinkRow (l_hash l) (l_CredentialID l) (l_ExpiresAt l) (Some t)]> (login_links d)) d)
  | None => Some (None, d)
  end.
Definition ConsumeLoginLink (code : string) : op Credential :=
  t ← now;
  spent ← attempt (exec (spend (hashSecret code) t));
  match spent with
  | Ok (Some id) =>
      cred ← attempt (Get id);
      match cred with
      | Ok c => if Active c t then mret c else fail EUnauthenticated
      | Err _ => fail EUnauthenticated
      end
  | _ => fail EUnauthenticated
  end.

(** ** Lifetimes of agent credentials *)

Definition hour : Z := 3600 * 1000000000.
Definition DefaultAgentCredentialTTL : Z := hour.
Definition DefaultAgentCredentialMaxTTL : Z := 24 * hour.
Definition neverAgentCredentialTTL : Z := 10 * 365 * 24 * hour.
(** [time.ParseDuration], as its documentation has it, is not modelled. *)
Definition envDuration (ParseDuration : string → option Z) (value : string) (def : Z) : Z :=
  let raw := trim_space value in
  if bool_decide (raw = "") then def
  else if equal_fold raw "never" then neverAgentCredentialTTL
  else match ParseDuration raw with
       | Some d => if d <=? 0 then def else d
       | None => def
       end.
Definition agentCredentialTTLs (ParseDuration : string → option Z) (ttl_env max_env : string) : Z * Z :=
  (envDuration ParseDuration ttl_env DefaultAgentCredentialTTL,
   envDuration ParseDuration max_env DefaultAgentCredentialMaxTTL).

(** ** Bootstrap *)

(** A token file is replaced as a whole, or not at all. *)
Definition WriteTokenFile (path secret : string) : op unit := λ w,
  if file_fails E (tick w) then (Err EFile, up w)
  else (Ok tt, mkAW (db w) (<[path := secret +:+ String (byte 10) ""]> (files w)) (notified w) (S (tick w))).
Definition WriteSecretFile (path secret : string) (overwrite : bool) : op unit := λ w,
  if negb overwrite && bool_decide (is_Some (files w !! path)) then (Err EFileExists, up w)
  else WriteTokenFile path secret w.
Definition ReadTokenFile (path : string) : op string := λ w,
  (if file_fails E (tick w) then Err EFile
   else match files w !! path with Some s => Ok (trim_space s) | None => Err EFile end, up w).

Definition EnsureOperator (tokenPath override : string) : op bool :=
  if negb (bool_decide (override = "")) then
    _ ← ImportSecret override "env-override"; mret false
  else
    has ← HasActiveOperator;
    if (has : bool) then mret false
    else if bool_decide (tokenPath = "") then fail ENoTokenPath
    else
      '(_, secret) ← Create (mkParams KindOperator "operator" [] "" 0 "bootstrap");
      _ ← WriteTokenFile tokenPath secret;
      mret true.
Fixpoint revoke_operators (cs : list Credential) : op unit :=
  match cs with
  | [] => mret tt
  | c :: rest =>
      if bool_decide (c_Kind c = KindOperator) then _ ← Revoke (c_ID c); revoke_operators rest
      else revoke_operators rest
  end.
Definition ResetOperator (tokenPath : string) : op unit :=
  creds ← List_ false;
  _ ← revoke_operators creds;
  '(_, secret) ← Create (mkParams KindOperator "operator" [] "" 0 "reset");
  WriteTokenFile tokenPath secret.
Definition ClientToken (override tokenPath : string) : op string :=
  if negb (bool_decide (override = "")) then mret override
  else if bool_decide (tokenPath = "") then fail ENoCredential
  else ReadTokenFile tokenPath.
End Store.

(** ** Tables *)

Section Rows.
Context {A : Type}.
Implicit Types (P : A → bool) (m : gmap string A).

Lemma find_row_is P m id a : find_row P m = Some (id, a) → m !! id = Some a ∧ P a = true.
Proof.
  unfold find_row. intros ([i [id' a']]&Hf&[= -> ->])%fmap_Some. apply list_find_Some in Hf as (Hl&HP&_).
  split; [|done]. by apply elem_of_map_to_list, list_elem_of_lookup_2 with i.
Qed.
Lemma find_row_None P m : find_row P m = None ↔ ∀ id a, m !! id = Some a → P a = false.
Proof.
  unfold find_row. split.
  - intros Hn%fmap_None id a Ha. apply list_find_None in Hn. rewrite Forall_forall in Hn.
    specialize (Hn (id, a)). cbn in Hn. destruct (P a); [|done]. destruct Hn; [by apply elem_of_map_to_list|done].
  - intros Hall. apply fmap_None, list_find_None, Forall_forall. intros [id a] Ha%elem_of_map_to_list. cbn.
    by rewrite (Hall id a).
Qed.
Lemma find_row_the P m id a : m !! id = Some a → P a = true →
  (∀ id' a', m !! id' = Some a' → P a' = true → id' = id) → find_row P m = Some (id, a).
Proof.
  intros Ha HP Hu. destruct (find_row P m) as [[id' a']|] eqn:Hf.
  - apply find_row_is in Hf as [Ha' HP']. assert (id' = id) as -> by eauto. rewrite Ha in Ha'. by simplify_eq.
  - pose proof (proj1 (find_row_None P m) Hf id a Ha). congruence.
Qed.
(** A column all rows of which differ. *)
Definition unique (f : A → string) (m : gmap string A) : Prop :=
  ∀ i j a b, m !! i = Some a → m !! j = Some b → f a = f b → i = j.
Lemma unique_insert f m id a : unique f m → (∀ j b, m !! j = Some b → f b = f a → j = id) → unique f (<[id := a]> m).
Proof.
  intros Hu Ha i j x y. rewrite !lookup_insert_Some. intros [[<- <-]|[Hi Hx]] [[<- <-]|[Hj Hy]] Hf; auto.
  - symmetry. by eapply Ha.
  - by eapply Ha.
  - by eapply Hu.
Qed.
Lemma unique_insert_new f m id a :
  unique f m → find_row (λ x, bool_decide (f x = f a)) m = None → unique f (<[id := a]> m).
Proof.
  intros Hu Hn. apply unique_insert; [done|]. intros j b Hb Heq.
  pose proof (proj1 (find_row_None _ m) Hn j b Hb) as Hf. cbv beta in Hf. by rewrite bool_decide_true in Hf.
Qed.
Lemma unique_fmap f (g : A → A) m : (∀ a, f (g a) = f a) → unique f m → unique f (g <$> m).
Proof.
  intros Hg Hu i j a b. rewrite !lookup_fmap. intros (x&Hx&->)%fmap_Some (y&Hy&->)%fmap_Some.
  rewrite !Hg. by eapply Hu.
Qed.
Lemma unique_alter f (g : A → A) m id : (∀ a, f (g a) = f a) → unique f m → unique f (alter g id m).
Proof.
  intros Hg Hu i j a b. rewrite !lookup_alter_Some.
  intros [[-> (x&Hx&->)]|[? Hx]] [[-> (y&Hy&->)]|[? Hy]]; rewrite ?Hg; eauto.
Qed.
End Rows.

(** ** What never changes, and what always holds *)

(** A row of each table keeps what it was created with; a mark once set stays. *)
Definition marked (o o' : option Z) : Prop := o ≠ None → o' = o.
Record same_credential (r r' : Row) : Prop := {
  sc_hash : r_hash r' = r_hash r;
  sc_cred : r_cred r' = with_expiry (c_ExpiresAt (r_cred r')) (with_used (c_LastUsedAt (r_cred r'))
                          (with_revoked (c_RevokedAt (r_cred r')) (r_cred r)));
  sc_revoked : marked (c_RevokedAt (r_cred r)) (c_RevokedAt (r_cred r'));
}.
Record same_session (u u' : UIRow) : Prop := {
  ss_hash : u_hash u' = u_hash u;
  ss_cred : u_CredentialID u' = u_CredentialID u;
  ss_csrf : u_CSRF u' = u_CSRF u;
  ss_revoked : marked (u_RevokedAt u) (u_RevokedAt u');
}.
Record same_link (l l' : LinkRow) : Prop := {
  sl_hash : l_hash l' = l_hash l;
  sl_cred : l_CredentialID l' = l_CredentialID l;
  sl_expires : l_ExpiresAt l' = l_ExpiresAt l;
  sl_consumed : marked (l_ConsumedAt l) (l_ConsumedAt l');
}.
Definition extends {A} (R : relation A) (m m' : gmap string A) : Prop :=
  ∀ id a, m !! id = Some a → ∃ a', m' !! id = Some a' ∧ R a a'.
Record kept (d d' : DB) : Prop := {
  k_cred : extends same_credential (credentials d) (credentials d');
  k_ui : extends same_session (ui_sessions d) (ui_sessions d');
  k_link : extends same_link (login_links d) (login_links d');
}.

(** What a credential of each kind may hold. *)
Inductive minted (c : Credential) : Prop :=
| minted_operator : c_Kind c = KindOperator → c_Scopes c = allScopes → minted c
| minted_client : c_Kind c = KindClient → c_Scopes c ≠ [] → ScopeAdmin ∉ c_Scopes c → minted c
| minted_agent : c_Kind c = KindAgent → c_Scopes c = [ScopeTools] → c_BoundSessionID c ≠ "" → minted c.
Definition belongs (d : DB) (P : Credential → Prop) (id : string) : Prop :=
  ∃ r, credentials d !! id = Some r ∧ P (r_cred r).
Record wf (d : DB) : Prop := {
  wf_id : ∀ id r, credentials d !! id = Some r → c_ID (r_cred r) = id;
  wf_hash : unique r_hash (credentials d);
  wf_minted : ∀ id r, credentials d !! id = Some r → minted (r_cred r);
  wf_ui_hash : unique u_hash (ui_sessions d);
  wf_ui : ∀ id u, ui_sessions d !! id = Some u → belongs d (λ c, c_Kind c ≠ KindAgent) (u_CredentialID u);
  wf_link_hash : unique l_hash (login_links d);
  wf_link : ∀ id l, login_links d !! id = Some l → belongs d (λ c, c_Kind c = KindOperator) (l_CredentialID l);
}.

#[export] Instance marked_preorder : PreOrder marked.
Proof. split; [by intros o _|]. intros a b c Hab Hbc Ha. rewrite <- (Hab Ha). apply Hbc. by rewrite (Hab Ha). Qed.
#[export] Instance same_credential_preorder : PreOrder same_credential.
Proof.
  split.
  - intros [h []]. by split.
  - intros x y z [Hh Hc Hr] [Hh' Hc' Hr']. split; [congruence| |by etransitivity].
    rewrite Hc' at 1. rewrite Hc at 1. by destruct (r_cred x).
Qed.
#[export] Instance same_session_preorder : PreOrder same_session.
Proof. split; [by intros u; split|]. intros x y z [] []. split; try congruence. by etransitivity. Qed.
#[export] Instance same_link_preorder : PreOrder same_link.
Proof. split; [by intros u; split|]. intros x y z [] []. split; try congruence. by etransitivity. Qed.
#[export] Instance extends_preorder {A} (R : relation A) : PreOrder R → PreOrder (extends R).
Proof.
  intros HR. split; [intros m id a Ha; exists a; split; [done|reflexivity]|].
  intros x y z Hxy Hyz id a Ha. destruct (Hxy id a Ha) as (b&Hb&Hab). destruct (Hyz id b Hb) as (c&Hc&Hbc).
  exists c. split; [done|by etransitivity].
Qed.
#[export] Instance kept_preorder : PreOrder kept.
Proof. split; [by intros d; split|]. intros x y z [] []. split; by etransitivity. Qed.

(** A step of the store: rows are kept and, from a well-formed database, it stays so. *)
Definition good (w w' : AW) : Prop := kept (db w) (db w') ∧ (wf (db w) → wf (db w')).
#[export] Instance good_preorder : PreOrder good.
Proof. split; [by intros w; split|]. intros x y z [] []. split; [by etransitivity|auto]. Qed.
Definition good_step (d d' : DB) : Prop := kept d d' ∧ (wf d → wf d').

Lemma same_kind r r' : same_credential r r' →
  c_Kind (r_cred r') = c_Kind (r_cred r) ∧ c_ID (r_cred r') = c_ID (r_cred r) ∧ c_Scopes (r_cred r') = c_Scopes (r_cred r)
  ∧ c_BoundSessionID (r_cred r') = c_BoundSessionID (r_cred r).
Proof. intros [_ -> _]. done. Qed.
Lemma same_minted r r' : same_credential r r' → minted (r_cred r) → minted (r_cred r').
Proof.
  intros (Hk&_&Hs&Hb)%same_kind Hm. destruct Hm; [apply minted_operator|apply minted_client|apply minted_agent]; congruence.
Qed.
Lemma belongs_kept d d' P id :
  extends same_credential (credentials d) (credentials d') → (∀ r r', same_credential r r' → P (r_cred r) → P (r_cred r')) →
  belongs d P id → belongs d' P id.
Proof. intros He HP (r&Hr&H). destruct (He id r Hr) as (r'&Hr'&Hs). exists r'. split; [done|by eapply HP]. Qed.
Lemma extends_insert {A} (R : relation A) `{!PreOrder R} (m : gmap string A) id a :
  (∀ b, m !! id = Some b → R b a) → extends R m (<[id := a]> m).
Proof.
  intros Ha i b Hb. destruct (decide (i = id)) as [->|Hne].
  - exists a. rewrite lookup_insert_eq. auto.
  - exists b. rewrite lookup_insert_ne by done. split; [done|reflexivity].
Qed.
Lemma extends_fmap {A} (R : relation A) (f : A → A) (m : gmap string A) : (∀ a, R a (f a)) → extends R m (f <$> m).
Proof. intros Hf id a Ha. exists (f a). rewrite lookup_fmap, Ha. auto. Qed.
Lemma extends_alter {A} (R : relation A) `{!PreOrder R} (f : A → A) (m : gmap string A) id : (∀ a, R a (f a)) → extends R m (alter f id m).
Proof.
  intros Hf i a Ha. destruct (decide (i = id)) as [->|Hne].
  - exists (f a). rewrite lookup_alter_eq, Ha. auto.
  - exists a. rewrite lookup_alter_ne by done. split; [done|reflexivity].
Qed.

(** Statements that are steps of the store. *)
Lemma wf_credentials d m :
  wf d → extends same_credential (credentials d) m →
  (∀ id r, m !! id = Some r → c_ID (r_cred r) = id ∧ minted (r_cred r)) → unique r_hash m →
  wf (set_credentials m d).
Proof.
  intros [] He Hm Hu. split; cbn; try done.
  - intros id r Hr. by apply Hm.
  - intros id r Hr. by eapply Hm.
  - intros id u Hr. eapply (belongs_kept d (set_credentials m d)); [done| |by eapply wf_ui0].
    intros r r' (->&_)%same_kind. done.
  - intros id l Hl. eapply (belongs_kept d (set_credentials m d)); [done| |by eapply wf_link0].
    intros r r' (->&_)%same_kind. done.
Qed.
Lemma insert_credential_good r d a d' :
  minted (r_cred r) → insert_credential r d = Some (a, d') → good_step d d'.
Proof.
  intros Hmint. unfold insert_credential. case_bool_decide as Hid; [done|]. case_bool_decide as Hh; [done|].
  case_if; [done|]. intros [= _ <-].
  assert (extends same_credential (credentials d) (<[c_ID (r_cred r) := r]> (credentials d))) as He.
  { apply extends_insert; [apply _|]. intros b Hb. destruct Hid. by exists b. }
  split; [split; [exact He|done|done]|]. intros Hwf. apply wf_credentials; [done|done| |].
  - intros i x. rewrite lookup_insert_Some. intros [[<- <-]|[_ Hx]]; [done|].
    split; [by eapply wf_id|by eapply wf_minted].
  - apply unique_insert_new; [by apply wf_hash|]. by apply eq_None_not_Some.
Qed.
Lemma update_credential_good id cond f d a d' :
  (∀ h c, cond c = true → same_credential (mkRow h c) (mkRow h (f c))) →
  update_credential id cond f d = Some (a, d') → good_step d d'.
Proof.
  intros Hf. unfold update_credential. destruct (credentials d !! id) as [[h c]|] eqn:Hr; [|by intros [= _ <-]; split].
  cbn. destruct (cond c) eqn:Hc; [|by intros [= _ <-]; split]. intros [= _ <-].
  assert (extends same_credential (credentials d) (<[id := mkRow h (f c)]> (credentials d))) as He.
  { apply extends_insert; [apply _|]. intros b. rewrite Hr. intros [= <-]. by apply Hf. }
  split; [split; [exact He|done|done]|]. intros Hwf. apply wf_credentials; [done|done| |].
  - intros i x. rewrite lookup_insert_Some. intros [[<- <-]|[_ Hx]].
    + destruct (same_kind _ _ (Hf h c Hc)) as (_&Hid&_). cbn in *. split.
      * rewrite Hid. by apply (wf_id d Hwf id (mkRow h c)).
      * apply (same_minted (mkRow h c) (mkRow h (f c))); [by apply Hf|]. by apply (wf_minted d Hwf id (mkRow h c)).
    + split; [by eapply wf_id|by eapply wf_minted].
  - apply unique_insert; [by apply wf_hash|]. intros j b Hb Heq. cbn in Heq.
    by apply (wf_hash d Hwf j id b (mkRow h c)).
Qed.
Lemma set_ui_good m d :
  extends same_session (ui_sessions d) m → (wf d → unique u_hash m) →
  (∀ id u, m !! id = Some u → (∃ v, ui_sessions d !! id = Some v ∧ u_CredentialID u = u_CredentialID v)
                              ∨ belongs d (λ c, c_Kind c ≠ KindAgent) (u_CredentialID u)) →
  good_step d (set_ui_sessions m d).
Proof.
  intros He Hu Hm. split; [by split|]. intros Hwf. split; cbn; try apply Hwf.
  - by apply Hu.
  - intros id u Hr. destruct (Hm id u Hr) as [(v&Hv&->)|Hb]; [by apply (wf_ui d Hwf id v)|exact Hb].
Qed.
Lemma set_links_good m d :
  extends same_link (login_links d) m → (wf d → unique l_hash m) →
  (∀ id l, m !! id = Some l → (∃ k, login_links d !! id = Some k ∧ l_CredentialID l = l_CredentialID k)
                              ∨ belongs d (λ c, c_Kind c = KindOperator) (l_CredentialID l)) →
  good_step d (set_login_links m d).
Proof.
  intros He Hu Hm. split; [by split|]. intros Hwf. split; cbn; try apply Hwf.
  - by apply Hu.
  - intros id l Hr. destruct (Hm id l Hr) as [(v&Hv&->)|Hb]; [by apply (wf_link d Hwf id v)|exact Hb].
Qed.
(** A change of the sessions one by one. *)
Lemma map_ui_good f d : (∀ u, same_session u (f u)) → good_step d (set_ui_sessions (f <$> ui_sessions d) d).
Proof.
  intros Hf. apply set_ui_good; [by apply extends_fmap| |].
  - intros Hwf. apply unique_fmap; [|by apply wf_ui_hash]. intros u. by destruct (Hf u).
  - intros id u. rewrite lookup_fmap. intros (v&Hv&->)%fmap_Some. left. exists v. split; [done|]. by destruct (Hf v).
Qed.
Lemma alter_ui_good f id d : (∀ u, same_session u (f u)) → good_step d (set_ui_sessions (alter f id (ui_sessions d)) d).
Proof.
  intros Hf. apply set_ui_good; [by apply extends_alter; [apply _|]| |].
  - intros Hwf. apply unique_alter; [|by apply wf_ui_hash]. intros u. by destruct (Hf u).
  - intros i u. rewrite lookup_alter_Some. intros [[-> (v&Hv&->)]|[_ Hu]]; left; [|by exists u].
    exists v. split; [done|]. by destruct (Hf v).
Qed.
Lemma insert_session_good id u d a d' :
  belongs d (λ c, c_Kind c ≠ KindAgent) (u_CredentialID u) →
  insert_session id u d = Some (a, d') → good_step d d'.
Proof.
  intros Hb. unfold insert_session. case_bool_decide as Hid; [done|]. case_bool_decide as Hh; [done|]. cbn. intros [= _ <-].
  apply set_ui_good.
  - apply extends_insert; [apply _|]. intros b Hx. destruct Hid. by exists b.
  - intros Hwf. apply unique_insert_new; [by apply wf_ui_hash|]. by apply eq_None_not_Some.
  - intros i v. rewrite lookup_insert_Some. intros [[<- <-]|[_ Hv]]; [by right|left; by exists v].
Qed.
Lemma insert_link_good id l d a d' :
  belongs d (λ c, c_Kind c = KindOperator) (l_CredentialID l) →
  insert_link id l d = Some (a, d') → good_step d d'.
Proof.
  intros Hb. unfold insert_link. case_bool_decide as Hid; [done|]. case_bool_decide as Hh; [done|]. cbn. intros [= _ <-].
  apply set_links_good.
  - apply extends_insert; [apply _|]. intros b Hx. destruct Hid. by exists b.
  - intros Hwf. apply unique_insert_new; [by apply wf_link_hash|]. by apply eq_None_not_Some.
  - intros i v. rewrite lookup_insert_Some. intros [[<- <-]|[_ Hv]]; [by right|left; by exists v].
Qed.
(** Spending a code marks its link, which was not spent before. *)
Lemma spend_Some hash t d id d' :
  spend hash t d = Some (Some id, d') →
  ∃ i l, login_links d !! i = Some l ∧ l_hash l = hash ∧ l_ConsumedAt l = None ∧ t < l_ExpiresAt l ∧ l_CredentialID l = id ∧
    d' = set_login_links (<[i := mkLinkRow (l_hash l) id (l_ExpiresAt l) (Some t)]> (login_links d)) d.
Proof.
  unfold spend. destruct (find_row _ _) as [[i l]|] eqn:Hf; [|done]. intros [= <- <-].
  apply find_row_is in Hf as [Hl HP]. cbv beta in HP. b2p. exists i, l. split_and!; done.
Qed.
Lemma spend_good hash t d a d' : spend hash t d = Some (a, d') → good_step d d'.
Proof.
  destruct a as [id|].
  - intros (i&l&Hl&Hh&Hc&_&<-&->)%spend_Some. apply set_links_good.
    + apply extends_insert; [apply _|]. intros b. rewrite Hl. intros [= <-]. split; cbn; try done. by intros [].
    + intros Hwf. apply unique_insert; [by apply wf_link_hash|]. intros j b Hb Heq. by apply (wf_link_hash d Hwf j i b l).
    + intros j x. rewrite lookup_insert_Some. intros [[<- <-]|[_ Hx]]; left; [by exists l|by exists x].
  - unfold spend. destruct (find_row _ _) as [[i l]|]; [done|]. intros [= <-]. by split.
Qed.

(** ** Every operation is a step of the store *)

Section Steps.
Context (E : Env).
Abbreviation op A := (act AW AErr A).
Hint Unfold mbind mret : core.

Lemma up_good w : good w (up w).
Proof. by split. Qed.
Lemma now_good : stays good (now E).
Proof. intros w. apply up_good. Qed.
Lemma NewString_good : stays good (NewString E).
Proof. intros w. apply up_good. Qed.
Lemma exec_good {A} (f : DB → option (A * DB)) :
  (∀ d a d', f d = Some (a, d') → good_step d d') → stays good (exec E f).
Proof.
  intros Hf w. unfold exec. destruct (stmt_fails E (tick w)); [apply up_good|].
  destruct (f (db w)) as [[a d]|] eqn:He; [|apply up_good]. cbn. by apply (Hf _ _ _ He).
Qed.
Lemma query_good {A} (f : DB → A) : stays good (query E f).
Proof. apply exec_good. intros d a d' [= _ <-]. by split. Qed.
Lemma notify_good id : stays good (notifyRevoked id).
Proof. intros w. by split. Qed.
Lemma random_good : stays good (random E).
Proof. intros w. apply up_good. Qed.
Lemma file_good path secret : stays good (WriteTokenFile E path secret).
Proof. intros w. unfold WriteTokenFile. case_if; by split. Qed.

(** A mark on a credential that has none, and changes that leave the mark alone. *)
Lemma revoke_good id t : stays good (exec E (update_credential id unrevoked (with_revoked (Some t)))).
Proof.
  apply exec_good. intros d a d'. apply update_credential_good. unfold unrevoked. intros h c Hc. b2p.
  split; cbn; [done|by destruct c|]. by intros [].
Qed.
Lemma used_good id t : stays good (exec E (update_credential id (λ _, true) (with_used t))).
Proof. apply exec_good. intros d a d'. apply update_credential_good. intros h c _. split; cbn; [done|by destruct c|done]. Qed.
Lemma expiry_good id t : stays good (exec E (update_credential id unrevoked (with_expiry t))).
Proof. apply exec_good. intros d a d'. apply update_credential_good. intros h c _. split; cbn; [done|by destruct c|done]. Qed.
Lemma revoke_sessions_good id t : stays good (exec E (λ d, Some (tt, set_ui_sessions (revoke_sessions id t (ui_sessions d)) d))).
Proof.
  apply exec_good. intros d a d' [= _ <-]. apply map_ui_good. intros u. case_if; [|reflexivity]. b2p. split; cbn; try done.
  by intros [].
Qed.
Lemma slide_session_good id t : stays good (exec E (λ d, Some (tt, set_ui_sessions (alter (slide_session t) id (ui_sessions d)) d))).
Proof. apply exec_good. intros d a d' [= _ <-]. apply alter_ui_good. intros u. by split. Qed.
Lemma audit_good r : stays good (exec E (λ d, Some (tt, set_audit (auth_audit d ++ [r])%list d))).
Proof. apply exec_good. intros d a d' [= _ <-]. split; [by split|]. intros []. by split. Qed.

End Steps.
#[export] Hint Resolve now_good NewString_good query_good notify_good random_good file_good revoke_good used_good
  expiry_good revoke_sessions_good slide_session_good audit_good : stays.
#[export] Hint Extern 1 (PreOrder good) => apply good_preorder : stays.

(** The frame of an operation made of statements, one at a time. *)
Ltac frames :=
  repeat match goal with
  | |- stays _ (mbind _ _) => apply stays_bind; [exact _| |intros ?]
  | |- stays _ (attempt _) => apply stays_attempt
  | |- stays _ (mret _) => apply stays_ret; exact _
  | |- stays _ (fail _) => apply stays_fail; exact _
  | |- stays _ (lift _) => apply stays_lift; exact _
  | |- stays _ (if ?b then _ else _) => destruct b
  | |- stays _ (match ?x with _ => _ end) => destruct x
  | |- stays _ (let '(_, _) := ?x in _) => destruct x
  end; auto with stays.

Section Operations.
Context (E : Env).

Lemma granted_minted p scopes : granted p = Ok scopes →
  p_Kind p ∈ [KindOperator; KindClient; KindAgent] ∧
  ∀ id l t e lu rv by_, minted (mkCredential id (p_Kind p) l scopes (p_BoundSessionID p) t e lu rv by_).
Proof.
  unfold granted. intros Hg. case_bool_decide as Ho.
  { simplify_eq. rewrite Ho. split; [set_solver|]. intros. by apply minted_operator. }
  case_bool_decide as Hc.
  { case_bool_decide as Hs; [done|]. case_bool_decide as Ha; [done|]. simplify_eq. rewrite Hc. split; [set_solver|].
    intros. by apply minted_client. }
  case_bool_decide as Ha; [|done]. case_bool_decide; [done|]. simplify_eq. rewrite Ha. split; [set_solver|].
  intros. by apply minted_agent.
Qed.
Lemma Create_good p : stays good (Create E p).
Proof.
  unfold Create. apply stays_bind_lift; [exact _|]. intros scopes Hg. pose proof (granted_minted _ _ Hg) as [_ Hm].
  unfold newSecret. frames. apply exec_good. intros dx ax dy. apply insert_credential_good, Hm.
Qed.
Lemma byHash_good h : stays good (byHash E h).
Proof. unfold byHash. frames. Qed.
Lemma Get_good id : stays good (Get E id).
Proof. unfold Get. frames. Qed.
Lemma ImportSecret_good s l : stays good (ImportSecret E s l).
Proof.
  unfold ImportSecret. pose proof byHash_good. frames. apply exec_good. intros dx ax dy. apply insert_credential_good.
  by apply minted_operator.
Qed.
Lemma Authenticate_good s : stays good (Authenticate E s).
Proof. unfold Authenticate. pose proof byHash_good. frames. Qed.
Lemma List_good b : stays good (List_ E b).
Proof. unfold List_. frames. Qed.
Lemma HasActiveOperator_good : stays good (HasActiveOperator E).
Proof. unfold HasActiveOperator. frames. Qed.
Lemma Revoke_good id : stays good (Revoke E id).
Proof. unfold Revoke. frames. Qed.
Lemma revoke_all_good ids : stays good (revoke_all E ids).
Proof. induction ids; cbn; frames. apply Revoke_good. Qed.
Lemma RevokeSessionCredentials_good s : stays good (RevokeSessionCredentials E s).
Proof. unfold RevokeSessionCredentials. frames. apply revoke_all_good. Qed.
Lemma Slide_good c t m : stays good (Slide E c t m).
Proof. unfold Slide. frames. Qed.
Lemma Rotate_good id by_ : stays good (Rotate E id by_).
Proof. unfold Rotate. pose proof Get_good. pose proof Create_good. pose proof Revoke_good. frames. Qed.
Lemma Audit_good a b c d e f : stays good (Audit E a b c d e f).
Proof. unfold Audit. frames. Qed.
Lemma AuthenticateUISession_good s : stays good (AuthenticateUISession E s).
Proof. unfold AuthenticateUISession. pose proof Get_good. frames. Qed.
Lemma DeleteUISession_good id : stays good (DeleteUISession E id).
Proof.
  unfold DeleteUISession. frames. apply exec_good. intros dx ax dy [= _ <-]. apply alter_ui_good. intros u.
  case_bool_decide; [|reflexivity]. split; cbn; try done. by intros [].
Qed.
Lemma ConsumeLoginLink_good code : stays good (ConsumeLoginLink E code).
Proof. unfold ConsumeLoginLink. pose proof Get_good. frames. apply exec_good, spend_good. Qed.
Lemma revoke_operators_good cs : stays good (revoke_operators E cs).
Proof. induction cs; cbn; frames. apply Revoke_good. Qed.
Lemma EnsureOperator_good p o : stays good (EnsureOperator E p o).
Proof. unfold EnsureOperator. pose proof ImportSecret_good. pose proof HasActiveOperator_good. pose proof Create_good. frames. Qed.
Lemma ResetOperator_good p : stays good (ResetOperator E p).
Proof. unfold ResetOperator. pose proof List_good. pose proof revoke_operators_good. pose proof Create_good. frames. Qed.

(** A session or a link needs a credential of the right kind in the store. *)
Lemma from_bind {A B} (P : Credential → Prop) id (m : act AW AErr A) (k : A → act AW AErr B) w :
  (∀ r r', same_credential r r' → P (r_cred r) → P (r_cred r')) →
  stays good m → (∀ a w', belongs (db w') P id → good w' (k a w').2) →
  belongs (db w) P id → good w ((m ≫= k) w).2.
Proof.
  intros HP Hm Hk Hb. specialize (Hm w). unfold mbind, act_bind. destruct (m w) as [[a|e] w']; cbn in *; [|done].
  etransitivity; [exact Hm|]. apply Hk. eapply belongs_kept; [apply Hm|exact HP|exact Hb].
Qed.
Lemma CreateUISession_good c w : belongs (db w) (λ c, c_Kind c ≠ KindAgent) (c_ID c) → good w (CreateUISession E c w).2.
Proof.
  assert (∀ r r', same_credential r r' → c_Kind (r_cred r) ≠ KindAgent → c_Kind (r_cred r') ≠ KindAgent) as HP.
  { intros r r' (->&_)%same_kind. done. }
  unfold CreateUISession. case_bool_decide as Hk; [reflexivity|]. revert w.
  assert (stays good (opaqueToken E)) as Ht by (unfold opaqueToken; frames).
  intros w. eapply (from_bind (λ c, c_Kind c ≠ KindAgent)); [done|exact Ht|]. intros [cookie hash] w1.
  eapply from_bind; [done|exact Ht|]. intros [csrf x] w2.
  eapply from_bind; [done|apply now_good|]. intros t w3.
  eapply from_bind; [done|apply NewString_good|]. intros id w4 Hb.
  unfold mbind, act_bind, exec. destruct (stmt_fails E (tick w4)); [apply up_good|].
  destruct (insert_session _ _ _) as [[a d]|] eqn:Hi; [|apply up_good]. cbn. eapply insert_session_good; [|exact Hi]; exact Hb.
Qed.
Lemma CreateLoginLink_good c w : (c_Kind c = KindOperator → belongs (db w) (λ c, c_Kind c = KindOperator) (c_ID c)) →
  good w (CreateLoginLink E c w).2.
Proof.
  assert (∀ r r', same_credential r r' → c_Kind (r_cred r) = KindOperator → c_Kind (r_cred r') = KindOperator) as HP.
  { intros r r' (->&_)%same_kind. done. }
  unfold CreateLoginLink. case_bool_decide as Hk; cbn [negb]; [|reflexivity]. intros Hb. specialize (Hb Hk). revert w Hb.
  assert (stays good (opaqueToken E)) as Ht by (unfold opaqueToken; frames).
  intros w. eapply (from_bind (λ c, c_Kind c = KindOperator)); [done|exact Ht|]. intros [code hash] w1.
  eapply from_bind; [done|apply now_good|]. intros t w3.
  eapply from_bind; [done|apply NewString_good|]. intros id w4 Hb.
  unfold mbind, act_bind, exec. destruct (stmt_fails E (tick w4)); [apply up_good|].
  destruct (insert_link _ _ _) as [[a d]|] eqn:Hi; [|apply up_good]. cbn. eapply insert_link_good; [|exact Hi]; exact Hb.
Qed.
End Operations.
#[export] Hint Resolve Create_good byHash_good Get_good ImportSecret_good Authenticate_good List_good HasActiveOperator_good
  Revoke_good RevokeSessionCredentials_good Slide_good Rotate_good Audit_good AuthenticateUISession_good DeleteUISession_good
  ConsumeLoginLink_good EnsureOperator_good ResetOperator_good : stays.

(** ** What is not revoked stays, but for a revocation *)

Definition same_alive (r r' : Row) : Prop := c_RevokedAt (r_cred r) = None →
  c_Kind (r_cred r') = c_Kind (r_cred r) ∧ c_RevokedAt (r_cred r') = None.
#[export] Instance same_alive_preorder : PreOrder same_alive.
Proof. split; [by intros r|]. intros x y z Hxy Hyz Hx. destruct (Hxy Hx) as [Hk Hy]. destruct (Hyz Hy). split; congruence. Qed.
Definition alive (w w' : AW) : Prop := extends same_alive (credentials (db w)) (credentials (db w')).
#[export] Instance alive_preorder : PreOrder alive.
Proof. split; [intros w; unfold alive; reflexivity|]. intros x y z. unfold alive. by etransitivity. Qed.
#[export] Hint Extern 1 (PreOrder alive) => apply alive_preorder : stays.

Section Alive.
Context (E : Env).
Lemma same_db_alive {A} (m : act AW AErr A) : (∀ w, credentials (db (m w).2) = credentials (db w)) → stays alive m.
Proof. intros Hm w. unfold alive. rewrite Hm. reflexivity. Qed.
Lemma exec_alive {A} (f : DB → option (A * DB)) :
  (∀ d a d', f d = Some (a, d') → extends same_alive (credentials d) (credentials d')) → stays alive (exec E f).
Proof.
  intros Hf w. unfold exec, alive. destruct (stmt_fails E (tick w)); [cbn; reflexivity|].
  destruct (f (db w)) as [[a d]|] eqn:He; [|cbn; reflexivity]. cbn. by apply (Hf _ _ _ He).
Qed.
(** A statement on another table. *)
Lemma exec_elsewhere {A} (f : DB → option (A * DB)) :
  (∀ d a d', f d = Some (a, d') → credentials d' = credentials d) → stays alive (exec E f).
Proof. intros Hf. apply exec_alive. intros d a d' ->%Hf. reflexivity. Qed.
Lemma query_alive {A} (f : DB → A) : stays alive (query E f).
Proof. apply exec_elsewhere. by intros d a d' [= _ <-]. Qed.
Lemma now_alive : stays alive (now E).
Proof. by apply same_db_alive. Qed.
Lemma NewString_alive : stays alive (NewString E).
Proof. by apply same_db_alive. Qed.
Lemma random_alive : stays alive (random E).
Proof. by apply same_db_alive. Qed.
Lemma file_alive path secret : stays alive (WriteTokenFile E path secret).
Proof. apply same_db_alive. intros w. unfold WriteTokenFile. by case_if. Qed.
Lemma insert_credential_alive r : stays alive (exec E (insert_credential r)).
Proof.
  apply exec_alive. intros d a d'. unfold insert_credential. case_bool_decide as Hid; [done|]. case_bool_decide; [done|].
  case_if; [done|]. intros [= _ <-]. apply extends_insert; [exact _|]. intros b Hb. destruct Hid. by exists b.
Qed.
Lemma update_credential_alive id cond f :
  (∀ c, c_Kind (f c) = c_Kind c ∧ c_RevokedAt (f c) = c_RevokedAt c) → stays alive (exec E (update_credential id cond f)).
Proof.
  intros Hf. apply exec_alive. intros d a d'. unfold update_credential. destruct (credentials d !! id) as [r|] eqn:Hr; [|intros [= _ <-]; reflexivity].
  case_if; intros [= _ <-]; [|reflexivity]. apply extends_insert; [exact _|]. rewrite Hr. intros b [= <-] Hv. cbn.
  destruct (Hf (r_cred r)) as [-> ->]. done.
Qed.
Hint Resolve query_alive now_alive NewString_alive random_alive file_alive insert_credential_alive : stays.
Hint Extern 1 (stays alive (exec _ (update_credential _ _ _))) => apply update_credential_alive; done : stays.
Hint Extern 2 (stays alive (exec _ _)) => apply exec_elsewhere; by intros ?????[= _ <-] : stays.

Lemma Create_alive p : stays alive (Create E p).
Proof. unfold Create, newSecret. frames. Qed.
Lemma byHash_alive h : stays alive (byHash E h).
Proof. unfold byHash. frames. Qed.
Lemma Get_alive id : stays alive (Get E id).
Proof. unfold Get. frames. Qed.
Hint Resolve Create_alive byHash_alive Get_alive : stays.
Lemma ImportSecret_alive s l : stays alive (ImportSecret E s l).
Proof. unfold ImportSecret. frames. Qed.
Lemma Authenticate_alive s : stays alive (Authenticate E s).
Proof. unfold Authenticate. frames. Qed.
Lemma List_alive b : stays alive (List_ E b).
Proof. unfold List_. frames. Qed.
Lemma Slide_alive c t m : stays alive (Slide E c t m).
Proof. unfold Slide. frames. Qed.
Lemma Audit_alive a b c d e f : stays alive (Audit E a b c d e f).
Proof. unfold Audit. frames. apply exec_elsewhere. by intros dx ax dy [= _ <-]. Qed.
Lemma AuthenticateUISession_alive s : stays alive (AuthenticateUISession E s).
Proof. unfold AuthenticateUISession. frames. apply exec_elsewhere. by intros dx ax dy [= _ <-]. Qed.
Lemma DeleteUISession_alive id : stays alive (DeleteUISession E id).
Proof. unfold DeleteUISession. frames. apply exec_elsewhere. by intros dx ax dy [= _ <-]. Qed.
Lemma CreateUISession_alive c : stays alive (CreateUISession E c).
Proof. unfold CreateUISession, opaqueToken. frames. apply exec_elsewhere. intros dx ax dy. unfold insert_session. case_if; [done|]. by intros [= _ <-]. Qed.
Lemma CreateLoginLink_alive c : stays alive (CreateLoginLink E c).
Proof. unfold CreateLoginLink, opaqueToken. frames. apply exec_elsewhere. intros dx ax dy. unfold insert_link. case_if; [done|]. by intros [= _ <-]. Qed.
Lemma ConsumeLoginLink_alive code : stays alive (ConsumeLoginLink E code).
Proof.
  unfold ConsumeLoginLink. frames. apply exec_elsewhere. intros dx ax dy. unfold spend.
  destruct (find_row _ _) as [[i l]|]; by intros [= _ <-].
Qed.
Lemma EnsureOperator_alive p o : stays alive (EnsureOperator E p o).
Proof. unfold EnsureOperator, HasActiveOperator. pose proof ImportSecret_alive. frames. Qed.
End Alive.
#[export] Hint Resolve now_alive file_alive Create_alive Get_alive Authenticate_alive List_alive Slide_alive Audit_alive AuthenticateUISession_alive
  DeleteUISession_alive CreateUISession_alive CreateLoginLink_alive ConsumeLoginLink_alive EnsureOperator_alive : stays.

(** ** What the operations return *)

Section Results.
Context (E : Env).

Lemma stmt_Ok {A} (f : DB → option (A * DB)) w a w' :
  exec E f w = (Ok a, w') → f (db w) = Some (a, db w') ∧ tick w' = S (tick w) ∧ stmt_fails E (tick w) = false ∧ notified w' = notified w.
Proof.
  unfold exec. destruct (stmt_fails E (tick w)); [done|]. destruct (f (db w)) as [[x d]|]; [|done]. by intros [= -> <-].
Qed.
Lemma select_Ok {A} (f : DB → A) w a w' :
  query E f w = (Ok a, w') → a = f (db w) ∧ db w' = db w ∧ tick w' = S (tick w).
Proof. intros (Hf&Ht&_)%stmt_Ok. injection Hf as <- <-. done. Qed.
Lemma exec_tick {A} (f : DB → option (A * DB)) w : tick (exec E f w).2 = S (tick w).
Proof. unfold exec. destruct (stmt_fails E (tick w)); [done|]. by destruct (f (db w)) as [[x d]|]. Qed.
Lemma query_tick {A} (f : DB → A) w : tick (query E f w).2 = S (tick w).
Proof. apply exec_tick. Qed.
Lemma byHash_tick h w : tick (byHash E h w).2 = S (tick w).
Proof.
  unfold byHash, mbind, act_bind. pose proof (query_tick (λ d, find_row (λ r, bool_decide (r_hash r = h)) (credentials d)) w) as Ht.
  by destruct (query E _ w) as [[[[id r]|]|e] w1].
Qed.
Lemma query_works {A} (f : DB → A) w : stmt_fails E (tick w) = false →
  query E f w = (Ok (f (db w)), mkAW (db w) (files w) (notified w) (S (tick w))).
Proof. unfold query, exec. by intros ->. Qed.

Lemma Get_Ok id w c w' : Get E id w = (Ok c, w') →
  ∃ r, credentials (db w) !! id = Some r ∧ c = r_cred r ∧ db w' = db w.
Proof.
  unfold Get. intros ([r|]&w1&(Hq&Hd&_)%select_Ok&Hk)%bind_Ok; [|done]. apply mret_Ok in Hk as [-> ->]. by exists r.
Qed.
Lemma byHash_Ok h w c w' : byHash E h w = (Ok c, w') →
  ∃ id r, credentials (db w) !! id = Some r ∧ r_hash r = h ∧ c = r_cred r ∧ db w' = db w.
Proof.
  unfold byHash. intros ([[id r]|]&w1&(Hq&Hd&_)%select_Ok&Hk)%bind_Ok; [|done]. apply mret_Ok in Hk as [-> ->].
  symmetry in Hq. apply find_row_is in Hq as [Hr Hh]. cbv beta in Hh. b2p. by exists id, r.
Qed.
(** An accepted secret is the one of a row that is neither revoked nor expired. *)
Lemma Authenticate_Ok s w c w' : Authenticate E s w = (Ok c, w') →
  ∃ id r, credentials (db w) !! id = Some r ∧ r_hash r = hashSecret E s ∧
    Active (r_cred r) (now_at E (S (tick w))) = true ∧ c = with_used (c_LastUsedAt c) (r_cred r).
Proof.
  unfold Authenticate. case_if; [done|]. intros (found&w1&Ha&Hk)%bind_Ok. rewrite attempt_Ok in Ha.
  injection Ha as <- <-. pose proof (byHash_tick (hashSecret E s) w) as Htick.
  destruct (byHash E (hashSecret E s) w) as [[c0|e] w1] eqn:Hb; cbn [fst snd] in *; [|done].
  apply byHash_Ok in Hb as (id&r&Hr&Hh&->&_). apply bind_Ok in Hk as (t&w2&[= <- <-]&Hk).
  rewrite Htick in Hk. case_if_in Hk; [done|]. b2p. exists id, r. split_and!; [done..|].
  case_if_in Hk; [|by apply mret_Ok in Hk as [-> _]; destruct (r_cred r)].
  apply bind_Ok in Hk as (x&w3&_&Hk). by apply mret_Ok in Hk as [-> _].
Qed.
Lemma Authenticate_tick s w c w' : Authenticate E s w = (Ok c, w') → (tick w < tick w')%nat.
Proof.
  unfold Authenticate. case_if; [done|]. intros (found&w1&Ha&Hk)%bind_Ok. rewrite attempt_Ok in Ha.
  injection Ha as <- <-. pose proof (byHash_tick (hashSecret E s) w) as Htick.
  destruct (byHash E (hashSecret E s) w) as [[c0|e] w1]; cbn [fst snd] in *; [|done].
  apply bind_Ok in Hk as (t&w2&[= <- <-]&Hk). case_if_in Hk; [done|].
  case_if_in Hk; [|apply mret_Ok in Hk as [_ ->]; cbn; lia].
  apply bind_Ok in Hk as (x&w3&Hx&Hk). apply mret_Ok in Hk as [_ ->]. rewrite attempt_Ok in Hx. injection Hx as _ <-.
  rewrite exec_tick. cbn. lia.
Qed.
Lemma AuthenticateUISession_Ok s w id u c w' : AuthenticateUISession E s w = (Ok (id, u, c), w') →
  let t := now_at E (S (tick w)) in
  ∃ v r, ui_sessions (db w) !! id = Some v ∧ u_hash v = hashSecret E s ∧ u_RevokedAt v = None ∧
    t < u_ExpiresAt v ∧ u = slide_session (u_ExpiresAt u) v ∧
    credentials (db w) !! u_CredentialID v = Some r ∧ c = r_cred r ∧ Active c t = true.
Proof.
  unfold AuthenticateUISession. case_if; [done|]. intros (found&w1&Ha&Hk)%bind_Ok. rewrite attempt_Ok in Ha.
  injection Ha as <- <-. destruct (query E _ w) as [[o|e] w1] eqn:Hq; cbn [fst snd] in Hk; [|done].
  apply select_Ok in Hq as (Hf&Hd&Htick). destruct o as [[i v]|]; [|done]. symmetry in Hf.
  apply find_row_is in Hf as [Hv Hh]. cbv beta in Hh.
  apply bind_Ok in Hk as (t&w2&[= <- <-]&Hk). rewrite Htick in Hk. case_if_in Hk; [done|]. apply orb_false_iff in Hif0 as [Hr He]. b2p.
  apply bind_Ok in Hk as (cred&w3&Ha&Hk). rewrite attempt_Ok in Ha. injection Ha as <- <-.
  destruct (Get E (u_CredentialID v) (up w1)) as [[c0|e] w3] eqn:Hg; cbn [fst snd] in Hk; [|done].
  apply Get_Ok in Hg as (r&Hr'&->&_). case_if_in Hk; [done|]. b2p.
  exists v, r. change (db (up w1)) with (db w1) in Hr'. rewrite Hd in Hr'.
  case_if_in Hk.
  - apply bind_Ok in Hk as (x&w4&_&Hk). apply mret_Ok in Hk as [[= -> -> ->] _]. by split_and!.
  - apply mret_Ok in Hk as [[= -> -> ->] _]. split_and!; try done. by destruct v.
Qed.
(** A code is accepted only while its link is unspent and unexpired, and is spent by it. *)
Lemma ConsumeLoginLink_Ok code w c w' : ConsumeLoginLink E code w = (Ok c, w') →
  let t := now_at E (tick w) in
  ∃ i l r, login_links (db w) !! i = Some l ∧ l_hash l = hashSecret E code ∧ l_ConsumedAt l = None ∧
    t < l_ExpiresAt l ∧ credentials (db w) !! l_CredentialID l = Some r ∧ c = r_cred r ∧
    Active c t = true ∧
    login_links (db w') !! i = Some (mkLinkRow (l_hash l) (l_CredentialID l) (l_ExpiresAt l) (Some t)).
Proof.
  unfold ConsumeLoginLink. intros (t&w1&[= <- <-]&Hk)%bind_Ok. apply bind_Ok in Hk as (spent&w2&Ha&Hk).
  rewrite attempt_Ok in Ha. injection Ha as <- <-.
  destruct (exec E (spend (hashSecret E code) (now_at E (tick w))) (up w)) as [[[id|]|e] w2] eqn:He; cbn [fst snd] in Hk; try done.
  apply stmt_Ok in He as (Hs&_). change (db (up w)) with (db w) in Hs.
  apply spend_Some in Hs as (i&l&Hl&Hh&Hc&Ht&<-&Hd).
  apply bind_Ok in Hk as (cred&w3&Ha&Hk). rewrite attempt_Ok in Ha. injection Ha as <- <-.
  destruct (Get E (l_CredentialID l) w2) as [[c0|e] w3] eqn:Hg; cbn [fst snd] in Hk; [|done].
  apply Get_Ok in Hg as (r&Hr&->&Hd3). case_if_in Hk; [|done]. apply mret_Ok in Hk as [-> ->].
  rewrite Hd in Hr. exists i, l, r. split_and!; try done.
  rewrite Hd3, Hd. cbn. by rewrite lookup_insert_eq.
Qed.
Lemma Create_Ok p w c secret w' : Create E p w = (Ok (c, secret), w') →
  ∃ body, rand_at E (tick w) = Some body ∧ secret = secret_of (p_Kind p) body ∧ c_Kind c = p_Kind p ∧
    c_BoundSessionID c = p_BoundSessionID p ∧ c_Label c = p_Label p ∧ granted p = Ok (c_Scopes c) ∧ c_RevokedAt c = None ∧ c_LastUsedAt c = None ∧
    c_ExpiresAt c = (if 0 <? p_TTL p then Some (c_CreatedAt c + p_TTL p) else None) ∧
    insert_credential (mkRow (hashSecret E secret) c) (db w) = Some (tt, db w').
Proof.
  unfold Create. intros (scopes&w1&[Hg ->]%lift_Ok&Hk)%bind_Ok. case_if_in Hk; [done|].
  apply bind_Ok in Hk as ([s h]&w2&Hs&Hk). unfold newSecret in Hs. apply bind_Ok in Hs as (body&w3&Hr&Hs).
  unfold random in Hr. destruct (rand_at E (tick w)) as [b|] eqn:Hb; [|done]. injection Hr as <- <-.
  apply mret_Ok in Hs as [[= -> ->] ->]. apply bind_Ok in Hk as (t&w4&[= <- <-]&Hk).
  apply bind_Ok in Hk as (id&w5&[= <- <-]&Hk). apply bind_Ok in Hk as ([]&w6&(Hi&_)%stmt_Ok&Hk).
  apply mret_Ok in Hk as [[= -> ->] ->]. exists b. cbn in *. by split_and!.
Qed.
Lemma insert_credential_Some r d d' : insert_credential r d = Some (tt, d') →
  credentials d' = <[c_ID (r_cred r) := r]> (credentials d) ∧ credentials d !! c_ID (r_cred r) = None.
Proof.
  unfold insert_credential. case_bool_decide as Hid; [done|]. case_bool_decide; [done|]. case_if; [done|]. intros [= <-].
  split; [done|]. by apply eq_None_not_Some.
Qed.
Lemma byHash_works id r w :
  wf (db w) → stmt_fails E (tick w) = false → credentials (db w) !! id = Some r →
  byHash E (r_hash r) w = (Ok (r_cred r), mkAW (db w) (files w) (notified w) (S (tick w))).
Proof.
  intros Hwf Hf Hr. unfold byHash, mbind, act_bind. rewrite query_works by done.
  rewrite (find_row_the _ _ id r); [done|done|by rewrite bool_decide_true|].
  intros i x Hx Hh. b2p. by apply (wf_hash _ Hwf i id x r).
Qed.
(** A revocation touches the row of its credential only, and leaves it revoked. *)
Lemma Revoke_row id w b w' : Revoke E id w = (Ok b, w') →
  (∀ i, i ≠ id → credentials (db w') !! i = credentials (db w) !! i) ∧
  (∀ r, credentials (db w) !! id = Some r → ∃ r', credentials (db w') !! id = Some r' ∧ c_RevokedAt (r_cred r') ≠ None).
Proof.
  unfold Revoke. intros (t&w1&[= <- <-]&Hk)%bind_Ok. apply bind_Ok in Hk as (n&w2&(Hu&_)%stmt_Ok&Hk).
  change (db (up w)) with (db w) in Hu.
  assert (credentials (db w') = credentials (db w2)) as ->.
  { case_if_in Hk; [by apply mret_Ok in Hk as [_ ->]|]. apply bind_Ok in Hk as ([]&w3&(Hs&_)%stmt_Ok&Hk).
    apply bind_Ok in Hk as ([]&w4&[= <-]&Hk). apply mret_Ok in Hk as [_ ->]. by injection Hs as <-. }
  unfold update_credential in Hu. destruct (credentials (db w) !! id) as [r0|] eqn:Hr0.
  - destruct (unrevoked (r_cred r0)) eqn:Hv; injection Hu as _ <-.
    + cbn. split; [intros i Hi; by rewrite lookup_insert_ne|]. intros r _. rewrite lookup_insert_eq. by eexists.
    + split; [done|]. intros r [= <-]. exists r0. split; [done|]. unfold unrevoked in Hv. by b2p.
  - injection Hu as _ <-. done.
Qed.

Lemma kindOfSecret_of k body :
  k ∈ [KindOperator; KindClient; KindAgent] → String.length body = body_length → kindOfSecret (secret_of k body) = Ok k.
Proof.
  intros Hk Hb. unfold kindOfSecret, secret_of.
  rewrite (proj2 (cut_prefix_Some _ _ (k +:+ "_" +:+ body))) by done.
  rewrite (str_app_cons "_" ""), str_app_nil_l. rewrite cut_app.
  - rewrite (bool_decide_true _ Hb). cbn [negb]. by rewrite bool_decide_true.
  - by repeat (apply elem_of_cons in Hk as [->|Hk]; [done|]); apply elem_of_nil in Hk.
Qed.
End Results.

(** ** Properties *)

Section Properties.
Context (E : Env).

(** C21. A new secret opens the door it was made for.  When a credential is created in
    a well-formed store, its secret has the shape of its kind, and presenting it
    authenticates as that credential, with its kind, scopes and session, for as long
    as it is active; the store itself holds only the hash. *)
Theorem minted_secret_authenticates p w c secret w' :
  wf (db w) → (∀ n b, rand_at E n = Some b → String.length b = body_length) →
  Create E p w = (Ok (c, secret), w') → stmt_fails E (tick w') = false →
  kindOfSecret secret = Ok (c_Kind c) ∧
  (Authenticate E secret w').1 =
    (let t := now_at E (S (tick w')) in
     if Active c t then Ok (with_used (Some t) c) else Err EUnauthenticated) ∧
  credentials (db w') !! c_ID c = Some (mkRow (hashSecret E secret) c).
Proof.
  intros Hwf Hlen Hc Hf. pose proof (Create_good E p w) as [_ Hwf']. rewrite Hc in Hwf'. specialize (Hwf' Hwf). cbn in Hwf'.
  apply Create_Ok in Hc as (body&Hb&->&Hk&_&_&Hg&_&Hu&_&Hi).
  apply insert_credential_Some in Hi as [Hi _].
  assert (credentials (db w') !! c_ID c = Some (mkRow (hashSecret E (secret_of (p_Kind p) body)) c)) as Hrow.
  { rewrite Hi. cbn. apply lookup_insert_eq. }
  assert (kindOfSecret (secret_of (p_Kind p) body) = Ok (c_Kind c)) as Hkind.
  { rewrite Hk. apply kindOfSecret_of; [|by eapply Hlen]. by apply granted_minted in Hg as [? _]. }
  split_and!; [done| |done].
  unfold Authenticate. rewrite Hkind. cbn [is_ok negb]. unfold mbind, act_bind. rewrite attempt_Ok.
  rewrite (byHash_works E _ _ w' Hwf' Hf Hrow : byHash E (hashSecret E _) w' = _). cbn [fst snd r_cred].
  unfold now at 1. cbn [tick]. destruct (Active c (now_at E (S (tick w')))); cbn [negb]; [|done].
  rewrite Hu. by rewrite attempt_Ok.
Qed.

(** Sliding keeps an agent's credential alive and within bounds.  The expiry never
    moves back; when it moves, it moves to at most the lifetime from now and at most
    the absolute cap from the creation; a revoked credential is left as it is, and so
    is every other credential. *)
Theorem slide_bounded c ttl maxLife w e w' :
  Slide E c ttl maxLife w = (Ok e, w') →
  (∀ x, e = Some x → e ≠ c_ExpiresAt c → x ≤ now_at E (tick w) + ttl ∧ x ≤ c_CreatedAt c + maxLife) ∧
  (∀ y, c_ExpiresAt c = Some y → ∃ x, e = Some x ∧ y ≤ x) ∧
  (∀ id r, credentials (db w) !! id = Some r →
     credentials (db w') !! id = Some r ∨
     id = c_ID c ∧ c_RevokedAt (r_cred r) = None ∧
     credentials (db w') !! id = Some (mkRow (r_hash r) (with_expiry e (r_cred r)))).
Proof.
  unfold Slide. intros (t&w1&[= <- <-]&Hk)%bind_Ok. remember (Z.min (now_at E (tick w) + ttl) (c_CreatedAt c + maxLife)) as next eqn:Hn.
  destruct (after next (c_ExpiresAt c)) eqn:Ha; cbn [negb] in Hk.
  - apply bind_Ok in Hk as (b&w2&(Hu&_)%stmt_Ok&Hk). apply mret_Ok in Hk as [-> ->]. split_and!.
    + intros x [= <-] _. lia.
    + intros y Hy. rewrite Hy in Ha. cbn in Ha. b2p. exists next. split; [done|lia].
    + intros id r Hr. revert Hu. unfold update_credential. change (db (up w)) with (db w).
      destruct (credentials (db w) !! c_ID c) as [r0|] eqn:Hr0; [|intros [= _ <-]; by left].
      destruct (unrevoked (r_cred r0)) eqn:Hv; [|intros [= _ <-]; by left]. intros [= _ <-]. cbn.
      destruct (decide (id = c_ID c)) as [->|Hne]; [|by rewrite lookup_insert_ne; auto].
      right. rewrite Hr0 in Hr. simplify_eq. unfold unrevoked in Hv. b2p. split_and!; [done..|]. by rewrite lookup_insert_eq.
  - apply mret_Ok in Hk as [-> ->]. split_and!; [done|by intros y ->; exists y|by left].
Qed.

(** Rotation replaces a credential by an equal one.  When a rotation succeeds the
    new credential has the kind, label, scopes, session and lifetime of the old one,
    is stored unrevoked, and the old one is revoked. *)
Theorem rotate_replaces id createdBy w c secret w' :
  wf (db w) → Rotate E id createdBy w = (Ok (c, secret), w') →
  ∃ old, credentials (db w) !! id = Some old ∧
    c_Kind c = c_Kind (r_cred old) ∧ (∀ s, Has c s = Has (r_cred old) s) ∧
    c_Label c = c_Label (r_cred old) ∧ c_BoundSessionID c = c_BoundSessionID (r_cred old) ∧
    match c_ExpiresAt (r_cred old) with
    | None => c_ExpiresAt c = None
    | Some e => 0 < e - c_CreatedAt (r_cred old) ≤ max_int64 →
                c_ExpiresAt c = Some (c_CreatedAt c + (e - c_CreatedAt (r_cred old)))
    end ∧
    c_RevokedAt c = None ∧ c_ID c ≠ id ∧
    (∃ r, credentials (db w') !! c_ID c = Some r ∧ r_hash r = hashSecret E secret ∧ c_RevokedAt (r_cred r) = None) ∧
    (∃ r, credentials (db w') !! id = Some r ∧ c_RevokedAt (r_cred r) ≠ None).
Proof.
  intros Hwf. unfold Rotate. intros (found&w1&Ha&Hk)%bind_Ok. rewrite attempt_Ok in Ha. injection Ha as <- <-.
  destruct (Get E id w) as [[old|e] w1] eqn:Hg; cbn [fst snd] in Hk; [|done].
  apply Get_Ok in Hg as (r&Hr&->&Hd). apply bind_Ok in Hk as ([c0 s0]&w2&Hc&Hk).
  apply Create_Ok in Hc as (body&_&->&Hkind&Hbound&Hlabel&Hgr&Hrev&_&Hexp&Hi). cbn [p_Kind p_BoundSessionID p_Label p_TTL] in *.
  apply insert_credential_Some in Hi as [Hi Hfresh]. cbn [r_cred] in *. rewrite Hd in Hi, Hfresh.
  apply bind_Ok in Hk as (b&w3&Hrv&Hk). apply mret_Ok in Hk as [[= -> ->] ->].
  assert (c_ID c0 ≠ id) as Hne by (intros Heq; rewrite Heq in Hfresh; congruence).
  exists r. split_and!; try done.
  - intros s. unfold Has. rewrite Hkind. case_bool_decide as Ho; [done|]. f_equal.
    pose proof (wf_minted _ Hwf id r Hr) as Hm. unfold granted in Hgr. cbn [p_Kind p_Scopes p_BoundSessionID] in Hgr.
    rewrite bool_decide_false in Hgr by done. destruct Hm as [?|Hk Hs Hadm|Hk Hs Hb]; [done| |].
    + rewrite Hk in Hgr. rewrite (bool_decide_true (KindClient = KindClient)) in Hgr by done.
      rewrite !bool_decide_false in Hgr by done. congruence.
    + rewrite Hk in Hgr. rewrite (bool_decide_false (KindAgent = KindClient)), (bool_decide_true (KindAgent = KindAgent)) in Hgr by done.
      rewrite bool_decide_false in Hgr by done. congruence.
  - destruct (c_ExpiresAt (r_cred r)) as [e|]; [|done]. intros Hlife. rewrite clampZ_id in Hexp by (unfold min_int64; lia).
    by rewrite (proj2 (Z.ltb_lt _ _)) in Hexp by lia.
  - destruct (Revoke_row E id w2 b w3 Hrv) as [Hother _]. exists (mkRow (hashSecret E (secret_of (c_Kind (r_cred r)) body)) c0).
    rewrite Hother by done. rewrite Hi. by rewrite lookup_insert_eq.
  - destruct (Revoke_row E id w2 b w3 Hrv) as [_ Hthis]. apply (Hthis r). rewrite Hi. by rewrite lookup_insert_ne.
Qed.

(** After the bootstrap there is a way in.  When it succeeds without an override,
    the store holds an operator that is not revoked; and when it created one, the
    secret in the token file is that operator's and authenticates as it. *)
Theorem ensure_operator_gives_access tokenPath w created w' :
  wf (db w) → (∀ n b, rand_at E n = Some b → String.length b = body_length) →
  EnsureOperator E tokenPath "" w = (Ok created, w') →
  ∃ id r, credentials (db w') !! id = Some r ∧ c_Kind (r_cred r) = KindOperator ∧ c_RevokedAt (r_cred r) = None ∧
    (created = true → ∃ secret, files w' !! tokenPath = Some (secret +:+ String (byte 10) "") ∧
       kindOfSecret secret = Ok KindOperator ∧ r_hash r = hashSecret E secret ∧ c_ExpiresAt (r_cred r) = None).
Proof.
  intros Hwf Hlen. unfold EnsureOperator. rewrite bool_decide_true by done. cbn [negb].
  intros (has&w1&(Hh&Hd&_)%select_Ok&Hk)%bind_Ok. destruct has.
  - apply mret_Ok in Hk as [-> ->]. symmetry in Hh. apply bool_decide_eq_true in Hh as [[id r] Hf].
    apply find_row_is in Hf as [Hr HP]. cbv beta in HP. unfold unrevoked in HP. b2p. exists id, r. rewrite Hd. done.
  - case_if_in Hk; [done|]. apply bind_Ok in Hk as ([c secret]&w2&Hc&Hk).
    apply Create_Ok in Hc as (body&Hb&->&Hkind&_&_&_&Hrev&_&Hexp&Hi). apply insert_credential_Some in Hi as [Hi _].
    apply bind_Ok in Hk as ([]&w3&Hw&Hk). apply mret_Ok in Hk as [-> ->].
    unfold WriteTokenFile in Hw. destruct (file_fails E (tick w2)); [done|]. injection Hw as <-. cbn in *.
    exists (c_ID c), (mkRow (hashSecret E (secret_of KindOperator body)) c). rewrite Hi. cbn. rewrite lookup_insert_eq.
    split_and!; try done. intros _. exists (secret_of KindOperator body). rewrite lookup_insert_eq. split_and!; try done.
    apply kindOfSecret_of; [set_solver|by eapply Hlen].
Qed.
End Properties.

(** ** Worked examples *)

Definition empty_db : DB := mkDB ∅ ∅ ∅ [].
Lemma empty_wf : wf empty_db.
Proof. by split; intros ? *. Qed.

Module Example_auth.
Definition env : Env := {|
  now_at n := 1000000000 * Z.of_nat n;
  uuid_at n := String (byte n) "";
  rand_at n := Some (String.string_of_list_ascii (replicate 42 "a"%char ++ [byte (65 + n)])%list);
  stmt_fails _ := false;
  file_fails _ := false;
  sha s := "#" +:+ s;
|}.
Definition start : AW := mkAW empty_db ∅ [] 0.
Definition params : CreateParams := mkParams KindClient "tangent" [ScopeRead; ScopeOperate] "" (24 * hour) "operator".
Definition client : Credential * string :=
  match (Create env params start).1 with Ok r => r | Err _ => (mkCredential "" "" "" [] "" 0 None None None "", "") end.
Definition with_client : AW := (Create env params start).2.
Definition run {A} (m : act AW AErr A) (w : AW) : AW := (m w).2.

Lemma bodies n b : rand_at env n = Some b → String.length b = body_length.
Proof. by intros [= <-]. Qed.
Lemma with_client_wf : wf (db with_client).
Proof. by apply (Create_good env params start), empty_wf. Qed.
Lemma with_client_ok : Create env params start = (Ok client, with_client).
Proof. reflexivity. Qed.

(** A revoked credential can be rotated, and the new secret works. *)
Example rotate_revives_revoked :
  let w := run (Revoke env (c_ID client.1)) with_client in
  (Authenticate env client.2 w).1 = Err EUnauthenticated ∧
  match Rotate env (c_ID client.1) "admin" w with
  | (Ok (c, secret), w') => is_ok (Authenticate env secret w').1 = true ∧ c_Scopes c = [ScopeRead; ScopeOperate]
  | _ => False
  end.
Proof. vm_compute. done. Qed.

(** An override whose credential was revoked is accepted at start-up, and opens nothing. *)
Definition override : string := secret_of KindOperator (String.string_of_list_ascii (replicate 43 "x"%char)).
Example revoked_override_accepted :
  let w := run (ImportSecret env override "env-override") start in
  let w := run (Revoke env (String (byte 2) "")) w in
  (EnsureOperator env "token" override w).1 = Ok false ∧
  (Authenticate env override w).1 = Err EUnauthenticated ∧
  (HasActiveOperator env w).1 = Ok false.
Proof. vm_compute. done. Qed.

Lemma minted_secret_authenticates_witness :
  kindOfSecret client.2 = Ok KindClient ∧
  (Authenticate env client.2 with_client).1 = Ok (with_used (Some (1000000000 * 5)) client.1).
Proof.
  destruct (minted_secret_authenticates env params start client.1 client.2 with_client) as (H1&H2&_).
  - apply empty_wf.
  - apply bodies.
  - apply with_client_ok.
  - reflexivity.
  - split; [exact H1|]. etransitivity; [exact H2|]. reflexivity.
Defined.
Lemma slide_bounded_witness :
  let c := mkCredential "id" KindAgent "a" [ScopeTools] "s" 0 (Some hour) None None "host" in
  let next := 1800 * 1000000000 + hour in
  Slide env c hour (24 * hour) (mkAW (db with_client) ∅ [] 1800) = (Ok (Some next), mkAW (db with_client) ∅ [] 1802) ∧
  next ≤ 1800 * 1000000000 + hour ∧ next ≤ 24 * hour.
Proof.
  intros c next. assert (Slide env c hour (24 * hour) (mkAW (db with_client) ∅ [] 1800) = (Ok (Some next), mkAW (db with_client) ∅ [] 1802)) as Hs by reflexivity.
  split; [exact Hs|]. destruct (slide_bounded env c _ _ _ _ _ Hs) as (H&_&_). apply (H next); [reflexivity|discriminate].
Defined.
Lemma rotate_replaces_witness :
  ∃ c secret w', Rotate env (c_ID client.1) "admin" with_client = (Ok (c, secret), w') ∧
    c_Kind c = KindClient ∧ c_ID c ≠ c_ID client.1.
Proof.
  destruct (Rotate env (c_ID client.1) "admin" with_client) as [[[c secret]|e] w'] eqn:Hr;
    [|pose proof (f_equal (is_ok ∘ fst) Hr) as Hf; vm_compute in Hf; discriminate].
  exists c, secret, w'. split; [reflexivity|].
  destruct (rotate_replaces env _ _ _ _ _ _ with_client_wf Hr) as (old&Hold&Hk&_&_&_&_&_&Hne&_).
  split; [|exact Hne]. rewrite Hk.
  assert (credentials (db with_client) !! c_ID client.1 = Some (mkRow (hashSecret env client.2) client.1)) as Hrow by (vm_compute; reflexivity).
  rewrite Hrow in Hold. injection Hold as <-. reflexivity.
Defined.
Lemma ensure_operator_gives_access_witness :
  ∃ w', EnsureOperator env "token" "" start = (Ok true, w') ∧
    ∃ id r, credentials (db w') !! id = Some r ∧ c_Kind (r_cred r) = KindOperator ∧ is_Some (files w' !! "token").
Proof.
  destruct (EnsureOperator env "token" "" start) as [[[]|e] w'] eqn:He;
    [|pose proof (f_equal fst He) as Hf; vm_compute in Hf; discriminate..].
  exists w'. split; [reflexivity|].
  destruct (ensure_operator_gives_access env "token" start true w' empty_wf bodies He) as (id&r&Hr&Hk&_&Hfile).
  exists id, r. destruct (Hfile eq_refl) as (s&Hs&_). split; [exact Hr|]. split; [exact Hk|]. by exists (s +:+ String (byte 10) "").
Defined.
End Example_auth.
