(* ===== verification/ApiGuard.v ===== *)
(** * The guard of the HTTP API

    [internal/apiauth]: principals ([principal.go]), the table that gives every route
    its scope ([routes.go]), the middleware that authenticates and authorises each
    request ([middleware.go], with the Tether service tokens of [tether.go]), and the
    registry of requests in flight ([registry.go]).

    The mux, the JWT library and the liveness of a session are the environment's. *)

From S2P Require Import Prelude GoStrings GoRegexp GoNet ApiAuth.

Open Scope string_scope.
Open Scope Z_scope.
Set Default Proof Using "Type*".

(** ** Principals *)

Record Principal := mkPrincipal {
  pr_CredentialID : string;
  pr_Kind : string;
  pr_Label : string;
  pr_Scopes : list string;
  pr_BoundSessionID : string;
  pr_Cookie : bool;
  pr_UISessionID : string;
  pr_CSRF : string;
}.
Definition p_Has (p : Principal) (s : string) : bool :=
  if bool_decide (pr_Kind p = KindOperator) then true else scopesInclude (pr_Scopes p) s.
Definition Actor (p : Principal) : string :=
  if bool_decide (pr_Label p = "") then pr_Kind p +:+ ":" +:+ pr_CredentialID p
  else pr_Kind p +:+ ":" +:+ pr_Label p.

(** ** Routes and their scopes *)

Record routeRule := mkRule { ru_methods : list string; ru_path : string; ru_scope : string; ru_alt : string }.
Definition rule (methods path scope : string) : routeRule :=
  mkRule (if bool_decide (methods = "") then [] else split "," methods) path scope "".
Definition altRule (methods path scope alt : string) : routeRule :=
  let r := rule methods path scope in mkRule (ru_methods r) (ru_path r) (ru_scope r) alt.
(** A pattern that does not compile would stop the program; all do
    ([rules_compile]). *)
Definition MustCompile (s : string) : regex := default (Class false []) (Compile s).

Definition is_read (m : string) : bool := bool_decide (m = "GET") || bool_decide (m = "HEAD").
Definition method_matches (method m : string) : bool :=
  (bool_decide (m = "!GET") && negb (is_read method)) || bool_decide (m = method)
  || (bool_decide (m = "GET") && bool_decide (method = "HEAD")).
Definition rule_matches (r : routeRule) (method path : string) : bool :=
  if negb (MatchString (MustCompile (ru_path r)) path) then false
  else match ru_methods r with
       | [] => true
       | ms => existsb (method_matches method) ms
       end.

(** The credential API itself. *)
Definition session_rule : routeRule := rule "GET" "^/api/auth/session$" ScopeRead.
Definition logout_rule : routeRule := rule "POST" "^/api/auth/logout$" ScopeRead.
Definition auth_rule : routeRule := rule "" "^/api/auth(/|$)" ScopeAdmin.
(** Tool calls forwarded by an agent's subprocess. *)
Definition tools_rule : routeRule := rule "POST" "^/api/tools/call$" ScopeTools.

Definition routeRules : list routeRule := [
  session_rule;
  logout_rule;
  auth_rule;
  rule "" "^/api/admin/mcp$" ScopeAgentsManage;
  rule "" "^/api/admin(/|$)" ScopeAdmin;
  rule "GET" "^/api/native-authority(/|$)" ScopeAgentsManage;
  rule "" "^/api/native-authority(/|$)" ScopeAdmin;
  rule "POST" "^/api/native-agents/\{[^}]+\}/enroll$" ScopeAdmin;
  rule "" "^/api/(agent-setup|native-agents)(/|$)" ScopeAgentsManage;
  altRule "!GET" "^/api/agent-host-settings(/.*)?$" ScopeAgentsManage ScopeMaintain;
  rule "POST" "^/api/agent-reload$" ScopeMaintain;
  rule "!GET" "^/api/agents/\{[^}]+\}/(retire|retirement-export)$" ScopeAdmin;
  rule "POST" "^/api/agents/(install|\{[^}]+\}/sync|provision/general-chat|\{[^}]+\}/copy-to-managed)$" ScopeAdmin;
  rule "!GET" "^/api/plugins/(install-archive|install-local|uninstall|enable|disable|reload|catalog/.*)$" ScopeAdmin;
  rule "POST" "^/api/plugins/events$" ScopeMaintain;
  rule "!GET" "^/api/mcp-servers(/.*)?$" ScopeAdmin;
  rule "GET" "^/api/mcp-servers(/.*)?$" ScopeMaintain;
  rule "POST" "^/api/providers/\{[^}]+\}/test$" ScopeMaintain;
  rule "!GET" "^/api/providers(/.*)?$" ScopeAdmin;
  rule "!GET" "^/api/sessions/\{[^}]+\}/(shell-exec|shell-mode)$" ScopeAdmin;
  rule "POST" "^/api/commands/execute$" ScopeAdmin;
  rule "POST" "^/api/processes/kill-stale$" ScopeAdmin;
  rule "PUT" "^/api/permissions/mode$" ScopeAdmin;
  rule "GET" "^/api/plugin-config(/.*)?$" ScopeMaintain;
  rule "" "^/api/plugin-host(/.*)?$" ScopeMaintain;
  tools_rule;
  rule "!GET" "^/api/tools(/.*)?$" ScopeMaintain;
  rule "" "^/api/agent/v1(/.*)?$" ScopeOperate;
  rule "!GET" "^/api/(sessions|a2a|echo|workers|work|workflows|stream|messaging|teams|plans|todos|tasks|memories|projects|loops|goals|handoffs|pending|documents|artifacts|items|envelopes|drawer-cards|reflexes|durable-agent-wake|approvals|metrics|envelope)(/.*)?$" ScopeOperate;
  rule "!GET" "^/api/(agents|agent-host-settings|agent-definitions|agent-builder|durable-agents|durable-agent-recipes|skills|roles|consumers|schedules|settings|plugin-config|plugins|catalog|models)(/.*)?$" ScopeMaintain;
  rule "GET" "^/api(/.*)?$" ScopeRead ].

Fixpoint first_rule (rules : list routeRule) (method path : string) : option routeRule :=
  match rules with
  | [] => None
  | r :: rest => if rule_matches r method path then Some r else first_rule rest method path
  end.
(** The scope a pattern requires, another that also satisfies it, and whether a rule
    named it. *)
Definition ScopesFor (method pattern : string) : string * string * bool :=
  let '(method, path) :=
    match cut " " pattern with
    | Some (m, p) => (if bool_decide (method = "") then m else method, p)
    | None => (method, pattern)
    end in
  let method := if bool_decide (method = "") then "GET" else method in
  match first_rule routeRules method path with
  | Some r => (ru_scope r, ru_alt r, true)
  | None => if is_read method then (ScopeRead, "", false) else (ScopeAdmin, "", false)
  end.
Definition ScopeFor (method pattern : string) : string * bool :=
  let '(need, _, matched) := ScopesFor method pattern in (need, matched).

Definition isPublic (method path : string) : bool :=
  bool_decide ((method, path) ∈ [("GET", "/api/health"); ("GET", "/api/agent/v1/initialize");
    ("GET", "/.well-known/agent-card.json"); ("POST", "/api/auth/login"); ("GET", "/api/auth/link")]).
Definition handlerAuthenticated (method path : string) : bool :=
  (bool_decide (method = "GET") && has_prefix path "/api/plugin-host/query/")
  || (bool_decide (method = "POST") && bool_decide (path = "/api/plugin-host/durable-wake")).
Definition needsCredential (path : string) : bool := bool_decide (path = "/api") || has_prefix path "/api/".

(** ** Requests *)

(** [q_Authorization], [q_Origin] and [q_CSRF] are header values, empty when the
    header is missing. *)
Record Request := mkRequest {
  q_Method : string;
  q_Path : string;
  q_Host : string;
  q_RemoteAddr : string;
  q_Authorization : string;
  q_Cookie : option string;
  q_Origin : string;
  q_CSRF : string;
}.
Definition LoopbackHost (host : string) : bool :=
  let h := match SplitHostPort host with Some (hh, _) => hh | None => host end in
  let h := trim_right (trim_left h "[]") "[]" in
  if bool_decide (h = "localhost") || has_suffix h ".localhost" then true
  else match ParseIP h with Some ip => IsLoopback ip | None => false end.
Definition unsafeMethod (m : string) : bool := negb (bool_decide (m ∈ ["GET"; "HEAD"; "OPTIONS"])).
Definition remoteHost (r : Request) : string :=
  match SplitHostPort (q_RemoteAddr r) with Some (h, _) => h | None => q_RemoteAddr r end.
(** The text after the first [://]. *)
Fixpoint after_scheme (s : string) : option string :=
  match cut_prefix s "://" with
  | Some rest => Some rest
  | None => match s with "" => None | String _ s' => after_scheme s' end
  end.
Definition originMatchesHost (r : Request) : bool :=
  if bool_decide (q_Origin r = "") then true
  else equal_fold (default (q_Origin r) (after_scheme (q_Origin r))) (q_Host r).

(** What is written to a refused request. *)
Inductive Refusal :=
| AdminFailure (status : Z) (forbidden : bool)
| Failure (status : Z) (code : string) (required_scope : option string).
Definition writeErrorWith (r : Request) (status : Z) (code : string) (required : option string) : Refusal :=
  if bool_decide (q_Path r = "/api/admin") || has_prefix (q_Path r) "/api/admin/"
  then AdminFailure status (bool_decide (status = 403))
  else Failure status code required.
Definition writeError (r : Request) (status : Z) (code : string) : Refusal := writeErrorWith r status code None.
Definition writeUnauthorized (r : Request) : Refusal := writeError r 401 "unauthenticated".
Definition writeForbidden (r : Request) (need : string) : Refusal := writeErrorWith r 403 "forbidden" (Some need).

(** ** Requests in flight *)

(** An entry is a number; [byKey] gives the entries of a key, [canceled] the entries
    whose context was cancelled. *)
Record Registry := mkRegistry { byKey : gmap string (gset nat); canceled : gset nat; next_entry : nat }.
Definition entries (k : string) (g : Registry) : gset nat := default ∅ (byKey g !! k).
Definition set_entries (k : string) (s : gset nat) (m : gmap string (gset nat)) : gmap string (gset nat) :=
  if bool_decide (s = ∅) then delete k m else <[k := s]> m.
Fixpoint add_keys (e : nat) (keys : list string) (m : gmap string (gset nat)) : gmap string (gset nat) :=
  match keys with
  | [] => m
  | k :: rest =>
      if bool_decide (k = "") then add_keys e rest m
      else add_keys e rest (<[k := {[e]} ∪ default ∅ (m !! k)]> m)
  end.
Definition add (keys : list string) (g : Registry) : nat * Registry :=
  (next_entry g, mkRegistry (add_keys (next_entry g) keys (byKey g)) (canceled g) (S (next_entry g))).
Fixpoint remove_keys (e : nat) (keys : list string) (m : gmap string (gset nat)) : gmap string (gset nat) :=
  match keys with
  | [] => m
  | k :: rest =>
      match m !! k with
      | Some s => remove_keys e rest (set_entries k (s ∖ {[e]}) m)
      | None => remove_keys e rest m
      end
  end.
Definition unregister (e : nat) (keys : list string) (g : Registry) : Registry :=
  mkRegistry (remove_keys e keys (byKey g)) (canceled g) (next_entry g).
Definition cancelKey (k : string) (g : Registry) : Registry :=
  mkRegistry (byKey g) (entries k g ∪ canceled g) (next_entry g).
Definition cancel_entry (e : nat) (g : Registry) : Registry :=
  mkRegistry (byKey g) ({[e]} ∪ canceled g) (next_entry g).

(** ** The guard *)

(** What [TetherVerifier] gets from the JWT library for a token at a time: the
    identifier and the display name of its subject. *)
Record Guard := mkGuard {
  HasStore : bool;
  Pattern : option (Request → string);
  HostAllowed : option (string → bool);
  SessionLive : option (nat → string → bool);
  Insecure : bool;
  ServiceTokens : option (nat → string → option (string * string));
  ttl_env : string;
  max_env : string;
}.
Record GW := mkGW { aw : AW; denials : Z; window : Z; reg : Registry }.
Definition set_aw (a : AW) (w : GW) : GW := mkGW a (denials w) (window w) (reg w).
Definition set_reg (r : Registry) (w : GW) : GW := mkGW (aw w) (denials w) (window w) r.

Definition synthetic : Principal :=
  mkPrincipal "insecure-dev" KindOperator "insecure-dev" allScopes "" false "" "".
Definition serviceScopes : list string := [ScopeRead; ScopeOperate; ScopeTools].
Definition VerifyServiceToken (verified : option (string * string)) : result AErr Principal :=
  match verified with
  | None => Err EUnauthenticated
  | Some (id, display) =>
      if bool_decide (id = "") then Err EUnauthenticated
      else let label := if bool_decide (display = "") then id else display in
           Ok (mkPrincipal ("tether:" +:+ id) KindClient ("tether/" +:+ label) serviceScopes "" false "" "")
  end.
Definition principal_of (c : Credential) : Principal :=
  mkPrincipal (c_ID c) (c_Kind c) (c_Label c) (c_Scopes c) (c_BoundSessionID c) false "" "".
Definition session_principal (id : string) (u : UIRow) (c : Credential) : Principal :=
  mkPrincipal (c_ID c) (c_Kind c) (c_Label c) (c_Scopes c) "" true id (u_CSRF u).
(** The keys a request is registered under. *)
Definition request_keys (p : Principal) : list string := [pr_CredentialID p; "ui:" +:+ pr_UISessionID p].

Inductive Verdict :=
| Pass (p : option Principal)
| Serve (p : Principal) (expires : option Z)
| Refuse (e : Refusal).

Section Guarded.
Context (E : Env) (ParseDuration : string → option Z) (g : Guard).
Abbreviation op A := (act GW AErr A).

(** A call of the store: its revocations cancel the requests under the credential,
    because [NewGuard] listens. *)
Definition store {A} (m : act AW AErr A) : op A := λ w,
  let '(r, a) := m (aw w) in
  (r, mkGW a (denials w) (window w)
        (foldl (λ g id, cancelKey id g) (reg w) (drop (length (notified (aw w))) (notified a)))).
Definition gtick : op nat := λ w, (Ok (tick (aw w)), set_aw (up (aw w)) w).

(** A failed attempt is audited, twenty times a second at most. *)
Definition bump (now : Z) : op Z := λ w,
  let n := (if bool_decide (window w = now) then denials w else 0) + 1 in
  (Ok n, mkGW (aw w) n now (reg w)).
Definition deny (r : Request) (reason : string) : op unit :=
  t ← store (now E);
  n ← bump (t / 1000000000);
  if 20 <? n then mret tt
  else store (Audit E "" "" (q_Method r) (q_Path r) ("denied:" +:+ reason) (remoteHost r)).
Definition audit (r : Request) (p : Principal) (route outcome : string) : op unit :=
  store (Audit E (pr_CredentialID p) (pr_Kind p) (q_Method r) route outcome (remoteHost r)).
Definition refuse (r : Request) (reason : string) : op (result Refusal (Principal * option Z)) :=
  _ ← deny r reason; mret (Err (writeUnauthorized r)).

Definition authenticate (r : Request) : op (result Refusal (Principal * option Z)) :=
  if negb (HasStore g) then mret (Err (writeUnauthorized r))
  else if negb (bool_decide (q_Authorization r = "")) then
    match cut_prefix (q_Authorization r) "Bearer " with
    | None => refuse r "bad-scheme"
    | Some secret =>
        found ← attempt (store (Authenticate E secret));
        match found, ServiceTokens g with
        | Err _, Some verify =>
            if bool_decide (count_byte "." secret = 2%nat) then
              n ← gtick;
              match VerifyServiceToken (verify n secret) with
              | Ok p => mret (Ok (p, None))
              | Err _ => refuse r "bad-service-token"
              end
            else refuse r "bad-credential"
        | Err _, None => refuse r "bad-credential"
        | Ok c, _ =>
            if bool_decide (c_Kind c = KindAgent) then
              n ← gtick;
              if match SessionLive g with Some live => negb (live n (c_BoundSessionID c)) | None => false end
              then refuse r "session-ended"
              else
                let '(agentTTL, agentCap) := agentCredentialTTLs ParseDuration (ttl_env g) (max_env g) in
                slid ← attempt (store (Slide E c agentTTL agentCap));
                mret (Ok (principal_of c, match slid with Ok next => next | Err _ => c_ExpiresAt c end))
            else mret (Ok (principal_of c, c_ExpiresAt c))
        end
    end
  else match q_Cookie r with
  | Some cookie =>
      found ← attempt (store (AuthenticateUISession E cookie));
      match found with
      | Ok (id, u, c) => mret (Ok (session_principal id u c, Some (u_ExpiresAt u)))
      | Err _ => refuse r "bad-session"
      end
  | None => refuse r "no-credential"
  end.

Definition pattern_of (r : Request) : string :=
  let pattern := match Pattern g with Some f => f r | None => "" end in
  if bool_decide (pattern = "") then q_Method r +:+ " " +:+ q_Path r else pattern.
Definition hostOK (r : Request) : bool := default LoopbackHost (HostAllowed g) (q_Host r).
(** Requests that are served without a credential. *)
Definition open_path (r : Request) : bool :=
  negb (needsCredential (q_Path r)) && negb (bool_decide (q_Path r = "/.well-known/agent-card.json")).
Definition open_route (r : Request) : bool :=
  bool_decide (q_Method r = "OPTIONS") || isPublic (q_Method r) (q_Path r) || handlerAuthenticated (q_Method r) (q_Path r).

(** What an authenticated caller may do. *)
Definition authorize (r : Request) (p : Principal) (expires : option Z) : op Verdict :=
  let pattern := pattern_of r in
  let '(need, alt, _) := ScopesFor (q_Method r) pattern in
  if negb (p_Has p need) && (bool_decide (alt = "") || negb (p_Has p alt)) then
    _ ← audit r p pattern "forbidden"; mret (Refuse (writeForbidden r need))
  else if pr_Cookie p && unsafeMethod (q_Method r) && negb (originMatchesHost r) then
    _ ← audit r p pattern "bad-origin"; mret (Refuse (writeError r 403 "forbidden"))
  else if pr_Cookie p && unsafeMethod (q_Method r) && negb (bool_decide (q_CSRF r = pr_CSRF p)) then
    _ ← audit r p pattern "bad-csrf"; mret (Refuse (writeError r 403 "forbidden"))
  else
    _ ← (if bool_decide (need = ScopeAdmin)
            || ((bool_decide (need = ScopeMaintain) || bool_decide (need = ScopeAgentsManage)) && unsafeMethod (q_Method r))
         then audit r p pattern "allowed" else mret tt);
    mret (Serve p expires).
(** The middleware up to the registration of the request. *)
Definition admission (r : Request) : op Verdict :=
  if negb (hostOK r) then mret (Refuse (writeError r 403 "forbidden"))
  else if open_path r then mret (Pass None)
  else if open_route r then mret (Pass None)
  else if Insecure g then mret (Pass (Some synthetic))
  else
    a ← authenticate r;
    match a with
    | Err e => mret (Refuse e)
    | Ok (p, expires) => authorize r p expires
    end.
Definition register (p : Principal) : op nat := λ w,
  let '(e, g') := add (request_keys p) (reg w) in (Ok e, set_reg g' w).
Definition finish (e : nat) (p : Principal) : op unit := λ w,
  (Ok tt, set_reg (cancel_entry e (unregister e (request_keys p) (reg w))) w).

(** [next] runs with the principal of its request's context, the deadline and the
    entry that cancels it. *)
Definition Middleware {A} (next : option Principal → option Z → option nat → op A) (r : Request) : op (result Refusal A) :=
  v ← admission r;
  match v with
  | Refuse e => mret (Err e)
  | Pass p => a ← next p None None; mret (Ok a)
  | Serve p expires =>
      e ← register p;
      a ← attempt (next (Some p) expires (Some e));
      _ ← finish e p;
      a ← lift a;
      mret (Ok a)
  end.

Definition EndUISession (id : string) : op unit :=
  r ← attempt (store (DeleteUISession E id));
  _ ← modify (λ w, set_reg (cancelKey ("ui:" +:+ id) (reg w)) w);
  lift r.
End Guarded.

(** ** The route table *)

Lemma rules_compile : forallb (λ r, bool_decide (is_Some (Compile (ru_path r)))) routeRules = true.
Proof. vm_compute. reflexivity. Qed.
#[global] Opaque MustCompile.

Lemma first_rule_Some rules m p r : first_rule rules m p = Some r → r ∈ rules ∧ rule_matches r m p = true.
Proof.
  induction rules as [|x rules IH]; [done|]. cbn. destruct (rule_matches x m p) eqn:Hx.
  - intros [= <-]. split; [by left|done].
  - intros [Hr Hm]%IH. split; [by right|done].
Qed.
(** A property of every rule, decided on the table. *)
Lemma routeRules_all (P : routeRule → bool) : forallb P routeRules = true → ∀ r, r ∈ routeRules → P r = true.
Proof. intros Hall r Hr. rewrite forallb_forall in Hall. apply Hall. by apply list_elem_of_In. Qed.

(** The pattern [^lit$] matches the literal and nothing else; [^lit(/|$)] the literal
    and what continues it after a slash. *)
Definition exactly (lit : string) : regex := Cat (cat_lit (Cat Eps Bol) lit) Eol.
Definition under (lit : string) : regex := Cat (cat_lit (Cat Eps Bol) lit) (Alt (Cat Eps (Chr "/")) (Cat Eps Eol)).
Lemma matches_bol b s q : matches (Cat Eps Bol) (b, s) q ↔ b = true ∧ q = (true, s).
Proof.
  split.
  - inversion 1; subst. match goal with H : matches Eps _ _ |- _ => inversion H; subst end.
    match goal with H : matches Bol _ _ |- _ => inversion H; subst end. done.
  - intros [-> ->]. eapply m_cat; constructor.
Qed.
Lemma lit_anchored lit r : anchored (Cat (cat_lit (Cat Eps Bol) lit) r).
Proof. apply anch_l, cat_lit_anchored, anch_eps, anch_bol. Qed.
Lemma matches_lit lit s q : lit ≠ "" →
  matches (cat_lit (Cat Eps Bol) lit) (true, s) q ↔ ∃ t, s = lit +:+ t ∧ q = (false, t).
Proof.
  intros Hl. rewrite cat_lit_matches by done. split.
  - intros (b&t&[_ [= -> <-]]%matches_bol&->). by exists t.
  - intros (t&->&->). exists true, t. split; [|done]. by apply matches_bol.
Qed.
Lemma MatchString_exactly lit s : lit ≠ "" → MatchString (exactly lit) s = true ↔ s = lit.
Proof.
  intros Hl. rewrite MatchString_anchored by apply lit_anchored. unfold exactly. split.
  - intros [q Hq]. inversion Hq; subst. match goal with H : matches (cat_lit _ _) _ _ |- _ => apply matches_lit in H as (t&->&->); [|done] end.
    match goal with H : matches Eol _ _ |- _ => inversion H; subst end. apply str_app_nil_r.
  - intros ->. eexists. eapply m_cat; [|apply m_eol]. apply matches_lit; [done|]. exists "". by rewrite str_app_nil_r.
Qed.
Lemma MatchString_under lit s : lit ≠ "" →
  MatchString (under lit) s = true ↔ s = lit ∨ ∃ t, s = lit +:+ String "/" t.
Proof.
  intros Hl. rewrite MatchString_anchored by apply lit_anchored. unfold under. split.
  - intros [q Hq]. inversion Hq; subst. match goal with H : matches (cat_lit _ _) _ _ |- _ => apply matches_lit in H as (t&->&->); [|done] end.
    match goal with H : matches (Alt _ _) _ _ |- _ => inversion H; subst end;
      match goal with H : matches (Cat Eps _) _ _ |- _ => inversion H; subst end;
      match goal with H : matches Eps _ _ |- _ => inversion H; subst end.
    + match goal with H : matches (Chr _) _ _ |- _ => apply matches_chr in H as (b&u&[= -> ->]&_) end. right. by exists u.
    + match goal with H : matches Eol _ _ |- _ => inversion H; subst end. left. apply str_app_nil_r.
  - intros [->|[t ->]].
    + eexists. eapply m_cat; [apply matches_lit; [done|]; exists ""; by rewrite str_app_nil_r|]. apply m_alt_r. eapply m_cat; constructor.
    + eexists. eapply m_cat; [apply matches_lit; [done|]; by exists (String "/" t)|]. apply m_alt_l. eapply m_cat; constructor.
Qed.

Lemma session_path s : MatchString (MustCompile (ru_path session_rule)) s = true ↔ s = "/api/auth/session".
Proof. apply (MatchString_exactly "/api/auth/session"). done. Qed.
Lemma logout_path s : MatchString (MustCompile (ru_path logout_rule)) s = true ↔ s = "/api/auth/logout".
Proof. apply (MatchString_exactly "/api/auth/logout"). done. Qed.
Lemma tools_path s : MatchString (MustCompile (ru_path tools_rule)) s = true ↔ s = "/api/tools/call".
Proof. apply (MatchString_exactly "/api/tools/call"). done. Qed.
Lemma auth_path s : MatchString (MustCompile (ru_path auth_rule)) s = true ↔ s = "/api/auth" ∨ ∃ t, s = "/api/auth" +:+ String "/" t.
Proof. apply (MatchString_under "/api/auth"). done. Qed.

Lemma matches_GET method : existsb (method_matches method) ["GET"] = is_read method.
Proof. unfold existsb, method_matches, is_read. by repeat case_bool_decide; simplify_eq. Qed.
Lemma matches_POST method : existsb (method_matches method) ["POST"] = bool_decide (method = "POST").
Proof. unfold existsb, method_matches. by repeat case_bool_decide; simplify_eq. Qed.

(** The path and the method a route is classified by. *)
Definition route_path (pattern : string) : string :=
  match cut " " pattern with Some (_, p) => p | None => pattern end.
Lemma ScopesFor_eq method pattern : method ≠ "" →
  ScopesFor method pattern =
    match first_rule routeRules method (route_path pattern) with
    | Some r => (ru_scope r, ru_alt r, true)
    | None => if is_read method then (ScopeRead, "", false) else (ScopeAdmin, "", false)
    end.
Proof.
  intros Hm. unfold ScopesFor, route_path. rewrite (bool_decide_false (method = "")) by done.
  destruct (cut " " pattern) as [[m p]|]; by rewrite (bool_decide_false (method = "")) by done.
Qed.
(** The tools scope opens one route. *)
Lemma tools_scope method pattern need alt b : method ≠ "" →
  ScopesFor method pattern = (need, alt, b) → need = ScopeTools ∨ alt = ScopeTools →
  method = "POST" ∧ route_path pattern = "/api/tools/call".
Proof.
  intros Hm. rewrite ScopesFor_eq by done. destruct (first_rule routeRules method (route_path pattern)) as [r|] eqn:Hf.
  - apply first_rule_Some in Hf as [Hin Hmatch]. intros [= <- <- <-] Hs.
    pose proof (routeRules_all (λ r, (negb (bool_decide (ru_scope r = ScopeTools)) && negb (bool_decide (ru_alt r = ScopeTools)))
      || bool_decide (ru_path r = ru_path tools_rule) && bool_decide (ru_methods r = ["POST"])) eq_refl r Hin) as Ht.
    cbv beta in Ht. apply orb_true_iff in Ht as [Ht|Ht]; b2p; [by destruct Hs|].
    unfold rule_matches in Hmatch. match goal with H : ru_path r = _ |- _ => rewrite H in Hmatch end.
    destruct (MatchString _ _) eqn:Hp; [|done]. apply tools_path in Hp. split; [|done]. cbn [negb] in Hmatch.
    match goal with H : ru_methods r = _ |- _ => rewrite H in Hmatch end. change (existsb (method_matches method) ["POST"] = true) in Hmatch.
    rewrite matches_POST in Hmatch. by b2p.
  - destruct (is_read method); intros [= <- <- <-] [|]; done.
Qed.
(** The credential API needs the admin scope, but for one's own session. *)
Definition own_session (method path : string) : bool :=
  (is_read method && bool_decide (path = "/api/auth/session")) || (bool_decide (method = "POST") && bool_decide (path = "/api/auth/logout")).
Lemma auth_scope method pattern : method ≠ "" →
  (route_path pattern = "/api/auth" ∨ ∃ t, route_path pattern = "/api/auth" +:+ String "/" t) →
  own_session method (route_path pattern) = false →
  ScopesFor method pattern = (ScopeAdmin, "", true).
Proof.
  intros Hm Hp Ho. rewrite ScopesFor_eq by done. unfold own_session in Ho. apply orb_false_iff in Ho as [Hs Hl].
  unfold routeRules. cbn [first_rule].
  replace (rule_matches session_rule method (route_path pattern)) with false; [|symmetry].
  2:{ unfold rule_matches. destruct (MatchString _ _) eqn:He; [|done]. apply session_path in He.
      rewrite (bool_decide_true _ He), andb_true_r in Hs. cbn [negb]. change (existsb (method_matches method) ["GET"] = false).
      by rewrite matches_GET. }
  replace (rule_matches logout_rule method (route_path pattern)) with false; [|symmetry].
  2:{ unfold rule_matches. destruct (MatchString _ _) eqn:He; [|done]. apply logout_path in He.
      rewrite (bool_decide_true _ He), andb_true_r in Hl. cbn [negb]. change (existsb (method_matches method) ["POST"] = false).
      by rewrite matches_POST. }
  replace (rule_matches auth_rule method (route_path pattern)) with true; [done|symmetry].
  unfold rule_matches. by rewrite (proj2 (auth_path _) Hp).
Qed.

(** Patterns under [/api] that no rule names need admin to write. *)
Example scopes_ex :
  (λ mp, ScopesFor mp.1 mp.2) <$> [("GET", "GET /api/auth/session"); ("HEAD", "GET /api/auth/session"); ("POST", "/api/auth/session");
    ("POST", "POST /api/tools/call"); ("GET", "/api/tools/call"); ("DELETE", "DELETE /api/sessions/{id}"); ("PUT", "/api/unknown");
    ("PUT", "PUT /api/agent-host-settings/x"); ("", "POST /api/agents/{id}/retire"); ("GET", "/api/admin/mcp")] =
  [("read", "", true); ("read", "", true); ("admin", "", true); ("tools", "", true); ("read", "", true); ("operate", "", true);
   ("admin", "", false); ("agents:manage", "maintain", true); ("admin", "", true); ("agents:manage", "", true)].
Proof. vm_compute. reflexivity. Qed.
Example hosts_ex : LoopbackHost <$> ["localhost:8080"; "[::1]:80"; "[::1]"; "app.localhost"; "evil.com"; "127.0.0.1.evil.com"; "127.0.0.2:9"] =
  [true; true; true; true; false; false; true].
Proof. vm_compute. reflexivity. Qed.

(** ** What the guard does to the store *)

Definition ggood (w w' : GW) : Prop := good (aw w) (aw w').
#[export] Instance ggood_preorder : PreOrder ggood.
Proof. split; [intros w; unfold ggood; reflexivity|]. intros x y z. unfold ggood. by apply good_preorder. Qed.
#[export] Hint Extern 1 (PreOrder ggood) => apply ggood_preorder : stays.

(** Like [frames], for the guard. *)
Ltac gframes :=
  repeat match goal with
  | |- stays _ (mbind _ _) => apply stays_bind; [exact _| |intros ?]
  | |- stays _ (attempt _) => apply stays_attempt
  | |- stays _ (mret _) => apply stays_ret; exact _
  | |- stays _ (fail _) => apply stays_fail; exact _
  | |- stays _ (lift _) => apply stays_lift; exact _
  | |- stays _ get => apply stays_get; exact _
  | |- stays _ (if ?b then _ else _) => destruct b
  | |- stays _ (match ?x with _ => _ end) => destruct x
  | |- stays _ (let '(_, _) := ?x in _) => destruct x
  end; auto with stays.

Lemma store_ggood {A} (m : act AW AErr A) : stays good m → stays ggood (store m).
Proof. intros Hm w. specialize (Hm (aw w)). unfold store. by destruct (m (aw w)) as [r a]. Qed.
Lemma registry_ggood {A} (f : GW → result AErr A) (h : GW → Registry) : stays ggood (λ w, (f w, set_reg (h w) w)).
Proof. intros w. unfold ggood. cbn. reflexivity. Qed.
#[export] Hint Resolve store_ggood : stays.

Section Steps.
Context (E : Env) (ParseDuration : string → option Z) (g : Guard).

Lemma gtick_ggood : stays ggood gtick.
Proof. intros w. apply up_good. Qed.
Lemma bump_ggood t : stays ggood (bump t).
Proof. intros w. unfold ggood. cbn. reflexivity. Qed.
Lemma register_ggood p : stays ggood (register p).
Proof. intros w. unfold ggood. cbn. reflexivity. Qed.
Lemma finish_ggood e p : stays ggood (finish e p).
Proof. intros w. unfold ggood. cbn. reflexivity. Qed.
Hint Resolve gtick_ggood bump_ggood register_ggood finish_ggood : stays.
Lemma deny_ggood r reason : stays ggood (deny E r reason).
Proof. unfold deny. gframes. Qed.
Lemma audit_ggood r p route outcome : stays ggood (audit E r p route outcome).
Proof. unfold audit. gframes. Qed.
Hint Resolve deny_ggood audit_ggood : stays.
Lemma refuse_ggood r reason : stays ggood (refuse E r reason).
Proof. unfold refuse. gframes. Qed.
Hint Resolve refuse_ggood : stays.
Lemma authenticate_ggood r : stays ggood (authenticate E ParseDuration g r).
Proof. unfold authenticate. gframes. Qed.
Lemma authorize_ggood r p e : stays ggood (authorize E g r p e).
Proof. unfold authorize. gframes. Qed.
Hint Resolve authenticate_ggood authorize_ggood : stays.
Lemma admit_ggood r : stays ggood (admission E ParseDuration g r).
Proof. unfold admission. gframes. Qed.
Hint Resolve admit_ggood : stays.
Lemma Middleware_ggood {A} (next : option Principal → option Z → option nat → act GW AErr A) r :
  (∀ p t e, stays ggood (next p t e)) → stays ggood (Middleware E ParseDuration g next r).
Proof. intros Hn. unfold Middleware. gframes. Qed.
Lemma EndUISession_ggood id : stays ggood (EndUISession E id).
Proof. unfold EndUISession. gframes. Qed.
End Steps.
#[export] Hint Resolve deny_ggood admit_ggood EndUISession_ggood : stays.

(** ** What an admitted request has shown *)

Section Results.
Context (E : Env) (ParseDuration : string → option Z) (g : Guard).

Lemma store_Ok {A} (m : act AW AErr A) w a w' : store m w = (Ok a, w') → m (aw w) = (Ok a, aw w').
Proof. unfold store. destruct (m (aw w)) as [r x] eqn:Hm. by intros [= -> <-]. Qed.
Lemma store_run {A} (m : act AW AErr A) w : (store m w).1 = (m (aw w)).1 ∧ aw (store m w).2 = (m (aw w)).2.
Proof. unfold store. by destruct (m (aw w)) as [r x]. Qed.
Lemma attempt_store_Ok {A} (m : act AW AErr A) w r w' :
  attempt (store m) w = (Ok r, w') → m (aw w) = (r, aw w').
Proof. rewrite attempt_Ok. intros [= <- <-]. destruct (store_run m w) as [-> ->]. by destruct (m (aw w)). Qed.
Lemma refuse_Ok r reason w a w' : refuse E r reason w = (Ok a, w') → a = Err (writeUnauthorized r).
Proof. unfold refuse. intros (x&w1&_&Hk)%bind_Ok. by apply mret_Ok in Hk as [-> _]. Qed.

(** The authority of a request in a store: the secret of an active credential (for an
    agent's, with its session alive), the cookie of a live session, or a service token. *)
Inductive authority (w : AW) (r : Request) : Principal → Prop :=
| by_secret secret id row :
    q_Authorization r = "Bearer " +:+ secret → credentials (db w) !! id = Some row →
    r_hash row = hashSecret E secret → Active (r_cred row) (now_at E (S (tick w))) = true →
    (c_Kind (r_cred row) = KindAgent → ∀ live, SessionLive g = Some live →
       ∃ n, (tick w < n)%nat ∧ live n (c_BoundSessionID (r_cred row)) = true) →
    authority w r (principal_of (r_cred row))
| by_session cookie id u row :
    q_Authorization r = "" → q_Cookie r = Some cookie → ui_sessions (db w) !! id = Some u →
    u_hash u = hashSecret E cookie → u_RevokedAt u = None → now_at E (S (tick w)) < u_ExpiresAt u →
    credentials (db w) !! u_CredentialID u = Some row → Active (r_cred row) (now_at E (S (tick w))) = true →
    authority w r (session_principal id u (r_cred row))
| by_token token verify n p :
    q_Authorization r = "Bearer " +:+ token → ServiceTokens g = Some verify →
    VerifyServiceToken (verify n token) = Ok p → authority w r p.

Lemma authenticate_Ok r w p e w' :
  authenticate E ParseDuration g r w = (Ok (Ok (p, e)), w') → HasStore g = true ∧ authority (aw w) r p.
Proof.
  unfold authenticate. destruct (HasStore g); cbn [negb]; [|done]. intros Hk. split; [done|]. revert Hk.
  case_bool_decide as Ha; cbn [negb].
  - destruct (q_Cookie r) as [cookie|] eqn:Hc; [|by intros ?%refuse_Ok].
    intros (found&w1&Hf%attempt_store_Ok&Hk)%bind_Ok. destruct found as [[[id u] c]|]; [|by apply refuse_Ok in Hk].
    apply mret_Ok in Hk as [[= -> ->] _]. apply AuthenticateUISession_Ok in Hf as (v&row&Hv&Hh&Hr&Ht&Hu&Hrow&->&Hact).
    rewrite Hu. by apply (by_session (aw w) r cookie id v row).
  - destruct (cut_prefix _ _) as [secret|] eqn:Hcut; [|by intros ?%refuse_Ok]. apply cut_prefix_Some in Hcut.
    intros (found&w1&Hf%attempt_store_Ok&Hk)%bind_Ok. destruct found as [c|].
    + pose proof (Authenticate_Ok _ _ _ _ _ Hf) as (id&row&Hrow&Hh&Hact&Hc).
      assert (p = principal_of (r_cred row) ∧ (c_Kind (r_cred row) = KindAgent → ∀ live, SessionLive g = Some live →
        ∃ n, (tick (aw w) < n)%nat ∧ live n (c_BoundSessionID (r_cred row)) = true)) as [-> Hlive];
        [|by apply (by_secret (aw w) r secret id row)].
      assert (principal_of c = principal_of (r_cred row) ∧ c_Kind c = c_Kind (r_cred row) ∧ c_BoundSessionID c = c_BoundSessionID (r_cred row))
        as (Hp&Hkd&Hb) by by rewrite Hc.
      rewrite Hkd in Hk. case_bool_decide as Hag; [|by apply mret_Ok in Hk as [[= -> _] _]].
      apply bind_Ok in Hk as (n&w2&[= <- <-]&Hk). destruct (SessionLive g) as [live|].
      * destruct (live _ _) eqn:Hl; cbn [negb] in Hk; [|by apply refuse_Ok in Hk].
        destruct (agentCredentialTTLs _ _ _). apply bind_Ok in Hk as (slid&w3&_&Hk). apply mret_Ok in Hk as [[= -> _] _].
        split; [done|]. intros _ live' [= <-]. exists (tick (aw w1)). rewrite <- Hb. split; [|done].
        by apply Authenticate_tick in Hf.
      * destruct (agentCredentialTTLs _ _ _). apply bind_Ok in Hk as (slid&w3&_&Hk). by apply mret_Ok in Hk as [[= -> _] _].
    + destruct (ServiceTokens g) as [verify|] eqn:Hv; [|by apply refuse_Ok in Hk].
      case_if_in Hk; [|by apply refuse_Ok in Hk]. apply bind_Ok in Hk as (n&w2&_&Hk).
      destruct (VerifyServiceToken (verify n secret)) as [q|] eqn:Hq; [|by apply refuse_Ok in Hk].
      apply mret_Ok in Hk as [[= -> ->] _]. by eapply by_token.
Qed.

(** What the route asks of the principal, and of a cookie's request. *)
Record permitted (r : Request) (p : Principal) : Prop := {
  perm_scope : let '(need, alt, _) := ScopesFor (q_Method r) (pattern_of g r) in
    p_Has p need = true ∨ alt ≠ "" ∧ p_Has p alt = true;
  perm_cookie : pr_Cookie p = true → unsafeMethod (q_Method r) = true →
    originMatchesHost r = true ∧ q_CSRF r = pr_CSRF p;
}.
Lemma authorize_Ok r p e w v w' : authorize E g r p e w = (Ok v, w') →
  (v = Serve p e ∧ permitted r p) ∨ ∃ x, v = Refuse x.
Proof.
  unfold authorize. destruct (ScopesFor _ _) as [[need alt] b] eqn:Hs.
  assert (∀ {A} (m : act GW AErr A) x, (m ≫= λ _, mret (Refuse x)) w = (Ok v, w') → ∃ x, v = Refuse x) as Hrefuse.
  { intros A m x (y&w1&_&Hk)%bind_Ok. apply mret_Ok in Hk as [-> _]. by eexists. }
  case_if; [intros Hk; right; by eapply Hrefuse|]. case_if; [intros Hk; right; by eapply Hrefuse|].
  case_if; [intros Hk; right; by eapply Hrefuse|]. intros (x&w1&_&Hk)%bind_Ok. apply mret_Ok in Hk as [-> _]. left. split; [done|].
  apply andb_false_iff in Hif. split.
  - rewrite Hs. destruct Hif as [Hh|Hh]; b2p; [by left|right]. done.
  - intros Hc Hu. rewrite Hc, Hu in Hif0, Hif1. cbn in Hif0, Hif1. b2p. done.
Qed.
Lemma admit_Ok r w v w' : admission E ParseDuration g r w = (Ok v, w') →
  match v with
  | Refuse _ => True
  | Pass o => hostOK g r = true ∧
      ((open_path r = true ∨ open_route r = true) ∧ o = None ∨ Insecure g = true ∧ o = Some synthetic)
  | Serve p _ => hostOK g r = true ∧ Insecure g = false ∧ open_path r = false ∧ open_route r = false ∧
      authority (aw w) r p ∧ permitted r p
  end.
Proof.
  unfold admission. destruct (hostOK g r); cbn [negb]; [|by intros [-> _]%mret_Ok].
  destruct (open_path r); [intros [-> _]%mret_Ok; auto|].
  destruct (open_route r); [intros [-> _]%mret_Ok; auto|].
  destruct (Insecure g); [intros [-> _]%mret_Ok; auto|].
  intros (a&w1&Ha&Hk)%bind_Ok. destruct a as [[p e]|x]; [|by apply mret_Ok in Hk as [-> _]].
  apply authenticate_Ok in Ha as [_ Hau]. apply authorize_Ok in Hk as [[-> Hp]|[x ->]]; [|done]. by split_and!.
Qed.
End Results.

(** What the kinds of principals hold in a well-formed store. *)
Lemma authority_minted E g w r p : wf (db w) → authority E g w r p →
  pr_Kind p = KindOperator ∨ pr_Kind p = KindClient ∧ ScopeAdmin ∉ pr_Scopes p ∨
  pr_Kind p = KindAgent ∧ pr_Scopes p = [ScopeTools] ∧ pr_Cookie p = false ∧ pr_BoundSessionID p ≠ "".
Proof.
  intros Hwf Hp. destruct Hp as [secret id row _ Hrow _ _ _|cookie id u row _ _ Hu _ _ _ Hrow _|token verify n p _ _ Hv].
  - cbn. destruct (wf_minted _ Hwf id row Hrow); auto 10.
  - cbn. destruct (wf_minted _ Hwf _ row Hrow) as [| |Hk]; auto.
    destruct (wf_ui _ Hwf id u Hu) as (row'&Hrow'&Hn). rewrite Hrow in Hrow'. by simplify_eq.
  - unfold VerifyServiceToken in Hv. destruct (verify n token) as [[i d]|]; [|done]. case_bool_decide; [done|].
    injection Hv as <-. right. left. split; [done|]. cbn. intros Hin. by repeat (apply elem_of_cons in Hin as [Hin|Hin]; [done|]); apply elem_of_nil in Hin.
Qed.
Lemma scopesInclude_other l s : ScopeAdmin ∉ l → scopesInclude l s = true → s ∈ l.
Proof.
  induction l as [|h l IH]; [done|]. cbn. intros Hn Hi. apply orb_true_iff in Hi as [Hi|Hi].
  - apply orb_true_iff in Hi as [Hi|Hi]; b2p; subst; [by left|]. destruct Hn. by left.
  - right. apply IH; [|done]. intros Hl. apply Hn. by right.
Qed.
(** The registry of a request is touched by cancellations only, until it registers. *)
Record same_registry (g g' : Registry) : Prop := {
  sr_keys : byKey g' = byKey g;
  sr_next : next_entry g' = next_entry g;
  sr_canceled : canceled g ⊆ canceled g';
}.
Definition rsame (w w' : GW) : Prop := same_registry (reg w) (reg w').
#[export] Instance same_registry_preorder : PreOrder same_registry.
Proof. split; [by intros x; split|]. intros x y z [] []. split; [congruence|congruence|set_solver]. Qed.
#[export] Instance rsame_preorder : PreOrder rsame.
Proof. split; [intros w; unfold rsame; reflexivity|]. intros x y z. unfold rsame. by apply same_registry_preorder. Qed.
#[export] Hint Extern 1 (PreOrder rsame) => apply rsame_preorder : stays.
Lemma cancelKey_same k g : same_registry g (cancelKey k g).
Proof. split; [done|done|cbn; set_solver]. Qed.
Lemma store_rsame {A} (m : act AW AErr A) : stays rsame (store m).
Proof.
  intros w. unfold store, rsame. destruct (m (aw w)) as [r a]. cbn. generalize (reg w) as x.
  induction (drop _ _) as [|k l IH]; intros x; cbn; [reflexivity|]. etransitivity; [apply cancelKey_same|apply IH].
Qed.
Lemma gtick_rsame : stays rsame gtick.
Proof. intros w. unfold rsame. cbn. reflexivity. Qed.
Lemma bump_rsame t : stays rsame (bump t).
Proof. intros w. unfold rsame. cbn. reflexivity. Qed.
#[export] Hint Resolve store_rsame gtick_rsame bump_rsame : stays.
Lemma admit_rsame E PD g r : stays rsame (admission E PD g r).
Proof. unfold admission, authenticate, authorize, refuse, deny, audit. gframes. Qed.

(** Keys: registering adds an entry, unregistering another one leaves it. *)
Lemma add_keys_spec e keys m k : k ≠ "" →
  default ∅ (add_keys e keys m !! k) = if bool_decide (k ∈ keys) then {[e]} ∪ default ∅ (m !! k) else default ∅ (m !! k).
Proof.
  intros Hk. revert m. induction keys as [|x keys IH]; intros m; cbn [add_keys]; [done|].
  destruct (decide (x = k)) as [->|Hx].
  - rewrite (bool_decide_false (k = "")) by done. rewrite IH, lookup_insert_eq. cbn.
    rewrite (bool_decide_true (k ∈ k :: keys)) by by left. case_bool_decide; set_solver.
  - assert (bool_decide (k ∈ x :: keys) = bool_decide (k ∈ keys)) as -> by (apply bool_decide_ext; set_solver).
    destruct (decide (x = "")) as [He|He]; [rewrite (bool_decide_true (x = "")) by done; by rewrite IH|].
    rewrite (bool_decide_false (x = "")) by done. rewrite IH. by rewrite lookup_insert_ne.
Qed.
Lemma set_entries_other k s m e j : e ∈ default ∅ (m !! j) → e ∈ s ∨ j ≠ k → e ∈ default ∅ (set_entries k s m !! j).
Proof.
  intros He Hs. unfold set_entries. destruct (decide (j = k)) as [->|Hj].
  - destruct Hs as [Hs|?]; [|done]. rewrite bool_decide_false by set_solver. by rewrite lookup_insert_eq.
  - case_bool_decide; [by rewrite lookup_delete_ne|by rewrite lookup_insert_ne].
Qed.
Lemma remove_keys_other e keys m e' k : e' ≠ e → e' ∈ default ∅ (m !! k) → e' ∈ default ∅ (remove_keys e keys m !! k).
Proof.
  intros Hne. revert m. induction keys as [|x keys IH]; intros m He; cbn; [done|].
  destruct (m !! x) as [s|] eqn:Hx; apply IH; [|done]. apply set_entries_other; [done|].
  destruct (decide (k = x)) as [->|]; [left|by right]. rewrite Hx in He. cbn in He. set_solver.
Qed.

(** ** Requests and revocations side by side *)

(** A request was admitted, or runs under an entry of the registry. *)
Inductive phase := Entered (p : Principal) | Running (p : Principal) (e : nat).
Definition phase_principal (x : phase) : Principal := match x with Entered p => p | Running p _ => p end.
Record System := mkSystem { world : GW; threads : gmap nat phase }.
(** [Revoke] in its statements, each of which is atomic. *)
Inductive event := Admit (t : nat) (r : Request) | Register (t : nat) | Finish (t : nat)
| RevokeRow (id : string) | RevokeSessions (id : string) (t : Z) | Notify (id : string).

(** Running requests are registered under their keys, each under its own entry. *)
Definition tracked (x : Registry) (p : Principal) (e : nat) : Prop :=
  (e < next_entry x)%nat ∧ ∀ k, k ∈ request_keys p → k ≠ "" → e ∈ entries k x.
Record registered (s : System) : Prop := {
  inv_wf : wf (db (aw (world s)));
  inv_tracked : ∀ t p e, threads s !! t = Some (Running p e) → tracked (reg (world s)) p e;
  inv_distinct : ∀ t t' p p' e,
    threads s !! t = Some (Running p e) → threads s !! t' = Some (Running p' e) → t = t';
}.
Lemma tracked_same x x' p e : same_registry x x' → tracked x p e → tracked x' p e.
Proof. intros [Hk Hn _] [He Ht]. split; [congruence|]. intros k Hin Hne. unfold entries. rewrite Hk. by apply Ht. Qed.

Lemma tracked_new x p : tracked (add (request_keys p) x).2 p (add (request_keys p) x).1.
Proof.
  unfold add. split; cbn [fst snd next_entry]; [lia|]. intros k Hin Hne. unfold entries. cbn [byKey].
  rewrite add_keys_spec by done. rewrite bool_decide_true by done. set_solver.
Qed.
Lemma tracked_add x keys p e : tracked x p e → tracked (add keys x).2 p e.
Proof.
  unfold add. intros [He Hk]. split; cbn [fst snd next_entry]; [lia|]. intros k Hin Hne. specialize (Hk k Hin Hne).
  unfold entries in *. cbn [byKey]. rewrite add_keys_spec by done. case_bool_decide; set_solver.
Qed.
Lemma register_Ok p w e w' : register p w = (Ok e, w') →
  e = (add (request_keys p) (reg w)).1 ∧ w' = set_reg (add (request_keys p) (reg w)).2 w.
Proof. unfold register. destruct (add _ _) as [x y]. intros H. by injection H as <- <-. Qed.

Lemma registered_same w w' th : ggood w w' → rsame w w' → registered (mkSystem w th) → registered (mkSystem w' th).
Proof.
  intros [_ Hwf] Hs [Hw Ht Hd]. split; [by apply Hwf|cbn|done].
  intros t p e Hp. eapply tracked_same; [exact Hs|by eapply Ht].
Qed.
Lemma registered_admitted w th t p : th !! t = None → registered (mkSystem w th) → registered (mkSystem w (<[t := Entered p]> th)).
Proof.
  intros Hn [Hw Ht Hd]. split; [done|cbn|cbn].
  - intros i q e. rewrite lookup_insert_Some. intros [[_ ?]|[_ Hi]]; [done|by eapply Ht].
  - intros i j q q' e. rewrite !lookup_insert_Some. intros [[_ ?]|[_ Hi]]; [done|]. intros [[_ ?]|[_ Hj]]; [done|by eapply Hd].
Qed.
Lemma store_changes {A} (m : act AW AErr A) w a w' : stays good m → store m w = (a, w') → ggood w w' ∧ rsame w w'.
Proof.
  intros Hm Hs. pose proof (store_ggood m Hm w) as H1. pose proof (store_rsame m w) as H2. rewrite Hs in H1, H2. done.
Qed.

Section Concurrent.
Context (E : Env) (ParseDuration : string → option Z) (g : Guard).

Definition revoke_row (id : string) : act AW AErr bool :=
  t ← now E; exec E (update_credential id unrevoked (with_revoked (Some t))).
Inductive sys_step : System → event → System → Prop :=
| step_admit s t r p e w' :
    threads s !! t = None → admission E ParseDuration g r (world s) = (Ok (Serve p e), w') →
    sys_step s (Admit t r) (mkSystem w' (<[t := Entered p]> (threads s)))
| step_register s t p e w' :
    threads s !! t = Some (Entered p) → register p (world s) = (Ok e, w') →
    sys_step s (Register t) (mkSystem w' (<[t := Running p e]> (threads s)))
| step_finish s t p e w' :
    threads s !! t = Some (Running p e) → finish e p (world s) = (Ok tt, w') →
    sys_step s (Finish t) (mkSystem w' (delete t (threads s)))
| step_revoke_row s id n w' :
    store (revoke_row id) (world s) = (Ok n, w') → sys_step s (RevokeRow id) (mkSystem w' (threads s))
| step_revoke_sessions s id t w' :
    store (exec E (λ d, Some (tt, set_ui_sessions (revoke_sessions id t (ui_sessions d)) d))) (world s) = (Ok tt, w') →
    sys_step s (RevokeSessions id t) (mkSystem w' (threads s))
| step_notify s id :
    sys_step s (Notify id) (mkSystem (set_reg (cancelKey id (reg (world s))) (world s)) (threads s)).

(** The statements of [Revoke] are those. *)
Lemma Revoke_statements id w : Revoke E id w =
  (let t := now_at E (tick w) in
   n ← revoke_row id;
   if negb n then mret false else
   _ ← exec E (λ d, Some (tt, set_ui_sessions (revoke_sessions id t (ui_sessions d)) d));
   _ ← notifyRevoked id;
   mret true) w.
Proof. unfold Revoke, revoke_row, mbind, act_bind, now. by destruct (exec E _ (up w)) as [[n|e] w1]. Qed.

Lemma revoke_row_good id : stays good (revoke_row id).
Proof. unfold revoke_row. frames. Qed.

(** What a step does to the store and to the registry. *)
Lemma sys_step_ggood s ev s' : sys_step s ev s' → ggood (world s) (world s').
Proof.
  intros [? t r p e w' _ Ha|? t p e w' _ Ha|? t p e w' _ Ha|? id n w' Ha|? id t w' Ha|? id]; cbn.
  - pose proof (admit_ggood E ParseDuration g r (world s0)) as H. by rewrite Ha in H.
  - pose proof (register_ggood p (world s0)) as H. by rewrite Ha in H.
  - pose proof (finish_ggood e p (world s0)) as H. by rewrite Ha in H.
  - by apply store_changes in Ha as [? _]; [|apply revoke_row_good].
  - by apply store_changes in Ha as [? _]; [|apply revoke_sessions_good].
  - unfold ggood. cbn. reflexivity.
Qed.
Lemma sys_step_registered s ev s' : registered s → sys_step s ev s' → registered s'.
Proof.
  intros Hinv Hstep. destruct Hstep as [s t r p e w' Hn Ha|s t p e w' Hn Ha|s t p e w' Hn Ha|s id n w' Ha|s id t w' Ha|s id].
  - apply registered_admitted; [done|]. destruct s as [w th]. apply (registered_same w); [| |exact Hinv].
    + pose proof (admit_ggood E ParseDuration g r w) as H. cbn in Ha. by rewrite Ha in H.
    + pose proof (admit_rsame E ParseDuration g r w) as H. cbn in Ha. by rewrite Ha in H.
  - apply register_Ok in Ha as [-> ->]. destruct Hinv as [Hw Ht Hd]. split; cbn [world threads reg set_reg aw]; [done| |].
    + intros i q e0. rewrite lookup_insert_Some. intros [[<- [= <- <-]]|[_ Hi]]; [apply tracked_new|apply tracked_add, (Ht i q e0 Hi)].
    + intros i j q q' e0. rewrite !lookup_insert_Some. intros [[<- [= <- <-]]|[_ Hi]] [[<- Heq]|[_ Hj]]; try done.
      * destruct (Ht _ _ _ Hj). cbn in *. lia.
      * injection Heq as <- <-. destruct (Ht _ _ _ Hi). cbn in *. lia.
      * by eapply Hd.
  - injection Ha as <-. destruct Hinv as [Hw Ht Hd]. split; [done|cbn|cbn].
    + intros i q e0 [Hne Hi]%lookup_delete_Some. destruct (Ht i q e0 Hi) as [He Hk]. split; [done|].
      intros k Hin Hkne. apply remove_keys_other; [|by apply Hk]. intros ->. apply Hne. by eapply Hd.
    + intros i j q q' e0 [_ Hi]%lookup_delete_Some [_ Hj]%lookup_delete_Some. by eapply Hd.
  - destruct s as [w th]. cbn in Ha. apply store_changes in Ha as [H1 H2]; [by apply (registered_same w)|apply revoke_row_good].
  - destruct s as [w th]. cbn in Ha. apply store_changes in Ha as [H1 H2]; [by apply (registered_same w)|apply revoke_sessions_good].
  - destruct s as [w th]. apply (registered_same w); [unfold ggood; cbn; reflexivity| |exact Hinv].
    unfold rsame. cbn. apply cancelKey_same.
Qed.
Lemma sys_steps_registered s ls s' : registered s → steps sys_step s ls s' → registered s'.
Proof. intros Hinv Hs. induction Hs as [|s l s1 ls s2 H1 _ IH]; [done|]. by apply IH, (sys_step_registered s l). Qed.
Lemma canceled_step s ev s' : sys_step s ev s' → canceled (reg (world s)) ⊆ canceled (reg (world s')).
Proof.
  intros [? t r p e w' _ Ha|? t p e w' _ Ha|? t p e w' _ Ha|? id n w' Ha|? id t w' Ha|? id]; cbn.
  - pose proof (admit_rsame E ParseDuration g r (world s0)) as H. rewrite Ha in H. apply H.
  - by injection Ha as _ <-.
  - injection Ha as <-. cbn. set_solver.
  - apply store_changes in Ha as [_ H]; [apply H|apply revoke_row_good].
  - apply store_changes in Ha as [_ H]; [apply H|apply revoke_sessions_good].
  - set_solver.
Qed.

(** A revoked credential stays revoked, and admits nothing. *)
Definition revoked (d : DB) (id : string) : Prop := ∃ row, credentials d !! id = Some row ∧ c_RevokedAt (r_cred row) ≠ None.
Lemma revoked_kept d d' id : kept d d' → revoked d id → revoked d' id.
Proof.
  intros [Hk _ _] (row&Hrow&Hr). destruct (Hk id row Hrow) as (row'&Hrow'&[_ _ Hm]). exists row'. split; [done|].
  by rewrite (Hm Hr).
Qed.
Lemma revoked_not_active c t : c_RevokedAt c ≠ None → Active c t = true → False.
Proof. unfold Active. by destruct (c_RevokedAt c). Qed.
Lemma revoked_admits_nothing w r p id :
  wf (db w) → revoked (db w) id → cut_prefix id "tether:" = None → authority E g w r p → pr_CredentialID p ≠ id.
Proof.
  intros Hwf (row&Hrow&Hr) Ht Ha Hid.
  destruct Ha as [secret i x _ Hx _ Hact _|cookie i u x _ _ _ _ _ _ Hx Hact|token verify n p _ _ Hv].
  - cbn in Hid. rewrite (wf_id _ Hwf i x Hx) in Hid. subst. rewrite Hrow in Hx. simplify_eq. by eapply revoked_not_active.
  - cbn in Hid. rewrite (wf_id _ Hwf _ x Hx) in Hid. subst. rewrite Hrow in Hx. simplify_eq. by eapply revoked_not_active.
  - unfold VerifyServiceToken in Hv. destruct (verify n token) as [[i d]|]; [|done]. case_bool_decide; [done|].
    injection Hv as <-. cbn [pr_CredentialID] in Hid. rewrite <- Hid in Ht.
    by rewrite (proj2 (cut_prefix_Some _ _ i)) in Ht.
Qed.
(** After the listener was told, what still runs under the credential was admitted
    before and registered after. *)
Definition overtaken (before now : System) (id : string) : Prop :=
  ∀ t x, threads now !! t = Some x → pr_CredentialID (phase_principal x) = id →
    threads before !! t = Some (Entered (phase_principal x)) ∨
    ∃ p e, x = Running p e ∧ e ∈ canceled (reg (world now)).
Lemma overtaken_step s0 s ev s' id :
  registered s → revoked (db (aw (world s))) id → cut_prefix id "tether:" = None →
  overtaken s0 s id → sys_step s ev s' → overtaken s0 s' id.
Proof.
  intros Hinv Hrev Ht Ho Hstep. pose proof (canceled_step _ _ _ Hstep) as Hc.
  assert (∀ t x, threads s !! t = Some x → pr_CredentialID (phase_principal x) = id →
    threads s0 !! t = Some (Entered (phase_principal x)) ∨ ∃ p e, x = Running p e ∧ e ∈ canceled (reg (world s'))) as Hold.
  { intros t x Hx Hid. destruct (Ho t x Hx Hid) as [?|(p&e&->&He)]; [by left|right]. exists p, e. set_solver. }
  destruct Hstep as [s t r p e w' Hn Ha|s t p e w' Hn Ha|s t p e w' Hn Ha|s i n w' Ha|s i t0 w' Ha|s i]; try exact Hold.
  - intros i x. cbn [threads]. rewrite lookup_insert_Some. intros [[<- <-]|[_ Hx]]; [|by apply Hold]. cbn [phase_principal].
    intros Hid. apply admit_Ok in Ha as (_&_&_&_&Hau&_). exfalso.
    by apply (revoked_admits_nothing _ _ _ id (inv_wf _ Hinv) Hrev Ht Hau).
  - intros i x. cbn [threads]. rewrite lookup_insert_Some. intros [[<- <-]|[_ Hx]]; [|by apply Hold]. cbn [phase_principal].
    intros Hid. destruct (Ho t (Entered p) Hn Hid) as [?|(?&?&?&_)]; [by left|done].
  - intros i x. cbn [threads]. intros [_ Hx]%lookup_delete_Some. by apply Hold.
Qed.
End Concurrent.

(** ** Properties *)

Section Properties.
Context (E : Env) (ParseDuration : string → option Z) (g : Guard).

(** C17. A handler runs only for a request the guard let through.  Its answer comes from
    one run, for a host that is allowed, with: no principal, where the path lies outside
    the API or the route is one of those that need none; the synthetic operator of the
    insecure mode; or a principal whose authority the request has shown - the secret of
    an active credential, the cookie of a live session or a service token - that has a
    scope the route asks for, and, on an unsafe request with a cookie, from the same
    origin and with the session's CSRF token. *)
Theorem served_only_with_authority {A} (next : option Principal → option Z → option nat → act GW AErr A) r w a w' :
  Middleware E ParseDuration g next r w = (Ok (Ok a), w') →
  hostOK g r = true ∧
  ∃ p t e w1 w2, next p t e w1 = (Ok a, w2) ∧
    match p with
    | None => open_path r = true ∨ open_route r = true
    | Some p => Insecure g = true ∧ p = synthetic ∨
                Insecure g = false ∧ open_route r = false ∧ authority E g (aw w) r p ∧ permitted g r p
    end.
Proof.
  unfold Middleware. intros (v&w1&Hv&Hk)%bind_Ok. apply admit_Ok in Hv. destruct v as [o|p t|x].
  - apply bind_Ok in Hk as (b&w2&Hn&Hk). apply mret_Ok in Hk as [[= ->] _]. destruct Hv as (Hh&Ho). split; [done|].
    exists o, None, None, w1, w2. split; [done|]. destruct Ho as [[? ->]|[? ->]]; auto.
  - apply bind_Ok in Hk as (e&w2&_&Hk). apply bind_Ok in Hk as (ra&w3&Hn&Hk). apply bind_Ok in Hk as ([]&w4&_&Hk).
    apply bind_Ok in Hk as (b&w5&[-> _]%lift_Ok&Hk). apply mret_Ok in Hk as [[= ->] _].
    destruct Hv as (Hh&Hi&_&Ho&Hau&Hp). split; [done|]. rewrite attempt_Ok in Hn. injection Hn as Hn <-.
    exists (Some p), t, (Some e), w2, (next (Some p) t (Some e) w2).2. split; [|by right]. rewrite <- Hn. by destruct (next _ _ _ w2).
  - by apply mret_Ok in Hk as [? _].
Qed.

(** An agent's credential reaches one route: forwarding a tool call. *)
Theorem agent_credentials_only_call_tools r w p t w' :
  wf (db (aw w)) → q_Method r ≠ "" → admission E ParseDuration g r w = (Ok (Serve p t), w') → pr_Kind p = KindAgent →
  q_Method r = "POST" ∧ route_path (pattern_of g r) = "/api/tools/call".
Proof.
  intros Hwf Hm Ha Hk. apply admit_Ok in Ha as (_&_&_&_&Hau&Hp).
  destruct (authority_minted _ _ _ _ _ Hwf Hau) as [Hx|[[Hx _]|(_&Hs&_)]]; [by rewrite Hk in Hx..|].
  destruct (ScopesFor (q_Method r) (pattern_of g r)) as [[need alt] b] eqn:Hsc.
  apply (tools_scope _ _ _ _ _ Hm Hsc). pose proof (perm_scope _ _ _ Hp) as Hneed. rewrite Hsc in Hneed.
  assert (∀ s, p_Has p s = true → s = ScopeTools) as Honly.
  { intros s. unfold p_Has. rewrite Hk, Hs. rewrite bool_decide_false by done. intros Hi%scopesInclude_other; [set_solver|].
    by intros [?|?%elem_of_nil]%elem_of_cons. }
  destruct Hneed as [Hn|[_ Hn]]; apply Honly in Hn; auto.
Qed.

(** The credential API belongs to the operator.  A request served under [/api/auth],
    other than the look at one's own session and the logout, is an operator's: neither a
    client, nor an agent, nor a service token can list, mint, rotate or revoke
    credentials or mint login links. *)
Theorem credential_api_needs_operator r w p t w' :
  wf (db (aw w)) → q_Method r ≠ "" → admission E ParseDuration g r w = (Ok (Serve p t), w') →
  route_path (pattern_of g r) = "/api/auth" ∨ (∃ rest, route_path (pattern_of g r) = "/api/auth" +:+ String "/" rest) →
  own_session (q_Method r) (route_path (pattern_of g r)) = false →
  pr_Kind p = KindOperator.
Proof.
  intros Hwf Hm Ha Hpath Ho. apply admit_Ok in Ha as (_&_&_&_&Hau&Hp).
  pose proof (perm_scope _ _ _ Hp) as Hs. rewrite auth_scope in Hs by done. destruct Hs as [Hs|[? _]]; [|done].
  revert Hs. unfold p_Has. case_bool_decide as Hk; [done|].
  destruct (authority_minted _ _ _ _ _ Hwf Hau) as [?|[[_ Hn]|(_&Hsc&_)]]; [done| |].
  - by intros ?%scopesInclude_other.
  - by rewrite Hsc.
Qed.

(** C20. Revoking a credential ends its requests, but for those it overtakes.  Once the
    row is revoked and the listener was told, then at every later point each request
    under the credential is cancelled, or was between its admission and its
    registration when the listener was told; none is admitted any more. *)
Theorem revocation_ends_requests s s1 ls s2 id :
  registered s → revoked (db (aw (world s))) id → id ≠ "" → cut_prefix id "tether:" = None →
  sys_step E ParseDuration g s (Notify id) s1 → steps (sys_step E ParseDuration g) s1 ls s2 →
  ∀ t x, threads s2 !! t = Some x → pr_CredentialID (phase_principal x) = id →
    threads s !! t = Some (Entered (phase_principal x)) ∨
    ∃ p e, x = Running p e ∧ e ∈ canceled (reg (world s2)).
Proof.
  intros Hinv Hrev Hid Ht Hn Hsteps. change (overtaken s s2 id).
  assert (overtaken s s1 id) as Ho.
  { inversion Hn; subst. intros t x Hx Hcred. cbn in Hx. destruct x as [p|p e]; [by left|]. right. exists p, e. split; [done|].
    destruct (inv_tracked _ Hinv t p e Hx) as [_ Hk]. cbn in *. subst id. apply elem_of_union_l, Hk; [by left|done]. }
  pose proof (sys_step_registered E ParseDuration g _ _ _ Hinv Hn) as Hinv1.
  assert (revoked (db (aw (world s1))) id) as Hrev1 by by inversion Hn; subst.
  clear Hn. revert Ho Hinv1 Hrev1. induction Hsteps as [s1|s1 ev s2 ls s3 Hstep _ IH]; [done|]. intros Ho Hi1 Hr1. apply IH.
  - by eapply overtaken_step.
  - by eapply sys_step_registered.
  - eapply revoked_kept; [|exact Hr1]. by eapply (proj1 (sys_step_ggood E ParseDuration g _ _ _ Hstep)).
Qed.

End Properties.

(** ** Worked examples *)

Module Example_guard.
Import Example_auth.
Definition guard : Guard := mkGuard true None None (Some (λ _ s, bool_decide (s = "s1"))) false None "" "".
Definition PD : string → option Z := λ _, None.
Definition world_of (a : AW) : GW := mkGW a 0 0 (mkRegistry ∅ ∅ 0).
(** A store with an operator, a client and an agent. *)
Definition made (p : CreateParams) (w : AW) : Credential * string :=
  match (Create env p w).1 with Ok r => r | Err _ => client end.
Definition operator_params : CreateParams := mkParams KindOperator "operator" [] "" 0 "bootstrap".
Definition agent_params : CreateParams := mkParams KindAgent "agent" [] "s1" hour "host".
Definition operator : Credential * string := made operator_params with_client.
Definition with_operator : AW := run (Create env operator_params) with_client.
Definition agent : Credential * string := made agent_params with_operator.
Definition full : AW := run (Create env agent_params) with_operator.
Definition request (method path secret : string) : Request :=
  mkRequest method path "localhost:8080" "127.0.0.1:5000" ("Bearer " +:+ secret) None "" "".
Definition tool_call : Request := request "POST" "/api/tools/call" agent.2.
Definition list_request : Request := request "GET" "/api/auth/credentials" operator.2.

Lemma full_wf : wf (db full).
Proof. apply (Create_good env), (Create_good env), with_client_wf. Qed.
Definition reason {A} (x : result AErr (result Refusal A)) : option Refusal := match x with Ok (Err e) => Some e | _ => None end.
Definition echo : option Principal → option Z → option nat → act GW AErr string :=
  λ p _ _, mret (default "anonymous" (Actor <$> p)).
Example verdicts :
  (λ r, (Middleware env PD guard echo r (world_of full)).1) <$>
    [tool_call; list_request; request "GET" "/api/auth/credentials" client.2; request "GET" "/api/auth/session" client.2;
     request "GET" "/api/sessions" agent.2; request "GET" "/" ""; request "GET" "/api/sessions" "nonsense"] =
  [Ok (Ok "agent:agent"); Ok (Ok "operator:operator"); Ok (Err (Failure 403 "forbidden" (Some "admin"))); Ok (Ok "client:tangent");
   Ok (Err (Failure 403 "forbidden" (Some "read"))); Ok (Ok "anonymous"); Ok (Err (Failure 401 "unauthenticated" None))].
Proof. vm_compute. reflexivity. Qed.

(** The result of a request that is served. *)
Definition admitted (r : Request) (w : GW) : Principal * option Z * GW :=
  match admission env PD guard r w with (Ok (Serve p t), w') => (p, t, w') | (_, w') => (synthetic, None, w') end.
Lemma call_admitted : admission env PD guard tool_call (world_of full) =
  (Ok (Serve (admitted tool_call (world_of full)).1.1 (admitted tool_call (world_of full)).1.2), (admitted tool_call (world_of full)).2).
Proof. vm_compute. reflexivity. Qed.
Lemma list_admitted : admission env PD guard list_request (world_of full) =
  (Ok (Serve (admitted list_request (world_of full)).1.1 (admitted list_request (world_of full)).1.2), (admitted list_request (world_of full)).2).
Proof. vm_compute. reflexivity. Qed.

(** A request admitted before the revocation that registers after it: nothing cancels it. *)
Definition client_request : Request := request "GET" "/api/auth/session" client.2.
Definition s0 : System := mkSystem (world_of full) ∅.
Definition s1 : System := mkSystem (admitted client_request (world_of full)).2 (<[7%nat := Entered (principal_of client.1)]> ∅).
Definition s2 : System := mkSystem (store (revoke_row env (c_ID client.1)) (world s1)).2 (threads s1).
Definition s3 : System := mkSystem (set_reg (cancelKey (c_ID client.1) (reg (world s2))) (world s2)) (threads s2).
Definition s4 : System := mkSystem (register (principal_of client.1) (world s3)).2 (<[7%nat := Running (principal_of client.1) 0]> (threads s3)).
Lemma s0_registered : registered s0.
Proof. split; [apply full_wf|by intros|by intros]. Qed.
Lemma race : steps (sys_step env PD guard) s0 [Admit 7 client_request; RevokeRow (c_ID client.1)] s2 ∧
  sys_step env PD guard s2 (Notify (c_ID client.1)) s3 ∧ steps (sys_step env PD guard) s3 [Register 7] s4.
Proof.
  split_and!.
  - apply (steps_cons _ _ _ s1); [apply (step_admit env PD guard s0 7 client_request (principal_of client.1) (c_ExpiresAt client.1)); vm_compute; reflexivity|].
    apply (steps_cons _ _ _ s2); [|apply steps_nil]. apply (step_revoke_row env PD guard s1 (c_ID client.1) true). vm_compute. reflexivity.
  - apply (step_notify env PD guard s2).
  - apply (steps_cons _ _ _ s4); [|apply steps_nil]. apply (step_register env PD guard s3 7); vm_compute; reflexivity.
Qed.
Example race_survives : threads s4 !! 7%nat = Some (Running (principal_of client.1) 0) ∧
  bool_decide (0%nat ∈ canceled (reg (world s4))) = false ∧
  bool_decide ((c_RevokedAt ∘ r_cred) <$> credentials (db (aw (world s4))) !! c_ID client.1 = Some None) = false.
Proof. vm_compute. done. Qed.

Lemma call_served : Middleware env PD guard echo tool_call (world_of full) =
  (Ok (Ok "agent:agent"), (Middleware env PD guard echo tool_call (world_of full)).2).
Proof. vm_compute. reflexivity. Qed.
Lemma served_only_with_authority_witness :
  (Middleware env PD guard echo tool_call (world_of full)).1 = Ok (Ok "agent:agent") ∧ hostOK guard tool_call = true.
Proof.
  split; [exact (f_equal fst call_served)|].
  exact (proj1 (served_only_with_authority env PD guard echo tool_call (world_of full) "agent:agent" _ call_served)).
Defined.
Lemma agent_credentials_only_call_tools_witness :
  pr_Kind (admitted tool_call (world_of full)).1.1 = KindAgent ∧ route_path (pattern_of guard tool_call) = "/api/tools/call".
Proof.
  assert (pr_Kind (admitted tool_call (world_of full)).1.1 = KindAgent) as Hk by (vm_compute; reflexivity).
  split; [exact Hk|]. apply (agent_credentials_only_call_tools env PD guard tool_call (world_of full) _ _ _ full_wf ltac:(discriminate) call_admitted Hk).
Defined.
Lemma credential_api_needs_operator_witness :
  route_path (pattern_of guard list_request) = "/api/auth/credentials" ∧
  pr_Kind (admitted list_request (world_of full)).1.1 = KindOperator.
Proof.
  split; [reflexivity|].
  apply (credential_api_needs_operator env PD guard list_request (world_of full) _ _ _ full_wf ltac:(discriminate) list_admitted);
    [right; exists "credentials"; reflexivity|reflexivity].
Defined.
Lemma revocation_ends_requests_witness :
  threads s4 !! 7%nat = Some (Running (principal_of client.1) 0) ∧
  (threads s2 !! 7%nat = Some (Entered (principal_of client.1)) ∨
   ∃ p e, Running (principal_of client.1) 0 = Running p e ∧ e ∈ canceled (reg (world s4))).
Proof.
  assert (threads s4 !! 7%nat = Some (Running (principal_of client.1) 0)) as Ht by reflexivity.
  split; [exact Ht|]. destruct race as (H1&H2&H3).
  apply (revocation_ends_requests env PD guard s2 s3 [Register 7] s4 (c_ID client.1)) with (t := 7%nat) (x := Running (principal_of client.1) 0).
  - exact (sys_steps_registered _ _ _ _ _ _ s0_registered H1).
  - eexists. split; [vm_compute; reflexivity|]. vm_compute. discriminate.
  - by_decide.
  - reflexivity.
  - exact H2.
  - exact H3.
  - exact Ht.
  - reflexivity.
Defined.
End Example_guard.
