(* ===== verification/ApiHandlers.v ===== *)
(** * The credential API

    [internal/apiauth/handlers.go]: logging in and out, sessions, the credentials'
    list, creation, revocation and rotation, and login links, behind the guard; and
    the host's own calls of the store ([cmd/nanite/auth_wiring.go]).

    A body is given decoded, [None] when it does not decode; the mux is the guard's
    [Pattern]. *)

From S2P Require Import Prelude GoStrings GoNum ApiAuth ApiGuard.

Open Scope string_scope.
Open Scope Z_scope.
Set Default Proof Using "Type*".

(** ** Requests and responses *)

Record CreateBody := mkBody { b_Kind : string; b_Label : string; b_Scopes : list string; b_TTLDays : Z }.
Record Input := mkInput {
  in_req : Request;
  in_token : option string;
  in_code : string;
  in_include_revoked : string;
  in_id : string;
  in_create : option CreateBody;
}.
Record credentialView := mkView { v_cred : Credential; v_Secret : string; v_WrittenTo : string }.
Definition viewOf (c : Credential) : credentialView := mkView c "" "".
Definition with_secret (s : string) (v : credentialView) : credentialView := mkView (v_cred v) s (v_WrittenTo v).
Definition with_written (p : string) (v : credentialView) : credentialView := mkView (v_cred v) (v_Secret v) p.

Inductive Body :=
| BEmpty
| BError (e : Refusal)
| BText (s : string)
| BLogin (csrf : string) (expires : Z) (v : credentialView)
| BSession (credential_id kind label : string) (scopes : list string) (cookie : bool) (csrf : string)
| BItems (l : list credentialView)
| BCredential (v : credentialView)
| BLink (path : string) (expires : Z) (url : string)
| BRedirect (to : string).
(** The status, the cookie that is set with its expiry, and the body. *)
Record Response := mkResponse { status : Z; set_cookie : option (string * Z); body : Body }.
Definition writeJSON (status : Z) (b : Body) : Response := mkResponse status None b.
Definition refusal_status (e : Refusal) : Z := match e with AdminFailure s _ => s | Failure s _ _ => s end.
Definition error_response (e : Refusal) : Response := mkResponse (refusal_status e) None (BError e).
Definition setCookie (value : string) (expires : Z) (r : Response) : Response := mkResponse (status r) (Some (value, expires)) (body r).

Definition scopesOf (p : Principal) : list string :=
  if bool_decide (pr_Kind p = KindOperator) then allScopes else pr_Scopes p.
(** A handler without a principal in its context works on an empty one. *)
Definition no_principal : Principal := mkPrincipal "" "" "" [] "" false "" "".

Definition day : Z := 24 * hour.
Definition clientTTL : Z := 30 * day.

Section Handlers.
Context (E : Env) (ParseDuration : string → option Z) (g : Guard).
Context (OperatorTokenPath PublicURL : string).
Abbreviation op A := (act GW AErr A).
Abbreviation handler := (Input → option Principal → op Response).

Definition login : handler := λ i _,
  let r := in_req i in
  if negb (originMatchesHost r) then mret (error_response (writeError r 403 "forbidden")) else
  match in_token i with
  | None => mret (error_response (writeError r 400 "invalid_request"))
  | Some token =>
      found ← attempt (store (Authenticate E (trim_space token)));
      match found with
      | Ok c =>
          if bool_decide (c_Kind c = KindAgent) then _ ← deny E r "bad-login"; mret (error_response (writeUnauthorized r)) else
          made ← attempt (store (CreateUISession E c));
          match made with
          | Err _ => mret (error_response (writeError r 500 "internal"))
          | Ok (id, u, cookie) =>
              _ ← store (Audit E (c_ID c) (c_Kind c) (q_Method r) "/api/auth/login" "login" (remoteHost r));
              mret (setCookie cookie (u_ExpiresAt u) (writeJSON 200 (BLogin (u_CSRF u) (u_ExpiresAt u) (viewOf c))))
          end
      | Err _ => _ ← deny E r "bad-login"; mret (error_response (writeUnauthorized r))
      end
  end.

Definition link : handler := λ i _,
  let r := in_req i in
  found ← attempt (store (ConsumeLoginLink E (in_code i)));
  match found with
  | Err _ => _ ← deny E r "bad-link"; mret (mkResponse 401 None (BText "This login link is invalid, expired or already used."))
  | Ok c =>
      made ← attempt (store (CreateUISession E c));
      match made with
      | Err _ => mret (mkResponse 500 None (BText "Could not start a session."))
      | Ok (id, u, cookie) =>
          _ ← store (Audit E (c_ID c) (c_Kind c) (q_Method r) "/api/auth/link" "login-link" (remoteHost r));
          mret (setCookie cookie (u_ExpiresAt u) (mkResponse 303 None (BRedirect "/")))
      end
  end.

Definition session : handler := λ i p,
  match p with
  | None => mret (error_response (writeUnauthorized (in_req i)))
  | Some p => mret (writeJSON 200 (BSession (pr_CredentialID p) (pr_Kind p) (pr_Label p) (scopesOf p) (pr_Cookie p)
                (if pr_Cookie p then pr_CSRF p else "")))
  end.

Definition logout : handler := λ _ p,
  _ ← (match p with
       | Some p => if pr_Cookie p then _ ← attempt (EndUISession E (pr_UISessionID p)); mret tt else mret tt
       | None => mret tt
       end);
  mret (setCookie "" 0 (mkResponse 204 None BEmpty)).

Definition list_credentials : handler := λ i _,
  found ← attempt (store (List_ E (bool_decide (in_include_revoked i = "true"))));
  match found with
  | Ok creds => mret (writeJSON 200 (BItems (viewOf <$> creds)))
  | Err _ => mret (error_response (writeError (in_req i) 500 "internal"))
  end.

Definition create : handler := λ i p,
  let r := in_req i in
  let invalid := mret (error_response (writeError r 400 "invalid_request")) in
  match in_create i with
  | None => invalid
  | Some b =>
      if negb (bool_decide (b_Kind b = KindClient)) then invalid else
      match ParseScopes (b_Scopes b) with
      | Err _ => invalid
      | Ok scopes =>
          let ttl := if 0 <? b_TTLDays b then wrap64 (b_TTLDays b * day) else clientTTL in
          made ← attempt (store (Create E (mkParams KindClient (trim_space (b_Label b)) scopes "" ttl (Actor (default no_principal p)))));
          match made with
          | Err _ => invalid
          | Ok (c, secret) => mret (writeJSON 201 (BCredential (with_secret secret (viewOf c))))
          end
      end
  end.

Definition active_operators (creds : list Credential) : nat :=
  count (λ c, bool_decide (c_Kind c = KindOperator)) creds.
Definition revoke : handler := λ i _,
  let r := in_req i in
  found ← attempt (store (Get E (in_id i)));
  match found with
  | Err _ => mret (error_response (writeError r 404 "not_found"))
  | Ok target =>
      last ← (if bool_decide (c_Kind target = KindOperator) then
                creds ← attempt (store (List_ E false));
                mret (Nat.leb (active_operators (match creds with Ok l => l | Err _ => [] end)) 1)
              else mret false);
      if (last : bool) then mret (error_response (writeError r 409 "conflict")) else
      done ← attempt (store (Revoke E (in_id i)));
      match done with
      | Err _ => mret (error_response (writeError r 500 "internal"))
      | Ok false => mret (error_response (writeError r 404 "not_found"))
      | Ok true => mret (mkResponse 204 None BEmpty)
      end
  end.

Definition rotate : handler := λ i p,
  made ← attempt (store (Rotate E (in_id i) (Actor (default no_principal p))));
  match made with
  | Err _ => mret (error_response (writeError (in_req i) 400 "invalid_request"))
  | Ok (fresh, secret) =>
      let v := with_secret secret (viewOf fresh) in
      if bool_decide (c_Kind fresh = KindOperator) && negb (bool_decide (OperatorTokenPath = "")) then
        written ← attempt (store (WriteTokenFile E OperatorTokenPath secret));
        mret (writeJSON 200 (BCredential (if is_ok written then with_written OperatorTokenPath v else v)))
      else mret (writeJSON 200 (BCredential v))
  end.

Definition loginLink : handler := λ i p,
  let forbidden := mret (error_response (writeError (in_req i) 403 "forbidden")) in
  found ← attempt (store (Get E (pr_CredentialID (default no_principal p))));
  match found with
  | Err _ => forbidden
  | Ok c =>
      made ← attempt (store (CreateLoginLink E c));
      match made with
      | Err _ => forbidden
      | Ok (code, expires) =>
          let path := "/api/auth/link?code=" +:+ code in
          let base := trim_right (trim_space PublicURL) "/" in
          mret (writeJSON 201 (BLink path expires (if bool_decide (base = "") then "" else base +:+ path)))
      end
  end.

(** The principal that the admin handlers see: its label, or its identifier. *)
Definition AdminAuthenticator (need : string) (p : option Principal) : option string :=
  match p with
  | None => None
  | Some p => if negb (p_Has p need) then None
              else Some (if bool_decide (pr_Label p = "") then pr_CredentialID p else pr_Label p)
  end.

(** [Register]. *)
Definition handlers : list (string * handler) := [
  ("POST /api/auth/login", login);
  ("GET /api/auth/link", link);
  ("GET /api/auth/session", session);
  ("POST /api/auth/logout", logout);
  ("GET /api/auth/credentials", list_credentials);
  ("POST /api/auth/credentials", create);
  ("DELETE /api/auth/credentials/{id}", revoke);
  ("POST /api/auth/credentials/{id}/rotate", rotate);
  ("POST /api/auth/login-links", loginLink)].
(** The mux: the handler registered for the request's pattern. *)
Definition mux (i : Input) : option handler :=
  match Pattern g with
  | Some f => snd <$> List.find (λ h, bool_decide (h.1 = f (in_req i))) handlers
  | None => None
  end.
Definition not_found : Response := mkResponse 404 None (BText "404 page not found").
Definition http (i : Input) : op Response :=
  a ← Middleware E ParseDuration g (λ p _ _, match mux i with Some h => h i p | None => mret not_found end) (in_req i);
  match a with Ok resp => mret resp | Err e => mret (error_response e) end.

(** ** The host *)

(** A credential for a session's agent ([initServeAuth]). *)
Definition mint (sessionID : string) : act AW AErr string :=
  '(_, secret) ← Create E (mkParams KindAgent (str_take 24 ("agent-" +:+ sessionID)) [] sessionID hour "host");
  mret secret.

(** The recovery command works on the database directly: a running server is not told. *)
Definition offline {A} (m : act AW AErr A) : op A := λ w, let '(r, a) := m (aw w) in (r, set_aw a w).

Inductive call :=
| Http (i : Input)
| Mint (sessionID : string)
| EndSession (sessionID : string)
| Boot (tokenPath override : string)
| Reset (tokenPath : string).
Definition perform (c : call) : op unit :=
  match c with
  | Http i => _ ← http i; mret tt
  | Mint s => _ ← attempt (store (mint s)); mret tt
  | EndSession s => _ ← attempt (store (RevokeSessionCredentials E s)); mret tt
  | Boot path override => _ ← attempt (store (EnsureOperator E path override)); mret tt
  | Reset path => _ ← attempt (offline (ResetOperator E path)); mret tt
  end.
Fixpoint perform_all (cs : list call) : op unit :=
  match cs with [] => mret tt | c :: rest => _ ← perform c; perform_all rest end.
End Handlers.

(** ** What every call keeps *)

(** An operator that is not revoked: the way in. *)
Definition has_operator (d : DB) : Prop :=
  ∃ id r, credentials d !! id = Some r ∧ c_Kind (r_cred r) = KindOperator ∧ c_RevokedAt (r_cred r) = None.
Lemma has_operator_alive w w' : alive w w' → has_operator (db w) → has_operator (db w').
Proof. intros Ha (id&r&Hr&Hk&Hv). destruct (Ha id r Hr) as (r'&Hr'&Hs). destruct (Hs Hv). exists id, r'. split_and!; congruence. Qed.

(** From a well-formed store: rows are kept, the store stays well-formed, and the way
    in stays open. *)
Definition safe (w w' : AW) : Prop := wf (db w) →
  kept (db w) (db w') ∧ wf (db w') ∧ (has_operator (db w) → has_operator (db w')).
#[export] Instance safe_preorder : PreOrder safe.
Proof.
  split; [intros w Hw; split_and!; [reflexivity|done|done]|]. intros x y z Hxy Hyz Hx. destruct (Hxy Hx) as (H1&Hy&H2).
  destruct (Hyz Hy) as (H3&Hz&H4). split_and!; [by etransitivity|done|auto].
Qed.
Definition gsafe (w w' : GW) : Prop := safe (aw w) (aw w').
#[export] Instance gsafe_preorder : PreOrder gsafe.
Proof. split; [intros w; unfold gsafe; reflexivity|]. intros x y z. unfold gsafe. by etransitivity. Qed.
#[export] Hint Extern 1 (PreOrder safe) => apply safe_preorder : stays.
#[export] Hint Extern 1 (PreOrder gsafe) => apply gsafe_preorder : stays.

Lemma good_alive_safe w w' : good w w' → alive w w' → safe w w'.
Proof. intros [Hk Hw] Ha Hwf. split_and!; auto. by apply has_operator_alive. Qed.
Lemma store_gsafe {A} (m : act AW AErr A) w : safe (aw w) (m (aw w)).2 → gsafe w (store m w).2.
Proof. unfold gsafe. by destruct (store_run m w) as [_ ->]. Qed.
Lemma store_calm {A} (m : act AW AErr A) : stays good m → stays alive m → stays gsafe (store m).
Proof. intros Hg Ha w. apply store_gsafe, good_alive_safe; [apply Hg|apply Ha]. Qed.
#[export] Hint Extern 2 (stays gsafe (store _)) => apply store_calm : stays.

(** A continuation only has to be safe from the worlds the first call leads to. *)
Lemma safe_bind {W A B} (R : relation W) `{!PreOrder R} (m : act W AErr A) (k : A → act W AErr B) w :
  R w (m w).2 → (∀ a w', m w = (Ok a, w') → R w' (k a w').2) → R w ((m ≫= k) w).2.
Proof.
  intros Hm Hk. unfold mbind, act_bind. destruct (m w) as [[a|e] w'] eqn:He; [|done]. etransitivity; [exact Hm|by apply Hk].
Qed.

Section Calls.
Context (E : Env) (ParseDuration : string → option Z) (g : Guard) (OperatorTokenPath PublicURL : string).

Lemma gtick_gsafe : stays gsafe gtick.
Proof. intros w Hw. split_and!; [reflexivity|done|done]. Qed.
Lemma bump_gsafe t : stays gsafe (bump t).
Proof. intros w. unfold gsafe. cbn. reflexivity. Qed.
Lemma register_gsafe p : stays gsafe (register p).
Proof. intros w. unfold gsafe. cbn. reflexivity. Qed.
Lemma finish_gsafe e p : stays gsafe (finish e p).
Proof. intros w. unfold gsafe. cbn. reflexivity. Qed.
Lemma cancel_gsafe k : stays gsafe (modify (λ w, set_reg (cancelKey k (reg w)) w) : act GW AErr unit).
Proof. intros w. unfold gsafe. cbn. reflexivity. Qed.
Hint Resolve gtick_gsafe bump_gsafe register_gsafe finish_gsafe cancel_gsafe : stays.
Lemma deny_gsafe r reason : stays gsafe (deny E r reason).
Proof. unfold deny. gframes. Qed.
Hint Resolve deny_gsafe : stays.
Lemma admit_gsafe r : stays gsafe (admission E ParseDuration g r).
Proof. unfold admission, authenticate, authorize, refuse, audit. gframes. Qed.
Lemma EndUISession_gsafe id : stays gsafe (EndUISession E id).
Proof. unfold EndUISession. gframes. Qed.
Hint Resolve admit_gsafe EndUISession_gsafe : stays.

(** The credential a session or a link is made for is in the store. *)
Lemma Authenticate_belongs s w c w' :
  wf (db w) → Authenticate E s w = (Ok c, w') → belongs (db w') (λ x, c_Kind x = c_Kind c) (c_ID c).
Proof.
  intros Hwf Ha. pose proof (Authenticate_good E s w) as [Hk _]. rewrite Ha in Hk. cbn in Hk.
  apply Authenticate_Ok in Ha as (id&r&Hr&_&_&Hc).
  assert (c_ID c = id) as -> by (rewrite Hc; by apply (wf_id _ Hwf)).
  assert (c_Kind c = c_Kind (r_cred r)) as -> by by rewrite Hc.
  apply (belongs_kept (db w)); [apply Hk| |by exists r]. by intros x y (->&_)%same_kind.
Qed.
Lemma ConsumeLoginLink_belongs code w c w' :
  wf (db w) → ConsumeLoginLink E code w = (Ok c, w') → c_Kind c = KindOperator ∧ belongs (db w') (λ x, c_Kind x = KindOperator) (c_ID c).
Proof.
  intros Hwf Ha. pose proof (ConsumeLoginLink_good E code w) as [Hk _]. rewrite Ha in Hk. cbn in Hk.
  apply ConsumeLoginLink_Ok in Ha as (i&l&r&Hl&_&_&_&Hr&->&_). destruct (wf_link _ Hwf i l Hl) as (r'&Hr'&Hop).
  rewrite Hr in Hr'. injection Hr' as <-. split; [done|]. rewrite (wf_id _ Hwf _ r Hr).
  apply (belongs_kept (db w)); [apply Hk| |by exists r]. by intros x y (->&_)%same_kind.
Qed.
Lemma Get_belongs id w c w' : wf (db w) → Get E id w = (Ok c, w') → belongs (db w') (λ x, c_Kind x = c_Kind c) (c_ID c).
Proof.
  intros Hwf (r&Hr&->&Hd)%Get_Ok. rewrite Hd. exists r. by rewrite (wf_id _ Hwf id r Hr).
Qed.
Lemma session_safe {B} c (k : result AErr (string * UIRow * string) → act GW AErr B) w :
  belongs (db (aw w)) (λ x, c_Kind x ≠ KindAgent) (c_ID c) → (∀ a, stays gsafe (k a)) →
  gsafe w ((attempt (store (CreateUISession E c)) ≫= k) w).2.
Proof.
  intros Hb Hk. apply (safe_bind gsafe); [|intros a w' _; apply Hk]. rewrite attempt_Ok. cbn.
  apply store_gsafe, good_alive_safe; [by apply CreateUISession_good|apply CreateUISession_alive].
Qed.
(** What follows a call of the store may use that the store is well-formed. *)
Lemma store_bind_safe {A B} (m : act AW AErr A) (k : result AErr A → act GW AErr B) w :
  safe (aw w) (m (aw w)).2 →
  (∀ a w', wf (db (aw w)) → m (aw w) = (a, aw w') → wf (db (aw w')) → gsafe w' (k a w').2) →
  gsafe w ((attempt (store m) ≫= k) w).2.
Proof.
  intros Hs Hk Hwf. revert Hwf. cut (wf (db (aw w)) → gsafe w ((attempt (store m) ≫= k) w).2); [unfold gsafe, safe; auto|].
  intros Hwf. apply (safe_bind gsafe).
  - rewrite attempt_Ok. cbn. by apply store_gsafe.
  - intros a w' Ha%attempt_store_Ok. apply Hk; [done..|]. destruct (Hs Hwf) as (_&Hw&_). by rewrite Ha in Hw.
Qed.
Lemma calm {A} (m : act AW AErr A) w : stays good m → stays alive m → safe (aw w) (m (aw w)).2.
Proof. intros Hg Ha. apply good_alive_safe; [apply Hg|apply Ha]. Qed.

Lemma login_gsafe i p : stays gsafe (login E i p).
Proof.
  unfold login. case_if; [apply stays_ret; exact _|]. destruct (in_token i) as [token|]; [|apply stays_ret; exact _].
  intros w. apply store_bind_safe; [apply calm; auto with stays|]. intros [c|e] w1 Hwf Ha _; [|apply (stays_bind gsafe); auto with stays].
  case_bool_decide as Hk; [apply (stays_bind gsafe); auto with stays|]. apply session_safe.
  - destruct (Authenticate_belongs _ _ _ _ Hwf Ha) as (r&Hr&Hkr). exists r. split; [done|congruence].
  - intros [[[id u] cookie]|]; gframes.
Qed.
Lemma link_gsafe i p : stays gsafe (link E i p).
Proof.
  unfold link. intros w. apply store_bind_safe; [apply calm; auto with stays|].
  intros [c|e] w1 Hwf Ha _; [|apply (stays_bind gsafe); auto with stays]. apply session_safe.
  - destruct (ConsumeLoginLink_belongs _ _ _ _ Hwf Ha) as (_&r&Hr&Hkr). exists r. split; [done|by rewrite Hkr].
  - intros [[[id u] cookie]|]; gframes.
Qed.
Lemma loginLink_gsafe i p : stays gsafe (loginLink E PublicURL i p).
Proof.
  unfold loginLink. intros w. apply store_bind_safe; [apply calm; auto with stays|].
  intros [c|e] w1 Hwf Ha Hwf1; [|apply (stays_ret gsafe)]. apply store_bind_safe.
  - apply good_alive_safe; [|apply CreateLoginLink_alive]. apply CreateLoginLink_good. intros Hk.
    destruct (Get_belongs _ _ _ _ Hwf Ha) as (r&Hr&Hkr). exists r. split; [done|congruence].
  - intros [[code expires]|] w2 _ _ _; apply (stays_ret gsafe).
Qed.
Lemma create_gsafe i p : stays gsafe (create E i p).
Proof. unfold create. gframes. Qed.
Lemma list_gsafe i p : stays gsafe (list_credentials E i p).
Proof. unfold list_credentials. gframes. Qed.
Lemma session_gsafe i p : stays gsafe (session i p).
Proof. unfold session. gframes. Qed.
Lemma logout_gsafe i p : stays gsafe (logout E i p).
Proof. unfold logout. gframes. Qed.

(** A revocation leaves the way in open where another operator has it. *)
Lemma Revoke_rows id w r w' : Revoke E id w = (r, w') →
  ∀ i, i ≠ id → credentials (db w') !! i = credentials (db w) !! i.
Proof.
  unfold Revoke, mbind, act_bind, now. unfold exec at 1. destruct (stmt_fails E (tick (up w))); [by intros [= _ <-]|].
  destruct (update_credential _ _ _ (db (up w))) as [[n d]|] eqn:Hu; [|by intros [= _ <-]].
  assert (∀ i, i ≠ id → credentials d !! i = credentials (db w) !! i) as Hd.
  { unfold update_credential in Hu. change (db (up w)) with (db w) in Hu. intros i Hi. destruct (credentials (db w) !! id); [|by injection Hu as _ <-].
    case_if_in Hu; injection Hu as _ <-; [|done]. cbn. by rewrite lookup_insert_ne. }
  destruct n; cbn [negb]; [|by intros [= _ <-]]. unfold exec. cbn [tick]. destruct (stmt_fails E _); by intros [= _ <-].
Qed.
Lemma Revoke_safe id w :
  (wf (db w) → has_operator (db w) → ∃ i r, i ≠ id ∧ credentials (db w) !! i = Some r ∧ c_Kind (r_cred r) = KindOperator ∧ c_RevokedAt (r_cred r) = None) →
  safe w (Revoke E id w).2.
Proof.
  intros Hother Hwf. pose proof (Revoke_good E id w) as [Hk Hw]. split_and!; [done|by apply Hw|]. intros Hop.
  destruct (Hother Hwf Hop) as (i&r&Hi&Hr&Hkr). destruct (Revoke E id w) as [x w'] eqn:He. cbn.
  exists i, r. by rewrite (Revoke_rows _ _ _ _ He) by done.
Qed.
(** The way in does not lead through a credential of another kind. *)
Lemma other_operator d id : belongs d (λ c, c_Kind c ≠ KindOperator) id → has_operator d →
  ∃ i r, i ≠ id ∧ credentials d !! i = Some r ∧ c_Kind (r_cred r) = KindOperator ∧ c_RevokedAt (r_cred r) = None.
Proof.
  intros (x&Hx&Hn) (i&r&Hr&Hk&Hv). exists i, r. split_and!; [|done..]. intros ->. rewrite Hx in Hr. by simplify_eq.
Qed.
Lemma revoke_all_safe ids w : (∀ id, id ∈ ids → belongs (db w) (λ c, c_Kind c ≠ KindOperator) id) → safe w (revoke_all E ids w).2.
Proof.
  revert w. induction ids as [|id ids IH]; intros w Hids; cbn; [reflexivity|]. apply (safe_bind safe).
  - apply Revoke_safe. intros _. apply other_operator, Hids. by left.
  - intros b w' Hr. apply IH. intros i Hi. apply (belongs_kept (db w)); [| |apply Hids; by right].
    + pose proof (Revoke_good E id w) as [Hk _]. rewrite Hr in Hk. apply Hk.
    + by intros x y (->&_)%same_kind.
Qed.
Lemma RevokeSessionCredentials_safe s w : safe w (RevokeSessionCredentials E s w).2.
Proof.
  unfold RevokeSessionCredentials. apply (safe_bind safe); [apply good_alive_safe; [apply query_good|apply query_alive]|].
  intros ids w' (->&Hd&_)%select_Ok. apply revoke_all_safe. intros id Hin. rewrite Hd.
  apply list_elem_of_fmap in Hin as ([i r]&->&Hin). apply list_elem_of_In, List.filter_In in Hin as [Hin HP].
  apply list_elem_of_In, elem_of_map_to_list in Hin. cbv beta zeta in HP. cbn in HP. b2p. exists r. split; [done|]. by match goal with H : c_Kind _ = KindAgent |- _ => rewrite H end.
Qed.
Lemma Rotate_safe id by_ w : safe w (Rotate E id by_ w).2.
Proof.
  intros Hwf. pose proof (Rotate_good E id by_ w) as [Hk Hw]. split_and!; [done|by apply Hw|]. clear Hk Hw. intros Hop.
  unfold Rotate. unfold mbind, act_bind. rewrite attempt_Ok.
  pose proof (Get_alive E id w) as Hga. destruct (Get E id w) as [[old|e] w1] eqn:Hg; cbn [fst snd] in *; [|by eapply has_operator_alive].
  apply Get_Ok in Hg as (r&Hr&->&Hd).
  set (p := mkParams _ _ _ _ _ _). pose proof (Create_alive E p w1) as Hca. pose proof (Create_good E p w1) as Hcg.
  destruct (Create E p w1) as [[[c s]|e] w2] eqn:Hc; cbn [fst snd] in *; [|eapply has_operator_alive; [exact Hca|by eapply has_operator_alive]].
  apply Create_Ok in Hc as (body&_&_&Hck&_&_&_&Hrev&_&_&[Hi Hnew]%insert_credential_Some). cbn [r_cred] in *.
  destruct (Revoke E id w2) as [x w3] eqn:Hrv. pose proof (Revoke_rows _ _ _ _ Hrv) as Hrows.
  assert (has_operator (db w3)) as Hdone; [|by destruct x].
  rewrite Hd in Hi, Hnew.
  assert (∀ j y, credentials (db w) !! j = Some y → c_ID c ≠ j) as Hfresh by (intros j y Hy Heq; rewrite Heq in Hnew; congruence).
  destruct (decide (c_Kind (r_cred r) = KindOperator)) as [Hkind|Hkind].
  - exists (c_ID c), (mkRow (hashSecret E s) c). rewrite Hrows by by eapply Hfresh. rewrite Hi, lookup_insert_eq. cbn. split_and!; [done|by rewrite Hck|done].
  - destruct (other_operator _ id (ex_intro _ r (conj Hr Hkind)) Hop) as (i&ro&Hne&Hro&Ho). exists i, ro. rewrite Hrows by done.
    rewrite Hi, lookup_insert_ne by by eapply Hfresh. done.
Qed.
Lemma rotate_gsafe i p : stays gsafe (rotate E OperatorTokenPath i p).
Proof.
  unfold rotate. intros w. apply store_bind_safe; [apply Rotate_safe|]. intros [[c s]|] w' _ _ _; [|apply (stays_ret gsafe)].
  revert w'. fold (stays gsafe (if bool_decide (c_Kind c = KindOperator) && negb (bool_decide (OperatorTokenPath = "")) then
    written ← attempt (store (WriteTokenFile E OperatorTokenPath s));
    mret (writeJSON 200 (BCredential (if is_ok written then with_written OperatorTokenPath (with_secret s (viewOf c)) else with_secret s (viewOf c))))
    else mret (writeJSON 200 (BCredential (with_secret s (viewOf c)))))). gframes.
Qed.

(** Where the list counts a second operator, there is one. *)
Lemma count_key (P : Credential → bool) (l : list (string * Row)) id :
  NoDup l.*1 → (∀ i r, (i, r) ∈ l → P (r_cred r) = true → i = id) → (count P (r_cred ∘ snd <$> l) ≤ 1)%nat.
Proof.
  induction l as [|[i r] l IH]; intros Hnd Hid; [cbn; lia|]. cbn in Hnd. apply NoDup_cons in Hnd as [Hni Hnd].
  unfold count in *. cbn. destruct (P (r_cred r)) eqn:HP.
  - cbn. assert (List.filter P (r_cred ∘ snd <$> l) = []) as ->; [|cbn; lia].
    assert (i = id) as -> by (by apply (Hid i r); [left|]).
    destruct (List.filter P (r_cred ∘ snd <$> l)) as [|c k] eqn:Hf; [done|]. exfalso. apply Hni.
    assert (In c (List.filter P (r_cred ∘ snd <$> l))) as [Hin HPc]%List.filter_In by (rewrite Hf; by left).
    apply list_elem_of_In, list_elem_of_fmap in Hin as ([j x]&->&Hin). assert (j = id) as <- by (apply (Hid j x); [by right|done]).
    apply list_elem_of_fmap. by exists (j, x).
  - apply IH; [done|]. intros j x Hj. apply Hid. by right.
Qed.
Lemma count_Permutation {A} (P : A → bool) l k : l ≡ₚ k → count P l = count P k.
Proof. unfold count. induction 1; cbn; repeat case_if; cbn; congruence. Qed.
Lemma count_filter {A} (P Q : A → bool) l : count P (List.filter Q l) = count (λ x, P x && Q x) l.
Proof. unfold count. induction l as [|x l IH]; cbn; [done|]. destruct (Q x), (P x) eqn:HP; cbn; rewrite ?HP; cbn; congruence. Qed.
Lemma listed_operators w creds w' id :
  List_ E false w = (Ok creds, w') → (2 ≤ active_operators creds)%nat →
  ∃ i r, i ≠ id ∧ credentials (db w) !! i = Some r ∧ c_Kind (r_cred r) = KindOperator ∧ c_RevokedAt (r_cred r) = None.
Proof.
  unfold List_. intros (->&_&_)%select_Ok Hc.
  destruct (decide (map_Exists (λ i r, i ≠ id ∧ c_Kind (r_cred r) = KindOperator ∧ c_RevokedAt (r_cred r) = None) (credentials (db w)))) as [(i&r&Hr&Hi&Hk&Hv)|Hno];
    [by exists i, r|]. exfalso. unfold active_operators in Hc. rewrite (count_Permutation _ _ _ (sorting.merge_sort_Permutation _ _)) in Hc.
  rewrite count_filter in Hc. enough (count (λ x, bool_decide (c_Kind x = KindOperator) && (false || unrevoked x)) (r_cred ∘ snd <$> map_to_list (credentials (db w))) ≤ 1)%nat by lia.
  apply (count_key _ _ id); [apply NoDup_fst_map_to_list|].
  intros i r Hr%elem_of_map_to_list HP. cbv beta in HP. unfold unrevoked in HP. cbn [orb] in HP. b2p. destruct (decide (i = id)) as [|Hne]; [done|].
  destruct Hno. by exists i, r.
Qed.
Lemma revoke_gsafe i p : stays gsafe (revoke E i p).
Proof.
  unfold revoke. intros w. apply store_bind_safe; [apply calm; auto with stays|].
  intros [target|e] w1 Hwf Hg _; [|apply (stays_ret gsafe)]. apply Get_Ok in Hg as (r&Hr&->&Hd).
  assert (∀ w2, db (aw w2) = db (aw w) →
    (has_operator (db (aw w)) → ∃ j x, j ≠ in_id i ∧ credentials (db (aw w)) !! j = Some x ∧ c_Kind (r_cred x) = KindOperator ∧ c_RevokedAt (r_cred x) = None) →
    gsafe w2 ((done ← attempt (store (Revoke E (in_id i)));
      match done with
      | Err _ => mret (error_response (writeError (in_req i) 500 "internal"))
      | Ok false => mret (error_response (writeError (in_req i) 404 "not_found"))
      | Ok true => mret (mkResponse 204 None BEmpty)
      end) w2).2) as Hrevoke.
  { intros w2 Hdb Hother. apply store_bind_safe; [apply Revoke_safe; by rewrite Hdb|].
    intros [[]|] w3 _ _ _; apply (stays_ret gsafe). }
  case_bool_decide as Hk.
  - apply (safe_bind gsafe).
    + apply (stays_bind gsafe); [apply stays_attempt; auto with stays|intros; apply (stays_ret gsafe)].
    + intros last w2 (creds&w3&Hl%attempt_store_Ok&Hlast)%bind_Ok. apply mret_Ok in Hlast as [-> ->].
      case_if; [apply (stays_ret gsafe)|]. apply Nat.leb_gt in Hif. destruct creds as [creds|]; [|cbn in Hif; lia].
      pose proof (listed_operators _ _ _ (in_id i) Hl Hif) as Hex. apply select_Ok in Hl as (_&Hdl&_).
      apply Hrevoke; [congruence|]. rewrite Hd in Hex. auto.
  - apply (safe_bind gsafe); [apply (stays_ret gsafe)|]. intros last w2 [-> ->]%mret_Ok. cbv iota. apply Hrevoke; [done|].
    apply other_operator. by exists r.
Qed.
End Calls.

Section Traces.
Context (E : Env) (ParseDuration : string → option Z) (g : Guard) (OperatorTokenPath PublicURL : string).
Abbreviation perform := (perform E ParseDuration g OperatorTokenPath PublicURL).
Abbreviation perform_all := (perform_all E ParseDuration g OperatorTokenPath PublicURL).

Lemma mux_gsafe i h : mux E g OperatorTokenPath PublicURL i = Some h → ∀ j p, stays gsafe (h j p).
Proof.
  unfold mux. destruct (Pattern g) as [f|]; [|done]. destruct (List.find _ _) as [[k h']|] eqn:Hf; [|done]. intros [= <-] j p.
  apply List.find_some in Hf as [Hin _]. repeat (destruct Hin as [[= _ <-]|Hin]); [..|done].
  - apply login_gsafe.
  - apply link_gsafe.
  - apply session_gsafe.
  - apply logout_gsafe.
  - apply list_gsafe.
  - apply create_gsafe.
  - apply revoke_gsafe.
  - apply rotate_gsafe.
  - apply loginLink_gsafe.
Qed.
Lemma http_gsafe i : stays gsafe (http E ParseDuration g OperatorTokenPath PublicURL i).
Proof.
  unfold http, Middleware. pose proof (admit_gsafe E ParseDuration g). pose proof register_gsafe. pose proof finish_gsafe.
  pose proof (mux_gsafe i) as Hmux. destruct (mux E g OperatorTokenPath PublicURL i) as [h|]; gframes; by apply Hmux.
Qed.
Lemma mint_calm s : stays good (mint E s) ∧ stays alive (mint E s).
Proof. unfold mint. split; frames. Qed.
Definition online (c : call) : Prop := match c with Reset _ => False | _ => True end.
Lemma perform_gsafe c : online c → stays gsafe (perform c).
Proof.
  destruct c as [i|s|s|path o|path]; intros Hc; try done; cbn; apply stays_bind; try exact _; try (intros; apply stays_ret; exact _).
  - apply http_gsafe.
  - apply stays_attempt, store_calm; apply mint_calm.
  - apply stays_attempt. intros w. apply store_gsafe, RevokeSessionCredentials_safe.
  - apply stays_attempt, store_calm; auto with stays.
Qed.
(** Recovery keeps the rows too. *)
Lemma perform_sound c w : wf (db (aw w)) →
  kept (db (aw w)) (db (aw (perform c w).2)) ∧ wf (db (aw (perform c w).2)).
Proof.
  intros Hwf. assert (online c ∨ ∃ path, c = Reset path) as [Hc|[path ->]] by (destruct c; cbn; eauto).
  { by destruct (perform_gsafe c Hc w Hwf) as (?&?&_). }
  pose proof (ResetOperator_good E path (aw w)) as [Hk Hw]. cbn. unfold mbind, act_bind. rewrite attempt_Ok.
  unfold offline. destruct (ResetOperator E path (aw w)) as [r a]. cbn in *. auto.
Qed.
Lemma perform_all_sound cs w : wf (db (aw w)) →
  kept (db (aw w)) (db (aw (perform_all cs w).2)) ∧ wf (db (aw (perform_all cs w).2)).
Proof.
  revert w. induction cs as [|c cs IH]; intros w Hwf; cbn; [by split|]. unfold mbind, act_bind.
  pose proof (perform_sound c w Hwf) as [Hk Hw]. destruct (perform c w) as [[[]|e] w']; cbn in *; [|done].
  destruct (IH w' Hw). split; [by etransitivity|done].
Qed.
End Traces.

(** ** Properties *)

Section Properties.
Context (E : Env) (ParseDuration : string → option Z) (g : Guard) (OperatorTokenPath PublicURL : string).
Abbreviation perform_all := (perform_all E ParseDuration g OperatorTokenPath PublicURL).

(** C18. Revocation is for good.  Whatever requests, mints, session ends, boots and
    recoveries follow, failing or not, the store stays well-formed, a revoked credential
    stays revoked, and no request is admitted under it again. *)
Theorem revoked_is_forever id cs w :
  wf (db (aw w)) → revoked (db (aw w)) id → cut_prefix id "tether:" = None →
  let w' := (perform_all cs w).2 in
  wf (db (aw w')) ∧ revoked (db (aw w')) id ∧
  ∀ r p t w2, admission E ParseDuration g r w' = (Ok (Serve p t), w2) → pr_CredentialID p ≠ id.
Proof.
  intros Hwf Hrev Ht w'. destruct (perform_all_sound E ParseDuration g OperatorTokenPath PublicURL cs w Hwf) as [Hk Hw].
  assert (revoked (db (aw w')) id) as Hr by by eapply revoked_kept. split_and!; [done..|].
  intros r p t w2 (_&_&_&_&Ha&_)%admit_Ok. by eapply revoked_admits_nothing.
Qed.

(** C19. The API never locks the operator out.  As long as the recovery command is not
    used, whatever is requested in whatever order and whatever statements fail, an
    operator that is not revoked remains if there was one. *)
Theorem operator_never_locked_out cs w :
  wf (db (aw w)) → Forall online cs → has_operator (db (aw w)) → has_operator (db (aw (perform_all cs w).2)).
Proof.
  revert w. induction cs as [|c cs IH]; intros w Hwf Hon Hop; cbn; [done|]. apply Forall_cons in Hon as [Hc Hon].
  destruct (perform_gsafe E ParseDuration g OperatorTokenPath PublicURL c Hc w Hwf) as (_&Hw&Ho). specialize (Ho Hop).
  unfold mbind, act_bind. destruct (perform E ParseDuration g OperatorTokenPath PublicURL c w) as [[[]|e] w']; cbn in *; [|done].
  by apply IH.
Qed.

(** A login link works once.  After it was spent, no sequence of calls makes its
    code good again. *)
Theorem login_link_works_once code w c w1 cs c' w3 :
  wf (db (aw w)) → store (ConsumeLoginLink E code) w = (Ok c, w1) →
  ConsumeLoginLink E code (aw (perform_all cs w1).2) ≠ (Ok c', w3).
Proof.
  intros Hwf Hs%store_Ok Hagain. pose proof (ConsumeLoginLink_good E code (aw w)) as [_ Hw]. rewrite Hs in Hw. specialize (Hw Hwf).
  apply ConsumeLoginLink_Ok in Hs as (i&l&r&_&Hh&_&_&_&_&_&Hl).
  destruct (perform_all_sound E ParseDuration g OperatorTokenPath PublicURL cs w1 Hw) as [[_ _ Hk] Hw2].
  destruct (Hk i _ Hl) as (l2&Hl2&[Hh2 _ _ Hc2]). cbn in Hh2, Hc2.
  apply ConsumeLoginLink_Ok in Hagain as (j&k&r'&Hj&Hhj&Hcj&_).
  assert (j = i) as -> by (eapply (wf_link_hash _ Hw2); [exact Hj|exact Hl2|congruence]).
  rewrite Hl2 in Hj. injection Hj as <-. rewrite Hc2 in Hcj; done.
Qed.

(** Logging out ends the session at once and for good.  Unless its statement fails,
    after the logout every request registered under the session is cancelled, and its
    cookie never authenticates again. *)
Theorem logout_is_final i p u w cs w1 resp cookie x w3 :
  wf (db (aw w)) → pr_Cookie p = true → ui_sessions (db (aw w)) !! pr_UISessionID p = Some u →
  u_hash u = hashSecret E cookie → stmt_fails E (S (tick (aw w))) = false →
  logout E i (Some p) w = (Ok resp, w1) →
  entries ("ui:" +:+ pr_UISessionID p) (reg w) ⊆ canceled (reg w1) ∧
  AuthenticateUISession E cookie (aw (perform_all cs w1).2) ≠ (Ok x, w3).
Proof.
  intros Hwf Hc Hu Hh Hf. unfold logout. rewrite Hc. intros Hk.
  assert (ui_sessions (db (aw w1)) !! pr_UISessionID p = Some (if bool_decide (u_RevokedAt u = None)
            then mkUIRow (u_hash u) (u_CredentialID u) (u_CSRF u) (u_CreatedAt u) (u_ExpiresAt u) (Some (now_at E (tick (aw w)))) else u) ∧
          entries ("ui:" +:+ pr_UISessionID p) (reg w) ⊆ canceled (reg w1) ∧ wf (db (aw w1))) as (Hu1&Hcan&Hwf1).
  { pose proof (EndUISession_gsafe E (pr_UISessionID p) w Hwf) as (_&Hw&_). revert Hk Hw.
    unfold EndUISession, store, DeleteUISession, mbind, act_bind, attempt, now, exec, modify, lift. cbn [tick up]. rewrite Hf. cbn.
    rewrite drop_all. cbn. intros [= _ <-] Hw. cbn in *. split_and!; [|set_solver|done]. by rewrite lookup_alter_eq, Hu. }
  split; [done|]. intros Ha. destruct (perform_all_sound E ParseDuration g OperatorTokenPath PublicURL cs w1 Hwf1) as [[_ Hkept _] Hw2].
  destruct (Hkept _ _ Hu1) as (u2&Hu2&[Hh2 _ _ Hr2]). destruct x as [[id v] c].
  apply AuthenticateUISession_Ok in Ha as (v'&r&Hv&Hhv&Hrv&_).
  assert (id = pr_UISessionID p) as ->.
  { eapply (wf_ui_hash _ Hw2); [exact Hv|exact Hu2|]. rewrite Hhv, Hh2. by case_bool_decide. }
  rewrite Hu2 in Hv. injection Hv as <-. rewrite Hr2 in Hrv; case_bool_decide; done.
Qed.

(** What a client credential made through the API is.  It is a client's, without the
    admin scope, with the scopes that were asked for, and lives thirty days or the days
    that were asked for; but from 106752 days on the lifetime overflows, and up to
    213503 the credential has no expiry at all. *)
Theorem client_credential_lifetime i p w resp w' :
  create E i p w = (Ok resp, w') → status resp = 201 →
  ∃ b c secret, in_create i = Some b ∧ body resp = BCredential (with_secret secret (viewOf c)) ∧
    c_Kind c = KindClient ∧ (ScopeAdmin ∉ c_Scopes c) ∧ ParseScopes (b_Scopes b) = Ok (c_Scopes c) ∧
    (b_TTLDays b ≤ 0 → c_ExpiresAt c = Some (c_CreatedAt c + 30 * day)) ∧
    (0 < b_TTLDays b ≤ 106751 → c_ExpiresAt c = Some (c_CreatedAt c + b_TTLDays b * day)) ∧
    (106752 ≤ b_TTLDays b ≤ 213503 → c_ExpiresAt c = None).
Proof.
  unfold create. destruct (in_create i) as [b|]; [|intros [-> _]%mret_Ok; unfold writeError, writeErrorWith; by case_if].
  assert (∀ r w1 w2, (mret (error_response (writeError r 400 "invalid_request")) : act GW AErr Response) w1 = (Ok resp, w2) → status resp = 201 → False) as Hinv.
  { intros r w1 w2 [-> _]%mret_Ok. unfold writeError, writeErrorWith. by case_if. }
  case_if; [intros H1 H2; exfalso; by eapply Hinv|]. destruct (ParseScopes (b_Scopes b)) as [scopes|] eqn:Hs; [|intros H1 H2; exfalso; by eapply Hinv].
  intros (made&w1&Hm%attempt_store_Ok&Hk)%bind_Ok Hst. destruct made as [[c secret]|]; [|exfalso; by eapply Hinv].
  apply mret_Ok in Hk as [-> _]. exists b, c, secret.
  apply Create_Ok in Hm as (body&_&_&Hkind&_&_&Hg&_&_&Hexp&_). cbn [p_Kind p_TTL] in *.
  unfold granted in Hg. cbn [p_Kind p_Scopes] in Hg. rewrite (bool_decide_false (KindClient = KindOperator)), (bool_decide_true (KindClient = KindClient)) in Hg by done.
  case_bool_decide as Hne; [done|]. case_bool_decide as Ha; [done|]. injection Hg as <-.
  split_and!; try done; intros Hd; rewrite Hexp.
  - by rewrite (proj2 (Z.ltb_ge 0 (b_TTLDays b))) by lia.
  - rewrite (proj2 (Z.ltb_lt 0 (b_TTLDays b))) by lia. rewrite wrap64_id; [|unfold int64, min_int64, max_int64, day, hour; lia].
    rewrite (proj2 (Z.ltb_lt _ _)); [done|]. unfold day, hour. lia.
  - rewrite (proj2 (Z.ltb_lt 0 (b_TTLDays b))) by lia. rewrite (proj2 (Z.ltb_ge _ _)); [done|].
    unfold wrap64. replace ((b_TTLDays b * day + 2 ^ 63) mod 2 ^ 64) with (b_TTLDays b * day + 2 ^ 63 - 2 ^ 64);
      [unfold day, hour; lia|]. apply Z.mod_unique_pos with 1; unfold day, hour; lia.
Qed.
End Properties.

(** ** Worked examples *)

Module Example_api.
Import Example_auth Example_guard.
Definition api : Guard := mkGuard true
  (Some (λ r, if bool_decide (q_Method r = "DELETE") then "DELETE /api/auth/credentials/{id}" else q_Method r +:+ " " +:+ q_Path r))
  None None false None "" "".
Definition input (r : Request) : Input := mkInput r None "" "" "" None.
Definition login_input (secret : string) : Input :=
  mkInput (mkRequest "POST" "/api/auth/login" "localhost:8080" "127.0.0.1:5000" "" None "" "") (Some secret) "" "" "" None.
Definition revoke_input (id : string) : Input :=
  mkInput (request "DELETE" ("/api/auth/credentials/" +:+ id) operator.2) None "" "" id None.
Definition create_input (days : Z) : Input :=
  mkInput (request "POST" "/api/auth/credentials" operator.2) None "" "" "" (Some (mkBody KindClient "phone" [ScopeRead] days)).
Definition run_api (cs : list call) (w : GW) : GW := (perform_all env PD api "token" "" cs w).2.
Definition answer (i : Input) (w : GW) : result AErr Response := (http env PD api "token" "" i w).1.

(** The last operator cannot be revoked, a client cannot list, and can be revoked. *)
Example answers : (λ i, status <$> answer i (world_of full)) <$>
    [revoke_input (c_ID operator.1); revoke_input (c_ID client.1); input (request "GET" "/api/auth/credentials" client.2);
     input list_request; login_input client.2; login_input agent.2; create_input 7] =
  Ok <$> [409; 204; 403; 200; 200; 401; 201].
Proof. vm_compute. reflexivity. Qed.
(** A hundred thousand days and more are for ever. *)
Example never_expires :
  match answer (create_input 106752) (world_of full) with
  | Ok resp => match body resp with BCredential v => c_ExpiresAt (v_cred v) | _ => Some 0 end
  | Err _ => Some 0
  end = None.
Proof. vm_compute. reflexivity. Qed.

Definition without_client : AW := run (Revoke env (c_ID client.1)) full.
Lemma without_client_wf : wf (db without_client).
Proof. apply (Revoke_good env), full_wf. Qed.
Lemma client_revoked : revoked (db without_client) (c_ID client.1).
Proof.
  exists (mkRow (hashSecret env client.2) (with_revoked (Some (now_at env (tick full))) client.1)).
  split; [vm_compute; reflexivity|discriminate].
Qed.
Lemma revoked_is_forever_witness :
  let w := run_api [Http (login_input client.2); Mint "s2"; Boot "token" ""] (world_of without_client) in
  revoked (db (aw w)) (c_ID client.1).
Proof.
  apply (revoked_is_forever env PD api "token" "" (c_ID client.1)
           [Http (login_input client.2); Mint "s2"; Boot "token" ""] (world_of without_client)).
  - exact without_client_wf.
  - exact client_revoked.
  - reflexivity.
Defined.

Lemma full_has_operator : has_operator (db full).
Proof. exists (c_ID operator.1), (mkRow (hashSecret env operator.2) operator.1). split_and!; vm_compute; reflexivity. Qed.
Lemma operator_never_locked_out_witness :
  has_operator (db (aw (run_api [Http (revoke_input (c_ID operator.1)); EndSession "s1"] (world_of full)))).
Proof.
  apply (operator_never_locked_out env PD api "token" "" [Http (revoke_input (c_ID operator.1)); EndSession "s1"] (world_of full)).
  - exact full_wf.
  - repeat constructor.
  - exact full_has_operator.
Defined.

Definition linked : AW := run (CreateLoginLink env operator.1) full.
Definition link_code : string := match (CreateLoginLink env operator.1 full).1 with Ok (code, _) => code | Err _ => "" end.
Lemma linked_wf : wf (db linked).
Proof.
  apply (CreateLoginLink_good env operator.1 full); [|apply full_wf]. intros _. exists (mkRow (hashSecret env operator.2) operator.1).
  split; vm_compute; reflexivity.
Qed.
Definition spent : GW := (store (ConsumeLoginLink env link_code) (world_of linked)).2.
Lemma link_spent : store (ConsumeLoginLink env link_code) (world_of linked) = (Ok operator.1, spent).
Proof. vm_compute. reflexivity. Qed.
Lemma login_link_works_once_witness :
  ¬ ∃ c w, ConsumeLoginLink env link_code (aw (run_api [Mint "s2"] spent)) = (Ok c, w).
Proof.
  intros (c&w&Hagain). revert Hagain. exact (login_link_works_once env PD api "token" "" link_code (world_of linked) operator.1 spent [Mint "s2"] c w linked_wf link_spent).
Defined.

(** A session of the client, and its principal. *)
Definition started : result AErr (string * UIRow * string) := (CreateUISession env client.1 full).1.
Definition session_id : string := match started with Ok (id, _, _) => id | Err _ => "" end.
Definition session_row : UIRow := match started with Ok (_, u, _) => u | Err _ => mkUIRow "" "" "" 0 0 None end.
Definition session_cookie : string := match started with Ok (_, _, c) => c | Err _ => "" end.
Definition in_session : AW := run (CreateUISession env client.1) full.
Lemma in_session_wf : wf (db in_session).
Proof.
  apply (CreateUISession_good env client.1 full); [|apply full_wf]. exists (mkRow (hashSecret env client.2) client.1).
  split; [vm_compute; reflexivity|by_decide].
Qed.
Definition browser : Principal := session_principal session_id session_row client.1.
Definition logged_out : result AErr Response * GW := logout env (login_input "") (Some browser) (world_of in_session).
Lemma logged_out_ok : logout env (login_input "") (Some browser) (world_of in_session) =
  (Ok (setCookie "" 0 (mkResponse 204 None BEmpty)), logged_out.2).
Proof. vm_compute. reflexivity. Qed.
Lemma session_there : ui_sessions (db in_session) !! session_id = Some session_row.
Proof. vm_compute. reflexivity. Qed.
Lemma logout_is_final_witness :
  ¬ ∃ x w, AuthenticateUISession env session_cookie (aw (run_api [Http (login_input client.2)] logged_out.2)) = (Ok x, w).
Proof.
  intros (x&w&Hagain). revert Hagain. refine (proj2 (logout_is_final env PD api "token" "" (login_input "") browser session_row (world_of in_session)
    [Http (login_input client.2)] logged_out.2 _ session_cookie x w in_session_wf _ _ _ _ logged_out_ok));
    [reflexivity|exact session_there|vm_compute; reflexivity|reflexivity].
Defined.

Definition minted_forever : result AErr Response * GW := create env (create_input 106752) (Some (principal_of operator.1)) (world_of full).
Definition forever_response : Response := match minted_forever.1 with Ok r => r | Err _ => not_found end.
Lemma minted_forever_ok : create env (create_input 106752) (Some (principal_of operator.1)) (world_of full) = (Ok forever_response, minted_forever.2).
Proof. vm_compute. reflexivity. Qed.
Lemma client_credential_lifetime_witness :
  ∃ c secret, body forever_response = BCredential (with_secret secret (viewOf c)) ∧ c_ExpiresAt c = None.
Proof.
  destruct (client_credential_lifetime env _ _ _ _ _ minted_forever_ok) as (b&c&s&Hb&Hbody&_&_&_&_&_&He); [vm_compute; reflexivity|].
  exists c, s. split; [exact Hbody|]. apply He. injection Hb as <-. split; vm_compute; discriminate.
Defined.
End Example_api.
