(* ===== verification/Background.v ===== *)
(** * Background jobs

    [internal/background]: the service that submits detached shell jobs, follows them
    and reports their results ([service.go], [messaging.go]), and the backend that runs
    them ([shell_job.go]).  Every critical section is one step of a concurrent system:
    submissions, the reapers of the children, cancellations, timers and queries
    interleave freely.

    The operating system is the environment: whether a child starts, what it writes and
    how it exits, and the clock.  So are the encoding of a result as JSON and the
    answer of the messaging service, which may both fail. *)

From stdpp Require Import sorting pretty.
From S2P Require Import Prelude GoStrings GoNum.

Open Scope string_scope.
Open Scope Z_scope.
Set Default Proof Using "Type".

(** ** Jobs *)

Inductive JobStatus := StatusPending | StatusRunning | StatusSucceeded | StatusFailed | StatusCanceled | StatusExpired.
#[global] Instance JobStatus_eq : EqDecision JobStatus.
Proof. solve_decision. Defined.
Definition status_name (s : JobStatus) : string :=
  match s with
  | StatusPending => "pending" | StatusRunning => "running" | StatusSucceeded => "succeeded"
  | StatusFailed => "failed" | StatusCanceled => "canceled" | StatusExpired => "expired"
  end.
Definition IsTerminal (s : JobStatus) : bool :=
  match s with StatusPending | StatusRunning => false | _ => true end.

Record JobBudget := mkBudget { WallClockSeconds : Z; MaxOutputBytes : Z }.
Definition DefaultWallClockSeconds : Z := 30 * 60.
Definition DefaultMaxOutputBytes : Z := Z.shiftl 1 20.
Record JobRequest := mkJobRequest {
  Agent : string;
  Task : string;
  Budget : JobBudget;
  OriginatingSessionID : string;
  OriginatingAgentID : string;
}.
Definition with_budget (b : JobBudget) (r : JobRequest) : JobRequest :=
  mkJobRequest (Agent r) (Task r) b (OriginatingSessionID r) (OriginatingAgentID r).
Record BackendCompletion := mkCompletion {
  bc_Status : JobStatus;
  bc_Output : string;
  bc_Truncated : bool;
  bc_Err : option string;
  bc_StartedAt : option Z;
  bc_CompletedAt : option Z;
}.
Record jobRecord := mkRecord {
  j_id : string;
  j_req : JobRequest;
  j_status : JobStatus;
  j_startedAt : option Z;
  j_completedAt : option Z;
  j_output : string;
  j_truncated : bool;
  j_err : option string;
}.
Record JobResult := mkResult {
  res_JobID : string;
  res_Status : JobStatus;
  res_Output : string;
  res_Error : string;
  res_StartedAt : option Z;
  res_CompletedAt : option Z;
  res_Truncated : bool;
}.
Definition result_of (r : jobRecord) : JobResult :=
  mkResult (j_id r) (j_status r) (j_output r) (default "" (j_err r)) (j_startedAt r) (j_completedAt r) (j_truncated r).

Inductive JErr :=
| EPatternNotBackground (pattern : string)
| ENoBackend
| ENoMessenger
| ENoTask
| ENoSession
| ENoAgent
| EStart
| EUnknownJob
| EExpiredJob.

Inductive ExecutionPattern := PatternInvalid | PatternInline | PatternSubagent | PatternBackground.
#[global] Instance ExecutionPattern_eq : EqDecision ExecutionPattern.
Proof. solve_decision. Defined.
Definition pattern_name (p : ExecutionPattern) : string :=
  match p with
  | PatternInline => "inline" | PatternSubagent => "subagent" | PatternBackground => "background" | PatternInvalid => "invalid"
  end.

(** ** Job identifiers *)

(** [tag_of] is the base64 of the MAC under the secret of the service;
    [canonical_uuid] says whether the UUID library reads a text and prints it back. *)
Record Env := mkEnv {
  canonical_uuid : string → bool;
  tag_of : string → string;
  marshal_result : JobResult → option string;   (** [json.Marshal]; [None] is an error *)
}.
Definition jobIDTokenVersion : string := "bg1".
(** The length of 32 bytes in unpadded base64. *)
Definition tag_length : nat := 43.
Definition newJobID (E : Env) (uuid : string) : string :=
  let payload := jobIDTokenVersion +:+ ":" +:+ uuid in payload +:+ ":" +:+ tag_of E payload.
(** That the tag decodes to 32 bytes which encode to it and equal the MAC is to say
    that it is the encoding of the MAC. *)
Definition isIssuedJobID (E : Env) (jobID : string) : bool :=
  match cut ":" jobID with
  | None => false
  | Some (version, remainder) =>
      if negb (bool_decide (version = jobIDTokenVersion)) then false else
      match cut ":" remainder with
      | None => false
      | Some (nonce, tag) =>
          no_byte ":" tag && canonical_uuid E nonce && bool_decide (String.length tag = tag_length)
          && bool_decide (tag = tag_of E (version +:+ ":" +:+ nonce))
      end
  end.

(** ** Retention *)

Record Retention := mkRetention { ttl : Z; maxCompleted : Z }.
Definition default_retention : Retention := mkRetention (24 * 3600 * 1000000000) 100.
Abbreviation registry := (gmap string jobRecord).

(** The zero time lies before every other. *)
Definition time_le (a b : option Z) : bool :=
  match a, b with None, _ => true | Some _, None => false | Some x, Some y => x <=? y end.
Definition older (a b : string * jobRecord) : Prop :=
  (if bool_decide (j_completedAt a.2 = j_completedAt b.2) then String.leb a.1 b.1
   else time_le (j_completedAt a.2) (j_completedAt b.2)) = true.
#[global] Instance older_dec : RelDecision older.
Proof. intros a b. unfold older. apply _. Defined.
Definition outlived (R : Retention) (now : Z) (r : jobRecord) : bool :=
  (0 <? ttl R) && match j_completedAt r with Some c => c + ttl R <=? now | None => false end.
Definition terminal (r : jobRecord) : bool := IsTerminal (j_status r).
(** The records that are deleted: terminal ones past their time, and the oldest of the
    others beyond the ceiling. *)
Definition completed (R : Retention) (now : Z) (m : registry) : list (string * jobRecord) :=
  List.filter (λ kv, terminal kv.2 && negb (outlived R now kv.2)) (map_to_list m).
Definition evicted (R : Retention) (now : Z) (m : registry) : list string :=
  let l := completed R now m in
  if (maxCompleted R <? 0) || (Z.of_nat (length l) <=? maxCompleted R) then []
  else (take (length l - Z.to_nat (maxCompleted R)) (merge_sort older l)).*1.
Definition pruneCompleted (R : Retention) (now : Z) (m : registry) : registry :=
  filter (λ kv, ¬ (terminal kv.2 && outlived R now kv.2 = true) ∧ kv.1 ∉ evicted R now m) m.

(** ** The service *)

Section Service.
Context (E : Env) (R : Retention).

(** [Submit]'s checks and defaults. *)
Definition submit_check (has_backend has_messenger : bool) (pattern : ExecutionPattern) (req : JobRequest) : result JErr JobRequest :=
  if negb (bool_decide (pattern = PatternBackground)) then Err (EPatternNotBackground (pattern_name pattern))
  else if negb has_backend then Err ENoBackend
  else if negb has_messenger then Err ENoMessenger
  else if bool_decide (trim_space (Task req) = "") then Err ENoTask
  else if bool_decide (OriginatingSessionID req = "") then Err ENoSession
  else if bool_decide (OriginatingAgentID req = "") then Err ENoAgent
  else
    let b := Budget req in
    Ok (with_budget (mkBudget
          (if WallClockSeconds b <=? 0 then DefaultWallClockSeconds else WallClockSeconds b)
          (if MaxOutputBytes b <=? 0 then DefaultMaxOutputBytes else MaxOutputBytes b)) req).
Definition new_record (id : string) (req : JobRequest) : jobRecord :=
  mkRecord id req StatusPending None None "" false None.
(** The critical sections of [Submit]: the new record, and the change to running. *)
Definition submit_register (now : Z) (id : string) (req : JobRequest) (m : registry) : registry :=
  <[id := new_record id req]> (pruneCompleted R now m).
Definition submit_running (now : Z) (id : string) (m : registry) : registry :=
  alter (λ r, if bool_decide (j_status r = StatusPending)
              then mkRecord (j_id r) (j_req r) StatusRunning (Some now) (j_completedAt r) (j_output r) (j_truncated r) (j_err r)
              else r) id m.

(** An absent identifier that authenticates was evicted. *)
Definition missingJobResult (id : string) : option JobStatus * option JErr :=
  if isIssuedJobID E id then (Some StatusExpired, Some EExpiredJob) else (None, Some EUnknownJob).
Definition Status (now : Z) (id : string) (m : registry) : (option JobStatus * option JErr) * registry :=
  let m := pruneCompleted R now m in
  (match m !! id with Some r => (Some (j_status r), None) | None => missingJobResult id end, m).
Definition expired_result (id : string) : JobResult := mkResult id StatusExpired "" "" None None false.
Definition Result (now : Z) (id : string) (m : registry) : (option JobResult * option JErr) * registry :=
  let m := pruneCompleted R now m in
  (match m !! id with
   | Some r => (Some (result_of r), None)
   | None => if isIssuedJobID E id then (Some (expired_result id), Some EExpiredJob) else (None, Some EUnknownJob)
   end, m).

Definition completed_record (now : Z) (c : BackendCompletion) (r : jobRecord) : jobRecord :=
  mkRecord (j_id r) (j_req r) (bc_Status c)
    (match bc_StartedAt c with Some t => Some t | None => j_startedAt r end)
    (Some (default now (bc_CompletedAt c))) (bc_Output c) (bc_Truncated c) (bc_Err c).
(** The critical section of [onBackendComplete], and what is to be posted. *)
Definition onBackendComplete (now later : Z) (id : string) (c : BackendCompletion) (m : registry) : option (JobRequest * JobResult) * registry :=
  match m !! id with
  | None => (None, m)
  | Some r =>
      if terminal r then (None, m)
      else
        let r' := completed_record now c r in
        (Some (j_req r', result_of r'), pruneCompleted R later (<[id := r']> m))
  end.
End Service.

(** ** The completion message *)

Definition SenderAgentID : string := "background-job".
Definition completionSubject (s : JobStatus) : string := "background_job " +:+ status_name s.
Definition completionBody (r : JobResult) : string :=
  let job := "Background job " +:+ res_JobID r in
  match res_Status r with
  | StatusSucceeded => job +:+ " completed successfully."
  | StatusFailed => if bool_decide (res_Error r = "") then job +:+ " failed." else job +:+ " failed: " +:+ res_Error r
  | StatusCanceled => job +:+ " was canceled."
  | s => job +:+ " reached status " +:+ status_name s +:+ "."
  end.
Record SendInput := mkSend {
  FromSessionID : string;
  FromAgentID : string;
  ToSessionID : string;
  ToAgentID : string;
  Subject : string;
  MBody : string;
  PayloadJSON : string;
  RegisterAs : string;
}.
Definition completionMessage (req : JobRequest) (r : JobResult) (payload : string) : SendInput :=
  mkSend (OriginatingSessionID req) SenderAgentID (OriginatingSessionID req) (OriginatingAgentID req)
    (completionSubject (res_Status r)) (completionBody r) payload "external".
(** How the call ends: the message is sent, or there is a line in the log instead. *)
Inductive LogLine := LogNoMessenger | LogMarshal | LogSend (m : SendInput).
(** [marshal] and [accepts] are [json.Marshal] and [SendMessage]; the channel, the kind
    and the type of the message are constants of the messaging package. *)
Definition postCompletionEnvelope (messenger : bool) (marshal : JobResult → option string)
    (accepts : SendInput → bool) (req : JobRequest) (r : JobResult) : SendInput + LogLine :=
  if negb messenger then inr LogNoMessenger
  else match marshal r with
       | None => inr LogMarshal
       | Some payload =>
           let m := completionMessage req r payload in
           if accepts m then inl m else inr (LogSend m)
       end.

(** ** The shell backend *)

(** Output is kept up to the limit; what comes after is dropped and noted. *)
Definition writeChunk (max : Z) (st : string * bool) (data : string) : string * bool :=
  let '(buf, truncated) := st in
  let n := Z.of_nat (String.length buf) in
  if max <=? n then (buf, true)
  else
    let room := max - n in
    if room <? Z.of_nat (String.length data) then (buf +:+ str_take (Z.to_nat room) data, true)
    else (buf +:+ data, truncated).
(** [chunks] are the reads of both pipes in the order they take the lock. *)
Definition drainPipes (maxBytes : Z) (chunks : list string) : string * bool :=
  let max := if maxBytes <=? 0 then DefaultMaxOutputBytes else maxBytes in
  let '(buf, truncated) := foldl (writeChunk max) ("", false) chunks in
  (if truncated then buf +:+ String (byte 10) ("[output truncated at " +:+ pretty max +:+ " bytes]" +:+ String (byte 10) "") else buf, truncated).

(** How [Wait] ends: well, with an exit status, or with another error. *)
Inductive WaitErr := WExit (msg : string) | WOther (msg : string).
Definition classifyExit (wait : option WaitErr) (ctx_done canceled : bool) : JobStatus * option string :=
  if canceled || ctx_done then (StatusCanceled, None)
  else match wait with
       | None => (StatusSucceeded, None)
       | Some (WExit m) => (StatusFailed, Some ("child exited: " +:+ m))
       | Some (WOther m) => (StatusFailed, Some ("wait: " +:+ m))
       end.
(** The delay of the wall-clock timer. *)
Definition timer_delay (req : JobRequest) : Z := wrap64 (WallClockSeconds (Budget req) * 1000000000).

Record shellJob := mkShellJob { sj_req : JobRequest; sj_startedAt : Z; sj_canceled : bool; sj_ctx_done : bool; sj_status : JobStatus }.
Definition set_canceled (j : shellJob) : shellJob := mkShellJob (sj_req j) (sj_startedAt j) true (sj_ctx_done j) (sj_status j).
Definition set_ctx_done (j : shellJob) : shellJob := mkShellJob (sj_req j) (sj_startedAt j) (sj_canceled j) true (sj_status j).
Definition set_job_status (s : JobStatus) (j : shellJob) : shellJob := mkShellJob (sj_req j) (sj_startedAt j) (sj_canceled j) (sj_ctx_done j) s.
Definition completion_of (wait : option WaitErr) (out : string * bool) (now : Z) (canceled : bool) (j : shellJob) : BackendCompletion :=
  let '(status, err) := classifyExit wait (sj_ctx_done j) canceled in
  mkCompletion status out.1 out.2 err (Some (sj_startedAt j)) (Some now).
Definition Backend_Status (id : string) (heap : gmap string shellJob) (active : gset string) : option JobStatus :=
  if bool_decide (id ∈ active) then sj_status <$> heap !! id else None.

(** ** The system *)

Inductive Submission := Starting (id : string) (req : JobRequest) | Started (id : string).
(** Where the goroutine of a child stands: before [Wait] returned, with the result of
    [Wait], with the flag it read, with the completion, with the record removed, with
    the result to post, and at its end. *)
Inductive Reaper :=
| Draining
| Waited (wait : option WaitErr) (out : string * bool) (completedAt : Z)
| Flagged (wait : option WaitErr) (out : string * bool) (completedAt : Z) (canceled : bool)
| Classified (c : BackendCompletion)
| Completing (c : BackendCompletion)
| Posting (req : JobRequest) (res : JobResult)
| Reaped.
(** [heap] holds the children's jobs, [active] the identifiers in the backend's map;
    [issued] the requests of the submissions so far, [posted] the results that
    [postCompletionEnvelope] was called with; [sent] the messages the messaging service
    took and [dropped] what was logged instead, each with its job. *)
Record Sys := mkSys {
  jobs : registry;
  submissions : gmap nat Submission;
  heap : gmap string shellJob;
  active : gset string;
  reapers : gmap string Reaper;
  posted : list (JobRequest * JobResult);
  issued : gmap string JobRequest;
  sent : list (string * SendInput);
  dropped : list (string * LogLine);
}.
Definition start : Sys := mkSys ∅ ∅ ∅ ∅ ∅ [] ∅ [] [].
Definition set_jobs (m : registry) (s : Sys) : Sys := mkSys m (submissions s) (heap s) (active s) (reapers s) (posted s) (issued s) (sent s) (dropped s).
Definition set_submissions (m : gmap nat Submission) (s : Sys) : Sys := mkSys (jobs s) m (heap s) (active s) (reapers s) (posted s) (issued s) (sent s) (dropped s).
Definition set_heap (m : gmap string shellJob) (s : Sys) : Sys := mkSys (jobs s) (submissions s) m (active s) (reapers s) (posted s) (issued s) (sent s) (dropped s).
Definition set_active (a : gset string) (s : Sys) : Sys := mkSys (jobs s) (submissions s) (heap s) a (reapers s) (posted s) (issued s) (sent s) (dropped s).
Definition reap (id : string) (r : Reaper) (s : Sys) : Sys :=
  mkSys (jobs s) (submissions s) (heap s) (active s) (<[id := r]> (reapers s)) (posted s) (issued s) (sent s) (dropped s).
Definition post (m : JobRequest * JobResult) (s : Sys) : Sys :=
  mkSys (jobs s) (submissions s) (heap s) (active s) (reapers s) (posted s ++ [m])%list (issued s) (sent s) (dropped s).
Definition issue (id : string) (req : JobRequest) (s : Sys) : Sys :=
  mkSys (jobs s) (submissions s) (heap s) (active s) (reapers s) (posted s) (<[id := req]> (issued s)) (sent s) (dropped s).
Definition deliver (id : string) (o : SendInput + LogLine) (s : Sys) : Sys :=
  match o with
  | inl m => mkSys (jobs s) (submissions s) (heap s) (active s) (reapers s) (posted s) (issued s) (sent s ++ [(id, m)])%list (dropped s)
  | inr l => mkSys (jobs s) (submissions s) (heap s) (active s) (reapers s) (posted s) (issued s) (sent s) (dropped s ++ [(id, l)])%list
  end.

Inductive event :=
| Submit (t : nat) (id : string)
| Start (t : nat)
| StartFails (t : nat)
| MarkRunning (t : nat)
| Exit (id : string)
| Step (id : string)
| Cancel (id : string)
| CancelContext (id : string)
| Query (id : string).

Section System.
Context (E : Env) (R : Retention).

Inductive sys_step : Sys → event → Sys → Prop :=
| st_submit s t pattern req req' now uuid :
    submissions s !! t = None → submit_check true true pattern req = Ok req' →
    canonical_uuid E uuid = true → issued s !! newJobID E uuid = None →
    let id := newJobID E uuid in
    sys_step s (Submit t id) (issue id req' (set_submissions (<[t := Starting id req']> (submissions s)) (set_jobs (submit_register R now id req' (jobs s)) s)))
| st_start s t id req now :
    submissions s !! t = Some (Starting id req) →
    sys_step s (Start t) (reap id Draining (set_active ({[id]} ∪ active s)
      (set_heap (<[id := mkShellJob req now false false StatusRunning]> (heap s)) (set_submissions (<[t := Started id]> (submissions s)) s))))
| st_start_fails s t id req :
    submissions s !! t = Some (Starting id req) →
    sys_step s (StartFails t) (set_submissions (delete t (submissions s)) (set_jobs (delete id (jobs s)) s))
| st_running s t id now :
    submissions s !! t = Some (Started id) →
    sys_step s (MarkRunning t) (set_submissions (delete t (submissions s)) (set_jobs (submit_running now id (jobs s)) s))
| st_exit s id j wait chunks now :
    reapers s !! id = Some Draining → heap s !! id = Some j →
    sys_step s (Exit id) (reap id (Waited wait (drainPipes (MaxOutputBytes (Budget (sj_req j))) chunks) now) s)
| st_flag s id j wait out now :
    reapers s !! id = Some (Waited wait out now) → heap s !! id = Some j →
    sys_step s (Step id) (reap id (Flagged wait out now (sj_canceled j)) s)
| st_classify s id j wait out now canceled :
    reapers s !! id = Some (Flagged wait out now canceled) → heap s !! id = Some j →
    sys_step s (Step id) (reap id (Classified (completion_of wait out now canceled j)) s)
| st_remove s id c :
    reapers s !! id = Some (Classified c) →
    sys_step s (Step id) (reap id (Completing c) (set_active (active s ∖ {[id]}) (set_heap (alter (set_job_status (bc_Status c)) id (heap s)) s)))
| st_complete s id c now later out m :
    reapers s !! id = Some (Completing c) → onBackendComplete R now later id c (jobs s) = (out, m) →
    sys_step s (Step id) (reap id (match out with Some (req, res) => Posting req res | None => Reaped end) (set_jobs m s))
| st_post s id req res accepts :
    reapers s !! id = Some (Posting req res) →
    sys_step s (Step id) (deliver id (postCompletionEnvelope true (marshal_result E) accepts req res) (post (req, res) (reap id Reaped s)))
| st_cancel s id j :
    id ∈ active s → heap s !! id = Some j → IsTerminal (sj_status j) = false →
    sys_step s (Cancel id) (set_heap (<[id := set_canceled j]> (heap s)) s)
| st_cancel_nothing s id :
    id ∉ active s → sys_step s (Cancel id) s
| st_cancel_context s id j :
    heap s !! id = Some j → sj_canceled j = true →
    sys_step s (CancelContext id) (set_heap (<[id := set_ctx_done j]> (heap s)) s)
| st_query s id now :
    sys_step s (Query id) (set_jobs (Status E R now id (jobs s)).2 s).
Definition reachable (s : Sys) : Prop := ∃ ls, steps sys_step start ls s.
End System.

(** ** Identifiers *)

Lemma issued_token E uuid :
  no_byte ":" uuid = true → canonical_uuid E uuid = true →
  no_byte ":" (tag_of E (jobIDTokenVersion +:+ ":" +:+ uuid)) = true →
  String.length (tag_of E (jobIDTokenVersion +:+ ":" +:+ uuid)) = tag_length →
  isIssuedJobID E (newJobID E uuid) = true.
Proof.
  intros Hu Hc Ht Hl. unfold isIssuedJobID, newJobID. set (tag := tag_of E _) in *.
  replace ((jobIDTokenVersion +:+ ":" +:+ uuid) +:+ ":" +:+ tag) with (jobIDTokenVersion +:+ String ":" (uuid +:+ String ":" tag)).
  2:{ rewrite <- !str_app_assoc. reflexivity. }
  rewrite cut_app by reflexivity. rewrite bool_decide_true by done. cbn [negb]. rewrite cut_app by done.
  rewrite Ht, Hc. rewrite !bool_decide_true by done. done.
Qed.
Lemma issued_only_token E id : isIssuedJobID E id = true →
  ∃ uuid, canonical_uuid E uuid = true ∧ id = newJobID E uuid.
Proof.
  unfold isIssuedJobID. destruct (cut ":" id) as [[version rest]|] eqn:H1; [|done]. apply cut_Some in H1 as [-> _].
  case_bool_decide as Hv; cbn [negb]; [|done]. subst version.
  destruct (cut ":" rest) as [[nonce tag]|] eqn:H2; [|done]. apply cut_Some in H2 as [-> _].
  intros H. b2p. exists nonce. split; [done|]. unfold newJobID.
  match goal with H : tag = _ |- _ => rewrite H at 1 end. rewrite <- !str_app_assoc. reflexivity.
Qed.

(** ** Pruning *)

Section Prune.
Context (R : Retention) (now : Z) (m : registry).

Lemma prune_lookup id r : pruneCompleted R now m !! id = Some r → m !! id = Some r.
Proof. unfold pruneCompleted. by intros [? _]%map_lookup_filter_Some. Qed.
Lemma completed_elem id r : (id, r) ∈ completed R now m ↔ m !! id = Some r ∧ terminal r = true ∧ outlived R now r = false.
Proof.
  unfold completed. rewrite <- elem_of_map_to_list. rewrite (list_elem_of_In (List.filter _ _) (id, r)), List.filter_In, <- list_elem_of_In. cbn.
  split; [intros [? ?]; b2p; done|]. intros (?&->&->). done.
Qed.
Lemma evicted_terminal id : id ∈ evicted R now m → ∃ r, m !! id = Some r ∧ terminal r = true ∧ outlived R now r = false.
Proof.
  unfold evicted. case_if; [by intros ?%elem_of_nil|]. intros ([i r]&->&Hin)%list_elem_of_fmap. cbn.
  apply subseteq_take in Hin. rewrite merge_sort_Permutation in Hin. apply completed_elem in Hin. eauto.
Qed.
Lemma prune_live id r : m !! id = Some r → terminal r = false → pruneCompleted R now m !! id = Some r.
Proof.
  intros Hr Ht. apply map_lookup_filter_Some. split; [done|]. cbn. split; [by rewrite Ht|].
  intros (r'&Hr'&Ht'&_)%evicted_terminal. congruence.
Qed.

(** At most the ceiling of terminal records is kept. *)
Definition terminals (m : registry) : registry := filter (λ kv, terminal kv.2 = true) m.
Lemma prune_bound : 0 ≤ maxCompleted R → Z.of_nat (size (terminals (pruneCompleted R now m))) ≤ maxCompleted R.
Proof.
  intros Hmax. set (k := if (maxCompleted R <? 0) || (Z.of_nat (length (completed R now m)) <=? maxCompleted R) then 0%nat
    else (length (completed R now m) - Z.to_nat (maxCompleted R))%nat).
  set (l := drop k (merge_sort older (completed R now m))).
  assert (Z.of_nat (length l) ≤ maxCompleted R) as Hl.
  { unfold l. rewrite length_drop, (Permutation_length (merge_sort_Permutation _ _)). unfold k.
    destruct (orb _ _) eqn:Hif; [apply orb_true_iff in Hif as [Hif|Hif]; b2p; lia|]. b2p. lia. }
  assert (map_to_list (terminals (pruneCompleted R now m)) ⊆+ l) as Hsub.
  { apply NoDup_submseteq; [apply NoDup_map_to_list|]. intros [id r] Hin%elem_of_map_to_list.
    apply map_lookup_filter_Some in Hin as [Hin Ht]. apply map_lookup_filter_Some in Hin as [Hr [Ho He]]. cbn in *.
    assert ((id, r) ∈ merge_sort older (completed R now m)) as Hc.
    { rewrite merge_sort_Permutation. apply completed_elem. split_and!; [done..|]. destruct (outlived R now r); [|done]. by rewrite Ht in Ho. }
    rewrite <- (take_drop k) in Hc. apply elem_of_app in Hc as [Hc|Hc]; [|done]. destruct He. unfold evicted.
    fold k. revert Hc. unfold k. destruct (orb _ _); [by intros ?%elem_of_nil|]. intros Hc. apply list_elem_of_fmap. by exists (id, r). }
  apply submseteq_length in Hsub. rewrite length_map_to_list in Hsub. lia.
Qed.
End Prune.

(** The order of completion is total, so that the evicted records are the oldest. *)
Lemma leb_trans a b c : String.leb a b = true → String.leb b c = true → String.leb a c = true.
Proof.
  unfold String.leb. revert b c. induction a as [|x a IH]; intros [|y b] [|z c]; cbn; try done.
  unfold Ascii.compare. destruct (N.compare_spec (N_of_ascii x) (N_of_ascii y)) as [Hxy|Hxy|Hxy]; try done;
    destruct (N.compare_spec (N_of_ascii y) (N_of_ascii z)) as [Hyz|Hyz|Hyz]; try done; intros H1 H2.
  - rewrite Hxy, Hyz, N.compare_refl. by apply IH with b.
  - rewrite Hxy. by rewrite (proj2 (N.compare_lt_iff _ _)).
  - rewrite <- Hyz. by rewrite (proj2 (N.compare_lt_iff _ _)).
  - rewrite (proj2 (N.compare_lt_iff _ _)); [done|]. by etransitivity.
Qed.
#[export] Instance older_trans : Transitive older.
Proof.
  intros [i a] [j b] [k c]. unfold older. cbn. destruct (j_completedAt a) as [x|], (j_completedAt b) as [y|], (j_completedAt c) as [z|];
    repeat case_bool_decide; simplify_eq; cbn; try done; intros; b2p; try (apply Z.leb_le; lia); try (by eapply leb_trans); try congruence.
  all: exfalso; match goal with H : Some ?p ≠ Some ?q |- _ => assert (p ≠ q) by congruence; lia end.
Qed.
#[export] Instance older_total : Total older.
Proof.
  intros [i a] [j b]. unfold older. cbn. destruct (j_completedAt a) as [x|], (j_completedAt b) as [y|];
    repeat case_bool_decide; simplify_eq; cbn; auto using String.leb_total.
  - destruct (Z.leb_spec x y); [by left|right]. apply Z.leb_le. lia.
Qed.
Lemma time_le_older a b : older a b → time_le (j_completedAt a.2) (j_completedAt b.2) = true.
Proof.
  unfold older. case_bool_decide as Heq; [|done]. intros _. rewrite Heq. destruct (j_completedAt b.2) as [x|]; cbn; [|done].
  apply Z.leb_le. lia.
Qed.
Lemma StronglySorted_app_le {A} (P : A → A → Prop) (l k : list A) x y : StronglySorted P (l ++ k) → x ∈ l → y ∈ k → P x y.
Proof.
  induction l as [|a l IH]; [by intros _ ?%elem_of_nil|]. cbn. inversion 1; subst. intros [->|Hx]%elem_of_cons Hy; [|by apply IH].
  match goal with H : Forall _ _ |- _ => rewrite Forall_forall in H; apply H end. apply elem_of_app. by right.
Qed.
Lemma evicted_oldest R now m i r j x : m !! i = Some r → i ∈ evicted R now m →
  pruneCompleted R now m !! j = Some x → terminal x = true → time_le (j_completedAt r) (j_completedAt x) = true.
Proof.
  intros Hi He Hj Ht. apply map_lookup_filter_Some in Hj as [Hj [Ho Hne]]. cbn in *. unfold evicted in He, Hne.
  destruct (orb _ _) eqn:Hor; [by apply elem_of_nil in He|]. set (k := (length _ - _)%nat) in *.
  apply list_elem_of_fmap in He as ([i' r']&->&He). cbn in *.
  assert ((j, x) ∈ merge_sort older (completed R now m)) as Hc.
  { rewrite merge_sort_Permutation. apply completed_elem. split_and!; [done..|]. destruct (outlived R now x); [|done]. by rewrite Ht in Ho. }
  rewrite <- (take_drop k) in Hc. apply elem_of_app in Hc as [Hc|Hc]; [destruct Hne; apply list_elem_of_fmap; by exists (j, x)|].
  pose proof (He) as Hin. apply subseteq_take in Hin. rewrite merge_sort_Permutation in Hin. apply completed_elem in Hin as [Hin _].
  rewrite Hi in Hin. injection Hin as <-.
  apply (time_le_older (i', r) (j, x)). eapply StronglySorted_app_le; [|exact He|exact Hc]. rewrite take_drop.
  apply StronglySorted_merge_sort; apply _.
Qed.

(** ** The invariant of the system *)

(** How a backend ends a job, and what a job it started leaves behind. *)
Definition final (s : JobStatus) : Prop := s = StatusSucceeded ∨ s = StatusFailed ∨ s = StatusCanceled.
Definition live_record (s : Sys) (id : string) : Prop := ∃ r, jobs s !! id = Some r ∧ terminal r = false.
Definition was_canceled (s : Sys) (id : string) : Prop := ∃ j, heap s !! id = Some j ∧ sj_canceled j = true.
Definition ended (s : Sys) (id : string) (st : JobStatus) : Prop := final st ∧ (st = StatusCanceled → was_canceled s id).
Definition phase_ok (s : Sys) (id : string) (p : Reaper) : Prop :=
  match p with
  | Draining | Waited _ _ _ => live_record s id
  | Flagged _ _ _ c => live_record s id ∧ (c = true → was_canceled s id)
  | Classified c | Completing c => live_record s id ∧ ended s id (bc_Status c)
  | Posting req res => res_JobID res = id ∧ issued s !! id = Some req ∧ ended s id (res_Status res)
  | Reaped => ∃ req res, (req, res) ∈ posted s ∧ res_JobID res = id
  end.
(** What a terminal record says has been posted, or is about to be. *)
Definition told (s : Sys) (id : string) (r : jobRecord) : Prop :=
  match reapers s !! id with
  | Some (Posting _ res) => res = result_of r
  | Some Reaped => (j_req r, result_of r) ∈ posted s
  | _ => False
  end.
Definition settled (p : Reaper) : Prop := match p with Posting _ _ | Reaped => True | _ => False end.
Record inv (s : Sys) : Prop := {
  inv_jobs : ∀ id r, jobs s !! id = Some r → j_id r = id ∧ issued s !! id = Some (j_req r);
  inv_starting : ∀ t id req, submissions s !! t = Some (Starting id req) →
    issued s !! id = Some req ∧ reapers s !! id = None ∧ live_record s id;
  inv_starting_fun : ∀ t t' id req req', submissions s !! t = Some (Starting id req) → submissions s !! t' = Some (Starting id req') → t = t';
  inv_heap : ∀ id j, heap s !! id = Some j → sj_ctx_done j = true → sj_canceled j = true;
  inv_child : ∀ id j, heap s !! id = Some j → is_Some (reapers s !! id);
  inv_issued : ∀ id, is_Some (reapers s !! id) → is_Some (issued s !! id) ∧ ∃ j, heap s !! id = Some j ∧ issued s !! id = Some (sj_req j);
  inv_phase : ∀ id p, reapers s !! id = Some p → phase_ok s id p;
  inv_settled : ∀ id p r, reapers s !! id = Some p → settled p → jobs s !! id = Some r → terminal r = true;
  inv_told : ∀ id r, jobs s !! id = Some r → terminal r = true → told s id r;
  inv_posted : ∀ req res, (req, res) ∈ posted s →
    reapers s !! res_JobID res = Some Reaped ∧ issued s !! res_JobID res = Some req ∧ ended s (res_JobID res) (res_Status res);
  inv_once : NoDup (res_JobID ∘ snd <$> posted s);
}.

(** Facts about a job survive steps that keep what they speak of. *)
Lemma live_same s s' id : jobs s' !! id = jobs s !! id → live_record s id → live_record s' id.
Proof. intros H (r&Hr&Ht). exists r. by rewrite H. Qed.
Definition flags_kept (h h' : gmap string shellJob) : Prop :=
  ∀ id j, h !! id = Some j → ∃ j', h' !! id = Some j' ∧ sj_req j' = sj_req j ∧ (sj_canceled j = true → sj_canceled j' = true).
Lemma flags_refl h : flags_kept h h.
Proof. intros id j Hj. eauto. Qed.
Lemma flags_insert h id j' : (∀ j, h !! id = Some j → sj_req j' = sj_req j ∧ (sj_canceled j = true → sj_canceled j' = true)) → flags_kept h (<[id := j']> h).
Proof.
  intros Hj i j Hi. destruct (decide (i = id)) as [->|Hne]; [|rewrite lookup_insert_ne by done; eauto].
  rewrite lookup_insert_eq. destruct (Hj _ Hi). eauto.
Qed.
Lemma flags_alter h id f : (∀ j, sj_req (f j) = sj_req j ∧ sj_canceled (f j) = sj_canceled j) → flags_kept h (alter f id h).
Proof.
  intros Hf i j Hi. destruct (decide (i = id)) as [->|Hne].
  - rewrite lookup_alter_eq, Hi. cbn. exists (f j). destruct (Hf j) as [-> ->]. auto.
  - rewrite lookup_alter_ne by done. eauto.
Qed.
Lemma canceled_kept s s' id : flags_kept (heap s) (heap s') → was_canceled s id → was_canceled s' id.
Proof. intros Hk (j&Hj&Hc). destruct (Hk id j Hj) as (j'&Hj'&_&Hc'). exists j'. auto. Qed.
Lemma ended_kept s s' id st : flags_kept (heap s) (heap s') → ended s id st → ended s' id st.
Proof. intros Hk [Hf Hc]. split; [done|]. intros ->. eapply canceled_kept; eauto. Qed.
(** A phase other than the last depends on the record of its own job only. *)
Lemma phase_kept s s' id p :
  flags_kept (heap s) (heap s') → (live_record s id → live_record s' id) → (∀ i x, issued s !! i = Some x → issued s' !! i = Some x) →
  (∀ m, m ∈ posted s → m ∈ posted s') → phase_ok s id p → phase_ok s' id p.
Proof.
  intros Hh Hl Hi Hp. pose proof (ended_kept s s' id) as He. destruct p as [|w o t|w o t c|c|c|req res|]; cbn; auto.
  - intros [? Hc]. split; [auto|]. intros ->. eapply canceled_kept; eauto.
  - intros [? ?]. auto.
  - intros [? ?]. auto.
  - intros (?&?&?). auto.
  - intros (req&res&?&?). exists req, res. auto.
Qed.

Lemma terminals_lookup m id r : terminals m !! id = Some r ↔ m !! id = Some r ∧ terminal r = true.
Proof. unfold terminals. rewrite map_lookup_filter_Some. done. Qed.
Lemma terminals_insert_live m id r : terminal r = false → (∀ x, m !! id = Some x → terminal x = false) →
  terminals (<[id := r]> m) = terminals m.
Proof.
  intros Ht Hm. apply map_eq. intros i. apply option_eq. intros x. rewrite !terminals_lookup, lookup_insert_Some.
  split.
  - intros [[[<- <-]|[? ?]] ?]; [congruence|done].
  - intros [Hx Hxt]. split; [|done]. right. split; [|done]. intros <-. rewrite (Hm x Hx) in Hxt. done.
Qed.
Lemma terminals_subseteq m m' : m' ⊆ m → terminals m' ⊆ terminals m.
Proof.
  intros Hsub. apply map_subseteq_spec. intros i x. rewrite !terminals_lookup. intros [Hx ?]. split; [|done]. by eapply lookup_weaken.
Qed.
Lemma bound_subseteq R m m' : m' ⊆ m → (0 ≤ maxCompleted R → Z.of_nat (size (terminals m)) ≤ maxCompleted R) →
  0 ≤ maxCompleted R → Z.of_nat (size (terminals m')) ≤ maxCompleted R.
Proof. intros Hs%terminals_subseteq Hb Hm. specialize (Hb Hm). apply map_subseteq_size in Hs. lia. Qed.
Lemma prune_subseteq R now m : pruneCompleted R now m ⊆ m.
Proof. apply map_filter_subseteq. Qed.

(** The jobs can be replaced by fewer, as long as no live record goes. *)
Lemma inv_fewer s m : inv s → m ⊆ jobs s → (∀ id r, jobs s !! id = Some r → terminal r = false → m !! id = Some r) → inv (set_jobs m s).
Proof.
  intros [] Hsub Hlive.
  assert (∀ id, live_record s id → live_record (set_jobs m s) id) as Hl by (intros id (r&Hr&Ht); exists r; cbn; auto).
  split; try assumption.
  - intros id r Hr. apply inv_jobs0. by eapply lookup_weaken.
  - intros t id req Ht. destruct (inv_starting0 _ _ _ Ht) as (?&?&?). split_and!; [done..|]. by apply Hl.
  - intros id p Hp. eapply (phase_kept s); [apply flags_refl|apply Hl|done|done|by apply inv_phase0].
  - intros id p r Hp Hs Hr. apply (inv_settled0 id p); [done..|]. by eapply lookup_weaken.
  - intros id r Hr Ht. apply (inv_told0 id r); [|done]. by eapply lookup_weaken.
Qed.

Lemma inv_active s a : inv s → inv (set_active a s).
Proof. intros []. by split. Qed.
Lemma inv_flags s h : inv s → flags_kept (heap s) h →
  (∀ id j, h !! id = Some j → (sj_ctx_done j = true → sj_canceled j = true) ∧ is_Some (heap s !! id)) → inv (set_heap h s).
Proof.
  intros [] Hk Hh. split; try assumption.
  - intros id j Hj. by destruct (Hh id j Hj).
  - intros id j Hj. destruct (Hh id j Hj) as [_ [j0 Hj0]]. by eapply inv_child0.
  - intros id Hp. destruct (inv_issued0 id Hp) as (Hi&j&Hj&Hreq). split; [done|]. destruct (Hk id j Hj) as (j'&Hj'&Heq&_).
    exists j'. split; [done|]. by rewrite Heq.
  - intros id p Hp. eapply (phase_kept s); [exact Hk|done|done|done|by apply inv_phase0].
  - intros req res Hin. destruct (inv_posted0 _ _ Hin) as (?&?&?). split_and!; [done..|]. by eapply ended_kept.
Qed.

(** A reaper moves on within its phases, or starts. *)
Definition busy (p : Reaper) : Prop := ¬ settled p.
Lemma inv_reap s id p p' : inv s → reapers s !! id = Some p → busy p → busy p' → live_record s id →
  phase_ok s id p' → inv (reap id p' s).
Proof.
  intros [] Hp Hb Hb' Hl Hok. split; try assumption.
  - intros t i req Ht. destruct (inv_starting0 _ _ _ Ht) as (?&Hn&?). split_and!; try done. cbn.
    rewrite lookup_insert_ne; [done|]. intros <-. congruence.
  - intros i j Hj. cbn. apply lookup_insert_is_Some. destruct (decide (id = i)); [by left|right]. split; [done|]. by eapply inv_child0.
  - intros i [q Hq]. apply (inv_issued0 i). revert Hq. cbn. rewrite lookup_insert_Some. intros [[<- <-]|[_ Hq]]; eauto.
  - intros i q. cbn. rewrite lookup_insert_Some. intros [[<- <-]|[_ Hq]]; [exact Hok|by apply (inv_phase0 i q)].
  - intros i q r. cbn. rewrite lookup_insert_Some. intros [[<- <-]|[_ Hq]]; [done|by apply inv_settled0].
  - intros i r Hr Ht. unfold told. cbn. destruct (decide (i = id)) as [->|Hne].
    + destruct Hl as (r'&Hr'&Hlive). cbn in Hr. congruence.
    + rewrite lookup_insert_ne by done. by apply inv_told0.
  - intros req res Hin. destruct (inv_posted0 _ _ Hin) as (Hr&?&?). split_and!; [|done..]. cbn.
    rewrite lookup_insert_ne; [done|]. intros ->. rewrite Hp in Hr. injection Hr as ->. by destruct Hb.
Qed.

Lemma inv_submit s t id req : inv s → submissions s !! t = None → issued s !! id = None →
  inv (issue id req (set_submissions (<[t := Starting id req]> (submissions s)) (set_jobs (<[id := new_record id req]> (jobs s)) s))).
Proof.
  intros [] Ht Hid.
  assert (jobs s !! id = None) as Hj.
  { destruct (jobs s !! id) as [r|] eqn:Hr; [|done]. destruct (inv_jobs0 id r Hr). congruence. }
  assert (reapers s !! id = None) as Hrp.
  { destruct (reapers s !! id) as [q|] eqn:Hq; [|done]. destruct (inv_issued0 id) as [[? ?] _]; [by rewrite Hq|congruence]. }
  assert (∀ i x, issued s !! i = Some x → (<[id := req]> (issued s)) !! i = Some x) as Hi.
  { intros i x Hx. rewrite lookup_insert_ne; [done|congruence]. }
  assert (∀ i, i ≠ id → live_record s i → live_record (issue id req (set_submissions (<[t := Starting id req]> (submissions s)) (set_jobs (<[id := new_record id req]> (jobs s)) s))) i) as Hl.
  { intros i Hne. apply live_same. cbn. by rewrite lookup_insert_ne. }
  assert (∀ i q, reapers s !! i = Some q → i ≠ id) as Hne by congruence.
  split; cbn; try assumption.
  - intros i r. rewrite lookup_insert_Some. intros [[<- <-]|[? Hr]]; cbn; [by rewrite lookup_insert_eq|].
    rewrite lookup_insert_ne by done. by apply inv_jobs0.
  - intros u i q. rewrite lookup_insert_Some. intros [[<- [= <- <-]]|[_ Hu]].
    + rewrite lookup_insert_eq. split_and!; [done..|]. exists (new_record id req). cbn. by rewrite lookup_insert_eq.
    + destruct (inv_starting0 _ _ _ Hu) as (?&?&?). split_and!; [by apply Hi|done|]. apply Hl; [congruence|done].
  - intros u u' i q q'. rewrite !lookup_insert_Some. intros [[<- [= <- <-]]|[_ Hu]] [[<- Heq]|[_ Hu']]; try done.
    + destruct (inv_starting0 _ _ _ Hu'). congruence.
    + injection Heq as <- <-. destruct (inv_starting0 _ _ _ Hu). congruence.
    + by eapply inv_starting_fun0.
  - intros i Hp. destruct (inv_issued0 i Hp) as ([x Hx]&j&Hjj&Hq). split; [eauto|]. exists j. auto.
  - intros i p Hp. eapply (phase_kept s); [apply flags_refl|apply Hl; by eapply Hne|exact Hi|done|by apply inv_phase0].
  - intros i p r Hp Hs. rewrite lookup_insert_Some. intros [[<- _]|[_ Hr]]; [congruence|by eapply inv_settled0].
  - intros i r. rewrite lookup_insert_Some. intros [[<- <-]|[? Hr]]; [done|]. by apply (inv_told0 i r).
  - intros q res Hin. destruct (inv_posted0 _ _ Hin) as (?&?&?). auto.
Qed.
Lemma inv_start s t id req now : inv s → submissions s !! t = Some (Starting id req) →
  inv (reap id Draining (set_heap (<[id := mkShellJob req now false false StatusRunning]> (heap s)) (set_submissions (<[t := Started id]> (submissions s)) s))).
Proof.
  intros Hinv Ht. pose proof Hinv as []. destruct (inv_starting0 _ _ _ Ht) as (Hi&Hrp&Hl).
  assert (heap s !! id = None) as Hh.
  { destruct (heap s !! id) as [j|] eqn:Hj; [|done]. destruct (inv_child0 id j Hj). congruence. }
  assert (flags_kept (heap s) (<[id := mkShellJob req now false false StatusRunning]> (heap s))) as Hk by (apply flags_insert; by rewrite Hh).
  assert (∀ i q, reapers s !! i = Some q → i ≠ id) as Hne by congruence.
  split; cbn; try assumption.
  - intros u i q. rewrite lookup_insert_Some. intros [[_ ?]|[Hu Hq]]; [done|]. destruct (inv_starting0 _ _ _ Hq) as (?&?&?). split_and!; [done| |done].
    rewrite lookup_insert_ne; [done|]. intros <-. apply Hu. by eapply inv_starting_fun0.
  - intros u u' i q q'. rewrite !lookup_insert_Some. intros [[_ ?]|[_ Hu]] [[_ ?]|[_ Hu']]; try done. by eapply inv_starting_fun0.
  - intros i j. rewrite lookup_insert_Some. intros [[_ <-]|[_ Hj]]; [done|by eapply inv_heap0].
  - intros i j. rewrite !lookup_insert_is_Some, lookup_insert_Some. intros [[-> _]|[? Hj]]; [by left|]. right. split; [done|]. by eapply inv_child0.
  - intros i. rewrite lookup_insert_is_Some. intros [<-|[? Hp]].
    + rewrite Hi. split; [done|]. eexists. by rewrite lookup_insert_eq.
    + destruct (inv_issued0 i Hp) as (?&j&Hj&?). split; [done|]. exists j. by rewrite lookup_insert_ne.
  - intros i p. rewrite lookup_insert_Some. intros [[<- <-]|[_ Hp]]; [exact Hl|].
    eapply (phase_kept s); [exact Hk|done|done|done|by apply inv_phase0].
  - intros i p r. rewrite lookup_insert_Some. intros [[_ <-]|[_ Hp]]; [done|by apply inv_settled0].
  - intros i r Hr Htm. unfold told. cbn. rewrite lookup_insert_ne; [by apply inv_told0|]. intros <-. destruct Hl as (r'&Hr'&?). congruence.
  - intros q res Hin. destruct (inv_posted0 _ _ Hin) as (Hr&?&?). split_and!; [|done|by eapply ended_kept].
    rewrite lookup_insert_ne; [done|]. intros Heq. rewrite <- Heq in Hr. congruence.
Qed.
Lemma inv_start_fails s t id req : inv s → submissions s !! t = Some (Starting id req) →
  inv (set_submissions (delete t (submissions s)) (set_jobs (delete id (jobs s)) s)).
Proof.
  intros Hinv Ht. pose proof Hinv as []. destruct (inv_starting0 _ _ _ Ht) as (Hi&Hrp&Hl).
  assert (∀ i, i ≠ id → live_record s i → live_record (set_submissions (delete t (submissions s)) (set_jobs (delete id (jobs s)) s)) i) as Hlive.
  { intros i Hne. apply live_same. cbn. by rewrite lookup_delete_ne. }
  split; cbn; try assumption.
  - intros i r [_ Hr]%lookup_delete_Some. by apply inv_jobs0.
  - intros u i q [Hu Hq]%lookup_delete_Some. destruct (inv_starting0 _ _ _ Hq) as (?&?&?). split_and!; [done..|]. apply Hlive; [|done].
    intros ->. apply Hu. by eapply inv_starting_fun0.
  - intros u u' i q q' [_ Hu]%lookup_delete_Some [_ Hu']%lookup_delete_Some. by eapply inv_starting_fun0.
  - intros i p Hp. eapply (phase_kept s); [apply flags_refl|apply Hlive; congruence|done|done|by apply inv_phase0].
  - intros i p r Hp Hs [_ Hr]%lookup_delete_Some. by eapply inv_settled0.
  - intros i r [_ Hr]%lookup_delete_Some. by apply (inv_told0 i r).
Qed.
Lemma submit_running_lookup now id (m : registry) i r : submit_running now id m !! i = Some r →
  ∃ r0, m !! i = Some r0 ∧ j_id r = j_id r0 ∧ j_req r = j_req r0 ∧ terminal r = terminal r0 ∧ (terminal r = true → r = r0).
Proof.
  unfold submit_running. rewrite lookup_alter_Some. intros [[-> (r0&Hr0&->)]|[_ Hr]]; [|by exists r].
  exists r0. case_bool_decide as Hp; [|done]. unfold terminal. rewrite Hp. done.
Qed.
Lemma submit_running_live now id m i r0 : m !! i = Some r0 → ∃ r, submit_running now id m !! i = Some r ∧ terminal r = terminal r0.
Proof.
  intros Hr. unfold submit_running. destruct (decide (i = id)) as [->|Hne].
  - rewrite lookup_alter_eq, Hr. cbn. eexists. split; [done|]. case_bool_decide as Hp; [|done]. unfold terminal. by rewrite Hp.
  - rewrite lookup_alter_ne by done. eauto.
Qed.
Lemma inv_running s t id now : inv s →
  inv (set_submissions (delete t (submissions s)) (set_jobs (submit_running now id (jobs s)) s)).
Proof.
  intros [].
  assert (∀ i, live_record s i → live_record (set_submissions (delete t (submissions s)) (set_jobs (submit_running now id (jobs s)) s)) i) as Hlive.
  { intros i (r&Hr&Ht). destruct (submit_running_live now id _ _ _ Hr) as (r'&Hr'&Ht'). exists r'. split; [done|congruence]. }
  split; cbn; try assumption.
  - intros i r (r0&Hr0&->&->&_)%submit_running_lookup. by apply inv_jobs0.
  - intros u i q [_ Hq]%lookup_delete_Some. destruct (inv_starting0 _ _ _ Hq) as (?&?&?). auto.
  - intros u u' i q q' [_ Hu]%lookup_delete_Some [_ Hu']%lookup_delete_Some. by eapply inv_starting_fun0.
  - intros i p Hp. eapply (phase_kept s); [apply flags_refl|apply Hlive|done|done|by apply inv_phase0].
  - intros i p r Hp Hs (r0&Hr0&_&_&->&_)%submit_running_lookup. by eapply inv_settled0.
  - intros i r (r0&Hr0&_&_&Ht&Heq)%submit_running_lookup Htm. assert (r = r0) as -> by auto. by apply (inv_told0 i r0).
Qed.
Lemma terminals_running now id m : terminals (submit_running now id m) = terminals m.
Proof.
  apply map_eq. intros i. apply option_eq. intros r. rewrite !terminals_lookup. split.
  - intros [(r0&Hr0&_&_&_&Heq)%submit_running_lookup Ht]. rewrite (Heq Ht). split; [done|]. by rewrite <- (Heq Ht).
  - intros [Hr Ht]. split; [|done]. destruct (submit_running_live now id _ _ _ Hr) as (r'&Hr'&Ht'). rewrite Ht in Ht'.
    destruct (submit_running_lookup _ _ _ _ _ Hr') as (r0&Hr0&_&_&_&Heq). rewrite (Heq Ht') in Hr'. congruence.
Qed.

Lemma complete_live R now later id c (m : registry) r : m !! id = Some r → terminal r = false →
  onBackendComplete R now later id c m =
    (Some (j_req r, result_of (completed_record now c r)), pruneCompleted R later (<[id := completed_record now c r]> m)).
Proof. intros Hr Ht. unfold onBackendComplete. by rewrite Hr, Ht. Qed.
Lemma inv_complete R s id c now later out m : inv s → reapers s !! id = Some (Completing c) →
  onBackendComplete R now later id c (jobs s) = (out, m) →
  inv (reap id (match out with Some (req, res) => Posting req res | None => Reaped end) (set_jobs m s)).
Proof.
  intros Hinv Hp. pose proof Hinv as []. destruct (inv_phase0 _ _ Hp) as [(r&Hr&Hlive) Hend].
  rewrite (complete_live _ _ _ _ _ _ _ Hr Hlive). intros [= <- <-]. destruct (inv_jobs0 _ _ Hr) as [Hid Hi].
  set (r' := completed_record now c r).
  assert (terminal r' = true) as Ht' by (destruct Hend as [[H|[H|H]] _]; unfold terminal; cbn; by rewrite H).
  assert (∀ i x, pruneCompleted R later (<[id := r']> (jobs s)) !! i = Some x → i = id ∧ x = r' ∨ i ≠ id ∧ jobs s !! i = Some x) as Hold.
  { intros i x Hx%prune_lookup. apply lookup_insert_Some in Hx as [[<- <-]|[? ?]]; auto. }
  assert (∀ i, i ≠ id → live_record s i → live_record (reap id (Posting (j_req r) (result_of r')) (set_jobs (pruneCompleted R later (<[id := r']> (jobs s))) s)) i) as Hl.
  { intros i Hne (x&Hx&Hxt). exists x. split; [|done]. cbn. apply prune_live; [|done]. by rewrite lookup_insert_ne. }
  assert (∀ t q, submissions s !! t ≠ Some (Starting id q)) as Hns.
  { intros t q Ht. destruct (inv_starting0 _ _ _ Ht) as (_&Hn&_). congruence. }
  split; cbn; try assumption.
  - intros i x [[-> ->]|[_ Hx]]%Hold; [done|by apply inv_jobs0].
  - intros t i q Ht. destruct (inv_starting0 _ _ _ Ht) as (?&?&?). assert (i ≠ id) by (intros ->; by eapply Hns).
    split_and!; [done|by rewrite lookup_insert_ne|by apply Hl].
  - intros i j Hj. apply lookup_insert_is_Some. destruct (decide (id = i)); [by left|right]. split; [done|by eapply inv_child0].
  - intros i. rewrite lookup_insert_is_Some. intros [<-|[_ Hq]]; apply inv_issued0; [by rewrite Hp|done].
  - intros i p. rewrite lookup_insert_Some. intros [[<- <-]|[Hne Hq]].
    + cbn. split_and!; [done|done|]. exact Hend.
    + eapply (phase_kept s); [apply flags_refl|by apply Hl|done|done|by apply inv_phase0].
  - intros i p x. rewrite lookup_insert_Some. intros Hq Hs [[-> ->]|[Hne Hx]]%Hold; [done|].
    destruct Hq as [[? _]|[_ Hq]]; [congruence|by eapply inv_settled0].
  - intros i x Hx Hxt. unfold told. cbn. apply Hold in Hx as [[-> ->]|[Hne Hx]].
    + by rewrite lookup_insert_eq.
    + rewrite lookup_insert_ne by done. by apply inv_told0.
  - intros q res Hin. destruct (inv_posted0 _ _ Hin) as (Hq&?&?). split_and!; [|done..]. rewrite lookup_insert_ne; [done|].
    intros Heq. rewrite <- Heq in Hq. congruence.
Qed.
Lemma inv_post s id req res : inv s → reapers s !! id = Some (Posting req res) → inv (post (req, res) (reap id Reaped s)).
Proof.
  intros Hinv Hp. pose proof Hinv as []. destruct (inv_phase0 _ _ Hp) as (Hid&Hi&Hend).
  assert (∀ i p, reapers (post (req, res) (reap id Reaped s)) !! i = Some p → i = id ∧ p = Reaped ∨ i ≠ id ∧ reapers s !! i = Some p) as Hr.
  { intros i p. cbn. rewrite lookup_insert_Some. intros [[<- <-]|[? ?]]; auto. }
  split; try assumption.
  - intros t i q Ht. destruct (inv_starting0 _ _ _ Ht) as (?&Hn&?). split_and!; try done. cbn.
    rewrite lookup_insert_ne; [done|]. intros <-. congruence.
  - intros i j Hj. cbn. apply lookup_insert_is_Some. destruct (decide (id = i)); [by left|right]. split; [done|by eapply inv_child0].
  - intros i. cbn. rewrite lookup_insert_is_Some. intros [<-|[_ Hq]]; apply inv_issued0; [by rewrite Hp|done].
  - intros i p [[-> ->]|[Hne Hq]]%Hr.
    + exists req, res. split; [|done]. cbn. apply elem_of_app. right. by apply list_elem_of_singleton.
    + eapply (phase_kept s); [apply flags_refl|done|done|intros x Hx; cbn; apply elem_of_app; by left|by apply inv_phase0].
  - intros i p x [[-> ->]|[Hne Hq]]%Hr Hs; [by apply (inv_settled0 _ _ _ Hp)|by eapply inv_settled0].
  - intros i x Hx Hxt. specialize (inv_told0 i x Hx Hxt). unfold told in *. cbn. destruct (decide (i = id)) as [->|Hne].
    + rewrite lookup_insert_eq. rewrite Hp in inv_told0. subst res. destruct (inv_jobs0 _ _ Hx) as [_ Hix].
      rewrite Hi in Hix. injection Hix as ->. apply elem_of_app. right. by apply list_elem_of_singleton.
    + rewrite lookup_insert_ne by done. destruct (reapers s !! i) as [[| | | | | |]|]; try done. apply elem_of_app. by left.
  - intros q x Hin. cbn in Hin. apply elem_of_app in Hin as [Hin|Hin].
    + destruct (inv_posted0 _ _ Hin) as (?&?&?). split_and!; [|done..]. cbn. destruct (decide (res_JobID x = id)) as [->|Hne]; [apply lookup_insert_eq|by rewrite lookup_insert_ne].
    + apply list_elem_of_singleton in Hin as [= -> ->]. rewrite Hid. split_and!; [cbn; apply lookup_insert_eq|done|done].
  - cbn. rewrite fmap_app. apply NoDup_app. split_and!; [done| |apply NoDup_singleton]. intros i ([q x]&->&Hin)%list_elem_of_fmap Hx.
    apply list_elem_of_singleton in Hx. cbn in Hx. destruct (inv_posted0 _ _ Hin) as (Hq&_). congruence.
Qed.

Lemma inv_deliver s id o : inv s → inv (deliver id o s).
Proof. intros []. destruct o; by split. Qed.
Lemma deliver_jobs id o s : jobs (deliver id o s) = jobs s.
Proof. by destruct o. Qed.

Lemma inv_initial : inv start.
Proof.
  unfold start. split; cbn [jobs submissions heap reapers posted issued]; try (intros *; rewrite lookup_empty; done); [by intros req res ?%elem_of_nil|apply NoDup_nil_2].
Qed.

Section Reachable.
Context (E : Env) (R : Retention).

Lemma job_inv_step s ev s' : inv s → sys_step E R s ev s' → inv s'.
Proof.
  intros Hinv Hstep. destruct Hstep.
  - pose proof (inv_fewer s (pruneCompleted R now (jobs s)) Hinv (prune_subseteq _ _ _)) as Hfew.
    refine (inv_submit (set_jobs (pruneCompleted R now (jobs s)) s) t id req' (Hfew _) _ _); [|done|done]. intros i r. apply prune_live.
  - apply (inv_active (reap id Draining (set_heap _ (set_submissions _ s)))). by apply inv_start.
  - by eapply inv_start_fails.
  - by apply inv_running.
  - eapply inv_reap; [done|done|exact (λ x, x)|exact (λ x, x)|apply (inv_phase _ Hinv _ _ H)|apply (inv_phase _ Hinv _ _ H)].
  - pose proof (inv_phase _ Hinv _ _ H) as Hl. eapply inv_reap; [done|done|exact (λ x, x)|exact (λ x, x)|done|]. split; [done|]. intros Hc. by exists j.
  - pose proof (inv_phase _ Hinv _ _ H) as [Hl Hc]. eapply inv_reap; [done|done|exact (λ x, x)|exact (λ x, x)|done|]. split; [done|].
    unfold completion_of, classifyExit. destruct (canceled || sj_ctx_done j) eqn:Hif; cbn.
    + split; [right; by right|]. intros _. apply orb_true_iff in Hif as [->|Hd]; [by apply Hc|]. exists j. split; [done|]. by apply (inv_heap _ Hinv id).
    + split; [destruct wait as [[|]|]; unfold final; auto|]. by destruct wait as [[|]|].
  - pose proof (inv_phase _ Hinv _ _ H) as [Hl He]. set (h := alter _ id (heap s)).
    assert (flags_kept (heap s) h) as Hk by (by apply flags_alter).
    assert (inv (set_active (active s ∖ {[id]}) (set_heap h s))) as Hinv'.
    { apply inv_active, inv_flags; [done|done|]. intros i x. unfold h. rewrite lookup_alter_Some.
      intros [[-> (y&Hy&->)]|[_ Hx]]; [|split; [by apply (inv_heap _ Hinv i)|done]]. cbn. split; [by apply (inv_heap _ Hinv i)|by rewrite Hy]. }
    eapply inv_reap; [exact Hinv'|exact H|exact (λ x, x)|exact (λ x, x)|exact Hl|]. split; [exact Hl|]. by eapply (ended_kept s).
  - by eapply inv_complete.
  - by apply inv_deliver, inv_post.
  - apply inv_flags; [done|apply flags_insert; intros x Hx; by rewrite H0 in Hx; simplify_eq|].
    intros i x. rewrite lookup_insert_Some. intros [[<- <-]|[_ Hx]]; [|split; [by apply (inv_heap _ Hinv i)|done]]. cbn. split; [done|by rewrite H0].
  - done.
  - apply inv_flags; [done|apply flags_insert; intros x Hx; by rewrite H in Hx; simplify_eq|].
    intros i x. rewrite lookup_insert_Some. intros [[<- <-]|[_ Hx]]; [|split; [by apply (inv_heap _ Hinv i)|done]]. cbn. split; [done|by rewrite H].
  - apply inv_fewer; [done|apply prune_subseteq|]. intros i r. apply prune_live.
Qed.
Lemma inv_steps s ls s' : inv s → steps (sys_step E R) s ls s' → inv s'.
Proof. intros Hinv Hs. induction Hs as [|s l s1 ls s2 H1 _ IH]; [done|]. by apply IH, (job_inv_step s l). Qed.
Lemma jobs_reachable_inv s : reachable E R s → inv s.
Proof. intros [ls Hs]. by apply (inv_steps start ls), Hs; apply inv_initial. Qed.

Definition bounded (s : Sys) : Prop := 0 ≤ maxCompleted R → Z.of_nat (size (terminals (jobs s))) ≤ maxCompleted R.
Lemma bounded_step s ev s' : inv s → bounded s → sys_step E R s ev s' → bounded s'.
Proof.
  intros Hinv Hb Hstep. destruct Hstep; try exact Hb; unfold bounded; rewrite ?deliver_jobs; try exact Hb; cbn.
  - intros Hm. unfold submit_register. rewrite terminals_insert_live; [by apply prune_bound|done|].
    intros x Hx%prune_lookup. destruct (inv_jobs _ Hinv _ _ Hx) as [_ Hi]. unfold id in Hi. congruence.
  - apply bound_subseteq with (jobs s); [apply delete_subseteq|done].
  - rewrite terminals_running. apply Hb.
  - pose proof (inv_phase _ Hinv _ _ H) as [(r&Hr&Ht) _]. rewrite (complete_live _ _ _ _ _ _ _ Hr Ht) in H0. injection H0 as _ <-.
    apply prune_bound.
  - apply prune_bound.
Qed.
Lemma reachable_bounded s : reachable E R s → bounded s.
Proof.
  intros [ls Hs]. assert (bounded start) as Hb by (intros Hm; unfold terminals; cbn; rewrite map_filter_empty, map_size_empty; lia).
  revert Hb. pose proof inv_initial as Hinv. revert Hinv. induction Hs as [|s l s1 ls s2 H1 _ IH]; [done|]. intros Hinv Hb. apply IH.
  - by eapply job_inv_step.
  - by eapply bounded_step.
Qed.

(** Every result that was handed over became a message or a line of the log. *)
Definition send_failure (req : JobRequest) (res : JobResult) (l : LogLine) : Prop :=
  match l with
  | LogNoMessenger => False
  | LogMarshal => marshal_result E res = None
  | LogSend m => ∃ payload, marshal_result E res = Some payload ∧ m = completionMessage req res payload
  end.
Record delivery (s : Sys) : Prop := {
  dl_all : ((sent s).*1 ++ (dropped s).*1)%list ≡ₚ res_JobID ∘ snd <$> posted s;
  dl_sent : ∀ id m, (id, m) ∈ sent s → ∃ req res payload, (req, res) ∈ posted s ∧ res_JobID res = id ∧
    marshal_result E res = Some payload ∧ m = completionMessage req res payload;
  dl_dropped : ∀ id l, (id, l) ∈ dropped s → ∃ req res, (req, res) ∈ posted s ∧ res_JobID res = id ∧ send_failure req res l;
}.
Lemma postCompletionEnvelope_cases accepts req res :
  match postCompletionEnvelope true (marshal_result E) accepts req res with
  | inl m => ∃ payload, marshal_result E res = Some payload ∧ m = completionMessage req res payload
  | inr l => send_failure req res l
  end.
Proof.
  unfold postCompletionEnvelope. cbn [negb]. destruct (marshal_result E res) as [payload|] eqn:Hm; [|exact Hm].
  destruct (accepts _); cbn; eauto.
Qed.
Lemma delivery_post s id req res accepts : delivery s → res_JobID res = id →
  delivery (deliver id (postCompletionEnvelope true (marshal_result E) accepts req res) (post (req, res) (reap id Reaped s))).
Proof.
  intros [Hall Hs Hd] Hid. pose proof (postCompletionEnvelope_cases accepts req res) as Hc.
  assert ((req, res) ∈ (posted s ++ [(req, res)])%list) as Hnew by (apply elem_of_app; right; by apply list_elem_of_singleton).
  assert (∀ x, x ∈ posted s → x ∈ (posted s ++ [(req, res)])%list) as Hold by (intros x Hx; apply elem_of_app; by left).
  destruct (postCompletionEnvelope _ _ _ _ _) as [m|l]; split; cbn.
  - rewrite !fmap_app, <- Hall. cbn. rewrite Hid. solve_Permutation.
  - intros i x [Hx|[= -> ->]%list_elem_of_singleton]%elem_of_app.
    + destruct (Hs i x Hx) as (q&y&pl&?&?). exists q, y, pl. auto.
    + destruct Hc as (pl&?&?). exists req, res, pl. auto.
  - intros i l Hl. destruct (Hd i l Hl) as (q&y&?&?). exists q, y. auto.
  - rewrite !fmap_app, <- Hall. cbn. rewrite Hid. solve_Permutation.
  - intros i x Hx. destruct (Hs i x Hx) as (q&y&pl&?&?). exists q, y, pl. auto.
  - intros i x [Hx|[= -> ->]%list_elem_of_singleton]%elem_of_app.
    + destruct (Hd i x Hx) as (q&y&?&?). exists q, y. auto.
    + exists req, res. auto.
Qed.
Lemma delivery_step s ev s' : inv s → delivery s → sys_step E R s ev s' → delivery s'.
Proof.
  intros Hinv Hd Hstep. destruct Hstep; try (destruct Hd; by split).
  apply delivery_post; [done|]. apply (inv_phase _ Hinv _ _ H).
Qed.
Lemma reachable_delivery s : reachable E R s → delivery s.
Proof.
  intros [ls Hs]. assert (delivery start) as Hd by (split; [done|by intros id m ?%elem_of_nil|by intros id l ?%elem_of_nil]).
  revert Hd. pose proof inv_initial as Hinv. revert Hinv. induction Hs as [|s l s1 ls s2 H1 _ IH]; [done|]. intros Hinv Hd. apply IH.
  - by eapply job_inv_step.
  - by eapply delivery_step.
Qed.
End Reachable.

(** ** Output *)

Lemma str_take_app_le n a b : (n ≤ String.length a)%nat → str_take n (a +:+ b) = str_take n a.
Proof. revert n. induction a as [|x a IH]; intros [|n] Hn; rewrite ?str_app_cons; cbn [str_take String.length] in *; try done; try lia. by rewrite IH by lia. Qed.
Lemma str_take_app_add a b n : str_take (String.length a + n) (a +:+ b) = a +:+ str_take n b.
Proof. induction a as [|x a IH]; rewrite ?str_app_cons, ?str_app_nil_l; cbn [str_take String.length plus]; [done|]. by rewrite IH. Qed.
Lemma str_take_all n a : (String.length a ≤ n)%nat → str_take n a = a.
Proof. revert n. induction a as [|x a IH]; intros [|n] Hn; cbn in *; try done; [lia|]. by rewrite IH by lia. Qed.
(** Whatever the chunks, the buffer is the beginning of all that was written. *)
Lemma writeChunk_take max total st data : 0 < max → data ≠ "" →
  st = (str_take (Z.to_nat max) total, bool_decide (max < Z.of_nat (String.length total))) →
  writeChunk max st data = (str_take (Z.to_nat max) (total +:+ data), bool_decide (max < Z.of_nat (String.length (total +:+ data)))).
Proof.
  intros Hmax Hd ->. unfold writeChunk. rewrite str_length_app, str_take_length.
  assert (0 < String.length data)%nat by (destruct data; [done|cbn; lia]).
  destruct (Z.leb_spec max (Z.of_nat (Nat.min (Z.to_nat max) (String.length total)))).
  - rewrite str_take_app_le by lia. rewrite bool_decide_true by lia. done.
  - rewrite (str_take_all _ total) by lia. replace (Nat.min _ _) with (String.length total) by lia.
    assert (Z.to_nat max = String.length total + Z.to_nat (max - Z.of_nat (String.length total)))%nat as -> by lia.
    rewrite str_take_app_add. rewrite (bool_decide_false (max < Z.of_nat (String.length total))) by lia.
    destruct (Z.ltb_spec (max - Z.of_nat (String.length total)) (Z.of_nat (String.length data))).
    + by rewrite bool_decide_true by lia.
    + rewrite bool_decide_false by lia. by rewrite str_take_all by lia.
Qed.
Lemma writeChunks_take max chunks : 0 < max → Forall (λ c, c ≠ "") chunks →
  foldl (writeChunk max) ("", false) chunks =
    (str_take (Z.to_nat max) (join "" chunks), bool_decide (max < Z.of_nat (String.length (join "" chunks)))).
Proof.
  intros Hmax. induction chunks as [|c chunks IH] using rev_ind; intros Hc.
  - cbn. rewrite bool_decide_false by lia. by destruct (Z.to_nat max).
  - apply Forall_app in Hc as [Hc Hx]. rewrite Forall_singleton in Hx. rewrite foldl_app. cbn [foldl]. rewrite IH by done.
    rewrite (writeChunk_take max (join "" chunks)) by done. destruct chunks as [|d chunks]; [cbn; by rewrite str_app_nil_l|].
    by rewrite join_snoc, str_app_nil_l by done.
Qed.

(** ** Properties *)

Section Properties.
Context (E : Env) (R : Retention).

(** C22. Every job that was started is reported once, to the session that submitted it.
    In every reachable state the result of a child whose goroutine has ended was handed
    to [postCompletionEnvelope] exactly once, and that call left one message and no line
    in the log, or no message and a line in the log, the latter only because the result
    could not be encoded or the messaging service refused that message; no job has
    two messages.  Each message goes to the session and agent of the job's submission
    and carries a result whose status is final, canceled only if the job was canceled or
    timed out, and which agrees with the record as long as that is retained. *)
Theorem every_job_reported_once s : reachable E R s →
  (∀ id, reapers s !! id = Some Reaped → ∃ req res, (req, res) ∈ posted s ∧ res_JobID res = id ∧
     ((∃ payload, marshal_result E res = Some payload ∧ (id, completionMessage req res payload) ∈ sent s ∧ id ∉ (dropped s).*1) ∨
      (∃ l, (id, l) ∈ dropped s ∧ send_failure E req res l ∧ id ∉ (sent s).*1))) ∧
  NoDup (res_JobID ∘ snd <$> posted s) ∧ NoDup (sent s).*1 ∧
  (∀ id m, (id, m) ∈ sent s → reapers s !! id = Some Reaped ∧
     ∃ sub res payload, issued s !! id = Some sub ∧ res_JobID res = id ∧ marshal_result E res = Some payload ∧
       ToSessionID m = OriginatingSessionID sub ∧ ToAgentID m = OriginatingAgentID sub ∧
       PayloadJSON m = payload ∧ Subject m = completionSubject (res_Status res) ∧ MBody m = completionBody res ∧
       ended s id (res_Status res) ∧ ∀ r, jobs s !! id = Some r → result_of r = res).
Proof.
  intros Hs. pose proof (jobs_reachable_inv _ _ _ Hs) as Hi. pose proof (reachable_delivery _ _ _ Hs) as Hdel.
  assert (∀ x y, x ∈ posted s → y ∈ posted s → res_JobID x.2 = res_JobID y.2 → x = y) as Huniq.
  { intros x y Hx Hy He. by apply (NoDup_map_eq (res_JobID ∘ snd) (posted s)); [apply Hi|..]. }
  pose proof (inv_once _ Hi) as Hnd. rewrite <- (dl_all _ _ Hdel) in Hnd. apply NoDup_app in Hnd as (Hsent&Hdisj&_).
  split_and!; [|apply Hi|done|].
  - intros id Hr. destruct (inv_phase _ Hi id Reaped Hr) as (req&res&Hin&Hid). exists req, res. split_and!; [done..|].
    assert (id ∈ ((sent s).*1 ++ (dropped s).*1)%list) as Hx.
    { rewrite (dl_all _ _ Hdel). apply list_elem_of_fmap. by exists (req, res). }
    apply elem_of_app in Hx as [Hx|Hx]; pose proof Hx as ([i x]&->&Hix)%list_elem_of_fmap; cbn in *.
    + left. destruct (dl_sent _ _ Hdel _ _ Hix) as (q&y&pl&Hq&Hy&Hm&->).
      assert ((q, y) = (req, res)) as [= -> ->] by (apply Huniq; [done|done|cbn; congruence]). exists pl. auto.
    + right. destruct (dl_dropped _ _ Hdel _ _ Hix) as (q&y&Hq&Hy&Hl).
      assert ((q, y) = (req, res)) as [= -> ->] by (apply Huniq; [done|done|cbn; congruence]). exists x. split_and!; [done..|].
      intros Hxs. by apply (Hdisj _ Hxs).
  - intros id m Hin. destruct (dl_sent _ _ Hdel _ _ Hin) as (req&res&pl&Hp&<-&Hm&->).
    destruct (inv_posted _ Hi _ _ Hp) as (Hr&Hsub&He). split; [done|]. exists req, res, pl. split_and!; [done..|].
    intros r Hrec. pose proof (inv_told _ Hi _ _ Hrec (inv_settled _ Hi _ _ _ Hr I Hrec)) as Ht. unfold told in Ht. rewrite Hr in Ht.
    assert ((j_req r, result_of r) = (req, res)) as [= _ ->]; [|done]. apply Huniq; [done|done|]. cbn. by destruct (inv_jobs _ Hi _ _ Hrec).
Qed.

(** How far a status is. *)
Definition rank (s : JobStatus) : nat := match s with StatusPending => 0 | StatusRunning => 1 | _ => 2 end.
(** A job's status only moves forward, and a result never changes.  Along every
    step a record stays as it is once it is terminal, until it is evicted; before, it
    moves from pending to running and from either to a terminal status.  It leaves the
    table unfinished only when its child could not be started, or in the very step that
    completes it, when it is the oldest of too many. *)
Theorem jobs_move_forward s ev s' id r : reachable E R s → sys_step E R s ev s' → jobs s !! id = Some r →
  match jobs s' !! id with
  | Some r' => (terminal r = true → r' = r) ∧ (rank (j_status r) ≤ rank (j_status r'))%nat ∧ j_req r' = j_req r
  | None => terminal r = true ∨ (∃ t req, ev = StartFails t ∧ submissions s !! t = Some (Starting id req)) ∨
      ev = Step id ∧ ∃ c, reapers s !! id = Some (Completing c)
  end.
Proof.
  intros Hs%jobs_reachable_inv Hstep Hr.
  assert (∀ now, match pruneCompleted R now (jobs s) !! id with
    | Some r' => (terminal r = true → r' = r) ∧ (rank (j_status r) ≤ rank (j_status r'))%nat ∧ j_req r' = j_req r
    | None => terminal r = true ∨ (∃ t req, ev = StartFails t ∧ submissions s !! t = Some (Starting id req)) ∨
        ev = Step id ∧ ∃ c, reapers s !! id = Some (Completing c) end) as Hprune.
  { intros now. destruct (pruneCompleted R now (jobs s) !! id) as [r'|] eqn:Hp.
    - apply prune_lookup in Hp. rewrite Hr in Hp. by injection Hp as <-.
    - left. destruct (terminal r) eqn:Ht; [done|]. by rewrite (prune_live R now (jobs s) id r Hr Ht) in Hp. }
  destruct Hstep; rewrite ?deliver_jobs; cbn [jobs set_jobs set_submissions set_heap set_active reap post issue]; try (by rewrite Hr); try apply Hprune.
  - unfold submit_register. rewrite lookup_insert_ne; [apply Hprune|]. intros <-. destruct (inv_jobs _ Hs _ _ Hr). unfold id0 in *. congruence.
  - destruct (decide (id = id0)) as [->|Hne].
    + rewrite lookup_delete_eq. right. left. by exists t, req.
    + by rewrite lookup_delete_ne, Hr.
  - unfold submit_running. destruct (decide (id = id0)) as [->|Hne]; [|by rewrite lookup_alter_ne, Hr].
    rewrite lookup_alter_eq, Hr. cbn. case_bool_decide as Hp; [|done]. unfold terminal. rewrite Hp. cbn. split_and!; [done|lia|done].
  - pose proof (inv_phase _ Hs _ _ H) as [(x&Hx&Hlive) He]. rewrite (complete_live _ _ _ _ _ _ _ Hx Hlive) in H0. injection H0 as _ <-.
    destruct (decide (id = id0)) as [->|Hne].
    + rewrite Hr in Hx. injection Hx as <-. destruct (pruneCompleted R later _ !! id0) as [r'|] eqn:Hp.
      * apply prune_lookup in Hp. rewrite lookup_insert_eq in Hp. injection Hp as <-. cbn. split_and!; [congruence| |done].
        assert (rank (bc_Status c) = 2%nat) as -> by (destruct He as [[Hc|[Hc|Hc]] _]; by rewrite Hc). by destruct (j_status r); cbn; lia.
      * right. right. split; [done|]. by exists c.
    + destruct (pruneCompleted R later _ !! id) as [r'|] eqn:Hp.
      * apply prune_lookup in Hp. rewrite lookup_insert_ne in Hp by done. rewrite Hr in Hp. by injection Hp as <-.
      * left. destruct (terminal r) eqn:Ht; [done|]. rewrite (prune_live R later _ id r) in Hp; [done| |done]. by rewrite lookup_insert_ne.
Qed.

(** Results are kept within the ceiling, and fairly.  In every reachable state the
    table holds at most the ceiling of finished jobs and the record of every child that
    has not been reported; and whatever a pruning removes is past its time, or finished
    no later than every finished job it keeps. *)
Theorem retention_is_fair s now : reachable E R s →
  let m := pruneCompleted R now (jobs s) in
  (0 ≤ maxCompleted R → Z.of_nat (size (terminals (jobs s))) ≤ maxCompleted R) ∧
  (∀ id p, reapers s !! id = Some p → ¬ settled p → live_record s id) ∧
  ∀ i r j x, jobs s !! i = Some r → m !! i = None → m !! j = Some x → terminal x = true →
    terminal r = true ∧ (outlived R now r = true ∨ time_le (j_completedAt r) (j_completedAt x) = true).
Proof.
  intros Hs m. pose proof (jobs_reachable_inv _ _ _ Hs) as Hinv. split_and!; [by eapply reachable_bounded| |].
  - intros id p Hp Hn. pose proof (inv_phase _ Hinv id p Hp) as Hok.
    destruct p; cbn in *; try done; try (by destruct Hn); by destruct Hok.
  - intros i r j x Hi Hm Hj Hx. assert (terminal r = true) as Ht.
    { destruct (terminal r) eqn:Ht; [done|]. unfold m in Hm. by rewrite (prune_live R now _ i r Hi Ht) in Hm. }
    split; [done|]. destruct (outlived R now r) eqn:Ho; [by left|right].
    apply (evicted_oldest R now (jobs s) i r j x); [done| |done|done].
    destruct (decide (i ∈ evicted R now (jobs s))) as [|Hne]; [done|]. exfalso.
    assert (m !! i = Some r) as Hsome; [|congruence]. apply map_lookup_filter_Some. cbn. by rewrite Ht, Ho.
Qed.

(** Identifiers come from [newJobID]. *)
Lemma issued_tokens s : reachable E R s → ∀ id req, issued s !! id = Some req → ∃ u, canonical_uuid E u = true ∧ id = newJobID E u.
Proof.
  intros [ls Hs].
  assert (∀ s0, (∀ id req, issued s0 !! id = Some req → ∃ u, canonical_uuid E u = true ∧ id = newJobID E u) →
    ∀ s1, steps (sys_step E R) s0 ls s1 → ∀ id req, issued s1 !! id = Some req → ∃ u, canonical_uuid E u = true ∧ id = newJobID E u) as Hall.
  { clear. intros s0 H0 s1 Hs. revert H0. induction Hs as [|s0 l s2 ls s3 H1 _ IH]; [done|]. intros H0. apply IH.
    destruct H1; try exact H0; [|by destruct (postCompletionEnvelope _ _ _ _ _)]. intros i q. cbn. rewrite lookup_insert_Some. intros [[<- <-]|[_ Hi]]; [by exists uuid|by eapply H0]. }
  apply (Hall start); [|done]. intros id req. unfold start. cbn [issued]. by rewrite lookup_empty.
Qed.

(** The status of a job is never lost.  When the MAC text is 43 characters without
    a colon and canonical UUIDs have none, a started job answers with the status of its
    record or, once it was reported and evicted, as expired - never as unknown; and an
    identifier the service could not have made is unknown, not expired. *)
Theorem started_jobs_are_known s now id :
  (∀ u, canonical_uuid E u = true → no_byte ":" u = true) →
  (∀ p, no_byte ":" (tag_of E p) = true ∧ String.length (tag_of E p) = tag_length) →
  reachable E R s →
  (is_Some (reapers s !! id) →
     (∃ r, jobs s !! id = Some r ∧ (Status E R now id (jobs s)).1 = (Some (j_status r), None)) ∨
     (Status E R now id (jobs s)).1 = (Some StatusExpired, Some EExpiredJob) ∧ (∃ p, reapers s !! id = Some p ∧ settled p)) ∧
  ((∀ u, canonical_uuid E u = true → id ≠ newJobID E u) → (Status E R now id (jobs s)).1 = (None, Some EUnknownJob)).
Proof.
  intros Hu Htag Hs. pose proof (jobs_reachable_inv _ _ _ Hs) as Hinv. unfold Status, missingJobResult. cbn [fst]. split.
  - intros Hp. destruct (pruneCompleted R now (jobs s) !! id) as [r|] eqn:Hr.
    + left. exists r. split; [by eapply prune_lookup|done].
    + right. destruct (inv_issued _ Hinv id Hp) as [[req Hi] _]. destruct (issued_tokens s Hs id req Hi) as (u&Hc&->).
      destruct (Htag (jobIDTokenVersion +:+ ":" +:+ u)) as [Ht Hl]. rewrite issued_token by auto. split; [done|].
      destruct Hp as [p Hp]. exists p. split; [done|]. pose proof (inv_phase _ Hinv _ p Hp) as Hok.
      assert (¬ live_record s (newJobID E u)) as Hdead.
      { intros (r&Hrr&Ht'). by rewrite (prune_live R now _ _ r Hrr Ht') in Hr. }
      destruct p; cbn in *; try done; by destruct Hok.
  - intros Hno. destruct (pruneCompleted R now (jobs s) !! id) as [r|] eqn:Hr.
    + apply prune_lookup in Hr. destruct (inv_jobs _ Hinv _ _ Hr) as [_ Hi]. destruct (issued_tokens s Hs id _ Hi) as (u&Hc&->). by destruct (Hno u).
    + destruct (isIssuedJobID E id) eqn:Hi; [|done]. apply issued_only_token in Hi as (u&Hc&->). by destruct (Hno u).
Qed.
End Properties.

(** The output is the beginning of what the child wrote.  In whatever order the
    reads of its pipes arrive, the job keeps the first bytes of their sequence up to the
    limit, unchanged, and marks the output as truncated, with a note, exactly when there
    was more. *)
Theorem output_is_a_prefix maxBytes chunks :
  0 < maxBytes → Forall (λ c, c ≠ "") chunks →
  let total := join "" chunks in
  drainPipes maxBytes chunks =
    if bool_decide (maxBytes < Z.of_nat (String.length total))
    then (str_take (Z.to_nat maxBytes) total +:+ String (byte 10) ("[output truncated at " +:+ pretty maxBytes +:+ " bytes]" +:+ String (byte 10) ""), true)
    else (total, false).
Proof.
  intros Hmax Hc total. unfold drainPipes. rewrite (proj2 (Z.leb_gt maxBytes 0)) by done.
  rewrite writeChunks_take by done. fold total. case_bool_decide as Hlt; [done|]. by rewrite str_take_all by lia.
Qed.

(** ** Worked examples *)

Module Example_jobs.
Definition env : Env := {|
  canonical_uuid u := bool_decide (u ∈ ["u1"; "u2"]);
  tag_of _ := String.string_of_list_ascii (replicate 43 "x"%char);
  marshal_result r := Some (res_JobID r +:+ " " +:+ status_name (res_Status r));
|}.
Definition id : string := newJobID env "u1".
Definition request : JobRequest := mkJobRequest "" "make build" (mkBudget 60 0) "session" "agent".
Definition accepted : JobRequest := with_budget (mkBudget 60 DefaultMaxOutputBytes) request.
Definition R : Retention := default_retention.

(** A job whose time runs out: the timer cancels it, its child dies of the signal. *)
Definition child : shellJob := mkShellJob accepted 10 false false StatusRunning.
Definition wait : option WaitErr := Some (WExit "signal: terminated").
Definition out : string * bool := drainPipes DefaultMaxOutputBytes ["compiling"].
Definition completion : BackendCompletion := completion_of wait out 70 true (set_canceled child).
Definition s1 : Sys := issue id accepted (set_submissions (<[0%nat := Starting id accepted]> ∅) (set_jobs (submit_register R 5 id accepted ∅) start)).
Definition s2 : Sys := reap id Draining (set_active ({[id]} ∪ active s1) (set_heap (<[id := child]> (heap s1)) (set_submissions (<[0%nat := Started id]> (submissions s1)) s1))).
Definition s3 : Sys := set_submissions (delete 0%nat (submissions s2)) (set_jobs (submit_running 11 id (jobs s2)) s2).
Definition s4 : Sys := set_heap (<[id := set_canceled child]> (heap s3)) s3.
Definition s5 : Sys := reap id (Waited wait out 70) s4.
Definition s6 : Sys := reap id (Flagged wait out 70 true) s5.
Definition s7 : Sys := reap id (Classified completion) s6.
Definition s8 : Sys := reap id (Completing completion) (set_active (active s7 ∖ {[id]}) (set_heap (alter (set_job_status (bc_Status completion)) id (heap s7)) s7)).
Definition finished : option (JobRequest * JobResult) * registry := onBackendComplete R 71 72 id completion (jobs s8).
Definition message : JobRequest * JobResult := match finished.1 with Some m => m | None => (request, expired_result "") end.
Definition s9 : Sys := reap id (Posting message.1 message.2) (set_jobs finished.2 s8).
Definition s10 : Sys := deliver id (postCompletionEnvelope true (marshal_result env) (λ _, true) message.1 message.2) (post (message.1, message.2) (reap id Reaped s9)).
(** The same, but the messaging service is down. *)
Definition s10_lost : Sys := deliver id (postCompletionEnvelope true (marshal_result env) (λ _, false) message.1 message.2) (post (message.1, message.2) (reap id Reaped s9)).

Lemma s8_reachable : reachable env R s8.
Proof.
  exists [Submit 0 id; Start 0; MarkRunning 0; Cancel id; Exit id; Step id; Step id; Step id].
  apply (steps_cons _ _ _ s1); [apply (st_submit env R start 0 PatternBackground request accepted 5 "u1"); vm_compute; reflexivity|].
  apply (steps_cons _ _ _ s2); [apply (st_start env R s1 0 id accepted 10); vm_compute; reflexivity|].
  apply (steps_cons _ _ _ s3); [apply (st_running env R s2 0 id 11); vm_compute; reflexivity|].
  apply (steps_cons _ _ _ s4); [apply (st_cancel env R s3 id child); [by_decide|vm_compute; reflexivity|reflexivity]|].
  apply (steps_cons _ _ _ s5); [apply (st_exit env R s4 id (set_canceled child) wait ["compiling"] 70); vm_compute; reflexivity|].
  apply (steps_cons _ _ _ s6); [apply (st_flag env R s5 id (set_canceled child) wait out 70); vm_compute; reflexivity|].
  apply (steps_cons _ _ _ s7); [apply (st_classify env R s6 id (set_canceled child) wait out 70 true); vm_compute; reflexivity|].
  apply (steps_cons _ _ _ s8); [apply (st_remove env R s7 id completion); vm_compute; reflexivity|apply steps_nil].
Qed.
Lemma s8_step f m : onBackendComplete R 71 72 id completion (jobs s8) = f → f.1 = Some m →
  sys_step env R s8 (Step id) (reap id (Posting m.1 m.2) (set_jobs f.2 s8)).
Proof.
  intros Hf Hm. destruct f as [o m'], m as [req res]. cbn in Hm |- *. subst o.
  apply (st_complete env R s8 id completion 71 72 (Some (req, res)) m'); [vm_compute; reflexivity|exact Hf].
Qed.
Lemma finished_some : finished.1 = Some message.
Proof. vm_compute. reflexivity. Qed.
Lemma s8_completes : sys_step env R s8 (Step id) s9.
Proof. exact (s8_step finished message eq_refl finished_some). Qed.
Lemma s9_posts accepts : reachable env R (deliver id (postCompletionEnvelope true (marshal_result env) accepts message.1 message.2) (post (message.1, message.2) (reap id Reaped s9))).
Proof.
  destruct s8_reachable as [es Hes]. eexists. eapply steps_snoc; [eapply steps_snoc; [exact Hes|exact s8_completes]|].
  apply (st_post env R s9 id message.1 message.2). apply lookup_insert_eq.
Qed.
Lemma s10_reachable : reachable env R s10.
Proof. apply s9_posts. Qed.
(** A message that cannot be sent is lost, with a line in the log. *)
Example refused_is_lost : reachable env R s10_lost ∧ sent s10_lost = [] ∧ (dropped s10_lost).*1 = [id].
Proof. split_and!; [apply s9_posts|vm_compute; reflexivity..]. Qed.
(** A job that ran out of time is reported as canceled, without an error. *)
Example timeout_is_canceled : (λ m, (res_Status m.2, res_Error m.2)) <$> posted s10 = [(StatusCanceled, "")].
Proof. vm_compute. reflexivity. Qed.
(** A budget of three hundred years lets the timer go off at once. *)
Definition generous : JobRequest := with_budget (mkBudget 10000000000 0) request.
Example generous_budget_expires_at_once : timer_delay generous < 0 ∧ is_ok (submit_check true true PatternBackground generous) = true.
Proof. split; vm_compute; reflexivity. Qed.

Lemma every_job_reported_once_witness :
  reapers s10 !! id = Some Reaped ∧ ∃ req res, (req, res) ∈ posted s10 ∧ res_JobID res = id ∧ (sent s10).*1 = [id].
Proof.
  assert (reapers s10 !! id = Some Reaped) as Hr by (vm_compute; reflexivity). split; [exact Hr|].
  destruct (proj1 (every_job_reported_once env R s10 s10_reachable) id Hr) as (req & res & Hin & Hid & _).
  exists req, res. split; [exact Hin|]. split; [exact Hid|]. vm_compute. reflexivity.
Defined.
Definition running : jobRecord := mkRecord id accepted StatusRunning (Some 11) None "" false None.
Lemma jobs_move_forward_witness :
  ∃ r', jobs s9 !! id = Some r' ∧ (rank StatusRunning ≤ rank (j_status r'))%nat.
Proof.
  assert (jobs s8 !! id = Some running) as Hr by (vm_compute; reflexivity).
  pose proof (jobs_move_forward env R s8 (Step id) s9 id running s8_reachable s8_completes Hr) as H.
  destruct (jobs s9 !! id) as [r'|] eqn:Hr'; [|vm_compute in Hr'; discriminate].
  exists r'. split; [reflexivity|]. apply H.
Defined.
Lemma retention_is_fair_witness : Z.of_nat (size (terminals (jobs s10))) ≤ 100.
Proof. apply (retention_is_fair env R s10 72 s10_reachable). vm_compute. discriminate. Defined.
Lemma started_jobs_are_known_witness :
  (Status env R 73 "bg1:u1:forged" (jobs s10)).1 = (None, Some EUnknownJob).
Proof.
  apply (started_jobs_are_known env R s10 73 "bg1:u1:forged").
  - intros u Hu. apply bool_decide_eq_true in Hu. repeat (apply elem_of_cons in Hu as [->|Hu]; [reflexivity|]). by apply elem_of_nil in Hu.
  - intros p. split; reflexivity.
  - exact s10_reachable.
  - intros u Hu. apply bool_decide_eq_true in Hu. repeat (apply elem_of_cons in Hu as [->|Hu]; [vm_compute; discriminate|]). by apply elem_of_nil in Hu.
Defined.
Lemma output_is_a_prefix_witness : drainPipes 4 ["abc"; "def"] = ("abcd" +:+ String (byte 10) ("[output truncated at 4 bytes]" +:+ String (byte 10) ""), true).
Proof.
  etransitivity; [apply (output_is_a_prefix 4 ["abc"; "def"])|].
  - lia.
  - repeat constructor; discriminate.
  - reflexivity.
Defined.
End Example_jobs.
