(* ===== verification/ScheduleStore.v ===== *)
(** * Schedules and their fires in the store

    The tables of [internal/store] behind the scheduler: agent schedules
    ([agent_schedules.go]) with the operator's service over them
    ([internal/service/schedules.go]), their durable fires ([schedule_runs.go]) and
    the one-shot schedules and fires of workflow activations
    ([workflow_activations.go]).  A transaction takes effect or fails as a whole.  The
    cron parser, the JSON checker and SQLite's [julianday] are parameters. *)

From stdpp Require Import sorting.
From S2P Require Import Prelude GoStrings GoNum GoTime.

Open Scope string_scope.
Open Scope Z_scope.
Set Default Proof Using "Type".

(** ** Rows *)

(** A row of [actor_schedules]; the empty text is the NULL of a nullable column. *)
Record AgentSchedule := mkSchedule {
  s_ID : string;
  s_AgentID : string;
  s_SessionID : string;
  s_Name : string;
  s_ScheduleKind : string;
  s_ScheduleSpec : string;
  s_Body : string;
  s_Priority : Z;
  s_Status : string;
  s_ExpiresAt : string;
  s_FiredCount : Z;
  s_LastFiredAt : string;
  s_CreatedAt : string;
  s_CreatedBy : string;
  s_MaxRetries : Z;
  s_OnFail : string;
  s_NextRun : string;
  s_JobType : string;
  s_JobPayload : string;
}.
#[global] Instance AgentSchedule_eq_dec : EqDecision AgentSchedule.
Proof. solve_decision. Defined.
Definition ScheduleKindCron : string := "cron".
Definition ScheduleKindOneShot : string := "one_shot".
Definition ScheduleStatusActive : string := "active".
Definition ScheduleStatusPaused : string := "paused".
Definition ScheduleStatusExpired : string := "expired".
Definition ScheduleOnFailRetry : string := "retry".
Definition ScheduleOnFailDisable : string := "disable".
Definition ScheduleOnFailNotify : string := "notify".
Definition ScheduleJobTypeDurableAgentWake : string := "durable_agent_wake".
Definition ScheduleJobTypeAgentWorkflowRun : string := "agent_workflow_run".
Definition ScheduleJobTypeCommandRun : string := "command_run".
Definition ScheduleJobTypeReflexDispatch : string := "reflex_dispatch".
Definition ScheduleJobTypeLoopRunTick : string := "loop_run_tick".

Definition with_defaults (status by_ : string) (retries : Z) (onfail jobtype payload : string) (s : AgentSchedule) : AgentSchedule :=
  mkSchedule (s_ID s) (s_AgentID s) (s_SessionID s) (s_Name s) (s_ScheduleKind s) (s_ScheduleSpec s) (s_Body s)
    (s_Priority s) status (s_ExpiresAt s) (s_FiredCount s) (s_LastFiredAt s) (s_CreatedAt s) by_ retries onfail
    (s_NextRun s) jobtype payload.
Definition with_status (status : string) (s : AgentSchedule) : AgentSchedule :=
  with_defaults status (s_CreatedBy s) (s_MaxRetries s) (s_OnFail s) (s_JobType s) (s_JobPayload s) s.
Definition with_created (created : string) (s : AgentSchedule) : AgentSchedule :=
  mkSchedule (s_ID s) (s_AgentID s) (s_SessionID s) (s_Name s) (s_ScheduleKind s) (s_ScheduleSpec s) (s_Body s)
    (s_Priority s) (s_Status s) (s_ExpiresAt s) (s_FiredCount s) (s_LastFiredAt s) created (s_CreatedBy s)
    (s_MaxRetries s) (s_OnFail s) (s_NextRun s) (s_JobType s) (s_JobPayload s).
Definition with_firing (next last : string) (fired : Z) (s : AgentSchedule) : AgentSchedule :=
  mkSchedule (s_ID s) (s_AgentID s) (s_SessionID s) (s_Name s) (s_ScheduleKind s) (s_ScheduleSpec s) (s_Body s)
    (s_Priority s) (s_Status s) (s_ExpiresAt s) fired last (s_CreatedAt s) (s_CreatedBy s)
    (s_MaxRetries s) (s_OnFail s) next (s_JobType s) (s_JobPayload s).
Definition with_next (next : string) (s : AgentSchedule) : AgentSchedule :=
  with_firing next (s_LastFiredAt s) (s_FiredCount s) s.

Definition ScheduleFireStatusPending : string := "pending".
Definition ScheduleFireStatusClaimed : string := "claimed".
Definition ScheduleFireStatusRetrying : string := "retrying".
Definition ScheduleFireStatusSucceeded : string := "succeeded".
Definition ScheduleFireStatusSkipped : string := "skipped".
Definition ScheduleFireStatusExhausted : string := "exhausted".
Definition fire_statuses : list string :=
  [ScheduleFireStatusPending; ScheduleFireStatusClaimed; ScheduleFireStatusRetrying;
   ScheduleFireStatusSucceeded; ScheduleFireStatusSkipped; ScheduleFireStatusExhausted].
(** A row of [actor_schedule_runs] or [workflow_activation_fires].  [None] is the NULL
    of the two columns that may also hold an empty text. *)
Record ScheduleFire := mkFire {
  f_ID : string;
  f_ScheduleID : string;
  f_RunID : string;
  f_ScheduledAt : string;
  f_FiredAt : string;
  f_ClaimExpiresAt : option string;
  f_DispatchAcceptedAt : option string;
  f_Status : string;
  f_AttemptCount : Z;
  f_LastError : string;
  f_NextAttemptAt : string;
  f_RetryMaxAttempts : Z;
  f_RetryBackoffStrategy : string;
  f_RetryInitialDelayNanos : Z;
  f_RetryMaximumDelayNanos : Z;
  f_JobType : string;
  f_JobPayload : string;
}.
#[global] Instance ScheduleFire_eq_dec : EqDecision ScheduleFire.
Proof. solve_decision. Defined.
Definition with_fire (fired : string) (expires accepted : option string) (status : string) (attempts : Z) (err next : string) (f : ScheduleFire) : ScheduleFire :=
  mkFire (f_ID f) (f_ScheduleID f) (f_RunID f) (f_ScheduledAt f) fired expires accepted status attempts err next
    (f_RetryMaxAttempts f) (f_RetryBackoffStrategy f) (f_RetryInitialDelayNanos f) (f_RetryMaximumDelayNanos f)
    (f_JobType f) (f_JobPayload f).
Definition with_key (id schedule : string) (f : ScheduleFire) : ScheduleFire :=
  mkFire id schedule (f_RunID f) (f_ScheduledAt f) (f_FiredAt f) None None (f_Status f) (f_AttemptCount f)
    (f_LastError f) (f_NextAttemptAt f)
    (f_RetryMaxAttempts f) (f_RetryBackoffStrategy f) (f_RetryInitialDelayNanos f) (f_RetryMaximumDelayNanos f)
    (f_JobType f) (f_JobPayload f).

Record ScheduleFireCreation := mkCreation { cr_ScheduleID : string; cr_ExpectedNext : Z; cr_NextRun : Z; cr_Fire : ScheduleFire }.
Record ScheduleFireClaim := mkClaim {
  cl_FireID : string;
  cl_ExpectedStatus : string;
  cl_ExpectedAttempt : Z;
  cl_ExpectedFiredAt : Z;
  cl_ClaimedAt : Z;
  cl_ClaimExpiresAt : Z;
}.
Record ScheduleFireTransition := mkTransition {
  tr_FireID : string;
  tr_Attempt : Z;
  tr_From : string;
  tr_ClaimedAt : Z;
  tr_To : string;
  tr_NextAttemptAt : Z;
  tr_LastError : string;
}.
(** A row of [workflow_activation_schedules]. *)
Record WorkflowActivationSchedule := mkActivation {
  a_ScheduleID : string;
  a_ActivationID : string;
  a_ActivationJSON : string;
  a_FireAt : string;
  a_NextRun : string;
  a_Status : string;
  a_CreatedAt : string;
  a_UpdatedAt : string;
}.
Definition with_activation (next status updated : string) (a : WorkflowActivationSchedule) : WorkflowActivationSchedule :=
  mkActivation (a_ScheduleID a) (a_ActivationID a) (a_ActivationJSON a) (a_FireAt a) next status (a_CreatedAt a) updated.

Definition formatFireTime (t : Z) : string := if IsZero t then "" else format_Nano t.
Definition nullIfEmpty (s : string) : string := s.

Inductive SErr :=
| EDatabase
| EConstraint
| EInvalid (msg : string)
| EScheduleNotFound
| EFireNotFound
| EActivationScheduleNotFound
| EActivationFireNotFound
| EActivationConflict (id : string)
| EWrite (cause : SErr)
| EInternal (cause : SErr).

(** ** The database *)

Abbreviation FireTable := (gmap string ScheduleFire).
Record SDB := mkSDB {
  schedules : gmap string AgentSchedule;
  runs : FireTable;
  activations : gmap string WorkflowActivationSchedule;
  act_fires : FireTable;
}.
Definition set_schedules (m : gmap string AgentSchedule) (d : SDB) : SDB := mkSDB m (runs d) (activations d) (act_fires d).
Definition set_runs (m : FireTable) (d : SDB) : SDB := mkSDB (schedules d) m (activations d) (act_fires d).
Definition set_activations (m : gmap string WorkflowActivationSchedule) (d : SDB) : SDB := mkSDB (schedules d) (runs d) m (act_fires d).
Definition set_act_fires (m : FireTable) (d : SDB) : SDB := mkSDB (schedules d) (runs d) (activations d) m.

(** [UPDATE t SET ... WHERE P], with the number of rows affected. *)
Definition update_where {A} (P : A → bool) (f : A → A) (m : gmap string A) : Z * gmap string A :=
  (Z.of_nat (size (filter (λ kv, P kv.2 = true) m)), (λ r, if P r then f r else r) <$> m).
(** The first row that satisfies a condition. *)
Definition find_row {A} (P : A → bool) (m : gmap string A) : option A :=
  (λ x, x.2.2) <$> list_find (λ kv, P kv.2 = true) (map_to_list m).
Definition has_run (id : string) (r : ScheduleFire) : bool := bool_decide (f_RunID r = id).

(** The clock, fresh identifiers, the statements that fail, the actors whose binding
    is verified and enabled, and the durable agent instances with their profiles, at
    every moment. *)
Record Env := mkEnv {
  now_at : nat → Z;
  ulid_at : nat → string;
  stmt_fails : nat → bool;
  sql_now : nat → string;
  bound : nat → string → bool;
  instances_at : nat → bool → option (list (string * string));
}.
Record SW := mkSW { db : SDB; tick : nat }.

Section Store.
(** [cron.ParseStandard] and [Next]; [json.Valid]; [julianday]. *)
Context (cron_next : string → option (Z → Z)) (json_valid : string → bool) (julianday : string → option Z) (E : Env).
Abbreviation op A := (act SW SErr A).

Definition up (w : SW) : SW := mkSW (db w) (S (tick w)).
Definition Now : op Z := λ w, (Ok (now_at E (tick w)), up w).
Definition ulid : op string := λ w, (Ok (ulid_at E (tick w)), up w).
(** A statement or a transaction: it fails, is refused by a constraint, or takes
    effect. *)
Definition exec {A} (f : nat → SDB → option (A * SDB)) : op A := λ w,
  if stmt_fails E (tick w) then (Err EDatabase, up w)
  else match f (tick w) (db w) with
       | None => (Err EConstraint, up w)
       | Some (a, d) => (Ok a, mkSW d (S (tick w)))
       end.
Definition query {A} (f : SDB → A) : op A := exec (λ _ d, Some (f d, d)).

(** [julianday(a) <= julianday(b)]: not true when either is not a time. *)
Definition jd_le (a b : string) : bool :=
  match julianday a, julianday b with Some x, Some y => x <=? y | _, _ => false end.
Definition coalesce (a b : string) : string := if bool_decide (a = "") then b else a.

(** ** Agent schedules *)

Definition ValidateAgentSchedule (r : AgentSchedule) : result SErr unit :=
  if bool_decide (s_ID r = "") then Err (EInvalid "id is required") else
  if bool_decide (s_AgentID r = "") then Err (EInvalid "agent_id is required") else
  if bool_decide (trim_space (s_Name r) = "") then Err (EInvalid "name is required") else
  if bool_decide (trim_space (s_Body r) = "") then Err (EInvalid "body is required") else
  _ ← (if bool_decide (s_ScheduleKind r = ScheduleKindCron) then
         let spec := trim_space (s_ScheduleSpec r) in
         if bool_decide (spec = "") then Err (EInvalid "schedule_spec is required")
         else match cron_next spec with None => Err (EInvalid "schedule_spec is not a valid cron expression") | Some _ => Ok tt end
       else if bool_decide (s_ScheduleKind r = ScheduleKindOneShot) then Ok tt
       else Err (EInvalid "schedule_kind must be cron or one_shot"));
  if negb (bool_decide (s_Status r ∈ [""; ScheduleStatusActive; ScheduleStatusPaused; ScheduleStatusExpired])) then Err (EInvalid "status") else
  if negb (bool_decide (s_ExpiresAt r = "")) && bool_decide (Parse (s_ExpiresAt r) = None) then Err (EInvalid "expires_at must be RFC3339") else
  if s_MaxRetries r <? 0 then Err (EInvalid "max_retries must not be negative") else
  if negb (bool_decide (s_OnFail r ∈ [""; ScheduleOnFailRetry; ScheduleOnFailDisable; ScheduleOnFailNotify])) then Err (EInvalid "on_fail") else
  if negb (bool_decide (s_JobType r ∈ [""; ScheduleJobTypeDurableAgentWake; ScheduleJobTypeAgentWorkflowRun;
       ScheduleJobTypeCommandRun; ScheduleJobTypeReflexDispatch; ScheduleJobTypeLoopRunTick])) then Err (EInvalid "job_type is not recognized") else
  if negb (bool_decide (s_JobPayload r = "")) && negb (json_valid (s_JobPayload r)) then Err (EInvalid "job_payload must be valid JSON") else
  Ok tt.

Definition or_default (s d : string) : string := if bool_decide (s = "") then d else s.
Definition prepareAgentSchedule (r : AgentSchedule) : result SErr AgentSchedule :=
  _ ← ValidateAgentSchedule r;
  Ok (with_defaults (or_default (s_Status r) ScheduleStatusActive) (or_default (s_CreatedBy r) "operator")
        (if s_MaxRetries r <=? 0 then 3 else s_MaxRetries r) (or_default (s_OnFail r) ScheduleOnFailRetry)
        (or_default (s_JobType r) ScheduleJobTypeDurableAgentWake) (or_default (s_JobPayload r) "{}") r).
(** The row a statement inserts: [COALESCE(NULLIF(?, ''), datetime('now'))]. *)
Definition inserted (now : string) (r : AgentSchedule) : AgentSchedule := with_created (or_default (s_CreatedAt r) now) r.

(** The trigger of the table asks for an enabled actor. *)
Definition replace_schedule (r : AgentSchedule) (t : nat) (d : SDB) : option (unit * SDB) :=
  if bound E t (s_AgentID r) then
    Some (tt, set_schedules (<[s_ID r := inserted (sql_now E t) r]> (schedules d)) d)
  else None.
Definition InsertAgentSchedule (row : AgentSchedule) : op unit :=
  row ← lift (prepareAgentSchedule row); exec (replace_schedule row).
Definition insert_missing (r : AgentSchedule) (t : nat) (d : SDB) : option (bool * SDB) :=
  if bool_decide (is_Some (find_row (λ s, bool_decide (s_AgentID s = s_AgentID r) && bool_decide (s_Name s = s_Name r)) (schedules d)))
  then Some (false, d)
  else if negb (bound E t (s_AgentID r)) then None
  else match schedules d !! s_ID r with
       | Some _ => Some (false, d)
       | None => Some (true, set_schedules (<[s_ID r := inserted (sql_now E t) r]> (schedules d)) d)
       end.
Definition InsertAgentScheduleIfNameMissing (row : AgentSchedule) : op bool :=
  row ← lift (prepareAgentSchedule row); exec (insert_missing row).

Definition GetAgentSchedule (id : string) : op AgentSchedule :=
  o ← query (λ d, schedules d !! id);
  match o with Some r => mret r | None => fail EScheduleNotFound end.
(** [ORDER BY priority DESC, created_at ASC]. *)
Definition before_listed (a b : AgentSchedule) : Prop :=
  s_Priority b < s_Priority a ∨ s_Priority a = s_Priority b ∧ String.leb (s_CreatedAt a) (s_CreatedAt b) = true.
#[global] Instance before_listed_dec : RelDecision before_listed.
Proof. intros a b. unfold before_listed. apply _. Defined.
Definition ListAllAgentSchedules : op (list AgentSchedule) :=
  query (λ d, merge_sort before_listed (map_to_list (schedules d)).*2).
Definition ListAgentSchedules (agentID : string) : op (list AgentSchedule) :=
  query (λ d, merge_sort before_listed (List.filter (λ s, bool_decide (s_AgentID s = agentID)) (map_to_list (schedules d)).*2)).

(** A schedule with fires is kept by the foreign key of its history. *)
Definition delete_schedule (id : string) (_ : nat) (d : SDB) : option (bool * SDB) :=
  match schedules d !! id with
  | None => Some (false, d)
  | Some _ => if bool_decide (is_Some (find_row (λ r, bool_decide (f_ScheduleID r = id)) (runs d))) then None
              else Some (true, set_schedules (delete id (schedules d)) d)
  end.
Definition DeleteAgentSchedule (id : string) : op unit :=
  n ← exec (delete_schedule id); if (n : bool) then mret tt else fail EScheduleNotFound.
(** [UPDATE actor_schedules ... WHERE id = ?] and a condition. *)
Definition update_schedule (id : string) (cond : AgentSchedule → bool) (f : AgentSchedule → AgentSchedule) (t : nat) (d : SDB) : option (bool * SDB) :=
  match schedules d !! id with
  | Some s => if cond s then
                if bound E t (s_AgentID s) then Some (true, set_schedules (<[id := f s]> (schedules d)) d) else None
              else Some (false, d)
  | None => Some (false, d)
  end.
Definition UpdateAgentScheduleStatus (id status : string) : op unit :=
  if negb (bool_decide (status ∈ [ScheduleStatusActive; ScheduleStatusPaused; ScheduleStatusExpired])) then fail (EInvalid "status") else
  n ← exec (update_schedule id (λ _, true) (with_status status)); if (n : bool) then mret tt else fail EScheduleNotFound.
Definition BumpAgentScheduleFireCount (id : string) (now : Z) : op unit :=
  n ← exec (update_schedule id (λ _, true) (λ s, with_firing (s_NextRun s) (format_RFC3339 now) (s_FiredCount s + 1) s));
  if (n : bool) then mret tt else fail EScheduleNotFound.

(** Due rows: an active schedule whose [next_run] is, as a text, at or before now. *)
Definition schedule_due (now : string) (s : AgentSchedule) : bool :=
  bool_decide (s_Status s = ScheduleStatusActive) && negb (bool_decide (s_NextRun s = "")) && String.leb (s_NextRun s) now.
Definition by_next (a b : AgentSchedule) : Prop := String.leb (s_NextRun a) (s_NextRun b) = true.
#[global] Instance by_next_dec : RelDecision by_next.
Proof. intros a b. unfold by_next. apply _. Defined.
Definition limit_of (limit : Z) : nat := Z.to_nat (if limit <=? 0 then 100 else limit).
Definition ListDueAgentSchedules (now limit : Z) : op (list AgentSchedule) :=
  query (λ d, take (limit_of limit) (merge_sort by_next
    (List.filter (schedule_due (format_RFC3339 now)) (map_to_list (schedules d)).*2))).

(** The first firing of a schedule; the zero time for none. *)
Definition ComputeAgentScheduleNextRun (kind spec : string) (now : Z) : Z :=
  if bool_decide (kind = ScheduleKindOneShot) then now
  else if bool_decide (kind = ScheduleKindCron) then
    match cron_next (trim_space spec) with None => now | Some next => next now end
  else zero_time.
(** [backfillScheduleNextRun]: every active row without a [next_run], one statement
    per row, up to the first that fails. *)
Fixpoint backfill_rows (now : Z) (l : list AgentSchedule) : op unit :=
  match l with
  | [] => mret tt
  | c :: rest =>
      let next := ComputeAgentScheduleNextRun (s_ScheduleKind c) (s_ScheduleSpec c) now in
      if IsZero next then backfill_rows now rest else
      _ ← exec (update_schedule (s_ID c) (λ s, bool_decide (s_NextRun s = "")) (with_next (format_RFC3339 next)));
      backfill_rows now rest
  end.
Definition backfillScheduleNextRun (now : Z) : op unit :=
  candidates ← query (λ d, List.filter (λ s, bool_decide (s_Status s = ScheduleStatusActive) && bool_decide (s_NextRun s = "") &&
    bool_decide (s_ScheduleKind s ∈ [ScheduleKindCron; ScheduleKindOneShot])) (map_to_list (schedules d)).*2);
  backfill_rows now candidates.

(** ** Fires *)

Definition nullableFireTime (t : Z) : string := formatFireTime t.
(** Adding a fire to its table: its key is new, its schedule exists, its status is of
    the vocabulary. *)
Definition insert_fire (known : bool) (f : ScheduleFire) (m : FireTable) : option FireTable :=
  if negb known then None
  else if negb (bool_decide (f_Status f ∈ fire_statuses)) then None
  else if negb (bool_decide (f_RetryBackoffStrategy f ∈ ["none"; "constant"; "linear"; "exponential"])) then None
  else match m !! f_ID f with Some _ => None | None => Some (<[f_ID f := f]> m) end.

(** The transaction of [CreateScheduleFire]: an existing fire or a schedule that moved
    on leaves everything as it is. *)
Definition create_schedule_fire (c : ScheduleFireCreation) (t : nat) (d : SDB) : option (bool * SDB) :=
  let fire := cr_Fire c in
  if bool_decide (is_Some (find_row (has_run (f_RunID fire)) (runs d))) then Some (false, d) else
  match update_schedule (cr_ScheduleID c)
          (λ s, bool_decide (s_Status s = ScheduleStatusActive) && negb (bool_decide (s_NextRun s = "")) &&
                bool_decide (s_NextRun s = formatFireTime (cr_ExpectedNext c)))
          (λ s, with_firing (nullableFireTime (cr_NextRun c)) (f_ScheduledAt fire) (s_FiredCount s + 1) s) t d with
  | None => None
  | Some (false, d) => Some (false, d)
  | Some (true, d) =>
      match insert_fire true (with_key (f_ID fire) (cr_ScheduleID c) fire) (runs d) with
      | None => None
      | Some m => Some (true, set_runs m d)
      end
  end.
Definition CreateScheduleFire (c : ScheduleFireCreation) : op bool :=
  if bool_decide (cr_ScheduleID c = "") || bool_decide (f_RunID (cr_Fire c) = "") then fail (EInvalid "schedule_id and fire id are required") else
  let fire := cr_Fire c in
  let id := if bool_decide (f_ID fire = "") then f_RunID fire else f_ID fire in
  exec (create_schedule_fire (mkCreation (cr_ScheduleID c) (cr_ExpectedNext c) (cr_NextRun c) (with_key id (f_ScheduleID fire) fire))).

(** [claim_expires_at IS NULL OR julianday(claim_expires_at) <= julianday(?)]. *)
Definition lease_over (f : ScheduleFire) (now : string) : bool :=
  match f_ClaimExpiresAt f with None => true | Some e => jd_le e now end.
(** When a fire is due: its next attempt, or the end of its owner's lease. *)
Definition fire_due (now : string) (f : ScheduleFire) : bool :=
  bool_decide (f_Status f ∈ [ScheduleFireStatusPending; ScheduleFireStatusRetrying]) &&
    jd_le (coalesce (f_NextAttemptAt f) (f_ScheduledAt f)) now
  || bool_decide (f_Status f = ScheduleFireStatusClaimed) &&
    lease_over f now.
(** [ORDER BY julianday(...), run_id], where NULL comes first. *)
Definition fire_before (a b : ScheduleFire) : Prop :=
  match julianday (coalesce (f_NextAttemptAt a) (f_ScheduledAt a)), julianday (coalesce (f_NextAttemptAt b) (f_ScheduledAt b)) with
  | Some x, Some y => x < y ∨ x = y ∧ String.leb (f_RunID a) (f_RunID b) = true
  | Some _, None => False
  | None, Some _ => True
  | None, None => String.leb (f_RunID a) (f_RunID b) = true
  end.
#[local] Instance fire_before_dec : RelDecision fire_before.
Proof. intros a b. unfold fire_before. repeat case_match; apply _. Defined.
Definition due_fires (now limit : Z) (m : FireTable) : list ScheduleFire :=
  take (limit_of limit) (merge_sort fire_before (List.filter (fire_due (formatFireTime now)) (map_to_list m).*2)).
Definition ListDueScheduleFires (now limit : Z) : op (list ScheduleFire) := query (λ d, due_fires now limit (runs d)).

(** The claim of an attempt, or of an attempt whose lease is over. *)
Definition recovering (c : ScheduleFireClaim) : bool := bool_decide (cl_ExpectedStatus c = ScheduleFireStatusClaimed).
Definition claimable (c : ScheduleFireClaim) (f : ScheduleFire) : bool :=
  has_run (cl_FireID c) f && bool_decide (f_Status f = cl_ExpectedStatus c) &&
  (f_AttemptCount f =? cl_ExpectedAttempt c) && bool_decide (f_FiredAt f = formatFireTime (cl_ExpectedFiredAt c)) &&
  (negb (recovering c) || lease_over f (formatFireTime (cl_ClaimedAt c))).
Definition claimed_fire (c : ScheduleFireClaim) (f : ScheduleFire) : ScheduleFire :=
  with_fire (formatFireTime (cl_ClaimedAt c)) (Some (formatFireTime (cl_ClaimExpiresAt c))) (f_DispatchAcceptedAt f) ScheduleFireStatusClaimed
    (if recovering c then cl_ExpectedAttempt c else wrap64 (cl_ExpectedAttempt c + 1)) (f_LastError f) "" f.
Definition claim_fire (c : ScheduleFireClaim) (m : FireTable) : option ScheduleFire * FireTable :=
  let '(n, m') := update_where (claimable c) (claimed_fire c) m in
  if n =? 0 then (None, m) else (find_row (has_run (cl_FireID c)) m', m').
Definition ClaimScheduleFire (c : ScheduleFireClaim) : op (option ScheduleFire) :=
  exec (λ _ d, let '(o, m) := claim_fire c (runs d) in Some (o, set_runs m d)).

(** A transition is fenced by the attempt and the time of its claim. *)
Definition owns (id : string) (from : string) (att claimedAt : Z) (f : ScheduleFire) : bool :=
  has_run id f && bool_decide (f_Status f = from) && (f_AttemptCount f =? att) &&
  bool_decide (f_FiredAt f = formatFireTime claimedAt).
Definition transitioned (t : ScheduleFireTransition) (f : ScheduleFire) : ScheduleFire :=
  with_fire (f_FiredAt f) None (f_DispatchAcceptedAt f) (tr_To t) (f_AttemptCount f)
    (nullIfEmpty (tr_LastError t)) (nullableFireTime (tr_NextAttemptAt t)) f.
Definition transition_fire (t : ScheduleFireTransition) (m : FireTable) : option (bool * FireTable) :=
  let '(n, m') := update_where (owns (tr_FireID t) (tr_From t) (tr_Attempt t) (tr_ClaimedAt t)) (transitioned t) m in
  if negb (n =? 0) && negb (bool_decide (tr_To t ∈ fire_statuses)) then None else Some (n =? 1, m').
Definition TransitionScheduleFire (t : ScheduleFireTransition) : op bool :=
  exec (λ _ d, match transition_fire t (runs d) with Some (b, m) => Some (b, set_runs m d) | None => None end).
Definition GetScheduleFire (id : string) : op ScheduleFire :=
  o ← query (λ d, find_row (has_run id) (runs d)); match o with Some f => mret f | None => fail EFireNotFound end.
Definition accepted_fire (at_ : string) (f : ScheduleFire) : ScheduleFire :=
  with_fire (f_FiredAt f) (f_ClaimExpiresAt f) (match f_DispatchAcceptedAt f with Some a => Some a | None => Some at_ end) (f_Status f) (f_AttemptCount f)
    (f_LastError f) (f_NextAttemptAt f) f.
Definition accept_fire (id : string) (att claimedAt acceptedAt : Z) (m : FireTable) : bool * FireTable :=
  let '(n, m') := update_where (owns id ScheduleFireStatusClaimed att claimedAt) (accepted_fire (formatFireTime acceptedAt)) m in
  (n =? 1, m').

(** ** Workflow activations *)

Definition WorkflowActivationSchedulePrefix : string := "workflow-activation:".
Definition WorkflowActivationScheduleID (id : string) : string := WorkflowActivationSchedulePrefix +:+ id.
Definition IsWorkflowActivationScheduleID (id : string) : bool := has_prefix id WorkflowActivationSchedulePrefix.

Definition schedule_activation (row : WorkflowActivationSchedule) (_ : nat) (d : SDB) : option (bool * SDB) :=
  let same p := bool_decide (a_ScheduleID p = a_ScheduleID row) && bool_decide (a_ActivationJSON p = a_ActivationJSON row) && bool_decide (a_FireAt p = a_FireAt row) in
  match find_row (λ a, bool_decide (a_ActivationID a = a_ActivationID row)) (activations d) with
  | Some p => Some (same p, d)
  | None => match activations d !! a_ScheduleID row with
            | Some _ => None
            | None => Some (true, set_activations (<[a_ScheduleID row := row]> (activations d)) d)
            end
  end.
Definition ScheduleWorkflowActivation (row : WorkflowActivationSchedule) : op unit :=
  if bool_decide (a_ScheduleID row = "") || bool_decide (a_ActivationID row = "") ||
     negb (bool_decide (a_ScheduleID row = WorkflowActivationScheduleID (a_ActivationID row))) then fail (EInvalid "invalid schedule or activation identity") else
  if bool_decide (a_FireAt row = "") || negb (bool_decide (a_NextRun row = a_FireAt row)) then fail (EInvalid "one-shot fire_at and next_run must match") else
  if negb (json_valid (a_ActivationJSON row)) then fail (EInvalid "activation payload is not valid JSON") else
  now ← (if bool_decide (a_CreatedAt row = "") then t ← Now; mret (format_Nano t) else mret (a_CreatedAt row));
  let row := mkActivation (a_ScheduleID row) (a_ActivationID row) (a_ActivationJSON row) (a_FireAt row) (a_NextRun row) "active" now now in
  same ← exec (schedule_activation row);
  if (same : bool) then mret tt else fail (EActivationConflict (a_ActivationID row)).
Definition GetWorkflowActivationSchedule (id : string) : op WorkflowActivationSchedule :=
  o ← query (λ d, activations d !! id); match o with Some a => mret a | None => fail EActivationScheduleNotFound end.
Definition activation_due (now : string) (a : WorkflowActivationSchedule) : bool :=
  bool_decide (a_Status a = "active") && negb (bool_decide (a_NextRun a = "")) && jd_le (a_NextRun a) now.
Definition activation_before (a b : WorkflowActivationSchedule) : Prop :=
  match julianday (a_NextRun a), julianday (a_NextRun b) with
  | Some x, Some y => x < y ∨ x = y ∧ String.leb (a_ScheduleID a) (a_ScheduleID b) = true
  | Some _, None => False
  | None, Some _ => True
  | None, None => String.leb (a_ScheduleID a) (a_ScheduleID b) = true
  end.
#[local] Instance activation_before_dec : RelDecision activation_before.
Proof. intros a b. unfold activation_before. repeat case_match; apply _. Defined.
Definition ListDueWorkflowActivationSchedules (now limit : Z) : op (list WorkflowActivationSchedule) :=
  query (λ d, take (limit_of limit) (merge_sort activation_before
    (List.filter (activation_due (formatFireTime now)) (map_to_list (activations d)).*2))).

(** Canceling closes the fires nobody owns; an owned one is left to its owner. *)
Definition closable (schedule : string) (f : ScheduleFire) : bool :=
  bool_decide (f_ScheduleID f = schedule) && bool_decide (f_Status f ∈ [ScheduleFireStatusPending; ScheduleFireStatusRetrying]).
Definition closed_fire (f : ScheduleFire) : ScheduleFire :=
  with_fire (f_FiredAt f) None (f_DispatchAcceptedAt f) ScheduleFireStatusSkipped (f_AttemptCount f)
    (coalesce (f_LastError f) "workflow activation canceled") "" f.
Definition cancel_activation (id at_ : string) (_ : nat) (d : SDB) : option (unit * SDB) :=
  let acts := (update_where (λ a, bool_decide (a_ActivationID a = id) && negb (bool_decide (a_Status a = "canceled")))
                 (with_activation "" "canceled" at_) (activations d)).2 in
  let fires := (update_where (closable (WorkflowActivationScheduleID id)) closed_fire (act_fires d)).2 in
  Some (tt, set_act_fires fires (set_activations acts d)).
Definition CancelWorkflowActivation (id : string) (at_ : Z) : op unit :=
  if bool_decide (trim_space id = "") then fail (EInvalid "activation id is required") else
  t ← (if IsZero at_ then Now else mret at_);
  exec (cancel_activation id (formatFireTime t)).
Definition disable_activation (id at_ : string) (_ : nat) (d : SDB) : option (bool * SDB) :=
  match activations d !! id with
  | None => Some (false, d)
  | Some a => Some (true, set_activations (<[id := with_activation (a_NextRun a)
                (if bool_decide (a_Status a = "active") then "materialized" else a_Status a) at_ a]> (activations d)) d)
  end.
Definition DisableWorkflowActivationSchedule (id : string) (at_ : Z) : op unit :=
  t ← (if IsZero at_ then Now else mret at_);
  n ← exec (disable_activation id (formatFireTime t));
  if (n : bool) then mret tt else fail EActivationScheduleNotFound.

Definition create_activation_fire (c : ScheduleFireCreation) (_ : nat) (d : SDB) : option (bool * SDB) :=
  let fire := cr_Fire c in
  if bool_decide (is_Some (act_fires d !! f_RunID fire)) then Some (false, d) else
  match activations d !! cr_ScheduleID c with
  | Some a =>
      if bool_decide (a_Status a = "active") && negb (bool_decide (a_NextRun a = "")) &&
         bool_decide (a_NextRun a = formatFireTime (cr_ExpectedNext c)) then
        let a' := with_activation (nullableFireTime (cr_NextRun c)) (a_Status a) (f_ScheduledAt fire) a in
        match insert_fire true (with_key (f_RunID fire) (cr_ScheduleID c) fire) (act_fires d) with
        | None => None
        | Some m => Some (true, set_act_fires m (set_activations (<[cr_ScheduleID c := a']> (activations d)) d))
        end
      else Some (false, d)
  | None => Some (false, d)
  end.
Definition CreateWorkflowActivationFire (c : ScheduleFireCreation) : op bool :=
  if bool_decide (cr_ScheduleID c = "") || bool_decide (f_RunID (cr_Fire c) = "") then fail (EInvalid "schedule and fire identity are required") else
  exec (create_activation_fire c).
Definition ListDueWorkflowActivationFires (now limit : Z) : op (list ScheduleFire) := query (λ d, due_fires now limit (act_fires d)).
Definition GetWorkflowActivationFire (id : string) : op ScheduleFire :=
  o ← query (λ d, act_fires d !! id); match o with Some f => mret f | None => fail EActivationFireNotFound end.
Definition ClaimWorkflowActivationFire (c : ScheduleFireClaim) : op (option ScheduleFire) :=
  exec (λ _ d, let '(o, m) := claim_fire c (act_fires d) in Some (o, set_act_fires m d)).
Definition TransitionWorkflowActivationFire (t : ScheduleFireTransition) : op bool :=
  exec (λ _ d, match transition_fire t (act_fires d) with Some (b, m) => Some (b, set_act_fires m d) | None => None end).
Definition IsWorkflowActivationDispatchAccepted (id : string) : op bool :=
  o ← query (λ d, act_fires d !! id);
  match o with Some f => mret (negb (bool_decide (f_DispatchAcceptedAt f = None))) | None => fail EActivationFireNotFound end.
Definition MarkWorkflowActivationDispatchAccepted (id : string) (att claimedAt acceptedAt : Z) : op bool :=
  exec (λ _ d, let '(b, m) := accept_fire id att claimedAt acceptedAt (act_fires d) in Some (b, set_act_fires m d)).

Definition IsScheduleFireDispatchAccepted (id : string) : op bool :=
  o ← query (λ d, find_row (has_run id) (runs d));
  match o with
  | Some f => mret (negb (bool_decide (f_DispatchAcceptedAt f = None)))
  | None => IsWorkflowActivationDispatchAccepted id
  end.
Definition MarkScheduleFireDispatchAccepted (id : string) (att claimedAt acceptedAt : Z) : op bool :=
  r ← attempt (GetWorkflowActivationFire id);
  match r with
  | Ok _ => MarkWorkflowActivationDispatchAccepted id att claimedAt acceptedAt
  | Err EActivationFireNotFound =>
      exec (λ _ d, let '(b, m) := accept_fire id att claimedAt acceptedAt (runs d) in Some (b, set_runs m d))
  | Err e => fail e
  end.

(** ** The operator's service *)

Definition with_id (id : string) (s : AgentSchedule) : AgentSchedule :=
  mkSchedule id (s_AgentID s) (s_SessionID s) (s_Name s) (s_ScheduleKind s) (s_ScheduleSpec s) (s_Body s)
    (s_Priority s) (s_Status s) (s_ExpiresAt s) (s_FiredCount s) (s_LastFiredAt s) (s_CreatedAt s) (s_CreatedBy s)
    (s_MaxRetries s) (s_OnFail s) (s_NextRun s) (s_JobType s) (s_JobPayload s).
(** The first [next_run] of a row, kept as it is when there is none. *)
Definition with_first_run (now : Z) (s : AgentSchedule) : AgentSchedule :=
  let next := ComputeAgentScheduleNextRun (s_ScheduleKind s) (s_ScheduleSpec s) now in
  if IsZero next then s else with_next (format_RFC3339 next) s.
Definition to_internal {A} (m : op A) : op A := wrap EInternal m.
Definition Schedule_Create (row : AgentSchedule) : op AgentSchedule :=
  id ← ulid;
  let row := with_id ("sched-" +:+ id) row in
  _ ← wrap EWrite (lift (ValidateAgentSchedule row));
  now ← Now;
  let row := with_first_run now row in
  _ ← to_internal (InsertAgentSchedule row);
  GetAgentSchedule (s_ID row).

Record SchedulePatch := mkPatch {
  p_Name : option string;
  p_SessionID : option string;
  p_ScheduleSpec : option string;
  p_Body : option string;
  p_Priority : option Z;
  p_Status : option string;
  p_ExpiresAt : option string;
  p_MaxRetries : option Z;
  p_OnFail : option string;
  p_JobPayload : option string;
}.
Definition patched (p : SchedulePatch) (s : AgentSchedule) : AgentSchedule :=
  mkSchedule (s_ID s) (s_AgentID s) (default (s_SessionID s) (p_SessionID p)) (default (s_Name s) (p_Name p))
    (s_ScheduleKind s) (default (s_ScheduleSpec s) (p_ScheduleSpec p)) (default (s_Body s) (p_Body p))
    (default (s_Priority s) (p_Priority p)) (default (s_Status s) (p_Status p)) (default (s_ExpiresAt s) (p_ExpiresAt p))
    (s_FiredCount s) (s_LastFiredAt s) (s_CreatedAt s) (s_CreatedBy s) (default (s_MaxRetries s) (p_MaxRetries p))
    (default (s_OnFail s) (p_OnFail p)) (s_NextRun s) (s_JobType s) (default (s_JobPayload s) (p_JobPayload p)).
(** The new first run is computed for a changed specification and on activation. *)
Definition recomputes (p : SchedulePatch) (s : AgentSchedule) : bool :=
  bool_decide (is_Some (p_ScheduleSpec p)) ||
  bool_decide (p_Status p = Some ScheduleStatusActive) && negb (bool_decide (s_Status s = ScheduleStatusActive)).
(** [Patch] reads the row and writes it back in two steps. *)
Definition patch_row (id : string) (p : SchedulePatch) (current : AgentSchedule) : op AgentSchedule :=
  if bool_decide (p_Status p = Some "") then fail (EWrite (EInvalid "status must not be empty")) else
  if bool_decide (p_OnFail p = Some "") then fail (EWrite (EInvalid "on_fail must not be empty")) else
  let updated := patched p current in
  _ ← wrap EWrite (lift (ValidateAgentSchedule updated));
  updated ← (if recomputes p current then now ← Now; mret (with_first_run now updated) else mret updated);
  _ ← to_internal (InsertAgentSchedule updated);
  GetAgentSchedule id.
Definition Patch (id : string) (p : SchedulePatch) : op AgentSchedule := current ← GetAgentSchedule id; patch_row id p current.
Definition Schedule_List (agentID : string) : op (list AgentSchedule) :=
  if bool_decide (agentID = "") then ListAllAgentSchedules else ListAgentSchedules agentID.
Definition InsertPrepared (row : AgentSchedule) : op unit := InsertAgentSchedule row.
End Store.

(** ** Tables *)

Lemma update_where_lookup {A} (P : A → bool) (f : A → A) (m : gmap string A) i :
  (update_where P f m).2 !! i = (λ r, if P r then f r else r) <$> m !! i.
Proof. apply lookup_fmap. Qed.
Lemma update_where_zero {A} (P : A → bool) (f : A → A) (m : gmap string A) :
  (update_where P f m).1 = 0 ↔ ∀ i r, m !! i = Some r → P r = false.
Proof.
  cbn. split.
  - intros H i r Hi. destruct (P r) eqn:HP; [|done].
    assert (filter (λ kv : string * A, P kv.2 = true) m = ∅) as He by (apply map_size_empty_iff; lia).
    pose proof (lookup_empty (M := gmap string) (A := A) i) as Hn. rewrite <- He in Hn.
    assert (filter (λ kv : string * A, P kv.2 = true) m !! i = Some r) by (by apply map_lookup_filter_Some). congruence.
  - intros H. assert (filter (λ kv : string * A, P kv.2 = true) m = ∅) as ->; [|by rewrite map_size_empty].
    apply map_eq. intros i. rewrite lookup_empty. apply map_lookup_filter_None_2. right. intros r Hi HP. cbn in HP. by rewrite (H i r Hi) in HP.
Qed.
(** When one row at most can satisfy the condition, a hit counts one. *)
Lemma update_where_one {A} (P : A → bool) (f : A → A) (m : gmap string A) i r :
  m !! i = Some r → P r = true → (∀ j s, m !! j = Some s → P s = true → j = i) → (update_where P f m).1 = 1.
Proof.
  intros Hi HP Hu. cbn. assert (filter (λ kv : string * A, P kv.2 = true) m = {[i := r]}) as ->; [|by rewrite map_size_singleton].
  apply map_eq. intros j. apply option_eq. intros s. rewrite map_lookup_filter_Some, lookup_singleton_Some. cbn. split.
  - intros [Hj Hs]. pose proof (Hu j s Hj Hs) as ->. split; [done|congruence].
  - intros [<- <-]. done.
Qed.
Lemma row_found {A} (P : A → bool) (m : gmap string A) r :
  find_row P m = Some r → ∃ i, m !! i = Some r ∧ P r = true.
Proof.
  unfold find_row. intros H. apply fmap_Some in H as ([n [i s]]&H&->). apply list_find_Some in H as (Hn&HP&_).
  exists i. split; [|done]. by apply elem_of_map_to_list, list_elem_of_lookup_2 with n.
Qed.
Lemma row_absent {A} (P : A → bool) (m : gmap string A) :
  find_row P m = None ↔ ∀ i r, m !! i = Some r → P r = false.
Proof.
  unfold find_row. rewrite fmap_None, list_find_None, Forall_forall. split.
  - intros H i r Hi. specialize (H (i, r)). rewrite elem_of_map_to_list in H. specialize (H Hi). cbn in H. by destruct (P r).
  - intros H [i r] Hi%elem_of_map_to_list. cbn. by rewrite (H i r Hi).
Qed.
Lemma find_row_unique {A} (P : A → bool) (m : gmap string A) i r :
  m !! i = Some r → P r = true → (∀ j s, m !! j = Some s → P s = true → j = i) → find_row P m = Some r.
Proof.
  intros Hi HP Hu. destruct (find_row P m) as [s|] eqn:Hf.
  - apply row_found in Hf as (j&Hj&Hs). pose proof (Hu j s Hj Hs) as ->. congruence.
  - rewrite row_absent in Hf. by rewrite (Hf i r Hi) in HP.
Qed.

(** ** How fires change *)

(** What is set when a fire is made is kept, and so is the receipt of its dispatch. *)
Definition identity (f : ScheduleFire) : string * string * string * string * Z * string * Z * Z * string * string :=
  (f_ID f, f_ScheduleID f, f_RunID f, f_ScheduledAt f, f_RetryMaxAttempts f, f_RetryBackoffStrategy f,
   f_RetryInitialDelayNanos f, f_RetryMaximumDelayNanos f, f_JobType f, f_JobPayload f).
Definition evolves (f f' : ScheduleFire) : Prop :=
  identity f' = identity f ∧ (f_DispatchAcceptedAt f ≠ None → f_DispatchAcceptedAt f' = f_DispatchAcceptedAt f).
Definition grows (m m' : FireTable) : Prop := ∀ i f, m !! i = Some f → ∃ f', m' !! i = Some f' ∧ evolves f f'.
#[export] Instance evolves_preorder : PreOrder evolves.
Proof.
  split; [by intros f|]. intros f g h [H1 H2] [H3 H4]. split; [congruence|]. intros Hf.
  rewrite (H4 ltac:(by rewrite H2)). auto.
Qed.
#[export] Instance grows_preorder : PreOrder grows.
Proof.
  split; [intros m i f Hf; by exists f|]. intros m n o Hmn Hno i f Hf.
  destruct (Hmn i f Hf) as (g&Hg&Hfg). destruct (Hno i g Hg) as (h&Hh&Hgh). exists h. split; [done|by transitivity g].
Qed.
Lemma evolves_with_fire f fired expires accepted status attempts err next :
  (f_DispatchAcceptedAt f ≠ None → accepted = f_DispatchAcceptedAt f) → evolves f (with_fire fired expires accepted status attempts err next f).
Proof. by split. Qed.
Lemma grows_update (P : ScheduleFire → bool) g m : (∀ f, P f = true → evolves f (g f)) → grows m (update_where P g m).2.
Proof.
  intros Hg i f Hf. rewrite update_where_lookup, Hf. cbn. eexists. split; [done|]. destruct (P f) eqn:HP; [by apply Hg|done].
Qed.
Lemma grows_insert i f (m : FireTable) : m !! i = None → grows m (<[i := f]> m).
Proof. intros Hi j g Hj. exists g. split; [|done]. rewrite lookup_insert_ne; [done|]. congruence. Qed.

(** ** Calls of the store, in any order *)

(** [act] tells the fires of workflow activations from those of schedules. *)
Inductive StoreCall :=
| KInsert (row : AgentSchedule)
| KInsertMissing (row : AgentSchedule)
| KDelete (id : string)
| KStatus (id status : string)
| KBump (id : string) (now : Z)
| KBackfill (now : Z)
| KCreate (c : ScheduleFireCreation)
| KClaim (act : bool) (c : ScheduleFireClaim)
| KTransition (act : bool) (t : ScheduleFireTransition)
| KMark (id : string) (att claimedAt acceptedAt : Z)
| KActivate (row : WorkflowActivationSchedule)
| KCancel (id : string) (at_ : Z)
| KDisable (id : string) (at_ : Z)
| KRead.

Section Calls.
Context (cron_next : string → option (Z → Z)) (json_valid : string → bool) (julianday : string → option Z) (E : Env).

Definition fires_of (a : bool) (d : SDB) : FireTable := if a then act_fires d else runs d.
Definition set_fires (a : bool) (m : FireTable) (d : SDB) : SDB := if a then set_act_fires m d else set_runs m d.
Definition create_fire (c : ScheduleFireCreation) : act SW SErr bool :=
  if IsWorkflowActivationScheduleID (cr_ScheduleID c) then CreateWorkflowActivationFire E c else CreateScheduleFire E c.
Definition claim_in (a : bool) (c : ScheduleFireClaim) : act SW SErr (option ScheduleFire) :=
  if a then ClaimWorkflowActivationFire julianday E c else ClaimScheduleFire julianday E c.
Definition transition_in (a : bool) (t : ScheduleFireTransition) : act SW SErr bool :=
  if a then TransitionWorkflowActivationFire E t else TransitionScheduleFire E t.
Definition do_call (k : StoreCall) (w : SW) : SW :=
  match k with
  | KInsert row => (InsertAgentSchedule cron_next json_valid E row w).2
  | KInsertMissing row => (InsertAgentScheduleIfNameMissing cron_next json_valid E row w).2
  | KDelete id => (DeleteAgentSchedule E id w).2
  | KStatus id status => (UpdateAgentScheduleStatus E id status w).2
  | KBump id now => (BumpAgentScheduleFireCount E id now w).2
  | KBackfill now => (backfillScheduleNextRun cron_next E now w).2
  | KCreate c => (create_fire c w).2
  | KClaim a c => (claim_in a c w).2
  | KTransition a t => (transition_in a t w).2
  | KMark id att claimedAt acceptedAt => (MarkScheduleFireDispatchAccepted E id att claimedAt acceptedAt w).2
  | KActivate row => (ScheduleWorkflowActivation json_valid E row w).2
  | KCancel id at_ => (CancelWorkflowActivation E id at_ w).2
  | KDisable id at_ => (DisableWorkflowActivationSchedule E id at_ w).2
  | KRead => up w
  end.
Definition do_calls (ks : list StoreCall) (w : SW) : SW := foldl (λ w k, do_call k w) w ks.

(** What a call may do to the database: each case is the effect of one statement or
    transaction. *)
Inductive effect (d : SDB) : StoreCall → SDB → Prop :=
| eff_none k : effect d k d
| eff_insert t row row' :
    prepareAgentSchedule cron_next json_valid row = Ok row' →
    effect d (KInsert row) (set_schedules (<[s_ID row' := inserted (sql_now E t) row']> (schedules d)) d)
| eff_insert_missing t row row' :
    prepareAgentSchedule cron_next json_valid row = Ok row' → schedules d !! s_ID row' = None →
    effect d (KInsertMissing row) (set_schedules (<[s_ID row' := inserted (sql_now E t) row']> (schedules d)) d)
| eff_delete id :
    find_row (λ r, bool_decide (f_ScheduleID r = id)) (runs d) = None →
    effect d (KDelete id) (set_schedules (delete id (schedules d)) d)
| eff_status id status s :
    schedules d !! id = Some s → effect d (KStatus id status) (set_schedules (<[id := with_status status s]> (schedules d)) d)
| eff_bump id now s :
    schedules d !! id = Some s →
    effect d (KBump id now) (set_schedules (<[id := with_firing (s_NextRun s) (format_RFC3339 now) (s_FiredCount s + 1) s]> (schedules d)) d)
| eff_backfill now id s kind spec next :
    schedules d !! id = Some s → s_NextRun s = "" → next = ComputeAgentScheduleNextRun cron_next kind spec now → IsZero next = false →
    effect d (KBackfill now) (set_schedules (<[id := with_next (format_RFC3339 next) s]> (schedules d)) d)
| eff_create c s f m :
    IsWorkflowActivationScheduleID (cr_ScheduleID c) = false →
    f_RunID f = f_RunID (cr_Fire c) → f_ScheduleID f = cr_ScheduleID c → f_DispatchAcceptedAt f = None →
    find_row (has_run (f_RunID f)) (runs d) = None →
    schedules d !! cr_ScheduleID c = Some s → s_Status s = ScheduleStatusActive → s_NextRun s ≠ "" →
    s_NextRun s = formatFireTime (cr_ExpectedNext c) →
    insert_fire true f (runs d) = Some m →
    effect d (KCreate c) (set_runs m (set_schedules (<[cr_ScheduleID c :=
      with_firing (nullableFireTime (cr_NextRun c)) (f_ScheduledAt f) (s_FiredCount s + 1) s]> (schedules d)) d))
| eff_create_activation c a f m :
    IsWorkflowActivationScheduleID (cr_ScheduleID c) = true →
    f_ID f = f_RunID f → f_RunID f = f_RunID (cr_Fire c) → f_ScheduleID f = cr_ScheduleID c → f_DispatchAcceptedAt f = None →
    activations d !! cr_ScheduleID c = Some a → a_Status a = "active" → a_NextRun a = formatFireTime (cr_ExpectedNext c) →
    insert_fire true f (act_fires d) = Some m →
    effect d (KCreate c) (set_act_fires m (set_activations (<[cr_ScheduleID c :=
      with_activation (nullableFireTime (cr_NextRun c)) (a_Status a) (f_ScheduledAt f) a]> (activations d)) d))
| eff_claim a c :
    effect d (KClaim a c) (set_fires a (update_where (claimable julianday c) (claimed_fire c) (fires_of a d)).2 d)
| eff_transition a t :
    tr_To t ∈ fire_statuses →
    effect d (KTransition a t) (set_fires a (update_where (owns (tr_FireID t) (tr_From t) (tr_Attempt t) (tr_ClaimedAt t)) (transitioned t) (fires_of a d)).2 d)
| eff_mark a id att claimedAt acceptedAt :
    effect d (KMark id att claimedAt acceptedAt)
      (set_fires a (update_where (owns id ScheduleFireStatusClaimed att claimedAt) (accepted_fire (formatFireTime acceptedAt)) (fires_of a d)).2 d)
| eff_activate row now :
    a_ScheduleID row = WorkflowActivationScheduleID (a_ActivationID row) →
    activations d !! a_ScheduleID row = None →
    find_row (λ a, bool_decide (a_ActivationID a = a_ActivationID row)) (activations d) = None →
    effect d (KActivate row) (set_activations (<[a_ScheduleID row :=
      mkActivation (a_ScheduleID row) (a_ActivationID row) (a_ActivationJSON row) (a_FireAt row) (a_NextRun row) "active" now now]> (activations d)) d)
| eff_cancel id at_ t :
    effect d (KCancel id at_)
      (set_act_fires (update_where (closable (WorkflowActivationScheduleID id)) closed_fire (act_fires d)).2
        (set_activations (update_where (λ a, bool_decide (a_ActivationID a = id) && negb (bool_decide (a_Status a = "canceled")))
           (with_activation "" "canceled" t) (activations d)).2 d))
| eff_disable id at_ t a :
    activations d !! id = Some a →
    effect d (KDisable id at_) (set_activations (<[id := with_activation (a_NextRun a)
      (if bool_decide (a_Status a = "active") then "materialized" else a_Status a) t a]> (activations d)) d).

Lemma exec_effect {A} k (f : nat → SDB → option (A * SDB)) w :
  (∀ t a d', f t (db w) = Some (a, d') → effect (db w) k d') → effect (db w) k (db (exec E f w).2).
Proof.
  intros H. unfold exec. destruct (stmt_fails E (tick w)); [constructor|].
  destruct (f (tick w) (db w)) as [[a d']|] eqn:Hf; [by eapply H|constructor].
Qed.
(** What follows a call without further effect does not matter. *)
Lemma bind_effect {A B} k (m : act SW SErr A) (g : A → act SW SErr B) w :
  effect (db w) k (db (m w).2) → (∀ a w', db (g a w').2 = db w') → effect (db w) k (db ((m ≫= g) w).2).
Proof.
  intros Hm Hg. unfold mbind, act_bind. destruct (m w) as [[a|e] w']; cbn in *; [by rewrite Hg|done].
Qed.
(** What comes before it and has no effect does not matter either. *)
Lemma skip_effect {A B} k (m : act SW SErr A) (g : A → act SW SErr B) w :
  (∀ w, db (m w).2 = db w) → (∀ a w', m w = (Ok a, w') → db w' = db w → effect (db w') k (db (g a w').2)) → effect (db w) k (db ((m ≫= g) w).2).
Proof.
  intros Hm Hg. unfold mbind, act_bind. specialize (Hm w). destruct (m w) as [[a|e] w'] eqn:Hw; cbn in *.
  - pose proof (Hg a w' eq_refl Hm) as He. by rewrite Hm in He.
  - rewrite Hm. constructor.
Qed.
Lemma query_keeps_db {A} (f : SDB → A) w : db (query E f w).2 = db w.
Proof. unfold query, exec. by destruct (stmt_fails E (tick w)). Qed.

Lemma update_schedule_effect id cond f t d b d' : update_schedule E id cond f t d = Some (b, d') →
  d' = d ∧ b = false ∨ b = true ∧ ∃ s, schedules d !! id = Some s ∧ cond s = true ∧ d' = set_schedules (<[id := f s]> (schedules d)) d.
Proof.
  unfold update_schedule. destruct (schedules d !! id) as [s|] eqn:Hs; [|intros [= <- <-]; by left].
  destruct (cond s) eqn:Hc; [|intros [= <- <-]; by left]. destruct (bound _ _ _); [|done].
  intros [= <- <-]. right. split; [done|]. by exists s.
Qed.
Lemma create_schedule_effect c w : IsWorkflowActivationScheduleID (cr_ScheduleID c) = false →
  effect (db w) (KCreate c) (db (CreateScheduleFire E c w).2).
Proof.
  intros Hid. unfold CreateScheduleFire. destruct (_ || _); [constructor|]. apply exec_effect. intros t b d' H.
  unfold create_schedule_fire in H. cbn [cr_Fire cr_ScheduleID cr_ExpectedNext cr_NextRun f_RunID f_ScheduledAt with_key] in H.
  case_bool_decide as Hrun; [injection H as <- <-; constructor|].
  destruct (update_schedule _ _ _ _ _ _) as [[[] d1]|] eqn:Hu; [| |done].
  - apply update_schedule_effect in Hu as [[_ ?]|(_&s&Hs&Hc&->)]; [done|]. b2p.
    destruct (insert_fire _ _ _) as [m|] eqn:Hi; [|done]. injection H as <- <-.
    cbn [runs set_schedules] in Hi. match type of Hi with insert_fire _ ?f _ = _ => apply (eff_create _ c s f m) end; try done.
    cbn. by apply eq_None_not_Some.
  - apply update_schedule_effect in Hu as [[-> _]|[? _]]; [|done]. injection H as <- <-. constructor.
Qed.
Lemma create_activation_effect c w : IsWorkflowActivationScheduleID (cr_ScheduleID c) = true →
  effect (db w) (KCreate c) (db (CreateWorkflowActivationFire E c w).2).
Proof.
  intros Hid. unfold CreateWorkflowActivationFire. destruct (_ || _); [constructor|]. apply exec_effect. intros t b d' H.
  unfold create_activation_fire in H. case_bool_decide; [injection H as <- <-; constructor|].
  destruct (activations (db w) !! cr_ScheduleID c) as [a|] eqn:Ha; [|injection H as <- <-; constructor].
  destruct (_ && _) eqn:Hc; [|injection H as <- <-; constructor]. b2p.
  destruct (insert_fire _ _ _) as [m|] eqn:Hi; [|done]. injection H as <- <-.
  match type of Hi with insert_fire _ ?f _ = _ => by apply (eff_create_activation _ c a f m) end.
Qed.
Lemma backfill_effects now l w : rtc (λ d d', effect d (KBackfill now) d') (db w) (db (backfill_rows cron_next E now l w).2).
Proof.
  revert w. induction l as [|c l IH]; intros w; [apply rtc_refl|]. cbn [backfill_rows].
  destruct (IsZero _) eqn:Hz; [apply IH|]. unfold mbind, act_bind.
  match goal with |- context [exec E ?f w] => assert (effect (db w) (KBackfill now) (db (exec E f w).2)) as He end.
  { apply exec_effect. intros t a d' [[-> _]|(_&s&Hs&Hc&->)]%update_schedule_effect; [constructor|]. b2p. by eapply eff_backfill. }
  destruct (exec E _ w) as [[b|e] w'] eqn:Hx; (eapply rtc_l; [exact He|]); [apply IH|apply rtc_refl].
Qed.
Lemma update_status_effect id status w : effect (db w) (KStatus id status) (db (UpdateAgentScheduleStatus E id status w).2).
Proof.
  unfold UpdateAgentScheduleStatus. destruct (negb _); [constructor|]. apply bind_effect; [|by intros []].
  apply exec_effect. intros t a d' [[-> _]|(_&s&Hs&Hc&->)]%update_schedule_effect; [constructor|by constructor].
Qed.
Lemma mark_effect id att claimedAt acceptedAt w :
  effect (db w) (KMark id att claimedAt acceptedAt) (db (MarkScheduleFireDispatchAccepted E id att claimedAt acceptedAt w).2).
Proof.
  unfold MarkScheduleFireDispatchAccepted. apply skip_effect.
  { intros v. rewrite (f_equal db (f_equal snd (attempt_Ok _ v))). unfold GetWorkflowActivationFire, mbind, act_bind.
    pose proof (query_keeps_db (λ d, act_fires d !! id) v) as Hq. destruct (query _ _ _) as [[[f|]|e] v']; done. }
  intros [f|e] w' _ _.
  - apply exec_effect. intros t b d' H. unfold accept_fire in H. injection H as <- <-. apply (eff_mark _ true).
  - destruct e; try constructor. apply exec_effect. intros t b d' H. unfold accept_fire in H. injection H as <- <-. apply (eff_mark _ false).
Qed.
Lemma claim_effect a c w : effect (db w) (KClaim a c) (db (claim_in a c w).2).
Proof.
  unfold claim_in. destruct a; apply exec_effect; intros t b d' H; unfold claim_fire in H;
    destruct (update_where _ _ _) as [n m'] eqn:Hu; destruct (n =? 0); injection H as <- <-.
  - destruct (db w); constructor.
  - replace m' with (update_where (claimable julianday c) (claimed_fire c) (act_fires (db w))).2 by (by rewrite Hu). apply (eff_claim _ true).
  - destruct (db w); constructor.
  - replace m' with (update_where (claimable julianday c) (claimed_fire c) (runs (db w))).2 by (by rewrite Hu). apply (eff_claim _ false).
Qed.
Lemma transition_effect a t w : effect (db w) (KTransition a t) (db (transition_in a t w).2).
Proof.
  assert (∀ m b m', transition_fire t m = Some (b, m') → tr_To t ∈ fire_statuses ∨ m' = m) as Hto.
  { intros m b m' H. unfold transition_fire in H. destruct (update_where _ _ m) as [n k] eqn:Hu.
    destruct (Z.eqb_spec n 0) as [->|]; cbn in H.
    - right. injection H as _ <-. pose proof (f_equal fst Hu) as Hz. cbn [fst] in Hz. rewrite update_where_zero in Hz.
      replace k with (update_where (owns (tr_FireID t) (tr_From t) (tr_Attempt t) (tr_ClaimedAt t)) (transitioned t) m).2 by (by rewrite Hu).
      apply map_eq. intros i. rewrite update_where_lookup. destruct (m !! i) as [f|] eqn:Hi; cbn; [|done]. by rewrite (Hz i f Hi).
    - case_bool_decide; [by left|done]. }
  assert (∀ m b m', transition_fire t m = Some (b, m') → m' = (update_where (owns (tr_FireID t) (tr_From t) (tr_Attempt t) (tr_ClaimedAt t)) (transitioned t) m).2) as Heq.
  { intros m b m' H. unfold transition_fire in H. destruct (update_where _ _ m) as [n k]. destruct (_ && _); [done|]. by injection H as _ <-. }
  unfold transition_in. destruct a; apply exec_effect; intros n b d' H;
    (destruct (transition_fire _ _) as [[x m]|] eqn:Ht; [|done]); injection H as <- <-;
    destruct (Hto _ _ _ Ht) as [Hs| ->]; try (destruct (db w); constructor); rewrite (Heq _ _ _ Ht).
  - by apply (eff_transition _ true).
  - by apply (eff_transition _ false).
Qed.

Lemma call_effects k w : rtc (λ d d', effect d k d') (db w) (db (do_call k w)).
Proof.
  destruct k; cbn [do_call]; lazymatch goal with |- context [backfillScheduleNextRun] => idtac | _ => apply rtc_once end.
  - unfold InsertAgentSchedule. apply skip_effect; [done|]. intros row' w' H _.
    injection H as Hp <-. apply exec_effect. intros t b d' H. unfold replace_schedule in H.
    destruct (bound _ _ _); [|done]. injection H as <- <-. by eapply eff_insert.
  - unfold InsertAgentScheduleIfNameMissing. apply skip_effect; [done|]. intros row' w' H _.
    injection H as Hp <-. apply exec_effect. intros t b d' H. unfold insert_missing in H.
    case_bool_decide; [injection H as <- <-; constructor|]. destruct (negb _); [done|].
    destruct (schedules (db w) !! s_ID row') eqn:Hs; injection H as <- <-; [constructor|]. by eapply eff_insert_missing.
  - unfold DeleteAgentSchedule. apply bind_effect; [|by intros []]. apply exec_effect. intros t b d' H. unfold delete_schedule in H.
    destruct (schedules (db w) !! id); [|injection H as <- <-; constructor]. case_bool_decide as Hf; [done|].
    injection H as <- <-. apply eff_delete. by apply eq_None_not_Some.
  - apply update_status_effect.
  - unfold BumpAgentScheduleFireCount. apply bind_effect; [|by intros []]. apply exec_effect.
    intros t a d' [[-> _]|(_&s&Hs&Hc&->)]%update_schedule_effect; [constructor|by constructor].
  - unfold backfillScheduleNextRun, mbind, act_bind.
    match goal with |- context [query E ?f w] => pose proof (query_keeps_db f w) as Hq; destruct (query E f w) as [[l|e] w'] end; cbn in Hq; rewrite <- Hq.
    + apply backfill_effects.
    + apply rtc_refl.
  - unfold create_fire. destruct (IsWorkflowActivationScheduleID _) eqn:Hid; [by apply create_activation_effect|by apply create_schedule_effect].
  - apply claim_effect.
  - apply transition_effect.
  - apply mark_effect.
  - unfold ScheduleWorkflowActivation. do 3 (case_if; [constructor|]).
    apply skip_effect; [by intros v; destruct (bool_decide (a_CreatedAt row = _))|].
    intros now w' _ _. apply bind_effect; [|by intros []]. apply exec_effect. intros t b d' H. unfold schedule_activation in H.
    cbn [a_ActivationID a_ScheduleID] in H. destruct (find_row _ _) eqn:Hf; [injection H as <- <-; constructor|].
    destruct (activations (db w') !! a_ScheduleID row) eqn:Hs; [done|]. injection H as <- <-. apply eff_activate; try done. by b2p.
  - unfold CancelWorkflowActivation. case_bool_decide as Hid; [constructor|]. apply skip_effect; [by intros v; destruct (IsZero at_)|].
    intros t w' _ _. apply exec_effect. intros n b d' H. unfold cancel_activation in H. injection H as <- <-. apply eff_cancel.
  - unfold DisableWorkflowActivationSchedule. apply skip_effect; [by intros v; destruct (IsZero at_)|].
    intros t w' _ _. apply bind_effect; [|by intros []]. apply exec_effect. intros n b d' H. unfold disable_activation in H.
    destruct (activations (db w') !! id) as [a|] eqn:Ha; injection H as <- <-; [by apply eff_disable|constructor].
  - constructor.
Qed.
(** A relation between databases that every effect respects holds along any calls. *)
Lemma do_calls_preorder (R : relation SDB) `{!PreOrder R} (ok : StoreCall → Prop) (P : SDB → Prop) :
  (∀ d k d', ok k → P d → effect d k d' → P d' ∧ R d d') →
  ∀ ks w, Forall ok ks → P (db w) → P (db (do_calls ks w)) ∧ R (db w) (db (do_calls ks w)).
Proof.
  intros Hstep ks. induction ks as [|k ks IH]; intros w Hok HP; [by split|]. apply Forall_cons in Hok as [Hk Hks]. cbn.
  assert (P (db (do_call k w)) ∧ R (db w) (db (do_call k w))) as [HP' HR].
  { pose proof (call_effects k w) as He. revert HP. induction He as [d|d d' d'' Hd _ IHe]; intros HP; [by split|].
    destruct (Hstep _ _ _ Hk HP Hd) as [HP' HR]. destruct (IHe HP') as [HP'' HR']. split; [done|by transitivity d']. }
  destruct (IH _ Hks HP') as [HP'' HR']. split; [done|by transitivity (db (do_call k w))].
Qed.
Lemma do_calls_invariant (ok : StoreCall → Prop) (P : SDB → Prop) :
  (∀ d k d', ok k → P d → effect d k d' → P d') → ∀ ks w, Forall ok ks → P (db w) → P (db (do_calls ks w)).
Proof.
  intros Hstep ks w Hok HP. assert (PreOrder (λ _ _ : SDB, True)) by (by split).
  apply (do_calls_preorder (λ _ _, True) ok P); [|done|done]. intros d k d' Hk Hd He. split; [by eapply Hstep|done].
Qed.
End Calls.

(** ** The tables stay sound *)

Section Sound.
(** The schedule a fire is of, by its identity: how the library names fires. *)
Context (sched_of : string → string).

Record table_ok (a : bool) (known : string → Prop) (m : FireTable) : Prop := {
  ok_key i f : m !! i = Some f → f_ID f = i ∧ (a = true → f_RunID f = i);
  ok_kind i f : m !! i = Some f → IsWorkflowActivationScheduleID (f_ScheduleID f) = a ∧ sched_of (f_RunID f) = f_ScheduleID f;
  ok_status i f : m !! i = Some f → f_Status f ∈ fire_statuses;
  ok_known i f : m !! i = Some f → known (f_ScheduleID f);
  ok_unique i j f g : m !! i = Some f → m !! j = Some g → f_RunID f = f_RunID g → i = j;
}.
Record sound (d : SDB) : Prop := {
  sound_runs : table_ok false (λ id, is_Some (schedules d !! id)) (runs d);
  sound_acts : table_ok true (λ id, is_Some (activations d !! id)) (act_fires d);
  sound_schedules i s : schedules d !! i = Some s → s_ID s = i;
}.
Definition call_ok (k : StoreCall) : Prop :=
  match k with KCreate c => sched_of (f_RunID (cr_Fire c)) = cr_ScheduleID c | _ => True end.

Lemma table_ok_known a (K K' : string → Prop) m : (∀ id, K id → K' id) → table_ok a K m → table_ok a K' m.
Proof. intros HK []. by split; eauto. Qed.
Lemma table_ok_update a K m P g : (∀ f, identity (g f) = identity f) → (∀ f, f_Status f ∈ fire_statuses → f_Status (g f) ∈ fire_statuses) →
  table_ok a K m → table_ok a K (update_where P g m).2.
Proof.
  intros Hid Hst [].
  assert (∀ i f, (update_where P g m).2 !! i = Some f → ∃ f0, m !! i = Some f0 ∧ identity f = identity f0 ∧ (f_Status f0 ∈ fire_statuses → f_Status f ∈ fire_statuses)) as Hb.
  { intros i f. rewrite update_where_lookup. intros (f0&Hf0&->)%fmap_Some. exists f0. split; [done|]. destruct (P f0); auto. }
  assert (∀ f f0, identity f = identity f0 → f_ID f = f_ID f0 ∧ f_ScheduleID f = f_ScheduleID f0 ∧ f_RunID f = f_RunID f0) as Hinj.
  { unfold identity. intros f f0 H. by injection H. }
  split.
  - intros i f (f0&Hf0&(->&_&->)%Hinj&_)%Hb. eauto.
  - intros i f (f0&Hf0&(_&->&->)%Hinj&_)%Hb. eauto.
  - intros i f (f0&Hf0&_&H)%Hb. eauto.
  - intros i f (f0&Hf0&(_&->&_)%Hinj&_)%Hb. eauto.
  - intros i j f h (f0&Hf0&(_&_&->)%Hinj&_)%Hb (h0&Hh0&(_&_&->)%Hinj&_)%Hb. eauto.
Qed.
Lemma insert_fire_Some k f m m' : insert_fire k f m = Some m' →
  m' = <[f_ID f := f]> m ∧ m !! f_ID f = None ∧ f_Status f ∈ fire_statuses.
Proof.
  unfold insert_fire. destruct (negb k); [done|]. case_bool_decide as Hst; cbn; [|done]. destruct (negb _); [done|].
  destruct (m !! f_ID f); [done|]. by intros [= <-].
Qed.
Lemma table_ok_insert a (K : string → Prop) m m' f : insert_fire true f m = Some m' → table_ok a K m →
  (a = true → f_RunID f = f_ID f) → IsWorkflowActivationScheduleID (f_ScheduleID f) = a → sched_of (f_RunID f) = f_ScheduleID f → K (f_ScheduleID f) →
  (∀ i g, m !! i = Some g → f_RunID g ≠ f_RunID f) → table_ok a K m'.
Proof.
  intros (->&Hnone&Hst)%insert_fire_Some [] Hkey Hkind Hname HK Hnew.
  split.
  - intros i g [[<- <-]|[_ Hg]]%lookup_insert_Some; [auto|eauto].
  - intros i g [[<- <-]|[_ Hg]]%lookup_insert_Some; [auto|eauto].
  - intros i g [[<- <-]|[_ Hg]]%lookup_insert_Some; [auto|eauto].
  - intros i g [[<- <-]|[_ Hg]]%lookup_insert_Some; [auto|eauto].
  - intros i j g h [[<- <-]|[_ Hg]]%lookup_insert_Some [[<- <-]|[_ Hh]]%lookup_insert_Some Heq; [done| | |eauto].
    + by destruct (Hnew j h Hh).
    + by destruct (Hnew i g Hg).
Qed.

Definition evolution (d d' : SDB) : Prop := grows (runs d) (runs d') ∧ grows (act_fires d) (act_fires d').
#[export] Instance evolution_preorder : PreOrder evolution.
Proof.
  split; [by intros d|]. intros d e f [H1 H2] [H3 H4]. split; etransitivity; eauto.
Qed.
Lemma claimed_evolves c f : evolves f (claimed_fire c f).
Proof. by apply evolves_with_fire. Qed.
Lemma transitioned_evolves t f : evolves f (transitioned t f).
Proof. by apply evolves_with_fire. Qed.
Lemma accepted_evolves t f : evolves f (accepted_fire t f).
Proof. apply evolves_with_fire. by destruct (f_DispatchAcceptedAt f). Qed.
Lemma closed_evolves f : evolves f (closed_fire f).
Proof. by apply evolves_with_fire. Qed.
Lemma evolution_update a d P g : (∀ f, evolves f (g f)) → evolution d (set_fires a (update_where P g (fires_of a d)).2 d).
Proof. intros Hg. destruct a; split; cbn; try done; apply grows_update; auto. Qed.
Lemma sound_update a d P g : (∀ f, evolves f (g f)) → (∀ f, f_Status f ∈ fire_statuses → f_Status (g f) ∈ fire_statuses) → sound d →
  sound (set_fires a (update_where P g (fires_of a d)).2 d).
Proof. intros Hg Hst []. destruct a; split; cbn; try done; apply table_ok_update; try done; intros f; apply Hg. Qed.
Lemma sound_set_schedules d i s : s_ID s = i → sound d → sound (set_schedules (<[i := s]> (schedules d)) d).
Proof.
  intros Hs []. split; cbn; try done.
  - eapply table_ok_known; [|exact sound_runs0]. intros id [x Hx]. destruct (decide (i = id)) as [->|]; [rewrite lookup_insert_eq; eauto|rewrite lookup_insert_ne; eauto].
  - intros j x [[<- <-]|[_ Hx]]%lookup_insert_Some; eauto.
Qed.
Lemma sound_set_activations d m : (∀ i, is_Some (activations d !! i) → is_Some (m !! i)) → sound d → sound (set_activations m d).
Proof. intros Hm []. split; cbn; try done. eapply table_ok_known; [|exact sound_acts0]. exact Hm. Qed.

Context (cron_next : string → option (Z → Z)) (json_valid : string → bool) (julianday : string → option Z) (E : Env).
Lemma effect_sound d k d' : call_ok k → sound d → effect cron_next json_valid julianday E d k d' → sound d' ∧ evolution d d'.
Proof.
  intros Hk Hs He. pose proof Hs as [Hr Ha Hsch]. destruct He; cbn in Hk.
  - done.
  - split; [by apply sound_set_schedules|done].
  - split; [by apply sound_set_schedules|done].
  - split; [|done]. rewrite row_absent in H. split; cbn; try done.
    + destruct Hr. split; eauto. intros i f Hf. specialize (H i f Hf). apply bool_decide_eq_false in H. rewrite lookup_delete_ne by done. eauto.
    + intros i s [_ Hi]%lookup_delete_Some. eauto.
  - split; [apply sound_set_schedules; [cbn; eauto|done]|done].
  - split; [apply sound_set_schedules; [cbn; eauto|done]|done].
  - split; [apply sound_set_schedules; [cbn; eauto|done]|done].
  - pose proof (insert_fire_Some _ _ _ _ H8) as (->&Hnone&_). split.
    + pose proof (sound_set_schedules d (cr_ScheduleID c) (with_firing (nullableFireTime (cr_NextRun c)) (f_ScheduledAt f) (s_FiredCount s + 1) s)
        (Hsch _ _ H4) Hs) as []. split; cbn; try done. eapply table_ok_insert; [exact H8|exact sound_runs0|done|congruence|congruence| |].
      * rewrite H1. cbn. rewrite lookup_insert_eq. eauto.
      * rewrite row_absent in H3. intros i g Hg Heq. specialize (H3 i g Hg). unfold has_run in H3. apply bool_decide_eq_false in H3. done.
    + split; [by apply grows_insert|done].
  - pose proof (insert_fire_Some _ _ _ _ H7) as (->&Hnone&_). split.
    + set (a' := with_activation _ _ _ a).
      assert (sound (set_activations (<[cr_ScheduleID c := a']> (activations d)) d)) as [].
      { apply sound_set_activations; [|done]. intros i Hi. destruct (decide (cr_ScheduleID c = i)) as [<-|]; [rewrite lookup_insert_eq; eauto|by rewrite lookup_insert_ne]. }
      split; cbn; try done. eapply table_ok_insert; [exact H7|exact sound_acts0|done|congruence|congruence| |].
      * rewrite H2. cbn. rewrite lookup_insert_eq. eauto.
      * intros i g Hg Heq. destruct Ha as [Hkey _ _ _ _]. destruct (Hkey i g Hg) as [_ Hi]. specialize (Hi eq_refl). rewrite H0 in Hnone. congruence.
    + split; [done|by apply grows_insert].
  - split; [apply sound_update|apply evolution_update]; try done; intros f; try apply claimed_evolves. intros _. cbn. set_solver.
  - split; [apply sound_update|apply evolution_update]; try done; intros f; apply transitioned_evolves.
  - split; [apply sound_update|apply evolution_update]; try done; intros f; apply accepted_evolves.
  - split; [|done]. apply sound_set_activations; [|done]. intros i Hi. destruct (decide (a_ScheduleID row = i)) as [<-|]; [rewrite lookup_insert_eq; eauto|by rewrite lookup_insert_ne].
  - set (acts := (update_where _ _ (activations d)).2).
    assert (sound (set_activations acts d)) as Hs'.
    { apply sound_set_activations; [|done]. intros i [x Hx]. unfold acts. rewrite update_where_lookup, Hx. eauto. }
    split; [apply (sound_update true (set_activations acts d)); [intros f; apply closed_evolves|cbn; set_solver|done]|].
    apply (evolution_update true (set_activations acts d)). intros f. apply closed_evolves.
  - split; [|done]. apply sound_set_activations; [|done]. intros i Hi. destruct (decide (id = i)) as [<-|]; [rewrite lookup_insert_eq; eauto|by rewrite lookup_insert_ne].
Qed.
Lemma calls_sound ks w : Forall call_ok ks → sound (db w) →
  sound (db (do_calls cron_next json_valid julianday E ks w)) ∧ evolution (db w) (db (do_calls cron_next json_valid julianday E ks w)).
Proof. apply do_calls_preorder; [apply _|apply effect_sound]. Qed.
(** The history of fires is sound and never lost.  Whatever calls the engines, the
    operator and the workflow host make, with any failures, if fires are named after
    their schedule: every fire has its schedule, a run identifier is of one fire, every
    fire is kept with what was set when it was made, and a receipt of its dispatch is
    never taken back. *)
Theorem fires_are_kept ks w : Forall call_ok ks → sound (db w) →
  let w' := do_calls cron_next json_valid julianday E ks w in
  sound (db w') ∧ ∀ a i f, fires_of a (db w) !! i = Some f →
    ∃ f', fires_of a (db w') !! i = Some f' ∧ identity f' = identity f ∧
      (f_DispatchAcceptedAt f ≠ None → f_DispatchAcceptedAt f' = f_DispatchAcceptedAt f).
Proof.
  intros Hok Hs. destruct (do_calls_preorder cron_next json_valid julianday E evolution call_ok sound effect_sound ks w Hok Hs) as [Hs' [Hr Ha]].
  split; [done|]. intros [] i f Hf; [apply Ha|apply Hr]; done.
Qed.
End Sound.

(** ** Claims *)

Section Claims.
Context (sched_of : string → string) (cron_next : string → option (Z → Z)) (json_valid : string → bool)
  (julianday : string → option Z) (E : Env).
Abbreviation calls := (do_calls cron_next json_valid julianday E).
Abbreviation claim := (claim_in julianday E).
Abbreviation transition := (transition_in E).

Lemma sound_table a d : sound sched_of d → table_ok sched_of a (λ id, if a then is_Some (activations d !! id) else is_Some (schedules d !! id)) (fires_of a d).
Proof. intros []. by destruct a. Qed.
Lemma has_run_unique a d i f : sound sched_of d → fires_of a d !! i = Some f → ∀ j g, fires_of a d !! j = Some g → has_run (f_RunID f) g = true → j = i.
Proof. intros Hs Hi j g Hj Hg. unfold has_run in Hg. b2p. destruct (sound_table a d Hs). eauto. Qed.
Lemma has_run_refl f : has_run (f_RunID f) f = true.
Proof. unfold has_run. by apply bool_decide_eq_true. Qed.

(** The row a claim takes, and the state it leaves. *)
Lemma claim_won a c w f w1 : sound sched_of (db w) → claim a c w = (Ok (Some f), w1) →
  ∃ i f0, fires_of a (db w) !! i = Some f0 ∧ claimable julianday c f0 = true ∧ f = claimed_fire c f0 ∧ fires_of a (db w1) !! i = Some f.
Proof.
  intros Hs H.
  assert (fires_of a (db w1) = (claim_fire julianday c (fires_of a (db w))).2 ∧ Some f = (claim_fire julianday c (fires_of a (db w))).1) as [Hm Hf].
  { unfold claim_in in H. destruct a; unfold ClaimScheduleFire, ClaimWorkflowActivationFire, exec in H; destruct (stmt_fails _ _); try done; cbn [fires_of];
      destruct (claim_fire _ _ _) as [o m]; injection H as -> <-; done. }
  unfold claim_fire in Hm, Hf. destruct (update_where _ _ _) as [n m'] eqn:Hu.
  destruct (Z.eqb_spec n 0) as [|Hn]; cbn in Hm, Hf; [done|].
  assert (m' = (update_where (claimable julianday c) (claimed_fire c) (fires_of a (db w))).2) as Hm' by (by rewrite Hu).
  symmetry in Hf. apply row_found in Hf as (i&Hi&Hrun). rewrite Hm' in Hi. pose proof Hi as Hi'. rewrite update_where_lookup in Hi.
  apply fmap_Some in Hi as (f0&Hf0&Heq). exists i, f0.
  assert (f_RunID f0 = cl_FireID c) as Hid. { unfold has_run in Hrun. b2p. rewrite Heq in Hrun. by destruct (claimable _ _ _). }
  destruct (claimable julianday c f0) eqn:Hc; [split_and!; [done|done|done|by rewrite Hm, Hm']|].
  exfalso. apply Hn. pose proof (f_equal fst Hu) as Hz. cbn [fst] in Hz. rewrite <- Hz, update_where_zero. intros j g Hj.
  destruct (claimable julianday c g) eqn:Hg; [|done]. pose proof Hg as Hg'. unfold claimable in Hg'. b2p.
  assert (j = i) as -> by (eapply (has_run_unique a (db w)); [done|exact Hf0|exact Hj|by rewrite Hid]). congruence.
Qed.
Lemma claim_lost a c w : (∀ i f, fires_of a (db w) !! i = Some f → claimable julianday c f = false) →
  (claim a c w).1 = Ok None ∨ ∃ e, (claim a c w).1 = Err e.
Proof.
  intros H. assert ((claim_fire julianday c (fires_of a (db w))).1 = None) as Hn.
  { unfold claim_fire. destruct (update_where _ _ _) as [n m'] eqn:Hu. pose proof (f_equal fst Hu) as Hz. cbn [fst] in Hz.
    apply (update_where_zero _ (claimed_fire c)) in H. rewrite H in Hz. by rewrite <- Hz. }
  unfold claim_in. destruct a; unfold ClaimScheduleFire, ClaimWorkflowActivationFire, exec; destruct (stmt_fails _ _); cbn [fires_of] in Hn; eauto;
    destruct (claim_fire _ _ _); cbn in *; subst; eauto.
Qed.

(** A transition that finds no row, and one that finds its row. *)
Lemma transition_lost a t w :
  (∀ i f, fires_of a (db w) !! i = Some f → owns (tr_FireID t) (tr_From t) (tr_Attempt t) (tr_ClaimedAt t) f = false) →
  (transition a t w).1 ≠ Ok true.
Proof.
  intros Hno. apply (update_where_zero _ (transitioned t)) in Hno.
  unfold transition_in. destruct a; unfold TransitionScheduleFire, TransitionWorkflowActivationFire, exec, transition_fire;
    destruct (stmt_fails _ _); try done; cbn [fires_of] in Hno; destruct (update_where _ _ _) as [n m']; cbn in Hno; by subst n.
Qed.
Lemma transition_won a t w i f : sound sched_of (db w) → fires_of a (db w) !! i = Some f →
  owns (tr_FireID t) (tr_From t) (tr_Attempt t) (tr_ClaimedAt t) f = true → tr_To t ∈ fire_statuses →
  stmt_fails E (tick w) = false → (transition a t w).1 = Ok true.
Proof.
  intros Hs Hi Ho Hto Hst.
  assert ((update_where (owns (tr_FireID t) (tr_From t) (tr_Attempt t) (tr_ClaimedAt t)) (transitioned t) (fires_of a (db w))).1 = 1) as Hn.
  { apply (update_where_one _ _ _ i f Hi); [done|]. intros j g Hj Hg. unfold owns, has_run in Ho, Hg. b2p.
    destruct (sound_table a _ Hs). eapply ok_unique0; eauto. congruence. }
  unfold transition_in. destruct a; unfold TransitionScheduleFire, TransitionWorkflowActivationFire, exec, transition_fire;
    rewrite Hst; cbn [fires_of] in Hn; destruct (update_where _ _ _) as [n m']; cbn in Hn; subst n;
    by rewrite bool_decide_eq_true_2 by done.
Qed.

(** A fire held by the owner of a claim. *)
Definition held (id : string) (att : Z) (fired lease : string) (f : ScheduleFire) : Prop :=
  f_RunID f = id ∧ f_Status f = ScheduleFireStatusClaimed ∧ f_AttemptCount f = att ∧ f_FiredAt f = fired ∧ f_ClaimExpiresAt f = Some lease.
(** The transition that ends the attempt of an owner carries its attempt and the
    instant of its claim; a claim that takes the fire over finds the attempt as the
    owner left it, and starts when the lease is over. *)
Definition ends_attempt (id : string) (att : Z) (fired : string) (t : ScheduleFireTransition) : Prop :=
  tr_FireID t = id ∧ tr_From t = ScheduleFireStatusClaimed ∧ tr_Attempt t = att ∧ formatFireTime (tr_ClaimedAt t) = fired.
Definition takes_over (id : string) (att : Z) (fired lease : string) (c : ScheduleFireClaim) : Prop :=
  cl_FireID c = id ∧ cl_ExpectedStatus c = ScheduleFireStatusClaimed ∧ cl_ExpectedAttempt c = att ∧
  formatFireTime (cl_ExpectedFiredAt c) = fired ∧ jd_le julianday lease (formatFireTime (cl_ClaimedAt c)) = true.
(** The calls that are neither. *)
Definition respects_lease (id : string) (att : Z) (fired lease : string) (k : StoreCall) : Prop :=
  match k with
  | KTransition _ t => ¬ ends_attempt id att fired t
  | KClaim _ c => ¬ takes_over id att fired lease c
  | _ => True
  end.
Lemma held_not_claimable id att fired lease c f : held id att fired lease f → ¬ takes_over id att fired lease c →
  claimable julianday c f = false.
Proof.
  intros (Hid&Hst&Hatt&Hfired&Hl) Hc. destruct (claimable julianday c f) eqn:H; [|done]. destruct Hc.
  unfold claimable, has_run, recovering, lease_over in H. b2p. rewrite Hl in H0.
  apply orb_true_iff in H0 as [H0|H0]; b2p; [congruence|]. split_and!; congruence.
Qed.
Lemma held_not_owned id att fired lease t f : held id att fired lease f → ¬ ends_attempt id att fired t →
  owns (tr_FireID t) (tr_From t) (tr_Attempt t) (tr_ClaimedAt t) f = false.
Proof.
  intros (Hid&Hst&Hatt&Hfired&_) Ht. destruct (owns _ _ _ _ f) eqn:H; [|done]. destruct Ht.
  unfold owns, has_run in H. b2p. split_and!; congruence.
Qed.
Lemma held_effect id att fired lease a i f d k d' : respects_lease id att fired lease k →
  fires_of a d !! i = Some f → held id att fired lease f → effect cron_next json_valid julianday E d k d' →
  ∃ f', fires_of a d' !! i = Some f' ∧ held id att fired lease f'.
Proof.
  intros Hk Hi Hh He.
  assert (∀ b P g, (a = b → P f = true → held id att fired lease (g f)) →
    ∃ f', fires_of a (set_fires b (update_where P g (fires_of b d)).2 d) !! i = Some f' ∧ held id att fired lease f') as Hupd.
  { intros b P g HP. destruct (decide (a = b)) as [->|Hne].
    - destruct b; cbn [set_fires fires_of runs act_fires set_runs set_act_fires] in *; rewrite update_where_lookup, Hi; cbn;
        (eexists; split; [done|]); destruct (P f) eqn:HPf; auto.
    - exists f. split; [|done]. by destruct a, b. }
  destruct He; try (exists f; split; [by destruct a|done]).
  - apply insert_fire_Some in H8 as (->&Hn&_). destruct a; cbn in *; [by exists f|]. exists f. rewrite lookup_insert_ne by congruence. done.
  - apply insert_fire_Some in H7 as (->&Hn&_). destruct a; cbn in *; [|by exists f]. exists f. rewrite lookup_insert_ne by congruence. done.
  - apply Hupd. intros _ HP. cbn in Hk. by rewrite (held_not_claimable _ _ _ _ _ _ Hh Hk) in HP.
  - apply Hupd. intros _ HP. cbn in Hk. by rewrite (held_not_owned _ _ _ _ _ _ Hh Hk) in HP.
  - apply Hupd. intros _ _. exact Hh.
  - pose proof (Hupd true (closable (WorkflowActivationScheduleID id0)) closed_fire) as Hc. destruct a; [|by exists f]. cbn in *. apply Hc.
    intros _ HP. unfold closable in HP. b2p. destruct Hh as (_&Hst&_). rewrite Hst in H0. revert H0. by_decide.
Qed.
Lemma held_calls id att fired lease a i f ks w : Forall (respects_lease id att fired lease) ks →
  fires_of a (db w) !! i = Some f → held id att fired lease f →
  ∃ f', fires_of a (db (calls ks w)) !! i = Some f' ∧ held id att fired lease f'.
Proof.
  intros Hks Hi Hh.
  apply (do_calls_invariant cron_next json_valid julianday E (respects_lease id att fired lease)
    (λ d, ∃ f', fires_of a d !! i = Some f' ∧ held id att fired lease f')); [|done|by exists f].
  intros d k d' Hk (g&Hg&Hhg) He. by eapply held_effect.
Qed.

(** C24. A claim is exclusive while its lease lasts.  After a claim won, whatever calls
    follow, with any failures, transitions of the same fire by other engines included,
    as long as neither the owner's own transition (its attempt and the instant of its
    claim) nor a recovery that starts at or after the end of the lease is among them:
    every claim of the fire that is not such a recovery is lost, every transition of it
    that is not the owner's is refused, and the owner's transition is accepted. *)
Theorem lease_is_exclusive a c w f w1 ks : sound sched_of (db w) → claim a c w = (Ok (Some f), w1) →
  let id := cl_FireID c in
  let att := f_AttemptCount f in
  let fired := formatFireTime (cl_ClaimedAt c) in
  let lease := formatFireTime (cl_ClaimExpiresAt c) in
  Forall (call_ok sched_of) ks → Forall (respects_lease id att fired lease) ks →
  let w' := calls ks w1 in
  f_RunID f = id ∧
  (∀ c', cl_FireID c' = id → ¬ takes_over id att fired lease c' → ∀ g, (claim a c' w').1 ≠ Ok (Some g)) ∧
  (∀ t, tr_FireID t = id → ¬ ends_attempt id att fired t → (transition a t w').1 ≠ Ok true) ∧
  (∀ t, ends_attempt id att fired t → tr_To t ∈ fire_statuses → stmt_fails E (tick w') = false → (transition a t w').1 = Ok true).
Proof.
  intros Hs Hc id att fired lease Hok Hks w'. destruct (claim_won a c w f w1 Hs Hc) as (i&f0&Hf0&Hcl&Hf&Hi).
  assert (sound sched_of (db w1)) as Hs1.
  { destruct (calls_sound sched_of cron_next json_valid julianday E [KClaim a c] w) as [H _]; [by repeat constructor|done|].
    cbn in H. by rewrite Hc in H. }
  destruct (calls_sound sched_of cron_next json_valid julianday E ks w1 Hok Hs1) as [Hs' _]. fold w' in Hs'.
  assert (f_RunID f = id) as Hid. { rewrite Hf. unfold claimable, has_run in Hcl. b2p. done. }
  destruct (held_calls id att fired lease a i f ks w1)
    as (f'&Hi'&Hh); [done|done|by split_and!; [done|rewrite Hf|done|rewrite Hf|rewrite Hf]|]. fold w' in Hi'.
  assert (∀ j g, fires_of a (db w') !! j = Some g → f_RunID g = id → g = f') as Honly.
  { intros j g Hj Hg. destruct (sound_table a _ Hs'). destruct Hh as (Hrun&_). assert (j = i) as -> by (eapply ok_unique0; eauto; congruence). congruence. }
  split; [done|]. split_and!.
  - intros c' Hid' Hl g. destruct (claim_lost a c' w') as [->|[e ->]]; try done.
    intros j g' Hj. destruct (claimable julianday c' g') eqn:Hg; [|done].
    assert (g' = f') as ->. { apply (Honly j); [done|]. unfold claimable, has_run in Hg. b2p. congruence. }
    by rewrite (held_not_claimable _ _ _ _ _ _ Hh Hl) in Hg.
  - intros t Hid' Ht. apply transition_lost. intros j g Hj. destruct (owns _ _ _ _ g) eqn:Hg; [|done].
    assert (g = f') as ->. { apply (Honly j); [done|]. unfold owns, has_run in Hg. b2p. congruence. }
    by rewrite (held_not_owned _ _ _ _ _ _ Hh Ht) in Hg.
  - intros t (Hid'&Hfrom&Hat&Hcat) Hto Hst'. apply (transition_won a t w' i f'); [done|done| |done|done].
    unfold owns, has_run. destruct Hh as (Hrun&Hst&Hatt&Hfired&_).
    rewrite Hid', Hfrom, Hat, Hcat, Hrun, Hst, Hatt, Hfired. rewrite !bool_decide_eq_true_2, Z.eqb_refl by done. done.
Qed.

(** No claim of a fire at an instant. *)
Definition not_claimed_at (a : bool) (id : string) (t : Z) (k : StoreCall) : Prop :=
  match k with KClaim b c => a = b → cl_FireID c = id → formatFireTime (cl_ClaimedAt c) ≠ formatFireTime t | _ => True end.
(** A fire whose owner is not the one of an attempt claimed at an instant. *)
Definition taken_over (id : string) (att t : Z) (m : FireTable) : Prop :=
  ∀ i f, m !! i = Some f → f_RunID f = id → f_AttemptCount f = att → f_FiredAt f ≠ formatFireTime t.
Definition present (a : bool) (id : string) (d : SDB) : Prop := ∃ i f, fires_of a d !! i = Some f ∧ f_RunID f = id.
Lemma taken_over_effect a id att t d k d' : not_claimed_at a id t k → sound sched_of d → present a id d →
  taken_over id att t (fires_of a d) → effect cron_next json_valid julianday E d k d' → taken_over id att t (fires_of a d').
Proof.
  intros Hk Hs (i0&f0&Hi0&Hr0) Ht He.
  assert (∀ b P g, (∀ f, a = b → P f = true → identity (g f) = identity f ∧
      (f_RunID f = id → f_FiredAt (g f) ≠ formatFireTime t ∨ f_FiredAt (g f) = f_FiredAt f ∧ f_AttemptCount (g f) = f_AttemptCount f)) →
    taken_over id att t (fires_of a (set_fires b (update_where P g (fires_of b d)).2 d))) as Hupd.
  { intros b P g HP. destruct (decide (a = b)) as [->|Hne]; [|by destruct a, b].
    assert (taken_over id att t (update_where P g (fires_of b d)).2) as Hgoal; [|by destruct b].
    intros i f. rewrite update_where_lookup. intros (f1&Hf1&->)%fmap_Some Hrun Hatt. specialize (Ht i f1 Hf1).
    destruct (P f1) eqn:HPf; [|by apply Ht]. destruct (HP f1 eq_refl HPf) as [Hid Hor].
    assert (f_RunID (g f1) = f_RunID f1) as Hr by (unfold identity in Hid; by injection Hid). rewrite Hr in Hrun.
    destruct (Hor Hrun) as [|[-> Ha]]; [done|]. apply Ht; congruence. }
  destruct He; try (by destruct a).
  - apply insert_fire_Some in H8 as (->&_). destruct a; [done|]. cbn. intros i g [[<- <-]|[_ Hg]]%lookup_insert_Some; [|by eapply Ht].
    intros Hrun. rewrite row_absent in H3. specialize (H3 i0 f0 Hi0). unfold has_run in H3. apply bool_decide_eq_false in H3. congruence.
  - apply insert_fire_Some in H7 as (->&Hn&_). destruct a; [|done]. cbn. intros i g [[<- <-]|[_ Hg]]%lookup_insert_Some; [|by eapply Ht].
    intros Hrun. destruct Hs as [_ [Hkey _ _ _ _] _]. destruct (Hkey i0 f0 Hi0) as [_ Hi]. specialize (Hi eq_refl). cbn in Hi0. congruence.
  - apply Hupd. intros f -> HP. split; [done|]. intros Hrun. left. cbn. cbn in Hk. apply Hk; [done|]. unfold claimable, has_run in HP. b2p. congruence.
  - apply Hupd. intros f _ _. split; [done|]. by right.
  - apply Hupd. intros f _ _. split; [done|]. by right.
  - pose proof (Hupd true (closable (WorkflowActivationScheduleID id0)) closed_fire) as H0. destruct a; [|done]. cbn in *. apply H0.
    intros f _ _. split; [done|]. by right.
Qed.
Lemma present_grows a id d d' : evolution d d' → present a id d → present a id d'.
Proof.
  intros [Hr Ha] (i&f&Hi&<-). assert (grows (fires_of a d) (fires_of a d')) as Hg by (by destruct a).
  destruct (Hg i f Hi) as (f'&Hf'&Hid&_). exists i, f'. split; [done|]. unfold identity in Hid. by injection Hid.
Qed.
Lemma taken_over_calls a id att t ks w : sound sched_of (db w) → present a id (db w) → taken_over id att t (fires_of a (db w)) →
  Forall (call_ok sched_of) ks → Forall (not_claimed_at a id t) ks →
  sound sched_of (db (calls ks w)) ∧ present a id (db (calls ks w)) ∧ taken_over id att t (fires_of a (db (calls ks w))).
Proof.
  intros Hs Hp Ht Hok Hnot.
  apply (do_calls_invariant cron_next json_valid julianday E (λ k, call_ok sched_of k ∧ not_claimed_at a id t k)
    (λ d, sound sched_of d ∧ present a id d ∧ taken_over id att t (fires_of a d))); [| |done].
  - intros d k d' [Hk1 Hk2] (Hs1&Hp1&Ht1) He. destruct (effect_sound _ _ _ _ _ _ _ _ Hk1 Hs1 He) as [Hs2 Hev].
    split_and!; [done|by eapply present_grows|by apply (taken_over_effect a id att t d k d')].
  - apply Forall_forall. intros k Hk. rewrite Forall_forall in Hok, Hnot. auto.
Qed.
(** A fire is in one of the two tables. *)
Lemma other_table a id d : sound sched_of d → present a id d → ∀ j g, fires_of (negb a) d !! j = Some g → f_RunID g ≠ id.
Proof.
  intros Hs (i&f&Hi&<-) j g Hj Heq. destruct (sound_table a d Hs) as [_ Hk _ _ _]. destruct (sound_table (negb a) d Hs) as [_ Hk' _ _ _].
  destruct (Hk i f Hi) as [H1 H2]. destruct (Hk' j g Hj) as [H3 H4]. rewrite Heq, H2 in H4. rewrite H4 in H1. rewrite H1 in H3. by destruct a.
Qed.
Lemma owns_none a id from att t d : taken_over id att t (fires_of a d) → ∀ i f, fires_of a d !! i = Some f → owns id from att t f = false.
Proof.
  intros Ht i f Hi. destruct (owns id from att t f) eqn:Ho; [|done]. unfold owns, has_run in Ho. b2p. 
  exfalso. by apply (Ht i f).
Qed.
(** A worker that lost its claim can do nothing more.  Once a fire is not in the
    attempt and at the instant of a claim, because another engine took it over, then
    whatever calls follow, as long as nobody claims it at that same instant: the
    transitions and the receipt of the old owner are refused and change no fire. *)
Theorem stale_owner_is_refused a id att t ks w : sound sched_of (db w) → present a id (db w) → taken_over id att t (fires_of a (db w)) →
  Forall (call_ok sched_of) ks → Forall (not_claimed_at a id t) ks →
  let w' := calls ks w in
  (∀ tr, tr_FireID tr = id → tr_Attempt tr = att → tr_ClaimedAt tr = t →
     (transition a tr w').1 ≠ Ok true ∧ fires_of a (db (transition a tr w').2) = fires_of a (db w')) ∧
  (∀ at_, let r := MarkScheduleFireDispatchAccepted E id att t at_ w' in
     r.1 ≠ Ok true ∧ ∀ b, fires_of b (db r.2) = fires_of b (db w')).
Proof.
  intros Hs Hp Ht Hok Hnot w'. destruct (taken_over_calls a id att t ks w Hs Hp Ht Hok Hnot) as (Hs'&Hp'&Ht'). fold w' in Hs', Hp', Ht'.
  clearbody w'. clear Hs Hp Ht Hok Hnot ks w.
  assert (∀ b from g, update_where (owns id from att t) g (fires_of b (db w')) = (0, fires_of b (db w'))) as Hnone.
  { intros b from g. assert (∀ i f, fires_of b (db w') !! i = Some f → owns id from att t f = false) as Hno.
    { destruct (decide (a = b)) as [<-|Hne]; [by apply owns_none|]. intros i f Hi. destruct (owns id from att t f) eqn:Ho; [|done].
      unfold owns, has_run in Ho. b2p. assert (b = negb a) as -> by (by destruct a, b). by destruct (other_table _ _ _ Hs' Hp' i f Hi). }
    pose proof Hno as Hz. rewrite <- (update_where_zero _ g) in Hz. rewrite (surjective_pairing (update_where _ _ _)), Hz. f_equal.
    apply map_eq. intros i. rewrite update_where_lookup. destruct (fires_of b (db w') !! i) as [f|] eqn:Hi; cbn; [|done]. by rewrite (Hno i f Hi). }
  split.
  - intros tr <- <- <-. unfold transition_in. pose proof (Hnone a (tr_From tr) (transitioned tr)) as Hu.
    destruct a; unfold TransitionScheduleFire, TransitionWorkflowActivationFire, exec, transition_fire; destruct (stmt_fails _ _); try done;
      cbn [fires_of] in Hu; rewrite Hu; done.
  - intros at_. pose proof (Hnone true ScheduleFireStatusClaimed (accepted_fire (formatFireTime at_))) as H1.
    pose proof (Hnone false ScheduleFireStatusClaimed (accepted_fire (formatFireTime at_))) as H2. cbn [fires_of] in H1, H2.
    unfold MarkScheduleFireDispatchAccepted, MarkWorkflowActivationDispatchAccepted, attempt, GetWorkflowActivationFire, query, exec, accept_fire, mbind, act_bind.
    destruct (stmt_fails E (tick w')); [done|]. cbn [db up tick].
    destruct (act_fires (db w') !! id); cbn -[update_where]; destruct (stmt_fails _ _); try done; cbn -[update_where]; rewrite ?H1, ?H2; cbn; by split; [|intros []].
Qed.
End Claims.

(** ** Creating fires *)

Section Creating.
Context (sched_of : string → string) (cron_next : string → option (Z → Z)) (json_valid : string → bool)
  (julianday : string → option Z) (E : Env).
Abbreviation calls := (do_calls cron_next json_valid julianday E).
Abbreviation create := (create_fire E).

(** A fire that exists is not made again. *)
Lemma create_existing a c w : sound sched_of (db w) → present a (f_RunID (cr_Fire c)) (db w) →
  sched_of (f_RunID (cr_Fire c)) = cr_ScheduleID c → (create c w).1 ≠ Ok true ∧ db (create c w).2 = db w.
Proof.
  intros Hs (i&f&Hi&Hrun) Hname. destruct (sound_table sched_of a _ Hs) as [Hkey Hk _ _ _]. destruct (Hk i f Hi) as [Hkind Hn].
  rewrite Hrun, Hname in Hn. rewrite <- Hn in Hkind. unfold create_fire. rewrite Hkind. destruct a.
  - unfold CreateWorkflowActivationFire. destruct (_ || _); [done|]. unfold exec. destruct (stmt_fails _ _); [done|].
    unfold create_activation_fire. destruct (Hkey i f Hi) as [_ Hr]. specialize (Hr eq_refl).
    rewrite bool_decide_eq_true_2; [done|]. exists f. cbn in Hi. congruence.
  - unfold CreateScheduleFire. destruct (_ || _); [done|]. unfold exec. destruct (stmt_fails _ _); [done|].
    unfold create_schedule_fire. cbn [cr_Fire with_key f_RunID]. rewrite bool_decide_eq_true_2; [done|].
    destruct (find_row _ _) eqn:Hf; [eauto|]. rewrite row_absent in Hf. specialize (Hf i f Hi). unfold has_run in Hf.
    by apply bool_decide_eq_false in Hf.
Qed.
Lemma create_true c w w' : IsWorkflowActivationScheduleID (cr_ScheduleID c) = false → create c w = (Ok true, w') →
  ∃ s f, schedules (db w) !! cr_ScheduleID c = Some s ∧ s_Status s = ScheduleStatusActive ∧ s_NextRun s ≠ "" ∧
    s_NextRun s = formatFireTime (cr_ExpectedNext c) ∧ runs (db w) !! f_ID f = None ∧
    f_RunID f = f_RunID (cr_Fire c) ∧ f_ScheduleID f = cr_ScheduleID c ∧ f_Status f = f_Status (cr_Fire c) ∧ f_ClaimExpiresAt f = None ∧ f_DispatchAcceptedAt f = None ∧
    db w' = set_runs (<[f_ID f := f]> (runs (db w))) (set_schedules (<[cr_ScheduleID c :=
      with_firing (nullableFireTime (cr_NextRun c)) (f_ScheduledAt (cr_Fire c)) (s_FiredCount s + 1) s]> (schedules (db w))) (db w)).
Proof.
  intros Hid H. unfold create_fire in H. rewrite Hid in H. unfold CreateScheduleFire in H. destruct (_ || _); [done|].
  unfold exec in H. destruct (stmt_fails _ _); [done|]. unfold create_schedule_fire in H. case_bool_decide; [done|].
  destruct (update_schedule _ _ _ _ _ _) as [[[] d1]|] eqn:Hu; [|done..].
  apply update_schedule_effect in Hu as [[_ ?]|(_&s&Hs&Hc&->)]; [done|]. b2p.
  destruct (insert_fire _ _ _) as [m|] eqn:Hi; [|done]. injection H as <-. apply insert_fire_Some in Hi as (->&Hnone&_).
  cbn [cr_ScheduleID cr_Fire cr_NextRun cr_ExpectedNext] in *. eexists s, _. split_and!; try exact Hnone; try done.
Qed.

(** What a creation that succeeds did to its schedule: it was active and due at the
    time the caller expected, and now has the next time of the request; a schedule also
    counts the firing and remembers its time.  The other schedules stay. *)
Definition moved_on (c : ScheduleFireCreation) (d d' : SDB) : Prop :=
  let id := cr_ScheduleID c in
  if IsWorkflowActivationScheduleID id then
    (∃ a a', activations d !! id = Some a ∧ a_Status a = "active" ∧ a_NextRun a = formatFireTime (cr_ExpectedNext c) ∧
       activations d' !! id = Some a' ∧ a_NextRun a' = nullableFireTime (cr_NextRun c) ∧ a_Status a' = "active" ∧
       delete id (activations d') = delete id (activations d)) ∧ schedules d' = schedules d
  else
    (∃ s s', schedules d !! id = Some s ∧ s_Status s = ScheduleStatusActive ∧ s_NextRun s = formatFireTime (cr_ExpectedNext c) ∧
       schedules d' !! id = Some s' ∧ s_NextRun s' = nullableFireTime (cr_NextRun c) ∧ s_Status s' = ScheduleStatusActive ∧
       s_FiredCount s' = s_FiredCount s + 1 ∧ s_LastFiredAt s' = f_ScheduledAt (cr_Fire c) ∧
       delete id (schedules d') = delete id (schedules d)) ∧ activations d' = activations d.
Lemma create_moves_on c w w1 : create c w = (Ok true, w1) → moved_on c (db w) (db w1).
Proof.
  intros Hc. unfold moved_on. destruct (IsWorkflowActivationScheduleID (cr_ScheduleID c)) eqn:Hid.
  - unfold create_fire in Hc. rewrite Hid in Hc. unfold CreateWorkflowActivationFire in Hc. destruct (_ || _); [done|]. unfold exec in Hc.
    destruct (stmt_fails _ _); [done|]. unfold create_activation_fire in Hc.
    destruct (bool_decide _); [done|]. destruct (activations _ !! _) as [x|] eqn:Hx; [|done]. destruct (_ && _) eqn:Hok; [|done]. b2p.
    destruct (insert_fire _ _ _) as [m|]; [|done]. injection Hc as <-. split; [|done]. exists x. eexists.
    split_and!; [done..| | | |]; [apply lookup_insert_eq|done|done|cbn; apply delete_insert_eq].
  - destruct (create_true c w w1 Hid Hc) as (s&f&Hs&Hact&_&Hn&_&_&_&_&_&_&->). split; [|done]. exists s. eexists.
    split_and!; [done..| | | | | |]; [apply lookup_insert_eq|done..|cbn; apply delete_insert_eq].
Qed.

(** C23. An occurrence is fired once.  A creation that succeeds moves its schedule on and
    adds the fire in one step: the schedule was active and due at the expected time,
    has the requested next time, and counts the firing.  One that fails or loses
    changes nothing; and whatever happens afterwards, no creation of the same fire ever
    succeeds again. *)
Theorem occurrence_fires_once c w ks c' : sound sched_of (db w) → call_ok sched_of (KCreate c) → Forall (call_ok sched_of) ks →
  call_ok sched_of (KCreate c') → f_RunID (cr_Fire c') = f_RunID (cr_Fire c) →
  let '(r, w1) := create c w in
  match r with
  | Ok true => moved_on c (db w) (db w1) ∧
      present (IsWorkflowActivationScheduleID (cr_ScheduleID c)) (f_RunID (cr_Fire c)) (db w1) ∧
      (create c' (calls ks w1)).1 ≠ Ok true ∧ db (create c' (calls ks w1)).2 = db (calls ks w1)
  | _ => db w1 = db w
  end.
Proof.
  intros Hs Hok Hks Hok' Heq. destruct (create c w) as [r w1] eqn:Hc.
  destruct (calls_sound sched_of cron_next json_valid julianday E [KCreate c] w) as [Hs1 _]; [by repeat constructor|done|].
  cbn in Hs1. rewrite Hc in Hs1. cbn in Hs1.
  assert (r ≠ Ok true → db w1 = db w) as Hno.
  { unfold create_fire in Hc. destruct (IsWorkflowActivationScheduleID (cr_ScheduleID c)).
    - unfold CreateWorkflowActivationFire in Hc. destruct (_ || _); [by injection Hc as <- <-|]. unfold exec in Hc.
      destruct (stmt_fails _ _); [by injection Hc as <- <-|]. unfold create_activation_fire in Hc.
      repeat case_match; simplify_eq; by intros ?.
    - unfold CreateScheduleFire in Hc. destruct (_ || _); [by injection Hc as <- <-|]. unfold exec in Hc.
      destruct (stmt_fails _ _); [by injection Hc as <- <-|]. unfold create_schedule_fire in Hc.
      case_bool_decide; [by injection Hc as <- <-|]. destruct (update_schedule _ _ _ _ _ _) as [[[] d1]|] eqn:Hu; [| |by injection Hc as <- <-].
      + destruct (insert_fire _ _ _); injection Hc as <- <-; done.
      + apply update_schedule_effect in Hu as [[-> _]|[? _]]; [|done]. by injection Hc as <- <-. }
  destruct r as [[]|e]; [|by apply Hno..].
  assert (present (IsWorkflowActivationScheduleID (cr_ScheduleID c)) (f_RunID (cr_Fire c)) (db w1)) as Hp.
  { destruct (IsWorkflowActivationScheduleID (cr_ScheduleID c)) eqn:Hid.
    - unfold create_fire in Hc. rewrite Hid in Hc. unfold CreateWorkflowActivationFire in Hc. destruct (_ || _); [done|]. unfold exec in Hc.
      destruct (stmt_fails _ _); [done|]. unfold create_activation_fire in Hc.
      destruct (bool_decide _); [done|]. destruct (activations _ !! _); [|done]. destruct (_ && _); [|done].
      destruct (insert_fire _ _ _) as [m|] eqn:Hi; [|done]. injection Hc as <-. apply insert_fire_Some in Hi as (->&_&_).
      eexists _, _. cbn. split; [apply lookup_insert_eq|done].
    - destruct (create_true c w w1 Hid Hc) as (s&f&_&_&_&_&_&Hrun&_&_&_&_&->). exists (f_ID f), f. cbn. split; [apply lookup_insert_eq|done]. }
  split; [by apply create_moves_on|]. split; [done|].
  destruct (calls_sound sched_of cron_next json_valid julianday E ks w1 Hks Hs1) as [Hs2 Hev].
  apply (create_existing (IsWorkflowActivationScheduleID (cr_ScheduleID c))); [done| |done]. rewrite Heq. by apply (present_grows _ _ (db w1)).
Qed.

(** C26. Editing a schedule while it fires puts it back.  When a schedule, not one of a
    workflow activation, fires between the read and the write of a patch that keeps its
    next run (one that does not set the spec or reactivate the schedule, so that
    [recomputes] is false), the write restores the occurrence that was just fired, and
    the count, and from then on no creation of that occurrence's fire succeeds. *)
Theorem patch_undoes_a_firing id p s c w w1 r w2 ks c' : sound sched_of (db w) → call_ok sched_of (KCreate c) →
  schedules (db w) !! id = Some s → cr_ScheduleID c = id → IsWorkflowActivationScheduleID id = false →
  create c w = (Ok true, w1) → recomputes p s = false → patch_row cron_next json_valid E id p s w1 = (Ok r, w2) →
  Forall (call_ok sched_of) ks → call_ok sched_of (KCreate c') → f_RunID (cr_Fire c') = f_RunID (cr_Fire c) →
  schedules (db w2) !! id = Some r ∧ s_NextRun r = formatFireTime (cr_ExpectedNext c) ∧ s_FiredCount r = s_FiredCount s ∧
  (create c' (calls ks w2)).1 ≠ Ok true.
Proof.
  intros Hs Hok Hid Hc Hkind Hcr Hrec Hp Hks Hok' Heq. subst id.
  destruct (create_true c w w1 Hkind Hcr) as (s'&f&Hs'&Hact&_&Hnext&Hnone&Hrun&Hsid&_&_&_&Hdb). rewrite Hid in Hs'. injection Hs' as <-.
  assert (s_ID s = cr_ScheduleID c) as Hsidk by (destruct Hs; eauto).
  unfold patch_row in Hp. do 2 (case_bool_decide; [done|]). rewrite Hrec in Hp.
  apply bind_Ok in Hp as (u&w3&[Hv Hw3]%wrap_Ok%lift_Ok&Hp). subst w3.
  apply bind_Ok in Hp as (upd&w3&Hu&Hp). apply mret_Ok in Hu as [-> ->].
  apply bind_Ok in Hp as ([]&w3&Hins%wrap_Ok&Hget).
  assert (∃ t row, prepareAgentSchedule cron_next json_valid (patched p s) = Ok row ∧
    db w3 = set_schedules (<[cr_ScheduleID c := inserted (sql_now E t) row]> (schedules (db w1))) (db w1) ∧
    s_NextRun row = s_NextRun s ∧ s_FiredCount row = s_FiredCount s) as (t&row&Hprep&Hw3&Hn&Hf).
  { unfold InsertAgentSchedule in Hins. apply bind_Ok in Hins as (row&w4&[Hprep ->]%lift_Ok&Hx). exists (tick w1), row.
    assert (s_ID row = cr_ScheduleID c ∧ s_NextRun row = s_NextRun s ∧ s_FiredCount row = s_FiredCount s) as (Hri&?&?).
    { pose proof Hprep as Hq. unfold prepareAgentSchedule in Hq. destruct (ValidateAgentSchedule _ _ _); [|done]. injection Hq as <-. done. }
    unfold exec in Hx. destruct (stmt_fails _ _); [done|]. unfold replace_schedule in Hx. destruct (bound _ _ _); [|done].
    injection Hx as <-. rewrite Hri. done. }
  assert (sound sched_of (db w1) ∧ sound sched_of (db w3)) as [Hs1 Hs3].
  { destruct (calls_sound sched_of cron_next json_valid julianday E [KCreate c] w) as [Hs1 _]; [by repeat constructor|done|]. cbn in Hs1. rewrite Hcr in Hs1.
    split; [done|]. rewrite Hw3. apply sound_set_schedules; [|done]. unfold prepareAgentSchedule in Hprep.
    destruct (ValidateAgentSchedule _ _ _); [|done]. injection Hprep as <-. done. }
  assert (db w2 = db w3 ∧ r = inserted (sql_now E t) row) as [Hw2 ->].
  { unfold GetAgentSchedule in Hget. apply bind_Ok in Hget as (o&w4&Hq&Hget). unfold query, exec in Hq. destruct (stmt_fails _ _); [done|].
    injection Hq as <- <-. rewrite Hw3 in Hget. cbn in Hget. rewrite lookup_insert_eq in Hget. injection Hget as <- <-. cbn. by rewrite Hw3. }
  split_and!.
  - rewrite Hw2, Hw3. cbn. apply lookup_insert_eq.
  - cbn. by rewrite Hn.
  - cbn. by rewrite Hf.
  - rewrite <- Hw2 in Hs3. destruct (calls_sound sched_of cron_next json_valid julianday E ks w2 Hks Hs3) as [Hs2 Hev].
    apply (create_existing false); [done| |done]. rewrite Heq. apply (present_grows _ _ (db w2)); [done|].
    exists (f_ID f), f. split; [|done]. rewrite Hw2, Hw3. cbn. rewrite Hdb. cbn. apply lookup_insert_eq.
Qed.
End Creating.

(** ** When schedules fire *)

Section Due.
Context (cron_next : string → option (Z → Z)) (json_valid : string → bool) (julianday : string → option Z) (E : Env).
(** The cron library: the next time is later, or there is none. *)
Definition modern (t : Z) : Prop := 0 ≤ t ∧ year_in_range t.
Context (cron_later : ∀ spec next t, cron_next spec = Some next → modern t → next t = zero_time ∨ modern (next t)).

(** The texts the writers of the column make: none, or an instant in UTC. *)
Definition canonical (text : string) : Prop := text = "" ∨ ∃ n, modern n ∧ text = format_Nano n.
Definition canonical_db (d : SDB) : Prop := ∀ i s, schedules d !! i = Some s → canonical (s_NextRun s).
Definition call_canonical (k : StoreCall) : Prop :=
  match k with
  | KInsert row | KInsertMissing row => canonical (s_NextRun row)
  | KBackfill now => modern now
  | KCreate c => cr_NextRun c = zero_time ∨ modern (cr_NextRun c)
  | _ => True
  end.

Lemma modern_IsZero n : modern n → IsZero n = false.
Proof. intros [H _]. apply Z.eqb_neq. unfold zero_time, epoch_day, day_seconds, Second. lia. Qed.
Lemma year_in_range_floor n : year_in_range n → year_in_range (n / Second * Second).
Proof. unfold year_in_range. by rewrite Z.div_mul. Qed.
Lemma modern_floor n : modern n → modern (n / Second * Second).
Proof.
  intros [H Hy]. split; [|by apply year_in_range_floor]. unfold Second. pose proof (Z.div_pos n 1000000000). lia.
Qed.
Lemma format_RFC3339_Nano n : format_RFC3339 n = format_Nano (n / Second * Second).
Proof. unfold format_RFC3339, format_Nano, seconds_text. cbv zeta. by rewrite Z.div_mul, Z.mod_mul. Qed.
Lemma canonical_RFC3339 n : modern n → canonical (format_RFC3339 n).
Proof. intros Hn. right. exists (n / Second * Second). split; [by apply modern_floor|apply format_RFC3339_Nano]. Qed.
Lemma compute_modern kind spec now : modern now →
  ComputeAgentScheduleNextRun cron_next kind spec now = zero_time ∨ modern (ComputeAgentScheduleNextRun cron_next kind spec now).
Proof using cron_later.
  intros Hn. unfold ComputeAgentScheduleNextRun. case_bool_decide; [by right|]. case_bool_decide; [|by left].
  destruct (cron_next _) eqn:Hc; [by eapply cron_later|by right].
Qed.
(** The rows the operator's service writes. *)
Lemma with_first_run_canonical now s : modern now → canonical (s_NextRun s) → canonical (s_NextRun (with_first_run cron_next now s)).
Proof using cron_later.
  intros Hn Hs. unfold with_first_run. destruct (compute_modern (s_ScheduleKind s) (s_ScheduleSpec s) now Hn) as [Hz|Hm].
  - by rewrite Hz.
  - rewrite (modern_IsZero _ Hm). cbn. by apply canonical_RFC3339.
Qed.
Lemma canonical_insert d i s : canonical (s_NextRun s) → canonical_db d → canonical_db (set_schedules (<[i := s]> (schedules d)) d).
Proof. intros Hs Hd j x Hj. cbn in Hj. apply lookup_insert_Some in Hj as [[<- <-]|[_ Hx]]; [done|by eapply Hd]. Qed.
Lemma canonical_effect d k d' : call_canonical k → canonical_db d → effect cron_next json_valid julianday E d k d' → canonical_db d'.
Proof using cron_later.
  assert (∀ row row', prepareAgentSchedule cron_next json_valid row = Ok row' → s_NextRun row' = s_NextRun row) as Hprep.
  { intros row row' H. unfold prepareAgentSchedule in H. destruct (ValidateAgentSchedule _ _ _); [|done]. by injection H as <-. }
  intros Hk Hd He. destruct He; cbn in Hk; try done; try (by destruct a).
  - apply canonical_insert; [|done]. cbn. by rewrite (Hprep _ _ H).
  - apply canonical_insert; [|done]. cbn. by rewrite (Hprep _ _ H).
  - intros i s Hi. cbn in Hi. apply lookup_delete_Some in Hi as [_ Hi]. by eapply Hd.
  - apply canonical_insert; [by apply (Hd id s)|done].
  - apply canonical_insert; [by apply (Hd id s)|done].
  - apply canonical_insert; [|done]. cbn. apply canonical_RFC3339. destruct (compute_modern kind spec now Hk) as [Hz|Hm]; [|by subst].
    subst next. rewrite Hz in H2. done.
  - apply (canonical_insert d); [|done]. cbn. unfold nullableFireTime, formatFireTime. destruct Hk as [->|Hm]; [by left|].
    rewrite modern_IsZero by done. right. by exists (cr_NextRun c).
Qed.
Lemma calls_canonical ks w : Forall call_canonical ks → canonical_db (db w) → canonical_db (db (do_calls cron_next json_valid julianday E ks w)).
Proof using cron_later. apply do_calls_invariant. apply canonical_effect. Qed.

(** The due test compares texts; on canonical texts it compares whole seconds. *)
Lemma schedule_due_iff s now n : year_in_range now → modern n → s_NextRun s = format_Nano n →
  schedule_due (format_RFC3339 now) s = true ↔ s_Status s = ScheduleStatusActive ∧ n / Second ≤ now / Second.
Proof.
  intros Hnow Hn Hs. unfold schedule_due. rewrite Hs, !andb_true_iff, bool_decide_eq_true.
  assert (negb (bool_decide (format_Nano n = "")) = true) as ->.
  { apply negb_true_iff, bool_decide_eq_false. intros He. apply (f_equal Parse) in He. by rewrite parse_format_Nano in He by apply Hn. }
  assert (String.leb (format_Nano n) (format_RFC3339 now) = (n / Second <=? now / Second)) as ->.
  { unfold String.leb, format_Nano, format_RFC3339. rewrite compare_seconds_text by (done || apply Hn).
    assert (String.compare (frac_text (n mod Second) +:+ "Z") "Z" ≠ Gt) as Hfr by (unfold frac_text; by destruct (_ =? 0)).
    destruct (Z.compare_spec (n / Second) (now / Second)) as [->| |]; cbn.
    - rewrite Z.leb_refl. by destruct (String.compare _ _).
    - symmetry. apply Z.leb_le. lia.
    - symmetry. apply Z.leb_gt. lia. }
  rewrite Z.leb_le. tauto.
Qed.

(** Due schedules are found.  Along any calls of the engines, the operator's service
    and the boot, a listing gives active schedules whose time, to the second, has come,
    and, unless it is cut at its limit, all of them. *)
Theorem due_schedules_exact ks w now limit l w1 : canonical_db (db w) → Forall call_canonical ks → year_in_range now →
  let w' := do_calls cron_next json_valid julianday E ks w in
  ListDueAgentSchedules E now limit w' = (Ok l, w1) →
  let due s := ∃ n, Parse (s_NextRun s) = Some n ∧ s_Status s = ScheduleStatusActive ∧ n / Second ≤ now / Second in
  (∀ s, s ∈ l → due s ∧ ∃ i, schedules (db w') !! i = Some s) ∧
  ((length l < limit_of limit)%nat → ∀ i s, schedules (db w') !! i = Some s → due s → s ∈ l).
Proof using cron_later.
  intros Hd Hks Hnow w' Hl due. pose proof (calls_canonical ks w Hks Hd) as Hc. fold w' in Hc. clearbody w'.
  unfold ListDueAgentSchedules, query, exec in Hl. destruct (stmt_fails _ _); [done|]. injection Hl as <- <-.
  assert (∀ s, s ∈ merge_sort by_next (List.filter (schedule_due (format_RFC3339 now)) (map_to_list (schedules (db w'))).*2) ↔
    schedule_due (format_RFC3339 now) s = true ∧ ∃ i, schedules (db w') !! i = Some s) as Hin.
  { intros s. rewrite merge_sort_Permutation. rewrite !list_elem_of_In, filter_In, <- !list_elem_of_In, list_elem_of_fmap. split.
    - intros [([i x]&->&Hx%elem_of_map_to_list) H]. eauto.
    - intros [H [i Hi]]. split; [|done]. exists (i, s). split; [done|]. by apply elem_of_map_to_list. }
  assert (∀ i s, schedules (db w') !! i = Some s → due s ↔ schedule_due (format_RFC3339 now) s = true) as Hdue.
  { intros i s Hi. destruct (Hc i s Hi) as [He|(n&Hn&He)].
    - split; [intros (n&Hp&_); by rewrite He in Hp|]. unfold schedule_due. rewrite He. cbn. by rewrite andb_false_r.
    - rewrite (schedule_due_iff s now n) by done. unfold due. rewrite He, parse_format_Nano by apply Hn. naive_solver. }
  split.
  - intros s Hs. apply (subseteq_take (limit_of limit)), Hin in Hs as [Hs [i Hi]]. split; [by eapply Hdue|eauto].
  - intros Hlen i s Hi Hs. rewrite length_take in Hlen. rewrite take_ge by lia. apply Hin. split; [by eapply Hdue|eauto].
Qed.

(** A due schedule can be fired.  Along any calls, every active schedule with a next
    run has a time, and the creation of a fresh fire for that time succeeds while the
    database works and the agent is bound. *)
Theorem due_schedule_can_be_fired ks w : canonical_db (db w) → Forall call_canonical ks →
  let w' := do_calls cron_next json_valid julianday E ks w in
  ∀ id s, schedules (db w') !! id = Some s → s_Status s = ScheduleStatusActive → s_NextRun s ≠ "" →
  ∃ n, Parse (s_NextRun s) = Some n ∧ ∀ c, cr_ScheduleID c = id → id ≠ "" → IsWorkflowActivationScheduleID id = false →
    cr_ExpectedNext c = n → f_RunID (cr_Fire c) ≠ "" → f_ID (cr_Fire c) = f_RunID (cr_Fire c) →
    f_Status (cr_Fire c) ∈ fire_statuses → f_RetryBackoffStrategy (cr_Fire c) ∈ ["none"; "constant"; "linear"; "exponential"] →
    (∀ i f, runs (db w') !! i = Some f → i ≠ f_RunID (cr_Fire c) ∧ f_RunID f ≠ f_RunID (cr_Fire c)) →
    stmt_fails E (tick w') = false → bound E (tick w') (s_AgentID s) = true →
    (create_fire E c w').1 = Ok true.
Proof using cron_later.
  intros Hd Hks w' id s Hs Hact Hne. pose proof (calls_canonical ks w Hks Hd) as Hc. fold w' in Hc. clearbody w'.
  destruct (Hc id s Hs) as [|(n&Hn&He)]; [done|]. exists n. split; [rewrite He; apply parse_format_Nano, Hn|].
  intros c Hid Hid0 Hkind Hexp Hrun Hfid Hst Hb Hfresh Hstmt Hbound.
  unfold create_fire. rewrite Hid, Hkind. unfold CreateScheduleFire. rewrite !bool_decide_eq_false_2 by congruence. cbn [orb].
  unfold exec. rewrite Hstmt. unfold create_schedule_fire. cbn [cr_Fire cr_ScheduleID cr_ExpectedNext cr_NextRun with_key f_RunID f_ID].
  assert (find_row (has_run (f_RunID (cr_Fire c))) (runs (db w')) = None) as ->.
  { apply row_absent. intros i f Hi. unfold has_run. apply bool_decide_eq_false. by destruct (Hfresh i f Hi). }
  rewrite bool_decide_eq_false_2 by (by intros []). unfold update_schedule. rewrite Hid, Hs, Hact, Hexp.
  unfold formatFireTime. rewrite (modern_IsZero n Hn), He. rewrite He in Hne.
  rewrite (bool_decide_eq_true_2 (ScheduleStatusActive = ScheduleStatusActive)), (bool_decide_eq_false_2 _ Hne), bool_decide_eq_true_2 by done.
  cbn [negb andb]. rewrite Hbound. unfold insert_fire. cbn [with_key f_Status f_RetryBackoffStrategy f_ID negb].
  rewrite !bool_decide_eq_true_2 by done. cbn [negb runs set_schedules]. rewrite Hfid.
  destruct (runs (db w') !! f_RunID (cr_Fire c)) as [f|] eqn:Hf; [by destruct (Hfresh _ _ Hf)|done].
Qed.
End Due.

(** ** Worked examples *)

Module Example_schedules.
Definition cron (spec : string) : option (Z → Z) := None.
Definition json (s : string) : bool := true.
(** Milliseconds, as SQLite keeps them. *)
Definition julian (s : string) : option Z := (λ t, t / 1000000) <$> Parse s.
Definition env : Env := mkEnv (λ t, 1767225600000000000 + Z.of_nat t) (λ _, "01") (λ _, false) (λ _, "2026-01-01 00:00:00") (λ _ _, true) (λ _ _, Some []).
(** Fires are named after their schedule and their time. *)
Definition sched_of (id : string) : string := match cut "@" id with Some (a, _) => a | None => id end.
Definition noon : Z := 1767268800000000000.
Definition row : AgentSchedule := mkSchedule "s1" "agent" "" "report" "one_shot" "" "write the report" 0 "active" "2026-01-01T00:00:00Z" 0 "" "" "operator" 3 "retry"
  "2026-01-01T12:00:00Z" "durable_agent_wake" "{}".
Definition w0 : SW := mkSW (mkSDB {["s1" := row]} ∅ ∅ ∅) 0.
Definition fire : ScheduleFire := mkFire "s1@1" "s1" "s1@1" "2026-01-01T12:00:00Z" "" None None "pending" 0 "" "" 3 "exponential" 30000000000 300000000000 "durable_agent_wake" "{}".
Definition creation : ScheduleFireCreation := mkCreation "s1" noon zero_time fire.
Definition w1 : SW := (create_fire env creation w0).2.
Definition first_claim : ScheduleFireClaim := mkClaim "s1@1" "pending" 0 zero_time noon (noon + 60 * Second).
Definition w2 : SW := (claim_in julian env false first_claim w1).2.
(** The lease is over after a minute, and another engine takes the fire over. *)
Definition recovery : ScheduleFireClaim := mkClaim "s1@1" "claimed" 1 noon (noon + 60 * Second) (noon + 120 * Second).
Definition w3 : SW := (claim_in julian env false recovery w2).2.
Definition early : ScheduleFireClaim := mkClaim "s1@1" "claimed" 1 noon (noon + 59 * Second) (noon + 120 * Second).
Definition finish : ScheduleFireTransition := mkTransition "s1@1" 1 "claimed" noon "succeeded" zero_time "".

(** The transition of an owner that claimed a minute before. *)
Definition finish_stale : ScheduleFireTransition := mkTransition "s1@1" 1 "claimed" (noon - 60 * Second) "succeeded" zero_time "".

Lemma w0_sound : sound sched_of (db w0).
Proof.
  split; [split; intros * H; vm_compute in H; discriminate|split; intros * H; vm_compute in H; discriminate|].
  intros i s H. cbn in H. apply lookup_singleton_Some in H as [<- <-]. reflexivity.
Qed.
Lemma created : create_fire env creation w0 = (Ok true, w1).
Proof. by vm_compute. Qed.
Lemma w1_sound : sound sched_of (db w1).
Proof.
  destruct (calls_sound sched_of cron json julian env [KCreate creation] w0) as [H _]; [|exact w0_sound|exact H].
  repeat constructor.
Qed.
Lemma claimed : ∃ f, claim_in julian env false first_claim w1 = (Ok (Some f), w2) ∧ f_AttemptCount f = 1.
Proof. eexists. split; vm_compute; reflexivity. Qed.
Lemma w3_sound : sound sched_of (db w3).
Proof.
  destruct (calls_sound sched_of cron json julian env [KCreate creation; KClaim false first_claim; KClaim false recovery] w0) as [H _]; [|exact w0_sound|exact H].
  repeat constructor.
Qed.

Lemma fires_are_kept_witness :
  ∃ f, runs (db (do_calls cron json julian env [KClaim false first_claim; KDelete "s1"] w1)) !! "s1@1" = Some f ∧ f_ScheduleID f = "s1".
Proof.
  assert (Forall (call_ok sched_of) [KClaim false first_claim; KDelete "s1"]) as Hok by repeat constructor.
  destruct (fires_are_kept sched_of cron json julian env _ _ Hok w1_sound) as [_ H].
  destruct (H false "s1@1" (with_key "s1@1" "s1" fire)) as (f&Hf&Hid&_); [by vm_compute|].
  exists f. split; [exact Hf|]. exact (f_equal (λ x, x.1.1.1.1.1.1.1.1.2) Hid).
Defined.
Lemma early_in_lease : jd_le julian (formatFireTime (cl_ClaimExpiresAt first_claim)) (formatFireTime (cl_ClaimedAt early)) = false.
Proof. by vm_compute. Qed.
Lemma lease_is_exclusive_witness : ¬ ∃ g, (claim_in julian env false early (do_calls cron json julian env [KTransition false finish_stale] w2)).1 = Ok (Some g).
Proof.
  destruct claimed as (f&Hf&_). intros [g Hg]. revert Hg.
  refine (proj1 (proj2 (lease_is_exclusive sched_of cron json julian env false first_claim w1 f w2 [KTransition false finish_stale] w1_sound Hf _ _))
    early eq_refl _ g).
  - repeat constructor.
  - constructor; [|constructor]. intros (_&_&_&H). vm_compute in H. discriminate.
  - intros (_&_&_&_&H). rewrite early_in_lease in H. discriminate.
Defined.
Lemma w3_taken_over : present false "s1@1" (db w3) ∧ taken_over "s1@1" 1 noon (runs (db w3)).
Proof.
  assert (∃ f, runs (db w3) = {["s1@1" := f]} ∧ f_RunID f = "s1@1" ∧ f_FiredAt f = "2026-01-01T12:01:00Z") as (f&Hr&Hrun&Hfired).
  { eexists. split; [vm_compute; reflexivity|by vm_compute]. }
  split.
  - exists "s1@1", f. cbn [fires_of]. rewrite Hr. split; [apply lookup_singleton_eq|done].
  - rewrite Hr. intros i g [<- <-]%lookup_singleton_Some _ _. rewrite Hfired. by vm_compute.
Qed.
Lemma stale_owner_is_refused_witness : (transition_in env false finish w3).1 ≠ Ok true.
Proof.
  exact (proj1 (proj1 (stale_owner_is_refused sched_of cron json julian env false "s1@1" 1 noon [] w3 w3_sound (proj1 w3_taken_over) (proj2 w3_taken_over)
    (List.Forall_nil _) (List.Forall_nil _)) finish eq_refl eq_refl eq_refl)).
Defined.
Lemma occurrence_fires_once_witness : (create_fire env creation w2).1 ≠ Ok true.
Proof.
  assert (call_ok sched_of (KCreate creation)) as Hok by reflexivity.
  assert (Forall (call_ok sched_of) [KClaim false first_claim]) as Hks by repeat constructor.
  pose proof (occurrence_fires_once sched_of cron json julian env creation w0 [KClaim false first_claim] creation w0_sound Hok Hks Hok eq_refl) as H.
  rewrite created in H. exact (proj1 (proj2 (proj2 H))).
Defined.
(** The operator renames the schedule while it fires. *)
Definition rename : SchedulePatch := mkPatch (Some "weekly report") None None None None None None None None None.
Definition patched_state : result SErr AgentSchedule * SW := patch_row cron json env "s1" rename row w1.
Lemma patched_ok : ∃ r, patched_state = (Ok r, patched_state.2).
Proof. eexists. vm_compute. reflexivity. Qed.
Lemma patch_undoes_a_firing_witness : (create_fire env creation patched_state.2).1 ≠ Ok true ∧ ∃ r, schedules (db patched_state.2) !! "s1" = Some r ∧ s_NextRun r = formatFireTime noon.
Proof.
  destruct patched_ok as [r Hr].
  destruct (patch_undoes_a_firing sched_of cron json julian env "s1" rename row creation w0 w1 r patched_state.2 [] creation w0_sound eq_refl
    (lookup_singleton_eq _ _) eq_refl eq_refl created eq_refl Hr (List.Forall_nil _) eq_refl eq_refl) as (H1&H2&_&H4).
  split; [exact H4|]. exists r. split; [exact H1|exact H2].
Defined.

Lemma modern_noon : modern noon.
Proof. split; vm_compute; [discriminate|]. split; [discriminate|reflexivity]. Qed.
Lemma cron_later : ∀ spec next t, cron spec = Some next → modern t → next t = zero_time ∨ modern (next t).
Proof. by intros. Qed.
Lemma row_canonical : canonical_db (db w0).
Proof.
  intros i s H. cbn in H. apply lookup_singleton_Some in H as [<- <-]. right. exists noon. split; [exact modern_noon|by vm_compute].
Qed.
(** A schedule fires although it expired twelve hours before. *)
Definition listed : result SErr (list AgentSchedule) * SW := ListDueAgentSchedules env noon 10 w0.
Lemma listed_row : listed = (Ok [row], listed.2).
Proof. by vm_compute. Qed.
Example expiry_is_ignored : listed.1 = Ok [row] ∧ ∃ e, Parse (s_ExpiresAt row) = Some e ∧ e < noon.
Proof. split; [by vm_compute|]. exists 1767225600000000000. split; vm_compute; reflexivity. Qed.
(** A time with a fraction of a second is listed up to a second early. *)
Example listed_early : schedule_due (format_RFC3339 noon) (with_next (format_Nano (noon + 900000000)) row) = true.
Proof. by vm_compute. Qed.
Lemma due_schedules_exact_witness : ∃ n, Parse (s_NextRun row) = Some n ∧ n / Second ≤ noon / Second.
Proof.
  destruct (due_schedules_exact cron json julian env cron_later [] w0 noon 10 [row] listed.2 row_canonical (List.Forall_nil _) (proj2 modern_noon) listed_row) as [H _].
  destruct (H row (list_elem_of_here _ _)) as [(n&Hn&_&Hle) _]. exists n. split; [exact Hn|exact Hle].
Defined.
Lemma due_schedule_can_be_fired_witness : (create_fire env creation w0).1 = Ok true.
Proof.
  destruct (due_schedule_can_be_fired cron json julian env cron_later [] w0 row_canonical (List.Forall_nil _) "s1" row (lookup_singleton_eq _ _) eq_refl) as (n&Hn&H); [discriminate|].
  assert (Parse (s_NextRun row) = Some noon) as Hp by (vm_compute; reflexivity). rewrite Hp in Hn. injection Hn as <-.
  apply H; [reflexivity|discriminate|reflexivity|reflexivity|discriminate|reflexivity|by_decide|by_decide| |reflexivity|reflexivity].
  intros i f Hi. vm_compute in Hi. discriminate.
Defined.
End Example_schedules.
