(* ===== verification/Scheduler.v ===== *)
(** * The scheduler adapters

    [internal/scheduler]: the adapter that shows the tables of [ScheduleStore] to the
    scheduling library ([store_adapter.go]) and the one that hands a fired job to its
    target and keeps the receipt of the dispatch ([runner_adapter.go]).  The library,
    the JSON codecs and the targets are parameters; every call to a target is
    recorded. *)

From stdpp Require Import sorting.
From S2P Require Import Prelude GoStrings GoNum GoTime ScheduleStore.

Open Scope string_scope.
Open Scope Z_scope.
Set Default Proof Using "Type".

(** ** What passes between the adapter and the library *)

Record BackoffPolicy := mkBackoff { Strategy : string; InitialDelay : Z; MaxDelay : Z }.
Record RetryPolicy := mkRetry { MaxAttempts : Z; Backoff : BackoffPolicy }.
Record Schedule := mkGoSchedule {
  g_ID : string;
  g_CronExpr : string;
  g_LastRun : Z;
  g_NextRun : Z;
  g_Enabled : bool;
  g_JobType : string;
  g_Payload : string;
  g_Retry : RetryPolicy;
}.
Record Fire := mkGoFire {
  gf_ID : string;
  gf_ScheduleID : string;
  gf_ScheduledAt : Z;
  gf_FiredAt : Z;
  gf_ClaimExpiresAt : Z;
  gf_Attempt : Z;
  gf_Status : string;
  gf_NextAttemptAt : Z;
  gf_LastError : string;
  gf_Retry : RetryPolicy;
  gf_JobType : string;
  gf_Payload : string;
}.
Record FireCreation := mkFireCreation { fc_ScheduleID : string; fc_ExpectedNext : Z; fc_NextRun : Z; fc_Fire : Fire }.
Record FireClaim := mkFireClaim {
  fl_FireID : string; fl_ExpectedStatus : string; fl_ExpectedAttempt : Z;
  fl_ExpectedFiredAt : Z; fl_ClaimedAt : Z; fl_ClaimExpiresAt : Z }.
Record FireTransition := mkFireTransition {
  ft_FireID : string; ft_Attempt : Z; ft_From : string; ft_ClaimedAt : Z; ft_To : string;
  ft_NextAttemptAt : Z; ft_Error : string }.
Record Job := mkJob {
  j_RunID : string;
  j_FireID : string;
  j_ScheduleID : string;
  j_JobType : string;
  j_Payload : string;
  j_Attempt : Z;
  j_ScheduledAt : Z;
  j_FiredAt : Z;
}.

Definition JobTypeDurableAgentWake : string := "durable_agent_wake".
Definition JobTypeAgentWorkflowRun : string := "agent_workflow_run".
Definition JobTypeCommandRun : string := "command_run".
Definition JobTypeReflexDispatch : string := "reflex_dispatch".
Definition JobTypeLoopRunTick : string := "loop_run_tick".
Definition JobTypeWorkflowActivation : string := "workflow_activation".

Definition scheduleRetryInitialDelay : Z := 30 * Second.
Definition scheduleRetryMaximumDelay : Z := 5 * 60 * Second.
Definition workflowRetryInitialDelay : Z := Second.
Definition workflowRetryMaximumDelay : Z := 30 * Second.
Definition workflowRetryMaxAttempts : Z := 3.

(** ** Payloads *)

Record DurableAgentWakePayload := mkWakePayload {
  w_InstanceID : string; w_ProjectID : string; w_Reason : string; w_Prompt : string;
  w_Facts : gmap string string; w_Metadata : gmap string string }.
Record AgentWorkflowRunPayload := mkRunPayload {
  r_WorkflowName : string; r_Params : string; r_ProjectID : string; r_AgentProfileID : string;
  r_ParentSessionID : string; r_TimeoutSeconds : Z }.
Record CommandRunPayload := mkCommandPayload { c_AgentID : string; c_Command : string; c_Args : string }.
Record ReflexDispatchPayload := mkReflexPayload { x_ReflexID : string; x_SessionID : string }.
Record LoopRunTickPayload := mkTickPayload { k_LoopRunID : string }.
(** An activation of the workflow library, by its identity and its time. *)
Record Activation := mkGoActivation { ac_ID : string; ac_FireAt : Z; ac_rest : string }.

Inductive RErr :=
| RStore (e : SErr)
| RParse (column : string)
| REncode
| RBadPayload
| RUnknownJobType (t : string)
| RNoInstance
| RArchivedInstance
| RAmbiguousInstance
| RNotConfigured (t : string)
| RDecode (t : string)
| RMissing (field : string)
| RTarget (msg : string)
| RMismatch
| RDuplicateJob
| RClaimLost
| RPruneUnsupported.

(** The codecs of [encoding/json] for the payloads; the names of the library's backoff
    strategies. *)
Class Codecs := {
  encode_wake : DurableAgentWakePayload → option string;
  decode_wake : string → option DurableAgentWakePayload;
  decode_run : string → option AgentWorkflowRunPayload;
  decode_command : string → option CommandRunPayload;
  decode_reflex : string → option ReflexDispatchPayload;
  decode_tick : string → option LoopRunTickPayload;
  decode_activation : string → option Activation;
  activation_valid : Activation → bool;
  BackoffNone : string;
  BackoffExponential : string;
}.

Section Adapter.
Context {K : Codecs} (json_valid : string → bool) (julianday : string → option Z) (E : Env).
Abbreviation op A := (act SW RErr A).
Definition store {A} (m : act SW SErr A) : op A := wrap RStore m.

(** ** The store adapter *)

Definition parseScheduleTime (v : string) : option Z := if bool_decide (v = "") then Some zero_time else Parse v.
Definition formatScheduleTime (t : Z) : string := if IsZero t then "" else format_Nano t.
Definition need {A} (column : string) (o : option A) : result RErr A :=
  match o with Some a => Ok a | None => Err (RParse column) end.

(** The one instance of a profile; archived ones are told from missing ones. *)
Definition instances (archived : bool) : op (option (list (string * string))) :=
  λ w, (Ok (instances_at E (tick w) archived), up w).
Definition profileHasArchivedInstance (profileID : string) : op bool :=
  all ← instances true;
  mret match all with None => false | Some l => existsb (λ i, bool_decide (i.2 = profileID)) l end.
Definition resolveDurableAgentInstanceID (profileID : string) : op string :=
  l ← instances false;
  match l with
  | None => fail (RStore EDatabase)
  | Some l =>
      match List.filter (λ i, bool_decide (i.2 = profileID)) l with
      | [] => b ← profileHasArchivedInstance profileID; fail (if (b : bool) then RArchivedInstance else RNoInstance)
      | [i] => mret i.1
      | _ => fail RAmbiguousInstance
      end
  end.
Definition buildPayload (r : AgentSchedule) : op string :=
  if bool_decide (s_JobType r = JobTypeDurableAgentWake) then
    id ← resolveDurableAgentInstanceID (s_AgentID r);
    match encode_wake (mkWakePayload id "" "" (s_Body r) ∅ ∅) with Some b => mret b | None => fail REncode end
  else if bool_decide (s_JobType r ∈ [JobTypeAgentWorkflowRun; JobTypeCommandRun; JobTypeReflexDispatch; JobTypeLoopRunTick]) then
    let raw := if bool_decide (s_JobPayload r = "") then "{}" else s_JobPayload r in
    if json_valid raw then mret raw else fail RBadPayload
  else fail (RUnknownJobType (s_JobType r)).
Definition toSchedule (r : AgentSchedule) : op Schedule :=
  next ← lift (need "next_run" (parseScheduleTime (s_NextRun r)));
  last ← lift (need "last_fired_at" (parseScheduleTime (s_LastFiredAt r)));
  payload ← buildPayload r;
  mret (mkGoSchedule (s_ID r) (if bool_decide (s_ScheduleKind r = ScheduleKindCron) then s_ScheduleSpec r else "")
    last next (bool_decide (s_Status r = ScheduleStatusActive)) (s_JobType r) payload
    (mkRetry (s_MaxRetries r) (mkBackoff BackoffExponential scheduleRetryInitialDelay scheduleRetryMaximumDelay))).
Definition toWorkflowActivationSchedule (r : WorkflowActivationSchedule) : result RErr Schedule :=
  next ← need "next_run" (parseScheduleTime (a_NextRun r));
  if negb (json_valid (a_ActivationJSON r)) then Err RBadPayload else
  Ok (mkGoSchedule (a_ScheduleID r) "" zero_time next (bool_decide (a_Status r = "active")) JobTypeWorkflowActivation (a_ActivationJSON r)
    (mkRetry workflowRetryMaxAttempts (mkBackoff BackoffExponential workflowRetryInitialDelay workflowRetryMaximumDelay))).

(** Rows that do not convert are skipped. *)
Fixpoint convert_rows {R A} (f : R → op A) (l : list R) : op (list A) :=
  match l with
  | [] => mret []
  | r :: rest => o ← attempt (f r); out ← convert_rows f rest;
                 mret (match o with Ok a => a :: out | Err _ => out end)
  end.
Definition schedule_before (a b : Schedule) : Prop :=
  g_NextRun a < g_NextRun b ∨ g_NextRun a = g_NextRun b ∧ String.leb (g_ID a) (g_ID b) = true.
#[global] Instance schedule_before_dec : RelDecision schedule_before.
Proof. intros a b. unfold schedule_before. apply _. Defined.
Definition cap {A} (limit : Z) (l : list A) : list A := if 0 <? limit then take (Z.to_nat limit) l else l.
Definition ListDueSchedules (now limit : Z) : op (list Schedule) :=
  rows ← store (ListDueAgentSchedules E now limit);
  agents ← convert_rows toSchedule rows;
  acts ← store (ListDueWorkflowActivationSchedules julianday E now limit);
  out ← convert_rows (λ r, lift (toWorkflowActivationSchedule r)) acts;
  mret (cap limit (merge_sort schedule_before (agents ++ out)%list)).

Definition fromFire (f : Fire) : ScheduleFire :=
  let b := Backoff (gf_Retry f) in
  let strategy := if bool_decide (Strategy b = "") then BackoffNone else Strategy b in
  mkFire (gf_ID f) (gf_ScheduleID f) (gf_ID f) (formatScheduleTime (gf_ScheduledAt f)) (formatScheduleTime (gf_FiredAt f))
    (Some (formatScheduleTime (gf_ClaimExpiresAt f))) None (gf_Status f) (gf_Attempt f) (gf_LastError f)
    (formatScheduleTime (gf_NextAttemptAt f)) (MaxAttempts (gf_Retry f)) strategy (InitialDelay b) (MaxDelay b)
    (gf_JobType f) (gf_Payload f).
Definition toFire (r : ScheduleFire) : result RErr Fire :=
  scheduled ← need "scheduled_at" (parseScheduleTime (f_ScheduledAt r));
  fired ← need "fired_at" (parseScheduleTime (f_FiredAt r));
  expires ← need "claim_expires_at" (parseScheduleTime (default "" (f_ClaimExpiresAt r)));
  next ← need "next_attempt_at" (parseScheduleTime (f_NextAttemptAt r));
  Ok (mkGoFire (f_RunID r) (f_ScheduleID r) scheduled fired expires (f_AttemptCount r) (f_Status r) next (f_LastError r)
    (mkRetry (f_RetryMaxAttempts r) (mkBackoff (f_RetryBackoffStrategy r) (f_RetryInitialDelayNanos r) (f_RetryMaximumDelayNanos r)))
    (f_JobType r) (f_JobPayload r)).

Definition CreateFire (c : FireCreation) : op bool :=
  let request := mkCreation (fc_ScheduleID c) (fc_ExpectedNext c) (fc_NextRun c) (fromFire (fc_Fire c)) in
  if IsWorkflowActivationScheduleID (fc_ScheduleID c) then store (CreateWorkflowActivationFire E request)
  else store (CreateScheduleFire E request).
Fixpoint decode_all (l : list ScheduleFire) : result RErr (list Fire) :=
  match l with [] => Ok [] | r :: rest => f ← toFire r; out ← decode_all rest; Ok (f :: out) end.
Definition attempt_time (f : Fire) : Z := if IsZero (gf_NextAttemptAt f) then gf_ScheduledAt f else gf_NextAttemptAt f.
Definition go_fire_before (a b : Fire) : Prop :=
  attempt_time a < attempt_time b ∨ attempt_time a = attempt_time b ∧ String.leb (gf_ID a) (gf_ID b) = true.
#[global] Instance go_fire_before_dec : RelDecision go_fire_before.
Proof. intros a b. unfold go_fire_before. apply _. Defined.
(** One fire that does not decode fails the whole listing. *)
Definition ListDueFires (now limit : Z) : op (list Fire) :=
  rows ← store (ListDueScheduleFires julianday E now limit);
  out ← lift (decode_all rows);
  rows ← store (ListDueWorkflowActivationFires julianday E now limit);
  more ← lift (decode_all rows);
  mret (cap limit (merge_sort go_fire_before (out ++ more)%list)).

(** Whether a fire is of a workflow activation. *)
Definition is_activation_fire (id : string) : op bool :=
  r ← attempt (store (GetWorkflowActivationFire E id));
  match r with
  | Ok _ => mret true
  | Err (RStore EActivationFireNotFound) => mret false
  | Err e => fail e
  end.
Definition ClaimFire (c : FireClaim) : op (option Fire) :=
  let request := mkClaim (fl_FireID c) (fl_ExpectedStatus c) (fl_ExpectedAttempt c) (fl_ExpectedFiredAt c) (fl_ClaimedAt c) (fl_ClaimExpiresAt c) in
  b ← is_activation_fire (fl_FireID c);
  row ← store (if (b : bool) then ClaimWorkflowActivationFire julianday E request else ClaimScheduleFire julianday E request);
  match row with None => mret None | Some r => f ← lift (toFire r); mret (Some f) end.
Definition TransitionFire (t : FireTransition) : op bool :=
  let request := mkTransition (ft_FireID t) (ft_Attempt t) (ft_From t) (ft_ClaimedAt t) (ft_To t) (ft_NextAttemptAt t) (ft_Error t) in
  b ← is_activation_fire (ft_FireID t);
  store (if (b : bool) then TransitionWorkflowActivationFire E request else TransitionScheduleFire E request).
Definition DisableSchedule (id : string) : op unit :=
  if IsWorkflowActivationScheduleID id then now ← store (Now E); store (DisableWorkflowActivationSchedule E id now)
  else store (UpdateAgentScheduleStatus E id ScheduleStatusExpired).
Definition Prune : op Z := fail RPruneUnsupported.
End Adapter.

(** ** The runner adapter *)

(** The targets of the jobs.  A call is recorded, and ends well or with a message. *)
Inductive TargetCall :=
| Wake (id project reason prompt : string) (facts metadata : gmap string string)
| Launch (p : AgentWorkflowRunPayload)
| Execute (agent command args : string)
| Apply (reflex session agent class : string)
| ResumeLoop (id : string)
| DispatchActivation (a : Activation) (firedAt : Z).
(** What a call gives back: an error, a tool result that is an error, or an answer
    that says whether an activation made progress. *)
Inductive TargetAnswer := Failed (msg : string) | ToolError (msg : string) | Done (applied : bool).
Record Reflex := mkReflex { rx_AgentID : string; rx_ClassTag : string; rx_Status : string }.
(** Which dependencies are wired, and how they answer at the n-th moment. *)
Record Targets := mkTargets {
  has_wake : bool; has_workflows : bool; has_commands : bool; has_reflexes : bool; has_loops : bool;
  has_activations : bool; has_receipts : bool;
  answer : nat → TargetCall → TargetAnswer;
  reflex_at : nat → string → option (option Reflex);
  loop_status_at : nat → string → option (option string);
}.
(** [dispatched] holds the calls, each with the fire it was made for. *)
Record RW := mkRW { sw : SW; dispatched : list (string * TargetCall) }.

Section Runner.
Context {K : Codecs} (E : Env) (T : Targets).
Abbreviation op A := (act RW RErr A).
Definition rstore {A} (m : act SW SErr A) : op A := λ w,
  let '(r, s) := m (sw w) in (match r with Ok a => Ok a | Err e => Err (RStore e) end, mkRW s (dispatched w)).
Definition observe {A} (f : nat → A) : op A := λ w, (Ok (f (tick (sw w))), mkRW (up (sw w)) (dispatched w)).
Definition call (fire : string) (c : TargetCall) : op TargetAnswer := λ w,
  (Ok (answer T (tick (sw w)) c), mkRW (up (sw w)) (dispatched w ++ [(fire, c)])%list).
Definition plain (a : TargetAnswer) : op unit := match a with Failed m => fail (RTarget m) | _ => mret tt end.
Definition decoded {A} (t : string) (o : option A) : op A := match o with Some a => mret a | None => fail (RDecode t) end.

Definition fire_of (j : Job) : string := if bool_decide (j_FireID j = "") then j_RunID j else j_FireID j.
Definition enqueueWorkflowActivation (j : Job) : op unit :=
  if negb (has_activations T) then fail (RNotConfigured JobTypeWorkflowActivation) else
  a ← decoded JobTypeWorkflowActivation (decode_activation (j_Payload j));
  if negb (activation_valid a) then fail RBadPayload else
  if negb (bool_decide (j_ScheduleID j = WorkflowActivationScheduleID (ac_ID a))) || negb (j_ScheduledAt j =? ac_FireAt a) then fail RMismatch else
  r ← call (fire_of j) (DispatchActivation a (j_FiredAt j));
  match r with Failed m | ToolError m => fail (RTarget m) | Done true => mret tt | Done false => fail RDuplicateJob end.
Definition enqueueDurableAgentWake (j : Job) : op unit :=
  if negb (has_wake T) then fail (RNotConfigured JobTypeDurableAgentWake) else
  p ← decoded JobTypeDurableAgentWake (decode_wake (j_Payload j));
  if bool_decide (w_InstanceID p = "") then fail (RMissing "instance_id") else
  r ← call (fire_of j) (Wake (w_InstanceID p) (w_ProjectID p) (w_Reason p) (w_Prompt p) (w_Facts p) (w_Metadata p));
  plain r.
Definition enqueueAgentWorkflowRun (j : Job) : op unit :=
  if negb (has_workflows T) then fail (RNotConfigured JobTypeAgentWorkflowRun) else
  p ← decoded JobTypeAgentWorkflowRun (decode_run (j_Payload j));
  if bool_decide (r_WorkflowName p = "") then fail (RMissing "workflow_name") else
  if bool_decide (r_AgentProfileID p = "") then fail (RMissing "agent_profile_id") else
  r ← call (fire_of j) (Launch p);
  plain r.
Definition enqueueCommandRun (j : Job) : op unit :=
  if negb (has_commands T) then fail (RNotConfigured JobTypeCommandRun) else
  p ← decoded JobTypeCommandRun (decode_command (j_Payload j));
  if bool_decide (c_Command p = "") then fail (RMissing "command") else
  r ← call (fire_of j) (Execute (c_AgentID p) (c_Command p) (c_Args p));
  match r with Failed m | ToolError m => fail (RTarget m) | Done _ => mret tt end.
Definition ReflexStatusActive : string := "active".
Definition enqueueReflexDispatch (j : Job) : op unit :=
  if negb (has_reflexes T) then fail (RNotConfigured JobTypeReflexDispatch) else
  p ← decoded JobTypeReflexDispatch (decode_reflex (j_Payload j));
  if bool_decide (x_ReflexID p = "") then fail (RMissing "reflex_id") else
  o ← observe (λ t, reflex_at T t (x_ReflexID p));
  match o with
  | None => fail (RTarget "lookup")
  | Some None => fail (RTarget "not found")
  | Some (Some x) =>
      if negb (bool_decide (rx_Status x = ReflexStatusActive)) then mret tt else
      r ← call (fire_of j) (Apply (x_ReflexID p) (x_SessionID p) (rx_AgentID x) (rx_ClassTag x));
      plain r
  end.
Definition isResumableLoopRunStatus (status : string) : bool :=
  bool_decide (status = "waiting_on_gate") || bool_decide (status = "waiting_on_escalation").
Definition enqueueLoopRunTick (j : Job) : op unit :=
  if negb (has_loops T) then fail (RNotConfigured JobTypeLoopRunTick) else
  p ← decoded JobTypeLoopRunTick (decode_tick (j_Payload j));
  if bool_decide (k_LoopRunID p = "") then fail (RMissing "loop_run_id") else
  o ← observe (λ t, loop_status_at T t (k_LoopRunID p));
  match o with
  | None => fail (RTarget "lookup")
  | Some s =>
      if negb (match s with Some st => isResumableLoopRunStatus st | None => false end) then mret tt else
      r ← call (fire_of j) (ResumeLoop (k_LoopRunID p));
      plain r
  end.
Definition dispatch (j : Job) : op unit :=
  let t := j_JobType j in
  if bool_decide (t = JobTypeDurableAgentWake) then enqueueDurableAgentWake j
  else if bool_decide (t = JobTypeAgentWorkflowRun) then enqueueAgentWorkflowRun j
  else if bool_decide (t = JobTypeCommandRun) then enqueueCommandRun j
  else if bool_decide (t = JobTypeReflexDispatch) then enqueueReflexDispatch j
  else if bool_decide (t = JobTypeLoopRunTick) then enqueueLoopRunTick j
  else if bool_decide (t = JobTypeWorkflowActivation) then enqueueWorkflowActivation j
  else fail (RUnknownJobType t).
(** A job whose dispatch was accepted is not dispatched again; an accepted dispatch is
    put on record before the job counts as run. *)
Definition Enqueue (j : Job) : op unit :=
  let fire := fire_of j in
  accepted ← (if has_receipts T then rstore (IsScheduleFireDispatchAccepted E fire) else mret false);
  if (accepted : bool) then fail RDuplicateJob else
  _ ← dispatch j;
  if negb (has_receipts T) then mret tt else
  now ← rstore (Now E);
  marked ← rstore (MarkScheduleFireDispatchAccepted E fire (j_Attempt j) (j_FiredAt j) now);
  if (marked : bool) then mret tt else fail RClaimLost.
End Runner.

(** ** The observer *)

Inductive ObserverKind := ObserverSuccess | ObserverRetry | ObserverExhaustion | ObserverSkip | ObserverOther.
Record ObserverEvent := mkEvent { ev_Kind : ObserverKind; ev_Fire : Fire; ev_Reason : string; ev_Err : option string }.
Inductive Outcome := OutcomeSuccess | OutcomeRetry | OutcomeSkipped | OutcomeExhausted.
#[global] Instance Outcome_eq_dec : EqDecision Outcome.
Proof. solve_decision. Defined.
Record Trace := mkTrace {
  t_ScheduleID : string; t_ScheduleName : string; t_RunID : string; t_RowID : string; t_JobType : string;
  t_Payload : option string; t_Outcome : Outcome; t_AttemptCount : Z; t_MaxRetries : Z; t_OnFail : string;
  t_Error : string; t_Reason : string; t_Detail : string }.
(** [traces] holds the events logged. *)
Record OW := mkOW { osw : SW; traces : list Trace }.

Section Observer.
Context {K : Codecs} (json_valid : string → bool) (E : Env) (has_schedules has_fires has_disabler has_traces : bool).
Definition ostore {A} (m : act SW RErr A) : act OW RErr A := λ w,
  let '(r, s) := m (osw w) in (r, mkOW s (traces w)).
Definition log_event (t : Trace) : act OW RErr unit := λ w, (Ok tt, mkOW (osw w) (traces w ++ [t])%list).

(** The outcome of an event, when it is one. *)
Definition outcome_of (ev : ObserverEvent) : option Outcome :=
  match ev_Kind ev with
  | ObserverSuccess => Some OutcomeSuccess
  | ObserverRetry => Some OutcomeRetry
  | ObserverExhaustion => Some OutcomeExhausted
  | ObserverSkip => if bool_decide (gf_Status (ev_Fire ev) = ScheduleFireStatusSkipped) then Some OutcomeSkipped else None
  | ObserverOther => None
  end.
Definition applyOnFail (scheduleID onFail : string) : act OW RErr unit :=
  if bool_decide (onFail = ScheduleOnFailDisable) then
    if negb has_disabler then fail (RNotConfigured "disabler") else ostore (DisableSchedule E scheduleID)
  else if bool_decide (onFail ∈ [ScheduleOnFailNotify; ScheduleOnFailRetry; ""]) then mret tt
  else fail (RMissing "on_fail").
Definition trace_of (ev : ObserverEvent) (o : Outcome) (name row onFail : string) : Trace :=
  let f := ev_Fire ev in
  let failed := match o with OutcomeRetry | OutcomeExhausted => true | _ => false end in
  mkTrace (gf_ScheduleID f) name (gf_ID f) row (gf_JobType f)
    (if negb (bool_decide (gf_Payload f = "")) && json_valid (gf_Payload f) then Some (gf_Payload f) else None)
    o (gf_Attempt f) (if failed then MaxAttempts (gf_Retry f) else 0) (if failed then onFail else "")
    (default "" (ev_Err ev)) (ev_Reason ev) (if bool_decide (name = "") then gf_ScheduleID f else name).
(** An error of a read or of the policy joins the others; the event is logged anyway. *)
Definition errors_of {A} (r : result RErr A) : list RErr := match r with Ok _ => [] | Err e => [e] end.
Definition Observe (ev : ObserverEvent) : act OW RErr (list RErr) :=
  let f := ev_Fire ev in
  if bool_decide (gf_JobType f = JobTypeWorkflowActivation) then mret [] else
  match outcome_of ev with
  | None => mret []
  | Some o =>
      s ← (if has_schedules && negb (bool_decide (gf_ScheduleID f = ""))
           then r ← attempt (ostore (store (GetAgentSchedule E (gf_ScheduleID f)))); mret (Some r) else mret None);
      let '(name, onFail) := match s with Some (Ok r) => (s_Name r, s_OnFail r) | _ => ("", "") end in
      row ← (if has_fires && negb (bool_decide (gf_ID f = ""))
             then r ← attempt (ostore (store (GetScheduleFire E (gf_ID f)))); mret (Some r) else mret None);
      let id := match row with Some (Ok r) => f_ID r | _ => "" end in
      e ← (match o with OutcomeExhausted => r ← attempt (applyOnFail (gf_ScheduleID f) onFail); mret (errors_of r) | _ => mret [] end);
      _ ← (if has_traces then log_event (trace_of ev o name id onFail) else mret tt);
      mret (match s with Some r => errors_of r | None => [] end ++ match row with Some r => errors_of r | None => [] end ++ e)%list
  end.
End Observer.

(** ** Fires through the adapter *)

Section AdapterFacts.
Context {K : Codecs}.
Definition time_ok (t : Z) : Prop := t = zero_time ∨ year_in_range t.
Record fire_ok (f : Fire) : Prop := {
  ok_scheduled : time_ok (gf_ScheduledAt f);
  ok_fired : time_ok (gf_FiredAt f);
  ok_expires : time_ok (gf_ClaimExpiresAt f);
  ok_next : time_ok (gf_NextAttemptAt f);
  ok_strategy : Strategy (Backoff (gf_Retry f)) ≠ "";
}.
Lemma parse_format_time t : time_ok t → parseScheduleTime (formatScheduleTime t) = Some t.
Proof.
  unfold time_ok, parseScheduleTime, formatScheduleTime. intros Ht. destruct (IsZero t) eqn:Hz.
  - apply Z.eqb_eq in Hz as ->. done.
  - assert (year_in_range t) as Hy. { destruct Ht as [->|]; [|done]. done. }
    rewrite bool_decide_eq_false_2; [by apply parse_format_Nano|]. intros He. apply (f_equal Parse) in He. by rewrite parse_format_Nano in He.
Qed.
(** A fire survives its row.  Converting a fire of the library to a row and the row
    back gives the fire, for every time from year 0 to 9999 and the zero time. *)
Theorem fire_round_trip f : fire_ok f → toFire (fromFire f) = Ok f.
Proof.
  intros [H1 H2 H3 H4 H5]. unfold toFire, fromFire.
  cbn [f_ScheduledAt f_FiredAt f_ClaimExpiresAt f_NextAttemptAt default]. rewrite !parse_format_time by done.
  cbn. rewrite bool_decide_eq_false_2 by done. destruct f as [? ? ? ? ? ? ? ? ? [? []] ? ?]. cbn in *. by rewrite parse_format_time.
Qed.
End AdapterFacts.

(** ** Dispatch *)

Section DispatchFacts.
Context {K : Codecs} (E : Env) (T : Targets) (sched_of : string → string).

(** Whether the receipt of a fire's dispatch is on record. *)
Definition accepted_in (id : string) (d : SDB) : Prop :=
  ∃ a i f, fires_of a d !! i = Some f ∧ f_RunID f = id ∧ f_DispatchAcceptedAt f ≠ None.
Lemma accepted_answer id d : sound sched_of d → accepted_in id d →
  match find_row (has_run id) (runs d) with
  | Some f => f_DispatchAcceptedAt f ≠ None
  | None => ∃ f, act_fires d !! id = Some f ∧ f_DispatchAcceptedAt f ≠ None
  end.
Proof.
  intros Hs (a&i&f&Hi&<-&Hacc). destruct a.
  - destruct (find_row _ _) as [g|] eqn:Hg.
    + apply row_found in Hg as (j&Hj&Hrun). unfold has_run in Hrun. b2p.
      exfalso. eapply (other_table sched_of true); [exact Hs| |exact Hj|exact Hrun]. by exists i, f.
    + exists f. split; [|done]. destruct Hs as [_ [Hk _ _ _ _] _]. destruct (Hk i f Hi) as [_ Hr]. by rewrite (Hr eq_refl).
  - rewrite (find_row_unique _ _ i f); [done|done|apply has_run_refl|]. intros j g Hj Hg. by eapply (has_run_unique sched_of false).
Qed.
Lemma accepted_grows id d d' : evolution d d' → accepted_in id d → accepted_in id d'.
Proof.
  intros [Hr Ha] (a&i&f&Hi&<-&Hacc). assert (grows (fires_of a d) (fires_of a d')) as Hg by (by destruct a).
  destruct (Hg i f Hi) as (f'&Hf'&Hid&Hkeep). exists a, i, f'. split_and!; [done|unfold identity in Hid; by injection Hid|by rewrite Hkeep].
Qed.
(** An accepted dispatch leaves its receipt. *)
Lemma mark_accepts id att claimed at_ w w' : MarkScheduleFireDispatchAccepted E id att claimed at_ w = (Ok true, w') → accepted_in id (db w').
Proof.
  intros H. assert (∃ a m, accept_fire id att claimed at_ m = (true, fires_of a (db w'))) as (a&m&Ha).
  { unfold MarkScheduleFireDispatchAccepted, MarkWorkflowActivationDispatchAccepted, attempt, GetWorkflowActivationFire, query, exec, mbind, act_bind in H.
    destruct (stmt_fails E (tick w)); [done|]. cbn [db up tick] in H. destruct (act_fires (db w) !! id); cbn -[accept_fire] in H; destruct (stmt_fails _ _); try done;
      (destruct (accept_fire _ _ _ _ _) as [b k] eqn:Hk; injection H as -> <-); [exists true, (act_fires (db w))|exists false, (runs (db w))]; done. }
  unfold accept_fire in Ha. destruct (update_where _ _ _) as [n k] eqn:Hu. injection Ha as Hn Hk. apply Z.eqb_eq in Hn. subst n k.
  assert (¬ ∀ i r, m !! i = Some r → owns id ScheduleFireStatusClaimed att claimed r = false) as Hex.
  { rewrite <- (update_where_zero _ (accepted_fire (formatFireTime at_))). by rewrite Hu. }
  assert (∃ i r, m !! i = Some r ∧ owns id ScheduleFireStatusClaimed att claimed r = true) as (i&r&Hi&Ho).
  { destruct (find_row (owns id ScheduleFireStatusClaimed att claimed) m) as [r|] eqn:Hf; [apply row_found in Hf as (i&?&?); eauto|].
    by rewrite row_absent in Hf. }
  exists a, i, (accepted_fire (formatFireTime at_) r).
  replace (fires_of a (db w')) with (update_where (owns id ScheduleFireStatusClaimed att claimed) (accepted_fire (formatFireTime at_)) m).2 by (by rewrite Hu).
  rewrite update_where_lookup, Hi. cbn. rewrite Ho. split_and!; [done| |].
  - unfold owns, has_run in Ho. b2p. done.
  - cbn. by destruct (f_DispatchAcceptedAt r).
Qed.
Lemma rstore_Ok {A} (m : act SW SErr A) w a w' : rstore m w = (Ok a, w') → m (sw w) = (Ok a, sw w') ∧ dispatched w' = dispatched w.
Proof. unfold rstore. destruct (m (sw w)) as [[x|e] s]; [|done]. by intros [= -> <-]. Qed.

(** What one dispatch may add to the calls made: nothing, or one call for its fire. *)
Definition one_call (fire : string) (l l' : list (string * TargetCall)) : Prop := l' = l ∨ ∃ c, l' = (l ++ [(fire, c)])%list.
Definition same_calls : relation RW := λ w w', dispatched w' = dispatched w.
#[local] Instance same_calls_pre : PreOrder same_calls.
Proof. split; [done|]. unfold same_calls. intros x y z; congruence. Qed.
Abbreviation quiet := (stays same_calls).
Definition calls_once {A} (fire : string) (m : act RW RErr A) : Prop := ∀ w, one_call fire (dispatched w) (dispatched (m w).2).
Lemma quiet_once {A} fire (m : act RW RErr A) : quiet m → calls_once fire m.
Proof. intros H w. left. apply H. Qed.
Lemma quiet_bind_once {A B} fire (m : act RW RErr A) (k : A → act RW RErr B) : quiet m → (∀ a, calls_once fire (k a)) → calls_once fire (m ≫= k).
Proof.
  intros Hm Hk w. unfold mbind, act_bind. pose proof (Hm w) as Hw. destruct (m w) as [[a|e] w']; cbn in *; [rewrite <- Hw; apply Hk|by left].
Qed.
Lemma call_bind_once {B} fire c (k : TargetAnswer → act RW RErr B) : (∀ a, quiet (k a)) → calls_once fire (call T fire c ≫= k).
Proof. intros Hk w. right. exists c. unfold mbind, act_bind, call. apply Hk. Qed.
Lemma quiet_rstore {A} (m : act SW SErr A) : quiet (rstore m).
Proof. intros w. unfold rstore. by destruct (m (sw w)). Qed.
Lemma quiet_observe {A} (f : nat → A) : quiet (observe f). Proof. done. Qed.
Lemma quiet_decoded {A} t (o : option A) : quiet (decoded t o). Proof. by destruct o. Qed.
Lemma quiet_plain a : quiet (plain a). Proof. by destruct a. Qed.
#[local] Hint Extern 0 (PreOrder _) => apply _ : core.
#[local] Hint Resolve quiet_once stays_ret stays_fail quiet_rstore quiet_observe quiet_decoded quiet_plain : core.
Ltac one_call_tac := repeat first
  [ apply call_bind_once; intros [] | apply quiet_bind_once; [by auto|intros ?] | progress case_if | progress case_match | solve [auto] ].
Lemma dispatch_once j : calls_once (fire_of j) (dispatch T j).
Proof.
  unfold dispatch, enqueueDurableAgentWake, enqueueAgentWorkflowRun, enqueueCommandRun, enqueueReflexDispatch, enqueueLoopRunTick, enqueueWorkflowActivation.
  one_call_tac.
Qed.
(** What is on record of a fire stays: the calls of a sound state keep the receipts. *)
Lemma accepted_kept id ks w (cron : string → option (Z → Z)) (json : string → bool) (julian : string → option Z) :
  Forall (call_ok sched_of) ks → sound sched_of (db w) → accepted_in id (db w) →
  let w' := do_calls cron json julian E ks w in sound sched_of (db w') ∧ accepted_in id (db w').
Proof.
  intros Hks Hs Ha w'. destruct (calls_sound sched_of cron json julian E ks w Hks Hs) as [Hs' Hev]. split; [done|]. by eapply accepted_grows.
Qed.
Lemma accepted_read id w b w' : sound sched_of (db w) → accepted_in id (db w) →
  IsScheduleFireDispatchAccepted E id w = (Ok b, w') → b = true.
Proof.
  intros Hs Ha. pose proof (accepted_answer id _ Hs Ha) as Hans.
  unfold IsScheduleFireDispatchAccepted, IsWorkflowActivationDispatchAccepted, GetWorkflowActivationFire, query, exec, mbind, act_bind.
  destruct (stmt_fails E (tick w)); [done|]. cbn. destruct (find_row (has_run id) (runs (db w))) as [f|] eqn:Hf; cbn.
  - intros [= <- <-]. by rewrite bool_decide_eq_false_2.
  - destruct Hans as (f&Hf'&Hacc). destruct (stmt_fails E (S (tick w))); [done|]. cbn. rewrite Hf'. cbn. intros [= <- <-]. by rewrite bool_decide_eq_false_2.
Qed.
Lemma enqueue_accepted j w : has_receipts T = true → sound sched_of (db (sw w)) → accepted_in (fire_of j) (db (sw w)) →
  dispatched (Enqueue E T j w).2 = dispatched w ∧ (Enqueue E T j w).1 ≠ Ok tt.
Proof.
  intros Hrec Hs Ha. destruct (Enqueue E T j w) as [r v] eqn:H. unfold Enqueue in H. rewrite Hrec in H. unfold mbind at 1, act_bind at 1 in H.
  pose proof (quiet_rstore (IsScheduleFireDispatchAccepted E (fire_of j)) w) as Hq.
  destruct (rstore _ w) as [[b|e] w'] eqn:Hr; cbn in Hq; [|by injection H as <- <-].
  apply rstore_Ok in Hr as [Hr _]. apply accepted_read in Hr as ->; [|done..]. by injection H as <- <-.
Qed.
Lemma once_bind_quiet {A B} fire (m : act RW RErr A) (k : A → act RW RErr B) : calls_once fire m → (∀ a, quiet (k a)) → calls_once fire (m ≫= k).
Proof. intros Hm Hk w. unfold mbind, act_bind. pose proof (Hm w) as Hw. destruct (m w) as [[a|e] w']; cbn in *; [by rewrite (Hk a w')|done]. Qed.
Lemma enqueue_once j : calls_once (fire_of j) (Enqueue E T j).
Proof.
  unfold Enqueue. apply quiet_bind_once; [by destruct (has_receipts T); auto|]. intros []; [auto|].
  apply once_bind_quiet; [apply dispatch_once|]. intros _. destruct (negb (has_receipts T)); [auto|].
  apply (stays_bind _); [auto|]. intros n. apply (stays_bind _); [auto|]. intros []; auto.
Qed.
Lemma enqueue_marks j w w' : has_receipts T = true → Enqueue E T j w = (Ok tt, w') → accepted_in (fire_of j) (db (sw w')).
Proof.
  intros Hrec H. unfold Enqueue in H. rewrite Hrec in H. apply bind_Ok in H as (b&w1&_&H). destruct b; [done|].
  apply bind_Ok in H as ([]&w2&_&H). cbn [negb] in H. apply bind_Ok in H as (now&w3&_&H). apply bind_Ok in H as (m&w4&Hm&H).
  destruct m; [|done]. injection H as <-. apply rstore_Ok in Hm as [Hm _]. by apply mark_accepts in Hm.
Qed.
(** What a dispatch does to the tables: at most a receipt. *)
Definition same_db : relation RW := λ w w', db (sw w') = db (sw w).
#[local] Instance same_db_pre : PreOrder same_db.
Proof. split; [done|]. unfold same_db. intros x y z; congruence. Qed.
Abbreviation calm := (stays same_db).
Lemma calm_observe {A} (f : nat → A) : calm (observe f). Proof. done. Qed.
Lemma calm_decoded {A} t (o : option A) : calm (decoded t o). Proof. by destruct o. Qed.
Lemma calm_plain a : calm (plain a). Proof. by destruct a. Qed.
Lemma calm_call fire c : calm (call T fire c). Proof. done. Qed.
#[local] Hint Resolve calm_observe calm_decoded calm_plain calm_call : core.
Lemma calm_dispatch j : calm (dispatch T j).
Proof.
  unfold dispatch, enqueueDurableAgentWake, enqueueAgentWorkflowRun, enqueueCommandRun, enqueueReflexDispatch, enqueueLoopRunTick, enqueueWorkflowActivation.
  repeat first [apply (stays_bind _); [by auto|intros ?] | progress case_if | progress case_match | solve [auto]].
Qed.
Lemma rstore_db {A} (m : act SW SErr A) w : sw (rstore m w).2 = (m (sw w)).2.
Proof. unfold rstore. by destruct (m (sw w)). Qed.
Lemma calm_accepted_read id : calm (rstore (IsScheduleFireDispatchAccepted E id)).
Proof.
  intros w. unfold same_db. rewrite rstore_db. unfold IsScheduleFireDispatchAccepted, IsWorkflowActivationDispatchAccepted, GetWorkflowActivationFire, query, exec, mbind, act_bind.
  repeat (case_match; cbn in *; simplify_eq; try done).
Qed.
Definition still_sound : relation RW := λ w w', sound sched_of (db (sw w)) → sound sched_of (db (sw w')).
#[local] Instance still_sound_pre : PreOrder still_sound.
Proof. unfold still_sound. split; [intros w; auto|intros x y z; auto]. Qed.
Lemma calm_sound {A} (m : act RW RErr A) : calm m → stays still_sound m.
Proof. intros Hm w Hs. by rewrite (Hm w). Qed.
Lemma mark_sound id a c n : stays still_sound (rstore (MarkScheduleFireDispatchAccepted E id a c n)).
Proof.
  intros w Hs. rewrite rstore_db.
  by destruct (effect_sound sched_of (λ _, None) (λ _, true) (λ _, None) E _ (KMark id a c n) _ I Hs (mark_effect _ _ _ E id a c n (sw w))).
Qed.
Lemma enqueue_sound j : stays still_sound (Enqueue E T j).
Proof.
  unfold Enqueue. apply (stays_bind _); [apply calm_sound; destruct (has_receipts T); [apply calm_accepted_read|auto]|]. intros []; [auto|].
  apply (stays_bind _); [apply calm_sound, calm_dispatch|]. intros _. destruct (negb (has_receipts T)); [auto|].
  apply (stays_bind _); [by apply calm_sound; intros v|]. intros n. apply (stays_bind _); [apply mark_sound|]. intros []; auto.
Qed.

(** One dispatch makes at most one call, for its own fire, and when it reports success
    with receipts wired the receipt of the fire is on record. *)
Theorem one_call_per_dispatch j w :
  one_call (fire_of j) (dispatched w) (dispatched (Enqueue E T j w).2) ∧
  (has_receipts T = true → (Enqueue E T j w).1 = Ok tt → accepted_in (fire_of j) (db (sw (Enqueue E T j w).2))).
Proof.
  split; [apply enqueue_once|]. intros Hrec Hok. apply (enqueue_marks j w); [done|]. rewrite (surjective_pairing (Enqueue E T j w)) at 1. by rewrite Hok.
Qed.
(** C25. An accepted fire is never dispatched again.  Once a dispatch of a fire has
    succeeded, whatever the scheduler and its other users do to the tables, another
    dispatch of the same fire, under whatever job and attempt, calls no target. *)
Theorem accepted_fire_is_not_dispatched_again j w w1 ks s cron json julian j' : has_receipts T = true →
  sound sched_of (db (sw w)) → Enqueue E T j w = (Ok tt, w1) → Forall (call_ok sched_of) ks → fire_of j' = fire_of j →
  s = do_calls cron json julian E ks (sw w1) →
  dispatched (Enqueue E T j' (mkRW s (dispatched w1))).2 = dispatched w1 ∧ (Enqueue E T j' (mkRW s (dispatched w1))).1 ≠ Ok tt.
Proof.
  intros Hrec Hs Hok Hks Hsame ->. apply (enqueue_sound j w) in Hs. rewrite Hok in Hs. pose proof (enqueue_marks _ _ _ Hrec Hok) as Ha.
  destruct (accepted_kept _ ks (sw w1) cron json julian Hks Hs Ha) as [Hs' Ha']. rewrite <- Hsame in Ha'.
  by apply (enqueue_accepted j' (mkRW _ _)).
Qed.
End DispatchFacts.

(** ** The policy of a failing schedule *)

Section ObserverFacts.
Context {K : Codecs} (json_valid : string → bool) (E : Env).
Abbreviation observe_event := (Observe json_valid E true true true true).
(** A step that always returns, and logs nothing. *)
Definition answers {A} (m : act OW RErr A) : Prop := ∀ w, ∃ a s, m w = (Ok a, mkOW s (traces w)).
Lemma answers_bind {A B} (m : act OW RErr A) (k : A → act OW RErr B) w : answers m →
  ∃ a s, m w = (Ok a, mkOW s (traces w)) ∧ (m ≫= k) w = k a (mkOW s (traces w)).
Proof. intros Hm. destruct (Hm w) as (a&s&H). exists a, s. unfold mbind, act_bind. by rewrite H. Qed.
Lemma answers_read {A} (c : bool) (m : act SW RErr A) :
  answers (if c then r ← attempt (ostore m); mret (Some r) else mret None : act OW RErr _).
Proof.
  intros w. destruct c; [|by eexists _, (osw w); destruct w]. unfold mbind, act_bind, attempt, ostore. destruct (m (osw w)) as [r s]. by eexists _, _.
Qed.
Lemma answers_policy (c : Outcome) b id p :
  answers (match c with OutcomeExhausted => r ← attempt (applyOnFail E b id p); mret (errors_of r) | _ => mret [] end).
Proof.
  intros w. destruct c; try by eexists _, (osw w); destruct w.
  assert (∃ r s, applyOnFail E b id p w = (r, mkOW s (traces w))) as (r&s&H).
  { unfold applyOnFail, ostore. repeat case_match; try by eexists _, (osw w); destruct w. by eexists _, _. }
  unfold mbind, act_bind, attempt. rewrite H. by eexists _, _.
Qed.
Lemma answers_bind_db {A B} (c : bool) (m : act SW RErr A) (k : option (result RErr A) → act OW RErr B) w : (∀ v, db (m v).2 = db v) →
  ∃ a t, (c = true → a = Some (m (osw w)).1) ∧
    ((if c then r ← attempt (ostore m); mret (Some r) else mret None : act OW RErr _) ≫= k) w = k a (mkOW (mkSW (db (osw w)) t) (traces w)).
Proof.
  intros Hm. destruct c.
  - unfold mbind, act_bind, attempt, ostore. pose proof (Hm (osw w)) as Hd. destruct (m (osw w)) as [r [d t]]. cbn in *. subst d. by eexists _, t.
  - exists None, (tick (osw w)). split; [done|]. destruct w as [[] ?]. done.
Qed.
Lemma read_db {A B} (f : SDB → A) (k : A → act SW SErr B) v : (∀ a v, db (k a v).2 = db v) → db (store (query E f ≫= k) v).2 = db v.
Proof.
  intros Hk. unfold store, wrap, mbind, act_bind. pose proof (query_keeps_db E f v) as Hq. destruct (query E f v) as [[a|e] v'] eqn:H; cbn in *; [|done].
  specialize (Hk a v'). destruct (k a v') as [[]]; cbn in *; congruence.
Qed.
Lemma get_schedule_db id v : db (store (GetAgentSchedule E id) v).2 = db v.
Proof. apply read_db. by intros []. Qed.
Lemma get_fire_db id v : db (store (GetScheduleFire E id) v).2 = db v.
Proof. apply read_db. by intros []. Qed.

(** Every outcome of a fire is traced once, whatever fails on the way: the event of
    the fire, with its outcome and its attempt, is logged, and nothing else is. *)
Theorem every_outcome_is_traced ev o w : outcome_of ev = Some o → gf_JobType (ev_Fire ev) ≠ JobTypeWorkflowActivation →
  ∃ t, traces (observe_event ev w).2 = (traces w ++ [t])%list ∧
       t_Outcome t = o ∧ t_RunID t = gf_ID (ev_Fire ev) ∧ t_ScheduleID t = gf_ScheduleID (ev_Fire ev) ∧ t_AttemptCount t = gf_Attempt (ev_Fire ev).
Proof.
  intros Ho Hj. unfold Observe. rewrite bool_decide_eq_false_2, Ho by done.
  match goal with |- context [(?m ≫= ?k) w] => destruct (answers_bind m k w (answers_read _ _)) as (s&s1&_&->) end.
  destruct (match s with Some (Ok r) => _ | _ => _ end) as [name onFail].
  match goal with |- context [(?m ≫= ?k) ?v] => destruct (answers_bind m k v (answers_read _ _)) as (row&s2&_&->) end.
  match goal with |- context [(?m ≫= ?k) ?v] => destruct (answers_bind m k v (answers_policy _ _ _ _)) as (e&s3&_&->) end.
  by eexists.
Qed.

(** A schedule whose policy is to be disabled is expired by the exhaustion of one of
    its fires, when the database answers; under any other policy, and after any other
    outcome, the schedules stay as they are. *)
Theorem exhaustion_follows_on_fail ev o s w : (∀ t, stmt_fails E t = false) → (∀ t a, bound E t a = true) →
  outcome_of ev = Some o → gf_JobType (ev_Fire ev) ≠ JobTypeWorkflowActivation →
  let id := gf_ScheduleID (ev_Fire ev) in
  id ≠ "" → IsWorkflowActivationScheduleID id = false → schedules (db (osw w)) !! id = Some s →
  schedules (db (osw (observe_event ev w).2)) =
    (if bool_decide (o = OutcomeExhausted ∧ s_OnFail s = ScheduleOnFailDisable)
     then <[id := with_status ScheduleStatusExpired s]> (schedules (db (osw w))) else schedules (db (osw w))).
Proof.
  intros Hst Hb Ho Hj id. subst id. intros Hid Hpre Hs. unfold Observe. rewrite bool_decide_eq_false_2, Ho by done.
  match goal with |- context [((if ?c then _ else _) ≫= ?k) w] => destruct (answers_bind_db c _ k w (get_schedule_db (gf_ScheduleID (ev_Fire ev)))) as (r&t1&Hr&->) end.
  rewrite bool_decide_eq_false_2 in Hr by done. rewrite (Hr eq_refl). clear Hr.
  unfold store at 1, wrap, GetAgentSchedule, query, exec at 1, mbind at 1, act_bind at 1. rewrite Hst, Hs. cbn -[applyOnFail].
  match goal with |- context [((if ?c then _ else _) ≫= ?k) ?v] => destruct (answers_bind_db c _ k v (get_fire_db (gf_ID (ev_Fire ev)))) as (row&t2&_&->) end.
  cbn [db osw traces].
  assert (∀ t l, (λ x, schedules (db (osw x))) (applyOnFail E true (gf_ScheduleID (ev_Fire ev)) (s_OnFail s) (mkOW (mkSW (db (osw w)) t) l)).2 =
    if bool_decide (s_OnFail s = ScheduleOnFailDisable) then <[(gf_ScheduleID (ev_Fire ev)) := with_status ScheduleStatusExpired s]> (schedules (db (osw w))) else schedules (db (osw w))) as Hpol.
  { intros t l. unfold applyOnFail. destruct (bool_decide (s_OnFail s = _)); [|by case_bool_decide].
    unfold ostore, DisableSchedule. rewrite Hpre. unfold store, wrap, UpdateAgentScheduleStatus. rewrite (bool_decide_eq_true_2 (ScheduleStatusExpired ∈ _)) by (right; right; left).
    unfold exec, mbind, act_bind, update_schedule. cbn. rewrite Hst, Hs, Hb. done. }
  destruct o; cbn -[applyOnFail]; [done..|].
  unfold mbind, act_bind, attempt. specialize (Hpol t2 (traces w)). cbn beta in Hpol. destruct (applyOnFail _ _ _ _ _) as [q v]. cbn in *. rewrite Hpol.
  destruct (decide (s_OnFail s = ScheduleOnFailDisable)); [rewrite !bool_decide_eq_true_2 by done|rewrite !bool_decide_eq_false_2 by naive_solver]; done.
Qed.
End ObserverFacts.

(** ** Examples *)

Module Example_scheduler.
Import Example_schedules.
(** A codec for commands: the payload is the command. *)
#[local] Instance codecs : Codecs := Build_Codecs
  (λ _, Some "wake") (λ _, None) (λ _, None) (λ s, Some (mkCommandPayload "agent" s "")) (λ _, None) (λ _, None) (λ _, None) (λ _, true) "none" "exponential".
Definition targets : Targets := mkTargets true true true true true true true (λ _ _, Done true) (λ _ _, None) (λ _ _, None).
Definition job : Job := mkJob "s1@1" "" "s1" "command_run" "make report" 1 noon noon.
Definition r0 : RW := mkRW w2 [].
Definition r1 : RW := (Enqueue env targets job r0).2.
Lemma dispatched_once : Enqueue env targets job r0 = (Ok tt, r1).
Proof. by vm_compute. Qed.
Example command_called : dispatched r1 = [("s1@1", Execute "agent" "make report" "")].
Proof. by vm_compute. Qed.
Lemma w2_sound : sound sched_of (db w2).
Proof.
  destruct (calls_sound sched_of cron json julian env [KCreate creation; KClaim false first_claim] w0) as [H _]; [|exact w0_sound|exact H].
  repeat constructor.
Qed.
(** The engine restarts, takes the fire over after its lease, and dispatches it again. *)
Definition job_again : Job := mkJob "s1@1" "" "s1" "command_run" "make report" 2 noon (noon + 60 * Second).
Lemma accepted_fire_is_not_dispatched_again_witness :
  dispatched (Enqueue env targets job_again (mkRW (do_calls cron json julian env [KClaim false recovery] (sw r1)) (dispatched r1))).2 = dispatched r1.
Proof.
  apply (accepted_fire_is_not_dispatched_again env targets sched_of job r0 r1 [KClaim false recovery] (do_calls cron json julian env [KClaim false recovery] (sw r1)) cron json julian job_again eq_refl w2_sound dispatched_once);
    [repeat constructor|reflexivity|reflexivity].
Defined.
Definition go_fire : Fire := mkGoFire "s1@1" "s1" noon noon (noon + 60 * Second) 1 "claimed" zero_time "" (mkRetry 3 (mkBackoff "exponential" scheduleRetryInitialDelay scheduleRetryMaximumDelay)) "command_run" "make report".
Lemma noon_ok : year_in_range noon ∧ year_in_range (noon + 60 * Second).
Proof. by_decide. Qed.
Lemma fire_round_trip_witness : toFire (fromFire go_fire) = Ok go_fire.
Proof. apply fire_round_trip. split; [right; apply noon_ok|right; apply noon_ok|right; apply noon_ok|by left|done]. Defined.
Definition exhausted : ObserverEvent := mkEvent ObserverExhaustion go_fire "max attempts" (Some "boom").
Definition disabling : AgentSchedule :=
  mkSchedule "s1" "agent" "" "report" "one_shot" "" "write the report" 0 "active" "2026-01-01T00:00:00Z" 0 "" "" "operator" 3 "disable" "2026-01-01T12:00:00Z" "command_run" "{}".
Definition o0 : OW := mkOW (mkSW (mkSDB {["s1" := disabling]} ∅ ∅ ∅) 0) [].
Lemma every_outcome_is_traced_witness : ∃ t, traces (Observe json env true true true true exhausted o0).2 = [t] ∧ t_Outcome t = OutcomeExhausted.
Proof.
  destruct (every_outcome_is_traced json env exhausted OutcomeExhausted o0 eq_refl ltac:(discriminate)) as (t&H&Ho&_). exists t. split; [exact H|exact Ho].
Defined.
Lemma exhaustion_follows_on_fail_witness :
  schedules (db (osw (Observe json env true true true true exhausted o0).2)) !! "s1" = Some (with_status ScheduleStatusExpired disabling).
Proof.
  rewrite (exhaustion_follows_on_fail json env exhausted OutcomeExhausted disabling o0 (λ _, eq_refl) (λ _ _, eq_refl) eq_refl ltac:(discriminate) ltac:(discriminate) eq_refl eq_refl).
  reflexivity.
Defined.
Lemma one_call_per_dispatch_witness : accepted_in "s1@1" (db (sw r1)).
Proof. apply (proj2 (one_call_per_dispatch env targets job r0) eq_refl). apply (f_equal fst dispatched_once). Defined.
End Example_scheduler.
