(* ===== verification/Envelopes.v ===== *)
(** * Envelopes and elicitation

    What the user is asked and answers: [chat/envelope_response.go] and its handlers,
    [store/envelope_instances.go], [service/envelopes.go], [internal/elicitation],
    [mcp/elicitation.go] and the confirmation of [selftools/self_tools_messaging.go].
    The answers to envelopes and the questions of the tools run as one labelled
    transition system, whose steps are the statements, the critical sections and the
    channel operations of the code; [apply] executes a step. *)

From stdpp Require Import pretty.
From S2P Require Import Prelude GoStrings GoNum.

Open Scope string_scope.
Open Scope Z_scope.
Set Default Proof Using "Type".

(** ** Responses *)

(** Decoded JSON values, as far as the handlers tell them apart: a number is a
    [float64], of the given fraction, or, when the caller built the value in Go, an
    [int] or a [json.Number]. *)
Inductive Val :=
| VStr (s : string)
| VFloat (num : Z) (den : positive)
| VInt (n : Z)
| VNumber (int64 : option Z)
| VJson (raw : string)
| VAnswers (l : list string)
| VDecisions (l : list string).
Abbreviation Data := (gmap string Val).

Definition StatusSubmitted : string := "submitted".
Definition StatusCanceled : string := "canceled".
Definition StatusPartial : string := "partial".
Definition ResponseV1Version : Z := 1.
Definition RoleEnvelopeResponse : string := "envelope_response".

Record ResponseV1 := mkResponse {
  rv_V : Z;
  rv_Kind : string;
  rv_ID : string;
  rv_Status : string;
  rv_Data : Data;
  rv_Answers : list string;
  rv_Decisions : list string;
}.
Inductive VErr := BadVersion (v : Z) | NoKind | NoID | BadStatus (s : string).
Definition Validate (r : ResponseV1) : result VErr unit :=
  if negb (rv_V r =? ResponseV1Version) then Err (BadVersion (rv_V r)) else
  if bool_decide (rv_Kind r = "") then Err NoKind else
  if bool_decide (rv_ID r = "") then Err NoID else
  if bool_decide (rv_Status r ∈ [StatusSubmitted; StatusCanceled; StatusPartial]) then Ok tt else Err (BadStatus (rv_Status r)).
Definition FormatEnvelopeResponseContent (envelopeType status payload : string) : string :=
  "[envelope:" +:+ envelopeType +:+ " status:" +:+ status +:+ "] " +:+ (if bool_decide (payload = "") then "{}" else payload).

(** The string under a key; none when it is absent or not a string. *)
Definition str_at (d : Data) (k : string) : string := match d !! k with Some (VStr s) => s | _ => "" end.

(** ** Envelope rows *)

(** Times are kept as instants, and NULL columns as [None]. *)
Record EnvelopeInstance := mkInstance {
  ei_ID : string;
  ei_SessionID : string;
  ei_EnvelopeType : string;
  ei_EnvelopeJSON : string;
  ei_EmittedAt : Z;
  ei_RespondedAt : option Z;
  ei_ResponseStatus : string;
  ei_ResponseJSON : string;
}.
Definition with_response (at_ : option Z) (status json : string) (i : EnvelopeInstance) : EnvelopeInstance :=
  mkInstance (ei_ID i) (ei_SessionID i) (ei_EnvelopeType i) (ei_EnvelopeJSON i) (ei_EmittedAt i) at_ status json.
Abbreviation Instances := (gmap string EnvelopeInstance).
Inductive IErr := IDatabase | INoRows | IAlreadyResponded | INoRowUpdated.

Definition CreateEnvelopeInstance (known : string → bool) (i : EnvelopeInstance) (m : Instances) : result IErr Instances :=
  match m !! ei_ID i with
  | Some _ => Err IDatabase
  | None => if known (ei_SessionID i) then Ok (<[ei_ID i := with_response None "" "" i]> m) else Err IDatabase
  end.
Definition GetEnvelopeInstance (id : string) (m : Instances) : result IErr EnvelopeInstance :=
  match m !! id with Some i => Ok i | None => Err INoRows end.
(** [UPDATE ... WHERE id = ? AND responded_at IS NULL], and the read that tells why no
    row was updated. *)
Definition update_unanswered (id : string) (f : EnvelopeInstance → EnvelopeInstance) (m : Instances) : result IErr Instances :=
  match m !! id with
  | Some i => match ei_RespondedAt i with None => Ok (<[id := f i]> m) | Some _ => Err IAlreadyResponded end
  | None => Err INoRows
  end.
Definition ClaimEnvelopeForResponse (id : string) (now : Z) (m : Instances) : result IErr Instances :=
  update_unanswered id (λ i, with_response (Some now) "handling" (ei_ResponseJSON i) i) m.
Definition UpdateEnvelopeResponse (id status json : string) (m : Instances) : Instances :=
  alter (λ i, with_response (ei_RespondedAt i) status json i) id m.
Definition RecordResponse (id status json : string) (now : Z) (m : Instances) : result IErr Instances :=
  update_unanswered id (with_response (Some now) status json) m.

(** ** Handlers *)

Record HandlerResult := mkHandled { hr_TranscriptData : option Data; hr_Silent : bool; hr_FollowUp : string }.
Inductive Handler := DefaultHandler | SlotChangedHandler | SubagentHandler | ElicitationHandler | TableCardHandler | PluginHandler (n : nat).
Definition LookupResponseHandler (hs : gmap string Handler) (t : string) : Handler := default DefaultHandler (hs !! t).

Definition default_response (r : ResponseV1) : HandlerResult :=
  let data := match rv_Answers r with [] => rv_Data r | _ => <["answers" := VAnswers (rv_Answers r)]> (rv_Data r) end in
  let data := match rv_Decisions r with [] => data | _ => <["decisions" := VDecisions (rv_Decisions r)]> data end in
  mkHandled (Some data) false "".
Definition slot_changed_response : HandlerResult := mkHandled None true "".

Record tableCardColumn := mkColumn { co_Key : string; co_Actions : list string }.
Record tableCardPayload := mkTable { ta_Rows : list string; ta_Columns : list tableCardColumn; ta_Actions : list string }.
(** [int] of a [float64]: towards zero; what is out of range becomes the least [int]. *)
Definition min_int : Z := - 2 ^ 63.
Definition float_to_int (num : Z) (den : positive) : Z :=
  let n := Z.quot num (Zpos den) in if (min_int <=? n) && (n <? 2 ^ 63) then n else min_int.
Definition asInt (v : Val) : option Z :=
  match v with VFloat n d => Some (float_to_int n d) | VInt n => Some n | VNumber o => o | _ => None end.
Definition findColumn (cols : list tableCardColumn) (key : string) : option tableCardColumn :=
  List.find (λ c, bool_decide (co_Key c = key)) cols.
Definition actionDeclared (actions : list string) (id : string) : bool := existsb (λ a, bool_decide (a = id)) actions.

(** The codecs of [encoding/json], and the verb [%q] of [fmt]. *)
Class EnvelopeCodecs := {
  Quote : string → string;
  decode_table : string → option tableCardPayload;
  decode_run_id : string → option string;
  decode_elicitation_id : string → option string;
  encode_response : ResponseV1 → option string;
  encode_payload : Data → option string;
}.

Section Handlers.
Context {J : EnvelopeCodecs}.
Definition table_response (env : EnvelopeInstance) (r : ResponseV1) : result string HandlerResult :=
  let actionID := str_at (rv_Data r) "action_id" in
  if bool_decide (actionID = "") then Err "action_id is required" else
  match decode_table (ei_EnvelopeJSON env) with
  | None => Err "parse persisted envelope"
  | Some payload =>
      let columnKey := str_at (rv_Data r) "column_key" in
      let hasColumn := negb (bool_decide (columnKey = "")) in
      declared ← (if (hasColumn : bool) then
                    match findColumn (ta_Columns payload) columnKey with None => Err "unknown column_key" | Some c => Ok (co_Actions c) end
                  else Ok (ta_Actions payload));
      if negb (actionDeclared declared actionID) then Err "action_id is not declared" else
      let data : Data := {["action_id" := VStr actionID]} in
      let data := if hasColumn then <["column_key" := VStr columnKey]> data else data in
      match rv_Data r !! "row_index" with
      | None => Ok (mkHandled (Some data) false ("Table action " +:+ Quote actionID +:+ " submitted."))
      | Some v =>
          match asInt v with
          | None => Err "row_index must be a number"
          | Some ri =>
              if (ri <? 0) || (Z.of_nat (length (ta_Rows payload)) <=? ri) then Err "row_index out of range" else
              let row := nth (Z.to_nat ri) (ta_Rows payload) "" in
              Ok (mkHandled (Some (<["row" := VJson row]> (<["row_index" := VInt ri]> data))) false
                   ("Table action " +:+ Quote actionID +:+ " submitted (row " +:+ pretty ri +:+ ")."))
          end
      end
  end.
(** A spawn is not approved through its envelope: the response is refused. *)
Definition subagent_response (env : EnvelopeInstance) (r : ResponseV1) : result string HandlerResult :=
  match decode_run_id (ei_EnvelopeJSON env) with
  | None | Some "" => Err "missing run_id in envelope payload"
  | Some _ => if bool_decide (rv_Status r ∈ [StatusSubmitted; StatusCanceled]) then Err "verified actor required" else Err "unsupported response status"
  end.
End Handlers.

(** ** Elicitation *)

Definition ActionAccept : string := "accept".
Definition ActionDecline : string := "decline".
Definition ActionCancel : string := "cancel".
Definition SchemaTypeBoolean : string := "boolean".
Definition SchemaTypeString : string := "string".
Record RequestedSchema := mkSchema { sc_Type : string; sc_Title : string; sc_Description : string }.
Record Response := mkAnswer { an_Action : string; an_Content : string; an_Reason : string }.
Record ElicitInput := mkElicit {
  el_Message : string; el_Schema : option RequestedSchema; el_ToolCallID : string;
  el_SessionID : string; el_AgentID : string; el_Origin : string }.
Definition schema_type (i : ElicitInput) : string :=
  match el_Schema i with Some s => if bool_decide (sc_Type s = "") then SchemaTypeString else sc_Type s | None => SchemaTypeString end.
(** The error of a question: not asked, or abandoned by its caller. *)
Inductive EErr := EEmitFailed | ECanceled | EDeadline.

Definition DefaultTimeoutSeconds : Z := 5 * 60.
(** [New]: the timeout, from the argument, the environment or the default. *)
Definition timeout_seconds (arg : Z) (env : string) : Z :=
  let t := if arg <=? 0 then
             match env with "" => arg | raw => match Atoi raw with Some n => if 0 <? n then n else arg | None => arg end end
           else arg in
  if t <=? 0 then DefaultTimeoutSeconds else t.
Definition ValidateResponse (schema : option RequestedSchema) (r : Response) : bool :=
  if negb (bool_decide (an_Action r = ActionAccept)) then true else
  match schema with
  | None => true
  | Some s => negb (bool_decide (sc_Type s = SchemaTypeString)) || negb (bool_decide (an_Content r = ""))
  end.
(** The answer an envelope response stands for. *)
Definition elicit_action (r : ResponseV1) : string :=
  if bool_decide (rv_Status r = StatusSubmitted) then
    let a := str_at (rv_Data r) "action" in
    if bool_decide (a ∈ [ActionAccept; ActionDecline]) then a else ActionAccept
  else ActionCancel.
Definition elicit_answer (r : ResponseV1) : Response := mkAnswer (elicit_action r) (str_at (rv_Data r) "content") "".
(** [RespondFromEnvelopeData]: the identifier and the answer in a response's data. *)
Definition RespondFromEnvelopeData (d : Data) : option (string * Response) :=
  let id := str_at d "elicitation_id" in
  if bool_decide (id = "") then None else
  let a := str_at d "action" in
  Some (id, mkAnswer (if bool_decide (a ∈ [ActionAccept; ActionDecline; ActionCancel]) then a else ActionCancel) (str_at d "content") "").

(** What a tool gets back for its question. *)
Definition ElicitUserInput (r : Response) (e : option EErr) : result EErr (string * string) :=
  match e with
  | None | Some ECanceled => Ok (an_Action r, an_Content r)
  | Some e => Err e
  end.
Definition elicit_schema (s : RequestedSchema) : RequestedSchema :=
  mkSchema (if bool_decide (sc_Type s ∈ [SchemaTypeBoolean; SchemaTypeString]) then sc_Type s else SchemaTypeString) (sc_Title s) (sc_Description s).
Inductive SendDecision := SendIt | AbortSend (action : string) | SendError (e : EErr).
(** [callMessageSend] up to the send: a directive asks first, when it can. *)
Definition confirm_directive (msgType : string) (wired : bool) (r : Response) (e : option EErr) : SendDecision :=
  if bool_decide (msgType = "directive") && wired then
    match ElicitUserInput r e with
    | Err e => SendError e
    | Ok (a, _) => if bool_decide (a = ActionAccept) then SendIt else AbortSend a
    end
  else SendIt.

(** ** The service *)

Inductive EnvelopeError :=
| EnvelopeNotFound
| EnvelopeInvalid
| EnvelopeForbidden
| EnvelopeConflict (status response : string)
| EnvelopeTimeout
| EnvelopeInternal (msg : string).
Record RespondInput := mkRespond { ri_EnvelopeID : string; ri_Response : ResponseV1; ri_BodySession : option string }.
Record EnvelopeRespondResult := mkResult { er_Type : string; er_SessionID : string; er_FollowUp : string; er_Silent : bool; er_MessageID : string }.
Record Message := mkMessage { m_ID : string; m_SessionID : string; m_Role : string; m_Content : string }.

Definition envelopeConflict (i : EnvelopeInstance) : EnvelopeError :=
  EnvelopeConflict (ei_ResponseStatus i) (if bool_decide (ei_ResponseJSON i = "") then "null" else ei_ResponseJSON i).
(** The checks before the claim. *)
Definition refusal (i : RespondInput) (inst : EnvelopeInstance) : option EnvelopeError :=
  if negb (bool_decide (rv_Kind (ri_Response i) = ei_EnvelopeType inst)) then Some EnvelopeInvalid else
  if match ri_BodySession i with Some s => negb (bool_decide (s = ei_SessionID inst)) | None => false end then Some EnvelopeForbidden else
  match ei_RespondedAt inst with Some _ => Some (envelopeConflict inst) | None => None end.

(** The record of a failure: an object with its reason. *)
Definition quoted (s : string) : string := String (Ascii.ascii_of_nat 34) s +:+ String (Ascii.ascii_of_nat 34) "".
Definition reasonJSON (reason : string) : string := "{" +:+ quoted "reason" +:+ ":" +:+ quoted reason +:+ "}".
(** Where a call of [Respond] is. *)
Inductive RespondPC :=
| PGet (i : RespondInput)
| PClaim (i : RespondInput) (inst : EnvelopeInstance)
| PReread (i : RespondInput)
| PHandle (i : RespondInput) (inst : EnvelopeInstance)
| PSend (i : RespondInput) (inst : EnvelopeInstance) (eid : string)
| PFailed (i : RespondInput) (inst : EnvelopeInstance) (timedOut : bool) (msg : string)
| PRecord (i : RespondInput) (inst : EnvelopeInstance) (h : HandlerResult)
| PMessage (i : RespondInput) (inst : EnvelopeInstance) (h : HandlerResult)
| PDone (i : RespondInput) (r : result EnvelopeError EnvelopeRespondResult).
(** Where a call of [Elicit] is: before the prompt, waiting, leaving with a result, and
    gone. *)
Inductive ElicitPC :=
| QEmit (q : ElicitInput)
| QWait (q : ElicitInput) (envelope : string)
| QLeave (q : ElicitInput) (r : Response) (e : option EErr)
| QDone (q : ElicitInput) (r : Response) (e : option EErr).

(** A question is known by its identifier [eid]: [pending] is the map of the service,
    [answers] the buffers of the channels, which outlive it.  [handled] records which
    call ran the handler of which envelope; a message of the transcript is kept with its
    envelope. *)
Record Sys := mkSys {
  envs : Instances;
  messages : list (string * Message);
  handlers : gmap string Handler;
  pending : gset string;
  answers : gmap string (option Response);
  calls : gmap nat RespondPC;
  questions : gmap string ElicitPC;
  handled : list (string * nat);
}.
Definition set_envs (m : Instances) (s : Sys) : Sys := mkSys m (messages s) (handlers s) (pending s) (answers s) (calls s) (questions s) (handled s).
Definition set_handlers (m : gmap string Handler) (s : Sys) : Sys := mkSys (envs s) (messages s) m (pending s) (answers s) (calls s) (questions s) (handled s).
Definition set_call (p : nat) (c : RespondPC) (s : Sys) : Sys := mkSys (envs s) (messages s) (handlers s) (pending s) (answers s) (<[p := c]> (calls s)) (questions s) (handled s).
Definition set_question (e : string) (q : ElicitPC) (s : Sys) : Sys := mkSys (envs s) (messages s) (handlers s) (pending s) (answers s) (calls s) (<[e := q]> (questions s)) (handled s).
Definition set_pending (m : gset string) (s : Sys) : Sys := mkSys (envs s) (messages s) (handlers s) m (answers s) (calls s) (questions s) (handled s).
Definition set_answer (e : string) (o : option Response) (s : Sys) : Sys := mkSys (envs s) (messages s) (handlers s) (pending s) (<[e := o]> (answers s)) (calls s) (questions s) (handled s).
Definition add_message (e : string) (m : Message) (s : Sys) : Sys := mkSys (envs s) (messages s ++ [(e, m)])%list (handlers s) (pending s) (answers s) (calls s) (questions s) (handled s).
Definition log_handled (e : string) (p : nat) (s : Sys) : Sys := mkSys (envs s) (messages s) (handlers s) (pending s) (answers s) (calls s) (questions s) (handled s ++ [(e, p)])%list.

(** The steps.  [fails] says that the statement fails; [late] that the deadline of the
    handler has passed; [plugin] is what the handler of a plugin returns. *)
Inductive label :=
| LRegister (t : string) (h : Handler)
| LUnregister (t : string)
| LCreate (i : EnvelopeInstance)
| LCall (p : nat) (i : RespondInput)
| LGet (p : nat) (fails : bool)
| LClaim (p : nat) (fails : bool) (now : Z)
| LReread (p : nat) (fails : bool)
| LHandle (p : nat) (late : bool) (plugin : result string HandlerResult)
| LSend (p : nat)
| LRecord (p : nat) (fails : bool)
| LMessage (p : nat) (fails : bool) (id : string)
| LElicit (eid : string) (q : ElicitInput)
| LEmit (eid : string) (fails : bool) (id : string) (now : Z)
| LReceive (eid : string)
| LTimeout (eid : string)
| LAbandon (eid : string) (e : EErr)
| LLeave (eid : string).

Section System.
Context {J : EnvelopeCodecs} (known : string → bool) (encode_prompt : string → ElicitInput → string).

(** Running the handler.  The one of a question looks it up, and answers it in a step of
    its own. *)
Definition run_handler (h : Handler) (p : nat) (i : RespondInput) (inst : EnvelopeInstance) (late : bool)
    (plugin : result string HandlerResult) (s : Sys) : Sys :=
  let finish r := match r with
    | Ok hr => set_call p (PRecord i inst hr) s
    | Err msg => set_call p (PFailed i inst late msg) s
    end in
  let r := ri_Response i in
  match h with
  | DefaultHandler => finish (Ok (default_response r))
  | SlotChangedHandler => finish (Ok slot_changed_response)
  | SubagentHandler => finish (subagent_response inst r)
  | TableCardHandler => finish (table_response inst r)
  | PluginHandler _ => finish plugin
  | ElicitationHandler =>
      match decode_elicitation_id (ei_EnvelopeJSON inst) with
      | None | Some "" => finish (Err "missing elicitation_id in envelope payload")
      | Some eid =>
          if bool_decide (eid ∈ pending s) then set_call p (PSend i inst eid) s
          else finish (Ok (mkHandled None true ("elicitation " +:+ eid +:+ " already resolved (timeout race)")))
      end
  end.
Definition answered_result (eid : string) (r : ResponseV1) : HandlerResult :=
  mkHandled (Some {["elicitation_id" := VStr eid; "action" := VStr (elicit_action r)]}) false
    ("Elicitation " +:+ eid +:+ " responded: action=" +:+ elicit_action r).
Definition respond_result (inst : EnvelopeInstance) (h : HandlerResult) (id : string) : EnvelopeRespondResult :=
  mkResult (ei_EnvelopeType inst) (ei_SessionID inst) (hr_FollowUp h) (hr_Silent h) id.

(** [EnvelopeService.Respond], one step of a call. *)
Definition respond_step (p : nat) (l : label) (c : RespondPC) (s : Sys) : option Sys :=
  let done i r := Some (set_call p (PDone i r) s) in
  match c, l with
  | PGet i, LGet _ fails =>
      if fails then done i (Err (EnvelopeInternal "database")) else
      match GetEnvelopeInstance (ri_EnvelopeID i) (envs s) with
      | Err INoRows => done i (Err EnvelopeNotFound)
      | Err _ => done i (Err (EnvelopeInternal "database"))
      | Ok inst => match refusal i inst with Some e => done i (Err e) | None => Some (set_call p (PClaim i inst) s) end
      end
  | PClaim i inst, LClaim _ fails now =>
      if fails then done i (Err (EnvelopeInternal "database")) else
      match ClaimEnvelopeForResponse (ri_EnvelopeID i) now (envs s) with
      | Ok m => Some (set_call p (PHandle i inst) (set_envs m s))
      | Err IAlreadyResponded => Some (set_call p (PReread i) s)
      | Err _ => done i (Err (EnvelopeInternal "database"))
      end
  | PReread i, LReread _ fails =>
      if fails then done i (Err (EnvelopeInternal "database")) else
      match GetEnvelopeInstance (ri_EnvelopeID i) (envs s) with
      | Ok again => done i (Err (envelopeConflict again))
      | Err _ => done i (Err (EnvelopeInternal "database"))
      end
  | PHandle i inst, LHandle _ late plugin =>
      Some (run_handler (LookupResponseHandler (handlers s) (ei_EnvelopeType inst)) p i inst late plugin (log_handled (ri_EnvelopeID i) p s))
  | PSend i inst eid, LSend _ =>
      let s' := match answers s !! eid with
                | Some None => set_answer eid (Some (elicit_answer (ri_Response i))) s
                | _ => s
                end in
      Some (set_call p (PRecord i inst (answered_result eid (ri_Response i))) s')
  | PFailed i inst timedOut msg, LRecord _ fails =>
      let e := if timedOut then EnvelopeTimeout else EnvelopeInternal ("handler: " +:+ msg) in
      let reason := reasonJSON (if timedOut then "handler_timeout" else "handler_error") in
      Some (set_call p (PDone i (Err e)) (if fails then s else set_envs (UpdateEnvelopeResponse (ri_EnvelopeID i) "failed" reason (envs s)) s))
  | PRecord i inst h, LRecord _ fails =>
      match encode_response (ri_Response i) with
      | None => done i (Err (EnvelopeInternal "marshal response"))
      | Some json =>
          if fails then done i (Err (EnvelopeInternal "database")) else
          let s' := set_envs (UpdateEnvelopeResponse (ri_EnvelopeID i) (rv_Status (ri_Response i)) json (envs s)) s in
          Some (set_call p (if hr_Silent h then PDone i (Ok (respond_result inst h "")) else PMessage i inst h) s')
      end
  | PMessage i inst h, LMessage _ fails id =>
      match encode_payload (default ∅ (hr_TranscriptData h)) with
      | None => done i (Err (EnvelopeInternal "marshal payload"))
      | Some payload =>
          if fails then done i (Err (EnvelopeInternal "persist message")) else
          let m := mkMessage id (ei_SessionID inst) RoleEnvelopeResponse
                     (FormatEnvelopeResponseContent (ei_EnvelopeType inst) (rv_Status (ri_Response i)) payload) in
          Some (set_call p (PDone i (Ok (respond_result inst h id))) (add_message (ri_EnvelopeID i) m s))
      end
  | _, _ => None
  end.

(** [elicitation.Service.Elicit], one step of a question. *)
Definition elicit_step (eid : string) (l : label) (c : ElicitPC) (s : Sys) : option Sys :=
  let leave q r e := Some (set_question eid (QLeave q r e) s) in
  match c, l with
  | QEmit q, LEmit _ fails id now =>
      let inst := mkInstance id (el_SessionID q) "elicitation-prompt" (encode_prompt eid q) now None "" "" in
      match (if fails then Err IDatabase else CreateEnvelopeInstance known inst (envs s)) with
      | Ok m => Some (set_question eid (QWait q id) (set_envs m s))
      | Err _ => leave q (mkAnswer ActionCancel "" "emit_failed") (Some EEmitFailed)
      end
  | QWait q _, LReceive _ =>
      match answers s !! eid with
      | Some (Some r) => Some (set_question eid (QLeave q r None) (set_answer eid None s))
      | _ => None
      end
  | QWait q _, LTimeout _ => leave q (mkAnswer ActionCancel "" "timeout") None
  | QWait q _, LAbandon _ e =>
      match e with EEmitFailed => None | _ => leave q (mkAnswer ActionCancel "" "context_canceled") (Some e) end
  | QLeave q r e, LLeave _ => Some (set_question eid (QDone q r e) (set_pending (pending s ∖ {[eid]}) s))
  | _, _ => None
  end.

Definition apply (l : label) (s : Sys) : option Sys :=
  match l with
  | LRegister t h => Some (set_handlers (<[t := h]> (handlers s)) s)
  | LUnregister t => Some (set_handlers (delete t (handlers s)) s)
  | LCreate i => match CreateEnvelopeInstance known i (envs s) with Ok m => Some (set_envs m s) | Err _ => Some s end
  | LCall p i => match calls s !! p with Some _ => None | None => Some (set_call p (PGet i) s) end
  | LGet p _ | LClaim p _ _ | LReread p _ | LHandle p _ _ | LSend p | LRecord p _ | LMessage p _ _ =>
      match calls s !! p with Some c => respond_step p l c s | None => None end
  | LElicit eid q =>
      match answers s !! eid with
      | Some _ => None
      | None => Some (set_question eid (QEmit q) (set_answer eid None (set_pending ({[eid]} ∪ pending s) s)))
      end
  | LEmit eid _ _ _ | LReceive eid | LTimeout eid | LAbandon eid _ | LLeave eid =>
      match questions s !! eid with Some c => elicit_step eid l c s | None => None end
  end.
Definition step (s : Sys) (l : label) (s' : Sys) : Prop := apply l s = Some s'.
Definition start (hs : gmap string Handler) : Sys := mkSys ∅ [] hs ∅ ∅ ∅ ∅ [].
Definition reachable (hs : gmap string Handler) (s : Sys) : Prop := ∃ ls, steps step (start hs) ls s.
End System.

(** ** Envelopes *)

Section Facts.
Context {J : EnvelopeCodecs} (known : string → bool) (encode_prompt : string → ElicitInput → string).
Abbreviation next := (step known encode_prompt).

Definition input (c : RespondPC) : RespondInput :=
  match c with
  | PGet i | PClaim i _ | PReread i | PHandle i _ | PSend i _ _ | PFailed i _ _ _ | PRecord i _ _ | PMessage i _ _ | PDone i _ => i
  end.
Definition env_of (c : RespondPC) : string := ri_EnvelopeID (input c).
(** The row a call read. *)
Definition read_row (c : RespondPC) : option EnvelopeInstance :=
  match c with PClaim _ r | PHandle _ r | PSend _ r _ | PFailed _ r _ _ | PRecord _ r _ | PMessage _ r _ => Some r | _ => None end.
(** A call owns_envelope its envelope from its claim to its end, and has still to record an
    answer up to the write. *)
Definition owns_envelope (c : RespondPC) : bool :=
  match c with PHandle _ _ | PSend _ _ _ | PFailed _ _ _ _ | PRecord _ _ _ | PMessage _ _ _ => true | _ => false end.
Definition recording (c : RespondPC) : bool := match c with PMessage _ _ _ => false | _ => owns_envelope c end.
Definition final_status (c : RespondPC) (st : string) : Prop :=
  match c with
  | PFailed _ _ _ _ => st = "failed"
  | PRecord i _ _ => st = rv_Status (ri_Response i)
  | _ => False
  end.
Definition identity (i : EnvelopeInstance) : string * string * string * string * Z :=
  (ei_ID i, ei_SessionID i, ei_EnvelopeType i, ei_EnvelopeJSON i, ei_EmittedAt i).
Definition fresh_row (i : EnvelopeInstance) : Prop := ei_RespondedAt i = None ∧ ei_ResponseStatus i = "" ∧ ei_ResponseJSON i = "".

(** What a step does to the rows, the transcript and the calls. *)
Inductive effect (s s' : Sys) : label → Prop :=
| ef_none l : envs s' = envs s → messages s' = messages s → calls s' = calls s → handled s' = handled s → effect s s' l
| ef_row l id row : envs s !! id = None → ei_ID row = id → fresh_row row →
    envs s' = <[id := row]> (envs s) → messages s' = messages s → calls s' = calls s → handled s' = handled s → effect s s' l
| ef_call p i : calls s !! p = None →
    envs s' = envs s → messages s' = messages s → calls s' = <[p := PGet i]> (calls s) → handled s' = handled s → effect s s' (LCall p i)
| ef_move l p c c' : calls s !! p = Some c → input c' = input c → owns_envelope c' = false → (recording c = true → LRecord p true = l ∨ encode_response (ri_Response (input c)) = None) →
    (∀ r, read_row c' = Some r → envs s !! env_of c = Some r) →
    envs s' = envs s → messages s' = messages s → calls s' = <[p := c']> (calls s) → handled s' = handled s → effect s s' l
| ef_claim p i inst row now : calls s !! p = Some (PClaim i inst) → envs s !! ri_EnvelopeID i = Some row → ei_RespondedAt row = None →
    envs s' = <[ri_EnvelopeID i := with_response (Some now) "handling" (ei_ResponseJSON row) row]> (envs s) → messages s' = messages s →
    calls s' = <[p := PHandle i inst]> (calls s) → handled s' = handled s → effect s s' (LClaim p false now)
| ef_handle l p i inst c' : calls s !! p = Some (PHandle i inst) → input c' = i → read_row c' = Some inst → recording c' = true → (∀ i' r', c' ≠ PHandle i' r') →
    envs s' = envs s → messages s' = messages s → calls s' = <[p := c']> (calls s) → handled s' = (handled s ++ [(ri_EnvelopeID i, p)])%list → effect s s' l
| ef_send p i inst eid h : calls s !! p = Some (PSend i inst eid) →
    envs s' = envs s → messages s' = messages s → calls s' = <[p := PRecord i inst h]> (calls s) → handled s' = handled s → effect s s' (LSend p)
| ef_record p c c' st json : calls s !! p = Some c → recording c = true → final_status c st → input c' = input c → recording c' = false →
    (owns_envelope c' = true → read_row c' = read_row c) → (∀ i' r', c' ≠ PClaim i' r') → (owns_envelope c' = true → st = rv_Status (ri_Response (input c))) →
    envs s' = UpdateEnvelopeResponse (env_of c) st json (envs s) → messages s' = messages s → calls s' = <[p := c']> (calls s) → handled s' = handled s →
    effect s s' (LRecord p false)
| ef_message l p i inst h r payload id : calls s !! p = Some (PMessage i inst h) →
    envs s' = envs s → calls s' = <[p := PDone i r]> (calls s) → handled s' = handled s →
    messages s' = (messages s ++ [(ri_EnvelopeID i, mkMessage id (ei_SessionID inst) RoleEnvelopeResponse
       (FormatEnvelopeResponseContent (ei_EnvelopeType inst) (rv_Status (ri_Response i)) payload))])%list → effect s s' l.

Lemma update_unanswered_Ok id f m m' : update_unanswered id f m = Ok m' → ∃ i, m !! id = Some i ∧ ei_RespondedAt i = None ∧ m' = <[id := f i]> m.
Proof. unfold update_unanswered. destruct (m !! id) as [i|]; [|done]. destruct (ei_RespondedAt i) eqn:H; [done|]. intros [= <-]. eauto. Qed.
Lemma create_Ok i m m' : CreateEnvelopeInstance known i m = Ok m' → m !! ei_ID i = None ∧ m' = <[ei_ID i := with_response None "" "" i]> m.
Proof. unfold CreateEnvelopeInstance. destruct (m !! ei_ID i); [done|]. destruct (known _); [|done]. by intros [= <-]. Qed.
Lemma run_handler_effect h p i inst late plugin s : calls s !! p = Some (PHandle i inst) →
  ∃ c', run_handler h p i inst late plugin s = set_call p c' s ∧
    input c' = i ∧ read_row c' = Some inst ∧ recording c' = true ∧ (∀ i' r', c' ≠ PHandle i' r').
Proof.
  intros Hp. unfold run_handler. destruct h; try destruct (decode_elicitation_id _) as [[]|]; repeat case_match; (eexists; split; [reflexivity|done]).
Qed.
Lemma moved l p c c' s : calls s !! p = Some c → input c' = input c → owns_envelope c' = false →
  (recording c = true → LRecord p true = l ∨ encode_response (ri_Response (input c)) = None) →
  (∀ r, read_row c' = Some r → envs s !! env_of c = Some r) → effect s (set_call p c' s) l.
Proof. intros. by eapply (ef_move _ _ _ p c c'). Qed.
Lemma recorded p c c' st json s : calls s !! p = Some c → recording c = true → final_status c st → input c' = input c → recording c' = false →
  (owns_envelope c' = true → read_row c' = read_row c) → (∀ i' r', c' ≠ PClaim i' r') → (owns_envelope c' = true → st = rv_Status (ri_Response (input c))) →
  effect s (set_call p c' (set_envs (UpdateEnvelopeResponse (env_of c) st json (envs s)) s)) (LRecord p false).
Proof. intros. by eapply (ef_record _ _ p c c' st json). Qed.
Lemma respond_effect p l c s s' : calls s !! p = Some c → respond_step p l c s = Some s' →
  match l with LGet q _ | LClaim q _ _ | LReread q _ | LHandle q _ _ | LSend q | LRecord q _ | LMessage q _ _ => q = p | _ => False end → effect s s' l.
Proof.
  intros Hp H Hl. destruct c, l; cbn in H; try done; subst.
  - destruct fails; [injection H as <-; by eapply moved|]. unfold GetEnvelopeInstance in H. destruct (envs s !! ri_EnvelopeID i) as [row|] eqn:Hr; [|injection H as <-; by eapply moved].
    destruct (refusal i row); injection H as <-; (eapply moved; try done). intros r [= <-]. done.
  - destruct fails; [injection H as <-; by eapply moved|]. destruct (ClaimEnvelopeForResponse _ _ _) as [m|[]] eqn:Hc; injection H as <-; try (by eapply moved).
    apply update_unanswered_Ok in Hc as (row&Hrow&Hn&->). by eapply ef_claim.
  - destruct fails; [injection H as <-; by eapply moved|]. destruct (GetEnvelopeInstance _ _); injection H as <-; by eapply moved.
  - injection H as <-. destruct (run_handler_effect (LookupResponseHandler (handlers s) (ei_EnvelopeType inst)) p i inst late plugin (log_handled (ri_EnvelopeID i) p s)) as (c'&->&?&?&?&?); [done|].
    by eapply ef_handle.
  - injection H as <-. destruct (answers s !! eid) as [[]|]; by eapply ef_send.
  - injection H as <-. destruct fails; [apply (moved _ _ _ _ _ Hp); [done|done|by left|done]|]. by apply (recorded p (PFailed i inst timedOut msg)).
  - destruct (encode_response _) as [json|] eqn:He; [|injection H as <-; apply (moved _ _ _ _ _ Hp); [done|done|by right|done]].
    destruct fails; [injection H as <-; apply (moved _ _ _ _ _ Hp); [done|done|by left|done]|]. injection H as <-. destruct (hr_Silent h); by apply (recorded p (PRecord i inst h)).
  - destruct (encode_payload _) as [payload|]; [|injection H as <-; by eapply moved].
    destruct fails; injection H as <-; [by eapply moved|by eapply ef_message].
Qed.
Lemma elicit_effect eid l c s s' l' : elicit_step known encode_prompt eid l c s = Some s' → effect s s' l'.
Proof.
  intros H. destruct c, l; cbn in H; try done.
  - destruct fails; [injection H as <-; by apply ef_none|]. destruct (CreateEnvelopeInstance _ _ _) as [m|] eqn:Hc; injection H as <-; [|by apply ef_none].
    apply create_Ok in Hc as [Hn ->]. by eapply ef_row.
  - destruct (answers s !! eid) as [[]|]; [|done..]. injection H as <-. by apply ef_none.
  - injection H as <-. by apply ef_none.
  - destruct e; [done| |]; injection H as <-; by apply ef_none.
  - injection H as <-. by apply ef_none.
Qed.
Lemma step_effect l s s' : next s l s' → effect s s' l.
Proof.
  unfold step. intros H. destruct l; cbn -[respond_step elicit_step] in H;
    try (destruct (calls s !! p) as [c|] eqn:Hp; [|done]; by eapply respond_effect);
    try (destruct (questions s !! eid) as [c|]; [|done]; by eapply elicit_effect).
  - injection H as <-. by apply ef_none.
  - injection H as <-. by apply ef_none.
  - destruct (CreateEnvelopeInstance _ _ _) eqn:Hc; injection H as <-; [|by apply ef_none].
    apply create_Ok in Hc as [Hn ->]. by apply (ef_row _ _ _ (ei_ID i) (with_response None "" "" i)).
  - destruct (calls s !! p) eqn:Hp; [done|]. injection H as <-. by apply ef_call.
  - destruct (answers s !! eid); [done|]. injection H as <-. by apply ef_none.
Qed.

(** The invariant of the envelopes and of the calls that answer them. *)
Definition holds (s : Sys) (p : nat) (e : string) : Prop := ∃ c, calls s !! p = Some c ∧ owns_envelope c = true ∧ env_of c = e.
Definition still_handling (row : EnvelopeInstance) : Prop := ei_RespondedAt row ≠ None ∧ ei_ResponseStatus row = "handling" ∧ ei_ResponseJSON row = "".
Record envelopes_ok (s : Sys) : Prop := {
  ok_key e row : envs s !! e = Some row → ei_ID row = e;
  ok_new e row : envs s !! e = Some row → ei_RespondedAt row = None → fresh_row row;
  ok_one p q e : holds s p e → holds s q e → p = q;
  ok_owned p c : calls s !! p = Some c → owns_envelope c = true → ∃ row, envs s !! env_of c = Some row ∧ ei_RespondedAt row ≠ None;
  ok_recording p c : calls s !! p = Some c → recording c = true → ∃ row, envs s !! env_of c = Some row ∧ still_handling row;
  ok_read p c r : calls s !! p = Some c → read_row c = Some r → ∃ row, envs s !! env_of c = Some row ∧ identity row = identity r;
  ok_unhandled p i r : calls s !! p = Some (PHandle i r) → ri_EnvelopeID i ∉ (handled s).*1;
  ok_handled e : e ∈ (handled s).*1 → ∃ row, envs s !! e = Some row ∧ ei_RespondedAt row ≠ None;
  ok_once : NoDup (handled s).*1;
  ok_unsaid p c : calls s !! p = Some c → owns_envelope c = true → env_of c ∉ (messages s).*1;
  ok_said e : e ∈ (messages s).*1 → ∃ row, envs s !! e = Some row ∧ ei_RespondedAt row ≠ None;
  ok_message_once : NoDup (messages s).*1;
}.

(** A call that moves on without a claim, and rows that keep their key. *)
Lemma holds_insert s s' p c' q e : calls s' = <[p := c']> (calls s) → holds s' q e → (q = p ∧ owns_envelope c' = true ∧ env_of c' = e) ∨ (q ≠ p ∧ holds s q e).
Proof.
  intros Hc (c&Hq&Ho&He). rewrite Hc in Hq. apply lookup_insert_Some in Hq as [[<- <-]|[Hne Hq]]; [by left|]. right. split; [done|]. by exists c.
Qed.
Lemma read_claimed p c r s : envelopes_ok s → calls s !! p = Some c → read_row c = Some r → ei_ID r = env_of c.
Proof.
  intros Hok Hp Hr. destruct (ok_read s Hok p c r Hp Hr) as (row&Hrow&Hid). unfold identity in Hid. injection Hid as Hid _ _ _ _.
  rewrite <- Hid. by apply (ok_key s Hok).
Qed.
Lemma ok_rows s s' : envelopes_ok s → messages s' = messages s → calls s' = calls s → handled s' = handled s →
  (∀ e row', envs s' !! e = Some row' → ei_ID row' = e ∧ (ei_RespondedAt row' = None → fresh_row row')) →
  (∀ e row, envs s !! e = Some row → envs s' !! e = Some row) → envelopes_ok s'.
Proof.
  intros [] Hm Hc Hh Hkey Hold. split; rewrite ?Hm, ?Hc, ?Hh; try done.
  - intros e row H. by destruct (Hkey e row H).
  - intros e row H. by destruct (Hkey e row H).
  - intros p q e (c&Hp&?) (d&Hq&?). rewrite Hc in Hp, Hq. by apply (ok_one0 p q e); [exists c|exists d].
  - intros p c Hp Ho. destruct (ok_owned0 p c Hp Ho) as (row&?&?). eauto.
  - intros p c Hp Ho. destruct (ok_recording0 p c Hp Ho) as (row&?&?). eauto.
  - intros p c r Hp Hr. destruct (ok_read0 p c r Hp Hr) as (row&?&?). eauto.
  - intros e He. destruct (ok_handled0 e He) as (row&?&?). eauto.
  - intros e He. destruct (ok_said0 e He) as (row&?&?). eauto.
Qed.
(** A call moves on to [c'], which owns_envelope its envelope only if the call did. *)
Lemma ok_call s s' p c c' : envelopes_ok s → calls s !! p = Some c → input c' = input c → (owns_envelope c' = true → owns_envelope c = true) →
  (recording c' = true → recording c = true) → (∀ i r, c' ≠ PHandle i r) →
  (∀ r, read_row c' = Some r → envs s !! env_of c = Some r ∨ read_row c = Some r) →
  envs s' = envs s → messages s' = messages s → calls s' = <[p := c']> (calls s) → handled s' = handled s → envelopes_ok s'.
Proof.
  intros Hok Hp Hi Ho Hrec Hnh Hr He Hm Hc Hh. assert (env_of c' = env_of c) as Hee by (unfold env_of; by rewrite Hi).
  pose proof Hok as []. split; rewrite ?He, ?Hm, ?Hh, ?Hc; try done.
  - intros a b e Ha Hb. apply (holds_insert _ _ _ _ _ _ Hc) in Ha as [(->&?&<-)|[Hna Ha]], Hb as [(->&?&Heq)|[Hnb Hb]]; try done.
    + apply (ok_one0 p b (env_of c')); [|done]. exists c. auto.
    + apply (ok_one0 a p e); [done|]. exists c. rewrite <- Heq. auto.
    + by apply (ok_one0 a b e).
  - intros q d [[<- <-]|[Hne Hq]]%lookup_insert_Some; [rewrite Hee; eauto|eauto].
  - intros q d [[<- <-]|[Hne Hq]]%lookup_insert_Some; [rewrite Hee; eauto|eauto].
  - intros q d r [[<- <-]|[Hne Hq]]%lookup_insert_Some; [|eauto]. rewrite Hee. intros H. destruct (Hr r H) as [H'|H']; [eauto|eauto].
  - intros q i r [[<- Hd]|[Hne Hq]]%lookup_insert_Some; [by destruct (Hnh i r)|eauto].
  - intros q d [[<- <-]|[Hne Hq]]%lookup_insert_Some; [rewrite Hee; eauto|eauto].
Qed.
Lemma ok_new_call s s' p i : envelopes_ok s → calls s !! p = None → envs s' = envs s → messages s' = messages s → calls s' = <[p := PGet i]> (calls s) → handled s' = handled s → envelopes_ok s'.
Proof.
  intros [] Hp He Hm Hc Hh. split; rewrite ?He, ?Hm, ?Hh, ?Hc; try done.
  - intros a b e Ha Hb. apply (holds_insert _ _ _ _ _ _ Hc) in Ha as [(->&?&<-)|[Hna Ha]], Hb as [(->&?&Heq)|[Hnb Hb]]; try done. by apply (ok_one0 a b e).
  - intros q d [[<- <-]|[Hne Hq]]%lookup_insert_Some; [done|eauto].
  - intros q d [[<- <-]|[Hne Hq]]%lookup_insert_Some; [done|eauto].
  - intros q d r [[<- <-]|[Hne Hq]]%lookup_insert_Some; [done|eauto].
  - intros q i' r [[<- Hd]|[Hne Hq]]%lookup_insert_Some; [done|eauto].
  - intros q d [[<- <-]|[Hne Hq]]%lookup_insert_Some; [done|eauto].
Qed.
Lemma ok_claim s s' p i inst row now : envelopes_ok s → calls s !! p = Some (PClaim i inst) → envs s !! ri_EnvelopeID i = Some row → ei_RespondedAt row = None →
  envs s' = <[ri_EnvelopeID i := with_response (Some now) "handling" (ei_ResponseJSON row) row]> (envs s) → messages s' = messages s →
  calls s' = <[p := PHandle i inst]> (calls s) → handled s' = handled s → envelopes_ok s'.
Proof.
  intros Hok Hp Hrow Hun He Hm Hc Hh. pose proof Hok as []. destruct (ok_new0 _ _ Hrow Hun) as (_&Hst&Hj).
  assert (∀ q c, calls s !! q = Some c → owns_envelope c = true → env_of c ≠ ri_EnvelopeID i) as Hfree.
  { intros q c Hq Ho Heq. destruct (ok_owned0 q c Hq Ho) as (r&Hr&Hn). rewrite Heq in Hr. congruence. }
  split; rewrite ?Hm, ?Hh, ?Hc; try done.
  - intros e r. rewrite He. intros [[<- <-]|[_ H]]%lookup_insert_Some; [by apply (ok_key0 _ row)|eauto].
  - intros e r. rewrite He. intros [[<- <-]|[_ H]]%lookup_insert_Some; [done|eauto].
  - intros a b e Ha Hb. apply (holds_insert _ _ _ _ _ _ Hc) in Ha as [(->&?&<-)|[Hna Ha]], Hb as [(->&?&Heq)|[Hnb Hb]]; try done.
    + destruct Hb as (c&Hb&Ho&Heq). by destruct (Hfree b c Hb Ho).
    + destruct Ha as (c&Ha&Ho&Hea). by destruct (Hfree a c Ha Ho); rewrite Hea, <- Heq.
    + by apply (ok_one0 a b e).
  - intros q d. rewrite He. intros [[<- <-]|[Hne Hq]]%lookup_insert_Some Ho; [eexists; split; [apply lookup_insert_eq|done]|].
    destruct (ok_owned0 q d Hq Ho) as (r&Hr&Hn). exists r. rewrite lookup_insert_ne by (symmetry; by eapply Hfree). done.
  - intros q d. rewrite He. intros [[<- <-]|[Hne Hq]]%lookup_insert_Some Ho; [eexists; split; [apply lookup_insert_eq|by split]|].
    destruct (ok_recording0 q d Hq Ho) as (r&Hr&Hn). exists r. rewrite lookup_insert_ne; [done|]. symmetry. eapply Hfree; [done|]. by destruct d.
  - intros q d r. rewrite He. intros [[<- <-]|[Hne Hq]]%lookup_insert_Some Hr.
    + destruct (ok_read0 p (PClaim i inst) r Hp Hr) as (row'&Hrow'&Hid). unfold env_of in Hrow' |- *. cbn in Hrow' |- *. eexists. rewrite lookup_insert_eq. split; [done|]. rewrite Hrow in Hrow'. by injection Hrow' as <-.
    + destruct (ok_read0 q d r Hq Hr) as (row'&Hrow'&Hid). destruct (decide (env_of d = ri_EnvelopeID i)) as [Heq|Hn].
      * eexists. rewrite Heq, lookup_insert_eq. split; [done|]. rewrite Heq, Hrow in Hrow'. by injection Hrow' as <-.
      * exists row'. by rewrite lookup_insert_ne.
  - intros q j r [[<- [= <- <-]]|[Hne Hq]]%lookup_insert_Some; [|eauto]. intros Hin. destruct (ok_handled0 _ Hin) as (r&Hr&Hn). congruence.
  - intros e Hin. destruct (ok_handled0 e Hin) as (r&Hr&Hn). rewrite He. destruct (decide (e = ri_EnvelopeID i)) as [->|]; [congruence|]. exists r. by rewrite lookup_insert_ne.
  - intros q d [[<- <-]|[Hne Hq]]%lookup_insert_Some Ho; [|eauto]. intros Hin. destruct (ok_said0 _ Hin) as (r&Hr&Hn). unfold env_of in Hr. cbn in Hr. congruence.
  - intros e Hin. destruct (ok_said0 e Hin) as (r&Hr&Hn). rewrite He. destruct (decide (e = ri_EnvelopeID i)) as [->|]; [congruence|]. exists r. by rewrite lookup_insert_ne.
Qed.
Lemma recording_owns c : recording c = true → owns_envelope c = true.
Proof. by destruct c. Qed.
Lemma ok_handle s s' p i inst c' : envelopes_ok s → calls s !! p = Some (PHandle i inst) → input c' = i → read_row c' = Some inst → recording c' = true → (∀ i' r', c' ≠ PHandle i' r') →
  envs s' = envs s → messages s' = messages s → calls s' = <[p := c']> (calls s) → handled s' = (handled s ++ [(ri_EnvelopeID i, p)])%list → envelopes_ok s'.
Proof.
  intros Hok Hp Hi Hr Hrec Hnh He Hm Hc Hh.
  set (s0 := mkSys (envs s) (messages s) (handlers s) (pending s) (answers s) (<[p := c']> (calls s)) (questions s) (handled s)).
  assert (envelopes_ok s0) as Hok0.
  { eapply (ok_call s s0 p (PHandle i inst) c'); try done. intros r Hr'. right. cbn. congruence. }
  destruct (ok_owned _ Hok p _ Hp eq_refl) as (row&Hrow&Hn). pose proof (ok_unhandled _ Hok p i inst Hp) as Hun. unfold env_of in Hrow. cbn in Hrow.
  assert (∀ q e, holds s' q e → holds s0 q e) as Hholds by (intros q e (c&Hq&?); exists c; by rewrite Hc in Hq).
  destruct Hok0 as []. cbn in *. split; rewrite ?He, ?Hm, ?Hc; try done.
  - intros a b e Ha Hb. by apply (ok_one0 a b e); apply Hholds.
  - intros q j r Hq. rewrite Hh, fmap_app, elem_of_app. intros [Hin|Hin]; [by apply (ok_unhandled0 q j r)|].
    apply list_elem_of_singleton in Hin. cbn in Hin. apply lookup_insert_Some in Hq as [[<- Hd]|[Hne Hq]]; [by destruct (Hnh j r)|].
    apply Hne. apply (ok_one _ Hok p q (ri_EnvelopeID i)); eexists; (split; [done|]); done.
  - intros e. rewrite Hh, fmap_app, elem_of_app. intros [Hin|Hin]; [by apply ok_handled0|]. apply list_elem_of_singleton in Hin as ->. cbn. eauto.
  - rewrite Hh, fmap_app. apply NoDup_app. split_and!; [done| |apply NoDup_singleton]. intros e Hin Hin'. apply list_elem_of_singleton in Hin' as ->. done.
Qed.
Lemma ok_message s s' p i inst h r m : envelopes_ok s → calls s !! p = Some (PMessage i inst h) →
  envs s' = envs s → calls s' = <[p := PDone i r]> (calls s) → handled s' = handled s → messages s' = (messages s ++ [(ri_EnvelopeID i, m)])%list → envelopes_ok s'.
Proof.
  intros Hok Hp He Hc Hh Hm.
  set (s0 := mkSys (envs s) (messages s) (handlers s) (pending s) (answers s) (<[p := PDone i r]> (calls s)) (questions s) (handled s)).
  assert (envelopes_ok s0) as Hok0 by (by eapply (ok_call s s0 p (PMessage i inst h) (PDone i r))).
  destruct (ok_owned _ Hok p _ Hp eq_refl) as (row&Hrow&Hn). pose proof (ok_unsaid _ Hok p _ Hp eq_refl) as Hun. unfold env_of in Hrow, Hun. cbn in Hrow, Hun.
  assert (∀ q e, holds s' q e → holds s0 q e) as Hholds by (intros q e (c&Hq&?); exists c; by rewrite Hc in Hq).
  destruct Hok0 as []. cbn in *. split; rewrite ?He, ?Hh, ?Hc; try done.
  - intros a b e Ha Hb. by apply (ok_one0 a b e); apply Hholds.
  - intros q d Hq Ho. rewrite Hm, fmap_app, elem_of_app. intros [Hin|Hin]; [by apply (ok_unsaid0 q d)|].
    apply list_elem_of_singleton in Hin. cbn in Hin. apply lookup_insert_Some in Hq as [[<- <-]|[Hne Hq]]; [done|].
    apply Hne. apply (ok_one _ Hok p q (ri_EnvelopeID i)); eexists; (split; [done|]); done.
  - intros e. rewrite Hm, fmap_app, elem_of_app. intros [Hin|Hin]; [by apply ok_said0|]. apply list_elem_of_singleton in Hin as ->. cbn. eauto.
  - rewrite Hm, fmap_app. apply NoDup_app. split_and!; [done| |apply NoDup_singleton]. intros e Hin Hin'. apply list_elem_of_singleton in Hin' as ->. done.
Qed.
Lemma update_lookup id st json m e row : UpdateEnvelopeResponse id st json m !! e = Some row →
  ∃ row0, m !! e = Some row0 ∧ identity row = identity row0 ∧ ei_RespondedAt row = ei_RespondedAt row0 ∧ (e ≠ id → row = row0).
Proof.
  unfold UpdateEnvelopeResponse. destruct (decide (e = id)) as [->|Hne].
  - rewrite lookup_alter_eq. destruct (m !! id) as [r|]; [|done]. intros [= <-]. by eexists.
  - rewrite lookup_alter_ne by done. intros H. by exists row.
Qed.
Lemma update_lookup_to id st json m e row : m !! e = Some row →
  ∃ row', UpdateEnvelopeResponse id st json m !! e = Some row' ∧ identity row' = identity row ∧ ei_RespondedAt row' = ei_RespondedAt row ∧ (e ≠ id → row' = row).
Proof.
  intros H. unfold UpdateEnvelopeResponse. destruct (decide (e = id)) as [->|Hne].
  - rewrite lookup_alter_eq, H. by eexists.
  - rewrite lookup_alter_ne by done. by exists row.
Qed.
Lemma ok_record s s' p c c' st json : envelopes_ok s → calls s !! p = Some c → recording c = true → input c' = input c → recording c' = false →
  (owns_envelope c' = true → read_row c' = read_row c) → (∀ i' r', c' ≠ PClaim i' r') →
  envs s' = UpdateEnvelopeResponse (env_of c) st json (envs s) → messages s' = messages s → calls s' = <[p := c']> (calls s) → handled s' = handled s → envelopes_ok s'.
Proof.
  intros Hok Hp Hrec Hi Hrec' Hread Hnc He Hm Hc Hh.
  set (s0 := mkSys (envs s) (messages s) (handlers s) (pending s) (answers s) (<[p := c']> (calls s)) (questions s) (handled s)).
  assert (envelopes_ok s0) as Hok0.
  { eapply (ok_call s s0 p c c'); try done; [intros _; by apply recording_owns|by intros i r ->|].
    intros r Hr. right. destruct (owns_envelope c') eqn:Ho; [by rewrite <- Hread|]. destruct c'; try done. by destruct (Hnc i inst). }
  assert (∀ q e, holds s' q e → holds s0 q e) as Hholds by (intros q e (d&Hq&?); exists d; by rewrite Hc in Hq).
  pose proof (ok_owned _ Hok p c Hp (recording_owns _ Hrec)) as (row&Hrow&Hn).
  assert (∀ e r, envs s !! e = Some r → ei_RespondedAt r ≠ None → ∃ r', envs s' !! e = Some r' ∧ ei_RespondedAt r' ≠ None) as Hkeep.
  { intros e r Hr Hnr. destruct (update_lookup_to (env_of c) st json (envs s) e r Hr) as (r'&Hr'&_&Ha&_). exists r'. rewrite He, Ha. done. }
  destruct Hok0 as []. cbn in *. split; rewrite ?Hm, ?Hh, ?Hc; try done.
  - intros e r. rewrite He. intros (r0&Hr0&Hid&_)%update_lookup. unfold identity in Hid. injection Hid as -> _ _ _ _. eauto.
  - intros e r. rewrite He. intros (r0&Hr0&Hid&Ha&Hsame)%update_lookup Hnone. destruct (decide (e = env_of c)) as [->|Hne]; [congruence|].
    rewrite (Hsame Hne) in *. eauto.
  - intros a b e Ha Hb. by apply (ok_one0 a b e); apply Hholds.
  - intros q d Hq Ho. destruct (ok_owned0 q d Hq Ho) as (r&Hr&Hnr). by apply (Hkeep _ r).
  - intros q d Hq Hd. destruct (ok_recording0 q d Hq Hd) as (r&Hr&Hnr). destruct (update_lookup_to (env_of c) st json (envs s) _ r Hr) as (r'&Hr'&_&_&Hsame).
    exists r'. rewrite He. split; [done|]. rewrite Hsame; [done|]. intros Heq. apply lookup_insert_Some in Hq as [[<- <-]|[Hne Hq]]; [congruence|].
    apply Hne. apply (ok_one _ Hok p q (env_of c)); [exists c; by split; [|split; [apply recording_owns|]]|exists d; by split; [|split; [apply recording_owns|]]].
  - intros q d r Hq Hr. destruct (ok_read0 q d r Hq Hr) as (r1&Hr1&Hid). destruct (update_lookup_to (env_of c) st json (envs s) _ r1 Hr1) as (r'&Hr'&Hid'&_).
    exists r'. rewrite He. split; [done|]. congruence.
  - intros e Hin. destruct (ok_handled0 e Hin) as (r&Hr&Hnr). by apply (Hkeep e r).
  - intros e Hin. destruct (ok_said0 e Hin) as (r&Hr&Hnr). by apply (Hkeep e r).
Qed.
Lemma effect_ok l s s' : effect s s' l → envelopes_ok s → envelopes_ok s'.
Proof.
  intros Heff Hok. destruct Heff as [? He ? ? ?|? id row Hn Hid Hf He ? ? ?| |? p c c' Hp Hi Ho Hrec Hr| | |p i inst eid h Hp| |].
  - apply (ok_rows s s' Hok); try done; rewrite He; [|done]. intros e row Hr. split; [by apply (ok_key _ Hok)|by apply (ok_new _ Hok e)].
  - apply (ok_rows s s' Hok); try done; rewrite He.
    + intros e r [[<- <-]|[_ Hr]]%lookup_insert_Some; [done|]. split; [by apply (ok_key _ Hok)|by apply (ok_new _ Hok e)].
    + intros e r Hr. rewrite lookup_insert_ne; congruence.
  - by eapply ok_new_call.
  - apply (ok_call s s' p c c' Hok); try done; [congruence|intros Hx; by rewrite (recording_owns c') in Ho|by intros i r ->|by left; auto].
  - by eapply ok_claim.
  - by eapply ok_handle.
  - apply (ok_call s s' p (PSend i inst eid) (PRecord i inst h) Hok); try done. intros r [= <-]. by right.
  - by eapply ok_record.
  - by eapply ok_message.
Qed.
Lemma start_ok hs : envelopes_ok (start hs).
Proof.
  split; intros; cbn in *; try (by constructor); try (by apply elem_of_nil in H); try done.
  by destruct H as (c&Hp&_).
Qed.
Lemma steps_ok s ls s' : steps next s ls s' → envelopes_ok s → envelopes_ok s'.
Proof. apply steps_invariant. intros a l b H. by apply (effect_ok l), step_effect. Qed.
Lemma reachable_ok hs s : reachable known encode_prompt hs s → envelopes_ok s.
Proof. intros [ls H]. by eapply steps_ok, start_ok. Qed.

(** C28. A response handler runs once per envelope, and a response adds one message to the
    transcript at most, whatever number of responses are sent at a time, whatever
    handlers come and go and whatever statements fail; and a handler runs, and a message
    is added, only for an envelope that was claimed. *)
Theorem handler_runs_once hs s : reachable known encode_prompt hs s →
  NoDup (handled s).*1 ∧ NoDup (messages s).*1 ∧
  (∀ e, e ∈ (handled s).*1 ∨ e ∈ (messages s).*1 → ∃ row, envs s !! e = Some row ∧ ei_RespondedAt row ≠ None) ∧
  (∀ p q i j r r', calls s !! p = Some (PHandle i r) → calls s !! q = Some (PHandle j r') → ri_EnvelopeID i = ri_EnvelopeID j → p = q).
Proof.
  intros H%reachable_ok. split_and!; [apply (ok_once _ H)|apply (ok_message_once _ H)|intros e [He|He]; [by apply (ok_handled _ H)|by apply (ok_said _ H)]|].
  intros p q i j r r' Hp Hq He. apply (ok_one _ H p q (ri_EnvelopeID i)); eexists; (split; [done|]); done.
Qed.

(** What is done to a row by the responses. *)
Definition final_statuses : list string := ["failed"; StatusSubmitted; StatusCanceled; StatusPartial].
Definition settled (row : EnvelopeInstance) : Prop := ei_RespondedAt row ≠ None ∧ ei_ResponseStatus row ∈ final_statuses.
Definition row_ok (row : EnvelopeInstance) : Prop := fresh_row row ∨ still_handling row ∨ settled row.
Definition label_ok (l : label) : Prop := match l with LCall _ i => Validate (ri_Response i) = Ok tt | _ => True end.
Definition settles (row row' : EnvelopeInstance) : Prop :=
  identity row' = identity row ∧ (ei_RespondedAt row ≠ None → ei_RespondedAt row' = ei_RespondedAt row) ∧ (settled row → row' = row).
Record valid_sys (s : Sys) : Prop := {
  vs_ok : envelopes_ok s;
  vs_calls p c : calls s !! p = Some c → Validate (ri_Response (input c)) = Ok tt;
  vs_rows e row : envs s !! e = Some row → row_ok row;
}.
Lemma settles_refl row : settles row row.
Proof. by split. Qed.
Lemma settles_trans a b c : settles a b → settles b c → settles a c.
Proof.
  intros (H1&H2&H3) (H4&H5&H6). split_and!; [congruence| |].
  - intros Ha. rewrite H5; [by apply H2|]. by rewrite H2.
  - intros Ha. pose proof (H3 Ha) as ->. by apply H6.
Qed.
Lemma handling_not_settled row : still_handling row → ¬ settled row.
Proof. intros (_&Hs&_) [_ Hf]. rewrite Hs in Hf. revert Hf. by_decide. Qed.
Lemma valid_status r : Validate r = Ok tt → rv_Status r ∈ final_statuses.
Proof.
  unfold Validate. repeat case_match; try done. intros _. apply bool_decide_eq_true in H2. right. done.
Qed.
Lemma final_status_ok c st : Validate (ri_Response (input c)) = Ok tt → final_status c st → st ∈ final_statuses.
Proof. destruct c; try done; [intros _ ->; left|intros H ->; by apply valid_status]. Qed.
Lemma effect_valid l s s' : effect s s' l → label_ok l → valid_sys s → valid_sys s' ∧ ∀ e row, envs s !! e = Some row → ∃ row', envs s' !! e = Some row' ∧ settles row row'.
Proof.
  intros Heff Hl [Hok Hcalls Hrows]. pose proof (effect_ok _ _ _ Heff Hok) as Hok'.
  assert (∀ p c, calls s' !! p = Some c → Validate (ri_Response (input c)) = Ok tt) as Hcalls'.
  { intros q d Hq. destruct Heff as [? ? ? Hc|? ? ? ? ? ? ? ? Hc|? i ? ? ? Hc|? p c c' Hp Hi ? ? ? ? ? Hc|p i inst ? ? Hp ? ? ? ? Hc|? p i inst c' Hp Hi ? ? ? ? ? Hc|p i inst ? ? Hp ? ? Hc|p c c' ? ? Hp ? ? Hi ? ? ? ? ? ? Hc|? p i inst h r ? ? Hp ? Hc];
      rewrite Hc in Hq; [eauto|eauto|..]; apply lookup_insert_Some in Hq as [[<- <-]|[_ Hq]]; eauto; cbn; try rewrite Hi; first [by eapply Hcalls|by apply (Hcalls _ _ Hp)]. }
  assert ((∀ e row, envs s' !! e = Some row → row_ok row) ∧ ∀ e row, envs s !! e = Some row → ∃ row', envs s' !! e = Some row' ∧ settles row row') as [? ?]; [|by split].
  assert (envs s' = envs s → (∀ e row, envs s' !! e = Some row → row_ok row) ∧ ∀ e row, envs s !! e = Some row → ∃ row', envs s' !! e = Some row' ∧ settles row row') as Hsame.
  { intros ->. split; [done|]. intros e row H. exists row. by split; [|apply settles_refl]. }
  destruct Heff as [|? id row Hn Hid Hf He| | |p i inst row now Hp Hrow Hun He| | |p c c' st json Hp Hrec Hfin _ _ _ _ _ He|]; try (by apply Hsame).
  - rewrite He. split.
    + intros e r [[<- <-]|[_ Hold]]%lookup_insert_Some; [by left|eauto].
    + intros e r Hold. exists r. split; [|apply settles_refl]. rewrite lookup_insert_ne; [done|]. congruence.
  - rewrite He. destruct (ok_new _ Hok _ _ Hrow Hun) as (_&_&Hj). split.
    + intros e r [[<- <-]|[_ Hold]]%lookup_insert_Some; [right; left; by split|eauto].
    + intros e r Hold. destruct (decide (e = ri_EnvelopeID i)) as [->|Hne].
      * eexists. rewrite lookup_insert_eq. split; [done|]. rewrite Hrow in Hold. injection Hold as <-. split_and!; [done|done|]. by intros [? _].
      * exists r. rewrite lookup_insert_ne by done. by split; [|apply settles_refl].
  - destruct (ok_recording _ Hok p c Hp Hrec) as (row&Hrow&Hh). rewrite He. split.
    + intros e r Hold. destruct (update_lookup _ _ _ _ _ _ Hold) as (r0&Hr0&_&Ha&Hsm). destruct (decide (e = env_of c)) as [->|Hne]; [|rewrite (Hsm Hne); eauto].
      unfold UpdateEnvelopeResponse in Hold. rewrite lookup_alter_eq, Hrow in Hold. injection Hold as <-. right; right. split; [apply Hh|]. cbn. by eapply final_status_ok; [by apply (Hcalls p)|].
    + intros e r Hold. destruct (update_lookup_to (env_of c) st json _ _ _ Hold) as (r'&Hr'&Hid&Ha&Hsm). exists r'. split; [done|]. split_and!; [done|done|].
      intros Hs. apply Hsm. intros ->. rewrite Hrow in Hold. injection Hold as <-. by apply handling_not_settled in Hh.
Qed.
Lemma start_valid hs : valid_sys (start hs).
Proof. split; [apply start_ok|done|done]. Qed.
Lemma steps_valid s ls s' : steps next s ls s' → Forall label_ok ls → valid_sys s →
  valid_sys s' ∧ ∀ e row, envs s !! e = Some row → ∃ row', envs s' !! e = Some row' ∧ settles row row'.
Proof.
  intros H. induction H as [s|s l s1 ls s2 Hstep _ IH]; intros Hl Hv.
  - split; [done|]. intros e row Hr. exists row. by split; [|apply settles_refl].
  - apply Forall_cons in Hl as [Hl Hls]. destruct (effect_valid l s s1 (step_effect _ _ _ Hstep) Hl Hv) as [Hv1 He1].
    destruct (IH Hls Hv1) as [Hv2 He2]. split; [done|]. intros e row Hr. destruct (He1 e row Hr) as (r1&Hr1&H1).
    destruct (He2 e r1 Hr1) as (r2&Hr2&H2). exists r2. split; [done|]. by eapply settles_trans.
Qed.
(** A recorded response is final.  Every envelope is unanswered, being handled or
    settled; its content never changes; the time of its answer, once set, stays; and once
    an outcome is recorded the row is never written again, whatever happens. *)
Theorem responses_are_final hs ls s ls' s' : steps next (start hs) ls s → Forall label_ok ls → steps next s ls' s' → Forall label_ok ls' →
  (∀ e row, envs s !! e = Some row → row_ok row) ∧
  (∀ e row, envs s !! e = Some row → ∃ row', envs s' !! e = Some row' ∧ identity row' = identity row ∧
     (ei_RespondedAt row ≠ None → ei_RespondedAt row' = ei_RespondedAt row) ∧ (settled row → row' = row)).
Proof.
  intros H1 Hl1 H2 Hl2. destruct (steps_valid _ _ _ H1 Hl1 (start_valid hs)) as [Hv _].
  split; [apply (vs_rows _ Hv)|]. apply (steps_valid _ _ _ H2 Hl2 Hv).
Qed.

(** An answered envelope is settled, or a call has still to record its outcome. *)
Definition accounted (s : Sys) : Prop := ∀ e row, envs s !! e = Some row → ei_RespondedAt row ≠ None →
  settled row ∨ ∃ p c, calls s !! p = Some c ∧ recording c = true ∧ env_of c = e.
Definition write_works (l : label) : Prop := match l with LRecord _ true => False | _ => True end.
Lemma accounted_calls s s' p c' : accounted s → envs s' = envs s → calls s' = <[p := c']> (calls s) →
  (∀ c, calls s !! p = Some c → recording c = true → recording c' = true ∧ env_of c' = env_of c) → accounted s'.
Proof.
  intros Ha He Hc Hp e row Hr Hn. rewrite He in Hr. destruct (Ha e row Hr Hn) as [|(q&d&Hq&Hd&Hde)]; [by left|right].
  rewrite Hc. destruct (decide (q = p)) as [->|Hne].
  - exists p, c'. rewrite lookup_insert_eq. destruct (Hp d Hq Hd) as [? Heq]. rewrite Heq. done.
  - exists q, d. by rewrite lookup_insert_ne.
Qed.
Lemma effect_accounted l s s' : (∀ r, encode_response r ≠ None) → effect s s' l → write_works l → label_ok l → valid_sys s → accounted s → accounted s'.
Proof.
  intros Henc Heff Hw Hl [Hok Hcalls _] Ha. destruct Heff as [? He ? Hc|? id row Hn Hid Hf He ? Hc|? ? Hp He ? Hc|? p c c' Hp Hi Ho Hrec Hr He ? Hc|p i inst row now Hp Hrow Hun He ? Hc|? p i inst c' Hp Hi Hr Hrec _ He ? Hc|p i inst eid h Hp He ? Hc|p c c' st json Hp Hrec Hfin Hi _ _ _ _ He ? Hc|? p i inst h r ? ? Hp He Hc].
  - intros e r. rewrite He, Hc. apply Ha.
  - intros e r. rewrite He, Hc. intros [[<- <-]|[_ Hold]]%lookup_insert_Some; [by destruct Hf as [-> _]|by apply Ha].
  - eapply accounted_calls; try done. intros c. by rewrite Hp.
  - eapply accounted_calls; try done. intros d Hd. rewrite Hp in Hd. injection Hd as <-. intros Hx. destruct (Hrec Hx) as [<-|Hnone]; [done|by apply Henc in Hnone].
  - intros e r. rewrite He, Hc. intros [[<- <-]|[Hne Hold]]%lookup_insert_Some Hn; [right; exists p, (PHandle i inst); by rewrite lookup_insert_eq|].
    destruct (Ha e r Hold Hn) as [|(q&d&Hq&Hd&Hde)]; [by left|right]. exists q, d. rewrite lookup_insert_ne; [done|]. intros <-. rewrite Hp in Hq. by injection Hq as <-.
  - eapply accounted_calls; try done. intros d Hd. rewrite Hp in Hd. injection Hd as <-. intros _. split; [done|]. unfold env_of. by rewrite Hi.
  - eapply accounted_calls; try done. intros d Hd. rewrite Hp in Hd. by injection Hd as <-.
  - intros e r. rewrite He. intros Hr Hn. destruct (update_lookup _ _ _ _ _ _ Hr) as (r0&Hr0&_&Hat&Hsm). destruct (decide (e = env_of c)) as [->|Hne].
    + left. split; [done|]. unfold UpdateEnvelopeResponse in Hr. rewrite lookup_alter_eq, Hr0 in Hr. injection Hr as <-. cbn. by eapply final_status_ok; [by apply (Hcalls p)|].
    + rewrite (Hsm Hne) in *. destruct (Ha e r0 Hr0 Hn) as [|(q&d&Hq&Hd&Hde)]; [by left|right]. exists q, d. rewrite Hc, lookup_insert_ne; [done|]. intros <-. congruence.
  - eapply accounted_calls; try done. intros d Hd. rewrite Hp in Hd. by injection Hd as <-.
Qed.
Lemma steps_accounted hs ls s : (∀ r, encode_response r ≠ None) → steps next (start hs) ls s → Forall label_ok ls → Forall write_works ls → accounted s.
Proof.
  intros Henc H. cut (∀ a b ks, steps next a ks b → Forall label_ok ks → Forall write_works ks → valid_sys a → accounted a → accounted b).
  { intros Hx Hl Hw. eapply Hx; [exact H|done|done|apply start_valid|done]. }
  clear H. intros a b ks Hs. induction Hs as [|a l b ks c Hstep _ IH]; [done|]. intros [Hl Hls]%Forall_cons [Hw Hws]%Forall_cons Hv Ha.
  apply step_effect in Hstep. apply IH; [done|done|by apply (effect_valid l a b)|by apply (effect_accounted l a b)].
Qed.
(** A call that has to record an outcome can do it alone, in two or three steps. *)
Lemma recording_settles s p c : (∀ r, encode_response r ≠ None) → valid_sys s → calls s !! p = Some c → recording c = true →
  ∃ ls s' row, (length ls ≤ 3)%nat ∧ steps next s ls s' ∧ envs s' !! env_of c = Some row ∧ settled row.
Proof.
  intros Henc.
  assert (∀ s c, valid_sys s → calls s !! p = Some c → (∃ i r t m, c = PFailed i r t m) ∨ (∃ i r h, c = PRecord i r h) →
    ∃ s' row, next s (LRecord p false) s' ∧ envs s' !! env_of c = Some row ∧ settled row) as Hlast.
  { clear s c. intros s c Hv Hp Hc. assert (∃ s', next s (LRecord p false) s') as [s' Hs'].
    { unfold step, apply. rewrite Hp. destruct Hc as [(i&r&t&m&->)|(i&r&h&->)]; cbn; [eauto|].
      destruct (encode_response (ri_Response i)) eqn:He; [eauto|by apply Henc in He]. }
    assert (recording c = true) as Hrec by (by destruct Hc as [(?&?&?&?&->)|(?&?&?&->)]).
    destruct (ok_recording _ (vs_ok _ Hv) p c Hp Hrec) as (row&Hrow&Hh).
    destruct (effect_valid _ _ _ (step_effect _ _ _ Hs') I Hv) as [Hv' Hset]. destruct (Hset _ _ Hrow) as (row'&Hrow'&_&Hat&_).
    exists s', row'. split_and!; [done|done|]. destruct (vs_rows _ Hv' _ _ Hrow') as [(Hn&_)|[Hst|Hst]]; [|exfalso|done].
    - destruct Hh as [Hh _]. rewrite Hat in Hn by done. done.
    - unfold step, apply in Hs'. rewrite Hp in Hs'. destruct Hst as (_&Hst&_).
      assert (ei_ResponseStatus row' ∈ final_statuses) as Hf; [|rewrite Hst in Hf; revert Hf; by_decide].
      assert (∃ st json, st ∈ final_statuses ∧ envs s' = UpdateEnvelopeResponse (env_of c) st json (envs s)) as (st&json&Hin&He).
      { destruct Hc as [(i&r&t&m&->)|(i&r&h&->)]; cbn in Hs'; [injection Hs' as <-; eexists "failed", _; split; [by left|done]|].
        destruct (encode_response (ri_Response i)) as [json|] eqn:Hj; [|by apply Henc in Hj].
        injection Hs' as <-. exists (rv_Status (ri_Response i)), json. split; [by apply valid_status, (vs_calls _ Hv p _ Hp)|by destruct (hr_Silent h)]. }
      rewrite He in Hrow'. unfold UpdateEnvelopeResponse in Hrow'. rewrite lookup_alter_eq, Hrow in Hrow'. by injection Hrow' as <-. }
  assert (∀ s i inst eid, valid_sys s → calls s !! p = Some (PSend i inst eid) →
    ∃ s1 s2 row, next s (LSend p) s1 ∧ next s1 (LRecord p false) s2 ∧ envs s2 !! ri_EnvelopeID i = Some row ∧ settled row) as Hsend.
  { clear s c. intros s i inst eid Hv Hp. assert (∃ s', next s (LSend p) s') as [s' Hs'] by (unfold step, apply; rewrite Hp; cbn; eauto).
    destruct (effect_valid _ _ _ (step_effect _ _ _ Hs') I Hv) as [Hv' _].
    assert (calls s' !! p = Some (PRecord i inst (answered_result eid (ri_Response i)))) as Hp'.
    { unfold step, apply in Hs'. rewrite Hp in Hs'. injection Hs' as <-. apply lookup_insert_eq. }
    destruct (Hlast s' _ Hv' Hp') as (s2&row&?&?&?); [by right; eauto|]. by exists s', s2, row. }
  intros Hv Hp Hrec. destruct c as [| | |i inst|i inst eid|i inst t m|i inst h| |]; try done.
  - (* the handler *)
    set (plugin := Ok slot_changed_response : result string HandlerResult).
    assert (∃ s', next s (LHandle p false plugin) s') as [s' Hs'] by (unfold step, apply; rewrite Hp; cbn; eauto).
    destruct (effect_valid _ _ _ (step_effect _ _ _ Hs') I Hv) as [Hv' _].
    assert (∃ c', calls s' !! p = Some c' ∧ env_of c' = ri_EnvelopeID i ∧ ((∃ i r t m, c' = PFailed i r t m) ∨ (∃ i r h, c' = PRecord i r h) ∨ ∃ i r e, c' = PSend i r e)) as (c'&Hp'&Hec&Hcase).
    { unfold step, apply in Hs'. rewrite Hp in Hs'. cbn in Hs'. injection Hs' as <-.
      destruct (run_handler_effect (LookupResponseHandler (handlers s) (ei_EnvelopeType inst)) p i inst false plugin (log_handled (ri_EnvelopeID i) p s) Hp) as (c'&->&Hi&_&Hr&Hn).
      exists c'. cbn. rewrite lookup_insert_eq. split_and!; [done|unfold env_of; by rewrite Hi|]. destruct c'; try done; [by destruct (Hn i0 inst0)|right;right|left|right;left]; eauto. }
    destruct Hcase as [Hf|[Hf|(j&r&eid&->)]]; [destruct (Hlast s' c' Hv' Hp') as (s2&row&Hs2&Hrow&Hset); [auto|]..|].
    + exists [LHandle p false plugin; LRecord p false], s2, row. split_and!; [cbn; lia|eauto using steps_cons, steps_nil|change (env_of (PHandle i inst)) with (ri_EnvelopeID i); by rewrite <- Hec|done].
    + exists [LHandle p false plugin; LRecord p false], s2, row. split_and!; [cbn; lia|eauto using steps_cons, steps_nil|change (env_of (PHandle i inst)) with (ri_EnvelopeID i); by rewrite <- Hec|done].
    + destruct (Hsend s' j r eid Hv' Hp') as (s2&s3&row&Hs2&Hs3&Hrow&Hset). exists [LHandle p false plugin; LSend p; LRecord p false], s3, row.
      split_and!; [cbn; lia|eauto using steps_cons, steps_nil|change (env_of (PHandle i inst)) with (ri_EnvelopeID i); by rewrite <- Hec|done].
  - destruct (Hsend s i inst eid Hv Hp) as (s2&s3&row&Hs2&Hs3&Hrow&Hset). exists [LSend p; LRecord p false], s3, row.
    split_and!; [cbn; lia|eauto using steps_cons, steps_nil|done|done].
  - destruct (Hlast s _ Hv Hp) as (s2&row&Hs2&Hrow&Hset); [by left; eauto|]. exists [LRecord p false], s2, row.
    split_and!; [cbn; lia|eauto using steps_cons, steps_nil|done|done].
  - destruct (Hlast s _ Hv Hp) as (s2&row&Hs2&Hrow&Hset); [by right; eauto|]. exists [LRecord p false], s2, row.
    split_and!; [cbn; lia|eauto using steps_cons, steps_nil|done|done].
Qed.
(** C29. A claimed envelope does not stay without an outcome.  While the writes of the
    outcomes succeed, every envelope that was claimed is settled, or the call that
    claimed it can settle it in three steps of its own, whatever its handler did,
    whoever else runs, and although the deadline of the handler is over. *)
Theorem claimed_envelope_gets_an_outcome hs ls s e row : (∀ r, encode_response r ≠ None) →
  steps next (start hs) ls s → Forall label_ok ls → Forall write_works ls →
  envs s !! e = Some row → ei_RespondedAt row ≠ None →
  settled row ∨ ∃ ks s' row', (length ks ≤ 3)%nat ∧ steps next s ks s' ∧ envs s' !! e = Some row' ∧ settled row'.
Proof.
  intros Henc Hs Hl Hw Hr Hn. destruct (steps_accounted _ _ _ Henc Hs Hl Hw e row Hr Hn) as [|(p&c&Hp&Hrec&<-)]; [by left|right].
  destruct (steps_valid _ _ _ Hs Hl (start_valid hs)) as [Hv _].
  destruct (recording_settles s p c Henc Hv Hp Hrec) as (ks&s'&row'&?&?&?&?). by exists ks, s', row'.
Qed.

(** ** The transcript *)

Record transcript_ok (s : Sys) : Prop := {
  tr_status p i inst h : calls s !! p = Some (PMessage i inst h) → ∃ row, envs s !! ri_EnvelopeID i = Some row ∧ settled row ∧ ei_ResponseStatus row = rv_Status (ri_Response i);
  tr_messages e m : (e, m) ∈ messages s → ∃ row payload, envs s !! e = Some row ∧ settled row ∧ m_SessionID m = ei_SessionID row ∧
    m_Content m = FormatEnvelopeResponseContent (ei_EnvelopeType row) (ei_ResponseStatus row) payload;
}.
Lemma effect_transcript l s s' : effect s s' l → label_ok l → valid_sys s → transcript_ok s → transcript_ok s'.
Proof.
  intros Heff Hl Hv [Hst Hms]. destruct (effect_valid _ _ _ Heff Hl Hv) as [Hv' Hset].
  assert (∀ e row, envs s !! e = Some row → settled row → envs s' !! e = Some row) as Hkeep.
  { intros e row Hr Hs. destruct (Hset e row Hr) as (row'&Hr'&_&_&Hsame). by rewrite Hr', (Hsame Hs). }
  assert (∀ e m, (e, m) ∈ messages s → ∃ row payload, envs s' !! e = Some row ∧ settled row ∧ m_SessionID m = ei_SessionID row ∧
    m_Content m = FormatEnvelopeResponseContent (ei_EnvelopeType row) (ei_ResponseStatus row) payload) as Hms'.
  { intros e m Hm. destruct (Hms e m Hm) as (row&payload&?&?&?). exists row, payload. split; [by apply Hkeep|done]. }
  assert (∀ p i inst h, calls s !! p = Some (PMessage i inst h) → ∃ row, envs s' !! ri_EnvelopeID i = Some row ∧ settled row ∧ ei_ResponseStatus row = rv_Status (ri_Response i)) as Hst'.
  { intros p i inst h Hp. destruct (Hst p i inst h Hp) as (row&?&?&?). exists row. split; [by apply Hkeep|done]. }
  destruct Heff as [? _ Hm Hc|? id row _ _ _ _ Hm Hc|? ? Hp _ Hm Hc|? p c c' Hp Hi Ho _ _ _ Hm Hc|p i inst row now Hp _ _ _ Hm Hc|? p i inst c' Hp Hi Hr Hrec _ _ Hm Hc|p i inst eid h Hp _ Hm Hc|p c c' st json Hp Hrec Hfin Hi _ Hrd _ Hown He Hm Hc|? p i inst h r payload id Hp He Hc _ Hm];
    (split; [intros q j inst' h'|intros e m]); rewrite ?Hc, ?Hm; try done; try (by apply Hst'); try (by apply Hms');
    try (intros [[<- Hd]|[_ Hq]]%lookup_insert_Some; [by first [discriminate|rewrite Hd in Ho|rewrite Hd in Hrec]|by eapply Hst']).
  - intros [[<- Hd]|[_ Hq]]%lookup_insert_Some; [|by eapply Hst']. subst c'. destruct (ok_recording _ (vs_ok _ Hv) p c Hp Hrec) as (row&Hrow&Hh&_).
    assert (env_of c = ri_EnvelopeID j) as Heq by (unfold env_of; by rewrite <- Hi). rewrite He, <- Heq. unfold UpdateEnvelopeResponse. rewrite lookup_alter_eq, Hrow.
    eexists. split; [done|]. cbn. rewrite (Hown eq_refl). assert (input c = j) as <- by done.
    split; [|done]. split; [done|]. cbn. apply valid_status, (vs_calls _ Hv p c Hp).
  - rewrite elem_of_app. intros [Hin|Hin]; [by apply Hms'|]. apply list_elem_of_singleton in Hin as [= -> ->].
    destruct (Hst p i inst h Hp) as (row&Hrow&Hset'&Hstat). destruct (ok_read _ (vs_ok _ Hv) p _ inst Hp eq_refl) as (row'&Hrow'&Hid). unfold env_of in Hrow'. cbn in Hrow'.
    rewrite Hrow in Hrow'. injection Hrow' as <-. unfold identity in Hid. injection Hid as Hid1 Hid2 Hid3 Hid4 Hid5. exists row, payload. rewrite He. split_and!; [done|done|done|]. cbn. congruence.
Qed.
(** The transcript tells the outcome.  Every message about an envelope is in its
    session, carries its kind and the status recorded for it, and the record is there. *)
Theorem transcript_matches_records hs ls s e m : steps next (start hs) ls s → Forall label_ok ls → (e, m) ∈ messages s →
  ∃ row payload, envs s !! e = Some row ∧ settled row ∧ m_SessionID m = ei_SessionID row ∧
    m_Content m = FormatEnvelopeResponseContent (ei_EnvelopeType row) (ei_ResponseStatus row) payload.
Proof.
  intros Hs Hl. assert (transcript_ok s) as [_ H]; [|apply H].
  assert (∀ a ks b, steps next a ks b → Forall label_ok ks → valid_sys a → transcript_ok a → transcript_ok b) as Hx.
  { clear. intros a ks b H. induction H as [|a l b ks c Hstep _ IH]; [done|]. intros [Hl Hls]%Forall_cons Hv Ht. apply step_effect in Hstep.
    apply IH; [done|by apply (effect_valid l a b)|by apply (effect_transcript l a b)]. }
  apply (Hx _ _ _ Hs Hl (start_valid hs)). split; [done|]. by intros e' m' Hin%elem_of_nil.
Qed.

(** ** Questions *)

(** The answer a call gave to a question: it ran the handler of an envelope that names
    the question, with the response it came with. *)
Definition given (s : Sys) (eid : string) (r : Response) : Prop :=
  ∃ p c row, calls s !! p = Some c ∧ (env_of c, p) ∈ handled s ∧ envs s !! env_of c = Some row ∧
    decode_elicitation_id (ei_EnvelopeJSON row) = Some eid ∧ r = elicit_answer (ri_Response (input c)).
Definition open_question (c : ElicitPC) : bool := match c with QDone _ _ _ => false | _ => true end.
Definition outcome (c : ElicitPC) : option (Response * option EErr) := match c with QLeave _ r e | QDone _ r e => Some (r, e) | _ => None end.
Definition timed_out : Response := mkAnswer ActionCancel "" "timeout".
Record questions_ok (s : Sys) : Prop := {
  qu_sending p i inst eid : calls s !! p = Some (PSend i inst eid) → decode_elicitation_id (ei_EnvelopeJSON inst) = Some eid ∧ (ri_EnvelopeID i, p) ∈ handled s;
  qu_answer eid r : answers s !! eid = Some (Some r) → given s eid r;
  qu_outcome eid c r e : questions s !! eid = Some c → outcome c = Some (r, e) →
    match e with None => r = timed_out ∨ given s eid r | Some _ => an_Action r = ActionCancel end;
  qu_pending eid : eid ∈ pending s ↔ ∃ c, questions s !! eid = Some c ∧ open_question c = true;
  qu_channel eid : is_Some (answers s !! eid) ↔ is_Some (questions s !! eid);
}.
Lemma effect_grows l s s' : effect s s' l → envelopes_ok s →
  (∀ p c, calls s !! p = Some c → ∃ c', calls s' !! p = Some c' ∧ input c' = input c) ∧
  (∀ x, x ∈ handled s → x ∈ handled s') ∧
  (∀ e row, envs s !! e = Some row → ∃ row', envs s' !! e = Some row' ∧ identity row' = identity row).
Proof.
  intros Heff Hok.
  assert (∀ p c c', calls s !! p = Some c → input c' = input c → calls s' = <[p := c']> (calls s) → ∀ q d, calls s !! q = Some d → ∃ d', calls s' !! q = Some d' ∧ input d' = input d) as Hup.
  { intros p c c' Hp Hi -> q d Hq. destruct (decide (q = p)) as [->|Hne]; [exists c'; rewrite lookup_insert_eq; split; [done|congruence]|].
    exists d. by rewrite lookup_insert_ne. }
  assert (∀ A (m m' : gmap string A) e (row : A), m' = m → m !! e = Some row → ∃ row', m' !! e = Some row' ∧ row' = row) as Hsame by (intros A m m' e row -> H; eauto).
  destruct Heff as [? He _ Hc Hh|? id row Hn _ _ He _ Hc Hh|p i Hp He _ Hc Hh|? p c c' Hp Hi _ _ _ He _ Hc Hh|p i inst row now Hp Hrow _ He _ Hc Hh|? p i inst c' Hp Hi _ _ _ He _ Hc Hh|p i inst eid h Hp He _ Hc Hh|p c c' st json Hp _ _ Hi _ _ _ _ He _ Hc Hh|? p i inst h r ? ? Hp He Hc Hh _];
    rewrite ?Hh; (split_and!; [|by first [done|intros x Hx; apply elem_of_app; left]|]); try (by rewrite Hc; eauto); try (by rewrite He; eauto).
  - intros e r Hr. exists r. rewrite He, lookup_insert_ne; [done|congruence].
  - intros q c Hq. rewrite Hc. exists c. rewrite lookup_insert_ne; [done|congruence].
  - by apply (Hup p c c').
  - by apply (Hup p (PClaim i inst) (PHandle i inst)).
  - intros e r Hr. rewrite He. destruct (decide (e = ri_EnvelopeID i)) as [->|Hne]; [rewrite lookup_insert_eq; eexists; split; [done|]; by rewrite Hrow in Hr; injection Hr as <-|].
    exists r. by rewrite lookup_insert_ne.
  - by apply (Hup p (PHandle i inst) c').
  - by apply (Hup p (PSend i inst eid) (PRecord i inst h)).
  - by apply (Hup p c c').
  - intros e r Hr. rewrite He. destruct (update_lookup_to (env_of c) st json _ _ _ Hr) as (r'&?&?&_). eauto.
  - by apply (Hup p (PMessage i inst h) (PDone i r)).
Qed.
Lemma given_mono l s s' eid r : effect s s' l → envelopes_ok s → given s eid r → given s' eid r.
Proof.
  intros Heff Hok (p&c&row&Hp&Hh&Hr&Hd&->). destruct (effect_grows l s s' Heff Hok) as (Hc&Hg&He).
  destruct (Hc p c Hp) as (c'&Hp'&Hi). destruct (He _ _ Hr) as (row'&Hr'&Hid). unfold identity in Hid. injection Hid as _ _ _ Hj _.
  exists p, c', row'. unfold env_of in *. rewrite Hi, Hj. auto.
Qed.
Lemma questions_frame l s s' : effect s s' l → envelopes_ok s → questions_ok s →
  (∀ p i inst eid, calls s' !! p = Some (PSend i inst eid) → calls s !! p = Some (PSend i inst eid) ∨ decode_elicitation_id (ei_EnvelopeJSON inst) = Some eid ∧ (ri_EnvelopeID i, p) ∈ handled s') →
  (∀ eid r, answers s' !! eid = Some (Some r) → answers s !! eid = Some (Some r) ∨ given s' eid r) →
  (∀ eid c r e, questions s' !! eid = Some c → outcome c = Some (r, e) → questions s !! eid = Some c ∨
     (∃ c0, questions s !! eid = Some c0 ∧ outcome c0 = Some (r, e)) ∨ match e with None => r = timed_out ∨ given s' eid r | Some _ => an_Action r = ActionCancel end) →
  (∀ eid, eid ∈ pending s' ↔ ∃ c, questions s' !! eid = Some c ∧ open_question c = true) →
  (∀ eid, is_Some (answers s' !! eid) ↔ is_Some (questions s' !! eid)) → questions_ok s'.
Proof.
  intros Heff Hok [] Hs Ha Hq Hp Hc. destruct (effect_grows l s s' Heff Hok) as (_&Hg&_). split; try done.
  - intros p i inst eid H. destruct (Hs p i inst eid H) as [H'|]; [|done]. destruct (qu_sending0 p i inst eid H'). auto.
  - intros eid r H. destruct (Ha eid r H) as [H'|]; [|done]. apply (given_mono l s s'); auto.
  - assert (∀ eid c r e, questions s !! eid = Some c → outcome c = Some (r, e) → match e with None => r = timed_out ∨ given s' eid r | Some _ => an_Action r = ActionCancel end) as Hold.
    { intros eid c r e H1 H2. pose proof (qu_outcome0 eid c r e H1 H2) as H3. destruct e; [done|]. destruct H3 as [|H3]; [by left|right]. by apply (given_mono l s s'). }
    intros eid c r e H1 H2. destruct (Hq eid c r e H1 H2) as [H'|[(c0&H'&H'')|H']]; [by apply (Hold eid c)|by apply (Hold eid c0)|done].
Qed.
Lemma same_questions l s s' : effect s s' l → envelopes_ok s → questions_ok s → answers s' = answers s → questions s' = questions s → pending s' = pending s →
  (∀ p i inst eid, calls s' !! p = Some (PSend i inst eid) → calls s !! p = Some (PSend i inst eid) ∨ decode_elicitation_id (ei_EnvelopeJSON inst) = Some eid ∧ (ri_EnvelopeID i, p) ∈ handled s') → questions_ok s'.
Proof.
  intros Heff Hok Hq Ha Hqs Hp Hc. eapply (questions_frame l s s'); try done; rewrite ?Ha, ?Hqs, ?Hp; auto; apply Hq.
Qed.
(** No other step than running the handler of a question starts an answer. *)
Lemma set_call_sends p c' s : (∀ i inst eid, c' ≠ PSend i inst eid) → ∀ q i inst eid, <[p := c']> (calls s) !! q = Some (PSend i inst eid) → calls s !! q = Some (PSend i inst eid).
Proof. intros Hn q i inst eid [[<- Hd]|[_ H]]%lookup_insert_Some; [by destruct (Hn i inst eid)|done]. Qed.
Lemma elicit_questions eid l c s s' : questions s !! eid = Some c → elicit_step known encode_prompt eid l c s = Some s' → envelopes_ok s → questions_ok s → questions_ok s'.
Proof.
  intros Hc H Hok Hq. pose proof (elicit_effect eid l c s s' l H) as Heff.
  assert (calls s' = calls s ∧ ∃ c', questions s' = <[eid := c']> (questions s) ∧ (outcome c = None ∨ outcome c' = outcome c) ∧
    (open_question c = true) ∧ pending s' = (if open_question c' then pending s else pending s ∖ {[eid]}) ∧
    (answers s' = answers s ∨ answers s' = <[eid := None]> (answers s) ∧ is_Some (answers s !! eid)) ∧
    (∀ r e, outcome c' = Some (r, e) → outcome c = None → match e with None => r = timed_out ∨ given s eid r | Some _ => an_Action r = ActionCancel end)) as (Hcalls&c'&Hqs&Hout&Hopen&Hpend&Hans&Hnew).
  { destruct c, l; cbn in H; try done.
    - destruct (if fails then _ else _) as [m|]; injection H as <-; (split; [done|]); eexists; split_and!; try done; try (by left); by intros r' e' [= <- <-] _.
    - destruct (answers s !! eid) as [[r|]|] eqn:Ha; [|done..]. injection H as <-. split; [done|]. eexists. split_and!; try done; [by left|right; split; [done|by eexists]|].
      intros r' e [= <- <-] _. right. by apply (qu_answer _ Hq).
    - injection H as <-. split; [done|]. eexists. split_and!; try done; [by left|by left|]. intros r' e [= <- <-] _. by left.
    - destruct e; [done| |]; injection H as <-; (split; [done|]); eexists; (split_and!; try done; try (by left)); by intros r' e [= <- <-] _.
    - injection H as <-. split; [done|]. eexists. split_and!; try done; [by right|by left]. }
  assert (∀ x, is_Some (answers s' !! x) ↔ is_Some (answers s !! x)) as Hdom.
  { intros x. destruct Hans as [->|[-> Hx]]; [done|]. rewrite lookup_insert_is_Some. split; [intros [<-|[_ ?]]; done|]. intros ?. destruct (decide (eid = x)); [by left|by right]. }
  eapply (questions_frame l s s'); try done.
  - intros p i inst e Hp. rewrite Hcalls in Hp. by left.
  - intros x r Hx. left. destruct Hans as [Ha|[Ha _]]; rewrite Ha in Hx; [done|]. by apply lookup_insert_Some in Hx as [[_ ?]|[_ ?]].
  - intros x d r e. rewrite Hqs. intros [[<- <-]|[_ Hx]]%lookup_insert_Some Ho; [|by left]. right. destruct Hout as [Hn|He]; [|left; exists c; split; [done|congruence]].
    right. pose proof (Hnew r e Ho Hn) as Hx. destruct e; [done|]. destruct Hx as [|Hx]; [by left|right]. by apply (given_mono l s s').
  - intros x. rewrite Hpend, Hqs. pose proof (qu_pending _ Hq x) as Hx. destruct (decide (x = eid)) as [->|Hne].
    + rewrite lookup_insert_eq. destruct (open_question c') eqn:Ho.
      * rewrite Hx. split; [eauto|]. intros _. by exists c.
      * split; [set_solver|]. intros (d&[= <-]&Hd). congruence.
    + rewrite lookup_insert_ne by done. destruct (open_question c'); [done|]. rewrite elem_of_difference, elem_of_singleton. naive_solver.
  - intros x. rewrite Hdom, Hqs, lookup_insert_is_Some, (qu_channel _ Hq x). split; [|by intros [<-|[_ ?]]].
    destruct (decide (eid = x)); [by left|by right].
Qed.
Lemma respond_questions p l c s s' : calls s !! p = Some c → respond_step p l c s = Some s' → effect s s' l → envelopes_ok s → questions_ok s → questions_ok s'.
Proof.
  intros Hp H Heff Hok Hq.
  assert (∀ c', s' = set_call p c' s → (∀ i inst eid, c' ≠ PSend i inst eid) → questions_ok s') as Hmove.
  { intros c' -> Hn. apply (same_questions l s _ Heff Hok Hq); try done. intros q i inst eid Hx. left. exact (set_call_sends p c' s Hn q i inst eid Hx). }
  assert (∀ c' m, s' = set_call p c' (set_envs m s) → (∀ i inst eid, c' ≠ PSend i inst eid) → questions_ok s') as Hmove'.
  { intros c' m -> Hn. apply (same_questions l s _ Heff Hok Hq); try done. intros q i inst eid Hx. left. exact (set_call_sends p c' s Hn q i inst eid Hx). }
  destruct c, l; cbn in H; try done.
  - destruct fails; [injection H as <-; by eapply Hmove|]. destruct (GetEnvelopeInstance _ _) as [inst|[]]; try (injection H as <-; by eapply Hmove). destruct (refusal i inst); injection H as <-; by eapply Hmove.
  - destruct fails; [injection H as <-; by eapply Hmove|]. destruct (ClaimEnvelopeForResponse _ _ _) as [m|[]]; injection H as <-; try (by eapply Hmove). by eapply Hmove'.
  - destruct fails; [injection H as <-; by eapply Hmove|]. destruct (GetEnvelopeInstance _ _); injection H as <-; by eapply Hmove.
  - injection H as <-. set (s0 := log_handled (ri_EnvelopeID i) p s) in *. set (h := LookupResponseHandler _ _) in *.
    destruct (run_handler_effect h p i inst late plugin s0 Hp) as (c'&Hrun&_&_&_&_).
    apply (same_questions _ s _ Heff Hok Hq); rewrite ?Hrun; try done. intros q j inst' eid Hx. cbn in Hx.
    apply lookup_insert_Some in Hx as [[<- Hd]|[_ Hx]]; [right|by left]. subst c'.
    assert (decode_elicitation_id (ei_EnvelopeJSON inst) = Some eid ∧ j = i ∧ inst' = inst) as (Hdec&->&->).
    { clear Heff. unfold run_handler in Hrun. destruct h; try destruct (decode_elicitation_id _) as [[|a x]|] eqn:Hdec; repeat case_match; try done;
        apply (f_equal (λ s, calls s !! p)) in Hrun; cbn in Hrun; rewrite !lookup_insert_eq in Hrun; try done; by injection Hrun as <- <- <-. }
    split; [done|]. cbn. apply elem_of_app. right. by left.
  - injection H as <-. set (r := elicit_answer (ri_Response i)).
    assert (given (set_call p (PRecord i inst (answered_result eid (ri_Response i))) s) eid r) as Hg.
    { destruct (qu_sending _ Hq p i inst eid Hp) as [Hdec Hin]. destruct (ok_read _ Hok p _ inst Hp eq_refl) as (row&Hrow&Hid). unfold identity in Hid. injection Hid as _ _ _ Hj _.
      exists p. eexists. exists row. cbn. rewrite lookup_insert_eq. split_and!; [done|done|done|by rewrite Hj|done]. }
    destruct (answers s !! eid) as [[]|] eqn:Ha; [by eapply Hmove| |by eapply Hmove].
    apply (questions_frame _ s _ Heff Hok Hq).
    + intros q j inst' e Hx. left. eapply (set_call_sends p _ s); [|exact Hx]. done.
    + intros x r' Hx. cbn in Hx. apply lookup_insert_Some in Hx as [[<- [= <-]]|[_ Hx]]; [by right|by left].
    + intros x d r' e Hx _. by left.
    + apply (qu_pending _ Hq).
    + intros x. cbn. rewrite lookup_insert_is_Some, <- (qu_channel _ Hq x). split; [intros [<-|[_ ?]]; [by rewrite Ha; eauto|done]|]. intros ?. destruct (decide (eid = x)); [by left|by right].
  - injection H as <-. destruct fails; [by eapply Hmove|by eapply Hmove'].
  - destruct (encode_response _); [|injection H as <-; by eapply Hmove]. destruct fails; [injection H as <-; by eapply Hmove|]. injection H as <-. destruct (hr_Silent h); by eapply Hmove'.
  - destruct (encode_payload _); [|injection H as <-; by eapply Hmove]. destruct fails; [injection H as <-; by eapply Hmove|]. injection H as <-.
    apply (same_questions _ s _ Heff Hok Hq); try done. intros q j inst' e Hx. left. eapply (set_call_sends p _ s); [|exact Hx]. done.
Qed.
Lemma step_questions l s s' : next s l s' → envelopes_ok s → questions_ok s → questions_ok s'.
Proof.
  intros Hs Hok Hq. pose proof (step_effect l s s' Hs) as Heff. unfold step in Hs. destruct l; cbn -[respond_step elicit_step] in Hs;
    try (destruct (calls s !! p) as [c|] eqn:Hp; [by eapply respond_questions|done]);
    try (destruct (questions s !! eid) as [c|] eqn:Hc; [by eapply elicit_questions|done]).
  - injection Hs as <-. apply (same_questions _ s _ Heff Hok Hq); try done. by left.
  - injection Hs as <-. apply (same_questions _ s _ Heff Hok Hq); try done. by left.
  - destruct (CreateEnvelopeInstance _ _ _); injection Hs as <-; [|done]. apply (same_questions _ s _ Heff Hok Hq); try done. by left.
  - destruct (calls s !! p) eqn:Hp; [done|]. injection Hs as <-. apply (same_questions _ s _ Heff Hok Hq); try done. intros q j inst e Hx. left. eapply (set_call_sends p _ s); [|exact Hx]. done.
  - destruct (answers s !! eid) eqn:Ha; [done|]. injection Hs as <-. assert (questions s !! eid = None) as Hn.
    { destruct (questions s !! eid) eqn:Hx; [|done]. destruct (qu_channel _ Hq eid) as [_ Hc]. rewrite Hx, Ha in Hc. by destruct (Hc ltac:(eauto)). }
    apply (questions_frame _ s _ Heff Hok Hq).
    + intros p i inst e Hp. by left.
    + intros x r Hx. cbn in Hx. apply lookup_insert_Some in Hx as [[_ ?]|[_ Hx]]; [done|by left].
    + intros x d r e Hx Ho. cbn in Hx. apply lookup_insert_Some in Hx as [[_ <-]|[_ Hx]]; [done|by left].
    + intros x. cbn. rewrite elem_of_union, elem_of_singleton, (qu_pending _ Hq x). destruct (decide (x = eid)) as [->|Hne].
      * rewrite lookup_insert_eq. split; [intros _; by eexists|by left].
      * rewrite lookup_insert_ne by done. naive_solver.
    + intros x. cbn. rewrite !lookup_insert_is_Some, (qu_channel _ Hq x). done.
Qed.
Lemma reachable_questions hs s : reachable known encode_prompt hs s → envelopes_ok s ∧ questions_ok s.
Proof.
  intros [ls H]. cut (envelopes_ok (start hs) ∧ questions_ok (start hs)).
  - revert H. apply (steps_invariant next (λ s, envelopes_ok s ∧ questions_ok s)). intros a l b Hs [H1 H2]. split; [by eapply effect_ok; [apply step_effect|]|by eapply step_questions].
  - split; [apply start_ok|]. split; try done; intros eid; cbn; split; first [by intros ?%elem_of_empty|by intros (?&?&_)|by intros [? ?]].
Qed.

(** A question is answered through its own envelope only.  When a tool gets an answer
    to its question, either the question timed out, or a call ran the handler of an
    envelope that the server stored for this very question, and the answer is the one of
    the response it recorded there; an abandoned question is canceled; and a question
    that is over can no longer be found. *)
Theorem answers_come_from_their_envelope hs s eid q r e : reachable known encode_prompt hs s → questions s !! eid = Some (QDone q r e) →
  match e with None => r = timed_out ∨ given s eid r | Some _ => an_Action r = ActionCancel end ∧ eid ∉ pending s.
Proof.
  intros [Hok Hq]%reachable_questions Hc. split; [by apply (qu_outcome _ Hq eid (QDone q r e))|].
  rewrite (qu_pending _ Hq). intros (c&Hc'&Ho). rewrite Hc in Hc'. by injection Hc' as <-.
Qed.
(** C27. A directive is sent only on a submitted answer.  With the elicitation service
    wired, a tool sends a directive only when the user submitted a response to the
    envelope of its question, with an action that is not to decline: a timeout, a
    canceled response, a failure to ask and an abandoned call all stop it. *)
Theorem directive_needs_an_answer hs s eid q r e : reachable known encode_prompt hs s → questions s !! eid = Some (QDone q r e) →
  confirm_directive "directive" true r e = SendIt →
  ∃ p c row, (env_of c, p) ∈ handled s ∧ calls s !! p = Some c ∧ envs s !! env_of c = Some row ∧
    decode_elicitation_id (ei_EnvelopeJSON row) = Some eid ∧
    rv_Status (ri_Response (input c)) = StatusSubmitted ∧ str_at (rv_Data (ri_Response (input c))) "action" ≠ ActionDecline.
Proof.
  intros [Hok Hq]%reachable_questions Hc Hsend. pose proof (qu_outcome _ Hq eid _ r e Hc eq_refl) as Hout.
  assert (an_Action r = ActionAccept) as Hact.
  { unfold confirm_directive, ElicitUserInput in Hsend. rewrite (bool_decide_eq_true_2 ("directive" = "directive")) in Hsend by done. cbn [andb] in Hsend.
    destruct e as [[]|]; try done; revert Hsend; by case_bool_decide. }
  destruct e; [by rewrite Hact in Hout|]. destruct Hout as [->|(p&c&row&Hp&Hh&Hr&Hd&->)]; [done|]. exists p, c, row.
  cbn in Hact. unfold elicit_action in Hact. case_bool_decide as Hst; [|done]. split_and!; try done.
  intros Ha. rewrite Ha in Hact. revert Hact. by_decide.
Qed.
(** A question always ends.  Whatever else runs, whether or not its prompt can be
    emitted and although nobody answers, a tool that asked gets a result in at most three
    steps of its own question, and the question is forgotten. *)
Theorem question_always_ends hs s eid c fails id now : reachable known encode_prompt hs s → questions s !! eid = Some c →
  ∃ ls s' q r e, (length ls ≤ 3)%nat ∧ Forall (λ l, l ∈ [LEmit eid fails id now; LTimeout eid; LLeave eid]) ls ∧
    steps next s ls s' ∧ questions s' !! eid = Some (QDone q r e) ∧ eid ∉ pending s'.
Proof.
  intros Hr Hc. set (own := [LEmit eid fails id now; LTimeout eid; LLeave eid]).
  assert (∀ s q r e, questions s !! eid = Some (QLeave q r e) → ∃ s', next s (LLeave eid) s' ∧ questions s' !! eid = Some (QDone q r e) ∧ eid ∉ pending s') as Hleave.
  { intros t q r e Ht. eexists. unfold step, apply. rewrite Ht. cbn -[set_question]. split; [done|]. cbn. rewrite lookup_insert_eq. split; [done|set_solver]. }
  assert (∀ s q i, questions s !! eid = Some (QWait q i) → ∃ s1 s2 r, next s (LTimeout eid) s1 ∧ next s1 (LLeave eid) s2 ∧ questions s2 !! eid = Some (QDone q r None) ∧ eid ∉ pending s2) as Hwait.
  { intros t q i Ht. assert (∃ s1, next t (LTimeout eid) s1 ∧ questions s1 !! eid = Some (QLeave q timed_out None)) as (s1&H1&H2).
    { eexists. unfold step, apply. rewrite Ht. cbn -[set_question]. split; [done|]. cbn. by rewrite lookup_insert_eq. }
    destruct (Hleave s1 q _ _ H2) as (s2&?&?&?). by exists s1, s2, timed_out. }
  assert (LEmit eid fails id now ∈ own ∧ LTimeout eid ∈ own ∧ LLeave eid ∈ own) as (Ho1&Ho2&Ho3) by (split_and!; repeat constructor).
  clearbody own. destruct c as [q|q i|q r e|q r e].
  - assert (∃ s1, next s (LEmit eid fails id now) s1 ∧ ((∃ r e, questions s1 !! eid = Some (QLeave q r e)) ∨ ∃ i, questions s1 !! eid = Some (QWait q i))) as (s1&H1&[(r&e&H2)|(i&H2)]).
    { unfold step, apply. rewrite Hc. cbn -[set_question]. destruct (if fails then _ else _); eexists; (split; [reflexivity|]); cbn; rewrite lookup_insert_eq; eauto. }
    + destruct (Hleave s1 q _ _ H2) as (s2&?&?&?). eexists [_; _], s2, q, _, _. split_and!; [cbn; lia| |eauto using steps_cons, steps_nil|done|done]. auto.
    + destruct (Hwait s1 q i H2) as (s2&s3&r&?&?&?&?). eexists [_; _; _], s3, q, _, _. split_and!; [cbn; lia| |eauto using steps_cons, steps_nil|done|done]. auto.
  - destruct (Hwait s q i Hc) as (s1&s2&r&?&?&?&?). eexists [_; _], s2, q, _, _. split_and!; [cbn; lia| |eauto using steps_cons, steps_nil|done|done]. auto.
  - destruct (Hleave s q r e Hc) as (s2&?&?&?). eexists [_], s2, q, _, _. split_and!; [cbn; lia| |eauto using steps_cons, steps_nil|done|done]. auto.
  - exists [], s, q, r, e. split_and!; [cbn; lia|constructor|constructor|done|]. destruct (reachable_questions hs s Hr) as [_ Hq]. rewrite (qu_pending _ Hq). intros (d&Hd&Ho). rewrite Hc in Hd. by injection Hd as <-.
Qed.
End Facts.

(** ** Table cards *)

Section Tables.
Context {J : EnvelopeCodecs}.
(** The actions the server declared where the response acts: on a column, or on the
    table. *)
Definition declared_at (payload : tableCardPayload) (column : string) (actions : list string) : Prop :=
  if bool_decide (column = "") then actions = ta_Actions payload
  else ∃ n c, ta_Columns payload !! n = Some c ∧ co_Key c = column ∧ actions = co_Actions c ∧
       ∀ m d, (m < n)%nat → ta_Columns payload !! m = Some d → co_Key d ≠ column.
Lemma findColumn_Some cols key c : findColumn cols key = Some c ↔
  ∃ n, cols !! n = Some c ∧ co_Key c = key ∧ ∀ m d, (m < n)%nat → cols !! m = Some d → co_Key d ≠ key.
Proof.
  unfold findColumn. induction cols as [|x cols IH]; cbn; [split; [done|by intros (n&?&_)]|]. case_bool_decide as Hx.
  - split.
    + intros [= <-]. exists 0%nat. split_and!; [done|done|lia].
    + intros ([|n]&Hn&Hk&Hm); [by injection Hn as ->|]. by destruct (Hm 0%nat x ltac:(lia) eq_refl).
  - rewrite IH. split.
    + intros (n&Hn&Hk&Hm). exists (S n). split_and!; [done|done|]. intros [|m] d Hlt; cbn; [intros [= <-]; done|]. apply Hm. lia.
    + intros ([|n]&Hn&Hk&Hm); [cbn in Hn; by injection Hn as ->|]. exists n. split_and!; [done|done|]. intros m d Hlt Hd. apply (Hm (S m) d); [lia|done].
Qed.
Lemma actionDeclared_iff l a : actionDeclared l a = true ↔ a ∈ l.
Proof. unfold actionDeclared. rewrite existsb_exists. setoid_rewrite bool_decide_eq_true. split; [intros (x&H&->)|intros H; exists a]; by rewrite list_elem_of_In in *. Qed.
(** The row a response names: none, or the index and content of one the server sent. *)
Definition selects (payload : tableCardPayload) (d : Data) (sel : option (Z * string)) : Prop :=
  match d !! "row_index", sel with
  | None, None => True
  | Some v, Some (i, row) => asInt v = Some i ∧ 0 ≤ i ∧ ta_Rows payload !! Z.to_nat i = Some row
  | _, _ => False
  end.
Definition selection_data (action column : string) (sel : option (Z * string)) : Data :=
  let d : Data := {["action_id" := VStr action]} in
  let d := if bool_decide (column = "") then d else <["column_key" := VStr column]> d in
  match sel with Some (i, row) => <["row" := VJson row]> (<["row_index" := VInt i]> d) | None => d end.
Lemma declared_lookup payload k actions :
  (if negb (bool_decide (k = "")) then match findColumn (ta_Columns payload) k with None => Err "unknown column_key" | Some c => Ok (co_Actions c) end
   else Ok (ta_Actions payload) : result string (list string)) = Ok actions ↔ declared_at payload k actions.
Proof.
  unfold declared_at. case_bool_decide; cbn; [naive_solver|]. destruct (findColumn (ta_Columns payload) k) as [c|] eqn:Hf.
  - apply findColumn_Some in Hf as (n&Hn&Hk&Hm). split; [intros [= <-]; by exists n, c|]. intros (n'&c'&Hn'&Hk'&->&Hm').
    assert (findColumn (ta_Columns payload) k = Some c ∧ findColumn (ta_Columns payload) k = Some c') as [H1 H2] by (split; apply findColumn_Some; eauto). congruence.
  - split; [done|]. intros (n&c&Hn&Hk&_&Hm). assert (findColumn (ta_Columns payload) k = Some c) by (apply findColumn_Some; eauto). congruence.
Qed.
(** What is left once the action is known to be declared. *)
Lemma row_response payload a k d data :
  (∃ h, (let data : Data := {["action_id" := VStr a]} in
         let data := if negb (bool_decide (k = "")) then <["column_key" := VStr k]> data else data in
         match d !! "row_index" with
         | None => Ok (mkHandled (Some data) false ("Table action " +:+ Quote a +:+ " submitted."))
         | Some v =>
             match asInt v with
             | None => Err "row_index must be a number"
             | Some ri =>
                 if (ri <? 0) || (Z.of_nat (length (ta_Rows payload)) <=? ri) then Err "row_index out of range" else
                 let row := nth (Z.to_nat ri) (ta_Rows payload) "" in
                 Ok (mkHandled (Some (<["row" := VJson row]> (<["row_index" := VInt ri]> data))) false
                      ("Table action " +:+ Quote a +:+ " submitted (row " +:+ pretty ri +:+ ")."))
             end
         end : result string HandlerResult) = Ok h ∧ hr_TranscriptData h = Some data) ↔
  ∃ sel, selects payload d sel ∧ data = selection_data a k sel.
Proof.
  unfold selects, selection_data. assert (∀ A (x y : A), (if negb (bool_decide (k = "")) then x else y) = if bool_decide (k = "") then y else x) as Hif by (intros; by case_bool_decide).
  rewrite !Hif. cbn zeta. destruct (d !! "row_index") as [v|]; [destruct (asInt v) as [ri|]|].
  - destruct ((ri <? 0) || (Z.of_nat (length (ta_Rows payload)) <=? ri)) eqn:Hr.
    + split; [by intros (h&?&_)|]. intros ([[i row]|]&Hs&_); [|done]. destruct Hs as ([= <-]&H0&Hrow). apply lookup_lt_Some in Hrow. b2p. lia.
    + assert (0 ≤ ri ∧ (Z.to_nat ri < length (ta_Rows payload))%nat) as [H0 H1] by (b2p; lia).
      assert (ta_Rows payload !! Z.to_nat ri = Some (nth (Z.to_nat ri) (ta_Rows payload) "")) as Hrow by (destruct (nth_lookup_or_length (ta_Rows payload) (Z.to_nat ri) ""); [done|lia]).
      split; [intros (h&[= <-]&[= <-]); by eexists (Some (_, _))|]. intros ([[i row]|]&Hs&->); [|done]. destruct Hs as ([= <-]&_&Hrow'). eexists. split; [done|]. cbn. congruence.
  - split; [by intros (h&?&_)|]. intros ([[i row]|]&Hs&_); [by destruct Hs|done].
  - split; [intros (h&[= <-]&[= <-]); by exists None|]. intros ([[i row]|]&Hs&->); [done|]. by eexists.
Qed.
(** A table accepts the actions it offered, and nothing else.  A response is accepted
    exactly when it names an action that the server declared on the table, or on the
    first column with the key it gives, and, if it names a row, one the server sent; what
    the transcript then holds is the action, the column and the row of the server. *)
Theorem table_accepts_what_it_offered env r data : (∃ h, table_response env r = Ok h ∧ hr_TranscriptData h = Some data) ↔
  let a := str_at (rv_Data r) "action_id" in let k := str_at (rv_Data r) "column_key" in
  ∃ payload actions sel, decode_table (ei_EnvelopeJSON env) = Some payload ∧ a ≠ "" ∧ declared_at payload k actions ∧ a ∈ actions ∧
    selects payload (rv_Data r) sel ∧ data = selection_data a k sel.
Proof.
  cbn zeta. unfold table_response. set (a := str_at (rv_Data r) "action_id"). set (k := str_at (rv_Data r) "column_key").
  case_bool_decide as Ha; [split; [by intros (h&?&_)|by intros (?&?&?&_&?&_)]|].
  destruct (decode_table (ei_EnvelopeJSON env)) as [payload|]; [|split; [by intros (h&?&_)|by intros (?&?&?&?&_)]].
  pose proof (declared_lookup payload k) as Hdecl. destruct (if negb _ then _ else _) as [actions|e]; cbn -[selection_data]; fold a.
  - specialize (proj1 (Hdecl actions) eq_refl) as Hd. assert (∀ l, declared_at payload k l → l = actions) as Hun by (intros l Hl%Hdecl; congruence).
    destruct (actionDeclared actions a) eqn:Hact; cbn -[selection_data].
    + apply actionDeclared_iff in Hact. rewrite (row_response payload a k (rv_Data r)). split.
      * intros (sel&Hsel&->). by exists payload, actions, sel.
      * intros (p'&l&sel&[= <-]&_&Hl&_&Hsel&->). by exists sel.
    + split; [by intros (h&?&_)|]. intros (p'&l&sel&[= <-]&_&Hl&Hin&_). rewrite (Hun l Hl) in Hin. apply actionDeclared_iff in Hin. congruence.
  - split; [by intros (h&?&_)|]. intros (p'&l&sel&[= <-]&_&Hl&_). by apply Hdecl in Hl.
Qed.
End Tables.

(** ** Worked examples *)

(** A run of given steps. *)
Fixpoint run {J : EnvelopeCodecs} (known : string → bool) (encode_prompt : string → ElicitInput → string) (ls : list label) (s : Sys) : option Sys :=
  match ls with [] => Some s | l :: rest => match apply known encode_prompt l s with Some s' => run known encode_prompt rest s' | None => None end end.
Lemma run_steps {J : EnvelopeCodecs} known encode_prompt ls s s' : run known encode_prompt ls s = Some s' → steps (step known encode_prompt) s ls s'.
Proof.
  revert s. induction ls as [|l ls IH]; intros s; cbn; [intros [= ->]; constructor|]. destruct (apply known encode_prompt l s) as [s1|] eqn:H; [|done].
  intros Hr. eapply steps_cons; [exact H|by apply IH].
Qed.

Module Example_envelopes.
(** The prompt of a question is its identifier after a mark; a table has one column. *)
#[local] Instance codecs : EnvelopeCodecs := Build_EnvelopeCodecs
  (λ s, s) (λ _, Some (mkTable ["row 0"; "row 1"] [mkColumn "host" ["restart"]] ["refresh"])) (λ _, None)
  (λ s, if has_prefix s "question " then Some (str_drop 9 s) else None) (λ r, Some (rv_Status r)) (λ _, Some "{}").
Definition known (s : string) : bool := true.
Definition prompt (eid : string) (q : ElicitInput) : string := "question " +:+ eid.
Lemma prompt_decodes eid q : decode_elicitation_id (prompt eid q) = Some eid.
Proof. cbn [decode_elicitation_id codecs]. unfold prompt. replace (has_prefix ("question " +:+ eid) "question ") with true; [|symmetry; apply has_prefix_spec; by exists eid]. by rewrite (str_drop_app "question "). Qed.
Definition hs : gmap string Handler := {["elicitation-prompt" := ElicitationHandler; "table-card" := TableCardHandler]}.
Definition question : ElicitInput := mkElicit "Send directive to ops?" (Some (mkSchema "boolean" "Confirm" "")) "" "s1" "a1" "server".
Definition response (action : string) : ResponseV1 := mkResponse 1 "elicitation-prompt" "e1" StatusSubmitted {["action" := VStr action]} [] [].
Definition input1 (action : string) : RespondInput := mkRespond "e1" (response action) (Some "s1").
Definition ask : list label := [LElicit "q1" question; LEmit "q1" false "e1" 10].
Definition claim : list label := [LCall 0 (input1 "accept"); LGet 0 false; LClaim 0 false 20].
Definition answer : list label := [LHandle 0 false (Err ""); LSend 0; LRecord 0 false; LMessage 0 false "m1"].
Definition after (ls : list label) : Sys := default (start hs) (run known prompt ls (start hs)).
Definition answered : Sys := after (ask ++ claim ++ answer ++ [LReceive "q1"; LLeave "q1"])%list.
Lemma answered_run : steps (step known prompt) (start hs) (ask ++ claim ++ answer ++ [LReceive "q1"; LLeave "q1"])%list answered.
Proof. apply run_steps. by vm_compute. Qed.
Lemma answered_reachable : reachable known prompt hs answered.
Proof. eexists. exact answered_run. Qed.
Lemma answered_question : questions answered !! "q1" = Some (QDone question (mkAnswer "accept" "" "") None).
Proof. by vm_compute. Qed.
Lemma answered_row : envs answered !! "e1" = Some (mkInstance "e1" "s1" "elicitation-prompt" "question q1" 10 (Some 20) "submitted" "submitted").
Proof. by vm_compute. Qed.
Lemma answered_message : messages answered = [("e1", mkMessage "m1" "s1" "envelope_response" "[envelope:elicitation-prompt status:submitted] {}")].
Proof. by vm_compute. Qed.
Lemma handler_runs_once_witness : NoDup (handled answered).*1.
Proof. apply (handler_runs_once known prompt hs answered answered_reachable). Defined.
Lemma labels_ok : Forall label_ok (ask ++ claim ++ answer ++ [LReceive "q1"; LLeave "q1"])%list ∧ Forall write_works (ask ++ claim ++ answer ++ [LReceive "q1"; LLeave "q1"])%list.
Proof. split; repeat constructor. Qed.
Lemma responses_are_final_witness : row_ok (mkInstance "e1" "s1" "elicitation-prompt" "question q1" 10 (Some 20) "submitted" "submitted").
Proof.
  apply (proj1 (responses_are_final known prompt hs _ answered [] answered answered_run (proj1 labels_ok) (steps_nil _ _) (List.Forall_nil _)) "e1"). exact answered_row.
Defined.
Lemma transcript_matches_records_witness : ∃ payload, "[envelope:elicitation-prompt status:submitted] {}" = FormatEnvelopeResponseContent "elicitation-prompt" "submitted" payload.
Proof.
  destruct (transcript_matches_records known prompt hs _ answered "e1" (mkMessage "m1" "s1" "envelope_response" "[envelope:elicitation-prompt status:submitted] {}") answered_run (proj1 labels_ok)) as (row&payload&Hrow&_&_&H).
  - rewrite answered_message. by left.
  - rewrite answered_row in Hrow. injection Hrow as <-. exists payload. exact H.
Defined.
Lemma encodes (r : ResponseV1) : encode_response r ≠ None.
Proof. intros H. discriminate H. Qed.
(** The handler of the answer has failed past its deadline. *)
Definition claimed_run : list label := (ask ++ claim)%list.
Definition claimed : Sys := after claimed_run.
Lemma claimed_steps : steps (step known prompt) (start hs) claimed_run claimed.
Proof. apply run_steps. by vm_compute. Qed.
Definition row1 : EnvelopeInstance := mkInstance "e1" "s1" "elicitation-prompt" "question q1" 10 (Some 20) "handling" "".
Lemma claimed_row : envs claimed !! "e1" = Some row1.
Proof. by vm_compute. Qed.
Lemma claimed_envelope_gets_an_outcome_witness : ∃ ks s' row', (length ks ≤ 3)%nat ∧ steps (step known prompt) claimed ks s' ∧ envs s' !! "e1" = Some row' ∧ settled row'.
Proof.
  destruct (claimed_envelope_gets_an_outcome known prompt hs claimed_run claimed "e1" row1 encodes claimed_steps ltac:(repeat constructor) ltac:(repeat constructor) claimed_row ltac:(discriminate)) as [[_ Hs]|H];
    [exfalso; revert Hs; by_decide|exact H].
Defined.
Lemma answers_come_from_their_envelope_witness : given answered "q1" (mkAnswer "accept" "" "").
Proof.
  destruct (answers_come_from_their_envelope known prompt hs answered "q1" question _ None answered_reachable answered_question) as [[H|H] _]; [discriminate H|exact H].
Defined.
Lemma directive_needs_an_answer_witness : ∃ p c, calls answered !! p = Some c ∧ str_at (rv_Data (ri_Response (input c))) "action" ≠ ActionDecline.
Proof.
  destruct (directive_needs_an_answer known prompt hs answered "q1" question _ None answered_reachable answered_question eq_refl) as (p&c&_&_&H&_&_&_&Ha).
  exists p, c. split; [exact H|exact Ha].
Defined.
Lemma claimed_question : reachable known prompt hs claimed ∧ questions claimed !! "q1" = Some (QWait question "e1").
Proof. split; [eexists; exact claimed_steps|by vm_compute]. Qed.
Lemma question_always_ends_witness : ∃ ls s' q r e, (length ls ≤ 3)%nat ∧ steps (step known prompt) claimed ls s' ∧ questions s' !! "q1" = Some (QDone q r e).
Proof.
  destruct (question_always_ends known prompt hs claimed "q1" _ true "" 0 (proj1 claimed_question) (proj2 claimed_question)) as (ls&s'&q&r&e&H1&_&H2&H3&_).
  exists ls, s', q, r, e. split; [exact H1|]. split; [exact H2|exact H3].
Defined.

(** The question times out between the moment its answer is looked up and the moment it
    is sent: the record and the follow-up say that it was accepted, the tool that it was
    canceled. *)
Definition late_run : list label :=
  (ask ++ claim ++ [LHandle 0 false (Err ""); LTimeout "q1"; LLeave "q1"; LSend 0; LRecord 0 false; LMessage 0 false "m1"])%list.
Definition late : Sys := after late_run.
Lemma late_steps : steps (step known prompt) (start hs) late_run late.
Proof. apply run_steps. by vm_compute. Qed.
Lemma late_state : questions late !! "q1" = Some (QDone question timed_out None) ∧
  calls late !! 0%nat = Some (PDone (input1 "accept") (Ok (mkResult "elicitation-prompt" "s1" "Elicitation q1 responded: action=accept" false "m1"))).
Proof. by vm_compute. Qed.
(** A dialog that was dismissed sends the directive. *)
Definition dismissed : Sys := after (ask ++ [LCall 0 (input1 "cancel"); LGet 0 false; LClaim 0 false 20] ++ answer ++ [LReceive "q1"; LLeave "q1"])%list.
Example dismissed_sends : ∃ r, questions dismissed !! "q1" = Some (QDone question r None) ∧ confirm_directive "directive" true r None = SendIt.
Proof. exists (mkAnswer "accept" "" ""). by vm_compute. Qed.
Example dismissed_from_data : RespondFromEnvelopeData {["elicitation_id" := VStr "q1"; "action" := VStr "cancel"]} = Some ("q1", mkAnswer "cancel" "" "").
Proof. by vm_compute. Qed.
(** Half a row is a row. *)
Example half_row : ∃ h, table_response (mkInstance "t1" "s1" "table-card" "" 0 None "" "")
  (mkResponse 1 "table-card" "t1" StatusSubmitted {["action_id" := VStr "refresh"; "row_index" := VFloat (-1) 2]} [] []) = Ok h.
Proof. eexists. by vm_compute. Qed.
End Example_envelopes.

(** An answer that loses the race is reported as given.  There is a run in which the
    tool was told that its question timed out, while the call of the user succeeded with
    the follow-up that the question was answered with accept, and both are on record. *)
Theorem late_answer_is_reported_as_given :
  ∃ (J : EnvelopeCodecs) known prompt hs ls s q i res,
    (∀ eid q, decode_elicitation_id (prompt eid q) = Some eid) ∧
    steps (step known prompt) (start hs) ls s ∧ Forall label_ok ls ∧ Forall write_works ls ∧
    questions s !! "q1" = Some (QDone q timed_out None) ∧
    calls s !! 0%nat = Some (PDone i (Ok res)) ∧ elicit_action (ri_Response i) = ActionAccept ∧
    er_FollowUp res = "Elicitation q1 responded: action=accept".
Proof.
  exists Example_envelopes.codecs, Example_envelopes.known, Example_envelopes.prompt, Example_envelopes.hs, Example_envelopes.late_run, Example_envelopes.late.
  destruct Example_envelopes.late_state as [H1 H2]. do 3 eexists. split_and!; [exact Example_envelopes.prompt_decodes|exact Example_envelopes.late_steps|repeat constructor|repeat constructor|exact H1|exact H2|reflexivity|reflexivity].
Qed.
