(* ===== verification/GrantLease.v ===== *)
(** * Plugin grant leases

    [plugin/subprocess/grant_lease.go]: the lease that holds what a plugin process is
    granted, with what the code uses of [context] and [time.AfterFunc].  A step of
    [apply] is a critical section of a lease, a callback of the standard library or
    what the lease's clients do with the contexts they hold. *)

From S2P Require Import Prelude GoStrings GoTime.

Open Scope string_scope.
Open Scope Z_scope.
Set Default Proof Using "Type".

(** ** The capability package *)

Record RuntimeIdentity := mkIdentity {
  ri_HostInstance : string;
  ri_OwnerID : string;
  ri_OwnerGeneration : Z;
}.
#[export] Instance RuntimeIdentity_eq_dec : EqDecision RuntimeIdentity.
Proof. solve_decision. Defined.

(** Grants and their checks come from the plugin SDK: a grant's [ExpiresAt], the check
    of a set against the process it is issued to, and the check that a set may replace
    another for an owner at a time. *)
Class Capability := {
  Grant : Type;
  ExpiresAt : Grant → string;
  ValidateForRuntime : list Grant → RuntimeIdentity → bool;
  ValidateRenewal : list Grant → list Grant → RuntimeIdentity → Z → bool;
  MaxSafeInteger : Z;
}.
Abbreviation GrantSet := (list Grant).

(** ** State *)

(** A context: its ancestors from itself up, the deadline it reports, and whether that
    deadline is a timer of its own. *)
Record Ctx := mkCtx {
  cx_chain : list nat;
  cx_Deadline : option Z;
  cx_timer : bool;
}.
Inductive FuncState := Armed | Stopped | Firing | Ran.
#[export] Instance FuncState_eq_dec : EqDecision FuncState.
Proof. solve_decision. Defined.
(** [context.AfterFunc]: the function runs in a goroutine once the context is done. *)
Inductive AfterAction := ARevoke (l : nat) | ACancel (c : nat).
Record After := mkAfter { af_ctx : nat; af_action : AfterAction; af_state : FuncState }.
(** [time.AfterFunc] of the lease's [expire]. *)
Record Timer := mkTimer { tm_when : Z; tm_lease : nat; tm_state : FuncState }.

(** What [Acquire] gave out: the permit's context, the lease, the lease's context the
    permit derives from, and the registration on the caller's context. *)
Record Permit := mkPermit { pm_ctx : nat; pm_lease : nat; pm_base : nat; pm_stop : nat }.

Section Leases.
Context {cap : Capability}.

(** [onEnd] is the callback the manager installs; [true] when it is set. *)
Record GrantLease := mkLease {
  gl_grants : GrantSet;
  gl_owner : RuntimeIdentity;
  gl_ctx : nat;
  gl_parent : nat;
  gl_timer : option nat;
  gl_expires : option Z;
  gl_ended : bool;
  gl_onEnd : bool;
  gl_stopParent : nat;
}.

(** The heap the leases live in.  [callbacks] lists the leases whose [onEnd] was called,
    [permits] what [Acquire] gave out, [renewals] the sets [Renew] put in place. *)
Record World := mkWorld {
  now : Z;
  ctxs : list Ctx;
  cancelled : gset nat;
  afters : list After;
  timers : list Timer;
  leases : list GrantLease;
  callbacks : list nat;
  permits : list Permit;
  renewals : list (nat * GrantSet);
}.
Definition set_now (t : Z) (w : World) : World :=
  mkWorld t (ctxs w) (cancelled w) (afters w) (timers w) (leases w) (callbacks w) (permits w) (renewals w).
Definition set_ctxs (l : list Ctx) (w : World) : World :=
  mkWorld (now w) l (cancelled w) (afters w) (timers w) (leases w) (callbacks w) (permits w) (renewals w).
Definition set_cancelled (s : gset nat) (w : World) : World :=
  mkWorld (now w) (ctxs w) s (afters w) (timers w) (leases w) (callbacks w) (permits w) (renewals w).
Definition set_afters (l : list After) (w : World) : World :=
  mkWorld (now w) (ctxs w) (cancelled w) l (timers w) (leases w) (callbacks w) (permits w) (renewals w).
Definition set_timers (l : list Timer) (w : World) : World :=
  mkWorld (now w) (ctxs w) (cancelled w) (afters w) l (leases w) (callbacks w) (permits w) (renewals w).
Definition set_leases (l : list GrantLease) (w : World) : World :=
  mkWorld (now w) (ctxs w) (cancelled w) (afters w) (timers w) l (callbacks w) (permits w) (renewals w).
Definition called_back (l : nat) (w : World) : World :=
  mkWorld (now w) (ctxs w) (cancelled w) (afters w) (timers w) (leases w) (callbacks w ++ [l])%list (permits w) (renewals w).
Definition gave_permit (p : Permit) (w : World) : World :=
  mkWorld (now w) (ctxs w) (cancelled w) (afters w) (timers w) (leases w) (callbacks w) (permits w ++ [p])%list (renewals w).
Definition renewed (l : nat) (g : GrantSet) (w : World) : World :=
  mkWorld (now w) (ctxs w) (cancelled w) (afters w) (timers w) (leases w) (callbacks w) (permits w) (renewals w ++ [(l, g)])%list.
Definition empty_world (t : Z) : World := mkWorld t [] ∅ [] [] [] [] [] [].

(** ** Contexts and timers of the standard library *)

Definition chain (w : World) (c : nat) : list nat :=
  match ctxs w !! c with Some x => cx_chain x | None => [] end.
Definition Deadline (w : World) (c : nat) : option Z :=
  match ctxs w !! c with Some x => cx_Deadline x | None => None end.
(** [ctx.Err() != nil]: cancelling a context cancels its descendants at once. *)
Definition done (w : World) (c : nat) : bool := existsb (λ a, bool_decide (a ∈ cancelled w)) (chain w c).
Definition cancel (c : nat) (w : World) : World := set_cancelled ({[c]} ∪ cancelled w) w.
Definition new_ctx (parent : option nat) (deadline : option Z) (timer : bool) (w : World) : nat * World :=
  let c := length (ctxs w) in
  (c, set_ctxs (ctxs w ++ [mkCtx (c :: match parent with Some p => chain w p | None => [] end) deadline timer])%list w).
Definition WithCancel (parent : nat) (w : World) : nat * World :=
  new_ctx (Some parent) (Deadline w parent) false w.
(** An earlier deadline of the parent is kept; a deadline that has passed cancels at once. *)
Definition WithDeadline (parent : nat) (d : Z) (w : World) : nat * World :=
  match Deadline w parent with
  | Some cur => if cur <? d then WithCancel parent w else
      let '(c, w) := new_ctx (Some parent) (Some d) true w in (c, if d <=? now w then cancel c w else w)
  | None => let '(c, w) := new_ctx (Some parent) (Some d) true w in (c, if d <=? now w then cancel c w else w)
  end.
Definition AfterFunc (c : nat) (a : AfterAction) (w : World) : nat * World :=
  (length (afters w), set_afters (afters w ++ [mkAfter c a Armed])%list w).
(** The function returned by [AfterFunc] has no effect once the context is done. *)
Definition stop_after (a : nat) (w : World) : World :=
  match afters w !! a with
  | Some x => match af_state x with
              | Armed => if done w (af_ctx x) then w else set_afters (<[a := mkAfter (af_ctx x) (af_action x) Stopped]> (afters w)) w
              | _ => w
              end
  | None => w
  end.
Definition arm_timer (when : Z) (l : nat) (w : World) : nat * World :=
  (length (timers w), set_timers (timers w ++ [mkTimer when l Armed])%list w).
Definition timer_to (s : FuncState) (t : nat) (w : World) : World :=
  match timers w !! t with
  | Some x => set_timers (<[t := mkTimer (tm_when x) (tm_lease x) s]> (timers w)) w
  | None => w
  end.
(** [Timer.Stop] has no effect once the timer fired. *)
Definition stop_timer (t : option nat) (w : World) : World :=
  match t with
  | Some t => match timers w !! t with
              | Some x => match tm_state x with Armed => timer_to Stopped t w | _ => w end
              | None => w
              end
  | None => w
  end.

(** ** Leases *)

Inductive LeaseErr := ErrGrantLeaseEnded | ErrContext | ErrInvalidGrants.

(** The loop of [replace]: the earliest expiry, when every grant is still to expire. *)
Fixpoint earliest (t : Z) (expires : option Z) (grants : GrantSet) : result LeaseErr (option Z) :=
  match grants with
  | [] => Ok expires
  | g :: rest =>
      match Parse (ExpiresAt g) with
      | Some e => if e <=? t then Err ErrGrantLeaseEnded else
          earliest t (Some match expires with Some x => if e <? x then e else x | None => e end) rest
      | None => Err ErrGrantLeaseEnded
      end
  end.
Definition with_authority (g : GrantSet) (c : nat) (t : option nat) (e : option Z) (L : GrantLease) : GrantLease :=
  mkLease g (gl_owner L) c (gl_parent L) t e (gl_ended L) (gl_onEnd L) (gl_stopParent L).
Definition replace (l : nat) (parent : nat) (grants : GrantSet) (L : GrantLease) (w : World)
    : result LeaseErr GrantLease * World :=
  match earliest (now w) None grants with
  | Err e => (Err e, w)
  | Ok expires =>
      if done w parent then (Err ErrContext, w) else
      match expires with
      | None => let '(c, w) := WithCancel parent w in (Ok (with_authority grants c (gl_timer L) None L), w)
      | Some e =>
          let '(c, w) := WithDeadline parent e w in
          let '(t, w) := arm_timer e l w in
          (Ok (with_authority grants c (Some t) (Some e) L), w)
      end
  end.
Definition NewGrantLease (parent : nat) (grants : GrantSet) (owner : RuntimeIdentity) : act World LeaseErr nat := λ w,
  if negb (ValidateForRuntime grants owner) then (Err ErrInvalidGrants, w) else
  let l := length (leases w) in
  match replace l parent grants (mkLease [] owner 0 parent None None false false 0) w with
  | (Err e, w) => (Err e, w)
  | (Ok L, w) =>
      let '(a, w) := AfterFunc parent (ARevoke l) w in
      (Ok l, set_leases (leases w ++ [mkLease (gl_grants L) (gl_owner L) (gl_ctx L) (gl_parent L) (gl_timer L)
                                              (gl_expires L) (gl_ended L) (gl_onEnd L) a])%list w)
  end.

Definition live (w : World) (L : GrantLease) : bool :=
  negb (gl_ended L) && negb (done w (gl_ctx L)) &&
  match gl_expires L with Some e => now w <? e | None => true end.
Definition end_lease (L : GrantLease) : GrantLease :=
  mkLease (gl_grants L) (gl_owner L) (gl_ctx L) (gl_parent L) (gl_timer L) (gl_expires L) true (gl_onEnd L) (gl_stopParent L).
(** The critical sections of [Revoke] and [expire] once they end the lease, and the
    callback that follows; only [Revoke] stops the timer. *)
Definition ends (stop : bool) (l : nat) (L : GrantLease) (w : World) : World :=
  let w := set_leases (<[l := end_lease L]> (leases w)) w in
  let w := stop_after (gl_stopParent L) w in
  let w := if stop then stop_timer (gl_timer L) w else w in
  let w := cancel (gl_ctx L) w in
  if gl_onEnd L then called_back l w else w.
Definition Revoke (l : nat) (w : World) : World :=
  match leases w !! l with
  | Some L => if gl_ended L then w else ends true l L w
  | None => w
  end.
Definition expire (l : nat) (w : World) : World :=
  match leases w !! l with
  | Some L =>
      match gl_expires L with
      | Some e => if gl_ended L || (now w <? e) then w else ends false l L w
      | None => w
      end
  | None => w
  end.
(** [Acquire] ties a dispatch to the lease's context and to the caller's. *)
Definition Acquire (l c : nat) : act World LeaseErr Permit := λ w,
  match leases w !! l with
  | Some L =>
      if negb (live w L) then (Err ErrGrantLeaseEnded, w) else
      if done w c then (Err ErrContext, w) else
      let '(p, w) := match Deadline w c with
                     | Some d => WithDeadline (gl_ctx L) d w
                     | None => WithCancel (gl_ctx L) w
                     end in
      let '(a, w) := AfterFunc c (ACancel p) w in
      let permit := mkPermit p l (gl_ctx L) a in
      (Ok permit, gave_permit permit w)
  | None => (Err ErrGrantLeaseEnded, w)
  end.
Definition release (p : Permit) (w : World) : World := cancel (pm_ctx p) (stop_after (pm_stop p) w).
(** [parent] is what the caller's context consults for its [Err]. *)
Definition Renew (l : nat) (parent : list nat) (next : GrantSet) : act World LeaseErr unit := λ w,
  match leases w !! l with
  | Some L =>
      if negb (live w L) then (Err ErrGrantLeaseEnded, w) else
      if negb (ValidateRenewal (gl_grants L) next (gl_owner L) (now w)) then (Err ErrInvalidGrants, w) else
      if existsb (done w) parent then (Err ErrContext, w) else
      let w := cancel (gl_ctx L) (stop_timer (gl_timer L) w) in
      match replace l (gl_parent L) next L w with
      | (Err e, w) => (Err e, w)
      | (Ok L', w) => (Ok tt, renewed l next (set_leases (<[l := L']> (leases w)) w))
      end
  | None => (Err ErrGrantLeaseEnded, w)
  end.
Definition Grants (w : World) (l : nat) : GrantSet :=
  match leases w !! l with Some L => gl_grants L | None => [] end.
Definition Context_ (w : World) (l : nat) : result LeaseErr nat :=
  match leases w !! l with
  | Some L => if live w L then Ok (gl_ctx L) else Err ErrGrantLeaseEnded
  | None => Err ErrGrantLeaseEnded
  end.
Definition set_onEnd (b : bool) (l : nat) (w : World) : World :=
  match leases w !! l with
  | Some L => set_leases (<[l := mkLease (gl_grants L) (gl_owner L) (gl_ctx L) (gl_parent L) (gl_timer L)
                                        (gl_expires L) (gl_ended L) b (gl_stopParent L)]> (leases w)) w
  | None => w
  end.

(** ** Runs *)

Inductive Ev :=
| Tick (d : Z)
| NewContext (parent : option nat) (deadline : option Z)
| CancelContext (c : nat)
| DeadlineFires (c : nat)
| TimerFires (t : nat)
| TimerRuns (t : nat)
| AfterRuns (a : nat)
| New (parent : nat) (grants : GrantSet) (owner : RuntimeIdentity)
| DoRevoke (l : nat)
| DoAcquire (l c : nat)
| DoRelease (p : nat)
| DoRenew (l : nat) (parent : list nat) (next : GrantSet)
| SetOnEnd (b : bool) (l : nat).

(** One step; [None] when it cannot happen.  Any context may be cancelled, although the
    cancel functions of the leases' contexts are private to the leases. *)
Definition apply (e : Ev) (w : World) : option World :=
  match e with
  | Tick d => if 0 <=? d then Some (set_now (now w + d) w) else None
  | NewContext None None => Some (new_ctx None None false w).2
  | NewContext None (Some d) =>
      let '(c, w) := new_ctx None (Some d) true w in Some (if d <=? now w then cancel c w else w)
  | NewContext (Some p) None => Some (WithCancel p w).2
  | NewContext (Some p) (Some d) => Some (WithDeadline p d w).2
  | CancelContext c => Some (cancel c w)
  | DeadlineFires c =>
      x ← ctxs w !! c;
      match cx_Deadline x with
      | Some d => if cx_timer x && (d <=? now w) then Some (cancel c w) else None
      | None => None
      end
  | TimerFires t =>
      x ← timers w !! t;
      match tm_state x with
      | Armed => if tm_when x <=? now w then Some (timer_to Firing t w) else None
      | _ => None
      end
  | TimerRuns t =>
      x ← timers w !! t;
      match tm_state x with
      | Firing => Some (expire (tm_lease x) (timer_to Ran t w))
      | _ => None
      end
  | AfterRuns a =>
      x ← afters w !! a;
      match af_state x with
      | Armed =>
          if done w (af_ctx x) then
            let w := set_afters (<[a := mkAfter (af_ctx x) (af_action x) Ran]> (afters w)) w in
            Some match af_action x with ARevoke l => Revoke l w | ACancel c => cancel c w end
          else None
      | _ => None
      end
  | New parent grants owner => if bool_decide (is_Some (ctxs w !! parent)) then Some (NewGrantLease parent grants owner w).2 else None
  | DoRevoke l => Some (Revoke l w)
  | DoAcquire l c => Some (Acquire l c w).2
  | DoRelease i => p ← permits w !! i; Some (release p w)
  | DoRenew l parent next => Some (Renew l parent next w).2
  | SetOnEnd b l => Some (set_onEnd b l w)
  end.
Definition step (w : World) (e : Ev) (w' : World) : Prop := apply e w = Some w'.
Definition reachable (w : World) : Prop := ∃ t evs, steps step (empty_world t) evs w.

(** ** What the steps keep *)

(** The context of a lease, which shows the lease's expiry as a deadline. *)
Definition ctx_ok (w : World) (L : GrantLease) : Prop :=
  (gl_ctx L < length (ctxs w))%nat ∧
  ∀ e, gl_expires L = Some e → ∃ d, Deadline w (gl_ctx L) = Some d ∧ d ≤ e.
Record wf (w : World) : Prop := {
  wf_chain : ∀ c x, ctxs w !! c = Some x → c ∈ cx_chain x ∧ ∀ a, a ∈ cx_chain x → (a < length (ctxs w))%nat ∧ chain w a ⊆ cx_chain x;
  wf_lease : ∀ l L, leases w !! l = Some L →
    ctx_ok w L ∧ (gl_parent L < length (ctxs w))%nat ∧
    (gl_ended L = true → gl_ctx L ∈ cancelled w);
  wf_permit : ∀ p, p ∈ permits w →
    (pm_ctx p < length (ctxs w))%nat ∧ pm_base p ∈ chain w (pm_ctx p) ∧
    ∃ L, leases w !! pm_lease p = Some L ∧ (pm_base p = gl_ctx L ∨ pm_base p ∈ cancelled w);
  wf_callbacks : NoDup (callbacks w) ∧
    ∀ l, l ∈ callbacks w → ∃ L, leases w !! l = Some L ∧ gl_ended L = true;
}.

(** [b] was accepted as the renewal of [a] for the owner. *)
Definition renews (owner : RuntimeIdentity) (a b : GrantSet) : Prop := ∃ t, ValidateRenewal a b owner t = true.
(** How far apart two states of a run can be. *)
Record follows (L L' : GrantLease) (dead : gset nat) : Prop := {
  fl_owner : gl_owner L' = gl_owner L;
  fl_parent : gl_parent L' = gl_parent L;
  fl_ended : gl_ended L = true → gl_ended L' = true ∧ gl_grants L' = gl_grants L;
  fl_grants : rtc (renews (gl_owner L)) (gl_grants L) (gl_grants L');
  fl_ctx : gl_ctx L' = gl_ctx L ∨ gl_ctx L ∈ dead;
}.
Record moves (w w' : World) : Prop := {
  mv_now : now w ≤ now w';
  mv_ctxs : ∃ k, ctxs w' = (ctxs w ++ k)%list;
  mv_cancelled : cancelled w ⊆ cancelled w';
  mv_permits : ∃ k, permits w' = (permits w ++ k)%list;
  mv_leases : ∀ l L, leases w !! l = Some L → ∃ L', leases w' !! l = Some L' ∧ follows L L' (cancelled w');
}.

Lemma follows_refl L dead : follows L L dead.
Proof. split; auto using rtc_refl. Qed.
Lemma follows_trans L1 L2 L3 d1 d2 : d1 ⊆ d2 → follows L1 L2 d1 → follows L2 L3 d2 → follows L1 L3 d2.
Proof.
  intros Hd [o1 p1 e1 g1 c1] [o2 p2 e2 g2 c2]. rewrite o1 in g2. split; [congruence|congruence| |by etransitivity|].
  - intros He. destruct (e1 He) as [He2 ?], (e2 He2). split; congruence.
  - destruct c1 as [c1|c1]; [|right; set_solver]. destruct c2 as [c2|c2]; [left; congruence|right; by rewrite <- c1].
Qed.
#[export] Instance moves_pre : PreOrder moves.
Proof.
  split.
  - intros w. split; [lia|exists []; by rewrite app_nil_r|done|exists []; by rewrite app_nil_r|eauto using follows_refl].
  - intros w1 w2 w3 [n1 [k1 c1] d1 [q1 p1] l1] [n2 [k2 c2] d2 [q2 p2] l2]. split.
    + lia.
    + exists (k1 ++ k2)%list. by rewrite c2, c1, app_assoc.
    + set_solver.
    + exists (q1 ++ q2)%list. by rewrite p2, p1, app_assoc.
    + intros l L Hl. destruct (l1 l L Hl) as (L2 & Hl2 & Hf). destruct (l2 l L2 Hl2) as (L3 & Hl3 & Hg).
      eauto using follows_trans.
Qed.
Lemma moves_leases_same w w' : now w ≤ now w' → (∃ k, ctxs w' = (ctxs w ++ k)%list) → cancelled w ⊆ cancelled w' →
  (∃ k, permits w' = (permits w ++ k)%list) → leases w' = leases w → moves w w'.
Proof. intros Hn Hc Hd Hp Hl. split; auto. rewrite Hl. eauto using follows_refl. Qed.

(** A well-formed state that moves to a well-formed state. *)
Definition ok (w w' : World) : Prop := moves w w' ∧ (wf w → wf w').
#[export] Instance ok_pre : PreOrder ok.
Proof.
  split; [split; [reflexivity|done]|]. intros w1 w2 w3 [m1 h1] [m2 h2]. split; [by etransitivity|auto].
Qed.

Lemma chain_app w k c a : a ∈ chain w c → a ∈ chain (set_ctxs (ctxs w ++ k)%list w) c.
Proof.
  unfold chain. cbn. destruct (ctxs w !! c) as [x|] eqn:Hx; [|by intros ?%elem_of_nil].
  by rewrite (lookup_app_l_Some _ _ _ _ Hx).
Qed.
Lemma chain_old w k c : (c < length (ctxs w))%nat → chain (set_ctxs (ctxs w ++ k)%list w) c = chain w c.
Proof. intros Hc. unfold chain. cbn. by rewrite lookup_app_l. Qed.
Lemma Deadline_old w k c : (c < length (ctxs w))%nat → Deadline (set_ctxs (ctxs w ++ k)%list w) c = Deadline w c.
Proof. intros Hc. unfold Deadline. cbn. by rewrite lookup_app_l. Qed.
Lemma ctx_ok_app w k L : ctx_ok w L → ctx_ok (set_ctxs (ctxs w ++ k)%list w) L.
Proof.
  intros [Hlt Hd]. split; [cbn; rewrite length_app; lia|]. by rewrite Deadline_old.
Qed.
Lemma done_spec w c : done w c = true ↔ ∃ a, a ∈ chain w c ∧ a ∈ cancelled w.
Proof.
  unfold done. rewrite existsb_exists. split; intros (a & Ha & Hd); exists a.
  - apply list_elem_of_In in Ha. by apply bool_decide_eq_true in Hd.
  - apply list_elem_of_In in Ha. by rewrite bool_decide_eq_true.
Qed.
Lemma chain_lt w c a : wf w → a ∈ chain w c → (a < length (ctxs w))%nat.
Proof.
  intros Hw. unfold chain. destruct (ctxs w !! c) as [x|] eqn:Hx; [|by intros ?%elem_of_nil].
  by apply (wf_chain w Hw c x Hx).
Qed.
Lemma chain_up w c a : wf w → a ∈ chain w c → chain w a ⊆ chain w c.
Proof.
  intros Hw. unfold chain at 1 3. destruct (ctxs w !! c) as [x|] eqn:Hx; [|by intros ?%elem_of_nil].
  by apply (wf_chain w Hw c x Hx).
Qed.
Lemma chain_self w c : wf w → (c < length (ctxs w))%nat → c ∈ chain w c.
Proof.
  intros Hw Hc. unfold chain. destruct (lookup_lt_is_Some_2 _ _ Hc) as [x Hx]. rewrite Hx.
  by apply (wf_chain w Hw c x Hx).
Qed.

(** The steps that only touch timers, registrations, the clock or the log of renewals. *)
Lemma ok_frame w w' : now w ≤ now w' → ctxs w' = ctxs w → cancelled w' = cancelled w → permits w' = permits w →
  leases w' = leases w → callbacks w' = callbacks w → ok w w'.
Proof.
  intros Hn Hc Hd Hp Hl Hb. split.
  - apply moves_leases_same; [done|exists []; by rewrite app_nil_r|by rewrite Hd|exists []; by rewrite app_nil_r|done].
  - intros [h1 h2 h3 h4]. split; unfold chain, ctx_ok, Deadline in *; rewrite ?Hc, ?Hd, ?Hp, ?Hl, ?Hb; auto.
Qed.
Lemma ok_set_afters l w : ok w (set_afters l w).
Proof. by apply ok_frame. Qed.
Lemma ok_set_timers l w : ok w (set_timers l w).
Proof. by apply ok_frame. Qed.
Lemma ok_renewed l g w : ok w (renewed l g w).
Proof. by apply ok_frame. Qed.
Lemma ok_tick d w : 0 ≤ d → ok w (set_now (now w + d) w).
Proof. intros. apply ok_frame; cbn; auto with lia. Qed.
Lemma ok_cancel c w : ok w (cancel c w).
Proof.
  split.
  - apply moves_leases_same; cbn; [done|exists []; by rewrite app_nil_r|set_solver|exists []; by rewrite app_nil_r|done].
  - intros [h1 h2 h3 h4]. split; cbn; [done| | |done].
    + intros l L Hl. destruct (h2 l L Hl) as (? & ? & He). set_solver.
    + intros p Hp. destruct (h3 p Hp) as (? & ? & L & ? & ?). do 2 (split; [done|]). exists L. set_solver.
Qed.
Lemma ok_append_ctx x w :
  (wf w → length (ctxs w) ∈ cx_chain x ∧ ∀ a, a ∈ cx_chain x → a = length (ctxs w) ∨ (a < length (ctxs w))%nat ∧ chain w a ⊆ cx_chain x) →
  ok w (set_ctxs (ctxs w ++ [x])%list w).
Proof.
  intros Hx. split.
  - apply moves_leases_same; cbn; [done|by eexists|done|exists []; by rewrite app_nil_r|done].
  - intros Hw. pose proof Hw as [h1 h2 h3 h4]. split; cbn; rewrite ?length_app; cbn; [| | |done].
    + intros c y [Hc|[Hlen [Hc <-]%list_lookup_singleton_Some]]%lookup_app_Some.
      * destruct (h1 c y Hc) as [? Hlt]. split; [done|]. intros a Ha. destruct (Hlt a Ha).
        rewrite chain_old by done. split; [lia|done].
      * destruct (Hx Hw) as [Hself Hle]. replace c with (length (ctxs w)) by lia. split; [done|].
        intros a Ha. destruct (Hle a Ha) as [->|[? ?]]; [split; [lia|]|rewrite chain_old by done; split; [lia|done]].
        unfold chain. cbn. by rewrite lookup_app_r, Nat.sub_diag by lia.
    + intros l L Hl. destruct (h2 l L Hl) as (? & ? & ?). split; [by apply ctx_ok_app|]. split; [lia|done].
    + intros p Hp. destruct (h3 p Hp) as (? & ? & L & ?). split; [lia|]. split; [by apply chain_app|by exists L].
Qed.
Lemma ok_new_ctx parent deadline timer w : ok w (new_ctx parent deadline timer w).2.
Proof.
  unfold new_ctx. cbn. apply ok_append_ctx. intros Hw. cbn. split; [apply list_elem_of_here|].
  intros a [->|Ha]%elem_of_cons; [by left|right]. destruct parent as [p|]; [|by apply elem_of_nil in Ha].
  split; [by apply (chain_lt w p)|]. pose proof (chain_up w p a Hw Ha). set_solver.
Qed.

(** A fresh context under a parent. *)
Record fresh_under (p : nat) (w : World) (c : nat) (w' : World) : Prop := {
  fu_ok : ok w w';
  fu_new : c = length (ctxs w);
  fu_len : length (ctxs w') = S (length (ctxs w));
  fu_chain : chain w' c = c :: chain w p;
  fu_deadline : ∀ d, Deadline w p = Some d → ∃ d', Deadline w' c = Some d' ∧ d' ≤ d;
  fu_leases : leases w' = leases w;
  fu_timers : timers w' = timers w;
  fu_afters : afters w' = afters w;
  fu_now : now w' = now w;
  fu_others : callbacks w' = callbacks w ∧ permits w' = permits w ∧ renewals w' = renewals w;
}.
Lemma new_ctx_fresh p deadline timer w :
  (∀ d, Deadline w p = Some d → ∃ d', deadline = Some d' ∧ d' ≤ d) →
  fresh_under p w (new_ctx (Some p) deadline timer w).1 (new_ctx (Some p) deadline timer w).2.
Proof.
  intros Hd. split; try done; [apply ok_new_ctx| | |]; unfold new_ctx, chain, Deadline; cbn; [rewrite length_app; cbn; lia| |].
  - by rewrite lookup_app_r, Nat.sub_diag by lia.
  - rewrite lookup_app_r, Nat.sub_diag by lia. exact Hd.
Qed.
Lemma fresh_cancel p w c w' : fresh_under p w c w' → fresh_under p w c (cancel c w').
Proof. intros [? ? ? ? ? ? ? ? ?]. split; auto. etransitivity; [done|apply ok_cancel]. Qed.
Lemma WithCancel_fresh p w : fresh_under p w (WithCancel p w).1 (WithCancel p w).2.
Proof. apply new_ctx_fresh. intros d ->. exists d. split; [done|lia]. Qed.
(** The deadline asked for, or an earlier one. *)
Lemma WithDeadline_fresh p d w : fresh_under p w (WithDeadline p d w).1 (WithDeadline p d w).2 ∧
  ∃ d', Deadline (WithDeadline p d w).2 (WithDeadline p d w).1 = Some d' ∧ d' ≤ d.
Proof.
  unfold WithDeadline.
  assert (∀ w', fresh_under p w (length (ctxs w)) w' → Deadline w' (length (ctxs w)) = Some d →
    fresh_under p w (length (ctxs w)) (if d <=? now w' then cancel (length (ctxs w)) w' else w') ∧
    ∃ d', Deadline (if d <=? now w' then cancel (length (ctxs w)) w' else w') (length (ctxs w)) = Some d' ∧ d' ≤ d) as Hgo.
  { intros w' Hf Hd. split; [destruct (d <=? now w'); auto using fresh_cancel|]. exists d. split; [by destruct (d <=? now w')|lia]. }
  assert (Deadline (new_ctx (Some p) (Some d) true w).2 (length (ctxs w)) = Some d) as Hown.
  { unfold Deadline. cbn. by rewrite lookup_app_r, Nat.sub_diag by lia. }
  destruct (Deadline w p) as [cur|] eqn:Hp.
  - destruct (cur <? d) eqn:Hlt.
    + split; [apply WithCancel_fresh|]. unfold WithCancel, Deadline. cbn. rewrite lookup_app_r, Nat.sub_diag by lia. cbn.
      exists cur. unfold Deadline in Hp. rewrite Hp. b2p. split; [done|lia].
    + apply (Hgo (new_ctx (Some p) (Some d) true w).2); [|done]. apply new_ctx_fresh. rewrite Hp. intros x [= <-]. exists d. b2p. split; [done|lia].
  - apply (Hgo (new_ctx (Some p) (Some d) true w).2); [|done]. apply new_ctx_fresh. by rewrite Hp.
Qed.

Lemma stop_after_eq a w : ∃ l, stop_after a w = set_afters l w.
Proof.
  unfold stop_after. assert (w = set_afters (afters w) w) as Hid by by destruct w.
  destruct (afters w !! a) as [x|]; [|eauto]. destruct (af_state x); eauto. destruct (done w (af_ctx x)); eauto.
Qed.
Lemma timer_to_eq s t w : ∃ l, timer_to s t w = set_timers l w.
Proof.
  unfold timer_to. assert (w = set_timers (timers w) w) as Hid by by destruct w.
  destruct (timers w !! t); eauto.
Qed.
Lemma stop_timer_eq t w : ∃ l, stop_timer t w = set_timers l w.
Proof.
  unfold stop_timer. assert (w = set_timers (timers w) w) as Hid by by destruct w.
  destruct t as [t|]; [|eauto]. destruct (timers w !! t) as [x|]; [|eauto]. destruct (tm_state x); eauto using timer_to_eq.
Qed.
Lemma ok_stop_after a w : ok w (stop_after a w).
Proof. destruct (stop_after_eq a w) as [l ->]. apply ok_set_afters. Qed.
Lemma ok_stop_timer t w : ok w (stop_timer t w).
Proof. destruct (stop_timer_eq t w) as [l ->]. apply ok_set_timers. Qed.
Lemma ok_timer_to s t w : ok w (timer_to s t w).
Proof. destruct (timer_to_eq s t w) as [l ->]. apply ok_set_timers. Qed.

(** A lease is overwritten by one that follows it. *)
Lemma ok_set_lease l L L' w : leases w !! l = Some L → follows L L' (cancelled w) →
  (wf w → ctx_ok w L') → (wf w → gl_ended L' = true → gl_ctx L' ∈ cancelled w) →
  ok w (set_leases (<[l := L']> (leases w)) w).
Proof.
  intros Hl Hf Hlt He. split.
  - split; cbn; [done|exists []; by rewrite app_nil_r|done|exists []; by rewrite app_nil_r|].
    intros k K Hk. destruct (decide (k = l)) as [->|Hne].
    + rewrite list_lookup_insert_eq by eauto using lookup_lt_Some. rewrite Hl in Hk. injection Hk as <-. eauto.
    + rewrite list_lookup_insert_ne by done. eauto using follows_refl.
  - intros Hw. pose proof Hw as [h1 h2 h3 [h4 h5]].
    assert (∀ k K, leases w !! k = Some K → ∃ K', <[l:=L']> (leases w) !! k = Some K' ∧ follows K K' (cancelled w)) as Hkeep.
    { intros k K Hk. destruct (decide (k = l)) as [->|Hne].
      - rewrite list_lookup_insert_eq by eauto using lookup_lt_Some. rewrite Hl in Hk. injection Hk as <-. eauto.
      - rewrite list_lookup_insert_ne by done. eauto using follows_refl. }
    split; cbn; [done| | |split; [done|]].
    + intros k K [(<- & <- & _)|[_ Hk]]%list_lookup_insert_Some; [|eauto].
      destruct (h2 l L Hl) as (? & ? & ?). rewrite (fl_parent _ _ _ Hf). auto.
    + intros p Hp. destruct (h3 p Hp) as (? & ? & K & Hk & Hb). do 2 (split; [done|]).
      destruct (Hkeep _ K Hk) as (K' & Hk' & HK). exists K'. split; [done|].
      destruct Hb as [->|Hb]; [|auto]. destruct (fl_ctx _ _ _ HK); [left; congruence|auto].
    + intros k Hk. destruct (h5 k Hk) as (K & HK & Hend). destruct (Hkeep k K HK) as (K' & HK' & HF).
      exists K'. split; [done|]. by apply (fl_ended _ _ _ HF).
Qed.

(** [ends], with the lease marked last. *)
Definition stopped_world (stop : bool) (L : GrantLease) (w : World) : World :=
  let w := stop_after (gl_stopParent L) w in
  let w := if stop then stop_timer (gl_timer L) w else w in
  cancel (gl_ctx L) w.
#[local] Arguments stopped_world : simpl never.
Lemma ends_eq stop l L w : ends stop l L w =
  let w' := stopped_world stop L w in
  let w' := set_leases (<[l := end_lease L]> (leases w')) w' in
  if gl_onEnd L then called_back l w' else w'.
Proof.
  unfold ends, stopped_world, stop_after, stop_timer, timer_to, done, chain. cbn.
  destruct (afters w !! gl_stopParent L) as [x|]; cbn.
  1: destruct (af_state x); cbn; try destruct (existsb _ _); cbn.
  all: destruct stop; cbn; [|done].
  all: destruct (gl_timer L) as [t|]; cbn; [|done].
  all: destruct (timers w !! t) as [y|] eqn:Ht; cbn; [|done].
  all: destruct (tm_state y); cbn; try rewrite Ht; done.
Qed.
Lemma stopped_world_fields stop L w :
  leases (stopped_world stop L w) = leases w ∧ ctxs (stopped_world stop L w) = ctxs w ∧
  cancelled (stopped_world stop L w) = {[gl_ctx L]} ∪ cancelled w ∧ callbacks (stopped_world stop L w) = callbacks w ∧
  now (stopped_world stop L w) = now w ∧ permits (stopped_world stop L w) = permits w.
Proof.
  unfold stopped_world. destruct (stop_after_eq (gl_stopParent L) w) as [k ->].
  destruct stop; [destruct (stop_timer_eq (gl_timer L) (set_afters k w)) as [t ->]|]; done.
Qed.
Lemma ok_stopped_world stop L w : ok w (stopped_world stop L w).
Proof.
  unfold stopped_world. etransitivity; [apply ok_stop_after|]. etransitivity; [|apply ok_cancel].
  destruct stop; [apply ok_stop_timer|done].
Qed.
Lemma ok_called_back l L w : leases w !! l = Some L → gl_ended L = true → (wf w → l ∉ callbacks w) → ok w (called_back l w).
Proof.
  intros Hl He Hnew. split.
  - apply moves_leases_same; cbn; [done|exists []; by rewrite app_nil_r|done|exists []; by rewrite app_nil_r|done].
  - intros Hw. pose proof Hw as [h1 h2 h3 [h4 h5]]. split; cbn; [done|done|done|]. split.
    + apply NoDup_app. split; [done|]. split; [|apply NoDup_singleton].
      intros k Hk Hkl. apply list_elem_of_singleton in Hkl as ->. by apply (Hnew Hw).
    + intros k [Hk|Hk]%elem_of_app; [eauto|]. apply list_elem_of_singleton in Hk as ->. eauto.
Qed.
Lemma ok_ends stop l L w : leases w !! l = Some L → gl_ended L = false → ok w (ends stop l L w).
Proof.
  intros Hl He. rewrite ends_eq. cbn zeta.
  destruct (stopped_world_fields stop L w) as (Fl & Fc & Fd & Fb & _).
  assert (ok w (set_leases (<[l := end_lease L]> (leases (stopped_world stop L w))) (stopped_world stop L w))) as Hok.
  { etransitivity; [apply (ok_stopped_world stop L w)|]. apply ok_set_lease with L; rewrite ?Fl; [done|by split; auto using rtc_refl| |].
    - intros Hw. apply (wf_lease _ Hw l L). by rewrite Fl.
    - intros _ _. rewrite Fd. cbn. set_solver. }
  destruct (gl_onEnd L); [|done].
  assert (wf w → l ∉ callbacks w) as Hnew.
  { intros Hw Hin. destruct (wf_callbacks w Hw) as [_ Hc]. destruct (Hc l Hin) as (K & HK & HE). congruence. }
  destruct Hok as [Hm Hw']. split.
  - etransitivity; [exact Hm|]. apply moves_leases_same; cbn; [done|exists []; by rewrite app_nil_r|done|exists []; by rewrite app_nil_r|done].
  - intros Hw. refine (proj2 (ok_called_back l (end_lease L) _ _ _ _) (Hw' Hw)); cbn; [|done|by rewrite Fb; auto].
    by rewrite Fl, list_lookup_insert_eq by eauto using lookup_lt_Some.
Qed.
Lemma ok_Revoke l w : ok w (Revoke l w).
Proof.
  unfold Revoke. destruct (leases w !! l) as [L|] eqn:Hl; [|done]. destruct (gl_ended L) eqn:He; [done|]. by apply ok_ends.
Qed.
Lemma ok_expire l w : ok w (expire l w).
Proof.
  unfold expire. destruct (leases w !! l) as [L|] eqn:Hl; [|done]. destruct (gl_expires L); [|done].
  destruct (gl_ended L) eqn:He; [done|]. cbn. destruct (now w <? z); [done|]. by apply ok_ends.
Qed.
Lemma ok_AfterFunc c a w : ok w (AfterFunc c a w).2.
Proof. apply ok_set_afters. Qed.
Lemma ok_release p w : ok w (release p w).
Proof. unfold release. etransitivity; [apply ok_stop_after|apply ok_cancel]. Qed.
Lemma ok_set_onEnd b l w : ok w (set_onEnd b l w).
Proof.
  unfold set_onEnd. destruct (leases w !! l) as [L|] eqn:Hl; [|done].
  apply ok_set_lease with L; cbn; [done|by split; auto using rtc_refl| |]; intros Hw; apply (wf_lease w Hw l L Hl).
Qed.

(** What [replace] returns: a fresh context under the parent. *)
Lemma replace_ok l p g L w : ok w (replace l p g L w).2 ∧
  leases (replace l p g L w).2 = leases w ∧
  match (replace l p g L w).1 with
  | Ok L' => ∃ c t e, L' = with_authority g c t e L ∧ c = length (ctxs w) ∧ chain (replace l p g L w).2 c = c :: chain w p ∧
      length (ctxs (replace l p g L w).2) = S (length (ctxs w)) ∧ earliest (now w) None g = Ok e ∧ done w p = false ∧
      ctx_ok (replace l p g L w).2 L'
  | Err _ => (replace l p g L w).2 = w
  end.
Proof.
  unfold replace. destruct (earliest (now w) None g) as [e|err] eqn:He; [|done].
  destruct (done w p) eqn:Hd; [done|]. destruct e as [e|].
  - pose proof (WithDeadline_fresh p e w) as [[Ho Hn Hlen Hch Hdl Hl _ _ _ _] Hd'].
    destruct (WithDeadline p e w) as [c w']; cbn in *. split; [etransitivity; [exact Ho|apply ok_set_timers]|].
    split; [done|]. exists c, (Some (length (timers w'))), (Some e). do 6 (split; [done|]). split; [cbn; lia|]. by intros x [= <-].
  - pose proof (WithCancel_fresh p w) as [Ho Hn Hlen Hch Hdl Hl _ _ _ _].
    destruct (WithCancel p w) as [c w']; cbn in *. split; [done|]. split; [done|]. exists c, (gl_timer L), None.
    do 6 (split; [done|]). split; [cbn; lia|done].
Qed.
Lemma ok_append_lease L w : (wf w → ctx_ok w L ∧ (gl_parent L < length (ctxs w))%nat) →
  gl_ended L = false → ok w (set_leases (leases w ++ [L])%list w).
Proof.
  intros Hlt He.
  assert (∀ k K, leases w !! k = Some K → (leases w ++ [L])%list !! k = Some K) as Hkeep by eauto using lookup_app_l_Some.
  split.
  - split; cbn; [done|exists []; by rewrite app_nil_r|done|exists []; by rewrite app_nil_r|]. eauto using follows_refl.
  - intros Hw. pose proof Hw as [h1 h2 h3 [h4 h5]]. split; cbn; [done| | |].
    + intros k K [Hk|[_ [_ <-]%list_lookup_singleton_Some]]%lookup_app_Some; [by apply (h2 k)|]. destruct (Hlt Hw). rewrite He. done.
    + intros q Hq. destruct (h3 q Hq) as (? & ? & K & HK & ?). eauto 10.
    + split; [done|]. intros k Hk. destruct (h5 k Hk) as (K & ? & ?). eauto.
Qed.
Lemma ok_NewGrantLease p g o w : is_Some (ctxs w !! p) → ok w (NewGrantLease p g o w).2.
Proof.
  intros Hp. unfold NewGrantLease. destruct (ValidateForRuntime g o); [cbn|done].
  pose proof (replace_ok (length (leases w)) p g (mkLease [] o 0 p None None false false 0) w) as (Ho & Hl & Hr).
  destruct (replace _ _ _ _ _) as [[L'|e] w']; cbn in *; [|done].
  destruct Hr as (c & t & e & -> & -> & _ & Hlen & _ & _ & Hok). cbn.
  etransitivity; [exact Ho|]. set (w2 := set_afters _ w'). transitivity w2; [apply ok_set_afters|].
  apply (ok_append_lease _ w2); [|done]. intros _. split; [exact Hok|]. cbn. rewrite Hlen. apply lookup_lt_is_Some_1 in Hp. lia.
Qed.
Lemma ok_gave_permit p L w : leases w !! pm_lease p = Some L → pm_base p = gl_ctx L → (wf w → pm_base p ∈ chain w (pm_ctx p)) →
  (pm_ctx p < length (ctxs w))%nat → ok w (gave_permit p w).
Proof.
  intros Hl Hb Hc Hlt. split.
  - apply moves_leases_same; cbn; [done|exists []; by rewrite app_nil_r|done|by eexists|done].
  - intros Hw. pose proof Hw as [h1 h2 h3 h4]. split; cbn; [done|done| |done].
    intros q [Hq|Hq]%elem_of_app; [by apply h3|]. apply list_elem_of_singleton in Hq as ->. eauto 10.
Qed.
(** A permit is a fresh context below the lease's. *)
Lemma Acquire_spec l c w p w' : Acquire l c w = (Ok p, w') →
  ∃ L w1, leases w !! l = Some L ∧ live w L = true ∧ done w c = false ∧
    fresh_under (gl_ctx L) w (pm_ctx p) w1 ∧ p = mkPermit (length (ctxs w)) l (gl_ctx L) (length (afters w)) ∧
    w' = gave_permit p (set_afters (afters w ++ [mkAfter c (ACancel (length (ctxs w))) Armed])%list w1).
Proof.
  unfold Acquire. destruct (leases w !! l) as [L|]; [|done]. destruct (live w L) eqn:Hlive; [cbn|done].
  destruct (done w c) eqn:Hd; [done|].
  assert (∀ r, fresh_under (gl_ctx L) w r.1 r.2 →
    (let '(q, w1) := r in let '(a, w2) := AfterFunc c (ACancel q) w1 in
     (Ok (mkPermit q l (gl_ctx L) a) : result LeaseErr Permit, gave_permit (mkPermit q l (gl_ctx L) a) w2)) = (Ok p, w') →
    ∃ L0 w1, Some L = Some L0 ∧ live w L0 = true ∧ false = false ∧
    fresh_under (gl_ctx L0) w (pm_ctx p) w1 ∧ p = mkPermit (length (ctxs w)) l (gl_ctx L0) (length (afters w)) ∧
    w' = gave_permit p (set_afters (afters w ++ [mkAfter c (ACancel (length (ctxs w))) Armed])%list w1)) as Hgo.
  { intros [q w1] Hf. cbn. intros [= <- <-]. exists L, w1. pose proof (fu_new _ _ _ _ Hf) as Hq. cbn in Hq. subst q.
    pose proof (fu_afters _ _ _ _ Hf) as Ha. cbn in Ha. rewrite Ha. auto 10. }
  destruct (Deadline w c) as [d|]; apply Hgo; [apply (WithDeadline_fresh (gl_ctx L))|apply WithCancel_fresh].
Qed.
Lemma Acquire_err l c w e w' : Acquire l c w = (Err e, w') → w' = w.
Proof.
  unfold Acquire. destruct (leases w !! l) as [L|]; [|by intros [= _ <-]]. destruct (live w L); [cbn|by intros [= _ <-]].
  destruct (done w c); [by intros [= _ <-]|].
  destruct (Deadline w c); [destruct (WithDeadline _ _ _)|destruct (WithCancel _ _)]; cbn; done.
Qed.
Lemma ok_Acquire l c w : ok w (Acquire l c w).2.
Proof.
  destruct (Acquire l c w) as [[p|e] w'] eqn:HA; cbn; [|by apply Acquire_err in HA as ->].
  destruct (Acquire_spec _ _ _ _ _ HA) as (L & w1 & Hl & _ & _ & [Ho Hn Hlen Hch _ Hls _ _ _ _] & -> & ->). cbn in *.
  split; [etransitivity; [apply Ho|]|intros Hw; assert (wf w1) as Hw1 by by apply Ho].
  - apply moves_leases_same; cbn; [done|exists []; by rewrite app_nil_r|done|by eexists|done].
  - assert (gl_ctx L ∈ gl_ctx L :: chain w (gl_ctx L)) as Hin by apply list_elem_of_here.
    eapply ok_gave_permit; cbn; [by rewrite Hls|done| |by rewrite Hlen; lia|by apply ok_set_afters].
    intros _. unfold chain in Hch |- *. cbn. rewrite Hch. apply list_elem_of_further, (chain_self w); [done|].
    by apply (wf_lease w Hw l L).
Qed.

(** A renewal puts the next grants under a fresh context, after the old one is done. *)
Lemma Renew_spec l ps g w w' : Renew l ps g w = (Ok tt, w') →
  ∃ L L' w1, leases w !! l = Some L ∧ live w L = true ∧ ValidateRenewal (gl_grants L) g (gl_owner L) (now w) = true ∧
    let w0 := cancel (gl_ctx L) (stop_timer (gl_timer L) w) in
    replace l (gl_parent L) g L w0 = (Ok L', w1) ∧ w' = renewed l g (set_leases (<[l := L']> (leases w1)) w1).
Proof.
  unfold Renew. destruct (leases w !! l) as [L|]; [|done]. destruct (live w L) eqn:Hlive; [cbn|done].
  destruct (ValidateRenewal _ _ _ _) eqn:Hv; [cbn|done]. destruct (existsb _ ps); [done|].
  destruct (replace l (gl_parent L) g L _) as [[L'|e] w1] eqn:Hr; [|done]. intros [= <-]. exists L, L', w1. auto.
Qed.
Lemma ok_Renew l ps g w : ok w (Renew l ps g w).2.
Proof.
  unfold Renew. destruct (leases w !! l) as [L|] eqn:Hl; [|done]. destruct (live w L) eqn:Hlive; [cbn|done].
  destruct (ValidateRenewal _ _ _ _) eqn:Hval; [cbn|done]. destruct (existsb _ ps); [done|].
  set (w0 := cancel (gl_ctx L) (stop_timer (gl_timer L) w)).
  assert (ok w w0) as H0 by (etransitivity; [apply ok_stop_timer|apply ok_cancel]).
  assert (leases w0 = leases w) as Hl0 by (unfold w0; by destruct (stop_timer_eq (gl_timer L) w) as [k ->]).
  assert (gl_ctx L ∈ cancelled w0) as Hc0 by (unfold w0; cbn; set_solver).
  assert (gl_ended L = false) as He by (unfold live in Hlive; b2p; done).
  pose proof (replace_ok l (gl_parent L) g L w0) as (Ho & Hls & Hr).
  destruct (replace l (gl_parent L) g L w0) as [[L'|e] w1]; cbn in *; [|by etransitivity].
  destruct Hr as (c & t & e & -> & -> & _ & Hlen & _ & _ & Hok). cbn.
  assert (cancelled w0 ⊆ cancelled w1) as Hsub by apply Ho.
  etransitivity; [exact H0|]. etransitivity; [exact Ho|].
  transitivity (set_leases (<[l := with_authority g (length (ctxs w0)) t e L]> (leases w1)) w1); [|apply ok_renewed].
  apply ok_set_lease with L; [by rewrite Hls, Hl0|..].
  - split; cbn; auto; [by rewrite He|]. apply rtc_once. by exists (now w).
  - intros _. exact Hok.
  - cbn. by rewrite He.
Qed.

(** Every step keeps well-formedness and moves on. *)
Lemma ok_apply e w w' : apply e w = Some w' → ok w w'.
Proof.
  destruct e; cbn; intros Hs.
  - destruct (0 <=? d) eqn:Hd; [|done]. injection Hs as <-. b2p. by apply ok_tick.
  - destruct parent as [p|]; destruct deadline as [d|].
    + injection Hs as <-. apply (WithDeadline_fresh p d w).
    + injection Hs as <-. apply WithCancel_fresh.
    + pose proof (ok_new_ctx None (Some d) true w) as Hn. injection Hs as <-. cbn in Hn.
      destruct (d <=? now w); [etransitivity; [exact Hn|apply ok_cancel]|exact Hn].
    + injection Hs as <-. apply (ok_new_ctx None None).
  - injection Hs as <-. apply ok_cancel.
  - destruct (ctxs w !! c) as [x|]; cbn in Hs; [|done]. destruct (cx_Deadline x); [|done]. destruct (cx_timer x && _); [|done].
    injection Hs as <-. apply ok_cancel.
  - destruct (timers w !! t) as [x|]; cbn in Hs; [|done]. destruct (tm_state x); try done. destruct (tm_when x <=? now w); [|done].
    injection Hs as <-. apply ok_timer_to.
  - destruct (timers w !! t) as [x|]; cbn in Hs; [|done]. destruct (tm_state x); try done.
    injection Hs as <-. etransitivity; [apply ok_timer_to|apply ok_expire].
  - destruct (afters w !! a) as [x|]; cbn in Hs; [|done]. destruct (af_state x); try done. destruct (done w (af_ctx x)); [|done].
    injection Hs as <-. etransitivity; [apply (ok_set_afters (<[a:=mkAfter (af_ctx x) (af_action x) Ran]> (afters w)))|].
    destruct (af_action x); [apply ok_Revoke|apply ok_cancel].
  - destruct (bool_decide _) eqn:Hp; [|done]. injection Hs as <-. apply ok_NewGrantLease. by b2p.
  - injection Hs as <-. apply ok_Revoke.
  - injection Hs as <-. apply ok_Acquire.
  - destruct (permits w !! p); cbn in Hs; [|done]. injection Hs as <-. apply ok_release.
  - injection Hs as <-. apply ok_Renew.
  - injection Hs as <-. apply ok_set_onEnd.
Qed.
Lemma heap_steps_ok w evs w' : steps step w evs w' → ok w w'.
Proof. induction 1 as [|w e w1 evs w2 Hs _ IH]; [done|]. etransitivity; [by apply (ok_apply e)|done]. Qed.
Lemma reachable_wf w : reachable w → wf w.
Proof.
  intros (t & evs & Hrun). apply (proj2 (heap_steps_ok _ _ _ Hrun)). split; cbn.
  - intros c x Hx. by rewrite lookup_nil in Hx.
  - intros l L Hl. by rewrite lookup_nil in Hl.
  - intros p Hp. by apply elem_of_nil in Hp.
  - split; [constructor|]. intros l Hl. by apply elem_of_nil in Hl.
Qed.

Lemma done_mono w w' c : ok w w' → done w c = true → done w' c = true.
Proof.
  intros [[_ [k Hk] Hd _ _] _]. rewrite !done_spec. intros (a & Ha & Hc). exists a. split; [|set_solver].
  apply (chain_app w k) in Ha. unfold chain in *. cbn in Ha. by rewrite Hk.
Qed.

(** ** Theorems *)

(** A permit that is still alive belongs to a lease that has not ended and derives
    from the context of the grants the lease holds now: when a lease is revoked,
    expires or is renewed, every permit it gave out is cancelled at once. *)
Theorem live_permit_has_live_authority w p : reachable w → p ∈ permits w → done w (pm_ctx p) = false →
  ∃ L, leases w !! pm_lease p = Some L ∧ gl_ended L = false ∧ pm_base p = gl_ctx L ∧ done w (gl_ctx L) = false.
Proof.
  intros Hw%reachable_wf Hp Hlive. destruct (wf_permit w Hw p Hp) as (Hlt & Hbase & L & Hl & Hb).
  assert (pm_base p ∉ cancelled w) as Hnc.
  { intros Hc. enough (done w (pm_ctx p) = true) by congruence. apply done_spec. eauto. }
  destruct Hb as [Hb|Hb]; [|done]. exists L. repeat split; [done| |done|].
  - destruct (gl_ended L) eqn:He; [|done]. destruct Hnc. rewrite Hb. by apply (wf_lease w Hw _ L Hl).
  - destruct (done w (gl_ctx L)) eqn:Hd; [|done]. enough (done w (pm_ctx p) = true) by congruence.
    apply done_spec in Hd as (a & Ha & Hc). apply done_spec. exists a. split; [|done].
    apply (chain_up w (pm_ctx p) (gl_ctx L)); [done|by rewrite <- Hb|done].
Qed.

(** ** Timers and parents *)

(** What makes an unended lease end by itself: its timer, unless a renewal that failed
    half way stopped it, and its registration on the parent context. *)
Record ticking (w : World) : Prop := {
  tk_timer : ∀ l L e, leases w !! l = Some L → gl_ended L = false → gl_expires L = Some e →
    ∃ t x, gl_timer L = Some t ∧ timers w !! t = Some x ∧ tm_when x = e ∧
      (tm_state x = Armed ∨ tm_state x = Firing ∨ (tm_state x = Stopped ∧ gl_ctx L ∈ cancelled w));
  tk_owner : ∀ l L t, leases w !! l = Some L → gl_timer L = Some t → ∃ x, timers w !! t = Some x ∧ tm_lease x = l;
  tk_firing : ∀ t x, timers w !! t = Some x → tm_state x = Firing → tm_when x ≤ now w;
  tk_parent : ∀ l L, leases w !! l = Some L → gl_ended L = false →
    afters w !! gl_stopParent L = Some (mkAfter (gl_parent L) (ARevoke l) Armed);
  tk_stop : ∀ p, p ∈ permits w → ∃ x c, afters w !! pm_stop p = Some x ∧ af_action x = ACancel c;
}.

Lemma ticking_frame w w' : leases w' = leases w → timers w' = timers w → afters w' = afters w → permits w' = permits w →
  cancelled w ⊆ cancelled w' → now w ≤ now w' → ticking w → ticking w'.
Proof.
  intros Hl Ht Ha Hp Hc Hn [t1 t2 t3 t4 t5]. split; rewrite ?Hl, ?Ht, ?Ha, ?Hp; auto.
  - intros l L e HL He Hx. destruct (t1 l L e HL He Hx) as (t & x & ? & ? & ? & Hs). exists t, x. repeat split; auto.
    destruct Hs as [|[|[]]]; auto.
  - intros t x Hx Hs. specialize (t3 t x Hx Hs). lia.
Qed.
Lemma ticking_cancel c w : ticking w → ticking (cancel c w).
Proof. apply ticking_frame; cbn; try done. set_solver. Qed.
Lemma ticking_fresh p w c w' : fresh_under p w c w' → ticking w → ticking w'.
Proof.
  intros [[Hm _] _ _ _ _ Hl Ht Ha Hn (_ & Hp & _)]. apply ticking_frame; auto; [apply Hm|lia].
Qed.
(** A registration changes state; no unended lease needs it. *)
Lemma ticking_after a x s w : afters w !! a = Some x →
  (∀ l L, af_action x = ARevoke l → leases w !! l = Some L → gl_ended L = true) →
  ticking w → ticking (set_afters (<[a := mkAfter (af_ctx x) (af_action x) s]> (afters w)) w).
Proof.
  intros Hx Hend [t1 t2 t3 t4 t5]. split; cbn; auto.
  - intros l L Hl He. specialize (t4 l L Hl He). rewrite list_lookup_insert_ne; [done|]. intros ->.
    rewrite Hx in t4. injection t4 as ->. enough (gl_ended L = true) by congruence. by apply (Hend l L).
  - intros p Hp. destruct (t5 p Hp) as (y & c & Hy & Hc). destruct (decide (a = pm_stop p)) as [->|Hne].
    + rewrite Hx in Hy. injection Hy as <-. rewrite list_lookup_insert_eq by eauto using lookup_lt_Some. eauto.
    + rewrite list_lookup_insert_ne by done. eauto.
Qed.
Lemma ticking_AfterFunc c a w : ticking w → ticking (set_afters (afters w ++ [mkAfter c a Armed])%list w).
Proof.
  intros [t1 t2 t3 t4 t5]. split; cbn; auto.
  - intros l L Hl He. apply lookup_app_l_Some. by apply t4.
  - intros p Hp. destruct (t5 p Hp) as (y & b & Hy & Hc). exists y, b. split; [by apply lookup_app_l_Some|done].
Qed.
Lemma ticking_stop_after a w :
  (∀ x l L, afters w !! a = Some x → af_action x = ARevoke l → leases w !! l = Some L → gl_ended L = true) →
  ticking w → ticking (stop_after a w).
Proof.
  intros Hend Ht. unfold stop_after. destruct (afters w !! a) as [x|] eqn:Hx; [|done].
  destruct (af_state x); try done. destruct (done w (af_ctx x)); [done|]. apply ticking_after; eauto.
Qed.
(** A timer changes state; the lease it serves has ended or can live with it. *)
Lemma ticking_timer t x s w : timers w !! t = Some x → (s = Firing → tm_when x ≤ now w) →
  (∀ L, leases w !! tm_lease x = Some L → gl_ended L = false → gl_timer L = Some t → gl_expires L = Some (tm_when x) →
     s = Armed ∨ s = Firing ∨ (s = Stopped ∧ gl_ctx L ∈ cancelled w)) →
  ticking w → ticking (timer_to s t w).
Proof.
  intros Hx Hf Hs [t1 t2 t3 t4 t5]. unfold timer_to. rewrite Hx. split; cbn; auto.
  - intros l L e Hl He Hexp. destruct (t1 l L e Hl He Hexp) as (u & y & Hu & Hy & Hw & Hst).
    destruct (decide (u = t)) as [->|Hne].
    + rewrite Hx in Hy. injection Hy as <-. exists t, (mkTimer (tm_when x) (tm_lease x) s).
      rewrite list_lookup_insert_eq by eauto using lookup_lt_Some. repeat split; auto. cbn.
      destruct (t2 l L t Hl Hu) as (z & Hz & Hzl). rewrite Hx in Hz. injection Hz as <-. apply Hs; congruence.
    + exists u, y. rewrite list_lookup_insert_ne by done. auto.
  - intros l L u Hl Hu. destruct (t2 l L u Hl Hu) as (y & Hy & Hyl). destruct (decide (u = t)) as [->|Hne].
    + rewrite Hx in Hy. injection Hy as <-. rewrite list_lookup_insert_eq by eauto using lookup_lt_Some. by eexists.
    + rewrite list_lookup_insert_ne by done. eauto.
  - intros u y [(<- & <- & _)|[_ Hy]]%list_lookup_insert_Some; [done|eauto].
Qed.
Lemma ticking_stop_timer l L w : leases w !! l = Some L → (gl_ended L = true ∨ gl_ctx L ∈ cancelled w) →
  ticking w → ticking (stop_timer (gl_timer L) w).
Proof.
  intros Hl Hok Ht. unfold stop_timer. destruct (gl_timer L) as [t|] eqn:HT; [|done].
  destruct (tk_owner w Ht l L t Hl HT) as (x & Hx & Hxl). rewrite Hx. destruct (tm_state x) eqn:Hst; try done.
  apply ticking_timer with x; auto; [done|]. rewrite Hxl. intros K HK He _ _. rewrite Hl in HK. injection HK as <-.
  destruct Hok; [congruence|auto].
Qed.
Lemma ticking_arm when l w : ticking w → ticking (set_timers (timers w ++ [mkTimer when l Armed])%list w).
Proof.
  intros [t1 t2 t3 t4 t5]. split; cbn; auto.
  - intros k K e Hk He Hx. destruct (t1 k K e Hk He Hx) as (t & x & ? & ? & ?). exists t, x.
    split; [done|]. split; [by apply lookup_app_l_Some|done].
  - intros k K t Hk HT. destruct (t2 k K t Hk HT) as (x & ? & ?). exists x. split; [by apply lookup_app_l_Some|done].
  - intros t x [Hx|[_ [_ <-]%list_lookup_singleton_Some]]%lookup_app_Some; [eauto|done].
Qed.
Lemma ticking_set_lease l L L' w : leases w !! l = Some L → gl_parent L' = gl_parent L → gl_stopParent L' = gl_stopParent L →
  (gl_ended L' = false → gl_ended L = false) →
  (∀ t, gl_timer L' = Some t → ∃ x, timers w !! t = Some x ∧ tm_lease x = l) →
  (∀ e, gl_ended L' = false → gl_expires L' = Some e → ∃ t x, gl_timer L' = Some t ∧ timers w !! t = Some x ∧ tm_when x = e ∧
      (tm_state x = Armed ∨ tm_state x = Firing ∨ (tm_state x = Stopped ∧ gl_ctx L' ∈ cancelled w))) →
  ticking w → ticking (set_leases (<[l := L']> (leases w)) w).
Proof.
  intros Hl Hp Hs He Ho Ht [t1 t2 t3 t4 t5]. split; cbn; auto.
  - intros k K e [(<- & <- & _)|[_ Hk]]%list_lookup_insert_Some; eauto.
  - intros k K t [(<- & <- & _)|[_ Hk]]%list_lookup_insert_Some; eauto.
  - intros k K [(<- & <- & _)|[_ Hk]]%list_lookup_insert_Some; [|eauto]. intros HE. rewrite Hp, Hs. auto.
Qed.

Lemma ticking_rest (stop : bool) (l : nat) (L : GrantLease) (w : World) : leases w !! l = Some (end_lease L) →
  (∀ x k, afters w !! gl_stopParent L = Some x → af_action x = ARevoke k → k = l) → ticking w →
  ticking (let w := stop_after (gl_stopParent L) w in
           let w := if stop then stop_timer (gl_timer L) w else w in
           let w := cancel (gl_ctx L) w in
           if gl_onEnd L then called_back l w else w).
Proof.
  intros Hl Ha Ht. cbn zeta. assert (ticking (stop_after (gl_stopParent L) w)) as H1.
  { apply ticking_stop_after; [|done]. intros x k K Hx Hk HK. rewrite (Ha x k Hx Hk), Hl in HK. by injection HK as <-. }
  destruct (stop_after_eq (gl_stopParent L) w) as [k Hk]. rewrite Hk in H1 |- *.
  assert (ticking (if stop then stop_timer (gl_timer L) (set_afters k w) else set_afters k w)) as H2.
  { destruct stop; [|done]. by apply (ticking_stop_timer l (end_lease L)); [|left|]. }
  assert (∀ w, ticking w → ticking (if gl_onEnd L then called_back l w else w)) as H3.
  { intros v Hv. destruct (gl_onEnd L); [|done]. by apply (ticking_frame v). }
  by apply H3, ticking_cancel.
Qed.
Lemma parent_registration w l L : ticking w → leases w !! l = Some L → gl_ended L = false →
  ∀ x k, afters w !! gl_stopParent L = Some x → af_action x = ARevoke k → k = l.
Proof. intros Ht Hl He x k Hx Hk. rewrite (tk_parent w Ht l L Hl He) in Hx. injection Hx as <-. by injection Hk. Qed.
Lemma ticking_end_lease l L w : leases w !! l = Some L → ticking w → ticking (set_leases (<[l := end_lease L]> (leases w)) w).
Proof.
  intros Hl Ht. apply ticking_set_lease with L; try done. intros t HT. by apply (tk_owner w Ht l L).
Qed.
Lemma ticking_ends stop l L w : leases w !! l = Some L → gl_ended L = false → ticking w → ticking (ends stop l L w).
Proof.
  intros Hl He Ht. unfold ends. apply ticking_rest; cbn.
  - by rewrite list_lookup_insert_eq by eauto using lookup_lt_Some.
  - by apply parent_registration.
  - by apply ticking_end_lease.
Qed.
Lemma ticking_Revoke l w : ticking w → ticking (Revoke l w).
Proof.
  intros Ht. unfold Revoke. destruct (leases w !! l) as [L|] eqn:Hl; [|done]. destruct (gl_ended L) eqn:He; [done|]. by apply ticking_ends.
Qed.
(** The timer's goroutine ends the lease its timer still stands for. *)
Lemma ticking_TimerRuns t x w : timers w !! t = Some x → tm_state x = Firing → ticking w →
  ticking (expire (tm_lease x) (timer_to Ran t w)).
Proof.
  intros Hx Hf Ht. pose proof (tk_firing w Ht t x Hx Hf) as Hdue.
  assert (leases (timer_to Ran t w) = leases w ∧ now (timer_to Ran t w) = now w) as [Hls Hnow]
    by (destruct (timer_to_eq Ran t w) as [k ->]; done).
  unfold expire. rewrite Hls, Hnow. destruct (leases w !! tm_lease x) as [L|] eqn:Hl.
  2: { apply ticking_timer with x; auto. intros L HL. congruence. }
  destruct (gl_expires L) as [e|] eqn:He.
  2: { apply ticking_timer with x; auto. intros K HK ? ? ?. congruence. }
  destruct (gl_ended L || (now w <? e)) eqn:Hend.
  - apply ticking_timer with x; auto. intros K HK HE ? HX. rewrite Hl in HK. injection HK as <-.
    rewrite He in HX. injection HX as ->. apply orb_true_iff in Hend as [|]; [congruence|b2p; lia].
  - b2p. unfold ends. set (w1 := set_leases (<[tm_lease x := end_lease L]> (leases w)) w).
    assert (set_leases (<[tm_lease x := end_lease L]> (leases (timer_to Ran t w))) (timer_to Ran t w) = timer_to Ran t w1) as ->.
    { unfold timer_to, w1. cbn. by rewrite Hx. }
    assert (leases w1 !! tm_lease x = Some (end_lease L)) as Hl1
      by (cbn; by rewrite list_lookup_insert_eq by eauto using lookup_lt_Some).
    assert (ticking (timer_to Ran t w1)) as Hran.
    { apply ticking_timer with x; auto; [|by apply ticking_end_lease]. intros K HK. rewrite Hl1 in HK. injection HK as <-. done. }
    apply (ticking_rest false); [| |done]; destruct (timer_to_eq Ran t w1) as [k ->]; cbn in *; [done|].
    by apply parent_registration.
Qed.
Lemma ticking_AfterRuns a x w : afters w !! a = Some x → af_state x = Armed → ticking w →
  ticking (let w := set_afters (<[a := mkAfter (af_ctx x) (af_action x) Ran]> (afters w)) w in
           match af_action x with ARevoke l => Revoke l w | ACancel c => cancel c w end).
Proof.
  intros Hx Hs Ht. cbn zeta. destruct (af_action x) as [l|c] eqn:Ha.
  2: { rewrite <- Ha. apply ticking_cancel, ticking_after; [done| |done]. intros. congruence. }
  unfold Revoke. cbn. destruct (leases w !! l) as [L|] eqn:Hl.
  2: { rewrite <- Ha. apply ticking_after; [done| |done]. intros l' L Hl' HL. rewrite Ha in Hl'. injection Hl' as <-. congruence. }
  destruct (gl_ended L) eqn:He.
  { rewrite <- Ha. apply ticking_after; [done| |done]. intros l' K Hl' HK. rewrite Ha in Hl'. injection Hl' as <-. congruence. }
  unfold ends. set (w1 := set_leases (<[l := end_lease L]> (leases w)) w).
  assert (leases w1 !! l = Some (end_lease L)) as Hl1 by (cbn; by rewrite list_lookup_insert_eq by eauto using lookup_lt_Some).
  assert (ticking (set_afters (<[a := mkAfter (af_ctx x) (af_action x) Ran]> (afters w1)) w1)) as H1.
  { apply ticking_after; [done| |by apply ticking_end_lease]. intros k K Hk HK. rewrite Ha in Hk. injection Hk as <-.
    rewrite Hl1 in HK. by injection HK as <-. }
  rewrite Ha in H1. apply (ticking_rest true l L) in H1; [exact H1|exact Hl1|]. cbn.
  intros y k [(<- & <- & _)|[_ Hy]]%list_lookup_insert_Some Hk; [by injection Hk|].
  by apply (parent_registration w l L) with y.
Qed.
Lemma ticking_replace l p g L w : ticking w → ticking (replace l p g L w).2.
Proof.
  intros Ht. unfold replace. destruct (earliest (now w) None g) as [e|err]; [|done]. destruct (done w p); [done|]. destruct e as [e|].
  - pose proof (proj1 (WithDeadline_fresh p e w)) as Hf. destruct (WithDeadline p e w) as [c w']. cbn in *.
    apply ticking_arm. by apply (ticking_fresh _ _ _ _ Hf).
  - pose proof (WithCancel_fresh p w) as Hf. destruct (WithCancel p w) as [c w']. cbn in *. by apply (ticking_fresh _ _ _ _ Hf).
Qed.
(** The lease [replace] returns has a timer for its expiry, if it has one. *)
Lemma replace_timer l p g L L' w w' : ticking w → replace l p g L w = (Ok L', w') →
  (∀ t, gl_timer L = Some t → ∃ x, timers w !! t = Some x ∧ tm_lease x = l) →
  (∀ t, gl_timer L' = Some t → ∃ x, timers w' !! t = Some x ∧ tm_lease x = l) ∧
  ∀ e, gl_expires L' = Some e → ∃ t x, gl_timer L' = Some t ∧ timers w' !! t = Some x ∧ tm_when x = e ∧ tm_state x = Armed.
Proof.
  intros Ht. unfold replace. destruct (earliest (now w) None g) as [e|err]; [|done]. destruct (done w p); [done|]. destruct e as [e|].
  - pose proof (proj1 (WithDeadline_fresh p e w)) as Hf. destruct (WithDeadline p e w) as [c w1]. cbn.
    intros [= <- <-] _. cbn. assert (∀ s, (timers w1 ++ [s])%list !! length (timers w1) = Some s) as Hlast.
    { intros s. by rewrite lookup_app_r, Nat.sub_diag by lia. }
    split; [intros t [= <-]; eexists; by split; [apply Hlast|]|].
    intros e' [= <-]. do 2 eexists. by split; [|split; [apply Hlast|]].
  - pose proof (WithCancel_fresh p w) as Hf. destruct (WithCancel p w) as [c w1]. intros [= <- <-] Ho. cbn in *.
    split; [|done]. intros t HT. by rewrite (fu_timers _ _ _ _ Hf); apply Ho.
Qed.

Lemma ticking_NewGrantLease p g o w : ticking w → ticking (NewGrantLease p g o w).2.
Proof.
  intros Ht. unfold NewGrantLease. destruct (ValidateForRuntime g o); [cbn|done]. set (L0 := mkLease [] o 0 p None None false false 0).
  pose proof (ticking_replace (length (leases w)) p g L0 w Ht) as Ht1.
  pose proof (replace_ok (length (leases w)) p g L0 w) as (_ & Hl & Hr).
  destruct (replace _ _ _ _ _) as [[L'|e] w'] eqn:HR; cbn in *; [|done].
  destruct (replace_timer _ _ _ _ _ _ _ Ht HR) as [Ho Hx]; [done|].
  destruct Hr as (c & t & e & -> & _). cbn in *. destruct (ticking_AfterFunc p (ARevoke (length (leases w))) w' Ht1) as [t1 t2 t3 t4 t5].
  split; cbn; rewrite ?Hl; auto.
  - intros k K x [Hk|[Hk [_ <-]%list_lookup_singleton_Some]]%lookup_app_Some He HX; [by apply (t1 k K); cbn; [rewrite Hl|..]|].
    destruct (Hx x HX) as (t' & y & ? & ? & ? & ?). exists t', y. auto.
  - intros k K t' [Hk|[Hk [Hi <-]%list_lookup_singleton_Some]]%lookup_app_Some HT; [by apply (t2 k K); cbn; [rewrite Hl|..]|].
    destruct (Ho t' HT) as (y & ? & ?). exists y. split; [done|]. lia.
  - intros k K [Hk|[Hk [Hi <-]%list_lookup_singleton_Some]]%lookup_app_Some He; [by apply (t4 k K); cbn; [rewrite Hl|..]|]. cbn.
    rewrite lookup_app_r, Nat.sub_diag by lia. cbn. by replace k with (length (leases w)) by lia.
Qed.
Lemma ticking_Acquire l c w : ticking w → ticking (Acquire l c w).2.
Proof.
  intros Ht. destruct (Acquire l c w) as [[p|e] w'] eqn:HA; cbn; [|by apply Acquire_err in HA as ->].
  destruct (Acquire_spec _ _ _ _ _ HA) as (L & w1 & _ & _ & _ & Hf & -> & ->).
  pose proof (fu_afters _ _ _ _ Hf) as Ha. pose proof (ticking_fresh _ _ _ _ Hf Ht) as Ht1.
  pose proof (ticking_AfterFunc c (ACancel (length (ctxs w))) w1 Ht1) as [t1 t2 t3 t4 t5]. rewrite Ha in *. split; cbn in *; auto.
  intros q [Hq|Hq]%elem_of_app; [auto|]. apply list_elem_of_singleton in Hq as ->. cbn.
  rewrite lookup_app_r, Nat.sub_diag by lia. eauto.
Qed.
Lemma stop_timer_cancel t c w : cancel c (stop_timer t w) = stop_timer t (cancel c w).
Proof.
  unfold stop_timer, timer_to. destruct t as [t|]; [|done]. cbn. destruct (timers w !! t) as [x|] eqn:Hx; [|done].
  destruct (tm_state x); cbn; rewrite ?Hx; done.
Qed.
Lemma ticking_Renew l ps g w : ticking w → ticking (Renew l ps g w).2.
Proof.
  intros Ht. unfold Renew. destruct (leases w !! l) as [L|] eqn:Hl; [|done]. destruct (live w L) eqn:Hlive; [cbn|done].
  destruct (ValidateRenewal _ _ _ _); [cbn|done]. destruct (existsb _ ps); [done|]. rewrite stop_timer_cancel.
  set (w0 := stop_timer (gl_timer L) (cancel (gl_ctx L) w)).
  assert (ticking w0) as Ht0.
  { apply (ticking_stop_timer l L); [done|right; cbn; set_solver|by apply ticking_cancel]. }
  assert (leases w0 = leases w) as Hl0 by (unfold w0; by destruct (stop_timer_eq (gl_timer L) (cancel (gl_ctx L) w)) as [k ->]).
  assert (gl_ended L = false) as He by (unfold live in Hlive; b2p; done).
  pose proof (ticking_replace l (gl_parent L) g L w0 Ht0) as Ht1.
  pose proof (replace_ok l (gl_parent L) g L w0) as (_ & Hls & Hr).
  destruct (replace l (gl_parent L) g L w0) as [[L'|e] w1] eqn:HR; cbn in *; [|done].
  destruct (replace_timer _ _ _ _ _ _ _ Ht0 HR) as [Ho Hx].
  { intros t HT. apply (tk_owner w0 Ht0 l L); [by rewrite Hl0|done]. }
  destruct Hr as (c & t & e & -> & _).
  apply (ticking_frame (set_leases (<[l := with_authority g c t e L]> (leases w1)) w1)); try done.
  apply ticking_set_lease with L; [by rewrite Hls, Hl0|done|done|done|exact Ho| |done].
  intros x _ HX. destruct (Hx x HX) as (t' & y & ? & ? & ? & ?). exists t', y. auto.
Qed.
Lemma ticking_set_onEnd b l w : ticking w → ticking (set_onEnd b l w).
Proof.
  intros Ht. unfold set_onEnd. destruct (leases w !! l) as [L|] eqn:Hl; [|done]. apply ticking_set_lease with L; try done; cbn.
  - intros t HT. by apply (tk_owner w Ht l L).
  - intros e He Hx. by apply (tk_timer w Ht l L).
Qed.
Lemma ticking_release p w : p ∈ permits w → ticking w → ticking (release p w).
Proof.
  intros Hp Ht. apply ticking_cancel, ticking_stop_after; [|done]. intros x l L Hx Hl.
  destruct (tk_stop w Ht p Hp) as (y & c & Hy & Hc). congruence.
Qed.

Lemma ticking_apply e w w' : apply e w = Some w' → ticking w → ticking w'.
Proof.
  destruct e; cbn; intros Hs Ht.
  - destruct (0 <=? d) eqn:Hd; [|done]. injection Hs as <-. b2p. apply (ticking_frame w); cbn; auto with lia.
  - assert (∀ c, ticking (new_ctx None deadline c w).2) as Hnew by (intros; by apply (ticking_frame w)).
    destruct parent as [p|]; destruct deadline as [d|]; injection Hs as <-.
    + apply (ticking_fresh _ _ _ _ (proj1 (WithDeadline_fresh p d w)) Ht).
    + apply (ticking_fresh _ _ _ _ (WithCancel_fresh p w) Ht).
    + destruct (d <=? _); [apply ticking_cancel|]; apply (Hnew true).
    + apply (Hnew false).
  - injection Hs as <-. by apply ticking_cancel.
  - destruct (ctxs w !! c) as [x|]; cbn in Hs; [|done]. destruct (cx_Deadline x); [|done]. destruct (cx_timer x && _); [|done].
    injection Hs as <-. by apply ticking_cancel.
  - destruct (timers w !! t) as [x|] eqn:Hx; cbn in Hs; [|done]. destruct (tm_state x); try done. destruct (tm_when x <=? now w) eqn:Hw; [|done].
    injection Hs as <-. b2p. apply ticking_timer with x; auto.
  - destruct (timers w !! t) as [x|] eqn:Hx; cbn in Hs; [|done]. destruct (tm_state x) eqn:Hf; try done.
    injection Hs as <-. by apply ticking_TimerRuns.
  - destruct (afters w !! a) as [x|] eqn:Hx; cbn in Hs; [|done]. destruct (af_state x) eqn:Hst; try done. destruct (done w (af_ctx x)); [|done].
    injection Hs as <-. by apply ticking_AfterRuns.
  - destruct (bool_decide _) eqn:Hp; [|done]. injection Hs as <-. by apply ticking_NewGrantLease.
  - injection Hs as <-. by apply ticking_Revoke.
  - injection Hs as <-. by apply ticking_Acquire.
  - destruct (permits w !! p) as [q|] eqn:Hq; cbn in Hs; [|done]. injection Hs as <-.
    apply ticking_release; [by eapply list_elem_of_lookup_2|done].
  - injection Hs as <-. by apply ticking_Renew.
  - injection Hs as <-. by apply ticking_set_onEnd.
Qed.
Lemma reachable_ticking w : reachable w → ticking w.
Proof.
  intros (t & evs & Hrun). refine (steps_invariant step ticking _ _ _ _ Hrun _); [intros ? ? ?; by apply ticking_apply|].
  split; cbn; intros *; rewrite ?lookup_nil; try done. by intros ?%elem_of_nil.
Qed.

Lemma steps_lease w evs w' l L : steps step w evs w' → leases w !! l = Some L →
  ∃ L', leases w' !! l = Some L' ∧ follows L L' (cancelled w').
Proof. intros [Hm _]%heap_steps_ok Hl. by apply (mv_leases _ _ Hm). Qed.
Lemma ended_not_live w L : gl_ended L = true → live w L = false.
Proof. intros He. unfold live. by rewrite He. Qed.
Lemma Acquire_not_live l c w L : leases w !! l = Some L → live w L = false → Acquire l c w = (Err ErrGrantLeaseEnded, w).
Proof. intros Hl Hv. unfold Acquire. by rewrite Hl, Hv. Qed.
Lemma Renew_not_live l ps g w L : leases w !! l = Some L → live w L = false → Renew l ps g w = (Err ErrGrantLeaseEnded, w).
Proof. intros Hl Hv. unfold Renew. by rewrite Hl, Hv. Qed.

(** A lease that ended stays ended with the grants it had: whatever happens after,
    no permit is given on it, no renewal is accepted and its context is refused. *)
Theorem ended_lease_is_final w evs w' l L : leases w !! l = Some L → gl_ended L = true → steps step w evs w' →
  ∃ L', leases w' !! l = Some L' ∧ gl_ended L' = true ∧ gl_grants L' = gl_grants L ∧
    (∀ c, Acquire l c w' = (Err ErrGrantLeaseEnded, w')) ∧ (∀ ps g, Renew l ps g w' = (Err ErrGrantLeaseEnded, w')) ∧
    Context_ w' l = Err ErrGrantLeaseEnded.
Proof.
  intros Hl He Hrun. destruct (steps_lease w evs w' l L Hrun Hl) as (L' & Hl' & Hf).
  destruct (fl_ended _ _ _ Hf He) as [He' Hg]. pose proof (ended_not_live w' L' He') as Hv. exists L'.
  repeat split; eauto using Acquire_not_live, Renew_not_live. unfold Context_. by rewrite Hl', Hv.
Qed.

(** The callback of a lease runs at most once, and only when the lease has ended. *)
Theorem callback_runs_once w : reachable w →
  NoDup (callbacks w) ∧ ∀ l, l ∈ callbacks w → ∃ L, leases w !! l = Some L ∧ gl_ended L = true.
Proof. intros Hw%reachable_wf. apply (wf_callbacks w Hw). Qed.

(** A lease keeps its owner, and its grants change only to sets accepted as renewals
    of the ones before for that owner. *)
Theorem grants_change_by_renewal w evs w' l L : steps step w evs w' → leases w !! l = Some L →
  ∃ L', leases w' !! l = Some L' ∧ gl_owner L' = gl_owner L ∧ rtc (renews (gl_owner L)) (gl_grants L) (gl_grants L').
Proof. intros Hrun Hl. destruct (steps_lease w evs w' l L Hrun Hl) as (L' & Hl' & Hf). exists L'. by destruct Hf. Qed.

(** A permit is given before the lease's expiry, even when the timer is late, and
    reports a deadline no later than that expiry. *)
Theorem permit_shows_the_expiry w l c p w' L e : reachable w → Acquire l c w = (Ok p, w') →
  leases w !! l = Some L → gl_expires L = Some e →
  now w < e ∧ ∃ d, Deadline w' (pm_ctx p) = Some d ∧ d ≤ e.
Proof.
  intros Hw%reachable_wf HA Hl He. destruct (Acquire_spec _ _ _ _ _ HA) as (L0 & w1 & Hl0 & Hlive & _ & Hf & _ & ->).
  rewrite Hl in Hl0. injection Hl0 as <-. split.
  - unfold live in Hlive. rewrite He in Hlive. b2p. lia.
  - destruct (wf_lease w Hw l L Hl) as [[_ Hd] _]. destruct (Hd e He) as (d & Hd1 & Hle).
    destruct (fu_deadline _ _ _ _ Hf d Hd1) as (d' & Hd2 & ?). exists d'. split; [exact Hd2|lia].
Qed.

Lemma ends_ended stop l L w : leases w !! l = Some L →
  ∃ L', leases (ends stop l L w) !! l = Some L' ∧ gl_ended L' = true.
Proof.
  intros Hl. exists (end_lease L). split; [|done]. rewrite ends_eq. cbn zeta. destruct (stopped_world_fields stop L w) as (Fl & _).
  destruct (gl_onEnd L); cbn; rewrite Fl; by rewrite list_lookup_insert_eq by eauto using lookup_lt_Some.
Qed.
(** A lease does not wait for anyone to end: once its parent context is done, or its
    expiry has passed, the callback that ends it can run.  The exception is a lease
    a failed renewal left behind, which has no timer and whose context is done. *)
Theorem lease_ends_by_itself w l L : reachable w → leases w !! l = Some L → gl_ended L = false →
  (done w (gl_parent L) = true → ∃ w' L', steps step w [AfterRuns (gl_stopParent L)] w' ∧
     leases w' !! l = Some L' ∧ gl_ended L' = true) ∧
  (∀ e, gl_expires L = Some e → e ≤ now w →
     (∃ t w' L', (steps step w [TimerFires t; TimerRuns t] w' ∨ steps step w [TimerRuns t] w') ∧
        leases w' !! l = Some L' ∧ gl_ended L' = true) ∨
     gl_ctx L ∈ cancelled w ∧ ∃ t x, gl_timer L = Some t ∧ timers w !! t = Some x ∧ tm_state x = Stopped).
Proof.
  intros Ht%reachable_ticking Hl He. split.
  - intros Hd. pose proof (tk_parent w Ht l L Hl He) as Ha.
    set (w1 := set_afters (<[gl_stopParent L := mkAfter (gl_parent L) (ARevoke l) Ran]> (afters w)) w).
    destruct (ends_ended true l L w1 Hl) as (L' & HL' & HE). exists (ends true l L w1), L'. split; [|done].
    eapply steps_cons; [|constructor]. unfold step. cbn. rewrite Ha. cbn. rewrite Hd. unfold Revoke. cbn. by rewrite Hl, He.
  - intros e Hx Hdue. destruct (tk_timer w Ht l L e Hl He Hx) as (t & x & HT & Htx & Hwhen & Hst).
    destruct (tk_owner w Ht l L t Hl HT) as (x' & Hx' & Hxl). rewrite Htx in Hx'. injection Hx' as <-.
    assert (∀ v, timers v !! t = Some (mkTimer e l Firing) → leases v = leases w → now v = now w →
      ∃ v' L', steps step v [TimerRuns t] v' ∧ leases v' !! l = Some L' ∧ gl_ended L' = true) as Hrun.
    { intros v Hv Hlv Hnv. set (v1 := timer_to Ran t v).
      assert (leases v1 = leases w ∧ now v1 = now w) as [Hl1 Hn1] by (unfold v1; by destruct (timer_to_eq Ran t v) as [k ->]).
      destruct (ends_ended false l L v1) as (L' & HL' & HE); [by rewrite Hl1|]. exists (ends false l L v1), L'. split; [|done].
      eapply steps_cons; [|constructor]. unfold step. cbn. rewrite Hv. cbn. unfold expire. fold v1. rewrite Hl1, Hl, Hx, Hn1, He.
      cbn. by rewrite (proj2 (Z.ltb_ge (now w) e)) by lia. }
    destruct x as [when lx s]; cbn in *; subst when lx. destruct Hst as [->|[->|[-> Hc]]].
    + left. set (v := timer_to Firing t w). assert (timers v !! t = Some (mkTimer e l Firing)) as Hv.
      { unfold v, timer_to. rewrite Htx. cbn. by rewrite list_lookup_insert_eq by eauto using lookup_lt_Some. }
      assert (leases v = leases w ∧ now v = now w) as [Hlv Hnv] by (unfold v; by destruct (timer_to_eq Firing t w) as [k ->]).
      destruct (Hrun v Hv Hlv Hnv) as (w' & L' & Hs & ?). exists t, w', L'. split; [left|done].
      eapply steps_cons; [|exact Hs]. unfold step. cbn. rewrite Htx. cbn. by rewrite (proj2 (Z.leb_le e (now w))) by lia.
    + left. destruct (Hrun w Htx eq_refl eq_refl) as (w' & L' & Hs & ?). exists t, w', L'. auto.
    + right. split; [done|]. eauto 10.
Qed.

(** A renewal that fails leaves the lease with its grants; either nothing happened,
    or the old context is gone and the lease gives no more permits. *)
Theorem failed_renewal_disables l ps g e w w' : reachable w → Renew l ps g w = (Err e, w') →
  leases w' = leases w ∧ (w' = w ∨ ∀ c, Acquire l c w' = (Err ErrGrantLeaseEnded, w')).
Proof.
  intros Hw%reachable_wf. unfold Renew. destruct (leases w !! l) as [L|] eqn:Hl; [|by intros [= _ <-]; auto].
  destruct (live w L); [cbn|by intros [= _ <-]; auto]. destruct (ValidateRenewal _ _ _ _); [cbn|by intros [= _ <-]; auto].
  destruct (existsb _ ps); [by intros [= _ <-]; auto|]. set (w0 := cancel (gl_ctx L) (stop_timer (gl_timer L) w)).
  assert (leases w0 = leases w) as Hl0 by (unfold w0; by destruct (stop_timer_eq (gl_timer L) w) as [k ->]).
  pose proof (replace_ok l (gl_parent L) g L w0) as (_ & Hls & Hr).
  destruct (replace l (gl_parent L) g L w0) as [[L'|x] w1]; [done|]. cbn in Hls, Hr. subst w1. intros [= _ <-]. split; [done|].
  right. intros c. apply Acquire_not_live with L; [by rewrite Hl0|]. unfold live.
  assert (done w0 (gl_ctx L) = true) as ->; [|by rewrite andb_false_r].
  apply (done_mono (cancel (gl_ctx L) w)); [unfold w0; rewrite stop_timer_cancel; apply ok_stop_timer|].
  apply done_spec. exists (gl_ctx L). split; [|cbn; set_solver]. apply (chain_self w); [done|]. by apply (wf_lease w Hw l L Hl).
Qed.

(** Runs by computation. *)
Fixpoint run (evs : list Ev) (w : World) : option World :=
  match evs with [] => Some w | e :: rest => match apply e w with Some w' => run rest w' | None => None end end.
Lemma heap_run_steps evs w w' : run evs w = Some w' → steps step w evs w'.
Proof.
  revert w. induction evs as [|e evs IH]; cbn; intros w; [intros [= ->]; constructor|].
  destruct (apply e w) as [w1|] eqn:He; [|done]. intros Hr. eapply steps_cons; [exact He|auto].
Qed.
Lemma run_reachable t evs w : run evs (empty_world t) = Some w → reachable w.
Proof. intros Hr. exists t, evs. by apply heap_run_steps. Qed.
End Leases.

(** ** A lease at work *)

Module Example_lease.
(** Grants with a name and an expiry; a renewal keeps the names. *)
#[local] Instance toy : Capability := {
  Grant := string * string;
  ExpiresAt := snd;
  ValidateForRuntime _ o := negb (bool_decide (ri_OwnerID o = ""));
  ValidateRenewal cur next _ _ := bool_decide (map fst cur = map fst next);
  MaxSafeInteger := 9007199254740991;
}.
Definition owner : RuntimeIdentity := mkIdentity "host" "calendar" 1.
Definition start : Z := 1767323045000000000.
Definition first_grants : list (string * string) := [("query", "2026-01-02T04:04:05Z")].
Definition next_grants : list (string * string) := [("query", "2026-01-02T05:04:05Z")].
(** The plugin's lifetime, a caller, the lease, a permit. *)
Definition launch : list Ev := [NewContext None None; NewContext None (Some (start + 90000)); New 0 first_grants owner; DoAcquire 0 1].
Definition world_of (evs : list Ev) : World := default (empty_world start) (run evs (empty_world start)).
Definition hour : Z := 3600000000000.

Lemma launched : run launch (empty_world start) = Some (world_of launch).
Proof. by vm_compute. Qed.
Lemma launched_reachable : reachable (world_of launch).
Proof. exact (run_reachable start launch _ launched). Qed.
Definition the_permit : Permit := mkPermit 3 0 2 1.
Definition the_lease : GrantLease := default (mkLease [] owner 0 0 None None true false 0) (leases (world_of launch) !! 0%nat).

Lemma live_permit_has_live_authority_witness :
  the_permit ∈ permits (world_of launch) ∧
  ∃ L, leases (world_of launch) !! pm_lease the_permit = Some L ∧ gl_ended L = false ∧ pm_base the_permit = gl_ctx L ∧
    done (world_of launch) (gl_ctx L) = false.
Proof.
  assert (the_permit ∈ permits (world_of launch)) as Hp by (apply (list_elem_of_lookup_2 _ 0); by vm_compute).
  split; [done|]. apply (live_permit_has_live_authority _ _ launched_reachable Hp). by vm_compute.
Defined.
(** After the renewal the old permit is gone, and the revocation ends the lease. *)
Definition renewed_then_revoked : list Ev := [DoRenew 0 [1%nat] next_grants; SetOnEnd true 0; DoAcquire 0 1; DoRevoke 0; DoRevoke 0].
Lemma old_permit_is_gone : done (world_of (launch ++ [DoRenew 0 [1%nat] next_grants])%list) (pm_ctx the_permit) = true.
Proof. by vm_compute. Qed.
Lemma revoked_once : callbacks (world_of (launch ++ renewed_then_revoked)%list) = [0%nat].
Proof. by vm_compute. Qed.
Definition revoked : World := world_of (launch ++ renewed_then_revoked)%list.
Lemma revoked_reachable : reachable revoked.
Proof. apply (run_reachable start (launch ++ renewed_then_revoked)%list). by vm_compute. Qed.
Definition revoked_lease : GrantLease := default the_lease (leases revoked !! 0%nat).
Definition later : list Ev := [Tick hour; DoRenew 0 [1%nat] next_grants; DoAcquire 0 0].

Lemma ended_lease_is_final_witness : ∃ L',
  leases (default revoked (run later revoked)) !! 0%nat = Some L' ∧ gl_ended L' = true ∧ gl_grants L' = next_grants ∧
  (∀ c, Acquire 0 c (default revoked (run later revoked)) = (Err ErrGrantLeaseEnded, default revoked (run later revoked))) ∧
  (∀ ps g, Renew 0 ps g (default revoked (run later revoked)) = (Err ErrGrantLeaseEnded, default revoked (run later revoked))) ∧
  Context_ (default revoked (run later revoked)) 0 = Err ErrGrantLeaseEnded.
Proof.
  apply (ended_lease_is_final revoked later _ 0 revoked_lease); [by vm_compute|by vm_compute|].
  apply heap_run_steps. by vm_compute.
Defined.
Lemma callback_runs_once_witness : callbacks revoked = [0%nat] ∧
  NoDup (callbacks revoked) ∧ ∀ l, l ∈ callbacks revoked → ∃ L, leases revoked !! l = Some L ∧ gl_ended L = true.
Proof. split; [by vm_compute|]. exact (callback_runs_once revoked revoked_reachable). Defined.
Lemma grants_change_by_renewal_witness :
  gl_grants the_lease = first_grants ∧ ∃ L', leases (default revoked (run renewed_then_revoked (world_of launch))) !! 0%nat = Some L' ∧
    gl_owner L' = owner ∧ rtc (renews owner) first_grants (gl_grants L').
Proof.
  split; [by vm_compute|].
  apply (grants_change_by_renewal (world_of launch) renewed_then_revoked _ 0 the_lease); [|by vm_compute].
  apply heap_run_steps. by vm_compute.
Defined.
Lemma permit_shows_the_expiry_witness :
  now (world_of launch) < start + hour ∧
  ∃ d, Deadline (Acquire 0 0 (world_of launch)).2 4 = Some d ∧ d ≤ start + hour.
Proof.
  apply (permit_shows_the_expiry (world_of launch) 0 0 (mkPermit 4 0 2 2) _ the_lease _ launched_reachable); by vm_compute.
Defined.
Definition expired_ : list Ev := (launch ++ [Tick (2 * hour)])%list.
Lemma lease_ends_by_itself_witness :
  (∃ t w' L', (steps step (world_of expired_) [TimerFires t; TimerRuns t] w' ∨ steps step (world_of expired_) [TimerRuns t] w') ∧
      leases w' !! 0%nat = Some L' ∧ gl_ended L' = true) ∨
   gl_ctx the_lease ∈ cancelled (world_of expired_) ∧
     ∃ t x, gl_timer the_lease = Some t ∧ timers (world_of expired_) !! t = Some x ∧ tm_state x = Stopped.
Proof.
  refine (proj2 (lease_ends_by_itself (world_of expired_) 0 the_lease _ _ _) (start + hour) _ _); [|by vm_compute..].
  apply (run_reachable start expired_). by vm_compute.
Defined.
(** The grants of the renewal have expired already. *)
Definition stale : list (string * string) := [("query", "2026-01-01T00:00:00Z")].
Lemma failed_renewal_disables_witness :
  leases (Renew 0 [1%nat] stale (world_of launch)).2 = leases (world_of launch) ∧
  ((Renew 0 [1%nat] stale (world_of launch)).2 = world_of launch ∨
   ∀ c, Acquire 0 c (Renew 0 [1%nat] stale (world_of launch)).2 = (Err ErrGrantLeaseEnded, (Renew 0 [1%nat] stale (world_of launch)).2)).
Proof. apply (failed_renewal_disables (cap:=toy) 0 [1%nat] stale ErrGrantLeaseEnded _ _ launched_reachable). by vm_compute. Defined.
End Example_lease.
