(* ===== verification/PluginManager.v ===== *)
(** * The manager of a plugin process

    [plugin/subprocess/manager.go], [manager_grants.go] and [expected_incarnation.go]:
    the process state, its grant lease and its connection, as one transition system
    over the leases.  Every goroutine is a program counter; a step is a critical
    section, a call out of the package with what it answered, a callback of the
    process supervisor, or a step of the lease heap. *)

From S2P Require Import Prelude GoStrings GrantLease.

Open Scope string_scope.
Open Scope Z_scope.
Set Default Proof Using "Type".

Inductive ProcessState := StateStopped | StateStarting | StateRunning | StateStopping | StateCrashed.
#[export] Instance ProcessState_eq_dec : EqDecision ProcessState.
Proof. solve_decision. Defined.
Definition ProcessState_String (s : ProcessState) : string :=
  match s with
  | StateStopped => "stopped" | StateStarting => "starting" | StateRunning => "running"
  | StateStopping => "stopping" | StateCrashed => "crashed"
  end.
Definition MaxCallDuration : Z := 30 * 1000000000.

(** ** The environment of a plugin *)

Definition ambient_keys : list string :=
  ["PATH"; "HOME"; "TMPDIR"; "TMP"; "TEMP"; "USER"; "LOGNAME"; "LANG"; "LC_ALL"; "XDG_RUNTIME_DIR"].
Definition ambient (entry : string) : bool :=
  match cut "="%char entry with Some (key, _) => bool_decide (key ∈ ambient_keys) | None => false end.
Definition pluginEnvironment (parent explicit : list string) : list string := (filter ambient parent ++ explicit)%list.
(** Nothing of the host's environment reaches a plugin but the listed keys. *)
Theorem environment_is_listed_or_explicit parent explicit entry : entry ∈ pluginEnvironment parent explicit →
  entry ∈ explicit ∨ entry ∈ parent ∧ ∃ key value, entry = key +:+ "=" +:+ value ∧ key ∈ ambient_keys.
Proof.
  unfold pluginEnvironment. intros [Hin|?]%elem_of_app; [right|by left].
  apply list_elem_of_filter in Hin as [Ha Hin]. split; [done|]. unfold ambient in Ha.
  destruct (cut "="%char entry) as [[key value]|] eqn:Hc; [|done]. apply Is_true_true in Ha. b2p.
  apply cut_Some in Hc as [-> _]. exists key, value. split; [|done]. by destruct key.
Qed.

(** ** State *)

(** What of [ManagerConfig] decides; for a callback, whether it is set.  The lifecycle
    context is the first context of the heap. *)
Record ManagerConfig := mkConfig {
  cfg_ID : string;
  cfg_Granted : list string;
  cfg_IssueGrants : bool;
  cfg_RevalidateGrants : bool;
  cfg_InitIdentity : bool;
  cfg_IdentitySecrets : bool;
  cfg_OnUnload : bool;
  cfg_OnDisconnect : bool;
  cfg_MaxRestarts : Z;
}.
Definition lifecycle : nat := 0%nat.

(** [supervisor] and [transport] are set together; [secrets] are the transport's. *)
Record Manager := mkManager {
  m_state : ProcessState;
  m_supervisor : bool;
  m_incarnation : RuntimeIdentity;
  m_grantLease : option nat;
  m_connection : option nat;
  m_renewalSupported : bool;
  m_renewalSequence : Z;
  m_renewing : option nat;
  m_secrets : list string;
}.
Definition NewManager : Manager :=
  mkManager StateStopped false (mkIdentity "" "" 0) None None false 0 None [].
Definition set_state (s : ProcessState) (m : Manager) : Manager :=
  mkManager s (m_supervisor m) (m_incarnation m) (m_grantLease m) (m_connection m) (m_renewalSupported m)
    (m_renewalSequence m) (m_renewing m) (m_secrets m).
Definition set_renewing (l : option nat) (m : Manager) : Manager :=
  mkManager (m_state m) (m_supervisor m) (m_incarnation m) (m_grantLease m) (m_connection m) (m_renewalSupported m)
    (m_renewalSequence m) l (m_secrets m).
Definition set_sequence (n : Z) (m : Manager) : Manager :=
  mkManager (m_state m) (m_supervisor m) (m_incarnation m) (m_grantLease m) (m_connection m) (m_renewalSupported m)
    n (m_renewing m) (m_secrets m).
(** Forget the lease and the connection. *)
Definition unbound (s : ProcessState) (m : Manager) : Manager :=
  mkManager s (m_supervisor m) (m_incarnation m) None None (m_renewalSupported m) (m_renewalSequence m) (m_renewing m) (m_secrets m).
Definition bound (l : nat) (owner : RuntimeIdentity) (m : Manager) : Manager :=
  mkManager (m_state m) (m_supervisor m) owner (Some l) (m_connection m) (m_renewalSupported m) (m_renewalSequence m)
    (m_renewing m) (m_secrets m).
Definition connected (c : nat) (feature : bool) (m : Manager) : Manager :=
  mkManager StateRunning (m_supervisor m) (m_incarnation m) (m_grantLease m) (Some c) feature 0 None (m_secrets m).
Definition supervised (m : Manager) : Manager :=
  mkManager StateStarting true (m_incarnation m) (m_grantLease m) (m_connection m) (m_renewalSupported m) (m_renewalSequence m)
    (m_renewing m) (m_secrets m).
Definition add_secrets (l : list string) (m : Manager) : Manager :=
  mkManager (m_state m) (m_supervisor m) (m_incarnation m) (m_grantLease m) (m_connection m) (m_renewalSupported m)
    (m_renewalSequence m) (m_renewing m) (m_secrets m ++ l)%list.
Definition stopping (s : ProcessState) : bool := bool_decide (s = StateStopping) || bool_decide (s = StateStopped).
Definition running (m : Manager) : bool := bool_decide (m_state m = StateRunning).

Inductive MErr :=
| EAlreadyStarted | ENotAuthorized | EStartFailed | EIdentityMismatch
| ENoOwner | ENoGrants | ELease (e : LeaseErr) | EIdentity
| EStaleBinding | EGone | EPolicy | EValidation
| EUnavailable | EInProgress | EExhausted | EDeadline
| ECall | EAckMismatch.
(** How a goroutine's function returned.  [Fenced] is the error of a renewal that first
    revoked its lease. *)
Inductive Outcome := Returned | Failed (e : MErr) | Fenced (e : MErr).

Section Manager.
Context {cap : Capability} (cfg : ManagerConfig).

(** A renewal in flight: the caller's context, the lease, connection and owner it read,
    and what it proposes. *)
Record Renewal := mkRenewal {
  rn_ctx : nat;
  rn_lease : nat;
  rn_conn : nat;
  rn_owner : RuntimeIdentity;
  rn_next : GrantSet;
}.
(** What a renewal still has to release: its permit and the context of its call. *)
Inductive Held := HNothing | HPermit (p : Permit) | HCall (p : Permit) (call : nat).
Inductive Then := ThenReturn (o : Outcome) | ThenCrash (o : Outcome) | ThenExit | ThenRenewEnd (l : nat) (h : Held) (o : Outcome).

Inductive Thread :=
| Finished (o : Outcome)
| Starting
| StartCheck
| StartStop
| EndLease0 (crashed : bool) (k : Then)
| EndLease1 (l : nat) (k : Then)
| EndLease2 (l : nat) (k : Then)
| Crash (o : Outcome)
| Exit0
| Exit1
| Stop0 (expected : option nat) (k : Then)
| Stop1 (l : nat) (k : Then)
| Stop2 (l : nat) (k : Then)
| Stop3 (k : Then)
| Stop4 (k : Then)
| Init0 (c l : nat) (owner : RuntimeIdentity)
| Init1 (c l : nat) (owner : RuntimeIdentity)
| Init2 (c l : nat) (owner : RuntimeIdentity)
| InitRevoke (l : nat) (e : MErr)
| Dispatch1 (c : nat) (e : option RuntimeIdentity) (l conn : nat)
| DispatchRevoke (l : nat)
| Dispatch2 (c : nat) (e : option RuntimeIdentity) (l conn : nat)
| Dispatch3 (e : option RuntimeIdentity) (l conn : nat) (p : Permit)
| Dispatch4 (e : option RuntimeIdentity) (l conn : nat) (p : Permit)
| Holding (p : Permit)
| Renew0 (c : nat) (next : GrantSet)
| RenewRevoke (l : nat)
| Renew1 (r : Renewal)
| Renew2 (r : Renewal)
| Renew3 (r : Renewal) (p : Permit)
| RenewBudget (r : Renewal) (p : Permit) (call : nat)
| Renew4 (r : Renewal) (p : Permit) (call : nat)
| Renew5 (r : Renewal) (p : Permit) (call : nat) (seq : Z)
| Renew6 (r : Renewal) (p : Permit) (call : nat) (seq : Z)
| Renew7 (r : Renewal) (p : Permit) (call : nat) (seq : Z)
| Renew8 (r : Renewal) (p : Permit) (call : nat) (seq : Z)
| Fence0 (l : nat) (h : Held) (e : MErr)
| RenewEnd (l : nat) (h : Held) (o : Outcome)
| RenewClear (l : nat) (o : Outcome)
| RevokeOwner (l : nat).
Definition resume (k : Then) : Thread :=
  match k with
  | ThenReturn o => Finished o
  | ThenCrash o => Crash o
  | ThenExit => Exit1
  | ThenRenewEnd l h o => RenewEnd l h o
  end.

(** What the outside sees. *)
Inductive Obs :=
| OBound (l : nat) (owner : RuntimeIdentity)
| ODispatched (conn l : nat) (expected : option RuntimeIdentity) (p : Permit)
| ORenewSent (t : nat) (r : Renewal) (seq : Z)
| OAcked (t : nat) (seq : Z) (owner : RuntimeIdentity)
| ORenewed (t : nat) (r : Renewal)
| ORevoked (owner : RuntimeIdentity) (l : nat)
| OKilled | OCrashed | OChanged | OUnload | ODisconnect.

(** Where the supervisor is with its callbacks, and whether they came in their order so
    far: [InitFactory], [OnStart], [OnExit], each after the one before returned. *)
Inductive Phase := PIdle | PInit (t : nat) | PUp | PExit (t : nat).

Record PWorld := mkPWorld {
  lw : World;
  mgr : Manager;
  conns : list nat;
  threads : list Thread;
  log : list Obs;
  phase : Phase;
  in_order : bool;
}.
Definition set_mgr (m : Manager) (w : PWorld) : PWorld :=
  mkPWorld (lw w) m (conns w) (threads w) (log w) (phase w) (in_order w).
Definition spawn (th : Thread) (w : PWorld) : PWorld :=
  mkPWorld (lw w) (mgr w) (conns w) (threads w ++ [th])%list (log w) (phase w) (in_order w).
Definition set_thread (t : nat) (th : Thread) (w : PWorld) : PWorld :=
  mkPWorld (lw w) (mgr w) (conns w) (<[t := th]> (threads w)) (log w) (phase w) (in_order w).
Definition observe (o : list Obs) (w : PWorld) : PWorld :=
  mkPWorld (lw w) (mgr w) (conns w) (threads w) (log w ++ o)%list (phase w) (in_order w).
Definition add_conn (l : nat) (w : PWorld) : PWorld :=
  mkPWorld (lw w) (mgr w) (conns w ++ [l])%list (threads w) (log w) (phase w) (in_order w).
Definition to_phase (p : Phase) (fine : bool) (w : PWorld) : PWorld :=
  mkPWorld (lw w) (mgr w) (conns w) (threads w) (log w) p (in_order w && fine).
(** The lease heap moves on; every callback that ran starts a goroutine that stops the
    manager for its lease. *)
Definition callback_thread (l : nat) : Thread := Stop0 (Some l) (ThenReturn Returned).
Definition set_lw (v : World) (w : PWorld) : PWorld :=
  mkPWorld v (mgr w) (conns w) (threads w ++ map callback_thread (drop (length (callbacks (lw w))) (callbacks v)))%list
    (log w) (phase w) (in_order w).

(** Which callbacks are set decides what is seen of them. *)
Definition unload_seen : list Obs := if cfg_OnUnload cfg then [OUnload] else [].
Definition disconnect_seen : list Obs := if cfg_OnDisconnect cfg then [ODisconnect] else [].

(** ** Goroutines *)

(** What a call out of the package answered in a step. *)
Inductive In :=
| Quiet
| Answer (b : bool)
| Secrets (l : list string)
| AckIs (seq : Z) (owner : RuntimeIdentity) (version_ok : bool)
| AckInvalid.
(** A callback that may be unset: [Some b] for its answer, [Some true] without one. *)
Definition asked (set : bool) (i : In) : option bool :=
  match set, i with true, Answer b => Some b | false, Quiet => Some true | _, _ => None end.

Definition crashed_state (m : Manager) : ProcessState := if stopping (m_state m) then m_state m else StateCrashed.
(** The checks that a lease and a connection are still the manager's. *)
Definition holds (m : Manager) (l conn : nat) : bool :=
  running m && bool_decide (m_grantLease m = Some l) && bool_decide (m_connection m = Some conn).
Definition is_stale (m : Manager) (e : option RuntimeIdentity) : bool :=
  match e with Some x => negb (bool_decide (x = m_incarnation m)) | None => false end.
Definition renewal_current (m : Manager) (r : Renewal) : bool :=
  holds m (rn_lease r) (rn_conn r) && bool_decide (m_incarnation m = rn_owner r).
(** The milliseconds left until the deadline of a call, rounded towards zero. *)
Definition budget (v : World) (call : nat) : Z :=
  match Deadline v call with Some d => Z.quot (d - now v) 1000000 | None => 0 end.
Definition MaxUint32 : Z := 4294967295.
Definition release_held (h : Held) (v : World) : World :=
  match h with HNothing => v | HPermit p => release p v | HCall p call => release p (cancel call v) end.

(** What a step does: where its goroutine goes on, the lease heap and the manager after
    it, and what is seen. *)
Record Effect := mkEffect { ef_thread : Thread; ef_lw : World; ef_mgr : Manager; ef_obs : list Obs }.

Section Steps.
Context (v : World) (m : Manager).
(** Steps that only move on, that end there, and that change the manager or the leases. *)
Definition goes (th : Thread) : option Effect := Some (mkEffect th v m []).
Definition fails (e : MErr) : option Effect := goes (Finished (Failed e)).
Definition manages (m : Manager) (th : Thread) : option Effect := Some (mkEffect th v m []).
Definition leases_to (v : World) (th : Thread) : option Effect := Some (mkEffect th v m []).

(** [endGrantLease] and [endLease], section by section. *)
Definition step_end (th : Thread) : option Effect :=
  match th with
  | EndLease0 crashed k =>
      manages (unbound (if crashed then crashed_state m else m_state m) m)
        match m_grantLease m with Some l => EndLease1 l k | None => resume k end
  | EndLease1 l k => leases_to (set_onEnd false l v) (EndLease2 l k)
  | EndLease2 l k => leases_to (Revoke l v) (resume k)
  | _ => None
  end.
(** [recordCrash]. *)
Definition step_crash (th : Thread) : option Effect :=
  match th with
  | Crash o => Some (mkEffect (Finished o) v (set_state (crashed_state m) m) [OChanged; OCrashed])
  | _ => None
  end.
(** [OnExit]: drain, end the lease, tell, record. *)
Definition step_exit (th : Thread) : option Effect :=
  match th with
  | Exit0 => goes (EndLease0 true ThenExit)
  | Exit1 => Some (mkEffect (Crash Returned) v m disconnect_seen)
  | _ => None
  end.
(** [stopLease]. *)
Definition step_stop (th : Thread) : option Effect :=
  match th with
  | Stop0 (Some l) k =>
      if bool_decide (m_grantLease m = Some l) then manages (unbound StateStopping m) (Stop1 l k) else goes (resume k)
  | Stop0 None k =>
      match m_grantLease m with
      | Some l => manages (unbound StateStopping m) (Stop1 l k)
      | None => Some (mkEffect (Stop3 k) v (unbound StateStopping m) unload_seen)
      end
  | Stop1 l k => leases_to (set_onEnd false l v) (Stop2 l k)
  | Stop2 l k => Some (mkEffect (Stop3 k) (Revoke l v) m unload_seen)
  | Stop3 k => goes (Stop4 k)
  | Stop4 k => Some (mkEffect (resume k) v (set_state StateStopped m) (OChanged :: unload_seen))
  | _ => None
  end.
(** [Start] once the supervisor runs. *)
Definition step_start (th : Thread) (i : In) : option Effect :=
  match th with
  | Starting =>
      match i with
      | Answer b => goes (if b then StartCheck else EndLease0 false (ThenCrash (Failed EStartFailed)))
      | _ => None
      end
  | StartCheck => match i with Answer b => goes (if b then Finished Returned else StartStop) | _ => None end
  | StartStop => fails EIdentityMismatch
  | _ => None
  end.
(** [InitFactory] once its lease exists. *)
Definition step_init (th : Thread) (i : In) : option Effect :=
  match th with
  | Init0 c l owner =>
      b ← asked (cfg_InitIdentity cfg) i; goes (if b : bool then Init1 c l owner else InitRevoke l EIdentity)
  | Init1 c l owner =>
      match cfg_IdentitySecrets cfg, i with
      | true, Secrets s => manages (add_secrets s m) (Init2 c l owner)
      | false, Quiet => goes (Init2 c l owner)
      | _, _ => None
      end
  | Init2 c l owner =>
      if stopping (m_state m) || done v c then goes (InitRevoke l (ELease ErrGrantLeaseEnded)) else
      match leases v !! l with
      | Some L =>
          if gl_ended L || done v (gl_ctx L) then goes (InitRevoke l (ELease ErrGrantLeaseEnded)) else
          Some (mkEffect (Finished Returned) (set_onEnd true l v) (bound l owner m) [OBound l owner])
      | None => None
      end
  | InitRevoke l e => leases_to (Revoke l v) (Finished (Failed e))
  | _ => None
  end.
(** [acquireDispatch] after its first section, and the dispatch's release. *)
Definition step_dispatch (th : Thread) (i : In) : option Effect :=
  match th with
  | Dispatch1 c e l conn =>
      b ← asked (cfg_RevalidateGrants cfg) i; goes (if b : bool then Dispatch2 c e l conn else DispatchRevoke l)
  | DispatchRevoke l => leases_to (Revoke l v) (Finished (Failed EPolicy))
  | Dispatch2 c e l conn =>
      match Acquire l c v with
      | (Ok p, v') => leases_to v' (Dispatch3 e l conn p)
      | (Err x, _) => fails (ELease x)
      end
  | Dispatch3 e l conn p =>
      if done v (pm_ctx p) then leases_to (release p v) (Finished (Failed (ELease ErrContext))) else
      match i with
      | Answer true => goes (Dispatch4 e l conn p)
      | Answer false => leases_to (release p v) (Finished (Failed EValidation))
      | _ => None
      end
  | Dispatch4 e l conn p =>
      if holds m l conn && negb (is_stale m e) then Some (mkEffect (Holding p) v m [ODispatched conn l e p]) else
      leases_to (release p v) (Finished (Failed (if is_stale m e then EStaleBinding else ELease ErrGrantLeaseEnded)))
  | Holding p => leases_to (release p v) (Finished Returned)
  | _ => None
  end.
(** [RenewGrants] after its first check, with its deferred calls.  [t] is the goroutine. *)
Definition step_renew (t : nat) (th : Thread) (i : In) : option Effect :=
  match th with
  | Renew0 c next =>
      match m_grantLease m, m_connection m with
      | Some l, Some conn =>
          if negb (running m) then fails (ELease ErrGrantLeaseEnded) else
          if negb (m_renewalSupported m) then fails EUnavailable else
          if bool_decide (is_Some (m_renewing m)) then fails EInProgress else
          if MaxSafeInteger <=? m_renewalSequence m then goes (RenewRevoke l) else
          if negb (ValidateRenewal (Grants v l) next (m_incarnation m) (now v)) then fails (ELease ErrInvalidGrants) else
          manages (set_renewing (Some l) m) (Renew1 (mkRenewal c l conn (m_incarnation m) next))
      | _, _ => fails (ELease ErrGrantLeaseEnded)
      end
  | RenewRevoke l => leases_to (Revoke l v) (Finished (Failed EExhausted))
  | Renew1 r =>
      b ← asked (cfg_RevalidateGrants cfg) i; goes (if b : bool then Renew2 r else Fence0 (rn_lease r) HNothing EPolicy)
  | Renew2 r =>
      match Acquire (rn_lease r) (rn_ctx r) v with
      | (Ok p, v') => leases_to v' (Renew3 r p)
      | (Err e, _) => goes (RenewClear (rn_lease r) (Failed (ELease e)))
      end
  | Renew3 r p =>
      let '(call, v') := WithDeadline (pm_ctx p) (now v + MaxCallDuration) v in leases_to v' (RenewBudget r p call)
  | RenewBudget r p call =>
      let b := budget v call in
      goes (if (b <=? 0) || (MaxUint32 <? b) then RenewEnd (rn_lease r) (HCall p call) (Failed EDeadline) else Renew4 r p call)
  | Renew4 r p call =>
      if negb (renewal_current m r) then goes (RenewEnd (rn_lease r) (HCall p call) (Failed (ELease ErrGrantLeaseEnded))) else
      let seq := (m_renewalSequence m + 1) mod 2 ^ 64 in
      Some (mkEffect (Renew5 r p call seq) v (set_sequence seq m) [ORenewSent t r seq])
  | Renew5 r p call seq =>
      match i with
      | Answer false => goes (Fence0 (rn_lease r) (HCall p call) ECall)
      | AckInvalid => goes (Fence0 (rn_lease r) (HCall p call) ECall)
      | AckIs seq' owner' version_ok =>
          if negb (seq' =? seq) || negb (bool_decide (owner' = rn_owner r)) || negb version_ok
          then goes (Fence0 (rn_lease r) (HCall p call) EAckMismatch)
          else Some (mkEffect (Renew6 r p call seq) v m [OAcked t seq' owner'])
      | _ => None
      end
  | Renew6 r p call seq =>
      goes (if done v (rn_ctx r) || done v call then Fence0 (rn_lease r) (HCall p call) (ELease ErrContext) else Renew7 r p call seq)
  | Renew7 r p call seq =>
      b ← asked (cfg_RevalidateGrants cfg) i;
      goes (if b : bool then Renew8 r p call seq else Fence0 (rn_lease r) (HCall p call) EPolicy)
  | Renew8 r p call seq =>
      if negb (renewal_current m r) then goes (Fence0 (rn_lease r) (HCall p call) (ELease ErrGrantLeaseEnded)) else
      if done v (rn_ctx r) then goes (Fence0 (rn_lease r) (HCall p call) (ELease ErrContext)) else
      match Renew (rn_lease r) [rn_ctx r; call] (rn_next r) v with
      | (Ok _, v') => Some (mkEffect (RenewEnd (rn_lease r) (HCall p call) Returned) v' m [ORenewed t r])
      | (Err e, v') => leases_to v' (Fence0 (rn_lease r) (HCall p call) (ELease e))
      end
  | Fence0 l h e => leases_to (Revoke l v) (Stop0 (Some l) (ThenRenewEnd l h (Fenced e)))
  | RenewEnd l h o => leases_to (release_held h v) (RenewClear l o)
  | RenewClear l o => manages (if bool_decide (m_renewing m = Some l) then set_renewing None m else m) (Finished o)
  | _ => None
  end.
(** [RevokeIncarnation] after its section. *)
Definition step_revoke (th : Thread) : option Effect :=
  match th with
  | RevokeOwner l => leases_to (Revoke l v) (Stop0 (Some l) (ThenReturn Returned))
  | _ => None
  end.
Definition step_thread (t : nat) (th : Thread) (i : In) : option Effect :=
  match th with
  | EndLease0 _ _ | EndLease1 _ _ | EndLease2 _ _ => step_end th
  | Crash _ => step_crash th
  | Exit0 | Exit1 => step_exit th
  | Stop0 _ _ | Stop1 _ _ | Stop2 _ _ | Stop3 _ | Stop4 _ => step_stop th
  | Starting | StartCheck | StartStop => step_start th i
  | Init0 _ _ _ | Init1 _ _ _ | Init2 _ _ _ | InitRevoke _ _ => step_init th i
  | RevokeOwner _ => step_revoke th
  | Dispatch1 _ _ _ _ | DispatchRevoke _ | Dispatch2 _ _ _ _ | Dispatch3 _ _ _ _ | Dispatch4 _ _ _ _ | Holding _ => step_dispatch th i
  | _ => step_renew t th i
  end.

(** ** Entry points *)

(** The first section of each call; the goroutine it starts goes on from there. *)
Definition start (init_grants : bool) : option Effect :=
  if m_supervisor m then fails EAlreadyStarted else
  if bool_decide (cfg_ID cfg = "") || init_grants || (negb (bool_decide (cfg_Granted cfg = [])) && negb (cfg_IssueGrants cfg))
  then manages (set_state StateStopped m) (Finished (Failed ENotAuthorized))
  else manages (supervised m) Starting.
Definition dispatch (c : nat) (e : option RuntimeIdentity) (conn_done : bool) : option Effect :=
  if is_stale m e then fails EStaleBinding else
  if bool_decide (m_state m = StateCrashed) then fails EGone else
  if running m && bool_decide (is_Some (m_connection m)) && conn_done then fails EGone else
  match running m, m_grantLease m, m_connection m with
  | true, Some l, Some conn => goes (Dispatch1 c e l conn)
  | _, _, _ => fails (ELease ErrGrantLeaseEnded)
  end.
Definition renew_grants (c : nat) (next : GrantSet) : option Effect :=
  if done v c then fails (ELease ErrContext) else goes (Renew0 c next).
Definition revoke_incarnation (owner : RuntimeIdentity) : option Effect :=
  if bool_decide (m_incarnation m = owner) then
    match m_grantLease m with
    | Some l => Some (mkEffect (RevokeOwner l) v m [ORevoked owner l])
    | None => goes (Finished Returned)
    end
  else goes (Finished Returned).
(** [NewOwnerIncarnation], [IssueGrants] and [NewGrantLease]. *)
Definition init_factory (c : nat) (generation : option RuntimeIdentity) (issued : option GrantSet) : option Effect :=
  if bool_decide (trim_space (cfg_ID cfg) = "") then fails ENoOwner else
  match generation with
  | None => fails ENoOwner
  | Some owner =>
      match (if cfg_IssueGrants cfg then issued else Some []) with
      | None => fails ENoGrants
      | Some grants =>
          match NewGrantLease lifecycle grants owner v with
          | (Ok l, v') => leases_to v' (Init0 c l owner)
          | (Err e, _) => fails (ELease e)
          end
      end
  end.
(** [OnStart] when it does not connect; [connects] tells when it does. *)
Definition connects (id_ok : bool) : option nat :=
  if negb id_ok || stopping (m_state m) then None else
  l ← m_grantLease m; match Context_ v l with Ok _ => Some l | Err _ => None end.
Definition on_start (id_ok feature : bool) (conn : nat) : option Effect :=
  match connects id_ok with
  | Some _ => Some (mkEffect (Finished Returned) v (connected conn feature m) [OChanged])
  | None =>
      if id_ok then Some (mkEffect (Finished Returned) v m [OKilled])
      else Some (mkEffect (Finished Returned) v (set_state (crashed_state m) m) [OKilled; OChanged; OCrashed])
  end.
Definition on_give_up : option Effect :=
  Some (mkEffect (Finished Returned) v (set_state (crashed_state m) m) ([OChanged; OCrashed] ++ unload_seen)%list).
End Steps.



Definition finished (w : PWorld) (t : nat) : bool :=
  match threads w !! t with Some (Finished _) => true | _ => false end.
(** The callback before this one returned. *)
Definition callback_done (w : PWorld) : bool :=
  match phase w with PIdle => true | PInit t => finished w t | PUp => false | PExit t => finished w t end.

Definition start_due (w : PWorld) : bool := match phase w with PInit t => finished w t | _ => false end.
Definition exit_due (w : PWorld) : bool := match phase w with PUp => true | _ => false end.

Inductive Event :=
| Env (e : Ev)
| CallStart (init_grants : bool)
| CallStop
| CallDispatch (c : nat) (expected : option RuntimeIdentity) (conn_done : bool)
| CallRenew (c : nat) (next : GrantSet)
| CallRevokeIncarnation (owner : RuntimeIdentity)
| InitFactory (c : nat) (generation : option RuntimeIdentity) (issued : option GrantSet)
| OnStart (id_ok feature : bool)
| OnExit
| OnGiveUp
| Run (t : nat) (i : In).

(** Time, timers and contexts; the rest of the lease heap only moves by the manager. *)
Definition is_env (e : Ev) : bool :=
  match e with
  | Tick _ | NewContext _ _ | CancelContext _ | DeadlineFires _ | TimerFires _ | TimerRuns _ | AfterRuns _ => true
  | _ => false
  end.
Definition perform (ef : Effect) (w : PWorld) : PWorld := observe (ef_obs ef) (set_lw (ef_lw ef) (set_mgr (ef_mgr ef) w)).
(** The calls: the effect of the first section, and where the supervisor is. *)
Definition entry (e : Event) (w : PWorld) : option (Effect * PWorld) :=
  let v := lw w in let m := mgr w in
  let at_ (w : PWorld) (ef : option Effect) : option (Effect * PWorld) := ef ← ef; Some (ef, w) in
  match e with
  | Env _ | Run _ _ => None
  | CallStart init_grants => at_ w (start v m init_grants)
  | CallStop => at_ w (goes v m (Stop0 None (ThenReturn Returned)))
  | CallDispatch c e conn_done => at_ w (dispatch v m c e conn_done)
  | CallRenew c next => at_ w (renew_grants v m c next)
  | CallRevokeIncarnation owner => at_ w (revoke_incarnation v m owner)
  | InitFactory c generation issued =>
      if m_supervisor m && bool_decide (is_Some (ctxs v !! lifecycle))
      then at_ (to_phase (PInit (length (threads w))) (callback_done w) w) (init_factory v m c generation issued) else None
  | OnStart id_ok feature =>
      if m_supervisor m
      then at_ (match connects v m id_ok with Some l => add_conn l | None => λ w, w end
                  (to_phase PUp (start_due w) w))
             (on_start v m id_ok feature (length (conns w))) else None
  | OnExit =>
      if m_supervisor m
      then at_ (to_phase (PExit (length (threads w))) (exit_due w) w) (goes v m Exit0) else None
  | OnGiveUp => if m_supervisor m then at_ w (on_give_up v m) else None
  end.
Definition papply (e : Event) (w : PWorld) : option PWorld :=
  match e with
  | Env e => if is_env e then v ← apply e (lw w); Some (set_lw v w) else None
  | Run t i =>
      th ← threads w !! t; ef ← step_thread (lw w) (mgr w) t th i;
      Some (perform ef (set_thread t (ef_thread ef) w))
  | _ => '(ef, w0) ← entry e w; Some (perform ef (spawn (ef_thread ef) w0))
  end.
Definition pstep (w : PWorld) (e : Event) (w' : PWorld) : Prop := papply e w = Some w'.
(** [Incarnation] and [CurrentGrants]. *)
Definition Incarnation (w : PWorld) : RuntimeIdentity :=
  if running (mgr w) then m_incarnation (mgr w) else mkIdentity "" "" 0.
Definition CurrentGrants (w : PWorld) : GrantSet :=
  match running (mgr w), m_grantLease (mgr w) with true, Some l => Grants (lw w) l | _, _ => [] end.
(** A manager is created on a heap that holds its lifecycle context. *)
Definition initial (v : World) : PWorld := mkPWorld v NewManager [] [] [] PIdle true.
Definition preachable (w : PWorld) : Prop :=
  ∃ v evs, reachable v ∧ is_Some (ctxs v !! lifecycle) ∧ callbacks v = [] ∧ steps pstep (initial v) evs w.

(** ** Invariants *)

Definition owned (v : World) (l : nat) (o : RuntimeIdentity) : Prop := ∃ L, leases v !! l = Some L ∧ gl_owner L = o.
Definition ended (v : World) (l : nat) : Prop := ∃ L, leases v !! l = Some L ∧ gl_ended L = true.
Definition held_permits (h : Held) : list Permit := match h with HNothing => [] | HPermit p | HCall p _ => [p] end.
Definition then_permits (k : Then) : list Permit := match k with ThenRenewEnd _ h _ => held_permits h | _ => [] end.
(** The permits a goroutine has to release. *)
Definition thread_permits (th : Thread) : list Permit :=
  match th with
  | Dispatch3 _ _ _ p | Dispatch4 _ _ _ p | Holding p | Renew3 _ p | RenewBudget _ p _ | Renew4 _ p _
  | Renew5 _ p _ _ | Renew6 _ p _ _ | Renew7 _ p _ _ | Renew8 _ p _ _ => [p]
  | Fence0 _ h _ | RenewEnd _ h _ => held_permits h
  | EndLease0 _ k | EndLease1 _ k | EndLease2 _ k | Stop0 _ k | Stop1 _ k | Stop2 _ k | Stop3 k | Stop4 k => then_permits k
  | _ => []
  end.
Definition thread_fact (w : PWorld) (t : nat) (th : Thread) : Prop :=
  match th with
  | Dispatch3 _ l _ p | Dispatch4 _ l _ p => pm_lease p = l
  | Init0 _ l o | Init1 _ l o | Init2 _ l o => owned (lw w) l o
  | Renew1 r | Renew2 r | Renew3 r _ | RenewBudget r _ _ | Renew4 r _ _ => owned (lw w) (rn_lease r) (rn_owner r)
  | Renew5 r _ _ seq => owned (lw w) (rn_lease r) (rn_owner r) ∧ ORenewSent t r seq ∈ log w
  | Renew6 r _ _ seq | Renew7 r _ _ seq | Renew8 r _ _ seq =>
      owned (lw w) (rn_lease r) (rn_owner r) ∧ ORenewSent t r seq ∈ log w ∧ OAcked t seq (rn_owner r) ∈ log w
  | _ => True
  end.
Definition thread_ok (w : PWorld) (t : nat) (th : Thread) : Prop :=
  thread_permits th ⊆ permits (lw w) ∧ thread_fact w t th.
Definition mgr_ok (v : World) (m : Manager) : Prop := ∀ l, m_grantLease m = Some l → owned v l (m_incarnation m).
Definition obs_ok (w : PWorld) (o : Obs) : Prop :=
  match o with
  | ODispatched conn l e p => p ∈ permits (lw w) ∧ pm_lease p = l ∧ ∀ x, e = Some x → owned (lw w) l x
  | ORenewed t r => owned (lw w) (rn_lease r) (rn_owner r) ∧
      ∃ seq, ORenewSent t r seq ∈ log w ∧ OAcked t seq (rn_owner r) ∈ log w
  | ORevoked o l | OBound l o => owned (lw w) l o
  | _ => True
  end.
(** How a renewal that was sent can have been settled. *)
Definition settled (w : PWorld) (t : nat) (r : Renewal) (o : Outcome) : Prop :=
  match o with Returned => ORenewed t r ∈ log w | Fenced _ => ended (lw w) (rn_lease r) | Failed _ => False end.
Definition after_send (w : PWorld) (t : nat) (r : Renewal) (th : Thread) : Prop :=
  match th with
  | Renew5 r' _ _ _ | Renew6 r' _ _ _ | Renew7 r' _ _ _ | Renew8 r' _ _ _ => r' = r
  | Fence0 l _ _ => l = rn_lease r ∧ owned (lw w) l (rn_owner r)
  | Stop0 _ (ThenRenewEnd _ _ (Fenced _)) | Stop1 _ (ThenRenewEnd _ _ (Fenced _)) | Stop2 _ (ThenRenewEnd _ _ (Fenced _))
  | Stop3 (ThenRenewEnd _ _ (Fenced _)) | Stop4 (ThenRenewEnd _ _ (Fenced _)) => ended (lw w) (rn_lease r)
  | RenewEnd _ _ o | RenewClear _ o | Finished o => settled w t r o
  | _ => False
  end.

Record minv (w : PWorld) : Prop := {
  mi_wf : wf (lw w);
  mi_threads : ∀ t th, threads w !! t = Some th → thread_ok w t th;
  mi_mgr : mgr_ok (lw w) (mgr w);
  mi_log : ∀ o, o ∈ log w → obs_ok w o;
  mi_sent : ∀ t r seq, ORenewSent t r seq ∈ log w → ∃ th, threads w !! t = Some th ∧ after_send w t r th;
}.

(** What only grows in a run. *)
Record later (w w' : PWorld) : Prop := {
  lt_lw : moves (lw w) (lw w');
  lt_log : ∃ k, log w' = (log w ++ k)%list;
  lt_conns : ∃ k, conns w' = (conns w ++ k)%list;
  lt_order : in_order w' = true → in_order w = true;
}.
Lemma owned_later v v' l o : moves v v' → owned v l o → owned v' l o.
Proof. intros Hm (L & Hl & Ho). destruct (mv_leases _ _ Hm l L Hl) as (L' & Hl' & Hf). exists L'. split; [done|]. by rewrite (fl_owner _ _ _ Hf). Qed.
Lemma ended_later v v' l : moves v v' → ended v l → ended v' l.
Proof. intros Hm (L & Hl & He). destruct (mv_leases _ _ Hm l L Hl) as (L' & Hl' & Hf). exists L'. split; [done|]. by apply (fl_ended _ _ _ Hf). Qed.
Lemma permits_later v v' : moves v v' → permits v ⊆ permits v'.
Proof. intros Hm. destruct (mv_permits _ _ Hm) as [k ->]. set_solver. Qed.
Lemma log_later w w' : later w w' → log w ⊆ log w'.
Proof. intros Hm. destruct (lt_log _ _ Hm) as [k ->]. set_solver. Qed.
Lemma thread_ok_later w w' t th : later w w' → thread_ok w t th → thread_ok w' t th.
Proof.
  intros Hl [Hp Hf]. pose proof (permits_later _ _ (lt_lw _ _ Hl)) as Hperm. pose proof (log_later _ _ Hl) as Hlog.
  split; [set_solver|]. destruct th; cbn in *; try done; try (by eapply owned_later, Hf; apply Hl).
  - destruct Hf. split; [eapply owned_later; [apply Hl|done]|set_solver].
  - destruct Hf as (? & ? & ?). split; [eapply owned_later; [apply Hl|done]|set_solver].
  - destruct Hf as (? & ? & ?). split; [eapply owned_later; [apply Hl|done]|set_solver].
  - destruct Hf as (? & ? & ?). split; [eapply owned_later; [apply Hl|done]|set_solver].
Qed.
Lemma obs_ok_later w w' o : later w w' → obs_ok w o → obs_ok w' o.
Proof.
  intros Hl. pose proof (permits_later _ _ (lt_lw _ _ Hl)) as Hperm. pose proof (log_later _ _ Hl) as Hlog.
  pose proof (λ l o, owned_later (lw w) (lw w') l o (lt_lw _ _ Hl)) as Hown.
  destruct o; cbn; auto.
  - intros (? & ? & ?). split; [set_solver|]. auto.
  - intros (? & seq & ? & ?). split; [auto|]. exists seq. set_solver.
Qed.
Lemma settled_later w w' t r o : later w w' → settled w t r o → settled w' t r o.
Proof. intros Hl. destruct o; cbn; [apply (log_later _ _ Hl)|done|apply ended_later, Hl]. Qed.
Lemma after_send_later w w' t r th : later w w' → after_send w t r th → after_send w' t r th.
Proof.
  intros Hl. pose proof (ended_later _ _ (rn_lease r) (lt_lw _ _ Hl)) as He. pose proof (λ o, settled_later w w' t r o Hl) as Hs.
  destruct th; cbn; auto; try (destruct k; auto; destruct o; by auto).
  intros [? ?]. split; [done|]. eapply owned_later; [apply Hl|done].
Qed.

(** Every effect moves the lease heap along. *)
Ltac effect H :=
  unfold fails, goes, manages, leases_to in H;
  repeat (case_match; try discriminate H); try discriminate H; try (injection H as <-); cbn in *.
Lemma WithDeadline_ok p d v : ok v (WithDeadline p d v).2.
Proof. apply (WithDeadline_fresh p d v). Qed.
Lemma release_held_ok h v : ok v (release_held h v).
Proof.
  destruct h; cbn; [done|apply ok_release|]. etransitivity; [apply ok_cancel|apply ok_release].
Qed.
Lemma Acquire_ok l c v : ok v (Acquire l c v).2.
Proof. apply ok_Acquire. Qed.
Lemma step_thread_ok v m t th i ef : step_thread v m t th i = Some ef → ok v (ef_lw ef).
Proof.
  intros H. destruct th; cbn in H; unfold mbind, option_bind in H; effect H;
    auto using ok_set_onEnd, ok_Revoke, ok_release, release_held_ok;
    try match goal with
    | HA : Acquire ?l ?c ?v = (_, _) |- _ => pose proof (ok_Acquire l c v) as Hok; by rewrite HA in Hok
    | HA : WithDeadline ?l ?c ?v = (_, _) |- _ => pose proof (WithDeadline_ok l c v) as Hok; by rewrite HA in Hok
    | HA : Renew ?l ?c ?g ?v = (_, _) |- _ => pose proof (ok_Renew l c g v) as Hok; by rewrite HA in Hok
    end.
  all: try done.
Qed.

(** The three shapes of a step. *)
Inductive shape (e : Event) (w w' : PWorld) : Prop :=
| shape_env ev v : e = Env ev → is_env ev = true → apply ev (lw w) = Some v → w' = set_lw v w → shape e w w'
| shape_run t i th ef : e = Run t i → threads w !! t = Some th → step_thread (lw w) (mgr w) t th i = Some ef →
    w' = perform ef (set_thread t (ef_thread ef) w) → shape e w w'
| shape_entry ef w0 : entry e w = Some (ef, w0) → w' = perform ef (spawn (ef_thread ef) w0) → shape e w w'.
Lemma papply_shape e w w' : papply e w = Some w' → shape e w w'.
Proof.
  destruct e; cbn [papply]; intros H;
    try (destruct (entry _ w) as [[ef w0]|] eqn:He; cbn in H; [|done]; injection H as <-; by apply (shape_entry _ _ _ ef w0)).
  - destruct (is_env e) eqn:He; [|done]. destruct (apply e (lw w)) as [v|] eqn:Hv; cbn in H; [|done]. injection H as <-.
    by apply (shape_env _ _ _ e v).
  - destruct (threads w !! t) as [th|] eqn:Ht; cbn in H; [|done].
    destruct (step_thread (lw w) (mgr w) t th i) as [ef|] eqn:Hs; cbn in H; [|done]. injection H as <-. by apply (shape_run _ _ _ t i th ef).
Qed.
(** An entry only moves the supervisor's side of the state. *)
Record beside (w w0 : PWorld) : Prop := {
  bs_lw : lw w0 = lw w;
  bs_mgr : mgr w0 = mgr w;
  bs_threads : threads w0 = threads w;
  bs_log : log w0 = log w;
  bs_conns : ∃ k, conns w0 = (conns w ++ k)%list;
  bs_order : in_order w0 = true → in_order w = true;
}.
Lemma beside_refl w : beside w w.
Proof. split; auto. exists []. by rewrite app_nil_r. Qed.
Lemma beside_phase p b w : beside w (to_phase p b w).
Proof. split; auto; [exists []; by rewrite app_nil_r|]. cbn. by intros [? ?]%andb_true_iff. Qed.
Lemma beside_conn l w w0 : beside w w0 → beside w (add_conn l w0).
Proof. intros [? ? ? ? [k Hk] ?]. split; auto. exists (k ++ [l])%list. cbn. by rewrite Hk, app_assoc. Qed.
#[local] Hint Resolve beside_refl beside_phase beside_conn : core.
Lemma entry_beside e w ef w0 : entry e w = Some (ef, w0) → beside w w0 ∧ ok (lw w) (ef_lw ef).
Proof.
  destruct e; cbn; intros H; try done; unfold mbind, option_bind in H.
  all: unfold start, dispatch, renew_grants, revoke_incarnation, init_factory, on_start, on_give_up, goes, fails, manages, leases_to in H.
  all: repeat (case_match; try discriminate H); unfold fails, goes, manages, leases_to in *; simplify_eq; cbn; split; auto; try done.
  all: match goal with HN : NewGrantLease ?p ?g ?o ?v = _ |- _ => pose proof (ok_NewGrantLease p g o v) as Hok; rewrite HN in Hok end.
  all: apply Hok; b2p; done.
Qed.

Lemma later_perform w w0 ef w1 : beside w w0 → ok (lw w) (ef_lw ef) → lw w1 = lw w0 → log w1 = log w0 → conns w1 = conns w0 →
  in_order w1 = in_order w0 → later w (perform ef w1).
Proof.
  intros [Hlw _ _ Hlog [k Hk] Ho] [Hm _] H1 H2 H3 H4. split; cbn; auto.
  - rewrite H2, Hlog. by eexists.
  - rewrite H3, Hk. by eexists.
  - by rewrite H4.
Qed.
Lemma papply_later e w w' : papply e w = Some w' → later w w'.
Proof.
  intros [ev v _ _ Ha ->|t i th ef _ _ Hs ->|ef w0 He ->]%papply_shape.
  - split; cbn; auto; [apply (ok_apply _ _ _ Ha)|exists []; by rewrite app_nil_r|exists []; by rewrite app_nil_r].
  - apply (later_perform w w); auto. by apply (step_thread_ok _ _ _ _ _ _ Hs).
  - destruct (entry_beside _ _ _ _ He) as [Hb Hok]. by apply (later_perform w w0).
Qed.
(** The goroutines of a step: the ones before, the one that ran or started, callbacks. *)
Lemma threads_perform ef w t th : threads (perform ef w) !! t = Some th →
  threads w !! t = Some th ∨ ∃ l, th = callback_thread l.
Proof.
  cbn. intros [Ht|[_ Ht]]%lookup_app_Some; [by left|right].
  apply list_elem_of_lookup_2, list_elem_of_In, in_map_iff in Ht as (l & <- & _). eauto.
Qed.
Lemma threads_set_lw v w t th : threads (set_lw v w) !! t = Some th → threads w !! t = Some th ∨ ∃ l, th = callback_thread l.
Proof.
  cbn. intros [Ht|[_ Ht]]%lookup_app_Some; [by left|right].
  apply list_elem_of_lookup_2, list_elem_of_In, in_map_iff in Ht as (l & <- & _). eauto.
Qed.
Lemma thread_keeps w ef t th : threads w !! t = Some th → threads (perform ef w) !! t = Some th.
Proof. cbn. intros. by apply lookup_app_l_Some. Qed.

Lemma resume_permits k : thread_permits (resume k) ⊆ then_permits k.
Proof. destruct k; cbn; set_solver. Qed.
Lemma resume_fact w t k : thread_fact w t (resume k).
Proof. by destruct k. Qed.
Lemma Acquire_permit l c v p v' : Acquire l c v = (Ok p, v') → p ∈ permits v' ∧ pm_lease p = l.
Proof.
  intros (L & v1 & _ & _ & _ & Hf & Hp & ->)%Acquire_spec. split; [|by rewrite Hp].
  cbn. set_solver.
Qed.

(** The goroutine a step goes on with. *)
Lemma run_thread_ok w t th i ef : minv w → threads w !! t = Some th → step_thread (lw w) (mgr w) t th i = Some ef →
  thread_ok (perform ef (set_thread t (ef_thread ef) w)) t (ef_thread ef).
Proof.
  intros Hinv Ht Hs. set (w' := perform ef (set_thread t (ef_thread ef) w)).
  assert (later w w') as Hlater by (apply (later_perform w w); auto; by apply (step_thread_ok _ _ _ _ _ _ Hs)).
  pose proof (thread_ok_later _ _ _ _ Hlater (mi_threads w Hinv t th Ht)) as [Hp Hf].
  pose proof (mi_mgr w Hinv) as Hm.
  assert (permits (ef_lw ef) = permits (lw w')) as Hpe by done.
  assert (log w' = (log w ++ ef_obs ef)%list) as Hle by done.
  assert (lw w' = ef_lw ef) as Hlw by done.
  clearbody w'. destruct th; cbn in Hs; unfold mbind, option_bind in Hs; effect Hs.
  all: try (split; [cbn; set_solver|cbn; by auto]).
  all: try (split; [etransitivity; [apply resume_permits|done]|apply resume_fact]).
  - apply Acquire_permit in H as [Hin Hl]. split; [cbn; rewrite Hlw; set_solver|done].
  - split; [cbn; set_solver|]. cbn. eapply owned_later; [apply Hlater|]. by apply Hm.
  - apply Acquire_permit in H as [Hin Hl]. split; [cbn; rewrite Hlw; set_solver|done].
  - split; [done|]. cbn. split; [done|]. rewrite Hle. set_solver.
  - b2p. subst. split; [done|]. destruct Hf as [? Hsent]. cbn.
    split; [done|]. split; [done|]. rewrite Hle. apply elem_of_app. right. apply list_elem_of_here.
Qed.
Lemma NewGrantLease_owned p g o v l v' : NewGrantLease p g o v = (Ok l, v') → owned v' l o.
Proof.
  unfold NewGrantLease. destruct (ValidateForRuntime g o); [cbn|done].
  destruct (replace_ok (length (leases v)) p g (mkLease [] o 0 p None None false false 0) v) as (_ & Hl & Hr).
  destruct (replace _ _ _ _ _) as [[L|e] v1]; [|done]. cbn in *. destruct Hr as (? & ? & ? & -> & _). intros [= <- <-]. eexists.
  split; [cbn; rewrite Hl, lookup_app_r, Nat.sub_diag by lia; reflexivity|reflexivity].
Qed.
Lemma entry_thread_ok e w ef w0 t : entry e w = Some (ef, w0) →
  thread_ok (perform ef (spawn (ef_thread ef) w0)) t (ef_thread ef).
Proof.
  intros He.
  destruct e; cbn in He; try done; unfold mbind, option_bind in He.
  all: unfold start, dispatch, renew_grants, revoke_incarnation, init_factory, on_start, on_give_up in He.
  all: repeat (case_match; try discriminate He); unfold fails, goes, manages, leases_to in *; simplify_eq; cbn.
  all: try (split; cbn; [set_solver|done]).
  all: split; [cbn; set_solver|cbn; by eapply NewGrantLease_owned].
Qed.

(** The manager's lease belongs to the incarnation it names. *)
Lemma mgr_ok_same v m v' m' : moves v v' → (m_grantLease m' = None ∨ m_grantLease m' = m_grantLease m ∧ m_incarnation m' = m_incarnation m) →
  mgr_ok v m → mgr_ok v' m'.
Proof. intros Hm [Hn|[Hg Hi]] Hok l Hl; [congruence|]. rewrite Hi. eapply owned_later; [exact Hm|]. apply Hok. congruence. Qed.
Lemma step_mgr_ok w t th i ef : minv w → threads w !! t = Some th → step_thread (lw w) (mgr w) t th i = Some ef →
  mgr_ok (ef_lw ef) (ef_mgr ef).
Proof.
  intros Hinv Ht Hs. pose proof (step_thread_ok _ _ _ _ _ _ Hs) as [Hmv _]. pose proof (mi_threads w Hinv t th Ht) as [_ Hf].
  pose proof (mi_mgr w Hinv) as Hm. revert Hmv.
  destruct th; cbn in Hs; unfold mbind, option_bind in Hs; effect Hs; intros Hmv.
  all: try (eapply mgr_ok_same; [exact Hmv| |exact Hm]; cbn; by auto).
  intros l' [= <-]. cbn. by eapply owned_later.
Qed.
Lemma entry_mgr_ok e w ef w0 : minv w → entry e w = Some (ef, w0) → mgr_ok (ef_lw ef) (ef_mgr ef).
Proof.
  intros Hinv He. destruct (entry_beside _ _ _ _ He) as [_ [Hmv _]]. eapply mgr_ok_same; [exact Hmv| |by apply mi_mgr]. clear Hmv Hinv.
  destruct e; cbn in He; try done; unfold mbind, option_bind in He.
  all: unfold start, dispatch, renew_grants, revoke_incarnation, init_factory, on_start, on_give_up in He.
  all: repeat (case_match; try discriminate He); unfold fails, goes, manages, leases_to in *; simplify_eq; cbn; auto.
Qed.

(** What is seen is right when it is seen. *)
Lemma run_obs_ok w t th i ef o : minv w → threads w !! t = Some th → step_thread (lw w) (mgr w) t th i = Some ef → o ∈ ef_obs ef →
  obs_ok (perform ef (set_thread t (ef_thread ef) w)) o.
Proof.
  intros Hinv Ht Hs. set (w' := perform ef (set_thread t (ef_thread ef) w)).
  assert (later w w') as Hlater by (apply (later_perform w w); auto; by apply (step_thread_ok _ _ _ _ _ _ Hs)).
  pose proof (thread_ok_later _ _ _ _ Hlater (mi_threads w Hinv t th Ht)) as [Hp Hf].
  pose proof (mi_mgr w Hinv) as Hm. pose proof (λ l o, owned_later (lw w) (lw w') l o (lt_lw _ _ Hlater)) as Hown.
  clearbody w'. destruct th; cbn in Hs; unfold mbind, option_bind in Hs; effect Hs; unfold unload_seen, disconnect_seen;
    repeat match goal with |- context [if ?b then _ else _] => destruct b end; intros Ho.
  all: try (exfalso; set_solver).
  all: repeat (apply elem_of_cons in Ho as [->|Ho]); try (exfalso; set_solver); cbn; auto.
  - split; [set_solver|]. split; [done|]. intros x ->. apply Hown. b2p. cbn in *. b2p. subst x.
    apply Hm. unfold holds in *. b2p. done.
  - destruct Hf as (? & ? & ?). eauto 6.
Qed.
Lemma entry_obs_ok e w ef w0 o : minv w → entry e w = Some (ef, w0) → o ∈ ef_obs ef →
  obs_ok (perform ef (spawn (ef_thread ef) w0)) o.
Proof.
  intros Hinv He. pose proof (mi_mgr w Hinv) as Hm.
  destruct e; cbn in He; try done; unfold mbind, option_bind in He.
  all: unfold start, dispatch, renew_grants, revoke_incarnation, init_factory, on_start, on_give_up in He.
  all: repeat (case_match; try discriminate He); unfold fails, goes, manages, leases_to, unload_seen in *; simplify_eq; cbn;
    repeat match goal with |- context [if ?b then _ else _] => destruct b end; intros Ho.
  all: repeat (apply elem_of_cons in Ho as [->|Ho]); try by apply elem_of_nil in Ho.
  all: cbn; try done. b2p. subst. by apply Hm.
Qed.

Lemma Revoke_ends v l o : owned v l o → ended (Revoke l v) l.
Proof.
  intros (L & Hl & _). unfold Revoke. rewrite Hl. destruct (gl_ended L) eqn:He; [by exists L|]. by apply ends_ended.
Qed.
(** A renewal that was sent goes on to commit or to end its lease. *)
Lemma run_after_send w t th i ef r : minv w → threads w !! t = Some th → step_thread (lw w) (mgr w) t th i = Some ef →
  after_send w t r th → after_send (perform ef (set_thread t (ef_thread ef) w)) t r (ef_thread ef).
Proof.
  intros Hinv Ht Hs Ha. set (w' := perform ef (set_thread t (ef_thread ef) w)).
  assert (later w w') as Hlater by (apply (later_perform w w); auto; by apply (step_thread_ok _ _ _ _ _ _ Hs)).
  pose proof (mi_threads w Hinv t th Ht) as [_ Hf].
  pose proof Ha as Hthen. apply (after_send_later _ _ _ _ _ Hlater) in Ha.
  assert (log w' = (log w ++ ef_obs ef)%list) as Hle by done. assert (lw w' = ef_lw ef) as Hlw by done.
  pose proof (λ l o, owned_later (lw w) (lw w') l o (lt_lw _ _ Hlater)) as Hown.
  clearbody w'. destruct th; cbn in Hs; unfold mbind, option_bind in Hs; effect Hs; cbn in Ha; try done.
  all: try (destruct k as [| | |? ? [| |]]; by cbn in Ha).
  all: try (subst; split; [done|]; apply Hown; tauto).
  - subst. rewrite Hle. apply elem_of_app. right. apply list_elem_of_here.
  - cbn in Hthen. destruct Hthen as [-> Ho]. rewrite Hlw. by eapply Revoke_ends.
Qed.
Lemma new_send v m t th i ef t' r seq : step_thread v m t th i = Some ef → ORenewSent t' r seq ∈ ef_obs ef →
  t' = t ∧ ∃ p call, ef_thread ef = Renew5 r p call seq.
Proof.
  intros Hs. destruct th; cbn in Hs; unfold mbind, option_bind in Hs; effect Hs; unfold unload_seen, disconnect_seen;
    repeat match goal with |- context [if ?b then _ else _] => destruct b end; intros Ho.
  all: repeat (apply elem_of_cons in Ho as [Ho|Ho]; [simplify_eq; eauto|]); by apply elem_of_nil in Ho.
Qed.
Lemma entry_no_send e w ef w0 t r seq : entry e w = Some (ef, w0) → ORenewSent t r seq ∉ ef_obs ef.
Proof.
  intros He. destruct e; cbn in He; try done; unfold mbind, option_bind in He.
  all: unfold start, dispatch, renew_grants, revoke_incarnation, init_factory, on_start, on_give_up in He.
  all: repeat (case_match; try discriminate He); unfold fails, goes, manages, leases_to, unload_seen in *; simplify_eq; cbn;
    repeat match goal with |- context [if ?b then _ else _] => destruct b end; intros Ho.
  all: repeat (apply elem_of_cons in Ho as [Ho|Ho]; [done|]); by apply elem_of_nil in Ho.
Qed.

Lemma callback_thread_ok w t l : thread_ok w t (callback_thread l).
Proof. split; [cbn; set_solver|done]. Qed.
Lemma minv_apply e w w' : papply e w = Some w' → minv w → minv w'.
Proof.
  intros Hp Hinv. pose proof (papply_later e w w' Hp) as Hlater. pose proof Hinv as [h1 h2 h3 h4 h5].
  destruct (papply_shape _ _ _ Hp) as [ev v -> _ Ha ->|t i th ef -> Ht Hs ->|ef w0 He ->].
  - split; cbn.
    + by apply (ok_apply _ _ _ Ha).
    + intros t th [Hth|[l ->]]%threads_set_lw; [eapply thread_ok_later; eauto|apply callback_thread_ok].
    + eapply mgr_ok_same; [apply Hlater|by right|done].
    + intros o Ho. eapply obs_ok_later; eauto.
    + intros t r seq Ho. destruct (h5 t r seq Ho) as (th & Hth & Has). exists th. split; [by apply lookup_app_l_Some|].
      by eapply after_send_later.
  - split.
    + by apply (step_thread_ok _ _ _ _ _ _ Hs).
    + intros t' th' [Hth|[l ->]]%threads_perform; [|apply callback_thread_ok].
      apply list_lookup_insert_Some in Hth as [(<- & <- & _)|[_ Hth]]; [by eapply run_thread_ok|eapply thread_ok_later; eauto].
    + by eapply step_mgr_ok.
    + intros o [Ho|Ho]%elem_of_app; [eapply obs_ok_later; eauto|by eapply run_obs_ok].
    + assert (threads (perform ef (set_thread t (ef_thread ef) w)) !! t = Some (ef_thread ef)) as Hself.
      { apply thread_keeps. cbn. by rewrite list_lookup_insert_eq by eauto using lookup_lt_Some. }
      intros t' r seq [Ho|Ho]%elem_of_app.
      * destruct (h5 t' r seq Ho) as (th' & Hth & Has). destruct (decide (t' = t)) as [->|Hne].
        { rewrite Ht in Hth. injection Hth as <-. exists (ef_thread ef). split; [done|]. by eapply run_after_send. }
        exists th'. split; [apply thread_keeps; cbn; by rewrite list_lookup_insert_ne|by eapply after_send_later].
      * destruct (new_send _ _ _ _ _ _ _ _ _ Hs Ho) as (-> & p & call & Hr). exists (ef_thread ef). split; [done|]. by rewrite Hr.
  - destruct (entry_beside _ _ _ _ He) as [[Hlw Hmg Hth0 Hlog _ _] [_ Hwf]]. split.
    + by apply Hwf.
    + intros t' th' [Hth|[l ->]]%threads_perform; [|apply callback_thread_ok].
      cbn in Hth. rewrite Hth0 in Hth. apply lookup_app_Some in Hth as [Hth|[_ [_ <-]%list_lookup_singleton_Some]].
      * eapply thread_ok_later; eauto.
      * by eapply entry_thread_ok.
    + by eapply entry_mgr_ok.
    + intros o Ho. cbn in Ho. rewrite Hlog in Ho. apply elem_of_app in Ho as [Ho|Ho]; [eapply obs_ok_later; eauto|by eapply entry_obs_ok].
    + intros t r seq Ho. cbn in Ho. rewrite Hlog in Ho. apply elem_of_app in Ho as [Ho|Ho].
      * destruct (h5 t r seq Ho) as (th & Hth & Has). exists th. split; [|by eapply after_send_later].
        apply thread_keeps. cbn. rewrite Hth0. by apply lookup_app_l_Some.
      * by apply (entry_no_send _ _ _ _ t r seq He) in Ho.
Qed.
Lemma preachable_minv w : preachable w → minv w.
Proof.
  intros (v & evs & Hv & _ & _ & Hrun). refine (steps_invariant pstep minv _ _ _ _ Hrun _).
  - intros a l b Hs. by apply minv_apply with l.
  - split; cbn; [by apply reachable_wf|done|done|by intros ? ?%elem_of_nil|by intros ? ? ? ?%elem_of_nil].
Qed.

(** ** The lease heap under a manager *)

Lemma steps_one v e v' : apply e v = Some v' → ∃ evs, steps step v evs v'.
Proof. intros H. exists [e]. eapply steps_cons; [exact H|constructor]. Qed.
Lemma steps_none v : ∃ evs, steps step v evs v.
Proof. exists []. constructor. Qed.
Lemma steps_release p v : p ∈ permits v → ∃ evs, steps step v evs (release p v).
Proof. intros [i Hi]%list_elem_of_lookup_1. apply (steps_one v (DoRelease i)). cbn. by rewrite Hi. Qed.
Lemma steps_held h v : held_permits h ⊆ permits v → ∃ evs, steps step v evs (release_held h v).
Proof.
  intros Hp. destruct h as [|p|p call]; cbn in *; [apply steps_none|apply steps_release; set_solver|].
  destruct (steps_release p (cancel call v)) as [evs Hs]; [cbn; set_solver|]. exists (CancelContext call :: evs).
  eapply steps_cons; [|exact Hs]. done.
Qed.
#[local] Hint Resolve steps_none : core.
Lemma step_thread_leases w t th i ef : minv w → threads w !! t = Some th → step_thread (lw w) (mgr w) t th i = Some ef →
  ∃ evs, steps step (lw w) evs (ef_lw ef).
Proof.
  intros Hinv Ht Hs. pose proof (mi_threads w Hinv t th Ht) as [Hp _].
  destruct th; cbn in Hs; unfold mbind, option_bind in Hs; effect Hs; auto.
  all: try by apply (steps_one _ (DoRevoke l)).
  all: try by apply (steps_one _ (SetOnEnd false l)).
  all: try by apply (steps_one _ (SetOnEnd true l)).
  all: try by (apply steps_release; set_solver).
  all: try by apply steps_held.
  all: match goal with
    | HA : Acquire ?l ?c ?v = (_, _) |- _ => apply (steps_one _ (DoAcquire l c)); cbn; by rewrite HA
    | HA : WithDeadline ?p ?d ?v = (_, _) |- _ => apply (steps_one _ (NewContext (Some p) (Some d))); cbn; by rewrite HA
    | HA : Renew ?l ?c ?g ?v = (_, _) |- _ => apply (steps_one _ (DoRenew l c g)); cbn; by rewrite HA
    end.
Qed.
Lemma entry_leases e w ef w0 : entry e w = Some (ef, w0) → ∃ evs, steps step (lw w) evs (ef_lw ef).
Proof.
  intros He. destruct e; cbn in He; try done; unfold mbind, option_bind in He.
  all: unfold start, dispatch, renew_grants, revoke_incarnation, init_factory, on_start, on_give_up in He.
  all: repeat (case_match; try discriminate He); unfold fails, goes, manages, leases_to in *; simplify_eq; cbn; auto.
  all: match goal with
    | HN : NewGrantLease ?p ?g ?o ?v = (_, _), HG : _ && _ = true |- _ =>
        apply (steps_one _ (New p g o)); cbn; apply andb_true_iff in HG as [_ ->]; by rewrite HN
    end.
Qed.
Lemma papply_leases e w w' : minv w → papply e w = Some w' → ∃ evs, steps step (lw w) evs (lw w').
Proof.
  intros Hinv [ev v _ _ Ha ->|t i th ef _ Ht Hs ->|ef w0 He ->]%papply_shape.
  - by apply (steps_one _ ev).
  - by eapply step_thread_leases.
  - by eapply entry_leases.
Qed.
Lemma steps_app v evs1 v1 evs2 v2 : steps step v evs1 v1 → steps step v1 evs2 v2 → steps step v (evs1 ++ evs2)%list v2.
Proof. induction 1; cbn; eauto using steps_cons. Qed.
Lemma run_leases w evs w' : minv w → steps pstep w evs w' → ∃ levs, steps step (lw w) levs (lw w').
Proof.
  intros Hinv Hrun. induction Hrun as [w|w e w1 evs w2 Hs _ IH]; [auto|].
  destruct (papply_leases _ _ _ Hinv Hs) as [levs Hl]. destruct IH as [levs' Hl']; [by eapply minv_apply|].
  exists (levs ++ levs')%list. by eapply steps_app.
Qed.
Lemma preachable_leases w : preachable w → reachable (lw w).
Proof.
  intros (v & evs & (t & levs & Hv) & Hc & Hb & Hrun). destruct (run_leases (initial v) evs w) as [levs' Hl]; [|done|].
  - apply preachable_minv. exists v, []. split; [by exists t, levs|]. split; [done|]. split; [done|constructor].
  - exists t, (levs ++ levs')%list. by eapply steps_app.
Qed.

(** ** Callbacks in order *)

(** The lease a goroutine holds [renewing] for, and the renewal it has not sent yet. *)
Definition then_renewal (k : Then) : option nat := match k with ThenRenewEnd l _ _ => Some l | _ => None end.
Definition in_renewal (th : Thread) : option nat :=
  match th with
  | Renew1 r | Renew2 r | Renew3 r _ | RenewBudget r _ _ | Renew4 r _ _ | Renew5 r _ _ _ | Renew6 r _ _ _ | Renew7 r _ _ _
  | Renew8 r _ _ _ => Some (rn_lease r)
  | Fence0 l _ _ | RenewEnd l _ _ | RenewClear l _ => Some l
  | EndLease0 _ k | EndLease1 _ k | EndLease2 _ k | Stop0 _ k | Stop1 _ k | Stop2 _ k | Stop3 k | Stop4 k => then_renewal k
  | _ => None
  end.
Definition unsent (th : Thread) : option Renewal :=
  match th with Renew1 r | Renew2 r | Renew3 r _ | RenewBudget r _ _ | Renew4 r _ _ => Some r | _ => None end.
Definition init_lease (th : Thread) : option nat :=
  match th with Init0 _ l _ | Init1 _ l _ | Init2 _ l _ => Some l | _ => None end.

(** How a step changes what the renewals depend on. *)
Definition same_core (m m' : Manager) : Prop :=
  m_grantLease m' = m_grantLease m ∧ m_connection m' = m_connection m ∧
  m_renewalSequence m' = m_renewalSequence m ∧ m_renewing m' = m_renewing m.
Inductive core_step (m : Manager) : Thread → Effect → Prop :=
| core_same th ef : same_core m (ef_mgr ef) → in_renewal (ef_thread ef) = in_renewal th →
    (∀ r, unsent (ef_thread ef) = Some r → unsent th = Some r) → (∀ r, unsent (ef_thread ef) = Some r → in_renewal th = Some (rn_lease r)) →
    (∀ l, init_lease (ef_thread ef) = Some l → init_lease th = Some l) → core_step m th ef
| core_unbound th ef : m_grantLease (ef_mgr ef) = None → m_connection (ef_mgr ef) = None →
    m_renewalSequence (ef_mgr ef) = m_renewalSequence m → in_renewal (ef_thread ef) = in_renewal th →
    unsent (ef_thread ef) = None → init_lease (ef_thread ef) = None → core_step m th ef
| core_bound c l o ef : ef_mgr ef = bound l o m → ef_thread ef = Finished Returned → core_step m (Init2 c l o) ef
| core_begin c next r ef : m_renewing m = None → m_grantLease m = Some (rn_lease r) → m_connection m = Some (rn_conn r) →
    m_renewalSequence m < MaxSafeInteger → ef_mgr ef = set_renewing (Some (rn_lease r)) m → ef_thread ef = Renew1 r →
    core_step m (Renew0 c next) ef
| core_clear l o ef : ef_mgr ef = (if bool_decide (m_renewing m = Some l) then set_renewing None m else m) →
    ef_thread ef = Finished o → core_step m (RenewClear l o) ef.
(** The one step that sends a renewal. *)
Inductive sends (m : Manager) (t : nat) : Thread → Effect → Prop :=
| sends_renewal r p call ef : renewal_current m r = true → ef_mgr ef = set_sequence ((m_renewalSequence m + 1) mod 2 ^ 64) m →
    ef_thread ef = Renew5 r p call ((m_renewalSequence m + 1) mod 2 ^ 64) →
    ef_obs ef = [ORenewSent t r ((m_renewalSequence m + 1) mod 2 ^ 64)] → sends m t (Renew4 r p call) ef.
Lemma resume_core k : in_renewal (resume k) = then_renewal k ∧ unsent (resume k) = None ∧ init_lease (resume k) = None.
Proof. by destruct k. Qed.
Lemma step_core v m t th i ef : step_thread v m t th i = Some ef →
  core_step m th ef ∧ (∀ t' r seq, ORenewSent t' r seq ∉ ef_obs ef) ∨ sends m t th ef.
Proof.
  intros Hs. destruct th; cbn in Hs; unfold mbind, option_bind in Hs; effect Hs; unfold unload_seen, disconnect_seen.
  all: try (left; split; [|repeat match goal with |- context [if ?b then _ else _] => destruct b end; intros t' r' seq' Ho;
    repeat (apply elem_of_cons in Ho as [Ho|Ho]; [done|]); by apply elem_of_nil in Ho]).
  all: try match goal with |- context [resume ?k] => destruct (resume_core k) as (? & ? & ?) end.
  all: try (apply core_same; cbn; [by repeat split|congruence|..]; intros; simplify_eq; cbn; (done || congruence)).
  all: try (apply core_unbound; cbn; (done || congruence)).
  - by apply (core_bound _ c l owner).
  - b2p. apply (core_begin _ c next (mkRenewal c n n0 (m_incarnation m) next)); cbn; try done.
    by apply eq_None_not_Some.
  - right. b2p. by apply sends_renewal.
  - apply core_clear; cbn; [|done]. by rewrite H.
  - apply core_clear; cbn; [|done]. by rewrite H.
Qed.

(** The same for the calls, which also move the supervisor's side. *)
Inductive entry_core (e : Event) (w : PWorld) (ef : Effect) : PWorld → Prop :=
| entry_plain : same_core (mgr w) (ef_mgr ef) → init_lease (ef_thread ef) = None → entry_core e w ef w
| entry_init c g i : e = InitFactory c g i → same_core (mgr w) (ef_mgr ef) →
    (∀ l, init_lease (ef_thread ef) = Some l → leases (lw w) !! l = None) →
    entry_core e w ef (to_phase (PInit (length (threads w))) (callback_done w) w)
| entry_unconnected b f : e = OnStart b f → same_core (mgr w) (ef_mgr ef) → ef_thread ef = Finished Returned →
    entry_core e w ef (to_phase PUp (start_due w) w)
| entry_connected b f l : e = OnStart b f → m_grantLease (mgr w) = Some l → ef_mgr ef = connected (length (conns w)) f (mgr w) →
    ef_lw ef = lw w → ef_thread ef = Finished Returned →
    entry_core e w ef (add_conn l (to_phase PUp (start_due w) w))
| entry_exit : e = OnExit → same_core (mgr w) (ef_mgr ef) → ef_thread ef = Exit0 →
    entry_core e w ef (to_phase (PExit (length (threads w))) (exit_due w) w).
Lemma NewGrantLease_fresh p g o v l v' : NewGrantLease p g o v = (Ok l, v') → leases v !! l = None.
Proof.
  unfold NewGrantLease. destruct (ValidateForRuntime g o); [cbn|done].
  destruct (replace _ _ _ _ _) as [[L|e] v1]; [|done]. intros [= <- _]. apply lookup_ge_None. done.
Qed.
Lemma entry_core_spec e w ef w0 : entry e w = Some (ef, w0) →
  entry_core e w ef w0 ∧ in_renewal (ef_thread ef) = None ∧ unsent (ef_thread ef) = None.
Proof.
  intros He. destruct e; cbn in He; try done; unfold mbind, option_bind in He.
  all: unfold start, dispatch, renew_grants, revoke_incarnation, init_factory, on_start, on_give_up, connects in He.
  all: unfold mbind, option_bind in He.
  all: repeat (case_match; try discriminate He); unfold fails, goes, manages, leases_to in *; simplify_eq; cbn; split; try done.
  all: try by (apply entry_plain; [repeat split|done]).
  all: try by (eapply entry_init; [done|repeat split|done]).
  all: try by (eapply entry_unconnected; [done|repeat split|done]).
  all: try by (eapply entry_connected; try done).
  all: try by (apply entry_exit; [done|repeat split|done]).
  all: try (eapply entry_init; [done|repeat split|intros ? [= <-]; by eapply NewGrantLease_fresh]).
Qed.

(** The sequences of the renewals sent on a connection, in order. *)
Definition sequences (c : nat) (os : list Obs) : list Z :=
  omap (λ o, match o with ORenewSent _ r s => if bool_decide (rn_conn r = c) then Some s else None | _ => None end) os.
Definition count_up (n : nat) : list Z := Z.of_nat <$> seq 1 n.
Lemma count_up_S n : count_up (S n) = (count_up n ++ [Z.of_nat n + 1])%list.
Proof. unfold count_up. rewrite seq_S, fmap_app. cbn. do 2 f_equal. lia. Qed.
Lemma sequences_app c os os' : sequences c (os ++ os') = (sequences c os ++ sequences c os')%list.
Proof. apply omap_app. Qed.
Lemma sequences_none c os : (∀ t r s, ORenewSent t r s ∈ os → rn_conn r ≠ c) → sequences c os = [].
Proof.
  induction os as [|o os IH]; intros Hno; [done|]. unfold sequences in *. cbn.
  assert (∀ t r s, ORenewSent t r s ∈ os → rn_conn r ≠ c) as Hos by (intros t r s Hi; apply (Hno t r s), elem_of_cons; by right).
  destruct o; try (by apply IH). rewrite bool_decide_eq_false_2; [by apply IH|]. eapply Hno. apply elem_of_cons. by left.
Qed.
Lemma sequences_elem c os s : s ∈ sequences c os → ∃ t r, ORenewSent t r s ∈ os ∧ rn_conn r = c.
Proof.
  unfold sequences. intros (o & Ho & Hs)%list_elem_of_omap. destruct o; try done. case_bool_decide; [|done]. injection Hs as ->. eauto.
Qed.

(** What holds as long as the supervisor calls back in order. *)
Record ordered (w : PWorld) : Prop := {
  od_conn : ∀ c l, m_connection (mgr w) = Some c → m_grantLease (mgr w) = Some l → conns w !! c = Some l;
  od_known : (∀ l, l ∈ conns w → is_Some (leases (lw w) !! l)) ∧
    ∀ c, m_connection (mgr w) = Some c → (c < length (conns w))%nat;
  od_phase : match phase w with
    | PIdle | PInit _ => m_connection (mgr w) = None ∧ ∀ l, m_grantLease (mgr w) = Some l → l ∉ conns w
    | PUp => True
    | PExit t => m_connection (mgr w) = None ∧ m_grantLease (mgr w) = None ∨
        ∃ th, threads w !! t = Some th ∧ (th = Exit0 ∨ th = EndLease0 true ThenExit)
    end;
  od_init : ∀ t th l, threads w !! t = Some th → init_lease th = Some l → phase w = PInit t ∧ l ∉ conns w;
  od_started : ∀ t th l, threads w !! t = Some th → in_renewal th = Some l → l ∈ conns w;
  od_unsent : ∀ t th r, threads w !! t = Some th → unsent th = Some r → in_renewal th = Some (rn_lease r);
  od_one : ∀ t th l, threads w !! t = Some th → in_renewal th = Some l → m_grantLease (mgr w) = Some l →
    m_renewing (mgr w) = Some l ∧ ∀ t' th', threads w !! t' = Some th' → in_renewal th' = Some l → t' = t;
  od_room : ∀ t th r, threads w !! t = Some th → unsent th = Some r → m_grantLease (mgr w) = Some (rn_lease r) →
    m_renewalSequence (mgr w) < MaxSafeInteger;
  od_range : 0 ≤ m_renewalSequence (mgr w) ≤ MaxSafeInteger;
  od_sent : ∀ t r s, ORenewSent t r s ∈ log w → 1 ≤ s ≤ MaxSafeInteger ∧ (rn_conn r < length (conns w))%nat ∧
    (m_connection (mgr w) = Some (rn_conn r) → s ≤ m_renewalSequence (mgr w));
  od_exact : ∀ c, ∃ n, sequences c (log w) = count_up n ∧
    (m_connection (mgr w) = Some c → Z.of_nat n = m_renewalSequence (mgr w));
  od_dispatched : ∀ conn l e p, ODispatched conn l e p ∈ log w → conns w !! conn = Some l;
}.

Lemma ordered_set_lw v w : moves (lw w) v → ordered w → ordered (set_lw v w).
Proof.
  intros Hm [h1 [h2 h2'] h3 h4 h5 h6 h7 h8 h9 h10 h11 h12].
  assert (∀ t th, threads (set_lw v w) !! t = Some th → threads w !! t = Some th ∨
    (in_renewal th = None ∧ unsent th = None ∧ init_lease th = None)) as Hview.
  { intros t th [Ht|[l ->]]%threads_set_lw; auto. }
  split; cbn in h1, h2, h2', h3, h9, h10, h11, h12 |- *; auto.
  - split; [|done]. intros l [L Hl]%h2. destruct (mv_leases _ _ Hm l L Hl) as (L' & ? & _). by exists L'.
  - destruct (phase w); auto. destruct h3 as [?|(th & ? & ?)]; [by left|right]. exists th. split; [by apply lookup_app_l_Some|done].
  - intros t th l [Ht|(? & ? & ?)]%Hview Hi; [by eapply h4|congruence].
  - intros t th l [Ht|(? & ? & ?)]%Hview Hi; [by eapply h5|congruence].
  - intros t th r [Ht|(? & ? & ?)]%Hview Hi; [by eapply h6|congruence].
  - intros t th l [Ht|(? & ? & ?)]%Hview Hi Hg; [|congruence]. destruct (h7 t th l Ht Hi Hg) as [Hr Hone]. split; [done|].
    intros t' th' [Ht'|(? & ? & ?)]%Hview Hi'; [by eapply Hone|congruence].
  - intros t th r [Ht|(? & ? & ?)]%Hview Hu Hg; [by eapply h8|congruence].
Qed.
Lemma ordered_observe os w : (∀ t r s, ORenewSent t r s ∉ os) →
  (∀ conn l e p, ODispatched conn l e p ∈ os → conns w !! conn = Some l) → ordered w → ordered (observe os w).
Proof.
  intros Hno Hdis [h1 h2 h3 h4 h5 h6 h7 h8 h9 h10 h11 h12]. split; auto.
  - intros t r s [Ho|Ho]%elem_of_app; [by eapply h10|by apply Hno in Ho].
  - intros c. destruct (h11 c) as (n & Hn & Hc). exists n. split; [|done].
    change (log (observe os w)) with (log w ++ os)%list. rewrite sequences_app, Hn.
    rewrite (sequences_none c os), app_nil_r; [done|]. intros t r s0 Ho. by apply Hno in Ho.
  - intros conn l e p [Ho|Ho]%elem_of_app; [by eapply h12|by eapply Hdis].
Qed.

Section Step.
Context (w : PWorld) (t : nat) (th th' : Thread) (m' : Manager).
Context (Hw : ordered w) (Ht : threads w !! t = Some th).
Let X : PWorld := set_mgr m' (set_thread t th' w).

Lemma view_threads t' th0 : threads X !! t' = Some th0 → (t' = t ∧ th0 = th') ∨ (t' ≠ t ∧ threads w !! t' = Some th0).
Proof. cbn. intros [(<- & <- & _)|[? ?]]%list_lookup_insert_Some; auto. Qed.
(** The goroutine of [OnExit] on its way to forget the connection. *)
Definition exit_goes : Prop := (th = Exit0 → th' = EndLease0 true ThenExit) ∧
  (th = EndLease0 true ThenExit → m_connection m' = None ∧ m_grantLease m' = None).
Lemma exit_phase p : exit_goes → phase w = PExit p → (m_connection (mgr w) = None → m_connection m' = None) →
  (m_grantLease (mgr w) = None → m_grantLease m' = None) →
  m_connection m' = None ∧ m_grantLease m' = None ∨
    ∃ th, threads X !! p = Some th ∧ (th = Exit0 ∨ th = EndLease0 true ThenExit).
Proof using Hw Ht.
  intros [He1 He2] Hp Hc Hg. pose proof (od_phase w Hw) as Hph. rewrite Hp in Hph. destruct Hph as [[? ?]|(th1 & Hth1 & Hor)]; [auto|].
  destruct (decide (p = t)) as [->|Hne].
  - rewrite Ht in Hth1. injection Hth1 as <-. destruct Hor as [->| ->]; [|auto]. right. exists (EndLease0 true ThenExit).
    cbn. rewrite list_lookup_insert_eq by eauto using lookup_lt_Some. split; [by rewrite He1|auto].
  - right. exists th1. cbn. rewrite list_lookup_insert_ne by done. auto.
Qed.

Lemma ordered_same : same_core (mgr w) m' → exit_goes → in_renewal th' = in_renewal th →
  (∀ r, unsent th' = Some r → unsent th = Some r) → (∀ r, unsent th' = Some r → in_renewal th = Some (rn_lease r)) →
  (∀ l, init_lease th' = Some l → init_lease th = Some l) → ordered X.
Proof using Hw Ht.
  intros (Eg & Ec & Es & Er) Hexit Hin Hun Hun' Hinit. pose proof Hw as [h1 h2 h3 h4 h5 h6 h7 h8 h9 h10 h11 h12].
  split; cbn [mgr set_mgr set_thread X]; rewrite ?Eg, ?Ec, ?Es, ?Er; auto.
  - destruct (phase w) eqn:Hp; cbn; rewrite Hp; auto. rewrite <- Ec, <- Eg. by apply (exit_phase t0); [| |rewrite Ec|rewrite Eg].
  - intros t' th0 l [[-> ->]|[Hne Hth]]%view_threads Hi; [by eapply h4; [|apply Hinit]|by eapply h4].
  - intros t' th0 l [[-> ->]|[Hne Hth]]%view_threads Hi; [eapply h5; [done|by rewrite <- Hin]|by eapply h5].
  - intros t' th0 r [[-> ->]|[Hne Hth]]%view_threads Hi; [rewrite Hin; auto|by eapply h6].
  - assert (∀ t1 th1 l, threads X !! t1 = Some th1 → in_renewal th1 = Some l → ∃ th2, threads w !! t1 = Some th2 ∧ in_renewal th2 = Some l) as Hback.
    { intros t1 th1 l [[-> ->]|[Hne Hth]]%view_threads Hi; [exists th; by rewrite <- Hin|eauto]. }
    intros t1 th1 l H1 Hi1 Hg. destruct (Hback t1 th1 l H1 Hi1) as (th2 & H2 & Hi2). destruct (h7 t1 th2 l H2 Hi2 Hg) as [Hr Hone].
    split; [done|]. intros t' th0 H3 Hi3. destruct (Hback t' th0 l H3 Hi3) as (th4 & H4 & Hi4). by eapply Hone.
  - intros t' th0 r [[-> ->]|[Hne Hth]]%view_threads Hu Hg; [by eapply h8; [| apply Hun|]|by eapply h8].
Qed.
Lemma ordered_unbound : m_grantLease m' = None → m_connection m' = None → m_renewalSequence m' = m_renewalSequence (mgr w) →
  exit_goes → in_renewal th' = in_renewal th → unsent th' = None → init_lease th' = None → ordered X.
Proof using Hw Ht.
  intros Eg Ec Es Hexit Hin Hun Hinit. pose proof Hw as [h1 [h2 h2'] h3 h4 h5 h6 h7 h8 h9 h10 h11 h12].
  split; cbn [mgr set_mgr set_thread X]; rewrite ?Eg, ?Ec, ?Es; try done.
  - cbn. destruct (phase w); [by split|by split|done|by left].
  - intros t' th0 l [[-> ->]|[Hne Hth]]%view_threads Hi; [congruence|by eapply h4].
  - intros t' th0 l [[-> ->]|[Hne Hth]]%view_threads Hi; [eapply h5; [done|by rewrite <- Hin]|by eapply h5].
  - intros t' th0 r [[-> ->]|[Hne Hth]]%view_threads Hi; [congruence|by eapply h6].
  - intros t' r s Ho. destruct (h10 t' r s Ho) as (? & ? & ?). done.
  - intros c. destruct (h11 c) as (n & Hn & _). by exists n.
Qed.
Lemma ordered_bound c l o : th = Init2 c l o → m' = bound l o (mgr w) → th' = Finished Returned → ordered X.
Proof using Hw Ht.
  pose proof view_threads as Hview.
  intros -> -> ->. pose proof Hw as [h1 [h2 h2'] h3 h4 h5 h6 h7 h8 h9 h10 h11 h12].
  destruct (h4 t _ l Ht eq_refl) as [Hp Hl]. rewrite Hp in h3. destruct h3 as [Hc Hg].
  assert (∀ t1 th1 k, threads X !! t1 = Some th1 → in_renewal th1 = Some k → threads w !! t1 = Some th1) as Hback.
  { intros t1 th1 k [[-> ->]|[Hne Hth]]%Hview Hi; done. }
  split; cbn [mgr set_mgr set_thread X bound m_grantLease m_connection m_renewalSequence m_renewing]; auto.
  - congruence.
  - cbn. rewrite Hp. split; [done|]. by intros k [= <-].
  - intros t' th0 k [[-> ->]|[Hne Hth]]%Hview Hi; [done|by eapply h4].
  - intros t1 th1 k H1 Hi. by eapply h5; [eapply Hback|].
  - intros t' th0 r [[-> ->]|[Hne Hth]]%Hview Hi; [done|by eapply h6].
  - intros t1 th1 k H1 Hi [= <-]. destruct Hl. by eapply h5; [eapply Hback|].
  - intros t1 th1 r [[-> ->]|[Hne Hth]]%Hview Hu Hk; [done|]. destruct Hl. injection Hk as ->. by eapply h5; [|eapply h6].
Qed.
Lemma ordered_begin r : m_renewing (mgr w) = None → m_grantLease (mgr w) = Some (rn_lease r) → m_connection (mgr w) = Some (rn_conn r) →
  m_renewalSequence (mgr w) < MaxSafeInteger → m' = set_renewing (Some (rn_lease r)) (mgr w) → th' = Renew1 r →
  th ≠ Exit0 → in_renewal th = None → th ≠ EndLease0 true ThenExit → ordered X.
Proof using Hw Ht.
  pose proof view_threads as Hview.
  intros Er Eg Ec Es -> -> Hx Hin Hx2. pose proof Hw as [h1 [h2 h2'] h3 h4 h5 h6 h7 h8 h9 h10 h11 h12].
  assert (∀ t1 th1, threads w !! t1 = Some th1 → in_renewal th1 = Some (rn_lease r) → False) as Hnone.
  { intros t1 th1 H1 Hi. destruct (h7 t1 th1 _ H1 Hi Eg) as [? _]. congruence. }
  split; cbn [mgr set_mgr set_thread X set_renewing m_grantLease m_connection m_renewalSequence m_renewing]; auto.
  - cbn. destruct (phase w) as [|p| |p] eqn:Hp; auto. destruct h3 as [?|(th1 & Hth1 & Hor)]; [auto|right]. exists th1.
    split; [|done]. rewrite list_lookup_insert_ne; [done|]. intros <-. rewrite Ht in Hth1. injection Hth1 as <-.
    by destruct Hor.
  - intros t' th0 k [[-> ->]|[Hne Hth]]%Hview Hi; [done|by eapply h4].
  - intros t' th0 k [[-> ->]|[Hne Hth]]%Hview Hi; [|by eapply h5].
    cbn in Hi. injection Hi as <-. eapply list_elem_of_lookup_2, h1; eauto.
  - intros t' th0 r' [[-> ->]|[Hne Hth]]%Hview Hi; [cbn in *; congruence|by eapply h6].
  - intros t1 th1 l [[-> ->]|[Hne Hth]]%Hview Hi Hg; rewrite Eg in Hg; injection Hg as <-.
    + split; [done|]. intros t2 th2 [[-> ->]|[Hne Hth]]%Hview Hi2; [done|]. by destruct (Hnone t2 th2).
    + by destruct (Hnone t1 th1).
Qed.
Lemma ordered_clear l : in_renewal th = Some l → m' = (if bool_decide (m_renewing (mgr w) = Some l) then set_renewing None (mgr w) else mgr w) →
  in_renewal th' = None → unsent th' = None → init_lease th' = None → exit_goes → ordered X.
Proof using Hw Ht.
  intros Hth0 Hm' Hin Hun Hinit Hexit. pose proof Hw as [h1 [h2 h2'] h3 h4 h5 h6 h7 h8 h9 h10 h11 h12].
  assert (m_grantLease m' = m_grantLease (mgr w) ∧ m_connection m' = m_connection (mgr w) ∧
    m_renewalSequence m' = m_renewalSequence (mgr w)) as (Eg & Ec & Es) by (rewrite Hm'; by destruct (bool_decide _)).
  split; cbn [mgr set_mgr set_thread X]; rewrite ?Eg, ?Ec, ?Es; auto.
  - destruct (phase w) eqn:Hp; cbn; rewrite Hp; auto. rewrite <- Ec, <- Eg. by apply (exit_phase t0); [| |rewrite Ec|rewrite Eg].
  - intros t' th0 k [[-> ->]|[Hne Hth]]%view_threads Hi; [congruence|by eapply h4].
  - intros t' th0 k [[-> ->]|[Hne Hth]]%view_threads Hi; [congruence|by eapply h5].
  - intros t' th0 r [[-> ->]|[Hne Hth]]%view_threads Hi; [congruence|by eapply h6].
  - intros t1 th1 k [[-> ->]|[Hne Hth]]%view_threads Hi Hg; [congruence|]. destruct (h7 t1 th1 k Hth Hi Hg) as [Hr Hone]. split.
    + rewrite Hm'. rewrite bool_decide_false; [done|]. rewrite Hr. intros [= ->]. destruct Hne. symmetry. by eapply Hone.
    + intros t2 th2 [[-> ->]|[Hne2 Hth2]]%view_threads Hi2; [congruence|by eapply Hone].
  - intros t1 th1 r [[-> ->]|[Hne Hth]]%view_threads Hu Hg; [congruence|by eapply h8].
Qed.
Lemma ordered_send r p call : 0 ≤ MaxSafeInteger < 2 ^ 64 → th = Renew4 r p call → renewal_current (mgr w) r = true →
  let s := (m_renewalSequence (mgr w) + 1) mod 2 ^ 64 in
  m' = set_sequence s (mgr w) → th' = Renew5 r p call s → ordered (observe [ORenewSent t r s] X).
Proof using Hw Ht.
  pose proof view_threads as Hview.
  intros Hmax -> Hcur. pose proof Hw as [h1 [h2 h2'] h3 h4 h5 h6 h7 h8 h9 h10 h11 h12].
  unfold renewal_current, holds in Hcur. b2p.
  assert (m_grantLease (mgr w) = Some (rn_lease r) ∧ m_connection (mgr w) = Some (rn_conn r)) as [Eg Ec] by done.
  pose proof (h8 t _ r Ht eq_refl Eg) as Hroom. cbn zeta.
  rewrite Z.mod_small by lia. set (s := m_renewalSequence (mgr w) + 1). intros -> ->.
  assert (∀ t1 th1 k, threads X !! t1 = Some th1 → in_renewal th1 = Some k →
    ∃ th2, threads w !! t1 = Some th2 ∧ in_renewal th2 = Some k) as Hback.
  { intros t1 th1 k [[-> ->]|[Hne Hth]]%Hview Hi; eauto. }
  split; cbn [mgr observe set_mgr set_thread X set_sequence m_grantLease m_connection m_renewalSequence m_renewing]; auto.
  - cbn. destruct (phase w) as [|p'| |p'] eqn:Hp; auto. destruct h3 as [?|(th1 & Hth1 & Hor)]; [auto|right]. exists th1.
    split; [|done]. rewrite list_lookup_insert_ne; [done|]. intros <-. rewrite Ht in Hth1. injection Hth1 as <-. by destruct Hor.
  - intros t' th0 k [[-> ->]|[Hne Hth]]%Hview Hi; [done|by eapply h4].
  - intros t1 th1 k HA Hi. destruct (Hback t1 th1 k HA Hi) as (th2 & ? & ?). by eapply h5.
  - intros t' th0 r' [[-> ->]|[Hne Hth]]%Hview Hi; [done|by eapply h6].
  - intros t1 th1 k HA Hi Hg. destruct (Hback t1 th1 k HA Hi) as (th2 & HB & Hi2). destruct (h7 t1 th2 k HB Hi2 Hg) as [Hr Hone].
    split; [done|]. intros t3 th3 HC Hi3. destruct (Hback t3 th3 k HC Hi3) as (th4 & HD & Hi4). by eapply Hone.
  - intros t1 th1 r' [[-> ->]|[Hne Hth]]%Hview Hu Hg; [done|]. exfalso.
    assert (rn_lease r' = rn_lease r) as Hsame by congruence.
    destruct (h7 t _ (rn_lease r) Ht eq_refl Eg) as [_ Hone]. destruct Hne. eapply Hone; [exact Hth|]. rewrite <- Hsame. by eapply h6.
  - unfold s. lia.
  - intros t1 r1 s1 [Ho|Ho]%elem_of_app.
    + destruct (h10 t1 r1 s1 Ho) as (? & ? & Hle). split; [done|]. split; [done|]. intros Hc. specialize (Hle Hc). unfold s. lia.
    + apply list_elem_of_singleton in Ho as [= -> -> ->]. split; [unfold s; lia|]. split; [by apply h2'|]. intros _. unfold s. lia.
  - intros c. destruct (h11 c) as (n & Hn & Hc).
    match goal with |- context [sequences c ?os] => change os with (log w ++ [ORenewSent t r s])%list end.
    rewrite sequences_app, Hn. unfold sequences at 1. cbn.
    destruct (decide (rn_conn r = c)) as [<-|Hne].
    + rewrite bool_decide_eq_true_2 by done. exists (S n). rewrite count_up_S, (Hc Ec). split; [done|]. unfold s. rewrite <- (Hc Ec). lia.
    + rewrite bool_decide_eq_false_2, app_nil_r by done. exists n. split; [done|]. rewrite Ec. by intros [= ?].
  - intros conn l e q [Ho|Ho]%elem_of_app; [by eapply h12|]. by apply list_elem_of_singleton in Ho.
Qed.
End Step.

Section Entry.
Context (w : PWorld) (th : Thread) (m' : Manager).
Context (Hw : ordered w) (Hin : in_renewal th = None) (Hun : unsent th = None).

Lemma spawn_view t th0 : (threads w ++ [th])%list !! t = Some th0 → threads w !! t = Some th0 ∨ (t = length (threads w) ∧ th0 = th).
Proof. intros [Ht|[Hle [Hz <-]%list_lookup_singleton_Some]]%lookup_app_Some; [by left|right; split; [lia|done]]. Qed.
(** A goroutine starts and the supervisor's side moves; [k] is a connection that is new. *)
Lemma ordered_spawn p b : same_core (mgr w) m' →
  match p with
  | PIdle | PInit _ => m_connection (mgr w) = None ∧ ∀ l, m_grantLease (mgr w) = Some l → l ∉ conns w
  | PUp => True
  | PExit t => m_connection (mgr w) = None ∧ m_grantLease (mgr w) = None ∨
      ∃ th0, (threads w ++ [th])%list !! t = Some th0 ∧ (th0 = Exit0 ∨ th0 = EndLease0 true ThenExit)
  end →
  (∀ t th0 l, (threads w ++ [th])%list !! t = Some th0 → init_lease th0 = Some l → p = PInit t ∧ l ∉ conns w) →
  ordered (set_mgr m' (spawn th (to_phase p b w))).
Proof using Hw Hin Hun.
  intros (Eg & Ec & Es & Er) Hp Hinit. pose proof Hw as [h1 [h2 h2'] h3 h4 h5 h6 h7 h8 h9 h10 h11 h12].
  split; cbn [mgr set_mgr spawn to_phase threads phase conns lw log]; rewrite ?Eg, ?Ec, ?Es, ?Er; auto.
  - intros t th0 l [Ht|[-> ->]]%spawn_view Hi; [by eapply h5|congruence].
  - intros t th0 r [Ht|[-> ->]]%spawn_view Hi; [by eapply h6|congruence].
  - intros t th0 l [Ht|[-> ->]]%spawn_view Hi Hg; [|congruence]. destruct (h7 t th0 l Ht Hi Hg) as [Hr Hone]. split; [done|].
    intros t' th1 [Ht'|[-> ->]]%spawn_view Hi'; [by eapply Hone|congruence].
  - intros t th0 r [Ht|[-> ->]]%spawn_view Hi Hg; [by eapply h8|congruence].
Qed.
Lemma no_init p t : phase w = p → (∀ t', p ≠ PInit t') ∨ finished w t = true ∧ p = PInit t →
  ∀ t' th0 l, threads w !! t' = Some th0 → init_lease th0 = Some l → False.
Proof using Hw.
  intros Hp Hor t' th0 l Ht Hi. destruct (od_init w Hw t' th0 l Ht Hi) as [Hph _]. rewrite Hp in Hph. subst p.
  destruct Hor as [Hno|[Hf Heq]]; [by destruct (Hno t')|]. rewrite Hph in Heq. injection Heq as ->.
  unfold finished in Hf. rewrite Ht in Hf. by destruct th0.
Qed.
(** The first steps of a child: its connection belongs to the lease issued to it. *)
Lemma ordered_connected f l b : 0 < MaxSafeInteger → start_due w = true → m_grantLease (mgr w) = Some l → is_Some (leases (lw w) !! l) →
  th = Finished Returned → m' = connected (length (conns w)) f (mgr w) →
  ordered (set_mgr m' (spawn th (add_conn l (to_phase PUp b w)))).
Proof using Hw Hin Hun.
  intros Hmax Hdue Hg Hl -> ->. pose proof Hw as [h1 [h2 h2'] h3 h4 h5 h6 h7 h8 h9 h10 h11 h12].
  unfold start_due in Hdue. destruct (phase w) as [|t0| |] eqn:Hp; try done. destruct h3 as [Hc Hnew].
  assert (l ∉ conns w) as Hfresh by by apply Hnew.
  assert (∀ t th0, (threads w ++ [Finished Returned])%list !! t = Some th0 → threads w !! t = Some th0 ∨ th0 = Finished Returned) as Hview.
  { intros t th0 [Ht|[_ [_ <-]%list_lookup_singleton_Some]]%lookup_app_Some; auto. }
  assert (∀ c, (c < length (conns w))%nat → (c < length (conns w ++ [l])%list)%nat) as Hlen by (intros; rewrite length_app; lia).
  assert (∀ t th0 k, threads w !! t = Some th0 → in_renewal th0 = Some k → k ≠ l) as Hother by (intros t th0 k Ht Hi ->; by apply Hfresh, (h5 t th0)).
  split; cbn [mgr set_mgr spawn add_conn to_phase threads phase conns lw log connected m_grantLease m_connection m_renewalSequence m_renewing]; auto.
  - intros c k [= <-] Hk. rewrite Hg in Hk. injection Hk as <-. by rewrite lookup_app_r, Nat.sub_diag by lia.
  - split; [|intros c [= <-]; rewrite length_app; cbn; lia]. intros k [Hk|Hk]%elem_of_app; [auto|]. by apply list_elem_of_singleton in Hk as ->.
  - intros t th0 k [Ht| ->]%Hview Hi; [|done]. exfalso. apply (no_init (PInit t0) t0 Hp (or_intror (conj Hdue eq_refl)) t th0 k Ht Hi).
  - intros t th0 k [Ht| ->]%Hview Hi; [|done]. apply elem_of_app. left. by eapply h5.
  - intros t th0 r [Ht| ->]%Hview Hi; [by eapply h6|done].
  - intros t th0 k [Ht| ->]%Hview Hi Hk; [|done]. rewrite Hg in Hk. injection Hk as <-. by destruct (Hother t th0 l Ht Hi).
  - lia.
  - intros t r s Ho. destruct (h10 t r s Ho) as (? & Hlt & _). split; [done|]. split; [by apply Hlen|]. intros [= Heq]. lia.
  - intros c. destruct (decide (c = length (conns w))) as [->|Hne].
    + exists 0%nat. rewrite sequences_none; [done|]. intros t r s Ho. destruct (h10 t r s Ho) as (_ & Hlt & _). lia.
    + destruct (h11 c) as (n & Hn & _). exists n. split; [done|]. by intros [= ?].
  - intros conn k e p Ho. apply lookup_app_l_Some. by eapply h12.
Qed.
End Entry.

Lemma to_phase_same w : to_phase (phase w) true w = w.
Proof. unfold to_phase. rewrite andb_true_r. by destruct w. Qed.
Lemma step_exit_goes v m t th i ef : step_thread v m t th i = Some ef →
  (th = Exit0 → ef_thread ef = EndLease0 true ThenExit) ∧
  (th = EndLease0 true ThenExit → m_connection (ef_mgr ef) = None ∧ m_grantLease (ef_mgr ef) = None).
Proof. intros Hs. split; intros ->; cbn in Hs; unfold goes, manages in Hs; by injection Hs as <-. Qed.

Lemma dispatch_holds v m t th i ef conn l e p : step_thread v m t th i = Some ef → ODispatched conn l e p ∈ ef_obs ef → holds m l conn = true.
Proof.
  intros Hs. destruct th; cbn in Hs; unfold mbind, option_bind in Hs; effect Hs; unfold unload_seen, disconnect_seen;
    repeat match goal with |- context [if ?b then _ else _] => destruct b end; intros Ho.
  all: repeat (apply elem_of_cons in Ho as [Ho|Ho]; [simplify_eq; b2p; done|]); by apply elem_of_nil in Ho.
Qed.
Lemma entry_no_dispatch e w ef w0 conn l x p : entry e w = Some (ef, w0) → ODispatched conn l x p ∉ ef_obs ef.
Proof.
  intros He. destruct e; cbn in He; try done; unfold mbind, option_bind in He.
  all: unfold start, dispatch, renew_grants, revoke_incarnation, init_factory, on_start, on_give_up in He.
  all: repeat (case_match; try discriminate He); unfold fails, goes, manages, leases_to, unload_seen in *; simplify_eq; cbn;
    repeat match goal with |- context [if ?b then _ else _] => destruct b end; intros Ho.
  all: repeat (apply elem_of_cons in Ho as [Ho|Ho]; [done|]); by apply elem_of_nil in Ho.
Qed.

Section Bounded.
Context (Hmax : 0 < MaxSafeInteger < 2 ^ 64).
Lemma ordered_apply e w w' : papply e w = Some w' → minv w → (in_order w = true → ordered w) → in_order w' = true → ordered w'.
Proof using Hmax.
  intros Hp Hinv Hod Ho. pose proof (lt_lw _ _ (papply_later _ _ _ Hp)) as Hm. pose proof (Hod (lt_order _ _ (papply_later _ _ _ Hp) Ho)) as Hw.
  destruct (papply_shape _ _ _ Hp) as [ev v -> _ Ha ->|t i th ef -> Ht Hs ->|ef w0 He ->].
  - by apply ordered_set_lw.
  - pose proof (step_exit_goes _ _ _ _ _ _ Hs) as Hexit.
    change (perform ef (set_thread t (ef_thread ef) w))
      with (set_lw (ef_lw ef) (observe (ef_obs ef) (set_mgr (ef_mgr ef) (set_thread t (ef_thread ef) w)))).
    apply ordered_set_lw; [done|]. destruct (step_core _ _ _ _ _ _ Hs) as [[Hcore Hno]|Hsend].
    + apply ordered_observe; [done| |].
      { intros conn l e p Hin. pose proof (dispatch_holds _ _ _ _ _ _ _ _ _ _ Hs Hin) as Hh. unfold holds in Hh. b2p. by apply (od_conn w Hw). }
      destruct Hcore as [th ef Hc Hi Hu Hu' Hl|th ef Hg Hc Hseq Hi Hu Hl|c l o ef Hm' Hth'|c next r ef Hr Hg Hc Hseq Hm' Hth'|l o ef Hm' Hth'].
      * by apply (ordered_same w t th).
      * by apply (ordered_unbound w t th).
      * by apply (ordered_bound w t (Init2 c l o) _ _ Hw Ht c l o).
      * by apply (ordered_begin w t (Renew0 c next) _ _ Hw Ht r).
      * by apply (ordered_clear w t (RenewClear l o) _ _ Hw Ht l); rewrite ?Hth'.
    + destruct Hsend as [r p call ef Hcur Hm' Hth' Hobs]. rewrite Hobs.
      apply (ordered_send w t (Renew4 r p call) _ _ Hw Ht r p call); [lia|done..].
  - change (perform ef (spawn (ef_thread ef) w0))
      with (set_lw (ef_lw ef) (observe (ef_obs ef) (set_mgr (ef_mgr ef) (spawn (ef_thread ef) w0)))).
    assert (lw w0 = lw w) as Hlw by apply (entry_beside _ _ _ _ He).
    destruct (entry_core_spec _ _ _ _ He) as (Hcore & Hi & Hu).
    apply ordered_set_lw; [by cbn; rewrite Hlw|]. apply ordered_observe; [by intros; eapply entry_no_send|by intros ? ? ? ? Hin; apply (entry_no_dispatch _ _ _ _ _ _ _ _ He) in Hin|].
    pose proof (od_phase w Hw) as Hph.
    destruct Hcore as [Hc Hl|c g k -> Hc Hl|b f -> Hc Hl|b f l -> Hg Hm' Hlw' Hl| -> Hc Hl].
    + rewrite <- (to_phase_same w). apply ordered_spawn; auto.
      * destruct (phase w); auto. destruct Hph as [?|(th & ? & ?)]; [by left|right]. exists th. split; [by apply lookup_app_l_Some|done].
      * intros t th l [Ht|[-> ->]]%spawn_view Hi'; [by eapply (od_init w Hw)|congruence].
    + cbn in Ho. apply andb_true_iff in Ho as [_ Hdone]. unfold callback_done in Hdone.
      assert (∀ t th l, threads w !! t = Some th → init_lease th = Some l → False) as Hno.
      { intros t th l Ht Hi'. destruct (phase w) as [|t0| |t0] eqn:Hphase; [| |done|].
        - refine (no_init w Hw _ 0%nat Hphase _ t th l Ht Hi'). left. by intros ?.
        - by apply (no_init w Hw _ t0 Hphase (or_intror (conj Hdone eq_refl)) t th l).
        - refine (no_init w Hw _ 0%nat Hphase _ t th l Ht Hi'). left. by intros ?. }
      apply ordered_spawn; auto.
      * destruct (phase w) as [|t0| |t0] eqn:Hphase; try done. destruct Hph as [[Hc0 Hg0]|(th & Ht & Hor)].
        { split; [done|]. intros l Hl'. congruence. }
        unfold finished in Hdone. rewrite Ht in Hdone. by destruct Hor as [->| ->].
      * intros t th l [Ht|[-> ->]]%spawn_view Hi'; [by destruct (Hno t th l)|]. split; [done|]. intros Hin.
        destruct (proj1 (od_known w Hw) l Hin) as [L HL]. specialize (Hl l Hi'). congruence.
    + cbn in Ho. apply andb_true_iff in Ho as [_ Hdue]. unfold start_due in Hdue. apply ordered_spawn; auto.
      intros t th l [Ht|[-> ->]]%spawn_view Hi'; [|by rewrite Hl in Hi']. exfalso.
      destruct (phase w) as [|t0| |] eqn:Hphase; try done.
      by apply (no_init w Hw _ t0 Hphase (or_intror (conj Hdue eq_refl)) t th l).
    + cbn in Ho. apply andb_true_iff in Ho as [_ Hdue]. apply (ordered_connected w (ef_thread ef) (ef_mgr ef) Hw Hi Hu f l); auto; [lia|].
      destruct (mi_mgr w Hinv l Hg) as (L & HL & _). by exists L.
    + cbn in Ho. apply andb_true_iff in Ho as [_ Hdue]. unfold exit_due in Hdue. apply ordered_spawn; auto.
      * right. exists Exit0. rewrite Hl, lookup_app_r, Nat.sub_diag by lia. auto.
      * intros t th l [Ht|[-> ->]]%spawn_view Hi'; [|by rewrite Hl in Hi']. exfalso.
        destruct (phase w) as [| | |] eqn:Hphase; try done.
        refine (no_init w Hw _ 0%nat Hphase _ t th l Ht Hi'). left. by intros ?.
Qed.
Lemma preachable_ordered w : preachable w → in_order w = true → ordered w.
Proof using Hmax.
  intros (v & evs & Hv & Hlc & Hcb & Hrun).
  assert (minv (initial v) ∧ (in_order (initial v) = true → ordered (initial v))) as Hinit.
  { split; [apply preachable_minv; exists v, []; repeat split; [done|done|done|constructor]|]. intros _.
    split; cbn; try done; try (intros *; rewrite ?lookup_nil; done).
    - split; [|done]. by intros l ?%elem_of_nil.
    - lia.
    - by intros ? ? ? ?%elem_of_nil.
    - intros c. by exists 0%nat.
    - by intros ? ? ? ? ?%elem_of_nil. }
  refine (proj2 (steps_invariant pstep (λ w, minv w ∧ (in_order w = true → ordered w)) _ _ _ _ Hrun Hinit)).
  intros a l b Hs [Hi Ho]. split; [exact (minv_apply l a b Hs Hi)|]. intros Hb. exact (ordered_apply l a b Hs Hi Ho Hb).
Qed.
End Bounded.

(** ** Every call returns *)

Definition then_rank (k : Then) : nat := match k with ThenReturn _ => 0 | ThenCrash _ => 1 | ThenExit => 2 | ThenRenewEnd _ _ _ => 2 end.
(** The sections a goroutine has at most left. *)
Definition rank (th : Thread) : nat :=
  match th with
  | Finished _ => 0
  | Starting => 5 | StartCheck => 2 | StartStop => 1
  | EndLease2 _ k => 1 + then_rank k | EndLease1 _ k => 2 + then_rank k | EndLease0 _ k => 3 + then_rank k
  | Crash _ => 1 | Exit1 => 2 | Exit0 => 6
  | Stop4 k => 1 + then_rank k | Stop3 k => 2 + then_rank k | Stop2 _ k => 3 + then_rank k | Stop1 _ k => 4 + then_rank k
  | Stop0 _ k => 5 + then_rank k
  | Init0 _ _ _ => 4 | Init1 _ _ _ => 3 | Init2 _ _ _ => 2 | InitRevoke _ _ => 1
  | Dispatch1 _ _ _ _ => 5 | DispatchRevoke _ => 1 | Dispatch2 _ _ _ _ => 4 | Dispatch3 _ _ _ _ => 3 | Dispatch4 _ _ _ _ => 2 | Holding _ => 1
  | Renew0 _ _ => 18 | RenewRevoke _ => 1 | Renew1 _ => 17 | Renew2 _ => 16 | Renew3 _ _ => 15 | RenewBudget _ _ _ => 14
  | Renew4 _ _ _ => 13 | Renew5 _ _ _ _ => 12 | Renew6 _ _ _ _ => 11 | Renew7 _ _ _ _ => 10 | Renew8 _ _ _ _ => 9
  | Fence0 _ _ _ => 8 | RenewEnd _ _ _ => 2 | RenewClear _ _ => 1 | RevokeOwner _ => 6
  end.
Lemma resume_rank k : rank (resume k) = then_rank k.
Proof. by destruct k. Qed.
Lemma step_rank v m t th i ef : step_thread v m t th i = Some ef → (rank (ef_thread ef) < rank th)%nat.
Proof.
  intros Hs. destruct th; cbn in Hs; unfold mbind, option_bind in Hs; effect Hs; rewrite ?resume_rank; cbn; lia.
Qed.
Definition asked_yes (set : bool) : In := if set then Answer true else Quiet.
Lemma asked_asked set : asked set (asked_yes set) = Some true.
Proof. by destruct set. Qed.
(** An input a goroutine can go on with. *)
Definition next_input (th : Thread) : In :=
  match th with
  | Starting | StartCheck | Dispatch3 _ _ _ _ => Answer true
  | Init0 _ _ _ => asked_yes (cfg_InitIdentity cfg)
  | Init1 _ _ _ => if cfg_IdentitySecrets cfg then Secrets [] else Quiet
  | Dispatch1 _ _ _ _ | Renew1 _ | Renew7 _ _ _ _ => asked_yes (cfg_RevalidateGrants cfg)
  | Renew5 _ _ _ _ => AckInvalid
  | _ => Quiet
  end.
Lemma step_progress w t th : minv w → threads w !! t = Some th → (∃ o, th = Finished o) ∨
  ∃ ef, step_thread (lw w) (mgr w) t th (next_input th) = Some ef.
Proof.
  intros Hinv Ht. pose proof (mi_threads w Hinv t th Ht) as [_ Hf].
  destruct th; cbn; unfold mbind, option_bind; rewrite ?asked_asked; unfold fails, goes, manages, leases_to; eauto.
  all: try (repeat case_match; eauto; fail).
  all: right. all: repeat case_match; eauto; try done.
  destruct Hf as (L & HL & _). congruence.
Qed.
(** Every call returns: wherever a goroutine is, at most eighteen sections of its own
    bring it to the end, whatever the rest of the system does meanwhile is left out. *)
Theorem every_call_returns w t th : preachable w → threads w !! t = Some th →
  ∃ evs w' o, steps pstep w evs w' ∧ threads w' !! t = Some (Finished o) ∧ (length evs ≤ 18)%nat ∧
    Forall (λ e, ∃ i, e = Run t i) evs.
Proof.
  intros Hw%preachable_minv Ht.
  assert (∀ n w th, minv w → threads w !! t = Some th → (rank th ≤ n)%nat → ∃ evs w' o, steps pstep w evs w' ∧
    threads w' !! t = Some (Finished o) ∧ (length evs ≤ n)%nat ∧ Forall (λ e, ∃ i, e = Run t i) evs) as Hgo.
  { clear. intros n. induction n as [|n IH]; intros w th Hinv Ht Hr.
    - exists [], w. destruct th; cbn in Hr; try lia. exists o. repeat split; [constructor|done|cbn; lia|constructor].
    - destruct (step_progress w t th Hinv Ht) as [[o ->]|[ef Hs]].
      { exists [], w, o. repeat split; [constructor|done|cbn; lia|constructor]. }
      set (w1 := perform ef (set_thread t (ef_thread ef) w)).
      assert (papply (Run t (next_input th)) w = Some w1) as Hp by (cbn; rewrite Ht; cbn; by rewrite Hs).
      destruct (IH w1 (ef_thread ef)) as (evs & w' & o & Hrun & Hfin & Hlen & Hall).
      { by eapply minv_apply. }
      { apply thread_keeps. cbn. by rewrite list_lookup_insert_eq by eauto using lookup_lt_Some. }
      { pose proof (step_rank _ _ _ _ _ _ Hs). lia. }
      exists (Run t (next_input th) :: evs), w', o. repeat split; [by eapply steps_cons|done|cbn; lia|constructor; eauto]. }
  apply (Hgo 18%nat w th Hw Ht). destruct th; cbn; try lia; destruct k; cbn; lia.
Qed.

(** ** Theorems *)

(** The manager never does more to its leases than their operations allow: its lease
    heap is one that clients of the leases can reach. *)
Theorem manager_refines_leases w : preachable w → reachable (lw w).
Proof. apply preachable_leases. Qed.

(** C30. A dispatch that was let through carries a permit of the lease it names; a caller
    that expected an incarnation gets the lease of that incarnation; and while the
    permit is alive its lease has not ended and grants what it granted then.  As long
    as the supervisor calls back in order, the connection is that of the process
    the lease was issued to. *)
Theorem dispatch_stays_with_its_incarnation w conn l e p : preachable w → ODispatched conn l e p ∈ log w →
  pm_lease p = l ∧ (∀ x, e = Some x → owned (lw w) l x) ∧
  (done (lw w) (pm_ctx p) = false → ∃ L, leases (lw w) !! l = Some L ∧ gl_ended L = false ∧ pm_base p = gl_ctx L) ∧
  (0 < MaxSafeInteger < 2 ^ 64 → in_order w = true → conns w !! conn = Some l).
Proof.
  intros Hw Ho. destruct (mi_log w (preachable_minv w Hw) _ Ho) as (Hp & Hl & He). split; [done|]. split; [done|]. split.
  - intros Hlive. destruct (wf_permit _ (mi_wf w (preachable_minv w Hw)) p Hp) as (_ & Hbase & L & HL & Hb). rewrite Hl in HL.
    assert (pm_base p ∉ cancelled (lw w)) as Hnc.
    { intros Hc. enough (done (lw w) (pm_ctx p) = true) by congruence. apply done_spec. eauto. }
    destruct Hb as [Hb|Hb]; [|done]. exists L. repeat split; [done| |done].
    destruct (gl_ended L) eqn:Hend; [|done]. destruct Hnc. rewrite Hb. by apply (wf_lease _ (mi_wf w (preachable_minv w Hw)) l L HL).
  - intros Hmax Hord. by apply (od_dispatched w (preachable_ordered Hmax w Hw Hord) conn l e p).
Qed.

(** C31. A renewal that was sent to the process is never left open: when [RenewGrants]
    returns, either it committed the grants, or the lease they were proposed for has
    ended. *)
Theorem sent_renewal_commits_or_ends_the_lease w t r seq o : preachable w → ORenewSent t r seq ∈ log w →
  threads w !! t = Some (Finished o) →
  o = Returned ∧ ORenewed t r ∈ log w ∨ (∃ e, o = Fenced e) ∧ ended (lw w) (rn_lease r).
Proof.
  intros Hw Ho Ht. destruct (mi_sent w (preachable_minv w Hw) t r seq Ho) as (th & Hth & Ha). rewrite Ht in Hth. injection Hth as <-.
  destruct o; cbn in Ha; [by left|done|right; eauto].
Qed.

(** Grants are committed only when the process acknowledged them: with the sequence
    they were sent with and for the incarnation that owns the lease. *)
Theorem renewed_grants_were_acknowledged w t r : preachable w → ORenewed t r ∈ log w →
  owned (lw w) (rn_lease r) (rn_owner r) ∧
  ∃ seq, ORenewSent t r seq ∈ log w ∧ OAcked t seq (rn_owner r) ∈ log w.
Proof. intros Hw Ho. exact (mi_log w (preachable_minv w Hw) _ Ho). Qed.

(** C32. The sequences sent on a connection are 1, 2, 3, ... in order, without gaps or
    repeats, up to at most the largest safe integer, as long as the supervisor calls
    back in order. *)
Theorem renewal_sequences_increase w c : 0 < MaxSafeInteger < 2 ^ 64 → preachable w → in_order w = true →
  ∃ n, sequences c (log w) = Z.of_nat <$> seq 1 n ∧ Z.of_nat n ≤ MaxSafeInteger.
Proof.
  intros Hmax Hw Ho. pose proof (preachable_ordered Hmax w Hw Ho) as Hod. destruct (od_exact w Hod c) as (n & Hn & _).
  exists n. split; [exact Hn|]. destruct n as [|n]; [cbn; lia|].
  assert (Z.of_nat n + 1 ∈ sequences c (log w)) as Hin.
  { rewrite Hn, count_up_S. apply elem_of_app. right. by apply list_elem_of_singleton. }
  apply sequences_elem in Hin as (t & r & Hs & _). destruct (od_sent w Hod t r _ Hs) as ([_ ?] & _). lia.
Qed.
(** At most one renewal is in flight for the manager's lease, as long as the
    supervisor calls back in order. *)
Theorem one_renewal_at_a_time w t th t' th' l : 0 < MaxSafeInteger < 2 ^ 64 → preachable w → in_order w = true →
  m_grantLease (mgr w) = Some l → threads w !! t = Some th → in_renewal th = Some l →
  threads w !! t' = Some th' → in_renewal th' = Some l → t = t'.
Proof.
  intros Hmax Hw Ho Hl Ht Hi Ht' Hi'. pose proof (preachable_ordered Hmax w Hw Ho) as Hod.
  destruct (od_one w Hod t' th' l Ht' Hi' Hl) as [_ Hone]. by eapply Hone.
Qed.

(** [RevokeIncarnation] only ends a lease of the incarnation it was called for. *)
Theorem revocation_hits_its_owner w owner l : preachable w → ORevoked owner l ∈ log w → owned (lw w) l owner.
Proof. intros Hw Ho. exact (mi_log w (preachable_minv w Hw) _ Ho). Qed.

(** What a manager that stops no longer does. *)
Definition acts (o : Obs) : bool :=
  match o with OBound _ _ | ODispatched _ _ _ _ | ORenewSent _ _ _ | ORenewed _ _ => true | _ => false end.
Definition is_stopping (w : PWorld) : Prop := m_supervisor (mgr w) = true ∧ stopping (m_state (mgr w)) = true.
Lemma stopping_not_running m : stopping (m_state m) = true → running m = false.
Proof. unfold stopping, running. destruct (m_state m); done. Qed.
Lemma crashed_state_stopping m : stopping (m_state m) = true → crashed_state m = m_state m.
Proof. unfold crashed_state. by intros ->. Qed.
Lemma step_stopping v m t th i ef : step_thread v m t th i = Some ef → m_supervisor m = true → stopping (m_state m) = true →
  m_supervisor (ef_mgr ef) = true ∧ stopping (m_state (ef_mgr ef)) = true ∧ Forall (λ o, acts o = false) (ef_obs ef).
Proof.
  intros Hs Hsup Hst. pose proof (stopping_not_running m Hst) as Hrun. pose proof (crashed_state_stopping m Hst) as Hcr.
  assert (∀ l c, holds m l c = false) as Hh by (intros; unfold holds; by rewrite Hrun).
  assert (∀ r, renewal_current m r = false) as Hcur by (intros; unfold renewal_current; by rewrite Hh).
  destruct th; cbn in Hs; unfold mbind, option_bind in Hs; effect Hs; unfold unload_seen, disconnect_seen.
  all: repeat match goal with |- context [if ?b then _ else _] => destruct b end.
  all: try (split; [done|split; [by rewrite ?Hcr|by repeat constructor]]).
  all: exfalso; b2p; congruence.
Qed.
Lemma entry_stopping e w ef w0 : entry e w = Some (ef, w0) → is_stopping w →
  m_supervisor (ef_mgr ef) = true ∧ stopping (m_state (ef_mgr ef)) = true ∧ Forall (λ o, acts o = false) (ef_obs ef).
Proof.
  intros He [Hsup Hst]. pose proof (stopping_not_running _ Hst) as Hrun. pose proof (crashed_state_stopping _ Hst) as Hcr.
  destruct e; cbn in He; try done; unfold mbind, option_bind in He.
  all: unfold start, dispatch, renew_grants, revoke_incarnation, init_factory, on_start, on_give_up, connects in He.
  all: rewrite ?Hsup, ?Hst, ?orb_true_r in He; cbn in He.
  all: repeat (case_match; try discriminate He); unfold fails, goes, manages, leases_to, unload_seen in *; simplify_eq; cbn.
  all: repeat match goal with |- context [if ?b then _ else _] => destruct b end.
  all: try (split; [done|split; [by rewrite ?Hcr|by repeat constructor]]).
Qed.
(** A manager that stops does not come back: whatever happens after, no lease is
    bound, no dispatch is let through and no renewal is sent or committed. *)
Theorem stopped_manager_stays_stopped w evs w' : is_stopping w → steps pstep w evs w' →
  is_stopping w' ∧ ∃ k, log w' = (log w ++ k)%list ∧ Forall (λ o, acts o = false) k.
Proof.
  intros Hst Hrun. induction Hrun as [w|w e w1 evs w2 Hs _ IH]; [split; [done|exists []; by rewrite app_nil_r]|].
  assert (is_stopping w1 ∧ ∃ k, log w1 = (log w ++ k)%list ∧ Forall (λ o, acts o = false) k) as [Hst1 (k1 & Hk1 & Hf1)].
  { destruct (papply_shape _ _ _ Hs) as [ev v _ _ _ ->|t i th ef _ _ Hstep ->|ef w0 He ->].
    - split; [done|]. exists []. by rewrite app_nil_r.
    - destruct Hst as [Hsup Hst]. destruct (step_stopping _ _ _ _ _ _ Hstep Hsup Hst) as (? & ? & ?). split; [by split|]. by eexists.
    - destruct (entry_stopping _ _ _ _ He Hst) as (? & ? & ?). split; [by split|]. eexists. cbn.
      by rewrite (bs_log _ _ (proj1 (entry_beside _ _ _ _ He))). }
  destruct (IH Hst1) as [Hst2 (k2 & Hk2 & Hf2)]. split; [done|]. exists (k1 ++ k2)%list. rewrite Hk2, Hk1, app_assoc.
  split; [done|]. by apply Forall_app.
Qed.

(** Runs by computation. *)
Fixpoint prun (evs : list Event) (w : PWorld) : option PWorld :=
  match evs with [] => Some w | e :: rest => match papply e w with Some w' => prun rest w' | None => None end end.
Lemma prun_steps evs w w' : prun evs w = Some w' → steps pstep w evs w'.
Proof.
  revert w. induction evs as [|e evs IH]; cbn; intros w; [intros [= ->]; constructor|].
  destruct (papply e w) as [w1|] eqn:He; [|done]. intros Hr. eapply steps_cons; [exact He|auto].
Qed.
End Manager.

(** ** A plugin at work *)

Module Example_plugin.
Import Example_lease.
#[local] Existing Instance toy.
Definition config : ManagerConfig := mkConfig "calendar" ["query"] true true false false true true 3.
Definition heap : World := (new_ctx None None false (empty_world start)).2.
Lemma heap_reachable : reachable heap.
Proof. exists start, [NewContext None None]. apply heap_run_steps. by vm_compute. Qed.
Definition world_after (evs : list Event) : PWorld := default (initial heap) (prun config evs (initial heap)).
Lemma reach evs : is_Some (prun config evs (initial heap)) → preachable config (world_after evs).
Proof.
  intros [w Hw]. exists heap, evs. split; [exact heap_reachable|]. split; [by eexists|]. split; [done|].
  apply prun_steps. unfold world_after. by rewrite Hw.
Qed.
(** The steps of a goroutine that nothing goes wrong for. *)
Definition go (t : nat) (inputs : list In) : list Event := map (Run t) inputs.
(** Start; the first child gets its lease and connects. *)
Definition launch : list Event :=
  ([Env (NewContext (Some 0%nat) None); CallStart false; InitFactory 0 (Some owner) (Some first_grants)]
   ++ go 1 [Quiet; Quiet; Quiet] ++ [OnStart true true] ++ go 0 [Answer true; Answer true])%list.
(** A call of the plugin from the second context, by someone who knows the owner. *)
Definition tool_call : list Event := ([CallDispatch 1 (Some owner) false] ++ go 3 [Answer true; Quiet; Answer true; Quiet])%list.
(** A renewal with a good acknowledgement. *)
Definition renewal : list Event :=
  ([CallRenew 1 next_grants] ++ go 4 [Quiet; Answer true; Quiet; Quiet; Quiet; Quiet; AckIs 1 owner true; Quiet; Answer true; Quiet; Quiet; Quiet])%list.
(** A second one, whose acknowledgement cannot be read; it fences. *)
Definition bad_renewal : list Event :=
  ([CallRenew 1 next_grants] ++ go 5 [Quiet; Answer true; Quiet; Quiet; Quiet; Quiet; AckInvalid; Quiet]
   ++ go 5 [Quiet; Quiet; Quiet; Quiet; Quiet; Quiet; Quiet])%list.
Definition all_events : list Event := (launch ++ tool_call ++ renewal ++ bad_renewal)%list.
Definition final : PWorld := world_after all_events.
Lemma final_runs : is_Some (prun config all_events (initial heap)).
Proof. apply (bool_decide_unpack _). by vm_compute. Qed.
Lemma final_preachable : preachable config final.
Proof. exact (reach all_events final_runs). Qed.
(** The first renewal returned well, the second ended the lease and stopped the process. *)
Lemma final_state : in_order final = true ∧ m_state (mgr final) = StateStopped ∧
  threads final !! 4%nat = Some (Finished Returned) ∧ threads final !! 5%nat = Some (Finished (Fenced ECall)).
Proof. by vm_compute. Qed.
Definition call_permit : Permit := mkPermit 3 0 2 1.
Definition first_renewal : Renewal := mkRenewal 1 0 0 owner next_grants.
Lemma toy_max : 0 < MaxSafeInteger < 2 ^ 64.
Proof. by vm_compute. Qed.

Lemma manager_refines_leases_witness : m_state (mgr final) = StateStopped ∧ reachable (lw final).
Proof. split; [by vm_compute|]. exact (manager_refines_leases config final final_preachable). Defined.
Lemma dispatch_stays_with_its_incarnation_witness :
  pm_lease call_permit = 0%nat ∧ (∀ x, Some owner = Some x → owned (lw final) 0 x) ∧
  (done (lw final) (pm_ctx call_permit) = false → ∃ L, leases (lw final) !! 0%nat = Some L ∧ gl_ended L = false ∧ pm_base call_permit = gl_ctx L) ∧
  (0 < MaxSafeInteger < 2 ^ 64 → in_order final = true → conns final !! 0%nat = Some 0%nat).
Proof.
  apply (dispatch_stays_with_its_incarnation config final 0 0 (Some owner) call_permit final_preachable).
  apply (list_elem_of_lookup_2 _ 2). by vm_compute.
Defined.
Lemma sent_renewal_commits_or_ends_the_lease_witness :
  Fenced ECall = Returned ∧ ORenewed 5 first_renewal ∈ log final ∨ (∃ e, Fenced ECall = Fenced e) ∧ ended (lw final) (rn_lease first_renewal).
Proof.
  apply (sent_renewal_commits_or_ends_the_lease config final 5 first_renewal 2 (Fenced ECall) final_preachable); [|by vm_compute].
  apply (list_elem_of_lookup_2 _ 6). by vm_compute.
Defined.
Lemma renewed_grants_were_acknowledged_witness :
  owned (lw final) 0 owner ∧ ∃ seq, ORenewSent 4 first_renewal seq ∈ log final ∧ OAcked 4 seq owner ∈ log final.
Proof.
  apply (renewed_grants_were_acknowledged config final 4 first_renewal final_preachable).
  apply (list_elem_of_lookup_2 _ 5). by vm_compute.
Defined.
Lemma renewal_sequences_increase_witness : sequences 0 (log final) = [1; 2] ∧
  ∃ n, sequences 0 (log final) = Z.of_nat <$> seq 1 n ∧ Z.of_nat n ≤ @MaxSafeInteger toy.
Proof.
  split; [by vm_compute|]. apply (renewal_sequences_increase config final 0 toy_max final_preachable). by vm_compute.
Defined.
Definition in_flight : PWorld := world_after (launch ++ tool_call ++ take 5 renewal)%list.
Lemma in_flight_preachable : preachable config in_flight.
Proof. apply reach. apply (bool_decide_unpack _). by vm_compute. Qed.
Lemma one_renewal_at_a_time_witness : in_renewal (Renew3 first_renewal (mkPermit 4 0 2 2)) = Some 0%nat ∧ 4%nat = 4%nat.
Proof.
  split; [done|].
  apply (one_renewal_at_a_time config in_flight 4 (default Starting (threads in_flight !! 4%nat)) 4 (default Starting (threads in_flight !! 4%nat)) 0
    toy_max in_flight_preachable); by vm_compute.
Defined.
Lemma every_call_returns_witness : ∃ evs w' o, steps (pstep config) in_flight evs w' ∧ threads w' !! 4%nat = Some (Finished o) ∧
  (length evs ≤ 18)%nat ∧ Forall (λ e, ∃ i, e = Run 4 i) evs.
Proof.
  apply (every_call_returns config in_flight 4 (default Starting (threads in_flight !! 4%nat)) in_flight_preachable). by vm_compute.
Defined.
Definition revoking : PWorld := world_after (launch ++ [CallRevokeIncarnation owner])%list.
Lemma revoking_preachable : preachable config revoking.
Proof. apply reach. apply (bool_decide_unpack _). by vm_compute. Qed.
Lemma revocation_hits_its_owner_witness : owned (lw revoking) 0 owner.
Proof.
  apply (revocation_hits_its_owner config revoking owner 0 revoking_preachable). apply (list_elem_of_lookup_2 _ 2). by vm_compute.
Defined.
(** A restart of the child after the stop; it is killed and nothing is let through. *)
Definition restart : list Event := [InitFactory 0 (Some owner) (Some first_grants); OnStart true true; CallDispatch 1 None false].
Lemma stopped_manager_stays_stopped_witness :
  is_stopping (default final (prun config restart final)) ∧
  ∃ k, log (default final (prun config restart final)) = (log final ++ k)%list ∧ Forall (λ o, acts o = false) k.
Proof.
  apply (stopped_manager_stays_stopped config final restart); [by vm_compute|]. apply prun_steps. by vm_compute.
Defined.
End Example_plugin.
