(* ===== verification/ChatLoop.v ===== *)
(** * The state of a chat turn (internal/service)

    [chat_loop_state.go]: the limits of the tool loop of one turn, its counters,
    the checks that stop it, and the scratchpad an agent writes to;
    [chat_scratchpad.go] and [chat_scratchpad_persist.go]: the scratchpad tools
    and the file that carries it to the next turn; [detectStuckLoop] of
    [chat_generate.go].

    A JSON value is a parameter type with its encoder; the file system is the
    content of the scratchpad's file and, per call, whether it can be read or
    replaced.  [persistScratchpad] writes a temporary file and renames it, so the
    file holds the old content or the new one.  Instants and durations are
    integers in nanoseconds.  [%q] of fmt is the parameter [quote].

    [loopState] has the fields these operations use.  Not modelled: the
    debugging snapshots, the classification and routing hints (set and read back
    unchanged), the counters of other features (result budgets, tool discovery,
    write-claim guard, compaction) and the driver of the loop, a library.  Of a
    harness profile the loop's limits are modelled, not its budgets.

    Theorems: the stop checks in terms of what happened in the turn; the
    scratchpad as a map that turn boundaries do not affect, within its size
    limits; and that repeating one result never blocks a tool. *)

From stdpp Require Import pretty.
From S2P Require Import Prelude GoStrings GoPath.

Open Scope string_scope.
Open Scope Z_scope.

Definition second : Z := 1000000000.
Definition len (s : string) : Z := Z.of_nat (String.length s).
Definition nl : ascii := byte 10.

(** ** Limits *)

Definition defaultMaxTurns : Z := 75.
Definition defaultHardCeiling : Z := 200.
Definition defaultConsecutiveFailCap : Z := 3.
Definition defaultRunawayFailCap : Z := 10.
Definition defaultIdleTimeoutSeconds : Z := 900.
Definition subagentIdleTimeoutSeconds : Z := 300.
Definition defaultMaxRequestToolsCalls : Z := 6.

(** [chat.AgentConstraints]: the fields that bound the loop. *)
Record AgentConstraints := mkAgentConstraints {
  c_HardCeiling : Z;
  c_ConsecutiveFailCap : Z;
  c_RunawayFailCap : Z;
  c_IdleTimeoutSeconds : Z;
}.

Record iterationLimits := mkLimits {
  maxTurns : Z;
  hardCeiling : Z;
  consecutiveFailCap : Z;
  runawayFailCap : Z;
  idleTimeout : Z;
  perToolMax : gmap string Z;
  defaultPerToolCap : Z;
}.

Definition CallerSubagent : string := "subagent".

(** [resolveIterationLimits]: a stated constraint replaces the default, and the
    hard cap is raised to the soft one. *)
Definition resolveIterationLimits (c : AgentConstraints) (caller : option string) : iterationLimits :=
  let idleTimeoutSeconds :=
    if bool_decide (caller = Some CallerSubagent) then subagentIdleTimeoutSeconds
    else defaultIdleTimeoutSeconds in
  let hard := if 0 <? c_HardCeiling c then c_HardCeiling c else defaultHardCeiling in
  let soft := if 0 <? c_ConsecutiveFailCap c then c_ConsecutiveFailCap c else defaultConsecutiveFailCap in
  let runaway := if 0 <? c_RunawayFailCap c then c_RunawayFailCap c else defaultRunawayFailCap in
  let runaway := if runaway <? soft then soft else runaway in
  let idle := if 0 <? c_IdleTimeoutSeconds c then c_IdleTimeoutSeconds c * second
              else idleTimeoutSeconds * second in
  mkLimits defaultMaxTurns hard soft runaway idle ∅ 0.

(** ** State *)

(** [effort.Effort] is an integer with four valid levels. *)
Definition EffortLow : Z := 1.
Definition EffortNormal : Z := 2.
Definition EffortMax : Z := 4.
Definition Effort_IsValid (e : Z) : bool := (EffortLow <=? e) && (e <=? EffortMax).

(** What [detectStuckLoop] keeps per tool. *)
Record toolTracking := mkTracking {
  lastToolResults : gmap string string;
  toolRepeatCount : gmap string Z;
  blockedTools : gmap string bool;
}.

Section ChatLoop.
(** A JSON value, and [json.Marshal] of one. *)
Context {V : Type} (marshal : V → option string).

Record scratch := mkScratch {
  scratchpad : gmap string V;
  scratchpadBytes : Z;
  scratchpadPath : string;
}.

Record loopState := mkLoopState {
  tracking : toolTracking;
  iteration : Z;
  limits : iterationLimits;
  consecutiveFailures : Z;
  toolCallCounts : gmap string Z;
  lastToolError : string;
  lastToolName : string;
  loadedTools : gmap string bool;
  maxRequestToolsCalls : Z;
  lastActivity : Z;
  currentEffort : Z;
  lastSite : string;
  lastReason : string;
  pad : scratch;
}.

(** [newLoopState], at the instant [now]. *)
Definition newLoopState (c : AgentConstraints) (tools : list string) (caller : option string) (now : Z)
    : loopState :=
  mkLoopState (mkTracking ∅ ∅ ∅) 0 (resolveIterationLimits c caller) 0 ∅ "" ""
    (list_to_map ((λ n, (n, true)) <$> tools)) defaultMaxRequestToolsCalls now 0 "" ""
    (mkScratch ∅ 0 "").

(** Field updates. *)
Definition with_tracking (t : toolTracking) (s : loopState) : loopState :=
  mkLoopState t (iteration s) (limits s) (consecutiveFailures s) (toolCallCounts s) (lastToolError s)
    (lastToolName s) (loadedTools s) (maxRequestToolsCalls s) (lastActivity s) (currentEffort s) (lastSite s)
    (lastReason s) (pad s).
Definition with_counters (f : Z) (counts : gmap string Z) (act : Z) (s : loopState) : loopState :=
  mkLoopState (tracking s) (iteration s) (limits s) f counts (lastToolError s) (lastToolName s)
    (loadedTools s) (maxRequestToolsCalls s) act (currentEffort s) (lastSite s) (lastReason s) (pad s).
Definition with_iteration (i : Z) (s : loopState) : loopState :=
  mkLoopState (tracking s) i (limits s) (consecutiveFailures s) (toolCallCounts s) (lastToolError s)
    (lastToolName s) (loadedTools s) (maxRequestToolsCalls s) (lastActivity s) (currentEffort s) (lastSite s)
    (lastReason s) (pad s).
Definition with_error (name err : string) (s : loopState) : loopState :=
  mkLoopState (tracking s) (iteration s) (limits s) (consecutiveFailures s) (toolCallCounts s) err name
    (loadedTools s) (maxRequestToolsCalls s) (lastActivity s) (currentEffort s) (lastSite s) (lastReason s)
    (pad s).
Definition with_effort (e : Z) (s : loopState) : loopState :=
  mkLoopState (tracking s) (iteration s) (limits s) (consecutiveFailures s) (toolCallCounts s)
    (lastToolError s) (lastToolName s) (loadedTools s) (maxRequestToolsCalls s) (lastActivity s) e (lastSite s)
    (lastReason s) (pad s).
Definition with_site (site reason : string) (s : loopState) : loopState :=
  mkLoopState (tracking s) (iteration s) (limits s) (consecutiveFailures s) (toolCallCounts s)
    (lastToolError s) (lastToolName s) (loadedTools s) (maxRequestToolsCalls s) (lastActivity s)
    (currentEffort s) site reason (pad s).
Definition with_pad (p : scratch) (s : loopState) : loopState :=
  mkLoopState (tracking s) (iteration s) (limits s) (consecutiveFailures s) (toolCallCounts s)
    (lastToolError s) (lastToolName s) (loadedTools s) (maxRequestToolsCalls s) (lastActivity s)
    (currentEffort s) (lastSite s) (lastReason s) p.

(** ** Stopping the loop *)

(** [resolvedMaxTurns]. *)
Definition resolvedMaxTurns (s : loopState) : Z :=
  let max := maxTurns (limits s) in
  if max =? -1 then hardCeiling (limits s)
  else if hardCeiling (limits s) <? max then hardCeiling (limits s)
  else max.

Inductive TerminationCode :=
| TerminationRunawayToolFailures
| TerminationMaxTurns
| TerminationHardCeiling
| TerminationIdleTimeout
| TerminationRetryBudgetExhausted.
#[global] Instance TerminationCode_eq_dec : EqDecision TerminationCode.
Proof. solve_decision. Defined.

(** [shouldStop]: the code, with the number its reason prints. *)
Definition shouldStop (s : loopState) (now : Z) : option (TerminationCode * Z) :=
  if runawayFailCap (limits s) <=? consecutiveFailures s
  then Some (TerminationRunawayToolFailures, consecutiveFailures s)
  else if idleTimeout (limits s) <? now - lastActivity s
  then Some (TerminationIdleTimeout, idleTimeout (limits s))
  else if hardCeiling (limits s) <=? iteration s
  then Some (TerminationHardCeiling, hardCeiling (limits s))
  else None.

(** [isMetaTool]. *)
Definition isMetaTool (name : string) : bool :=
  bool_decide (name ∈ ["request_tools"; "fetch_tool_result"; "search_tool_result"; "scratchpad_read"]).

(** The cap on calls of one tool: an override that is positive, else the
    default. *)
Definition tool_cap (l : iterationLimits) (name : string) : Z :=
  match perToolMax l !! name with
  | Some max => if 0 <? max then max else defaultPerToolCap l
  | None => defaultPerToolCap l
  end.
Definition calls (s : loopState) (name : string) : Z := default 0 (toolCallCounts s !! name).
Definition is_blocked (t : toolTracking) (name : string) : bool := default false (blockedTools t !! name).

(** [recordToolCall]: the new state and whether the tool is now exhausted. *)
Definition recordToolCall (toolName : string) (success : bool) (now : Z) (s : loopState) : bool * loopState :=
  let s := with_counters (if success then 0 else consecutiveFailures s + 1)
             (<[toolName := calls s toolName + 1]> (toolCallCounts s)) now s in
  if isMetaTool toolName then (false, s)
  else
    let cap := tool_cap (limits s) toolName in
    if (0 <? cap) && (cap <=? calls s toolName)
    then (true, with_tracking (mkTracking (lastToolResults (tracking s)) (toolRepeatCount (tracking s))
                                 (<[toolName := true]> (blockedTools (tracking s)))) s)
    else (false, s).

(** [recordPermissionDenial], [touchActivity], [continueWith]. *)
Definition recordPermissionDenial (s : loopState) : loopState :=
  with_counters (consecutiveFailures s + 1) (toolCallCounts s) (lastActivity s) s.
Definition touchActivity (now : Z) (s : loopState) : loopState :=
  with_counters (consecutiveFailures s) (toolCallCounts s) now s.
Definition continueWith (site reason : string) (s : loopState) : loopState := with_site site reason s.

(** [recordLastError]: at most 500 runes of the error. *)
Definition maxErrLen : nat := 500.
Definition recordLastError (toolName errText : string) (s : loopState) : loopState :=
  let rs := runes errText in
  with_error toolName
    (if Nat.ltb maxErrLen (length rs) then of_runes (take maxErrLen rs) +:+ "... (truncated)" else errText) s.

(** [isToolExhausted]. *)
Definition isToolExhausted (s : loopState) (toolName : string) : bool :=
  if isMetaTool toolName then false
  else
    let cap := tool_cap (limits s) toolName in
    if cap <=? 0 then false else cap <=? calls s toolName.

(** [SetEffort] and [Effort]. *)
Definition SetEffort (e : Z) (s : loopState) : loopState :=
  with_effort (if Effort_IsValid e then e else EffortNormal) s.
Definition Effort (s : loopState) : Z :=
  if Effort_IsValid (currentEffort s) then currentEffort s else EffortNormal.

(** The blocked branch of [preCheckTools]: a tool that is blocked or exhausted is
    not run; the call counts as a failure and the model is told why. *)
Inductive HeldReason :=
| PerTurnBackstop (used cap : Z)
| StuckLoopDetector.
Definition checkBlocked (toolName : string) (now : Z) (s : loopState) : option HeldReason * loopState :=
  if is_blocked (tracking s) toolName || isToolExhausted s toolName then
    let s := (recordToolCall toolName false now s).2 in
    let isCountCap := isToolExhausted s toolName && negb (is_blocked (tracking s) toolName) in
    (Some (if isCountCap then PerTurnBackstop (calls s toolName) (tool_cap (limits s) toolName)
           else StuckLoopDetector), s)
  else (None, s).

(** [harnessprofile.Values]: the limits, and what [applyHarness] installs of
    them. *)
Record HarnessValues := mkHarnessValues {
  v_IdleTimeout : Z;
  v_SubagentIdleTimeout : Z;
  v_HardCeiling : Z;
  v_ConsecutiveFailCap : Z;
  v_RunawayFailCap : Z;
  v_PerToolCap : Z;
}.
Definition EffectiveIdleTimeout (v : HarnessValues) (subagent : bool) : Z :=
  if subagent then v_SubagentIdleTimeout v else v_IdleTimeout v.
Definition harness_limits (r : option HarnessValues) (subagent : bool) (s : loopState) : loopState :=
  match r with
  | None => s
  | Some v =>
      let l := limits s in
      mkLoopState (tracking s) (iteration s)
        (mkLimits (maxTurns l) (v_HardCeiling v) (v_ConsecutiveFailCap v) (v_RunawayFailCap v)
           (EffectiveIdleTimeout v subagent) (perToolMax l) (v_PerToolCap v))
        (consecutiveFailures s) (toolCallCounts s) (lastToolError s) (lastToolName s) (loadedTools s)
        (maxRequestToolsCalls s) (lastActivity s) (currentEffort s) (lastSite s) (lastReason s) (pad s)
  end.

(** ** A tool that keeps returning the same result *)

Section Stuck.
Context (quote : string → string).

Definition repeat_note (times : Z) : string :=
  String nl (String nl "") +:+ "Note: this tool has returned the same result " +:+ pretty times +:+
  " times in a row. Re-calling it with the same arguments won't add new data. If you need something different, change the arguments or switch approach.".
Definition block_message (toolName : string) (times : Z) : string :=
  "Tool " +:+ quote toolName +:+ " returned the same result " +:+ pretty times +:+
  " times in a row, so the harness is holding further calls for this turn. The result you already have is the tool's answer — re-running it won't produce new data. Pivot: try different arguments, a different tool, or summarize what you have and tell the user what's missing.".

(** [detectStuckLoop]: the text the model gets, which is also what the next
    result is compared with. *)
Definition detectStuckLoop (toolName resultText : string) (t : toolTracking) : string * toolTracking :=
  let '(text, counts, blocked) :=
    if bool_decide (lastToolResults t !! toolName = Some resultText) then
      let repeats := default 0 (toolRepeatCount t !! toolName) + 1 in
      let counts := <[toolName := repeats]> (toolRepeatCount t) in
      if 2 <=? repeats
      then (block_message toolName (repeats + 1), counts, <[toolName := true]> (blockedTools t))
      else (resultText +:+ repeat_note (repeats + 1), counts, blockedTools t)
    else (resultText, <[toolName := 0]> (toolRepeatCount t), blockedTools t) in
  (text, mkTracking (<[toolName := text]> (lastToolResults t)) counts blocked).
End Stuck.

(** ** The scratchpad *)

Definition scratchpadMaxValueBytes : Z := 8 * 1024.
Definition scratchpadMaxTotalBytes : Z := 64 * 1024.
Definition scratchpadStateFile : string := "scratchpad.json".

(** [json.Marshal] and [json.Unmarshal] of the whole map ([null] gives the
    empty one). *)
Context (marshal_map : gmap string V → option string) (unmarshal_map : string → option (gmap string V)).

Inductive PadErr := ENotSerializable | EValueTooLarge (n : Z) | ETotalExceeded (n : Z) | ENotSaved.

(** The scratchpad's file: absent, or its content. *)
Abbreviation pad_file := (option string).

(** [persistScratchpad]: [saved] says whether the temporary file is made, filled
    and renamed.  On any failure the file is as it was. *)
Definition persistScratchpad (saved : bool) (s : loopState) (file : pad_file) : bool * pad_file :=
  if bool_decide (scratchpadPath (pad s) = "") then (true, file)
  else match marshal_map (scratchpad (pad s)) with
       | None => (false, file)
       | Some b => if saved then (true, Some b) else (false, file)
       end.

Definition encoded_len (v : V) : Z := match marshal v with Some e => len e | None => 0 end.

(** [scratchpadWrite]. *)
Definition scratchpadWrite (saved : bool) (key : string) (value : V) (s : loopState) (file : pad_file)
    : result PadErr unit * (loopState * pad_file) :=
  match marshal value with
  | None => (Err ENotSerializable, (s, file))
  | Some encoded =>
      let newValueBytes := len encoded in
      if scratchpadMaxValueBytes <? newValueBytes then (Err (EValueTooLarge newValueBytes), (s, file))
      else
        let oldBytes := match scratchpad (pad s) !! key with Some old => encoded_len old | None => 0 end in
        let newTotal := scratchpadBytes (pad s) - oldBytes + newValueBytes in
        if scratchpadMaxTotalBytes <? newTotal then (Err (ETotalExceeded newTotal), (s, file))
        else
          let prev := scratchpad (pad s) !! key in
          let prevBytes := scratchpadBytes (pad s) in
          let s' := with_pad (mkScratch (<[key := value]> (scratchpad (pad s))) newTotal
                                (scratchpadPath (pad s))) s in
          match persistScratchpad saved s' file with
          | (true, file') => (Ok tt, (s', file'))
          | (false, file') =>
              let restored := match prev with
                              | Some v => <[key := v]> (scratchpad (pad s'))
                              | None => delete key (scratchpad (pad s'))
                              end in
              (Err ENotSaved, (with_pad (mkScratch restored prevBytes (scratchpadPath (pad s'))) s', file'))
          end
  end.

(** [scratchpadRead]: one entry, or all of them. *)
Definition scratchpadRead (key : string) (s : loopState) : option (gmap string V) :=
  if bool_decide (key = "") then Some (scratchpad (pad s))
  else match scratchpad (pad s) !! key with
       | Some v => Some {[key := v]}
       | None => None
       end.

(** [scratchpadClear]. *)
Definition scratchpadClear (saved : bool) (key : string) (s : loopState) (file : pad_file)
    : result PadErr bool * (loopState * pad_file) :=
  match scratchpad (pad s) !! key with
  | None => (Ok false, (s, file))
  | Some v =>
      let prevBytes := scratchpadBytes (pad s) in
      let bytes := match marshal v with
                   | Some encoded => if scratchpadBytes (pad s) - len encoded <? 0 then 0
                                     else scratchpadBytes (pad s) - len encoded
                   | None => 0
                   end in
      let s' := with_pad (mkScratch (delete key (scratchpad (pad s))) bytes (scratchpadPath (pad s))) s in
      match persistScratchpad saved s' file with
      | (true, file') => (Ok true, (s', file'))
      | (false, file') =>
          (Err ENotSaved, (with_pad (mkScratch (<[key := v]> (scratchpad (pad s'))) prevBytes
                                       (scratchpadPath (pad s'))) s', file'))
      end
  end.

(** The loop of [attachScratchpadFile] over the entries: [None] is the early
    return on an unusable or oversize value. *)
Fixpoint entries_total (entries : list (string * V)) (total : Z) : option Z :=
  match entries with
  | [] => Some total
  | (_, value) :: rest =>
      match marshal value with
      | None => None
      | Some encoded =>
          if scratchpadMaxValueBytes <? len encoded then None
          else entries_total rest (total + len encoded)
      end
  end.

(** [attachScratchpadFile]; [readable] says whether an existing file can be
    read. *)
Definition attachScratchpadFile (stateDir : string) (readable : bool) (file : pad_file) (s : loopState)
    : loopState :=
  if bool_decide (stateDir = "") then s
  else
    let s := with_pad (mkScratch (scratchpad (pad s)) (scratchpadBytes (pad s))
                         (Join [stateDir; scratchpadStateFile])) s in
    match file with
    | None => s
    | Some raw =>
        if negb readable then s
        else match unmarshal_map raw with
             | None => s
             | Some entries =>
                 match entries_total (map_to_list entries) 0 with
                 | None => s
                 | Some total =>
                     if scratchpadMaxTotalBytes <? total then s
                     else with_pad (mkScratch entries total (scratchpadPath (pad s))) s
                 end
             end
    end.

(** ** The scratchpad tools (chat_scratchpad.go) *)

(** [input["key"].(string)], with the value's string, if it is one. *)
Context (as_string : V → option string).
Definition key_of (input : gmap string V) : string :=
  match input !! "key" with Some v => default "" (as_string v) | None => "" end.

(** What a tool replies; the code prints it as text or JSON. *)
Inductive PadReply :=
| RKeyRequired
| RValueRequired
| RStored
| REntries (entries : gmap string V)
| RCleared (cleared : bool)
| RFailed (e : PadErr)
| RUnknownTool (name : string).
(** The [IsError] flag of the tool result. *)
Definition reply_is_error (r : PadReply) : bool :=
  match r with RStored | REntries _ | RCleared _ => false | _ => true end.

Definition callScratchpadWrite (saved : bool) (input : gmap string V) (s : loopState) (file : pad_file)
    : PadReply * (loopState * pad_file) :=
  let key := key_of input in
  if bool_decide (key = "") then (RKeyRequired, (s, file))
  else match input !! "value" with
       | None => (RValueRequired, (s, file))
       | Some value =>
           match scratchpadWrite saved key value s file with
           | (Ok _, w) => (RStored, w)
           | (Err e, w) => (RFailed e, w)
           end
       end.
Definition callScratchpadRead (input : gmap string V) (s : loopState) : PadReply :=
  REntries (default ∅ (scratchpadRead (key_of input) s)).
Definition callScratchpadClear (saved : bool) (input : gmap string V) (s : loopState) (file : pad_file)
    : PadReply * (loopState * pad_file) :=
  let key := key_of input in
  if bool_decide (key = "") then (RKeyRequired, (s, file))
  else match scratchpadClear saved key s file with
       | (Ok cleared, w) => (RCleared cleared, w)
       | (Err e, w) => (RFailed e, w)
       end.

(** The dispatch of [handleScratchpadTool]. *)
Definition handleScratchpadTool (saved : bool) (name : string) (input : gmap string V) (s : loopState)
    (file : pad_file) : PadReply * (loopState * pad_file) :=
  if bool_decide (name = "scratchpad_write") then callScratchpadWrite saved input s file
  else if bool_decide (name = "scratchpad_read") then (callScratchpadRead input s, (s, file))
  else if bool_decide (name = "scratchpad_clear") then callScratchpadClear saved input s file
  else (RUnknownTool name, (s, file)).

(** ** Turns of a session with a workspace *)

(** A turn starts with a fresh state that reads the file ([initializeRun]); tool
    calls follow. *)
Inductive pad_step :=
| NewTurn (c : AgentConstraints) (tools : list string) (caller : option string) (now : Z) (readable : bool)
| ToolCall (saved : bool) (name : string) (input : gmap string V).

Section Turns.
Context (stateDir : string).
Definition start_turn (c : AgentConstraints) (tools : list string) (caller : option string) (now : Z)
    (readable : bool) (file : pad_file) : loopState :=
  attachScratchpadFile stateDir readable file (newLoopState c tools caller now).
Definition pad_run_step (w : loopState * pad_file) (st : pad_step) : loopState * pad_file :=
  match st with
  | NewTurn c tools caller now readable => (start_turn c tools caller now readable w.2, w.2)
  | ToolCall saved name input => (handleScratchpadTool saved name input w.1 w.2).2
  end.
Definition pad_run (w : loopState * pad_file) (sts : list pad_step) : loopState * pad_file :=
  foldl pad_run_step w sts.
End Turns.

(** ** What a session's scratchpad is: a map within size limits *)

Definition total_bytes (m : gmap string V) : Z := map_fold (λ _ v n, encoded_len v + n) 0 m.
Definition within_limits (m : gmap string V) : Prop :=
  map_Forall (λ _ v, is_Some (marshal v) ∧ encoded_len v ≤ scratchpadMaxValueBytes) m ∧
  total_bytes m ≤ scratchpadMaxTotalBytes.
#[global] Instance within_limits_dec m : Decision (within_limits m).
Proof.
  unfold within_limits. apply and_dec; [|apply _].
  apply map_Forall_dec. intros _ v. apply and_dec; [|apply _].
  destruct (marshal v); [left; eauto|right; by intros []].
Defined.

(** The map of the turn and the map of the file.  A write replaces an entry of the
    turn's map when the file can be saved and the result is within the limits, a
    clear removes an entry that is there when the file can be saved, and either then
    makes the file the turn's map; a new turn starts with the file's map, or empty
    when the file cannot be read; nothing else changes them. *)
Definition pad_write (mf : gmap string V * gmap string V) (input : gmap string V) : gmap string V * gmap string V :=
  match input !! "value" with
  | Some v => let m' := <[key_of input := v]> mf.1 in
              if bool_decide (key_of input ≠ "" ∧ within_limits m') then (m', m') else mf
  | None => mf
  end.
Definition pad_clear (mf : gmap string V * gmap string V) (input : gmap string V) : gmap string V * gmap string V :=
  if bool_decide (key_of input = "") then mf
  else match mf.1 !! key_of input with
       | Some _ => (delete (key_of input) mf.1, delete (key_of input) mf.1)
       | None => mf
       end.
Definition pad_spec (mf : gmap string V * gmap string V) (st : pad_step) : gmap string V * gmap string V :=
  match st with
  | NewTurn _ _ _ _ readable => (if readable then mf.2 else ∅, mf.2)
  | ToolCall false _ _ => mf
  | ToolCall true name input =>
      if bool_decide (name = "scratchpad_write") then pad_write mf input
      else if bool_decide (name = "scratchpad_clear") then pad_clear mf input
      else mf
  end.
(** What the tools answer on the map of the turn; the errors of a refused write are
    left open. *)
Definition read_reply (m input : gmap string V) : PadReply :=
  REntries (if bool_decide (key_of input = "") then m
            else match m !! key_of input with Some v => {[key_of input := v]} | None => ∅ end).
Definition clear_reply (saved : bool) (m input : gmap string V) : PadReply :=
  if bool_decide (key_of input = "") then RKeyRequired
  else match m !! key_of input with
       | None => RCleared false
       | Some _ => if saved then RCleared true else RFailed ENotSaved
       end.

(** ** Lemmas on the scratchpad *)

Lemma total_bytes_insert_new m k v : m !! k = None → total_bytes (<[k := v]> m) = encoded_len v + total_bytes m.
Proof.
  intros Hk. unfold total_bytes. rewrite map_fold_insert_L; [done| |done].
  intros. lia.
Qed.
Lemma total_bytes_delete m k v : m !! k = Some v → total_bytes (delete k m) = total_bytes m - encoded_len v.
Proof.
  intros Hk. rewrite <- (insert_delete_id m k v Hk) at 2.
  rewrite total_bytes_insert_new by apply lookup_delete_eq. lia.
Qed.
Lemma total_bytes_insert m k v :
  total_bytes (<[k := v]> m) =
    total_bytes m - match m !! k with Some old => encoded_len old | None => 0 end + encoded_len v.
Proof.
  destruct (m !! k) as [old|] eqn:Hk.
  - rewrite <- insert_delete_eq, total_bytes_insert_new by apply lookup_delete_eq.
    rewrite (total_bytes_delete _ _ old) by done. lia.
  - rewrite total_bytes_insert_new by done. lia.
Qed.
Lemma encoded_len_nonneg v : 0 ≤ encoded_len v.
Proof. unfold encoded_len, len. destruct (marshal v); lia. Qed.
Lemma total_bytes_nonneg m : 0 ≤ total_bytes m.
Proof.
  unfold total_bytes. apply (map_fold_weak_ind (λ n _, 0 ≤ n)); [lia|].
  intros k v m' n _ Hn. pose proof (encoded_len_nonneg v). lia.
Qed.

Lemma entries_total_spec l n :
  Forall (λ kv, is_Some (marshal kv.2) ∧ encoded_len kv.2 ≤ scratchpadMaxValueBytes) l →
  entries_total l n = Some (foldr (λ kv t, encoded_len kv.2 + t) 0 l + n).
Proof.
  intros Hl. revert n. induction Hl as [|[k v] l [[e He] Hv] _ IH]; intros n; cbn [entries_total foldr]; [f_equal; lia|].
  unfold encoded_len in Hv. cbn [snd] in *. rewrite He in *. rewrite (proj2 (Z.ltb_ge _ _)) by done.
  rewrite IH. unfold encoded_len at 2. rewrite He. f_equal. lia.
Qed.
Lemma entries_total_map m : within_limits m → entries_total (map_to_list m) 0 = Some (total_bytes m).
Proof.
  intros [Hv _]. rewrite entries_total_spec.
  - unfold total_bytes. rewrite map_fold_foldr, Z.add_0_r. f_equal.
    induction (map_to_list m) as [|[k v] l IH]; cbn; [done|by rewrite IH].
  - apply Forall_forall. intros [k v] Hin%elem_of_map_to_list. exact (Hv k v Hin).
Qed.

Lemma within_limits_empty : within_limits ∅.
Proof. split; [apply map_Forall_empty|]. unfold total_bytes. by rewrite map_fold_empty. Qed.
Lemma within_limits_delete m k : within_limits m → within_limits (delete k m).
Proof.
  intros [Hv Ht]. split; [by apply map_Forall_delete|]. destruct (m !! k) as [v|] eqn:Hk.
  - rewrite (total_bytes_delete _ _ v) by done. pose proof (encoded_len_nonneg v). lia.
  - by rewrite delete_id.
Qed.
Lemma within_limits_insert m k v :
  within_limits m →
  (within_limits (<[k := v]> m) ↔
   is_Some (marshal v) ∧ encoded_len v ≤ scratchpadMaxValueBytes ∧
   total_bytes (<[k := v]> m) ≤ scratchpadMaxTotalBytes).
Proof.
  intros [Hv _]. unfold within_limits. split.
  - intros [Hall Ht]. destruct (Hall k v) as [? ?]; [apply lookup_insert_eq|]. done.
  - intros (Hs & Hle & Ht). split; [|done]. by apply map_Forall_insert_2.
Qed.

(** ** The code implements the map *)

Section Durable.
(** encoding/json on maps of decoded values: a map of encodable values is
    encodable, and decodes to itself. *)
Context (Hmap : ∀ m, map_Forall (λ _ v, is_Some (marshal v)) m → is_Some (marshal_map m)).
Context (Hround : ∀ m raw, marshal_map m = Some raw → unmarshal_map raw = Some m).

(** The file has the map [f], or is not there and [f] is empty. *)
Definition file_has (f : gmap string V) (file : pad_file) : Prop :=
  match file with None => f = ∅ | Some raw => marshal_map f = Some raw end.
(** The state holds the turn's map and counts its bytes; the file has its own. *)
Record holds (mf : gmap string V * gmap string V) (s : loopState) (file : pad_file) : Prop := {
  holds_map : scratchpad (pad s) = mf.1;
  holds_bytes : scratchpadBytes (pad s) = total_bytes mf.1;
  holds_path : scratchpadPath (pad s) ≠ "";
  holds_limits : within_limits mf.1;
  holds_file_limits : within_limits mf.2;
  holds_file : file_has mf.2 file;
}.

Lemma persist_holds saved s file :
  scratchpadPath (pad s) ≠ "" → within_limits (scratchpad (pad s)) →
  persistScratchpad saved s file =
    if saved then (true, marshal_map (scratchpad (pad s))) else (false, file).
Proof.
  intros Hp [Hv _]. unfold persistScratchpad. rewrite bool_decide_eq_false_2 by done.
  destruct (Hmap (scratchpad (pad s))) as [raw ->]; [|by destruct saved].
  eapply map_Forall_impl; [exact Hv|]. by intros ? ? [? _].
Qed.
Lemma holds_saved m s n p :
  within_limits m → n = total_bytes m → p ≠ "" →
  holds (m, m) (with_pad (mkScratch m n p) s) (marshal_map m).
Proof.
  intros Hm -> Hp. split; [done..|]. unfold file_has. cbn. destruct (Hmap m) as [raw ->]; [|done].
  eapply map_Forall_impl; [exact (proj1 Hm)|]. by intros ? ? [? _].
Qed.
Lemma holds_restored mf s n p file s0 :
  holds mf s0 file → n = scratchpadBytes (pad s0) → p = scratchpadPath (pad s0) →
  holds mf (with_pad (mkScratch mf.1 n p) s) file.
Proof. intros [] -> ->. by split. Qed.

(** A write. *)
Lemma scratchpadWrite_holds mf saved key v s file :
  holds mf s file →
  let r := scratchpadWrite saved key v s file in
  let m' := <[key := v]> mf.1 in
  is_ok r.1 = bool_decide (saved = true ∧ within_limits m') ∧
  holds (if bool_decide (saved = true ∧ within_limits m') then (m', m') else mf) r.2.1 r.2.2.
Proof.
  destruct mf as [m f]. intros Hh. pose proof Hh as [Hm Hb Hp Hl _ _]. cbn [fst snd] in *. subst m. cbv zeta.
  pose proof (total_bytes_insert (scratchpad (pad s)) key v) as Htot.
  pose proof (within_limits_insert _ key v Hl) as Hins. unfold scratchpadWrite.
  destruct (marshal v) as [e|] eqn:He;
    [|rewrite bool_decide_eq_false_2 by (rewrite Hins; by intros [_ [[] _]]); done].
  assert (encoded_len v = len e) as Hlen by (unfold encoded_len; by rewrite He).
  rewrite Hlen in *. destruct (scratchpadMaxValueBytes <? len e) eqn:Hv; [b2p; rewrite bool_decide_eq_false_2 by (rewrite Hins; lia); done|].
  rewrite Hb, <- Htot. destruct (scratchpadMaxTotalBytes <? _) eqn:Ht; [b2p; rewrite bool_decide_eq_false_2 by (rewrite Hins; lia); done|]. b2p.
  assert (within_limits (<[key := v]> (scratchpad (pad s)))) as Hw by (apply Hins; split_and!; [eauto|lia..]).
  rewrite persist_holds by done. cbn [with_pad pad scratchpad scratchpadPath scratchpadBytes].
  destruct saved; cbn [fst snd].
  - rewrite bool_decide_eq_true_2 by done. split; [done|]. by apply holds_saved.
  - rewrite bool_decide_eq_false_2 by (by intros [? _]). split; [done|].
    replace (match scratchpad (pad s) !! key with Some v0 => _ | None => _ end) with (scratchpad (pad s))
      by (destruct (scratchpad (pad s) !! key) eqn:E; [by rewrite insert_insert_eq, insert_id|by rewrite delete_insert_id]).
    by eapply (holds_restored (scratchpad (pad s), f)).
Qed.

(** A clear. *)
Lemma scratchpadClear_holds mf saved key s file :
  holds mf s file →
  let r := scratchpadClear saved key s file in
  r.1 = match mf.1 !! key with None => Ok false | Some _ => if saved then Ok true else Err ENotSaved end ∧
  holds (match mf.1 !! key with Some _ => if saved then (delete key mf.1, delete key mf.1) else mf | None => mf end) r.2.1 r.2.2.
Proof.
  destruct mf as [m f]. intros Hh. pose proof Hh as [Hm Hb Hp Hl _ _]. cbn [fst snd] in *. subst m. cbv zeta. unfold scratchpadClear.
  destruct (scratchpad (pad s) !! key) as [v|] eqn:Hk; [|done].
  pose proof (within_limits_delete _ key Hl) as Hd. rewrite persist_holds by done.
  cbn [with_pad pad scratchpad scratchpadPath scratchpadBytes]. destruct saved; cbn [fst snd]; (split; [done|]).
  - apply holds_saved; [done| |done]. pose proof (total_bytes_delete _ _ _ Hk) as Ht.
    pose proof (total_bytes_nonneg (delete key (scratchpad (pad s)))). destruct (proj1 Hl key v Hk) as [[e He] _].
    unfold encoded_len in Ht. rewrite He in *. rewrite (proj2 (Z.ltb_ge _ _)) by lia. lia.
  - rewrite insert_delete_id by done. by eapply (holds_restored (scratchpad (pad s), f)).
Qed.

(** A new turn restores what the file has, or starts empty when it cannot read it. *)
Lemma start_turn_holds stateDir mf c tools caller now (readable : bool) s file :
  stateDir ≠ "" → holds mf s file →
  holds (if readable then mf.2 else ∅, mf.2) (start_turn stateDir c tools caller now readable file) file.
Proof.
  destruct mf as [m f]. intros Hd [_ _ _ _ Hl Hf]. cbn [fst snd] in *. unfold start_turn, attachScratchpadFile.
  rewrite bool_decide_eq_false_2 by done.
  assert (Join [stateDir; scratchpadStateFile] ≠ "") as Hj
    by (cbn [Join]; rewrite bool_decide_eq_false_2 by done; apply Clean_not_empty).
  unfold file_has in Hf. destruct file as [raw|]; [destruct readable; cbn [negb]|].
  - rewrite (Hround f raw) by done. rewrite entries_total_map by done.
    rewrite (proj2 (Z.ltb_ge _ _)) by (apply Hl). by split.
  - split; [done..|apply within_limits_empty|done|done].
  - subst f. destruct readable; (split; [done..|apply within_limits_empty|apply within_limits_empty|done]).
Qed.

Definition turn_reads (st : pad_step) : Prop :=
  match st with NewTurn _ _ _ _ readable => readable = true | ToolCall _ _ _ => True end.

Lemma callScratchpadWrite_holds mf saved input s file :
  holds mf s file →
  let w := (callScratchpadWrite saved input s file).2 in
  holds (if saved then pad_write mf input else mf) w.1 w.2.
Proof.
  intros Hh. cbv zeta. unfold callScratchpadWrite, pad_write.
  destruct (bool_decide_reflect (key_of input = "")) as [Hk|Hk].
  - destruct saved; [|done]. destruct (input !! "value"); [|done].
    by rewrite bool_decide_eq_false_2 by (by intros [? _]).
  - destruct (input !! "value") as [v|]; [|by destruct saved].
    destruct (scratchpadWrite_holds mf saved (key_of input) v s file Hh) as [_ Hw].
    destruct (scratchpadWrite _ _ _ _ _) as [[?|e] w]; cbn [snd] in *; destruct saved;
      repeat case_bool_decide; naive_solver.
Qed.
Lemma callScratchpadClear_holds mf saved input s file :
  holds mf s file →
  let r := callScratchpadClear saved input s file in
  r.1 = clear_reply saved mf.1 input ∧ holds (if saved then pad_clear mf input else mf) r.2.1 r.2.2.
Proof.
  intros Hh. cbv zeta. unfold callScratchpadClear, pad_clear, clear_reply.
  case_bool_decide; [by destruct saved|]. destruct (scratchpadClear_holds mf saved (key_of input) s file Hh) as [Hr Hw].
  destruct (scratchpadClear _ _ _ _) as [r w]; cbn [fst snd] in *. subst r.
  destruct (mf.1 !! key_of input); destruct saved; done.
Qed.

(** One step of a session follows one step of the maps. *)
Lemma pad_run_step_holds stateDir mf w st :
  stateDir ≠ "" → holds mf w.1 w.2 →
  let w' := pad_run_step stateDir w st in holds (pad_spec mf st) w'.1 w'.2.
Proof.
  intros Hd Hh. destruct w as [s file]. destruct st as [c tools caller now readable|saved name input]; cbn in *.
  - by eapply start_turn_holds.
  - unfold handleScratchpadTool. destruct (decide (name = "scratchpad_write")) as [->|Hw].
    { pose proof (callScratchpadWrite_holds mf saved input s file Hh). by destruct saved. }
    destruct (decide (name = "scratchpad_clear")) as [->|Hc].
    { destruct (callScratchpadClear_holds mf saved input s file Hh) as [_ ?]. by destruct saved. }
    rewrite !(bool_decide_eq_false_2 (name = "scratchpad_write")), !(bool_decide_eq_false_2 (name = "scratchpad_clear"))
      by done. case_bool_decide; by destruct saved.
Qed.
Lemma pad_run_holds stateDir mf w sts :
  stateDir ≠ "" → holds mf w.1 w.2 →
  let w' := pad_run stateDir w sts in holds (foldl pad_spec mf sts) w'.1 w'.2.
Proof.
  intros Hd. revert mf w. induction sts as [|st sts IH]; intros mf w Hh; [done|].
  cbn. apply IH. by apply pad_run_step_holds.
Qed.
(** While every turn can read the file, the two maps are one. *)
Lemma pad_spec_one m sts : Forall turn_reads sts → ∃ m', foldl pad_spec (m, m) sts = (m', m').
Proof.
  intros Hr. revert m. induction Hr as [|st sts Hst _ IH]; intros m; [by exists m|]. cbn [foldl].
  assert (∃ m', pad_spec (m, m) st = (m', m')) as [m' ->]; [|apply IH].
  destruct st as [c tools caller now readable|saved name input]; cbn in *; [subst; by exists m|].
  unfold pad_write, pad_clear. destruct saved; repeat case_match; eauto.
Qed.
Lemma start_turn_empty stateDir c tools caller now :
  stateDir ≠ "" → holds (∅, ∅) (start_turn stateDir c tools caller now true None) None.
Proof.
  intros Hd. unfold start_turn, attachScratchpadFile. rewrite bool_decide_eq_false_2 by done.
  split; [done..| |apply within_limits_empty|apply within_limits_empty|done].
  cbn [Join with_pad pad scratchpadPath]. rewrite bool_decide_eq_false_2 by done. apply Clean_not_empty.
Qed.
Lemma write_reply mf saved input s file :
  holds mf s file →
  (handleScratchpadTool saved "scratchpad_write" input s file).1 = RStored ↔
  saved = true ∧ key_of input ≠ "" ∧
  ∃ v, input !! "value" = Some v ∧ within_limits (<[key_of input := v]> mf.1).
Proof.
  intros Hh. change (handleScratchpadTool _ _ _ _ _) with (callScratchpadWrite saved input s file).
  unfold callScratchpadWrite. case_bool_decide; [naive_solver|].
  destruct (input !! "value") as [v|]; [|naive_solver].
  destruct (scratchpadWrite_holds mf saved (key_of input) v s file Hh) as [Hok _].
  destruct (scratchpadWrite _ _ _ _ _) as [[u|e] w]; cbn in *; symmetry in Hok.
  - apply bool_decide_eq_true in Hok as [? ?]. naive_solver.
  - apply bool_decide_eq_false in Hok. naive_solver.
Qed.
Lemma read_reply_of mf saved input s file :
  holds mf s file → (handleScratchpadTool saved "scratchpad_read" input s file).1 = read_reply mf.1 input.
Proof.
  intros [<- _ _ _ _ _]. change (handleScratchpadTool _ _ _ _ _) with (callScratchpadRead input s, (s, file)).
  unfold callScratchpadRead, scratchpadRead, read_reply. cbn [fst]. f_equal. case_bool_decide; [done|].
  by destruct (scratchpad (pad s) !! key_of input).
Qed.

(** C40. In a session with a workspace the scratchpad behaves as one map that turn
    boundaries do not touch, as long as each turn can read the file.  After any turns
    and scratchpad calls, each of which may fail to save the file, the map in memory
    is the one the successful writes and clears made, its counter is its encoded size,
    and every value and the total are within the limits; the next turn restores the
    map of the file, which is the same map if every turn so far could read it, and a
    turn that cannot read it starts empty.  The replies are those of the map: a read
    gives the entry or all of them, a clear says whether there was an entry and fails
    when the removal is not saved, and a write is answered as stored exactly when it is
    saved and stays within the limits. *)
Theorem scratchpad_survives_turns (stateDir : string) (c : AgentConstraints) (tools : list string)
    (caller : option string) (now : Z) (sts : list pad_step) (Hdir : stateDir ≠ "") :
  let w := pad_run stateDir (start_turn stateDir c tools caller now true None, None) sts in
  let m := (foldl pad_spec (∅, ∅) sts).1 in
  let f := (foldl pad_spec (∅, ∅) sts).2 in
  scratchpad (pad w.1) = m ∧ scratchpadBytes (pad w.1) = total_bytes m ∧ within_limits m ∧
  (∀ c' tools' caller' now' (readable : bool),
     scratchpad (pad (start_turn stateDir c' tools' caller' now' readable w.2)) = if readable then f else ∅) ∧
  (Forall turn_reads sts → f = m) ∧
  (∀ saved input, (handleScratchpadTool saved "scratchpad_write" input w.1 w.2).1 = RStored ↔
     saved = true ∧ key_of input ≠ "" ∧
     ∃ v, input !! "value" = Some v ∧ within_limits (<[key_of input := v]> m)) ∧
  (∀ saved input, (handleScratchpadTool saved "scratchpad_read" input w.1 w.2).1 = read_reply m input) ∧
  (∀ saved input, (handleScratchpadTool saved "scratchpad_clear" input w.1 w.2).1 = clear_reply saved m input).
Proof.
  cbv zeta. pose proof (pad_run_holds stateDir (∅, ∅) (start_turn stateDir c tools caller now true None, None) sts Hdir
    (start_turn_empty stateDir c tools caller now Hdir)) as Hh. cbv zeta in Hh.
  split_and!; [apply Hh..| | | | |].
  - intros c' tools' caller' now' readable. eapply (holds_map (_, _)), start_turn_holds; [done|exact Hh].
  - intros Hr. by destruct (pad_spec_one ∅ sts Hr) as [m' ->].
  - intros saved input. by apply write_reply.
  - intros saved input. by apply read_reply_of.
  - intros saved input. by apply callScratchpadClear_holds.
Qed.
End Durable.

(** ** What happened in a turn, and the checks *)

Section Turn.
Context (quote : string → string).

(** The calls of a turn that change the counters. *)
Inductive event :=
| Called (name : string) (success : bool) (now : Z)
| Denied
| Touched (now : Z)
| Iterated (i : Z)
| Failed (name err : string)
| Answered (name text : string)
| Continued (site reason : string).
Definition apply_event (s : loopState) (e : event) : loopState :=
  match e with
  | Called name success now => (recordToolCall name success now s).2
  | Denied => recordPermissionDenial s
  | Touched now => touchActivity now s
  | Iterated i => with_iteration i s
  | Failed name err => recordLastError name err s
  | Answered name text => with_tracking (detectStuckLoop quote name text (tracking s)).2 s
  | Continued site reason => continueWith site reason s
  end.
Definition run_events (s : loopState) (h : list event) : loopState := foldl apply_event s h.

(** The same, read off the events: the failures since the last success, the last
    sign of activity, the iteration, and the calls of a tool. *)
Definition outcome (e : event) : option bool :=
  match e with Called _ success _ => Some success | Denied => Some false | _ => None end.
Definition failures_in_a_row (h : list event) : nat := streak negb (rev (omap outcome h)).
Definition instant (e : event) : option Z :=
  match e with Called _ _ now | Touched now => Some now | _ => None end.
Definition last_activity (t0 : Z) (h : list event) : Z := default t0 (last (omap instant h)).
Definition iteration_of (e : event) : option Z := match e with Iterated i => Some i | _ => None end.
Definition last_iteration (h : list event) : Z := default 0 (last (omap iteration_of h)).
Definition calls_of (name : string) (h : list event) : nat :=
  count (λ e, match e with Called n _ _ => bool_decide (n = name) | _ => false end) h.

Lemma omap_snoc {A B} (f : A → option B) l x : omap f (l ++ [x])%list = (omap f l ++ option_list (f x))%list.
Proof. by rewrite omap_app. Qed.
Lemma last_omap_snoc {A B} (f : A → option B) l x d :
  default d (last (omap f (l ++ [x])%list)) = default (default d (last (omap f l))) (f x).
Proof. rewrite omap_snoc. destruct (f x); cbn; [by rewrite last_snoc|by rewrite (right_id_L [] (++)%list)]. Qed.
Lemma recordToolCall_counts name ok now s :
  let s' := (recordToolCall name ok now s).2 in
  consecutiveFailures s' = (if ok then 0 else consecutiveFailures s + 1) ∧ lastActivity s' = now ∧
  toolCallCounts s' = <[name := calls s name + 1]> (toolCallCounts s) ∧ iteration s' = iteration s ∧
  limits s' = limits s.
Proof. cbv zeta. unfold recordToolCall. case_if; [done|]. case_if; done. Qed.

(** The counters say what happened. *)
Record tells (s0 s : loopState) (h : list event) : Prop := {
  tells_limits : limits s = limits s0;
  tells_failures : consecutiveFailures s = Z.of_nat (failures_in_a_row h);
  tells_activity : lastActivity s = last_activity (lastActivity s0) h;
  tells_iteration : iteration s = last_iteration h;
  tells_calls name : calls s name = Z.of_nat (calls_of name h);
}.
Lemma calls_of_snoc name h e :
  Z.of_nat (calls_of name (h ++ [e])%list) =
    Z.of_nat (calls_of name h) + match e with Called n _ _ => if bool_decide (n = name) then 1 else 0 | _ => 0 end.
Proof. unfold calls_of. rewrite count_app. unfold count. destruct e; cbn; try lia. case_bool_decide; cbn; lia. Qed.
Lemma apply_event_tells s0 s h e : tells s0 s h → tells s0 (apply_event s e) (h ++ [e])%list.
Proof.
  intros [Hl Hf Ha Hi Hc]. unfold failures_in_a_row, last_activity, last_iteration in *.
  split; unfold failures_in_a_row, last_activity, last_iteration;
    [| | | |intros n; rewrite calls_of_snoc, <- Hc]; rewrite ?last_omap_snoc, <- ?Ha, <- ?Hi, ?omap_snoc, ?rev_app_distr;
    destruct e as [name ok now| |now|i|name err|name text|site reason]; cbn in *;
    rewrite ?(right_id_L [] (++)%list), ?app_nil_r, ?Z.add_0_r in *; try done; try lia;
    try (pose proof (recordToolCall_counts name ok now s) as (E1 & E2 & E3 & E4 & E5); cbv zeta in *;
         rewrite ?E1, ?E2, ?E4, ?E5; try done; destruct ok; cbn; lia).
  - pose proof (recordToolCall_counts name ok now s) as (_ & _ & E3 & _ & _). unfold calls. rewrite E3.
    case_bool_decide as E; [subst; by rewrite lookup_insert_eq|rewrite lookup_insert_ne by done].
    fold (calls s n). lia.
Qed.
Lemma run_events_tells s0 h :
  consecutiveFailures s0 = 0 → iteration s0 = 0 → toolCallCounts s0 = ∅ → tells s0 (run_events s0 h) h.
Proof.
  intros Hf Hi Hc. induction h as [|e h IH] using rev_ind.
  - split; cbn; [done..|]. intros name. unfold calls. by rewrite Hc.
  - unfold run_events in *. rewrite foldl_app. by apply apply_event_tells.
Qed.

(** An exhausted tool is also a blocked one. *)
Definition exhausted_blocked (s : loopState) : Prop :=
  ∀ name, isToolExhausted s name = true → is_blocked (tracking s) name = true.
Lemma recordToolCall_blocks_self name ok now s :
  let s' := (recordToolCall name ok now s).2 in
  isToolExhausted s' name = true → is_blocked (tracking s') name = true.
Proof.
  pose proof (recordToolCall_counts name ok now s) as (_ & _ & E3 & _ & E5). cbv zeta in *.
  unfold isToolExhausted, calls. rewrite E3, E5, lookup_insert_eq. destruct (isMetaTool name) eqn:Hm; [done|].
  unfold recordToolCall. rewrite Hm. cbn [with_counters limits]. case_if; [done|]. intros Hcap.
  rewrite andb_true_intro; [cbn; unfold is_blocked; cbn; by rewrite lookup_insert_eq|].
  unfold calls. cbn. rewrite lookup_insert_eq. cbn in *. b2p. split; [by apply Z.ltb_lt|by apply Z.leb_le].
Qed.
Lemma recordToolCall_blocks name ok now s :
  exhausted_blocked s → exhausted_blocked (recordToolCall name ok now s).2.
Proof.
  intros Hs n. destruct (decide (n = name)) as [->|Hne]; [apply recordToolCall_blocks_self|].
  pose proof (recordToolCall_counts name ok now s) as (_ & _ & E3 & _ & E5). cbv zeta in *.
  specialize (Hs n). unfold isToolExhausted, calls in *. rewrite E3, E5, lookup_insert_ne by done.
  intros Hx. specialize (Hs Hx). unfold recordToolCall. case_if; [done|]. case_if; [|done].
  unfold is_blocked. cbn. by rewrite lookup_insert_ne.
Qed.
Lemma detectStuckLoop_blocks name text t n :
  is_blocked t n = true → is_blocked (detectStuckLoop quote name text t).2 n = true.
Proof.
  intros Hb. unfold detectStuckLoop. case_bool_decide; [case_if|]; cbn; try done.
  unfold is_blocked. cbn. destruct (decide (n = name)) as [->|?]; [by rewrite lookup_insert_eq|].
  by rewrite lookup_insert_ne.
Qed.
Lemma apply_event_blocks s e : exhausted_blocked s → exhausted_blocked (apply_event s e).
Proof.
  intros Hs. destruct e; try done; [by apply recordToolCall_blocks|].
  intros n Hn. apply detectStuckLoop_blocks. by apply Hs.
Qed.
Lemma run_events_blocks s0 h : exhausted_blocked s0 → exhausted_blocked (run_events s0 h).
Proof. revert s0. induction h as [|e h IH]; intros s0 Hs; [done|]. cbn. by apply IH, apply_event_blocks. Qed.

(** The state a turn starts with. *)
Definition turn_state (c : AgentConstraints) (tools : list string) (caller : option string) (t0 : Z)
    (harness : option HarnessValues) (subagent : bool) : loopState :=
  harness_limits harness subagent (newLoopState c tools caller t0).
Lemma turn_state_tells c tools caller t0 harness subagent h :
  let s0 := turn_state c tools caller t0 harness subagent in
  tells s0 (run_events s0 h) h ∧ exhausted_blocked (run_events s0 h) ∧ lastActivity s0 = t0.
Proof.
  cbv zeta. split_and!.
  - apply run_events_tells; by destruct harness.
  - apply run_events_blocks. intros name. unfold isToolExhausted. case_if; [done|].
    case_if; [done|]. intros Hx. exfalso. apply Z.leb_gt in Hif0.
    assert (calls (turn_state c tools caller t0 harness subagent) name = 0) as Hc by (by destruct harness).
    rewrite Hc in Hx. apply Z.leb_le in Hx. lia.
  - by destruct harness.
Qed.

(** Whatever happens in a turn, the stop checks say what happened: the loop
    goes on exactly while the failures since the last success are below the hard
    cap, the last sign of activity is recent enough and the iteration is below
    the ceiling; the breaker trips exactly at the cap and reports the number of
    failures; a tool is exhausted exactly when it has a cap and was called that
    often, meta-tools never, and it is then blocked; and limits taken from agent
    constraints let the warning level come no later than the breaker. *)
Theorem loop_guards_exact (c : AgentConstraints) (tools : list string) (caller : option string) (t0 : Z)
    (harness : option HarnessValues) (subagent : bool) (h : list event) (now : Z) (name : string) :
  let s0 := turn_state c tools caller t0 harness subagent in
  let l := limits s0 in
  let s := run_events s0 h in
  let failures := Z.of_nat (failures_in_a_row h) in
  let idle := now - last_activity t0 h in
  (shouldStop s now = None ↔
     failures < runawayFailCap l ∧ idle ≤ idleTimeout l ∧ last_iteration h < hardCeiling l) ∧
  (∀ n, shouldStop s now = Some (TerminationRunawayToolFailures, n) ↔ runawayFailCap l ≤ failures ∧ n = failures) ∧
  (isToolExhausted s name = true ↔
     isMetaTool name = false ∧ 0 < tool_cap l name ∧ tool_cap l name ≤ Z.of_nat (calls_of name h)) ∧
  (isToolExhausted s name = true → is_blocked (tracking s) name = true) ∧
  (harness = None → 0 < consecutiveFailCap l ≤ runawayFailCap l ∧ 0 < hardCeiling l ∧ 0 < idleTimeout l).
Proof.
  cbv zeta. destruct (turn_state_tells c tools caller t0 harness subagent h) as ([Hl Hf Ha Hi Hc] & Hb & H0).
  rewrite H0 in Ha. split_and!; [| | |apply Hb|].
  - unfold shouldStop. rewrite Hl, Hf, Ha, Hi. repeat case_if; b2p; naive_solver lia.
  - intros n. unfold shouldStop. rewrite Hl, Hf, Ha, Hi. repeat case_if; b2p; naive_solver lia.
  - unfold isToolExhausted. rewrite Hl, Hc. repeat case_if; b2p; rewrite ?Z.leb_le; naive_solver lia.
  - intros ->. cbn. unfold second. repeat case_if; b2p; unfold defaultConsecutiveFailCap, defaultRunawayFailCap,
      defaultHardCeiling, subagentIdleTimeoutSeconds, defaultIdleTimeoutSeconds in *; lia.
Qed.

(** A tool held back because it reached its cap is never reported as such:
    the pre-check counts the refused call before it looks at the reason, which
    blocks the tool, so the model is always told the tool repeats itself. *)
Theorem capped_tool_called_stuck (toolName : string) (now : Z) (s : loopState) (used cap : Z) :
  (checkBlocked toolName now s).1 ≠ Some (PerTurnBackstop used cap).
Proof.
  unfold checkBlocked. case_if; [|done]. cbn [fst].
  pose proof (recordToolCall_blocks_self toolName false now s) as Hb. cbv zeta in Hb.
  destruct (isToolExhausted (recordToolCall _ _ _ _).2 _); [rewrite Hb by done|]; cbn; congruence.
Qed.

(** ** Repeated results *)

Definition answers (t : toolTracking) (l : list (string * string)) : toolTracking :=
  foldl (λ t p, (detectStuckLoop quote p.1 p.2 t).2) t l.

(** Never a second repeat: after the first one the text to compare with ends in
    the note. *)
Definition never_stuck (t : toolTracking) : Prop :=
  ∀ name, is_blocked t name = false ∧
    (default 0 (toolRepeatCount t !! name) = 0 ∨
     default 0 (toolRepeatCount t !! name) = 1 ∧ ∃ x, lastToolResults t !! name = Some (x +:+ repeat_note 2)).
Lemma detectStuckLoop_never_stuck name text t :
  has_suffix text (repeat_note 2) = false → never_stuck t → never_stuck (detectStuckLoop quote name text t).2.
Proof.
  intros Htext Ht n. unfold detectStuckLoop. destruct (Ht n) as [Hb Hn]. case_bool_decide as Hlast.
  - destruct (Ht name) as [_ [Hc|[_ [x Hx]]]].
    + rewrite Hc. change (2 <=? 0 + 1) with false. change (0 + 1 + 1) with 2. change (0 + 1) with 1.
      cbn [snd is_blocked lastToolResults toolRepeatCount blockedTools]. split; [done|]. destruct (decide (n = name)) as [->|?].
      * right. rewrite !lookup_insert_eq. split; [done|]. by exists text.
      * by rewrite !lookup_insert_ne.
    + exfalso. rewrite Hlast in Hx. injection Hx as ->.
      assert (has_suffix (x +:+ repeat_note 2) (repeat_note 2) = true) by (apply has_suffix_spec; eauto). congruence.
  - cbn [snd is_blocked lastToolResults toolRepeatCount blockedTools]. split; [done|].
    destruct (decide (n = name)) as [->|?]; [left; by rewrite lookup_insert_eq|].
    by rewrite !lookup_insert_ne.
Qed.

(** The detector of repeated results never blocks a tool that repeats itself:
    in any sequence of results of any tools, as long as none of them ends with
    the detector's own note, no tool is ever blocked by it, however often the
    same result comes back.  The note is stored with the result, and the next
    result is compared with both. *)
Theorem stuck_tool_never_blocked (l : list (string * string)) (name : string)
    (Hl : Forall (λ p, has_suffix p.2 (repeat_note 2) = false) l) :
  is_blocked (answers (mkTracking ∅ ∅ ∅) l) name = false.
Proof.
  assert (never_stuck (answers (mkTracking ∅ ∅ ∅) l)) as H; [|apply H].
  assert (never_stuck (mkTracking ∅ ∅ ∅)) as H0 by (intros n; split; [done|by left]).
  revert H0. generalize (mkTracking ∅ ∅ ∅). induction Hl as [|p l Hp _ IH]; intros t Ht; [done|].
  apply IH. by apply detectStuckLoop_never_stuck.
Qed.
End Turn.
End ChatLoop.

(** ** Witnesses *)

(** Values that are their own encodings, and maps encoded by their code. *)
Fixpoint code_string (p : positive) : string :=
  match p with xH => "" | xO p => String "0" (code_string p) | xI p => String "1" (code_string p) end.
Fixpoint string_code (s : string) : positive :=
  match s with
  | "" => xH
  | String a s => if bool_decide (a = "0"%char) then xO (string_code s) else xI (string_code s)
  end.
Lemma string_code_code p : string_code (code_string p) = p.
Proof. induction p as [p IH|p IH|]; cbn; by rewrite ?IH. Qed.
Definition demo_encode (m : gmap string string) : option string := Some (code_string (encode m)).
Definition demo_decode (s : string) : option (gmap string string) := decode (string_code s).
Lemma demo_round m raw : demo_encode m = Some raw → demo_decode raw = Some m.
Proof. intros [= <-]. unfold demo_decode. by rewrite string_code_code, decode_encode. Qed.

Definition no_constraints : AgentConstraints := mkAgentConstraints 0 0 0 0.
Definition demo_steps : list (pad_step (V:=string)) :=
  [ToolCall true "scratchpad_write" {["key" := "plan"; "value" := "draft"]};
   NewTurn no_constraints [] None 5 true;
   ToolCall false "scratchpad_clear" {["key" := "plan"]}].
(** A turn that cannot read the file, and then writes, replaces it. *)
Example unread_file_is_replaced :
  foldl (pad_spec Some Some) (∅, ∅) (demo_steps ++ [NewTurn no_constraints [] None 6 false;
    ToolCall true "scratchpad_write" {["key" := "note"; "value" := "new"]}])%list =
  ({["note" := "new"]}, {["note" := "new"]}).
Proof. vm_compute. reflexivity. Qed.

Lemma scratchpad_survives_turns_witness :
  let w := pad_run Some demo_encode demo_decode Some "/state"
    (start_turn Some demo_decode "/state" no_constraints [] None 0 true None, None) demo_steps in
  scratchpad (pad w.1) = (foldl (pad_spec Some Some) (∅, ∅) demo_steps).1 ∧
  (foldl (pad_spec Some Some) (∅, ∅) demo_steps).1 !! "plan" = Some "draft".
Proof.
  split; [|vm_compute; reflexivity].
  refine (proj1 (scratchpad_survives_turns Some demo_encode demo_decode Some _ demo_round "/state"
    no_constraints [] None 0 demo_steps _)).
  - intros m _. by eexists.
  - done.
Defined.

Lemma stuck_tool_never_blocked_witness :
  is_blocked (answers (λ s, s) (mkTracking ∅ ∅ ∅) (replicate 5 ("dev_read", "no such file"))) "dev_read" = false.
Proof.
  apply (stuck_tool_never_blocked (λ s, s) (replicate 5 ("dev_read", "no such file")) "dev_read").
  repeat constructor.
Defined.

(** A tool with a cap of one call, called once with success: the second call is
    refused for repeating itself. *)
Example capped_tool_demo :
  let s0 : loopState (V:=string) :=
    turn_state no_constraints [] None 0 (Some (mkHarnessValues 900 300 200 3 10 1)) false in
  (checkBlocked "create_task" 2 (recordToolCall "create_task" true 1 s0).2).1 = Some StuckLoopDetector.
Proof. vm_compute. reflexivity. Qed.
