(* ===== verification/Generations.v ===== *)
(** * The turns of a chat session

    [service/chat.go]: the registry of generations (the turns of the sessions), the queue
    a turn waits in behind the one before it, cancellation, and the boundary a turn must
    reach before the next may drive the agent runtime; with the admission of a runtime
    turn and its send ([service/chat_boot_drive.go]), the check of a queued turn's history
    ([service/client_context_slot.go]) and the cancellation of one turn
    ([service/cognitive_cancel.go]).

    Every goroutine that touches a generation is a program counter in its record: the body
    that runs the turn, the worker that cancels it, the watcher that waits for its
    boundary, the goroutine that frees its slot; the goroutine of a send is in the record
    of its binding.  A step of [apply] is a critical section, a channel operation or an
    answer of the runtime; bounded waits may time out in any step.  [activeGenMu] is a lock
    that some call may hold; it is taken for the whole step elsewhere.  The event bridge is
    present, as in production.  Logging and events to the client are left out; the claims
    of one call are finished in any order. *)

From S2P Require Import Prelude.

Open Scope string_scope.
Open Scope nat_scope.
Set Default Proof Using "Type".

(** ** Goroutines *)

(** What cancellation took with it when it claimed a generation. *)
Record Claim := mkClaim { c_binding : option nat; c_predecessor : option nat; c_sendStarted : bool }.

(** [runGeneration] with the calls around it. *)
Inductive Body :=
| GRegistered (user : string)      (* launchGeneration, registered *)
| GWalk (cur : option nat)         (* collects the turns it is queued behind *)
| GReserved                        (* registerGenerationIfIdle, the message not yet stored *)
| GSpawn
| GNever                           (* the lifecycle refused the goroutine *)
| GWaitDone | GAsk | GWaitIssued | GSafe | GErr    (* waitForPredecessor *)
| GRefused | GRefusedSafe          (* it answered false *)
| GRetain | GRoot | GMark (root : option nat) | GObserve (root : option nat)   (* retainUnsafePredecessor *)
| GHistory | GDrop
| GRun                             (* dispatcher.Run *)
| GRan | GDrain (b : nat) | GRequest | GAwait
| GComplete                        (* markGenerationCompleted *)
| GExit | GDereg | GBarrier | GDereg2 | GCancelFn | GFinished.

(** [finishClaimedCancellation]. *)
Inductive Worker :=
| WNone
| WClaimed (c : Claim)
| WNever
| WWait (c : Claim) | WAsk (c : Claim) | WIssued (c : Claim) | WSafe (c : Claim)   (* generationBoundarySafe *)
| WTurn (c : Claim) (predecessorSafe : bool)
| WAbandon (b : nat) (c : Claim) (ps : bool) | WDrain (b : nat) (c : Claim) (ps : bool)
| WSend (b : nat) (c : Claim) (ps : bool) | WErr (b : nat) (c : Claim) (ps : bool)
| WCancel (b : nat) (c : Claim) (ps : bool) | WStop (b : nat) (c : Claim) (ps : bool)
| WStopped (b : nat) (c : Claim) (ps : bool)
| WDecide (c : Claim) (ps ts : bool)
| WMarkSafe
| WRoot (c : Claim) (ps ts : bool)
| WMarkUnsafe (c : Claim) (ps ts : bool) (root : nat) | WObserve (c : Claim) (ps ts : bool) (root : nat)
| WClose | WDone.

(** [observeUnsafePredecessor] and [observeUnsafeRuntimeBoundary]; one per generation. *)
Inductive Watcher :=
| VNone
| VInherit (root : nat)
| VSend (b : nat) (p : option nat) | VTerminal (b : nat) (p : option nat) | VPred (p : option nat) | VPredRoot (p : option nat)
| VMark | VDone.

(** The goroutine [markGenerationSafe] starts once. *)
Inductive Release := RNone | RWait | RDelete | RDone.

(** The goroutine of [driveBootSession] that sends the prompt. *)
Inductive Send :=
| SAdmitted | SSending | SOk
| SErr | SErrObserve | SErrComplete | SErrRetire | SErrStop | SErrFinish | SErrSafe
| SDone.

(** ** State *)

(** [g_after] is the generation the body waits for, [g_predecessor] the link of the record;
    [g_cancelled] is the generation's context, the closed channels are booleans.
    [safeOnce] closes [safeBoundary] once; [watchOnce] and [releaseOnce] are the counters
    not being [VNone] and [RNone]. *)
Record inFlightGen := mkInFlightGen {
  g_sessionID : string;
  g_msgID : string;
  g_userMsgID : string;
  g_cognitive : bool;
  g_after : option nat;
  g_priors : list nat;
  g_cancelled : bool;
  g_done : bool;
  g_cancelIssued : bool;
  g_safeBoundary : bool;
  g_turn : option nat;
  g_predecessor : option nat;
  g_unsafeRoot : option nat;
  g_cancelAsked : bool;
  g_cancelSafe : bool;
  g_retainUnsafe : bool;
  g_cancelOnce : bool;
  g_body : Body;
  g_worker : Worker;
  g_watcher : Watcher;
  g_release : Release;
}.
Definition at_body (v_body : Body) (G : inFlightGen) : inFlightGen :=
  mkInFlightGen (g_sessionID G) (g_msgID G) (g_userMsgID G) (g_cognitive G) (g_after G) (g_priors G)
    (g_cancelled G) (g_done G) (g_cancelIssued G) (g_safeBoundary G) (g_turn G) (g_predecessor G)
    (g_unsafeRoot G) (g_cancelAsked G) (g_cancelSafe G) (g_retainUnsafe G) (g_cancelOnce G) v_body
    (g_worker G) (g_watcher G) (g_release G).
Definition at_worker (v_worker : Worker) (G : inFlightGen) : inFlightGen :=
  mkInFlightGen (g_sessionID G) (g_msgID G) (g_userMsgID G) (g_cognitive G) (g_after G) (g_priors G)
    (g_cancelled G) (g_done G) (g_cancelIssued G) (g_safeBoundary G) (g_turn G) (g_predecessor G)
    (g_unsafeRoot G) (g_cancelAsked G) (g_cancelSafe G) (g_retainUnsafe G) (g_cancelOnce G) (g_body G)
    v_worker (g_watcher G) (g_release G).
Definition at_watcher (v_watcher : Watcher) (G : inFlightGen) : inFlightGen :=
  mkInFlightGen (g_sessionID G) (g_msgID G) (g_userMsgID G) (g_cognitive G) (g_after G) (g_priors G)
    (g_cancelled G) (g_done G) (g_cancelIssued G) (g_safeBoundary G) (g_turn G) (g_predecessor G)
    (g_unsafeRoot G) (g_cancelAsked G) (g_cancelSafe G) (g_retainUnsafe G) (g_cancelOnce G) (g_body G)
    (g_worker G) v_watcher (g_release G).
Definition at_release (v_release : Release) (G : inFlightGen) : inFlightGen :=
  mkInFlightGen (g_sessionID G) (g_msgID G) (g_userMsgID G) (g_cognitive G) (g_after G) (g_priors G)
    (g_cancelled G) (g_done G) (g_cancelIssued G) (g_safeBoundary G) (g_turn G) (g_predecessor G)
    (g_unsafeRoot G) (g_cancelAsked G) (g_cancelSafe G) (g_retainUnsafe G) (g_cancelOnce G) (g_body G)
    (g_worker G) (g_watcher G) v_release.
Definition asked_by (v_userMsgID : string) (G : inFlightGen) : inFlightGen :=
  mkInFlightGen (g_sessionID G) (g_msgID G) v_userMsgID (g_cognitive G) (g_after G) (g_priors G)
    (g_cancelled G) (g_done G) (g_cancelIssued G) (g_safeBoundary G) (g_turn G) (g_predecessor G)
    (g_unsafeRoot G) (g_cancelAsked G) (g_cancelSafe G) (g_retainUnsafe G) (g_cancelOnce G) (g_body G)
    (g_worker G) (g_watcher G) (g_release G).
Definition with_priors (v_priors : list nat) (G : inFlightGen) : inFlightGen :=
  mkInFlightGen (g_sessionID G) (g_msgID G) (g_userMsgID G) (g_cognitive G) (g_after G) v_priors
    (g_cancelled G) (g_done G) (g_cancelIssued G) (g_safeBoundary G) (g_turn G) (g_predecessor G)
    (g_unsafeRoot G) (g_cancelAsked G) (g_cancelSafe G) (g_retainUnsafe G) (g_cancelOnce G) (g_body G)
    (g_worker G) (g_watcher G) (g_release G).
Definition forget_predecessor (G : inFlightGen) : inFlightGen :=
  mkInFlightGen (g_sessionID G) (g_msgID G) (g_userMsgID G) (g_cognitive G) (g_after G) (g_priors G)
    (g_cancelled G) (g_done G) (g_cancelIssued G) (g_safeBoundary G) (g_turn G) None (g_unsafeRoot G)
    (g_cancelAsked G) (g_cancelSafe G) (g_retainUnsafe G) (g_cancelOnce G) (g_body G) (g_worker G)
    (g_watcher G) (g_release G).
Definition with_turn (v_turn : option nat) (G : inFlightGen) : inFlightGen :=
  mkInFlightGen (g_sessionID G) (g_msgID G) (g_userMsgID G) (g_cognitive G) (g_after G) (g_priors G)
    (g_cancelled G) (g_done G) (g_cancelIssued G) (g_safeBoundary G) v_turn (g_predecessor G) (g_unsafeRoot G)
    (g_cancelAsked G) (g_cancelSafe G) (g_retainUnsafe G) (g_cancelOnce G) (g_body G) (g_worker G)
    (g_watcher G) (g_release G).
Definition ctx_cancel (G : inFlightGen) : inFlightGen :=
  mkInFlightGen (g_sessionID G) (g_msgID G) (g_userMsgID G) (g_cognitive G) (g_after G) (g_priors G) true
    (g_done G) (g_cancelIssued G) (g_safeBoundary G) (g_turn G) (g_predecessor G) (g_unsafeRoot G)
    (g_cancelAsked G) (g_cancelSafe G) (g_retainUnsafe G) (g_cancelOnce G) (g_body G) (g_worker G)
    (g_watcher G) (g_release G).
Definition close_done (G : inFlightGen) : inFlightGen :=
  mkInFlightGen (g_sessionID G) (g_msgID G) (g_userMsgID G) (g_cognitive G) (g_after G) (g_priors G)
    (g_cancelled G) true (g_cancelIssued G) (g_safeBoundary G) (g_turn G) (g_predecessor G) (g_unsafeRoot G)
    (g_cancelAsked G) (g_cancelSafe G) (g_retainUnsafe G) (g_cancelOnce G) (g_body G) (g_worker G)
    (g_watcher G) (g_release G).
Definition close_issued (G : inFlightGen) : inFlightGen :=
  mkInFlightGen (g_sessionID G) (g_msgID G) (g_userMsgID G) (g_cognitive G) (g_after G) (g_priors G)
    (g_cancelled G) (g_done G) true (g_safeBoundary G) (g_turn G) (g_predecessor G) (g_unsafeRoot G)
    (g_cancelAsked G) (g_cancelSafe G) (g_retainUnsafe G) (g_cancelOnce G) (g_body G) (g_worker G)
    (g_watcher G) (g_release G).
Definition completed_safe (G : inFlightGen) : inFlightGen :=
  mkInFlightGen (g_sessionID G) (g_msgID G) (g_userMsgID G) (g_cognitive G) (g_after G) (g_priors G)
    (g_cancelled G) (g_done G) (g_cancelIssued G) true (g_turn G) (g_predecessor G) (g_unsafeRoot G)
    (g_cancelAsked G) true (g_retainUnsafe G) (g_cancelOnce G) (g_body G) (g_worker G) (g_watcher G)
    (g_release G).
Definition made_safe (G : inFlightGen) : inFlightGen :=
  mkInFlightGen (g_sessionID G) (g_msgID G) (g_userMsgID G) (g_cognitive G) (g_after G) (g_priors G)
    (g_cancelled G) (g_done G) (g_cancelIssued G) true (g_turn G) (g_predecessor G) (g_unsafeRoot G)
    (g_cancelAsked G) true false (g_cancelOnce G) (g_body G) (g_worker G) (g_watcher G) (g_release G).
Definition made_unsafe (v_unsafeRoot : option nat) (G : inFlightGen) : inFlightGen :=
  mkInFlightGen (g_sessionID G) (g_msgID G) (g_userMsgID G) (g_cognitive G) (g_after G) (g_priors G)
    (g_cancelled G) (g_done G) (g_cancelIssued G) (g_safeBoundary G) (g_turn G) (g_predecessor G) v_unsafeRoot
    (g_cancelAsked G) false true (g_cancelOnce G) (g_body G) (g_worker G) (g_watcher G) (g_release G).
Definition claimed_by (v_worker : Worker) (G : inFlightGen) : inFlightGen :=
  mkInFlightGen (g_sessionID G) (g_msgID G) (g_userMsgID G) (g_cognitive G) (g_after G) (g_priors G)
    (g_cancelled G) (g_done G) (g_cancelIssued G) (g_safeBoundary G) (g_turn G) (g_predecessor G)
    (g_unsafeRoot G) true (g_cancelSafe G) (g_retainUnsafe G) true (g_body G) v_worker (g_watcher G)
    (g_release G).

(** A runtime turn with its router: [b_ctxDone] is the context it was admitted under,
    [b_session] the runtime. *)
Record runtimeTurnBinding := mkBinding {
  b_gen : nat;
  b_session : nat;
  b_routerClosed : bool;
  b_terminalDrained : bool;
  b_sendReturned : bool;
  b_sendDecided : bool;
  b_sendStarted : bool;
  b_sendErr : bool;
  b_ctxDone : bool;
  b_send : Send;
}.
Definition at_send (v_send : Send) (B : runtimeTurnBinding) : runtimeTurnBinding :=
  mkBinding (b_gen B) (b_session B) (b_routerClosed B) (b_terminalDrained B) (b_sendReturned B)
    (b_sendDecided B) (b_sendStarted B) (b_sendErr B) (b_ctxDone B) v_send.
Definition decide_send (v_sendStarted : bool) (B : runtimeTurnBinding) : runtimeTurnBinding :=
  mkBinding (b_gen B) (b_session B) (b_routerClosed B) (b_terminalDrained B) (b_sendReturned B) true
    v_sendStarted (b_sendErr B) (b_ctxDone B) (b_send B).
Definition close_returned (v_sendErr : bool) (B : runtimeTurnBinding) : runtimeTurnBinding :=
  mkBinding (b_gen B) (b_session B) (b_routerClosed B) (b_terminalDrained B) true (b_sendDecided B)
    (b_sendStarted B) v_sendErr (b_ctxDone B) (b_send B).
Definition router_closed (B : runtimeTurnBinding) : runtimeTurnBinding :=
  mkBinding (b_gen B) (b_session B) true (b_terminalDrained B) (b_sendReturned B) (b_sendDecided B)
    (b_sendStarted B) (b_sendErr B) (b_ctxDone B) (b_send B).
Definition terminal_drained (B : runtimeTurnBinding) : runtimeTurnBinding :=
  mkBinding (b_gen B) (b_session B) true true (b_sendReturned B) (b_sendDecided B) (b_sendStarted B)
    (b_sendErr B) (b_ctxDone B) (b_send B).
Definition ctx_done (B : runtimeTurnBinding) : runtimeTurnBinding :=
  mkBinding (b_gen B) (b_session B) (b_routerClosed B) (b_terminalDrained B) (b_sendReturned B)
    (b_sendDecided B) (b_sendStarted B) (b_sendErr B) true (b_send B).

(** [CancelActiveGeneration] and [CancelCognitiveTurn]. *)
Inductive Canceller :=
| CHead (s : string)
| CLock (g : nat) | CLoop (head : nat) (cur : option nat) | CNext (head g : nat)
| CFind (s msg : string) | CWalk (msg : string) (cur : option nat) | CTarget (g : nat)
| CDone.

(** [closed] and [owner_done] are the lifecycle manager's; [panicked] is set by closing a
    closed channel. *)
Record GWorld := mkGWorld {
  gens : list inFlightGen;
  turns : list runtimeTurnBinding;
  activeGen : gmap string nat;
  routers : gmap string nat;
  activeGenMu : option nat;
  cancellers : list Canceller;
  runtime_done : gset nat;
  closed : bool;
  owner_done : bool;
  panicked : bool;
}.
Definition empty_gworld : GWorld := mkGWorld [] [] ∅ ∅ None [] ∅ false false false.

(** ** What a goroutine reads *)

Definition gen_flag (f : inFlightGen → bool) (w : GWorld) (g : nat) : bool :=
  match gens w !! g with Some G => f G | None => false end.
Definition turn_flag (f : runtimeTurnBinding → bool) (w : GWorld) (b : nat) : bool :=
  match turns w !! b with Some B => f B | None => false end.
(** [hasActiveGeneration]. *)
Definition IsGenerating (w : GWorld) (s : string) : bool := bool_decide (is_Some (activeGen w !! s)).
Definition generationDone : GWorld → nat → bool := gen_flag g_done.
Definition generationCancelAsked : GWorld → nat → bool := gen_flag g_cancelAsked.
Definition generationPredecessor (w : GWorld) (g : nat) : option nat :=
  match gens w !! g with Some G => g_predecessor G | None => None end.
Definition generationResolvedSafe (w : GWorld) (p : option nat) : bool :=
  match p with Some p => gen_flag g_cancelSafe w p | None => true end.
Definition generationUnsafeRoot (w : GWorld) (p : option nat) : option nat :=
  match p with
  | Some p =>
      match gens w !! p with
      | Some P => if g_cancelSafe P then None else match g_unsafeRoot P with Some r => Some r | None => Some p end
      | None => None
      end
  | None => None
  end.
Definition unlocked (w : GWorld) : bool := bool_decide (activeGenMu w = None).

(** ** History of a queued turn *)

Record Message := mkMessage {
  msg_ID : string;
  msg_SessionID : string;
  msg_Role : string;
  msg_IsCompacted : bool;
}.
(** [GetMessage] of the store. *)
Inductive MsgRead := ReadErr | NoRows | Row (m : Message).

(** [completeWorkingHistory]: whether the turns it was queued behind have the messages that
    make up its history. *)
Definition working_message (role id session : string) (m : Message) : bool :=
  bool_decide (msg_ID m = id) && bool_decide (msg_SessionID m = session) && bool_decide (msg_Role m = role)
  && negb (msg_IsCompacted m).
Definition prior_complete (w : GWorld) (GetMessage : string → MsgRead) (session : string) (p : nat) : bool :=
  match gens w !! p with
  | Some P =>
      g_done P && negb (bool_decide (g_userMsgID P = "")) &&
      match GetMessage (g_userMsgID P) with
      | Row u =>
          match GetMessage (g_msgID P) with
          | NoRows => g_cancelAsked P
          | ReadErr => false
          | Row o => working_message "user" (g_userMsgID P) session u && working_message "assistant" (g_msgID P) session o
          end
      | _ => false
      end
  | None => false
  end.
Definition completeWorkingHistory (w : GWorld) (GetMessage : string → MsgRead) (G : inFlightGen) : bool :=
  forallb (prior_complete w GetMessage (g_sessionID G)) (g_priors G).

(** ** Steps *)

(** What comes from outside in a step. *)
Inductive GIn :=
| Go                                   (* nothing: the goroutine goes on *)
| Expired                              (* a bounded wait ended, or its owner did *)
| Reply (b : bool)
| Reads (GetMessage : string → MsgRead).

(** What a step of a goroutine does: the generation, one binding, the registry and the
    routers after it, and whether it closed a closed channel. *)
Record GEffect := mkGEffect {
  ef_gen : inFlightGen;
  ef_turn : option (nat * runtimeTurnBinding);
  ef_slots : gmap string nat;
  ef_routers : gmap string nat;
  ef_panics : bool;
}.

Section Steps.
Context (w : GWorld) (g : nat) (G : inFlightGen).

Definition only (G' : inFlightGen) : option GEffect := Some (mkGEffect G' None (activeGen w) (routers w) false).
Definition and_turn (b : nat) (B : runtimeTurnBinding) (G' : inFlightGen) : option GEffect :=
  Some (mkGEffect G' (Some (b, B)) (activeGen w) (routers w) false).
(** [finishPerSessionRouter] and [retirePerSessionRouter] take the router out of the bridge
    if it is still there. *)
Definition without_router (s : string) (b : nat) : gmap string nat :=
  if bool_decide (routers w !! s = Some b) then delete s (routers w) else routers w.
Definition finish_router (b : nat) (B : runtimeTurnBinding) (G' : inFlightGen) : option GEffect :=
  Some (mkGEffect G' (Some (b, terminal_drained B)) (activeGen w) (without_router (g_sessionID G) b) false).
Definition holds_slot : bool := bool_decide (activeGen w !! g_sessionID G = Some g).
Definition clears_slot (clear : bool) (G' : inFlightGen) : option GEffect :=
  Some (mkGEffect G' None (if clear then delete (g_sessionID G) (activeGen w) else activeGen w) (routers w) false).
(** A goroutine of the lifecycle manager starts unless the manager is closed. *)
Definition started {A} (x never : A) : A := if closed w then never else x.

(** [markGenerationSafe], [observeUnsafePredecessor], [observeUnsafeRuntimeBoundary]. *)
Definition mark_safe (G : inFlightGen) : inFlightGen :=
  let G := made_safe G in match g_release G with RNone => at_release (started RWait RDone) G | _ => G end.
Definition observe (v : Watcher) (G : inFlightGen) : inFlightGen :=
  match g_watcher G with VNone => at_watcher (started v VDone) G | _ => G end.
Definition observe_predecessor (root : option nat) (G : inFlightGen) : inFlightGen :=
  match root with
  | Some r => if bool_decide (r = g) then G else observe (VInherit r) G
  | None => G
  end.
Definition mark_unsafe (root : option nat) (G : inFlightGen) : inFlightGen := made_unsafe (Some (default g root)) G.

(** [claimGenerationCancellationLocked]: the claim stops a send that was not decided. *)
Definition claim : inFlightGen * option (nat * runtimeTurnBinding) :=
  if g_cancelOnce G then (G, None) else
  let t := b ← g_turn G; B ← turns w !! b; Some (b, B) in
  (claimed_by (WClaimed (mkClaim (g_turn G) (g_predecessor G) (match t with Some (_, B) => b_sendStarted B | None => false end))) G,
   match t with Some (b, B) => Some (b, decide_send (b_sendStarted B) B) | None => None end).

(** The part of [launchGeneration] after the registration. *)
Definition launch_step (i : GIn) : option GEffect :=
  match g_body G, i with
  | GRegistered user, Go =>
      only (if g_cognitive G then at_body (GWalk (g_after G)) (asked_by user G) else at_body GSpawn G)
  | GWalk None, Go => only (at_body GSpawn G)
  | GWalk (Some p), Go => only (at_body (GWalk (generationPredecessor w p)) (with_priors (g_priors G ++ [p])%list G))
  | _, _ => None
  end.
(** [waitForPredecessor]. *)
Definition wait_step (i : GIn) : option GEffect :=
  let to b := only (at_body b G) in
  match g_body G, i with
  | GWaitDone, Go =>
      match g_after G with
      | None => to GHistory
      | Some p => if generationDone w p then to GAsk else None
      end
  | GWaitDone, Expired => if owner_done w && bool_decide (is_Some (g_after G)) then to GRefused else None
  | GAsk, Go => p ← g_after G; to (if generationCancelAsked w p then GWaitIssued else GSafe)
  | GWaitIssued, Go => p ← g_after G; if gen_flag g_cancelIssued w p then to GSafe else None
  | GWaitIssued, Expired => if owner_done w then to GRefused else None
  | GSafe, Go => to (if generationResolvedSafe w (g_after G) then GErr else GRefused)
  | GErr, Go => to (if g_cancelled G then GRefused else GHistory)
  | _, _ => None
  end.
(** [retainUnsafePredecessor]. *)
Definition retain_step (i : GIn) : option GEffect :=
  let to b := only (at_body b G) in
  match g_body G, i with
  | GRetain, Go => to (if generationResolvedSafe w (g_after G) then GExit else GRoot)
  | GRoot, Go => to (GMark (generationUnsafeRoot w (g_after G)))
  | GMark root, Go => if unlocked w then only (at_body (GObserve root) (mark_unsafe root G)) else None
  | GObserve root, Go => only (at_body GExit (observe_predecessor root G))
  | _, _ => None
  end.
(** [requestGenerationCancellation] on its own turn. *)
Definition request_step (i : GIn) : option GEffect :=
  match g_body G, i with
  | GRequest, Go =>
      if unlocked w then
        let '(G', t) := claim in
        Some (mkGEffect (at_body (if g_cancelOnce G then GComplete else GAwait) G') t (activeGen w) (routers w) false)
      else None
  | GAwait, Go => match g_worker G with WClaimed _ => None | _ => only (at_body GComplete G) end
  | _, _ => None
  end.
(** [deregisterGeneration]. *)
Definition deregister_step (i : GIn) : option GEffect :=
  match g_body G, i with
  | GDereg, Go =>
      if unlocked w then
        if holds_slot then
          clears_slot (negb (g_cancelAsked G) && negb (g_retainUnsafe G)) (at_body (if g_cancelAsked G then GBarrier else GCancelFn) G)
        else only (at_body GCancelFn G)
      else None
  | GBarrier, Go => if g_cancelIssued G then only (at_body GDereg2 G) else None
  | GDereg2, Go => if unlocked w then clears_slot (holds_slot && negb (g_retainUnsafe G)) (at_body GCancelFn G) else None
  | _, _ => None
  end.
(** [markGenerationCompleted]. *)
Definition mark_completed (G : inFlightGen) : inFlightGen :=
  if negb (g_cancelAsked G) && negb (g_retainUnsafe G) then completed_safe G else G.

Definition body_step (i : GIn) : option GEffect :=
  let to b := only (at_body b G) in
  match g_body G with
  | GRegistered _ | GWalk _ => launch_step i
  | GWaitDone | GAsk | GWaitIssued | GSafe | GErr => wait_step i
  | GRetain | GRoot | GMark _ | GObserve _ => retain_step i
  | GRequest | GAwait => request_step i
  | GDereg | GBarrier | GDereg2 => deregister_step i
  | b =>
      match b, i with
      | GReserved, Reply stored => to (if stored : bool then GSpawn else GDereg)
      | GSpawn, Go => to (started GWaitDone GNever)
      | GRefused, Go => to (if g_cancelled G then GRefusedSafe else GRetain)
      | GRefusedSafe, Go => to (if generationResolvedSafe w (g_after G) then GExit else GRetain)
      | GHistory, Go => if g_cognitive G then None else to GDrop
      | GHistory, Reads GetMessage =>
          if g_cognitive G then to (if completeWorkingHistory w GetMessage G then GDrop else GExit) else None
      | GDrop, Go => only (at_body GRun (match g_after G with Some _ => forget_predecessor G | None => G end))
      | GRun, Go => to GRan
      | GRan, Go =>
          to match g_turn G with Some b => if turn_flag b_sendStarted w b then GDrain b else GComplete | None => GComplete end
      | GDrain b, Go => if turn_flag b_sendReturned w b then to GComplete else None
      | GDrain b, Expired => to GRequest
      | GComplete, Go => if unlocked w then only (at_body GExit (mark_completed G)) else None
      | GExit, Go => Some (mkGEffect (at_body GDereg (close_done G)) None (activeGen w) (routers w) (g_done G))
      | GCancelFn, Go => only (at_body GFinished (ctx_cancel G))
      | _, _ => None
      end
  end.

(** [generationBoundarySafe]. *)
Definition boundary_step (i : GIn) : option GEffect :=
  let to x := only (at_worker x G) in
  match g_worker G, i with
  | WWait c, Go =>
      match c_predecessor c with
      | None => to (WTurn c true)
      | Some p => if generationDone w p then to (WAsk c) else None
      end
  | WWait c, Expired => match c_predecessor c with Some _ => to (WTurn c false) | None => None end
  | WAsk c, Go =>
      to match c_predecessor c with
         | Some p => if generationCancelAsked w p then WIssued c else WSafe c
         | None => WSafe c
         end
  | WIssued c, Go => p ← c_predecessor c; if gen_flag g_cancelIssued w p then to (WSafe c) else None
  | WIssued c, Expired => to (WTurn c false)
  | WSafe c, Go => to (WTurn c (generationResolvedSafe w (c_predecessor c)))
  | _, _ => None
  end.
Definition worker_step (i : GIn) : option GEffect :=
  let to x := only (at_worker x G) in
  let with_binding b (k : runtimeTurnBinding → option GEffect) := B ← turns w !! b; k B in
  match g_worker G, i with
  | WClaimed c, Go => only (at_worker (started (WWait c) WNever) (ctx_cancel G))
  | (WWait _ | WAsk _ | WIssued _ | WSafe _), i => boundary_step i
  | WTurn c ps, Go =>
      match c_binding c with
      | None => to (WDecide c ps true)
      | Some b =>
          with_binding b (λ B, and_turn b (router_closed B)
            (at_worker (if c_sendStarted c then WSend b c ps else WAbandon b c ps) G))
      end
  | WAbandon b c ps, Go => with_binding b (λ B, finish_router b B (at_worker (WDrain b c ps) G))
  | WDrain b c ps, Reply ok => if negb ok || turn_flag b_terminalDrained w b then to (WDecide c ps ok) else None
  | WSend b c ps, Go => if turn_flag b_sendReturned w b then to (WErr b c ps) else None
  | WSend b c ps, Expired => to (WStop b c ps)
  | WErr b c ps, Go => to (if turn_flag b_sendErr w b then WStop b c ps else WCancel b c ps)
  | WCancel b c ps, Reply ok =>
      if ok : bool then if turn_flag b_terminalDrained w b then to (WDecide c ps true) else None else to (WStop b c ps)
  | WStop b c ps, Reply ok =>
      if owner_done w then to (WDecide c ps false)
      else if ok : bool then
        with_binding b (λ B, if bool_decide (b_session B ∈ runtime_done w) && b_sendReturned B then to (WStopped b c ps) else None)
      else to (WDecide c ps false)
  | WStopped b c ps, Go => with_binding b (λ B, finish_router b B (at_worker (WDecide c ps true) G))
  | WDecide c ps ts, Go => to (if ps && ts then WMarkSafe else WRoot c ps ts)
  | WMarkSafe, Go => if unlocked w then only (at_worker WClose (mark_safe G)) else None
  | WRoot c ps ts, Go =>
      to (WMarkUnsafe c ps ts (if ps : bool then g else default g (generationUnsafeRoot w (c_predecessor c))))
  | WMarkUnsafe c ps ts root, Go =>
      if unlocked w then only (at_worker (WObserve c ps ts root) (mark_unsafe (Some root) G)) else None
  | WObserve c ps ts root, Go =>
      only (at_worker WClose
        match c_binding c with
        | Some b => if negb ts && c_sendStarted c then observe (VSend b (c_predecessor c)) G
                    else if negb ps then observe_predecessor (Some root) G else G
        | None => if negb ps then observe_predecessor (Some root) G else G
        end)
  | WClose, Go => Some (mkGEffect (at_worker WDone (close_issued G)) None (activeGen w) (routers w) (g_cancelIssued G))
  | _, _ => None
  end.

Definition watcher_step (i : GIn) : option GEffect :=
  let to x := only (at_watcher x G) in
  match g_watcher G, i with
  | VInherit r, Go => if gen_flag g_safeBoundary w r then to VMark else None
  | VSend b p, Go => if turn_flag b_sendReturned w b then to (VTerminal b p) else None
  | VTerminal b p, Go => if turn_flag b_terminalDrained w b then to (VPred p) else None
  | VTerminal b p, Reply true =>
      B ← turns w !! b;
      if bool_decide (b_session B ∈ runtime_done w) then finish_router b B (at_watcher (VPred p) G) else None
  | (VInherit _ | VSend _ _ | VTerminal _ _), Expired => if owner_done w then to VDone else None
  | VPred p, Go => to (if generationResolvedSafe w p then VMark else VPredRoot p)
  | VPredRoot p, Go => to match generationUnsafeRoot w p with Some r => VInherit r | None => VDone end
  | VMark, Go => if unlocked w then only (at_watcher VDone (mark_safe G)) else None
  | _, _ => None
  end.

Definition release_step (i : GIn) : option GEffect :=
  match g_release G, i with
  | RWait, Go => if g_done G then only (at_release RDelete G) else None
  | RWait, Expired => if owner_done w then only (at_release RDone G) else None
  | RDelete, Go =>
      if unlocked w then clears_slot (holds_slot && g_cancelSafe G && negb (g_retainUnsafe G)) (at_release RDone G) else None
  | _, _ => None
  end.

(** [ctx.Err() != nil] of the context a turn was admitted under. *)
Definition turn_ctx_done (B : runtimeTurnBinding) : bool := b_ctxDone B || g_cancelled G.
(** [beginRuntimeSend]. *)
Definition beginRuntimeSend (b : nat) (B : runtimeTurnBinding) : runtimeTurnBinding :=
  if b_sendDecided B then B
  else decide_send (bool_decide (g_turn G = Some b) && negb (g_cancelAsked G) && negb (turn_ctx_done B)) B.

(** [cleanupFailedRuntimeSend]. *)
Definition cleanup_step (i : GIn) (b : nat) (B : runtimeTurnBinding) : option GEffect :=
  let to x := and_turn b (at_send x B) G in
  match b_send B, i with
  | SErrRetire, Go =>
      Some (mkGEffect G (Some (b, at_send SErrStop (router_closed B))) (activeGen w) (without_router (g_sessionID G) b) false)
  | SErrStop, Reply terminal =>
      if terminal : bool then if bool_decide (b_session B ∈ runtime_done w) then to SErrFinish else None else to SDone
  | SErrFinish, Go => finish_router b (at_send SErrSafe B) G
  | SErrSafe, Go => if unlocked w then and_turn b (at_send SDone B) (mark_safe G) else None
  | _, _ => None
  end.
Definition send_step (i : GIn) (b : nat) (B : runtimeTurnBinding) : option GEffect :=
  let to x := and_turn b (at_send x B) G in
  match b_send B, i with
  | SAdmitted, Go =>
      let B' := beginRuntimeSend b B in
      if b_sendStarted B' then and_turn b (at_send SSending B') G else finish_router b (at_send SDone B') G
  | SSending, Reply ok => to (if ok : bool then SOk else SErr)
  | SOk, Go => Some (mkGEffect G (Some (b, at_send SDone (close_returned false B))) (activeGen w) (routers w) (b_sendReturned B))
  | SErr, Go => if unlocked w then and_turn b (at_send SErrObserve B) (mark_unsafe (Some g) G) else None
  | SErrObserve, Go => and_turn b (at_send SErrComplete B) (observe (VSend b None) G)
  | SErrComplete, Go => Some (mkGEffect G (Some (b, at_send SErrRetire (close_returned true B))) (activeGen w) (routers w) (b_sendReturned B))
  | (SErrRetire | SErrStop | SErrFinish | SErrSafe), i => cleanup_step i b B
  | _, _ => None
  end.
End Steps.

Definition perform (g : nat) (e : GEffect) (w : GWorld) : GWorld :=
  mkGWorld (<[g := ef_gen e]> (gens w)) (match ef_turn e with Some (b, B) => <[b := B]> (turns w) | None => turns w end)
    (ef_slots e) (ef_routers e) (activeGenMu w) (cancellers w) (runtime_done w) (closed w) (owner_done w)
    (panicked w || ef_panics e).

(** [registerGeneration] and [registerGenerationIfIdle]. *)
Definition newInFlightGen (s msg : string) (cognitive : bool) (prev : option nat) (b : Body) : inFlightGen :=
  mkInFlightGen s msg "" cognitive prev [] false false false false None prev None false false false false b WNone VNone RNone.
Definition register (s : string) (G : inFlightGen) (w : GWorld) : GWorld :=
  mkGWorld (gens w ++ [G])%list (turns w) (<[s := length (gens w)]> (activeGen w)) (routers w) (activeGenMu w)
    (cancellers w) (runtime_done w) (closed w) (owner_done w) (panicked w).

(** [admitRuntimeTurn] with the [bind] of [driveBootSession]: the router is published only
    when the bridge has none for the session, and taken back when the runtime does not
    admit its owner ([sink]). *)
Definition admitRuntimeTurn (w : GWorld) (g : nat) (G : inFlightGen) (session : nat) (ctx_err sink : bool) : GWorld :=
  if g_cancelAsked G || ctx_err || g_cancelled G then w
  else if bool_decide (is_Some (routers w !! g_sessionID G)) || negb sink then w
  else
    let b := length (turns w) in
    mkGWorld (<[g := with_turn (Some b) G]> (gens w))
      (turns w ++ [mkBinding g session false false false false false false false SAdmitted])%list
      (activeGen w) (<[g_sessionID G := b]> (routers w)) (activeGenMu w) (cancellers w) (runtime_done w) (closed w)
      (owner_done w) (panicked w).

(** ** Cancellation calls *)

Definition set_canceller (c : nat) (x : Canceller) (w : GWorld) : GWorld :=
  mkGWorld (gens w) (turns w) (activeGen w) (routers w) (activeGenMu w) (<[c := x]> (cancellers w)) (runtime_done w)
    (closed w) (owner_done w) (panicked w).
Definition add_cancellers (l : list Canceller) (w : GWorld) : GWorld :=
  mkGWorld (gens w) (turns w) (activeGen w) (routers w) (activeGenMu w) (cancellers w ++ l)%list (runtime_done w)
    (closed w) (owner_done w) (panicked w).
Definition set_lock (l : option nat) (w : GWorld) : GWorld :=
  mkGWorld (gens w) (turns w) (activeGen w) (routers w) l (cancellers w) (runtime_done w) (closed w) (owner_done w)
    (panicked w).
Definition do_claim (g : nat) (w : GWorld) : GWorld :=
  match gens w !! g with
  | Some G => let '(G', t) := claim w G in perform g (mkGEffect G' t (activeGen w) (routers w) false) w
  | None => w
  end.

(** A call that holds the lock keeps it from [CLock] or [CFind] to [CDone]. *)
Definition call_to (c : nat) (x : Canceller) (w : GWorld) : option GWorld := Some (set_canceller c x w).
Definition call_ends (c : nat) (w : GWorld) : option GWorld := Some (set_lock None (set_canceller c CDone w)).
(** [cancelGenerationChain]. *)
Definition chain_step (c : nat) (x : Canceller) (w : GWorld) : option GWorld :=
  match x with
  | CLock g => if unlocked w then Some (set_lock (Some c) (set_canceller c (CLoop g (Some g)) w)) else None
  | CLoop _ None => call_ends c w
  | CLoop h (Some g) =>
      if negb (bool_decide (g = h)) && generationDone w g then call_ends c w
      else call_to c (CNext h g) (do_claim g w)
  | CNext h g => call_to c (CLoop h (generationPredecessor w g)) w
  | _ => None
  end.
(** [CancelCognitiveTurn]. *)
Definition find_step (c : nat) (x : Canceller) (w : GWorld) : option GWorld :=
  match x with
  | CFind s msg => if unlocked w then Some (set_lock (Some c) (set_canceller c (CWalk msg (activeGen w !! s)) w)) else None
  | CWalk _ None => call_ends c w
  | CWalk msg (Some g) =>
      if gen_flag (λ G, bool_decide (g_msgID G = msg)) w g && negb (generationDone w g) then call_to c (CTarget g) w
      else call_to c (CWalk msg (generationPredecessor w g)) w
  | CTarget g => call_ends c (do_claim g w)
  | _ => None
  end.
Definition cancel_step (c : nat) (x : Canceller) (w : GWorld) : option GWorld :=
  match x with
  | CHead s => if unlocked w then call_to c match activeGen w !! s with Some g => CLock g | None => CDone end w else None
  | CLock _ | CLoop _ _ | CNext _ _ => chain_step c x w
  | CFind _ _ | CWalk _ _ | CTarget _ => find_step c x w
  | CDone => None
  end.

(** ** The system *)

(** The goroutine of the turn runs, and with it the bridge from the lifecycle's context. *)
Definition bridged (G : inFlightGen) : bool :=
  match g_body G with
  | GRegistered _ | GWalk _ | GReserved | GSpawn | GNever | GFinished => false
  | GDereg | GBarrier | GDereg2 | GCancelFn => g_done G
  | _ => true
  end.

Inductive Ev :=
| Launch (s msg user : string) (cognitive : bool)     (* launchGeneration *)
| Trigger (s msg : string)                            (* registerGenerationIfIdle *)
| BodyStep (g : nat) (i : GIn)
| BridgeStep (g : nat)                                (* shutdown reaches the context of a turn *)
| WorkerStep (g : nat) (i : GIn)
| WatcherStep (g : nat) (i : GIn)
| ReleaseStep (g : nat) (i : GIn)
| SendStep (b : nat) (i : GIn)
| AdmitTurn (g session : nat) (ctx_err sink : bool)
| TurnTerminal (b : nat)                              (* the runtime ends a turn, the bridge drains it *)
| TurnCtxDone (b : nat) | RouterClose (b : nat)
| RuntimeDone (session : nat)
| CancelActiveGeneration (s : string) | CancelCognitiveTurn (s msg : string) | ShutdownCancels
| CancelStep (c : nat)
| CloseLifecycle | OwnerDone.

Definition set_turn (b : nat) (B : runtimeTurnBinding) (w : GWorld) : GWorld :=
  mkGWorld (gens w) (<[b := B]> (turns w)) (activeGen w) (routers w) (activeGenMu w) (cancellers w) (runtime_done w)
    (closed w) (owner_done w) (panicked w).

Definition apply (e : Ev) (w : GWorld) : option GWorld :=
  match e with
  | Launch s msg user cognitive =>
      if unlocked w then Some (register s (newInFlightGen s msg cognitive (activeGen w !! s) (GRegistered user)) w) else None
  | Trigger s msg =>
      if unlocked w then
        match activeGen w !! s with
        | Some _ => Some w
        | None => Some (register s (newInFlightGen s msg false None GReserved) w)
        end
      else None
  | BodyStep g i => G ← gens w !! g; e ← body_step w g G i; Some (perform g e w)
  | BridgeStep g =>
      G ← gens w !! g;
      if owner_done w && bridged G
      then Some (perform g (mkGEffect (ctx_cancel G) None (activeGen w) (routers w) false) w) else None
  | WorkerStep g i => G ← gens w !! g; e ← worker_step w g G i; Some (perform g e w)
  | WatcherStep g i => G ← gens w !! g; e ← watcher_step w G i; Some (perform g e w)
  | ReleaseStep g i => G ← gens w !! g; e ← release_step w g G i; Some (perform g e w)
  | SendStep b i => B ← turns w !! b; G ← gens w !! b_gen B; e ← send_step w (b_gen B) G i b B; Some (perform (b_gen B) e w)
  | AdmitTurn g session ctx_err sink =>
      G ← gens w !! g; match g_body G with GRun => Some (admitRuntimeTurn w g G session ctx_err sink) | _ => None end
  | TurnTerminal b =>
      B ← turns w !! b; G ← gens w !! b_gen B;
      if b_sendStarted B then e ← finish_router w G b B G; Some (perform (b_gen B) e w) else None
  | TurnCtxDone b => B ← turns w !! b; Some (set_turn b (ctx_done B) w)
  | RouterClose b =>
      B ← turns w !! b; G ← gens w !! b_gen B; if turn_ctx_done G B then Some (set_turn b (router_closed B) w) else None
  | RuntimeDone n =>
      Some (mkGWorld (gens w) (turns w) (activeGen w) (routers w) (activeGenMu w) (cancellers w) ({[n]} ∪ runtime_done w)
        (closed w) (owner_done w) (panicked w))
  | CancelActiveGeneration s => Some (add_cancellers [CHead s] w)
  | CancelCognitiveTurn s msg => Some (add_cancellers [CFind s msg] w)
  | ShutdownCancels => if unlocked w then Some (add_cancellers (map (λ p, CLock p.2) (map_to_list (activeGen w))) w) else None
  | CancelStep c => x ← cancellers w !! c; cancel_step c x w
  | CloseLifecycle =>
      Some (mkGWorld (gens w) (turns w) (activeGen w) (routers w) (activeGenMu w) (cancellers w) (runtime_done w) true
        (owner_done w) (panicked w))
  | OwnerDone =>
      if closed w then
        Some (mkGWorld (gens w) (turns w) (activeGen w) (routers w) (activeGenMu w) (cancellers w) (runtime_done w) true
          true (panicked w))
      else None
  end.
Definition step (w : GWorld) (e : Ev) (w' : GWorld) : Prop := apply e w = Some w'.
Definition reachable (w : GWorld) : Prop := ∃ evs, steps step empty_gworld evs w.

(** What the runner of a turn does: it returns when the send of its runtime turn was
    decided or the turn's context is done, and admits another runtime turn only after the
    send of the one before returned without an error, or was decided against. *)
Definition orderly (w : GWorld) (e : Ev) : bool :=
  let turn_of g P := match gens w !! g with
    | Some G => match g_turn G with
                | Some b => match turns w !! b with Some B => P G B | None => true end
                | None => true
                end
    | None => true
    end in
  match e with
  | BodyStep g _ =>
      match gens w !! g with
      | Some G => match g_body G with GRun => turn_of g (λ G B, b_sendDecided B || turn_ctx_done G B) | _ => true end
      | None => true
      end
  | AdmitTurn g _ _ _ =>
      turn_of g (λ _ B, (b_sendReturned B && negb (b_sendErr B)) || (b_sendDecided B && negb (b_sendStarted B)))
  | _ => true
  end.
Definition ostep (w : GWorld) (e : Ev) (w' : GWorld) : Prop := step w e w' ∧ orderly w e = true.
Definition oreachable (w : GWorld) : Prop := ∃ evs, steps ostep empty_gworld evs w.
