(* ===== verification/GenerationSafety.v ===== *)
(** The safety of the turns of a session ([Generations]).

    The invariant [gworld_ok]: a turn is [settled] when it can send nothing any more; a boundary
    that reports itself safe belongs to a settled turn all of whose predecessors are settled,
    and every goroutine of a turn carries the part of that fact it needs to its next step.
    From it, two prompts of a session are never with the runtime at once. *)

From S2P Require Import Prelude Generations.

Open Scope string_scope.
Open Scope nat_scope.
Set Default Proof Using "Type".

(** ** What stays true of a turn that is over *)

(** Bodies that may still lead to [dispatcher.Run] or are in it; that have not reached it;
    that have passed the wait for the predecessor; that are past closing [done]. *)
Definition may_run (b : Body) : bool :=
  match b with
  | GRegistered _ | GWalk _ | GReserved | GSpawn | GWaitDone | GAsk | GWaitIssued | GSafe | GErr | GHistory | GDrop | GRun => true
  | _ => false
  end.
Definition before_run (b : Body) : bool :=
  match b with
  | GRegistered _ | GWalk _ | GReserved | GSpawn | GNever | GWaitDone | GAsk | GWaitIssued | GSafe | GErr | GHistory | GDrop
  | GRefused | GRefusedSafe | GRetain | GRoot | GMark _ | GObserve _ => true
  | _ => false
  end.
Definition admitted (b : Body) : bool := match b with GErr | GHistory | GDrop => true | _ => false end.
Definition in_run (b : Body) : bool :=
  match b with GRun | GRan | GDrain _ | GRequest | GAwait | GComplete => true | _ => false end.
Definition leaving (b : Body) : bool := match b with GExit | GDereg | GBarrier | GDereg2 => true | _ => false end.
Definition over (b : Body) : bool :=
  match b with GDereg | GBarrier | GDereg2 | GCancelFn | GFinished => true | _ => false end.
(** A turn between the wait for its predecessor and the end of its run. *)
Definition dispatching (G : inFlightGen) : bool :=
  match g_body G with GHistory | GDrop => true | b => in_run b end.
(** A prompt the runtime has been given and has not returned from. *)
Definition sending (B : runtimeTurnBinding) : bool := b_sendStarted B && negb (b_sendReturned B).

(** The send of a turn is over: it returned, or it will never start. *)
Definition send_over (G : inFlightGen) (B : runtimeTurnBinding) : Prop :=
  b_sendReturned B = true ∨ (b_sendStarted B = false ∧ (b_sendDecided B = true ∨ turn_ctx_done G B = true)).
Definition failed_send (ts : list runtimeTurnBinding) (G : inFlightGen) : Prop :=
  ∃ b B, g_turn G = Some b ∧ ts !! b = Some B ∧ b_sendReturned B = true ∧ b_sendErr B = true.
(** No further turn of the runtime is admitted for it. *)
Definition frozen (ts : list runtimeTurnBinding) (G : inFlightGen) : Prop :=
  g_cancelAsked G = true ∨ may_run (g_body G) = false ∨ failed_send ts G.
Definition turn_over (ts : list runtimeTurnBinding) (G : inFlightGen) : Prop :=
  ∀ b B, g_turn G = Some b → ts !! b = Some B → send_over G B.
(** It can send nothing any more. *)
Definition settled (ts : list runtimeTurnBinding) (G : inFlightGen) : Prop := frozen ts G ∧ turn_over ts G.

(** What the steps of one generation preserve.  [Below] stands for: every earlier turn of
    the session is settled; [Between r]: every turn of the session after [r] and before
    this one is. *)
Section Local.
Context (ts : list runtimeTurnBinding) (Below : Prop) (Between : nat → Prop) (g : nat) (G : inFlightGen).

Definition quiet : Prop := settled ts G ∧ Below.
Definition rooted (r : nat) : Prop := r = g ∨ (r ≠ g ∧ Between r ∧ settled ts G).
Definition held : Prop := g_retainUnsafe G = true ∨ quiet.
Definition failing (b : nat) : Prop :=
  ∃ B, ts !! b = Some B ∧ (b_sendErr B = true ∨ b_send B ∈ [SErr; SErrObserve; SErrComplete]).
Definition returned (b : nat) : Prop := ∃ B, ts !! b = Some B ∧ b_sendReturned B = true.
Definition claim_ok (c : Claim) : Prop :=
  g_cancelAsked G = true ∧ c_binding c = g_turn G ∧
  (∀ p, c_predecessor c = Some p → g_after G = Some p ∧ g_turn G = None) ∧
  (c_predecessor c = None → Below) ∧
  (∀ b B, c_binding c = Some b → ts !! b = Some B → c_sendStarted c = false → b_sendStarted B = false ∧ b_sendDecided B = true).
Definition worker_ok : Prop :=
  match g_worker G with
  | WNone | WNever => True
  | WClaimed c | WWait c | WAsk c | WIssued c | WSafe c => claim_ok c
  | WTurn c ps => claim_ok c ∧ (ps = true → Below)
  | WAbandon b c ps | WDrain b c ps => claim_ok c ∧ (ps = true → Below) ∧ c_binding c = Some b ∧ c_sendStarted c = false
  | WSend b c ps | WStop b c ps => claim_ok c ∧ (ps = true → Below) ∧ c_binding c = Some b
  | WErr b c ps | WCancel b c ps | WStopped b c ps => claim_ok c ∧ (ps = true → Below) ∧ c_binding c = Some b ∧ returned b
  | WDecide c ps safe | WRoot c ps safe => claim_ok c ∧ (ps = true → Below) ∧ (safe = true → turn_over ts G)
  | WMarkSafe => quiet
  | WMarkUnsafe c ps _ r => claim_ok c ∧ rooted r
  | WObserve c ps _ r => claim_ok c ∧ rooted r ∧ held
  | WClose | WDone => held
  end.
Definition watcher_ok : Prop :=
  match g_watcher G with
  | VNone | VDone => True
  | VInherit r => r ≠ g ∧ Between r ∧ settled ts G
  | VSend b p => g_turn G = Some b ∧ p = None ∧ (g_cancelAsked G = true ∨ failing b)
  | VTerminal b p => g_turn G = Some b ∧ p = None ∧ (g_cancelAsked G = true ∨ failing b) ∧ returned b
  | VPred p => p = None ∧ quiet
  | VPredRoot _ => False
  | VMark => quiet
  end.
Definition run_ok : Prop :=
  match g_body G with
  | GRan => ∀ b B, g_turn G = Some b → ts !! b = Some B → b_sendDecided B = true ∨ turn_ctx_done G B = true
  | GDrain b => g_turn G = Some b
  | GAwait => g_cancelAsked G = true
  | GComplete => g_cancelAsked G = true ∨ turn_over ts G
  | GDereg2 => g_cancelIssued G = true
  | _ => True
  end.
Record ginv : Prop := {
  gi_pred : g_predecessor G = g_after G ∨ g_predecessor G = None;
  gi_pred_none : g_predecessor G = None → Below;
  gi_turn : g_turn G ≠ None → g_predecessor G = None ∧ before_run (g_body G) = false;
  gi_run : in_run (g_body G) = true → g_predecessor G = None;
  gi_passed : admitted (g_body G) = true → Below;
  gi_safe : g_cancelSafe G = true ∨ g_safeBoundary G = true → quiet;
  gi_leaving : leaving (g_body G) = true → g_retainUnsafe G = false → g_cancelAsked G = false → quiet;
  gi_observe : (∃ r, g_body G = GObserve r) → held;
  gi_issued : g_cancelIssued G = true → held;
  gi_root : ∀ r, g_unsafeRoot G = Some r → rooted r;
  gi_mark : ∀ r, g_body G = GMark (Some r) ∨ g_body G = GObserve (Some r) → rooted r;
  gi_watcher : watcher_ok;
  gi_worker : worker_ok;
  gi_reserved : g_body G = GReserved → g_after G = None;
  gi_once : g_cancelOnce G = true → g_cancelAsked G = true;
  gi_complete : run_ok;
}.
End Local.

(** A binding of the same generation moves on. *)
Record tle (G G' : inFlightGen) (B B' : runtimeTurnBinding) : Prop := {
  tl_over : send_over G B → send_over G' B';
  tl_returned : b_sendReturned B = true → b_sendReturned B' = true;
  tl_err : b_sendErr B = true → b_sendErr B' = true;
  tl_failing : b_send B ∈ [SErr; SErrObserve; SErrComplete] → b_sendErr B' = true ∨ b_send B' ∈ [SErr; SErrObserve; SErrComplete];
  tl_never : b_sendStarted B = false → b_sendDecided B = true → b_sendStarted B' = false ∧ b_sendDecided B' = true;
  tl_decided : b_sendDecided B = true ∨ turn_ctx_done G B = true → b_sendDecided B' = true ∨ turn_ctx_done G' B' = true;
}.
Lemma tle_refl G B : tle G G B B.
Proof. split; auto. Qed.

Definition turns_grow (ts ts' : list runtimeTurnBinding) (G G' : inFlightGen) : Prop :=
  ∀ b B, g_turn G = Some b → ts !! b = Some B → ∃ B', ts' !! b = Some B' ∧ tle G G' B B'.

(** A generation whose context may have been cancelled. *)
Definition maybe_cancel (c : bool) (G : inFlightGen) : inFlightGen := if c then ctx_cancel G else G.

Section Mono.
Context (ts ts' : list runtimeTurnBinding) (c : bool) (G : inFlightGen).
Hypothesis Hs : ∀ b, g_turn G = Some b → is_Some (ts !! b).
Hypothesis Hg : turns_grow ts ts' G (maybe_cancel c G).

Lemma turn_grows b B : g_turn G = Some b → ts' !! b = Some B → ∃ B0, ts !! b = Some B0 ∧ tle G (maybe_cancel c G) B0 B.
Proof using Hs Hg.
  intros Hb HB. destruct (Hs b Hb) as [B0 HB0]. destruct (Hg b B0 Hb HB0) as (B' & HB' & Hl).
  rewrite HB in HB'. injection HB' as [= <-]. eauto.
Qed.
Lemma failed_send_mono : failed_send ts G → failed_send ts' (maybe_cancel c G).
Proof using Hg.
  intros (b & B & Hb & HB & Hr & He). destruct (Hg b B Hb HB) as (B' & HB' & H).
  exists b, B'. repeat split; [by destruct c|done|by apply (tl_returned _ _ _ _ H)|by apply (tl_err _ _ _ _ H)].
Qed.
Lemma turn_over_mono : turn_over ts G → turn_over ts' (maybe_cancel c G).
Proof using Hs Hg.
  intros Ht b B Hb HB. assert (g_turn G = Some b) as Hb' by (by destruct c).
  destruct (turn_grows b B Hb' HB) as (B0 & HB0 & H). apply (tl_over _ _ _ _ H). by apply (Ht b).
Qed.
Lemma settled_mono : settled ts G → settled ts' (maybe_cancel c G).
Proof using Hs Hg.
  intros [Hf Ht]. split; [|by apply turn_over_mono].
  destruct Hf as [?|[?|?]]; [left|right; left|right; right; by apply failed_send_mono]; by destruct c.
Qed.
Lemma returned_mono b : g_turn G = Some b → returned ts b → returned ts' b.
Proof using Hg.
  intros Hb (B & HB & Hr). destruct (Hg b B Hb HB) as (B' & HB' & H). exists B'. split; [done|by apply (tl_returned _ _ _ _ H)].
Qed.
Lemma failing_mono b : g_turn G = Some b → failing ts b → failing ts' b.
Proof using Hg.
  intros Hb (B & HB & Hr). destruct (Hg b B Hb HB) as (B' & HB' & H). exists B'. split; [done|].
  destruct Hr as [?|?]; [left; by apply (tl_err _ _ _ _ H)|by apply (tl_failing _ _ _ _ H)].
Qed.

(** A generation that does not change itself keeps what it had. *)
Lemma ginv_mono (P P' : Prop) (Q Q' : nat → Prop) g : (P → P') → (∀ r, Q r → Q' r) →
  ginv ts P Q g G → ginv ts' P' Q' g (maybe_cancel c G).
Proof using Hs Hg.
  intros HP HQ [].
  pose proof settled_mono as Hset. pose proof turn_over_mono as Hover.
  pose proof returned_mono as Hretd. pose proof failing_mono as Hfail. pose proof turn_grows as Hgrows.
  assert (quiet ts P G → quiet ts' P' (maybe_cancel c G)) as Hq by (intros [? ?]; split; auto).
  assert (held ts P G → held ts' P' (maybe_cancel c G)) as Hh by (intros [?|?]; [left; by destruct c|right; auto]).
  assert (∀ r, rooted ts Q g G r → rooted ts' Q' g (maybe_cancel c G) r) as Hr by (intros r [?|(? & ? & ?)]; [by left|right; auto]).
  assert (∀ x, claim_ok ts P G x → claim_ok ts' P' (maybe_cancel c G) x) as Hc.
  { intros x (H1 & H2 & H3 & H4 & H5). repeat split; try (by destruct c); [| |by auto| |].
    - destruct c; by apply (H3 p).
    - destruct c; by apply (H3 p).
    - destruct (Hgrows b B) as (B0 & HB0 & Hl); [congruence|done|]. destruct (H5 b B0 H HB0 H6). by apply (tl_never _ _ _ _ Hl).
    - destruct (Hgrows b B) as (B0 & HB0 & Hl); [congruence|done|]. destruct (H5 b B0 H HB0 H6). by apply (tl_never _ _ _ _ Hl). }
  assert (∀ b x, claim_ok ts P G x → c_binding x = Some b → returned ts b → returned ts' b) as Hret.
  { intros b x (_ & H2 & _) Hb. apply Hretd. congruence. }
  split.
  all: try (destruct c; cbn in *; auto; fail).
  - unfold watcher_ok in *. replace (g_watcher (maybe_cancel c G)) with (g_watcher G) by (by destruct c).
    destruct (g_watcher G); try done.
    + destruct gi_watcher0 as (? & ? & ?); auto.
    + destruct gi_watcher0 as (? & ? & Hf); split_and!; [by destruct c|done|]. destruct Hf; [left; by destruct c|right; auto].
    + destruct gi_watcher0 as (? & ? & Hf & ?); split_and!; [by destruct c|done| |by auto].
      destruct Hf; [left; by destruct c|right; auto].
    + destruct gi_watcher0; auto.
    + auto.
  - unfold worker_ok in *. replace (g_worker (maybe_cancel c G)) with (g_worker G) by (by destruct c).
    destruct (g_worker G); try done; auto; try (destruct gi_worker0 as (? & ?); split; auto; fail).
    all: try (destruct gi_worker0 as (? & ? & ?); split_and!; auto; fail).
    all: destruct gi_worker0 as (? & ? & ? & ?); split_and!; eauto.
  - unfold run_ok in *. replace (g_body (maybe_cancel c G)) with (g_body G) by (by destruct c).
    destruct (g_body G); try done.
    + intros b B Hb HB. destruct (Hgrows b B) as (B0 & HB0 & Hl); [by destruct c|done|].
      apply (tl_decided _ _ _ _ Hl), (gi_complete0 b); [by destruct c|done].
    + by destruct c.
    + by destruct c.
    + destruct gi_complete0; [left; by destruct c|right; auto].
    + by destruct c.
Qed.
End Mono.

(** ** What each change of a record preserves *)

Section Setters.
Context (w : GWorld) (ts : list runtimeTurnBinding) (P : Prop) (Q : nat → Prop) (g : nat) (G : inFlightGen).
Hypothesis HG : ginv ts P Q g G.

Ltac keeps := destruct HG; split; auto.

Lemma settled_at_body b : (may_run b = true → may_run (g_body G) = true) → settled ts G → settled ts (at_body b G).
Proof.
  intros Hm [Hf Ht]. split; [|done]. destruct Hf as [?|[Hr|?]]; [by left| |by right; right].
  right; left. cbn. destruct (may_run b); [|done]. rewrite Hm in Hr; done.
Qed.
Lemma ginv_at_body b :
  (may_run b = true → may_run (g_body G) = true) →
  (g_turn G ≠ None → before_run b = false) →
  (in_run b = true → g_predecessor G = None) →
  (admitted b = true → P) →
  (leaving b = true → g_retainUnsafe G = false → g_cancelAsked G = false → quiet ts P (at_body b G)) →
  (∀ r, b = GObserve r → held ts P (at_body b G)) →
  (∀ r, b = GMark (Some r) ∨ b = GObserve (Some r) → rooted ts Q g (at_body b G) r) → b ≠ GReserved →
  run_ok ts (at_body b G) → ginv ts P Q g (at_body b G).
Proof using HG.
  intros Hm Ht Hr Ha Hl Ho Hk Hnr Hrun. pose proof (settled_at_body b Hm) as Hset. destruct HG.
  assert (quiet ts P G → quiet ts P (at_body b G)) as Hq by (intros [? ?]; split; auto).
  assert (held ts P G → held ts P (at_body b G)) as Hh by (intros [?|?]; [by left|right; auto]).
  assert (∀ r, rooted ts Q g G r → rooted ts Q g (at_body b G) r) as Hrt by (intros r [?|(? & ? & ?)]; [by left|right; auto]).
  split; cbn; auto.
  - intros H. destruct (gi_turn0 H) as [? ?]. auto.
  - intros [r ->]. by eapply Ho.
  - unfold watcher_ok in *. cbn. destruct (g_watcher G); try done; intuition auto.
  - unfold worker_ok in *. cbn. destruct (g_worker G); try done; intuition auto.
  - done.
Qed.

Lemma ginv_asked_by u : ginv ts P Q g (asked_by u G).
Proof using HG. keeps. Qed.
Lemma ginv_with_priors l : ginv ts P Q g (with_priors l G).
Proof using HG. keeps. Qed.
Lemma ginv_close_done : ginv ts P Q g (close_done G).
Proof using HG. keeps. Qed.
Lemma ginv_at_release r : ginv ts P Q g (at_release r G).
Proof using HG. keeps. Qed.
Lemma ginv_forget_predecessor : P → ginv ts P Q g (forget_predecessor G).
Proof using HG. intros HP. keeps. intros H. split; [done|]. by apply gi_turn0. Qed.
Lemma ginv_at_worker x : worker_ok ts P Q g (at_worker x G) → ginv ts P Q g (at_worker x G).
Proof using HG. intros Hx. keeps. Qed.
Lemma ginv_at_watcher x : watcher_ok ts P Q g (at_watcher x G) → ginv ts P Q g (at_watcher x G).
Proof using HG. intros Hx. keeps. Qed.
Lemma ginv_close_issued : held ts P G → ginv ts P Q g (close_issued G).
Proof using HG. intros Hx. keeps. unfold run_ok in *. cbn. by destruct (g_body G). Qed.
Lemma ginv_completed_safe : quiet ts P G → ginv ts P Q g (completed_safe G).
Proof using HG. intros Hx. keeps. Qed.

Lemma held_made_unsafe r : held ts P (made_unsafe (Some r) G).
Proof. by left. Qed.
Lemma ginv_mark_unsafe root : rooted ts Q g G (default g root) → ginv ts P Q g (mark_unsafe g root G).
Proof using HG.
  intros Hx. pose proof (held_made_unsafe (default g root)) as Hheld. unfold mark_unsafe. destruct HG.
  assert (∀ r, rooted ts Q g G r → rooted ts Q g (made_unsafe (Some (default g root)) G) r) as Hr by done.
  split; auto.
  - intros [|]; [done|]. by apply gi_safe0; right.
  - done.
  - intros r [= <-]. auto.
  - unfold worker_ok in *. cbn in *. destruct (g_worker G); try done.
    destruct gi_worker0 as (? & ? & ?). split_and!; auto.
Qed.
Lemma ginv_mark_safe : quiet ts P G → ginv ts P Q g (mark_safe w G).
Proof using HG.
  intros Hx. unfold mark_safe.
  assert (ginv ts P Q g (made_safe G)) as H.
  { destruct HG. split; auto; try (by intros; auto).
    - intros _. by right.
    - intros _. by right.
    - unfold worker_ok in *. cbn in *. destruct (g_worker G); try done; try (right; done).
      destruct gi_worker0 as (? & ? & ?). split_and!; auto. by right. }
  destruct (g_release (made_safe G)); [|done|done|done]. destruct H. split; auto.
Qed.
Lemma ginv_observe v : watcher_ok ts P Q g (at_watcher v G) → ginv ts P Q g (observe w v G).
Proof using HG.
  intros Hx. unfold observe, started. destruct (g_watcher G); try done. destruct (closed w); [|by apply ginv_at_watcher].
  by apply ginv_at_watcher.
Qed.
Lemma ginv_observe_predecessor root :
  (∀ r, root = Some r → r ≠ g → Q r ∧ settled ts G) → ginv ts P Q g (observe_predecessor w g root G).
Proof using HG.
  intros Hx. unfold observe_predecessor. destruct root as [r|]; [|done]. case_bool_decide as Hr; [done|].
  apply ginv_observe. cbn. by destruct (Hx r eq_refl Hr).
Qed.
End Setters.

(** ** Steps of one generation *)

Definition turns_after (w : GWorld) (t : option (nat * runtimeTurnBinding)) : list runtimeTurnBinding :=
  match t with Some (b, B) => <[b := B]> (turns w) | None => turns w end.
Lemma turns_grow_refl ts G : turns_grow ts ts G G.
Proof. intros b B _ HB. exists B. split; [done|apply tle_refl]. Qed.
Lemma turns_grow_at w b B B' G G' : turns w !! b = Some B → g_turn G' = g_turn G → (g_turn G = Some b → tle G G' B B') →
  (∀ B, tle G G' B B) → turns_grow (turns w) (turns_after w (Some (b, B'))) G G'.
Proof.
  intros HB Ht Hl Hr b0 B0 Hb0 HB0. cbn. destruct (decide (b0 = b)) as [->|Hne].
  - rewrite HB in HB0. injection HB0 as [= <-]. exists B'. split; [|by auto].
    apply list_lookup_insert_eq. by eapply lookup_lt_Some.
  - exists B0. split; [|done]. by rewrite list_lookup_insert_ne by done.
Qed.

(** The facts about other generations a step of [g] relies on. *)
Record around (w : GWorld) (P : Prop) (Q : nat → Prop) (g : nat) (G : inFlightGen) : Prop := {
  ar_safe : ∀ p, g_after G = Some p → generationResolvedSafe w (Some p) = true → P;
  ar_root : ∀ p r, g_after G = Some p → generationUnsafeRoot w (Some p) = Some r → r ≠ g ∧ Q r;
  ar_boundary : ∀ r, r ≠ g → Q r → gen_flag g_safeBoundary w r = true → P;
  ar_turn : ∀ b, g_turn G = Some b → is_Some (turns w !! b);
}.
(** The result of a step of [g]: what it preserves, and how it sits with the others. *)
Record result_ok (w : GWorld) (P : Prop) (Q : nat → Prop) (g : nat) (G : inFlightGen) (e : GEffect) : Prop := {
  ro_inv : ginv (turns_after w (ef_turn e)) P Q g (ef_gen e);
  ro_settled : settled (turns w) G → settled (turns_after w (ef_turn e)) (ef_gen e);
  ro_session : g_sessionID (ef_gen e) = g_sessionID G;
  ro_after : g_after (ef_gen e) = g_after G;
  ro_turn : g_turn (ef_gen e) = g_turn G;
}.

Section Local_steps.
Context (w : GWorld) (P : Prop) (Q : nat → Prop) (g : nat) (G : inFlightGen).
Hypothesis HI : ginv (turns w) P Q g G.
Hypothesis HA : around w P Q g G.

Lemma result_only G' e : only w G' = Some e → ginv (turns w) P Q g G' → (settled (turns w) G → settled (turns w) G') →
  g_sessionID G' = g_sessionID G → g_after G' = g_after G → g_turn G' = g_turn G → result_ok w P Q g G e.
Proof. intros [= <-]. by split. Qed.

Lemma claim_result G' t : claim w G = (G', t) →
  result_ok w P Q g G (mkGEffect G' t (activeGen w) (routers w) false) ∧ g_cancelAsked G' = true ∧
  g_body G' = g_body G ∧ g_predecessor G' = g_predecessor G.
Proof using HI HA.
  unfold claim. destruct (g_cancelOnce G) eqn:Eonce.
  { intros [= <- <-]. split; [by split|]. split; [|done]. by apply (gi_once _ _ _ _ _ HI). }
  intros [= <- <-]. split; [|done].
  set (t := match (b ← g_turn G; B ← turns w !! b; Some (b, B)) with
            | Some (b, B) => Some (b, decide_send (b_sendStarted B) B) | None => None end).
  assert (turns_grow (turns w) (turns_after w t) G G) as Hgrow.
  { unfold t. destruct (g_turn G) as [b|] eqn:Eb; cbn; [|apply turns_grow_refl].
    destruct (turns w !! b) as [B|] eqn:EB; cbn; [|apply turns_grow_refl].
    apply (turns_grow_at _ _ B); [done|done| |intros; apply tle_refl].
    intros _. split; cbn; auto; intros [?|[? ?]]; [by left|right; auto]. }
  pose proof (ginv_mono _ _ false G (ar_turn _ _ _ _ _ HA) Hgrow P P Q Q g id (λ r, id) HI) as HI'. cbn [maybe_cancel] in HI'.
  pose proof (settled_mono _ _ false G (ar_turn _ _ _ _ _ HA) Hgrow) as Hset. cbn [maybe_cancel] in Hset.
  set (c := mkClaim _ _ _).
  assert (settled (turns_after w t) G → settled (turns_after w t) (claimed_by (WClaimed c) G)) as Hs' by (intros [_ ?]; split; [by left|done]).
  split; cbn; auto. fold t.
  destruct HI'.
  assert (quiet (turns_after w t) P G → quiet (turns_after w t) P (claimed_by (WClaimed c) G)) as Hq by (intros [? ?]; split; auto).
  assert (held (turns_after w t) P G → held (turns_after w t) P (claimed_by (WClaimed c) G)) as Hh by (intros [?|?]; [by left|right; auto]).
  assert (∀ r, rooted (turns_after w t) Q g G r → rooted (turns_after w t) Q g (claimed_by (WClaimed c) G) r) as Hr
    by (intros r [?|(? & ? & ?)]; [by left|right; auto]).
  split; auto.
  - done.
  - unfold watcher_ok in *. cbn. destruct (g_watcher G); try done; intuition auto.
  - cbn. split_and!; try done; cbn.
    + intros p Hp. destruct gi_pred0 as [<-|H]; [|congruence]. split; [done|].
      destruct (g_turn G) as [b|] eqn:Eb; [|done]. destruct gi_turn0; [done|congruence].
    + intros b B' Hb HB'. unfold t in HB'. rewrite Hb in *. cbn in *. destruct (turns w !! b) as [B|] eqn:EB; cbn in *; [|congruence].
      rewrite list_lookup_insert_eq in HB' by (by eapply lookup_lt_Some). injection HB' as [= <-]. done.
  - unfold run_ok in *. cbn. destruct (g_body G); try done. by left.
Qed.

Lemma turns_grow_cancel : turns_grow (turns w) (turns w) G (ctx_cancel G).
Proof.
  intros b B _ HB. exists B. split; [done|].
  assert (turn_ctx_done (ctx_cancel G) B = true) as Hc by apply orb_true_r.
  split; try by auto. intros [?|[? _]]; [by left|by right; auto].
Qed.
Lemma cancel_keeps : ginv (turns w) P Q g (ctx_cancel G) ∧ (settled (turns w) G → settled (turns w) (ctx_cancel G)).
Proof using HI HA.
  split; [apply (ginv_mono _ _ true G (ar_turn _ _ _ _ _ HA) turns_grow_cancel P P Q Q g id (λ r, id) HI)|].
  apply (settled_mono _ _ true G (ar_turn _ _ _ _ _ HA) turns_grow_cancel).
Qed.

Lemma quiet_at_body b : may_run b = false → turn_over (turns w) G → P → quiet (turns w) P (at_body b G).
Proof. intros Hb Ht HP. split; [|done]. split; [by right; left|done]. Qed.
Lemma rooted_at_body b r : may_run b = false → turn_over (turns w) G → r ≠ g → Q r → rooted (turns w) Q g (at_body b G) r.
Proof. intros Hb Ht ? ?. right. split_and!; [done|done|]. split; [by right; left|done]. Qed.
Lemma no_turn_over : g_turn G = None → turn_over (turns w) G.
Proof. intros Hn b B Hb. congruence. Qed.
Lemma before_no_turn : before_run (g_body G) = true → g_turn G = None.
Proof using HI. intros Hb. destruct (g_turn G) eqn:E; [|done]. destruct (gi_turn _ _ _ _ _ HI); congruence. Qed.
End Local_steps.

Section Body_step.
Context (w : GWorld) (P : Prop) (Q : nat → Prop) (g : nat) (G : inFlightGen).
Hypothesis HI : ginv (turns w) P Q g G.
Hypothesis HA : around w P Q g G.

Lemma to_body_eff G1 b slots routers' panics :
  ginv (turns w) P Q g G1 → (settled (turns w) G → settled (turns w) G1) →
  (g_sessionID G1, g_after G1, g_turn G1) = (g_sessionID G, g_after G, g_turn G) →
  (may_run b = true → may_run (g_body G1) = true) →
  (before_run b = true → before_run (g_body G1) = true) →
  (in_run b = true → g_predecessor G1 = None) →
  (admitted b = true → P) →
  (leaving b = true → g_retainUnsafe G1 = false → g_cancelAsked G1 = false → quiet (turns w) P (at_body b G1)) →
  (∀ r, b = GObserve r → held (turns w) P (at_body b G1)) →
  (∀ r, b = GMark (Some r) ∨ b = GObserve (Some r) → rooted (turns w) Q g (at_body b G1) r) → b ≠ GReserved →
  run_ok (turns w) (at_body b G1) → result_ok w P Q g G (mkGEffect (at_body b G1) None slots routers' panics).
Proof.
  intros HI1 Hset Hsame Hm Hb Hr Ha Hl Ho Hk Hnr Hrun. injection Hsame as Hs1 Hs2 Hs3.
  split; try done; cbn.
  - apply ginv_at_body; auto. intros Ht. destruct (before_run b) eqn:E; [|done].
    destruct Ht. by apply (before_no_turn _ _ _ _ _ HI1), Hb.
  - intros H. apply settled_at_body; auto.
Qed.
Definition to_body b slots routers' panics := to_body_eff G b slots routers' panics HI id eq_refl.
Lemma at_watcher_same (H : inFlightGen) : at_watcher (g_watcher H) H = H.
Proof. by destruct H. Qed.
Lemma observe_eq v : ∃ x, observe w v G = at_watcher x G.
Proof. unfold observe. destruct (g_watcher G) eqn:E; eauto; exists (g_watcher G); by rewrite at_watcher_same. Qed.
Lemma observe_predecessor_eq root : ∃ x, observe_predecessor w g root G = at_watcher x G.
Proof.
  unfold observe_predecessor. destruct root as [r|]; [case_bool_decide|]; try apply observe_eq;
    exists (g_watcher G); by rewrite at_watcher_same.
Qed.
Lemma safe_below : generationResolvedSafe w (g_after G) = true → P.
Proof using HI HA.
  intros H. destruct (g_after G) as [p|] eqn:E; [by eapply (ar_safe _ _ _ _ _ HA)|].
  apply (gi_pred_none _ _ _ _ _ HI). destruct (gi_pred _ _ _ _ _ HI); congruence.
Qed.
Lemma first_below : g_after G = None → P.
Proof using HI. intros E. apply (gi_pred_none _ _ _ _ _ HI). destruct (gi_pred _ _ _ _ _ HI); congruence. Qed.
Lemma root_between r : generationUnsafeRoot w (g_after G) = Some r → r ≠ g ∧ Q r.
Proof using HA. intros H. destruct (g_after G) as [p|] eqn:E; [|done]. by eapply (ar_root _ _ _ _ _ HA). Qed.

(** The side conditions of [to_body] that hold by looking at the program counters. *)
Ltac plain_sides := try done; try (by intros []); try (intros ? [|]; done); try (by intros ? ?).
Ltac moves EB := apply to_body; rewrite ?EB; plain_sides.
Ltac moves_from H EB := apply to_body_eff; [apply H|done|done|..]; cbn; rewrite ?EB; plain_sides.

(** Bodies up to the answer of [waitForPredecessor]. *)
Lemma body_waits i e : before_run (g_body G) = true → body_step w g G i = Some e → result_ok w P Q g G e.
Proof using HI HA.
  intros Hb. pose proof (before_no_turn _ _ _ _ _ HI Hb) as Hnt. pose proof (no_turn_over w G Hnt) as Hover.
  intros He. unfold body_step, launch_step, wait_step, retain_step, request_step, deregister_step, mark_completed, started, only in He.
  destruct (g_body G) eqn:EB; destruct i; try discriminate He; try discriminate Hb; cbn in He.
  all: repeat case_match; simplify_eq/=; try (moves EB; fail).
  all: try (lazymatch goal with |- result_ok _ _ _ _ _ (mkGEffect (at_body _ G) _ _ _ _) => idtac end; moves EB;
            intros; first [by apply quiet_at_body; auto using safe_below | by apply safe_below | by apply first_below
                          | by apply (gi_passed _ _ _ _ _ HI); rewrite EB
                          | apply quiet_at_body; auto; apply (gi_passed _ _ _ _ _ HI); by rewrite EB]).
  - moves_from (ginv_asked_by _ _ _ _ _ HI) EB.
  - moves_from (ginv_with_priors _ _ _ _ _ HI) EB.
  - moves EB. intros _ _ _. apply quiet_at_body; [done|done|]. by apply first_below, (gi_reserved _ _ _ _ _ HI).
  - destruct (g_after G); cbn in He; [|done]. case_match; simplify_eq; moves EB.
  - destruct (g_after G); cbn in He; [|done]. case_match; simplify_eq; moves EB.
  - moves EB. intros r [[= Hr]|]; [|done]. destruct (root_between r Hr). by apply rooted_at_body.
  - assert (rooted (turns w) Q g G (default g root)) as Hroot.
    { destruct root; [|by left]. apply (gi_mark _ _ _ _ _ HI). by left. }
    moves_from (ginv_mark_unsafe _ _ _ _ _ HI _ Hroot) EB.
    + by left.
    + intros r [|[= ->]]; [done|]. cbn in Hroot. destruct Hroot as [->|(? & ? & _)]; [by left|]. by apply rooted_at_body.
  - assert (∀ r, root = Some r → r ≠ g → Q r ∧ settled (turns w) G) as Hroot.
    { intros r -> Hne. destruct (gi_mark _ _ _ _ _ HI r) as [?|(? & ? & ?)]; [by right|done|done]. }
    pose proof (ginv_observe_predecessor w _ _ _ _ _ HI root Hroot) as HI'.
    destruct (observe_predecessor_eq root) as [x Hx]. rewrite Hx in HI' |- *.
    moves_from HI' EB.
    intros _ Hr _. destruct (gi_observe _ _ _ _ _ HI) as [|[_ HP]]; [by exists root|congruence|]. by apply quiet_at_body.
  - assert P as HP by (apply (gi_passed _ _ _ _ _ HI); by rewrite EB).
    moves_from (ginv_forget_predecessor _ _ _ _ _ HI HP) EB.
  - moves EB. intros _. destruct (gi_pred _ _ _ _ _ HI); congruence.
Qed.

Lemma run_below : in_run (g_body G) = true → P.
Proof using HI. intros H. by apply (gi_pred_none _ _ _ _ _ HI), (gi_run _ _ _ _ _ HI). Qed.
Lemma quiet_leaves b : may_run b = false → quiet (turns w) P G → quiet (turns w) P (at_body b G).
Proof. intros Hb [? ?]. split; [|done]. apply settled_at_body; [by rewrite Hb|done]. Qed.

(** Bodies from [dispatcher.Run] on. *)
Lemma body_runs i e : before_run (g_body G) = false →
  (g_body G = GRun → ∀ b B, g_turn G = Some b → turns w !! b = Some B → b_sendDecided B = true ∨ turn_ctx_done G B = true) →
  body_step w g G i = Some e → result_ok w P Q g G e.
Proof using HI HA.
  intros Hb Hord He. unfold body_step, launch_step, wait_step, retain_step, request_step, deregister_step, mark_completed, only, clears_slot in He.
  pose proof (gi_run _ _ _ _ _ HI) as Hrun. pose proof (gi_complete _ _ _ _ _ HI) as Hok. unfold run_ok in Hok.
  destruct (g_body G) eqn:EB; destruct i; try discriminate He; try discriminate Hb; cbn in He.
  - (* GRun *) injection He as <-. moves EB. exact (Hord eq_refl).
  - (* GRan *) injection He as <-. assert (g_turn G ≠ None → g_turn G = None → False) by done.
    destruct (g_turn G) as [b|] eqn:Et; [destruct (turn_flag b_sendStarted w b) eqn:Es|]; moves EB.
    + right. intros b' B' Hb' HB'. cbn in Hb'. rewrite Et in Hb'. injection Hb' as <-.
      unfold turn_flag in Es. rewrite HB' in Es. right. split; [done|]. by apply (Hok b).
    + right. by apply no_turn_over.
  - (* GDrain *) case_match; [|done]. injection He as <-. moves EB. right. intros b' B' Hb' HB'. left.
    cbn in Hb'. rewrite Hok in Hb'. injection Hb' as <-. unfold turn_flag in *. by rewrite HB' in *.
  - injection He as <-. moves EB.
  - (* GRequest *) case_match; [|done]. destruct (claim w G) as [G' t] eqn:EC. injection He as <-.
    destruct (claim_result _ _ _ _ _ HI HA _ _ EC) as ([Hinv Hset Hs1 Hs2 Hs3] & Hasked & HbG & HpG). cbn in *.
    assert (∀ b, b = GComplete ∨ b = GAwait → ginv (turns_after w t) P Q g (at_body b G')) as Hb'.
    { intros b Hbb. apply ginv_at_body; auto; destruct Hbb as [-> | ->]; plain_sides; rewrite ?HpG; auto. by left. }
    split; cbn; try done.
    + destruct (g_cancelOnce G); apply Hb'; auto.
    + intros H'. apply settled_at_body; [|by apply Hset]. by destruct (g_cancelOnce G).
  - (* GAwait *) assert (e = mkGEffect (at_body GComplete G) None (activeGen w) (routers w) false) as -> by (repeat case_match; congruence).
    moves EB. by left.
  - (* GComplete *) case_match; [|done]. injection He as <-. destruct (negb (g_cancelAsked G) && _) eqn:E.
    + apply andb_prop in E as [E1%negb_true_iff E2%negb_true_iff].
      assert (quiet (turns w) P G) as Hq.
      { split; [|by apply run_below; rewrite EB]. split; [right; left; by rewrite EB|]. destruct Hok; [congruence|done]. }
      moves_from (ginv_completed_safe _ _ _ _ _ HI Hq) EB. intros _ _ _. by apply quiet_leaves.
    + moves EB. intros _ H1 H2. by rewrite H1, H2 in E.
  - (* GExit *) injection He as <-. moves_from (ginv_close_done _ _ _ _ _ HI) EB.
    intros _ ? ?. apply quiet_leaves; [done|]. apply (gi_leaving _ _ _ _ _ HI); [by rewrite EB|done|done].
  - (* GDereg *) case_match; [|done]. case_match; injection He as <-; [|moves EB].
    destruct (g_cancelAsked G) eqn:Ea; moves EB; congruence.
  - case_match; [|done]. injection He as <-. moves EB. intros _ ? ?. apply quiet_leaves; [done|]. apply (gi_leaving _ _ _ _ _ HI); [by rewrite EB|done|done].
  - case_match; [|done]. injection He as <-. moves EB.
  - injection He as <-. destruct (cancel_keeps _ _ _ _ _ HI HA) as [HI' Hset].
    apply to_body_eff; [done|done|done|..]; cbn; rewrite ?EB; plain_sides.
Qed.
End Body_step.

(** ** The cancellation worker *)

Section Worker_step.
Context (w : GWorld) (P : Prop) (Q : nat → Prop) (g : nat) (G : inFlightGen).
Hypothesis HI : ginv (turns w) P Q g G.
Hypothesis HA : around w P Q g G.

(** A binding changes without its send moving. *)
Lemma touched b B B' : turns w !! b = Some B → (g_turn G = Some b → tle G G B B') →
  ginv (turns_after w (Some (b, B'))) P Q g G ∧
  (settled (turns w) G → settled (turns_after w (Some (b, B'))) G).
Proof using HI HA.
  intros HB Hl.
  assert (turns_grow (turns w) (turns_after w (Some (b, B'))) G G) as Hg
    by (apply (turns_grow_at _ _ B); auto; intros; apply tle_refl).
  split.
  - exact (ginv_mono _ _ false G (ar_turn _ _ _ _ _ HA) Hg P P Q Q g id (λ r, id) HI).
  - exact (settled_mono _ _ false G (ar_turn _ _ _ _ _ HA) Hg).
Qed.
Lemma tle_closed G0 B : tle G0 G0 B (router_closed B).
Proof. split; auto. Qed.
Lemma tle_drained G0 B : tle G0 G0 B (terminal_drained B).
Proof. split; auto. Qed.

Lemma to_worker x : worker_ok (turns w) P Q g (at_worker x G) →
  result_ok w P Q g G (mkGEffect (at_worker x G) None (activeGen w) (routers w) false).
Proof using HI. intros Hx. split; try done. by apply ginv_at_worker. Qed.
Lemma to_worker_turn b B B' x slots routers' : turns w !! b = Some B → tle G G B B' →
  (worker_ok (turns_after w (Some (b, B'))) P Q g G → worker_ok (turns_after w (Some (b, B'))) P Q g (at_worker x G)) →
  result_ok w P Q g G (mkGEffect (at_worker x G) (Some (b, B')) slots routers' false).
Proof using HI HA.
  intros HB Hl Hx. destruct (touched b B B' HB (λ _, Hl)) as [HI' Hset]. split; try done; cbn.
  apply ginv_at_worker; [done|]. apply Hx. apply HI'.
Qed.

Lemma returned_over ts (H : inFlightGen) b : g_turn H = Some b → returned ts b → turn_over ts H.
Proof. intros Hb (B & HB & Hr) b' B' Hb' HB'. left. congruence. Qed.
Lemma claimed_over ts c b : claim_ok ts P G c → c_binding c = Some b → c_sendStarted c = false → turn_over ts G.
Proof.
  intros (_ & Hb & _ & _ & Hn) Hc Hs b' B' Hb' HB'. destruct (Hn b' B') as [? ?]; [congruence|done|done|].
  right. auto.
Qed.
Lemma asked_settled c : claim_ok (turns w) P G c → turn_over (turns w) G → settled (turns w) G.
Proof. intros (Ha & _) Ht. split; [by left|done]. Qed.
Lemma claim_safe c : claim_ok (turns w) P G c → generationResolvedSafe w (c_predecessor c) = true → P.
Proof using HA.
  intros (_ & _ & Hp & Hn & _) H. destruct (c_predecessor c) as [p|] eqn:E; [|by apply Hn].
  destruct (Hp p eq_refl) as [Ha _]. by eapply (ar_safe _ _ _ _ _ HA).
Qed.
Lemma claim_root c : claim_ok (turns w) P G c → rooted (turns w) Q g G (default g (generationUnsafeRoot w (c_predecessor c))).
Proof using HA.
  intros Hc. destruct (generationUnsafeRoot w (c_predecessor c)) as [r|] eqn:E; [|by left].
  destruct (c_predecessor c) as [p|] eqn:Ep; [|done]. destruct Hc as (Ha & _ & Hp & _). destruct (Hp p Ep) as [Haf Ht].
  destruct (ar_root _ _ _ _ _ HA p r Haf E). right. split_and!; [done|done|]. split; [by left|by apply no_turn_over].
Qed.

Ltac open_worker He :=
  unfold worker_step, boundary_step, only, and_turn, finish_router in He; pose proof (gi_worker _ _ _ _ _ HI) as Hk; unfold worker_ok in Hk;
  destruct (g_worker G) as [|c| |c|c|c|c|c ps|b c ps|b c ps|b c ps|b c ps|b c ps|b c ps|b c ps|c ps safe| |c ps safe|c ps safe r|c ps safe r| |] eqn:EW.
(** The stages of the worker: the wait for the predecessor, the runtime turn, the outcome. *)
Definition waits_for_predecessor (x : Worker) : bool :=
  match x with WClaimed _ | WWait _ | WAsk _ | WIssued _ | WSafe _ => true | _ => false end.
Definition ends_the_turn (x : Worker) : bool :=
  match x with
  | WTurn _ _ | WAbandon _ _ _ | WDrain _ _ _ | WSend _ _ _ | WErr _ _ _ | WCancel _ _ _ | WStop _ _ _ | WStopped _ _ _ => true
  | _ => false
  end.
Lemma worker_wait_ok i e : waits_for_predecessor (g_worker G) = true → worker_step w g G i = Some e → result_ok w P Q g G e.
Proof using HI HA.
  intros Hx He. open_worker He; try discriminate Hx; destruct i; try discriminate He; cbn in He.
  - (* WClaimed *) injection He as <-. destruct (cancel_keeps _ _ _ _ _ HI HA) as [HI' Hset].
    pose proof (gi_worker _ _ _ _ _ HI') as Hk'. unfold worker_ok in Hk'. cbn in Hk'. rewrite EW in Hk'.
    unfold started. split; try done; cbn. apply ginv_at_worker; [done|]. by destruct (closed w).
  - (* WWait *) repeat case_match; simplify_eq; apply to_worker; [by auto|]. split; [done|]. intros _. by apply Hk.
  - case_match; simplify_eq. by apply to_worker.
  - simplify_eq. apply to_worker. by repeat case_match.
  - destruct (c_predecessor c); simplify_eq/=. case_match; simplify_eq/=. by apply to_worker.
  - simplify_eq. by apply to_worker.
  - simplify_eq. apply to_worker. split; [done|]. by apply claim_safe.
Qed.
Lemma worker_turn_ok i e : ends_the_turn (g_worker G) = true → worker_step w g G i = Some e → result_ok w P Q g G e.
Proof using HI HA.
  intros Hx He. open_worker He; try discriminate Hx; destruct i; try discriminate He; cbn in He.
  - (* WTurn *) destruct Hk as [Hc HP]. case_match; simplify_eq/=.
    + destruct (turns w !! n) as [B|] eqn:EB; [|done]. simplify_eq/=.
      apply (to_worker_turn _ B); [done|apply tle_closed|]. unfold worker_ok. cbn. rewrite EW.
      intros [? ?]. destruct (c_sendStarted c) eqn:Es; by split_and!.
    + apply to_worker. split_and!; [done|done|]. intros _. apply no_turn_over. destruct Hc as (_ & ? & _). cbn. congruence.
  - destruct (turns w !! b) as [B|] eqn:EB; [|done]. simplify_eq/=.
    apply (to_worker_turn _ B); [done|apply tle_drained|]. unfold worker_ok. cbn. by rewrite EW.
  - destruct Hk as (Hc & HP & Hb & Hs). case_match; simplify_eq. apply to_worker. split_and!; [done|done|].
    intros _. by eapply claimed_over.
  - case_match; simplify_eq. apply to_worker. destruct Hk as (? & ? & ?). split_and!; [done|done|done|].
    unfold turn_flag in *. case_match; [|done]. by eexists.
  - simplify_eq. by apply to_worker.
  - simplify_eq. apply to_worker. destruct Hk as (? & ? & ? & ?). by case_match.
  - repeat case_match; simplify_eq; apply to_worker; destruct Hk as (Hc & ? & Hb & ?); split_and!; try done.
    intros _. destruct Hc as (_ & Hbt & _). apply (returned_over _ _ b); [cbn; congruence|done].
  - destruct Hk as (Hc & HP & Hb). repeat (case_match; [simplify_eq; by apply to_worker|]).
    destruct b0; [|simplify_eq; by apply to_worker]. destruct (turns w !! b) as [B|] eqn:EB; [|done]. cbn in He.
    case_match; simplify_eq. apply to_worker. split_and!; try done. exists B. split; [done|].
    by apply andb_prop in H0 as [_ ?].
  - destruct Hk as (Hc & HP & Hb & HR). destruct (turns w !! b) as [B|] eqn:EB; [|done]. simplify_eq/=.
    apply (to_worker_turn _ B); [done|apply tle_drained|]. unfold worker_ok. cbn. rewrite EW.
    intros (Hc' & ? & ? & ?). split_and!; [done|done|]. intros _. destruct Hc' as (_ & ? & _). apply (returned_over _ _ b); [cbn; congruence|done].
Qed.
Lemma observing_ok c ps safe r : claim_ok (turns w) P G c → rooted (turns w) Q g G r → held (turns w) P G →
  result_ok w P Q g G (mkGEffect (at_worker WClose
    match c_binding c with
    | Some b => if negb safe && c_sendStarted c then observe w (VSend b (c_predecessor c)) G
                else if negb ps then observe_predecessor w g (Some r) G else G
    | None => if negb ps then observe_predecessor w g (Some r) G else G
    end) None (activeGen w) (routers w) false).
Proof using HI.
  intros Hc Hr Hh. pose proof Hc as (Ha & Hb & Hp & _).
    assert (∀ x, watcher_ok (turns w) P Q g (at_watcher x G) →
      result_ok w P Q g G (mkGEffect (at_worker WClose (observe w x G)) None (activeGen w) (routers w) false)) as Hob.
    { intros x Hx. pose proof (ginv_observe w _ _ _ _ _ HI x Hx) as HI'. destruct (observe_eq w G x) as [y Hy].
      rewrite Hy in HI' |- *. split; try done. by apply ginv_at_worker. }
    assert (result_ok w P Q g G (mkGEffect (at_worker WClose G) None (activeGen w) (routers w) false)) as Hno by by apply to_worker.
    assert (result_ok w P Q g G (mkGEffect (at_worker WClose (if negb ps then observe_predecessor w g (Some r) G else G)) None (activeGen w) (routers w) false)) as Hpr.
    { destruct ps; [done|]. cbn. case_bool_decide as Hrg; [done|]. apply Hob. destruct Hr as [|(? & ? & ?)]; [done|]. by split_and!. }
    destruct (c_binding c) as [b|] eqn:Eb; [|done]. destruct (negb safe && c_sendStarted c); [|done].
    apply Hob. split_and!; [done| |by left]. destruct (c_predecessor c) as [p|] eqn:Ep; [|done].
    destruct (Hp p eq_refl) as [_ Hn]. congruence.
Qed.
Lemma worker_outcome_ok i e : waits_for_predecessor (g_worker G) = false → ends_the_turn (g_worker G) = false → worker_step w g G i = Some e → result_ok w P Q g G e.
Proof using HI HA.
  intros Hx Hy He. open_worker He; try discriminate Hx; try discriminate Hy; destruct i; try discriminate He; cbn in He.
  - destruct Hk as (Hc & HP & HT). simplify_eq. apply to_worker. destruct (ps && safe) eqn:E; [|done].
    apply andb_prop in E as [-> ->]. split; [|by auto]. by apply (asked_settled c); auto.
  - (* WMarkSafe *) case_match; simplify_eq. pose proof (ginv_mark_safe w _ _ _ _ _ HI Hk) as HI'.
    assert (settled (turns w) (mark_safe w G)) as Hset by (destruct Hk; unfold mark_safe; by destruct (g_release (made_safe G))).
    split; try (unfold mark_safe; by destruct (g_release (made_safe G))); cbn.
    apply ginv_at_worker; [done|]. right. split; [done|]. by destruct Hk.
  - destruct Hk as (Hc & HP & HT). simplify_eq. apply to_worker. split; [done|]. destruct ps; [by left|]. by apply claim_root.
  - destruct Hk as (Hc & Hr). case_match; simplify_eq. pose proof (ginv_mark_unsafe _ _ _ _ _ HI (Some r) Hr) as HI'.
    split; try done. cbn. apply ginv_at_worker; [done|]. split_and!; [done|done|by left].
  - simplify_eq. destruct Hk as (? & ? & ?). by apply observing_ok.
  - simplify_eq. split; try done. cbn. apply ginv_at_worker; [by apply ginv_close_issued|]. done.
Qed.
Lemma worker_step_ok i e : worker_step w g G i = Some e → result_ok w P Q g G e.
Proof using HI HA.
  intros He. destruct (waits_for_predecessor (g_worker G)) eqn:E1; [by eapply worker_wait_ok|].
  destruct (ends_the_turn (g_worker G)) eqn:E2; [by eapply worker_turn_ok|by eapply worker_outcome_ok].
Qed.
End Worker_step.

(** ** The watcher, the release and the send *)

(** Where the goroutine of a send is, and what the binding says. *)
Definition send_ok (B : runtimeTurnBinding) : Prop :=
  match b_send B with
  | SAdmitted => b_sendStarted B = false ∧ b_sendReturned B = false ∧ b_sendErr B = false
  | SSending | SOk | SErr | SErrObserve | SErrComplete =>
      b_sendStarted B = true ∧ b_sendDecided B = true ∧ b_sendReturned B = false ∧ b_sendErr B = false
  | SErrRetire | SErrStop | SErrFinish | SErrSafe =>
      b_sendStarted B = true ∧ b_sendDecided B = true ∧ b_sendReturned B = true ∧ b_sendErr B = true
  | SDone => b_sendDecided B = true ∧
      ((b_sendStarted B = true ∧ b_sendReturned B = true) ∨ (b_sendStarted B = false ∧ b_sendReturned B = false ∧ b_sendErr B = false))
  end.
(** A send that runs, or has failed: no turn is admitted after it. *)
Definition busy (B : runtimeTurnBinding) : Prop := b_sendStarted B = true ∧ (b_sendReturned B = false ∨ b_sendErr B = true).

Section Other_steps.
Context (w : GWorld) (P : Prop) (Q : nat → Prop) (g : nat) (G : inFlightGen).
Hypothesis HI : ginv (turns w) P Q g G.
Hypothesis HA : around w P Q g G.
Hypothesis HT : ∀ b B, turns w !! b = Some B → send_ok B.

Lemma failing_returned b : g_turn G = Some b → failing (turns w) b → returned (turns w) b → failed_send (turns w) G.
Proof using HT.
  intros Hb (B & HB & He) (B' & HB' & Hr). rewrite HB in HB'. injection HB' as [= <-]. exists b, B. split_and!; try done.
  destruct He as [?|He]; [done|]. pose proof (HT b B HB) as Ht. unfold send_ok in Ht.
  set_unfold in He. destruct He as [E|[E|[E|[]]]]; rewrite E in Ht; destruct Ht as (_ & _ & ? & _); congruence.
Qed.
Lemma turn_below : g_turn G ≠ None → P.
Proof using HI. intros H. by apply (gi_pred_none _ _ _ _ _ HI), (gi_turn _ _ _ _ _ HI). Qed.
Lemma boundary_quiet b : g_turn G = Some b → g_cancelAsked G = true ∨ failing (turns w) b → returned (turns w) b → quiet (turns w) P G.
Proof using HI HT.
  intros Hb Hf Hr. split; [|apply turn_below; congruence]. split; [|by eapply returned_over].
  destruct Hf; [by left|]. right; right. by eapply failing_returned.
Qed.
Lemma to_watcher x : watcher_ok (turns w) P Q g (at_watcher x G) →
  result_ok w P Q g G (mkGEffect (at_watcher x G) None (activeGen w) (routers w) false).
Proof using HI. intros Hx. split; try done. by apply ginv_at_watcher. Qed.

Lemma watcher_step_ok i e : watcher_step w G i = Some e → result_ok w P Q g G e.
Proof using HI HA HT.
  intros He. unfold watcher_step, only, finish_router in He. pose proof (gi_watcher _ _ _ _ _ HI) as Hk. unfold watcher_ok in Hk.
  destruct (g_watcher G) as [|r|b p|b p|p|p| |] eqn:EV; destruct i as [| |[]|]; try discriminate He; cbn in He.
  - case_match; simplify_eq. apply to_watcher. destruct Hk as (? & ? & ?). split; [done|]. by apply (ar_boundary _ _ _ _ _ HA r).
  - case_match; simplify_eq. by apply to_watcher.
  - case_match; simplify_eq. apply to_watcher. destruct Hk as (? & ? & ?). split_and!; try done.
    unfold turn_flag in *. case_match; [|done]. by eexists.
  - case_match; simplify_eq. by apply to_watcher.
  - case_match; simplify_eq. apply to_watcher. destruct Hk as (? & ? & ? & ?). split; [done|]. by eapply boundary_quiet.
  - case_match; simplify_eq. by apply to_watcher.
  - destruct (turns w !! b) as [B|] eqn:EB; [|done]. cbn in He. case_match; simplify_eq.
    destruct Hk as (? & ? & ? & ?).
    destruct (touched _ _ _ _ _ HI HA b B (terminal_drained B) EB (λ _, tle_drained _ _)) as [HI' Hset].
    split; try done. cbn. apply ginv_at_watcher; [done|]. split; [done|].
    destruct (boundary_quiet b) as [Hs ?]; try done. split; [|done]. by apply Hset.
  - simplify_eq. apply to_watcher. destruct Hk as [-> ?]. done.
  - done.
  - case_match; simplify_eq. pose proof (ginv_mark_safe w _ _ _ _ _ HI Hk) as HI'.
    split; try (unfold mark_safe; by destruct (g_release (made_safe G))). cbn. by apply ginv_at_watcher.
Qed.

Lemma release_step_ok i e : release_step w g G i = Some e → result_ok w P Q g G e.
Proof using HI.
  intros He. unfold release_step, only, clears_slot in He.
  destruct (g_release G); destruct i; try discriminate He; cbn in He; repeat case_match; simplify_eq;
    (split; try done; cbn; by apply ginv_at_release).
Qed.

(** A step of the send of [b]. *)
Lemma sent b B B' G' slots routers' panics : turns w !! b = Some B → (g_turn G = Some b → tle G G B B') →
  (ginv (turns_after w (Some (b, B'))) P Q g G → ginv (turns_after w (Some (b, B'))) P Q g G') →
  (settled (turns_after w (Some (b, B'))) G → settled (turns_after w (Some (b, B'))) G') →
  (g_sessionID G', g_after G', g_turn G') = (g_sessionID G, g_after G, g_turn G) →
  result_ok w P Q g G (mkGEffect G' (Some (b, B')) slots routers' panics).
Proof using HI HA.
  intros HB Hl Hi Hs Hsame. injection Hsame as H1 H2 H3.
  destruct (touched _ _ _ _ _ HI HA b B B' HB Hl) as [HI' Hset]. split; cbn; auto.
Qed.
Lemma settled_made_unsafe ts r : settled ts G → settled ts (made_unsafe r G).
Proof. by intros [? ?]. Qed.

Lemma send_step_ok i b B e : turns w !! b = Some B → (busy B → g_turn G = Some b) →
  send_step w g G i b B = Some e → result_ok w P Q g G e.
Proof using HI HA HT.
  intros HB Hbusy He. unfold send_step, cleanup_step, only, and_turn, finish_router in He. pose proof (HT b B HB) as Hk. unfold send_ok in Hk.
  assert (b < length (turns w)) as Hlt by (by eapply lookup_lt_Some).
  destruct (b_send B) eqn:ES; destruct i as [| |ok|]; try discriminate He; cbn in He.
  - (* SAdmitted *) destruct Hk as (Hs & Hr & He').
    assert (∀ x, x ∉ [SErr; SErrObserve; SErrComplete] → g_turn G = Some b →
              tle G G B (at_send x (beginRuntimeSend G b B))) as Hb.
    { intros x Hx Ht. unfold beginRuntimeSend. destruct (b_sendDecided B) eqn:Ed.
      - split; cbn; auto. rewrite ES. set_solver.
      - split; cbn; auto; try congruence.
        + intros [?|[_ [?|Hc]]]; [congruence|congruence|]. right. rewrite Hc, andb_false_r. auto.
        + rewrite ES. set_solver. }
    case_match; simplify_eq.
    + apply (sent _ B); auto. apply Hb. set_solver.
    + apply (sent _ B); auto. intros Ht. destruct (Hb SDone ltac:(set_solver) Ht). split; cbn in *; auto.
  - simplify_eq. apply (sent _ B); auto. intros _. split; cbn; auto. rewrite ES. set_solver.
  - simplify_eq. destruct Hk as (? & ? & ? & ?). apply (sent _ B); auto. intros _.
    split; cbn; auto; [intros _; by left|congruence|rewrite ES; set_solver].
  - case_match; simplify_eq. destruct Hk as (? & ? & ? & ?). apply (sent _ B); auto.
    + intros _. split; cbn; auto. intros _. right. set_solver.
    + intros HG. apply ginv_mark_unsafe; [done|]. by left.
  - simplify_eq. destruct Hk as (? & ? & ? & ?).
    set (B' := at_send SErrComplete B).
    assert (failing (turns_after w (Some (b, B'))) b) as Hf.
    { exists B'. split; [by apply list_lookup_insert_eq|]. right. set_solver. }
    destruct (observe_eq w G (VSend b None)) as [y Hy].
    apply (sent _ B); rewrite ?Hy; auto.
    + intros _. split; cbn; auto. intros _. right. set_solver.
    + intros HG. rewrite <- Hy. apply ginv_observe; [done|]. split_and!; [|done|by right]. apply Hbusy. by split; [|left].
  - simplify_eq. destruct Hk as (? & ? & ? & ?). apply (sent _ B); auto. intros _.
    split; cbn; auto. intros _. by left.
  - simplify_eq. apply (sent _ B); auto. intros _. split; cbn; auto. rewrite ES. set_solver.
  - repeat case_match; simplify_eq; apply (sent _ B); auto; intros _; (split; cbn; auto; rewrite ES; set_solver).
  - simplify_eq. apply (sent _ B); auto. intros _. split; cbn; auto. rewrite ES. set_solver.
  - (* SErrSafe *) case_match; simplify_eq. destruct Hk as (? & ? & ? & ?).
    assert (g_turn G = Some b) as Ht by (apply Hbusy; split; auto).
    set (B' := at_send SDone B).
    assert (quiet (turns_after w (Some (b, B'))) P G) as Hq.
    { split; [|apply turn_below; congruence]. split.
      - right; right. exists b, B'. split_and!; try done. by apply list_lookup_insert_eq.
      - apply (returned_over _ _ b Ht). exists B'. split; [by apply list_lookup_insert_eq|done]. }
    apply (sent _ B); auto.
    + intros _. split; cbn; auto.
    + intros HG. by apply ginv_mark_safe.
    + intros Hset. unfold mark_safe. by destruct (g_release (made_safe G)).
    + unfold mark_safe. by destruct (g_release (made_safe G)).
Qed.
End Other_steps.

(** ** The other generations *)

(** How the step of one generation touches what is shared: a binding, and the registry. *)
Definition binding_side (w : GWorld) (g : nat) (G : inFlightGen) (t : option (nat * runtimeTurnBinding)) : Prop :=
  match t with
  | Some (b, B') => ∃ B, turns w !! b = Some B ∧ b_gen B' = b_gen B ∧ ((∀ H, tle H H B B') ∨ b_gen B = g) ∧
      (send_ok B → send_ok B') ∧ (busy B' → busy B ∨ g_turn G = Some b)
  | None => True
  end.
Definition registry_side (w : GWorld) (P : Prop) (g : nat) (G : inFlightGen) (slots : gmap string nat) : Prop :=
  slots = activeGen w ∨
  (slots = delete (g_sessionID G) (activeGen w) ∧ activeGen w !! g_sessionID G = Some g ∧ quiet (turns w) P G).
Definition side_ok (w : GWorld) (P : Prop) (g : nat) (G : inFlightGen) (e : GEffect) : Prop :=
  binding_side w g G (ef_turn e) ∧ registry_side w P g G (ef_slots e).

Section Side.
Context (w : GWorld) (P : Prop) (Q : nat → Prop) (g : nat) (G : inFlightGen).
Hypothesis HI : ginv (turns w) P Q g G.

Lemma side_none G' panics routers' : side_ok w P g G (mkGEffect G' None (activeGen w) routers' panics).
Proof. split; [done|by left]. Qed.
Lemma side_touch G' b B B' panics routers' : turns w !! b = Some B → b_gen B' = b_gen B → (∀ H, tle H H B B') →
  (send_ok B → send_ok B') → (busy B' → busy B) → side_ok w P g G (mkGEffect G' (Some (b, B')) (activeGen w) routers' panics).
Proof. intros HB Hg Hl Hs Hb. split; [|by left]. exists B. auto 10. Qed.
Lemma side_closed G' b B routers' : turns w !! b = Some B →
  side_ok w P g G (mkGEffect G' (Some (b, router_closed B)) (activeGen w) routers' false).
Proof. intros HB. by apply (side_touch _ _ B); auto using tle_closed. Qed.
Lemma side_drained G' b B routers' : turns w !! b = Some B →
  side_ok w P g G (mkGEffect G' (Some (b, terminal_drained B)) (activeGen w) routers' false).
Proof. intros HB. by apply (side_touch _ _ B); auto using tle_drained. Qed.
Lemma side_clears clear G' : (clear = true → activeGen w !! g_sessionID G = Some g ∧ quiet (turns w) P G) →
  side_ok w P g G (mkGEffect G' None (if clear then delete (g_sessionID G) (activeGen w) else activeGen w) (routers w) false).
Proof. intros H. split; [done|]. destruct clear; [right|by left]. destruct (H eq_refl). done. Qed.
Lemma claim_side G' t panics routers' : claim w G = (G', t) → side_ok w P g G (mkGEffect G' t (activeGen w) routers' panics).
Proof.
  unfold claim. destruct (g_cancelOnce G); intros [= <- <-]; [apply side_none|].
  destruct (g_turn G) as [b|] eqn:Et; cbn; [|apply side_none]. destruct (turns w !! b) as [B|] eqn:EB; cbn; [|apply side_none].
  apply (side_touch _ _ B); auto.
  - intros H. split; cbn; auto; intros [?|[? ?]]; [by left|by right; auto].
  - unfold send_ok. cbn. destruct (b_send B); intuition auto.
Qed.

Lemma body_side i e : body_step w g G i = Some e → side_ok w P g G e.
Proof using HI.
  intros He. unfold body_step, launch_step, wait_step, retain_step, request_step, deregister_step, mark_completed, only, clears_slot in He.
  pose proof (gi_leaving _ _ _ _ _ HI) as Hl. pose proof (gi_complete _ _ _ _ _ HI) as Hok. unfold run_ok in Hok.
  destruct (g_body G) eqn:EB; destruct i; try discriminate He; cbn in He; try (injection He as <-; apply side_none).
  all: try (destruct (g_after G); cbn in He; [|discriminate]).
  all: try (repeat case_match; simplify_eq; apply side_none).
  - case_match; [|done]. destruct (claim w G) as [G' t] eqn:EC. injection He as <-.
    destruct (claim_side _ _ false (routers w) EC) as [? ?]. by split.
  - case_match; [|done]. destruct (holds_slot w g G) eqn:Eh; injection He as <-; [|apply side_none].
    apply bool_decide_eq_true in Eh. apply side_clears. intros [?%negb_true_iff ?%negb_true_iff]%andb_prop. auto.
  - case_match; [|done]. injection He as <-. apply side_clears. intros [Eh%bool_decide_eq_true E]%andb_prop.
    apply negb_true_iff in E. split; [done|]. destruct (gi_issued _ _ _ _ _ HI Hok); [congruence|done].
Qed.
Lemma worker_side i e : worker_step w g G i = Some e → side_ok w P g G e.
Proof.
  intros He. unfold worker_step, boundary_step, only, and_turn, finish_router in He.
  destruct (g_worker G) eqn:EW; destruct i; try discriminate He; cbn in He; try (injection He as <-; apply side_none).
  all: try (repeat case_match; simplify_eq; apply side_none; fail).
  all: try (destruct (c_predecessor c); cbn in He; [|discriminate]; repeat case_match; simplify_eq; apply side_none; fail).
  - case_match; [|simplify_eq; apply side_none]. destruct (turns w !! n) eqn:EB; simplify_eq/=. by apply side_closed.
  - destruct (turns w !! b) eqn:EB; simplify_eq/=. by apply side_drained.
  - destruct (turns w !! b) eqn:EB; cbn in He; repeat case_match; simplify_eq; apply side_none.
  - destruct (turns w !! b) eqn:EB; simplify_eq/=. by apply side_drained.
Qed.
Lemma watcher_side i e : watcher_step w G i = Some e → side_ok w P g G e.
Proof.
  intros He. unfold watcher_step, only, finish_router in He.
  destruct (g_watcher G) eqn:EV; destruct i as [| |[]|]; try discriminate He; cbn in He; try (injection He as <-; apply side_none).
  all: try (repeat case_match; simplify_eq; apply side_none; fail).
  destruct (turns w !! b) eqn:EB; cbn in He; [|done]. case_match; simplify_eq. by apply side_drained.
Qed.
Lemma release_side i e : release_step w g G i = Some e → side_ok w P g G e.
Proof using HI.
  intros He. unfold release_step, only, clears_slot in He.
  destruct (g_release G); destruct i; try discriminate He; cbn in He; (case_match; [|discriminate]); injection He as <-;
    try apply side_none.
  apply side_clears. intros [[Eh%bool_decide_eq_true E]%andb_prop _]%andb_prop. split; [done|]. apply (gi_safe _ _ _ _ _ HI). by left.
Qed.
Lemma send_side i b B e : turns w !! b = Some B → send_ok B → b_gen B = g → (busy B → g_turn G = Some b) →
  send_step w g G i b B = Some e → side_ok w P g G e.
Proof.
  clear HI Q. intros HB Hok Hg Hbusy He.
  assert (∀ G' B' routers' panics, b_gen B' = b_gen B → (send_ok B → send_ok B') → (busy B' → busy B ∨ g_turn G = Some b) →
    side_ok w P g G (mkGEffect G' (Some (b, B')) (activeGen w) routers' panics)) as H.
  { intros. split; [|by left]. exists B. auto 10. }
  unfold send_step, cleanup_step, only, and_turn, finish_router in He. unfold send_ok, busy in H, Hok.
  destruct (b_send B) eqn:ES; destruct i as [| |ok|]; try discriminate He; cbn in He.
  all: try (repeat case_match; simplify_eq; apply H; cbn; intuition auto; fail).
  - unfold beginRuntimeSend in He. destruct (b_sendDecided B) eqn:Ed; [|destruct (_ && negb (turn_ctx_done G B)) eqn:Ec];
      cbn in He; repeat case_match; simplify_eq/=; apply H; cbn; try (intuition congruence).
    apply andb_prop in Ec as [[?%bool_decide_eq_true _]%andb_prop _]. auto.
Qed.
End Side.

(** ** The whole service *)

Definition below (w : GWorld) (s : string) (g : nat) : Prop :=
  ∀ x X, x < g → gens w !! x = Some X → g_sessionID X = s → settled (turns w) X.
Definition between (w : GWorld) (s : string) (g r : nat) : Prop :=
  r < g ∧ (∃ R, gens w !! r = Some R ∧ g_sessionID R = s) ∧
  ∀ x X, r < x < g → gens w !! x = Some X → g_sessionID X = s → settled (turns w) X.
Definition gen_ok (w : GWorld) (g : nat) (G : inFlightGen) : Prop :=
  ginv (turns w) (below w (g_sessionID G) g) (between w (g_sessionID G) g) g G.

Record gworld_ok (w : GWorld) : Prop := {
  go_gen : ∀ g G, gens w !! g = Some G → gen_ok w g G;
  go_after : ∀ g G p, gens w !! g = Some G → g_after G = Some p →
    p < g ∧ (∃ P, gens w !! p = Some P ∧ g_sessionID P = g_sessionID G) ∧
    ∀ x X, p < x < g → gens w !! x = Some X → g_sessionID X ≠ g_sessionID G;
  go_turn : ∀ g G b, gens w !! g = Some G → g_turn G = Some b → ∃ B, turns w !! b = Some B ∧ b_gen B = g;
  go_send : ∀ b B, turns w !! b = Some B → send_ok B ∧ ∃ G, gens w !! b_gen B = Some G ∧ (busy B → g_turn G = Some b);
  go_slot : ∀ s g, activeGen w !! s = Some g →
    ∃ G, gens w !! g = Some G ∧ g_sessionID G = s ∧ ∀ x X, g < x → gens w !! x = Some X → g_sessionID X ≠ s;
  go_idle : ∀ s, activeGen w !! s = None → below w s (length (gens w));
}.

Lemma around_ok w g G : gworld_ok w → gens w !! g = Some G →
  around w (below w (g_sessionID G) g) (between w (g_sessionID G) g) g G.
Proof.
  intros HW HG. split.
  - intros p Hp Hs. destruct (go_after _ HW g G p HG Hp) as (Hlt & (P & HP & HPs) & Hno).
    unfold generationResolvedSafe, gen_flag in Hs. rewrite HP in Hs.
    destruct (gi_safe _ _ _ _ _ (go_gen _ HW p P HP) (or_introl Hs)) as [Hset Hbel]. rewrite HPs in Hbel.
    intros x X Hx HX Hs'. destruct (decide (x = p)) as [->|Hne]; [congruence|].
    destruct (decide (x < p)); [by eapply Hbel|]. destruct (Hno x X); [lia|done|done].
  - intros p r Hp Hr. destruct (go_after _ HW g G p HG Hp) as (Hlt & (P & HP & HPs) & Hno).
    unfold generationUnsafeRoot in Hr. rewrite HP in Hr. destruct (g_cancelSafe P); [done|].
    destruct (g_unsafeRoot P) as [r0|] eqn:Er.
    + injection Hr as ->. destruct (gi_root _ _ _ _ _ (go_gen _ HW p P HP) r Er) as [->|(Hne & (Hrp & HR & Hb) & Hset)].
      * split; [lia|]. split; [done|]. split; [by exists P|]. intros x X Hx HX Hs. by destruct (Hno x X).
      * split; [lia|]. rewrite HPs in *. split; [lia|]. split; [done|]. intros x X Hx HX Hs.
        destruct (decide (x = p)) as [->|]; [congruence|]. destruct (decide (x < p)); [apply (Hb x); auto; lia|].
        destruct (Hno x X); [lia|done|done].
    + injection Hr as <-. split; [lia|]. split; [done|]. split; [by exists P|]. intros x X Hx HX Hs. by destruct (Hno x X).
  - intros r Hne (Hr & (R & HR & HRs) & Hb) Hsb. unfold gen_flag in Hsb. rewrite HR in Hsb.
    destruct (gi_safe _ _ _ _ _ (go_gen _ HW r R HR) (or_intror Hsb)) as [Hset Hbel]. rewrite HRs in Hbel.
    intros x X Hx HX Hs'. destruct (decide (x = r)) as [->|]; [congruence|].
    destruct (decide (x < r)); [by eapply Hbel|]. apply (Hb x); auto. lia.
  - intros b Hb. destruct (go_turn _ HW g G b HG Hb) as (B & -> & _). by eexists.
Qed.

(** From one state to the next every generation stays settled. *)
Definition advances (w w' : GWorld) : Prop :=
  ∀ x X, gens w !! x = Some X → ∃ X', gens w' !! x = Some X' ∧ g_sessionID X' = g_sessionID X ∧ g_after X' = g_after X ∧
    (settled (turns w) X → settled (turns w') X').
Lemma advances_back w w' (x : nat) X' : advances w w' → x < length (gens w) → gens w' !! x = Some X' →
  ∃ X, gens w !! x = Some X ∧ g_sessionID X' = g_sessionID X ∧ g_after X' = g_after X ∧ (settled (turns w) X → settled (turns w') X').
Proof.
  intros Ha Hx HX'. destruct (lookup_lt_is_Some_2 _ _ Hx) as [X HX]. destruct (Ha x X HX) as (X'' & HX'' & ?).
  exists X. split; [done|]. rewrite HX' in HX''. by injection HX'' as [= <-].
Qed.
Lemma below_advances w w' s (g : nat) : advances w w' → g ≤ length (gens w) → below w s g → below w' s g.
Proof.
  intros Ha Hg Hb x X' Hx HX' Hs. destruct (advances_back w w' x X' Ha) as (X & HX & H1 & H2 & H3); [lia|done|].
  apply H3, (Hb x); congruence.
Qed.
Lemma between_advances w w' s (g r : nat) : advances w w' → g ≤ length (gens w) → between w s g r → between w' s g r.
Proof.
  intros Ha Hg (Hr & (R & HR & HRs) & Hb). split; [done|]. split.
  - destruct (Ha r R HR) as (R' & HR' & ? & _). exists R'. split; [done|congruence].
  - intros x X' Hx HX' Hs. destruct (advances_back w w' x X' Ha) as (X & HX & H1 & H2 & H3); [lia|done|].
    apply H3, (Hb x); congruence.
Qed.

(** One generation and its bindings move on. *)
Section Update.
Context (w w' : GWorld) (g : nat) (G G' : inFlightGen).
Hypothesis HW : gworld_ok w.
Hypothesis HG : gens w !! g = Some G.
Hypothesis Hgens : gens w' = <[g := G']> (gens w).
Hypothesis Hinv : ginv (turns w') (below w (g_sessionID G) g) (between w (g_sessionID G) g) g G'.
Hypothesis Hset : settled (turns w) G → settled (turns w') G'.
Hypothesis Hsess : g_sessionID G' = g_sessionID G.
Hypothesis Hafter : g_after G' = g_after G.
Hypothesis Hgrow : ∀ x X, x ≠ g → gens w !! x = Some X → turns_grow (turns w) (turns w') X X.
Hypothesis Hturn : ∀ x X b, gens w' !! x = Some X → g_turn X = Some b → ∃ B, turns w' !! b = Some B ∧ b_gen B = x.
Hypothesis Hsend : ∀ b B, turns w' !! b = Some B → send_ok B ∧ ∃ X, gens w' !! b_gen B = Some X ∧ (busy B → g_turn X = Some b).
Hypothesis Hslots : registry_side w (below w (g_sessionID G) g) g G (activeGen w').

Lemma moved_lookup x X' : gens w' !! x = Some X' → (x = g ∧ X' = G') ∨ (x ≠ g ∧ gens w !! x = Some X').
Proof using Hgens HG.
  rewrite Hgens. intros H. destruct (decide (x = g)) as [->|Hne].
  - rewrite list_lookup_insert_eq in H by (by eapply lookup_lt_Some). injection H as [= <-]. auto.
  - rewrite list_lookup_insert_ne in H by done. auto.
Qed.
Lemma update_other x X : x ≠ g → gens w !! x = Some X → gens w' !! x = Some X.
Proof using Hgens. intros Hne HX. rewrite Hgens. by rewrite list_lookup_insert_ne. Qed.
Lemma update_self : gens w' !! g = Some G'.
Proof using Hgens HG. rewrite Hgens. apply list_lookup_insert_eq. by eapply lookup_lt_Some. Qed.
Lemma other_turns x X b : gens w !! x = Some X → g_turn X = Some b → is_Some (turns w !! b).
Proof using HW. intros HX Hb. destruct (go_turn _ HW x X b HX Hb) as (B & -> & _). by eexists. Qed.
Lemma update_advances : advances w w'.
Proof using All.
  intros x X HX. destruct (decide (x = g)) as [->|Hne].
  - exists G'. rewrite HG in HX. injection HX as [= <-]. split; [apply update_self|]. auto.
  - exists X. split; [by apply update_other|]. split_and!; try done.
    apply (settled_mono _ _ false X); [intros b; by apply (other_turns x)|by apply Hgrow with x].
Qed.
Lemma update_ok : gworld_ok w'.
Proof using All.
  pose proof update_advances as Ha.
  assert (length (gens w') = length (gens w)) as Hlen by (rewrite Hgens; apply length_insert).
  split; try done.
  - intros x X HX. assert (x < length (gens w)) as Hx by (rewrite <- Hlen; by eapply lookup_lt_Some).
    unfold gen_ok. destruct (moved_lookup x X HX) as [[-> ->]|[Hne HX0]].
    + rewrite Hsess. apply (ginv_mono (turns w') (turns w') false G') with (P := below w (g_sessionID G) g) (Q := between w (g_sessionID G) g); try done.
      * intros b Hb. destruct (Hturn g G' b HX Hb) as (B & -> & _). by eexists.
      * apply turns_grow_refl.
      * apply below_advances; [done|lia].
      * intros r. apply between_advances; [done|lia].
    + pose proof (go_gen _ HW x X HX0) as Hx'.
      apply (ginv_mono (turns w) (turns w') false X) with (P := below w (g_sessionID X) x) (Q := between w (g_sessionID X) x); try done.
      * intros b. by apply (other_turns x).
      * by apply Hgrow with x.
      * apply below_advances; [done|lia].
      * intros r. apply between_advances; [done|lia].
  - intros x X p HX Hp. assert (x < length (gens w)) as Hx by (rewrite <- Hlen; by eapply lookup_lt_Some).
    destruct (advances_back _ _ _ _ Ha Hx HX) as (X0 & HX0 & Hs0 & Ha0 & _).
    destruct (go_after _ HW x X0 p HX0) as (Hlt & (P & HP & HPs) & Hno); [congruence|]. split; [done|]. split.
    + destruct (Ha p P HP) as (P' & HP' & ? & _). exists P'. split; [done|congruence].
    + intros y Y Hy HY. assert (y < length (gens w)) as Hyl by lia.
      destruct (advances_back _ _ _ _ Ha Hyl HY) as (Y0 & HY0 & ? & _). specialize (Hno y Y0 Hy HY0). congruence.
  - intros s x Hx. assert (activeGen w !! s = Some x) as Hx0.
    { destruct Hslots as [<-|(Hd & _)]; [done|]. rewrite Hd in Hx. by apply lookup_delete_Some in Hx as [_ ?]. }
    destruct (go_slot _ HW s x Hx0) as (X & HX & Hs & Hno). destruct (Ha x X HX) as (X' & HX' & ? & _).
    exists X'. split; [done|]. split; [congruence|]. intros y Y Hy HY.
    assert (y < length (gens w)) as Hyl by (rewrite <- Hlen; by eapply lookup_lt_Some).
    destruct (advances_back _ _ _ _ Ha Hyl HY) as (Y0 & HY0 & ? & _). specialize (Hno y Y0 Hy HY0). congruence.
  - intros s Hs. rewrite Hlen. apply (below_advances w); [done|done|].
    destruct Hslots as [Heq|(Hd & Hg & Hq)]; [apply (go_idle _ HW); congruence|].
    destruct (decide (s = g_sessionID G)) as [->|Hne].
    + destruct (go_slot _ HW _ _ Hg) as (X & HX & HXs & Hno). destruct Hq as [HsG HbG].
      intros x Y Hx HY HYs. destruct (decide (x < g)); [by eapply HbG|]. destruct (decide (x = g)) as [->|]; [congruence|].
      destruct (Hno x Y); [lia|done|done].
    + apply (go_idle _ HW). rewrite Hd in Hs. by rewrite lookup_delete_ne in Hs by done.
Qed.
End Update.

Lemma perform_ok w g G e : gworld_ok w → gens w !! g = Some G →
  result_ok w (below w (g_sessionID G) g) (between w (g_sessionID G) g) g G e →
  side_ok w (below w (g_sessionID G) g) g G e → gworld_ok (perform g e w).
Proof.
  intros HW HG [Hinv Hset Hs1 Hs2 Hs3] [Hb Hr].
  assert (turns (perform g e w) = turns_after w (ef_turn e)) as Ht by done.
  assert (∀ x X, gens (perform g e w) !! x = Some X → ∃ X0, gens w !! x = Some X0 ∧ g_turn X = g_turn X0 ∧ (x ≠ g → X = X0)) as Hback.
  { intros x X HX. cbn in HX. destruct (decide (x = g)) as [->|Hne].
    - rewrite list_lookup_insert_eq in HX by (by eapply lookup_lt_Some). injection HX as [= <-]. by exists G.
    - rewrite list_lookup_insert_ne in HX by done. by exists X. }
  apply (update_ok w (perform g e w) g G (ef_gen e)); try done.
  - intros x X Hne HX. rewrite Ht. intros b B Hbx HB. unfold binding_side in Hb.
    destruct (ef_turn e) as [[b0 B']|]; [|exists B; split; [done|apply tle_refl]].
    destruct Hb as (B0 & HB0 & Hg0 & Hl & _). cbn. destruct (decide (b = b0)) as [->|Hbne].
    + rewrite HB0 in HB. injection HB as [= <-]. exists B'. rewrite list_lookup_insert_eq by (by eapply lookup_lt_Some).
      split; [done|]. destruct Hl as [Hl|Hg]; [apply Hl|]. destruct (go_turn _ HW x X b0 HX Hbx) as (B1 & HB1 & ?). congruence.
    + exists B. rewrite list_lookup_insert_ne by done. split; [done|apply tle_refl].
  - intros x X b HX Hbx. destruct (Hback x X HX) as (X0 & HX0 & Htx & _).
    destruct (go_turn _ HW x X0 b HX0) as (B & HB & HBg); [congruence|]. rewrite Ht. unfold binding_side in Hb.
    destruct (ef_turn e) as [[b0 B']|]; [|by exists B]. destruct Hb as (B0 & HB0 & Hg0 & _). cbn.
    destruct (decide (b = b0)) as [->|Hbne].
    + exists B'. rewrite list_lookup_insert_eq by (by eapply lookup_lt_Some). split; [done|congruence].
    + exists B. by rewrite list_lookup_insert_ne.
  - intros b B HB. rewrite Ht in HB.
    assert (∀ B0, turns w !! b = Some B0 → b_gen B = b_gen B0 → (send_ok B0 → send_ok B) → (busy B → busy B0 ∨ (g_turn G = Some b ∧ b_gen B0 = g)) →
      send_ok B ∧ ∃ X, gens (perform g e w) !! b_gen B = Some X ∧ (busy B → g_turn X = Some b)) as H.
    { intros B0 HB0 Hg0 Hs Hbusy. destruct (go_send _ HW b B0 HB0) as (Hok & X & HX & HXb). split; [by apply Hs|].
      rewrite Hg0. cbn. destruct (decide (b_gen B0 = g)) as [Heq|Hne].
      - rewrite Heq in HX |- *. rewrite HG in HX. injection HX as [= <-]. exists (ef_gen e).
        rewrite list_lookup_insert_eq by (by eapply lookup_lt_Some). split; [done|]. rewrite Hs3.
        intros Hbu. destruct (Hbusy Hbu) as [?|[? _]]; auto.
      - exists X. rewrite list_lookup_insert_ne by done. split; [done|]. intros Hbu. destruct (Hbusy Hbu) as [?|[_ ?]]; [auto|done]. }
    unfold binding_side in Hb. destruct (ef_turn e) as [[b0 B']|]; [|by apply (H B); auto]. cbn in HB.
    destruct Hb as (B0 & HB0 & Hg0 & Hl & Hso & Hbu). destruct (decide (b = b0)) as [->|Hbne].
    + rewrite list_lookup_insert_eq in HB by (by eapply lookup_lt_Some). injection HB as [= <-]. apply (H B0); auto.
      intros Hx. destruct (Hbu Hx) as [?|?]; [by left|]. right. split; [done|].
      destruct (go_turn _ HW g G b0 HG) as (B1 & HB1 & ?); [done|]. congruence.
    + rewrite list_lookup_insert_ne in HB by done. apply (H B); auto.
Qed.

(** The registries of the lock, the cancelling calls and the lifecycle do not matter here. *)
Definition same_gens (w w' : GWorld) : Prop := gens w' = gens w ∧ turns w' = turns w ∧ activeGen w' = activeGen w.
Lemma same_gens_ok w w' : same_gens w w' → gworld_ok w → gworld_ok w'.
Proof.
  intros (H1 & H2 & H3) [Hg Ha Ht Hs Hl Hi]. unfold gen_ok, below, between in *.
  split; unfold gen_ok, below, between; rewrite ?H1, ?H2, ?H3; auto.
Qed.

Section Steps_ok.
Context (w : GWorld).
Hypothesis HW : gworld_ok w.

Lemma sends_ok b B : turns w !! b = Some B → send_ok B.
Proof using HW. intros HB. by destruct (go_send _ HW b B HB). Qed.

Lemma do_claim_ok g : gworld_ok (do_claim g w).
Proof using HW.
  unfold do_claim. destruct (gens w !! g) as [G|] eqn:HG; [|done]. destruct (claim w G) as [G' t] eqn:EC.
  apply (perform_ok w g G); try done.
  - by apply (claim_result _ _ _ _ _ (go_gen _ HW g G HG) (around_ok _ _ _ HW HG) _ _ EC).
  - by apply claim_side.
Qed.

(** A binding changes while its generation does not. *)
Lemma touch_ok b B B' slots routers' G : turns w !! b = Some B → gens w !! b_gen B = Some G → b_gen B' = b_gen B →
  (∀ H, tle H H B B') → (send_ok B → send_ok B') → (busy B' → busy B) → slots = activeGen w →
  gworld_ok (perform (b_gen B) (mkGEffect G (Some (b, B')) slots routers' false) w).
Proof using HW.
  intros HB HG Hg Hl Hs Hb ->. apply (perform_ok w _ G); try done.
  - pose proof (go_gen _ HW _ G HG) as HI. destruct (touched _ _ _ _ _ HI (around_ok _ _ _ HW HG) b B B' HB (λ _, Hl G)). by split.
  - by apply (side_touch w _ _ G G b B).
Qed.
Lemma set_turn_ok b B B' : turns w !! b = Some B → b_gen B' = b_gen B →
  (∀ H, tle H H B B') → (send_ok B → send_ok B') → (busy B' → busy B) → gworld_ok (set_turn b B' w).
Proof using HW.
  intros HB Hg Hl Hs Hb. destruct (go_send _ HW b B HB) as (_ & G & HG & _).
  apply (same_gens_ok (perform (b_gen B) (mkGEffect G (Some (b, B')) (activeGen w) (routers w) false) w)).
  - split_and!; try done. cbn. by rewrite list_insert_id.
  - by apply touch_ok.
Qed.

Lemma cancel_step_ok c x w' : cancel_step c x w = Some w' → gworld_ok w'.
Proof using HW.
  intros Hc. unfold cancel_step, chain_step, find_step, call_to, call_ends in Hc.
  assert (∀ u, same_gens w u → gworld_ok u) as Hsame by (intros u Hu; by apply (same_gens_ok w)).
  assert (∀ g u, same_gens (do_claim g w) u → gworld_ok u) as Hclaim by (intros g u Hu; apply (same_gens_ok _ _ Hu), do_claim_ok).
  destruct x; repeat case_match; simplify_eq; first [by apply Hsame | by eapply Hclaim].
Qed.
End Steps_ok.

Section Admission.
Context (w : GWorld) (g session : nat) (G : inFlightGen).
Hypothesis HW : gworld_ok w.
Hypothesis HG : gens w !! g = Some G.
Hypothesis Hrun : g_body G = GRun.
Hypothesis Hask : g_cancelAsked G = false.
Hypothesis Hlast : ∀ b B, g_turn G = Some b → turns w !! b = Some B →
  (b_sendReturned B = true ∧ b_sendErr B = false) ∨ (b_sendDecided B = true ∧ b_sendStarted B = false).

Abbreviation B0 := (mkBinding g session false false false false false false false SAdmitted).
Abbreviation b0 := (length (turns w)).
Abbreviation ts' := (turns w ++ [B0])%list.

Lemma not_failing b : g_turn G = Some b → ¬ failing (turns w) b.
Proof using HW Hlast.
  intros Hb (B & HB & Hf). pose proof (sends_ok w HW b B HB) as Hs. unfold send_ok in Hs.
  destruct (Hlast b B Hb HB) as [[? ?]|[? ?]]; destruct Hf as [He|He]; try congruence.
  - set_unfold in He. destruct He as [E|[E|[E|[]]]]; rewrite E in Hs; destruct Hs as (? & ? & ? & ?); congruence.
  - destruct (b_send B); intuition congruence.
  - set_unfold in He. destruct He as [E|[E|[E|[]]]]; rewrite E in Hs; destruct Hs as (? & ? & ? & ?); congruence.
Qed.
Lemma not_settled : ¬ settled (turns w) G.
Proof using HW Hlast Hrun Hask.
  intros [[?|[?|(b & B & Hb & HB & _ & He)]] _]; [congruence|by rewrite Hrun in *|].
  apply (not_failing b Hb). exists B. auto.
Qed.
Lemma ginv_admit P Q : ginv (turns w) P Q g G → ginv ts' P Q g (with_turn (Some b0) G).
Proof using HW Hlast Hrun Hask.
  intros []. pose proof not_settled as Hns. pose proof not_failing as Hnf.
  assert (∀ R : Prop, quiet (turns w) P G → R) as Hq by (intros R [? _]; by destruct Hns).
  assert (∀ r, rooted (turns w) Q g G r → rooted ts' Q g (with_turn (Some b0) G) r) as Hr
    by (intros r [?|(_ & _ & ?)]; [by left|by destruct Hns]).
  assert (∀ H, held (turns w) P G → held ts' P (with_turn H G)) as Hh by (intros H [?|?]; [by left|by apply Hq]).
  split; try done; cbn; auto.
  - intros _. rewrite Hrun in *. auto.
  - intros ?. by apply Hq, gi_safe0.
  - rewrite Hrun. done.
  - unfold watcher_ok in *. cbn. destruct (g_watcher G); try done; try (by apply Hq).
    + by destruct gi_watcher0 as (_ & _ & ?).
    + destruct gi_watcher0 as (Hb & _ & [?|Hf]); [congruence|by destruct (Hnf _ Hb)].
    + destruct gi_watcher0 as (Hb & _ & [?|Hf] & _); [congruence|by destruct (Hnf _ Hb)].
    + destruct gi_watcher0. by apply Hq.
  - unfold worker_ok in *. cbn. destruct (g_worker G); try done; try (by apply Hq); auto.
    all: repeat match goal with H : _ ∧ _ |- _ => destruct H end.
    all: match goal with H : claim_ok _ _ _ _ |- _ => destruct H as (? & _) | H : g_cancelAsked G = true |- _ => idtac end; congruence.
  - unfold run_ok. cbn. by rewrite Hrun.
Qed.

Lemma admitted_lookup b B : ts' !! b = Some B → (b = b0 ∧ B = B0) ∨ turns w !! b = Some B.
Proof. intros H. apply lookup_app_Some in H as [?|[? H]]; [by right|]. apply list_lookup_singleton_Some in H as [? ?]. left. split; [lia|done]. Qed.
Lemma admit_ok routers' : gworld_ok (mkGWorld (<[g := with_turn (Some b0) G]> (gens w)) ts' (activeGen w) routers'
  (activeGenMu w) (cancellers w) (runtime_done w) (closed w) (owner_done w) (panicked w)).
Proof using HW HG Hlast Hrun Hask.
  set (w' := mkGWorld _ _ _ _ _ _ _ _ _ _).
  assert (∀ x X, x ≠ g → gens w !! x = Some X → gens w' !! x = Some X) as Hother by (intros x X ? ?; cbn; by rewrite list_lookup_insert_ne).
  assert (gens w' !! g = Some (with_turn (Some b0) G)) as Hself by (cbn; apply list_lookup_insert_eq; by eapply lookup_lt_Some).
  assert (∀ b B, turns w !! b = Some B → ts' !! b = Some B) as Hold by (intros b B HB; by apply lookup_app_l_Some).
  apply (update_ok w w' g G (with_turn (Some b0) G)); try done.
  - apply ginv_admit, (go_gen _ HW g G HG).
  - intros H. by destruct not_settled.
  - intros x X Hne HX b B Hb HB. exists B. split; [by apply Hold|apply tle_refl].
  - intros x X b HX Hb. destruct (decide (x = g)) as [->|Hne].
    + rewrite Hself in HX. injection HX as [= <-]. cbn in Hb. injection Hb as <-. exists B0. split; [|done].
      cbn. by rewrite lookup_app_r, Nat.sub_diag by done.
    + cbn in HX. rewrite list_lookup_insert_ne in HX by done. destruct (go_turn _ HW x X b HX Hb) as (B & HB & ?). exists B. auto.
  - intros b B HB. destruct (admitted_lookup b B HB) as [[-> ->]|HB0].
    + split; [done|]. exists (with_turn (Some b0) G). split; [done|]. by intros _.
    + destruct (go_send _ HW b B HB0) as (Hs & X & HX & Hbu). split; [done|].
      destruct (decide (b_gen B = g)) as [Heq|Hne]; [|exists X; auto]. exists (with_turn (Some b0) G). rewrite Heq. split; [done|].
      intros Hb. rewrite Heq, HG in HX. injection HX as [= <-]. exfalso.
      destruct Hb as [Hst Hb]. destruct (Hlast b B) as [[? ?]|[? ?]]; [apply Hbu; by split|done| |congruence].
      destruct Hb; congruence.
  - by left.
Qed.
End Admission.

(** A new turn of a session. *)
Section Registration.
Context (w : GWorld) (s msg : string) (cognitive : bool) (body : Body).
Hypothesis HW : gworld_ok w.
Hypothesis Hbody : (∃ user, body = GRegistered user) ∨ (body = GReserved ∧ activeGen w !! s = None).
Abbreviation G0 := (newInFlightGen s msg cognitive (activeGen w !! s) body).
Abbreviation n := (length (gens w)).

Lemma register_lookup x X : gens (register s G0 w) !! x = Some X → (x = n ∧ X = G0) ∨ (x < n ∧ gens w !! x = Some X).
Proof.
  intros H. apply lookup_app_Some in H as [H|[? H]]; [right; split; [by eapply lookup_lt_Some|done]|].
  apply list_lookup_singleton_Some in H as [? ?]. left. split; [lia|done].
Qed.
Lemma register_advances : advances w (register s G0 w).
Proof. intros x X HX. exists X. split; [by apply lookup_app_l_Some|]. done. Qed.
Lemma newest x X p : activeGen w !! s = Some p → p < x → gens w !! x = Some X → g_sessionID X ≠ s.
Proof using HW. intros Hp Hx HX. destruct (go_slot _ HW s p Hp) as (_ & _ & _ & H). by apply (H x X). Qed.
Lemma register_ok : gworld_ok (register s G0 w).
Proof using HW Hbody.
  pose proof register_advances as Ha. split.
  - intros x X HX. destruct (register_lookup x X HX) as [[-> ->]|[Hx HX0]].
    + unfold gen_ok. cbn. split; try (by destruct Hbody as [[? ->]|[-> ?]]); cbn; auto; try done.
      * intros Hn. apply (below_advances w); [done|done|]. by apply (go_idle _ HW).
      * by intros [].
      * destruct Hbody as [[? ->]|[-> ?]]; by intros [].
      * destruct Hbody as [[? ->]|[-> ?]]; by intros r [].
    + apply (ginv_mono (turns w) (turns w) false X) with (P := below w (g_sessionID X) x) (Q := between w (g_sessionID X) x).
      * intros b Hb. destruct (go_turn _ HW x X b HX0 Hb) as (B & -> & _). by eexists.
      * apply turns_grow_refl.
      * apply below_advances; [done|lia].
      * intros r. apply between_advances; [done|lia].
      * by apply (go_gen _ HW).
  - intros x X p HX Hp. destruct (register_lookup x X HX) as [[-> ->]|[Hx HX0]].
    + cbn in Hp |- *. destruct (go_slot _ HW s p Hp) as (P & HP & HPs & _). pose proof (lookup_lt_Some _ _ _ HP) as Hlt.
      split; [done|]. split; [exists P; split; [by apply lookup_app_l_Some|done]|].
      intros y Y Hy HY. destruct (register_lookup y Y HY) as [[-> ->]|[? HY0]]; [lia|]. by apply (newest y Y p); [|lia|].
    + destruct (go_after _ HW x X p HX0 Hp) as (Hlt & (P & HP & HPs) & Hno). split; [done|].
      split; [exists P; split; [by apply lookup_app_l_Some|done]|].
      intros y Y Hy HY. destruct (register_lookup y Y HY) as [[-> ->]|[? HY0]]; [lia|]. by apply (Hno y).
  - intros x X b HX Hb. destruct (register_lookup x X HX) as [[-> ->]|[Hx HX0]]; [done|]. by apply (go_turn _ HW x X b).
  - intros b B HB. destruct (go_send _ HW b B HB) as (Hs & X & HX & ?). split; [done|]. exists X. split; [by apply lookup_app_l_Some|done].
  - intros t x Hx. cbn in Hx. apply lookup_insert_Some in Hx as [[<- <-]|[Hne Hx]].
    + exists G0. cbn. rewrite lookup_app_r, Nat.sub_diag by done. split_and!; try done.
      intros y Y Hy HY. destruct (register_lookup y Y HY) as [[-> ->]|[? HY0]]; lia.
    + destruct (go_slot _ HW t x Hx) as (X & HX & HXs & Hno). exists X. split; [by apply lookup_app_l_Some|]. split; [done|].
      intros y Y Hy HY. destruct (register_lookup y Y HY) as [[-> ->]|[? HY0]]; [done|]. by apply (Hno y).
  - intros t Ht. cbn in Ht. apply lookup_insert_None in Ht as [Ht Hne].
    intros x X Hx HX HXs. destruct (register_lookup x X HX) as [[-> ->]|[? HX0]]; [done|]. by apply (go_idle _ HW t Ht x).
Qed.
End Registration.

Lemma empty_gworld_ok : gworld_ok empty_gworld.
Proof. by split. Qed.

Lemma ostep_ok w e w' : gworld_ok w → ostep w e w' → gworld_ok w'.
Proof.
  intros HW [Hstep Hord]. unfold step, apply in Hstep.
  assert (∀ g G, gens w !! g = Some G → gen_ok w g G) as Hgen by apply (go_gen _ HW).
  assert (∀ g G, gens w !! g = Some G → around w (below w (g_sessionID G) g) (between w (g_sessionID G) g) g G) as Har
    by (intros; by apply around_ok).
  assert (∀ b B, turns w !! b = Some B → send_ok B) as Hsnd by apply (sends_ok w HW).
  assert (∀ u, same_gens w u → gworld_ok u) as Hsame by (intros u Hu; by apply (same_gens_ok w)).
  destruct e as [s msg user cognitive|s msg|g i|g|g i|g i|g i|b i|g n ctx_err sink|b|b|b|n|s|s msg| |c| |].
  - (* Launch *) case_match; simplify_eq. apply register_ok; eauto.
  - (* Trigger *) case_match; [|done]. destruct (activeGen w !! s) eqn:E; simplify_eq; [done|].
    pose proof (register_ok w s msg false GReserved HW) as Hr. rewrite E in Hr. apply Hr; auto.
  - (* BodyStep *) destruct (gens w !! g) as [G|] eqn:HG; [|done]. cbn in Hstep.
    destruct (body_step w g G i) as [e|] eqn:He; simplify_eq/=. apply (perform_ok w g G); auto; [|exact (body_side w _ _ g G (Hgen g G HG) i e He)].
    destruct (before_run (g_body G)) eqn:Eb; [exact (body_waits w _ _ g G (Hgen g G HG) (Har g G HG) i e Eb He)|].
    apply (body_runs w _ _ g G (Hgen g G HG) (Har g G HG) i e Eb); [|done]. intros Er b B Hb HB.
    cbn in Hord. rewrite HG, Er, Hb, HB in Hord. by apply orb_true_iff in Hord.
  - (* BridgeStep *) destruct (gens w !! g) as [G|] eqn:HG; [|done]. cbn in Hstep. case_match; simplify_eq.
    destruct (cancel_keeps w _ _ g G (Hgen g G HG) (Har g G HG)). apply (perform_ok w g G); [done|done|by split|apply side_none].
  - destruct (gens w !! g) as [G|] eqn:HG; [|done]. cbn in Hstep. destruct (worker_step w g G i) as [e|] eqn:He; simplify_eq/=.
    apply (perform_ok w g G); auto; [exact (worker_step_ok w _ _ g G (Hgen g G HG) (Har g G HG) i e He)|by eapply worker_side].
  - destruct (gens w !! g) as [G|] eqn:HG; [|done]. cbn in Hstep. destruct (watcher_step w G i) as [e|] eqn:He; simplify_eq/=.
    apply (perform_ok w g G); auto; [exact (watcher_step_ok w _ _ g G (Hgen g G HG) (Har g G HG) Hsnd i e He)|by eapply watcher_side].
  - destruct (gens w !! g) as [G|] eqn:HG; [|done]. cbn in Hstep. destruct (release_step w g G i) as [e|] eqn:He; simplify_eq/=.
    apply (perform_ok w g G); auto; [exact (release_step_ok w _ _ g G (Hgen g G HG) i e He)|exact (release_side w _ _ g G (Hgen g G HG) i e He)].
  - (* SendStep *) destruct (turns w !! b) as [B|] eqn:HB; [|done]. cbn in Hstep.
    destruct (go_send _ HW b B HB) as (Hok & G & HG & Hbusy). rewrite HG in Hstep. cbn in Hstep.
    destruct (send_step w (b_gen B) G i b B) as [e|] eqn:He; simplify_eq/=.
    apply (perform_ok w _ G); auto; [exact (send_step_ok w _ _ _ G (Hgen _ G HG) (Har _ G HG) Hsnd i b B e HB Hbusy He)|by eapply send_side].
  - (* AdmitTurn *) destruct (gens w !! g) as [G|] eqn:HG; [|done]. cbn in Hstep.
    destruct (g_body G) eqn:Eb; try discriminate Hstep. injection Hstep as <-. unfold admitRuntimeTurn.
    destruct (g_cancelAsked G || ctx_err || g_cancelled G) eqn:Ec; [done|].
    apply orb_false_iff in Ec as [[Ec _]%orb_false_iff _]. case_match; [done|]. apply admit_ok; auto.
    intros b B Hb HB. cbn in Hord. rewrite HG, Hb, HB in Hord.
    apply orb_true_iff in Hord as [[? ?%negb_true_iff]%andb_prop|[? ?%negb_true_iff]%andb_prop]; auto.
  - (* TurnTerminal *) destruct (turns w !! b) as [B|] eqn:HB; [|done]. cbn in Hstep.
    destruct (go_send _ HW b B HB) as (Hok & G & HG & Hbusy). rewrite HG in Hstep. cbn in Hstep.
    case_match; simplify_eq/=. apply touch_ok; auto using tle_drained.
  - destruct (turns w !! b) as [B|] eqn:HB; simplify_eq/=. apply (set_turn_ok w HW b B); auto.
    intros H. split; try by auto.
    intros [?|[? [?|Hc]]]; [by left|by right; auto|]. right. split; [done|]. by right.
  - destruct (turns w !! b) as [B|] eqn:HB; [|done]. cbn in Hstep. destruct (go_send _ HW b B HB) as (Hok & G & HG & Hbusy).
    rewrite HG in Hstep. cbn in Hstep. case_match; simplify_eq. apply (set_turn_ok w HW b B); auto using tle_closed.
  - simplify_eq. by apply Hsame.
  - simplify_eq. by apply Hsame.
  - simplify_eq. by apply Hsame.
  - case_match; simplify_eq. by apply Hsame.
  - destruct (cancellers w !! c) as [x|] eqn:Ex; [|done]. cbn in Hstep. by eapply cancel_step_ok.
  - simplify_eq. by apply Hsame.
  - case_match; simplify_eq. by apply Hsame.
Qed.
Lemma oreachable_ok w : oreachable w → gworld_ok w.
Proof.
  intros [evs H]. by apply (steps_invariant ostep gworld_ok _ _ _ (λ a l b Hs Ha, ostep_ok a l b Ha Hs) H empty_gworld_ok).
Qed.

(** Runs of the model. *)
Fixpoint run (evs : list Ev) (w : GWorld) : option GWorld :=
  match evs with
  | [] => Some w
  | e :: evs => if orderly w e then w' ← apply e w; run evs w' else None
  end.
Lemma evs_steps evs w w' : run evs w = Some w' → steps ostep w evs w'.
Proof.
  revert w. induction evs as [|e evs IH]; intros w; cbn; [intros [= <-]; constructor|].
  destruct (orderly w e) eqn:Eo; [|done]. destruct (apply e w) as [w1|] eqn:E; [|done]. intros H.
  econstructor; [by split; [apply E|]|by apply IH].
Qed.
Definition after (evs : list Ev) (w : GWorld) : GWorld := default w (run evs w).
Lemma after_steps evs w : is_Some (run evs w) → steps ostep w evs (after evs w).
Proof. unfold after. intros [w' H]. rewrite H. by apply evs_steps. Qed.

(** C6. Two prompts of one chat session are never with its agent runtime at once: whatever
    queueing, cancelling, failing and retrying went before, when two runtime turns of a
    session are between the start of their send and its return, they are the same turn. *)
Theorem one_send_at_a_time w b1 b2 B1 B2 G1 G2 :
  oreachable w → turns w !! b1 = Some B1 → turns w !! b2 = Some B2 →
  gens w !! b_gen B1 = Some G1 → gens w !! b_gen B2 = Some G2 → g_sessionID G1 = g_sessionID G2 →
  sending B1 = true → sending B2 = true → b1 = b2.
Proof.
  intros HR HB1 HB2 HG1 HG2 Hs H1 H2. pose proof (oreachable_ok w HR) as HW.
  assert (∀ b B G, turns w !! b = Some B → gens w !! b_gen B = Some G → sending B = true →
    g_turn G = Some b ∧ b_sendStarted B = true ∧ b_sendReturned B = false) as Hsend.
  { intros b B G HB HG [? ?%negb_true_iff]%andb_prop. destruct (go_send _ HW b B HB) as (_ & X & HX & Hb).
    rewrite HG in HX. injection HX as [= <-]. split; [|done]. apply Hb. split; auto. }
  destruct (Hsend b1 B1 G1 HB1 HG1 H1) as (Ht1 & Hst1 & Hr1). destruct (Hsend b2 B2 G2 HB2 HG2 H2) as (Ht2 & Hst2 & Hr2).
  assert (∀ g g' X X' b b' B, g < g' → gens w !! g = Some X → gens w !! g' = Some X' → g_sessionID X = g_sessionID X' →
    g_turn X = Some b → g_turn X' = Some b' → turns w !! b = Some B → b_sendStarted B = true → b_sendReturned B = false → False) as Hno.
  { intros g g' X X' b b' B Hlt HX HX' Hss Hb Hb' HB Hst Hr. pose proof (go_gen _ HW g' X' HX') as HI.
    destruct (gi_turn _ _ _ _ _ HI) as [Hp _]; [congruence|].
    destruct (gi_pred_none _ _ _ _ _ HI Hp g X Hlt HX Hss) as [_ Hover]. destruct (Hover b B Hb HB) as [?|[? _]]; congruence. }
  destruct (lt_eq_lt_dec (b_gen B1) (b_gen B2)) as [[Hlt|Heq]|Hlt].
  - exfalso. by apply (Hno (b_gen B1) (b_gen B2) G1 G2 b1 b2 B1).
  - rewrite Heq in HG1. congruence.
  - exfalso. by apply (Hno (b_gen B2) (b_gen B1) G2 G1 b2 b1 B2).
Qed.

(** A turn whose prompt is with the runtime. *)
Definition one_prompt : list Ev :=
  ([Launch "s" "m0" "" false] ++ replicate 5 (BodyStep 0 Go) ++ [AdmitTurn 0 7 false true; SendStep 0 Go])%list.
Lemma one_send_at_a_time_witness :
  ∃ B, turns (after one_prompt empty_gworld) !! 0 = Some B ∧ sending B = true ∧ 0 = 0.
Proof.
  eexists. split; [vm_compute; reflexivity|]. split; [reflexivity|].
  eapply (one_send_at_a_time (after one_prompt empty_gworld));
    [exists one_prompt; apply after_steps; vm_compute; by eexists|vm_compute; reflexivity..].
Defined.
