(* ===== verification/GenerationProgress.v ===== *)
(** The progress of the turns of a session ([Generations]).

    One turn of a session runs at a time; what a turn that ends with its boundary open does to
    the session; every cancellation ends; no channel is closed twice. *)

From S2P Require Import Prelude Generations GenerationSafety.

Open Scope string_scope.
Open Scope nat_scope.
Set Default Proof Using "Type".

(** ** One turn at a time *)

(** Bodies that have seen the end of the turn before them. *)
Definition past (b : Body) : bool :=
  match b with
  | GRegistered _ | GWalk _ | GReserved | GSpawn | GNever | GWaitDone => false
  | _ => true
  end.
Definition all_over (w : GWorld) (s : string) (g : nat) : Prop :=
  ∀ x X, x < g → gens w !! x = Some X → g_sessionID X = s → over (g_body X) = true.
Record turns_ok (w : GWorld) : Prop := {
  to_past : ∀ g G, gens w !! g = Some G → past (g_body G) = true ∨ g_after G = None → all_over w (g_sessionID G) g;
  to_done : ∀ g G, gens w !! g = Some G → g_done G = true → over (g_body G) = true;
  to_release : ∀ g G, gens w !! g = Some G → g_release G = RDelete → g_done G = true;
  to_idle : ∀ s, activeGen w !! s = None → all_over w s (length (gens w));
}.

(** How a step moves the body of its generation. *)
Record moves_on (w : GWorld) (g : nat) (G : inFlightGen) (e : GEffect) : Prop := {
  mo_over : over (g_body G) = true → over (g_body (ef_gen e)) = true;
  mo_past : owner_done w = false → past (g_body (ef_gen e)) = true →
    past (g_body G) = true ∨ g_after G = None ∨ ∃ p, g_after G = Some p ∧ generationDone w p = true;
  mo_done : g_done (ef_gen e) = true → g_done G = true ∨ over (g_body (ef_gen e)) = true;
  mo_still_done : g_done G = true → g_done (ef_gen e) = true;
  mo_release : g_release (ef_gen e) = RDelete → g_release G = RDelete ∨ g_done G = true;
  mo_session : g_sessionID (ef_gen e) = g_sessionID G;
  mo_after : g_after (ef_gen e) = g_after G;
  mo_slots : ef_slots e = activeGen w ∨
    (ef_slots e = delete (g_sessionID G) (activeGen w) ∧ activeGen w !! g_sessionID G = Some g ∧
     (over (g_body G) = true ∨ g_done G = true));
}.
Definition same_body (G G' : inFlightGen) : Prop :=
  (g_body G', g_done G', g_sessionID G', g_after G') = (g_body G, g_done G, g_sessionID G, g_after G) ∧
  (g_release G' = RDelete → g_release G = RDelete).
Lemma same_body_moves w g G G' t routers' panics : same_body G G' → moves_on w g G (mkGEffect G' t (activeGen w) routers' panics).
Proof. intros [[= H1 H2 H3 H4] H5]. split; cbn; rewrite ?H1, ?H2, ?H3, ?H4; auto. Qed.
Lemma over_past b : over b = true → past b = true.
Proof. by destruct b. Qed.

Lemma same_body_safe w G G' : same_body G G' → same_body G (mark_safe w G').
Proof.
  intros [H1 H2]. unfold mark_safe, started. destruct (g_release (made_safe G')) eqn:E; try done. split; [done|]. by destruct (closed w).
Qed.
Lemma same_body_observe w v G G' : same_body G G' → same_body G (observe w v G').
Proof. intros H. destruct (observe_eq w G' v) as [x ->]. done. Qed.
Lemma same_body_inherit w g root G G' : same_body G G' → same_body G (observe_predecessor w g root G').
Proof. intros H. destruct (observe_predecessor_eq w g G' root) as [x ->]. done. Qed.

Lemma worker_moves w g G i e : worker_step w g G i = Some e → moves_on w g G e.
Proof.
  intros He. unfold worker_step, boundary_step, only, and_turn, finish_router in He.
  destruct (g_worker G); destruct i; try discriminate He; cbn in He.
  all: try (destruct (turns w !! b) as [B|]; cbn in He; [|discriminate He]).
  all: try (destruct (c_predecessor c); cbn in He; [|try discriminate He]).
  all: repeat case_match; simplify_eq.
  all: try match goal with H : (turns ?u !! ?n) ≫= _ = Some _ |- _ => destruct (turns u !! n); simplify_eq/= end.
  all: repeat case_match; simplify_eq.
  all: apply same_body_moves; first [done | by apply (same_body_safe w G G) | by apply (same_body_observe w _ G G)
    | by apply (same_body_inherit w g _ G G)].
Qed.
Lemma watcher_moves w g G i e : watcher_step w G i = Some e → moves_on w g G e.
Proof.
  intros He. unfold watcher_step, only, finish_router in He.
  destruct (g_watcher G); destruct i as [| |[]|]; try discriminate He; cbn in He.
  all: try (destruct (turns w !! b) as [B|]; cbn in He; [|discriminate He]).
  all: repeat case_match; simplify_eq; apply same_body_moves; try done; by apply (same_body_safe w G G).
Qed.
Lemma send_moves w g G i b B e : send_step w g G i b B = Some e → moves_on w g G e.
Proof.
  intros He. unfold send_step, cleanup_step, only, and_turn, finish_router in He.
  destruct (b_send B); destruct i; try discriminate He; cbn in He.
  all: repeat case_match; simplify_eq; apply same_body_moves; try done;
    first [by apply (same_body_safe w G G) | by apply (same_body_observe w _ G G)].
Qed.
Lemma claim_same w G G' t : claim w G = (G', t) → same_body G G'.
Proof. unfold claim. destruct (g_cancelOnce G); by intros [= <- <-]. Qed.
Lemma release_moves w g G i e : (g_release G = RDelete → g_done G = true) → release_step w g G i = Some e → moves_on w g G e.
Proof.
  intros Hrel He. unfold release_step, only, clears_slot in He.
  destruct (g_release G) eqn:Er; destruct i; try discriminate He; cbn in He; (case_match; [|discriminate]); injection He as <-;
    try (split; cbn; auto; discriminate).
  pose proof (Hrel eq_refl) as Hdone. split; cbn; auto. destruct (_ && _) eqn:E; [|by left]. right.
  apply andb_prop in E as [[?%bool_decide_eq_true _]%andb_prop _]. auto.
Qed.
Lemma body_to w g G G1 b t routers' panics : same_body G G1 → over (g_body G) = false →
  (owner_done w = false → past b = true → past (g_body G) = true ∨ g_after G = None ∨ ∃ p, g_after G = Some p ∧ generationDone w p = true) →
  moves_on w g G (mkGEffect (at_body b G1) t (activeGen w) routers' panics).
Proof. intros [[= H1 H2 H3 H4] H5] Ho Hp. split; cbn; rewrite ?H1, ?H2, ?H3, ?H4, ?Ho; auto. done. Qed.
Lemma body_over w g G b slots routers' panics : over (g_body G) = true → over b = true →
  slots = activeGen w ∨ (slots = delete (g_sessionID G) (activeGen w) ∧ activeGen w !! g_sessionID G = Some g) →
  moves_on w g G (mkGEffect (at_body b G) None slots routers' panics).
Proof. intros Ho Hb Hs. split; cbn; auto using over_past. destruct Hs as [?|[? ?]]; auto. Qed.

(** Bodies before [done] is closed. *)
Lemma body_moves_early w g G i e : (g_body G = GReserved → g_after G = None) → over (g_body G) = false →
  body_step w g G i = Some e → moves_on w g G e.
Proof.
  intros Hres Hov He. unfold body_step, launch_step, wait_step, retain_step, request_step, deregister_step, mark_completed, only, started in He.
  assert (g_body G = GAwait → moves_on w g G e) as Hawait.
  { intros EB. rewrite EB in He. destruct i; try discriminate He.
    assert (e = mkGEffect (at_body GComplete G) None (activeGen w) (routers w) false) as -> by (repeat case_match; congruence).
    apply body_to; [done|by rewrite EB|rewrite EB; auto]. }
  destruct (g_body G) eqn:EB; destruct i; try discriminate He; try discriminate Hov; try (by apply Hawait); cbn in He; clear Hawait.
  all: try (injection He as <-; first [apply body_to; [first [done|by apply (same_body_inherit w g _ G G)]|by rewrite EB|rewrite EB; by auto]
    | split; cbn; rewrite ?EB; by auto]).
  all: try (destruct (unlocked w); [|discriminate He]; destruct (claim w G) as [G' t] eqn:EC; injection He as <-;
    apply body_to; [by eapply claim_same|by rewrite EB|rewrite EB; by auto]).
  all: try (destruct (g_after G) as [p|] eqn:EA; cbn in He; [|try discriminate He]).
  all: repeat case_match; simplify_eq; (apply body_to; [done|by rewrite EB|rewrite EB; cbn; intros Hown; rewrite ?Hown in *; by eauto]).
Qed.
Lemma body_moves w g G i e : (g_body G = GReserved → g_after G = None) →
  body_step w g G i = Some e → moves_on w g G e.
Proof.
  intros Hres He. destruct (over (g_body G)) eqn:Hov; [|by eapply body_moves_early].
  unfold body_step, launch_step, wait_step, retain_step, request_step, deregister_step, mark_completed, only, clears_slot in He.
  destruct (g_body G) eqn:EB; try discriminate Hov; destruct i; try discriminate He; cbn in He.
  - case_match; [|done]. destruct (holds_slot w g G) eqn:Eh; injection He as <-; apply body_over; rewrite ?EB; auto.
    + by destruct (g_cancelAsked G).
    + apply bool_decide_eq_true in Eh. case_match; auto.
  - case_match; [|done]. injection He as <-. apply body_over; rewrite ?EB; auto.
  - case_match; [|done]. injection He as <-. apply body_over; rewrite ?EB; auto.
    destruct (_ && _) eqn:E; [|by left]. right. apply andb_prop in E as [?%bool_decide_eq_true _]. done.
  - injection He as <-. split; cbn; rewrite ?EB; auto.
Qed.

Section Over.
Context (w : GWorld).
Hypothesis HW : gworld_ok w.
Hypothesis HT : turns_ok w.

Lemma done_below g G p : gens w !! g = Some G → g_after G = Some p → generationDone w p = true → all_over w (g_sessionID G) g.
Proof using HW HT.
  intros HG Hp Hd. destruct (go_after _ HW g G p HG Hp) as (Hlt & (P & HP & HPs) & Hno).
  unfold generationDone, gen_flag in Hd. rewrite HP in Hd. pose proof (to_done _ HT p P HP Hd) as Hov.
  pose proof (to_past _ HT p P HP (or_introl (over_past _ Hov))) as Hb. rewrite HPs in Hb.
  intros x X Hx HX Hs. destruct (decide (x = p)) as [->|]; [congruence|]. destruct (decide (x < p)); [by apply (Hb x)|].
  destruct (Hno x X); [lia|done|done].
Qed.
Lemma first_over g G : gens w !! g = Some G → g_after G = None → all_over w (g_sessionID G) g.
Proof using HT. intros HG Ha. apply (to_past _ HT g G HG). by right. Qed.

Lemma perform_turns_ok g G e : owner_done w = false → gens w !! g = Some G → moves_on w g G e → turns_ok (perform g e w).
Proof using HW HT.
  intros Hown HG [Hov Hpast Hdone Hsd Hrel Hses Haf Hsl].
  assert (∀ x X, gens (perform g e w) !! x = Some X → (x = g ∧ X = ef_gen e) ∨ (x ≠ g ∧ gens w !! x = Some X)) as Hback.
  { intros x X HX. cbn in HX. destruct (decide (x = g)) as [->|Hne].
    - rewrite list_lookup_insert_eq in HX by (by eapply lookup_lt_Some). injection HX as [= <-]. by left.
    - rewrite list_lookup_insert_ne in HX by done. by right. }
  assert (∀ s n, all_over w s n → all_over (perform g e w) s n) as Hall.
  { intros s n Ha x X Hx HX Hs. destruct (Hback x X HX) as [[-> ->]|[_ HX0]]; [|by apply (Ha x)].
    apply Hov, (Ha g); [done|done|congruence]. }
  assert (over (g_body G) = true ∨ g_done G = true → over (g_body G) = true) as Hov2.
  { intros [?|Hd]; [done|]. by apply (to_done _ HT g G). }
  split.
  - intros x X HX Hp. destruct (Hback x X HX) as [[-> ->]|[_ HX0]]; [|by apply Hall, (to_past _ HT x X)].
    apply Hall. rewrite Hses. destruct Hp as [Hp|Hp]; [|apply first_over; congruence].
    destruct (Hpast Hown Hp) as [?|[?|(p & Hp' & Hd)]]; [apply (to_past _ HT g G HG); auto|by apply first_over|by eapply done_below].
  - intros x X HX Hd. destruct (Hback x X HX) as [[-> ->]|[_ HX0]]; [|by apply (to_done _ HT x X)].
    destruct (Hdone Hd) as [?|?]; auto.
  - intros x X HX Hr. destruct (Hback x X HX) as [[-> ->]|[_ HX0]]; [|by apply (to_release _ HT x X)].
    apply Hsd. destruct (Hrel Hr) as [Hr'|?]; [by apply (to_release _ HT g G)|done].
  - intros s Hs. replace (length (gens (perform g e w))) with (length (gens w)) by (symmetry; apply length_insert).
    destruct Hsl as [Heq|(Hd & Hg & Ho)]; [apply Hall, (to_idle _ HT); cbn in Hs; congruence|].
    destruct (decide (s = g_sessionID G)) as [->|Hne].
    + apply Hall. apply Hov2 in Ho. pose proof (to_past _ HT g G HG (or_introl (over_past _ Ho))) as Hb.
      destruct (go_slot _ HW _ _ Hg) as (X & HX & HXs & Hno). intros x Y Hx HY HYs.
      destruct (decide (x = g)) as [->|]; [congruence|]. destruct (decide (x < g)); [by apply (Hb x)|].
      destruct (Hno x Y); [lia|done|done].
    + apply Hall, (to_idle _ HT). cbn in Hs. rewrite Hd in Hs. by rewrite lookup_delete_ne in Hs by done.
Qed.
Lemma same_gens_turns_ok w' : gens w' = gens w → activeGen w' = activeGen w → turns_ok w'.
Proof using HT. intros H1 H2. destruct HT. unfold all_over in *. split; unfold all_over; rewrite ?H1, ?H2; auto. Qed.
Lemma do_claim_turns_ok g : owner_done w = false → turns_ok (do_claim g w).
Proof using HW HT.
  intros Hown. unfold do_claim. destruct (gens w !! g) as [G|] eqn:HG; [|done]. destruct (claim w G) as [G' t] eqn:EC.
  apply (perform_turns_ok g G _ Hown HG), same_body_moves. by eapply claim_same.
Qed.
Lemma register_turns_ok s msg cognitive body : (∃ user, body = GRegistered user) ∨ body = GReserved →
  turns_ok (register s (newInFlightGen s msg cognitive (activeGen w !! s) body) w).
Proof using HT.
  intros Hb. set (G0 := newInFlightGen _ _ _ _ _).
  assert (∀ x X, gens (register s G0 w) !! x = Some X → (x = length (gens w) ∧ X = G0) ∨ (x < length (gens w) ∧ gens w !! x = Some X)) as Hlk
    by (intros x X; apply register_lookup).
  assert (past (g_body G0) = false ∧ g_done G0 = false) as [Hp Hd] by (by destruct Hb as [[? ->]| ->]).
  assert (∀ t n, n ≤ length (gens w) → all_over w t n → all_over (register s G0 w) t n) as Hall.
  { intros t n Hn Ha x X Hx HX Hs. destruct (Hlk x X HX) as [[-> ->]|[_ HX0]]; [lia|by apply (Ha x)]. }
  split.
  - intros x X HX [H|H]; destruct (Hlk x X HX) as [[-> ->]|[Hx HX0]]; try congruence;
      (apply Hall; [lia|]); [by apply (to_past _ HT x X); [|left]|by apply (to_idle _ HT)|by apply (to_past _ HT x X); [|right]].
  - intros x X HX H. destruct (Hlk x X HX) as [[-> ->]|[_ HX0]]; [congruence|by apply (to_done _ HT x X)].
  - intros x X HX H. destruct (Hlk x X HX) as [[-> ->]|[_ HX0]]; [done|by apply (to_release _ HT x X)].
  - intros t Ht. cbn in Ht. apply lookup_insert_None in Ht as [Ht Hne]. intros x X Hx HX Hs.
    destruct (Hlk x X HX) as [[-> ->]|[Hx0 HX0]]; [done|]. by apply (to_idle _ HT t Ht x).
Qed.
End Over.

Lemma ostep_turns_ok w e w' : gworld_ok w → ostep w e w' → (owner_done w = false → turns_ok w) → owner_done w' = false → turns_ok w'.
Proof.
  intros HW [Hstep _] HT Hown. unfold step, apply in Hstep.
  assert (gens w' = gens w → activeGen w' = activeGen w → owner_done w' = owner_done w → turns_ok w') as Hsame.
  { intros H1 H2 H3. apply (same_gens_turns_ok w); auto. apply HT. congruence. }
  assert (∀ g G e, gens w !! g = Some G → (owner_done w = false → moves_on w g G e) → perform g e w = w' → turns_ok w') as Hperf.
  { intros g G e' HG He <-. apply (perform_turns_ok w HW (HT Hown) g G); auto. }
  destruct e as [s msg user cognitive|s msg|g i|g|g i|g i|g i|b i|g n ctx_err sink|b|b|b|n|s|s msg| |c| |].
  - case_match; simplify_eq. apply register_turns_ok; eauto.
  - case_match; [|done]. destruct (activeGen w !! s) eqn:E; simplify_eq; [by apply HT|].
    pose proof (register_turns_ok w (HT Hown) s msg false GReserved) as Hr. rewrite E in Hr. apply Hr. by right.
  - destruct (gens w !! g) as [G|] eqn:HG; [|done]. cbn in Hstep. destruct (body_step w g G i) as [e|] eqn:He; simplify_eq/=.
    apply (Hperf g G e HG); [|done]. intros Ho. apply (body_moves w g G i e); [|done].
    apply (gi_reserved _ _ _ _ _ (go_gen _ HW g G HG)).
  - destruct (gens w !! g) as [G|] eqn:HG; [|done]. cbn in Hstep. case_match; simplify_eq.
    eapply (Hperf g G _ HG); [|done]. intros _. by apply same_body_moves.
  - destruct (gens w !! g) as [G|] eqn:HG; [|done]. cbn in Hstep. destruct (worker_step w g G i) as [e|] eqn:He; simplify_eq/=.
    apply (Hperf g G e HG); [|done]. intros _. by eapply worker_moves.
  - destruct (gens w !! g) as [G|] eqn:HG; [|done]. cbn in Hstep. destruct (watcher_step w G i) as [e|] eqn:He; simplify_eq/=.
    apply (Hperf g G e HG); [|done]. intros _. by eapply watcher_moves.
  - destruct (gens w !! g) as [G|] eqn:HG; [|done]. cbn in Hstep. destruct (release_step w g G i) as [e|] eqn:He; simplify_eq/=.
    apply (Hperf g G e HG); [|done]. intros Ho. eapply release_moves; [|done]. by apply (to_release _ (HT Ho) g G).
  - destruct (turns w !! b) as [B|] eqn:HB; [|done]. cbn in Hstep. destruct (gens w !! b_gen B) as [G|] eqn:HG; [|done]. cbn in Hstep.
    destruct (send_step w (b_gen B) G i b B) as [e|] eqn:He; simplify_eq/=.
    apply (Hperf _ G e HG); [|done]. intros _. by eapply send_moves.
  - destruct (gens w !! g) as [G|] eqn:HG; [|done]. cbn in Hstep. destruct (g_body G) eqn:Eb; try discriminate Hstep.
    injection Hstep as <-. unfold admitRuntimeTurn in *. repeat case_match; try (by apply HT).
    apply (same_gens_turns_ok (perform g (mkGEffect (with_turn (Some (length (turns w))) G) None (activeGen w) (routers w) false) w)); try done.
    apply (perform_turns_ok w HW (HT Hown) g G); [done|done|]. by apply same_body_moves.
  - destruct (turns w !! b) as [B|] eqn:HB; [|done]. cbn in Hstep. destruct (gens w !! b_gen B) as [G|] eqn:HG; [|done]. cbn in Hstep.
    case_match; simplify_eq/=. eapply (Hperf _ G _ HG); [|done]. intros _. by apply same_body_moves.
  - destruct (turns w !! b) as [B|] eqn:HB; simplify_eq/=. by apply Hsame.
  - destruct (turns w !! b) as [B|] eqn:HB; [|done]. cbn in Hstep. destruct (gens w !! b_gen B) as [G|] eqn:HG; [|done]. cbn in Hstep.
    case_match; simplify_eq. by apply Hsame.
  - simplify_eq. by apply Hsame.
  - simplify_eq. by apply Hsame.
  - simplify_eq. by apply Hsame.
  - case_match; simplify_eq. by apply Hsame.
  - destruct (cancellers w !! c) as [x|] eqn:Ex; [|done]. cbn in Hstep. unfold cancel_step, chain_step, find_step, call_to, call_ends in Hstep.
    assert (owner_done w = false → ∀ g u, gens u = gens (do_claim g w) → activeGen u = activeGen (do_claim g w) → turns_ok u) as Hclaim.
    { intros Ho g u H1 H2. apply (same_gens_turns_ok (do_claim g w)); auto. apply do_claim_turns_ok; auto. }
    assert (∀ g, owner_done (do_claim g w) = owner_done w) as Hod.
    { intros g. unfold do_claim. destruct (gens w !! g); [|done]. by destruct (claim w _). }
    destruct x; repeat case_match; simplify_eq; try (by apply Hsame);
      (eapply Hclaim; [|done|done]); rewrite <- Hown; symmetry; apply Hod.
  - simplify_eq. by apply Hsame.
  - by case_match; simplify_eq.
Qed.
Lemma oreachable_turns_ok w : oreachable w → owner_done w = false → turns_ok w.
Proof.
  intros [evs H]. assert (gworld_ok w ∧ (owner_done w = false → turns_ok w)) as [_ Ho]; [|done].
  apply (steps_invariant ostep (λ w, gworld_ok w ∧ (owner_done w = false → turns_ok w)) empty_gworld evs w); [|done|].
  - intros a l b Hs [HW HT]. split; [by eapply ostep_ok|]. by eapply ostep_turns_ok.
  - split; [apply empty_gworld_ok|]. intros _. by split.
Qed.
Lemma dispatching_past G : dispatching G = true → past (g_body G) = true ∧ over (g_body G) = false.
Proof. unfold dispatching. by destruct (g_body G). Qed.

(** C5. Two turns of one chat session are never run at once: until the service shuts down, the
    turn that has passed the wait for its predecessor and has not ended its run is the only
    one of its session, whatever was launched, triggered, cancelled or failed before. *)
Theorem one_turn_at_a_time w g1 g2 G1 G2 :
  oreachable w → owner_done w = false → gens w !! g1 = Some G1 → gens w !! g2 = Some G2 →
  g_sessionID G1 = g_sessionID G2 → dispatching G1 = true → dispatching G2 = true → g1 = g2.
Proof.
  intros HR Ho HG1 HG2 Hs [Hp1 Hn1]%dispatching_past [Hp2 Hn2]%dispatching_past.
  pose proof (oreachable_turns_ok w HR Ho) as HT.
  destruct (lt_eq_lt_dec g1 g2) as [[Hlt|?]|Hlt]; [|done|]; exfalso.
  - pose proof (to_past _ HT g2 G2 HG2 (or_introl Hp2) g1 G1 Hlt HG1 Hs). congruence.
  - pose proof (to_past _ HT g1 G1 HG1 (or_introl Hp1) g2 G2 Hlt HG2 (eq_sym Hs)). congruence.
Qed.

(** Turn 0 runs, two turns wait behind it. *)
Definition queued_turn : list Ev :=
  (replicate 3 (Launch "s" "m" "" false) ++ replicate 6 (BodyStep 0 Go) ++ replicate 2 (BodyStep 1 Go))%list.
Lemma one_turn_at_a_time_witness :
  ∃ G, gens (after queued_turn empty_gworld) !! 0 = Some G ∧ dispatching G = true ∧ 0 = 0.
Proof.
  eexists. split; [vm_compute; reflexivity|]. split; [reflexivity|].
  eapply (one_turn_at_a_time (after queued_turn empty_gworld));
    [exists queued_turn; apply after_steps; vm_compute; by eexists|vm_compute; reflexivity..].
Defined.

(** ** A session that never runs again *)

(** A turn that ended with its boundary open, and that nothing will ever close. *)
Record dead (p : nat) (P : inFlightGen) : Prop := {
  de_done : g_done P = true;
  de_safe : g_cancelSafe P = false;
  de_boundary : g_safeBoundary P = false;
  de_body : over (g_body P) = true;
  de_worker : g_worker P = WNone;
  de_watcher : g_watcher P = VNone ∨ g_watcher P = VDone;
  de_root : ∀ r, g_unsafeRoot P = Some r → r = p;
}.

(** A turn queued behind it, or behind a turn that is. *)
Section Blocked.
Context (K : nat → Prop) (G : inFlightGen).
Definition claim_behind (c : Claim) : Prop := c_binding c = None ∧ ∃ y, c_predecessor c = Some y ∧ K y.
Definition body_blocked : Prop :=
  match g_body G with
  | GErr | GHistory | GDrop | GReserved | GRun | GRan | GDrain _ | GRequest | GAwait | GComplete => False
  | GMark root => ∀ r, root = Some r → K r
  | GObserve root => g_retainUnsafe G = true ∧ ∀ r, root = Some r → K r
  | GExit | GDereg | GBarrier | GDereg2 => g_retainUnsafe G = true
  | _ => True
  end.
Definition worker_blocked : Prop :=
  match g_worker G with
  | WNone | WNever | WClose | WDone => True
  | WClaimed c | WWait c | WAsk c | WIssued c | WSafe c => claim_behind c
  | WTurn c ps | WDecide c ps _ | WRoot c ps _ => claim_behind c ∧ ps = false
  | WMarkUnsafe c ps _ r | WObserve c ps _ r => claim_behind c ∧ ps = false ∧ K r
  | _ => False
  end.
Definition watcher_blocked : Prop :=
  match g_watcher G with VNone | VDone => True | VInherit r => K r | _ => False end.
Record blocked : Prop := {
  bl_after : ∃ y, g_after G = Some y ∧ g_predecessor G = Some y ∧ K y;
  bl_turn : g_turn G = None;
  bl_safe : g_cancelSafe G = false;
  bl_boundary : g_safeBoundary G = false;
  bl_root : ∀ r, g_unsafeRoot G = Some r → K r;
  bl_body : body_blocked;
  bl_worker : worker_blocked;
  bl_watcher : watcher_blocked;
}.
End Blocked.
Lemma blocked_mono (K K' : nat → Prop) G : (∀ y, K y → K' y) → blocked K G → blocked K' G.
Proof.
  intros HK [(y & ? & ? & ?)]. split; try done; eauto.
  - unfold body_blocked in *. destruct (g_body G); try done; intuition eauto.
  - unfold worker_blocked, claim_behind in *. destruct (g_worker G); try done; naive_solver.
  - unfold watcher_blocked in *. destruct (g_watcher G); auto.
Qed.

Section Blocked_step.
Context (w : GWorld) (K : nat → Prop) (g : nat) (G : inFlightGen).
Hypothesis HK : ∀ y, K y → generationResolvedSafe w (Some y) = false ∧ gen_flag g_safeBoundary w y = false ∧
  ∃ r, generationUnsafeRoot w (Some y) = Some r ∧ K r.
Hypothesis Hself : K g.
Hypothesis HB : blocked K G.

Definition keeps_blocked (e : GEffect) : Prop := blocked K (ef_gen e) ∧ ef_slots e = activeGen w.

Lemma behind_safe c : claim_behind K c → generationResolvedSafe w (c_predecessor c) = false.
Proof using HK. intros (_ & y & -> & Hy). by destruct (HK y Hy). Qed.
Lemma behind_root c : claim_behind K c → K (default g (generationUnsafeRoot w (c_predecessor c))).
Proof using HK. intros (_ & y & -> & Hy). by destruct (HK y Hy) as (_ & _ & r & -> & ?). Qed.
Lemma after_safe : generationResolvedSafe w (g_after G) = false.
Proof using HK HB. destruct (bl_after _ _ HB) as (y & -> & _ & Hy). by destruct (HK y Hy). Qed.
Lemma after_root r : generationUnsafeRoot w (g_after G) = Some r → K r.
Proof using HK HB. destruct (bl_after _ _ HB) as (y & -> & _ & Hy). destruct (HK y Hy) as (_ & _ & r' & -> & ?). by intros [= <-]. Qed.

Lemma blocked_observe root : (∀ r, root = Some r → K r) → blocked K (observe_predecessor w g root G).
Proof using HB.
  intros Hr. unfold observe_predecessor. destruct root as [r|]; [|done]. case_bool_decide; [done|].
  unfold observe, started. destruct HB. destruct (g_watcher G) eqn:E; try done. split; try done. unfold watcher_blocked. cbn.
  destruct (closed w); auto.
Qed.
Lemma blocked_watcher i e : watcher_step w G i = Some e → keeps_blocked e.
Proof using HK HB.
  intros He. unfold watcher_step, only in He. pose proof (bl_watcher _ _ HB) as Hw. unfold watcher_blocked in Hw.
  destruct (g_watcher G) as [|r| | | | | |] eqn:E; try done; destruct i; try done; cbn in He.
  - destruct (HK r Hw) as (_ & Hs & _). by rewrite Hs in He.
  - case_match; simplify_eq. split; [|done]. destruct HB. by split.
Qed.
Lemma blocked_release i e : release_step w g G i = Some e → keeps_blocked e.
Proof using HB.
  intros He. unfold release_step, only, clears_slot in He. rewrite (bl_safe _ _ HB), andb_false_r in He.
  destruct (g_release G); destruct i; try done; cbn in He; (case_match; [|done]); simplify_eq; (split; [|done]); destruct HB; by split.
Qed.
Lemma blocked_worker i e : worker_step w g G i = Some e → keeps_blocked e.
Proof using HK HB Hself.
  intros He. unfold worker_step, boundary_step, only in He. pose proof (bl_worker _ _ HB) as Hw. unfold worker_blocked in Hw.
  assert (∀ x, worker_blocked K (at_worker x G) → blocked K (at_worker x G)) as Hto by (intros x Hx; destruct HB; by split).
  destruct (g_worker G) as [|c| |c|c|c|c|c ps|b c ps|b c ps|b c ps|b c ps|b c ps|b c ps|b c ps|c ps safe| |c ps safe|c ps safe r|c ps safe r| |] eqn:EW;
    try done; destruct i; try discriminate He; cbn in He.
  - injection He as <-. split; [|done]. unfold started. destruct HB. split; try done. unfold worker_blocked. cbn. by destruct (closed w).
  - destruct Hw as (Hb & y & Hp & Hy). rewrite Hp in He. case_match; simplify_eq. split; [|done]. apply Hto. by split; [|eauto].
  - destruct Hw as (Hb & y & Hp & Hy). rewrite Hp in He. simplify_eq. split; [|done]. apply Hto. by split; [split|]; eauto.
  - simplify_eq. split; [|done]. apply Hto. unfold worker_blocked. cbn.
    destruct (c_predecessor c) as [y|]; [destruct (generationCancelAsked w y)|]; done.
  - destruct Hw as (Hb & y & Hp & Hy). rewrite Hp in He. cbn in He. case_match; simplify_eq. split; [|done]. apply Hto. split; eauto.
  - simplify_eq. split; [|done]. by apply Hto.
  - simplify_eq. split; [|done]. apply Hto. split; [done|]. by apply behind_safe.
  - destruct Hw as [Hc ->]. pose proof Hc as [Hb _]. rewrite Hb in He. simplify_eq. split; [|done]. by apply Hto.
  - destruct Hw as [Hc ->]. simplify_eq. split; [|done]. by apply Hto.
  - destruct Hw as [Hc ->]. simplify_eq. split; [|done]. apply Hto. split_and!; [done|done|]. by apply behind_root.
  - destruct Hw as (Hc & -> & Hr). case_match; simplify_eq. split; [|done]. destruct HB. split; try done; [by intros r' [= <-]|]. unfold body_blocked in *. cbn. destruct (g_body G); intuition auto.
  - destruct Hw as (Hc & -> & Hr). pose proof Hc as [Hb _]. rewrite Hb in He. simplify_eq. split; [|done].
    pose proof (blocked_observe (Some r)) as Ho. destruct Ho as []; [by intros ? [= <-]|]. by split.
  - simplify_eq. split; [|done]. destruct HB. by split.
Qed.
Lemma blocked_body i e : body_step w g G i = Some e → keeps_blocked e.
Proof using HK HB Hself.
  intros He. unfold body_step, launch_step, wait_step, retain_step, request_step, deregister_step, mark_completed, only, clears_slot, started in He. pose proof (bl_body _ _ HB) as Hb. unfold body_blocked in Hb.
  pose proof after_safe as Hs. pose proof after_root as Hr. destruct (bl_after _ _ HB) as (y & Ha & _ & _).
  assert (∀ x, body_blocked K (at_body x G) → blocked K (at_body x G)) as Hto by (intros x Hx; destruct HB; by split).
  assert (∀ x, body_blocked K (at_body x G) → keeps_blocked (mkGEffect (at_body x G) None (activeGen w) (routers w) false)) as Hk
    by (intros x Hx; split; [by apply Hto|done]).
  destruct (g_body G) eqn:EB; try done; destruct i; try discriminate He; cbn in He; rewrite ?Hs in He; rewrite ?Ha in He; cbn in He.
  all: try (repeat case_match; simplify_eq; first [by apply Hk | split; [|done]; destruct HB; by split]).
  - injection He as <-. apply Hk. intros r Hr'. apply Hr. by rewrite Ha.
  - case_match; simplify_eq. split; [|done]. destruct HB. split; try done.
    intros r [= <-]. destruct root as [r|]; [by apply Hb|done].
  - destruct Hb as [Hret Hroot]. injection He as <-. split; [|done]. pose proof (blocked_observe root Hroot) as [].
    split; try done. unfold body_blocked. cbn. destruct (observe_predecessor_eq w g G root) as [x ->]. done.
  - rewrite Hb, andb_false_r in He. repeat case_match; simplify_eq; by apply Hk.
  - rewrite Hb, andb_false_r in He. repeat case_match; simplify_eq; by apply Hk.
Qed.
End Blocked_step.

(** The turns behind [p] of the session, from [g] on. *)
Definition behind (w : GWorld) (s : string) (p g y : nat) : Prop :=
  y = p ∨ (g ≤ y ∧ ∃ Y, gens w !! y = Some Y ∧ g_sessionID Y = s).
Definition call_about (p : nat) (x : Canceller) : bool :=
  match x with CLock h | CLoop h _ | CNext h _ | CTarget h => bool_decide (h = p) | _ => false end.
(** Turn [p] is dead, every turn of the session from [g] on is queued behind it, the
    slot is with one of them, and no send or canceller under way is about [p]. *)
Record stuck (w : GWorld) (s : string) (p g : nat) : Prop := {
  st_lt : p < g;
  st_dead : ∃ P, gens w !! p = Some P ∧ g_sessionID P = s ∧ dead p P;
  st_blocked : ∀ x X, g ≤ x → gens w !! x = Some X → g_sessionID X = s → blocked (behind w s p g) X;
  st_slot : ∃ x, activeGen w !! s = Some x ∧ g ≤ x;
  st_turns : ∀ b B X, turns w !! b = Some B → gens w !! b_gen B = Some X → g_sessionID X = s → b_gen B < g ∧ b_gen B ≠ p;
  st_calls : ∀ c x, cancellers w !! c = Some x → call_about p x = false;
}.

Section Stuck.
Context (w : GWorld) (s : string) (p g : nat).
Hypothesis HS : stuck w s p g.

Lemma behind_env y : behind w s p g y → generationResolvedSafe w (Some y) = false ∧ gen_flag g_safeBoundary w y = false ∧
  ∃ r, generationUnsafeRoot w (Some y) = Some r ∧ behind w s p g r.
Proof using HS.
  unfold generationResolvedSafe, generationUnsafeRoot, gen_flag. intros [->|(Hy & Y & HY & HYs)].
  - destruct (st_dead _ _ _ _ HS) as (P & -> & _ & []). rewrite de_safe0, de_boundary0. split_and!; try done.
    exists (default p (g_unsafeRoot P)). destruct (g_unsafeRoot P) as [r|] eqn:E; [|by split; [|left]].
    split; [done|]. left. by apply de_root0.
  - rewrite HY. destruct (st_blocked _ _ _ _ HS y Y Hy HY HYs). rewrite bl_safe0, bl_boundary0. split_and!; try done.
    destruct (g_unsafeRoot Y) as [r|] eqn:E; [eauto|]. exists y. split; [done|]. right. eauto.
Qed.
Lemma stuck_behind x X : g ≤ x → gens w !! x = Some X → g_sessionID X = s → behind w s p g x.
Proof. intros. right. eauto. Qed.

(** How a step of one generation touches what is shared. *)
Record frame (x : nat) (X : inFlightGen) (e : GEffect) : Prop := {
  fr_session : g_sessionID (ef_gen e) = g_sessionID X;
  fr_slots : ef_slots e = activeGen w ∨
    (ef_slots e = delete (g_sessionID X) (activeGen w) ∧ activeGen w !! g_sessionID X = Some x);
  fr_turn : ∀ b B', ef_turn e = Some (b, B') → ∃ B, turns w !! b = Some B ∧ b_gen B' = b_gen B;
  fr_dead : x = p → g_sessionID X = s → dead p X → dead p (ef_gen e);
  fr_blocked : g ≤ x → g_sessionID X = s → blocked (behind w s p g) X → blocked (behind w s p g) (ef_gen e) ∧ ef_slots e = activeGen w;
}.
Lemma stuck_perform x X e : gens w !! x = Some X → frame x X e → stuck (perform x e w) s p g.
Proof using HS.
  intros HX [Hs Hsl Ht Hd Hb]. set (w' := perform x e w).
  assert (∀ y Y, gens w' !! y = Some Y → (y = x ∧ Y = ef_gen e) ∨ (y ≠ x ∧ gens w !! y = Some Y)) as Hback.
  { intros y Y HY. cbn in HY. destruct (decide (y = x)) as [->|Hne].
    - rewrite list_lookup_insert_eq in HY by (by eapply lookup_lt_Some). injection HY as [= <-]. by left.
    - rewrite list_lookup_insert_ne in HY by done. by right. }
  assert (gens w' !! x = Some (ef_gen e)) as Hself by (apply list_lookup_insert_eq; by eapply lookup_lt_Some).
  assert (∀ y Y, y ≠ x → gens w !! y = Some Y → gens w' !! y = Some Y) as Hother by (intros; cbn; by rewrite list_lookup_insert_ne).
  assert (∀ y, behind w s p g y → behind w' s p g y) as Hbe.
  { intros y [->|(Hy & Y & HY & HYs)]; [by left|right]. split; [done|]. destruct (decide (y = x)) as [->|]; [|eauto].
    exists (ef_gen e). split; [done|congruence]. }
  destruct HS as [Hlt (P & HP & HPs & HPd) Hbl (a & Ha & Hga) Htu Hca]. split; try done.
  - destruct (decide (p = x)) as [->|Hne].
    + rewrite HX in HP. injection HP as [= <-]. exists (ef_gen e). split_and!; [done|congruence|by apply Hd].
    + exists P. split_and!; auto.
  - intros y Y Hy HY HYs. apply (blocked_mono (behind w s p g)); [done|]. destruct (Hback y Y HY) as [[-> ->]|[_ HY0]].
    + apply Hb; [done|congruence|]. apply (Hbl x X); [done|done|congruence].
    + by apply (Hbl y Y).
  - exists a. split; [|done]. cbn. destruct Hsl as [->|[Hdel Hheld]]; [done|]. destruct (decide (g_sessionID X = s)) as [Hxs|Hxs].
    + rewrite Hxs, Ha in Hheld. injection Hheld as ->. destruct (Hb Hga Hxs (Hbl x X Hga HX Hxs)) as [_ ->]. done.
    + rewrite Hdel. by rewrite lookup_delete_ne.
  - intros b B Y HB HY HYs.
    assert (∃ B0, turns w !! b = Some B0 ∧ b_gen B = b_gen B0) as (B0 & HB0 & Hg0).
    { cbn in HB. destruct (ef_turn e) as [[b' B']|]; [|eauto]. destruct (Ht b' B' eq_refl) as (B0 & HB0 & ?).
      destruct (decide (b = b')) as [->|Hne].
      - rewrite list_lookup_insert_eq in HB by (by eapply lookup_lt_Some). injection HB as [= <-]. eauto.
      - rewrite list_lookup_insert_ne in HB by done. eauto. }
    rewrite Hg0 in HY |- *. destruct (Hback _ Y HY) as [[Heq ->]|[_ HY0]].
    + apply (Htu b B0 X); [done|by rewrite Heq|congruence].
    + by apply (Htu b B0 Y).
Qed.
Lemma stuck_same w' : gens w' = gens w → turns w' = turns w → activeGen w' = activeGen w →
  (∀ c x, cancellers w' !! c = Some x → call_about p x = false) → stuck w' s p g.
Proof using HS.
  intros H1 H2 H3 H4. destruct HS. unfold behind in *. split; unfold behind; rewrite ?H1, ?H2, ?H3; auto.
Qed.
End Stuck.

Section Stuck_steps.
Context (w : GWorld) (s : string) (p g : nat).
Hypothesis HW : gworld_ok w.
Hypothesis HS : stuck w s p g.

Lemma own_dead X : gens w !! p = Some X → dead p X.
Proof using HS. intros HX. destruct (st_dead _ _ _ _ HS) as (P & HP & _ & ?). congruence. Qed.
Lemma frame_of x X e : gens w !! x = Some X → g_sessionID (ef_gen e) = g_sessionID X →
  (ef_slots e = activeGen w ∨ (ef_slots e = delete (g_sessionID X) (activeGen w) ∧ activeGen w !! g_sessionID X = Some x)) →
  binding_side w x X (ef_turn e) → (x = p → dead p X → dead p (ef_gen e)) →
  (g ≤ x → g_sessionID X = s → blocked (behind w s p g) X → keeps_blocked w (behind w s p g) e) → stuck (perform x e w) s p g.
Proof using HS.
  intros HX Hs Hsl Ht Hd Hb. apply (stuck_perform w s p g HS x X); [done|]. split; auto.
  intros b B' E. rewrite E in Ht. destruct Ht as (B & ? & ? & _). eauto.
Qed.
Lemma moves_slots x X e : moves_on w x X e → ef_slots e = activeGen w ∨
  (ef_slots e = delete (g_sessionID X) (activeGen w) ∧ activeGen w !! g_sessionID X = Some x).
Proof. intros Hm. destruct (mo_slots _ _ _ _ Hm) as [?|(? & ? & _)]; auto. Qed.

Lemma stuck_body x X i e : gens w !! x = Some X → body_step w x X i = Some e → stuck (perform x e w) s p g.
Proof using HW HS.
  intros HX He. assert (moves_on w x X e) as Hm.
  { apply (body_moves w x X i); [|done]. apply (gi_reserved _ _ _ _ _ (go_gen _ HW x X HX)). }
  apply (frame_of x X e HX); [apply Hm|by apply moves_slots|by apply (body_side w _ _ x X (go_gen _ HW x X HX) i)| |].
  - intros -> [? ? ? Hov ? ? ?]. unfold body_step, launch_step, wait_step, retain_step, request_step, deregister_step, mark_completed, only, clears_slot in He.
    destruct (g_body X) eqn:EB; try discriminate Hov; destruct i; try discriminate He; cbn in He.
    all: repeat case_match; simplify_eq; by split.
  - intros Hx Hs Hb. apply (blocked_body w _ x X) with i; [by apply behind_env|by eapply stuck_behind|done|done].
Qed.
Lemma stuck_worker x X i e : gens w !! x = Some X → worker_step w x X i = Some e → stuck (perform x e w) s p g.
Proof using HW HS.
  intros HX He. assert (moves_on w x X e) as Hm by by eapply worker_moves.
  apply (frame_of x X e HX); [apply Hm|by apply moves_slots|by apply (worker_side w (below w (g_sessionID X) x) x X i)| |].
  - intros -> Hd. unfold worker_step, boundary_step in He. by rewrite (de_worker _ _ Hd) in He.
  - intros Hx Hs Hb. apply (blocked_worker w _ x X) with i; [by apply behind_env|by eapply stuck_behind|done|done].
Qed.
Lemma stuck_watcher x X i e : gens w !! x = Some X → watcher_step w X i = Some e → stuck (perform x e w) s p g.
Proof using HW HS.
  intros HX He. assert (moves_on w x X e) as Hm by by eapply watcher_moves.
  apply (frame_of x X e HX); [apply Hm|by apply moves_slots|by apply (watcher_side w (below w (g_sessionID X) x) x X i)| |].
  - intros -> Hd. unfold watcher_step in He. by destruct (de_watcher _ _ Hd) as [E|E]; rewrite E in He.
  - intros Hx Hs Hb. apply (blocked_watcher w _ X) with i; [by apply behind_env|done|done].
Qed.
Lemma stuck_release x X i e : gens w !! x = Some X → release_step w x X i = Some e → stuck (perform x e w) s p g.
Proof using HW HS.
  intros HX He. pose proof (release_side w _ _ x X (go_gen _ HW x X HX) i e He) as [Hb Hr].
  assert (g_sessionID (ef_gen e) = g_sessionID X ∧ (dead p X → dead p (ef_gen e))) as [H1 H2].
  { unfold release_step, only, clears_slot in He. destruct (g_release X); destruct i; try discriminate He; cbn in He;
      (case_match; [|discriminate]); injection He as <-; (split; [done|]); intros []; by split. }
  apply (frame_of x X e HX); [done| |done|by intros ->|].
  - destruct Hr as [?|(? & ? & _)]; auto.
  - intros Hx Hs Hbl. by apply (blocked_release w _ x X) with i.
Qed.
(** The dead turn and the turns behind it have no runtime turn. *)
Lemma elsewhere b B X : turns w !! b = Some B → gens w !! b_gen B = Some X → g_sessionID X = s → b_gen B < g ∧ b_gen B ≠ p.
Proof using HS. by apply (st_turns _ _ _ _ HS). Qed.
Lemma stuck_send b B X i e : turns w !! b = Some B → gens w !! b_gen B = Some X →
  send_step w (b_gen B) X i b B = Some e → stuck (perform (b_gen B) e w) s p g.
Proof using HW HS.
  intros HB HX He. assert (moves_on w (b_gen B) X e) as Hm by by eapply send_moves.
  destruct (go_send _ HW b B HB) as (Hok & X' & HX' & Hbusy). rewrite HX in HX'. injection HX' as [= <-].
  apply (frame_of _ X e HX); [apply Hm|by apply moves_slots|by apply (send_side w (below w (g_sessionID X) (b_gen B)) (b_gen B) X i b B)| |].
  - intros Hp _. destruct (st_dead _ _ _ _ HS) as (P & HP & HPs & _). destruct (elsewhere b B X HB HX); [congruence|done].
  - intros Hx Hs. destruct (elsewhere b B X HB HX Hs). lia.
Qed.
Lemma stuck_touch b B B' X slots routers' : turns w !! b = Some B → gens w !! b_gen B = Some X → b_gen B' = b_gen B →
  slots = activeGen w → stuck (perform (b_gen B) (mkGEffect X (Some (b, B')) slots routers' false) w) s p g.
Proof using HW HS.
  intros HB HX Hg ->. apply (stuck_perform w s p g HS _ X); [done|]. split; auto; try done.
  intros ? ? [= <- <-]. eauto.
Qed.
Lemma stuck_cancelled x X routers' : gens w !! x = Some X →
  stuck (perform x (mkGEffect (ctx_cancel X) None (activeGen w) routers' false) w) s p g.
Proof using HS.
  intros HX. apply (frame_of x X _ HX); auto; [done|by intros _ []|]. intros _ _ []. split; [|done]. by split.
Qed.
Lemma stuck_claim y : y ≠ p → stuck (do_claim y w) s p g.
Proof using HW HS.
  intros Hy. unfold do_claim. destruct (gens w !! y) as [G|] eqn:HG; [|done]. destruct (claim w G) as [G' t] eqn:EC.
  pose proof (claim_same _ _ _ _ EC) as Hsame.
  apply (frame_of y G _ HG); cbn; [by destruct Hsame as [[= _ _ ? _] _]|by left| |done|].
  - by apply (claim_side w (below w (g_sessionID G) y) y G G' t false ∅).
  - intros Hgy Hs Hb. split; [|done]. cbn. unfold claim in EC. pose proof (bl_turn _ _ Hb) as Hturn.
    destruct (g_cancelOnce G); injection EC as <- <-; [done|]. destruct Hb. split; try done.
    unfold worker_blocked, claim_behind. cbn. destruct bl_after0 as (z & _ & -> & ?). eauto.
Qed.
End Stuck_steps.

Lemma stuck_register w s p g t msg cognitive body : gworld_ok w → stuck w s p g → (∃ user, body = GRegistered user) ∨ t ≠ s →
  stuck (register t (newInFlightGen t msg cognitive (activeGen w !! t) body) w) s p g.
Proof.
  intros HW HS Hb. set (w' := register _ _ _).
  assert (∀ y Y, gens w !! y = Some Y → gens w' !! y = Some Y) as Hold by (intros y Y HY; by apply lookup_app_l_Some).
  assert (∀ y, behind w s p g y → behind w' s p g y) as Hbe by (intros y [->|(? & Y & ? & ?)]; [by left|right; eauto]).
  destruct HS as [Hlt (P & HP & HPs & HPd) Hbl (a & Ha & Hga) Htu Hca].
  destruct (go_slot _ HW s a Ha) as (A & HA & HAs & _). pose proof (lookup_lt_Some _ _ _ HA) as Hal.
  split; try done.
  - exists P. split; [by apply Hold|done].
  - intros x X Hx HX HXs. destruct (register_lookup w t msg cognitive body x X HX) as [[-> ->]|[_ HX0]].
    + cbn in HXs. subst t. destruct Hb as [[user ->]|?]; [|done]. split; try done. cbn. exists a. split; [done|]. split; [done|].
      right. split; [done|]. exists A. split; [by apply Hold|done].
    + apply (blocked_mono (behind w s p g)); [done|]. by apply (Hbl x X).
  - cbn. destruct (decide (t = s)) as [->|Hne]; [exists (length (gens w))|exists a]; (split; [|lia || done]).
    + apply lookup_insert_eq.
    + by rewrite lookup_insert_ne.
  - intros b B X HB HX HXs. destruct (go_send _ HW b B HB) as (_ & Y & HY & _).
    pose proof (Hold _ _ HY) as HY'. rewrite HX in HY'. injection HY' as [= <-]. by apply (Htu b B X).
Qed.
Lemma stuck_admit w s p g x X session ctx_err sink : gworld_ok w → stuck w s p g → gens w !! x = Some X → g_body X = GRun →
  stuck (admitRuntimeTurn w x X session ctx_err sink) s p g.
Proof.
  intros HW HS HX Hrun. unfold admitRuntimeTurn. repeat (case_match; [done|]).
  set (b0 := length (turns w)). set (w' := mkGWorld _ _ _ _ _ _ _ _ _ _).
  assert (x ≠ p) as Hxp.
  { intros ->. pose proof (own_dead w s p g HS X HX) as Hd. pose proof (de_body _ _ Hd) as Ho. by rewrite Hrun in Ho. }
  assert (g_sessionID X = s → x < g) as Hxg.
  { intros Hs. destruct (decide (g ≤ x)) as [Hge|]; [|lia]. pose proof (bl_body _ _ (st_blocked _ _ _ _ HS x X Hge HX Hs)) as Hb.
    unfold body_blocked in Hb. by rewrite Hrun in Hb. }
  assert (stuck (perform x (mkGEffect (with_turn (Some b0) X) None (activeGen w) (routers w) false) w) s p g) as HS'.
  { apply (stuck_perform w s p g HS x X); [done|]. split; auto; try done. cbn. intros Hge Hs. specialize (Hxg Hs). lia. }
  destruct HS' as [? ? ? ? Htu ?]. split; try done.
  intros b B Y HB HY HYs. apply lookup_app_Some in HB as [HB|[_ HB]]; [by apply (Htu b B Y)|].
  apply list_lookup_singleton_Some in HB as [_ <-]. cbn in HY |- *.
  rewrite list_lookup_insert_eq in HY by (by eapply lookup_lt_Some). injection HY as [= <-]. by split; [apply Hxg|].
Qed.

Lemma slot_alive w s p g t y : gworld_ok w → stuck w s p g → activeGen w !! t = Some y → y ≠ p.
Proof.
  intros HW HS Hty ->. destruct (go_slot _ HW t p Hty) as (P & HP & HPs & _). destruct (st_dead _ _ _ _ HS) as (P' & HP' & HPs' & _).
  destruct (st_slot _ _ _ _ HS) as (a & Ha & Hga). pose proof (st_lt _ _ _ _ HS).
  assert (t = s) by congruence. subst t. assert (a = p) by congruence. lia.
Qed.
(** A call can only start at the newest turn of a session, or at one that has not ended. *)
Lemma stuck_calls w s p g c x w' : gworld_ok w → stuck w s p g → cancellers w !! c = Some x → cancel_step c x w = Some w' → stuck w' s p g.
Proof.
  intros HW HS Hc Hstep. pose proof (st_calls _ _ _ _ HS c x Hc) as Hx.
  assert (∀ w1 y, stuck w1 s p g → cancellers w1 = cancellers w → call_about p y = false → stuck (set_canceller c y w1) s p g) as Hset.
  { intros w1 y H1 Hc1 Hy. apply (stuck_same w1 s p g H1); try done. intros c' z Hz. cbn in Hz.
    destruct (decide (c' = c)) as [->|Hne].
    - rewrite Hc1, list_lookup_insert_eq in Hz by (by eapply lookup_lt_Some). by injection Hz as [= <-].
    - rewrite list_lookup_insert_ne in Hz by done. by apply (st_calls _ _ _ _ H1 c' z). }
  assert (∀ w1 l, stuck w1 s p g → stuck (set_lock l w1) s p g) as Hlock
    by (intros w1 l H1; apply (stuck_same w1 s p g H1); try done; apply (st_calls _ _ _ _ H1)).
  assert (∀ y, cancellers (do_claim y w) = cancellers w) as Hdc by (intros y; unfold do_claim; destruct (gens w !! y); [|done]; by destruct (claim w _)).
  assert (∀ y, y ≠ p → stuck (do_claim y w) s p g) as Hclaim by (intros y Hy; by apply stuck_claim).
  pose proof (λ t y, slot_alive w s p g t y HW HS) as Hslot.
  assert (generationDone w p = true) as Hdone.
  { destruct (st_dead _ _ _ _ HS) as (P & HP & _ & Hd). unfold generationDone, gen_flag. rewrite HP. apply Hd. }
  unfold cancel_step, chain_step, find_step, call_to, call_ends in Hstep. destruct x as [t|h|h [y|]|h y|t msg|msg [y|]|y|]; cbn in Hx.
  - case_match; simplify_eq. apply Hset; [done|done|]. destruct (activeGen w !! t) eqn:E; [|done]. apply bool_decide_eq_false. by eapply Hslot.
  - case_match; simplify_eq. by apply Hlock, Hset.
  - apply bool_decide_eq_false in Hx. destruct (decide (y = p)) as [->|Hyp].
    + rewrite Hdone, bool_decide_eq_false_2 in Hstep by congruence. cbn in Hstep. simplify_eq. by apply Hlock, Hset.
    + case_match; simplify_eq; [by apply Hlock, Hset|]. apply Hset; auto. by apply bool_decide_eq_false.
  - simplify_eq. by apply Hlock, Hset.
  - simplify_eq. by apply Hset.
  - case_match; simplify_eq. by apply Hlock, Hset.
  - case_match eqn:E; simplify_eq; apply Hset; try done. apply bool_decide_eq_false. intros ->. by rewrite Hdone, andb_false_r in E.
  - simplify_eq. by apply Hlock, Hset.
  - simplify_eq. apply bool_decide_eq_false in Hx. apply Hlock, Hset; auto.
  - done.
Qed.

Lemma stuck_step w e w' s p g : gworld_ok w → stuck w s p g → step w e w' → stuck w' s p g.
Proof.
  intros HW HS Hstep. unfold step, apply in Hstep.
  assert (gens w' = gens w → turns w' = turns w → activeGen w' = activeGen w → cancellers w' = cancellers w → stuck w' s p g) as Hsame
    by (intros; apply (stuck_same w s p g HS); try done; intros c x Hc; apply (st_calls _ _ _ _ HS c); congruence).
  assert (∀ l, Forall (λ x, call_about p x = false) l → stuck (add_cancellers l w) s p g) as Hadd.
  { intros l Hl. apply (stuck_same w s p g HS); try done. intros c x Hc. cbn in Hc. apply lookup_app_Some in Hc as [Hc|[_ Hc]].
    - by apply (st_calls _ _ _ _ HS c). - by apply (Forall_lookup_1 _ _ _ _ Hl Hc). }
  pose proof (λ t y, slot_alive w s p g t y HW HS) as Hslot.
  destruct e as [t msg user cognitive|t msg|x i|x|x i|x i|x i|b i|x n ctx_err sink|b|b|b|n|t|t msg| |c| |].
  - case_match; simplify_eq. apply stuck_register; eauto.
  - case_match; [|done]. destruct (activeGen w !! t) eqn:E; simplify_eq; [done|].
    pose proof (stuck_register w s p g t msg false GReserved HW HS) as Hr. rewrite E in Hr. apply Hr. right.
    intros ->. destruct (st_slot _ _ _ _ HS) as (a & Ha & _). congruence.
  - destruct (gens w !! x) as [X|] eqn:HX; [|done]. cbn in Hstep. destruct (body_step w x X i) eqn:He; simplify_eq/=. by eapply stuck_body.
  - destruct (gens w !! x) as [X|] eqn:HX; [|done]. cbn in Hstep. case_match; simplify_eq. by apply stuck_cancelled.
  - destruct (gens w !! x) as [X|] eqn:HX; [|done]. cbn in Hstep. destruct (worker_step w x X i) eqn:He; simplify_eq/=. by eapply stuck_worker.
  - destruct (gens w !! x) as [X|] eqn:HX; [|done]. cbn in Hstep. destruct (watcher_step w X i) eqn:He; simplify_eq/=. by eapply stuck_watcher.
  - destruct (gens w !! x) as [X|] eqn:HX; [|done]. cbn in Hstep. destruct (release_step w x X i) eqn:He; simplify_eq/=. by eapply stuck_release.
  - destruct (turns w !! b) as [B|] eqn:HB; [|done]. cbn in Hstep. destruct (gens w !! b_gen B) as [X|] eqn:HX; [|done]. cbn in Hstep.
    destruct (send_step w (b_gen B) X i b B) eqn:He; simplify_eq/=. by eapply stuck_send.
  - destruct (gens w !! x) as [X|] eqn:HX; [|done]. cbn in Hstep. destruct (g_body X) eqn:Eb; try discriminate Hstep. injection Hstep as <-.
    by apply stuck_admit.
  - destruct (turns w !! b) as [B|] eqn:HB; [|done]. cbn in Hstep. destruct (gens w !! b_gen B) as [X|] eqn:HX; [|done]. cbn in Hstep.
    case_match; simplify_eq/=. by eapply stuck_touch.
  - destruct (turns w !! b) as [B|] eqn:HB; simplify_eq/=. destruct (go_send _ HW b B HB) as (_ & X & HX & _).
    apply (stuck_same (perform (b_gen B) (mkGEffect X (Some (b, ctx_done B)) (activeGen w) (routers w) false) w)); try done.
    + by eapply stuck_touch.
    + cbn. by rewrite list_insert_id.
    + apply (st_calls _ _ _ _ HS).
  - destruct (turns w !! b) as [B|] eqn:HB; [|done]. cbn in Hstep. destruct (gens w !! b_gen B) as [X|] eqn:HX; [|done]. cbn in Hstep.
    case_match; simplify_eq.
    apply (stuck_same (perform (b_gen B) (mkGEffect X (Some (b, router_closed B)) (activeGen w) (routers w) false) w)); try done.
    + by eapply stuck_touch.
    + cbn. by rewrite list_insert_id.
    + apply (st_calls _ _ _ _ HS).
  - simplify_eq. by apply Hsame.
  - simplify_eq. apply Hadd. by constructor.
  - simplify_eq. apply Hadd. by constructor.
  - case_match; simplify_eq. apply Hadd. apply Forall_map, Forall_forall. intros [t y] Hty%elem_of_map_to_list. cbn.
    apply bool_decide_eq_false. by eapply Hslot.
  - destruct (cancellers w !! c) as [x|] eqn:Ex; [|done]. cbn in Hstep. by eapply stuck_calls.
  - simplify_eq. by apply Hsame.
  - case_match; simplify_eq. by apply Hsame.
Qed.

(** C7. A stuck session stays stuck.  A state is [stuck] when a turn of the session has
    ended with its boundary open and nothing is left that would close it (no cancellation
    has claimed it, its watcher never started or is done, it has no unsafe root but
    itself, and no canceller under way is about to claim it), while the slot holds a later
    turn and every later turn of the session is queued behind it.  From such a state, as
    long as the service runs, no turn queued behind it, and none launched later, ever
    passes the wait for its predecessor, and the registry reports the session busy for
    ever; no later cancellation, timeout or answer of the runtime changes that.  A turn
    that a cancellation has claimed is not covered: its worker may still close the
    boundary. *)
Theorem open_boundary_ends_session w s p g evs w' :
  oreachable w → stuck w s p g → steps ostep w evs w' →
  IsGenerating w' s = true ∧
  ∀ x X, g ≤ x → gens w' !! x = Some X → g_sessionID X = s →
    dispatching X = false ∧ g_cancelSafe X = false ∧ g_turn X = None.
Proof.
  intros HR HS Hsteps. assert (gworld_ok w' ∧ stuck w' s p g) as [_ HS'].
  { apply (steps_invariant ostep (λ w, gworld_ok w ∧ stuck w s p g) w evs w'); [|done|split; [by apply oreachable_ok|done]].
    intros a l b Hl [HWa HSa]. split; [by eapply ostep_ok|]. by eapply stuck_step; [..|apply Hl]. }
  split; [apply bool_decide_eq_true; destruct (st_slot _ _ _ _ HS') as (a & -> & _); by eexists|].
  intros x X Hx HX HXs. destruct (st_blocked _ _ _ _ HS' x X Hx HX HXs) as [_ Ht Hs _ _ Hb _ _]. split_and!; try done.
  unfold body_blocked in Hb. unfold dispatching. by destruct (g_body X).
Qed.

(** Turn 1 waits while turn 0 runs; turn 0 ends without an assistant row, so the history of
    turn 1 is refused, and turn 2 waits behind it. *)
Definition no_row (id : string) : MsgRead :=
  if String.eqb id "u0" then Row (mkMessage "u0" "s" "user" false) else NoRows.
Definition lost_history : list Ev :=
  (let go g n := replicate n (BodyStep g Go) in
  [Launch "s" "m0" "u0" true] ++ go 0 4 ++ [BodyStep 0 (Reads no_row)] ++ go 0 1 ++
  [Launch "s" "m1" "u1" true] ++ go 1 4 ++ [Launch "s" "m2" "u2" true] ++ go 2 5 ++
  go 0 6 ++ go 1 4 ++ [BodyStep 1 (Reads no_row)] ++ go 1 2)%list.
(** Turn 0 is cancelled and its runtime does not stop in time, so turn 1 is refused; the
    boundary of turn 0 closes between the two reads of [retainUnsafePredecessor]. *)
Definition lost_root : list Ev :=
  (let go g n := replicate n (BodyStep g Go) in
  [Launch "s" "m0" "" false] ++ go 0 5 ++ [AdmitTurn 0 7 false true; SendStep 0 Go; CancelActiveGeneration "s"] ++
  replicate 5 (CancelStep 0) ++ replicate 3 (WorkerStep 0 Go) ++ [WorkerStep 0 Expired; WorkerStep 0 (Reply false)] ++
  replicate 5 (WorkerStep 0 Go) ++ [Launch "s" "m1" "" false] ++ go 0 2 ++ [BodyStep 0 Expired] ++ go 0 3 ++
  go 1 8 ++ [SendStep 0 (Reply true); SendStep 0 Go; WatcherStep 0 Go; TurnTerminal 0; WatcherStep 0 Go; WatcherStep 0 Go; WatcherStep 0 Go] ++
  go 1 5 ++ [Launch "s" "m2" "" false])%list.
Lemma lost_history_stuck : stuck (after lost_history empty_gworld) "s" 1 2.
Proof.
  remember (after lost_history empty_gworld) as w eqn:E. vm_compute in E. subst w. split; cbn [gens turns cancellers].
  - lia.
  - eexists. split; [reflexivity|]. split; [reflexivity|]. split; try reflexivity; [by left|done].
  - intros [|[|[|x]]] X Hx HX HXs; [lia|lia| |done]. injection HX as <-. split; try done. exists 1. split_and!; try done. by left.
  - exists 2. split; [reflexivity|lia].
  - done.
  - done.
Qed.
Lemma lost_root_stuck : stuck (after lost_root empty_gworld) "s" 1 2.
Proof.
  remember (after lost_root empty_gworld) as w eqn:E. vm_compute in E. subst w. split; cbn [gens turns cancellers].
  - lia.
  - eexists. split; [reflexivity|]. split; [reflexivity|]. split; try reflexivity; [by left|by intros r [= <-]].
  - intros [|[|[|x]]] X Hx HX HXs; [lia|lia| |done]. injection HX as <-. split; try done. exists 1. split_and!; try done. by left.
  - exists 2. split; [reflexivity|lia].
  - intros [|b] B X HB HX HXs; [|done]. injection HB as <-. cbn. lia.
  - intros [|c] x Hc; [|done]. by injection Hc as <-.
Qed.

(** The user stops the session and sends another message: the new turn does not run. *)
Definition stop_and_retry : list Ev :=
  ([CancelActiveGeneration "s"] ++ replicate 5 (CancelStep 0) ++ replicate 10 (WorkerStep 2 Go) ++ [Launch "s" "m3" "" false] ++
   replicate 5 (BodyStep 2 Go) ++ replicate 2 (BodyStep 3 Go))%list.
Lemma open_boundary_ends_session_witness :
  ∃ X, gens (after stop_and_retry (after lost_history empty_gworld)) !! 3 = Some X ∧ dispatching X = false.
Proof.
  eexists. split; [vm_compute; reflexivity|].
  eapply (open_boundary_ends_session (after lost_history empty_gworld) "s" 1 2 stop_and_retry
    (after stop_and_retry (after lost_history empty_gworld))).
  - exists lost_history. apply after_steps. vm_compute. by eexists.
  - apply lost_history_stuck.
  - apply after_steps. vm_compute. by eexists.
  - instantiate (1 := 3). lia.
  - vm_compute. reflexivity.
  - reflexivity.
Defined.

(** ** Every cancellation ends *)

(** Steps a worker has left, at most. *)
Definition worker_rank (x : Worker) : nat :=
  match x with
  | WNone | WNever | WDone => 0 | WClose => 1 | WMarkSafe | WObserve _ _ _ _ => 2 | WMarkUnsafe _ _ _ _ => 3 | WRoot _ _ _ => 4
  | WDecide _ _ _ => 5 | WStopped _ _ _ | WDrain _ _ _ => 6 | WStop _ _ _ | WAbandon _ _ _ => 7 | WCancel _ _ _ => 8 | WErr _ _ _ => 9
  | WSend _ _ _ => 10 | WTurn _ _ => 11 | WSafe _ => 12 | WIssued _ => 13 | WAsk _ => 14 | WWait _ => 15 | WClaimed _ => 16
  end.
Definition worker_runs (x : Worker) : bool := match x with WNone | WNever | WDone => false | _ => true end.

Lemma worker_of_observe w v G : g_worker (observe w v G) = g_worker G.
Proof. by destruct (observe_eq w G v) as [x ->]. Qed.
Lemma worker_ranks w g G i e : worker_step w g G i = Some e → worker_rank (g_worker (ef_gen e)) < worker_rank (g_worker G).
Proof.
  intros He. unfold worker_step, boundary_step, only, and_turn, finish_router, started in He.
  destruct (g_worker G); destruct i as [| |[]|]; try discriminate He; cbn in He.
  all: try (destruct (turns w !! b) as [B|]; cbn in He; [|discriminate He]).
  all: try (injection He as <-; cbn; lia).
  all: repeat case_match; simplify_eq; cbn; try lia.
  all: try match goal with H : ?x ≫= _ = Some _ |- _ => destruct x; simplify_eq/= end.
  all: repeat case_match; simplify_eq; cbn; lia.
Qed.

(** Whatever the others do, a worker that runs has a step: its waits are bounded. *)
Lemma worker_can w g G : gworld_ok w → gens w !! g = Some G → worker_runs (g_worker G) = true → unlocked w = true →
  ∃ i e, worker_step w g G i = Some e ∧ (g_worker G = WClose → g_cancelIssued (ef_gen e) = true).
Proof.
  intros HW HG Hr Hu. pose proof (gi_worker _ _ _ _ _ (go_gen _ HW g G HG)) as Hk. unfold worker_ok in Hk.
  assert (∀ c b, claim_ok (turns w) (below w (g_sessionID G) g) G c → c_binding c = Some b → ∃ B, turns w !! b = Some B) as Hb.
  { intros c b (_ & Hc & _) Hb. destruct (go_turn _ HW g G b HG) as (B & ? & _); [congruence|eauto]. }
  unfold worker_step, boundary_step, only, and_turn, finish_router.
  destruct (g_worker G) as [|c| |c|c|c|c|c ps|b c ps|b c ps|b c ps|b c ps|b c ps|b c ps|b c ps|c ps safe| |c ps safe|c ps safe r|c ps safe r| |] eqn:EW;
    try discriminate Hr; rewrite ?Hu.
  all: try (exists Go; eexists; split; [reflexivity|done]).
  - destruct (c_predecessor c) eqn:E; [exists Expired|exists Go]; rewrite ?E; by eexists.
  - exists Expired. by eexists.
  - exists Go. destruct Hk as [Hc _]. destruct (c_binding c) as [b|] eqn:Eb; [|by eexists].
    destruct (Hb c b Hc Eb) as [B HB]. rewrite HB. by eexists.
  - exists Go. destruct Hk as (Hc & _ & Ec & _). destruct (Hb c b Hc Ec) as [B HB]. rewrite HB. by eexists.
  - exists (Reply false). by eexists.
  - exists Expired. by eexists.
  - exists (Reply false). by eexists.
  - exists (Reply false). by destruct (owner_done w); eexists.
  - exists Go. destruct Hk as (Hc & _ & Ec & _). destruct (Hb c b Hc Ec) as [B HB]. rewrite HB. by eexists.
Qed.
Lemma worker_goes_on w g G i e : closed w = false → worker_step w g G i = Some e →
  worker_runs (g_worker (ef_gen e)) = true ∨ (g_worker (ef_gen e) = WDone ∧ g_worker G = WClose).
Proof.
  intros Hc He. unfold worker_step, boundary_step, only, and_turn, finish_router, started in He. rewrite Hc in He.
  destruct (g_worker G); destruct i as [| |[]|]; try discriminate He; cbn in He.
  all: try (injection He as <-; auto; fail).
  all: try match goal with H : ?x ≫= _ = Some _ |- _ => destruct x; simplify_eq/= end.
  all: repeat case_match; simplify_eq; auto.
  all: try match goal with H : ?x ≫= _ = Some _ |- _ => destruct x; simplify_eq/= end.
  all: repeat case_match; simplify_eq; auto.
Qed.

Lemma worker_ends_within n w g G : gworld_ok w → gens w !! g = Some G → worker_runs (g_worker G) = true → worker_rank (g_worker G) ≤ n →
  closed w = false → activeGenMu w = None →
  ∃ ins w' G', length ins ≤ n ∧ steps ostep w (WorkerStep g <$> ins) w' ∧ gens w' !! g = Some G' ∧
    g_worker G' = WDone ∧ g_cancelIssued G' = true.
Proof.
  revert w G. induction n as [|n IH]; intros w G HW HG Hr Hn Hc Hu; [destruct (g_worker G); cbn in *; done || lia|].
  assert (unlocked w = true) as Hul by (unfold unlocked; by rewrite Hu).
  destruct (worker_can w g G HW HG Hr Hul) as (i & e & He & Hi). set (w1 := perform g e w).
  assert (ostep w (WorkerStep g i) w1) as Hs by (split; [unfold step, apply; rewrite HG; cbn; by rewrite He|done]).
  assert (gens w1 !! g = Some (ef_gen e)) as HG1 by (apply list_lookup_insert_eq; by eapply lookup_lt_Some).
  pose proof (worker_ranks w g G i e He) as Hlt.
  destruct (worker_goes_on w g G i e Hc He) as [Hr1|[Hd Hcl]].
  - destruct (IH w1 (ef_gen e)) as (ins & w' & G' & Hlen & Hsteps & ?); try done; [by eapply ostep_ok|lia|].
    exists (i :: ins), w', G'. split; [cbn; lia|]. split; [by econstructor|done].
  - exists [i], w1, (ef_gen e). split_and!; try done; [cbn; lia|by eapply steps_cons; [|constructor]|by apply Hi].
Qed.

(** C33. Every cancellation ends: the worker that a claim started closes [cancelIssued] after at
    most sixteen of its own steps, however the runtime, the predecessor and the send of the
    turn behave, and each of its steps brings it nearer. *)
Theorem cancellation_ends w g G :
  oreachable w → gens w !! g = Some G → worker_runs (g_worker G) = true → closed w = false → activeGenMu w = None →
  (∃ ins w' G', length ins ≤ 16 ∧ steps ostep w (WorkerStep g <$> ins) w' ∧ gens w' !! g = Some G' ∧
    g_worker G' = WDone ∧ g_cancelIssued G' = true) ∧
  ∀ i e, worker_step w g G i = Some e → worker_rank (g_worker (ef_gen e)) < worker_rank (g_worker G) ≤ 16.
Proof.
  intros HR HG Hr Hc Hu. assert (worker_rank (g_worker G) ≤ 16) as Hle by (destruct (g_worker G); cbn; lia). split.
  - apply (worker_ends_within 16 w g G); auto using oreachable_ok.
  - intros i e He. pose proof (worker_ranks w g G i e He). lia.
Qed.

(** The prompt of a turn is with the runtime when the user stops it. *)
Definition stopped_turn : list Ev := (one_prompt ++ [CancelActiveGeneration "s"] ++ replicate 5 (CancelStep 0))%list.
Lemma cancellation_ends_witness :
  ∃ G, gens (after stopped_turn empty_gworld) !! 0 = Some G ∧
    ∃ ins w' G', length ins ≤ 16 ∧ steps ostep (after stopped_turn empty_gworld) (WorkerStep 0 <$> ins) w' ∧
      gens w' !! 0 = Some G' ∧ g_worker G' = WDone ∧ g_cancelIssued G' = true.
Proof.
  eexists. split; [vm_compute; reflexivity|].
  eapply (cancellation_ends (after stopped_turn empty_gworld) 0);
    [exists stopped_turn; apply after_steps; vm_compute; by eexists|vm_compute; reflexivity..].
Defined.

(** ** No channel is closed twice *)

Record closes_once (G : inFlightGen) : Prop := {
  co_done : g_done G = true → over (g_body G) = true;
  co_issued : g_cancelIssued G = true → g_worker G = WDone;
  co_claim : g_worker G ≠ WNone → g_cancelOnce G = true;
}.
Definition closes_ok (G : inFlightGen) (e : GEffect) : Prop := closes_once (ef_gen e) ∧ ef_panics e = false.
Lemma closes_at_worker x G : closes_once G → g_cancelIssued G = false → g_cancelOnce G = true → closes_once (at_worker x G).
Proof. intros [] Hi Ho. split; cbn; [done|congruence|done]. Qed.
Lemma closes_at_body b G : closes_once G → over (g_body G) = false ∨ over b = true → closes_once (at_body b G).
Proof. intros [] Hb. split; cbn; auto. intros Hd. destruct Hb as [Hb|]; [|done]. by rewrite co_done0 in Hb. Qed.
Lemma closes_same G G' : closes_once G → (g_done G', g_body G', g_cancelIssued G', g_worker G', g_cancelOnce G') =
  (g_done G, g_body G, g_cancelIssued G, g_worker G, g_cancelOnce G) → closes_once G'.
Proof. intros [] [= H1 H2 H3 H4 H5]. split; rewrite ?H1, ?H2, ?H3, ?H4, ?H5; auto. Qed.
Lemma closes_mark_safe w G : closes_once G → closes_once (mark_safe w G).
Proof. intros H. apply (closes_same G); [done|]. unfold mark_safe. by destruct (g_release (made_safe G)). Qed.
Lemma closes_observe w v G : closes_once G → closes_once (observe w v G).
Proof. intros H. destruct (observe_eq w G v) as [x ->]. by apply (closes_same G). Qed.
Lemma closes_inherit w g r G : closes_once G → closes_once (observe_predecessor w g r G).
Proof. intros H. destruct (observe_predecessor_eq w g G r) as [x ->]. by apply (closes_same G). Qed.
Lemma closes_claim w G G' t : claim w G = (G', t) → closes_once G → closes_once G' ∧ g_body G' = g_body G.
Proof.
  unfold claim. intros E H. destruct (g_cancelOnce G) eqn:Eo; injection E as <- <-; [done|]. split; [|done].
  destruct H. split; cbn; auto. intros Hi. specialize (co_issued0 Hi). rewrite co_claim0 in Eo; [done|]. by rewrite co_issued0.
Qed.

Section Closes.
Context (w : GWorld) (g : nat) (G : inFlightGen).
Hypothesis HG : closes_once G.

Lemma closes_body i e : body_step w g G i = Some e → closes_ok G e.
Proof using HG.
  intros He. unfold body_step, launch_step, wait_step, retain_step, request_step, deregister_step, mark_completed, only, clears_slot in He.
  assert (∀ b t sl r, over (g_body G) = false ∨ over b = true → closes_ok G (mkGEffect (at_body b G) t sl r false)) as Hto
    by (intros b t sl r Hb; split; [by apply closes_at_body|done]).
  assert (∀ G1 b t sl r, closes_once G1 → over (g_body G1) = false ∨ over b = true → closes_ok G (mkGEffect (at_body b G1) t sl r false)) as Hfrom
    by (intros G1 b t sl r H1 Hb; split; [by apply closes_at_body|done]).
  destruct (g_body G) eqn:EB; destruct i; try discriminate He; cbn in He.
  all: try (injection He as <-; apply Hto; rewrite ?EB; auto; fail).
  all: try (destruct (g_worker G); simplify_eq; apply Hto; auto; fail).
  all: try match goal with H : ?x ≫= _ = Some _ |- _ => destruct x; simplify_eq/= end.
  all: try (repeat case_match; simplify_eq; apply Hto; auto; fail).
  - injection He as <-. destruct (g_cognitive G); [apply Hfrom; [by apply (closes_same G)|cbn; rewrite EB; auto]|apply Hto; auto].
  - destruct cur; injection He as <-; [apply Hfrom; [by apply (closes_same G)|cbn; rewrite EB; auto]|apply Hto; auto].
  - case_match; [|done]. injection He as <-. apply Hfrom; [by apply (closes_same G)|cbn; rewrite EB; auto].
  - injection He as <-. apply Hfrom; [by apply closes_inherit|].
    destruct (observe_predecessor_eq w g G root) as [x ->]. cbn. rewrite EB. auto.
  - injection He as <-. apply Hfrom; [destruct (g_after G); by apply (closes_same G)|]. destruct (g_after G); cbn; rewrite EB; auto.
  - case_match; [|done]. destruct (claim w G) as [G' t] eqn:EC. injection He as <-. destruct (closes_claim _ _ _ _ EC HG) as [H1 H2].
    apply Hfrom; [done|rewrite H2, EB; auto].
  - case_match; [|done]. injection He as <-. apply Hfrom; [case_match; by apply (closes_same G)|]. case_match; cbn; rewrite EB; auto.
  - injection He as <-. assert (g_done G = false) as Hd.
    { destruct (g_done G) eqn:E; [|done]. pose proof (co_done _ HG E) as Ho. by rewrite EB in Ho. }
    split; [|done]. destruct HG. by split.
  - injection He as <-. apply Hfrom; [by apply (closes_same G)|auto].
Qed.
Lemma closes_worker i e : worker_step w g G i = Some e → closes_ok G e.
Proof using HG.
  intros He. unfold worker_step, boundary_step, only, and_turn, finish_router, started in He.
  assert (g_worker G ≠ WNone → g_worker G ≠ WDone → g_cancelIssued G = false ∧ g_cancelOnce G = true) as Hw.
  { intros H1 H2. split; [|by apply HG]. destruct (g_cancelIssued G) eqn:E; [|done]. by rewrite (co_issued _ HG E) in H2. }
  assert (∀ G1 x t sl r, closes_once G1 → g_worker G1 = g_worker G → g_cancelIssued G1 = g_cancelIssued G → g_cancelOnce G1 = g_cancelOnce G →
    g_worker G ≠ WNone → g_worker G ≠ WDone → closes_ok G (mkGEffect (at_worker x G1) t sl r false)) as Hto.
  { intros G1 x t sl r H1 H2 H3 H4 H5 H6. destruct (Hw H5 H6). split; [apply closes_at_worker; congruence|done]. }
  destruct (g_worker G) eqn:EW; destruct i as [| |[]|]; try discriminate He; cbn in He.
  all: try match goal with H : ?x ≫= _ = Some _ |- _ => destruct x; simplify_eq/= end.
  all: try (repeat case_match; simplify_eq; apply Hto; rewrite ?EW; by auto).
  all: try match goal with H : match c_binding ?c with Some _ => _ | None => _ end = _ |- _ => destruct (c_binding c); simplify_eq end.
  all: try match goal with H : ?x ≫= _ = Some _ |- _ => destruct x; simplify_eq/= end.
  all: try (simplify_eq; apply Hto; rewrite ?EW; by auto).
  - injection He as <-. apply Hto; rewrite ?EW; auto. by apply (closes_same G).
  - destruct (turns w !! b) as [B|]; cbn in He; repeat case_match; simplify_eq; apply Hto; by auto.
  - case_match; [|done]. injection He as <-. apply Hto; auto; [by apply closes_mark_safe|..]; unfold mark_safe; by destruct (g_release (made_safe G)).
  - case_match; [|done]. injection He as <-. apply Hto; auto; by apply (closes_same G).
  - assert (∀ G1, (∃ v, G1 = observe w v G) ∨ (∃ r, G1 = observe_predecessor w g r G) ∨ G1 = G →
      closes_ok G (mkGEffect (at_worker WClose G1) None (activeGen w) (routers w) false)) as Hob.
    { intros G1 [[v ->]|[[r ->]| ->]]; apply Hto; auto using closes_observe, closes_inherit.
      all: try (destruct (observe_eq w G v) as [x ->]; done).
      all: destruct (observe_predecessor_eq w g G r) as [x ->]; done. }
    injection He as <-. apply Hob. repeat case_match; eauto.
  - injection He as <-. destruct (Hw ltac:(done) ltac:(done)) as [Hi Ho]. split; [|done]. destruct HG. by split.
Qed.
Lemma closes_watcher i e : watcher_step w G i = Some e → closes_ok G e.
Proof using HG.
  intros He. unfold watcher_step, only, finish_router in He.
  destruct (g_watcher G); destruct i as [| |[]|]; try discriminate He; cbn in He.
  all: try match goal with H : ?x ≫= _ = Some _ |- _ => destruct x; simplify_eq/= end.
  all: repeat case_match; simplify_eq; (split; [|done]); first [by apply (closes_same G) | apply (closes_same (mark_safe w G)); [by apply closes_mark_safe|done]].
Qed.
Lemma closes_release i e : release_step w g G i = Some e → closes_ok G e.
Proof using HG.
  intros He. unfold release_step, only, clears_slot in He.
  destruct (g_release G); destruct i; try discriminate He; cbn in He; (case_match; [|discriminate]); injection He as <-;
    (split; [by apply (closes_same G)|done]).
Qed.
Lemma closes_send i b B e : send_ok B → send_step w g G i b B = Some e → closes_ok G e.
Proof using HG.
  intros HB He. unfold send_step, cleanup_step, only, and_turn, finish_router in He. unfold send_ok in HB.
  destruct (b_send B); destruct i as [| |[]|]; try discriminate He; cbn in He.
  all: repeat case_match; simplify_eq; (split; [|cbn; intuition auto]).
  all: try (by apply (closes_same G)); first [by apply closes_observe | by apply closes_mark_safe].
Qed.
End Closes.

(** Every channel is still open, or closed once. *)
Definition all_close_once (w : GWorld) : Prop := Forall closes_once (gens w) ∧ panicked w = false.
Lemma closes_perform w g G e : all_close_once w → gens w !! g = Some G → closes_ok G e → all_close_once (perform g e w).
Proof. intros [Hall Hp] HG [H1 H2]. split; cbn; [by apply Forall_insert|by rewrite Hp, H2]. Qed.
Lemma closes_do_claim w g : all_close_once w → all_close_once (do_claim g w).
Proof.
  intros HW. unfold do_claim. destruct (gens w !! g) as [G|] eqn:HG; [|done]. destruct (claim w G) as [G' t] eqn:EC.
  apply (closes_perform w g G); [done|done|]. split; [|done]. apply (closes_claim _ _ _ _ EC). destruct HW as [Hall _].
  by apply (Forall_lookup_1 _ _ _ _ Hall HG).
Qed.
Lemma closes_step w e w' : gworld_ok w → all_close_once w → step w e w' → all_close_once w'.
Proof.
  intros HW HC Hstep. unfold step, apply in Hstep. pose proof HC as [Hall Hp].
  assert (gens w' = gens w → panicked w' = panicked w → all_close_once w') as Hsame by (intros H1 H2; unfold all_close_once; by rewrite H1, H2).
  assert (∀ x X, gens w !! x = Some X → closes_once X) as Hget by (intros x X HX; by apply (Forall_lookup_1 _ _ _ _ Hall HX)).
  assert (∀ t X, closes_once X → all_close_once (register t X w)) as Hreg by (intros t X HX; split; [cbn; apply Forall_app; auto|done]).
  assert (∀ u, all_close_once u → gens w' = gens u → panicked w' = panicked u → all_close_once w') as Hlike
    by (intros u Hu H1 H2; unfold all_close_once; by rewrite H1, H2).
  destruct e as [t msg user cognitive|t msg|x i|x|x i|x i|x i|b i|x n ctx_err sink|b|b|b|n|t|t msg| |c| |].
  - case_match; simplify_eq. by apply Hreg.
  - case_match; [|done]. destruct (activeGen w !! t); simplify_eq; [done|]. by apply Hreg.
  - destruct (gens w !! x) as [X|] eqn:HX; [|done]. cbn in Hstep. destruct (body_step w x X i) eqn:He; simplify_eq/=.
    eapply closes_perform; [done..|]. eapply closes_body; eauto.
  - destruct (gens w !! x) as [X|] eqn:HX; [|done]. cbn in Hstep. case_match; simplify_eq. eapply closes_perform; [done..|].
    split; [|done]. apply (closes_same X); eauto.
  - destruct (gens w !! x) as [X|] eqn:HX; [|done]. cbn in Hstep. destruct (worker_step w x X i) eqn:He; simplify_eq/=.
    eapply closes_perform; [done..|]. eapply closes_worker; eauto.
  - destruct (gens w !! x) as [X|] eqn:HX; [|done]. cbn in Hstep. destruct (watcher_step w X i) eqn:He; simplify_eq/=.
    eapply closes_perform; [done..|]. eapply closes_watcher; eauto.
  - destruct (gens w !! x) as [X|] eqn:HX; [|done]. cbn in Hstep. destruct (release_step w x X i) eqn:He; simplify_eq/=.
    eapply closes_perform; [done..|]. eapply closes_release; eauto.
  - destruct (turns w !! b) as [B|] eqn:HB; [|done]. cbn in Hstep. destruct (gens w !! b_gen B) as [X|] eqn:HX; [|done]. cbn in Hstep.
    destruct (send_step w (b_gen B) X i b B) eqn:He; simplify_eq/=. eapply closes_perform; [done..|].
    eapply closes_send; [by eapply Hget|by eapply sends_ok|done].
  - destruct (gens w !! x) as [X|] eqn:HX; [|done]. cbn in Hstep. destruct (g_body X) eqn:Eb; try discriminate Hstep.
    injection Hstep as <-. unfold admitRuntimeTurn. repeat (case_match; [done|]). split; [|done]. cbn. apply Forall_insert; [done|].
    apply (closes_same X); eauto.
  - destruct (turns w !! b) as [B|] eqn:HB; [|done]. cbn in Hstep. destruct (gens w !! b_gen B) as [X|] eqn:HX; [|done]. cbn in Hstep.
    case_match; simplify_eq/=. eapply closes_perform; [done..|]. split; [eauto|done].
  - destruct (turns w !! b); simplify_eq/=. by apply Hsame.
  - destruct (turns w !! b); [|done]. cbn in Hstep. destruct (gens w !! _); [|done]. cbn in Hstep. case_match; simplify_eq. by apply Hsame.
  - simplify_eq. by apply Hsame.
  - simplify_eq. by apply Hsame.
  - simplify_eq. by apply Hsame.
  - case_match; simplify_eq. by apply Hsame.
  - destruct (cancellers w !! c) as [x|]; [|done]. cbn in Hstep. unfold cancel_step, chain_step, find_step, call_to, call_ends in Hstep.
    destruct x; repeat case_match; simplify_eq; first [by apply Hsame | by eapply Hlike; [by apply closes_do_claim|..]].
  - simplify_eq. by apply Hsame.
  - case_match; simplify_eq. by apply Hsame.
Qed.

(** No channel is closed twice, so the service does not panic there: [done] and
    [cancelIssued] of a turn and [sendReturned] of a runtime turn are closed at most once, in
    every interleaving of the turns with their cancellations and sends. *)
Theorem channels_close_once w : oreachable w → panicked w = false.
Proof.
  intros [evs H]. assert (gworld_ok w ∧ all_close_once w) as [_ [_ ?]]; [|done].
  apply (steps_invariant ostep (λ w, gworld_ok w ∧ all_close_once w) empty_gworld evs w); [|done|].
  - intros a l b Hs [HW HC]. split; [by eapply ostep_ok|]. by eapply closes_step; [..|apply Hs].
  - split; [apply empty_gworld_ok|]. by split.
Qed.
Lemma channels_close_once_witness : panicked (after lost_root empty_gworld) = false.
Proof. apply channels_close_once. exists lost_root. apply after_steps. vm_compute. by eexists. Defined.
