(* ===== verification/Streams.v ===== *)
(** * The event streams of messages

    [service/stream.go], with the cursor of [api/messages.go]: the events of a turn on their
    way to the browser.  A message has a producer, a pump that numbers its events and
    keeps the newest in a ring, and at most one live subscriber; a browser that comes back
    with its cursor is sent what it missed, or told what is lost.

    A step of [apply] is a critical section, a channel operation or one operation of a
    [sync.Map]; the calls of the manager are program counters.  Channels are values of the
    state with their buffer and capacity.  The cognitive run of a native turn, which the
    pump feeds as well, the JSON of plugin envelopes and logging are left out. *)

From S2P Require Import Prelude.
From stdpp Require Import strings gmap sets sorting.

Open Scope string_scope.
Open Scope nat_scope.
Set Default Proof Using "Type".

(** ** Events *)

Record StreamGap := mkGap { gap_From : nat; gap_To : nat; gap_Reason : string }.
Record StreamTermination := mkTermination { stm_Reason : string; stm_Outcome : string; stm_Retryable : bool }.
(** The fields the manager does not look at are one text. *)
Record StreamEvent := mkEvent {
  se_Type : string;
  se_Body : string;
  se_EventID : nat;
  se_Gap : option StreamGap;
  se_Termination : option StreamTermination;
}.
Definition with_id (id : nat) (e : StreamEvent) : StreamEvent :=
  mkEvent (se_Type e) (se_Body e) id (se_Gap e) (se_Termination e).
Definition gap_event (from to : nat) (reason : string) : StreamEvent :=
  mkEvent "gap" "" 0 (Some (mkGap from to reason)) None.
(** The pump gives an end without a reason one. *)
Definition with_termination (e : StreamEvent) : StreamEvent :=
  if String.eqb (se_Type e) "stream_end" && bool_decide (se_Termination e = None)
  then mkEvent (se_Type e) (se_Body e) (se_EventID e) (se_Gap e) (Some (mkTermination "completed" "success" false))
  else e.

Definition ringBufferCapacity : nat := 256.
Definition produceCapacity : nat := 128.

(** ** State *)

Inductive Pump := PIdle | PHas (e : StreamEvent) | PEnding | PStopped.

(** [ms_log] is no field of the code: every event the pump has numbered. *)
Record messageStream := mkMessageStream {
  ms_messageID : string;
  ms_sessionID : string;
  ms_produce : list StreamEvent;
  ms_produceClosed : bool;
  ms_pump : Pump;
  ms_buf : list StreamEvent;
  ms_nextID : nat;
  ms_subscriber : option nat;
  ms_closed : bool;
  ms_log : list StreamEvent;
}.
(** The channels of a subscription: its events and its closure.  [sc_seen] is what the
    reader has received; [sc_from], [sc_report] and [sc_head] say how it subscribed, the
    last event that existed then. *)
Record Subscription := mkSubscription {
  sc_stream : nat;
  sc_from : nat;
  sc_report : bool;
  sc_head : nat;
  sc_conn : option nat;
  sc_cap : nat;
  sc_queue : list StreamEvent;
  sc_closed : bool;
  sc_closure : option StreamTermination;
  sc_seen : list StreamEvent;
}.

(** The calls of the manager, and what is left of them. *)
Inductive Call :=
| CCreate (m s : string)                                  (* CreateStream *)
| CCreated (m s : string) (ms : nat) | CNamed (m s : string)
| CAdd (s m : string) | CAddLocked (s m : string) (ss : nat)               (* addSessionMessage *)
| CRemove (s m : string) (closing : bool) | CRemoveLocked (s m : string) (ss : nat) (closing : bool)
| CClose (m : string) | CDelete (m : string)              (* CloseStream *)
| CDetach (m : string) | CAttach (m : string)             (* DetachFromSession, AttachToSession *)
| CSubscribe (m : string) (from : nat)                    (* Subscribe *)
| CSSE (m : string) (from : nat)                          (* SubscribeSSETransport *)
| CSSELoad (m : string) (from : nat) | CSSERegister (m : string) (from ms : nat)
| CSSESubscribe (m : string) (from ms conn : nat) | CSSEUnlock
| CCancel (m : string) (ms c conn : nat) | CUnregister (m : string) (conn : nat)   (* Cancel *)
| CBroadcast (s : string) (e : StreamEvent)               (* BroadcastSessionStreamEvent *)
| CTargets (l : list string) (e : StreamEvent) (delivered : nat)
| CPresence (visited : list nat) | CPresenceSend (visited : list nat) (ch : nat)   (* BroadcastPresence *)
| CDone.

(** [sm_sets] holds the [sessionStreams], [sm_conns] the [done] channels of the SSE
    connections, [sm_presence] the channels of the presence clients with the number of
    waiting events; [sm_clients] maps a client to its channel. *)
Record StreamManager := mkStreamManager {
  sm_ms : list messageStream;
  sm_subs : list Subscription;
  sm_streams : gmap string nat;
  sm_msgToSession : gmap string string;
  sm_sessionToMsgs : gmap string nat;
  sm_sets : list (gset string);
  sm_messageSSE : gmap string nat;
  sm_conns : list bool;
  sm_sseMu : option nat;
  sm_clients : gmap nat nat;
  sm_presence : list (nat * bool);
  sm_calls : list Call;
  sm_panicked : bool;
}.
Definition NewStreamManager : StreamManager := mkStreamManager [] [] ∅ ∅ ∅ [] ∅ [] None ∅ [] [] false.

Definition with_produce (x_produce : list StreamEvent) (ms : messageStream) : messageStream :=
  mkMessageStream (ms_messageID ms) (ms_sessionID ms) x_produce (ms_produceClosed ms) (ms_pump ms) (ms_buf ms)
    (ms_nextID ms) (ms_subscriber ms) (ms_closed ms) (ms_log ms).
Definition produce_closed (ms : messageStream) : messageStream :=
  mkMessageStream (ms_messageID ms) (ms_sessionID ms) (ms_produce ms) true (ms_pump ms) (ms_buf ms)
    (ms_nextID ms) (ms_subscriber ms) (ms_closed ms) (ms_log ms).
Definition at_pump (x_pump : Pump) (ms : messageStream) : messageStream :=
  mkMessageStream (ms_messageID ms) (ms_sessionID ms) (ms_produce ms) (ms_produceClosed ms) x_pump (ms_buf ms)
    (ms_nextID ms) (ms_subscriber ms) (ms_closed ms) (ms_log ms).
Definition with_subscriber (x_subscriber : option nat) (ms : messageStream) : messageStream :=
  mkMessageStream (ms_messageID ms) (ms_sessionID ms) (ms_produce ms) (ms_produceClosed ms) (ms_pump ms)
    (ms_buf ms) (ms_nextID ms) x_subscriber (ms_closed ms) (ms_log ms).
Definition stream_closed (ms : messageStream) : messageStream :=
  mkMessageStream (ms_messageID ms) (ms_sessionID ms) (ms_produce ms) (ms_produceClosed ms) (ms_pump ms)
    (ms_buf ms) (ms_nextID ms) (ms_subscriber ms) true (ms_log ms).
Definition with_queue (x_queue : list StreamEvent) (c : Subscription) : Subscription :=
  mkSubscription (sc_stream c) (sc_from c) (sc_report c) (sc_head c) (sc_conn c) (sc_cap c) x_queue
    (sc_closed c) (sc_closure c) (sc_seen c).
Definition sub_closed (x_closure : option StreamTermination) (c : Subscription) : Subscription :=
  mkSubscription (sc_stream c) (sc_from c) (sc_report c) (sc_head c) (sc_conn c) (sc_cap c) (sc_queue c) true
    x_closure (sc_seen c).
Definition sub_read (x_queue : list StreamEvent) (x_seen : list StreamEvent) (c : Subscription) : Subscription :=
  mkSubscription (sc_stream c) (sc_from c) (sc_report c) (sc_head c) (sc_conn c) (sc_cap c) x_queue
    (sc_closed c) (sc_closure c) x_seen.
Definition set_ms (x_ms : list messageStream) (w : StreamManager) : StreamManager :=
  mkStreamManager x_ms (sm_subs w) (sm_streams w) (sm_msgToSession w) (sm_sessionToMsgs w) (sm_sets w)
    (sm_messageSSE w) (sm_conns w) (sm_sseMu w) (sm_clients w) (sm_presence w) (sm_calls w) (sm_panicked w).
Definition set_subs (x_subs : list Subscription) (w : StreamManager) : StreamManager :=
  mkStreamManager (sm_ms w) x_subs (sm_streams w) (sm_msgToSession w) (sm_sessionToMsgs w) (sm_sets w)
    (sm_messageSSE w) (sm_conns w) (sm_sseMu w) (sm_clients w) (sm_presence w) (sm_calls w) (sm_panicked w).
Definition set_ms_subs (x_ms : list messageStream) (x_subs : list Subscription) (w : StreamManager) : StreamManager :=
  mkStreamManager x_ms x_subs (sm_streams w) (sm_msgToSession w) (sm_sessionToMsgs w) (sm_sets w)
    (sm_messageSSE w) (sm_conns w) (sm_sseMu w) (sm_clients w) (sm_presence w) (sm_calls w) (sm_panicked w).
Definition set_streams (x_streams : gmap string nat) (w : StreamManager) : StreamManager :=
  mkStreamManager (sm_ms w) (sm_subs w) x_streams (sm_msgToSession w) (sm_sessionToMsgs w) (sm_sets w)
    (sm_messageSSE w) (sm_conns w) (sm_sseMu w) (sm_clients w) (sm_presence w) (sm_calls w) (sm_panicked w).
Definition set_sessions (x_msgToSession : gmap string string) (w : StreamManager) : StreamManager :=
  mkStreamManager (sm_ms w) (sm_subs w) (sm_streams w) x_msgToSession (sm_sessionToMsgs w) (sm_sets w)
    (sm_messageSSE w) (sm_conns w) (sm_sseMu w) (sm_clients w) (sm_presence w) (sm_calls w) (sm_panicked w).
Definition set_index (x_sessionToMsgs : gmap string nat) (x_sets : list (gset string)) (w : StreamManager) : StreamManager :=
  mkStreamManager (sm_ms w) (sm_subs w) (sm_streams w) (sm_msgToSession w) x_sessionToMsgs x_sets
    (sm_messageSSE w) (sm_conns w) (sm_sseMu w) (sm_clients w) (sm_presence w) (sm_calls w) (sm_panicked w).
Definition set_sse (x_messageSSE : gmap string nat) (x_conns : list bool) (w : StreamManager) : StreamManager :=
  mkStreamManager (sm_ms w) (sm_subs w) (sm_streams w) (sm_msgToSession w) (sm_sessionToMsgs w) (sm_sets w)
    x_messageSSE x_conns (sm_sseMu w) (sm_clients w) (sm_presence w) (sm_calls w) (sm_panicked w).
Definition set_sseMu (x_sseMu : option nat) (w : StreamManager) : StreamManager :=
  mkStreamManager (sm_ms w) (sm_subs w) (sm_streams w) (sm_msgToSession w) (sm_sessionToMsgs w) (sm_sets w)
    (sm_messageSSE w) (sm_conns w) x_sseMu (sm_clients w) (sm_presence w) (sm_calls w) (sm_panicked w).
Definition set_presence (x_clients : gmap nat nat) (x_presence : list (nat * bool)) (w : StreamManager) : StreamManager :=
  mkStreamManager (sm_ms w) (sm_subs w) (sm_streams w) (sm_msgToSession w) (sm_sessionToMsgs w) (sm_sets w)
    (sm_messageSSE w) (sm_conns w) (sm_sseMu w) x_clients x_presence (sm_calls w) (sm_panicked w).
Definition set_calls (x_calls : list Call) (w : StreamManager) : StreamManager :=
  mkStreamManager (sm_ms w) (sm_subs w) (sm_streams w) (sm_msgToSession w) (sm_sessionToMsgs w) (sm_sets w)
    (sm_messageSSE w) (sm_conns w) (sm_sseMu w) (sm_clients w) (sm_presence w) x_calls (sm_panicked w).
Definition panic_if (b : bool) (w : StreamManager) : StreamManager :=
  mkStreamManager (sm_ms w) (sm_subs w) (sm_streams w) (sm_msgToSession w) (sm_sessionToMsgs w) (sm_sets w)
    (sm_messageSSE w) (sm_conns w) (sm_sseMu w) (sm_clients w) (sm_presence w) (sm_calls w) (sm_panicked w || b).

(** ** One stream *)

(** [newMessageStream]. *)
Definition newMessageStream (m s : string) : messageStream := mkMessageStream m s [] false PIdle [] 1 None false [].
Definition ring_push (buf : list StreamEvent) (e : StreamEvent) : list StreamEvent :=
  ((if ringBufferCapacity <=? length buf then tail buf else buf) ++ [e])%list.

(** [closeSubscriberLocked] on the subscriptions. *)
Definition closeSubscriber (end_ : StreamTermination) (ms : messageStream) (subs : list Subscription) : list Subscription :=
  match ms_subscriber ms with
  | Some c => alter (sub_closed (Some end_)) c subs
  | None => subs
  end.
Definition closeSubscriberLocked (end_ : StreamTermination) (ms : messageStream) (subs : list Subscription)
  : messageStream * list Subscription :=
  (with_subscriber None ms, closeSubscriber end_ ms subs).

(** The body of the pump's loop under the lock: number the event, keep it in the ring, hand
    it to the subscriber or close a subscriber that is full. *)
Definition pump_event (e : StreamEvent) (ms : messageStream) (subs : list Subscription) : messageStream * list Subscription :=
  let e := with_id (ms_nextID ms) (with_termination e) in
  let ms := mkMessageStream (ms_messageID ms) (ms_sessionID ms) (ms_produce ms) (ms_produceClosed ms) PIdle
    (ring_push (ms_buf ms) e) (S (ms_nextID ms)) (ms_subscriber ms) (ms_closed ms) (ms_log ms ++ [e])%list in
  match ms_subscriber ms with
  | Some c =>
      match subs !! c with
      | Some C =>
          if length (sc_queue C) <? sc_cap C then (ms, <[c := with_queue (sc_queue C ++ [e])%list C]> subs)
          else closeSubscriberLocked (mkTermination "slow_consumer" "" true) ms subs
      | None => (ms, subs)
      end
  | None => (ms, subs)
  end.
(** After the loop. *)
Definition pump_end (ms : messageStream) (subs : list Subscription) : messageStream * list Subscription :=
  closeSubscriberLocked (mkTermination "producer_closed" "" false) (at_pump PStopped (stream_closed ms)) subs.

(** The gap a subscriber with a cursor is told of, and what is replayed to it. *)
Definition gap_before (ms : messageStream) (fromEventID : nat) : list StreamEvent :=
  let latest := ms_nextID ms - 1 in
  if latest <? fromEventID then [gap_event (latest + 1) fromEventID "cursor_ahead"]
  else match ms_buf ms with
       | e :: _ => if fromEventID <? se_EventID e - 1 then [gap_event (fromEventID + 1) (se_EventID e - 1) "retention"] else []
       | [] => []
       end.
Definition replay (ms : messageStream) (fromEventID : nat) : list StreamEvent :=
  filter (λ e, fromEventID < se_EventID e) (ms_buf ms).
Definition outCap (ms : messageStream) : nat := S (Nat.max 128 (length (ms_buf ms))).

(** [subscribeTransport]: the new subscription [length subs] takes the place of the one
    before; a stream that has ended only replays. *)
Definition subscribeTransport (r fromEventID : nat) (reportGap : bool) (conn : option nat) (ms : messageStream)
  (subs : list Subscription) : messageStream * list Subscription :=
  let out := ((if reportGap then gap_before ms fromEventID else []) ++ replay ms fromEventID)%list in
  let C := mkSubscription r fromEventID reportGap (ms_nextID ms - 1) conn (outCap ms) out false None [] in
  if ms_closed ms then (ms, subs ++ [sub_closed (Some (mkTermination "producer_closed" "" false)) C])%list
  else
    let '(ms, subs') := closeSubscriberLocked (mkTermination "session_takeover" "" false) ms subs in
    (with_subscriber (Some (length subs)) ms, subs' ++ [C])%list.

(** The cursor a browser comes back with ([streamMessageEvents]): the newer of the one in the
    address and the last event it has seen. *)
Definition resume_cursor (from lastEventID : nat) : nat := Nat.max from lastEventID.

(** ** Steps *)

Section Steps.
Context (w : StreamManager).

(** A stream and the subscriptions move on together. *)
Definition with_stream (r : nat) (f : messageStream → list Subscription → messageStream * list Subscription) : StreamManager :=
  match sm_ms w !! r with
  | Some ms => let '(ms', subs') := f ms (sm_subs w) in set_ms_subs (<[r := ms']> (sm_ms w)) subs' w
  | None => w
  end.

(** The producer, and [trySendEnvelope], which does not wait and survives a closed channel. *)
Definition produce (r : nat) (e : StreamEvent) : option StreamManager :=
  ms ← sm_ms w !! r;
  if ms_produceClosed ms then Some (panic_if true w)
  else if length (ms_produce ms) <? produceCapacity
  then Some (set_ms (<[r := with_produce (ms_produce ms ++ [e])%list ms]> (sm_ms w)) w) else None.
Inductive sendOutcome := sendDelivered | sendFull | sendClosed.
Definition trySendEnvelope (ms : messageStream) : sendOutcome :=
  if ms_produceClosed ms then sendClosed
  else if length (ms_produce ms) <? produceCapacity then sendDelivered else sendFull.
Definition close_produce (r : nat) : option StreamManager :=
  ms ← sm_ms w !! r;
  Some (panic_if (ms_produceClosed ms) (set_ms (<[r := produce_closed ms]> (sm_ms w)) w)).

(** [pump]: receive, then work under the lock. *)
Definition pump_step (r : nat) : option StreamManager :=
  ms ← sm_ms w !! r;
  match ms_pump ms with
  | PIdle =>
      match ms_produce ms with
      | e :: rest => Some (set_ms (<[r := at_pump (PHas e) (with_produce rest ms)]> (sm_ms w)) w)
      | [] => if ms_produceClosed ms then Some (set_ms (<[r := at_pump PEnding ms]> (sm_ms w)) w) else None
      end
  | PHas e => Some (with_stream r (pump_event e))
  | PEnding => Some (with_stream r pump_end)
  | PStopped => None
  end.

(** The reader of a subscription takes the next event. *)
Definition read_step (c : nat) : option StreamManager :=
  C ← sm_subs w !! c;
  match sc_queue C with
  | e :: rest => Some (set_subs (<[c := sub_read rest (sc_seen C ++ [e])%list C]> (sm_subs w)) w)
  | [] => None
  end.

(** ** Calls *)

Definition set_call (i : nat) (k : Call) (u : StreamManager) : StreamManager := set_calls (<[i := k]> (sm_calls u)) u.
Definition index_set (s : string) : option (gset string) := ss ← sm_sessionToMsgs w !! s; sm_sets w !! ss.

(** [CreateStream]: the stream, its session, the index of the session. *)
Definition create_step (i : nat) (k : Call) : option StreamManager :=
  match k with
  | CCreate m s =>
      let r := length (sm_ms w) in
      Some (set_call i (CCreated m s r) (set_streams (<[m := r]> (sm_streams w)) (set_ms (sm_ms w ++ [newMessageStream m s])%list w)))
  | CCreated m s _ => Some (set_call i (CNamed m s) (set_sessions (<[m := s]> (sm_msgToSession w)) w))
  | CNamed m s => Some (set_call i (CAdd s m) w)
  | _ => None
  end.
(** [addSessionMessage]: load or store the set of the session, then lock it and look again. *)
Definition add_step (i : nat) (k : Call) : option StreamManager :=
  match k with
  | CAdd s m =>
      match sm_sessionToMsgs w !! s with
      | Some ss => Some (set_call i (CAddLocked s m ss) w)
      | None =>
          let ss := length (sm_sets w) in
          Some (set_call i (CAddLocked s m ss) (set_index (<[s := ss]> (sm_sessionToMsgs w)) (sm_sets w ++ [∅])%list w))
      end
  | CAddLocked s m ss =>
      if bool_decide (sm_sessionToMsgs w !! s = Some ss)
      then Some (set_call i CDone (set_index (sm_sessionToMsgs w) (alter (λ ids, {[m]} ∪ ids) ss (sm_sets w)) w))
      else Some (set_call i (CAdd s m) w)
  | _ => None
  end.
(** [removeSessionMessage]. *)
Definition remove_step (i : nat) (k : Call) : option StreamManager :=
  let next (m : string) (closing : bool) := if closing then CDelete m else CDone in
  match k with
  | CRemove s m closing =>
      match sm_sessionToMsgs w !! s with
      | Some ss => Some (set_call i (CRemoveLocked s m ss closing) w)
      | None => Some (set_call i (next m closing) w)
      end
  | CRemoveLocked s m ss closing =>
      ids ← sm_sets w !! ss;
      let ids : gset string := (ids : gset string) ∖ {[m]} in
      let index := if bool_decide (ids = ∅) && bool_decide (sm_sessionToMsgs w !! s = Some ss)
                   then delete s (sm_sessionToMsgs w) else sm_sessionToMsgs w in
      Some (set_call i (next m closing) (set_index index (<[ss := ids]> (sm_sets w)) w))
  | _ => None
  end.
(** [CloseStream]. *)
Definition close_step (i : nat) (k : Call) : option StreamManager :=
  match k with
  | CClose m =>
      match sm_msgToSession w !! m with
      | Some s => Some (set_call i (CRemove s m true) (set_sessions (delete m (sm_msgToSession w)) w))
      | None => Some (set_call i (CDelete m) w)
      end
  | CDelete m => Some (set_call i CDone (set_streams (delete m (sm_streams w)) w))
  | _ => None
  end.
(** [DetachFromSession], [AttachToSession]. *)
Definition attach_step (i : nat) (k : Call) : option StreamManager :=
  match k with
  | CDetach m => Some (set_call i match sm_msgToSession w !! m with Some s => CRemove s m false | None => CDone end w)
  | CAttach m => Some (set_call i match sm_msgToSession w !! m with Some s => CAdd s m | None => CDone end w)
  | _ => None
  end.

(** [RegisterSSE] and [UnregisterSSE]. *)
Definition RegisterSSE (m : string) : StreamManager :=
  let conn := length (sm_conns w) in
  let old := sm_messageSSE w !! m in
  panic_if (match old with Some d => default false (sm_conns w !! d) | None => false end)
    (set_sse (<[m := conn]> (sm_messageSSE w))
       ((match old with Some d => <[d := true]> (sm_conns w) | None => sm_conns w end) ++ [false])%list w).
Definition UnregisterSSE (m : string) (conn : nat) : StreamManager :=
  if bool_decide (sm_messageSSE w !! m = Some conn) then set_sse (delete m (sm_messageSSE w)) (sm_conns w) w else w.

(** [Subscribe], and [SubscribeSSETransport], which holds [sseMu] from its load to its end. *)
Definition subscribe_step (i : nat) (k : Call) : option StreamManager :=
  match k with
  | CSubscribe m from =>
      Some (set_call i CDone match sm_streams w !! m with
        | Some r => with_stream r (subscribeTransport r from false None)
        | None => w
        end)
  | CSSE m from => if bool_decide (sm_sseMu w = None) then Some (set_sseMu (Some i) (set_call i (CSSELoad m from) w)) else None
  | CSSELoad m from => Some (set_call i match sm_streams w !! m with Some r => CSSERegister m from r | None => CSSEUnlock end w)
  | CSSERegister m from r => Some (set_call i (CSSESubscribe m from r (length (sm_conns w))) (RegisterSSE m))
  | CSSESubscribe m from r conn => Some (set_call i CSSEUnlock (with_stream r (subscribeTransport r from true (Some conn))))
  | CSSEUnlock => Some (set_sseMu None (set_call i CDone w))
  | _ => None
  end.
(** The [Cancel] of a subscription: detach exactly this observer. *)
Definition cancel_step (i : nat) (k : Call) : option StreamManager :=
  match k with
  | CCancel m r c conn =>
      Some (set_call i (CUnregister m conn)
        (with_stream r (λ ms subs, if bool_decide (ms_subscriber ms = Some c)
           then closeSubscriberLocked (mkTermination "observer_detached" "" true) ms subs else (ms, subs))))
  | CUnregister m conn => Some (set_call i CDone (UnregisterSSE m conn))
  | _ => None
  end.

(** [BroadcastSessionStreamEvent]: the messages of the session are copied, then tried. *)
Definition broadcast_step (i : nat) (k : Call) : option StreamManager :=
  match k with
  | CBroadcast s e =>
      Some (set_call i (if String.eqb s "" then CDone
        else match index_set s with Some ids => CTargets (elements ids) e 0 | None => CDone end) w)
  | CTargets [] _ _ => Some (set_call i CDone w)
  | CTargets (m :: l) e n =>
      match sm_streams w !! m with
      | Some r =>
          ms ← sm_ms w !! r;
          match trySendEnvelope ms with
          | sendDelivered =>
              Some (set_call i (CTargets l e (S n)) (set_ms (<[r := with_produce (ms_produce ms ++ [e])%list ms]> (sm_ms w)) w))
          | _ => Some (set_call i (CTargets l e n) w)
          end
      | None => Some (set_call i (CTargets l e n) w)
      end
  | _ => None
  end.

(** [BroadcastPresence]: [Range] takes a client that is there and not visited; the send comes
    after.  A send on a closed channel panics. *)
Definition presenceCapacity : nat := 32.
Definition presence_step (i : nat) (k : Call) (pick : option nat) : option StreamManager :=
  match k, pick with
  | CPresence visited, Some client =>
      if bool_decide (client ∈ visited) then None
      else ch ← sm_clients w !! client; Some (set_call i (CPresenceSend (client :: visited) ch) w)
  | CPresence _, None => Some (set_call i CDone w)
  | CPresenceSend visited ch, _ =>
      '(n, closed) ← sm_presence w !! ch;
      Some (panic_if closed (set_call i (CPresence visited)
        (if (n <? presenceCapacity) && negb closed then set_presence (sm_clients w) (<[ch := (S n, closed)]> (sm_presence w)) w else w)))
  | _, _ => None
  end.

Definition call_step (i : nat) (k : Call) (pick : option nat) : option StreamManager :=
  match k with
  | CCreate _ _ | CCreated _ _ _ | CNamed _ _ => create_step i k
  | CAdd _ _ | CAddLocked _ _ _ => add_step i k
  | CRemove _ _ _ | CRemoveLocked _ _ _ _ => remove_step i k
  | CClose _ | CDelete _ => close_step i k
  | CDetach _ | CAttach _ => attach_step i k
  | CSubscribe _ _ | CSSE _ _ | CSSELoad _ _ | CSSERegister _ _ _ | CSSESubscribe _ _ _ _ | CSSEUnlock => subscribe_step i k
  | CCancel _ _ _ _ | CUnregister _ _ => cancel_step i k
  | CBroadcast _ _ | CTargets _ _ _ => broadcast_step i k
  | CPresence _ | CPresenceSend _ _ => presence_step i k pick
  | CDone => None
  end.
End Steps.

(** [HasLiveStreamForSession]; [ActiveMessageForSession] answers one of these, if any. *)
Definition HasLiveStreamForSession (w : StreamManager) (s : string) : bool :=
  match index_set w s with Some ids => negb (bool_decide (ids = ∅)) | None => false end.
Definition live_message (w : StreamManager) (m : string) : bool :=
  match sm_streams w !! m with
  | Some r => match sm_ms w !! r with Some ms => negb (ms_closed ms) | None => false end
  | None => false
  end.
Definition ActiveMessageForSession (w : StreamManager) (s : string) : list string :=
  match index_set w s with Some ids => filter (λ m, live_message w m = true) (elements ids) | None => [] end.

(** ** The system *)

(** The calls a client makes; a cancel belongs to a subscription over SSE. *)
Definition is_entry (w : StreamManager) (k : Call) : bool :=
  match k with
  | CCreate _ _ | CClose _ | CDetach _ | CAttach _ | CSubscribe _ _ | CSSE _ _ | CBroadcast _ _ | CPresence [] => true
  | CCancel m r c conn =>
      match sm_subs w !! c, sm_ms w !! r with
      | Some C, Some ms => bool_decide (sc_stream C = r) && bool_decide (sc_conn C = Some conn) && bool_decide (ms_messageID ms = m)
      | _, _ => false
      end
  | _ => false
  end.

Inductive SEv :=
| Begin (k : Call)
| CallStep (i : nat) (pick : option nat)
| Produce (r : nat) (e : StreamEvent) | CloseProduce (r : nat) | PumpStep (r : nat)
| Read (c : nat)
| RegisterPresenceClient | UnregisterPresenceClient (client : nat) | ReadPresence (ch : nat).

Definition apply (ev : SEv) (w : StreamManager) : option StreamManager :=
  match ev with
  | Begin k => if is_entry w k then Some (set_calls (sm_calls w ++ [k])%list w) else None
  | CallStep i pick => k ← sm_calls w !! i; call_step w i k pick
  | Produce r e => produce w r e
  | CloseProduce r => close_produce w r
  | PumpStep r => pump_step w r
  | Read c => read_step w c
  | RegisterPresenceClient =>
      let ch := length (sm_presence w) in
      Some (set_presence (<[ch := ch]> (sm_clients w)) (sm_presence w ++ [(0, false)])%list w)
  | UnregisterPresenceClient client =>
      Some match sm_clients w !! client with
           | Some ch => set_presence (delete client (sm_clients w)) (alter (λ p, (p.1, true)) ch (sm_presence w)) w
           | None => w
           end
  | ReadPresence ch =>
      '(n, closed) ← sm_presence w !! ch;
      match n with S n => Some (set_presence (sm_clients w) (<[ch := (n, closed)]> (sm_presence w)) w) | O => None end
  end.
Definition step (w : StreamManager) (ev : SEv) (w' : StreamManager) : Prop := apply ev w = Some w'.
Definition reachable (w : StreamManager) : Prop := ∃ evs, steps step NewStreamManager evs w.

(** Runs of given events, and a turn that two tabs read one after the other. *)
Fixpoint run (evs : list SEv) (w : StreamManager) : option StreamManager :=
  match evs with [] => Some w | ev :: evs => w' ← apply ev w; run evs w' end.
Lemma stream_run_steps evs w w' : run evs w = Some w' → steps step w evs w'.
Proof.
  revert w. induction evs as [|ev evs IH]; intros w; cbn; [intros [= <-]; constructor|].
  destruct (apply ev w) as [u|] eqn:E; [|done]. intros H. econstructor; [apply E|by apply IH].
Qed.
Definition after (evs : list SEv) : StreamManager := default NewStreamManager (run evs NewStreamManager).
Lemma stream_after_steps evs : is_Some (run evs NewStreamManager) → steps step NewStreamManager evs (after evs).
Proof. unfold after. intros [w H]. rewrite H. by apply stream_run_steps. Qed.
Definition text (s : string) : StreamEvent := mkEvent "delta" s 0 None None.
Definition two_tabs : list SEv :=
  (let go i n := replicate n (CallStep i None) in
  [Begin (CCreate "m" "s")] ++ go 0 5 ++ [Produce 0 (text "a"); PumpStep 0; PumpStep 0; Begin (CSSE "m" 0)] ++ go 1 5 ++
  [Read 0; Produce 0 (text "b"); PumpStep 0; PumpStep 0; Begin (CSSE "m" 1)] ++ go 2 5 ++ [Read 1])%list.
