(* ===== verification/StreamDelivery.v ===== *)
(** * What the reader of a message receives

    Every subscription of [Streams.v] is sent the gap it has to be told of and then the events
    of its message one after the other; a reader that comes back with its cursor misses
    nothing in silence. *)

From S2P Require Import Prelude Streams.
From stdpp Require Import strings gmap sets sorting.

Open Scope string_scope.
Open Scope nat_scope.
Set Default Proof Using "Type".

(** ** What a subscription is sent *)

(** Events [k + 1] to [k + n] of a stream. *)
Definition seg (L : list StreamEvent) (k n : nat) : list StreamEvent := take n (drop k L).
(** Where the replay to a subscription starts, and the gap it is told of before. *)
Definition replay_start (C : Subscription) : nat :=
  if sc_head C <? sc_from C then sc_head C else Nat.max (sc_from C) (sc_head C - ringBufferCapacity).
Definition told (C : Subscription) : list StreamEvent :=
  if sc_report C then
    if sc_head C <? sc_from C then [gap_event (S (sc_head C)) (sc_from C) "cursor_ahead"]
    else if sc_from C <? replay_start C then [gap_event (S (sc_from C)) (replay_start C) "retention"] else []
  else [].

Definition numbered (L : list StreamEvent) : Prop := ∀ i e, L !! i = Some e → se_EventID e = S i.
Record stream_ok (ms : messageStream) : Prop := {
  so_next : ms_nextID ms = S (length (ms_log ms));
  so_ids : numbered (ms_log ms);
  so_buf : ms_buf ms = drop (length (ms_log ms) - ringBufferCapacity) (ms_log ms);
  so_closed : ms_closed ms = true → ms_subscriber ms = None;
}.
(** [L] is the log of the stream, [live] says that it is the subscriber now. *)
Record sub_ok (C : Subscription) (L : list StreamEvent) (live : Prop) : Prop := {
  su_head : sc_head C ≤ length L;
  su_exact : ∃ n, (sc_seen C ++ sc_queue C)%list = (told C ++ seg L (replay_start C) n)%list ∧
    replay_start C + n ≤ length L ∧ (sc_closed C = false → live ∧ replay_start C + n = length L);
}.

Lemma seg_app L M k n : k + n ≤ length L → seg (L ++ M) k n = seg L k n.
Proof. intros H. unfold seg. rewrite drop_app_le by lia. rewrite take_app_le; [done|]. rewrite length_drop. lia. Qed.
Lemma seg_snoc L e k n : k + n = length L → seg (L ++ [e]) k (S n) = (seg L k n ++ [e])%list.
Proof.
  intros H. unfold seg. rewrite drop_app_le by lia.
  assert (length (drop k L) = n) as Hl by (rewrite length_drop; lia).
  rewrite (take_ge (drop k L) n) by lia. apply take_ge. rewrite length_app. cbn. lia.
Qed.
Lemma seg_rest L k : seg L k (length L - k) = drop k L.
Proof. unfold seg. apply take_ge. rewrite length_drop. lia. Qed.

Lemma numbered_snoc L e : numbered L → se_EventID e = S (length L) → numbered (L ++ [e]).
Proof.
  intros HL He i x Hx. apply lookup_app_Some in Hx as [Hx|[Hi Hx]]; [by apply HL|].
  apply list_lookup_singleton_Some in Hx as [H1 H2]. subst. rewrite He. lia.
Qed.
Lemma filter_ids k j L : numbered L → filter (λ e, k < se_EventID e) (drop j L) = drop (Nat.max k j) L.
Proof.
  intros HL. assert (∀ M j, (∀ i e, M !! i = Some e → se_EventID e = S (j + i)) → filter (λ e, k < se_EventID e) M = drop (k - j) M) as H.
  { induction M as [|e M IH]; intros j0 HM; [by rewrite drop_nil|].
    pose proof (HM 0 e eq_refl) as He. assert (∀ i x, M !! i = Some x → se_EventID x = S (S j0 + i)) as HM'.
    { intros i x Hx. rewrite (HM (S i) x Hx). lia. }
    rewrite filter_cons. destruct (decide (k < se_EventID e)) as [Hk|Hk].
    - rewrite (IH (S j0) HM'). replace (k - j0) with 0 by lia. replace (k - S j0) with 0 by lia. done.
    - rewrite (IH (S j0) HM'). destruct (k - j0) as [|m] eqn:E; [lia|]. cbn. f_equal. lia. }
  rewrite (H (drop j L) j).
  - rewrite drop_drop. f_equal. lia.
  - intros i e. rewrite lookup_drop. intros Hx. by apply HL.
Qed.

Lemma ring_push_ok L e : ring_push (drop (length L - ringBufferCapacity) L) e = drop (length (L ++ [e]) - ringBufferCapacity) (L ++ [e])%list.
Proof.
  unfold ring_push. rewrite length_drop, length_app. cbn [length]. destruct (Nat.leb_spec ringBufferCapacity (length L - (length L - ringBufferCapacity))) as [H|H].
  - replace (length L + 1 - ringBufferCapacity) with (S (length L - ringBufferCapacity)) by (unfold ringBufferCapacity in *; lia).
    rewrite drop_app_le by (unfold ringBufferCapacity in *; lia). f_equal. rewrite <- Nat.add_1_r, <- drop_drop. by destruct (drop _ L).
  - replace (length L - ringBufferCapacity) with 0 by (unfold ringBufferCapacity in *; lia).
    replace (length L + 1 - ringBufferCapacity) with 0 by (unfold ringBufferCapacity in *; lia). done.
Qed.
Lemma head_id L j e M : numbered L → drop j L = e :: M → se_EventID e = S j.
Proof. intros HL H. apply HL. replace j with (j + 0) by lia. rewrite <- lookup_drop, H. done. Qed.

(** A subscription that starts now. *)
Lemma starts_exactly ms from report (C : Subscription) : stream_ok ms →
  sc_from C = from → sc_report C = report → sc_head C = ms_nextID ms - 1 → sc_seen C = [] →
  sc_queue C = ((if report then gap_before ms from else []) ++ replay ms from)%list →
  sc_closed C = true ∨ sc_closed C = false → ∀ live : Prop, (sc_closed C = false → live) → sub_ok C (ms_log ms) live.
Proof.
  intros [Hn Hids Hbuf _] <- <- Hh Hs Hq _ live Hlive. rewrite Hn in Hh. replace (S (length (ms_log ms)) - 1) with (length (ms_log ms)) in Hh by lia.
  split; [lia|]. exists (length (ms_log ms) - replay_start C).
  assert (replay_start C ≤ length (ms_log ms)) as Hr by (unfold replay_start; destruct (Nat.ltb_spec (sc_head C) (sc_from C)); lia).
  split; [|split; [lia|intros Hc; split; [auto|lia]]]. rewrite Hs, Hq, seg_rest. cbn. f_equal.
  - unfold told, gap_before. destruct (sc_report C); [|done]. rewrite Hn, Hh. replace (S (length (ms_log ms)) - 1) with (length (ms_log ms)) by lia.
    destruct (Nat.ltb_spec (length (ms_log ms)) (sc_from C)) as [Hlt|Hge]; [by rewrite Nat.add_1_r|].
    unfold replay_start. rewrite Hh, (proj2 (Nat.ltb_ge _ _) Hge). rewrite Hbuf.
    destruct (drop (length (ms_log ms) - ringBufferCapacity) (ms_log ms)) as [|e M] eqn:E.
    + apply (f_equal length) in E. rewrite length_drop in E. cbn in E.
      destruct (Nat.ltb_spec (sc_from C) (Nat.max (sc_from C) (length (ms_log ms) - ringBufferCapacity))); [|done]. unfold ringBufferCapacity in *; lia.
    + cbn match. rewrite (head_id _ _ _ _ Hids E), Nat.sub_succ, Nat.sub_0_r, Nat.add_1_r.
      destruct (Nat.ltb_spec (sc_from C) (length (ms_log ms) - ringBufferCapacity)) as [H1|H1];
      destruct (Nat.ltb_spec (sc_from C) (Nat.max (sc_from C) (length (ms_log ms) - ringBufferCapacity))) as [H2|H2]; try lia; [|done].
      do 2 f_equal. lia.
  - unfold replay. rewrite Hbuf, (filter_ids _ _ _ Hids). unfold replay_start. rewrite Hh.
    destruct (Nat.ltb_spec (length (ms_log ms)) (sc_from C)); [|done].
    rewrite !drop_ge; [done|lia|lia].
Qed.

(** ** Every subscription is sent what it is owed *)

Record stream_subs_ok (r : nat) (ms : messageStream) (subs : list Subscription) : Prop := {
  ss_stream : stream_ok ms;
  ss_subs : ∀ c C, subs !! c = Some C → sc_stream C = r → sub_ok C (ms_log ms) (ms_subscriber ms = Some c);
  ss_live : ∀ c, ms_subscriber ms = Some c → ∃ C, subs !! c = Some C ∧ sc_stream C = r ∧ sc_closed C = false;
}.
(** The subscriptions of other streams stay. *)
Definition elsewhere (r : nat) (subs subs' : list Subscription) : Prop :=
  ∀ c C, sc_stream C ≠ r → subs' !! c = Some C ↔ subs !! c = Some C.
Lemma elsewhere_refl r subs : elsewhere r subs subs.
Proof. done. Qed.
Lemma elsewhere_insert r subs c C C' : subs !! c = Some C → sc_stream C = r → sc_stream C' = r → elsewhere r subs (<[c := C']> subs).
Proof.
  intros HC H1 H2 d D HD. destruct (decide (d = c)) as [->|Hne]; [|by rewrite list_lookup_insert_ne].
  rewrite list_lookup_insert_eq by (by eapply lookup_lt_Some). split; [by intros [= <-]|]. rewrite HC. by intros [= <-].
Qed.
Lemma elsewhere_snoc r subs C : sc_stream C = r → elsewhere r subs (subs ++ [C]).
Proof.
  intros HC d D HD. split; [|by apply lookup_app_l_Some]. intros H. apply lookup_app_Some in H as [?|[_ H]]; [done|].
  apply list_lookup_singleton_Some in H as [_ <-]. done.
Qed.
Lemma elsewhere_trans r a b c : elsewhere r a b → elsewhere r b c → elsewhere r a c.
Proof. intros H1 H2 d D HD. rewrite (H2 d D HD). by apply H1. Qed.

Lemma sub_ok_weaken C L (P P' : Prop) : (P → P') → sub_ok C L P → sub_ok C L P'.
Proof. intros HP [? (n & ? & ? & Hl)]. split; [done|]. exists n. split_and!; try done. intros Hc. destruct (Hl Hc). auto. Qed.
Lemma sub_ok_closed C L P Q x : sub_ok C L P → sub_ok (sub_closed x C) L Q.
Proof. intros [? (n & ? & ? & _)]. split; [done|]. exists n. by split_and!. Qed.

Lemma elsewhere_alter r subs c C f : subs !! c = Some C → sc_stream C = r → sc_stream (f C) = r → elsewhere r subs (alter f c subs).
Proof.
  intros HC H1 H2 d D HD. destruct (decide (d = c)) as [->|Hne]; [|by rewrite list_lookup_alter_ne].
  rewrite list_lookup_alter_eq, HC. split; intros [= <-]; congruence.
Qed.

Lemma closed_exactly r ms subs t : stream_subs_ok r ms subs →
  stream_subs_ok r (with_subscriber None ms) (closeSubscriber t ms subs) ∧ elsewhere r subs (closeSubscriber t ms subs) ∧
  length (closeSubscriber t ms subs) = length subs.
Proof.
  intros [Hs Hsub Hlive]. unfold closeSubscriber.
  assert (stream_ok (with_subscriber None ms)) as Hs' by (destruct Hs; by split).
  destruct (ms_subscriber ms) as [c|] eqn:Ec.
  - destruct (Hlive c eq_refl) as (C & HC & HCr & Hopen). split_and!; [|by eapply elsewhere_alter|apply length_alter].
    split; [done| |done]. intros d D HD HDr. destruct (decide (d = c)) as [->|Hne].
    + rewrite list_lookup_alter_eq, HC in HD. injection HD as [= <-]. eapply sub_ok_closed. by apply (Hsub c).
    + rewrite list_lookup_alter_ne in HD by done. pose proof (Hsub d D HD HDr) as H. revert H. apply sub_ok_weaken. congruence.
  - split; [|done]. split; [done| |done]. intros d D HD HDr. pose proof (Hsub d D HD HDr) as H. revert H. apply sub_ok_weaken. done.
Qed.

(** The stream grows by an event that its subscriber does not get. *)
Lemma sub_ok_grows C L M P : sub_ok C L P → ¬ P → sub_ok C (L ++ M) P.
Proof.
  intros [Hh (n & He & Hn & Hl)] HP. split; [rewrite length_app; lia|]. exists n. rewrite seg_app by done. split_and!; try done.
  - rewrite length_app. lia.
  - intros Hc. by destruct (Hl Hc).
Qed.
Definition numbered_event (e : StreamEvent) (ms : messageStream) : StreamEvent := with_id (ms_nextID ms) (with_termination e).
Definition pushed (e : StreamEvent) (ms : messageStream) : messageStream :=
  mkMessageStream (ms_messageID ms) (ms_sessionID ms) (ms_produce ms) (ms_produceClosed ms) PIdle
    (ring_push (ms_buf ms) (numbered_event e ms)) (S (ms_nextID ms)) (ms_subscriber ms) (ms_closed ms) (ms_log ms ++ [numbered_event e ms])%list.
Lemma pushed_ok e ms : stream_ok ms → stream_ok (pushed e ms).
Proof.
  intros [Hn Hids Hbuf Hc]. split; cbn; [rewrite Hn, length_app; cbn; lia|by apply numbered_snoc| |done].
  rewrite Hbuf. apply ring_push_ok.
Qed.
Lemma pump_event_eq e ms subs : pump_event e ms subs =
  match ms_subscriber ms with
  | Some c =>
      match subs !! c with
      | Some C =>
          if length (sc_queue C) <? sc_cap C then (pushed e ms, <[c := with_queue (sc_queue C ++ [numbered_event e ms])%list C]> subs)
          else closeSubscriberLocked (mkTermination "slow_consumer" "" true) (pushed e ms) subs
      | None => (pushed e ms, subs)
      end
  | None => (pushed e ms, subs)
  end.
Proof. done. Qed.
Lemma pump_event_ok r e ms subs ms' subs' : stream_subs_ok r ms subs → pump_event e ms subs = (ms', subs') →
  stream_subs_ok r ms' subs' ∧ elsewhere r subs subs'.
Proof.
  intros [Hs Hsub Hlive]. rewrite pump_event_eq. pose proof (pushed_ok e ms Hs) as Hp.
  assert (∀ c C, subs !! c = Some C → sc_stream C = r → ms_subscriber ms ≠ Some c → sub_ok C (ms_log (pushed e ms)) (ms_subscriber ms = Some c)) as Hother
    by (intros c C HC HCr Hne; apply sub_ok_grows; auto).
  destruct (ms_subscriber ms) as [c|] eqn:Ec.
  - destruct (Hlive c eq_refl) as (C & HC & HCr & Hopen). rewrite HC. destruct (Hsub c C HC HCr) as [Hh (n & He & Hn & Hl)].
    destruct (Hl Hopen) as [_ Hfull]. destruct (length (sc_queue C) <? sc_cap C); intros [= <- <-].
    + split; [|by eapply elsewhere_insert]. split; [done| |].
      * intros d D HD HDr. cbn. rewrite Ec. destruct (decide (d = c)) as [->|Hne].
        -- rewrite list_lookup_insert_eq in HD by (by eapply lookup_lt_Some). injection HD as [= <-]. split; [cbn; rewrite length_app; lia|].
           exists (S n). cbn. change (replay_start _) with (replay_start C). change (told _) with (told C).
           rewrite seg_snoc by done. rewrite app_assoc, He, app_assoc. split_and!; [done|rewrite length_app; cbn; lia|].
           intros _. split; [done|]. rewrite length_app. cbn. lia.
        -- rewrite list_lookup_insert_ne in HD by done. apply Hother; auto. congruence.
      * intros d Hd. cbn in Hd. rewrite Ec in Hd. injection Hd as <-. exists (with_queue (sc_queue C ++ [numbered_event e ms])%list C).
        rewrite list_lookup_insert_eq by (by eapply lookup_lt_Some). done.
    + assert (elsewhere r subs (closeSubscriber (mkTermination "slow_consumer" "" true) (pushed e ms) subs)) as Hel
        by (unfold closeSubscriber; cbn; rewrite Ec; by eapply elsewhere_alter).
      split; [|done]. split; [destruct Hp; by split| |done]. intros d D HD HDr. unfold closeSubscriber in HD. cbn in HD |- *. rewrite Ec in HD.
      destruct (decide (d = c)) as [->|Hne].
      * rewrite list_lookup_alter_eq, HC in HD. injection HD as [= <-]. split; [cbn; rewrite length_app; lia|]. exists n. cbn.
        change (replay_start _) with (replay_start C). change (told _) with (told C). rewrite seg_app by lia.
        split_and!; [done|rewrite length_app; lia|done].
      * rewrite list_lookup_alter_ne in HD by done. specialize (Hother d D HD HDr). revert Hother. intros H. eapply sub_ok_weaken; [|apply H]; congruence.
  - intros [= <- <-]. split; [|done]. split; [done| |].
    + intros d D HD HDr. cbn. rewrite Ec. by apply Hother.
    + intros d. cbn. by rewrite Ec.
Qed.
Lemma pump_end_ok r ms subs ms' subs' : stream_subs_ok r ms subs → pump_end ms subs = (ms', subs') →
  stream_subs_ok r ms' subs' ∧ elsewhere r subs subs'.
Proof.
  intros Hok [= <- <-]. destruct (closed_exactly r ms subs (mkTermination "producer_closed" "" false) Hok) as ([[] H2 H3] & He & _).
  change (closeSubscriber _ (at_pump PStopped (stream_closed ms)) subs) with (closeSubscriber (mkTermination "producer_closed" "" false) ms subs).
  split; [|done]. split; [by split|done|done].
Qed.
Lemma cancel_ok r c ms subs ms' subs' : stream_subs_ok r ms subs →
  (if bool_decide (ms_subscriber ms = Some c) then closeSubscriberLocked (mkTermination "observer_detached" "" true) ms subs else (ms, subs)) = (ms', subs') →
  stream_subs_ok r ms' subs' ∧ elsewhere r subs subs'.
Proof.
  intros Hok. case_bool_decide; intros [= <- <-]; [|done].
  destruct (closed_exactly r ms subs (mkTermination "observer_detached" "" true) Hok) as (? & ? & _). done.
Qed.
Lemma subscribe_ok r from report conn ms subs ms' subs' : stream_subs_ok r ms subs →
  subscribeTransport r from report conn ms subs = (ms', subs') → stream_subs_ok r ms' subs' ∧ elsewhere r subs subs'.
Proof.
  intros Hok. pose proof Hok as [Hs Hsub Hlive]. unfold subscribeTransport. set (out := (_ ++ replay ms from)%list).
  set (C := mkSubscription r from report (ms_nextID ms - 1) conn (outCap ms) out false None []).
  destruct (ms_closed ms) eqn:Ec.
  - intros [= <- <-]. split; [|by apply elsewhere_snoc]. split; [done| |].
    + intros d D HD HDr. apply lookup_app_Some in HD as [HD|[_ HD]]; [by apply Hsub|].
      apply list_lookup_singleton_Some in HD as [_ <-]. apply (starts_exactly ms from report); auto. done.
    + intros d. rewrite (so_closed _ Hs Ec). done.
  - destruct (closed_exactly r ms subs (mkTermination "session_takeover" "" false) Hok) as ([H1 H2 H3] & He & Hlen).
    unfold closeSubscriberLocked. intros [= <- <-]. split; [|eapply elsewhere_trans; [apply He|by apply elsewhere_snoc]].
    split.
    + destruct Hs. split; try done. cbn. congruence.
    + intros d D HD HDr. cbn. apply lookup_app_Some in HD as [HD|[Hd HD]].
      * pose proof (H2 d D HD HDr) as H. eapply sub_ok_weaken; [|apply H]. done.
      * apply list_lookup_singleton_Some in HD as [Hd' <-]. apply (starts_exactly ms from report); auto. intros _. f_equal. lia.
    + intros d [= <-]. exists C. rewrite lookup_app_r, Hlen, Nat.sub_diag by lia. done.
Qed.

Record streams_ok (w : StreamManager) : Prop := {
  wo_stream : ∀ r ms, sm_ms w !! r = Some ms → stream_subs_ok r ms (sm_subs w);
  wo_sub : ∀ c C, sm_subs w !! c = Some C → is_Some (sm_ms w !! sc_stream C);
}.
Definition same_streams (w w' : StreamManager) : Prop := sm_ms w' = sm_ms w ∧ sm_subs w' = sm_subs w.
Lemma same_streams_ok w w' : same_streams w w' → streams_ok w → streams_ok w'.
Proof. intros [H1 H2] [Ha Hb]. split; rewrite H1, H2; done. Qed.

Lemma elsewhere_ok r r' ms subs subs' : r' ≠ r → elsewhere r subs subs' → stream_subs_ok r' ms subs → stream_subs_ok r' ms subs'.
Proof.
  intros Hne He [Hs Hsub Hlive]. split; [done| |].
  - intros c C HC HCr. apply Hsub; [|done]. apply He; [congruence|done].
  - intros c Hc. destruct (Hlive c Hc) as (C & HC & HCr & ?). exists C. split; [|done]. apply He; [congruence|done].
Qed.
Lemma stream_moves w r ms ms' subs' : streams_ok w → sm_ms w !! r = Some ms → stream_subs_ok r ms' subs' → elsewhere r (sm_subs w) subs' →
  streams_ok (set_ms_subs (<[r := ms']> (sm_ms w)) subs' w).
Proof.
  intros [Hw Hsub] Hms Hok He. split; cbn.
  - intros x X HX. destruct (decide (x = r)) as [->|Hne].
    + rewrite list_lookup_insert_eq in HX by (by eapply lookup_lt_Some). by injection HX as [= <-].
    + rewrite list_lookup_insert_ne in HX by done. eapply elsewhere_ok; eauto.
  - intros c C HC. destruct (decide (sc_stream C = r)) as [->|Hne].
    + rewrite list_lookup_insert_eq by (by eapply lookup_lt_Some). by eexists.
    + rewrite list_lookup_insert_ne by done. apply (Hsub c). by apply He.
Qed.
Lemma with_stream_ok w r f : streams_ok w →
  (∀ ms ms' subs', stream_subs_ok r ms (sm_subs w) → f ms (sm_subs w) = (ms', subs') → stream_subs_ok r ms' subs' ∧ elsewhere r (sm_subs w) subs') →
  streams_ok (with_stream w r f).
Proof.
  intros HW Hf. unfold with_stream. destruct (sm_ms w !! r) as [ms|] eqn:Hms; [|done].
  destruct (f ms (sm_subs w)) as [ms' subs'] eqn:E. destruct (Hf ms ms' subs' (wo_stream _ HW r ms Hms) E). by eapply stream_moves.
Qed.
(** What the producer and the pump's receive change does not matter here. *)
Lemma stream_set_ok w r ms ms' : streams_ok w → sm_ms w !! r = Some ms →
  (ms_log ms', ms_buf ms', ms_nextID ms', ms_subscriber ms', ms_closed ms') = (ms_log ms, ms_buf ms, ms_nextID ms, ms_subscriber ms, ms_closed ms) →
  streams_ok (set_ms (<[r := ms']> (sm_ms w)) w).
Proof.
  intros HW Hms [= H1 H2 H3 H4 H5]. apply (same_streams_ok (set_ms_subs (<[r := ms']> (sm_ms w)) (sm_subs w) w)); [done|].
  eapply stream_moves; [done|done| |apply elsewhere_refl]. destruct (wo_stream _ HW r ms Hms) as [[] Hsub Hlive].
  split; [split; rewrite ?H1, ?H2, ?H3, ?H4, ?H5; auto| |]; rewrite ?H1, ?H4; auto.
Qed.

Lemma read_ok w c w' : streams_ok w → read_step w c = Some w' → streams_ok w'.
Proof.
  intros HW Hr. unfold read_step in Hr. destruct (sm_subs w !! c) as [C|] eqn:HC; [|done]. cbn in Hr.
  destruct (sc_queue C) as [|e rest] eqn:Eq; [done|]. injection Hr as <-. set (C' := sub_read rest (sc_seen C ++ [e])%list C).
  assert (∀ L P, sub_ok C L P → sub_ok C' L P) as Hsame.
  { intros L P [Hh (n & He & Hn)]. split; [done|]. exists n. split; [|done]. cbn. rewrite <- app_assoc. rewrite Eq in He. done. }
  destruct (wo_sub _ HW c C HC) as [ms Hms].
  pose proof (wo_stream _ HW _ ms Hms) as [Hs Hsub Hlive].
  assert (elsewhere (sc_stream C) (sm_subs w) (<[c := C']> (sm_subs w))) as He by by eapply elsewhere_insert.
  apply (same_streams_ok (set_ms_subs (<[sc_stream C := ms]> (sm_ms w)) (<[c := C']> (sm_subs w)) w)); [split; cbn; [by rewrite list_insert_id|done]|].
  eapply stream_moves; [done|done| |done]. split; [done| |].
  - intros d D HD HDr. destruct (decide (d = c)) as [->|Hne].
    + rewrite list_lookup_insert_eq in HD by (by eapply lookup_lt_Some). injection HD as [= <-]. apply Hsame. by apply (Hsub c).
    + rewrite list_lookup_insert_ne in HD by done. by apply Hsub.
  - intros d Hd. destruct (Hlive d Hd) as (D & HD & ?). destruct (decide (d = c)) as [->|Hne].
    + exists C'. rewrite list_lookup_insert_eq by (by eapply lookup_lt_Some). rewrite HC in HD. by injection HD as [= <-].
    + exists D. by rewrite list_lookup_insert_ne.
Qed.
Lemma created_ok w m s : streams_ok w → streams_ok (set_ms (sm_ms w ++ [newMessageStream m s])%list w).
Proof.
  intros [Hw Hsub]. split; cbn.
  - intros r ms Hr. apply lookup_app_Some in Hr as [Hr|[Hr Hms]]; [by apply Hw|]. apply list_lookup_singleton_Some in Hms as [Hr' <-].
    split; [split; cbn; try done; by intros i e|intros c C HC HCr|done].
    destruct (Hsub c C HC) as [X HX]. apply lookup_lt_Some in HX. rewrite HCr in HX. lia.
  - intros c C HC. destruct (Hsub c C HC) as [X HX]. exists X. by apply lookup_app_l_Some.
Qed.

Lemma call_ok w i k pick w' : streams_ok w → call_step w i k pick = Some w' → streams_ok w'.
Proof.
  intros HW Hk. assert (∀ u, same_streams w u → streams_ok u) as Hsame by (intros u Hu; by eapply same_streams_ok).
  assert (∀ r f x, streams_ok (with_stream w r f) → streams_ok (set_call i x (with_stream w r f))) as Hset by (intros r f x; by apply same_streams_ok).
  destruct k; cbn in Hk; try (simplify_eq; by apply Hsame); try (repeat case_match; simplify_eq; by apply Hsame).
  - simplify_eq. eapply same_streams_ok; [|by apply (created_ok w m s)]. done.
  - destruct (sm_sets w !! ss); simplify_eq/=. by apply Hsame.
  - simplify_eq. destruct (sm_streams w !! m) as [r|]; [|by apply Hsame]. apply Hset, with_stream_ok; [done|].
    intros ms ms' subs' Hok E. by eapply subscribe_ok.
  - simplify_eq. apply Hset, with_stream_ok; [done|]. intros x ms' subs' Hok E. by eapply subscribe_ok.
  - simplify_eq. apply Hset, with_stream_ok; [done|]. intros x ms' subs' Hok E. by eapply cancel_ok.
  - simplify_eq. apply Hsame. unfold UnregisterSSE. by case_bool_decide.
  - destruct l as [|m l]; [simplify_eq; by apply Hsame|]. destruct (sm_streams w !! m) as [r|]; [|simplify_eq; by apply Hsame].
    destruct (sm_ms w !! r) as [ms|] eqn:Hms; [|done]. cbn in Hk. destruct (trySendEnvelope ms); simplify_eq; try (by apply Hsame).
    eapply same_streams_ok; [|eapply stream_set_ok; [apply HW|apply Hms|]]; done.
  - destruct pick; [|simplify_eq; by apply Hsame]. case_bool_decide; [done|]. destruct (sm_clients w !! n); simplify_eq/=. by apply Hsame.
  - destruct (sm_presence w !! ch) as [[n closed]|]; simplify_eq/=. apply Hsame. by case_match.
Qed.
Lemma step_ok w ev w' : streams_ok w → step w ev w' → streams_ok w'.
Proof.
  intros HW Hs. unfold step, Streams.apply in Hs. assert (∀ u, same_streams w u → streams_ok u) as Hsame by (intros u Hu; by eapply same_streams_ok).
  destruct ev as [k|i pick|r e|r|r|c| |client|ch].
  - case_match; simplify_eq. by apply Hsame.
  - destruct (sm_calls w !! i); [|done]. by eapply call_ok.
  - unfold produce in Hs. destruct (sm_ms w !! r) as [ms|] eqn:Hms; [|done]. cbn in Hs. repeat case_match; simplify_eq; [by apply Hsame|].
    by eapply stream_set_ok.
  - unfold close_produce in Hs. destruct (sm_ms w !! r) as [ms|] eqn:Hms; simplify_eq/=.
    eapply same_streams_ok; [|eapply (stream_set_ok w r ms (produce_closed ms))]; done.
  - unfold pump_step in Hs. destruct (sm_ms w !! r) as [ms|] eqn:Hms; [|done]. cbn in Hs.
    destruct (ms_pump ms); [destruct (ms_produce ms); [case_match|]|..]; simplify_eq; try (by eapply stream_set_ok).
    + apply with_stream_ok; [done|]. intros x ms' subs' Hok E. by eapply pump_event_ok.
    + apply with_stream_ok; [done|]. intros x ms' subs' Hok E. by eapply pump_end_ok.
  - by eapply read_ok.
  - simplify_eq. by apply Hsame.
  - simplify_eq. apply Hsame. by case_match.
  - destruct (sm_presence w !! ch) as [[n closed]|]; [|done]. cbn in Hs. case_match; simplify_eq. by apply Hsame.
Qed.
Lemma streams_reachable_ok w : reachable w → streams_ok w.
Proof.
  intros [evs H]. apply (steps_invariant step streams_ok _ _ _ (λ a l b Hs Ha, step_ok a l b Ha Hs) H). by split.
Qed.

(** C8. A subscription is sent exactly what it is owed: what its reader has and will find is the
    gap it has to be told of, if any, then the events of the message one after the other
    from its cursor or from the oldest one kept, none missing and none twice; while it is
    open they reach to the newest event. *)
Theorem subscription_is_exact w c C ms :
  reachable w → sm_subs w !! c = Some C → sm_ms w !! sc_stream C = Some ms →
  ∃ n, (sc_seen C ++ sc_queue C)%list = (told C ++ take n (drop (replay_start C) (ms_log ms)))%list ∧
    numbered (ms_log ms) ∧ replay_start C + n ≤ length (ms_log ms) ∧
    (sc_closed C = false → replay_start C + n = length (ms_log ms)).
Proof.
  intros HR HC Hms. destruct (wo_stream _ (streams_reachable_ok w HR) _ ms Hms) as [Hs Hsub _].
  destruct (Hsub c C HC eq_refl) as [_ (n & He & Hn & Hl)]. exists n. split_and!; try done; [by apply so_ids|]. intros Hc. by destruct (Hl Hc).
Qed.
Lemma subscription_is_exact_witness :
  ∃ C ms n, sm_subs (after two_tabs) !! 0 = Some C ∧
    (sc_seen C ++ sc_queue C)%list = (told C ++ take n (drop (replay_start C) (ms_log ms)))%list.
Proof.
  do 2 eexists. assert (reachable (after two_tabs)) as Hr by (exists two_tabs; apply stream_after_steps; vm_compute; by eexists).
  edestruct (subscription_is_exact (after two_tabs) 0) as (n & Hn & _); [exact Hr|vm_compute; reflexivity|vm_compute; reflexivity|].
  exists n. split; [vm_compute; reflexivity|exact Hn].
Defined.

(** ** A reader that comes back *)

(** The last event a reader was written ([lastWritten] of [streamMessageEvents]). *)
Definition lastWritten (l : list StreamEvent) : nat := foldl (λ last e, if 0 <? se_EventID e then se_EventID e else last) 0 l.
Definition cursor_after (C : Subscription) : nat := resume_cursor (sc_from C) (lastWritten (sc_seen C)).
(** One reader after the other on stream [r], each with the cursor the one before left. *)
Fixpoint comes_back (w : StreamManager) (r from : nat) (cs : list Subscription) (last : nat) : Prop :=
  match cs with
  | [] => last = from
  | C :: cs =>
      C ∈ sm_subs w ∧ sc_stream C = r ∧ sc_report C = true ∧ sc_from C = from ∧ from ≤ sc_head C ∧
      comes_back w r (cursor_after C) cs last
  end.
Definition seen_all (cs : list Subscription) : list StreamEvent := concat (sc_seen <$> cs).
Definition event_ids (l : list StreamEvent) : list nat := filter (λ i, 0 < i) (se_EventID <$> l).
Definition reported (l : list StreamEvent) (i : nat) : Prop :=
  ∃ e g, e ∈ l ∧ se_EventID e = 0 ∧ se_Gap e = Some g ∧ gap_From g ≤ i ≤ gap_To g.

Lemma lastWritten_snoc l e : 0 < se_EventID e → lastWritten (l ++ [e]) = se_EventID e.
Proof. intros H. unfold lastWritten. rewrite foldl_app. cbn. by destruct (se_EventID e); [lia|]. Qed.
Lemma seg_ids L k n : numbered L → k + n ≤ length L → se_EventID <$> seg L k n = seq (S k) n.
Proof.
  intros HL Hn. apply list_eq. intros i. unfold seg. rewrite list_lookup_fmap, lookup_take. destruct (decide (i < n)) as [Hi|Hi].
  - rewrite lookup_drop, lookup_seq_lt by done. destruct (lookup_lt_is_Some_2 L (k + i)) as [e He]; [lia|]. rewrite He. cbn. f_equal.
    rewrite (HL _ _ He). lia.
  - cbn. symmetry. apply lookup_seq_ge. lia.
Qed.
Lemma seg_last L k n : numbered L → k + n ≤ length L → 0 < n → lastWritten (seg L k n) = k + n.
Proof.
  intros HL Hn Hpos. destruct n as [|n]; [lia|]. destruct (lookup_lt_is_Some_2 L (k + n)) as [e He]; [lia|].
  unfold seg. rewrite (take_S_r _ _ e) by (by rewrite lookup_drop). rewrite lastWritten_snoc; rewrite (HL _ _ He); lia.
Qed.
Lemma seq_positive k n : filter (λ i, 0 < i) (seq (S k) n) = seq (S k) n.
Proof. revert k. induction n as [|n IH]; intros k; [done|]. cbn [seq]. rewrite filter_cons_True by lia. by rewrite IH. Qed.
Lemma seq_sorted k n : StronglySorted lt (seq k n).
Proof. revert k. induction n as [|n IH]; intros k; cbn; constructor; [done|]. apply Forall_forall. intros x Hx%elem_of_seq. lia. Qed.

(** What one reader has seen. *)
Lemma one_reader w r C ms from : reachable w → C ∈ sm_subs w → sc_stream C = r → sc_report C = true → sc_from C = from → from ≤ sc_head C →
  sm_ms w !! r = Some ms → ∃ k n, from ≤ k ∧ k + n ≤ length (ms_log ms) ∧ (n = 0 → cursor_after C = from) ∧
    (0 < n → cursor_after C = k + n ∧ ∀ i, from < i ≤ k → reported (sc_seen C) i) ∧
    (∀ i, k < i ≤ k + n → ∃ e, e ∈ sc_seen C ∧ ms_log ms !! (i - 1) = Some e) ∧ event_ids (sc_seen C) = seq (S k) n.
Proof.
  intros HR HC <- Hrep <- Hle Hms. apply list_elem_of_lookup_1 in HC as [c HC].
  destruct (wo_stream _ (streams_reachable_ok w HR) _ ms Hms) as [Hs Hsub _]. destruct (Hsub c C HC eq_refl) as [Hh (n & He & Hn & _)].
  pose proof (so_ids _ Hs) as Hids. set (k := replay_start C) in *.
  assert (sc_from C ≤ k) as Hk by (unfold k, replay_start; rewrite (proj2 (Nat.ltb_ge _ _) Hle); lia).
  assert (told C = [] ∧ sc_from C = k ∨ told C = [gap_event (S (sc_from C)) k "retention"]) as Htold.
  { unfold told. rewrite Hrep, (proj2 (Nat.ltb_ge _ _) Hle). fold k. destruct (Nat.ltb_spec (sc_from C) k); [by right|left; split; [done|lia]]. }
  assert (∃ m, m ≤ n ∧ (sc_seen C = [] ∧ m = 0 ∨ sc_seen C = (told C ++ seg (ms_log ms) k m)%list)) as (m & Hm & Hseen).
  { apply (f_equal (take (length (sc_seen C)))) in He. rewrite take_app_length in He.
    destruct Htold as [[Ht _]|Ht]; rewrite Ht in He |- *; cbn in He.
    - exists (length (sc_seen C) `min` n). split; [lia|]. right. unfold seg in He. by rewrite take_take in He.
    - destruct (sc_seen C) as [|e l]; [exists 0; split; [lia|by left]|]. exists (length l `min` n). split; [lia|].
      right. cbn in He. unfold seg in He |- *. rewrite take_take in He. by rewrite He. }
  exists k, m. assert (event_ids (sc_seen C) = seq (S k) m) as Hev.
  { destruct Hseen as [[-> ->]| ->]; [done|]. unfold event_ids. rewrite fmap_app, filter_app, seg_ids, seq_positive by (done || lia).
    by destruct Htold as [[-> _]| ->]. }
  assert (0 < m → lastWritten (sc_seen C) = k + m) as Hlast.
  { intros Hpos. destruct Hseen as [[_ ->]| ->]; [lia|]. rewrite <- (seg_last (ms_log ms) k m) by (done || lia).
    destruct Htold as [[-> _]| ->]; [done|]. done. }
  split_and!; try done; try lia.
  - intros ->. unfold cursor_after, resume_cursor. enough (lastWritten (sc_seen C) = 0) by lia.
    destruct Hseen as [[-> _]| ->]; [done|]. unfold seg. cbn. rewrite app_nil_r. by destruct Htold as [[-> _]| ->].
  - intros Hpos. split; [unfold cursor_after, resume_cursor; rewrite Hlast by done; lia|]. intros i Hi.
    destruct Htold as [[_ ?]|Ht]; [lia|]. destruct Hseen as [[_ ->]|Hseen]; [lia|].
    exists (gap_event (S (sc_from C)) k "retention"), (mkGap (S (sc_from C)) k "retention"). rewrite Hseen, Ht.
    cbn [gap_From gap_To]. split; [apply elem_of_cons; by left|]. split; [done|]. split; [done|]. lia.
  - intros i Hi. destruct (lookup_lt_is_Some_2 (ms_log ms) (i - 1)) as [e Hei]; [lia|]. exists e. split; [|done].
    destruct Hseen as [[_ ->]| ->]; [lia|]. apply elem_of_app. right. apply (list_elem_of_lookup_2 _ (i - 1 - k)).
    unfold seg. rewrite lookup_take_lt, lookup_drop by lia. by replace (k + (i - 1 - k)) with (i - 1) by lia.
Qed.

Lemma event_ids_app l l' : event_ids (l ++ l') = (event_ids l ++ event_ids l')%list.
Proof. unfold event_ids. by rewrite fmap_app, filter_app. Qed.
Lemma reported_app l l' i : reported l i ∨ reported l' i → reported (l ++ l') i.
Proof. intros [(e & g & He & ?)|(e & g & He & ?)]; exists e, g; (split; [apply elem_of_app; auto|done]). Qed.

(** C9. A reader that comes back with its cursor misses nothing in silence: over any number of
    connections to a message, broken off anywhere, every event up to its last cursor was
    written to it or lies in a gap it was told of, and no event was written twice or out of
    order. *)
Theorem returning_reader_misses_nothing w r ms from cs last :
  reachable w → sm_ms w !! r = Some ms → comes_back w r from cs last →
  (∀ i, from < i ≤ last → (∃ e, e ∈ seen_all cs ∧ ms_log ms !! (i - 1) = Some e) ∨ reported (seen_all cs) i) ∧
  StronglySorted lt (event_ids (seen_all cs)) ∧ Forall (λ i, from < i ≤ last) (event_ids (seen_all cs)) ∧ from ≤ last.
Proof.
  intros HR Hms. revert from. induction cs as [|C cs IH]; intros from; cbn [comes_back].
  { intros ->. split_and!; [lia|constructor|constructor|lia]. }
  intros (HC & HCr & Hrep & Hfrom & Hle & Hback).
  destruct (one_reader w r C ms from HR HC HCr Hrep Hfrom Hle Hms) as (k & n & Hk & Hn & H0 & Hpos & Hev & Hids).
  destruct (IH _ Hback) as (Hall & Hsort & Hgt & Hlast).
  assert (seen_all (C :: cs) = sc_seen C ++ seen_all cs)%list as -> by done. rewrite event_ids_app, Hids.
  assert (from ≤ cursor_after C ∧ k + n ≤ Nat.max k (cursor_after C)) as [Hc Hc'] by (destruct (decide (n = 0)) as [->|]; [rewrite H0 by done; lia|destruct Hpos; lia]).
  split_and!.
  - intros i Hi. destruct (decide (i ≤ cursor_after C)) as [Hic|Hic].
    + destruct (decide (n = 0)) as [->|Hn0]; [rewrite H0 in Hic by done; lia|]. destruct Hpos as [Hcur Hrp]; [lia|].
      destruct (decide (i ≤ k)); [right; apply reported_app; left; apply Hrp; lia|].
      destruct (Hev i) as (e & He & Hlog); [lia|]. left. exists e. split; [apply elem_of_app; by left|done].
    + destruct (Hall i) as [(e & He & ?)|?]; [lia|left; exists e; split; [apply elem_of_app; by right|done]|right; apply reported_app; by right].
  - apply StronglySorted_app_2; [|apply seq_sorted|done]. intros x y Hx%elem_of_seq Hy. rewrite Forall_forall in Hgt. destruct (Hgt y Hy).
    destruct (decide (n = 0)); [lia|]. destruct Hpos; lia.
  - apply Forall_app. split; [|eapply Forall_impl; [apply Hgt|]; cbn; lia]. apply Forall_forall. intros x Hx%elem_of_seq.
    destruct (decide (n = 0)); [lia|]. destruct Hpos; lia.
  - lia.
Qed.
Lemma returning_reader_misses_nothing_witness :
  StronglySorted lt (event_ids (seen_all (sm_subs (after two_tabs)))) ∧ event_ids (seen_all (sm_subs (after two_tabs))) = [1; 2].
Proof.
  split; [|vm_compute; reflexivity].
  eapply (returning_reader_misses_nothing (after two_tabs) 0 _ 0 (sm_subs (after two_tabs)) 2);
    [exists two_tabs; apply stream_after_steps; vm_compute; by eexists|vm_compute; reflexivity|].
  remember (after two_tabs) as w eqn:E. vm_compute in E. subst w. cbn [comes_back sm_subs].
  split_and!; try reflexivity; try (apply elem_of_cons; by left); [cbn; lia|apply elem_of_cons; right; apply elem_of_cons; by left|cbn; lia].
Defined.
