(* ===== verification/StreamTakeover.v ===== *)
(** * Takeovers and panics of the stream manager

    A browser whose message another tab takes over is told so before its events end; of the
    channels of the manager only that of a presence client can be sent to after its close. *)

From S2P Require Import Prelude Streams StreamDelivery.
From stdpp Require Import strings gmap sets.

Open Scope string_scope.
Open Scope nat_scope.
Set Default Proof Using "Type".

(** ** A takeover is told *)

(** What [streamMessageEvents] writes when its events end: the kind of each event, its
    termination and the cursor to resume after. *)
Definition at_eof (takeover failed : bool) (lastWritten : nat) (end_ : StreamTermination) : list (string * option (StreamTermination * nat)) :=
  if takeover then [("session_takeover", None); ("stream_closed", Some (mkTermination "session_takeover" "" false, lastWritten))]
  else if String.eqb (stm_Reason end_) "producer_closed"
  then [("stream_end", Some (mkTermination "producer_closed" (if failed then "error" else "unknown") (stm_Retryable end_), 0))]
  else [("stream_closed", Some (end_, lastWritten))].

Definition sse_only (ev : SEv) : Prop := ∀ m from, ev ≠ Begin (CSubscribe m from).
Definition taken_over (C : Subscription) : Prop := ∃ t, sc_closure C = Some t ∧ stm_Reason t = "session_takeover".
Definition stream_named (w : StreamManager) (r : nat) (m : string) : Prop := ∃ ms, sm_ms w !! r = Some ms ∧ ms_messageID ms = m.

(** What the program counter of call [i] says. *)
Definition pc_ok (w : StreamManager) (i : nat) (k : Call) : Prop :=
  match k with
  | CSubscribe _ _ => False
  | CSSELoad _ _ | CSSEUnlock => sm_sseMu w = Some i
  | CSSERegister m _ r => sm_sseMu w = Some i ∧ stream_named w r m
  | CSSESubscribe m _ r d =>
      sm_sseMu w = Some i ∧ stream_named w r m ∧ sm_messageSSE w !! m = Some d ∧ ∀ c C, sm_subs w !! c = Some C → sc_conn C ≠ Some d
  | CCancel m r c d => ∃ C, sm_subs w !! c = Some C ∧ sc_conn C = Some d ∧ sc_stream C = r ∧ stream_named w r m
  | CUnregister m d => ∃ c C, sm_subs w !! c = Some C ∧ sc_conn C = Some d ∧ sc_closed C = true
  | _ => True
  end.
Record sse_ok (w : StreamManager) : Prop := {
  eo_named : ∀ m r, sm_streams w !! m = Some r → stream_named w r m;
  eo_conn : ∀ c C d, sm_subs w !! c = Some C → sc_conn C = Some d → d < length (sm_conns w);
  eo_once : ∀ c c' C C' d, sm_subs w !! c = Some C → sm_subs w !! c' = Some C' → sc_conn C = Some d → sc_conn C' = Some d → c = c';
  eo_current : ∀ m d, sm_messageSSE w !! m = Some d → sm_conns w !! d = Some false;
  eo_own : ∀ m m' d, sm_messageSSE w !! m = Some d → sm_messageSSE w !! m' = Some d → m = m';
  eo_live : ∀ r ms c C, sm_ms w !! r = Some ms → ms_subscriber ms = Some c → sm_subs w !! c = Some C → ∃ d, sc_conn C = Some d ∧
    (sm_conns w !! d = Some true ∨ sm_messageSSE w !! ms_messageID ms = Some d);
  eo_taken : ∀ c C, sm_subs w !! c = Some C → taken_over C → ∃ d, sc_conn C = Some d ∧ sm_conns w !! d = Some true;
}.
Record takeover_ok (w : StreamManager) : Prop := {
  to_streams : streams_ok w;
  to_sse : sse_ok w;
  to_calls : ∀ i k, sm_calls w !! i = Some k → pc_ok w i k;
}.

(** Subscriptions keep their connection and their stream, and stay closed. *)
Definition sub_kept (C C' : Subscription) : Prop :=
  sc_conn C' = sc_conn C ∧ sc_stream C' = sc_stream C ∧ (sc_closed C = true → sc_closed C' = true).
Definition subs_kept (subs subs' : list Subscription) : Prop := ∀ c C, subs !! c = Some C → ∃ C', subs' !! c = Some C' ∧ sub_kept C C'.
(** A step that nobody is taken over by and that leaves the connections alone. *)
Record calm (w w' : StreamManager) : Prop := {
  cm_subs : subs_kept (sm_subs w) (sm_subs w');
  cm_old : ∀ c C', sm_subs w' !! c = Some C' → ∃ C, sm_subs w !! c = Some C ∧ sub_kept C C' ∧ (taken_over C' → taken_over C);
  cm_named : ∀ r m, stream_named w r m → stream_named w' r m;
  cm_live : ∀ r ms' c, sm_ms w' !! r = Some ms' → ms_subscriber ms' = Some c →
    ∃ ms, sm_ms w !! r = Some ms ∧ ms_messageID ms' = ms_messageID ms ∧ ms_subscriber ms = Some c;
  cm_streams : ∀ m r, sm_streams w' !! m = Some r → sm_streams w !! m = Some r ∨ stream_named w' r m;
  cm_same : (sm_messageSSE w', sm_conns w', sm_sseMu w') = (sm_messageSSE w, sm_conns w, sm_sseMu w);
}.

Lemma sub_kept_refl C : sub_kept C C.
Proof. done. Qed.
Lemma subs_kept_refl subs : subs_kept subs subs.
Proof. intros c C HC. by exists C. Qed.
Lemma calm_sse w w' : calm w w' → sse_ok w → sse_ok w'.
Proof.
  intros [Hs Ho Hn Hl Hm [= H1 H2 H3]] [N B O K I L T]. split.
  - intros m r Hr. destruct (Hm m r Hr) as [H|H]; [|done]. by apply Hn, N.
  - intros c C' d HC Hd. rewrite H2. destruct (Ho c C' HC) as (C & HC0 & (He & _) & _). apply (B c C d HC0). congruence.
  - intros c c' C C' d HC HC' Hd Hd'. destruct (Ho c C HC) as (X & HX & (He & _) & _), (Ho c' C' HC') as (X' & HX' & (He' & _) & _).
    apply (O c c' X X' d); congruence.
  - intros m d. rewrite H1, H2. apply K.
  - intros m m' d. rewrite H1. apply I.
  - intros r ms' c C' Hms Hc HC. destruct (Hl r ms' c Hms Hc) as (ms & Hms0 & -> & Hc0), (Ho c C' HC) as (C & HC0 & (He & _) & _).
    rewrite H1, H2, He. by apply (L r ms c C).
  - intros c C' HC Ht. destruct (Ho c C' HC) as (C & HC0 & (He & _) & Htk). rewrite H2, He. apply (T c C HC0). auto.
Qed.
Lemma calm_pc w w' i k : calm w w' → pc_ok w i k → pc_ok w' i k.
Proof.
  intros [Hs Ho Hn _ _ [= H1 H2 H3]]. destruct k; cbn; rewrite ?H1, ?H3; try done.
  - intros (? & ?). auto.
  - intros (? & ? & ? & Hno). split_and!; auto. intros c C' HC. destruct (Ho c C' HC) as (C & HC0 & (He & _) & _). rewrite He. by apply (Hno c).
  - intros (C & HC & Hd & Hr & ?). destruct (Hs c C HC) as (C' & HC' & He & Hr' & _). exists C'. split_and!; auto; congruence.
  - intros (c & C & HC & Hd & Hcl). destruct (Hs c C HC) as (C' & HC' & He & _ & Hcl'). exists c, C'. split_and!; auto; congruence.
Qed.
(** Call [i] moves on, in a step of its own or of the pump, the producer or a reader. *)
Lemma calls_set w u i k : sm_calls u = sm_calls w → (∀ j k', j ≠ i → sm_calls w !! j = Some k' → pc_ok u j k') → pc_ok u i k →
  ∀ j k', sm_calls (set_call i k u) !! j = Some k' → pc_ok (set_call i k u) j k'.
Proof.
  intros Hc Hj Hi j k'. cbn. rewrite Hc. destruct (decide (j = i)) as [->|Hne].
  - intros H. destruct (decide (i < length (sm_calls w))).
    + rewrite list_lookup_insert_eq in H by done. injection H as <-. by destruct k.
    + apply lookup_lt_Some in H. rewrite length_insert in H. lia.
  - rewrite list_lookup_insert_ne by done. intros H. pose proof (Hj j k' Hne H) as Hk. by destruct k'.
Qed.
(** A step under [sseMu]: only call [i] is between its lock and its unlock. *)
Lemma others_stand_by w u i : sm_sseMu w = None ∨ sm_sseMu w = Some i → subs_kept (sm_subs w) (sm_subs u) →
  (∀ r m, stream_named w r m → stream_named u r m) → ∀ j k, j ≠ i → pc_ok w j k → pc_ok u j k.
Proof.
  intros Hmu Hs Hn j k Hj. destruct k; cbn; try done; try (intros Hm; destruct Hmu; congruence); try (intros (Hm & _); destruct Hmu; congruence).
  - intros (C & HC & Hd & Hr & ?). destruct (Hs c C HC) as (C' & HC' & He & Hr' & _). exists C'. split_and!; auto; congruence.
  - intros (c & C & HC & Hd & Hcl). destruct (Hs c C HC) as (C' & HC' & He & _ & Hcl'). exists c, C'. split_and!; auto; congruence.
Qed.

Definition subs_calm (subs subs' : list Subscription) : Prop :=
  subs_kept subs subs' ∧ ∀ c C', subs' !! c = Some C' → ∃ C, subs !! c = Some C ∧ sub_kept C C' ∧ (taken_over C' → taken_over C).
Lemma subs_calm_refl subs : subs_calm subs subs.
Proof. split; [apply subs_kept_refl|]. intros c C HC. by exists C. Qed.
Lemma subs_calm_insert subs c C C' : subs !! c = Some C → sub_kept C C' → (taken_over C' → taken_over C) → subs_calm subs (<[c := C']> subs).
Proof.
  intros HC Hk Ht. split; intros d D HD; destruct (decide (d = c)) as [->|Hne].
  - exists C'. rewrite list_lookup_insert_eq by (by eapply lookup_lt_Some). rewrite HC in HD. by injection HD as <-.
  - exists D. by rewrite list_lookup_insert_ne.
  - rewrite list_lookup_insert_eq in HD by (by eapply lookup_lt_Some). injection HD as <-. by exists C.
  - rewrite list_lookup_insert_ne in HD by done. by exists D.
Qed.
Lemma closed_kept t C : sub_kept C (sub_closed t C).
Proof. done. Qed.
Lemma closeSubscriber_kept t ms subs : subs_kept subs (closeSubscriber t ms subs) ∧
  ∀ c C', closeSubscriber t ms subs !! c = Some C' → ∃ C, subs !! c = Some C ∧ sub_kept C C' ∧
    (taken_over C' → taken_over C ∨ stm_Reason t = "session_takeover" ∧ ms_subscriber ms = Some c).
Proof.
  unfold closeSubscriber. destruct (ms_subscriber ms) as [o|]; [|split; [apply subs_kept_refl|intros c C HC; exists C; auto using sub_kept_refl]].
  split.
  - intros c C HC. destruct (decide (o = c)) as [->|Hne].
    + exists (sub_closed (Some t) C). by rewrite list_lookup_alter_eq, HC.
    + exists C. by rewrite list_lookup_alter_ne.
  - intros c C' HC. destruct (decide (o = c)) as [->|Hne].
    + rewrite list_lookup_alter_eq in HC. destruct (subs !! c) as [C|]; [|done]. injection HC as <-. exists C.
      split_and!; [done|apply closed_kept|]. intros (x & [= <-] & ?). by right.
    + rewrite list_lookup_alter_ne in HC by done. exists C'. auto using sub_kept_refl.
Qed.
Lemma closeSubscriber_calm t ms subs : stm_Reason t ≠ "session_takeover" → subs_calm subs (closeSubscriber t ms subs).
Proof.
  intros Ht. destruct (closeSubscriber_kept t ms subs) as [Hk Ho]. split; [done|]. intros c C' HC.
  destruct (Ho c C' HC) as (C & ? & ? & Htk). exists C. split_and!; try done. intros Hc. by destruct (Htk Hc) as [|[]].
Qed.

Definition stream_calm (ms ms' : messageStream) : Prop :=
  ms_messageID ms' = ms_messageID ms ∧ ∀ c, ms_subscriber ms' = Some c → ms_subscriber ms = Some c.
Lemma stream_moves_calm w r ms ms' subs' : sm_ms w !! r = Some ms → stream_calm ms ms' → subs_calm (sm_subs w) subs' →
  calm w (set_ms_subs (<[r := ms']> (sm_ms w)) subs' w).
Proof.
  intros Hms [Hid Hsub] [Hk Ho]. split; cbn; try done.
  - intros x m (X & HX & Hm). destruct (decide (x = r)) as [->|Hne].
    + exists ms'. cbn. rewrite list_lookup_insert_eq by (by eapply lookup_lt_Some). split; [done|]. congruence.
    + exists X. cbn. by rewrite list_lookup_insert_ne.
  - intros x X c HX Hc. destruct (decide (x = r)) as [->|Hne].
    + rewrite list_lookup_insert_eq in HX by (by eapply lookup_lt_Some). injection HX as <-. exists ms. auto.
    + rewrite list_lookup_insert_ne in HX by done. by exists X.
  - intros m x Hx. by left.
Qed.
Lemma with_stream_calm w r f : (∀ ms ms' subs', f ms (sm_subs w) = (ms', subs') → stream_calm ms ms' ∧ subs_calm (sm_subs w) subs') →
  calm w (with_stream w r f).
Proof.
  intros Hf. unfold with_stream. destruct (sm_ms w !! r) as [ms|] eqn:Hms.
  - destruct (f ms (sm_subs w)) as [ms' subs'] eqn:E. destruct (Hf ms ms' subs' E). by eapply stream_moves_calm.
  - split; try done; [apply subs_kept_refl|apply subs_calm_refl|intros r' ms' c H1 H2; by exists ms'|intros; by left].
Qed.
Lemma calm_same w w' : sm_ms w' = sm_ms w → sm_subs w' = sm_subs w → (∀ m r, sm_streams w' !! m = Some r → sm_streams w !! m = Some r) →
  (sm_messageSSE w', sm_conns w', sm_sseMu w') = (sm_messageSSE w, sm_conns w, sm_sseMu w) → calm w w'.
Proof.
  intros Hm Hs Hst He. split; rewrite ?Hm, ?Hs; try done.
  - apply subs_kept_refl.
  - apply subs_calm_refl.
  - intros r m (ms & H1 & H2). exists ms. by rewrite Hm.
  - intros r ms c H1 H2. by exists ms.
  - intros m r H. left. auto.
Qed.
Lemma calm_set_ms w r ms ms' : sm_ms w !! r = Some ms → ms_messageID ms' = ms_messageID ms → ms_subscriber ms' = ms_subscriber ms →
  calm w (set_ms (<[r := ms']> (sm_ms w)) w).
Proof.
  intros Hms H1 H2. assert (stream_calm ms ms') as Hc by (split; [done|]; intros c; by rewrite H2).
  destruct (stream_moves_calm w r ms ms' (sm_subs w) Hms Hc (subs_calm_refl _)). by split.
Qed.
Lemma calm_created w m s : calm w (set_streams (<[m := length (sm_ms w)]> (sm_streams w)) (set_ms (sm_ms w ++ [newMessageStream m s])%list w)).
Proof.
  split; cbn; try done.
  - apply subs_kept_refl.
  - apply subs_calm_refl.
  - intros r x (ms & H1 & H2). exists ms. split; [|done]. by apply lookup_app_l_Some.
  - intros r ms c H1 H2. apply lookup_app_Some in H1 as [H1|[_ H1]]; [by exists ms|]. apply list_lookup_singleton_Some in H1 as [_ <-]. done.
  - intros x r. rewrite lookup_insert_Some. intros [[<- <-]|[_ H]]; [right|by left]. exists (newMessageStream m s). split; [|done].
    cbn. by rewrite lookup_app_r, Nat.sub_diag by lia.
Qed.
Lemma pump_event_calm e ms subs ms' subs' : pump_event e ms subs = (ms', subs') → stream_calm ms ms' ∧ subs_calm subs subs'.
Proof.
  rewrite pump_event_eq. destruct (ms_subscriber ms) as [c|] eqn:Ec; [|intros [= <- <-]; split; [split; [done|cbn; by rewrite Ec]|apply subs_calm_refl]].
  destruct (subs !! c) as [C|] eqn:HC; [|intros [= <- <-]; split; [split; [done|cbn; by rewrite Ec]|apply subs_calm_refl]].
  destruct (length (sc_queue C) <? sc_cap C); intros [= <- <-].
  - split; [split; [done|cbn; by rewrite Ec]|]. by eapply subs_calm_insert.
  - split; [by split|]. by apply closeSubscriber_calm.
Qed.
Lemma pump_end_calm ms subs ms' subs' : pump_end ms subs = (ms', subs') → stream_calm ms ms' ∧ subs_calm subs subs'.
Proof. intros [= <- <-]. split; [by split|]. by apply closeSubscriber_calm. Qed.
Lemma cancel_calm c ms subs ms' subs' :
  (if bool_decide (ms_subscriber ms = Some c) then closeSubscriberLocked (mkTermination "observer_detached" "" true) ms subs else (ms, subs)) = (ms', subs') →
  stream_calm ms ms' ∧ subs_calm subs subs'.
Proof. case_bool_decide; intros [= <- <-]; (split; [by split|]); [by apply closeSubscriber_calm|apply subs_calm_refl]. Qed.

(** What a step of call [i] has to leave. *)
Definition moves (w : StreamManager) (i : nat) (w' : StreamManager) : Prop :=
  ∃ u k', w' = set_call i k' u ∧ sm_calls u = sm_calls w ∧ sse_ok u ∧ (∀ j k, j ≠ i → pc_ok w j k → pc_ok u j k) ∧ pc_ok u i k'.
Lemma sse_ok_same u v : sse_ok u → (sm_ms v, sm_subs v, sm_streams v, sm_messageSSE v, sm_conns v) = (sm_ms u, sm_subs u, sm_streams u, sm_messageSSE u, sm_conns u) →
  sse_ok v.
Proof.
  intros [N B O K I L T] [= H1 H2 H3 H4 H5]. split; rewrite ?H1, ?H2, ?H3, ?H4, ?H5; auto.
  intros m r Hr. destruct (N m r Hr) as (ms & ? & ?). exists ms. by rewrite H1.
Qed.
Lemma moves_ok w i w' : takeover_ok w → moves w i w' → streams_ok w' → takeover_ok w'.
Proof.
  intros [_ _ Hc] (u & k' & -> & He & Hu & Hj & Hi) Hw. split; [done|by eapply sse_ok_same|].
  apply (calls_set w); auto.
Qed.
Lemma moves_calm w i u k' w' : takeover_ok w → calm w u → sm_calls u = sm_calls w → w' = set_call i k' u → pc_ok u i k' → moves w i w'.
Proof.
  intros [_ Hs _] Hu He -> Hk. exists u, k'. split_and!; try done; [by eapply calm_sse|]. intros j k _. by apply calm_pc.
Qed.

Lemma registered_ok w m : sse_ok w → sse_ok (RegisterSSE w m).
Proof.
  intros [N B O K I L T]. unfold RegisterSSE. set (old := sm_messageSSE w !! m).
  set (conns := (match old with Some d => <[d := true]> (sm_conns w) | None => sm_conns w end ++ [false])%list).
  assert (∀ d, d < length (sm_conns w) → conns !! d = if bool_decide (old = Some d) then Some true else sm_conns w !! d) as Hconns.
  { intros d Hd. unfold conns. rewrite lookup_app_l by (destruct old; rewrite ?length_insert; done). destruct old as [o|]; [|done].
    case_bool_decide as Ho; [injection Ho as ->; by rewrite list_lookup_insert_eq|]. rewrite list_lookup_insert_ne; [done|congruence]. }
  assert (length conns = S (length (sm_conns w))) as Hlen by (unfold conns; rewrite length_app; cbn; destruct old; rewrite ?length_insert; lia).
  assert (∀ d, sm_conns w !! d = Some true → conns !! d = Some true) as Hdone.
  { intros d Hd. rewrite Hconns by (by eapply lookup_lt_Some). by case_bool_decide. }
  split; cbn; fold conns; try done.
  - intros c C d HC Hd. pose proof (B c C d HC Hd). lia.
  - intros x d. rewrite lookup_insert_Some. intros [[<- <-]|[Hne Hx]].
    + unfold conns. rewrite lookup_app_r by (destruct old; rewrite ?length_insert; done).
      by destruct old; rewrite ?length_insert, Nat.sub_diag.
    + pose proof (K x d Hx) as Hd. rewrite Hconns by (by eapply lookup_lt_Some). case_bool_decide as Ho; [|done].
      by destruct Hne; apply (I m x d).
  - intros x y d. rewrite !lookup_insert_Some. intros [[<- <-]|[Hx Hxd]] [[<- Hd]|[Hy Hyd]]; try done.
    + apply K, lookup_lt_Some in Hyd. lia.
    + subst d. apply K, lookup_lt_Some in Hxd. lia.
    + by apply (I x y d).
  - intros r ms c C Hms Hc HC. destruct (L r ms c C Hms Hc HC) as (d & Hd & Hor). exists d. split; [done|].
    pose proof (B c C d HC Hd) as Hlt. destruct (decide (ms_messageID ms = m)) as [Hm|Hm].
    + left. destruct Hor as [H|H]; [auto|]. rewrite Hconns by done. rewrite bool_decide_eq_true_2; [done|]. unfold old. by rewrite <- Hm.
    + destruct Hor as [H|H]; [left; auto|]. right. by rewrite lookup_insert_ne.
  - intros c C HC Ht. destruct (T c C HC Ht) as (d & ? & ?). exists d. auto.
Qed.
Lemma register_moves w i m from r : takeover_ok w → pc_ok w i (CSSERegister m from r) →
  moves w i (set_call i (CSSESubscribe m from r (length (sm_conns w))) (RegisterSSE w m)).
Proof.
  intros [_ Hs _] [Hmu Hr]. exists (RegisterSSE w m), (CSSESubscribe m from r (length (sm_conns w))). split_and!; try done.
  - by apply registered_ok.
  - apply others_stand_by; [by right|apply subs_kept_refl|done].
  - cbn. split_and!; try done; [by rewrite lookup_insert_eq|]. intros c C HC Hd. pose proof (eo_conn w Hs c C _ HC Hd). lia.
Qed.
Lemma unregister_moves w i m d : takeover_ok w → pc_ok w i (CUnregister m d) → moves w i (set_call i CDone (UnregisterSSE w m d)).
Proof.
  intros [Hst Hs _] (c0 & C0 & HC0 & Hd0 & Hcl0). exists (UnregisterSSE w m d), CDone. unfold UnregisterSSE. case_bool_decide as Hm; [|split_and!; done].
  destruct Hs as [N B O K I L T]. split_and!; try done; [split; cbn; try done|].
  - intros x y. rewrite lookup_delete_Some. intros [_ H]. by apply (K x).
  - intros x y e. rewrite !lookup_delete_Some. intros [_ Hx] [_ Hy]. by apply (I x y e).
  - intros r ms c C Hms Hc HC. destruct (L r ms c C Hms Hc HC) as (e & He & Hor). exists e. split; [done|].
    destruct Hor as [?|H]; [by left|]. right. apply lookup_delete_Some. split; [|done]. intros ->. rewrite Hm in H. injection H as ->.
    pose proof (O c c0 C C0 e HC HC0 He Hd0) as ->. destruct (ss_live _ _ _ (wo_stream w Hst r ms Hms) c0 Hc) as (X & HX & _ & Hopen). congruence.
  - intros j k Hj. destruct k; cbn; try done. intros (H1 & H2 & H3 & H4). split_and!; try done. apply lookup_delete_Some. split; [|done].
    intros ->. rewrite Hm in H3. injection H3 as ->. by destruct (H4 c0 C0 HC0).
Qed.
(** A new subscription on the stream of the message of its connection. *)
Lemma subscribed_ok w m r d ms ms' subs from : takeover_ok w → sm_ms w !! r = Some ms → ms_messageID ms = m →
  sm_messageSSE w !! m = Some d → (∀ c C, sm_subs w !! c = Some C → sc_conn C ≠ Some d) →
  subscribeTransport r from true (Some d) ms (sm_subs w) = (ms', subs) →
  sse_ok (set_ms_subs (<[r := ms']> (sm_ms w)) subs w) ∧ subs_kept (sm_subs w) subs ∧ ms_messageID ms' = m.
Proof.
  intros [Hst [N B O K I L T] _] Hms Hm Hcur Hnew Hsub.
  assert (∃ old C, subs = (old ++ [C])%list ∧ length old = length (sm_subs w) ∧ sc_conn C = Some d ∧ ¬ taken_over C ∧
    subs_kept (sm_subs w) old ∧ ms_messageID ms' = m ∧ (∀ c, ms_subscriber ms' = Some c → c = length (sm_subs w)) ∧
    ∀ c C', old !! c = Some C' → ∃ C, sm_subs w !! c = Some C ∧ sub_kept C C' ∧ (taken_over C' → taken_over C ∨ ms_subscriber ms = Some c))
    as (old & C & -> & Hlen & HCd & HCt & Hk & Hm' & Hlast & Hold).
  { unfold subscribeTransport in Hsub. destruct (ms_closed ms) eqn:Ec.
    - injection Hsub as <- <-. eexists (sm_subs w), _. split_and!; try done; [|apply subs_kept_refl| |].
      + intros (t & [= <-] & ?). done.
      + intros c. by rewrite (so_closed _ (ss_stream _ _ _ (wo_stream w Hst r ms Hms)) Ec).
      + intros c X HX. exists X. auto using sub_kept_refl.
    - unfold closeSubscriberLocked in Hsub. injection Hsub as <- <-.
      destruct (closeSubscriber_kept (mkTermination "session_takeover" "" false) ms (sm_subs w)) as [Hk Ho].
      eexists _, _. split_and!; try done; [unfold closeSubscriber; destruct (ms_subscriber ms); rewrite ?length_alter; done|by intros (? & [=] & _)|by intros c [= <-]|].
      intros c X HX. destruct (Ho c X HX) as (Y & ? & ? & Ht). exists Y. split_and!; try done. intros Hc. destruct (Ht Hc) as [|[]]; auto. }
  assert (∀ c X, (old ++ [C])%list !! c = Some X → c = length (sm_subs w) ∧ X = C ∨
    ∃ Y, sm_subs w !! c = Some Y ∧ sub_kept Y X ∧ (taken_over X → taken_over Y ∨ ms_subscriber ms = Some c)) as Hcase.
  { intros c X HX. apply lookup_app_Some in HX as [HX|[Hge HX]]; [right; by apply Hold|]. apply list_lookup_singleton_Some in HX as [H0 <-]. left. split; [lia|done]. }
  assert (subs_kept (sm_subs w) (old ++ [C])) as Hkept.
  { intros c X HX. destruct (Hk c X HX) as (Y & ? & ?). exists Y. split; [by apply lookup_app_l_Some|done]. }
  split_and!; [split; cbn|done|done].
  - intros x y Hx. destruct (N x y Hx) as (X & HX & Hid). destruct (decide (y = r)) as [->|Hne].
    + exists ms'. cbn. rewrite list_lookup_insert_eq by (by eapply lookup_lt_Some). split; congruence.
    + exists X. cbn. by rewrite list_lookup_insert_ne.
  - intros c X e HX He. destruct (Hcase c X HX) as [[_ ->]|(Y & HY & (He' & _) & _)]; [|apply (B c Y e HY); congruence].
    apply K, lookup_lt_Some in Hcur. congruence.
  - intros c c' X X' e HX HX' He He'. destruct (Hcase c X HX) as [[-> ->]|(Y & HY & (Hy & _) & _)], (Hcase c' X' HX') as [[-> ->]|(Y' & HY' & (Hy' & _) & _)].
    + done.
    + destruct (Hnew c' Y' HY'). congruence.
    + destruct (Hnew c Y HY). congruence.
    + apply (O c c' Y Y' e); congruence.
  - done.
  - done.
  - intros y Y c X HY Hc HX. destruct (decide (y = r)) as [->|Hne].
    + rewrite list_lookup_insert_eq in HY by (by eapply lookup_lt_Some). injection HY as <-. rewrite (Hlast c Hc) in HX.
      destruct (Hcase _ X HX) as [[_ ->]|(Z & HZ & _)]; [|apply lookup_lt_Some in HZ; lia]. exists d. rewrite Hm'. auto.
    + rewrite list_lookup_insert_ne in HY by done. destruct (ss_live _ _ _ (wo_stream w Hst y Y HY) c Hc) as (Z & HZ & _ & _).
      destruct (Hcase c X HX) as [[-> _]|(Z' & HZ' & (He & _) & _)]; [apply lookup_lt_Some in HZ; lia|]. rewrite He. by apply (L y Y c Z').
  - intros c X HX Ht. destruct (Hcase c X HX) as [[_ ->]|(Y & HY & (He & _) & Ht')]; [done|]. rewrite He.
    destruct (Ht' Ht) as [H|H]; [by apply (T c Y)|]. destruct (L r ms c Y Hms H HY) as (e & He' & Hor). exists e. split; [done|].
    destruct Hor as [?|Hor]; [done|]. rewrite Hm, Hcur in Hor. injection Hor as <-. by destruct (Hnew c Y HY).
Qed.
Lemma subscribe_moves w i m from r d : takeover_ok w → pc_ok w i (CSSESubscribe m from r d) →
  moves w i (set_call i CSSEUnlock (with_stream w r (subscribeTransport r from true (Some d)))).
Proof.
  intros Hw (Hmu & (ms & Hms & Hm) & Hcur & Hnew). exists (with_stream w r (subscribeTransport r from true (Some d))), CSSEUnlock.
  unfold with_stream. rewrite Hms. destruct (subscribeTransport r from true (Some d) ms (sm_subs w)) as [ms' subs] eqn:E.
  destruct (subscribed_ok w m r d ms ms' subs from Hw Hms Hm Hcur Hnew E) as (H1 & H2 & H3). split_and!; try done.
  apply others_stand_by; [by right|done|]. intros x y (X & HX & Hid). destruct (decide (x = r)) as [->|Hne].
  - exists ms'. cbn. rewrite list_lookup_insert_eq by (by eapply lookup_lt_Some). split; congruence.
  - exists X. cbn. by rewrite list_lookup_insert_ne.
Qed.
Lemma cancel_moves w i m r c d : takeover_ok w → pc_ok w i (CCancel m r c d) →
  moves w i (set_call i (CUnregister m d) (with_stream w r (λ ms subs, if bool_decide (ms_subscriber ms = Some c)
    then closeSubscriberLocked (mkTermination "observer_detached" "" true) ms subs else (ms, subs)))).
Proof.
  intros Hw (C & HC & Hd & Hr & (ms & Hms & Hm)). set (u := with_stream w r _).
  apply (moves_calm w i u (CUnregister m d)); [done|apply with_stream_calm; intros ms0 ms' subs' E; by eapply cancel_calm| |done|].
  { unfold u, with_stream. rewrite Hms. by case_bool_decide. }
  unfold u, with_stream. rewrite Hms. case_bool_decide as Hc; cbn.
  - exists c, (sub_closed (Some (mkTermination "observer_detached" "" true)) C). cbn. unfold closeSubscriber. rewrite Hc. by rewrite list_lookup_alter_eq, HC.
  - exists c, C. split_and!; try done. destruct (sc_closed C) eqn:E; [done|].
    destruct (ss_subs _ _ _ (wo_stream w (to_streams w Hw) r ms Hms) c C HC Hr) as [_ (n & _ & _ & Hl)]. by destruct (Hl E).
Qed.
Lemma sse_moves w i k pick w' : takeover_ok w → pc_ok w i k → call_step w i k pick = Some w' → moves w i w'.
Proof.
  intros Hw Hk Hs.
  assert (∀ u k', sm_ms u = sm_ms w → sm_subs u = sm_subs w → (∀ m r, sm_streams u !! m = Some r → sm_streams w !! m = Some r) →
    (sm_messageSSE u, sm_conns u, sm_sseMu u, sm_calls u) = (sm_messageSSE w, sm_conns w, sm_sseMu w, sm_calls w) → pc_ok u i k' → moves w i (set_call i k' u)) as Hsame.
  { intros u k' H1 H2 H3 [= H4 H5 H6 H7] Hk'. eapply moves_calm; [done| |done|done|done]. apply calm_same; congruence || done. }
  assert (∀ k', pc_ok w i k' → moves w i (set_call i k' w)) as Hstay by (intros; by apply Hsame).
  destruct k; cbn in Hs.
  - injection Hs as <-. eapply moves_calm; [done|apply calm_created|done|done|done].
  - injection Hs as <-. by apply Hsame.
  - injection Hs as <-. by apply Hsame.
  - destruct (sm_sessionToMsgs w !! s); injection Hs as <-; by apply Hsame.
  - case_bool_decide; injection Hs as <-; by apply Hsame.
  - destruct (sm_sessionToMsgs w !! s); injection Hs as <-; apply Hsame; try done. by destruct closing.
  - destruct (sm_sets w !! ss); [|done]. injection Hs as <-. apply Hsame; try done. by destruct closing.
  - destruct (sm_msgToSession w !! m); injection Hs as <-; by apply Hsame.
  - injection Hs as <-. apply Hsame; try done. intros x r. cbn. by intros [_ ?]%lookup_delete_Some.
  - injection Hs as <-. apply Hsame; try done. by destruct (sm_msgToSession w !! m).
  - injection Hs as <-. apply Hsame; try done. by destruct (sm_msgToSession w !! m).
  - done.
  - case_bool_decide as Hmu; [|done]. injection Hs as <-. exists (set_sseMu (Some i) w), (CSSELoad m from).
    split_and!; try done; [by eapply sse_ok_same; [apply Hw|]|]. apply others_stand_by; [by left|apply subs_kept_refl|done].
  - injection Hs as <-. destruct (sm_streams w !! m) as [r|] eqn:Hr; apply Hstay; [|done]. split; [done|]. by apply (eo_named w (to_sse w Hw)).
  - injection Hs as <-. by apply register_moves.
  - injection Hs as <-. by apply (subscribe_moves w i m from).
  - injection Hs as <-. exists (set_sseMu None w), CDone. split_and!; try done; [by eapply sse_ok_same; [apply Hw|]|].
    apply others_stand_by; [by right|apply subs_kept_refl|done].
  - injection Hs as <-. by apply cancel_moves.
  - injection Hs as <-. by apply unregister_moves.
  - injection Hs as <-. apply Hstay. case_match; [done|]. by destruct (index_set w s).
  - destruct l as [|m l]; [injection Hs as <-; by apply Hstay|]. destruct (sm_streams w !! m) as [r|]; [|injection Hs as <-; by apply Hstay].
    destruct (sm_ms w !! r) as [ms|] eqn:Hms; [|done]. cbn in Hs. destruct (trySendEnvelope ms); injection Hs as <-; try (by apply Hstay).
    refine (moves_calm w i (set_ms _ w) _ _ Hw _ eq_refl eq_refl _); [by eapply calm_set_ms|done].
  - destruct pick as [x|]; [|injection Hs as <-; by apply Hstay]. case_bool_decide; [done|].
    destruct (sm_clients w !! x); [|done]. injection Hs as <-. by apply Hstay.
  - destruct (sm_presence w !! ch) as [[x closed]|]; [|done]. injection Hs as <-.
    apply (Hsame (panic_if closed (if (x <? presenceCapacity) && negb closed
      then set_presence (sm_clients w) (<[ch := (S x, closed)]> (sm_presence w)) w else w))); try done; by case_match.
  - done.
Qed.
Lemma takeover_calm w w' : takeover_ok w → calm w w' → sm_calls w' = sm_calls w → streams_ok w' → takeover_ok w'.
Proof.
  intros [_ Hs Hc] H He Hw. split; [done|by eapply calm_sse|]. intros i k. rewrite He. intros Hk. eapply calm_pc; [done|]. by apply Hc.
Qed.
Lemma begun w k : is_entry w k = true → (∀ m from, k ≠ CSubscribe m from) → ∀ i, pc_ok w i k.
Proof.
  intros Hk Hns i. destruct k; cbn in Hk; try done; [by edestruct Hns|].
  destruct (sm_subs w !! c) as [C|] eqn:HC; [|done]. destruct (sm_ms w !! ms) as [X|] eqn:HX; [|done].
  apply andb_true_iff in Hk as [Hk Hm%bool_decide_eq_true]. apply andb_true_iff in Hk as [Hr%bool_decide_eq_true Hd%bool_decide_eq_true].
  exists C. split_and!; try done. by exists X.
Qed.
Lemma takeover_step w ev w' : takeover_ok w → sse_only ev → step w ev w' → takeover_ok w'.
Proof.
  intros Hw Hsse Hs. pose proof (step_ok w ev w' (to_streams w Hw) Hs) as Hst. unfold step, Streams.apply in Hs.
  destruct ev as [k|i pick|r e|r|r|c| |client|ch].
  - destruct (is_entry w k) eqn:Ek; [|done]. injection Hs as <-. destruct Hw as [_ Hw Hc]. split; [done|by eapply sse_ok_same|].
    intros j k' Hj. assert (∀ x, pc_ok w j x → pc_ok (set_calls (sm_calls w ++ [k])%list w) j x) as Hsame by (intros x; by destruct x).
    apply Hsame. cbn in Hj. apply lookup_app_Some in Hj as [Hj|[_ Hj]]; [by apply Hc|]. apply list_lookup_singleton_Some in Hj as [_ <-].
    apply begun; [done|]. intros m from ->. by apply (Hsse m from).
  - destruct (sm_calls w !! i) as [k|] eqn:Hk; [|done]. eapply moves_ok; [done| |done]. eapply sse_moves; [done| |done]. by apply (to_calls w Hw).
  - unfold produce in Hs. destruct (sm_ms w !! r) as [ms|] eqn:Hms; [|done]. cbn in Hs. repeat case_match; simplify_eq;
      (eapply takeover_calm; [done| |done|done]); [by apply calm_same|by eapply calm_set_ms].
  - unfold close_produce in Hs. destruct (sm_ms w !! r) as [ms|] eqn:Hms; [|done]. injection Hs as <-.
    eapply takeover_calm; [done| |done|done]. by destruct (calm_set_ms w r ms (produce_closed ms) Hms eq_refl eq_refl).
  - unfold pump_step in Hs. destruct (sm_ms w !! r) as [ms|] eqn:Hms; [|done]. cbn in Hs.
    assert (∀ f, sm_calls (with_stream w r f) = sm_calls w) as Hcalls by (intros f; unfold with_stream; rewrite Hms; by destruct (f ms (sm_subs w))).
    destruct (ms_pump ms); [destruct (ms_produce ms); [case_match|]|..]; simplify_eq; eapply takeover_calm;
      try done; try (by eapply calm_set_ms); apply with_stream_calm; intros x ms' subs' E; [by eapply pump_event_calm|by eapply pump_end_calm].
  - unfold read_step in Hs. destruct (sm_subs w !! c) as [C|] eqn:HC; [|done]. cbn in Hs. destruct (sc_queue C) as [|e rest]; [done|]. injection Hs as <-.
    eapply takeover_calm; [done| |done|done]. set (C' := sub_read _ _ C). destruct (subs_calm_insert (sm_subs w) c C C' HC) as [H1 H2]; [done|done|].
    split; try done; [intros x X y HX Hy; by exists X|intros m x Hx; by left].
  - simplify_eq. eapply takeover_calm; [done| |done|done]. by apply calm_same.
  - simplify_eq. eapply takeover_calm; [done| | |done]; [apply calm_same|]; by case_match.
  - destruct (sm_presence w !! ch) as [[n closed]|]; [|done]. cbn in Hs. case_match; simplify_eq. eapply takeover_calm; [done| |done|done]. by apply calm_same.
Qed.
Lemma takeover_always evs w : steps step NewStreamManager evs w → Forall sse_only evs → takeover_ok w.
Proof.
  intros H. assert (takeover_ok NewStreamManager) as H0 by (split; [split; done|split; done|done]).
  revert H0. induction H as [|a l b ls c Hs _ IH]; [done|]. intros Ha [Hl Hls]%Forall_cons. apply IH; [|done]. by eapply takeover_step.
Qed.

(** C10. A browser that loses its message to another tab is told so: in a run whose readers all
    come over SSE, a reader whose channel a takeover has closed finds its connection marked
    as taken over already, and ends with [session_takeover], which it does not mistake for a
    dropped connection. *)
Theorem takeover_is_told evs w c C end_ failed last :
  steps step NewStreamManager evs w → Forall sse_only evs → sm_subs w !! c = Some C →
  sc_closure C = Some end_ → stm_Reason end_ = "session_takeover" →
  ∃ conn done_, sc_conn C = Some conn ∧ sm_conns w !! conn = Some done_ ∧
    at_eof done_ failed last end_ =
      [("session_takeover", None); ("stream_closed", Some (mkTermination "session_takeover" "" false, last))].
Proof.
  intros Hr Hev HC Hcl Hre. destruct (eo_taken w (to_sse w (takeover_always evs w Hr Hev)) c C HC) as (d & ? & ?); [by exists end_|].
  by exists d, true.
Qed.
Lemma takeover_is_told_witness :
  ∃ C conn done_, sm_subs (after two_tabs) !! 0 = Some C ∧ sc_conn C = Some conn ∧
    at_eof done_ false 1 (mkTermination "session_takeover" "" false) =
      [("session_takeover", None); ("stream_closed", Some (mkTermination "session_takeover" "" false, 1))].
Proof.
  eexists. edestruct (takeover_is_told two_tabs (after two_tabs) 0) as (conn & d & Hconn & _ & H);
    [apply stream_after_steps; vm_compute; by eexists|repeat constructor; by intros|vm_compute; reflexivity|reflexivity|reflexivity|].
  exists conn, d. split; [vm_compute; reflexivity|]. split; [exact Hconn|exact H].
Defined.

(** ** What panics *)





(** [AttachToSession] has read the session of the message when [CloseStream] cleans it up: the
    message stays in the set of the session for ever. *)
Definition attach_race : list SEv :=
  (let go i n := replicate n (CallStep i None) in
  [Begin (CCreate "m" "s")] ++ go 0 5 ++ [Begin (CDetach "m")] ++ go 1 3 ++ [Begin (CAttach "m")] ++ go 2 1 ++
  [CloseProduce 0; PumpStep 0; PumpStep 0; Begin (CClose "m")] ++ go 3 3 ++ go 2 2)%list.
Example attach_race_leaks :
  is_Some (run attach_race NewStreamManager) ∧ sm_calls (after attach_race) = [CDone; CDone; CDone; CDone] ∧
  sm_streams (after attach_race) = ∅ ∧ sm_msgToSession (after attach_race) = ∅ ∧
  HasLiveStreamForSession (after attach_race) "s" = true.
Proof. split; [vm_compute; by eexists|]. vm_compute. by split_and!. Qed.
