(* ===== verification/DefinitionFiles.v ===== *)
(** * What an agent definition brings to a launch

    [agentpolicy/render.go], [skilltree.go] and [execution.go], with the delivery of
    granted skills ([service/cognitive_views.go], [store/local_authority_skills.go]) and the
    files planted for a runtime ([runtime/agent/definition_files.go], [skill_plant.go]): the
    instructions, the pinned files, the skills and the report of what a launch honors.

    The definition type and its digest belong to the [agentdef] library: the record has the
    fields the code reads, [ArtifactDigest] and [Validate] are parameters, as are the JSON
    codec, [%q] and the layout table of the runtimes. *)

From stdpp Require Import sorting pretty.
From S2P Require Import Prelude GoStrings GoPath Recovery.

Open Scope string_scope.
Open Scope nat_scope.
Set Default Proof Using "Type".

Record Ref := mkRef { URI : string; Digest : string }.
#[global] Instance Ref_eq_dec : EqDecision Ref.
Proof. solve_decision. Defined.
Record Skill := mkSkill { sk_Name : string; sk_Content : Ref }.
Record Definition_ := mkDefinition {
  d_Purpose : string;
  d_Body : string;
  d_Instructions : list Ref;
  d_SOPs : list Ref;
  d_Completion : string;
  d_Hooks : list string;
  d_Capabilities : list string;
  d_Requires : list string;
  d_Uses : list string;
  d_Tools : list string;
  d_Skills : list Skill;
  d_Resources : list Ref;
  d_Steering : list Ref;
  d_Sources : list Ref;
  d_ContextPolicy : option Ref;
  d_Permissions : string;
  d_Approvals : list Ref;
  d_Escalation : list Ref;
  d_Mode : string;
  d_MemoryPolicy : option Ref;
  d_RecoveryStrategy : option Ref;
}.

Definition FilesRoot : string := "agent".
Definition SkillsDir : string := "skills".
Definition newline : string := String (byte 10) "".
Definition paragraph : string := newline +:+ newline.

(** ** Rendering *)

Inductive RErr :=
| ErrEmptyDefinition
| ErrNoResolver (uri : string)
| ErrRead (uri : string)
| ErrRenderContent (uri : string)
| PanicSlice.                                  (* a slice out of range *)

Record Rendered := mkRendered { Instructions : string; Files : gmap string string }.

Definition TrimPrefix (s pre : string) : string := default s (cut_prefix s pre).
(** [s[:n]]. *)
Definition upto (n : nat) (s : string) : option string :=
  if n <=? String.length s then Some (str_take n s) else None.

Definition digestPath (ref : Ref) : option string :=
  h ← upto 12 (TrimPrefix (Digest ref) "sha256:"); Some (Join [FilesRoot; "ref-" +:+ h]).
(** [plantPath]; [None] is the panic of the slice. *)
Definition plantPath (ref : Ref) : option string :=
  let rel := Clean (TrimPrefix (URI ref) "file:") in
  if bool_decide (rel = ".") || bool_decide (rel = "..") || has_prefix rel "../" || has_prefix rel "/"
     || negb (no_byte ":" rel) || negb (no_byte "\" rel)
  then digestPath ref
  else Some (Join [FilesRoot; rel]).

Section Render.
Context (ArtifactDigest : string → string).
(** [read]: absent, or what it answers for a reference. *)
Context (read : option (Ref → option string)).

Definition fetch (ref : Ref) : result RErr string :=
  match read with
  | None => Err (ErrNoResolver (URI ref))
  | Some r =>
      match r ref with
      | None => Err (ErrRead (URI ref))
      | Some body => if bool_decide (ArtifactDigest body = Digest ref) then Ok body else Err (ErrRenderContent (URI ref))
      end
  end.
Fixpoint documents (text : string) (refs : list Ref) : result RErr string :=
  match refs with
  | [] => Ok text
  | ref :: refs => body ← fetch ref; documents (text +:+ paragraph +:+ body) refs
  end.

(** The files planted so far and their digests. *)
Record Planted := mkPlanted { pl_files : gmap string string; pl_digests : gmap string string }.
Definition plant (ref : Ref) (P : Planted) : result RErr (string * Planted) :=
  body ← fetch ref;
  match plantPath ref with
  | None => Err PanicSlice
  | Some p =>
      let taken := match pl_digests P !! p with Some prior => negb (bool_decide (prior = Digest ref)) | None => false end in
      match (if taken then digestPath ref else Some p) with
      | None => Err PanicSlice
      | Some p => Ok (p, mkPlanted (<[p := body]> (pl_files P)) (<[p := Digest ref]> (pl_digests P)))
      end
  end.
Fixpoint plantAll (refs : list Ref) (P : Planted) : result RErr (list string * Planted) :=
  match refs with
  | [] => Ok ([], P)
  | ref :: refs =>
      '(p, P) ← plant ref P;
      '(ps, P) ← plantAll refs P;
      Ok (p :: ps, P)
  end.

Definition Render (d : option Definition_) : result RErr Rendered :=
  match d with
  | None => Err ErrEmptyDefinition
  | Some d =>
      text ← documents (d_Purpose d +:+ paragraph +:+ d_Body d) (d_Instructions d ++ d_SOPs d)%list;
      let text := if bool_decide (d_Completion d = "") then text else text +:+ paragraph +:+ "Completion: " +:+ d_Completion d in
      text ← documents text (d_Steering d);
      '(_, P) ← plantAll (d_Resources d) (mkPlanted ∅ ∅);
      '(listed, P) ← plantAll (d_Sources d) P;
      let text := match listed with
        | [] => text
        | _ => foldl (λ t p, t +:+ newline +:+ "- " +:+ p)
                 (text +:+ paragraph +:+ "Reference files, relative to your session root (read them when relevant):") listed
        end in
      Ok (mkRendered text (pl_files P))
  end.
End Render.

(** ** Files planted for a runtime *)

Definition definitionFiles (files : gmap string string) : gmap string string :=
  filter (λ kv : string * string, Clean kv.1 = kv.1 ∧ has_prefix kv.1 (FilesRoot +:+ "/") = true) files.

(** [skillDestPrefixSafe]. *)
Definition skillDestPrefixSafe (root slug : string) : option string :=
  if bool_decide (slug = "") then None
  else let dest := Join [root; slug] in
       if bool_decide (dest = root +:+ "/" +:+ slug) then Some dest else None.

(** A row of the layout table: [lr_Skills] says that it is the supported placement of skills in the
    boot directory. *)
Record LayoutRow := mkRow { lr_Provider : string; lr_Skills : bool; lr_Path : string }.
Definition skillSuffix : string := "/{name}/SKILL.md".
Definition TrimSuffix (s suf : string) : string := if has_suffix s suf then str_take (String.length s - String.length suf) s else s.
Fixpoint skillRoot (id root : string) (table : list LayoutRow) : option string :=
  match table with
  | [] => if bool_decide (root = "") then None else Some root
  | row :: table =>
      if negb (bool_decide (lr_Provider row = id)) || negb (lr_Skills row) || negb (has_suffix (lr_Path row) skillSuffix)
      then skillRoot id root table
      else let r := TrimSuffix (lr_Path row) skillSuffix in
           if negb (bool_decide (root = "")) && negb (bool_decide (root = r)) then None else skillRoot id r table
  end.
Definition sharedSkillRoot (table : list LayoutRow) (id : string) : option string := skillRoot id "" table.

Section Plant.
(** The provider registry and the layout table. *)
Context (lookup : string → option string) (table : list LayoutRow).

Definition skillRoots (providerName : string) : option (list string) :=
  let name := normalizeProviderName lookup providerName in
  let roots id extra := root ← sharedSkillRoot table id; Some (root :: extra) in
  if bool_decide (name ∈ ["claude"; "claude-code"; "claudecode"]) then roots "claude" []
  else if bool_decide (name = "codex") then roots "codex" []
  else if bool_decide (name = "opencode") then roots "opencode" [".opencode/skills"]
  else if bool_decide (name = "antigravity") then roots "antigravity" []
  else None.
(** [skillDestPrefixesFor]: all destinations of a skill, or none. *)
Definition skillDestPrefixesFor (providerName slug : string) : option (list string) :=
  roots ← skillRoots providerName; mapM (λ r, skillDestPrefixSafe r slug) roots.

Definition copyTo (file content : string) (out : gmap string string) (p : string) : gmap string string :=
  let target := Join [p; file] in
  if bool_decide (Clean target = target) && bool_decide (out !! target = None) then <[target := content]> out else out.
Definition skillPrefix : string := FilesRoot +:+ "/" +:+ SkillsDir +:+ "/".
(** The body of the loop of [definitionFilesFor]. *)
Definition copySkillFile (providerName : string) (out : gmap string string) (kv : string * string) : gmap string string :=
  match cut_prefix kv.1 skillPrefix with
  | None => out
  | Some rest =>
      match cut "/" rest with
      | None => out
      | Some (name, file) =>
          match skillDestPrefixesFor providerName name with
          | None => out
          | Some prefixes => foldl (copyTo file kv.2) out prefixes
          end
      end
  end.
(** [definitionFilesFor]; Go leaves the order of the loop open, [order] is one. *)
Definition definitionFilesFor (order : list (string * string)) (providerName : string) (files : gmap string string) : gmap string string :=
  let out := definitionFiles files in
  match skillRoots providerName with
  | None => out
  | Some _ => foldl (copySkillFile providerName) out order
  end.
End Plant.

(** [PlantDefinitionFiles]: the files it writes below the root, one after the other; it stops
    at the first that it refuses. *)
Fixpoint PlantDefinitionFiles (order : list (string * string)) (disk : gmap string string) : result string (gmap string string) :=
  match order with
  | [] => Ok disk
  | (rel, content) :: order =>
      if bool_decide (Clean rel = rel) && has_prefix rel (FilesRoot +:+ "/")
      then PlantDefinitionFiles order (<[rel := content]> disk)
      else Err rel
  end.

(** ** Skill trees *)

Record skillTreeFile := mkTreeFile { tf_Path : string; tf_Content : string }.
Record skillTree := mkTree { st_Format : string; st_Files : list skillTreeFile }.
Definition SkillTreeFormat : string := "nanite-skill-tree/v1".
Definition MaxSkillTreeBytes : nat := 1048576.

Inductive TErr :=
| ErrPath (p : string)
| ErrNoSkillMd
| ErrTooLarge
| ErrEncode
| ErrDecode
| ErrFormat (f : string)
| ErrDuplicate (p : string).

Definition checkSkillPath (p : string) : bool :=
  negb (bool_decide (p = "") || negb (bool_decide (Clean p = p)) || IsAbs p || bool_decide (p = "..")
        || has_prefix p "../" || negb (no_byte "\" p)).

(** The codec of [encoding/json] on trees. *)
Class TreeCodec := {
  encodeTree : skillTree → option string;
  decodeTree : string → option skillTree;
}.
Section Trees.
Context `{TreeCodec}.

(** Byte order on paths. *)
Definition path_le (a b : skillTreeFile) : Prop := String.leb (tf_Path a) (tf_Path b) = true.
#[global] Instance path_le_dec : RelDecision path_le.
Proof. intros a b. unfold path_le. apply _. Defined.

Definition EncodeSkillTree (files : gmap string string) : result TErr string :=
  let l := map_to_list files in
  match list_find (λ kv : string * string, checkSkillPath kv.1 = false) l with
  | Some (_, kv) => Err (ErrPath kv.1)
  | None =>
      match files !! "SKILL.md" with
      | None => Err ErrNoSkillMd
      | Some _ =>
          match encodeTree (mkTree SkillTreeFormat (merge_sort path_le ((λ kv, mkTreeFile kv.1 kv.2) <$> l))) with
          | None => Err ErrEncode
          | Some buf => if MaxSkillTreeBytes <? String.length buf then Err ErrTooLarge else Ok buf
          end
      end
  end.
Fixpoint collect (l : list skillTreeFile) (out : gmap string string) : result TErr (gmap string string) :=
  match l with
  | [] => Ok out
  | f :: l =>
      if negb (checkSkillPath (tf_Path f)) then Err (ErrPath (tf_Path f))
      else match out !! tf_Path f with
           | Some _ => Err (ErrDuplicate (tf_Path f))
           | None => collect l (<[tf_Path f := tf_Content f]> out)
           end
  end.
Definition DecodeSkillTree (data : string) : result TErr (gmap string string) :=
  match decodeTree data with
  | None => Err ErrDecode
  | Some t =>
      if negb (bool_decide (st_Format t = SkillTreeFormat)) then Err (ErrFormat (st_Format t))
      else
        out ← collect (st_Files t) ∅;
        match out !! "SKILL.md" with
        | None => Err ErrNoSkillMd
        | Some _ => Ok out
        end
  end.

(** ** Delivery of granted skills *)

(** A row of [agent_definition_resources], read for a reference of the definition. *)
Inductive ResourceRead := RFound (body : string) | RNoRows | RFailed.
Inductive DErr := ErrResource | ErrEscapes (name rel : string).

(** [GrantedSkillTrees]; [granted] is the grants of the host revision. *)
Fixpoint GrantedSkillTrees (resource : Ref → ResourceRead) (granted : gmap string string) (skills : list Skill)
  (out : gmap string (gmap string string)) : result DErr (gmap string (gmap string string)) :=
  match skills with
  | [] => Ok out
  | sk :: skills =>
      let g := default "" (granted !! sk_Name sk) in
      if bool_decide (g = "") || negb (bool_decide (g = Digest (sk_Content sk))) then GrantedSkillTrees resource granted skills out
      else
        match resource (sk_Content sk) with
        | RNoRows => GrantedSkillTrees resource granted skills out
        | RFailed => Err ErrResource
        | RFound body =>
            match DecodeSkillTree body with
            | Err _ => GrantedSkillTrees resource granted skills out
            | Ok tree => GrantedSkillTrees resource granted skills (<[sk_Name sk := tree]> out)
            end
        end
  end.
(** The files of one skill, in some order. *)
Fixpoint deliverTree (name : string) (tree : list (string * string)) (files : gmap string string) : result DErr (gmap string string) :=
  match tree with
  | [] => Ok files
  | (rel, content) :: tree =>
      let dest := Join [FilesRoot; SkillsDir; name; rel] in
      if has_prefix dest (Join [FilesRoot; SkillsDir; name] +:+ "/")
      then deliverTree name tree (<[dest := content]> files)
      else Err (ErrEscapes name rel)
  end.
Fixpoint deliverTrees (trees : list (string * gmap string string)) (files : gmap string string) (delivered : gset string)
  : result DErr (gmap string string * gset string) :=
  match trees with
  | [] => Ok (files, delivered)
  | (name, tree) :: trees =>
      files ← deliverTree name (map_to_list tree) files;
      deliverTrees trees files ({[name]} ∪ delivered)
  end.
(** By name. *)
Definition name_le (a b : string * gmap string string) : Prop := String.leb a.1 b.1 = true.
#[global] Instance name_le_dec : RelDecision name_le.
Proof. intros a b. unfold name_le. apply _. Defined.
(** [deliverGrantedSkills]: the files of the session and the skills it reports as applied. *)
Definition deliverGrantedSkills (resource : Ref → ResourceRead) (granted : gmap string string) (d : Definition_) (files : gmap string string)
  : result DErr (gmap string string * gset string) :=
  match d_Skills d with
  | [] => Ok (files, ∅)
  | _ =>
      trees ← GrantedSkillTrees resource granted (d_Skills d) ∅;
      deliverTrees (merge_sort name_le (map_to_list trees)) files ∅
  end.
End Trees.

(** ** What a launch honors *)

Inductive Disposition := Applied | Recorded | Unmet | Refused.
#[global] Instance Disposition_eq_dec : EqDecision Disposition.
Proof. solve_decision. Defined.
Record FieldReport := mkField { Field : string; Disposed : Disposition; Detail : string }.

(** The host publishes no capability. *)
Definition HostCapabilities (_ : string) : bool := false.

Section Report.
Context (quote : string → string) (Ephemeral : string).

Definition quoted (l : list string) : string := join ", " (quote <$> l).
Definition unmet (l : list string) : list string := filter (λ r, HostCapabilities r = false) l.
Definition when (b : bool) (field : string) (disp : Disposition) (detail : string) : list FieldReport :=
  if b then [mkField field disp detail] else [].
Definition some {A} (l : list A) : bool := match l with [] => false | _ => true end.
Definition count {A} (l : list A) : string := pretty (length l).

Definition report_requires (l : list string) : list FieldReport :=
  if some (unmet l)
  then [mkField "requirements.requires" Refused ("required capability " +:+ quoted (unmet l) +:+ " is not provided by this host")]
  else when (some l) "requirements.requires" Applied "every required capability is provided".
Definition report_uses (l : list string) : list FieldReport :=
  if some l then
    if some (unmet l)
    then [mkField "requirements.uses" Unmet ("capability " +:+ quoted (unmet l) +:+ " is not provided by this host")]
    else [mkField "requirements.uses" Recorded "every used capability is provided"]
  else [].
Definition report_skills (delivered : gset string) (l : list Skill) : list FieldReport :=
  let got := filter (λ n, n ∈ delivered) (sk_Name <$> l) in
  let missing := filter (λ n, n ∉ delivered) (sk_Name <$> l) in
  if some l then
    match missing, got with
    | [], _ => [mkField "requirements.skills" Applied (count got +:+ " skill(s) are granted at their pinned digest and planted for the session")]
    | _, [] => [mkField "requirements.skills" Unmet
                  (count missing +:+ " skill(s) are stored and digest-pinned but not delivered: no skill grant covers them for this host revision")]
    | _, _ => [mkField "requirements.skills" Unmet (count got +:+ " skill(s) are planted; " +:+ count missing +:+
                  " are not delivered because no skill grant covers them: " +:+ quoted missing)]
    end
  else [].
Definition report_continuity (d : Definition_) : list FieldReport :=
  let memory := bool_decide (d_MemoryPolicy d ≠ None) in
  let recovery := bool_decide (d_RecoveryStrategy d ≠ None) in
  if bool_decide (d_Mode d = Ephemeral) then
    (when memory "continuity.memory_policy" Recorded "stored and digest-covered; an ephemeral launch keeps no memory" ++
     when recovery "continuity.recovery_strategy" Recorded "stored and digest-covered; an ephemeral launch is not recovered")%list
  else
    (mkField "continuity.mode" Refused ("continuity " +:+ quote (d_Mode d) +:+ " needs durable-agent enrollment, which a native launch does not perform") ::
     when memory "continuity.memory_policy" Refused "only recorded on an ephemeral definition" ++
     when recovery "continuity.recovery_strategy" Refused "only recorded on an ephemeral definition")%list.

Definition ExecutionReportWith (d : option Definition_) (delivered : gset string) : list FieldReport :=
  match d with
  | None => [mkField "definition" Refused "empty definition"]
  | Some d =>
      (when (some (d_Hooks d)) "behavior.hooks" Refused ("hook " +:+ quoted (d_Hooks d) +:+ " is not provided by this host") ++
       when (some (d_Capabilities d)) "capabilities" Recorded (count (d_Capabilities d) +:+ " advertised service(s) stored for discovery") ++
       report_requires (d_Requires d) ++ report_uses (d_Uses d) ++
       when (some (d_Tools d)) "requirements.tools" Recorded
         (count (d_Tools d) +:+ " tool request(s) stay pending until an operator grants them; a request is never a grant") ++
       report_skills delivered (d_Skills d) ++
       when (some (d_Resources d)) "requirements.resources" Applied (count (d_Resources d) +:+ " file(s) are planted for the session") ++
       when (some (d_Steering d)) "harness_profile.steering" Applied (count (d_Steering d) +:+ " document(s) are appended after the instructions, in order") ++
       when (some (d_Sources d)) "harness_profile.context.sources" Applied
         (count (d_Sources d) +:+ " file(s) are planted as reference files and listed in the instructions") ++
       when (bool_decide (d_ContextPolicy d ≠ None)) "harness_profile.context.policy" Recorded "an opaque pinned document, stored and digest-covered" ++
       when (negb (bool_decide (d_Permissions d ∈ ["default"; "read-only"]))) "harness_profile.permissions.profile" Refused
         ("permission profile " +:+ quote (d_Permissions d) +:+ " is not supported") ++
       when (some (d_Approvals d)) "harness_profile.approvals" Refused "ignoring an approval policy would silently weaken oversight" ++
       when (some (d_Escalation d)) "harness_profile.escalation" Refused "ignoring an escalation policy would silently weaken oversight" ++
       report_continuity d)%list
  end.
Definition ExecutionReport (d : option Definition_) : list FieldReport := ExecutionReportWith d ∅.
Definition refused (l : list FieldReport) : list FieldReport := filter (λ f, Disposed f = Refused) l.

(** [ValidateExecution]; [Validate] is the check of the [agentdef] library. *)
Inductive VErr := ErrUnsupportedExecution | ErrInvalid | ErrRefused (fields : string).
Definition ValidateExecution (Validate : Definition_ → bool) (d : option Definition_) : result VErr unit :=
  match d with
  | None => Err ErrUnsupportedExecution
  | Some d' =>
      if negb (Validate d') then Err ErrInvalid
      else match refused (ExecutionReport d) with
           | [] => Ok tt
           | l => Err (ErrRefused (join "; " ((λ f, Field f +:+ ": " +:+ Detail f) <$> l)))
           end
  end.
End Report.
