(* ===== verification/DefinitionSafety.v ===== *)
(** * What a definition can plant

    The files of a rendering lie below [agent/] and are what the definition pins; what is
    planted for a runtime stays apart from its other files; the delivery of skills adds only
    granted ones, but a pinned file reaches the skills of a runtime without a grant; packed
    skills unpack; and which definitions a launch honors. *)

From stdpp Require Import sorting pretty.
From S2P Require Import Prelude GoStrings GoPath Recovery DefinitionFiles.

Open Scope string_scope.
Open Scope nat_scope.
Set Default Proof Using "Type".

(** ** Relative paths by their components *)

(** A component that stays in its directory. *)
Definition plain (c : string) : Prop := comp_ok c ∧ c ≠ "..".
Definition path_of (cs : list string) : string := join Separator cs.
(** A clean path below the current directory. *)
Definition below (p : string) : Prop := ∃ cs, cs ≠ [] ∧ Forall plain cs ∧ p = path_of cs.

Lemma plain_comps cs : Forall plain cs → Forall comp_ok cs.
Proof. intros H. eapply Forall_impl; [apply H|]. by intros c []. Qed.
Lemma path_of_cons c cs : cs ≠ [] → path_of (c :: cs) = c +:+ String slash (path_of cs).
Proof. by destruct cs. Qed.
Lemma path_of_app a b : a ≠ [] → b ≠ [] → path_of (a ++ b) = path_of a +:+ String slash (path_of b).
Proof.
  induction a as [|x a IH]; [done|]. intros _ Hb. destruct a as [|y a].
  - cbn [app]. by rewrite path_of_cons.
  - cbn [app]. rewrite (path_of_cons x (y :: a ++ b)), (path_of_cons x (y :: a)) by done. rewrite (IH ltac:(done) Hb : path_of (y :: a ++ b)%list = _). by rewrite <- str_app_assoc, str_app_cons.
Qed.
Lemma split_path cs : cs ≠ [] → Forall comp_ok cs → split slash (path_of cs) = cs.
Proof. intros Hne Hcs. apply split_join; [done|]. eapply Forall_impl; [apply Hcs|]. by intros c (_ & _ & ?). Qed.
Lemma push_plain rooted st cs : Forall plain cs → fold_left (clean_step rooted) cs st = (rev cs ++ st)%list.
Proof.
  revert st. induction cs as [|c cs IH]; intros st; [done|]. intros [[(H1 & H2 & H3) H4] Hcs]%Forall_cons. cbn [fold_left rev].
  rewrite IH by done. unfold clean_step. rewrite !bool_decide_eq_false_2 by naive_solver. by rewrite <- app_assoc.
Qed.
Lemma path_of_not_nil cs : cs ≠ [] → Forall plain cs → path_of cs ≠ "".
Proof. intros Hne Hcs. apply join_not_nil; [done|]. by apply plain_comps. Qed.
Lemma below_not_abs cs : Forall plain cs → IsAbs (path_of cs) = false.
Proof. intros Hcs. by apply IsAbs_join, plain_comps. Qed.
Lemma clean_path cs : cs ≠ [] → Forall plain cs → Clean (path_of cs) = path_of cs.
Proof.
  intros Hne Hcs. unfold Clean. rewrite bool_decide_eq_false_2 by (by apply path_of_not_nil). rewrite below_not_abs by done.
  unfold clean_stack. rewrite below_not_abs, split_path, push_plain by (done || by apply plain_comps).
  rewrite app_nil_r, rev_involutive. by destruct cs.
Qed.

(** The shape of a clean relative path. *)
Lemma clean_below p : Clean p = p → p ≠ "." → IsAbs p = false → p ≠ ".." → has_prefix p "../" = false → below p.
Proof.
  intros Hc Hdot Ha Hdd Hpre. destruct (Clean_cases p) as [(-> & _)|[(_ & _ & _ & H)|(Hp & Hne & H)]]; [done|congruence|].
  rewrite Ha in H, Hne. specialize (Hne eq_refl). pose proof (clean_stack_ok p) as Hok. rewrite Ha in Hok.
  exists (rev (clean_stack p)). assert (rev (clean_stack p) ≠ []) as Hr.
  { intros E. apply Hne. by rewrite <- (rev_involutive (clean_stack p)), E. }
  assert (p = path_of (rev (clean_stack p))) as Hpath by (rewrite <- Hc at 1; rewrite H; by destruct (rev (clean_stack p))).
  split; [done|]. split; [|done].
  assert (Forall comp_ok (rev (clean_stack p))) as Hcs by (by eapply Forall_rev, stack_ok_comps).
  assert (∀ st, stack_ok false st → ".." ∈ st → ∃ t, st = (t ++ [".."])%list) as Hlast.
  { induction st as [|c st IH]; [by intros _ ?%not_elem_of_nil|]. intros (Hc1 & Hst & Hc2) [Heq|Hin]%elem_of_cons.
    - subst c. destruct (Hc2 eq_refl) as [_ Hd]. destruct st as [|d st]; [by exists []|]. subst d.
      destruct (IH Hst) as [t Ht]; [by left|]. exists (".." :: t). by rewrite Ht.
    - destruct (IH Hst Hin) as [t ->]. by exists (c :: t). }
  apply Forall_forall. intros c Hin. split; [by eapply Forall_forall in Hcs|]. intros ->.
  apply list_elem_of_In, in_rev, list_elem_of_In in Hin. destruct (Hlast _ Hok Hin) as [t Ht].
  rewrite Ht, rev_app_distr in Hpath. cbn [rev app] in Hpath. destruct (rev t) as [|x u]; [done|].
  rewrite Hpath in Hpre. apply has_prefix_false in Hpre. apply Hpre. rewrite path_of_cons by done. by eexists.
Qed.

(** Joining paths below the current directory concatenates them. *)
Lemma join_below a b : a ≠ [] → b ≠ [] → Forall plain a → Forall plain b → Join [path_of a; path_of b] = path_of (a ++ b).
Proof.
  intros Ha Hb HA HB. cbn [Join]. rewrite bool_decide_eq_false_2 by (by apply path_of_not_nil). cbn [join].
  change (path_of a +:+ Separator +:+ path_of b) with (path_of a +:+ String slash (path_of b)). rewrite <- path_of_app by done.
  apply clean_path; [by destruct a|]. by apply Forall_app.
Qed.
Lemma path_of_one c : path_of [c] = c.
Proof. done. Qed.
Lemma plain_lit c : bool_decide (c ≠ "" ∧ c ≠ "." ∧ no_byte slash c = true ∧ c ≠ "..") = true → plain c.
Proof. intros (? & ? & ? & ?)%bool_decide_eq_true. done. Qed.
Lemma below_under c p : plain c → below p → below (Join [c; p]) ∧ Join [c; p] = c +:+ String slash p.
Proof.
  intros Hc (cs & Hne & Hcs & ->). rewrite <- (path_of_one c) at 1 2. rewrite (join_below [c] cs) by (done || by constructor).
  split; [exists (c :: cs); split_and!; [done|by constructor|done]|]. by rewrite <- path_of_cons.
Qed.

(** ** Planted files *)

(** What a digest of the [agentdef] library looks like. *)
Definition digest_ok (dg : string) : Prop := ∃ h, dg = "sha256:" +:+ h ∧ 12 ≤ String.length h ∧ no_byte slash h = true.
Definition in_root (p : string) : Prop := below p ∧ has_prefix p (FilesRoot +:+ "/") = true.

Lemma no_byte_take c n s : no_byte c s = true → no_byte c (str_take n s) = true.
Proof.
  revert n. induction s as [|a s IH]; intros [|n]; cbn; try done. intros [Ha Hs]%andb_true_iff. by rewrite Ha, IH.
Qed.
Lemma no_byte_app c a b : no_byte c (a +:+ b) = no_byte c a && no_byte c b.
Proof. induction a as [|x a IH]; [by rewrite str_app_nil_l|]. rewrite str_app_cons. cbn [no_byte]. by rewrite IH, andb_assoc. Qed.
Lemma under_root p : below p → in_root (Join [FilesRoot; p]).
Proof.
  intros Hp. destruct (below_under FilesRoot p) as [H1 H2]; [by apply plain_lit|done|]. split; [done|].
  apply has_prefix_spec. exists p. rewrite H2. by rewrite <- str_app_assoc.
Qed.
Lemma digestPath_ok ref : digest_ok (Digest ref) → ∃ p, digestPath ref = Some p ∧ in_root p.
Proof.
  intros (h & Hd & Hlen & Hh). unfold digestPath, TrimPrefix. rewrite Hd.
  assert (cut_prefix ("sha256:" +:+ h) "sha256:" = Some h) as -> by by apply cut_prefix_Some.
  cbn [default from_option]. unfold id, upto. rewrite (proj2 (Nat.leb_le _ _) Hlen). cbn. eexists. split; [done|].
  apply under_root. exists ["ref-" +:+ str_take 12 h]. split_and!; [done| |done]. constructor; [|done].
  split; [|by destruct (str_take 12 h)]. split_and!; [by destruct (str_take 12 h)..|]. rewrite no_byte_app, no_byte_take by done. done.
Qed.
Lemma plantPath_ok ref : digest_ok (Digest ref) → ∃ p, plantPath ref = Some p ∧ in_root p.
Proof.
  intros Hd. unfold plantPath. destruct (_ || _) eqn:E; [by apply digestPath_ok|]. rewrite !orb_false_iff in E.
  destruct E as [[[[[H1%bool_decide_eq_false H2%bool_decide_eq_false] H3] H4] _] _]. eexists. split; [done|].
  apply under_root, clean_below; try done. apply Clean_idempotent.
Qed.

Section Planting.
Context (ArtifactDigest : string → string) (read : option (Ref → option string)).
Hypothesis digests : ∀ body, digest_ok (ArtifactDigest body).

(** A file that was read and verified for one of [refs]. *)
Definition pinned (refs : list Ref) (p body : string) : Prop :=
  in_root p ∧ ∃ ref r, ref ∈ refs ∧ read = Some r ∧ r ref = Some body ∧ ArtifactDigest body = Digest ref.
Definition all_pinned (refs : list Ref) (files : gmap string string) : Prop := map_Forall (pinned refs) files.

Lemma fetch_ok ref body : fetch ArtifactDigest read ref = Ok body →
  ∃ r, read = Some r ∧ r ref = Some body ∧ ArtifactDigest body = Digest ref.
Proof.
  unfold fetch. destruct read as [r|]; [|done]. destruct (r ref) as [b|] eqn:Hr; [|done]. case_bool_decide; [|done].
  intros [= <-]. by exists r.
Qed.
Lemma fetch_no_panic ref : fetch ArtifactDigest read ref ≠ Err PanicSlice.
Proof. unfold fetch. destruct read as [r|]; [|done]. destruct (r ref); [|done]. by case_bool_decide. Qed.
Lemma plant_pinned refs ref P : ref ∈ refs → all_pinned refs (pl_files P) →
  match plant ArtifactDigest read ref P with Ok (_, P') => all_pinned refs (pl_files P') | Err e => e ≠ PanicSlice end.
Proof using digests.
  intros Hin HP. unfold plant. destruct (fetch ArtifactDigest read ref) as [body|e] eqn:Hf; cbn.
  - destruct (fetch_ok ref body Hf) as (r & Hr & Hb & Hd). pose proof (digests body) as Hok. rewrite Hd in Hok.
    destruct (plantPath_ok ref Hok) as (p & -> & Hp), (digestPath_ok ref Hok) as (q & Hq & Hq').
    assert (∀ x, in_root x → all_pinned refs (<[x := body]> (pl_files P))) as Hins.
    { intros x Hx. apply map_Forall_insert_2; [|done]. split; [done|]. by exists ref, r. }
    rewrite Hq. destruct (match pl_digests P !! p with Some prior => _ | None => _ end); by apply Hins.
  - intros ->. by apply (fetch_no_panic ref).
Qed.
Lemma plantAll_pinned refs l P : Forall (λ r, r ∈ refs) l → all_pinned refs (pl_files P) →
  match plantAll ArtifactDigest read l P with Ok (_, P') => all_pinned refs (pl_files P') | Err e => e ≠ PanicSlice end.
Proof using digests.
  revert P. induction l as [|ref l IH]; intros P; cbn [plantAll]; [done|]. intros [Hr Hl]%Forall_cons HP.
  pose proof (plant_pinned refs ref P Hr HP) as H1. destruct (plant ArtifactDigest read ref P) as [[p P1]|e]; cbn; [|done].
  pose proof (IH P1 Hl H1) as H2. destruct (plantAll ArtifactDigest read l P1) as [[ps P2]|e]; done.
Qed.
Lemma documents_no_panic text refs : documents ArtifactDigest read text refs ≠ Err PanicSlice.
Proof.
  revert text. induction refs as [|ref refs IH]; intros text; cbn [documents]; [done|]. pose proof (fetch_no_panic ref).
  destruct (fetch ArtifactDigest read ref); cbn; [apply IH|congruence].
Qed.

(** C13. What a definition plants is what it pins: every file of a rendering lies under [agent/]
    in the session, at a clean path that no [..] leaves, and its bytes were read for a
    resource or context source of the definition and have the digest that pins; and no
    reference makes [Render] panic. *)
Theorem rendered_files_are_pinned d :
  match Render ArtifactDigest read (Some d) with
  | Ok out => ∀ p body, Files out !! p = Some body → Clean p = p ∧ has_prefix p (FilesRoot +:+ "/") = true ∧
      (∃ cs, p = path_of cs ∧ ".." ∉ cs) ∧
      ∃ ref r, (ref ∈ d_Resources d ∨ ref ∈ d_Sources d) ∧ read = Some r ∧ r ref = Some body ∧ ArtifactDigest body = Digest ref
  | Err e => e ≠ PanicSlice
  end.
Proof using digests.
  unfold Render. pose proof (documents_no_panic (d_Purpose d +:+ paragraph +:+ d_Body d) (d_Instructions d ++ d_SOPs d)) as H1.
  destruct (documents _ _ _ _) as [text|]; cbn [mbind result_bind]; [|congruence]. set (t := if bool_decide _ then text else _).
  pose proof (documents_no_panic t (d_Steering d)) as H2. destruct (documents _ _ t _) as [t2|]; cbn; [|congruence].
  set (refs := (d_Resources d ++ d_Sources d)%list).
  pose proof (plantAll_pinned refs (d_Resources d) (mkPlanted ∅ ∅)) as H3.
  destruct (plantAll _ _ (d_Resources d) _) as [[ps P1]|e]; cbn; [|apply H3; [|apply map_Forall_empty]; apply Forall_forall; intros x Hx; apply elem_of_app; by left].
  pose proof (plantAll_pinned refs (d_Sources d) P1) as H4.
  destruct (plantAll _ _ (d_Sources d) P1) as [[qs P2]|e]; cbn.
  all: assert (all_pinned refs (pl_files P1)) as HP1 by (apply H3; [|apply map_Forall_empty]; apply Forall_forall; intros x Hx; apply elem_of_app; by left).
  all: assert (Forall (λ r, r ∈ refs) (d_Sources d)) as Hsrc by (apply Forall_forall; intros x Hx; apply elem_of_app; by right).
  - intros p body Hp. destruct (H4 Hsrc HP1 p body Hp) as [[(cs & Hne & Hcs & ->) Hpre] (ref & r & Hin & Hr)].
    split_and!; [by apply clean_path|done| |exists ref, r; split; [by apply elem_of_app in Hin|done]].
    exists cs. split; [done|]. intros H. rewrite Forall_forall in Hcs. by destruct (Hcs _ H).
  - by apply H4.
Qed.
End Planting.

(** A digest of the right shape, that tells two texts apart. *)
Definition two_digests (body : string) : string :=
  if bool_decide (body = "a") then "sha256:aaaaaaaaaaaaaaaa" else "sha256:bbbbbbbbbbbbbbbb".
Lemma two_digests_ok body : digest_ok (two_digests body).
Proof. unfold two_digests. case_bool_decide; eexists; (split; [reflexivity|]); split; [cbn; lia|done|cbn; lia|done]. Qed.
Definition read_texts (ref : Ref) : option string := Some (if bool_decide (Digest ref = "sha256:aaaaaaaaaaaaaaaa") then "a" else "b").
(** One resource by its place, one that would leave the root. *)
Definition two_files : Definition_ :=
  mkDefinition "p" "b" [] [] "" [] [] [] [] [] [] [mkRef "file:docs/./a.md" (two_digests "a"); mkRef "file:../../etc/passwd" (two_digests "b")]
    [] [] None "default" [] [] "ephemeral" None None.
Lemma rendered_files_are_pinned_witness :
  ∃ out, Render two_digests (Some read_texts) (Some two_files) = Ok out ∧
    Files out !! "agent/docs/a.md" = Some "a" ∧ Clean "agent/docs/a.md" = "agent/docs/a.md" ∧ ".." ∉ split slash "agent/docs/a.md".
Proof.
  eexists. split; [vm_compute; reflexivity|]. split; [vm_compute; reflexivity|].
  pose proof (rendered_files_are_pinned two_digests (Some read_texts) two_digests_ok two_files) as H.
  destruct (Render two_digests (Some read_texts) (Some two_files)) as [out|] eqn:E; [|vm_compute in E; discriminate E].
  destruct (H "agent/docs/a.md" "a") as (H1 & _ & H2 & _); [vm_compute in E; injection E as <-; vm_compute; reflexivity|].
  split; [exact H1|]. vm_compute. intros Hin. repeat (apply elem_of_cons in Hin as [Hin|Hin]; [discriminate Hin|]). by apply not_elem_of_nil in Hin.
Defined.

(** Two context sources at one place: the second, which may not lie where its reference says,
    gets the name made from its digest, which the first has taken; the first is listed and
    its bytes are gone. *)
Definition same_place : Definition_ :=
  mkDefinition "p" "b" [] [] "" [] [] [] [] [] [] [] [] [mkRef "file:ref-bbbbbbbbbbbb" (two_digests "a"); mkRef "file:../x" (two_digests "b")]
    None "default" [] [] "ephemeral" None None.
Example planted_over :
  match Render two_digests (Some read_texts) (Some same_place) with
  | Ok out => map_to_list (Files out) = [("agent/ref-bbbbbbbbbbbb", "b")]
  | Err _ => False
  end.
Proof. vm_compute. reflexivity. Qed.

(** A path below a clean directory. *)
Lemma clean_child p cs : Clean p = p → p ≠ "." → p ≠ "/" → p ≠ "" → cs ≠ [] → Forall plain cs →
  Join [p; path_of cs] = p +:+ String slash (path_of cs).
Proof.
  intros Hc Hdot Hroot Hp Hne Hcs. cbn [Join]. rewrite bool_decide_eq_false_2 by done. cbn [join].
  change (p +:+ Separator +:+ path_of cs) with (p +:+ String slash (path_of cs)). unfold Clean.
  rewrite bool_decide_eq_false_2 by (by destruct p). unfold clean_stack. rewrite IsAbs_app by done. rewrite split_sep, fold_left_app.
  rewrite split_path, push_plain by (done || by apply plain_comps). change (fold_left _ (split slash p) []) with (clean_stack p).
  rewrite rev_app_distr, rev_involutive.
  destruct (Clean_cases p) as [(-> & _)|[(_ & _ & _ & H)|(_ & Hst & H)]]; [done|congruence|]. rewrite Hc in H.
  assert (rev (clean_stack p) ≠ []) as Hr.
  { destruct (IsAbs p) eqn:Ha; cbn in H; [by intros E; rewrite E in H|]. intros E. apply (Hst eq_refl). by rewrite <- (rev_involutive (clean_stack p)), E. }
  assert (p = render (IsAbs p) (rev (clean_stack p))) as Hp' by done. rewrite Hp' at 3. unfold render.
  pose proof (path_of_app _ _ Hr Hne) as Happ. unfold path_of in Happ.
  destruct (IsAbs p); [by rewrite Happ, str_app_assoc|]. destruct (rev (clean_stack p)) as [|x l]; [done|]. exact Happ.
Qed.

Lemma path_of_split s : path_of (split slash s) = s.
Proof.
  induction s as [|a s IH]; [done|]. cbn [split]. pose proof (split_not_nil slash s). case_bool_decide as Ha.
  - rewrite path_of_cons, IH by done. by subst a.
  - destruct (split slash s) as [|h t]; [done|]. unfold path_of in *. destruct t as [|x t]; cbn [join] in *; [by subst h|]. by rewrite str_app_cons, IH.
Qed.
Lemma Join_clean l : Join l ≠ "" → Clean (Join l) = Join l.
Proof.
  induction l as [|e l IH]; cbn [Join]; [done|]. case_bool_decide; [done|]. intros _. apply Clean_idempotent.
Qed.

Section Runtime.
Context (lookup : string → option string) (table : list LayoutRow).

Lemma dest_ok root slug dest : skillDestPrefixSafe root slug = Some dest → no_byte slash slug = true →
  dest = root +:+ String slash slug ∧ ∀ cs, cs ≠ [] → Forall plain cs → Join [dest; path_of cs] = dest +:+ String slash (path_of cs).
Proof.
  unfold skillDestPrefixSafe. case_bool_decide as Hs; [done|]. set (dst := Join [root; slug]). case_bool_decide as Hd; [|done].
  intros Heq Hslug. assert (dst = dest) as Hdst by congruence. rewrite sep_app in Hd.
  split; [congruence|]. intros cs Hne Hcs. rewrite <- Hdst. assert (dst ≠ "") as Hnn by (rewrite Hd; by destruct root).
  apply clean_child; try done; [by apply Join_clean| |]; rewrite Hd.
  - destruct root as [|a [|b root]]; [by intros [=]|by intros [=]|by intros [=]].
  - destruct root as [|a [|b root]]; [|by intros [=]|by intros [=]]. rewrite str_app_nil_l. by intros [= ->].
Qed.

(** A target of the copies of skills. *)
Definition skill_copy (providerName : string) (files : gmap string string) (target content : string) : Prop :=
  ∃ roots root name cs, skillRoots lookup table providerName = Some roots ∧ root ∈ roots ∧
    name ≠ "" ∧ no_byte slash name = true ∧ cs ≠ [] ∧ Forall plain cs ∧ target = root +:+ "/" +:+ name +:+ "/" +:+ path_of cs ∧
    definitionFiles files !! (skillPrefix +:+ name +:+ "/" +:+ path_of cs) = Some content.

Lemma definition_file files rel content : definitionFiles files !! rel = Some content →
  files !! rel = Some content ∧ ∃ cs, cs ≠ [] ∧ Forall plain cs ∧ rel = path_of (FilesRoot :: cs).
Proof.
  unfold definitionFiles. intros [Hf [Hc Hp]]%map_lookup_filter_Some. cbn in *. split; [done|].
  apply has_prefix_spec in Hp as [r Hr]. assert (below rel) as (cs & Hne & Hcs & Hrel).
  { apply clean_below; try done; rewrite Hr; try done. }
  assert (split slash rel = FilesRoot :: split slash r) as Hs.
  { rewrite Hr. rewrite <- str_app_assoc, str_app_cons, str_app_nil_l. by apply split_app. }
  rewrite Hrel, split_path in Hs by (done || by apply plain_comps). exists (split slash r).
  split; [apply split_not_nil|]. rewrite Hs in Hcs. split; [by apply Forall_cons in Hcs as [_ ?]|]. by rewrite Hrel, Hs.
Qed.
(** The parts of a file below [agent/skills]. *)
Lemma skill_file files rel content rest name file : definitionFiles files !! rel = Some content →
  cut_prefix rel skillPrefix = Some rest → cut "/" rest = Some (name, file) →
  name ≠ "" ∧ no_byte slash name = true ∧ ∃ cs, cs ≠ [] ∧ Forall plain cs ∧ file = path_of cs ∧ rel = skillPrefix +:+ name +:+ "/" +:+ path_of cs.
Proof.
  intros Hf Hrest%cut_prefix_Some [Hcut Hname]%cut_Some. destruct (definition_file files rel content Hf) as (_ & cs & Hne & Hcs & Hrel).
  assert (split slash rel = FilesRoot :: SkillsDir :: name :: split slash file) as Hs.
  { assert (rel = FilesRoot +:+ String slash (SkillsDir +:+ String slash (name +:+ String slash file))) as -> by (by rewrite Hrest, Hcut).
    by rewrite !split_app. }
  rewrite Hrel, split_path in Hs; [|done|constructor; [by apply plain_lit|by apply plain_comps]]. injection Hs as Hs. rewrite Hs in Hcs, Hrel.
  apply Forall_cons in Hcs as [_ Hcs]. apply Forall_cons in Hcs as [[[Hn _] _] Hcs]. split; [done|]. split; [done|].
  exists (split slash file). pose proof (split_not_nil slash file) as Hnn. split_and!; [done|done| |].
  - by rewrite path_of_split.
  - rewrite Hrel, !path_of_cons by done. done.
Qed.

Lemma prefixes_ok providerName name l : skillDestPrefixesFor lookup table providerName name = Some l →
  ∃ roots, skillRoots lookup table providerName = Some roots ∧ Forall2 (λ r d, skillDestPrefixSafe r name = Some d) roots l.
Proof.
  unfold skillDestPrefixesFor. destruct (skillRoots lookup table providerName) as [roots|]; [|done]. cbn. intros H.
  exists roots. split; [done|]. by apply mapM_Some_1 in H.
Qed.
(** What is planted for a runtime so far. *)
Definition contained (providerName : string) (files out : gmap string string) : Prop :=
  ∀ target c, out !! target = Some c → definitionFiles files !! target = Some c ∨ skill_copy providerName files target c.
Lemma copy_contained providerName files out rel content : definitionFiles files !! rel = Some content → contained providerName files out →
  contained providerName files (copySkillFile lookup table providerName out (rel, content)).
Proof.
  intros Hf Hout. unfold copySkillFile. cbn [fst snd]. destruct (cut_prefix rel skillPrefix) as [rest|] eqn:Hr; [|done].
  destruct (cut "/" rest) as [[name file]|] eqn:Hc; [|done].
  destruct (skillDestPrefixesFor lookup table providerName name) as [l|] eqn:Hl; [|done].
  destruct (skill_file files rel content rest name file Hf Hr Hc) as (Hn1 & Hn2 & cs & Hne & Hcs & -> & Hrel).
  destruct (prefixes_ok providerName name l Hl) as (roots & Hroots & HF). assert (Forall (λ d, ∃ r, r ∈ roots ∧ skillDestPrefixSafe r name = Some d) l) as Hall.
  { clear -HF. induction HF as [|r d roots l Hd HF IH]; constructor; [exists r; split; [by left|done]|].
    eapply Forall_impl; [apply IH|]. intros x (y & ? & ?). exists y. split; [by right|done]. }
  clear HF Hl. revert out Hout. induction l as [|d l IH]; intros out Hout; [done|]. apply Forall_cons in Hall as [(r & Hin & Hd) Hall].
  cbn [foldl]. apply IH; [done|]. unfold copyTo. destruct (bool_decide _ && _); [|done].
  intros target c. rewrite lookup_insert_Some. intros [[<- <-]|[_ H]]; [right|by apply Hout].
  destruct (dest_ok r name d Hd Hn2) as [Hdest Hjoin]. exists roots, r, name, cs. rewrite Hjoin, Hdest by done.
  split_and!; try done; [by rewrite <- str_app_assoc, str_app_cons|by rewrite <- Hrel].
Qed.
Lemma copies_contained providerName files order out : (∀ rel c, (rel, c) ∈ order → definitionFiles files !! rel = Some c) →
  contained providerName files out → contained providerName files (foldl (copySkillFile lookup table providerName) out order).
Proof.
  revert out. induction order as [|[rel c] order IH]; intros out Ho Hout; [done|]. cbn [foldl]. apply IH.
  - intros. apply Ho. by right.
  - apply copy_contained; [|done]. apply Ho. by left.
Qed.

(** A definition reaches no file of its runtime but its own: whatever files it plants, for
    every provider and every order of the loop, each of them is below [agent/], or below
    the directory of one skill in the skill root of the provider, where it is the copy of
    the file at the same place below [agent/skills/]. *)
Theorem planted_files_stay_apart order providerName files target content :
  order ≡ₚ map_to_list (definitionFiles files) →
  definitionFilesFor lookup table order providerName files !! target = Some content →
  (files !! target = Some content ∧ ∃ cs, cs ≠ [] ∧ ".." ∉ cs ∧ target = path_of (FilesRoot :: cs)) ∨
  ∃ roots root name cs, skillRoots lookup table providerName = Some roots ∧ root ∈ roots ∧
    name ≠ "" ∧ no_byte slash name = true ∧ cs ≠ [] ∧ ".." ∉ cs ∧ target = root +:+ "/" +:+ name +:+ "/" +:+ path_of cs ∧
    files !! (skillPrefix +:+ name +:+ "/" +:+ path_of cs) = Some content.
Proof.
  intros Ho Ht. assert (∀ cs, Forall plain cs → ".." ∉ cs) as Hdd.
  { intros cs Hcs H. rewrite Forall_forall in Hcs. by destruct (Hcs _ H). }
  assert (contained providerName files (definitionFilesFor lookup table order providerName files)) as Hc.
  { unfold definitionFilesFor. destruct (skillRoots _ _ _); [|by left]. apply copies_contained; [|by left].
    intros rel c. rewrite Ho. apply elem_of_map_to_list. }
  destruct (Hc target content Ht) as [H|(roots & root & name & cs & ? & ? & ? & ? & ? & ? & ? & H)].
  - left. destruct (definition_file files target content H) as (? & cs & ? & ? & ?). split; [done|]. exists cs. auto.
  - right. destruct (definition_file files _ _ H) as (? & _). exists roots, root, name, cs. split_and!; auto.
Qed.



End Runtime.

Definition no_lookup (_ : string) : option string := None.
Definition claude_skills : list LayoutRow := [mkRow "claude" true ".claude/skills/{name}/SKILL.md"].
Lemma planted_files_stay_apart_witness :
  ∃ roots root name cs, skillRoots no_lookup claude_skills "claude" = Some roots ∧ root ∈ roots ∧
    ".claude/skills/x/SKILL.md" = root +:+ "/" +:+ name +:+ "/" +:+ path_of cs.
Proof.
  destruct (planted_files_stay_apart no_lookup claude_skills [("agent/skills/x/SKILL.md", "a")] "claude" {["agent/skills/x/SKILL.md" := "a"]}
    ".claude/skills/x/SKILL.md" "a") as [[H _]|(roots & root & name & cs & H1 & H2 & _ & _ & _ & _ & H & _)];
    [vm_compute; reflexivity|vm_compute; reflexivity|vm_compute in H; discriminate H|].
  exists roots, root, name, cs. split; [exact H1|]. split; [exact H2|exact H].
Defined.

(** ** Skill trees *)

(** What [encoding/json] does with a string: bytes that are not UTF-8 become U+FFFD. *)
Definition to_valid (s : string) : string := of_runes (runes s).
Class TreeCodecLaws `{TreeCodec} := {
  decode_encode t s : encodeTree t = Some s →
    decodeTree s = Some (mkTree (st_Format t) ((λ f, mkTreeFile (to_valid (tf_Path f)) (tf_Content f)) <$> st_Files t));
}.

Section TreeLaws.
Context `{codec : TreeCodec} {laws : TreeCodecLaws}.

Definition pairs (l : list skillTreeFile) : list (string * string) := (λ f, (tf_Path f, tf_Content f)) <$> l.
Lemma collect_ok l out : Forall (λ f, checkSkillPath (tf_Path f) = true) l → NoDup (tf_Path <$> l) → Forall (λ f, out !! tf_Path f = None) l →
  collect l out = Ok (list_to_map (pairs l) ∪ out).
Proof.
  revert out. induction l as [|f l IH]; intros out; cbn [collect]; [cbn; by rewrite (left_id_L ∅ (∪))|].
  intros [Hf Hl]%Forall_cons [Hnf Hnd]%NoDup_cons [Hof Hol]%Forall_cons. rewrite Hf, Hof. cbn [negb].
  rewrite IH; [|done..|].
  - f_equal. cbn. rewrite <- insert_union_l. symmetry. apply insert_union_r. apply not_elem_of_list_to_map_1.
    unfold pairs. rewrite <- list_fmap_compose. done.
  - apply Forall_forall. intros g Hg. rewrite lookup_insert_ne; [by eapply Forall_forall in Hol|]. intros E. apply Hnf. rewrite E. by apply list_elem_of_fmap_2.
Qed.

(** A packed skill unpacks to its files: when [EncodeSkillTree] packs a folder whose paths are
    UTF-8, [DecodeSkillTree] gives exactly these files back, and they are the files of a
    clean folder with a [SKILL.md]; the order of the map does not matter. *)
Theorem skill_tree_round_trip files data :
  EncodeSkillTree files = Ok data → (∀ p c, files !! p = Some c → to_valid p = p) →
  DecodeSkillTree data = Ok files ∧ is_Some (files !! "SKILL.md") ∧ map_Forall (λ p _, checkSkillPath p = true) files ∧
  String.length data ≤ MaxSkillTreeBytes.
Proof using laws.
  unfold EncodeSkillTree. set (mk := λ kv : string * string, mkTreeFile kv.1 kv.2). set (l := merge_sort path_le (mk <$> map_to_list files)).
  destruct (list_find _ _) as [[i kv]|] eqn:Hfind; [done|]. apply list_find_None in Hfind.
  destruct (files !! "SKILL.md") as [md|] eqn:Hmd; [|done]. destruct (encodeTree _) as [buf|] eqn:Henc; [|done].
  destruct (Nat.ltb_spec MaxSkillTreeBytes (String.length buf)) as [|Hlen]; [done|]. intros [= ->] Hvalid.
  assert (l ≡ₚ mk <$> map_to_list files) as Hperm by apply merge_sort_Permutation.
  assert (∀ f, f ∈ l → files !! tf_Path f = Some (tf_Content f)) as Hin.
  { intros f Hf. rewrite Hperm in Hf. apply list_elem_of_fmap in Hf as ([p c] & -> & Hpc). by apply elem_of_map_to_list in Hpc. }
  assert (map_Forall (λ p _, checkSkillPath p = true) files) as Hcheck.
  { intros p c Hp. apply elem_of_map_to_list in Hp. eapply Forall_forall in Hfind; [|exact Hp]. cbn in Hfind. by destruct (checkSkillPath p). }
  split_and!; [|by eexists|done|done]. unfold DecodeSkillTree. rewrite (decode_encode _ _ Henc). cbn [st_Format st_Files].
  rewrite bool_decide_eq_true_2 by done. cbn [negb].
  assert ((λ f, mkTreeFile (to_valid (tf_Path f)) (tf_Content f)) <$> l = l) as ->.
  { rewrite <- (list_fmap_id l) at 2. apply list_fmap_ext. intros i f Hf. apply list_elem_of_lookup_2 in Hf.
    rewrite (Hvalid _ _ (Hin f Hf)). by destruct f. }
  assert (pairs l ≡ₚ map_to_list files) as Hpairs.
  { unfold pairs. rewrite Hperm, <- list_fmap_compose. rewrite <- (list_fmap_id (map_to_list files)) at 2. apply reflexive_eq, list_fmap_ext. by intros i []. }
  assert (NoDup (tf_Path <$> l)) as Hnd.
  { assert (tf_Path <$> l = (pairs l).*1) as -> by (unfold pairs; by rewrite <- list_fmap_compose).
    rewrite Hpairs. apply NoDup_fst_map_to_list. }
  assert (list_to_map (pairs l) = files) as Hmap.
  { rewrite <- (list_to_map_to_list files). apply list_to_map_proper; [|done]. unfold pairs. by rewrite <- list_fmap_compose. }
  rewrite collect_ok; [|apply Forall_forall; intros f Hf; eapply Hcheck; by apply Hin|done|by apply Forall_forall].
  rewrite Hmap, (right_id_L ∅ (∪)). cbn. by rewrite Hmd.
Qed.

(** A decoded path stays below the folder its skill is delivered to. *)
Lemma decoded_below p : checkSkillPath p = true → p = "." ∨ below p.
Proof.
  unfold checkSkillPath. rewrite negb_true_iff, !orb_false_iff. intros [[[[[_ H2] H3] H4] H5] _].
  apply negb_false_iff, bool_decide_eq_true in H2. apply bool_decide_eq_false in H4.
  destruct (decide (p = ".")); [by left|right]. by apply clean_below.
Qed.
End TreeLaws.

(** ** The report *)

Section Reports.
Context (quote : string → string) (Ephemeral : string).

Lemma refused_app a b : refused (a ++ b) = (refused a ++ refused b)%list.
Proof. apply filter_app. Qed.
Lemma refused_when b field disp detail : refused (when b field disp detail) = if b && bool_decide (disp = Refused) then [mkField field disp detail] else [].
Proof. unfold when, refused. destruct b; [|done]. rewrite filter_cons. cbn [Disposed andb]. case_bool_decide as E; case_decide; done. Qed.
Lemma refused_skills delivered l : refused (report_skills quote delivered l) = [].
Proof. unfold report_skills. destruct (some l); [|done]. by repeat case_match. Qed.
Lemma unmet_all l : unmet l = l.
Proof. unfold unmet. induction l as [|x l IH]; [done|]. by rewrite filter_cons_True, IH. Qed.
Lemma refused_requires l : refused (report_requires quote l) = [] ↔ l = [].
Proof. unfold report_requires. rewrite unmet_all. by destruct l. Qed.
Lemma refused_uses l : refused (report_uses quote l) = [].
Proof. unfold report_uses. by repeat case_match. Qed.
Lemma refused_continuity d : refused (report_continuity quote Ephemeral d) = [] ↔ d_Mode d = Ephemeral.
Proof.
  unfold report_continuity. case_bool_decide as E; [rewrite refused_app, !refused_when, !andb_false_r; done|]. done.
Qed.
Lemma refused_report d delivered :
  refused (ExecutionReportWith quote Ephemeral (Some d) delivered) =
  (refused (when (some (d_Hooks d)) "behavior.hooks" Refused ("hook " +:+ quoted quote (d_Hooks d) +:+ " is not provided by this host")) ++
   refused (report_requires quote (d_Requires d)) ++
   refused (when (negb (bool_decide (d_Permissions d ∈ ["default"; "read-only"]))) "harness_profile.permissions.profile" Refused
     ("permission profile " +:+ quote (d_Permissions d) +:+ " is not supported")) ++
   refused (when (some (d_Approvals d)) "harness_profile.approvals" Refused "ignoring an approval policy would silently weaken oversight") ++
   refused (when (some (d_Escalation d)) "harness_profile.escalation" Refused "ignoring an escalation policy would silently weaken oversight") ++
   refused (report_continuity quote Ephemeral d))%list.
Proof.
  unfold ExecutionReportWith. rewrite !refused_app. rewrite refused_skills, refused_uses.
  rewrite (refused_when (some (d_Capabilities d))), (refused_when (some (d_Tools d))), (refused_when (some (d_Resources d))),
    (refused_when (some (d_Steering d))), (refused_when (some (d_Sources d))), (refused_when (bool_decide _)), !andb_false_r. done.
Qed.
Lemma some_false {A} (l : list A) : some l = false ↔ l = [].
Proof. by destruct l. Qed.

(** A launch is admitted for exactly the definitions this host can honor: the library accepts
    it, it declares no hook, no required capability, no approval or escalation policy, a
    known permission profile and an ephemeral mode; and no grant of skills makes a refusal
    go away or come. *)
Theorem validate_execution_iff Validate d :
  (ValidateExecution quote Ephemeral Validate (Some d) = Ok tt ↔
   Validate d = true ∧ d_Hooks d = [] ∧ d_Requires d = [] ∧ d_Permissions d ∈ ["default"; "read-only"] ∧
   d_Approvals d = [] ∧ d_Escalation d = [] ∧ d_Mode d = Ephemeral) ∧
  ∀ delivered, refused (ExecutionReportWith quote Ephemeral (Some d) delivered) = refused (ExecutionReport quote Ephemeral (Some d)).
Proof.
  split; [|intros delivered; unfold ExecutionReport; by rewrite !refused_report].
  assert (∀ b f t, refused (when b f Refused t) = [] ↔ b = false) as Hw by (intros [] f t; split; done).
  assert (refused (ExecutionReport quote Ephemeral (Some d)) = [] ↔ d_Hooks d = [] ∧ d_Requires d = [] ∧ d_Permissions d ∈ ["default"; "read-only"] ∧
    d_Approvals d = [] ∧ d_Escalation d = [] ∧ d_Mode d = Ephemeral) as Hr.
  { unfold ExecutionReport. rewrite refused_report, !app_nil, !Hw, refused_requires, refused_continuity, !some_false.
    rewrite negb_false_iff, bool_decide_eq_true. done. }
  unfold ValidateExecution. destruct (Validate d); cbn [negb]; [|split; [done|by intros [? _]]].
  destruct (refused (ExecutionReport quote Ephemeral (Some d))); [rewrite <- Hr; done|]. split; [done|]. intros [_ H]. by apply Hr in H.
Qed.
End Reports.

(** A codec that knows one folder. *)
Definition one_tree : skillTree := mkTree SkillTreeFormat [mkTreeFile "SKILL.md" "a"].
#[global] Instance skillTreeFile_eq_dec : EqDecision skillTreeFile.
Proof. solve_decision. Defined.
#[global] Instance skillTree_eq_dec : EqDecision skillTree.
Proof. solve_decision. Defined.
Definition one_codec : TreeCodec := {|
  encodeTree t := if bool_decide (t = one_tree) then Some "x" else None;
  decodeTree s := if bool_decide (s = "x") then Some one_tree else None;
|}.
Lemma one_codec_laws : @TreeCodecLaws one_codec.
Proof. split. intros t s. cbn. case_bool_decide as Ht; [|done]. intros [= <-]. rewrite Ht. vm_compute. reflexivity. Qed.
Lemma skill_tree_round_trip_witness :
  @DecodeSkillTree one_codec "x" = Ok {["SKILL.md" := "a"]} ∧ @EncodeSkillTree one_codec {["SKILL.md" := "a"]} = Ok "x".
Proof.
  split; [|vm_compute; reflexivity].
  apply (@skill_tree_round_trip one_codec one_codec_laws {["SKILL.md" := "a"]} "x"); [vm_compute; reflexivity|].
  intros p c [<- <-]%lookup_singleton_Some. vm_compute. reflexivity.
Defined.

(** The folder itself is taken as a path in it; a skill with such a tree cannot be delivered. *)
Example dot_is_a_path : checkSkillPath "." = true ∧ deliverTree "x" [(".", "a")] ∅ = Err (ErrEscapes "x" ".").
Proof. split; vm_compute; reflexivity. Qed.

(** ** Delivered skills *)

Section Delivery.
Context `{codec : TreeCodec} (resource : Ref → ResourceRead) (granted : gmap string string).

(** The tree of a requested skill, granted at the digest the definition pins. *)
Definition granted_tree (skills : list Skill) (name : string) (tree : gmap string string) : Prop :=
  ∃ sk body, sk ∈ skills ∧ sk_Name sk = name ∧ granted !! name = Some (Digest (sk_Content sk)) ∧ Digest (sk_Content sk) ≠ "" ∧
    resource (sk_Content sk) = RFound body ∧ DecodeSkillTree body = Ok tree.

Lemma trees_granted skills l out trees : (∀ sk, sk ∈ l → sk ∈ skills) → map_Forall (granted_tree skills) out →
  GrantedSkillTrees resource granted l out = Ok trees → map_Forall (granted_tree skills) trees.
Proof.
  revert out. induction l as [|sk l IH]; intros out Hl Hout; cbn [GrantedSkillTrees]; [by intros [= <-]|].
  assert (∀ x, x ∈ l → x ∈ skills) as Hl' by (intros x Hx; apply Hl; by right).
  case_bool_decide as Hg; [by apply IH|]. cbn [orb]. case_bool_decide as Hd; [|by apply IH]. cbn [negb].
  destruct (resource (sk_Content sk)) as [body| |] eqn:Hr; [|by apply IH|done].
  destruct (DecodeSkillTree body) as [tree|] eqn:Ht; [|by apply IH]. apply IH; [done|]. apply map_Forall_insert_2; [|done].
  exists sk, body. split_and!; try done; [apply Hl; by left| |congruence]. destruct (granted !! sk_Name sk) as [x|]; cbn in *; [by subst x|done].
Qed.
Definition delivered_by (skills : list Skill) (p c : string) : Prop :=
  ∃ name tree rel, granted_tree skills name tree ∧ tree !! rel = Some c ∧ p = Join [FilesRoot; SkillsDir; name; rel] ∧
    has_prefix p (Join [FilesRoot; SkillsDir; name] +:+ "/") = true.
Lemma tree_delivered skills name tree l files files' : granted_tree skills name tree → (∀ rel c, (rel, c) ∈ l → tree !! rel = Some c) →
  deliverTree name l files = Ok files' → ∀ p c, files' !! p = Some c → files !! p = Some c ∨ delivered_by skills p c.
Proof.
  intros Ht. revert files. induction l as [|[rel content] l IH]; intros files Hl; cbn [deliverTree]; [intros [= <-]; auto|].
  destruct (has_prefix _ _) eqn:Hpre; [|done]. intros Hd p c Hp.
  destruct (IH _ (λ r x Hx, Hl r x (list_elem_of_further _ _ _ Hx)) Hd p c Hp) as [H|?]; [|by right].
  apply lookup_insert_Some in H as [[<- <-]|[_ H]]; [|by left]. right. exists name, tree, rel. split_and!; try done. apply Hl. by left.
Qed.
Lemma trees_delivered skills l files d files' d' : (∀ name tree, (name, tree) ∈ l → granted_tree skills name tree) →
  deliverTrees l files d = Ok (files', d') →
  (∀ p c, files' !! p = Some c → files !! p = Some c ∨ delivered_by skills p c) ∧
  ∀ name, name ∈ d' → name ∈ d ∨ ∃ tree, granted_tree skills name tree.
Proof.
  revert files d. induction l as [|[name tree] l IH]; intros files d Hl; cbn [deliverTrees]; [intros [= <- <-]; auto|].
  destruct (deliverTree name (map_to_list tree) files) as [f1|] eqn:E; cbn; [|done]. intros Hd.
  assert (granted_tree skills name tree) as Hg by (apply Hl; by left).
  destruct (IH f1 _ (λ n t Hx, Hl n t (list_elem_of_further _ _ _ Hx)) Hd) as [H1 H2]. split.
  - intros p c Hp. destruct (H1 p c Hp) as [H|?]; [|by right].
    apply (tree_delivered skills name tree (map_to_list tree) files f1 Hg); [intros r x; apply elem_of_map_to_list|done|done].
  - intros n Hn. destruct (H2 n Hn) as [H|?]; [|by right]. apply elem_of_union in H as [->%elem_of_singleton|?]; [right; by exists tree|by left].
Qed.

(** The delivery of skills itself adds only what was granted: a file it adds to a session is in
    the tree of a skill that the definition requests and that is granted at the digest the
    definition pins, below the folder of that skill; and a skill reported as planted is one. *)
Theorem delivered_skills_are_granted d files files' delivered :
  deliverGrantedSkills resource granted d files = Ok (files', delivered) →
  (∀ p c, files' !! p = Some c → files !! p = Some c ∨ delivered_by (d_Skills d) p c) ∧
  ∀ name, name ∈ delivered → ∃ tree, granted_tree (d_Skills d) name tree.
Proof.
  unfold deliverGrantedSkills. destruct (d_Skills d) as [|s l] eqn:Hs; [intros [= <- <-]; split; [auto|set_solver]|]. rewrite <- Hs.
  destruct (GrantedSkillTrees resource granted (d_Skills d) ∅) as [trees|] eqn:Ht; cbn [mbind result_bind]; [|done]. intros Hd.
  assert (map_Forall (granted_tree (d_Skills d)) trees) as Hall by (by eapply (trees_granted _ (d_Skills d) ∅); [|apply map_Forall_empty|]).
  destruct (trees_delivered (d_Skills d) (merge_sort name_le (map_to_list trees)) files ∅ files' delivered) as [H1 H2]; [|exact Hd|].
  { intros name tree. rewrite merge_sort_Permutation. intros Hin%elem_of_map_to_list. by apply Hall. }
  split; [done|]. intros name Hn. destruct (H2 name Hn) as [H|?]; [set_solver|done].
Qed.
End Delivery.
