(* ===== verification/AgentPolicy.v ===== *)
(** * The policies of an agent definition

    [agentpolicy/policy.go] and [reflex.go]: the JSON of a policy is read strictly, the native
    policy of a definition has defaults and a validation, and a bundle of reflex rules is
    checked when it is loaded and evaluated on the state of a session.

    A JSON text is seen through the tokens of Go's decoder; decoding into a Go type, the
    compiler of regular expressions, the evaluator of triggers and the [agentdef] library are
    parameters. *)

From stdpp Require Import sorting.
From Stdlib Require Import SpecFloat.
From S2P Require Import Prelude GoStrings GoNum.

Open Scope string_scope.
Open Scope nat_scope.
Set Default Proof Using "Type".

(** ** Strict JSON *)

(** Data of a [map[string]any]; an object is the list of its members. *)
Inductive json :=
| JNull
| JBool (b : bool)
| JNum (f : float64)
| JStr (s : string)
| JArr (l : list json)
| JObj (l : list (string * json)).
(** What [Decoder.Token] returns. *)
Inductive Token :=
| TOpenObj | TCloseObj | TOpenArr | TCloseArr
| TStr (s : string) | TNum (f : float64) | TBool (b : bool) | TNull.

Inductive PErr :=
| EToken                 (* the error of the decoder, the end of the input included *)
| ENesting | ENull | EKey | EDelim | EDocument | EDecode
| EData | EExtension | EInvalid (what : string)
| EFuel.

(** [checkObject] reads one value; the loops over members and elements are its [for]s, [dec.More()]
    being false at a closing delimiter and at the end. *)
Fixpoint checkObject (fuel depth : nat) (l : list Token) {struct fuel} : result PErr (list Token) :=
  match fuel with
  | O => Err EFuel
  | S fuel =>
      if 64 <? depth then Err ENesting
      else match l with
           | [] => Err EToken
           | TNull :: _ => Err ENull
           | TOpenObj :: l => checkMembers fuel depth [] l
           | TOpenArr :: l => checkElements fuel depth l
           | (TCloseObj | TCloseArr) :: _ => Err EDelim
           | _ :: l => Ok l
           end
  end
with checkMembers (fuel depth : nat) (seen : list string) (l : list Token) {struct fuel} : result PErr (list Token) :=
  match fuel with
  | O => Err EFuel
  | S fuel =>
      match l with
      | [] => Err EToken
      | (TCloseObj | TCloseArr) :: l => Ok l
      | TStr name :: l =>
          if bool_decide (name ∈ seen) then Err EKey
          else l ← checkObject fuel (depth + 1) l; checkMembers fuel depth (name :: seen) l
      | _ :: _ => Err EKey
      end
  end
with checkElements (fuel depth : nat) (l : list Token) {struct fuel} : result PErr (list Token) :=
  match fuel with
  | O => Err EFuel
  | S fuel =>
      match l with
      | [] => Err EToken
      | (TCloseObj | TCloseArr) :: l => Ok l
      | _ => l ← checkObject fuel (depth + 1) l; checkElements fuel depth l
      end
  end.

(** [nonNull]. *)
Fixpoint nonNull (v : json) : bool :=
  match v with
  | JNull => false
  | JArr l => forallb nonNull l
  | JObj l => forallb (λ kv, nonNull kv.2) l
  | _ => true
  end.

(** [tokenize] answers the tokens of a text and whether its end follows them (or an error). *)
Section Decode.
Context (tokenize : string → list Token * bool).

(** [decode]; [typed] is [Decode] with [DisallowUnknownFields]. *)
Definition decode {T} (typed : string → option T) (data : string) : result PErr T :=
  let '(l, eof) := tokenize data in
  rest ← checkObject (S (2 * length l)) 0 l;
  if negb (bool_decide (rest = []) && eof) then Err EDocument
  else match typed data with
       | None => Err EDecode
       | Some x => if negb (bool_decide (rest = []) && eof) then Err EDocument else Ok x
       end.
(** [decodeData]; [marshal] is [json.Marshal]. *)
Definition decodeData {T} (marshal : json → option string) (typed : string → option T) (data : option (list (string * json))) : result PErr T :=
  match data with
  | None => Err EData
  | Some o =>
      if negb (nonNull (JObj o)) then Err ENull
      else match marshal (JObj o) with None => Err EDecode | Some b => decode typed b end
  end.
End Decode.

(** ** The native policy *)

Record AutoRecall := mkAutoRecall { ar_Enabled : option bool; ar_MinConfidence : option float64 }.
Record NativePolicy := mkNative {
  np_Class : string;
  np_SubagentCompletionPolicy : string;
  np_MessageWakePolicy : string;
  np_WriteClaimGuard : string;
  np_AutoRecall : option AutoRecall;
}.
Definition or_default (s d : string) : string := if bool_decide (s = "") then d else s.
Definition Defaults (p : NativePolicy) : NativePolicy :=
  let r := default (mkAutoRecall None None) (np_AutoRecall p) in
  mkNative (or_default (np_Class p) "advisor") (or_default (np_SubagentCompletionPolicy p) "render_and_wait")
    (or_default (np_MessageWakePolicy p) "auto_summarize") (or_default (np_WriteClaimGuard p) "deny")
    (Some (mkAutoRecall (Some (default true (ar_Enabled r))) (Some (default (f_ratio 4 10) (ar_MinConfidence r))))).

Definition oneOf (value : string) (allowed : list string) : bool := bool_decide (value ∈ allowed).
Definition is_inf (x : float64) : bool := match x with S754_infinity _ => true | _ => false end.
Definition ValidateNative (p : NativePolicy) : bool :=
  oneOf (np_Class p) [""; "advisor"; "process"] &&
  forallb (λ s, oneOf s [""; "render_and_wait"; "auto_summarize"; "batch"]) [np_SubagentCompletionPolicy p; np_MessageWakePolicy p] &&
  oneOf (np_WriteClaimGuard p) [""; "off"; "warn"; "ask"; "deny"] &&
  match np_AutoRecall p with
  | Some (mkAutoRecall _ (Some v)) => negb (is_nan v || is_inf v || SFltb v (f_of_Z 0) || SFltb (f_of_Z 1) v)
  | _ => true
  end.

(** An extension of a definition, and [DecodeNative]. *)
Record Extension := mkExtension { e_Version : string; e_Area : string; e_Data : option (list (string * json)) }.
Definition Version : string := "1".
Definition NativeNamespace : string := "com.hollislabs.nanite/native-policy".
Definition ReflexNamespace : string := "com.hollislabs.nanite/reflex-policy".

Section Extensions.
Context (tokenize : string → list Token * bool) (marshal : json → option string).
(** Decoding into a [NativePolicy] and a [ReflexPolicy], whose bundle is a reference. *)
Context (Ref : Type) (typedNative : string → option NativePolicy) (typedReflex : string → option Ref) (ValidateRef : Ref → bool).

Definition DecodeNative (e : Extension) : result PErr NativePolicy :=
  if negb (bool_decide (e_Version e = Version)) || negb (bool_decide (e_Area e = "harness_profile")) then Err EExtension
  else p ← decodeData tokenize marshal typedNative (e_Data e);
       if ValidateNative p then Ok p else Err (EInvalid "native policy").
Definition DecodeReflex (e : Extension) : result PErr Ref :=
  if negb (bool_decide (e_Version e = Version)) || negb (bool_decide (e_Area e = "behavior")) then Err EExtension
  else p ← decodeData tokenize marshal typedReflex (e_Data e);
       if ValidateRef p then Ok p else Err (EInvalid "ref").
(** [Option]: the validator of a namespace and version, if this host has agreed on it. *)
Definition Option_ (namespace version : string) : option (Extension → bool) :=
  if negb (bool_decide (version = Version)) then None
  else if bool_decide (namespace = NativeNamespace) then Some (λ e, is_ok (DecodeNative e))
  else if bool_decide (namespace = ReflexNamespace) then Some (λ e, is_ok (DecodeReflex e))
  else None.
End Extensions.

(** ** Reflex bundles *)

Record ReflexTrigger := mkTrigger { tr_Kind : string; tr_Spec : string }.
Record ReflexAction := mkAction { ac_Kind : string; ac_Body : string; ac_Reason : string; ac_ToolName : string }.
Record ReflexRule := mkRule {
  r_ID : string;
  r_Name : string;
  r_Priority : Z;
  r_Trigger : ReflexTrigger;
  r_Action : ReflexAction;
}.
Record ReflexBundle := mkBundle { b_Version : string; b_Rules : list ReflexRule }.

Definition field (l : list (string * json)) (k : string) : option json := snd <$> List.find (λ kv, bool_decide (kv.1 = k)) l.
Definition str_field (l : list (string * json)) (k : string) : option string :=
  match field l k with Some (JStr s) => Some s | _ => None end.
(** [math.Trunc(v) == v] for a number. *)
Definition is_whole (v : float64) : bool :=
  match f_trunc v with Some z => SFeqb (f_of_Z z) v | None => false end.

Section Reflex.
Context (regexp_ok : string → bool).
(** The fields a kind of predicate may have; [None] for an unknown kind. *)
Definition allowed (kind : string) : option (list string) :=
  if oneOf kind ["AND"; "OR"] then Some ["clauses"]
  else if oneOf kind ["tool_calls_window"; "cache_read_window"; "input_tokens_window"] then Some ["window"; "op"; "value"]
  else if bool_decide (kind = "mail_unread_count") then Some ["op"; "value"]
  else if bool_decide (kind = "identical_output_window") then Some ["window"]
  else if bool_decide (kind = "output_growth_window") then Some ["window"; "factor"]
  else if bool_decide (kind = "prefix_pressure") then Some ["ratio"; "context_window"]
  else if oneOf kind ["regex_match_window"; "user_regex_window"] then Some ["window"; "pattern"]
  else if bool_decide (kind = "text_regex_window") then Some ["window"; "pattern"; "scope"]
  else if oneOf kind ["scope_tier"; "execution_pattern"] then Some ["op"; "value"]
  else None.
Definition textual (kind : string) : bool := oneOf kind ["scope_tier"; "execution_pattern"].
(** The check of one field. *)
Definition field_ok (kind key : string) (v : json) : bool :=
  if oneOf key ["window"; "context_window"] then
    match v with JNum f => SFltb (f_of_Z 0) f && is_whole f && negb (SFltb (f_of_Z 1000000000) f) | _ => false end
  else if bool_decide (key = "value") then
    if textual kind then true
    else match v with JNum f => negb (SFltb f (f_of_Z 0)) && is_whole f && negb (SFltb (f_of_Z 1000000000) f) | _ => false end
  else if oneOf key ["factor"; "ratio"] then
    match v with JNum f => negb (is_nan f) && negb (is_inf f) && SFltb (f_of_Z 0) f | _ => false end
  else if bool_decide (key = "op") then
    match v with
    | JStr s => oneOf s ["="; "=="; "!="; "<"; ">"; "<="; ">="] && (negb (textual kind) || oneOf s ["="; "=="; "!="])
    | _ => false
    end
  else if bool_decide (key = "scope") then match v with JStr s => oneOf s ["user"; "assistant"; "all"] | _ => false end
  else true.
(** [validatePredicate]; every level of clauses is one deeper, at most sixteen. *)
Fixpoint validatePredicate (fuel : nat) (n : list (string * json)) : bool :=
  match fuel with
  | O => false                                              (* nesting exceeds 16 *)
  | S fuel =>
      nonNull (JObj n) &&
      let kind := default "" (str_field n "kind") in
      match allowed kind with
      | None => false
      | Some keys =>
          (if oneOf kind ["AND"; "OR"] then
             match field n "clauses" with
             | Some (JArr l) => (0 <? length l) && (length l <=? 128) &&
                 forallb (λ c, match c with JObj m => validatePredicate fuel m | _ => false end) l
             | _ => false
             end
           else if oneOf kind ["regex_match_window"; "user_regex_window"; "text_regex_window"] then
             match str_field n "pattern" with Some p => negb (bool_decide (p = "")) && regexp_ok p | None => false end
           else if textual kind then match str_field n "value" with Some s => negb (bool_decide (s = "")) | None => false end
           else true) &&
          forallb (λ kv, oneOf kv.1 ("kind" :: keys) && field_ok kind kv.1 kv.2) n
      end
  end.
Definition predicate_fuel : nat := 17.

Context (tokenize : string → list Token * bool).
(** The decoders of the three specs: the name of an event, the ticks of an interval, a predicate. *)
Context (typedName : string → option string) (typedTicks : string → option Z) (typedObject : string → option (list (string * json))).

Definition ValidateTrigger (t : ReflexTrigger) : bool :=
  if bool_decide (tr_Kind t = "event") then
    match decode tokenize typedName (tr_Spec t) with Ok name => negb (bool_decide (trim_space name = "")) | Err _ => false end
  else if bool_decide (tr_Kind t = "interval") then
    match decode tokenize typedTicks (tr_Spec t) with Ok n => (0 <? n)%Z | Err _ => false end
  else if bool_decide (tr_Kind t = "predicate") then
    match decode tokenize typedObject (tr_Spec t) with Ok n => validatePredicate predicate_fuel n | Err _ => false end
  else false.

(** The kinds of actions of the reflex library. *)
Context (ActionInjectReminder ActionHaltSession ActionForceToolChoice : string).
Definition blank (s : string) : bool := bool_decide (trim_space s = "").
Definition ValidateAction (a : ReflexAction) : bool :=
  let only (mine x y : string) := negb (blank mine) && bool_decide (x = "") && bool_decide (y = "") in
  if bool_decide (ac_Kind a = ActionInjectReminder) then only (ac_Body a) (ac_Reason a) (ac_ToolName a)
  else if bool_decide (ac_Kind a = ActionHaltSession) then only (ac_Reason a) (ac_Body a) (ac_ToolName a)
  else if bool_decide (ac_Kind a = ActionForceToolChoice) then only (ac_ToolName a) (ac_Body a) (ac_Reason a)
  else false.

Fixpoint validateRules (seen : list string) (l : list ReflexRule) : option string :=
  match l with
  | [] => None
  | r :: l =>
      if blank (r_ID r) || blank (r_Name r) || bool_decide (r_ID r ∈ seen) then Some "reflex rule requires unique id and name"
      else if negb (ValidateTrigger (r_Trigger r)) || negb (ValidateAction (r_Action r)) then Some ("reflex " +:+ r_ID r)
      else validateRules (r_ID r :: seen) l
  end.
(** [ParseReflexBundle]. *)
Definition ParseReflexBundle (ArtifactDigest : string → string) (typedBundle : string → option ReflexBundle) (data digest : string)
  : result PErr ReflexBundle :=
  if (1048576 <? Z.of_nat (String.length data))%Z then Err (EInvalid "reflex bundle exceeds 1 MiB")
  else if negb (bool_decide (ArtifactDigest data = digest)) then Err (EInvalid "reflex bundle digest mismatch")
  else
    b ← decode tokenize typedBundle data;
    if negb (bool_decide (b_Version b = Version)) then Err (EInvalid "unsupported reflex bundle version")
    else if (length (b_Rules b) =? 0) || (128 <? length (b_Rules b)) then Err (EInvalid "reflex bundle requires one to 128 rules")
    else match validateRules [] (b_Rules b) with Some e => Err (EInvalid e) | None => Ok b end.

(** The rules that fire; [fires] is the evaluator on the state, [alive] the context at each rule. *)
Fixpoint collect (fires : ReflexTrigger → result PErr bool) (alive : list bool) (l : list ReflexRule) : result PErr (list ReflexRule) :=
  match l with
  | [] => Ok []
  | r :: l =>
      if negb (default true (head alive)) then Err (EInvalid "canceled")
      else
        b ← fires (r_Trigger r);
        rest ← collect fires (tail alive) l;
        Ok (if (b : bool) then r :: rest else rest)
  end.
Definition rule_le (a b : ReflexRule) : Prop :=
  (r_Priority b < r_Priority a)%Z ∨ r_Priority a = r_Priority b ∧ String.le (r_ID a) (r_ID b).
#[global] Instance rule_le_dec : RelDecision rule_le.
Proof. intros a b. unfold rule_le. apply _. Defined.
Definition halts (r : ReflexRule) : bool := bool_decide (ac_Kind (r_Action r) = ActionHaltSession).
Definition Evaluate (fires : ReflexTrigger → result PErr bool) (alive : list bool) (b : ReflexBundle) : result PErr (list ReflexRule) :=
  fired ← collect fires alive (b_Rules b);
  let fired := merge_sort rule_le fired in
  match List.find halts fired with
  | Some r => Ok [r]
  | None => Ok fired
  end.
End Reflex.

(** ** What is accepted as JSON *)

(** The tokens of a value. *)
Fixpoint tokens (v : json) : list Token :=
  match v with
  | JNull => [TNull]
  | JBool b => [TBool b]
  | JNum f => [TNum f]
  | JStr s => [TStr s]
  | JArr l => TOpenArr :: concat (map tokens l) ++ [TCloseArr]
  | JObj l => TOpenObj :: concat (map (λ kv, TStr kv.1 :: tokens kv.2) l) ++ [TCloseObj]
  end%list.
(** A value without null, without a repeated key, nested at most 64 deep. *)
Fixpoint strict (depth : nat) (v : json) : bool :=
  (depth <=? 64) &&
  match v with
  | JNull => false
  | JArr l => forallb (strict (S depth)) l
  | JObj l => bool_decide (NoDup (fst <$> l)) && forallb (λ kv, strict (S depth) kv.2) l
  | _ => true
  end.

Lemma json_ind' (P : json → Prop) :
  P JNull → (∀ b, P (JBool b)) → (∀ f, P (JNum f)) → (∀ s, P (JStr s)) →
  (∀ l, Forall P l → P (JArr l)) → (∀ l, Forall (λ kv, P kv.2) l → P (JObj l)) → ∀ v, P v.
Proof.
  intros H1 H2 H3 H4 H5 H6. fix IH 1. intros [|b|f|s|l|l]; [done|done|done|done| |].
  - apply H5. induction l as [|v l IHl]; constructor; [apply IH|exact IHl].
  - apply H6. induction l as [|[k v] l IHl]; constructor; [apply IH|exact IHl].
Qed.

Definition reads (r : result PErr (list Token)) (ok : bool) (rest : list Token) : Prop :=
  if ok then r = Ok rest else ∃ e, r = Err e.
Lemma tokens_head v : ∃ t l, tokens v = t :: l ∧ t ≠ TCloseObj ∧ t ≠ TCloseArr.
Proof. destruct v; cbn; by do 2 eexists. Qed.
Lemma length_tokens v : 1 ≤ length (tokens v).
Proof. destruct v; cbn; lia. Qed.

Lemma elements_read l fuel depth rest : Forall (λ v, ∀ fuel depth rest, length (tokens v) ≤ fuel → reads (checkObject fuel depth (tokens v ++ rest)) (strict depth v) rest) l →
  S (length (concat (map tokens l))) ≤ fuel →
  reads (checkElements fuel depth (concat (map tokens l) ++ TCloseArr :: rest)) (forallb (strict (S depth)) l) rest.
Proof.
  revert fuel. induction l as [|v l IH]; intros fuel HF Hfuel; (destruct fuel as [|fuel]; [lia|]); [done|].
  apply Forall_cons in HF as [Hv HF]. cbn [map concat forallb]. rewrite <- app_assoc. cbn [map concat] in Hfuel. rewrite length_app in Hfuel.
  pose proof (length_tokens v). set (tail := (concat (map tokens l) ++ TCloseArr :: rest)%list) in *.
  assert (checkElements (S fuel) depth (tokens v ++ tail) = l ← checkObject fuel (depth + 1) (tokens v ++ tail); checkElements fuel depth l) as ->.
  { destruct (tokens_head v) as (t & u & -> & H1 & H2). cbn. by destruct t. }
  specialize (Hv fuel (S depth) tail ltac:(lia)). rewrite Nat.add_1_r.
  destruct (strict (S depth) v); cbn [reads andb] in *; [|by destruct Hv as [e ->]; exists e].
  rewrite Hv. cbn. apply IH; [done|lia].
Qed.
Lemma members_read l seen fuel depth rest : Forall (λ kv, ∀ fuel depth rest, length (tokens kv.2) ≤ fuel → reads (checkObject fuel depth (tokens kv.2 ++ rest)) (strict depth kv.2) rest) l →
  S (length (concat (map (λ kv, TStr kv.1 :: tokens kv.2) l))) ≤ fuel →
  reads (checkMembers fuel depth seen (concat (map (λ kv, TStr kv.1 :: tokens kv.2) l) ++ TCloseObj :: rest))
    (bool_decide (NoDup (fst <$> l) ∧ Forall (λ k, k ∉ seen) (fst <$> l)) && forallb (λ kv, strict (S depth) kv.2) l) rest.
Proof.
  revert seen fuel. induction l as [|[k v] l IH]; intros seen fuel HF Hfuel; (destruct fuel as [|fuel]; [lia|]).
  { cbn [map concat app]. rewrite bool_decide_eq_true_2 by (split; constructor). done. }
  apply Forall_cons in HF as [Hv HF]. cbn [map concat forallb fst snd fmap list_fmap] in *. rewrite <- app_assoc. cbn [app length] in *. rewrite length_app in Hfuel.
  set (tail := (concat _ ++ TCloseObj :: rest)%list) in *. cbn [checkMembers]. case_bool_decide as Hin.
  { rewrite bool_decide_eq_false_2; [by eexists|]. intros [_ [? _]%Forall_cons]. done. }
  specialize (Hv fuel (S depth) tail ltac:(lia)). rewrite Nat.add_1_r.
  destruct (strict (S depth) v); cbn [reads andb] in *; [|rewrite andb_false_r; destruct Hv as [e ->]; by exists e].
  rewrite Hv. cbn [mbind result_bind]. specialize (IH (k :: seen) fuel HF ltac:(lia)).
  assert (bool_decide (NoDup (fst <$> l) ∧ Forall (λ x, x ∉ k :: seen) (fst <$> l)) =
    bool_decide (NoDup (k :: (fst <$> l)) ∧ Forall (λ x, x ∉ seen) (k :: (fst <$> l)))) as <-; [|done].
  apply bool_decide_ext. rewrite NoDup_cons, Forall_cons, !Forall_forall. split.
  - intros [H1 H2]. split_and!; [|done|done|intros x Hx H; apply (H2 x Hx); by right].
    intros H. apply (H2 k H). by left.
  - intros [[H1 H2] [H3 H4]]. split; [done|]. intros x Hx [->|H]%elem_of_cons; [done|]. by apply (H4 x Hx).
Qed.
Lemma value_read v : ∀ fuel depth rest, length (tokens v) ≤ fuel → reads (checkObject fuel depth (tokens v ++ rest)) (strict depth v) rest.
Proof.
  induction v as [|b|f|s|l IH|l IH] using json_ind'; intros fuel depth rest Hfuel; (destruct fuel as [|fuel]; [cbn in Hfuel; lia|]);
    cbn [checkObject]; rewrite Nat.ltb_antisym; destruct (depth <=? 64) eqn:Hd; cbn [negb]; try (unfold strict; fold strict; rewrite Hd; by eexists);
    cbn [strict]; rewrite ?Hd; cbn [andb]; try done; cbn [tokens app] in *; cbn [length] in Hfuel; rewrite length_app in Hfuel; cbn in Hfuel; rewrite <- app_assoc.
  - apply elements_read; [done|lia].
  - pose proof (members_read l [] fuel depth rest IH ltac:(lia)) as H. cbn [app].
    rewrite (bool_decide_ext (NoDup (fst <$> l)) (NoDup (fst <$> l) ∧ Forall (λ k, k ∉ []) (fst <$> l))); [done|].
    split; [|by intros []]. intros ?. split; [done|]. apply Forall_forall. intros x _. apply not_elem_of_nil.
Qed.

Section Strict.
Context (tokenize : string → list Token * bool).
(** Delimiters nest and match, and values are complete, when the decoder reaches the end. *)
Hypothesis tokenize_values : ∀ data l, tokenize data = (l, true) → ∃ vs, l = concat (map tokens vs).

Lemma checked_value l rest : (∃ vs, l = concat (map tokens vs)) → checkObject (S (2 * length l)) 0 l = Ok rest →
  ∃ v vs, l = concat (map tokens (v :: vs)) ∧ rest = concat (map tokens vs) ∧ strict 0 v = true.
Proof.
  intros [[|v vs] ->]; [done|]. cbn [map concat]. pose proof (value_read v (S (2 * length (tokens v ++ concat (map tokens vs)))) 0 (concat (map tokens vs))) as H.
  rewrite length_app in *. intros Hc. specialize (H ltac:(lia)). exists v, vs. destruct (strict 0 v); cbn [reads] in H; [|destruct H; congruence].
  split; [done|]. split; [congruence|done].
Qed.

(** C16. A policy is read from exactly one strict document: [decode] succeeds just when the text is
    one JSON value that has no null, no repeated key and no nesting over 64, anywhere, and
    the typed decoder accepts it. *)
Theorem decode_is_strict {T} (typed : string → option T) data x :
  decode tokenize typed data = Ok x ↔
  ∃ v, tokenize data = (tokens v, true) ∧ strict 0 v = true ∧ typed data = Some x.
Proof using tokenize_values.
  unfold decode. destruct (tokenize data) as [l eof] eqn:Ht. split.
  - destruct (checkObject _ 0 l) as [rest|] eqn:Hc; [|done]. cbn [mbind result_bind]. case_bool_decide as Hr; [|done]. destruct eof; [|done]. subst rest.
    destruct (typed data) as [y|]; [|done]. cbn. intros [= <-]. destruct (checked_value l [] (tokenize_values data l Ht) Hc) as (v & vs & -> & Hvs & Hv).
    assert (vs = []) as -> by (destruct vs as [|u vs]; [done|]; pose proof (length_tokens u); destruct (tokens u) eqn:E; cbn in *; [lia|]; rewrite E in Hvs; done).
    exists v. cbn. rewrite app_nil_r. done.
  - intros (v & [= -> ->] & Hv & ->). pose proof (value_read v (S (2 * length (tokens v))) 0 [] ltac:(lia)) as H. rewrite Hv in H. cbn [reads] in H.
    rewrite app_nil_r in H. rewrite H. done.
Qed.
End Strict.

(** The fuel of [checkObject] is enough for every text. *)
Definition enough (n : nat) (r : result PErr (list Token)) : Prop :=
  match r with Ok rest => length rest < n | Err e => e ≠ EFuel end.
Lemma checkObject_total fuel :
  (∀ depth l, 2 * length l < fuel → enough (length l) (checkObject fuel depth l) ∨ l = [] ∧ checkObject fuel depth l ≠ Err EFuel) ∧
  (∀ depth seen l, 2 * length l < fuel → enough (S (length l)) (checkMembers fuel depth seen l)) ∧
  (∀ depth l, S (2 * length l) < fuel → enough (S (length l)) (checkElements fuel depth l)).
Proof.
  induction fuel as [|fuel (IHo & IHm & IHe)]; [split_and!; intros; lia|]. split_and!.
  - intros depth l Hl. cbn [checkObject]. destruct (64 <? depth); [by left|]. destruct l as [|t l]; [by right|]. left. cbn [length] in *.
    destruct t; cbn; try done; try lia.
    + apply IHm. lia.
    + apply IHe. lia.
  - intros depth seen l Hl. cbn [checkMembers]. destruct l as [|t l]; [done|]. cbn [length] in *. destruct t; cbn; try done; try lia.
    case_bool_decide as Hin; [done|]. destruct (IHo (depth + 1) l ltac:(lia)) as [H|[-> H]].
    + destruct (checkObject fuel (depth + 1) l) as [rest|]; cbn in *; [|done]. specialize (IHm depth (s :: seen) rest ltac:(lia)).
      destruct (checkMembers fuel depth (s :: seen) rest); cbn in *; [lia|done].
    + destruct fuel; [cbn in Hl; lia|]. cbn [checkObject]. by destruct (64 <? depth + 1).
  - intros depth l Hl. cbn [checkElements]. assert (enough (S (length l)) (l0 ← checkObject fuel (depth + 1) l; checkElements fuel depth l0) ∨ l = []) as H.
    { destruct (IHo (depth + 1) l ltac:(lia)) as [H|[-> H]]; [left|by right].
      destruct (checkObject fuel (depth + 1) l) as [rest|]; cbn in *; [|done]. specialize (IHe depth rest ltac:(lia)).
      destruct (checkElements fuel depth rest); cbn in *; [lia|done]. }
    destruct l as [|t l]; [done|]. destruct H as [H|]; [|done]. destruct t; try exact H; cbn; lia.
Qed.

(** ** The native policy *)

Lemma or_default_idem s d : d ≠ "" → or_default (or_default s d) d = or_default s d.
Proof. unfold or_default. repeat case_bool_decide; congruence. Qed.
(** [Defaults] completes a policy: it changes no stated field, a second time it changes nothing, and
    it keeps a policy valid. *)
Theorem defaults_complete p :
  Defaults (Defaults p) = Defaults p ∧ (ValidateNative p = true → ValidateNative (Defaults p) = true) ∧
  (∃ e c, np_AutoRecall (Defaults p) = Some (mkAutoRecall (Some e) (Some c))) ∧
  (np_WriteClaimGuard p ≠ "" → np_WriteClaimGuard (Defaults p) = np_WriteClaimGuard p).
Proof.
  split_and!.
  - unfold Defaults. cbn. by rewrite !or_default_idem.
  - unfold ValidateNative, Defaults. cbn. rewrite !andb_true_r. intros [[[H1 [H2 H3]%andb_true_iff]%andb_true_iff H4]%andb_true_iff H5]%andb_true_iff.
    unfold oneOf, or_default in *. apply bool_decide_eq_true in H1, H2, H3, H4.
    rewrite !andb_true_iff, !bool_decide_eq_true. split_and!; try (case_bool_decide; [set_solver|done]).
    destruct (np_AutoRecall p) as [[e [v|]]|]; [exact H5|vm_compute; reflexivity..].
  - by do 2 eexists.
  - intros H. unfold Defaults, or_default. cbn. by rewrite bool_decide_eq_false_2.
Qed.

(** A decoder that knows one text. *)
Definition one_value : json := JObj [("name", JStr "a")].
Definition one_tokenize (s : string) : list Token * bool := if bool_decide (s = "x") then (tokens one_value, true) else ([], true).
Lemma decode_is_strict_witness :
  decode one_tokenize (λ s, if bool_decide (s = "x") then Some "a" else None) "x" = Ok "a" ∧ strict 0 one_value = true.
Proof.
  split; [|vm_compute; reflexivity]. apply (decode_is_strict one_tokenize).
  - intros data l. unfold one_tokenize. destruct (bool_decide (data = "x")); intros [= <-]; [by exists [one_value]|by exists []].
  - exists one_value. split; [vm_compute; reflexivity|]. split; vm_compute; reflexivity.
Defined.

(** ** Evaluation *)

#[global] Instance rule_le_trans : Transitive rule_le.
Proof.
  intros a b c [H1|[H1 H1']] [H2|[H2 H2']]; [left; lia|left; lia|left; lia|]. right. split; [lia|]. by etrans.
Qed.
#[global] Instance rule_le_total : Total rule_le.
Proof.
  intros a b. unfold rule_le. destruct (Z.lt_trichotomy (r_Priority a) (r_Priority b)) as [H|[H|H]]; [right; by left| |left; by left].
  destruct (total String.le (r_ID a) (r_ID b)); [left; by right|right; right; split; [lia|done]].
Qed.

Section Evaluation.
Context (ActionHaltSession : string) (fires : ReflexTrigger → result PErr bool).
Definition triggered (r : ReflexRule) : Prop := fires (r_Trigger r) = Ok true.
#[global] Instance triggered_dec r : Decision (triggered r).
Proof. unfold triggered. destruct (fires (r_Trigger r)) as [[]|]; [by left|by right|by right]. Defined.

Lemma collect_filter alive l fired : collect fires alive l = Ok fired → fired = filter triggered l.
Proof.
  revert alive fired. induction l as [|r l IH]; intros alive fired; cbn [collect]; [by intros [= <-]|].
  destruct (default true (head alive)); [|done]. cbn [negb]. rewrite filter_cons. destruct (decide (triggered r)) as [Ht|Ht]; unfold triggered in Ht;
    (destruct (fires (r_Trigger r)) as [b|]; cbn; [|done]).
  all: destruct (collect fires (tail alive) l) as [rest|] eqn:Hc; cbn; [|done].
  all: intros [= <-]; rewrite <- (IH _ _ Hc); destruct b; congruence.
Qed.
Lemma find_first {A} (R : A → A → Prop) (f : A → bool) l h : StronglySorted R l → List.find f l = Some h →
  f h = true ∧ h ∈ l ∧ ∀ x, x ∈ l → f x = true → x = h ∨ R h x.
Proof.
  induction 1 as [|a l Hs IH Ha]; cbn; [done|]. destruct (f a) eqn:Hf.
  - intros [= <-]. split; [done|]. split; [by left|]. intros x [->|Hx]%elem_of_cons _; [by left|]. right. by eapply Forall_forall in Ha.
  - intros Hfind. destruct (IH Hfind) as (H1 & H2 & H3). split; [done|]. split; [by right|]. intros x [->|Hx]%elem_of_cons Hfx; [congruence|auto].
Qed.

(** C15. The rules decide by what they say: with distinct identifiers, what [Evaluate] answers does not
    depend on the order of the bundle; when a rule that halts the session fires, the answer
    is one such rule, no other of higher priority, and nothing else; otherwise it is exactly
    the rules that fire, by falling priority and then by identifier. *)
Theorem evaluate_decides alive b out :
  NoDup (r_ID <$> b_Rules b) → Evaluate ActionHaltSession fires alive b = Ok out →
  (∀ alive' b' out', b_Rules b' ≡ₚ b_Rules b → Evaluate ActionHaltSession fires alive' b' = Ok out' → out' = out) ∧
  ((∃ h, out = [h] ∧ h ∈ b_Rules b ∧ triggered h ∧ halts ActionHaltSession h = true ∧
      ∀ r, r ∈ b_Rules b → triggered r → halts ActionHaltSession r = true → (r_Priority r ≤ r_Priority h)%Z) ∨
   (∀ r, r ∈ b_Rules b → triggered r → halts ActionHaltSession r = false) ∧ out ≡ₚ filter triggered (b_Rules b) ∧ StronglySorted rule_le out).
Proof.
  intros Hnd Hout. assert (∀ x y, x ∈ b_Rules b → y ∈ b_Rules b → rule_le x y → rule_le y x → x = y) as Hanti.
  { intros x y Hx Hy [H1|[H1 H1']] [H2|[H2 H2']]; [lia|lia|lia|]. assert (r_ID x = r_ID y) as Hid by by apply (anti_symm String.le).
    apply list_elem_of_lookup_1 in Hx as [i Hi], Hy as [j Hj]. assert (i = j) as ->; [|congruence].
    apply (NoDup_lookup _ i j (r_ID x) Hnd); rewrite list_lookup_fmap; [by rewrite Hi|rewrite Hj, Hid; done]. }
  assert (∀ l, StronglySorted rule_le (merge_sort rule_le l)) as Hsort by (intros l; apply Sorted_StronglySorted, Sorted_merge_sort; apply _).
  set (sorted := merge_sort rule_le (filter triggered (b_Rules b))).
  assert (out = match List.find (halts ActionHaltSession) sorted with Some r => [r] | None => sorted end) as Ho.
  { unfold Evaluate in Hout. destruct (collect fires alive (b_Rules b)) as [fired|] eqn:E; cbn in Hout; [|done]. rewrite (collect_filter _ _ _ E) in Hout.
    fold sorted in Hout. by destruct (List.find _ sorted); injection Hout as <-. }
  assert (∀ r, r ∈ sorted ↔ r ∈ b_Rules b ∧ triggered r) as Hin.
  { intros r. unfold sorted. rewrite merge_sort_Permutation, list_elem_of_filter. tauto. }
  split.
  - intros alive' b' out' Hperm Hout'. unfold Evaluate in Hout'. destruct (collect fires alive' (b_Rules b')) as [fired|] eqn:E; cbn in Hout'; [|done].
    rewrite (collect_filter _ _ _ E) in Hout'. assert (merge_sort rule_le (filter triggered (b_Rules b')) = sorted) as Heq.
    { apply (StronglySorted_unique_strong rule_le); [|apply Hsort|apply Hsort|unfold sorted; rewrite !merge_sort_Permutation; by rewrite Hperm].
      intros x y Hx Hy. rewrite merge_sort_Permutation in Hx. apply list_elem_of_filter in Hx as [_ Hx]. rewrite Hperm in Hx. apply Hin in Hy as [Hy _]. by apply Hanti. }
    rewrite Heq in Hout'. rewrite Ho. by destruct (List.find _ sorted); injection Hout' as <-.
  - destruct (List.find (halts ActionHaltSession) sorted) as [h|] eqn:Hf.
    + left. destruct (find_first rule_le _ _ _ (Hsort _) Hf) as (H1 & H2 & H3). apply Hin in H2 as [H2 H2']. exists h. split_and!; try done.
      intros r Hr Ht Hh. destruct (H3 r) as [->|[?|[? _]]]; [by apply Hin|done|lia|lia|lia].
    + right. split; [|split; [rewrite Ho; apply merge_sort_Permutation|rewrite Ho; apply Hsort]].
      intros r Hr Ht. apply (List.find_none _ _ Hf). apply list_elem_of_In. by apply Hin.
Qed.
End Evaluation.

(** A bundle that loads has distinct identifiers. *)
Lemma validateRules_nodup regexp_ok tokenize tn tt to a1 a2 a3 seen l : validateRules regexp_ok tokenize tn tt to a1 a2 a3 seen l = None →
  NoDup (r_ID <$> l) ∧ Forall (λ r, r_ID r ∉ seen) l.
Proof.
  revert seen. induction l as [|r l IH]; intros seen; cbn [validateRules fmap list_fmap]; [split; constructor|].
  destruct (blank _ || blank _); [done|]. cbn [orb]. case_bool_decide as Hin; [done|]. destruct (_ || _); [done|]. intros H. destruct (IH _ H) as [H1 H2].
  split; [|constructor; [done|]].
  - constructor; [|done]. intros (x & Hx & Hx')%list_elem_of_fmap. rewrite Forall_forall in H2. apply (H2 x Hx'). rewrite <- Hx. by left.
  - eapply Forall_impl; [apply H2|]. intros x Hx Hs. apply Hx. by right.
Qed.
Lemma parsed_nodup regexp_ok tokenize tn tt to a1 a2 a3 AD tb data digest b :
  ParseReflexBundle regexp_ok tokenize tn tt to a1 a2 a3 AD tb data digest = Ok b → NoDup (r_ID <$> b_Rules b) ∧ AD data = digest ∧ b_Version b = Version.
Proof.
  unfold ParseReflexBundle. destruct (1048576 <? _)%Z; [done|]. case_bool_decide as Hd; [|done]. cbn [negb].
  destruct (decode tokenize tb data) as [x|]; cbn; [|done]. case_bool_decide as Hv; [|done]. cbn. destruct (_ || _); [done|].
  destruct (validateRules _ _ _ _ _ _ _ _ [] (b_Rules x)) eqn:E; [done|]. intros [= <-]. apply validateRules_nodup in E as [? _]. done.
Qed.

(** Two reminders and a halt of low priority; every trigger fires. *)
Definition rule (id : string) (priority : Z) (kind : string) : ReflexRule :=
  mkRule id id priority (mkTrigger "event" id) (mkAction kind "b" "r" "").
Definition three_rules : ReflexBundle := mkBundle "1" [rule "b" 2 "remind"; rule "a" 2 "remind"; rule "h" 1 "halt"].
Lemma evaluate_decides_witness :
  Evaluate "halt" (λ _, Ok true) [] three_rules = Ok [rule "h" 1 "halt"] ∧
  Evaluate "stop" (λ _, Ok true) [] three_rules = Ok [rule "a" 2 "remind"; rule "b" 2 "remind"; rule "h" 1 "halt"] ∧
  ∀ b' out', b_Rules b' ≡ₚ b_Rules three_rules → Evaluate "halt" (λ _, Ok true) [] b' = Ok out' → out' = [rule "h" 1 "halt"].
Proof.
  split; [vm_compute; reflexivity|]. split; [vm_compute; reflexivity|]. intros b' out' Hp Ho.
  destruct (evaluate_decides "halt" (λ _, Ok true) [] three_rules [rule "h" 1 "halt"]) as [H _];
    [vm_compute; repeat constructor; set_solver|vm_compute; reflexivity|]. exact (H [] b' out' Hp Ho).
Defined.
